(* ===== verification/_CoqProject ===== *)
-Q . S2P
Prelude.v
Clock.v
SumTree.v
SumTreeFacts.v
SumTreeBulk.v
Cursor.v
CursorFacts.v
CursorSeek.v
CursorMove.v
CursorIter.v
Keyed.v
KeyedFacts.v
TreeMap.v
TreeMapFacts.v
Integers.v
SumTreeSpec.v
TreeMapSpec.v
Locator.v
UndoMap.v
OperationQueue.v
Patch.v
PatchFacts.v
PatchCompose.v
PatchSpec.v
Subscription.v
Selection.v
Point.v
Bits.v
Select.v
Utf8.v
Chunk.v
ChunkFacts.v
ChunkMeasures.v
TextSummary.v
ChunkSpec.v
ChunkPoints.v
ChunkPointsFacts.v
ChunkPointsSpec.v
RopeTree.v
Rope.v
RopeBuild.v
RopeSlice.v
RopePoints.v
RopeConvert.v
RopeSpec.v
RopeChunks.v
RopeChunksFacts.v
RopeCompare.v
RopeLinesIter.v
RopeLineMoves.v
RopeChunksSpec.v
Fragment.v
Snapshot.v
History.v
HistorySpec.v
Buffer.v
Undo.v
Remote.v
Anchor.v
Document.v
Walk.v
Layout.v
LocalEdit.v
RemoteWalk.v
RemoteEdit.v
BufferOk.v
BufferEdit.v
BufferLocal.v
BufferSpec.v
UndoWalk.v
UndoBuffer.v
UndoSpec.v
AnchorSpec.v
RemoteOps.v
RemoteSpec.v
Delivery.v
