(* ===== verification/Prelude.v ===== *)
(** * A verification of HiCodeer's text core

    HiCodeer is a code editor for HarmonyOS derived from Zed, written in Rust.
    Every buffer, map of edits, and diagnostic index of it rests on a few
    crates without input or output, and these are what this library models:

    - [crates/clock]: replica identifiers, Lamport time stamps and version
      vectors, which order the operations of replicas;
    - [crates/sum_tree]: a B+ tree of items with cached summaries, cursors that
      seek in it by any dimension of the summaries, batches of keyed edits, and
      the ordered maps and sets built on them;
    - [crates/text]: locators (dense positions), the undo map, the queue of
      deferred operations, patches between versions of a text, subscriptions
      to edits, selections; and the buffer: its fragments, snapshots, local
      edits, undo history, undo and redo, anchors, and the operations of other
      replicas, with their deferral and those who wait for them;
    - [crates/rope]: points; the chunks of text with their bitmaps and
      summaries; and the rope, a sum tree of chunks, with its cursors,
      conversions of positions and iterators.

    The buffer of [crates/text] keeps its fragments in a sum tree ordered by
    locators, its undo counts in an undo map, and its text in a rope; it stamps
    edits with a Lamport clock, defers remote operations in the queue, and
    publishes edits as patches to subscriptions.

    ** Conventions

    A function that may panic returns an [outcome]; a panic is a failed
    [unwrap], [assert!] (also [debug_assert!]), index, capacity or overflow
    check.  Overflow checks are those of debug builds, except that clocks wrap
    as in release builds ([tick], [Lamport_observe]; theorems keep them below
    [u32::MAX]) and their assertion on reserved replicas is left out ([observe]); where a theorem says that
    code returns, release builds, which wrap, compute the same.  Loops run with
    fuel, and the theorems say that the fuel given suffices: they are
    equalities with [Ret], or use [returns], which asks for a result.
    Integers are [N] (fixed-width fields), or [nat] (indices, lengths and
    offsets of type [usize], bounded where they are added).  [Arc]s and
    clones are values: the code only mutates trees it owns ([Arc::make_mut]).
    The shared patches of subscriptions are an explicit store.  A trait is a
    class, its laws a second class, and the theorems of a generic component are
    proved against these classes ([OrdLaws], [SummaryLaws], [MeasureLaws],
    [DimensionLaws], [KeyedLaws]); the instances discharge them.  Code of other
    libraries is a parameter: the unstable sorts ([sort_by_key], any sort by
    the key), the chunks of rayon's parallel iterators, the grapheme
    boundaries of unicode_segmentation, and the regular expression that
    replaces line separators ([replace_line_separators]).  [MAX_INSERTION_LEN]
    depends on the configuration and is an argument of at least 4, the length
    of the longest character.  Instants are given from outside.  [debug_panic!] depends on the build,
    which is an argument ([debug]) of the functions that use it.

    ** Files

    - [Prelude]: outcomes, loops and their rule, machine integers, orders.
    - [Clock]: [clock.rs].
    - [SumTree] (definitions of [sum_tree.rs]); [SumTreeFacts] and
      [SumTreeBulk] prove that well-formed trees (balanced, with bounded
      fan-out and right cached summaries) stay so and hold the expected items.
    - [Cursor] (definitions of [cursor.rs]); [CursorFacts], [CursorSeek],
      [CursorMove] and [CursorIter] show that a cursor stands for a split of
      the list of items, and how each operation moves it.
    - [Keyed], [KeyedFacts]: the keyed operations of [sum_tree.rs];
      [TreeMap], [TreeMapFacts]: [tree_map.rs].
    - [Integers]: the summary of the crate's tests, the instance on which the
      generic theorems are tried.
    - [SumTreeSpec], [TreeMapSpec]: the theorems on trees, cursors and maps.
    - [Locator], [UndoMap], [OperationQueue]: the files of these names in
      [crates/text/src], with their theorems.
    - [Patch] (definitions of [patch.rs], and the binary search of the
      standard library), [PatchFacts] (what a patch means:
      [rewrites]), [PatchCompose], [PatchSpec] (the theorems).
    - [Subscription], [Selection]: the files of these names.
    - [Point]: [point.rs] and [point_utf16.rs]; [Bits]: bit operations;
      [Utf8]: UTF-8 texts.
    - [Chunk] (definitions of [chunk.rs]), [ChunkFacts], [ChunkMeasures];
      [TextSummary]: the summaries of [rope.rs]; [ChunkSpec]:
      the theorems.
    - [Select]: [nth_set_bit] of [chunk.rs]; [ChunkPoints] (the conversions,
      clipping and tabs of [chunk.rs]), [ChunkPointsFacts], [ChunkPointsSpec].
    - [RopeTree]: chunks as items, the text dimensions and their laws;
      [Rope] (construction, cursors and slices of [rope.rs]), [RopeBuild],
      [RopeSlice]; [RopePoints] (the conversions of [rope.rs]),
      [RopeConvert]; [RopeSpec]: the theorems.
    - [RopeChunks] (the iterators of [rope.rs]), [RopeChunksFacts],
      [RopeCompare], [RopeLinesIter] (also bytes), [RopeLineMoves];
      [RopeChunksSpec]: the theorems.
    - [Fragment] (fragments, their summaries with their laws, and dimensions,
      visibility, the index of insertions, insertion slices), [Snapshot] (the
      builders and [apply_edit_internal]), [History] ([History] and
      transactions), [Buffer] (creation, transactions, [edit], edited copies),
      [Undo] ([fragment_ids_for_edits], [apply_undo], undo and redo), [Remote]
      ([apply_ops], [apply_op], [apply_remote_edit], deferral and waiting):
      definitions of [text.rs].
    - [Document]: texts and documents of fragments ([doc_ok]), and the builders
      of fragments and ropes; [Walk], [LocalEdit]: an edit as a walk over the
      old fragments; [BufferOk]: the invariant [buffer_ok] of snapshots, and
      new buffers; [BufferEdit], [BufferLocal]: [apply_edit_internal] and
      [Buffer::edit]; [BufferSpec]: the theorems.
    - [HistorySpec]: the steps of a history, its invariant and theorems.
    - [UndoWalk]: the fragments that edits touched, and [apply_undo] as a walk
      over the old fragments; [UndoBuffer]: the invariant [undo_inv] and the
      toggling of edits; [UndoSpec]: the theorems.
    - [Anchor]: [anchor.rs] and the anchors of [text.rs] and [selection.rs];
      [AnchorSpec]: the gaps that anchors name, and the theorems.
    - [Layout]: a document as the list of its bytes with their insertion and
      deletions, the abstract meaning [integrate] of an edit made at a version,
      and that such edits commute when they are concurrent; [RemoteWalk]: the
      cursor that skips what a version has not seen, and remote edits as walks
      over the old fragments; [RemoteEdit]: [apply_remote_edit] does what
      [integrate] says; [RemoteOps]: its invariant, that local edits are the
      special case of a version that has seen everything, and [apply_op];
      [RemoteSpec] (remote edits, convergence) and [Delivery] (deferral,
      flushing, waiting): the theorems.

    ** What is shown

    Sum trees refine lists: [append], [push], [extend], parallel construction,
    updates at the ends and reads act on the items as list operations do and
    keep the tree well formed.  Cursors refine splits of that list: [seek],
    [slice], [suffix], [summary], [next], [prev] and the filtered searches
    stop where a linear scan stops, for every monotone seek target.  Keyed
    edits, [TreeMap] and [TreeSet] refine strictly sorted association lists;
    repeated keys in [TreeMap::extend] are the exception, and proved to be.
    Version vectors are ordered by what was observed, with pointwise maxima
    and minima as [join] and [meet], and clocks
    issue increasing stamps.  [Locator::between] is dense on the locators the
    program makes.  Undo counts are maxima, so undo operations commute.  The
    operation queue is sorted and free of duplicates.  Patches compose, invert
    and translate positions; subscribers see exactly the edits since they last
    looked, in every interleaving.  Points are a monoid of distances; chunks
    carry the bitmaps of their text through every operation; the summary of a
    chunk is that of its text, and the summary of joined texts the sum of
    theirs.  A rope refines its text: building, appending, slicing and
    replacing act on the text as on a byte string and keep the invariant of
    the chunks; positions convert between bytes, UTF-16 units, points and
    UTF-16 points as counted in the text, and back; offsets and points are
    clipped to boundaries of the text; the iterators end, and show the text,
    its lines and its bytes in both directions.  One move of theirs does not:
    a reversed iterator read to the front cannot be sought again.

    A buffer refines its text as well.  A snapshot satisfies [buffer_ok] when
    its fragments are in the order of their locators, hold every byte of every
    insertion at most once, the ropes are the texts of the visible and of the
    other fragments, the index has one entry per fragment, and the insertion
    slices cover what the edits inserted and deleted.  New buffers satisfy it,
    and a local edit keeps it, splices the text as asked, loses no deleted
    text, and returns the operation to be sent and the patch between the two
    texts.  Histories keep their transactions unique as long as those pushed
    from outside are new, and panic only on a wrong depth.  Undo and redo find the touched fragments
    exactly, give them the visibility the undo counts ask for, and keep the
    invariant: undoing the transaction of a run of edits restores the text
    from before it, redoing it the text from after it.  The order of the bytes
    of a document, visible or not, never changes; anchors name gaps in it, so
    they resolve to where they were made, follow their byte through edits, and
    are ordered as the places they name.

    Replicas converge.  A remote edit whose version has been observed returns,
    keeps [buffer_ok], and does to the bytes of the document what [integrate]
    says: new text goes behind the bytes its version has seen and behind
    concurrent insertions with greater time stamps, and what its version saw
    as visible in its ranges is hidden.  A local edit is the same [integrate]
    at the current version, so its operation does the same on another replica;
    integrations that have not seen each other commute; hence replicas that
    edited concurrently and exchanged their operations have the same text.
    Operations of a replica are applied in their order, exactly when their
    version has been observed; what can be applied after deferral is; and
    those who wait for a version are told when an operation is applied after
    which it has been observed; edits and undos made here tell nobody.

    ** Bounds

    Cursor loops have fuel that grows with the number of nodes ([cursor_fuel]);
    cursors have a stack of bounded capacity, so their theorems ask that the
    height of the tree is below [STACK_CAP], which at the fan-out of the
    program no tree in memory reaches.  The height of a node, a [u8], is a
    [nat].  [compose] has one round per edit, [binary_search_by] one per
    halving, [Chunk::new] one per eight bytes, [longest_row] one per newline,
    the iterators of a rope one per byte of their range.
    Patches are theorems for texts of at most [isize::MAX] bytes, points and
    summaries for at most [u32::MAX].  Edits and undos of a buffer are for a
    visible and deleted text of at most [u32::MAX] bytes together, a clock
    below [u32::MAX], and trees below [STACK_CAP] ([shallow]), also the undo
    map after the operation.  The loops of an edit have one round per node of
    the tree of fragments, those of an insertion one per byte of its text.

    ** Not modelled

    Of the crates above: formatting and serialisation; [DimensionPair] of
    [rope.rs]; of [crates/text] the queries of a snapshot that only read it
    ([edits_since], rows and words).  Convergence is a theorem for
    replicas that made one edit each since they had the same document; longer
    histories follow from [concurrent_edits_commute] as long as every pair of
    operations that is exchanged satisfies its hypotheses, but are not a
    theorem of their own.  Undo operations of other replicas are shown to keep
    the invariant, not to commute with edits.
    User interface, language servers, agents, collaboration
    and file system layers are input and output around this core, and left
    out. *)
From stdpp Require Import base numbers option list.
From Stdlib Require Import Lia.

(** * Outcomes of Rust code that may panic

    [Ret a] is a normal return, [Panic] a Rust panic (failed [unwrap],
    [assert!], slice index or capacity overflow) and [OutOfFuel] the
    exhaustion of the fuel of a modelled loop.  Theorems about such code are
    equalities with [Ret], hence exclude both other outcomes. *)
Inductive outcome (A : Type) : Type :=
| Ret (a : A)
| Panic
| OutOfFuel.
Arguments Ret {A} a.
Arguments Panic {A}.
Arguments OutOfFuel {A}.

Declare Scope rust_scope.
Delimit Scope rust_scope with rust.

Notation "'let*' x ':=' m 'in' k" :=
  (match m with Ret x => k | Panic => Panic | OutOfFuel => OutOfFuel end)
  (at level 10, x name, m at level 100, k at level 200,
   format "'[v' 'let*'  x  ':='  m  'in' '/' k ']'") : rust_scope.
Notation "'let*' ' p ':=' m 'in' k" :=
  (match m with Ret p => k | Panic => Panic | OutOfFuel => OutOfFuel end)
  (at level 10, p strict pattern, m at level 100, k at level 200,
   format "'[v' 'let*'  ' p  ':='  m  'in' '/' k ']'") : rust_scope.
Global Open Scope rust_scope.

(** [Option::unwrap]. *)
Definition unwrap {A} (o : option A) : outcome A :=
  match o with Some a => Ret a | None => Panic end.

(** [assert!]. *)
Definition rust_assert (b : bool) : outcome unit := if b then Ret tt else Panic.

(** Total correctness: the computation returns, and its value satisfies [P]. *)
Definition returns {A} (m : outcome A) (P : A → Prop) : Prop :=
  ∃ a, m = Ret a ∧ P a.

Lemma returns_Ret {A} (a : A) (P : A → Prop) : P a → returns (Ret a) P.
Proof. intros HP. exists a. auto. Qed.

Lemma returns_mono {A} (m : outcome A) (P Q : A → Prop) :
  returns m P → (∀ a, P a → Q a) → returns m Q.
Proof. intros (a & -> & HP) HQ. exists a; auto. Qed.

Lemma returns_eq {A} (m : outcome A) (b : A) : returns m (λ a, a = b) → m = Ret b.
Proof. by intros (a & -> & ->). Qed.

Lemma returns_bind {A B} (m : outcome A) (k : A → outcome B) (P : A → Prop) (Q : B → Prop) :
  returns m P → (∀ a, P a → returns (k a) Q) →
  returns (let* a := m in k a) Q.
Proof. intros (a & -> & HP) HQ. auto. Qed.

(** Postconditions of straight-line code. *)
Create HintDb outcomes.
#[export] Hint Resolve returns_Ret : outcomes.
#[export] Hint Resolve returns_eq : outcomes.

(** ** Loops

    A Rust [loop]/[while] whose body either goes round with a new state
    ([inl]) or leaves with a result ([inr]), run with fuel. *)
Section Loop.
Context {St R : Type} (body : St → outcome (St + R)).

Fixpoint loop (fuel : nat) (s : St) : outcome R :=
  match fuel with
  | 0 => OutOfFuel
  | S fuel =>
      let* x := body s in
      match x with
      | inl s' => loop fuel s'
      | inr r => Ret r
      end
  end.

Lemma loop_body_eq fuel s s' : body s = body s' → loop fuel s = loop fuel s'.
Proof. destruct fuel; simpl; [done|]. by intros ->. Qed.

(** Total-correctness rule: an invariant indexed by a decreasing bound, and a
    postcondition established on exit. *)
Lemma loop_bounded (I : nat → St → Prop) (Q : R → Prop) :
  (∀ n s, I n s →
     (∃ s' n', body s = Ret (inl s') ∧ I n' s' ∧ n' < n) ∨
     (∃ r, body s = Ret (inr r) ∧ Q r)) →
  ∀ fuel n s, I n s → n < fuel → returns (loop fuel s) Q.
Proof.
  intros Hbody fuel. induction fuel as [|fuel IH]; intros n s HI Hn; [lia|].
  destruct (Hbody n s HI) as [(s' & n' & Hs & HI' & Hn')|(r & Hs & HQ)];
    simpl; rewrite Hs.
  - apply (IH n'); [done|lia].
  - by apply returns_Ret.
Qed.

(** The bound may be a measure of the state. *)
Lemma loop_returns (I : St → Prop) (m : St → nat) (Q : R → Prop) :
  (∀ s, I s →
     (∃ s', body s = Ret (inl s') ∧ I s' ∧ m s' < m s) ∨
     (∃ r, body s = Ret (inr r) ∧ Q r)) →
  ∀ fuel s, I s → m s < fuel → returns (loop fuel s) Q.
Proof.
  intros Hbody fuel s HI Hm.
  apply (loop_bounded (λ n s, I s ∧ n = m s) Q) with (n := m s); [|done|done].
  intros n s' [HI' ->]. destruct (Hbody s' HI') as [(s'' & ? & ? & ?)|?]; [left|by right].
  by exists s'', (m s'').
Qed.
End Loop.

(** * Lists *)
Lemma split_drop {A} (l s l' : list A) k :
  drop k l = s ++ l' →
  take (k + length s) l = take k l ++ s ∧ drop (k + length s) l = l'.
Proof.
  intros E. split.
  - by rewrite <-take_take_drop, E, take_app_length.
  - by rewrite <-drop_drop, E, drop_app_length.
Qed.

(** Two decompositions of a list, one cut at or before the other. *)
Lemma app_split_le {A} (l1 l2 k1 k2 : list A) :
  l1 ++ l2 = k1 ++ k2 → length l1 ≤ length k1 → ∃ m, k1 = l1 ++ m ∧ l2 = m ++ k2.
Proof.
  intros E Hlen. exists (drop (length l1) k1).
  assert (Ek : take (length l1) k1 = l1).
  { rewrite <-(take_app_le k1 k2) by done. by rewrite <-E, take_app_length. }
  split; [by rewrite <-(take_drop (length l1) k1) at 1; rewrite Ek|].
  rewrite <-drop_app_le by done. by rewrite <-E, drop_app_length.
Qed.

Lemma filter_filter {A} (f g : A → bool) (l : list A) :
  List.filter f (List.filter g l) = List.filter (λ x, f x && g x) l.
Proof.
  induction l as [|x l IH]; simpl; [done|]. destruct (g x), (f x) eqn:E; simpl; rewrite ?E, IH; done.
Qed.

(** * Machine integers *)
Definition U16_MAX : N := 65535.
Definition U32_MAX : N := 4294967295.
Definition U64_MAX : N := 18446744073709551615.
Definition wrap (bits : N) (n : N) : N := (n mod 2 ^ bits)%N.

Lemma wrap_small bits n : (n < 2 ^ bits)%N → wrap bits n = n.
Proof. apply N.mod_small. Qed.

(** Packing: a shifted number with its low bits filled in. *)
Lemma lor_shiftl_add (a b n : N) :
  (b < 2 ^ n)%N → N.lor (N.shiftl a n) b = (a * 2 ^ n + b)%N.
Proof.
  intros Hb. rewrite <-N.shiftl_mul_pow2.
  assert (N.land (N.shiftl a n) b = 0%N) as Hland.
  { apply N.bits_inj. intros i. rewrite N.land_spec, N.bits_0.
    destruct (decide (i < n)%N) as [Hi|Hi].
    - by rewrite N.shiftl_spec_low.
    - destruct (N.eq_dec b 0%N) as [->|Hb0]; [by rewrite N.bits_0, andb_false_r|].
      rewrite (N.bits_above_log2 b i), andb_false_r; [done|].
      apply N.log2_lt_pow2; [lia|]. eapply N.lt_le_trans; [exact Hb|].
      apply N.pow_le_mono_r; lia. }
  rewrite N.add_nocarry_lxor, <-N.lxor_lor by done. done.
Qed.

(** [usize] addition and subtraction, with the overflow checks of debug builds. *)
Definition usize_add (a b : nat) : outcome nat :=
  if (N.of_nat (a + b) <=? U64_MAX)%N then Ret (a + b) else Panic.
Definition usize_sub (a b : nat) : outcome nat :=
  if b <=? a then Ret (a - b) else Panic.

(** No allocation is larger than [isize::MAX] bytes. *)
Definition ISIZE_MAX : N := 9223372036854775807.
Definition fits {A} (l : list A) : Prop := (N.of_nat (length l) <= ISIZE_MAX)%N.

Lemma usize_add_ok a b : (N.of_nat (a + b) <= U64_MAX)%N → usize_add a b = Ret (a + b).
Proof. unfold usize_add. intros H. by apply N.leb_le in H as ->. Qed.
Lemma usize_sub_ok a b : b ≤ a → usize_sub a b = Ret (a - b).
Proof. unfold usize_sub. intros H. by apply Nat.leb_le in H as ->. Qed.

(** [u32] addition and subtraction, checked likewise. *)
Definition u32_add (a b : N) : outcome N := if (a + b <=? U32_MAX)%N then Ret (a + b)%N else Panic.
Definition u32_sub (a b : N) : outcome N := if (b <=? a)%N then Ret (a - b)%N else Panic.

Lemma u32_add_ok a b : (a + b <= U32_MAX)%N → u32_add a b = Ret (a + b)%N.
Proof. unfold u32_add. intros H. by apply N.leb_le in H as ->. Qed.
Lemma u32_sub_ok a b : (b <= a)%N → u32_sub a b = Ret (a - b)%N.
Proof. unfold u32_sub. intros H. by apply N.leb_le in H as ->. Qed.
Lemma u32_add_inv a b c : u32_add a b = Ret c → c = (a + b)%N ∧ (c <= U32_MAX)%N.
Proof. unfold u32_add. destruct (N.leb_spec (a + b) U32_MAX); [|done]. by intros [= <-]. Qed.

(** Linear arithmetic with the machine bounds, and evaluation of checked
    arithmetic whose bounds hold. *)
#[export] Hint Rewrite @length_app @length_take @length_drop : lengths.
Ltac usize_lia := unfold fits, U64_MAX, ISIZE_MAX in *; autorewrite with lengths in *; lia.
Ltac usize_eval :=
  repeat (first [rewrite usize_add_ok by usize_lia | rewrite usize_sub_ok by usize_lia]; cbn beta iota zeta).

(** * Orderings: [std::cmp::Ordering] is [comparison] *)
Definition then_with (c : comparison) (d : comparison) : comparison :=
  match c with Eq => d | _ => c end.

Definition is_ge (c : comparison) : bool := match c with Lt => false | _ => true end.
Definition is_le (c : comparison) : bool := match c with Gt => false | _ => true end.
Definition is_lt (c : comparison) : bool := match c with Lt => true | _ => false end.

(** Rust's [Ord]: a total order given by its three-way comparison. *)
Class Ord (A : Type) := cmp : A → A → comparison.
Class OrdLaws (A : Type) `{Ord A} := {
  cmp_eq : ∀ a b : A, cmp a b = Eq ↔ a = b;
  cmp_antisym : ∀ a b : A, cmp b a = CompOpp (cmp a b);
  cmp_lt_trans : ∀ a b c : A, cmp a b = Lt → cmp b c = Lt → cmp a c = Lt;
}.

Section OrdFacts.
Context {A : Type} `{OrdLaws A}.
Implicit Types a b c : A.

Definition lt_b a b : bool := is_lt (cmp a b).
Definition le_b a b : bool := is_le (cmp a b).
Definition olt a b : Prop := cmp a b = Lt.

Lemma cmp_refl a : cmp a a = Eq.
Proof. by apply cmp_eq. Qed.
Lemma cmp_gt_lt a b : cmp a b = Gt ↔ cmp b a = Lt.
Proof. rewrite (cmp_antisym a b). destruct (cmp a b); simpl; split; congruence. Qed.
Lemma olt_irrefl a : ¬ olt a a.
Proof. unfold olt. rewrite cmp_refl. congruence. Qed.
Lemma olt_trans a b c : olt a b → olt b c → olt a c.
Proof. apply cmp_lt_trans. Qed.
Lemma olt_trichotomy a b : olt a b ∨ a = b ∨ olt b a.
Proof.
  unfold olt. destruct (cmp a b) eqn:E; [|auto|].
  - right; left. by apply cmp_eq.
  - right; right. by apply cmp_gt_lt.
Qed.

Lemma le_b_lt a b : le_b a b = true ↔ olt a b ∨ a = b.
Proof.
  unfold le_b, olt. rewrite <-cmp_eq. destruct (cmp a b); simpl; split; try tauto;
    try (intros [|]; congruence); congruence.
Qed.
Lemma le_b_false a b : le_b a b = false ↔ olt b a.
Proof.
  unfold le_b, olt. rewrite <-cmp_gt_lt. destruct (cmp a b); simpl; split; congruence.
Qed.
Lemma le_b_trans a b c : le_b a b = true → le_b b c = true → le_b a c = true.
Proof.
  rewrite !le_b_lt. intros [Hab| ->] [Hbc| ->]; auto. left. by eapply olt_trans.
Qed.

Definition ord_eq_dec : EqDecision A.
Proof.
  intros a b. destruct (cmp a b) eqn:E.
  - left. by apply cmp_eq.
  - right. intros ->. by rewrite cmp_refl in E.
  - right. intros ->. by rewrite cmp_refl in E.
Defined.

Lemma then_with_Eq (c d : comparison) : then_with c d = Eq ↔ c = Eq ∧ d = Eq.
Proof. destruct c, d; simpl; intuition congruence. Qed.
End OrdFacts.

#[export] Instance N_ord : Ord N := N.compare.
#[export] Instance N_ord_laws : OrdLaws N.
Proof.
  split; unfold cmp, N_ord; intros.
  - apply N.compare_eq_iff.
  - apply N.compare_antisym.
  - rewrite N.compare_lt_iff in *. lia.
Qed.

#[export] Instance nat_ord : Ord nat := Nat.compare.
#[export] Instance nat_ord_laws : OrdLaws nat.
Proof.
  split; unfold cmp, nat_ord; intros.
  - apply Nat.compare_eq_iff.
  - apply Nat.compare_antisym.
  - rewrite Nat.compare_lt_iff in *. lia.
Qed.

Section LexOrd.
Context {A B C : Type} `{OrdLaws A, OrdLaws B} (f : C → A) (g : C → B).

(** Lexicographic comparison on two fields is a total order when the two
    fields determine the value. *)
Lemma lex_eq (a b : C) :
  then_with (cmp (f a) (f b)) (cmp (g a) (g b)) = Eq ↔ f a = f b ∧ g a = g b.
Proof. by rewrite then_with_Eq, !cmp_eq. Qed.

Lemma lex_antisym (a b : C) :
  then_with (cmp (f b) (f a)) (cmp (g b) (g a))
  = CompOpp (then_with (cmp (f a) (f b)) (cmp (g a) (g b))).
Proof.
  rewrite (cmp_antisym (f a)), (cmp_antisym (g a)).
  by destruct (cmp (f a) (f b)), (cmp (g a) (g b)).
Qed.

Lemma lex_lt_trans (a b c : C) :
  then_with (cmp (f a) (f b)) (cmp (g a) (g b)) = Lt →
  then_with (cmp (f b) (f c)) (cmp (g b) (g c)) = Lt →
  then_with (cmp (f a) (f c)) (cmp (g a) (g c)) = Lt.
Proof.
  intros H1' H2'.
  destruct (cmp (f a) (f b)) eqn:E1; simpl in *; try done;
    destruct (cmp (f b) (f c)) eqn:E2; simpl in *; try done.
  - apply cmp_eq in E1, E2. rewrite E1, E2, cmp_refl. simpl.
    by eapply cmp_lt_trans.
  - apply cmp_eq in E1. by rewrite E1, E2.
  - apply cmp_eq in E2. by rewrite <-E2, E1.
  - by rewrite (cmp_lt_trans _ _ _ E1 E2).
Qed.
End LexOrd.

(** The derived order of [Option]: [None] first. *)
#[export] Instance option_ord {A} `{Ord A} : Ord (option A) := λ a b,
  match a, b with
  | None, None => Eq
  | None, Some _ => Lt
  | Some _, None => Gt
  | Some a, Some b => cmp a b
  end.
#[export] Instance option_ord_laws {A} `{OrdLaws A} : OrdLaws (option A).
Proof.
  split; unfold cmp, option_ord.
  - intros [a|] [b|]; rewrite ?cmp_eq; split; congruence.
  - intros [a|] [b|]; simpl; try done. apply cmp_antisym.
  - intros [a|] [b|] [c|]; try done. apply cmp_lt_trans.
Qed.

(** Results of checked computations: those that panicked come first. *)
Definition outcome_ord {A} `{Ord A} : Ord (outcome A) := λ a b,
  match a, b with
  | Ret a, Ret b => cmp a b
  | Ret _, _ => Gt
  | _, Ret _ => Lt
  | Panic, Panic | OutOfFuel, OutOfFuel => Eq
  | Panic, OutOfFuel => Lt
  | OutOfFuel, Panic => Gt
  end.
Lemma outcome_ord_laws {A} `{OrdLaws A} : @OrdLaws (outcome A) outcome_ord.
Proof.
  split; unfold cmp, outcome_ord.
  - intros [a| |] [b| |]; rewrite ?cmp_eq; split; congruence.
  - intros [a| |] [b| |]; simpl; try done. apply cmp_antisym.
  - intros [a| |] [b| |] [c| |]; try done. apply cmp_lt_trans.
Qed.

(** The derived order of [()]. *)
#[export] Instance unit_ord : Ord unit := λ _ _, Eq.

(** The derived order of sequences: lexicographic, a prefix before its extensions. *)
Section ListOrd.
Context {A : Type} `{OrdLaws A}.

Fixpoint list_cmp (a b : list A) : comparison :=
  match a, b with
  | [], [] => Eq
  | [], _ :: _ => Lt
  | _ :: _, [] => Gt
  | x :: a, y :: b => then_with (cmp x y) (list_cmp a b)
  end.

Lemma list_cmp_eq a b : list_cmp a b = Eq ↔ a = b.
Proof.
  revert b. induction a as [|x a IH]; intros [|y b]; simpl; try (split; congruence).
  rewrite then_with_Eq, cmp_eq, IH. split; [intros [-> ->]; done|by intros [= -> ->]].
Qed.
Lemma list_cmp_antisym a b : list_cmp b a = CompOpp (list_cmp a b).
Proof.
  revert b. induction a as [|x a IH]; intros [|y b]; simpl; try done.
  rewrite (cmp_antisym x y), IH. by destruct (cmp x y).
Qed.
Lemma list_cmp_lt_trans a b c : list_cmp a b = Lt → list_cmp b c = Lt → list_cmp a c = Lt.
Proof.
  revert b c. induction a as [|x a IH]; intros [|y b] [|z c]; simpl; try done.
  destruct (cmp x y) eqn:E1, (cmp y z) eqn:E2; simpl; try done.
  - apply cmp_eq in E1, E2. rewrite E1, E2, cmp_refl. simpl. apply IH.
  - apply cmp_eq in E1. by rewrite E1, E2.
  - apply cmp_eq in E2. by rewrite <-E2, E1.
  - by rewrite (cmp_lt_trans _ _ _ E1 E2).
Qed.
End ListOrd.

#[export] Instance list_ord {A} `{OrdLaws A} : Ord (list A) := list_cmp.
#[export] Instance list_ord_laws {A} `{OrdLaws A} : OrdLaws (list A).
Proof. split; [apply list_cmp_eq|apply list_cmp_antisym|apply list_cmp_lt_trans]. Qed.

(** [std::cmp::max] *)
Definition cmp_max {A} `{Ord A} (a b : A) : A := match cmp a b with Gt => a | _ => b end.

Lemma cmp_max_lt {A} `{OrdLaws A} (a b : A) : olt a b → cmp_max a b = b.
Proof. unfold olt, cmp_max. by intros ->. Qed.
Lemma cmp_max_le {A} `{OrdLaws A} (a b : A) : is_le (cmp a b) = true → cmp_max a b = b.
Proof. unfold cmp_max. by destruct (cmp a b). Qed.
