(* ===== verification/Clock.v ===== *)
(** * Logical clocks ([crates/clock/src/clock.rs])

    Replica ids, Lamport timestamps and version vectors ([Global]).  Integers
    keep their width: [u16]/[u32]/[u64] are [N] with wrap-around written out.
    A [Global] is the code's vector [values], indexed by replica id, absent
    entries meaning 0.  [debug_assert]s are not part of the release build and
    are not modelled. *)
From stdpp Require Import base numbers option list.
From Stdlib Require Import Lia.
From S2P Require Import Prelude.

(** ** Replica ids *)
Record ReplicaId := MkReplicaId { as_u16 : N }.

Definition LOCAL := MkReplicaId 0.
Definition REMOTE_SERVER := MkReplicaId 1.
Definition AGENT := MkReplicaId 2.
Definition LOCAL_BRANCH := MkReplicaId 3.
Definition FIRST_COLLAB_ID := MkReplicaId 8.

Definition is_remote (r : ReplicaId) : bool :=
  (as_u16 r =? as_u16 REMOTE_SERVER)%N || (as_u16 FIRST_COLLAB_ID <=? as_u16 r)%N.

(** ** Lamport timestamps *)
Record Lamport := MkLamport { value : N; replica_id : ReplicaId }.

#[export] Instance ReplicaId_ord : Ord ReplicaId := λ a b, cmp (as_u16 a) (as_u16 b).
#[export] Instance Lamport_ord : Ord Lamport := λ a b,
  then_with (cmp (value a) (value b)) (cmp (replica_id a) (replica_id b)).

Definition Lamport_MIN := MkLamport 0 (MkReplicaId 0).
Definition Lamport_MAX := MkLamport U32_MAX (MkReplicaId U16_MAX).

Definition Lamport_new (r : ReplicaId) : Lamport := MkLamport 1 r.

(** [((self.value as u64) << 32) | (self.replica_id.0 as u64)] *)
Definition as_u64 (t : Lamport) : N :=
  N.lor (wrap 64 (N.shiftl (value t) 32)) (as_u16 (replica_id t)).

(** [tick] returns the current timestamp and advances the clock. *)
Definition tick (t : Lamport) : Lamport * Lamport :=
  (t, MkLamport (wrap 32 (value t + 1)) (replica_id t)).

Definition Lamport_observe (t timestamp : Lamport) : Lamport :=
  MkLamport (wrap 32 (N.max (value t) (value timestamp) + 1)) (replica_id t).

(** Values that fit the struct's fields. *)
Definition lamport_fits (t : Lamport) : Prop :=
  (value t <= U32_MAX ∧ as_u16 (replica_id t) <= U16_MAX)%N.

(** ** Version vectors *)
Record Global := MkGlobal { values : list N }.

Definition Global_new : Global := MkGlobal [].

(** [values.get(replica_id as usize).copied().unwrap_or(0)] *)
Definition get (g : Global) (r : ReplicaId) : N :=
  default 0%N (values g !! N.to_nat (as_u16 r)).

(** [Vec::resize]: grow with the given value, or truncate. *)
Definition vec_resize (n : nat) (x : N) (l : list N) : list N :=
  take n l ++ replicate (n - length l) x.

Definition observe (g : Global) (timestamp : Lamport) : Global :=
  if (0 <? value timestamp)%N then
    let ix := N.to_nat (as_u16 (replica_id timestamp)) in
    let new_len := ix + 1 in
    let vs := if length (values g) <? new_len
              then vec_resize new_len 0%N (values g) else values g in
    let entry := default 0%N (vs !! ix) in
    MkGlobal (<[ix := N.max entry (value timestamp)]> vs)
  else g.

(** The loop [for (left, right) in self.iter_mut().zip(other)]: entries of
    [self] past the end of [other] are left alone. *)
Fixpoint zip_update (f : N → N → N) (ls rs : list N) : list N :=
  match ls, rs with
  | l :: ls, r :: rs => f l r :: zip_update f ls rs
  | ls, _ => ls
  end.

Definition join (g other : Global) : Global :=
  let vs := if length (values g) <? length (values other)
            then vec_resize (length (values other)) 0%N (values g) else values g in
  MkGlobal (zip_update N.max vs (values other)).

Definition meet_entry (l r : N) : N :=
  if (l =? 0)%N then r
  else if (r =? 0)%N then l
  else N.min l r.

(** [new_len]: one past the last processed non-zero entry. *)
Fixpoint meet_new_len (ix : nat) (new_len : nat) (ls rs : list N) : nat :=
  match ls, rs with
  | l :: ls, r :: rs =>
      meet_new_len (S ix) (if (meet_entry l r =? 0)%N then new_len else ix + 1) ls rs
  | _, _ => new_len
  end.

Definition meet (g other : Global) : Global :=
  let vs := if length (values g) <? length (values other)
            then vec_resize (length (values other)) 0%N (values g) else values g in
  let new_len := meet_new_len 0 0 vs (values other) in
  let vs' := zip_update meet_entry vs (values other) in
  MkGlobal (if length (values other) =? length vs' then take new_len vs' else vs').

Definition observed (g : Global) (timestamp : Lamport) : bool :=
  (value timestamp <=? get g (replica_id timestamp))%N.

(** [iter]: every entry as a timestamp, [replica_id as u16] included. *)
Definition iter (g : Global) : list Lamport :=
  imap (λ ix seq, MkLamport seq (MkReplicaId (wrap 16 (N.of_nat ix)))) (values g).

Definition observed_any (g other : Global) : bool :=
  existsb (λ '(l, r), (0 <? value r)%N && (value r <=? value l)%N)
    (zip (iter g) (iter other)).

Definition observed_all (g other : Global) : bool :=
  if length (values g) <? length (values other) then false
  else forallb (λ '(l, r), (value r <=? value l)%N)
         (zip (iter g) (iter other)).

Definition changed_since (g other : Global) : bool :=
  (length (values other) <? length (values g))
  || existsb (λ '(l, r), (r <? l)%N) (zip (values g) (values other)).

(** [Iterator::max_by_key]: the last of the maximal elements. *)
Definition most_recent (g : Global) : option Lamport :=
  foldl (λ acc t, match acc with
                  | None => Some t
                  | Some m => if (value m <=? value t)%N then Some t else acc
                  end) None (iter g).

Definition Global_from_iter (locals : list Lamport) : Global :=
  foldl observe Global_new locals.

(** * Properties *)

#[export] Instance ReplicaId_ord_laws : OrdLaws ReplicaId.
Proof.
  split; unfold cmp, ReplicaId_ord.
  - intros [a] [b]; simpl. rewrite cmp_eq. split; congruence.
  - intros; apply cmp_antisym.
  - intros a b c. apply cmp_lt_trans.
Qed.

#[export] Instance Lamport_ord_laws : OrdLaws Lamport.
Proof.
  split; unfold cmp, Lamport_ord.
  - intros a b. rewrite lex_eq. destruct a as [va ra], b as [vb rb]; simpl. split; [intros [-> ->]|intros [= -> ->]]; done.
  - intros a b. apply lex_antisym.
  - intros a b c. apply lex_lt_trans.
Qed.

(** ** Entries of a version vector *)

Lemma lookup_vec_resize n l i :
  length l ≤ n → default 0%N (vec_resize n 0%N l !! i) = default 0%N (l !! i).
Proof.
  intros Hn. unfold vec_resize. rewrite take_ge by lia.
  destruct (decide (i < length l)) as [Hi|Hi].
  - by rewrite lookup_app_l.
  - rewrite lookup_app_r, (lookup_ge_None_2 l i) by lia.
    destruct (replicate _ _ !! _) eqn:E; [|done].
    by apply lookup_replicate in E as [-> _].
Qed.

Lemma length_vec_resize n x l : length (vec_resize n x l) = n.
Proof. unfold vec_resize. rewrite length_app, length_take, length_replicate. lia. Qed.

Lemma length_zip_update f ls rs : length (zip_update f ls rs) = length ls.
Proof.
  revert rs. induction ls as [|l ls IH]; intros [|r rs]; simpl; auto.
Qed.

Lemma lookup_zip_update f ls rs i :
  zip_update f ls rs !! i =
  match ls !! i, rs !! i with
  | Some l, Some r => Some (f l r)
  | o, _ => o
  end.
Proof.
  revert rs i. induction ls as [|l ls IH]; intros [|r rs] [|i]; simpl; auto.
  by destruct (ls !! i).
Qed.

(** The grown vector of [observe], [join] and [meet] has the same entries. *)
Definition grown (n : nat) (l : list N) : list N :=
  if length l <? n then vec_resize n 0%N l else l.

Lemma lookup_grown n l i : default 0%N (grown n l !! i) = default 0%N (l !! i).
Proof.
  unfold grown. destruct (Nat.ltb_spec (length l) n); [|done].
  apply lookup_vec_resize. lia.
Qed.

Lemma length_grown n l : length (grown n l) = length l `max` n.
Proof.
  unfold grown. destruct (Nat.ltb_spec (length l) n); rewrite ?length_vec_resize; lia.
Qed.

Lemma as_u16_inj_iff (r s : ReplicaId) :
  N.to_nat (as_u16 r) = N.to_nat (as_u16 s) ↔ r = s.
Proof. destruct r, s; simpl. split; intros; [f_equal; lia|congruence]. Qed.

#[export] Instance ReplicaId_eq_dec : EqDecision ReplicaId.
Proof. solve_decision. Defined.
#[export] Instance Lamport_eq_dec : EqDecision Lamport.
Proof. solve_decision. Defined.
#[export] Instance Global_eq_dec : EqDecision Global.
Proof. solve_decision. Defined.

Lemma get_observe g t r :
  get (observe g t) r =
  if decide (r = replica_id t) then N.max (get g r) (value t) else get g r.
Proof.
  unfold observe. destruct (N.ltb_spec 0 (value t)) as [Hv|Hv].
  - unfold get; simpl. fold (grown (N.to_nat (as_u16 (replica_id t)) + 1) (values g)).
    set (ix := N.to_nat (as_u16 (replica_id t))).
    case_decide as Hr.
    + subst r. rewrite list_lookup_insert_eq by (rewrite length_grown; lia).
      simpl. by rewrite lookup_grown.
    + rewrite list_lookup_insert_ne by (unfold ix; rewrite as_u16_inj_iff; congruence).
      apply lookup_grown.
  - case_decide; lia.
Qed.

Lemma get_join g h r : get (join g h) r = N.max (get g r) (get h r).
Proof.
  unfold join, get; simpl. fold (grown (length (values h)) (values g)).
  set (i := N.to_nat (as_u16 r)).
  rewrite lookup_zip_update, <-(lookup_grown (length (values h)) (values g)).
  destruct (grown _ (values g) !! i) as [l|] eqn:El, (values h !! i) as [x|] eqn:Eh; simpl; try lia.
  apply lookup_ge_None in El. apply lookup_lt_Some in Eh. rewrite length_grown in El. lia.
Qed.

(** ** [meet] and its truncation *)

Definition trim_len (ix nl : nat) (zs : list N) : nat :=
  (foldl (λ '(ix, nl) z, (S ix, if (z =? 0)%N then nl else ix + 1)) (ix, nl) zs).2.

Lemma meet_new_len_trim ix nl ls rs :
  length ls = length rs →
  meet_new_len ix nl ls rs = trim_len ix nl (zip_update meet_entry ls rs).
Proof.
  revert ix nl rs. induction ls as [|l ls IH]; intros ix nl [|r rs] Hlen; simplify_eq/=; try done.
  rewrite IH by done. done.
Qed.

(** [trim_len 0 0 zs] cuts exactly the trailing zeros of [zs]. *)
Lemma trim_len_snoc ix nl zs z :
  trim_len ix nl (zs ++ [z]) =
  if (z =? 0)%N then trim_len ix nl zs else ix + length zs + 1.
Proof.
  unfold trim_len. rewrite foldl_app. simpl.
  assert (∀ nl, (foldl (λ '(ix, nl) z, (S ix, if (z =? 0)%N then nl else ix + 1))
            (ix, nl) zs).1 = ix + length zs) as Hix.
  { revert ix. induction zs as [|y zs IH]; intros ix nl'; simpl; [lia|]. rewrite IH. lia. }
  specialize (Hix nl). destruct (foldl _ _ zs) as [i n]; simpl in *. subst i.
  by destruct (z =? 0)%N.
Qed.

Definition trimmed_list (l : list N) : Prop := last l ≠ Some 0%N.
Definition trimmed (g : Global) : Prop := trimmed_list (values g).

Lemma trim_len_le zs : trim_len 0 0 zs ≤ length zs.
Proof.
  induction zs as [|z zs IH] using rev_ind; [unfold trim_len; simpl; lia|].
  rewrite trim_len_snoc, length_app. destruct (z =? 0)%N; simpl; lia.
Qed.

Lemma take_trim_trimmed zs : trimmed_list (take (trim_len 0 0 zs) zs).
Proof.
  induction zs as [|z zs IH] using rev_ind; [done|].
  rewrite trim_len_snoc. destruct (N.eqb_spec z 0) as [->|Hz].
  - rewrite take_app_le by apply trim_len_le. done.
  - rewrite take_ge by (rewrite length_app; simpl; lia).
    unfold trimmed_list. rewrite last_snoc. congruence.
Qed.

Lemma lookup_take_trim zs i :
  default 0%N (take (trim_len 0 0 zs) zs !! i) = default 0%N (zs !! i).
Proof.
  induction zs as [|z zs IH] using rev_ind; [done|].
  rewrite trim_len_snoc. destruct (N.eqb_spec z 0) as [->|Hz].
  - rewrite take_app_le by apply trim_len_le. rewrite IH.
    destruct (decide (i < length zs)).
    + by rewrite lookup_app_l.
    + rewrite lookup_app_r, lookup_ge_None_2 by lia.
      by destruct (i - length zs) as [|[]].
  - by rewrite take_ge by (rewrite length_app; simpl; lia).
Qed.

Lemma get_meet g h r : get (meet g h) r = meet_entry (get g r) (get h r).
Proof.
  unfold meet, get; simpl. fold (grown (length (values h)) (values g)).
  set (i := N.to_nat (as_u16 r)). set (vs := grown _ _).
  trans (default 0%N (zip_update meet_entry vs (values h) !! i)).
  - destruct (Nat.eqb_spec (length (values h)) (length (zip_update meet_entry vs (values h))))
      as [Hl|]; [|done].
    rewrite length_zip_update in Hl. rewrite meet_new_len_trim by done.
    apply lookup_take_trim.
  - rewrite lookup_zip_update, <-(lookup_grown (length (values h)) (values g)). fold vs.
    destruct (vs !! i) as [l|] eqn:El, (values h !! i) as [x|] eqn:Eh; simpl.
    + done.
    + unfold meet_entry. by destruct (N.eqb_spec l 0) as [->|].
    + apply lookup_ge_None in El. apply lookup_lt_Some in Eh.
      unfold vs in El. rewrite length_grown in El. lia.
    + done.
Qed.

(** ** The no-trailing-zero invariant

    Equality, [observed_all] and [changed_since] look at the vectors' lengths:
    they mean what they say because no operation ever leaves a trailing zero. *)

Lemma trimmed_list_spec l :
  trimmed_list l ↔ ∀ n, length l = S n → default 0%N (l !! n) ≠ 0%N.
Proof.
  unfold trimmed_list. rewrite last_lookup. destruct (length l) as [|n] eqn:E; simpl.
  - apply nil_length_inv in E as ->. simpl. split; [lia|done].
  - destruct (lookup_lt_is_Some_2 l n) as [x Hx]; [lia|]. split.
    + intros Hne ? [= <-]. rewrite Hx in *. simpl. congruence.
    + intros H. specialize (H n eq_refl). rewrite Hx in *. simpl in *. congruence.
Qed.

(** Entry [n] of a vector, by index. *)
Lemma get_lookup g n : get g (MkReplicaId (N.of_nat n)) = default 0%N (values g !! n).
Proof. unfold get; simpl. by rewrite Nat2N.id. Qed.

Lemma trimmed_new : trimmed Global_new.
Proof. done. Qed.

Lemma trimmed_observe g t : trimmed g → trimmed (observe g t).
Proof.
  unfold trimmed. rewrite !trimmed_list_spec. intros Hg n Hn.
  rewrite <-get_lookup, get_observe, get_lookup.
  unfold observe in Hn. destruct (N.ltb_spec 0 (value t)) as [Hv|Hv]; simpl in Hn.
  - rewrite length_insert in Hn.
    fold (grown (N.to_nat (as_u16 (replica_id t)) + 1) (values g)) in Hn.
    rewrite length_grown in Hn. case_decide as Hr; [lia|].
    apply Hg. destruct (replica_id t) as [r]; simpl in *.
    enough (n ≠ N.to_nat r) by lia. intros ->. apply Hr. f_equal. lia.
  - case_decide; [|by apply Hg]. specialize (Hg n Hn). lia.
Qed.

Lemma trimmed_join g h : trimmed g → trimmed h → trimmed (join g h).
Proof.
  unfold trimmed. rewrite !trimmed_list_spec. intros Hg Hh n Hn.
  rewrite <-get_lookup, get_join, !get_lookup.
  unfold join in Hn; simpl in Hn. rewrite length_zip_update in Hn.
  fold (grown (length (values h)) (values g)) in Hn. rewrite length_grown in Hn.
  destruct (decide (length (values g) = S n)) as [E|E].
  - specialize (Hg n E). lia.
  - assert (length (values h) = S n) as E' by lia. specialize (Hh n E'). lia.
Qed.

Lemma trimmed_meet g h : trimmed g → trimmed h → trimmed (meet g h).
Proof.
  unfold trimmed, meet; simpl. fold (grown (length (values h)) (values g)).
  intros Hg Hh. set (vs := grown _ _).
  destruct (Nat.eqb_spec (length (values h)) (length (zip_update meet_entry vs (values h))))
    as [Hl|Hl]; rewrite length_zip_update in Hl.
  - rewrite meet_new_len_trim by done. apply take_trim_trimmed.
  - unfold vs in Hl. rewrite length_grown in Hl.
    assert (vs = values g) as ->.
    { unfold vs, grown. destruct (Nat.ltb_spec (length (values g)) (length (values h))); [lia|done]. }
    rewrite trimmed_list_spec in Hg |- *. intros n Hn.
    rewrite length_zip_update in Hn. rewrite lookup_zip_update.
    rewrite (lookup_ge_None_2 (values h)) by lia. specialize (Hg n Hn).
    by destruct (values g !! n).
Qed.

Lemma trimmed_from_iter ts : trimmed (Global_from_iter ts).
Proof.
  unfold Global_from_iter. generalize trimmed_new. generalize Global_new as g.
  induction ts as [|t ts IH]; intros g Hg; simpl; [done|].
  by apply IH, trimmed_observe.
Qed.

Lemma trimmed_length_le g h :
  trimmed g → (∀ r, get g r ≠ 0%N → get h r ≠ 0%N) → length (values g) ≤ length (values h).
Proof.
  intros Hg Hle. destruct (length (values g)) as [|n] eqn:E; [lia|].
  unfold trimmed in Hg. rewrite trimmed_list_spec in Hg. specialize (Hg n E).
  rewrite <-get_lookup in Hg. apply Hle in Hg. rewrite get_lookup in Hg.
  destruct (values h !! n) eqn:Eh; [|done]. apply lookup_lt_Some in Eh. lia.
Qed.

Lemma iter_length g : length (iter g) = length (values g).
Proof. unfold iter. apply length_imap. Qed.

Lemma map_value_iter g : value <$> iter g = values g.
Proof.
  unfold iter. apply list_eq. intros i. rewrite list_lookup_fmap, list_lookup_imap.
  by destruct (values g !! i).
Qed.

(** Comparisons over the zipped entries, index by index. *)
Lemma forallb_zip_spec {A B} (f : A * B → bool) (la : list A) (lb : list B) :
  forallb f (zip la lb) = true ↔
  ∀ i a b, la !! i = Some a → lb !! i = Some b → f (a, b) = true.
Proof.
  rewrite forallb_forall. split.
  - intros H i a b Ha Hb. apply H, list_elem_of_In, list_elem_of_lookup.
    exists i. by rewrite lookup_zip_with, Ha; simpl; rewrite Hb.
  - intros H [a b] Hin. apply list_elem_of_In, list_elem_of_lookup in Hin as [i Hi].
    rewrite lookup_zip_with in Hi. destruct (la !! i) eqn:Ea, (lb !! i) eqn:Eb; simplify_eq/=.
    by eapply H.
Qed.

Lemma existsb_zip_spec {A B} (f : A * B → bool) (la : list A) (lb : list B) :
  existsb f (zip la lb) = true ↔
  ∃ i a b, la !! i = Some a ∧ lb !! i = Some b ∧ f (a, b) = true.
Proof.
  rewrite existsb_exists. split.
  - intros ([a b] & Hin & Hf). apply list_elem_of_In, list_elem_of_lookup in Hin as [i Hi].
    rewrite lookup_zip_with in Hi. destruct (la !! i) eqn:Ea, (lb !! i) eqn:Eb; simplify_eq/=.
    by exists i, a, b.
  - intros (i & a & b & Ha & Hb & Hf). exists (a, b). split; [|done].
    apply list_elem_of_In, list_elem_of_lookup. exists i.
    by rewrite lookup_zip_with, Ha; simpl; rewrite Hb.
Qed.

Lemma lookup_iter g i :
  iter g !! i = (λ s, MkLamport s (MkReplicaId (wrap 16 (N.of_nat i)))) <$> values g !! i.
Proof. unfold iter. by rewrite list_lookup_imap. Qed.

Lemma observed_all_iff g h :
  trimmed h → observed_all g h = true ↔ ∀ r, (get h r <= get g r)%N.
Proof.
  intros Hh. unfold observed_all. destruct (Nat.ltb_spec (length (values g)) (length (values h))) as [Hl|Hl].
  - split; [done|]. intros Hle. exfalso.
    enough (length (values h) ≤ length (values g)) by lia.
    apply trimmed_length_le; [done|]. intros r Hr. specialize (Hle r). lia.
  - rewrite forallb_zip_spec. split.
    + intros H [r]. unfold get; simpl. set (i := N.to_nat r).
      destruct (values h !! i) as [y|] eqn:Eh; simpl; [|lia].
      destruct (lookup_lt_is_Some_2 (values g) i) as [x Eg].
      { apply lookup_lt_Some in Eh. lia. }
      specialize (H i (MkLamport x (MkReplicaId (wrap 16 (N.of_nat i))))
                    (MkLamport y (MkReplicaId (wrap 16 (N.of_nat i))))).
      rewrite !lookup_iter, Eg, Eh in H. specialize (H eq_refl eq_refl).
      apply N.leb_le in H. by rewrite Eg.
    + intros H i a b Ha Hb. rewrite lookup_iter in Ha, Hb.
      specialize (H (MkReplicaId (N.of_nat i))). rewrite !get_lookup in H.
      destruct (values g !! i) eqn:Eg, (values h !! i) eqn:Eh; simplify_eq/=.
      by apply N.leb_le.
Qed.

Lemma changed_since_negb g h : changed_since g h = negb (observed_all h g).
Proof.
  unfold changed_since, observed_all.
  destruct (Nat.ltb_spec (length (values h)) (length (values g))); simpl; [done|].
  apply eq_bool_prop_intro. rewrite !Is_true_true, negb_true_iff, <-not_true_iff_false.
  rewrite existsb_zip_spec, forallb_zip_spec. split.
  - intros (i & a & b & Ha & Hb & Hlt) Hall.
    specialize (Hall i (MkLamport b (MkReplicaId (wrap 16 (N.of_nat i))))
                  (MkLamport a (MkReplicaId (wrap 16 (N.of_nat i))))).
    rewrite !lookup_iter, Ha, Hb in Hall. specialize (Hall eq_refl eq_refl).
    apply N.ltb_lt in Hlt. apply N.leb_le in Hall. simpl in Hall. lia.
  - intros Hn. destruct (existsb (λ '(l, r), (r <? l)%N) (zip (values g) (values h))) eqn:E.
    + by apply existsb_zip_spec in E.
    + exfalso. apply Hn. intros i a b Ha Hb. rewrite lookup_iter in Ha, Hb.
      destruct (values h !! i) eqn:Eh, (values g !! i) eqn:Eg; simplify_eq/=.
      apply N.leb_le. apply N.nlt_ge. intros Hlt.
      apply not_true_iff_false in E. apply E, existsb_zip_spec.
      do 3 eexists. split_and!; [done..|]. by apply N.ltb_lt.
Qed.

(** ** Theorems *)

(** On vectors without trailing zeros, which is what every operation
    produces, [observed_all], [changed_since] and [==] decide the pointwise
    order of the recorded sequence numbers, its negation, and pointwise
    equality: the early exits on the vectors' lengths are sound. *)
Theorem version_order (g h : Global) :
  trimmed g → trimmed h →
  (observed_all g h = true ↔ ∀ r, (get h r <= get g r)%N) ∧
  (changed_since g h = true ↔ ∃ r, (get h r < get g r)%N) ∧
  (g = h ↔ ∀ r, get g r = get h r).
Proof.
  intros Hg Hh. split_and!.
  - by apply observed_all_iff.
  - rewrite changed_since_negb, negb_true_iff, <-not_true_iff_false, observed_all_iff by done.
    split.
    + intros Hn. destruct (decide (Forall (λ n, get g (MkReplicaId (N.of_nat n)) <=
        get h (MkReplicaId (N.of_nat n)))%N (seq 0 (length (values g))))) as [Hall|Hex].
      * exfalso. apply Hn. intros [r]. destruct (decide (N.to_nat r < length (values g))).
        -- rewrite Forall_forall in Hall. specialize (Hall (N.to_nat r)).
           rewrite N2Nat.id in Hall. apply Hall. apply elem_of_seq. lia.
        -- unfold get at 1; simpl. rewrite lookup_ge_None_2 by lia. simpl. lia.
      * apply not_Forall_Exists in Hex; [|intros n; apply _].
        apply Exists_exists in Hex as (n & _ & Hn'). eexists. apply N.nle_gt, Hn'.
    + intros [r Hr] Hall. specialize (Hall r). lia.
  - split; [by intros ->|]. intros Heq.
    destruct g as [vg], h as [vh]. f_equal. apply list_eq_same_length with (length vg); [|done|].
    + apply Nat.le_antisymm; [apply (trimmed_length_le (MkGlobal vh) (MkGlobal vg))
        |apply (trimmed_length_le (MkGlobal vg) (MkGlobal vh))]; try done;
      intros r; rewrite Heq; done.
    + intros i x y Hi Hx Hy. specialize (Heq (MkReplicaId (N.of_nat i))).
      rewrite !get_lookup in Heq. simpl in Heq. by rewrite Hx, Hy in Heq.
Qed.

(** [observe], [join] and [meet] compute, replica by replica, the maximum
    with the observed timestamp, the maximum, and the minimum over the replicas
    both sides have observed; and none of them (nor [FromIterator]) leaves a
    trailing zero, in particular the truncation in [meet] drops zeros only. *)
Theorem version_ops (g h : Global) (t : Lamport) (ts : list Lamport) :
  trimmed g → trimmed h →
  (∀ r, get (observe g t) r =
        if decide (r = replica_id t) then N.max (get g r) (value t) else get g r) ∧
  (∀ r, get (join g h) r = N.max (get g r) (get h r)) ∧
  (∀ r, get (meet g h) r =
        if (get g r =? 0)%N then get h r
        else if (get h r =? 0)%N then get g r else N.min (get g r) (get h r)) ∧
  trimmed (observe g t) ∧ trimmed (join g h) ∧ trimmed (meet g h) ∧
  trimmed (Global_from_iter ts).
Proof.
  intros Hg Hh. split_and!.
  - apply get_observe.
  - apply get_join.
  - apply get_meet.
  - by apply trimmed_observe.
  - by apply trimmed_join.
  - by apply trimmed_meet.
  - apply trimmed_from_iter.
Qed.

Lemma version_ops_witness :
  values (meet (MkGlobal [3; 0; 5]%N) (MkGlobal [0; 0; 2; 7]%N)) = [3; 0; 2; 7]%N ∧
  trimmed (meet (MkGlobal [3; 0; 5]%N) (MkGlobal [0; 0; 2; 7]%N)).
Proof.
  split; [reflexivity|].
  apply (version_ops (MkGlobal [3; 0; 5]%N) (MkGlobal [0; 0; 2; 7]%N)
           (MkLamport 1 LOCAL) []); discriminate.
Defined.

Lemma version_order_witness :
  changed_since (MkGlobal [1; 0; 2]%N) (MkGlobal [5]%N) = true ∧
  ∃ r, (get (MkGlobal [5]%N) r < get (MkGlobal [1; 0; 2]%N) r)%N.
Proof.
  split; [reflexivity|].
  apply (version_order (MkGlobal [1; 0; 2]%N) (MkGlobal [5]%N)); [discriminate..|reflexivity].
Defined.

(** ** Packed timestamps *)

Lemma as_u64_add (t : Lamport) :
  lamport_fits t → as_u64 t = (value t * 2 ^ 32 + as_u16 (replica_id t))%N.
Proof.
  unfold lamport_fits, as_u64, U32_MAX, U16_MAX. intros [Hv Hr].
  rewrite wrap_small, lor_shiftl_add; [done|lia|].
  rewrite N.shiftl_mul_pow2. lia.
Qed.

(** [as_u64] embeds the timestamp order in the order of 64-bit integers:
    comparing packed keys is comparing by value and then by replica id. *)
Theorem as_u64_order (a b : Lamport) :
  lamport_fits a → lamport_fits b → (as_u64 a ?= as_u64 b)%N = cmp a b.
Proof.
  intros Ha Hb. rewrite !as_u64_add by done.
  destruct a as [va [ra]], b as [vb [rb]].
  unfold lamport_fits, U32_MAX, U16_MAX in *; simpl in *.
  unfold cmp, Lamport_ord; simpl. unfold cmp, N_ord, ReplicaId_ord; simpl. unfold cmp, N_ord.
  destruct (N.compare_spec va vb) as [->|Hlt|Hgt]; simpl.
  - destruct (N.compare_spec ra rb) as [->|?|?].
    + by rewrite N.compare_refl.
    + apply N.compare_lt_iff. lia.
    + apply N.compare_gt_iff. lia.
  - apply N.compare_lt_iff. lia.
  - apply N.compare_gt_iff. lia.
Qed.

Lemma as_u64_order_witness :
  (as_u64 (MkLamport 7 AGENT) ?= as_u64 (MkLamport 8 LOCAL))%N = Lt.
Proof.
  rewrite (as_u64_order (MkLamport 7 AGENT) (MkLamport 8 LOCAL)); [reflexivity| |];
    split; vm_compute; discriminate.
Defined.

(** ** Runs of a replica's clock *)
Inductive clock_event := Tick | Observe (t : Lamport).

(** The clock after some events, and the timestamps it issued or saw. *)
Definition clock_step (c : Lamport) (e : clock_event) : Lamport :=
  match e with Tick => (tick c).2 | Observe t => Lamport_observe c t end.

Definition event_stamp (c : Lamport) (e : clock_event) : Lamport :=
  match e with Tick => (tick c).1 | Observe t => t end.

Definition clock_after (c : Lamport) (es : list clock_event) : Lamport :=
  foldl clock_step c es.

Fixpoint clock_trace (c : Lamport) (es : list clock_event) : list Lamport :=
  match es with
  | [] => []
  | e :: es => event_stamp c e :: clock_trace (clock_step c e) es
  end.

Definition event_value (e : clock_event) : N :=
  match e with Tick => 0%N | Observe t => value t end.

Lemma clock_step_bound c e V :
  (value c <= V)%N → (event_value e <= V)%N → (V + 1 <= U32_MAX)%N →
  (value c < value (clock_step c e))%N ∧
  (value (event_stamp c e) < value (clock_step c e))%N ∧
  (value (clock_step c e) <= V + 1)%N.
Proof.
  unfold U32_MAX. intros Hc He HV. destruct e as [|t]; simpl in *;
    (rewrite wrap_small; [|]); lia.
Qed.

Lemma clock_trace_lt c es V :
  (value c <= V)%N → Forall (λ e, event_value e <= V)%N es →
  (V + N.of_nat (length es) <= U32_MAX)%N →
  (value c <= value (clock_after c es))%N ∧
  Forall (λ t, value t < value (clock_after c es))%N (clock_trace c es).
Proof.
  revert c V. induction es as [|e es IH]; intros c V Hc Hes HV; simpl in *.
  - split; [lia|constructor].
  - apply Forall_cons in Hes as [He Hes].
    destruct (clock_step_bound c e V) as (H1 & H2 & H3); [done|done|lia|].
    destruct (IH (clock_step c e) (V + 1)%N) as [H4 H5]; [lia| |lia|].
    { eapply Forall_impl; [exact Hes|]. simpl. lia. }
    split; [lia|]. constructor; [lia|done].
Qed.

(** Lamport's clock condition: as long as the 32-bit counter does not
    overflow, the timestamp the clock issues next is greater, in the order used
    to break ties between concurrent edits, than every timestamp it issued or
    observed before. *)
Theorem lamport_clock_condition (c : Lamport) (es : list clock_event) (V : N) :
  (value c <= V)%N → Forall (λ e, event_value e <= V)%N es →
  (V + N.of_nat (length es) <= U32_MAX)%N →
  Forall (λ t, cmp t (tick (clock_after c es)).1 = Lt) (clock_trace c es).
Proof.
  intros Hc Hes HV. eapply Forall_impl; [by apply (clock_trace_lt c es V)|].
  intros t Ht. unfold cmp, Lamport_ord; simpl. unfold cmp, N_ord.
  apply N.compare_lt_iff in Ht. by rewrite Ht.
Qed.

Lemma lamport_clock_condition_witness :
  Forall (λ t, cmp t (MkLamport 12 LOCAL) = Lt)
    [MkLamport 1 LOCAL; MkLamport 9 AGENT; MkLamport 10 LOCAL; MkLamport 4 AGENT].
Proof.
  apply (lamport_clock_condition (Lamport_new LOCAL)
    [Tick; Observe (MkLamport 9 AGENT); Tick; Observe (MkLamport 4 AGENT)] 9).
  - vm_compute; discriminate.
  - repeat constructor; vm_compute; discriminate.
  - vm_compute; discriminate.
Defined.
