(* ===== verification/SumTree.v ===== *)
(** * The summarised B+ tree ([crates/sum_tree/src/sum_tree.rs])

    Every container of the editor (ropes, fragments, maps, queues) is a
    [SumTree]: a B+ tree whose nodes cache the sum of their items' summaries.
    This file holds the traits as classes, the node type and the operations
    that build and search trees; the cursor is in [Cursor].

    - Rust's traits [Summary], [Item], [Dimension], [SeekTarget] are operational
      classes; the context [cx] is the instance itself.
    - [Arc] sharing is invisible in a value model: [Arc::make_mut] copies.
    - [ArrayVec] has a fixed capacity; exceeding it is [Panic].  The theorems
      show that it is never exceeded, so they do not depend on that choice. *)
From stdpp Require Import base numbers option list.
From Stdlib Require Import Lia.
From S2P Require Import Prelude.

Definition TREE_BASE : nat := 6.

(** ** Traits *)
Class Summary (Sm : Type) := { zero : Sm; add_summary : Sm → Sm → Sm }.
Class Item (T Sm : Type) := item_summary_of : T → Sm.
Class Dimension (D Sm : Type) := { dim_zero : D; dim_add : D → Sm → D }.
Class SeekTarget (Tg D : Type) := seek_cmp : Tg → D → comparison.

(** [impl Dimension for T: Summary] *)
Definition summary_dimension {Sm} `{Summary Sm} : Dimension Sm Sm :=
  {| dim_zero := zero; dim_add := add_summary |}.

(** [impl Dimension for ()] *)
#[export] Instance unit_dimension {Sm} : Dimension unit Sm :=
  {| dim_zero := tt; dim_add := λ _ _, tt |}.

(** [impl Dimension for Dimensions<D1, D2, D3>] *)
Definition Dimensions_dimension {D1 D2 D3 Sm}
    `{Dimension D1 Sm, Dimension D2 Sm, Dimension D3 Sm} : Dimension (D1 * D2 * D3) Sm :=
  {| dim_zero := (dim_zero, dim_zero, dim_zero);
     dim_add := λ '(d1, d2, d3) s, (dim_add d1 s, dim_add d2 s, dim_add d3 s) |}.

(** [impl SeekTarget for D: Ord] *)
Definition ord_seek_target {D} `{Ord D} : SeekTarget D D := cmp.

(** [impl SeekTarget<Dimensions<D1, D2, D3>> for D1] *)
Definition Dimensions_seek_target {Tg D1 D2 D3} `{SeekTarget Tg D1} :
  SeekTarget Tg (D1 * D2 * D3) := λ t '(d1, _, _), seek_cmp t d1.

Definition with_added_summary {D Sm} `{Dimension D Sm} (d : D) (s : Sm) : D := dim_add d s.
Definition from_summary_dim {D Sm} `{Dimension D Sm} (s : Sm) : D := dim_add dim_zero s.

Inductive Bias := Left | Right.
Definition invert (b : Bias) : Bias := match b with Left => Right | Right => Left end.

#[export] Instance Bias_eq_dec : EqDecision Bias.
Proof. solve_decision. Defined.

(** ** Fixed-capacity vectors *)
(** [2 * TREE_BASE], the capacity of every node's vectors. *)
Definition av_cap : nat := 2 * TREE_BASE.
#[global] Arguments av_cap : simpl never.
#[global] Arguments TREE_BASE : simpl never.
Definition av_collect {A} (l : list A) : outcome (list A) :=
  if length l <=? av_cap then Ret l else Panic.
Definition av_push {A} (l : list A) (x : A) : outcome (list A) := av_collect (l ++ [x]).
Definition av_insert_first {A} (l : list A) (x : A) : outcome (list A) := av_collect (x :: l).
Definition av_extend {A} (l l' : list A) : outcome (list A) := av_collect (l ++ l').

(** [*v.last_mut().unwrap() = x] and [*v.first_mut().unwrap() = x] *)
Definition set_last {A} (l : list A) (x : A) : outcome (list A) :=
  match last l with None => Panic | Some _ => Ret (removelast l ++ [x]) end.
Definition set_first {A} (l : list A) (x : A) : outcome (list A) :=
  match l with [] => Panic | _ :: l => Ret (x :: l) end.

(** A mutation through [v.last_mut().unwrap()], [v.first_mut().unwrap()]. *)
Section OnLast.
Context {A B : Type} (f : A → outcome (A * B)).

Fixpoint on_last (l : list A) : outcome (list A * B) :=
  match l with
  | [] => Panic
  | x :: l' =>
      match l' with
      | [] => let* '(x', b) := f x in Ret ([x'], b)
      | _ :: _ => let* '(l'', b) := on_last l' in Ret (x :: l'', b)
      end
  end.

Definition on_first (l : list A) : outcome (list A * B) :=
  match l with
  | [] => Panic
  | x :: l' => let* '(x', b) := f x in Ret (x' :: l', b)
  end.
End OnLast.

(** Unsigned subtraction; underflow is a panic. *)
Definition usub (a b : nat) : outcome nat := if a <? b then Panic else Ret (a - b).

(** ** Nodes *)
Inductive SumTree (T Sm : Type) : Type :=
| Internal (height : nat) (summary : Sm) (child_summaries : list Sm)
    (child_trees : list (SumTree T Sm))
| Leaf (summary : Sm) (items : list T) (item_summaries : list Sm).
Arguments Internal {T Sm} height summary child_summaries child_trees.
Arguments Leaf {T Sm} summary items item_summaries.

Section Nodes.
Context {T Sm : Type}.
Implicit Types t : SumTree T Sm.

Definition is_leaf t : bool := match t with Leaf _ _ _ => true | Internal _ _ _ _ => false end.

Definition height t : nat := match t with Internal h _ _ _ => h | Leaf _ _ _ => 0 end.

Definition summary t : Sm :=
  match t with Internal _ s _ _ => s | Leaf s _ _ => s end.

Definition child_summaries t : list Sm :=
  match t with Internal _ _ cs _ => cs | Leaf _ _ iss => iss end.

Definition child_trees t : outcome (list (SumTree T Sm)) :=
  match t with Internal _ _ _ ct => Ret ct | Leaf _ _ _ => Panic end.

Definition node_items t : outcome (list T) :=
  match t with Leaf _ its _ => Ret its | Internal _ _ _ _ => Panic end.

Definition is_underflowing t : bool :=
  match t with
  | Internal _ _ _ ct => length ct <? TREE_BASE
  | Leaf _ its _ => length its <? TREE_BASE
  end.

Definition is_empty t : bool :=
  match t with
  | Internal _ _ _ _ => false
  | Leaf _ its _ => match its with [] => true | _ :: _ => false end
  end.

(** [leftmost_leaf] and [rightmost_leaf] *)
Fixpoint leftmost_leaf t : outcome (SumTree T Sm) :=
  match t with
  | Leaf _ _ _ => Ret t
  | Internal _ _ _ ct =>
      match ct with [] => Panic | c :: _ => leftmost_leaf c end
  end.

Fixpoint rightmost_leaf t : outcome (SumTree T Sm) :=
  match t with
  | Leaf _ _ _ => Ret t
  | Internal _ _ _ ct =>
      (fix go (ct : list (SumTree T Sm)) : outcome (SumTree T Sm) :=
         match ct with
         | [] => Panic
         | c :: ct' => match ct' with [] => rightmost_leaf c | _ :: _ => go ct' end
         end) ct
  end.

Definition first t : outcome (option T) :=
  let* l := leftmost_leaf t in
  let* its := node_items l in
  Ret (head its).

Definition last_item t : outcome (option T) :=
  let* l := rightmost_leaf t in
  let* its := node_items l in
  Ret (last its).

Definition last_summary t : outcome (option Sm) :=
  let* l := rightmost_leaf t in
  Ret (last (child_summaries l)).
End Nodes.

(** [fn sum] *)
Definition sum {Sm} `{Summary Sm} (l : list Sm) : Sm := foldl add_summary zero l.

(** [midpoint = (child_count + child_count % 2) / 2] and
    [midpoint = total_child_count.div_ceil(2)] *)
Definition midpoint (n : nat) : nat := (n + n mod 2) / 2.
Definition div_ceil2 (n : nat) : nat := n / 2 + n mod 2.

Section Build.
Context {T Sm : Type} `{Summary Sm} `{Item T Sm}.
Abbreviation tree := (SumTree T Sm).

Definition new : tree := Leaf zero [] [].

Definition from_summary (s : Sm) : tree := Leaf s [] [].

Definition from_child_trees (l r : tree) : outcome tree :=
  let h := height l + 1 in
  let* cs := av_push [] (summary l) in
  let* cs := av_push cs (summary r) in
  let* ct := av_push [] l in
  let* ct := av_push ct r in
  Ret (Internal h (sum cs) cs ct).

(** [push_tree_recursive(&mut self, other)]: the updated [self] and the tree
    split off it, if any. *)
Fixpoint push_tree_recursive (self other : tree) {struct self} :
  outcome (tree * option tree) :=
  match self with
  | Internal h s cs ct =>
      let s := add_summary s (summary other) in
      let* height_delta := usub h (height other) in
      let* '(cs, ct, summaries_to_append, trees_to_append) :=
        if height_delta =? 0 then
          let* sa := av_extend [] (child_summaries other) in
          let* other_trees := child_trees other in
          let* ta := av_extend [] other_trees in
          Ret (cs, ct, sa, ta)
        else if (height_delta =? 1) && negb (is_underflowing other) then
          let* sa := av_push [] (summary other) in
          let* ta := av_push [] other in
          Ret (cs, ct, sa, ta)
        else
          let* '(ct, tree_to_append) := on_last (λ t, push_tree_recursive t other) ct in
          let* last_tree := unwrap (last ct) in
          let* cs := set_last cs (summary last_tree) in
          match tree_to_append with
          | Some split_tree =>
              let* sa := av_push [] (summary split_tree) in
              let* ta := av_push [] split_tree in
              Ret (cs, ct, sa, ta)
          | None => Ret (cs, ct, [], [])
          end in
      let child_count := length ct + length trees_to_append in
      if av_cap <? child_count then
        let mid := midpoint child_count in
        let all_summaries := cs ++ summaries_to_append in
        let all_trees := ct ++ trees_to_append in
        let* left_summaries := av_collect (take mid all_summaries) in
        let* right_summaries := av_collect (drop mid all_summaries) in
        let* left_trees := av_collect (take mid all_trees) in
        let* right_trees := av_collect (drop mid all_trees) in
        Ret (Internal h (sum left_summaries) left_summaries left_trees,
             Some (Internal h (sum right_summaries) right_summaries right_trees))
      else
        let* cs := av_extend cs summaries_to_append in
        let* ct := av_extend ct trees_to_append in
        Ret (Internal h s cs ct, None)
  | Leaf s its iss =>
      let* other_items := node_items other in
      let child_count := length its + length other_items in
      if av_cap <? child_count then
        let mid := midpoint child_count in
        let all_items := its ++ other_items in
        let all_summaries := iss ++ child_summaries other in
        let* left_items := av_collect (take mid all_items) in
        let* right_items := av_collect (drop mid all_items) in
        let* left_summaries := av_collect (take mid all_summaries) in
        let* right_summaries := av_collect (drop mid all_summaries) in
        Ret (Leaf (sum left_summaries) left_items left_summaries,
             Some (Leaf (sum right_summaries) right_items right_summaries))
      else
        let s := add_summary s (summary other) in
        let* its := av_extend its other_items in
        let* iss := av_extend iss (child_summaries other) in
        Ret (Leaf s its iss, None)
  end.

(** [merge_into_right(small, &mut large)]: the updated [large] and the node
    that takes the first half when both do not fit in one. *)
Definition merge_into_right (small large : tree) : outcome (tree * option tree) :=
  match small, large with
  | Internal _ small_summary small_cs small_ct, Internal h s cs ct =>
      let total_child_count := length ct + length small_ct in
      if total_child_count <=? av_cap then
        let* all_trees := av_extend small_ct ct in
        let* all_summaries := av_extend small_cs cs in
        Ret (Internal h (add_summary small_summary s) all_summaries all_trees, None)
      else
        let mid := div_ceil2 total_child_count in
        let all_trees := small_ct ++ ct in
        let* left_trees := av_collect (take mid all_trees) in
        let* ct := av_collect (drop mid all_trees) in
        let all_summaries := small_cs ++ cs in
        let* left_summaries := av_collect (take mid all_summaries) in
        let* cs := av_collect (drop mid all_summaries) in
        Ret (Internal h (sum cs) cs ct,
             Some (Internal h (sum left_summaries) left_summaries left_trees))
  | Leaf small_summary small_items small_iss, Leaf s its iss =>
      let total_child_count := length small_items + length its in
      if total_child_count <=? av_cap then
        let* all_items := av_extend small_items its in
        let* all_summaries := av_extend small_iss iss in
        Ret (Leaf (add_summary small_summary s) all_items all_summaries, None)
      else
        let mid := div_ceil2 total_child_count in
        let all_items := small_items ++ its in
        let* left_items := av_collect (take mid all_items) in
        let* its := av_collect (drop mid all_items) in
        let all_summaries := small_iss ++ iss in
        let* left_summaries := av_collect (take mid all_summaries) in
        let* iss := av_collect (drop mid all_summaries) in
        Ret (Leaf (sum iss) its iss,
             Some (Leaf (sum left_summaries) left_items left_summaries))
  | _, _ => Panic
  end.

(** [append_large(small, &mut large)]: the updated [large] and the tree that
    has to go before it, if any. *)
Fixpoint append_large (small large : tree) {struct large} : outcome (tree * option tree) :=
  if height small =? height large then
    if negb (is_underflowing small) then Ret (large, Some small)
    else merge_into_right small large
  else
    match large with
    | Leaf _ _ _ => Panic
    | Internal h s cs ct =>
        let s := add_summary (summary small) s in
        let* '(ct, res) := on_first (λ t, append_large small t) ct in
        let* first := unwrap (head ct) in
        let* cs := set_first cs (summary first) in
        match res with
        | Some tree =>
            if length ct <? av_cap then
              let* cs := av_insert_first cs (summary tree) in
              let* ct := av_insert_first ct tree in
              Ret (Internal h s cs ct, None)
            else
              let* new_cs := av_extend [summary tree] (take TREE_BASE cs) in
              let* new_ct := av_extend [tree] (take TREE_BASE ct) in
              let cs := drop TREE_BASE cs in
              let ct := drop TREE_BASE ct in
              Ret (Internal h (sum cs) cs ct, Some (Internal h (sum new_cs) new_cs new_ct))
        | None => Ret (Internal h s cs ct, None)
        end
    end.

Definition append (self other : tree) : outcome tree :=
  if is_empty self then Ret other
  else
    let* nonempty :=
      (if negb (is_leaf other) then Ret true
       else let* its := node_items other in
            Ret (match its with [] => false | _ :: _ => true end)) in
    if nonempty then
      if height self <? height other then
        let* '(other, res) := append_large self other in
        match res with
        | Some tree => from_child_trees tree other
        | None => Ret other
        end
      else
        let* '(self, res) := push_tree_recursive self other in
        match res with
        | Some split_tree => from_child_trees self split_tree
        | None => Ret self
        end
    else Ret self.

Definition push (self : tree) (item : T) : outcome tree :=
  let s := item_summary_of item in
  append self (Leaf s [item] [s]).

Definition from_item (item : T) : outcome tree := push new item.
End Build.

Section Bulk.
Context {T Sm : Type} `{Summary Sm} `{Item T Sm}.
Abbreviation tree := (SumTree T Sm).

(** The leaf of one chunk of items; [item_summaries[0]] panics on none. *)
Definition leaf_of (its : list T) : outcome tree :=
  let* its := av_collect its in
  let* iss := av_collect (item_summary_of <$> its) in
  match iss with
  | [] => Panic
  | s :: rest => Ret (Leaf (foldl add_summary s rest) its iss)
  end.

(** [while iter.peek().is_some()]: one leaf per [2 * TREE_BASE] items. *)
Definition leaf_nodes (its : list T) : outcome (list tree) :=
  loop (λ '(its, nodes),
          match its with
          | [] => Ret (inr nodes)
          | _ :: _ =>
              let* node := leaf_of (take (av_cap) its) in
              Ret (inl (drop (av_cap) its, nodes ++ [node]))
          end) (S (length its)) (its, []).

(** One iteration of [for child_node in nodes.drain(..)]: push the child on
    the current parent, which is flushed when full. *)
Definition add_child (h : nat) (st : list tree * option tree) (child : tree) :
  outcome (list tree * option tree) :=
  let '(parent_nodes, current) := st in
  match default (Internal h zero [] []) current with
  | Leaf _ _ _ => Panic
  | Internal h' s cs ct =>
      let s := add_summary s (summary child) in
      let* cs := av_push cs (summary child) in
      let* ct := av_push ct child in
      let parent := Internal h' s cs ct in
      if length ct =? av_cap then Ret (parent_nodes ++ [parent], None)
      else Ret (parent_nodes, Some parent)
  end.

Fixpoint add_children (h : nat) (st : list tree * option tree) (nodes : list tree) :
  outcome (list tree * option tree) :=
  match nodes with
  | [] => Ret st
  | child :: nodes => let* st := add_child h st child in add_children h st nodes
  end.

Definition parent_level (h : nat) (nodes : list tree) : outcome (list tree) :=
  let* '(parent_nodes, current) := add_children h ([], None) nodes in
  Ret (parent_nodes ++ option_list current).

(** [if nodes.is_empty() { Self::new(cx) } else { nodes.pop().unwrap() }] *)
Definition pop_root (nodes : list tree) : outcome tree :=
  match nodes with
  | [] => Ret new
  | _ :: _ => unwrap (last nodes)
  end.

(** [while nodes.len() > 1]: build parent levels up to a single root. *)
Definition build_levels (level : nat → list tree → outcome (list tree)) (nodes : list tree) :
  outcome (list tree) :=
  loop (λ '(h, nodes),
          if 1 <? length nodes then
            let h := h + 1 in
            let* nodes := level h nodes in
            Ret (inl (h, nodes))
          else Ret (inr nodes)) (S (length nodes)) (0, nodes).

Definition from_iter (its : list T) : outcome tree :=
  let* nodes := leaf_nodes its in
  let* nodes := build_levels parent_level nodes in
  pop_root nodes.

(** [from_par_iter]: [par_chunks] is rayon's [IndexedParallelIterator::chunks];
    each chunk is turned into a node independently and the results are
    collected in order. *)
Context (par_chunks : ∀ A : Type, nat → list A → list (list A)).

Fixpoint par_map {A B} (f : A → outcome B) (l : list A) : outcome (list B) :=
  match l with
  | [] => Ret []
  | x :: l => let* y := f x in let* ys := par_map f l in Ret (y :: ys)
  end.

Definition par_parent (h : nat) (child_nodes : list tree) : outcome tree :=
  let* ct := av_collect child_nodes in
  let* cs := av_collect (summary <$> ct) in
  match cs with
  | [] => Panic
  | s :: rest => Ret (Internal h (foldl add_summary s rest) cs ct)
  end.

Definition from_par_iter (its : list T) : outcome tree :=
  let* nodes := par_map leaf_of (par_chunks _ (av_cap) its) in
  let* nodes :=
    build_levels (λ h nodes, par_map (par_parent h) (par_chunks _ (av_cap) nodes)) nodes in
  pop_root nodes.

Definition extend (self : tree) (its : list T) : outcome tree :=
  let* other := from_iter its in append self other.

Definition par_extend (self : tree) (its : list T) : outcome tree :=
  let* other := from_par_iter its in append self other.
End Bulk.

(** The closure may fail and may hand a value out ([FnOnce(&mut T)] mutates
    the variables it captures): [None] when it was not called. *)
Section Update.
Context {T Sm B : Type} `{Summary Sm} `{Item T Sm} (f : T → outcome (T * B)).
Abbreviation tree := (SumTree T Sm).

(** [update_last_recursive]: the updated tree and the new summary, [None]
    when the leaf is empty. *)
Fixpoint update_last_recursive (self : tree) : outcome (tree * option (Sm * B)) :=
  match self with
  | Internal h s cs ct =>
      let* '(ct, child) := on_last update_last_recursive ct in
      let* '(child_summary, b) := unwrap child in
      let* cs := set_last cs child_summary in
      let s := sum cs in
      Ret (Internal h s cs ct, Some (s, b))
  | Leaf s its iss =>
      match last its, last iss with
      | Some item, Some _ =>
          let* '(item, b) := f item in
          let iss := removelast iss ++ [item_summary_of item] in
          let s := sum iss in
          Ret (Leaf s (removelast its ++ [item]) iss, Some (s, b))
      | _, _ => Ret (self, None)
      end
  end.

Definition update_last (self : tree) : outcome (tree * option B) :=
  let* '(self, r) := update_last_recursive self in Ret (self, snd <$> r).

Fixpoint update_first_recursive (self : tree) : outcome (tree * option (Sm * B)) :=
  match self with
  | Internal h s cs ct =>
      let* '(ct, child) := on_first update_first_recursive ct in
      let* '(child_summary, b) := unwrap child in
      let* cs := set_first cs child_summary in
      let s := sum cs in
      Ret (Internal h s cs ct, Some (s, b))
  | Leaf s its iss =>
      match its, iss with
      | item :: its', _ :: iss' =>
          let* '(item, b) := f item in
          let iss := item_summary_of item :: iss' in
          let s := sum iss in
          Ret (Leaf s (item :: its') iss, Some (s, b))
      | _, _ => Ret (self, None)
      end
  end.

Definition update_first (self : tree) : outcome (tree * option B) :=
  let* '(self, r) := update_first_recursive self in Ret (self, snd <$> r).
End Update.

Section Find.
Context {T Sm D Tg : Type} `{Dimension D Sm} `{SeekTarget Tg D}.
Abbreviation tree := (SumTree T Sm).

Definition extent (self : tree) : D := dim_add dim_zero (summary self).

(** [comparison == Less || (comparison == Equal && bias == Left)] *)
Definition target_in (target : Tg) (bias : Bias) (child_end : D) : bool :=
  match seek_cmp target child_end, bias with
  | Lt, _ => true
  | Eq, Left => true
  | _, _ => false
  end.

(** [comparison == Greater || (comparison == Equal && bias == Right)] *)
Definition target_past (target : Tg) (bias : Bias) (child_end : D) : bool :=
  match seek_cmp target child_end, bias with
  | Gt, _ => true
  | Eq, Right => true
  | _, _ => false
  end.

Definition entry_found (exact : bool) (target : Tg) (bias : Bias) (child_end : D) : bool :=
  if exact then match seek_cmp target child_end with Eq => true | _ => false end
  else target_in target bias child_end.

Section Iterate.
Context (exact : bool) (target : Tg) (bias : Bias).

(** The final [position] and the item found with its end. *)
Fixpoint find_iterate (position : D) (this : tree) : D * option (T * D) :=
  match this with
  | Internal _ _ cs ct =>
      (fix children (position : D) (ct : list tree) (cs : list Sm) : D * option (T * D) :=
         match ct, cs with
         | child_tree :: ct, child_summary :: cs =>
             let child_end := with_added_summary position child_summary in
             if target_in target bias child_end then find_iterate position child_tree
             else children child_end ct cs
         | _, _ => (position, None)
         end) position ct cs
  | Leaf _ its iss =>
      (fix entries (position : D) (its : list T) (iss : list Sm) : D * option (T * D) :=
         match its, iss with
         | item :: its, item_summary :: iss =>
             let child_end := dim_add position item_summary in
             if entry_found exact target bias child_end then (position, Some (item, child_end))
             else entries child_end its iss
         | _, _ => (position, None)
         end) position its iss
  end.

(** The same with the item before the one found. *)
Fixpoint find_with_prev_iterate (position : D) (prev : option T) (this : tree) :
  outcome (D * option (option T * T * D)) :=
  match this with
  | Internal _ _ cs ct =>
      (fix children (position : D) (prev : option T) (ct : list tree) (cs : list Sm) :
         outcome (D * option (option T * T * D)) :=
         match ct, cs with
         | child_tree :: ct, child_summary :: cs =>
             let child_end := with_added_summary position child_summary in
             if target_in target bias child_end
             then find_with_prev_iterate position prev child_tree
             else
               let* prev := last_item child_tree in
               children child_end prev ct cs
         | _, _ => Ret (position, None)
         end) position prev ct cs
  | Leaf _ its iss =>
      (fix entries (position : D) (prev : option T) (its : list T) (iss : list Sm) :
         outcome (D * option (option T * T * D)) :=
         match its, iss with
         | item :: its, item_summary :: iss =>
             let child_end := dim_add position item_summary in
             if entry_found exact target bias child_end
             then Ret (position, Some (prev, item, child_end))
             else entries child_end (Some item) its iss
         | _, _ => Ret (position, None)
         end) position prev its iss
  end.
End Iterate.

(** [find_exact] ([exact = true]) and [find]: start and end of the item found. *)
Definition find_gen (exact : bool) (self : tree) (target : Tg) (bias : Bias) : D * D * option T :=
  let tree_end := with_added_summary dim_zero (summary self) in
  if target_past target bias tree_end then (tree_end, tree_end, None)
  else
    match find_iterate exact target bias dim_zero self with
    | (pos, Some (item, end_)) => (pos, end_, Some item)
    | (pos, None) => (pos, pos, None)
    end.

Definition find_exact := find_gen true.
Definition find := find_gen false.

Definition find_with_prev (self : tree) (target : Tg) (bias : Bias) :
  outcome (D * D * option (option T * T)) :=
  let tree_end := with_added_summary dim_zero (summary self) in
  if target_past target bias tree_end then Ret (tree_end, tree_end, None)
  else
    let* r := find_with_prev_iterate false target bias dim_zero None self in
    match r with
    | (pos, Some (prev, item, end_)) => Ret (pos, end_, Some (prev, item))
    | (pos, None) => Ret (pos, pos, None)
    end.
End Find.
