(* ===== verification/SumTreeFacts.v ===== *)
(** * Correctness of the tree-building operations of [SumTree]

    The abstract value of a tree is the sequence of its items.  The invariant
    [wf] says that all leaves are at the same depth, no node exceeds its
    capacity, no node below the root is empty and every cached summary is the
    sum of the items below it.  The operations return (no panic, no capacity
    overflow), preserve [wf] and act on the item sequence as the corresponding
    list operations. *)
From stdpp Require Import base numbers option list.
From Stdlib Require Import Lia.
From S2P Require Import Prelude SumTree.

(** The capacity as a number; the proofs treat it as a constant. *)
Lemma TREE_BASE_eq : TREE_BASE = 6.
Proof. reflexivity. Qed.
Lemma av_cap_eq : av_cap = 2 * TREE_BASE.
Proof. reflexivity. Qed.
Ltac cap_lia := rewrite ?av_cap_eq, ?TREE_BASE_eq in *; lia.
#[local] Opaque TREE_BASE av_cap.

(** The sum of a sequence of items. *)
Definition total {T Sm} `{Summary Sm} `{Item T Sm} (l : list T) : Sm :=
  sum (item_summary_of <$> l).

(** What a summary type promises to the tree: on valid item sequences (all of
    them for most types, the sorted ones for keyed types) adding up is
    associative and [zero] is a left unit. *)
Class SummaryLaws (T Sm : Type) `{Summary Sm} `{Item T Sm} := {
  valid : list T → Prop;
  valid_app : ∀ l1 l2, valid (l1 ++ l2) → valid l1 ∧ valid l2;
  total_single : ∀ x, valid [x] → total [x] = item_summary_of x;
  zero_total : ∀ l, l ≠ [] → valid l → add_summary zero (total l) = total l;
  total_app : ∀ l1 l2, l1 ≠ [] → l2 ≠ [] → valid (l1 ++ l2) →
    total (l1 ++ l2) = add_summary (total l1) (total l2);
}.

(** What a dimension promises: measuring a run of items by its summary is
    measuring it item by item. *)
Definition measure {T Sm D} `{Item T Sm} `{Dimension D Sm} (l : list T) : D :=
  foldl dim_add dim_zero (item_summary_of <$> l).

Class MeasureLaws (D T Sm : Type) `{SummaryLaws T Sm} `{Dimension D Sm} :=
  measure_app : ∀ l1 l2 : list T, l2 ≠ [] → valid (l1 ++ l2) →
    dim_add (measure l1) (total l2) = measure (l1 ++ l2).
(** Searching also asks that an empty tree measures nothing. *)
Class MeasureNil (D Sm : Type) `{Summary Sm} `{Dimension D Sm} :=
  measure_nil : dim_add dim_zero zero = dim_zero.
Class DimensionLaws (D T Sm : Type) `{SummaryLaws T Sm} `{Dimension D Sm} := {
  #[global] dimension_measure :: MeasureLaws D T Sm;
  #[global] dimension_nil :: MeasureNil D Sm;
}.

Fixpoint tree_items {T Sm} (t : SumTree T Sm) : list T :=
  match t with
  | Internal _ _ _ ct => flat_map tree_items ct
  | Leaf _ its _ => its
  end.

Section Wf.
Context {T Sm : Type} `{Summary Sm} `{Item T Sm}.
Abbreviation tree := (SumTree T Sm).

Inductive wf_node : nat → tree → Prop :=
| wf_leaf its :
    its ≠ [] → length its ≤ av_cap →
    wf_node 0 (Leaf (total its) its (item_summary_of <$> its))
| wf_internal h ct :
    ct ≠ [] → length ct ≤ av_cap → Forall (wf_node h) ct →
    wf_node (S h) (Internal (S h) (total (flat_map tree_items ct)) (summary <$> ct) ct).

Definition wf (t : tree) : Prop := t = new ∨ ∃ h, wf_node h t.
End Wf.

Section Collect.
Context {A : Type}.
Implicit Types l : list A.

Lemma av_collect_ok l : length l ≤ av_cap → av_collect l = Ret l.
Proof. unfold av_collect. by intros ->%Nat.leb_le. Qed.
Lemma av_push_ok l x : length l < av_cap → av_push l x = Ret (l ++ [x]).
Proof. intros. apply av_collect_ok. rewrite length_app; simpl; lia. Qed.
Lemma av_extend_ok l l' : length l + length l' ≤ av_cap → av_extend l l' = Ret (l ++ l').
Proof. intros. apply av_collect_ok. rewrite length_app; lia. Qed.
Lemma av_insert_first_ok l x : length l < av_cap → av_insert_first l x = Ret (x :: l).
Proof. intros. apply av_collect_ok. simpl; lia. Qed.
Lemma set_last_snoc l x y : set_last (l ++ [x]) y = Ret (l ++ [y]).
Proof. unfold set_last. by rewrite last_snoc, removelast_last. Qed.

Lemma nil_or_snoc l : l = [] ∨ ∃ l' x, l = l' ++ [x].
Proof. induction l using rev_ind; eauto. Qed.

Lemma on_last_snoc {B} (f : A → outcome (A * B)) l x :
  on_last f (l ++ [x]) = (let* '(x', b) := f x in Ret (l ++ [x'], b)).
Proof.
  induction l as [|y l IH]; [done|].
  simpl. destruct (l ++ [x]) eqn:E; [by destruct l|]. rewrite IH.
  by destruct (f x) as [[]| |].
Qed.
End Collect.

Section Facts.
Context {T Sm : Type} `{SummaryLaws T Sm}.
Abbreviation tree := (SumTree T Sm).
Implicit Types t : tree.

Lemma wf_node_height h t : wf_node h t → height t = h.
Proof. by inversion 1. Qed.

Lemma wf_node_summary h t : wf_node h t → summary t = total (tree_items t).
Proof. by inversion 1. Qed.

Lemma wf_node_items h t : wf_node h t → tree_items t ≠ [].
Proof.
  revert t. induction h as [|h IH]; intros t; inversion 1; subst; simpl; [done|].
  destruct ct as [|c ct]; [done|]. decompose_Forall_hyps.
  simpl. destruct (tree_items c) eqn:E; [|done]. by apply IH in E.
Qed.

Lemma wf_node_wf h t : wf_node h t → wf t.
Proof. right; eauto. Qed.

Lemma wf_node_not_empty h t : wf_node h t → is_empty t = false.
Proof. inversion 1; subst; simpl; [by destruct its|done]. Qed.

Lemma is_empty_items t : is_empty t = true → tree_items t = [].
Proof. by destruct t as [|? [|] ?]. Qed.
Lemma is_empty_nonempty t : wf t → is_empty t = false → tree_items t ≠ [].
Proof. intros [->|[h Ht]] E; [done|by eapply wf_node_items]. Qed.

Lemma valid_l l1 l2 : valid (l1 ++ l2) → valid l1.
Proof. intros Hv%valid_app. tauto. Qed.
Lemma valid_r l1 l2 : valid (l1 ++ l2) → valid l2.
Proof. intros Hv%valid_app. tauto. Qed.

Lemma flat_map_items_nil h ct :
  ct ≠ [] → Forall (wf_node h) ct → flat_map tree_items ct ≠ [].
Proof.
  intros Hct Hwf. destruct ct as [|c ct]; [done|]. decompose_Forall_hyps.
  assert (tree_items c ≠ []) by (by eapply wf_node_items). by destruct (tree_items c).
Qed.

(** The cached child summaries add up to the sum of the items below. *)
Lemma sum_children h ct :
  ct ≠ [] → Forall (wf_node h) ct → valid (flat_map tree_items ct) →
  sum (summary <$> ct) = total (flat_map tree_items ct).
Proof.
  induction ct as [|c ct IH] using rev_ind; [done|]. intros _ Hwf Hv.
  apply Forall_app in Hwf as [Hct Hc]. decompose_Forall_hyps.
  rewrite flat_map_app in Hv |- *. simpl in *. rewrite app_nil_r in *.
  unfold sum. rewrite fmap_app, foldl_app. fold (sum (summary <$> ct)). simpl.
  assert (tree_items c ≠ []) by (by eapply wf_node_items).
  erewrite (wf_node_summary h c) by done.
  destruct (decide (ct = [])) as [->|Hne].
  - simpl in *. by apply zero_total.
  - rewrite IH by eauto using valid_l. rewrite total_app; eauto using flat_map_items_nil.
Qed.

Lemma mk_internal h ct :
  ct ≠ [] → length ct ≤ av_cap → Forall (wf_node h) ct → valid (flat_map tree_items ct) →
  wf_node (S h) (Internal (S h) (sum (summary <$> ct)) (summary <$> ct) ct).
Proof. intros. erewrite sum_children by done. by constructor. Qed.

Lemma mk_leaf its :
  its ≠ [] → length its ≤ av_cap →
  wf_node 0 (Leaf (sum (item_summary_of <$> its)) its (item_summary_of <$> its)).
Proof. by constructor. Qed.

Lemma wf_internal_inv h t :
  wf_node (S h) t →
  ∃ ct, t = Internal (S h) (total (flat_map tree_items ct)) (summary <$> ct) ct ∧
        ct ≠ [] ∧ length ct ≤ av_cap ∧ Forall (wf_node h) ct.
Proof. inversion 1; subst; eauto. Qed.

Lemma wf_leaf_inv t :
  wf_node 0 t →
  ∃ its, t = Leaf (total its) its (item_summary_of <$> its) ∧
         its ≠ [] ∧ length its ≤ av_cap.
Proof. inversion 1; subst; eauto. Qed.

Lemma midpoint_bounds n :
  av_cap < n → n ≤ 2 * av_cap →
  0 < midpoint n ≤ av_cap ∧ midpoint n < n ∧ n - midpoint n ≤ av_cap.
Proof.
  unfold midpoint.
  pose proof (Nat.mod_upper_bound n 2). pose proof (Nat.mod_upper_bound (n + n mod 2) 2).
  pose proof (Nat.div_mod_eq (n + n mod 2) 2). cap_lia.
Qed.

Lemma div_ceil2_bounds n :
  av_cap < n → n ≤ 2 * av_cap →
  0 < div_ceil2 n ≤ av_cap ∧ div_ceil2 n < n ∧ n - div_ceil2 n ≤ av_cap.
Proof.
  unfold div_ceil2.
  pose proof (Nat.mod_upper_bound n 2). pose proof (Nat.div_mod_eq n 2). cap_lia.
Qed.

Lemma take_drop_nonnil {A} (l : list A) n :
  0 < n → n < length l → take n l ≠ [] ∧ drop n l ≠ [].
Proof.
  intros Hn Hl. split; intros E; apply (f_equal length) in E;
    rewrite ?length_take, ?length_drop in E; simpl in E; lia.
Qed.

(** Splitting a run of children (or of items) in two nodes. *)
Lemma split_children h ct mid :
  0 < mid ≤ av_cap → mid < length ct → length ct - mid ≤ av_cap →
  Forall (wf_node h) ct → valid (flat_map tree_items ct) →
  let l := Internal (S h) (sum (take mid (summary <$> ct))) (take mid (summary <$> ct)) (take mid ct) in
  let r := Internal (S h) (sum (drop mid (summary <$> ct))) (drop mid (summary <$> ct)) (drop mid ct) in
  wf_node (S h) l ∧ wf_node (S h) r ∧ tree_items l ++ tree_items r = flat_map tree_items ct.
Proof.
  intros Hmid Hlt Hr Hwf Hv l r. destruct (take_drop_nonnil ct mid) as [Ht Hd]; [lia|lia|].
  assert (flat_map tree_items (take mid ct) ++ flat_map tree_items (drop mid ct)
          = flat_map tree_items ct) as Heq by (by rewrite <-flat_map_app, take_drop).
  rewrite <-Heq in Hv. unfold l, r. rewrite <-fmap_take, <-fmap_drop. split_and!; [| |done].
  - apply mk_internal; eauto using Forall_take, valid_l. rewrite length_take; lia.
  - apply mk_internal; eauto using Forall_drop, valid_r. rewrite length_drop; lia.
Qed.

Lemma split_items its mid :
  0 < mid ≤ av_cap → mid < length its → length its - mid ≤ av_cap →
  let iss := item_summary_of <$> its in
  let l := Leaf (sum (take mid iss)) (take mid its) (take mid iss) in
  let r := Leaf (sum (drop mid iss)) (drop mid its) (drop mid iss) in
  wf_node 0 l ∧ wf_node 0 r ∧ tree_items l ++ tree_items r = its.
Proof.
  intros Hmid Hlt Hr iss l r. destruct (take_drop_nonnil its mid) as [Ht Hd]; [lia|lia|].
  unfold l, r, iss. rewrite <-fmap_take, <-fmap_drop. split_and!.
  - apply mk_leaf; [done|]. rewrite length_take; lia.
  - apply mk_leaf; [done|]. rewrite length_drop; lia.
  - simpl. apply take_drop.
Qed.

(** The result of an insertion into a node of height [h]: the updated node,
    possibly with a sibling of the same height, holding [its] in order. *)
Definition grown_right (h : nat) (its : list T) (p : tree * option tree) : Prop :=
  wf_node h p.1 ∧
  match p.2 with
  | None => tree_items p.1 = its
  | Some r => wf_node h r ∧ tree_items p.1 ++ tree_items r = its
  end.

Definition grown_left (h : nat) (its : list T) (p : tree * option tree) : Prop :=
  wf_node h p.1 ∧
  match p.2 with
  | None => tree_items p.1 = its
  | Some l => wf_node h l ∧ tree_items l ++ tree_items p.1 = its
  end.

Lemma push_leaf_spec self other :
  wf_node 0 self → wf_node 0 other → valid (tree_items self ++ tree_items other) →
  returns (push_tree_recursive self other)
    (grown_right 0 (tree_items self ++ tree_items other)).
Proof.
  intros (its & -> & Hne & Hcap)%wf_leaf_inv (its' & -> & Hne' & Hcap')%wf_leaf_inv Hv.
  simpl in *. rewrite <-fmap_app.
  destruct (Nat.ltb_spec av_cap (length its + length its')) as [Hlt|Hle].
  - rewrite <-length_app in *. destruct (midpoint_bounds (length (its ++ its'))) as (? & ? & ?);
      [done|rewrite length_app; lia|].
    rewrite !av_collect_ok by (rewrite ?length_take, ?length_drop, ?length_fmap; lia).
    apply returns_Ret. unfold grown_right; simpl.
    destruct (split_items (its ++ its') (midpoint (length (its ++ its')))) as (? & ? & ?); auto.
  - rewrite !av_extend_ok by (rewrite ?length_fmap; lia).
    apply returns_Ret. unfold grown_right; simpl. split; [|done].
    rewrite <-total_app, <-fmap_app by done. constructor; [|rewrite length_app; lia].
    by destruct its.
Qed.

(** The children of an internal node after the recursive part of
    [push_tree_recursive], and the siblings to append to them. *)
Lemma finish_internal h s ct ta :
  ct ≠ [] → length ct ≤ av_cap → length ta ≤ av_cap →
  Forall (wf_node h) ct → Forall (wf_node h) ta →
  valid (flat_map tree_items (ct ++ ta)) → s = total (flat_map tree_items (ct ++ ta)) →
  returns
    (let child_count := length ct + length ta in
     if av_cap <? child_count then
       let mid := midpoint child_count in
       let all_summaries := (summary <$> ct) ++ (summary <$> ta) in
       let all_trees := ct ++ ta in
       let* left_summaries := av_collect (take mid all_summaries) in
       let* right_summaries := av_collect (drop mid all_summaries) in
       let* left_trees := av_collect (take mid all_trees) in
       let* right_trees := av_collect (drop mid all_trees) in
       Ret (Internal (S h) (sum left_summaries) left_summaries left_trees,
            Some (Internal (S h) (sum right_summaries) right_summaries right_trees))
     else
       let* cs := av_extend (summary <$> ct) (summary <$> ta) in
       let* ct := av_extend ct ta in
       Ret (Internal (S h) s cs ct, None))
    (grown_right (S h) (flat_map tree_items (ct ++ ta))).
Proof.
  intros Hne Hct Hta Hwf Hwf' Hv ->. cbv zeta.
  rewrite <-length_app. assert (Forall (wf_node h) (ct ++ ta)) by (by apply Forall_app).
  rewrite <-fmap_app.
  destruct (Nat.ltb_spec av_cap (length (ct ++ ta))) as [Hlt|Hle].
  - destruct (midpoint_bounds (length (ct ++ ta))) as (? & ? & ?);
      [done|rewrite length_app; lia|].
    rewrite !av_collect_ok by (rewrite ?length_take, ?length_drop, ?length_fmap; lia).
    apply returns_Ret. unfold grown_right; cbn [fst snd].
    destruct (split_children h (ct ++ ta) (midpoint (length (ct ++ ta)))) as (? & ? & ?); auto.
  - rewrite length_app in Hle. rewrite !av_extend_ok by (rewrite ?length_fmap; lia).
    apply returns_Ret. unfold grown_right; simpl. split; [|done].
    rewrite <-fmap_app. constructor; [by destruct ct|rewrite length_app; lia|done].
Qed.

Lemma push_tree_recursive_spec h self ho other :
  wf_node h self → wf_node ho other → ho ≤ h →
  valid (tree_items self ++ tree_items other) →
  returns (push_tree_recursive self other)
    (grown_right h (tree_items self ++ tree_items other)).
Proof.
  revert self. induction h as [|h IH]; intros self Hself Hother Hle Hv.
  { assert (ho = 0) as -> by lia. by apply push_leaf_spec. }
  destruct (wf_internal_inv _ _ Hself) as (ct & -> & Hne & Hcap & Hct).
  simpl push_tree_recursive. simpl tree_items in *.
  rewrite (wf_node_height ho other) by done. unfold usub.
  destruct (Nat.ltb_spec (S h) ho) as [|_]; [lia|].
  rewrite (wf_node_summary ho other) by done.
  rewrite <-total_app by eauto using flat_map_items_nil, wf_node_items.
  destruct (Nat.eqb_spec (S h - ho) 0) as [E0|E0].
  { assert (ho = S h) as -> by lia.
    destruct (wf_internal_inv _ _ Hother) as (ct' & -> & Hne' & Hcap' & Hct'). simpl in *.
    rewrite !av_extend_ok by (simpl; rewrite ?length_fmap; lia).
    rewrite <-flat_map_app in *. by apply finish_internal. }
  destruct ((S h - ho =? 1) && negb (is_underflowing other)) eqn:Eb.
  { apply andb_true_iff in Eb as [Eb%Nat.eqb_eq _]. assert (ho = h) as -> by lia. simpl.
    pose proof (finish_internal h (total (flat_map tree_items ct ++ tree_items other)) ct [other])
      as Hfin. rewrite flat_map_app in Hfin. simpl in Hfin. rewrite app_nil_r in Hfin.
    rewrite (wf_node_summary h other) in Hfin by done.
    apply Hfin; auto. simpl; cap_lia. }
  clear Eb. destruct (nil_or_snoc ct) as [->|(ct0 & c & ->)]; [done|].
  apply Forall_app in Hct as [Hct0 Hc]. decompose_Forall_hyps.
  rewrite flat_map_app, <-app_assoc in *. simpl in *. rewrite app_nil_r in *.
  rewrite on_last_snoc.
  destruct (IH c) as ([c' o] & Hpush & Hc' & Ho); [done|done|lia|by eapply valid_r|].
  rewrite Hpush, last_snoc, fmap_app. simpl. rewrite set_last_snoc. simpl in Hc', Ho.
  assert (flat_map tree_items ((ct0 ++ [c']) ++ option_list o)
          = flat_map tree_items ct0 ++ tree_items c ++ tree_items other) as Hitems.
  { rewrite !flat_map_app, <-app_assoc. simpl. rewrite app_nil_r.
    destruct o as [r|]; simpl; rewrite app_nil_r; [|by rewrite Ho].
    destruct Ho as [_ ->]. done. }
  rewrite <-Hitems in Hv |- *.
  assert (ct0 ++ [c'] ≠ []) by (by destruct ct0).
  assert (length (ct0 ++ [c']) ≤ av_cap) by (rewrite length_app in *; simpl in *; lia).
  assert (Forall (wf_node h) (ct0 ++ [c'])) by (apply Forall_app; auto).
  assert (1 ≤ av_cap) by cap_lia.
  pose proof (finish_internal h (total (flat_map tree_items ((ct0 ++ [c']) ++ option_list o)))
      (ct0 ++ [c']) (option_list o)) as Hfin. rewrite fmap_app in Hfin. simpl in Hfin.
  destruct o as [r|]; simpl in *; apply Hfin; auto with lia.
  destruct Ho; auto.
Qed.

Lemma merge_into_right_spec h small large :
  wf_node h small → wf_node h large → valid (tree_items small ++ tree_items large) →
  returns (merge_into_right small large)
    (grown_left h (tree_items small ++ tree_items large)).
Proof.
  intros Hs Hl Hv. destruct h as [|h].
  - apply wf_leaf_inv in Hs as (its & -> & Hne & Hcap), Hl as (its' & -> & Hne' & Hcap').
    simpl in *. rewrite <-fmap_app. rewrite <-length_app.
    destruct (Nat.leb_spec (length (its ++ its')) av_cap) as [Hle|Hlt].
    + rewrite !av_extend_ok by (rewrite length_app in Hle; rewrite ?length_fmap; lia).
      apply returns_Ret. unfold grown_left; simpl. split; [|done].
      rewrite <-total_app, <-fmap_app by done. constructor; [by destruct its|done].
    + destruct (div_ceil2_bounds (length (its ++ its'))) as (? & ? & ?);
        [done|rewrite length_app; lia|].
      rewrite !av_collect_ok by (rewrite ?length_take, ?length_drop, ?length_fmap; lia).
      apply returns_Ret. unfold grown_left; simpl.
      destruct (split_items (its ++ its') (div_ceil2 (length (its ++ its')))) as (? & ? & ?); auto.
  - apply wf_internal_inv in Hs as (ct & -> & Hne & Hcap & Hct), Hl as (ct' & -> & Hne' & Hcap' & Hct').
    simpl in *. rewrite <-fmap_app. rewrite Nat.add_comm, <-length_app.
    assert (Forall (wf_node h) (ct ++ ct')) by (by apply Forall_app).
    rewrite <-flat_map_app in *.
    destruct (Nat.leb_spec (length (ct ++ ct')) av_cap) as [Hle|Hlt].
    + rewrite !av_extend_ok by (rewrite length_app in Hle; rewrite ?length_fmap; lia).
      apply returns_Ret. unfold grown_left; simpl. split; [|done].
      rewrite flat_map_app in Hv. rewrite <-total_app by eauto using flat_map_items_nil.
      rewrite <-fmap_app, <-flat_map_app. constructor; [by destruct ct|done|done].
    + destruct (div_ceil2_bounds (length (ct ++ ct'))) as (? & ? & ?);
        [done|rewrite length_app; lia|].
      rewrite !av_collect_ok by (rewrite ?length_take, ?length_drop, ?length_fmap; lia).
      apply returns_Ret. unfold grown_left; cbn [fst snd].
      destruct (split_children h (ct ++ ct') (div_ceil2 (length (ct ++ ct')))) as (? & ? & ?); auto.
Qed.

(** A tree put before the first child of a full or non-full node. *)
Lemma append_large_spec hs small h large :
  wf_node hs small → wf_node h large → hs ≤ h →
  valid (tree_items small ++ tree_items large) →
  returns (append_large small large)
    (grown_left h (tree_items small ++ tree_items large)).
Proof.
  revert large. induction h as [|h IH]; intros large Hs Hl Hle Hv.
  - assert (hs = 0) as -> by lia.
    destruct large; simpl; rewrite (wf_node_height 0 small), ?(wf_node_height _ _ Hl) by done;
      [by inversion Hl|]. simpl.
    destruct (negb (is_underflowing small)); [|by apply merge_into_right_spec].
    apply returns_Ret. by split.
  - destruct (decide (hs = S h)) as [->|Hne].
    { destruct large as [hl s cs ct|]; [|by inversion Hl]. simpl append_large.
      rewrite (wf_node_height _ _ Hs). assert (hl = S h) as -> by (by inversion Hl).
      rewrite Nat.eqb_refl. destruct (negb (is_underflowing small)); [|by apply merge_into_right_spec].
      apply returns_Ret. by split. }
    destruct (wf_internal_inv _ _ Hl) as (ct & -> & Hct0 & Hcap & Hct).
    simpl append_large. rewrite (wf_node_height _ _ Hs).
    destruct (Nat.eqb_spec hs (S h)); [done|].
    destruct ct as [|c ct]; [done|]. decompose_Forall_hyps. rewrite app_assoc in Hv.
    destruct (IH c) as ([c' o] & Hpush & Hc' & Ho); [done|done|lia|by eapply valid_l|].
    rewrite Hpush. simpl in Hc', Ho |- *. rewrite (wf_node_summary hs small) by done.
    rewrite <-total_app; [|by eapply wf_node_items| |by rewrite app_assoc].
    2: { assert (tree_items c ≠ []) by (by eapply wf_node_items). by destruct (tree_items c). }
    rewrite app_assoc. destruct o as [l|].
    2: { apply returns_Ret. split; simpl; [|by rewrite Ho].
      rewrite <-Ho. apply (wf_internal h (c' :: ct)); [done|done|by constructor]. }
    destruct Ho as [Hl' Ho]. rewrite <-Ho in Hv |- *. rewrite <-app_assoc in Hv |- *.
    assert (Forall (wf_node h) (c' :: ct)) as Hct' by (by constructor).
    destruct (Nat.ltb_spec (S (length ct)) av_cap) as [Hlt|Hge].
    + rewrite !av_insert_first_ok by (simpl; rewrite ?length_fmap; lia).
      apply returns_Ret. split; simpl; [|done].
      apply (wf_internal h (l :: c' :: ct)); [done|simpl; lia|by constructor].
    + change (summary c' :: (summary <$> ct)) with (summary <$> c' :: ct).
      change (tree_items c' ++ flat_map tree_items ct)
        with (flat_map tree_items (c' :: ct)) in Hv |- *.
      assert (length (c' :: ct) = av_cap) as Hlen by (simpl in *; lia).
      revert Hct' Hv Hlen. generalize (c' :: ct) as ct'. intros ct' Hct' Hv Hlen.
      rewrite av_cap_eq in Hlen. assert (0 < TREE_BASE) by cap_lia.
      destruct (take_drop_nonnil ct' TREE_BASE) as [Ht Hd]; [done|lia|].
      rewrite !av_extend_ok by (simpl; rewrite length_take, ?length_fmap; cap_lia).
      assert (flat_map tree_items (take TREE_BASE ct') ++ flat_map tree_items (drop TREE_BASE ct')
        = flat_map tree_items ct') as Heq by (by rewrite <-flat_map_app, take_drop).
      rewrite <-Heq, app_assoc in Hv. apply returns_Ret.
      rewrite <-fmap_take, <-fmap_drop. split; simpl; [|split].
      * apply mk_internal; eauto using Forall_drop, valid_r.
        rewrite length_drop; cap_lia.
      * apply (mk_internal h (l :: take TREE_BASE ct')); simpl; eauto using valid_l.
        -- rewrite length_take; cap_lia.
        -- constructor; eauto using Forall_take.
      * by rewrite <-Heq, <-app_assoc.
Qed.

Lemma from_child_trees_spec h l r :
  wf_node h l → wf_node h r → valid (tree_items l ++ tree_items r) →
  returns (from_child_trees l r)
    (λ t, wf_node (S h) t ∧ tree_items t = tree_items l ++ tree_items r).
Proof.
  intros Hl Hr Hv. unfold from_child_trees. rewrite (wf_node_height _ _ Hl).
  rewrite !av_push_ok by (simpl; cap_lia). simpl.
  rewrite Nat.add_1_r. apply returns_Ret. simpl. rewrite app_nil_r. split; [|done].
  apply (mk_internal h [l; r]); simpl; rewrite ?app_nil_r; auto.
  simpl; cap_lia.
Qed.

Lemma wf_cases t : wf t → (t = new ∧ tree_items t = []) ∨ ∃ h, wf_node h t.
Proof. intros [->|?]; eauto. Qed.

Lemma append_wf self other :
  wf self → wf other → valid (tree_items self ++ tree_items other) →
  returns (append self other)
    (λ t, wf t ∧ tree_items t = tree_items self ++ tree_items other).
Proof.
  intros [[-> Hs]|[h Hs]]%wf_cases Ho Hv.
  { unfold append; simpl. auto with outcomes. }
  unfold append. rewrite (wf_node_not_empty _ _ Hs).
  apply wf_cases in Ho as [[-> Ho]|[ho Ho]].
  { simpl. apply returns_Ret. rewrite app_nil_r. eauto using wf_node_wf. }
  assert ((if negb (is_leaf other) then Ret true
           else let* its := node_items other in
                Ret (match its with [] => false | _ :: _ => true end)) = Ret true) as ->.
  { inversion Ho; subst; simpl; [by destruct its|done]. }
  rewrite (wf_node_height _ _ Hs), (wf_node_height _ _ Ho).
  destruct (Nat.ltb_spec h ho) as [Hlt|Hge].
  - destruct (append_large_spec h self ho other) as ([o' res] & -> & Ho' & Hres);
      [done|done|lia|done|]. simpl in *. destruct res as [l|].
    + destruct Hres as [Hl Hi]. rewrite <-Hi in Hv |- *.
      destruct (from_child_trees_spec ho l o') as (t & -> & Ht & Hit); [done..|].
      apply returns_Ret. eauto using wf_node_wf.
    + apply returns_Ret. eauto using wf_node_wf.
  - destruct (push_tree_recursive_spec h self ho other) as ([s' res] & -> & Hs' & Hres);
      [done|done|lia|done|]. simpl in *. destruct res as [r|].
    + destruct Hres as [Hr Hi]. rewrite <-Hi in Hv |- *.
      destruct (from_child_trees_spec h s' r) as (t & -> & Ht & Hit); [done..|].
      apply returns_Ret. eauto using wf_node_wf.
    + apply returns_Ret. eauto using wf_node_wf.
Qed.

Lemma wf_single x :
  valid [x] → wf_node 0 (Leaf (item_summary_of x) [x] [item_summary_of x]).
Proof.
  intros Hv. rewrite <-(total_single x) at 1 by done.
  apply (wf_leaf [x]); [done|]. simpl; cap_lia.
Qed.

Lemma push_wf self x :
  wf self → valid (tree_items self ++ [x]) →
  returns (push self x) (λ t, wf t ∧ tree_items t = tree_items self ++ [x]).
Proof.
  intros Hs Hv. apply (append_wf self (Leaf _ [x] [_])); [done| |done].
  eapply wf_node_wf, wf_single, valid_r, Hv.
Qed.

(** ** Bulk construction *)

Lemma leaf_of_spec its :
  its ≠ [] → length its ≤ av_cap → valid its →
  leaf_of its = Ret (Leaf (total its) its (item_summary_of <$> its)).
Proof.
  intros Hne Hcap Hv. unfold leaf_of.
  rewrite !av_collect_ok by (rewrite ?length_fmap; done).
  destruct its as [|x its]; [done|]. simpl. do 2 f_equal.
  unfold total, sum. simpl. f_equal.
  change (add_summary zero (item_summary_of x)) with (total [x]).
  symmetry. apply total_single. by apply (valid_l [x] its).
Qed.

Lemma leaf_nodes_spec its :
  valid its →
  returns (leaf_nodes its) (λ nodes, Forall (wf_node 0) nodes ∧ flat_map tree_items nodes = its).
Proof.
  intros Hv. unfold leaf_nodes.
  apply (loop_returns _ (λ '(rest, nodes), Forall (wf_node 0) nodes ∧
           flat_map tree_items nodes ++ rest = its) (λ '(rest, _), length rest)).
  - intros [rest nodes] [Hwf Hits]. destruct rest as [|x rest].
    + right. rewrite app_nil_r in Hits. eauto.
    + left. remember (x :: rest) as l eqn:El.
      assert (0 < av_cap) by cap_lia. assert (0 < length l) by (subst l; simpl; lia).
      assert (take av_cap l ≠ []) by (subst l; destruct av_cap; [lia|done]).
      rewrite <-Hits in Hv. apply valid_r in Hv.
      rewrite <-(take_drop av_cap l) in Hv. apply valid_l in Hv.
      rewrite leaf_of_spec by (rewrite ?length_take; auto with lia).
      eexists. split; [done|]. split; [split|].
      * apply Forall_app. split; [done|]. repeat constructor; [done|rewrite length_take; lia].
      * rewrite flat_map_app, <-app_assoc. simpl. by rewrite app_nil_r, take_drop.
      * rewrite length_drop. lia.
  - by split.
  - lia.
Qed.

(** The state of the loop over [nodes.drain(..)]: full parents, and one that
    still has room. *)
Definition filling (h : nat) (seen : list tree) (st : list tree * option tree) : Prop :=
  Forall (wf_node (S h)) st.1 ∧
  match st.2 with
  | None => flat_map tree_items st.1 = flat_map tree_items seen ∧
            length seen = av_cap * length st.1
  | Some p => ∃ ct, p = Internal (S h) (total (flat_map tree_items ct)) (summary <$> ct) ct ∧
      ct ≠ [] ∧ length ct < av_cap ∧ Forall (wf_node h) ct ∧
      flat_map tree_items st.1 ++ flat_map tree_items ct = flat_map tree_items seen ∧
      length seen = av_cap * length st.1 + length ct
  end.

Lemma add_child_spec h seen st c :
  filling h seen st → wf_node h c → valid (flat_map tree_items (seen ++ [c])) →
  returns (add_child (S h) st c) (filling h (seen ++ [c])).
Proof.
  intros Hst Hc Hv. rewrite flat_map_app in Hv. simpl in Hv. rewrite app_nil_r in Hv.
  assert (∃ ps s ct, st.1 = ps ∧
    default (Internal (S h) zero [] []) st.2 = Internal (S h) s (summary <$> ct) ct ∧
    Forall (wf_node (S h)) ps ∧ length ct < av_cap ∧ Forall (wf_node h) ct ∧
    flat_map tree_items ps ++ flat_map tree_items ct = flat_map tree_items seen ∧
    length seen = av_cap * length ps + length ct ∧
    add_summary s (summary c) = total (flat_map tree_items (ct ++ [c])))
    as (ps & s & ct & Hps & Hcur & Hwf & Hlen & Hct & Hits & Hcnt & Hsum).
  { destruct st as [ps cur]. unfold filling in Hst; simpl in *. destruct cur as [p|].
    - destruct Hst as (Hwf & ct & -> & Hne & Hlt & Hct & Hits & Hcnt).
      exists ps, (total (flat_map tree_items ct)), ct. split_and!; try done.
      rewrite flat_map_app; simpl. rewrite app_nil_r, (wf_node_summary h c) by done.
      symmetry. apply total_app; eauto using flat_map_items_nil, wf_node_items.
      rewrite <-Hits, <-app_assoc in Hv. by eapply valid_r.
    - destruct Hst as (Hwf & Hits & Hcnt). exists ps, zero, []. simpl.
      rewrite !app_nil_r, (wf_node_summary h c) by done. split_and!; auto with lia.
      + cap_lia.
      + apply zero_total; eauto using wf_node_items, valid_r. }
  destruct st as [? cur]; simpl in Hps, Hcur; subst. unfold add_child. rewrite Hcur, Hsum.
  rewrite !av_push_ok by (rewrite ?length_fmap; lia).
  assert (wf_node (S h) (Internal (S h) (total (flat_map tree_items (ct ++ [c])))
           ((summary <$> ct) ++ [summary c]) (ct ++ [c]))) as Hp.
  { replace ((summary <$> ct) ++ [summary c]) with (summary <$> (ct ++ [c]))
      by (by rewrite fmap_app). constructor;
    [by destruct ct|rewrite length_app; simpl; lia|apply Forall_app; auto]. }
  assert (flat_map tree_items ps ++ flat_map tree_items (ct ++ [c])
          = flat_map tree_items (seen ++ [c])) as Hits'
    by (rewrite !flat_map_app, app_assoc, Hits; done).
  rewrite length_app. simpl.
  destruct (Nat.eqb_spec (length ct + 1) av_cap) as [Hfull|Hroom];
    apply returns_Ret; unfold filling; simpl.
  - rewrite Forall_app, !length_app. split_and!; [done|by constructor| |simpl; lia].
    rewrite flat_map_app. simpl. by rewrite app_nil_r.
  - split; [done|]. exists (ct ++ [c]). rewrite fmap_app. split_and!; auto;
      rewrite ?length_app; simpl; try lia; [by destruct ct|apply Forall_app; auto].
Qed.

Lemma add_children_spec h nodes seen st :
  filling h seen st → Forall (wf_node h) nodes → valid (flat_map tree_items (seen ++ nodes)) →
  returns (add_children (S h) st nodes) (filling h (seen ++ nodes)).
Proof.
  revert seen st. induction nodes as [|c nodes IH]; intros seen st Hst Hwf Hv; simpl.
  - rewrite app_nil_r. auto with outcomes.
  - decompose_Forall_hyps. rewrite cons_middle, app_assoc in Hv |- *.
    destruct (add_child_spec h seen st c) as (st' & -> & Hst'); [done..| |by apply IH].
    rewrite flat_map_app in Hv. by eapply valid_l.
Qed.

(** What one level of parents does, for the sequential and the parallel
    construction alike. *)
Definition level_ok (level : nat → list tree → outcome (list tree)) : Prop :=
  ∀ h nodes, 1 < length nodes → Forall (wf_node h) nodes → valid (flat_map tree_items nodes) →
  returns (level (S h) nodes) (λ ps, Forall (wf_node (S h)) ps ∧
    flat_map tree_items ps = flat_map tree_items nodes ∧ length ps < length nodes).

Lemma parent_level_ok : level_ok parent_level.
Proof.
  intros h nodes Hlen Hwf Hv. unfold parent_level.
  destruct (add_children_spec h nodes [] ([], None)) as ([ps cur] & -> & Hps & Hcur);
    [split; [constructor|]; simpl; split; [done|lia]|done|done|].
  apply returns_Ret. simpl in *. destruct cur as [p|]; simpl in *.
  - destruct Hcur as (ct & -> & Hne & Hlt & Hct & Hits & Hcnt).
    rewrite flat_map_app, length_app. simpl. rewrite app_nil_r. split_and!; [|done|].
    + apply Forall_app. split; [done|]. repeat constructor; auto with lia.
    + destruct ct; [done|]. simpl in *. destruct ps; cap_lia.
  - rewrite !app_nil_r. destruct Hcur as [Hits Hcnt]. split_and!; auto.
    destruct ps; cap_lia.
Qed.

Lemma build_levels_spec level nodes :
  level_ok level → Forall (wf_node 0) nodes → valid (flat_map tree_items nodes) →
  returns (let* nodes := build_levels level nodes in pop_root nodes)
    (λ t, wf t ∧ tree_items t = flat_map tree_items nodes).
Proof.
  intros Hlevel Hwf Hv.
  assert (returns (build_levels level nodes) (λ ns, length ns ≤ 1 ∧ ∃ h,
    Forall (wf_node h) ns ∧ flat_map tree_items ns = flat_map tree_items nodes))
    as (ns & -> & Hlen & h & Hns & Hits).
  { unfold build_levels. apply (loop_returns _ (λ '(h, ns), Forall (wf_node h) ns ∧
      flat_map tree_items ns = flat_map tree_items nodes) (λ '(_, ns), length ns)).
    - intros [h ns] [Hns Hits]. destruct (Nat.ltb_spec 1 (length ns)) as [Hlt|Hge].
      + left. rewrite Nat.add_1_r. rewrite <-Hits in Hv.
        destruct (Hlevel h ns) as (ps & -> & Hps & Hitsp & Hlt'); [done..|].
        eexists. split; [done|]. cbv beta iota. rewrite Hitsp. auto.
      + right. exists ns. eauto.
    - done.
    - lia. }
  unfold pop_root. destruct ns as [|t [|]]; simpl in *; [| |lia]; apply returns_Ret.
  - rewrite <-Hits. by split; [left|].
  - rewrite app_nil_r in Hits. decompose_Forall_hyps. eauto using wf_node_wf.
Qed.

Lemma from_iter_wf its :
  valid its → returns (from_iter its) (λ t, wf t ∧ tree_items t = its).
Proof.
  intros Hv. unfold from_iter.
  destruct (leaf_nodes_spec its) as (nodes & -> & Hwf & Hits); [done|].
  rewrite <-Hits in Hv |- *. apply build_levels_spec; auto using parent_level_ok.
Qed.

Lemma extend_wf self its :
  wf self → valid (tree_items self ++ its) →
  returns (extend self its) (λ t, wf t ∧ tree_items t = tree_items self ++ its).
Proof.
  intros Hs Hv. unfold extend.
  destruct (from_iter_wf its) as (t & -> & Ht & Hit); [by eapply valid_r|].
  rewrite <-Hit in Hv |- *. by apply append_wf.
Qed.
End Facts.
