(* ===== verification/SumTreeBulk.v ===== *)
(** * Parallel bulk construction, and access to the ends of a [SumTree]

    [from_par_iter] relative to rayon's documented [chunks], and the operations
    on the first and the last item. *)
From stdpp Require Import base numbers option list.
From Stdlib Require Import Lia.
From S2P Require Import Prelude SumTree SumTreeFacts.
#[local] Opaque TREE_BASE av_cap.

(** rayon's [IndexedParallelIterator::chunks(n)]: contiguous, non-empty chunks
    of at most [n] elements, as few as [n] allows. *)
Record chunks_spec (pc : ∀ A : Type, nat → list A → list (list A)) : Prop := {
  chunks_concat : ∀ A n (l : list A), 0 < n → concat (pc A n l) = l;
  chunks_size : ∀ A n (l : list A), 0 < n → Forall (λ c, c ≠ [] ∧ length c ≤ n) (pc A n l);
  chunks_count : ∀ A n (l : list A), 0 < n → n * length (pc A n l) < length l + n;
}.

Section Par.
Context {T Sm : Type} `{SummaryLaws T Sm}.
Abbreviation tree := (SumTree T Sm).

Lemma par_leaves_spec (cs : list (list T)) :
  Forall (λ c, c ≠ [] ∧ length c ≤ av_cap) cs → valid (concat cs) →
  returns (par_map leaf_of cs)
    (λ nodes : list tree, Forall (wf_node 0) nodes ∧ flat_map tree_items nodes = concat cs).
Proof.
  induction cs as [|c cs IH]; intros Hcs Hv; simpl in *.
  - by apply returns_Ret.
  - apply Forall_cons in Hcs as [[Hne Hlen] Hcs].
    rewrite leaf_of_spec by eauto using valid_l.
    destruct IH as (nodes & -> & Hn & Hi); [done|by eapply valid_r|].
    apply returns_Ret. simpl. rewrite Hi. split; [|done]. by repeat constructor.
Qed.

Lemma par_parents_spec h (cs : list (list tree)) :
  Forall (λ c, c ≠ [] ∧ length c ≤ av_cap) cs → Forall (wf_node h) (concat cs) →
  valid (flat_map tree_items (concat cs)) →
  returns (par_map (par_parent (S h)) cs)
    (λ ps : list tree, Forall (wf_node (S h)) ps ∧
       flat_map tree_items ps = flat_map tree_items (concat cs) ∧ length ps = length cs).
Proof.
  induction cs as [|c cs IH]; intros Hcs Hwf Hv; simpl in *.
  - by apply returns_Ret.
  - apply Forall_cons in Hcs as [[Hne Hlen] Hcs].
    apply Forall_app in Hwf as [Hc Hwf]. rewrite flat_map_app in Hv.
    assert (par_parent (S h) c =
      Ret (Internal (S h) (total (flat_map tree_items c)) (summary <$> c) c)) as ->.
    { unfold par_parent. rewrite !av_collect_ok by (rewrite ?length_fmap; lia).
      rewrite <-(sum_children h c) by eauto using valid_l.
      destruct c as [|n c]; [done|]. simpl. do 2 f_equal. unfold sum; simpl. f_equal.
      apply Forall_cons in Hc as [Hn Hc]. rewrite (wf_node_summary h n) by done. symmetry.
      apply zero_total; [by eapply wf_node_items|]. eapply valid_l, valid_l, Hv. }
    destruct IH as (ps & -> & Hps & Hi & Hl); [done|done|by eapply valid_r|].
    apply returns_Ret. simpl. rewrite Hi, Hl, flat_map_app.
    split_and!; [|done|done]. by repeat constructor.
Qed.

Lemma from_par_iter_wf pc (its : list T) :
  chunks_spec pc → valid its →
  returns (from_par_iter pc its) (λ t : tree, wf t ∧ tree_items t = its).
Proof.
  intros Hpc Hv. unfold from_par_iter. assert (0 < av_cap) as Hcap by cap_lia.
  destruct (par_leaves_spec (pc _ av_cap its)) as (nodes & -> & Hn & Hi).
  { by apply (chunks_size pc Hpc). }
  { by rewrite (chunks_concat pc Hpc). }
  rewrite (chunks_concat pc Hpc) in Hi by done. rewrite <-Hi in Hv |- *.
  apply build_levels_spec; [|done|done].
  intros h ns Hlen Hns Hvn.
  destruct (par_parents_spec h (pc _ av_cap ns)) as (ps & -> & Hps & His & Hl).
  { by apply (chunks_size pc Hpc). }
  { by rewrite (chunks_concat pc Hpc). }
  { by rewrite (chunks_concat pc Hpc). }
  apply returns_Ret. rewrite His, (chunks_concat pc Hpc) by done. split_and!; [done|done|].
  rewrite Hl. pose proof (chunks_count pc Hpc _ av_cap ns Hcap) as Hcnt.
  destruct (pc _ av_cap ns) as [|? cs]; simpl in *; [lia|].
  destruct (decide (length cs = 0)); [lia|]. cap_lia.
Qed.

Lemma par_extend_wf pc (self : tree) (its : list T) :
  chunks_spec pc → wf self → valid (tree_items self ++ its) →
  returns (par_extend pc self its) (λ t, wf t ∧ tree_items t = tree_items self ++ its).
Proof.
  intros Hpc Hs Hv. unfold par_extend.
  destruct (from_par_iter_wf pc its) as (t & -> & Ht & Hit); [done|by eapply valid_r|].
  rewrite <-Hit in Hv |- *. by apply append_wf.
Qed.
End Par.

(** ** The first and the last item *)
Section Ends.
Context {T Sm : Type} `{Summary Sm} `{Item T Sm}.
Abbreviation tree := (SumTree T Sm).
Implicit Types t : tree.

Lemma head_app_nonnil {A} (l1 l2 : list A) : l1 ≠ [] → head (l1 ++ l2) = head l1.
Proof. by destruct l1. Qed.
Lemma last_app_nonnil {A} (l1 l2 : list A) : l2 ≠ [] → last (l1 ++ l2) = last l2.
Proof. intros Hl. rewrite last_app. by destruct (last l2) eqn:E; [|apply last_None in E]. Qed.

Lemma leftmost_leaf_spec h t :
  wf_node h t → returns (leftmost_leaf t) (λ l, wf_node 0 l ∧ head (tree_items l) = head (tree_items t)).
Proof.
  revert t. induction h as [|h IH]; intros t Ht.
  - apply wf_leaf_inv in Ht as Hl. destruct Hl as (its & -> & _). by apply returns_Ret.
  - apply wf_internal_inv in Ht as (ct & -> & Hne & _ & Hct).
    destruct ct as [|c ct]; [done|]. apply Forall_cons in Hct as [Hc Hct]. simpl.
    rewrite head_app_nonnil by (by eapply wf_node_items). by apply IH.
Qed.

Lemma rightmost_leaf_snoc h s cs ct c :
  rightmost_leaf (Internal h s cs (ct ++ [c]) : tree) = rightmost_leaf c.
Proof.
  induction ct as [|c' ct IH]; simpl in *; [done|].
  destruct (ct ++ [c]) eqn:E; [by destruct ct|]. done.
Qed.

Lemma rightmost_leaf_spec h t :
  wf_node h t → returns (rightmost_leaf t) (λ l, wf_node 0 l ∧ last (tree_items l) = last (tree_items t)).
Proof.
  revert t. induction h as [|h IH]; intros t Ht.
  - apply wf_leaf_inv in Ht as Hl. destruct Hl as (its & -> & _). by apply returns_Ret.
  - apply wf_internal_inv in Ht as (ct & -> & Hne & _ & Hct).
    destruct (nil_or_snoc ct) as [->|(ct' & c & ->)]; [done|].
    rewrite rightmost_leaf_snoc. apply Forall_app in Hct as [_ Hc].
    apply Forall_cons in Hc as [Hc _]. simpl. rewrite flat_map_app. simpl.
    rewrite app_nil_r, last_app_nonnil by (by eapply wf_node_items). by apply IH.
Qed.

Lemma first_wf t : wf t → first t = Ret (head (tree_items t)).
Proof.
  intros [->|[h Ht]]; [done|]. unfold first.
  destruct (leftmost_leaf_spec h t Ht) as (l & -> & Hl & <-).
  by apply wf_leaf_inv in Hl as (its & -> & _).
Qed.

Lemma last_item_wf t : wf t → last_item t = Ret (last (tree_items t)).
Proof.
  intros [->|[h Ht]]; [done|]. unfold last_item.
  destruct (rightmost_leaf_spec h t Ht) as (l & -> & Hl & <-).
  by apply wf_leaf_inv in Hl as (its & -> & _).
Qed.

Lemma last_summary_wf t :
  wf t → last_summary t = Ret (item_summary_of <$> last (tree_items t)).
Proof.
  intros [->|[h Ht]]; [done|]. unfold last_summary.
  destruct (rightmost_leaf_spec h t Ht) as (l & -> & Hl & <-).
  apply wf_leaf_inv in Hl as (its & -> & _). simpl. f_equal. apply fmap_last.
Qed.
End Ends.

(** [update_last] and [update_first] with a closure that turns the item [x]
    at that end into [y] and hands out [b]. *)
Section UpdateFacts.
Context {T Sm B : Type} `{SummaryLaws T Sm} (f : T → outcome (T * B)) (x y : T) (b : B).
Hypothesis Hf : f x = Ret (y, b).
Abbreviation tree := (SumTree T Sm).
Implicit Types t : tree.

Lemma update_last_recursive_spec h t l :
  wf_node h t → tree_items t = l ++ [x] → valid (l ++ [y]) →
  ∃ t' s', update_last_recursive f t = Ret (t', Some (s', b)) ∧ s' = summary t' ∧
    wf_node h t' ∧ tree_items t' = l ++ [y].
Proof.
  revert t l. induction h as [|h IH]; intros t l Ht El Hv.
  - apply wf_leaf_inv in Ht as (its & -> & Hne & Hcap). simpl in *. subst its.
    rewrite fmap_app. simpl. rewrite !last_snoc, !removelast_last, Hf.
    eexists _, _. split; [reflexivity|]. split; [reflexivity|]. simpl. split; [|done].
    replace ((item_summary_of <$> l) ++ [item_summary_of y])
      with (item_summary_of <$> (l ++ [y])) by (by rewrite fmap_app).
    apply mk_leaf; [by destruct l|]. by rewrite length_app in *.
  - apply wf_internal_inv in Ht as (ct & -> & Hne & Hcap & Hct). simpl in *.
    destruct (nil_or_snoc ct) as [->|(k & c & ->)]; [done|].
    apply Forall_app in Hct as [Hl Hc]. apply Forall_cons in Hc as [Hc _].
    rewrite flat_map_app in El. simpl in El. rewrite app_nil_r in El.
    destruct (nil_or_snoc (tree_items c)) as [Hn|(lc & z & Ec)]; [by apply wf_node_items in Hc|].
    rewrite Ec, app_assoc in El. apply app_inj_tail in El as [<- ->]. rewrite <-app_assoc in Hv.
    destruct (IH c lc Hc Ec) as (c' & s' & E & -> & Hc' & Hi); [by eapply valid_r|].
    rewrite on_last_snoc, E, fmap_app. simpl. rewrite set_last_snoc.
    replace ((summary <$> k) ++ [summary c']) with (summary <$> (k ++ [c'])) by (by rewrite fmap_app).
    assert (Ei : flat_map tree_items (k ++ [c']) = (flat_map tree_items k ++ lc) ++ [y]).
    { rewrite flat_map_app. simpl. by rewrite app_nil_r, Hi, app_assoc. }
    eexists _, _. split; [reflexivity|]. split; [reflexivity|]. simpl. split; [|done].
    apply mk_internal; [by destruct k|by rewrite length_app in *|by apply Forall_app; auto|].
    by rewrite Ei, <-app_assoc.
Qed.

Lemma update_first_recursive_spec h t l :
  wf_node h t → tree_items t = x :: l → valid (y :: l) →
  ∃ t' s', update_first_recursive f t = Ret (t', Some (s', b)) ∧ s' = summary t' ∧
    wf_node h t' ∧ tree_items t' = y :: l.
Proof.
  revert t l. induction h as [|h IH]; intros t l Ht El Hv.
  - apply wf_leaf_inv in Ht as (its & -> & Hne & Hcap). simpl in *. subst its. simpl. rewrite Hf.
    eexists _, _. split; [reflexivity|]. split; [reflexivity|]. split; [|done]. by apply (mk_leaf (y :: l)).
  - apply wf_internal_inv in Ht as (ct & -> & Hne & Hcap & Hct). simpl in *.
    destruct ct as [|c ct]; [done|]. apply Forall_cons in Hct as [Hc Hct]. simpl in El.
    destruct (tree_items c) as [|z lc] eqn:Ec; [by apply wf_node_items in Hc|]. injection El as -> <-.
    rewrite app_comm_cons in Hv.
    destruct (IH c lc Hc Ec) as (c' & s' & E & -> & Hc' & Hi); [by eapply valid_l|].
    simpl. rewrite E. simpl. eexists _, _. split; [reflexivity|]. split; [reflexivity|]. simpl. rewrite Hi.
    split; [|done]. apply (mk_internal h (c' :: ct)); [done|done|by constructor|]. simpl. by rewrite Hi.
Qed.

Lemma update_last_wf t l :
  wf t → tree_items t = l ++ [x] → valid (l ++ [y]) →
  returns (update_last f t) (λ '(t', r), wf t' ∧ tree_items t' = l ++ [y] ∧ r = Some b).
Proof.
  intros [->|[h Ht]] El Hv; [by destruct l|].
  destruct (update_last_recursive_spec h t l) as (t' & s' & E & _ & Ht' & Hi); [done..|].
  unfold update_last. rewrite E. apply returns_Ret. eauto using wf_node_wf.
Qed.

Lemma update_first_wf t l :
  wf t → tree_items t = x :: l → valid (y :: l) →
  returns (update_first f t) (λ '(t', r), wf t' ∧ tree_items t' = y :: l ∧ r = Some b).
Proof.
  intros [->|[h Ht]] El Hv; [done|].
  destruct (update_first_recursive_spec h t l) as (t' & s' & E & _ & Ht' & Hi); [done..|].
  unfold update_first. rewrite E. apply returns_Ret. eauto using wf_node_wf.
Qed.
End UpdateFacts.

(** Without items the closure is not called. *)
Lemma update_empty {T Sm B} `{SummaryLaws T Sm} (f : T → outcome (T * B)) (t : SumTree T Sm) :
  wf t → tree_items t = [] → update_last f t = Ret (t, None) ∧ update_first f t = Ret (t, None).
Proof. intros [->|[h Ht]] E; [done|]. by apply wf_node_items in Ht. Qed.

(** * Searching a [SumTree]: [find], [find_exact], [find_with_prev]

    The reference is a linear scan of the items, [advance]: skip items as long
    as the target lies past their end.  Skipping whole subtrees by their cached
    summaries gives the same answer when the target is monotone along the
    items, which is what makes a dimension seekable. *)
Definition cmp_rank (c : comparison) : nat := match c with Lt => 0 | Eq => 1 | Gt => 2 end.

Section Reference.
Context {T Sm D Tg : Type} `{Item T Sm} `{Dimension D Sm} `{SeekTarget Tg D}.
Implicit Types l p : list T.

(** The comparison of the target with the measure of longer and longer
    prefixes never goes up. *)
Definition monotone_target (target : Tg) (its : list T) : Prop :=
  ∀ l1 l2 l3, its = l1 ++ l2 ++ l3 →
    cmp_rank (seek_cmp target (measure (l1 ++ l2))) ≤ cmp_rank (seek_cmp target (measure l1)).

(** Skip the items of [l], which follow [p], whose end the target is past. *)
Fixpoint advance (past : D → bool) (p l : list T) : list T * list T :=
  match l with
  | [] => (p, [])
  | x :: l' => if past (measure (p ++ [x])) then advance past (p ++ [x]) l' else (p, l)
  end.

Lemma measure_snoc p x : measure (p ++ [x]) = dim_add (measure p) (item_summary_of x).
Proof. unfold measure. by rewrite fmap_app, foldl_app. Qed.

Lemma target_in_past target bias (d : D) :
  target_in target bias d = negb (target_past target bias d).
Proof. unfold target_in, target_past. by destruct (seek_cmp target d), bias. Qed.

Lemma target_past_rank target bias (d : D) :
  target_past target bias d = true ↔
  (match bias with Left => 2 | Right => 1 end) ≤ cmp_rank (seek_cmp target d).
Proof.
  unfold target_past. destruct (seek_cmp target d), bias; simpl;
    split; try done; intros; lia.
Qed.

Lemma target_past_mono target bias its l1 l2 l3 :
  monotone_target target its → its = l1 ++ l2 ++ l3 →
  target_past target bias (measure (l1 ++ l2)) = true →
  target_past target bias (measure l1) = true.
Proof.
  intros Hm E. rewrite !target_past_rank. specialize (Hm l1 l2 l3 E). lia.
Qed.

Lemma advance_app past p l : let '(p', l') := advance past p l in p' ++ l' = p ++ l.
Proof.
  revert p. induction l as [|x l IH]; intros p; simpl; [done|].
  destruct (past _); [|done]. specialize (IH (p ++ [x])).
  destruct (advance past (p ++ [x]) l). by rewrite IH, <-app_assoc.
Qed.

Lemma advance_bind past p l r :
  advance past p (l ++ r) =
  match advance past p l with
  | (p', []) => advance past p' r
  | (p', x :: l') => (p', x :: l' ++ r)
  end.
Proof.
  revert p. induction l as [|x l IH]; intros p; simpl; [done|].
  by destruct (past (measure (p ++ [x]))).
Qed.

(** A run whose end is past the target is skipped as a whole ... *)
Lemma advance_skip target bias its p l r :
  monotone_target target its → its = p ++ l ++ r →
  target_past target bias (measure (p ++ l)) = true →
  ∀ l', advance (target_past target bias) p (l ++ l') = advance (target_past target bias) (p ++ l) l'.
Proof.
  revert p. induction l as [|x l IH]; intros p Hm E Hp l'; simpl.
  - by rewrite app_nil_r.
  - simpl in E. rewrite cons_middle, app_assoc in E, Hp. rewrite (cons_middle x p l), app_assoc.
    rewrite (target_past_mono target bias its (p ++ [x]) l r); [|done..].
    by apply IH.
Qed.

Definition skippable `{Summary Sm} (target : Tg) (bias : Bias) (its : list T) : Prop :=
  ∀ p l r, its = p ++ l ++ r → l ≠ [] → target_past target bias (dim_add (measure p) (total l)) = true →
    dim_add (measure p) (total l) = measure (p ++ l) ∧
    ∀ l', advance (target_past target bias) p (l ++ l') = advance (target_past target bias) (p ++ l) l'.

(** ... and [advance] stops inside a run whose end is not. *)
Lemma advance_stop past p l l' :
  l ≠ [] → past (measure (p ++ l)) = false →
  advance past p (l ++ l') =
    let '(p1, l1) := advance past p l in (p1, l1 ++ l').
Proof.
  revert p. induction l as [|x l IH]; intros p Hne Hp; [done|]. simpl.
  rewrite cons_middle, app_assoc in Hp.
  destruct (past (measure (p ++ [x]))) eqn:E; [|done].
  destruct l as [|y l]; [by rewrite app_nil_r, E in Hp|]. by apply IH.
Qed.

Lemma advance_stop_nonnil past p l :
  l ≠ [] → past (measure (p ++ l)) = false → (advance past p l).2 ≠ [].
Proof.
  revert p. induction l as [|x l IH]; intros p Hne Hp; [done|]. simpl.
  rewrite cons_middle, app_assoc in Hp.
  destruct (past (measure (p ++ [x]))) eqn:E; [|done].
  destruct l as [|y l]; [by rewrite app_nil_r, E in Hp|]. by apply IH.
Qed.

(** The first item of [l], which follows [p], that ends exactly at the target. *)
Fixpoint scan_exact (target : Tg) (p l : list T) : option (list T * T) :=
  match l with
  | [] => None
  | x :: l' =>
      match seek_cmp target (measure (p ++ [x])) with
      | Eq => Some (p, x)
      | _ => scan_exact target (p ++ [x]) l'
      end
  end.

Lemma scan_exact_app target p l l' :
  scan_exact target p (l ++ l') =
  match scan_exact target p l with Some r => Some r | None => scan_exact target (p ++ l) l' end.
Proof.
  revert p. induction l as [|x l IH]; intros p; simpl; [by rewrite app_nil_r|].
  rewrite (cons_middle x p l), app_assoc. rewrite IH.
  by destruct (seek_cmp target (measure (p ++ [x]))).
Qed.

Lemma scan_exact_none target p l :
  (∀ l1 l2, l1 ≠ [] → l = l1 ++ l2 → seek_cmp target (measure (p ++ l1)) ≠ Eq) →
  scan_exact target p l = None.
Proof.
  revert p. induction l as [|x l IH]; intros p Hl; simpl; [done|].
  pose proof (Hl [x] l ltac:(done) eq_refl) as Hx. rewrite IH.
  - destruct (seek_cmp _ _) eqn:E; done.
  - intros l1 l2 Hne ->. rewrite <-app_assoc. by apply (Hl (x :: l1) l2).
Qed.

Lemma scan_exact_last target p l :
  l ≠ [] → seek_cmp target (measure (p ++ l)) = Eq → scan_exact target p l ≠ None.
Proof.
  revert p. induction l as [|x l IH]; intros p Hne Heq; [done|]. simpl.
  rewrite (cons_middle x p l), app_assoc in Heq.
  destruct (seek_cmp target (measure (p ++ [x]))) eqn:E; [done| |];
    (destruct l; [by rewrite app_nil_r, E in Heq|by apply IH]).
Qed.

(** The start of an item, its end, and itself, after an advance. *)
Definition found_at (pl : list T * list T) : D * option (T * D) :=
  (measure pl.1, (λ x, (x, measure (pl.1 ++ [x]))) <$> head pl.2).
End Reference.

Section FindFacts.
Context {T Sm D Tg : Type} `{MeasureLaws D T Sm} `{SeekTarget Tg D}.
Context (target : Tg) (bias : Bias) (its : list T).
Context (Hmono : monotone_target target its) (Hvalid : valid its).
Abbreviation tree := (SumTree T Sm).
Implicit Types t : tree.

Lemma measure_child h t p r :
  wf_node h t → its = p ++ tree_items t ++ r →
  dim_add (measure p) (summary t) = measure (p ++ tree_items t).
Proof.
  intros Ht E. rewrite (wf_node_summary h t) by done.
  apply measure_app; [by eapply wf_node_items|].
  rewrite E, app_assoc in Hvalid. by eapply valid_l.
Qed.

Lemma find_iterate_spec h t p r :
  wf_node h t → its = p ++ tree_items t ++ r →
  find_iterate false target bias (measure p) t
  = found_at (advance (target_past target bias) p (tree_items t)).
Proof.
  revert t p r. induction h as [|h IH]; intros t p r Ht E.
  - apply wf_leaf_inv in Ht as (l & -> & _). simpl. clear E.
    revert p. induction l as [|x l IHl]; intros p; simpl; [done|].
    rewrite <-measure_snoc, target_in_past.
    destruct (target_past target bias (measure (p ++ [x]))); simpl; [apply IHl|done].
  - apply wf_internal_inv in Ht as (ct & -> & _ & _ & Hct). simpl in *.
    revert p E. induction ct as [|c ct IHct]; intros p E; [done|].
    apply Forall_cons in Hct as [Hc Hct]. simpl in *. rewrite <-app_assoc in E.
    unfold with_added_summary. erewrite measure_child by done. rewrite target_in_past.
    destruct (target_past target bias (measure (p ++ tree_items c))) eqn:Ep; simpl.
    + rewrite IHct by (rewrite <-?app_assoc; done). erewrite advance_skip; done.
    + erewrite IH by done. rewrite advance_stop by (done || by eapply wf_node_items).
      pose proof (advance_stop_nonnil (target_past target bias) p (tree_items c)) as Hne.
      destruct (advance _ p (tree_items c)) as [p1 l1]. simpl in Hne.
      unfold found_at; simpl. destruct l1; [|done].
      exfalso. apply Hne; [by eapply wf_node_items|done|done].
Qed.

(** Seeking passes a run by its summary alone; then the summary must measure
    the run, and the items of the run must be passed one by one. *)
Lemma monotone_skippable : skippable target bias its.
Proof.
  intros p l r E Hl Hp. assert (Hv : valid (p ++ l)) by (rewrite E, app_assoc in Hvalid; by eapply valid_l).
  rewrite measure_app in * by done. split; [done|]. by eapply advance_skip.
Qed.

Lemma monotone_rank p l r :
  its = p ++ l ++ r →
  cmp_rank (seek_cmp target (measure (p ++ l))) ≤ cmp_rank (seek_cmp target (measure p)).
Proof. apply Hmono. Qed.

Lemma find_iterate_exact_spec h t p r :
  bias = Left → wf_node h t → its = p ++ tree_items t ++ r →
  match scan_exact target p (tree_items t) with
  | Some (q, x) =>
      find_iterate true target bias (measure p) t = (measure q, Some (x, measure (q ++ [x])))
  | None => (find_iterate true target bias (measure p) t).2 = None
  end.
Proof.
  intros Hb. revert t p r. induction h as [|h IH]; intros t p r Ht E.
  - apply wf_leaf_inv in Ht as (l & -> & _). simpl. clear E.
    revert p. induction l as [|x l IHl]; intros p; simpl; [done|].
    rewrite <-measure_snoc. specialize (IHl (p ++ [x])).
    by destruct (seek_cmp target (measure (p ++ [x]))) eqn:Ec.
  - apply wf_internal_inv in Ht as (ct & -> & _ & _ & Hct). simpl in *.
    revert p E. induction ct as [|c ct IHct]; intros p E; [done|].
    apply Forall_cons in Hct as [Hc Hct]. simpl in *. rewrite <-app_assoc in E.
    unfold with_added_summary. erewrite measure_child by done. rewrite target_in_past.
    rewrite scan_exact_app.
    destruct (target_past target bias (measure (p ++ tree_items c))) eqn:Ep; simpl.
    + rewrite scan_exact_none; [by apply IHct; rewrite <-?app_assoc|].
      intros l1 l2 _ Hl Heq. apply target_past_rank in Ep. rewrite Hb, Hl in Ep.
      assert (its = (p ++ l1) ++ l2 ++ flat_map tree_items ct ++ r) as Hr%monotone_rank
        by (rewrite E, Hl, <-!app_assoc; done).
      rewrite Heq, <-app_assoc in Hr. simpl in Hr. lia.
    + specialize (IH c p (flat_map tree_items ct ++ r) Hc E).
      destruct (scan_exact target p (tree_items c)) as [[q x]|] eqn:Es; [done|].
      rewrite scan_exact_none; [done|].
      intros l1 l2 _ Hl Heq.
      destruct (seek_cmp target (measure (p ++ tree_items c))) eqn:Ec.
      * by eapply (scan_exact_last target p (tree_items c)); [eapply wf_node_items|..].
      * assert (its = (p ++ tree_items c) ++ l1 ++ l2 ++ r) as Hr%monotone_rank
          by (rewrite E, Hl, <-!app_assoc; done).
        rewrite Heq, Ec in Hr. simpl in Hr. lia.
      * unfold target_past in Ep. rewrite Ec in Ep. by destruct bias.
Qed.

Lemma last_app_or {A} (p l : list A) : last (p ++ l) = from_option Some (last p) (last l).
Proof. rewrite last_app. by destruct (last l). Qed.

Lemma find_with_prev_iterate_spec h t p r :
  wf_node h t → its = p ++ tree_items t ++ r →
  find_with_prev_iterate false target bias (measure p) (last p) t
  = let '(p1, l1) := advance (target_past target bias) p (tree_items t) in
    Ret (measure p1, option_map (λ x, (last p1, x, measure (p1 ++ [x]))) (head l1)).
Proof.
  revert t p r. induction h as [|h IH]; intros t p r Ht E.
  - apply wf_leaf_inv in Ht as (l & -> & _). simpl. clear E.
    revert p. induction l as [|x l IHl]; intros p; simpl; [done|].
    rewrite <-measure_snoc, target_in_past.
    destruct (target_past target bias (measure (p ++ [x]))); simpl; [|done].
    rewrite <-IHl. by rewrite last_snoc.
  - apply wf_internal_inv in Ht as (ct & -> & _ & _ & Hct). simpl in *.
    revert p E. induction ct as [|c ct IHct]; intros p E; [done|].
    apply Forall_cons in Hct as [Hc Hct]. simpl in *. rewrite <-app_assoc in E.
    unfold with_added_summary. erewrite measure_child by done. rewrite target_in_past.
    destruct (target_past target bias (measure (p ++ tree_items c))) eqn:Ep; simpl.
    + rewrite last_item_wf by (by eapply wf_node_wf).
      erewrite <-(last_app_nonnil p) by (by eapply wf_node_items).
      rewrite IHct by (rewrite <-?app_assoc; done). erewrite advance_skip; done.
    + erewrite IH by done. rewrite advance_stop by (done || by eapply wf_node_items).
      pose proof (advance_stop_nonnil (target_past target bias) p (tree_items c)) as Hne.
      destruct (advance _ p (tree_items c)) as [p1 l1]. simpl in Hne.
      destruct l1; [|done]. exfalso. apply Hne; [by eapply wf_node_items|done|done].
Qed.

(** The early exit when the target is past the end of the tree. *)
Lemma advance_all :
  target_past target bias (measure its) = true →
  advance (target_past target bias) [] its = (its, []).
Proof.
  intros Hp. rewrite <-(app_nil_r its) at 1.
  by erewrite (advance_skip target bias its [] its []) by (rewrite ?app_nil_r; done).
Qed.

(** A search in a tree that is not empty. *)
Lemma find_node h t :
  wf_node h t → tree_items t = its →
  find t target bias =
    let '(l1, l2) := advance (target_past target bias) [] its in
    (measure l1, from_option (λ x, measure (l1 ++ [x])) (measure l1) (head l2), head l2).
Proof.
  intros Ht Hi. unfold find, find_gen, with_added_summary.
  assert (dim_add dim_zero (summary t) = measure its) as ->.
  { rewrite <-Hi. apply (measure_child h t [] []); simpl; rewrite ?app_nil_r; done. }
  destruct (target_past target bias (measure its)) eqn:Ep.
  - by rewrite advance_all.
  - change dim_zero with (measure (D:=D) (@nil T)).
    erewrite (find_iterate_spec h t [] []) by (simpl; rewrite ?app_nil_r, ?Hi; done).
    rewrite Hi. unfold found_at. destruct (advance _ [] its) as [l1 [|x l2]]; done.
Qed.

Context `{!MeasureNil D Sm}.

Lemma tree_end_measure t :
  wf t → tree_items t = its → dim_add dim_zero (summary t) = measure its.
Proof.
  intros [->|[h Ht]] Hi; simpl in *.
  - subst its. apply measure_nil.
  - rewrite <-Hi. apply (measure_child h t [] []); simpl; rewrite ?app_nil_r; done.
Qed.

Lemma find_wf t :
  wf t → tree_items t = its →
  find t target bias =
    let '(l1, l2) := advance (target_past target bias) [] its in
    (measure l1, from_option (λ x, measure (l1 ++ [x])) (measure l1) (head l2), head l2).
Proof.
  intros [->|[h Ht]] Hi; [|by apply (find_node h)]. simpl in Hi. subst its.
  unfold find, find_gen, with_added_summary. change (summary (SumTree.new (T:=T))) with (zero : Sm). rewrite measure_nil.
  by destruct (target_past _ _ _).
Qed.

Lemma find_exact_wf t :
  bias = Left → wf t → tree_items t = its →
  (find_exact t target bias).2 = snd <$> scan_exact target [] its.
Proof.
  intros Hb Hwf Hi. unfold find_exact, find_gen, with_added_summary.
  rewrite tree_end_measure by done.
  destruct (target_past target bias (measure its)) eqn:Ep; simpl.
  - rewrite scan_exact_none; [done|]. intros l1 l2 _ Hl Heq. simpl in Heq.
    apply target_past_rank in Ep. rewrite Hb in Ep.
    assert (its = l1 ++ l2 ++ []) as Hr%monotone_rank by (by rewrite app_nil_r).
    rewrite Heq, <-Hl in Hr. simpl in Hr. lia.
  - change dim_zero with (measure (D:=D) (@nil T)).
    destruct Hwf as [->|[h Ht]]; [by simpl in Hi; subst its|].
    pose proof (find_iterate_exact_spec h t [] [] Hb Ht) as Hf.
    simpl in Hf. rewrite app_nil_r, Hi in Hf. specialize (Hf eq_refl).
    destruct (scan_exact target [] its) as [[q x]|].
    + by rewrite Hf.
    + destruct (find_iterate _ _ _ _ _) as [d [[]|]]; done.
Qed.

Lemma find_with_prev_wf t :
  wf t → tree_items t = its →
  find_with_prev t target bias =
    let '(l1, l2) := advance (target_past target bias) [] its in
    Ret (measure l1, from_option (λ x, measure (l1 ++ [x])) (measure l1) (head l2),
         option_map (λ x, (last l1, x)) (head l2)).
Proof.
  intros Hwf Hi. unfold find_with_prev, with_added_summary. rewrite tree_end_measure by done.
  destruct (target_past target bias (measure its)) eqn:Ep.
  - by rewrite advance_all.
  - destruct Hwf as [->|[h Ht]]; [by simpl in Hi; subst its|].
    pose proof (find_with_prev_iterate_spec h t [] []) as Hf. simpl in Hf.
    rewrite app_nil_r, Hi in Hf. change (measure []) with (dim_zero (D:=D)) in Hf.
    rewrite Hf by done. destruct (advance _ [] its) as [l1 [|x l2]]; done.
Qed.
End FindFacts.
