(* ===== verification/Cursor.v ===== *)
(** * Cursors and iterators over a [SumTree] ([crates/sum_tree/src/cursor.rs])

    A cursor is a stack of (node, child index, position) entries from the root
    down to a leaf.  The stack is modelled top first; the loops of [seek],
    [next] and [prev] are run with fuel [cursor_fuel], which the theorems of
    [CursorFacts] show to be enough.  [filter_node] closures are pure. *)
From stdpp Require Import base numbers option list.
From Stdlib Require Import Lia.
From S2P Require Import Prelude SumTree.

(** Number of nodes and items. *)
Fixpoint tree_size {T Sm} (t : SumTree T Sm) : nat :=
  match t with
  | Internal _ _ _ ct => S (list_sum (map tree_size ct))
  | Leaf _ its _ => S (length its)
  end.

Definition cursor_fuel {T Sm} (t : SumTree T Sm) : nat := S (2 * tree_size t).

(** [ArrayVec<StackEntry, 16>] *)
Definition STACK_CAP : nat := 16.

Record StackEntry (T Sm D : Type) := MkEntry {
  e_tree : SumTree T Sm;
  e_index : nat;
  e_position : D;
}.
Arguments MkEntry {T Sm D}.
Arguments e_tree {T Sm D}.
Arguments e_index {T Sm D}.
Arguments e_position {T Sm D}.

Definition stack_push {T Sm D} (st : list (StackEntry T Sm D)) (e : StackEntry T Sm D) :
  outcome (list (StackEntry T Sm D)) :=
  if length st <? STACK_CAP then Ret (e :: st) else Panic.

Record Cursor (T Sm D : Type) := MkCursor {
  c_tree : SumTree T Sm;
  c_stack : list (StackEntry T Sm D);
  c_position : D;
  c_did_seek : bool;
  c_at_end : bool;
}.
Arguments MkCursor {T Sm D}.
Arguments c_tree {T Sm D}.
Arguments c_stack {T Sm D}.
Arguments c_position {T Sm D}.
Arguments c_did_seek {T Sm D}.
Arguments c_at_end {T Sm D}.

Section Cursor.
Context {T Sm D : Type} `{Dimension D Sm}.
Abbreviation tree := (SumTree T Sm).
Abbreviation entry := (StackEntry T Sm D).
Abbreviation cursor := (Cursor T Sm D).
Implicit Types c : cursor.

(** [Cursor::new] *)
Definition cursor_new (t : tree) : cursor := MkCursor t [] dim_zero false (is_empty t).

Definition reset c : cursor :=
  MkCursor (c_tree c) [] dim_zero false (is_empty (c_tree c)).

Definition start c : D := c_position c.

Definition assert_did_seek c : outcome unit := rust_assert (c_did_seek c).

Definition item c : outcome (option T) :=
  let* _ := assert_did_seek c in
  match c_stack c with
  | [] => Ret None
  | e :: _ =>
      match e_tree e with
      | Leaf _ its _ =>
          if e_index e =? length its then Ret None
          else let* x := unwrap (its !! e_index e) in Ret (Some x)
      | Internal _ _ _ _ => Panic
      end
  end.

Definition item_summary c : outcome (option Sm) :=
  let* _ := assert_did_seek c in
  match c_stack c with
  | [] => Ret None
  | e :: _ =>
      match e_tree e with
      | Leaf _ _ iss =>
          if e_index e =? length iss then Ret None
          else let* s := unwrap (iss !! e_index e) in Ret (Some s)
      | Internal _ _ _ _ => Panic
      end
  end.

Definition end_ c : outcome D :=
  let* s := item_summary c in
  match s with
  | Some s => Ret (dim_add (start c) s)
  | None => Ret (start c)
  end.

(** [next_leaf]: the parents, innermost first. *)
Fixpoint next_leaf (parents : list entry) : outcome (option tree) :=
  match parents with
  | [] => Ret None
  | e :: parents =>
      let* ct := child_trees (e_tree e) in
      let* last_index := usub (length ct) 1 in
      if e_index e <? last_index then
        let* t := unwrap (ct !! (e_index e + 1)) in
        let* l := leftmost_leaf t in
        Ret (Some l)
      else next_leaf parents
  end.

Fixpoint prev_leaf (parents : list entry) : outcome (option tree) :=
  match parents with
  | [] => Ret None
  | e :: parents =>
      if negb (e_index e =? 0) then
        let* ct := child_trees (e_tree e) in
        let* t := unwrap (ct !! (e_index e - 1)) in
        let* l := rightmost_leaf t in
        Ret (Some l)
      else prev_leaf parents
  end.

Definition next_item c : outcome (option T) :=
  let* _ := assert_did_seek c in
  match c_stack c with
  | e :: parents =>
      let* its := node_items (e_tree e) in
      let* last_index := usub (length its) 1 in
      if e_index e =? last_index then
        let* l := next_leaf parents in
        match l with
        | Some l =>
            let* its := node_items l in
            let* x := unwrap (head its) in
            Ret (Some x)
        | None => Ret None
        end
      else let* x := unwrap (its !! (e_index e + 1)) in Ret (Some x)
  | [] => if c_at_end c then Ret None else first (c_tree c)
  end.

Definition prev_item c : outcome (option T) :=
  let* _ := assert_did_seek c in
  match c_stack c with
  | e :: parents =>
      if e_index e =? 0 then
        let* l := prev_leaf parents in
        match l with
        | Some l =>
            let* its := node_items l in
            let* x := unwrap (last its) in
            Ret (Some x)
        | None => Ret None
        end
      else
        let* its := node_items (e_tree e) in
        let* x := unwrap (its !! (e_index e - 1)) in
        Ret (Some x)
  | [] => if c_at_end c then last_item (c_tree c) else Ret None
  end.

(** ** Moving back: [search_backward] and [prev] *)
Section Backward.
Context (filter_node : Sm → bool).

(** One round of [while !self.stack.is_empty()]. *)
Definition backward_step (s : list entry * D * bool) :
  outcome ((list entry * D * bool) + (list entry * D)) :=
  let '(st, position, descending) := s in
  match st with
  | [] => Ret (inr (st, position))
  | e :: rest =>
      let position := match rest with e2 :: _ => e_position e2 | [] => dim_zero end in
      if negb descending && (e_index e =? 0) then Ret (inl (rest, position, descending))
      else
        let index := if descending then e_index e else e_index e - 1 in
        let cs := child_summaries (e_tree e) in
        if length cs <? index then Panic
        else
          let position := foldl dim_add position (take index cs) in
          let e := MkEntry (e_tree e) index position in
          let* s := unwrap (cs !! index) in
          let descending := filter_node s in
          match e_tree e with
          | Internal _ _ _ ct =>
              if descending then
                let* t := unwrap (ct !! index) in
                let* last_index := usub (length (child_summaries t)) 1 in
                let* st := stack_push (e :: rest) (MkEntry t last_index dim_zero) in
                Ret (inl (st, position, descending))
              else Ret (inl (e :: rest, position, descending))
          | Leaf _ _ _ =>
              if descending then Ret (inr (e :: rest, position))
              else Ret (inl (e :: rest, position, descending))
          end
  end.

Definition search_backward c : outcome cursor :=
  let at_end := if c_did_seek c then c_at_end c else true in
  let* '(st, position, at_end) :=
    if at_end then
      if is_empty (c_tree c) then Ret (c_stack c, dim_zero, true)
      else
        let* st := stack_push (c_stack c)
          (MkEntry (c_tree c) (length (child_summaries (c_tree c)))
             (from_summary_dim (summary (c_tree c)))) in
        Ret (st, dim_zero, false)
    else Ret (c_stack c, c_position c, at_end) in
  let* '(st, position) := loop backward_step (cursor_fuel (c_tree c)) (st, position, false) in
  Ret (MkCursor (c_tree c) st position true at_end).
End Backward.

Definition prev c : outcome cursor := search_backward (λ _, true) c.

(** ** Moving on: [search_forward] and [next] *)
Section Forward.
Context (filter_node : Sm → bool).

(** [while entry.index() < child_summaries.len()] and the leaf's [loop]:
    skip the children the filter rejects.  [entry.position] and
    [self.position] advance together. *)
Fixpoint skip_filtered (index : nat) (eposition position : D) (cs : list Sm) : nat * D * D :=
  match cs with
  | [] => (index, eposition, position)
  | s :: cs =>
      if filter_node s then (index, eposition, position)
      else skip_filtered (index + 1) (dim_add eposition s) (dim_add position s) cs
  end.

(** Where a round of the loop goes: descend, pop, or return. *)
Definition forward_step (s : list entry * D * bool) :
  outcome ((list entry * D * bool) + (list entry * D)) :=
  let '(st, position, descend) := s in
  match st with
  | [] => Ret (inr (st, position))
  | e :: rest =>
      match e_tree e with
      | Internal _ _ cs ct =>
          let '(index, eposition) :=
            if descend then (e_index e, e_position e) else (e_index e + 1, position) in
          let '(index, eposition, position) :=
            skip_filtered index eposition position (drop index cs) in
          let e := MkEntry (e_tree e) index eposition in
          match ct !! index with
          | Some subtree =>
              let* st := stack_push (e :: rest) (MkEntry subtree 0 position) in
              Ret (inl (st, position, true))
          | None => Ret (inl (rest, position, false))
          end
      | Leaf _ _ iss =>
          let* '(index, eposition, position) :=
            if descend then Ret (e_index e, e_position e, position)
            else
              let* s := unwrap (iss !! e_index e) in
              Ret (e_index e + 1, dim_add (e_position e) s, dim_add position s) in
          let '(index, eposition, position) :=
            skip_filtered index eposition position (drop index iss) in
          let e := MkEntry (e_tree e) index eposition in
          match iss !! index with
          | Some _ => Ret (inr (e :: rest, position))
          | None => Ret (inl (rest, position, false))
          end
      end
  end.

Definition search_forward c : outcome cursor :=
  let* '(st, descend, did_seek) :=
    match c_stack c with
    | [] =>
        if negb (c_at_end c) then
          let* st := stack_push [] (MkEntry (c_tree c) 0 dim_zero) in
          Ret (st, true, true)
        else Ret ([], false, true)
    | st => Ret (st, false, c_did_seek c)
    end in
  let* '(st, position) :=
    loop forward_step (cursor_fuel (c_tree c)) (st, c_position c, descend) in
  let at_end := match st with [] => true | _ :: _ => c_at_end c end in
  Ret (MkCursor (c_tree c) st position did_seek at_end).
End Forward.

Definition next c : outcome cursor := search_forward (λ _, true) c.

(** [impl Iterator for Cursor] *)
Definition cursor_iter_next c : outcome (option T * cursor) :=
  let* c := if c_did_seek c then Ret c else next c in
  let* i := item c in
  match i with
  | Some x => let* c := next c in Ret (Some x, c)
  | None => Ret (None, c)
  end.

(** [impl Iterator for FilterCursor] *)
Definition filter_cursor_next (filter_node : Sm → bool) c : outcome (option T * cursor) :=
  let* c := if c_did_seek c then Ret c else search_forward filter_node c in
  let* i := item c in
  match i with
  | Some x => let* c := search_forward filter_node c in Ret (Some x, c)
  | None => Ret (None, c)
  end.
End Cursor.

(** ** Seeking *)

(** [trait SeekAggregate]: what is done with the skipped items and subtrees. *)
Record SeekAggregate (T Sm A : Type) := MkAggregate {
  begin_leaf : A → A;
  end_leaf : A → outcome A;
  push_item : A → T → Sm → outcome A;
  push_tree : A → SumTree T Sm → Sm → outcome A;
}.
Arguments MkAggregate {T Sm A}.
Arguments begin_leaf {T Sm A}.
Arguments end_leaf {T Sm A}.
Arguments push_item {T Sm A}.
Arguments push_tree {T Sm A}.

(** [impl SeekAggregate for ()] *)
Definition unit_aggregate {T Sm} : SeekAggregate T Sm unit :=
  MkAggregate (λ a, a) (λ a, Ret a) (λ a _ _, Ret a) (λ a _ _, Ret a).

Record SliceSeekAggregate (T Sm : Type) := MkSlice {
  slice_tree : SumTree T Sm;
  leaf_items : list T;
  leaf_item_summaries : list Sm;
  leaf_summary : Sm;
}.
Arguments MkSlice {T Sm}.
Arguments slice_tree {T Sm}.
Arguments leaf_items {T Sm}.
Arguments leaf_item_summaries {T Sm}.
Arguments leaf_summary {T Sm}.

(** [impl SeekAggregate for SliceSeekAggregate] *)
Definition slice_aggregate {T Sm} `{Summary Sm} :
  SeekAggregate T Sm (SliceSeekAggregate T Sm) :=
  MkAggregate
    (λ a, a)
    (λ a, let* t := append (slice_tree a)
                      (Leaf (leaf_summary a) (leaf_items a) (leaf_item_summaries a)) in
          Ret (MkSlice t [] [] zero))
    (λ a x s,
       let* its := av_push (leaf_items a) x in
       let* iss := av_push (leaf_item_summaries a) s in
       Ret (MkSlice (slice_tree a) its iss (add_summary (leaf_summary a) s)))
    (λ a t _,
       let* t := append (slice_tree a) t in
       Ret (MkSlice t (leaf_items a) (leaf_item_summaries a) (leaf_summary a))).

(** [impl SeekAggregate for SummarySeekAggregate] *)
Definition summary_aggregate {T Sm O} `{Dimension O Sm} : SeekAggregate T Sm O :=
  MkAggregate (λ a, a) (λ a, Ret a) (λ a _ s, Ret (dim_add a s)) (λ a _ s, Ret (dim_add a s)).

Section Seek.
Context {T Sm D Tg A : Type} `{Dimension D Sm} `{SeekTarget Tg D}.
Context (agg : SeekAggregate T Sm A) (target : Tg) (bias : Bias).
Abbreviation tree := (SumTree T Sm).
Abbreviation entry := (StackEntry T Sm D).
Abbreviation cursor := (Cursor T Sm D).

(** The loop over the children from [entry.index] on: the child to descend
    into, if any, with the updated entry, position and aggregate. *)
Fixpoint seek_children (e : entry) (position : D) (a : A) (ct : list tree) (cs : list Sm) :
  outcome (entry * D * A * option tree) :=
  match ct, cs with
  | child_tree :: ct, child_summary :: cs =>
      let child_end := dim_add position child_summary in
      if target_past target bias child_end then
        let* a := push_tree agg a child_tree child_summary in
        seek_children (MkEntry (e_tree e) (e_index e + 1) child_end) child_end a ct cs
      else Ret (e, position, a, Some child_tree)
  | _, _ => Ret (e, position, a, None)
  end.

(** The loop over the items of a leaf; [true] when it stops at an item. *)
Fixpoint seek_items (e : entry) (position : D) (a : A) (its : list T) (iss : list Sm) :
  outcome (entry * D * A * bool) :=
  match its, iss with
  | x :: its, s :: iss =>
      let child_end := dim_add position s in
      if target_past target bias child_end then
        let* a := push_item agg a x s in
        seek_items (MkEntry (e_tree e) (e_index e + 1) (e_position e)) child_end a its iss
      else Ret (e, position, a, true)
  | _, _ => Ret (e, position, a, false)
  end.

(** One round of [while let Some(entry) = self.stack.last_mut()]. *)
Definition seek_step (s : list entry * D * A * bool) :
  outcome ((list entry * D * A * bool) + (list entry * D * A)) :=
  let '(st, position, a, ascending) := s in
  match st with
  | [] => Ret (inr (st, position, a))
  | e :: rest =>
      match e_tree e with
      | Internal _ _ cs ct =>
          let e := if ascending then MkEntry (e_tree e) (e_index e + 1) position else e in
          if (length ct <? e_index e) || (length cs <? e_index e) then Panic
          else
            let* '(e, position, a, child) :=
              seek_children e position a (drop (e_index e) ct) (drop (e_index e) cs) in
            match child with
            | Some child_tree =>
                let* st := stack_push (e :: rest) (MkEntry child_tree 0 position) in
                Ret (inl (st, position, a, false))
            | None => Ret (inl (rest, position, a, true))
            end
      | Leaf _ its iss =>
          let a := begin_leaf agg a in
          if (length its <? e_index e) || (length iss <? e_index e) then Panic
          else
            let* '(e, position, a, stopped) :=
              seek_items e position a (drop (e_index e) its) (drop (e_index e) iss) in
            let* a := end_leaf agg a in
            if (stopped : bool) then Ret (inr (e :: rest, position, a))
            else Ret (inl (rest, position, a, true))
      end
  end.

(** [seek_internal]: whether the target was hit, the cursor, the aggregate. *)
Definition seek_internal (c : cursor) (a : A) : outcome (bool * cursor * A) :=
  let* _ := rust_assert (is_ge (seek_cmp target (c_position c))) in
  let* st :=
    if c_did_seek c then Ret (c_stack c)
    else stack_push (c_stack c) (MkEntry (c_tree c) 0 dim_zero) in
  let* '(st, position, a) :=
    loop seek_step (cursor_fuel (c_tree c)) (st, c_position c, a, false) in
  let c := MkCursor (c_tree c) st position true
             (match st with [] => true | _ :: _ => false end) in
  let* end_ :=
    match bias with
    | Left => let* s := item_summary c in
              Ret (match s with Some s => dim_add position s | None => position end)
    | Right => Ret position
    end in
  Ret (match seek_cmp target end_ with Eq => true | _ => false end, c, a).
End Seek.

Section SeekOps.
Context {T Sm D Tg : Type} `{Dimension D Sm} `{SeekTarget Tg D}.
Abbreviation cursor := (Cursor T Sm D).

Definition seek_forward (c : cursor) (target : Tg) (bias : Bias) : outcome (bool * cursor) :=
  let* '(b, c, _) := seek_internal unit_aggregate target bias c tt in Ret (b, c).

Definition seek (c : cursor) (target : Tg) (bias : Bias) : outcome (bool * cursor) :=
  seek_forward (reset c) target bias.

Definition slice `{Summary Sm} (c : cursor) (target : Tg) (bias : Bias) :
  outcome (SumTree T Sm * cursor) :=
  let* '(_, c, a) := seek_internal slice_aggregate target bias c (MkSlice new [] [] zero) in
  Ret (slice_tree a, c).

(** [Cursor::summary] *)
Definition cursor_summary {O} `{Dimension O Sm} (c : cursor) (target : Tg) (bias : Bias) :
  outcome (O * cursor) :=
  let* '(_, c, a) := seek_internal summary_aggregate target bias c dim_zero in
  Ret (a, c).
End SeekOps.

(** [struct End]: a target past everything. *)
Inductive EndTarget := MkEnd.
#[export] Instance End_seek_target {D} : SeekTarget EndTarget D := λ _ _, Gt.

Definition suffix {T Sm D} `{Dimension D Sm} `{Summary Sm} (c : Cursor T Sm D) :
  outcome (SumTree T Sm * Cursor T Sm D) := slice c MkEnd Right.

(** ** [Iter] *)
Record Iter (T Sm : Type) := MkIter {
  it_tree : SumTree T Sm;
  it_stack : list (StackEntry T Sm unit);
}.
Arguments MkIter {T Sm}.
Arguments it_tree {T Sm}.
Arguments it_stack {T Sm}.

Section Iter.
Context {T Sm : Type}.
Abbreviation entry := (StackEntry T Sm unit).

(** [SumTree::iter] *)
Definition iter_new (t : SumTree T Sm) : Iter T Sm := MkIter t [].

Definition iter_step (s : list entry * bool) :
  outcome ((list entry * bool) + (list entry * option T)) :=
  let '(st, descend) := s in
  match st with
  | [] => Ret (inr (st, None))
  | e :: rest =>
      let index := if descend then e_index e else e_index e + 1 in
      let e := MkEntry (e_tree e) index tt in
      match e_tree e with
      | Internal _ _ _ ct =>
          match ct !! index with
          | Some subtree =>
              let* st := stack_push (e :: rest) (MkEntry subtree 0 tt) in
              Ret (inl (st, true))
          | None => Ret (inl (rest, false))
          end
      | Leaf _ its _ =>
          match its !! index with
          | Some x => Ret (inr (e :: rest, Some x))
          | None => Ret (inl (rest, false))
          end
      end
  end.

(** [Iterator::next] *)
Definition iter_next (i : Iter T Sm) : outcome (option T * Iter T Sm) :=
  let* '(st, descend) :=
    match it_stack i with
    | [] => let* st := stack_push [] (MkEntry (it_tree i) 0 tt) in Ret (st, true)
    | st => Ret (st, false)
    end in
  let* '(st, x) := loop iter_step (cursor_fuel (it_tree i)) (st, descend) in
  Ret (x, MkIter (it_tree i) st).
End Iter.

(** [SumTree::items]: walk a [()]-cursor over the tree. *)
Definition items {T Sm} (t : SumTree T Sm) : outcome (list T) :=
  let* c := next (cursor_new (D:=unit) t) in
  loop (λ '(c, its),
          let* i := item c in
          match i with
          | Some x => let* c := next c in Ret (inl (c, its ++ [x]))
          | None => Ret (inr its)
          end) (S (tree_size t)) (c, []).
