(* ===== verification/CursorFacts.v ===== *)
(** * Correctness of cursors

    A cursor over a tree stands for a split [p ++ l] of the tree's items: [p]
    has been passed and the cursor is at the first item of [l] (or at the end).
    [cursor_at] relates the stack of the code to such a split; seeking, moving
    on, moving back and reading are then functions on splits. *)
From stdpp Require Import base numbers option list.
From Stdlib Require Import Lia.
From S2P Require Import Prelude SumTree SumTreeFacts SumTreeBulk Cursor.
#[local] Opaque TREE_BASE av_cap.

(** ** Children of a node, leaf or not *)
Section Children.
Context {T Sm : Type}.
Implicit Types t : SumTree T Sm.

Definition node_len t : nat :=
  match t with Internal _ _ _ ct => length ct | Leaf _ its _ => length its end.
Definition node_take t (k : nat) : list T :=
  match t with Internal _ _ _ ct => flat_map tree_items (take k ct) | Leaf _ its _ => take k its end.
Definition node_drop t (k : nat) : list T :=
  match t with Internal _ _ _ ct => flat_map tree_items (drop k ct) | Leaf _ its _ => drop k its end.
Definition child_sizes t : list nat :=
  match t with Internal _ _ _ ct => map tree_size ct | Leaf _ its _ => map (λ _, 1) its end.

Lemma node_take_drop t k : node_take t k ++ node_drop t k = tree_items t.
Proof.
  destruct t; simpl; [by rewrite <-flat_map_app, take_drop|apply take_drop].
Qed.
Lemma node_take_0 t : node_take t 0 = [].
Proof. by destruct t. Qed.
Lemma node_drop_0 t : node_drop t 0 = tree_items t.
Proof. by destruct t. Qed.
Lemma node_take_all t k : node_len t ≤ k → node_take t k = tree_items t.
Proof. destruct t; simpl; intros; by rewrite take_ge. Qed.
Lemma node_drop_all t k : node_len t ≤ k → node_drop t k = [].
Proof. destruct t; simpl; intros; by rewrite drop_ge. Qed.

Lemma tree_size_children t : tree_size t = S (list_sum (child_sizes t)).
Proof.
  destruct t as [| ? its ?]; simpl; [done|]. f_equal. induction its; simpl; lia.
Qed.
Lemma length_child_sizes t : length (child_sizes t) = node_len t.
Proof. destruct t; simpl; by rewrite length_map. Qed.
Lemma tree_size_pos t : 0 < tree_size t.
Proof. rewrite tree_size_children. lia. Qed.
End Children.

Lemma list_sum_drop (l : list nat) k x :
  l !! k = Some x → list_sum (drop k l) = x + list_sum (drop (S k) l).
Proof. intros Hk. by rewrite (drop_S l x k). Qed.
Lemma list_sum_take (l : list nat) k x :
  l !! k = Some x → list_sum (take (S k) l) = list_sum (take k l) + x.
Proof. intros Hk. rewrite (take_S_r l k x) by done. rewrite list_sum_app. simpl. lia. Qed.
Lemma list_sum_take_drop (l : list nat) k :
  list_sum (take k l) + list_sum (drop k l) = list_sum l.
Proof. by rewrite <-list_sum_app, take_drop. Qed.
Lemma list_sum_drop_le (l : list nat) k : list_sum (drop k l) ≤ list_sum l.
Proof. pose proof (list_sum_take_drop l k). lia. Qed.

(** ** Paths from the root to a node *)
Section Path.
Context {T Sm D : Type} `{SummaryLaws T Sm} `{Dimension D Sm}.
Abbreviation tree := (SumTree T Sm).
Abbreviation entry := (StackEntry T Sm D).
Context (root : tree) (hr : nat).

(** [path st t p r h]: the entries [st] (innermost first) lead from the root
    to the node [t] of height [h], before which come the items [p] and after
    which come the items [r]. *)
Inductive path : list entry → tree → list T → list T → nat → Prop :=
| path_root : path [] root [] [] hr
| path_child st e ct c p r h hh s cs :
    path st (e_tree e) p r (S h) →
    e_tree e = Internal hh s cs ct →
    ct !! e_index e = Some c →
    e_position e = measure (p ++ flat_map tree_items (take (e_index e) ct)) →
    path (e :: st) c (p ++ flat_map tree_items (take (e_index e) ct))
      (flat_map tree_items (drop (S (e_index e)) ct) ++ r) h.

Context (Hroot : wf_node hr root) (Hvalid : valid (tree_items root)).

Lemma flat_map_lookup (ct : list tree) i c :
  ct !! i = Some c →
  flat_map tree_items (drop i ct) = tree_items c ++ flat_map tree_items (drop (S i) ct).
Proof. intros Hi. by rewrite (drop_S ct c i). Qed.

Lemma path_wf st t p r h : path st t p r h → wf_node h t.
Proof.
  induction 1 as [|st e ct c p r h hh s cs Hp IH He Hc Hpos]; [done|].
  apply wf_internal_inv in IH as (ct' & E & _ & _ & Hct). rewrite E in He. simplify_eq.
  rewrite Forall_lookup in Hct. eauto.
Qed.

Lemma path_items st t p r h : path st t p r h → tree_items root = p ++ tree_items t ++ r.
Proof.
  induction 1 as [|st e ct c p r h hh s cs Hp IH He Hc Hpos].
  - simpl. by rewrite app_nil_r.
  - rewrite IH, He. simpl. rewrite <-!app_assoc. f_equal.
    rewrite <-(take_drop (e_index e) ct) at 1. rewrite flat_map_app, <-app_assoc. f_equal.
    by rewrite (flat_map_lookup ct _ c), <-app_assoc.
Qed.

Lemma path_length st t p r h : path st t p r h → length st + h = hr.
Proof. induction 1; simpl; lia. Qed.

Lemma path_leaf_root st t p r h :
  path st t p r h → (match root with Leaf _ _ _ => True | _ => False end) → st = [] ∧ t = root.
Proof.
  intros Hp Hl. induction Hp as [|st e ct c p r h hh s cs Hp IH He Hc Hpos]; [done|].
  destruct IH as [_ E]. rewrite <-E, He in Hl. done.
Qed.

(** The entry of the enclosing node gives the position of the node's start. *)
Lemma path_start st t p r h :
  path st t p r h →
  match st with e :: _ => e_position e | [] => dim_zero end = measure p.
Proof. by destruct 1. Qed.

(** Weights of what is left to visit to the right and to the left. *)
Definition weight_right (st : list entry) : nat :=
  list_sum (map (λ e, S (2 * list_sum (drop (S (e_index e)) (child_sizes (e_tree e))))) st).
Definition weight_left (st : list entry) : nat :=
  list_sum (map (λ e, S (2 * list_sum (take (e_index e) (child_sizes (e_tree e))))) st).

Lemma weight_right_cons e st :
  weight_right (e :: st)
  = S (2 * list_sum (drop (S (e_index e)) (child_sizes (e_tree e)))) + weight_right st.
Proof. reflexivity. Qed.
Lemma weight_left_cons e st :
  weight_left (e :: st)
  = S (2 * list_sum (take (e_index e) (child_sizes (e_tree e)))) + weight_left st.
Proof. reflexivity. Qed.

Lemma path_weight st t p r h :
  path st t p r h →
  weight_right st + 2 * tree_size t ≤ 2 * tree_size root ∧
  weight_left st + 2 * tree_size t ≤ 2 * tree_size root.
Proof.
  induction 1 as [|st e ct c p r h hh s cs Hp IH He Hc Hpos]; [simpl; lia|].
  rewrite (tree_size_children (e_tree e)) in IH.
  assert (child_sizes (e_tree e) !! e_index e = Some (tree_size c)) as Hs.
  { rewrite He; simpl. change (map tree_size ct) with (tree_size <$> ct). by rewrite list_lookup_fmap, Hc. }
  rewrite weight_right_cons, weight_left_cons.
  pose proof (list_sum_drop _ _ _ Hs). pose proof (list_sum_take _ _ _ Hs).
  pose proof (list_sum_take_drop (child_sizes (e_tree e)) (e_index e)).
  pose proof (list_sum_take_drop (child_sizes (e_tree e)) (S (e_index e))). lia.
Qed.
End Path.
