(* ===== verification/CursorSeek.v ===== *)
(** * Seeking: [seek], [seek_forward], [slice], [suffix], [summary]

    One theorem for the common loop [seek_internal], generic in the aggregate:
    from the split [p0 ++ l0] the cursor goes to the split [advance ... p0 l0],
    and the aggregate receives exactly the items in between. *)
From stdpp Require Import base numbers option list.
From Stdlib Require Import Lia.
From S2P Require Import Prelude SumTree SumTreeFacts SumTreeBulk Cursor CursorFacts.
#[local] Opaque TREE_BASE av_cap.

(** ** What a seek aggregate promises

    [Rout q a]: outside a leaf, [a] has received the items [q]; [Rin q cur a]:
    inside a leaf, [a] has received [q] and then [cur] from this leaf. *)
Record agg_spec {T Sm A} `{SummaryLaws T Sm} (agg : SeekAggregate T Sm A)
    (Rout : list T → A → Prop) (Rin : list T → list T → A → Prop) : Prop := {
  agg_begin : ∀ q a, Rout q a → Rin q [] (begin_leaf agg a);
  agg_item : ∀ q cur a x, Rin q cur a → length cur < av_cap →
    returns (push_item agg a x (item_summary_of x)) (Rin q (cur ++ [x]));
  agg_end : ∀ q cur a, Rin q cur a → valid (q ++ cur) → length cur ≤ av_cap →
    returns (end_leaf agg a) (Rout (q ++ cur));
  agg_tree : ∀ q a h t, Rout q a → wf_node h t → valid (q ++ tree_items t) →
    returns (push_tree agg a t (summary t)) (Rout (q ++ tree_items t));
}.

Lemma unit_agg_spec {T Sm} `{SummaryLaws T Sm} :
  agg_spec (T:=T) (Sm:=Sm) unit_aggregate (λ _ _, True) (λ _ _ _, True).
Proof. by split; intros; try apply returns_Ret. Qed.

Section Aggregates.
Context {T Sm : Type} `{SummaryLaws T Sm}.

Definition slice_out (q : list T) (a : SliceSeekAggregate T Sm) : Prop :=
  wf (slice_tree a) ∧ tree_items (slice_tree a) = q ∧
  leaf_items a = [] ∧ leaf_item_summaries a = [] ∧ leaf_summary a = zero.

Definition slice_in (q cur : list T) (a : SliceSeekAggregate T Sm) : Prop :=
  wf (slice_tree a) ∧ tree_items (slice_tree a) = q ∧
  leaf_items a = cur ∧ leaf_item_summaries a = item_summary_of <$> cur ∧
  leaf_summary a = total cur.

Lemma slice_agg_spec : agg_spec slice_aggregate slice_out slice_in.
Proof.
  split.
  - by intros q a (? & ? & ? & ? & ?).
  - intros q cur a x (Hwf & Hq & Hi & Hs & Ht) Hlen. simpl. rewrite Hi, Hs, Ht.
    rewrite !av_push_ok by (rewrite ?length_fmap; done). apply returns_Ret.
    split_and!; simpl; try done; [by rewrite fmap_app|].
    unfold total, sum. by rewrite fmap_app, foldl_app.
  - intros q cur a (Hwf & Hq & Hi & Hs & Ht) Hv Hlen. simpl. rewrite Hi, Hs, Ht.
    destruct (append_wf (slice_tree a) (Leaf (total cur) cur (item_summary_of <$> cur)))
      as (t & -> & Hwf' & Hit); [done| |by rewrite Hq|].
    { destruct (decide (cur = [])) as [->|]; [by left|]. eapply wf_node_wf. by constructor. }
    apply returns_Ret. rewrite Hq in Hit. by split_and!.
  - intros q a h t (Hwf & Hq & Hi & Hs & Ht) Hh Hv. simpl.
    destruct (append_wf (slice_tree a) t) as (t' & -> & Hwf' & Hit);
      [done|by eapply wf_node_wf|by rewrite Hq|].
    apply returns_Ret. rewrite Hq in Hit. by split_and!.
Qed.

Lemma summary_agg_spec {O} `{Dimension O Sm} `{!MeasureLaws O T Sm} :
  agg_spec (T:=T) (summary_aggregate (O:=O))
    (λ q a, a = measure q) (λ q cur a, a = measure (q ++ cur)).
Proof.
  split; simpl.
  - intros q a ->. by rewrite app_nil_r.
  - intros q cur a x -> _. apply returns_Ret. by rewrite app_assoc, measure_snoc.
  - intros q cur a -> _ _. by apply returns_Ret.
  - intros q a h t -> Hh Hv. apply returns_Ret. rewrite (wf_node_summary h t) by done.
    apply measure_app; [by eapply wf_node_items|done].
Qed.
End Aggregates.

Section Seek.
Context {T Sm D : Type} `{SummaryLaws T Sm} `{Dimension D Sm}.
Abbreviation tree := (SumTree T Sm).
Abbreviation entry := (StackEntry T Sm D).
Context (root : tree) (hr : nat).

(** The stack of a cursor at the split [p ++ l] of the root's items. *)
Definition stack_at (st : list entry) (p l : list T) : Prop :=
  match st with
  | [] => p = tree_items root ∧ l = []
  | e :: rest => ∃ p1 r1, path root hr rest (e_tree e) p1 r1 0 ∧
      e_index e < node_len (e_tree e) ∧
      p = p1 ++ node_take (e_tree e) (e_index e) ∧
      l = node_drop (e_tree e) (e_index e) ++ r1
  end.

Context (Hroot : wf_node hr root) (Hvalid : valid (tree_items root)) (Hheight : hr < STACK_CAP).

(** Leaving a node: its parent is past the child at its index. *)
Lemma path_pop rest t p1 r1 h :
  path root hr rest t p1 r1 h →
  match rest with
  | [] => p1 = [] ∧ r1 = [] ∧ t = root
  | e :: rest => ∃ p2 r2, path root hr rest (e_tree e) p2 r2 (S h) ∧
      S (e_index e) ≤ node_len (e_tree e) ∧
      p1 = p2 ++ node_take (e_tree e) (e_index e) ∧
      node_take (e_tree e) (S (e_index e)) = node_take (e_tree e) (e_index e) ++ tree_items t ∧
      r1 = node_drop (e_tree e) (S (e_index e)) ++ r2
  end.
Proof.
  destruct 1 as [|st e ct c p r h hh s cs Hp He Hc Hpos]; [done|].
  exists p, r. rewrite He at 2 3 4 5 6. simpl. split_and!; [done| |done| |done].
  - apply lookup_lt_Some in Hc. lia.
  - rewrite (take_S_r ct (e_index e) c), flat_map_app by done. simpl. by rewrite app_nil_r.
Qed.

Lemma stack_push_ok (st : list entry) e t p r h :
  path root hr st t p r h → stack_push st e = Ret (e :: st).
Proof.
  intros Hp%path_length. unfold stack_push.
  destruct (Nat.ltb_spec (length st) STACK_CAP); [done|lia].
Qed.

Section Loop.
Context {Tg A : Type} `{SeekTarget Tg D} (target : Tg) (bias : Bias).
Context (agg : SeekAggregate T Sm A) (Rout : list T → A → Prop) (Rin : list T → list T → A → Prop).
Context (Hagg : agg_spec agg Rout Rin).
Context (Hskip : skippable target bias (tree_items root)).
Abbreviation past := (target_past target bias).

Lemma seek_items_spec (e : entry) p q cur a (l : list T) :
  Rin q cur a → length cur + length l ≤ av_cap →
  ∃ s l', l = s ++ l' ∧ advance past p l = (p ++ s, l') ∧
    returns (seek_items agg target bias e (measure p) a l (item_summary_of <$> l))
      (λ '(e', pos, a', stopped),
         e' = MkEntry (e_tree e) (e_index e + length s) (e_position e) ∧
         pos = measure (p ++ s) ∧ Rin q (cur ++ s) a' ∧
         stopped = match l' with [] => false | _ :: _ => true end).
Proof.
  revert e p cur a. induction l as [|x l IH]; intros e p cur a HR Hlen; simpl in *.
  - exists [], []. split_and!; [done|by rewrite app_nil_r|]. apply returns_Ret.
    destruct e; simpl. rewrite Nat.add_0_r, !app_nil_r. by split_and!.
  - rewrite <-measure_snoc. destruct (past (measure (p ++ [x]))) eqn:E.
    + destruct (agg_item _ _ _ Hagg q cur a x) as (a' & -> & HR'); [done|lia|].
      destruct (IH (MkEntry (e_tree e) (e_index e + 1) (e_position e)) (p ++ [x]) (cur ++ [x]) a')
        as (s & l' & -> & Hadv & Hret); [done|rewrite length_app; simpl; lia|].
      exists (x :: s), l'. rewrite Hadv, <-app_assoc. split_and!; [done|done|].
      eapply returns_mono; [exact Hret|]. intros [[[e' pos] a''] stopped] (-> & -> & HR'' & ->).
      simpl. rewrite <-app_assoc in HR''. rewrite <-Nat.add_assoc, <-app_assoc. by split_and!.
    + exists [], (x :: l). split_and!; [done|by rewrite app_nil_r|]. apply returns_Ret.
      destruct e; simpl. rewrite Nat.add_0_r, !app_nil_r. by split_and!.
Qed.

Lemma seek_children_spec h (e : entry) p0 q a r (ct : list tree) :
  tree_items root = p0 ++ q ++ flat_map tree_items ct ++ r →
  Forall (wf_node h) ct → Rout q a → e_position e = measure (p0 ++ q) →
  ∃ s ct', ct = s ++ ct' ∧
    advance past (p0 ++ q) (flat_map tree_items ct ++ r)
    = advance past (p0 ++ q ++ flat_map tree_items s) (flat_map tree_items ct' ++ r) ∧
    returns (seek_children agg target bias e (measure (p0 ++ q)) a ct (summary <$> ct))
      (λ '(e', pos, a', child),
         e' = MkEntry (e_tree e) (e_index e + length s)
                (measure (p0 ++ q ++ flat_map tree_items s)) ∧
         pos = measure (p0 ++ q ++ flat_map tree_items s) ∧
         Rout (q ++ flat_map tree_items s) a' ∧ child = head ct').
Proof.
  revert e q a. induction ct as [|c ct IH]; intros e q a Hits Hwf HR He; simpl in *.
  - exists [], []. simpl. rewrite !app_nil_r. split_and!; [done|done|]. apply returns_Ret.
    destruct e; simpl in *. rewrite He, Nat.add_0_r. by split_and!.
  - apply Forall_cons in Hwf as [Hc Hwf]. rewrite <-app_assoc in Hits.
    rewrite (wf_node_summary h c) by done. pose proof (wf_node_items _ _ Hc) as Hne.
    destruct (past (dim_add (measure (p0 ++ q)) (total (tree_items c)))) eqn:E.
    + destruct (Hskip (p0 ++ q) (tree_items c) (flat_map tree_items ct ++ r)) as [-> Hadvance];
        [by rewrite <-app_assoc|done|done|].
      destruct (agg_tree _ _ _ Hagg q a h c) as (a' & Ha' & HR'); [done|done| |].
      { rewrite Hits in Hvalid. apply valid_r in Hvalid.
        rewrite app_assoc in Hvalid. by eapply valid_l. }
      rewrite (wf_node_summary h c) in Ha' by done. rewrite Ha'.
      destruct (IH (MkEntry (e_tree e) (e_index e + 1) (measure (p0 ++ q ++ tree_items c)))
        (q ++ tree_items c) a') as (s & ct' & -> & Hadv & Hret); [|done|done|done|].
      { by rewrite <-!app_assoc. }
      exists (c :: s), ct'. simpl. split_and!; [done| |].
      * rewrite <-(app_assoc (tree_items c)), Hadvance, <-(app_assoc p0 q (tree_items c)), Hadv. by rewrite <-!app_assoc.
      * rewrite <-(app_assoc p0 q (tree_items c)). eapply returns_mono; [exact Hret|]. intros [[[e' pos] a''] child] (-> & -> & HR'' & ->).
        simpl. rewrite <-!app_assoc in HR'' |- *. rewrite <-Nat.add_assoc. by split_and!.
    + exists [], (c :: ct). simpl. rewrite !app_nil_r, <-app_assoc.
      split_and!; [done|done|]. apply returns_Ret.
      destruct e; simpl in *. rewrite He, Nat.add_0_r. by split_and!.
Qed.

(** The loop state at the split [p ++ l], having started from [p0]. *)
Definition seek_at (p0 : list T) (x : list entry * D * A * bool) (p l : list T) : Prop :=
  let '(st, pos, a, asc) := x in
  pos = measure p ∧ (∃ q, p = p0 ++ q ∧ Rout q a) ∧
  match st with
  | [] => p = tree_items root ∧ l = []
  | e :: rest => ∃ p1 r1 h, path root hr rest (e_tree e) p1 r1 h ∧
      let k := if asc then S (e_index e) else e_index e in
      k ≤ node_len (e_tree e) ∧
      p = p1 ++ node_take (e_tree e) k ∧ l = node_drop (e_tree e) k ++ r1 ∧
      (if asc then h ≠ 0 else h ≠ 0 → e_position e = measure p)
  end.

Definition seek_weight (x : list entry * D * A * bool) : nat :=
  let '(st, _, _, asc) := x in
  match st with
  | [] => 0
  | e :: rest =>
      S (2 * list_sum (drop (if asc then S (e_index e) else e_index e)
                         (child_sizes (e_tree e)))) + weight_right rest
  end.

Definition seek_done (p0 p l : list T) (x : list entry * D * A) : Prop :=
  let '(st, pos, a) := x in
  let '(p', l') := advance past p l in
  pos = measure p' ∧ (∃ q, p' = p0 ++ q ∧ Rout q a) ∧ stack_at st p' l'.

(** Having passed all of a node, the loop goes on in its parent. *)
Lemma seek_pop p0 rest t p1 r1 h q a k :
  path root hr rest t p1 r1 h → p1 ++ tree_items t = p0 ++ q → Rout q a →
  seek_at p0 (rest, measure (p0 ++ q), a, true) (p0 ++ q) r1 ∧
  seek_weight (rest, measure (p0 ++ q), a, true) < S k + weight_right rest.
Proof.
  intros Hp Hq HR. pose proof (path_items _ _ _ _ _ _ _ Hp) as Hi. apply path_pop in Hp.
  split; [split; [done|split; [by exists q|]]|]; destruct rest as [|e rest]; simpl.
  - destruct Hp as (-> & -> & ->). simpl in Hq. rewrite <-Hq. done.
  - destruct Hp as (p2 & r2 & Hp & Hk & Hp1 & Ht & Hr). exists p2, r2, (S h).
    split_and!; [done|done| |done|done]. rewrite <-Hq, Hp1, Ht. by rewrite app_assoc.
  - lia.
  - rewrite weight_right_cons. lia.
Qed.

(** Going down into the child at an entry's index. *)
Lemma seek_push p0 rest e hh s cs ct c p1 r1 h q a k :
  path root hr rest (e_tree e) p1 r1 (S h) → e_tree e = Internal hh s cs ct →
  ct !! e_index e = Some c → k ≤ e_index e →
  p0 ++ q = p1 ++ flat_map tree_items (take (e_index e) ct) →
  e_position e = measure (p0 ++ q) → Rout q a →
  let st := MkEntry c 0 (measure (p0 ++ q)) :: e :: rest in
  stack_push (e :: rest) (MkEntry c 0 (measure (p0 ++ q))) = Ret st ∧
  seek_at p0 (st, measure (p0 ++ q), a, false) (p0 ++ q)
    (flat_map tree_items (drop (e_index e) ct) ++ r1) ∧
  seek_weight (st, measure (p0 ++ q), a, false)
    < S (2 * list_sum (drop k (child_sizes (e_tree e)))) + weight_right rest.
Proof.
  intros Hp Et Hc Hk Hpq Hpos HR st.
  assert (path root hr (e :: rest) c (p0 ++ q)
    (flat_map tree_items (drop (S (e_index e)) ct) ++ r1) h) as Hpc.
  { rewrite Hpq. eapply path_child; [done|done|done|by rewrite <-Hpq]. }
  split_and!.
  - by eapply stack_push_ok.
  - split; [done|]. split; [by exists q|].
    eexists _, _, h. simpl. rewrite node_take_0, node_drop_0, app_nil_r.
    split_and!; [done|lia|done| |done]. by rewrite app_assoc, <-(flat_map_lookup ct _ c).
  - subst st. unfold seek_weight. rewrite weight_right_cons. simpl e_tree. simpl e_index.
    assert (child_sizes (e_tree e) !! e_index e = Some (tree_size c)) as Hsz.
    { rewrite Et; simpl. change (map tree_size ct) with (tree_size <$> ct).
      by rewrite list_lookup_fmap, Hc. }
    apply list_sum_drop in Hsz. rewrite (tree_size_children c) in Hsz. rewrite drop_0.
    pose proof (list_sum_drop_le (drop k (child_sizes (e_tree e))) (e_index e - k)) as Hle.
    rewrite drop_drop in Hle. replace (k + (e_index e - k)) with (e_index e) in Hle by lia. lia.
Qed.

Lemma seek_step_internal p0 e rest pos a asc p l h :
  seek_at p0 (e :: rest, pos, a, asc) p l → wf_node (S h) (e_tree e) →
  ∃ x p' l', seek_step agg target bias (e :: rest, pos, a, asc) = Ret (inl x) ∧
    seek_at p0 x p' l' ∧ advance past p l = advance past p' l' ∧
    seek_weight x < seek_weight (e :: rest, pos, a, asc).
Proof.
  intros (-> & (q & -> & HR) & p1 & r1 & h1 & Hp & Hat) Hwf. simpl in Hat.
  assert (h1 = S h) as ->.
  { eapply path_wf in Hp; [|done]. apply wf_node_height in Hp, Hwf. congruence. }
  destruct (wf_internal_inv _ _ Hwf) as (ct & Et & _ & _ & Hct).
  simpl seek_step. rewrite Et in Hat |- *. simpl in Hat.
  set (k := if asc then S (e_index e) else e_index e) in *.
  set (e1 := if asc then MkEntry (Internal _ _ _ ct) (e_index e + 1) (measure (p0 ++ q)) else e).
  assert (e_index e1 = k ∧ e_tree e1 = e_tree e ∧ e_position e1 = measure (p0 ++ q))
    as (Ek & Et1 & Ep1).
  { destruct Hat as (_ & _ & _ & Hasc). unfold e1, k. destruct asc; simpl; split_and!; auto; lia. }
  rewrite Ek. clearbody e1. destruct Hat as (Hk & Hpq & -> & _).
  rewrite length_fmap. replace (length ct <? k) with false by (symmetry; apply Nat.ltb_ge; lia).
  simpl orb. cbv iota. rewrite <-fmap_drop.
  destruct (seek_children_spec h e1 p0 q a r1 (drop k ct)) as (s & ct' & Hs & Hadv & Hret);
    [|by apply Forall_drop|done|done|].
  { rewrite (path_items _ _ _ _ _ _ _ Hp), Et. simpl.
    rewrite (app_assoc p0), Hpq, <-!app_assoc. f_equal.
    by rewrite (app_assoc (flat_map tree_items (take k ct))), <-flat_map_app, take_drop. }
  destruct Hret as ([[[e' pos] a'] child] & -> & -> & -> & HR' & ->).
  assert (ct = (take k ct ++ s) ++ ct') as Hsplit by (by rewrite <-app_assoc, <-Hs, take_drop).
  assert (length (take k ct ++ s) = k + length s) as Hlen.
  { rewrite length_app, length_take. lia. }
  destruct ct' as [|c ct']; simpl.
  - rewrite app_nil_r in Hs, Hsplit. subst s.
    destruct (seek_pop p0 rest (e_tree e) p1 r1 (S h) (q ++ flat_map tree_items (drop k ct)) a'
      (2 * list_sum (drop k (child_sizes (e_tree e))))) as [Hat Hw]; [done| |done|].
    { rewrite Et; simpl. rewrite (app_assoc p0), Hpq, <-app_assoc.
      by rewrite <-flat_map_app, take_drop. }
    eexists _, _, _. split; [reflexivity|]. split; [exact Hat|]. split; [exact Hadv|].
    exact Hw.
  - set (e2 := MkEntry (e_tree e1) (e_index e1 + length s) (measure (p0 ++ q ++ flat_map tree_items s))).
    assert (e_index e2 = length (take k ct ++ s)) as Hi by (rewrite Hlen, <-Ek; done).
    assert (take (e_index e2) ct = take k ct ++ s ∧ drop (e_index e2) ct = c :: ct') as [Ht Hd].
    { rewrite Hi. split; [rewrite Hsplit at 2|rewrite Hsplit at 2];
        [apply take_app_length|apply drop_app_length]. }
    assert (e_tree e2 = e_tree e) as Et2 by done.
    destruct (seek_push p0 rest e2 (S h) (total (flat_map tree_items ct)) (summary <$> ct) ct c p1 r1 h (q ++ flat_map tree_items s) a' k)
      as (Hpush & Hat & Hw); rewrite ?Et2; [done|exact Et| | | |done|done|].
    { rewrite <-(Nat.add_0_r (e_index e2)), <-lookup_drop, Hd. done. }
    { unfold e2; simpl. lia. }
    { by rewrite Ht, flat_map_app, (app_assoc p0), Hpq, <-app_assoc. }
    rewrite Hpush. eexists _, _, _. split; [reflexivity|]. split; [exact Hat|].
    split; [|by rewrite Et2 in Hw]. rewrite Hadv, Hd. done.
Qed.

Lemma seek_step_leaf p0 e rest pos a asc p l :
  seek_at p0 (e :: rest, pos, a, asc) p l → wf_node 0 (e_tree e) →
  (∃ x p' l', seek_step agg target bias (e :: rest, pos, a, asc) = Ret (inl x) ∧
    seek_at p0 x p' l' ∧ advance past p l = advance past p' l' ∧
    seek_weight x < seek_weight (e :: rest, pos, a, asc)) ∨
  (∃ y, seek_step agg target bias (e :: rest, pos, a, asc) = Ret (inr y) ∧ seek_done p0 p l y).
Proof.
  intros (-> & (q & -> & HR) & p1 & r1 & h1 & Hp & Hat) Hwf.
  assert (h1 = 0) as ->.
  { eapply path_wf in Hp; [|done]. apply wf_node_height in Hp, Hwf. congruence. }
  destruct asc; [by destruct Hat as (_ & _ & _ & ?)|]. simpl in Hat.
  destruct (wf_leaf_inv _ Hwf) as (lits & Et & Hne & Hcap).
  simpl seek_step. rewrite Et in Hat |- *. simpl in Hat.
  destruct Hat as (Hk & Hpq & -> & _). rewrite length_fmap.
  set (k := e_index e) in *.
  replace (length lits <? k) with false by (symmetry; apply Nat.ltb_ge; lia).
  simpl orb. cbv iota. rewrite <-fmap_drop.
  destruct (seek_items_spec e (p0 ++ q) q [] (begin_leaf agg a) (drop k lits))
    as (s & l' & Hs & Hadv & Hret).
  { by apply (agg_begin _ _ _ Hagg). }
  { rewrite length_drop. simpl. lia. }
  assert (valid (q ++ s)) as Hv.
  { pose proof Hvalid as Hv. rewrite (path_items _ _ _ _ _ _ _ Hp), Et in Hv. simpl in Hv.
    rewrite <-(take_drop k lits), Hs in Hv. rewrite <-!app_assoc, (app_assoc p1), <-Hpq in Hv.
    rewrite <-app_assoc in Hv. apply valid_r in Hv. rewrite app_assoc in Hv. by eapply valid_l. }
  assert (length s ≤ av_cap) as Hls.
  { apply (f_equal length) in Hs. rewrite length_drop, length_app in Hs. lia. }
  destruct Hret as ([[[e' pos] a'] stopped] & -> & -> & -> & HR' & ->).
  destruct (agg_end _ _ _ Hagg q s a') as (a'' & -> & HR''); [done|done|done|].
  destruct l' as [|x l']; simpl.
  - left. rewrite app_nil_r in Hs.
    destruct (seek_pop p0 rest (e_tree e) p1 r1 0 (q ++ s) a''
      (2 * list_sum (drop k (child_sizes (e_tree e))))) as [Hat Hw]; [done| |done|].
    { rewrite Et; simpl. rewrite (app_assoc p0), Hpq, <-app_assoc, <-Hs. by rewrite take_drop. }
    rewrite (app_assoc p0) in Hat, Hw.
    eexists _, _, _. split; [reflexivity|]. split; [exact Hat|]. split; [|exact Hw].
    by rewrite advance_bind, Hadv.
  - right. eexists. split; [reflexivity|]. unfold seek_done.
    rewrite advance_bind, Hadv. split; [done|].
    split; [eexists; split; [by rewrite <-app_assoc|done]|].
    assert (lits = (take k lits ++ s) ++ x :: l') as Hl
      by (by rewrite <-app_assoc, <-Hs, take_drop).
    assert (length (take k lits ++ s) = k + length s) as Hlen
      by (rewrite length_app, length_take; lia).
    exists p1, r1. simpl. rewrite Et. simpl. fold k. rewrite <-Hlen.
    split_and!.
    + by rewrite <-Et.
    + rewrite Hl at 2. rewrite (length_app (take k lits ++ s)). simpl. lia.
    + rewrite Hl at 2. rewrite take_app_length. by rewrite Hpq, <-app_assoc.
    + rewrite Hl at 2. rewrite drop_app_length. done.
Qed.

Lemma seek_step_spec p0 x p l :
  seek_at p0 x p l →
  (∃ x' p' l', seek_step agg target bias x = Ret (inl x') ∧ seek_at p0 x' p' l' ∧
     advance past p l = advance past p' l' ∧ seek_weight x' < seek_weight x) ∨
  (∃ y, seek_step agg target bias x = Ret (inr y) ∧ seek_done p0 p l y).
Proof.
  destruct x as [[[[|e rest] pos] a] asc]; intros Hx.
  - right. destruct Hx as (-> & HR & -> & ->). eexists. split; [reflexivity|]. done.
  - destruct Hx as (Hpos & HR & p1 & r1 & h & Hp & Hat).
    destruct h as [|h].
    + apply seek_step_leaf; [|by eapply path_wf].
      split; [done|]. split; [done|]. by exists p1, r1, 0.
    + left. eapply seek_step_internal; [|by eapply path_wf].
      split; [done|]. split; [done|]. by exists p1, r1, (S h).
Qed.

Lemma seek_weight_fuel p0 st pos a p l :
  seek_at p0 (st, pos, a, false) p l → seek_weight (st, pos, a, false) < cursor_fuel root.
Proof.
  unfold cursor_fuel. destruct st as [|e rest]; simpl; [lia|].
  intros (_ & _ & p1 & r1 & h & Hp & _).
  destruct (path_weight _ _ _ _ _ _ _ Hp) as [Hw _].
  rewrite (tree_size_children (e_tree e)) in Hw.
  pose proof (list_sum_drop_le (child_sizes (e_tree e)) (e_index e)). lia.
Qed.

Lemma seek_loop_spec p0 st pos a p l :
  seek_at p0 (st, pos, a, false) p l →
  returns (loop (seek_step agg target bias) (cursor_fuel root) (st, pos, a, false))
    (seek_done p0 p l).
Proof.
  intros Hat.
  apply (loop_returns _
    (λ x, ∃ p' l', seek_at p0 x p' l' ∧ advance past p l = advance past p' l') seek_weight).
  - intros x (p' & l' & Hx & Hadv). destruct (seek_step_spec p0 x p' l' Hx)
      as [(x' & p'' & l'' & Hs & Hx' & Hadv' & Hw)|([[st' pos'] a'] & Hs & Hd)].
    + left. exists x'. split_and!; [done|exists p'', l''; by rewrite Hadv|done].
    + right. eexists. split; [exact Hs|]. unfold seek_done in *. by rewrite Hadv.
  - eauto.
  - by eapply seek_weight_fuel.
Qed.
End Loop.
End Seek.

(** ** The cursor operations, on splits of the items *)
Section SeekOps.
Context {T Sm D : Type} `{SummaryLaws T Sm} `{Dimension D Sm}.
Abbreviation tree := (SumTree T Sm).
Abbreviation cursor := (Cursor T Sm D).
Context (t : tree) (Hwf : wf t) (Hvalid : valid (tree_items t)) (Hheight : height t < STACK_CAP).
Implicit Types c : cursor.

(** [c] has passed [p] and is at the first item of [l]. *)
Definition cursor_at c (p l : list T) : Prop :=
  c_tree c = t ∧ c_did_seek c = true ∧ c_position c = measure p ∧
  c_at_end c = match c_stack c with [] => true | _ :: _ => false end ∧
  stack_at t (height t) (c_stack c) p l.

(** [c] can seek forward from the split [p ++ l]: it is there, or it is new. *)
Definition seekable_at c (p l : list T) : Prop :=
  cursor_at c p l ∨ (c = cursor_new t ∧ p = [] ∧ l = tree_items t).

Lemma seekable_new : seekable_at (cursor_new t) [] (tree_items t).
Proof. by right. Qed.

Lemma cursor_at_wf c p l :
  cursor_at c p l → c_stack c ≠ [] → wf_node (height t) t.
Proof.
  intros (_ & _ & _ & _ & Hst) Hne. destruct Hwf as [Hnew|[h Ht]].
  - destruct (c_stack c) as [|e rest]; [done|]. destruct Hst as (p1 & r1 & Hp & Hk & _).
    apply path_leaf_root in Hp as [_ E]; [|by rewrite Hnew]. rewrite E, Hnew in Hk. simpl in Hk. lia.
  - by rewrite (wf_node_height _ _ Ht).
Qed.

Lemma cursor_at_leaf c p l e rest :
  cursor_at c p l → c_stack c = e :: rest →
  ∃ p1 lits r1, e_tree e = Leaf (total lits) lits (item_summary_of <$> lits) ∧
    path t (height t) rest (e_tree e) p1 r1 0 ∧
    e_index e < length lits ∧ p = p1 ++ take (e_index e) lits ∧ l = drop (e_index e) lits ++ r1.
Proof.
  intros Hc E. pose proof Hc as (_ & _ & _ & _ & Hst). rewrite E in Hst.
  destruct Hst as (p1 & r1 & Hp & Hk & -> & ->).
  assert (wf_node 0 (e_tree e)) as Hl.
  { eapply path_wf; [|exact Hp]. apply (cursor_at_wf _ _ _ Hc). by rewrite E. }
  destruct (wf_leaf_inv _ Hl) as (lits & Et & _ & _).
  exists p1, lits, r1. rewrite Et in Hk, Hp |- *. by split_and!.
Qed.

Lemma cursor_at_items c p l : cursor_at c p l → tree_items t = p ++ l.
Proof.
  intros Hc. pose proof Hc as (_ & _ & _ & _ & Hst). destruct (c_stack c) as [|e rest] eqn:E.
  - destruct Hst as [-> ->]. by rewrite app_nil_r.
  - destruct Hst as (p1 & r1 & Hp & Hk & -> & ->).
    rewrite (path_items _ _ _ _ _ _ _ Hp), <-(node_take_drop (e_tree e) (e_index e)).
    by rewrite <-!app_assoc.
Qed.

(** Reading at a cursor. *)
Lemma item_at c p l : cursor_at c p l → item c = Ret (head l).
Proof.
  intros Hc. pose proof Hc as (_ & Hs & _ & _ & Hst). unfold item, assert_did_seek. rewrite Hs.
  simpl. destruct (c_stack c) as [|e rest] eqn:E; [by destruct Hst as [_ ->]|].
  destruct (cursor_at_leaf _ _ _ _ _ Hc E) as (p1 & lits & r1 & -> & _ & Hk & _ & ->).
  destruct (Nat.eqb_spec (e_index e) (length lits)); [lia|].
  destruct (lookup_lt_is_Some_2 lits (e_index e)) as [x Hx]; [done|].
  by rewrite Hx, (drop_S _ _ _ Hx).
Qed.

Lemma item_summary_at c p l :
  cursor_at c p l → item_summary c = Ret (option_map item_summary_of (head l)).
Proof.
  intros Hc. pose proof Hc as (_ & Hs & _ & _ & Hst). unfold item_summary, assert_did_seek.
  rewrite Hs. simpl. destruct (c_stack c) as [|e rest] eqn:E; [by destruct Hst as [_ ->]|].
  destruct (cursor_at_leaf _ _ _ _ _ Hc E) as (p1 & lits & r1 & -> & _ & Hk & _ & ->).
  rewrite length_fmap. destruct (Nat.eqb_spec (e_index e) (length lits)); [lia|].
  destruct (lookup_lt_is_Some_2 lits (e_index e)) as [x Hx]; [done|].
  by rewrite list_lookup_fmap, Hx, (drop_S _ _ _ Hx).
Qed.

(** Where the item at a split ends. *)
Definition end_of (p l : list T) : D := from_option (λ x, measure (p ++ [x])) (measure p) (head l).

Lemma end_at c p l : cursor_at c p l → end_ c = Ret (end_of p l).
Proof.
  intros Hc. unfold end_, start. rewrite (item_summary_at _ _ _ Hc).
  destruct Hc as (_ & _ & -> & _). unfold end_of. destruct l; simpl; by rewrite ?measure_snoc.
Qed.

Section Target.
Context {Tg : Type} `{SeekTarget Tg D} (target : Tg) (bias : Bias).
Context (Hskip : skippable target bias (tree_items t)).
Abbreviation past := (target_past target bias).

(** Where the code compares the target to decide that it was hit. *)
Definition hit (p l : list T) : bool :=
  match seek_cmp target (match bias with Left => end_of p l | Right => measure p end) with
  | Eq => true | _ => false
  end.

(** The tail of [seek_internal], after the loop. *)
Lemma seek_finish {A} st pos (a : A) p l :
  pos = measure p → stack_at t (height t) st p l →
  let c := MkCursor t st pos true (match st with [] => true | _ :: _ => false end) in
  cursor_at c p l ∧
  (let* end_ :=
     match bias with
     | Left => let* s := item_summary c in
               Ret (match s with Some s => dim_add pos s | None => pos end)
     | Right => Ret pos
     end in
   Ret (match seek_cmp target end_ with Eq => true | _ => false end, c, a))
  = Ret (hit p l, c, a).
Proof.
  intros -> Hst c. assert (cursor_at c p l) as Hc by done. split; [done|].
  unfold hit, end_of. destruct bias; [|done]. rewrite (item_summary_at _ _ _ Hc).
  destruct l; simpl; by rewrite ?measure_snoc.
Qed.

Section Aggregate.
Context {A : Type} (agg : SeekAggregate T Sm A) (Rout : list T → A → Prop)
  (Rin : list T → list T → A → Prop) (Hagg : agg_spec agg Rout Rin).
Abbreviation sloop := (loop (seek_step agg target bias) (cursor_fuel t)).
Abbreviation sdone := (seek_done t (height t) target bias Rout).

Lemma seek_loop_at c p l a :
  cursor_at c p l → Rout [] a →
  returns (sloop (c_stack c, measure p, a, false)) (sdone p p l).
Proof.
  intros Hc HR. pose proof Hc as (_ & _ & _ & _ & Hst). destruct (c_stack c) as [|e rest] eqn:E.
  - destruct Hst as [-> ->]. apply returns_Ret. unfold seek_done. simpl.
    split_and!; [done| |done|done]. exists []. by rewrite app_nil_r.
  - eapply seek_loop_spec; [|done..|].
    { apply (cursor_at_wf _ _ _ Hc). by rewrite E. }
    split; [done|]. split; [by exists []; rewrite app_nil_r|].
    destruct Hst as (p1 & r1 & Hp & Hk & Hp1 & Hl).
    exists p1, r1, 0. simpl. split_and!; [done|lia|done|done|done].
Qed.

Lemma seek_loop_new a :
  Rout [] a →
  returns (sloop ([MkEntry t 0 dim_zero], dim_zero, a, false)) (sdone [] [] (tree_items t)).
Proof.
  intros HR. destruct Hwf as [Hnew|[h Ht]].
  - rewrite Hnew. unfold cursor_fuel; simpl.
    destruct (agg_end _ _ _ Hagg [] [] (begin_leaf agg a)) as (a' & -> & HR');
      [by apply (agg_begin _ _ _ Hagg)| |simpl; lia|].
    { rewrite Hnew in Hvalid. done. }
    apply returns_Ret. unfold seek_done. simpl. split_and!; [done| |done|done]. by exists [].
  - rewrite (wf_node_height _ _ Ht) in *. eapply seek_loop_spec; try done.
    split; [done|]. split; [by exists []|].
    exists [], [], h. simpl. rewrite node_take_0, node_drop_0, app_nil_r.
    split_and!; [constructor|lia|done|done|done].
Qed.

Lemma seek_internal_skips c p l a :
  seekable_at c p l → is_ge (seek_cmp target (measure p)) = true → Rout [] a →
  returns (seek_internal agg target bias c a) (λ '(b, c', a'),
    let '(p', l') := advance past p l in
    cursor_at c' p' l' ∧ b = hit p' l' ∧ ∃ q, p' = p ++ q ∧ Rout q a').
Proof.
  intros Hc Hge HR.
  assert (∃ st, (if c_did_seek c then Ret (c_stack c)
                 else stack_push (c_stack c) (MkEntry (c_tree c) 0 dim_zero)) = Ret st ∧
            returns (sloop (st, measure p, a, false)) (sdone p p l) ∧
            c_tree c = t ∧ c_position c = measure p) as (st & Hst & Hloop & Ht & Hpos).
  { destruct Hc as [Hc|(-> & -> & ->)].
    - pose proof Hc as (Ht & Hs & Hpos & _ & _). rewrite Hs. exists (c_stack c).
      split_and!; [done|by eapply seek_loop_at|done|done].
    - eexists. split_and!; [reflexivity|by apply seek_loop_new|done|done]. }
  unfold seek_internal. rewrite Hpos, Hge. cbn [rust_assert]. rewrite Hst, Ht.
  destruct Hloop as ([[st' pos'] a'] & -> & Hdone). unfold seek_done in Hdone.
  destruct (advance past p l) as [p' l'] eqn:E. destruct Hdone as (Hpos' & Hq & Hst').
  destruct (seek_finish st' pos' a' p' l') as [Hc' ->]; [done|done|].
  apply returns_Ret. by split_and!.
Qed.
End Aggregate.

Lemma seek_forward_skips c p l :
  seekable_at c p l → is_ge (seek_cmp target (measure p)) = true →
  returns (seek_forward c target bias) (λ '(b, c'),
    let '(p', l') := advance past p l in cursor_at c' p' l' ∧ b = hit p' l').
Proof.
  intros Hc Hge. unfold seek_forward.
  destruct (seek_internal_skips _ _ _ unit_agg_spec c p l tt) as ([[b c'] a'] & -> & Hpost);
    [done..|]. destruct (advance past p l). apply returns_Ret. tauto.
Qed.

Lemma slice_skips c p l :
  seekable_at c p l → is_ge (seek_cmp target (measure p)) = true →
  returns (slice c target bias) (λ '(s, c'),
    let '(p', l') := advance past p l in
    cursor_at c' p' l' ∧ wf s ∧ p' = p ++ tree_items s).
Proof.
  intros Hc Hge. unfold slice.
  destruct (seek_internal_skips _ _ _ slice_agg_spec c p l (MkSlice new [] [] zero))
    as ([[b c'] a'] & -> & Hpost); [done..| |].
  { split_and!; try done. by left. }
  destruct (advance past p l). apply returns_Ret.
  destruct Hpost as (? & _ & q & ? & ? & <- & _). by split_and!.
Qed.

Lemma cursor_summary_skips {O} `{Dimension O Sm} `{!MeasureLaws O T Sm} c p l :
  seekable_at c p l → is_ge (seek_cmp target (measure p)) = true →
  returns (cursor_summary c target bias) (λ '(s, c'),
    let '(p', l') := advance past p l in
    cursor_at c' p' l' ∧ ∃ q, p' = p ++ q ∧ s = measure (D:=O) q).
Proof.
  intros Hc Hge. unfold cursor_summary.
  destruct (seek_internal_skips _ _ _ summary_agg_spec c p l dim_zero)
    as ([[b c'] a'] & -> & Hpost); [done..|].
  destruct (advance past p l). apply returns_Ret. destruct Hpost as (? & _ & ?). done.
Qed.
End Target.

(** ** Dimensions that measure runs by their summaries *)
Section Measured.
Context `{!MeasureLaws D T Sm}.
Section Monotone.
Context {Tg : Type} `{SeekTarget Tg D} (target : Tg) (bias : Bias).
Context (Hmono : monotone_target target (tree_items t)).
Abbreviation past := (target_past target bias).

Lemma seek_forward_spec c p l :
  seekable_at c p l → is_ge (seek_cmp target (measure p)) = true →
  returns (seek_forward c target bias) (λ '(b, c'),
    let '(p', l') := advance past p l in cursor_at c' p' l' ∧ b = hit target bias p' l').
Proof. intros. apply seek_forward_skips; try done. by apply monotone_skippable. Qed.
Lemma slice_spec c p l :
  seekable_at c p l → is_ge (seek_cmp target (measure p)) = true →
  returns (slice c target bias) (λ '(s, c'),
    let '(p', l') := advance past p l in
    cursor_at c' p' l' ∧ wf s ∧ p' = p ++ tree_items s).
Proof. intros. apply slice_skips; try done. by apply monotone_skippable. Qed.
Lemma cursor_summary_spec {O} `{Dimension O Sm} `{!MeasureLaws O T Sm} c p l :
  seekable_at c p l → is_ge (seek_cmp target (measure p)) = true →
  returns (cursor_summary c target bias) (λ '(s, c'),
    let '(p', l') := advance past p l in
    cursor_at c' p' l' ∧ ∃ q, p' = p ++ q ∧ s = measure (D:=O) q).
Proof. intros. apply cursor_summary_skips; try done. by apply monotone_skippable. Qed.
End Monotone.

Lemma advance_end p (l : list T) : advance (target_past MkEnd Right) p l = (p ++ l, []).
Proof.
  revert p. induction l as [|x l IH]; intros p; simpl; [by rewrite app_nil_r|].
  unfold target_past at 1; simpl. by rewrite IH, <-app_assoc.
Qed.

Lemma suffix_spec c p l :
  seekable_at c p l →
  returns (suffix c) (λ '(s, c'), cursor_at c' (tree_items t) [] ∧ wf s ∧ tree_items s = l).
Proof.
  intros Hc. unfold suffix.
  assert (tree_items t = p ++ l) as Hi.
  { destruct Hc as [Hc|(_ & -> & ->)]; [by eapply cursor_at_items|done]. }
  destruct (slice_spec MkEnd Right) with (c := c) (p := p) (l := l) as ([s c'] & -> & Hpost);
    [by intros ? ? ? _|done|done|].
  rewrite advance_end in Hpost. apply returns_Ret. destruct Hpost as (Hc' & Hs & E).
  rewrite Hi. apply app_inv_head in E. by split_and!.
Qed.
End Measured.
End SeekOps.
