(* ===== verification/CursorMove.v ===== *)
(** * Moving a cursor: [next], [prev], [search_forward], [search_backward]

    With a filter that never rejects a run containing an accepted item, the
    searches go to the first later, or last earlier, accepted item; [next] and
    [prev] are the searches with the filter that accepts everything. *)
From stdpp Require Import base numbers option list.
From Stdlib Require Import Lia.
From S2P Require Import Prelude SumTree SumTreeFacts SumTreeBulk Cursor CursorFacts CursorSeek.
#[local] Opaque TREE_BASE av_cap.

Section Move.
Context {T Sm D : Type} `{MeasureLaws D T Sm}.
Abbreviation tree := (SumTree T Sm).
Abbreviation entry := (StackEntry T Sm D).
Context (root : tree) (hr : nat).
Context (Hroot : wf_node hr root) (Hvalid : valid (tree_items root)) (Hheight : hr < STACK_CAP).
Context (filter_node : Sm → bool).

Definition accepts (x : T) : bool := filter_node (item_summary_of x).
Definition rejected (l : list T) : Prop := Forall (λ x, accepts x = false) l.
Definition accepted_head (l : list T) : Prop :=
  match l with [] => True | x :: _ => accepts x = true end.

(** The filter may accept a run without an accepted item, not the reverse. *)
Definition filter_sound : Prop :=
  ∀ l1 q l2, tree_items root = l1 ++ q ++ l2 → filter_node (total q) = false → rejected q.

(** Runs that are passed are measured by their summaries. *)
Definition filter_exact : Prop :=
  ∀ p q l, tree_items root = p ++ q ++ l → q ≠ [] → filter_node (total q) = false →
    dim_add (measure p) (total q) = measure (D:=D) (p ++ q).

Context (Hfilter : filter_sound).

Lemma skip_filtered_spec index eposition position cs :
  ∃ s cs', cs = s ++ cs' ∧ Forall (λ s, filter_node s = false) s ∧
    skip_filtered (D:=D) filter_node index eposition position cs
    = (index + length s, foldl dim_add eposition s, foldl dim_add position s) ∧
    match cs' with [] => True | s :: _ => filter_node s = true end.
Proof.
  revert index eposition position. induction cs as [|s cs IH]; intros i ep p; simpl.
  - exists [], []. simpl. by rewrite Nat.add_0_r.
  - destruct (filter_node s) eqn:E.
    + exists [], (s :: cs). simpl. by rewrite Nat.add_0_r.
    + destruct (IH (i + 1) (dim_add ep s) (dim_add p s)) as (s1 & cs' & -> & Hs & -> & Hh).
      exists (s :: s1), cs'. simpl. split_and!; [done|by constructor| |done].
      by rewrite <-Nat.add_assoc.
Qed.

Lemma measure_items p (l : list T) :
  foldl dim_add (measure p) (item_summary_of <$> l) = measure (D:=D) (p ++ l).
Proof. unfold measure. by rewrite fmap_app, foldl_app. Qed.

Lemma rejected_children h p (ct : list tree) r :
  Forall (wf_node h) ct → tree_items root = p ++ flat_map tree_items ct ++ r →
  Forall (λ s, filter_node s = false) (summary <$> ct) → rejected (flat_map tree_items ct).
Proof.
  revert p. induction ct as [|c ct IH]; intros p Hct Hi Hs; simpl in *; [constructor|].
  apply Forall_cons in Hct as [Hc Hct]. rewrite <-app_assoc in Hi.
  apply Forall_cons in Hs as [Hsc Hs]. apply Forall_app; split.
  - rewrite (wf_node_summary _ _ Hc) in Hsc. by eapply Hfilter.
  - apply (IH (p ++ tree_items c)); [done|by rewrite <-app_assoc|done].
Qed.

Lemma measured_exact : filter_exact.
Proof.
  intros p q l Hi Hq _. apply measure_app; [done|]. rewrite Hi, app_assoc in Hvalid. by eapply valid_l.
Qed.

(** ** Forward *)
Section Forward.
Context (Hexact : filter_exact).

Lemma skip_children h p (ct : list tree) r :
  Forall (wf_node h) ct → tree_items root = p ++ flat_map tree_items ct ++ r →
  Forall (λ s, filter_node s = false) (summary <$> ct) →
  foldl dim_add (measure p) (summary <$> ct) = measure (p ++ flat_map tree_items ct).
Proof.
  revert p. induction ct as [|c ct IH]; intros p Hct Hi Hs; simpl in *; [by rewrite app_nil_r|].
  apply Forall_cons in Hct as [Hc Hct]. rewrite <-app_assoc in Hi. apply Forall_cons in Hs as [Hsc Hs].
  rewrite (wf_node_summary _ _ Hc) in Hsc |- *. rewrite (Hexact p _ _ Hi (wf_node_items _ _ Hc) Hsc).
  rewrite IH; [by rewrite app_assoc|done|by rewrite <-app_assoc|done].
Qed.

(** The loop is at the split [p ++ l]. *)
Definition forward_at (x : list entry * D * bool) (p l : list T) : Prop :=
  let '(st, pos, descend) := x in
  seek_at root hr (λ _ (_ : unit), True) [] (st, pos, tt, negb descend) p l.

Definition forward_weight (x : list entry * D * bool) : nat :=
  let '(st, pos, descend) := x in seek_weight (st, pos, tt, negb descend).

(** It leaves at the next accepted item, or at the end. *)
Definition forward_done (p l : list T) (x : list entry * D) : Prop :=
  ∃ q l', l = q ++ l' ∧ rejected q ∧ accepted_head l' ∧
    x.2 = measure (p ++ q) ∧ stack_at root hr x.1 (p ++ q) l'.

Lemma forward_step_internal e rest pos descend p l h :
  forward_at (e :: rest, pos, descend) p l → wf_node (S h) (e_tree e) →
  ∃ x q l', forward_step filter_node (e :: rest, pos, descend) = Ret (inl x) ∧
    l = q ++ l' ∧ rejected q ∧ forward_at x (p ++ q) l' ∧
    forward_weight x < forward_weight (e :: rest, pos, descend).
Proof.
  intros (-> & _ & p1 & r1 & h1 & Hp & Hat) Hwf. simpl in Hat.
  assert (h1 = S h) as ->.
  { eapply path_wf in Hp; [|done]. apply wf_node_height in Hp, Hwf. congruence. }
  destruct (wf_internal_inv _ _ Hwf) as (ct & Et & _ & _ & Hct).
  pose proof (path_items _ _ _ _ _ _ _ Hp) as Hi.
  rewrite Et in Hat, Hi. simpl in Hat, Hi.
  set (k := if negb descend then S (e_index e) else e_index e) in *.
  destruct Hat as (Hk & Hpp & -> & Hpos).
  simpl forward_step. rewrite Et.
  assert ((if descend then (e_index e, e_position e) else (e_index e + 1, measure p))
    = (k, measure p)) as ->.
  { unfold k. destruct descend; simpl in *; [by rewrite Hpos|by rewrite Nat.add_1_r]. }
  rewrite <-fmap_drop.
  destruct (skip_filtered_spec k (measure p) (measure p) (summary <$> drop k ct))
    as (s & cs' & Hs & Hrej & -> & Hh).
  apply fmap_app_inv in Hs as (s1 & ct' & -> & -> & Hd).
  assert (tree_items root = p ++ flat_map tree_items s1 ++ flat_map tree_items ct' ++ r1) as Hi'.
  { rewrite Hi, <-(take_drop k ct), Hpp, Hd, !flat_map_app. by rewrite <-!app_assoc. }
  assert (Forall (wf_node h) (s1 ++ ct')) as [Hs1 _]%Forall_app by (rewrite <-Hd; by apply Forall_drop).
  rewrite (skip_children h p s1 _ Hs1 Hi' Hrej), length_fmap.
  destruct (split_drop _ _ _ _ Hd) as [Htk Hdk]. set (i := k + length s1) in *.
  assert (p ++ flat_map tree_items s1 = p1 ++ flat_map tree_items (take i ct)) as Hq.
  { by rewrite Htk, flat_map_app, Hpp, app_assoc. }
  set (q := p ++ flat_map tree_items s1) in *.
  assert (flat_map tree_items (drop k ct) ++ r1
    = flat_map tree_items s1 ++ flat_map tree_items ct' ++ r1) as Hl.
  { by rewrite Hd, flat_map_app, <-app_assoc. }
  simpl e_tree. destruct (ct !! i) as [c|] eqn:Hc.
  - destruct (seek_push root hr Hheight (λ _ (_ : unit), True) [] rest (MkEntry (e_tree e) i (measure q))
      (S h) (total (flat_map tree_items ct)) (summary <$> ct) ct c p1 r1 h q tt k)
      as (Hpush & Hat & Hw); simpl; [done|done|done|unfold i; lia|done|done|done|].
    rewrite app_nil_l in Hpush. rewrite <-Et, Hpush. simpl in Hat, Hw. rewrite Hdk in Hat.
    eexists _, (flat_map tree_items s1), _. split_and!; [reflexivity|done| |exact Hat|exact Hw].
    by eapply rejected_children.
  - assert (ct' = []) as ->. { rewrite <-Hdk. apply drop_ge. by apply lookup_ge_None. }
    destruct (seek_pop root hr Hheight (λ _ (_ : unit), True) [] rest (e_tree e) p1 r1 (S h) q tt
      (2 * list_sum (drop k (child_sizes (e_tree e))))) as [Hat Hw]; [done| |done|].
    { rewrite Et; simpl. rewrite Hq. f_equal. rewrite take_ge; [done|]. by apply lookup_ge_None. }
    eexists _, (flat_map tree_items s1), _. split_and!; [reflexivity|done| |exact Hat|exact Hw].
    by eapply rejected_children.
Qed.

Lemma forward_step_leaf e rest pos p l :
  forward_at (e :: rest, pos, true) p l → wf_node 0 (e_tree e) →
  (∃ x q l', forward_step filter_node (e :: rest, pos, true) = Ret (inl x) ∧
    l = q ++ l' ∧ rejected q ∧ forward_at x (p ++ q) l' ∧
    forward_weight x < forward_weight (e :: rest, pos, true)) ∨
  (∃ y, forward_step filter_node (e :: rest, pos, true) = Ret (inr y) ∧ forward_done p l y).
Proof.
  intros (-> & _ & p1 & r1 & h1 & Hp & Hat) Hwf. simpl in Hat.
  assert (h1 = 0) as ->.
  { eapply path_wf in Hp; [|done]. apply wf_node_height in Hp, Hwf. congruence. }
  destruct (wf_leaf_inv _ Hwf) as (lits & Et & Hne & Hcap).
  rewrite Et in Hat. simpl in Hat. set (k := e_index e) in *.
  destruct Hat as (Hk & -> & -> & _).
  simpl forward_step. rewrite Et. fold k. rewrite <-fmap_drop.
  destruct (skip_filtered_spec k (e_position e) (measure (p1 ++ take k lits)) (item_summary_of <$> drop k lits))
    as (s & cs' & Hs & Hrej & -> & Hh).
  apply fmap_app_inv in Hs as (s1 & l' & -> & -> & Hd).
  rewrite measure_items, length_fmap. apply Forall_fmap in Hrej.
  destruct (split_drop _ _ _ _ Hd) as [Htk Hdk]. set (i := k + length s1) in *.
  assert (drop k lits ++ r1 = s1 ++ l' ++ r1) as Hl by (by rewrite Hd, <-app_assoc).
  rewrite list_lookup_fmap. destruct (lits !! i) as [x|] eqn:Hx; simpl.
  - right. eexists. split; [reflexivity|].
    rewrite (drop_S _ _ _ Hx) in Hdk. subst l'. simpl in Hh.
    exists s1, (x :: drop (S i) lits ++ r1). split_and!; [done|done|done|done|].
    simpl. exists p1, r1. simpl. simpl. fold i.
    rewrite (drop_S _ _ _ Hx), Htk, app_assoc. split_and!; [by rewrite <-Et| |done|done].
    by eapply lookup_lt_Some.
  - left. apply lookup_ge_None in Hx. rewrite drop_ge in Hdk by done. subst l'.
    destruct (seek_pop root hr Hheight (λ _ (_ : unit), True) [] rest (e_tree e) p1 r1 0
      ((p1 ++ take k lits) ++ s1) tt
      (2 * list_sum (drop k (child_sizes (e_tree e))))) as [Hat Hw]; [done| |done|].
    { rewrite Et; simpl. rewrite <-app_assoc, <-Htk. by rewrite take_ge. }
    eexists _, s1, r1. by split_and!; [reflexivity|..].
Qed.

Lemma forward_loop st pos descend p l :
  forward_at (st, pos, descend) p l → (st = [] ∨ descend = true) →
  returns (loop (forward_step filter_node) (cursor_fuel root) (st, pos, descend)) (forward_done p l).
Proof.
  intros Hat Hd.
  apply (loop_returns _ (λ x, ∃ q l', l = q ++ l' ∧ rejected q ∧ forward_at x (p ++ q) l')
    forward_weight).
  - intros [[st' pos'] d'] (q & l' & -> & Hq & Hx). destruct st' as [|e rest].
    + right. eexists. split; [reflexivity|]. destruct Hx as (-> & _ & Hi & ->).
      exists q, []. by split_and!.
    + pose proof Hx as (_ & _ & p1 & r1 & h & Hp & Hk).
      destruct h as [|h].
      * assert (d' = true) as -> by (destruct d'; [done|]; by destruct Hk as (_ & _ & _ & ?)).
        destruct (forward_step_leaf e rest pos' (p ++ q) l' Hx)
          as [(x & q' & l'' & Hs & -> & Hq' & Hx' & Hw)|(y & Hs & q' & l'' & -> & Hq' & Hl & Hpos & Hst)];
          [by eapply path_wf|left|right].
        -- exists x. split_and!; [done| |done]. exists (q ++ q'), l''.
           rewrite !app_assoc in *. split_and!; [done|by apply Forall_app|done].
        -- exists y. split; [done|]. exists (q ++ q'), l''. rewrite !app_assoc in *.
           split_and!; [done|by apply Forall_app|done..].
      * left. destruct (forward_step_internal e rest pos' d' (p ++ q) l' h Hx)
          as (x & q' & l'' & Hs & -> & Hq' & Hx' & Hw); [by eapply path_wf|].
        exists x. split_and!; [done| |done]. exists (q ++ q'), l''.
        rewrite !app_assoc in *. split_and!; [done|by apply Forall_app|done].
  - exists [], l. rewrite app_nil_r. by split_and!; [|constructor|].
  - destruct Hd as [->| ->]; [unfold cursor_fuel; simpl; lia|]. by eapply seek_weight_fuel.
Qed.

End Forward.

(** ** Backward *)

Lemma measure_children h p (ct : list tree) r :
  Forall (wf_node h) ct → tree_items root = p ++ flat_map tree_items ct ++ r →
  foldl dim_add (measure p) (summary <$> ct) = measure (p ++ flat_map tree_items ct).
Proof.
  revert p. induction ct as [|c ct IH]; intros p Hct Hi; simpl in *; [by rewrite app_nil_r|].
  apply Forall_cons in Hct as [Hc Hct]. rewrite <-app_assoc in Hi.
  rewrite (measure_child _ Hvalid h c p _ Hc Hi).
  rewrite IH; [by rewrite app_assoc|done|by rewrite <-app_assoc].
Qed.


(** What is still to be searched, going left, are the items [p]. *)
Definition backward_at (x : list entry * D * bool) (p : list T) : Prop :=
  let '(st, pos, descending) := x in
  match st with
  | [] => p = [] ∧ pos = dim_zero
  | e :: rest => ∃ p1 r1 h, path root hr rest (e_tree e) p1 r1 h ∧
      let k := if descending then S (e_index e) else e_index e in
      k ≤ node_len (e_tree e) ∧ p = p1 ++ node_take (e_tree e) k
  end.

Definition backward_weight (x : list entry * D * bool) : nat :=
  let '(st, pos, descending) := x in
  match st with
  | [] => 0
  | e :: rest =>
      S (2 * list_sum (take (if descending then S (e_index e) else e_index e)
                         (child_sizes (e_tree e)))) + weight_left rest
  end.

(** It leaves at the last accepted item of [p], or before the first item. *)
Definition backward_done (p : list T) (x : list entry * D) : Prop :=
  (x.1 = [] ∧ x.2 = dim_zero ∧ rejected p) ∨
  (∃ p' y q, p = p' ++ y :: q ∧ rejected q ∧ accepts y = true ∧
     x.1 ≠ [] ∧ x.2 = measure p' ∧
     ∀ l, tree_items root = p ++ l → stack_at root hr x.1 p' (y :: q ++ l)).

Lemma backward_pop e rest pos pos' p :
  backward_at (e :: rest, pos, false) p → e_index e = 0 →
  pos' = match rest with e2 :: _ => e_position e2 | [] => dim_zero end →
  backward_at (rest, pos', false) p ∧
  backward_weight (rest, pos', false) < backward_weight (e :: rest, pos, false).
Proof.
  intros (p1 & r1 & h & Hp & _ & ->) E ->. rewrite E, node_take_0, app_nil_r.
  pose proof (path_pop root hr Hheight _ _ _ _ _ Hp) as Hpop. split.
  - destruct rest as [|e2 rest]; simpl; [by destruct Hpop as (-> & _)|].
    destruct Hpop as (p2 & r2 & Hp2 & Hk & -> & _). exists p2, r2, (S h).
    by split_and!; [|lia|].
  - simpl. rewrite E. simpl. destruct rest; simpl; [lia|]. rewrite weight_left_cons. lia.
Qed.

(** The position the code recomputes for the child at [index]. *)
Lemma node_position rest t p1 r1 h k pos :
  path root hr rest t p1 r1 h → k ≤ node_len t →
  pos = match rest with e2 :: _ => e_position e2 | [] => dim_zero end →
  foldl dim_add pos (take k (child_summaries t)) = measure (p1 ++ node_take t k) ∧
  length (child_summaries t) = node_len t.
Proof.
  intros Hp Hk ->. rewrite (path_start _ _ _ _ _ _ _ Hp).
  pose proof (path_wf _ _ Hroot _ _ _ _ _ Hp) as Hwf.
  pose proof (path_items _ _ _ _ _ _ _ Hp) as Hi. destruct h as [|h].
  - destruct (wf_leaf_inv _ Hwf) as (lits & -> & _). simpl. rewrite length_fmap.
    by rewrite <-fmap_take, measure_items.
  - destruct (wf_internal_inv _ _ Hwf) as (ct & -> & _ & _ & Hct). simpl in *.
    rewrite length_fmap, <-fmap_take. split; [|done].
    eapply (measure_children h); [by apply Forall_take|].
    rewrite Hi, <-(take_drop k ct) at 1. by rewrite flat_map_app, <-app_assoc.
Qed.

Lemma child_items_lookup t h k :
  wf_node h t → k < node_len t →
  ∃ q s, child_summaries t !! k = Some s ∧ node_take t (S k) = node_take t k ++ q ∧
    (∃ n, child_sizes t !! k = Some (S n)) ∧
    (filter_node s = false → ∀ p r, tree_items root = p ++ q ++ r → rejected q) ∧
    match t with
    | Internal _ _ _ ct => ∃ c, ct !! k = Some c ∧ q = tree_items c
    | Leaf _ its _ => ∃ x, its !! k = Some x ∧ q = [x] ∧ s = item_summary_of x
    end.
Proof.
  intros Hwf Hk. destruct h as [|h].
  - destruct (wf_leaf_inv _ Hwf) as (lits & -> & _). simpl in *.
    destruct (lookup_lt_is_Some_2 lits k) as [x Hx]; [done|]. exists [x], (item_summary_of x).
    rewrite list_lookup_fmap, Hx, (take_S_r _ _ _ Hx). split_and!; [done|done| | |by exists x].
    + exists 0. change (map (λ _, 1) lits) with ((λ _ : T, 1) <$> lits).
      by rewrite list_lookup_fmap, Hx.
    + intros Hs _ _ _. by constructor.
  - destruct (wf_internal_inv _ _ Hwf) as (ct & -> & _ & _ & Hct). simpl in *.
    destruct (lookup_lt_is_Some_2 ct k) as [c Hc]; [done|]. exists (tree_items c), (summary c).
    rewrite list_lookup_fmap, Hc, (take_S_r _ _ _ Hc), flat_map_app. simpl.
    rewrite app_nil_r. rewrite Forall_lookup in Hct. split_and!; [done|done| | |by exists c].
    + exists (list_sum (child_sizes c)). rewrite <-tree_size_children.
      change (map tree_size ct) with (tree_size <$> ct). by rewrite list_lookup_fmap, Hc.
    + rewrite (wf_node_summary _ _ (Hct _ _ Hc)). intros Hs p r Hi. by eapply Hfilter.
Qed.

(** Going down into the last child of the child at an entry's index. *)
Lemma backward_push e rest hh s cs ct c p1 r1 h pos :
  path root hr rest (e_tree e) p1 r1 (S h) → e_tree e = Internal hh s cs ct →
  ct !! e_index e = Some c → e_position e = measure (p1 ++ node_take (e_tree e) (e_index e)) →
  ∃ last_index x, usub (length (child_summaries c)) 1 = Ret last_index ∧
    x = MkEntry c last_index dim_zero :: e :: rest ∧
    stack_push (e :: rest) (MkEntry c last_index dim_zero) = Ret x ∧
    backward_at (x, pos, true) (p1 ++ node_take (e_tree e) (S (e_index e))) ∧
    backward_weight (x, pos, true)
      < S (2 * list_sum (take (S (e_index e)) (child_sizes (e_tree e)))) + weight_left rest.
Proof.
  intros Hp Et Hc Hpos. rewrite Et in Hpos. simpl in Hpos.
  pose proof (path_child root hr rest e ct c p1 r1 h _ _ _ Hp Et Hc Hpos) as Hpc.
  pose proof (path_wf _ _ Hroot _ _ _ _ _ Hpc) as Hwc.
  assert (length (child_summaries c) = node_len c ∧ 0 < node_len c) as [Hlen Hpos'].
  { destruct (node_position _ _ _ _ _ 0 _ Hpc (Nat.le_0_l _) eq_refl) as [_ ->]. split; [done|].
    pose proof (wf_node_items _ _ Hwc). destruct (node_len c) eqn:E; [|lia].
    rewrite <-(node_take_all c 0), node_take_0 in *; by rewrite ?E. }
  exists (node_len c - 1). eexists.
  split_and!; [|reflexivity|by eapply stack_push_ok| |].
  - unfold usub. rewrite Hlen. by destruct (Nat.ltb_spec (node_len c) 1); [lia|].
  - eexists _, _, h. split; [exact Hpc|]. simpl e_tree. simpl e_index. cbv zeta iota.
    split; [lia|]. rewrite (node_take_all c), Et by lia. simpl node_take.
    by rewrite (take_S_r _ _ _ Hc), flat_map_app, <-app_assoc; simpl; rewrite app_nil_r.
  - unfold backward_weight. rewrite weight_left_cons. simpl e_tree. simpl e_index.
    rewrite take_ge by (rewrite length_child_sizes; lia).
    assert (child_sizes (e_tree e) !! e_index e = Some (tree_size c)) as Hsz.
    { rewrite Et; simpl. change (map tree_size ct) with (tree_size <$> ct).
      by rewrite list_lookup_fmap, Hc. }
    rewrite (list_sum_take _ _ _ Hsz), (tree_size_children c). lia.
Qed.

(** A round that looks at the child at index [k]. *)
Lemma backward_round e rest pos (descending : bool) p p1 r1 h k :
  path root hr rest (e_tree e) p1 r1 h →
  S k = (if descending then S (e_index e) else e_index e) → k < node_len (e_tree e) →
  p = p1 ++ node_take (e_tree e) (S k) →
  (∃ x p' q, backward_step filter_node (e :: rest, pos, descending) = Ret (inl x) ∧
    p = p' ++ q ∧ rejected q ∧ backward_at x p' ∧
    backward_weight x < backward_weight (e :: rest, pos, descending)) ∨
  (∃ y, backward_step filter_node (e :: rest, pos, descending) = Ret (inr y) ∧ backward_done p y).
Proof.
  intros Hp Hk Hlt ->. pose proof (path_wf _ _ Hroot _ _ _ _ _ Hp) as Hwf.
  pose proof (path_items _ _ _ _ _ _ _ Hp) as Hi.
  destruct (node_position _ _ _ _ _ k _ Hp (Nat.lt_le_incl _ _ Hlt) eq_refl) as [Hpos Hlen].
  destruct (child_items_lookup _ _ _ Hwf Hlt) as (q & s & Hs & Htk & (n & Hsz) & Hrej & Hq).
  simpl backward_step.
  replace (negb descending && (e_index e =? 0)) with false by (destruct descending, (e_index e); done).
  replace (if descending then e_index e else e_index e - 1) with k by (destruct descending; lia).
  replace (length (child_summaries (e_tree e)) <? k) with false by (symmetry; apply Nat.ltb_ge; lia).
  rewrite Hpos, Hs. simpl unwrap. cbv iota.
  assert (tree_items root = (p1 ++ node_take (e_tree e) k) ++ q ++ node_drop (e_tree e) (S k) ++ r1) as Hi'.
  { rewrite Hi, <-(node_take_drop (e_tree e) (S k)) at 1. rewrite Htk. by rewrite <-!app_assoc. }
  pose proof (list_sum_take _ _ _ Hsz) as Hsum.
  destruct (filter_node s) eqn:Ef.
  - set (e' := MkEntry (e_tree e) k (measure (p1 ++ node_take (e_tree e) k)) : entry).
    destruct (e_tree e) as [hh s' cs ct|s' its cs] eqn:Et.
    + left. destruct Hq as (c & Hc & ->). assert (∃ h', h = S h') as [h' ->] by (inversion Hwf; eauto).
      destruct (backward_push e' rest hh s' cs ct c p1 r1 h' (measure (p1 ++ node_take (e_tree e') k)))
        as (i & x & Hi1 & -> & Hpush & Hat & Hw); [done..|].
      simpl in Hc, Hi1. simpl e_tree. rewrite Hc. simpl unwrap. cbv iota. rewrite Hi1. fold e'.
      rewrite Hpush. eexists _, _, []. rewrite app_nil_r.
      split_and!; [reflexivity|reflexivity|constructor|exact Hat|].
      unfold backward_weight at 2. rewrite <-Hk, Et. exact Hw.
    + right. destruct Hq as (x & Hx & -> & ->). eexists. split; [reflexivity|]. right.
      exists (p1 ++ take k its), x, []. simpl in *.
      split_and!; [by rewrite Htk, app_assoc|constructor|done|done|done|].
      intros l Hl. exists p1, r1. simpl. split_and!; [|done|done|].
      { inversion Hwf; subst; done. }
      rewrite (drop_S _ _ _ Hx). simpl. f_equal. rewrite Hl, Htk, <-!app_assoc in Hi'.
      do 2 apply app_inv_head in Hi'. by simplify_eq/=.
  - left. exists (MkEntry (e_tree e) k (measure (p1 ++ node_take (e_tree e) k)) :: rest,
      measure (p1 ++ node_take (e_tree e) k), false), (p1 ++ node_take (e_tree e) k), q.
    split_and!; [by destruct (e_tree e)|by rewrite Htk, app_assoc|by eapply Hrej| |].
    + exists p1, r1, h. simpl. by split_and!; [|lia|].
    + simpl. rewrite <-Hk. lia.
Qed.

Lemma backward_step_spec x p :
  backward_at x p →
  (∃ x' p' q, backward_step filter_node x = Ret (inl x') ∧ p = p' ++ q ∧ rejected q ∧
     backward_at x' p' ∧ backward_weight x' < backward_weight x) ∨
  (∃ y, backward_step filter_node x = Ret (inr y) ∧ backward_done p y).
Proof.
  destruct x as [[[|e rest] pos] d]; intros Hx.
  - right. destruct Hx as [-> ->]. eexists. split; [reflexivity|]. left. by split_and!; [..|constructor].
  - pose proof Hx as (p1 & r1 & h & Hp & Hk & Hpp).
    destruct (decide (d = false ∧ e_index e = 0)) as [[-> E]|Hne].
    + left. edestruct backward_pop as [Hat Hw]; [exact Hx|done|reflexivity|].
      eexists _, p, []. rewrite app_nil_r. simpl backward_step. rewrite E; simpl.
      split_and!; [reflexivity|done|constructor|exact Hat|exact Hw].
    + eapply (backward_round e rest pos d p p1 r1 h (if d then e_index e else e_index e - 1));
        [done|destruct d; simpl; lia || (destruct (e_index e); [tauto|lia])|destruct d; lia|].
      rewrite Hpp. do 2 f_equal. destruct d; [done|]. destruct (e_index e); [tauto|lia].
Qed.

Lemma backward_done_app p q y : backward_done p y → rejected q → backward_done (p ++ q) y.
Proof.
  intros [(Hn & Hz & Hp)|(p' & z & q' & -> & Hq' & Hz & Hn & Hpos & Hst)] Hq.
  - left. split_and!; [done|done|by apply Forall_app].
  - right. exists p', z, (q' ++ q). rewrite <-app_assoc. split_and!; [done|by apply Forall_app|done..|].
    intros l Hl. rewrite <-app_assoc. apply Hst. by rewrite Hl, <-!app_assoc.
Qed.

Lemma backward_loop st pos p :
  backward_at (st, pos, false) p →
  returns (loop (backward_step filter_node) (cursor_fuel root) (st, pos, false)) (backward_done p).
Proof.
  intros Hat.
  apply (loop_returns _ (λ x, ∃ p' q, p = p' ++ q ∧ rejected q ∧ backward_at x p') backward_weight).
  - intros x (p' & q & -> & Hq & Hx).
    destruct (backward_step_spec x p' Hx) as [(x' & p'' & q' & Hs & -> & Hq' & Hx' & Hw)|(y & Hs & Hd)].
    + left. exists x'. split_and!; [done| |done]. exists p'', (q' ++ q). rewrite <-app_assoc.
      split_and!; [done|by apply Forall_app|done].
    + right. exists y. split; [done|]. by apply backward_done_app.
  - exists p, []. rewrite app_nil_r. by split_and!; [|constructor|].
  - unfold cursor_fuel. destruct st as [|e rest]; simpl; [lia|].
    destruct Hat as (p1 & r1 & h & Hp & _).
    destruct (path_weight _ _ _ _ _ _ _ Hp) as [_ Hw].
    rewrite (tree_size_children (e_tree e)) in Hw.
    pose proof (list_sum_take_drop (child_sizes (e_tree e)) (e_index e)). lia.
Qed.
End Move.

(** ** The cursor operations *)
Section MoveOps.
Context {T Sm D : Type} `{MeasureLaws D T Sm}.
Abbreviation tree := (SumTree T Sm).
Abbreviation cursor := (Cursor T Sm D).
Context (t : tree) (Hwf : wf t) (Hvalid : valid (tree_items t)) (Hheight : height t < STACK_CAP).
Implicit Types c : cursor.

(** Before the first item, where moving back beyond it leaves the cursor. *)
Definition before_begin c : Prop :=
  c_tree c = t ∧ c_stack c = [] ∧ c_position c = dim_zero ∧ c_at_end c = is_empty t.

Lemma before_begin_new : before_begin (cursor_new t).
Proof. done. Qed.

Lemma wf_root : is_empty t = false → wf_node (height t) t.
Proof. destruct Hwf as [->|[h Ht]]; [done|]. by rewrite (wf_node_height _ _ Ht). Qed.

Section Filter.
Context (filter_node : Sm → bool) (Hfilter : filter_sound t filter_node).
Section Forward.
Context (Hexact : filter_exact (D:=D) t filter_node).

(** [c'] is at the first accepted item of [l], which follows [p], or at the end. *)
Definition moved_forward (p l : list T) c' : Prop :=
  ∃ q l', l = q ++ l' ∧ rejected filter_node q ∧ accepted_head filter_node l' ∧
    cursor_at t c' (p ++ q) l'.

Lemma search_forward_begin c :
  before_begin c → returns (search_forward filter_node c) (moved_forward [] (tree_items t)).
Proof.
  intros (Ht & Hs & Hpos & Hend). unfold search_forward. rewrite Hs, Hend, Ht, Hpos.
  destruct (is_empty t) eqn:E; simpl negb; cbv iota.
  - apply returns_Ret. exists [], []. rewrite is_empty_items by done.
    split_and!; try done; [constructor|]. split_and!; try done. simpl. by rewrite is_empty_items.
  - change (stack_push [] (MkEntry t 0 dim_zero)) with (Ret [MkEntry t 0 (dim_zero (D:=D))]). cbv iota.
    destruct (forward_loop t (height t) (wf_root E) Hheight filter_node Hfilter Hexact
      [MkEntry t 0 dim_zero] dim_zero true [] (tree_items t)) as ([st pos] & Hl & Hd).
    { split; [done|]. split; [by exists []|]. exists [], [], (height t). simpl.
      rewrite node_take_0, node_drop_0, app_nil_r. split_and!; [constructor|lia|done..]. }
    { by right. }
    rewrite Hl. apply returns_Ret. destruct Hd as (q & l' & ? & ? & ? & ? & ?).
    exists q, l'. by split_and!.
Qed.

Lemma search_forward_end c :
  cursor_at t c (tree_items t) [] → c_stack c = [] → search_forward filter_node c = Ret c.
Proof.
  intros (Ht & Hs & Hpos & Hend & Hst) E. destruct c as [ct st pos ds ae]; simpl in *. subst.
  done.
Qed.

Lemma search_forward_at c p x l :
  cursor_at t c p (x :: l) → returns (search_forward filter_node c) (moved_forward (p ++ [x]) l).
Proof.
  intros Hc. pose proof Hc as (Ht & Hs & Hpos & Hend & Hst).
  destruct (c_stack c) as [|e rest] eqn:E; [by destruct Hst|].
  destruct (cursor_at_leaf _ Hwf Hheight _ _ _ _ _ Hc E) as (p1 & lits & r1 & Et & Hp & Hk & -> & Hl).
  assert (lits !! e_index e = Some x ∧ l = drop (S (e_index e)) lits ++ r1) as [Hx ->].
  { destruct (lookup_lt_is_Some_2 lits (e_index e)) as [y Hy]; [done|].
    rewrite (drop_S _ _ _ Hy) in Hl. simpl in Hl. by simplify_eq. }
  set (s := MkEntry (e_tree e) (e_index e + 1) (dim_add (e_position e) (item_summary_of x))).
  unfold search_forward. rewrite E, Ht, Hs, Hend, Hpos.
  assert (forward_step filter_node (e :: rest, measure (p1 ++ take (e_index e) lits), false)
    = forward_step filter_node (s :: rest, measure ((p1 ++ take (e_index e) lits) ++ [x]), true))
    as Hfirst.
  { simpl. rewrite Et, list_lookup_fmap, Hx. simpl. by rewrite measure_snoc. }
  destruct (forward_loop t (height t) (cursor_at_wf _ Hwf Hheight _ _ _ Hc ltac:(by rewrite E)) Hheight
    filter_node Hfilter Hexact (s :: rest) (measure ((p1 ++ take (e_index e) lits) ++ [x])) true
    ((p1 ++ take (e_index e) lits) ++ [x]) (drop (S (e_index e)) lits ++ r1))
    as ([st pos] & Hloop & Hd).
  { split; [done|]. split; [by eexists|]. exists p1, r1, 0. simpl. rewrite Et. simpl.
    rewrite Nat.add_1_r, (take_S_r _ _ _ Hx), app_assoc.
    split_and!; [by rewrite <-Et|lia|done..]. }
  { by right. }
  cbv iota zeta. rewrite (loop_body_eq _ _ _ _ Hfirst), Hloop.
  apply returns_Ret. destruct Hd as (q & l' & ? & ? & ? & ? & ?).
  exists q, l'. by split_and!.
Qed.

End Forward.

(** [c'] is at the last accepted item of [p], which [l] follows, or before the first item. *)
Definition moved_backward (p l : list T) c' : Prop :=
  (before_begin c' ∧ c_did_seek c' = true ∧ rejected filter_node p) ∨
  (∃ p' y q, p = p' ++ y :: q ∧ rejected filter_node q ∧ accepts filter_node y = true ∧
     cursor_at t c' p' (y :: q ++ l)).

Lemma backward_done_moved st pos p l :
  is_empty t = false → tree_items t = p ++ l → backward_done t (height t) filter_node p (st, pos) →
  moved_backward p l (MkCursor t st pos true false).
Proof.
  intros He Hi [(Hs & Hz & Hr)|(p' & y & q & -> & Hq & Hy & Hne & Hpos & Hst)]; simpl in *.
  - left. by split_and!.
  - right. exists p', y, q. split_and!; try done.
    split_and!; try done; simpl; [by destruct st|by apply Hst].
Qed.

Lemma search_backward_end c :
  c_tree c = t → c_stack c = [] → (c_did_seek c = true → c_at_end c = true) →
  returns (search_backward filter_node c) (moved_backward (tree_items t) []).
Proof.
  intros Ht Hs Hend. unfold search_backward. rewrite Ht, Hs.
  replace (if c_did_seek c then c_at_end c else true) with true by (destruct (c_did_seek c); [by rewrite Hend|done]).
  destruct (is_empty t) eqn:E; cbv iota.
  - apply returns_Ret. left. rewrite is_empty_items by done. split_and!; [by split_and!|done|constructor].
  - unfold stack_push. simpl length.
    change (0 <? STACK_CAP) with true. cbv iota.
    destruct (backward_loop t (height t) (wf_root E) Hvalid Hheight filter_node Hfilter
      [MkEntry t (length (child_summaries t)) (from_summary_dim (summary t))] dim_zero (tree_items t))
      as ([st pos] & -> & Hd).
    { exists [], [], (height t). simpl.
      destruct (node_position t (height t) (wf_root E) Hvalid [] t [] [] (height t) 0 dim_zero)
        as [_ ->]; [constructor|lia|done|]. split_and!; [constructor|done|].
      by rewrite node_take_all. }
    apply returns_Ret. apply backward_done_moved; [done|by rewrite app_nil_r|done].
Qed.

Lemma search_backward_at c p l :
  cursor_at t c p l → c_stack c ≠ [] →
  returns (search_backward filter_node c) (moved_backward p l).
Proof.
  intros Hc Hne. pose proof Hc as (Ht & Hs & Hpos & Hend & Hst).
  pose proof (cursor_at_wf _ Hwf Hheight _ _ _ Hc Hne) as Hroot.
  unfold search_backward. rewrite Ht, Hs, Hend.
  destruct (c_stack c) as [|e rest] eqn:E; [done|]. cbv iota.
  destruct (backward_loop t (height t) Hroot Hvalid Hheight filter_node Hfilter
    (e :: rest) (c_position c) p) as ([st pos] & -> & Hd).
  { destruct Hst as (p1 & r1 & Hp & Hk & -> & _). exists p1, r1, 0. simpl. by split_and!; [|lia|]. }
  apply returns_Ret. apply backward_done_moved; [|by eapply cursor_at_items|done].
  destruct (is_empty t) eqn:E'; [|done]. apply is_empty_items in E'.
  by apply wf_node_items in Hroot.
Qed.
End Filter.
End MoveOps.
