(* ===== verification/CursorIter.v ===== *)
(** * Stepping and iterating: [next], [prev], [next_item], [prev_item], [Iter], [items] *)
From stdpp Require Import base numbers option list.
From Stdlib Require Import Lia.
From S2P Require Import Prelude SumTree SumTreeFacts SumTreeBulk Cursor CursorFacts CursorSeek CursorMove.
#[local] Opaque TREE_BASE av_cap.

Section Step.
Context {T Sm D : Type} `{MeasureLaws D T Sm}.
Abbreviation tree := (SumTree T Sm).
Abbreviation cursor := (Cursor T Sm D).
Context (t : tree) (Hwf : wf t) (Hvalid : valid (tree_items t)) (Hheight : height t < STACK_CAP).
Implicit Types c : cursor.

Lemma filter_all_exact : filter_exact (D:=D) t (λ _, true).
Proof. by intros p q l _ _ [=]. Qed.
Lemma filter_all_sound : filter_sound t (λ _, true).
Proof. intros l1 q l2 _ [=]. Qed.

Lemma rejected_all (q : list T) : rejected (λ _ : Sm, true) q → q = [].
Proof. destruct q; [done|]. by intros [[=] _]%Forall_cons. Qed.

Lemma moved_forward_all (p l : list T) c : moved_forward t (λ _, true) p l c → cursor_at t c p l.
Proof.
  intros (q & l' & -> & ->%rejected_all & _ & Hc). by rewrite app_nil_r in Hc.
Qed.

Lemma next_begin c : before_begin t c → returns (next c) (λ c', cursor_at t c' [] (tree_items t)).
Proof.
  intros Hc. eapply returns_mono; [|apply moved_forward_all].
  by apply search_forward_begin; [..|apply filter_all_sound|apply filter_all_exact|].
Qed.

Lemma next_at c p l :
  cursor_at t c p l → returns (next c) (λ c', cursor_at t c' (p ++ take 1 l) (drop 1 l)).
Proof.
  intros Hc. destruct l as [|x l]; simpl.
  - rewrite app_nil_r. assert (c_stack c = [] ∧ p = tree_items t) as [Hs ->].
    { split; [|by rewrite (cursor_at_items _ _ _ _ Hc), app_nil_r].
      destruct (c_stack c) as [|e rest] eqn:E; [done|].
      destruct (cursor_at_leaf _ Hwf Hheight _ _ _ _ _ Hc E) as (p1 & lits & r1 & _ & _ & Hk & _ & Hl).
      destruct (lookup_lt_is_Some_2 lits (e_index e)) as [y Hy]; [done|].
      by rewrite (drop_S _ _ _ Hy) in Hl. }
    unfold next. rewrite search_forward_end with (t := t) by done. auto with outcomes.
  - rewrite drop_0. eapply returns_mono; [|apply moved_forward_all].
    by eapply search_forward_at; [..|apply filter_all_sound|apply filter_all_exact|].
Qed.

(** After [prev] from the split [p ++ l]. *)
Definition stepped_back (p l : list T) c' : Prop :=
  match last p with
  | None => before_begin t c' ∧ c_did_seek c' = true
  | Some x => cursor_at t c' (removelast p) (x :: l)
  end.

Lemma moved_backward_all (p l : list T) c : moved_backward t (λ _, true) p l c → stepped_back p l c.
Proof.
  unfold stepped_back. intros [(Hc & Hs & ->%rejected_all)|(p' & y & q & -> & ->%rejected_all & _ & Hc)]; [done|].
  by rewrite last_snoc, removelast_last.
Qed.

Lemma prev_at c p l : cursor_at t c p l → returns (prev c) (stepped_back p l).
Proof.
  intros Hc. eapply returns_mono; [|apply moved_backward_all].
  destruct (decide (c_stack c = [])) as [E|E].
  - pose proof Hc as (Ht & Hs & _ & Hend & Hst). rewrite E in Hend, Hst. destruct Hst as [-> ->].
    by apply search_backward_end; [..|apply filter_all_sound|done|done|intros _].
  - by apply search_backward_at; [..|apply filter_all_sound| |].
Qed.

Lemma prev_new : returns (prev (cursor_new t)) (stepped_back (tree_items t) []).
Proof.
  eapply returns_mono; [|apply moved_backward_all].
  by apply search_backward_end; [..|apply filter_all_sound|done|done|].
Qed.

(** The leaves next to a node. *)
Lemma next_leaf_spec rest n p r h :
  wf_node (height t) t → path t (height t) rest n p r h →
  returns (next_leaf (D:=D) rest) (λ o,
    match o with
    | None => r = []
    | Some l => wf_node 0 l ∧ head (tree_items l) = head r
    end).
Proof.
  intros Hroot. induction 1 as [|st e ct c p r h hh s cs Hp IH He Hc Hpos]; [by apply returns_Ret|].
  pose proof (path_wf _ _ Hroot _ _ _ _ _ Hp) as Hw. simpl. rewrite He in Hw |- *. simpl.
  destruct (wf_internal_inv _ _ Hw) as (ct' & E & _ & _ & Hct). simplify_eq.
  pose proof (lookup_lt_Some _ _ _ Hc) as Hlt. unfold usub.
  destruct (Nat.ltb_spec (length ct') 1); [lia|].
  destruct (Nat.ltb_spec (e_index e) (length ct' - 1)).
  - destruct (lookup_lt_is_Some_2 ct' (S (e_index e))) as [d Hd]; [lia|].
    rewrite Nat.add_1_r, Hd. simpl. rewrite Forall_lookup in Hct.
    destruct (leftmost_leaf_spec h d) as (l & -> & Hl & Hh); [by eapply Hct|].
    apply returns_Ret. split; [done|]. rewrite (flat_map_lookup ct' _ d) by done.
    rewrite <-app_assoc, head_app_nonnil; [done|]. eapply wf_node_items. by eapply Hct.
  - rewrite (drop_ge ct') by lia. exact IH.
Qed.

Lemma prev_leaf_spec rest n p r h :
  wf_node (height t) t → path t (height t) rest n p r h →
  returns (prev_leaf (D:=D) rest) (λ o,
    match o with
    | None => p = []
    | Some l => wf_node 0 l ∧ last (tree_items l) = last p
    end).
Proof.
  intros Hroot. induction 1 as [|st e ct c p r h hh s cs Hp IH He Hc Hpos]; [by apply returns_Ret|].
  pose proof (path_wf _ _ Hroot _ _ _ _ _ Hp) as Hw. simpl. rewrite He in Hw |- *. simpl.
  destruct (wf_internal_inv _ _ Hw) as (ct' & E & _ & _ & Hct). simplify_eq.
  pose proof (lookup_lt_Some _ _ _ Hc) as Hlt.
  destruct (Nat.eqb_spec (e_index e) 0) as [E|E]; simpl.
  - rewrite E, take_0. simpl. rewrite app_nil_r. exact IH.
  - destruct (lookup_lt_is_Some_2 ct' (e_index e - 1)) as [d Hd]; [lia|].
    rewrite Hd. simpl. rewrite Forall_lookup in Hct.
    destruct (rightmost_leaf_spec h d) as (l & -> & Hl & Hh); [by eapply Hct|].
    apply returns_Ret. split; [done|]. replace (e_index e) with (S (e_index e - 1)) by lia.
    rewrite (take_S_r _ _ _ Hd), flat_map_app. simpl.
    rewrite app_nil_r, app_assoc, last_app_nonnil; [done|]. eapply wf_node_items. by eapply Hct.
Qed.

Lemma next_item_at c p x l : cursor_at t c p (x :: l) → next_item c = Ret (head l).
Proof.
  intros Hc. pose proof Hc as (_ & Hs & _ & _ & Hst). unfold next_item, assert_did_seek. rewrite Hs.
  simpl. destruct (c_stack c) as [|e rest] eqn:E; [by destruct Hst|].
  destruct (cursor_at_leaf _ Hwf Hheight _ _ _ _ _ Hc E) as (p1 & lits & r1 & Et & Hp & Hk & _ & Hl).
  destruct (lookup_lt_is_Some_2 lits (e_index e)) as [y Hy]; [done|].
  rewrite (drop_S _ _ _ Hy) in Hl. simplify_eq/=. rewrite Et. simpl. unfold usub.
  destruct (Nat.ltb_spec (length lits) 1); [lia|].
  destruct (Nat.eqb_spec (e_index e) (length lits - 1)) as [Ei|Ei].
  - rewrite drop_ge by lia. simpl.
    destruct (next_leaf_spec rest (e_tree e) p1 r1 0) as ([n|] & -> & Hn);
      [eapply cursor_at_wf; try done; by rewrite E|done| |].
    + destruct Hn as [Hn <-]. destruct (wf_leaf_inv _ Hn) as (l' & -> & Hne & _). simpl.
      by destruct l'.
    + by rewrite Hn.
  - destruct (lookup_lt_is_Some_2 lits (S (e_index e))) as [z Hz]; [lia|].
    by rewrite Nat.add_1_r, Hz, (drop_S _ _ _ Hz).
Qed.

Lemma prev_item_at c p l : cursor_at t c p l → prev_item c = Ret (last p).
Proof.
  intros Hc. pose proof Hc as (Ht & Hs & _ & Hend & Hst). unfold prev_item, assert_did_seek. rewrite Hs.
  simpl. destruct (c_stack c) as [|e rest] eqn:E.
  { destruct Hst as [-> ->]. rewrite Hend, Ht. by apply last_item_wf. }
  destruct (cursor_at_leaf _ Hwf Hheight _ _ _ _ _ Hc E) as (p1 & lits & r1 & Et & Hp & Hk & -> & Hl).
  rewrite Et. simpl. destruct (Nat.eqb_spec (e_index e) 0) as [Ei|Ei].
  - rewrite Ei, take_0, app_nil_r.
    destruct (prev_leaf_spec rest (e_tree e) p1 r1 0) as ([n|] & -> & Hn);
      [eapply cursor_at_wf; try done; by rewrite E|done| |].
    + destruct Hn as [Hn <-]. destruct (wf_leaf_inv _ Hn) as (l' & -> & Hne & _). simpl.
      destruct (last l') eqn:El; [done|]. by apply last_None in El.
    + by rewrite Hn.
  - destruct (lookup_lt_is_Some_2 lits (e_index e - 1)) as [z Hz]; [lia|].
    rewrite Hz. simpl. replace (e_index e) with (S (e_index e - 1)) by lia.
    by rewrite (take_S_r _ _ _ Hz), app_assoc, last_snoc.
Qed.

Lemma next_item_begin c : before_begin t c → c_did_seek c = true → next_item c = Ret (head (tree_items t)).
Proof.
  intros (Ht & Hs & _ & Hend) Hd. unfold next_item, assert_did_seek. rewrite Hd, Hs, Hend, Ht. simpl.
  destruct (is_empty t) eqn:E; [by rewrite is_empty_items|by apply first_wf].
Qed.
End Step.

#[export] Instance unit_dimension_laws {T Sm} `{SummaryLaws T Sm} : DimensionLaws unit T Sm.
Proof. split; [|done]. intros l1 l2 _ _. by destruct (measure (D:=unit) l1), (measure (D:=unit) (l1 ++ l2)). Qed.

Section Iteration.
Context {T Sm : Type} `{SummaryLaws T Sm}.
Abbreviation tree := (SumTree T Sm).
Abbreviation entry := (StackEntry T Sm unit).
Implicit Types t : tree.

Lemma length_items_size h t : wf_node h t → length (tree_items t) ≤ tree_size t.
Proof.
  revert t. induction h as [|h IH]; intros t Ht.
  - destruct (wf_leaf_inv _ Ht) as (l & -> & _). simpl. lia.
  - destruct (wf_internal_inv _ _ Ht) as (ct & -> & _ & _ & Hct). simpl.
    clear Ht. apply Nat.le_le_succ_r. induction Hct as [|c ct Hc _ IHct]; simpl; [lia|].
    rewrite length_app. specialize (IH c Hc). lia.
Qed.

Lemma items_wf t :
  wf t → valid (tree_items t) → height t < STACK_CAP → items t = Ret (tree_items t).
Proof.
  intros Hwf Hv Hh. unfold items.
  destruct (next_begin (D:=unit) t Hwf Hv Hh (cursor_new t)) as (c & -> & Hc); [done|].
  assert (length (tree_items t) ≤ tree_size t) as Hsize.
  { destruct Hwf as [->|[h Ht]]; [simpl; lia|by eapply length_items_size]. }
  apply returns_eq, (loop_returns _ (λ '(c, its), ∃ l, cursor_at t c its l)
    (λ '(_, its), length (tree_items t) - length its)).
  - intros [c' p] [l Hc']. rewrite (item_at _ Hwf Hh _ _ _ Hc').
    pose proof (cursor_at_items _ _ _ _ Hc') as Hi. destruct l as [|x l]; simpl; [right|left].
    + exists p. by rewrite Hi, app_nil_r.
    + destruct (next_at t Hwf Hv Hh _ _ _ Hc') as (c'' & -> & Hc'').
      eexists. split; [reflexivity|]. split; [by exists l|].
      rewrite Hi, !length_app. simpl. lia.
  - by exists (tree_items t).
  - simpl. lia.
Qed.

(** ** [Iter] *)
Section Iter.
Context (root : tree) (hr : nat).
Context (Hroot : wf_node hr root) (Hheight : hr < STACK_CAP).

Definition iter_at (x : list entry * bool) (p l : list T) : Prop :=
  seek_at root hr (λ _ (_ : unit), True) [] (x.1, tt, tt, negb x.2) p l.
Definition iter_weight (x : list entry * bool) : nat := seek_weight (x.1, tt, tt, negb x.2).
Definition iter_done (p l : list T) (y : list entry * option T) : Prop :=
  y.2 = head l ∧ stack_at root hr y.1 p l.

Lemma measure_unit (p : list T) : measure (D:=unit) p = tt.
Proof. by destruct (measure p). Qed.

Lemma iter_step_internal e rest descend p l h :
  iter_at (e :: rest, descend) p l → wf_node (S h) (e_tree e) →
  ∃ x, iter_step (e :: rest, descend) = Ret (inl x) ∧ iter_at x p l ∧
    iter_weight x < iter_weight (e :: rest, descend).
Proof.
  intros (_ & _ & p1 & r1 & h1 & Hp & Hat) Hwf. simpl in Hat.
  assert (h1 = S h) as ->.
  { eapply path_wf in Hp; [|done]. apply wf_node_height in Hp, Hwf. congruence. }
  destruct (wf_internal_inv _ _ Hwf) as (ct & Et & _ & _ & Hct).
  rewrite Et in Hat. simpl in Hat.
  set (k := if negb descend then S (e_index e) else e_index e) in *.
  destruct Hat as (Hk & Hpp & -> & _).
  simpl iter_step. replace (if descend then e_index e else e_index e + 1) with k
    by (unfold k; destruct descend; simpl; lia).
  rewrite Et. destruct (ct !! k) as [c|] eqn:Hc.
  - destruct (seek_push root hr Hheight (λ _ (_ : unit), True) [] rest (MkEntry (e_tree e) k tt)
      (S h) (total (flat_map tree_items ct)) (summary <$> ct) ct c p1 r1 h p tt k)
      as (Hpush & Hat & Hw); simpl; try done; [by rewrite measure_unit|].
    change ([] ++ p) with p in Hpush, Hat, Hw. rewrite (measure_unit p) in Hpush, Hat, Hw.
    simpl e_tree. rewrite <-Et, Hpush.
    eexists. split; [reflexivity|]. split; [exact Hat|exact Hw].
  - apply lookup_ge_None in Hc.
    destruct (seek_pop root hr Hheight (λ _ (_ : unit), True) [] rest (e_tree e) p1 r1 (S h) p tt
      (2 * list_sum (drop k (child_sizes (e_tree e))))) as [Hat Hw]; [done| |done|].
    { rewrite Et; simpl. by rewrite Hpp, take_ge. }
    rewrite drop_ge by done. eexists. split; [reflexivity|].
    change ([] ++ p) with p in Hat, Hw. rewrite (measure_unit p) in Hat, Hw. split; [exact Hat|exact Hw].
Qed.

Lemma iter_step_leaf e rest p l :
  iter_at (e :: rest, true) p l → wf_node 0 (e_tree e) →
  (∃ x, iter_step (e :: rest, true) = Ret (inl x) ∧ iter_at x p l ∧
     iter_weight x < iter_weight (e :: rest, true)) ∨
  (∃ y, iter_step (e :: rest, true) = Ret (inr y) ∧ iter_done p l y).
Proof.
  intros (_ & _ & p1 & r1 & h1 & Hp & Hat) Hwf. simpl in Hat.
  assert (h1 = 0) as ->.
  { eapply path_wf in Hp; [|done]. apply wf_node_height in Hp, Hwf. congruence. }
  destruct (wf_leaf_inv _ Hwf) as (lits & Et & Hne & Hcap).
  rewrite Et in Hat. simpl in Hat. set (k := e_index e) in *. destruct Hat as (Hk & Hpp & -> & _).
  simpl iter_step. rewrite Et. fold k. destruct (lits !! k) as [x|] eqn:Hx.
  - right. eexists. split; [reflexivity|]. split; [by rewrite (drop_S _ _ _ Hx)|].
    exists p1, r1. simpl. split_and!; [by rewrite <-Et|by eapply lookup_lt_Some|done|done].
  - left. apply lookup_ge_None in Hx.
    destruct (seek_pop root hr Hheight (λ _ (_ : unit), True) [] rest (e_tree e) p1 r1 0 p tt
      (2 * list_sum (drop k (child_sizes (e_tree e))))) as [Hat Hw]; [done| |done|].
    { rewrite Et; simpl. by rewrite Hpp, take_ge. }
    rewrite drop_ge by done. eexists. split; [reflexivity|].
    change ([] ++ p) with p in Hat, Hw. rewrite (measure_unit p) in Hat, Hw. split; [exact Hat|exact Hw].
Qed.

Lemma iter_loop st descend p l :
  iter_at (st, descend) p l → st = [] ∨ descend = true →
  returns (loop iter_step (cursor_fuel root) (st, descend)) (iter_done p l).
Proof.
  intros Hat Hd. apply (loop_returns _ (λ x, iter_at x p l) iter_weight); [|done|].
  - intros [[|e rest] d] Hx.
    + right. destruct Hx as (_ & _ & -> & ->). eexists. by split; [reflexivity|].
    + pose proof Hx as (_ & _ & p1 & r1 & [|h] & Hp & Hk).
      * assert (d = true) as -> by (destruct d; [done|]; by destruct Hk as (_ & _ & _ & ?)).
        apply iter_step_leaf; [done|by eapply path_wf].
      * left. eapply iter_step_internal; [done|by eapply path_wf].
  - destruct Hd as [->| ->]; [unfold cursor_fuel, iter_weight; simpl; lia|]. by eapply seek_weight_fuel.
Qed.
End Iter.

(** What an iterator over [t] has still to yield: all items for a new one,
    and what follows the item last yielded after that. *)
Definition iter_rest t (i : Iter T Sm) (l : list T) : Prop :=
  it_tree i = t ∧
  ((it_stack i = [] ∧ l = tree_items t) ∨
   (∃ p x, it_stack i ≠ [] ∧ stack_at t (height t) (it_stack i) p (x :: l))).

Lemma iter_next_new t i :
  wf t → height t < STACK_CAP → it_tree i = t → it_stack i = [] →
  returns (iter_next i) (λ '(x, i'), x = head (tree_items t) ∧
    match tree_items t with
    | [] => it_stack i' = []
    | _ :: l => iter_rest t i' l
    end).
Proof.
  intros Hwf Hh Ht Hs. unfold iter_next. rewrite Hs, Ht.
  change (stack_push [] (MkEntry t 0 tt)) with (Ret [MkEntry t 0 tt]). cbv iota.
  destruct Hwf as [->|[h Hn]]; [by apply returns_Ret|].
  rewrite (wf_node_height _ _ Hn) in Hh.
  destruct (iter_loop t h Hn Hh [MkEntry t 0 tt] true [] (tree_items t)) as ([st o] & -> & Ho & Hst).
  { split; [done|]. split; [by exists []|]. exists [], [], h. simpl.
    rewrite node_take_0, node_drop_0, app_nil_r. split_and!; try done; [constructor|lia]. }
  { by right. }
  apply returns_Ret. simpl in Ho. split; [done|].
  destruct (tree_items t) as [|x l] eqn:E; [by apply wf_node_items in Hn|].
  split; [done|]. right. exists [], x. rewrite (wf_node_height _ _ Hn). simpl in *.
  split; [|done]. destruct st; [|done]. destruct Hst as [? ?]. congruence.
Qed.

Lemma iter_next_rest t i p x l :
  wf t → height t < STACK_CAP → it_tree i = t → it_stack i ≠ [] →
  stack_at t (height t) (it_stack i) p (x :: l) →
  returns (iter_next i) (λ '(y, i'), y = head l ∧
    match l with [] => it_stack i' = [] | _ :: l' => iter_rest t i' l' end).
Proof.
  intros Hwf Hh Ht Hne Hst. unfold iter_next. rewrite Ht.
  set (c := MkCursor t (it_stack i) tt true (match it_stack i with [] => true | _ :: _ => false end)).
  assert (cursor_at t c p (x :: l)) as Hc by (by split_and!; try done; simpl; rewrite measure_unit).
  destruct (it_stack i) as [|e rest] eqn:E; [done|]. cbv iota.
  pose proof (cursor_at_wf _ Hwf Hh _ _ _ Hc Hne) as Hroot.
  destruct (cursor_at_leaf _ Hwf Hh _ _ _ _ _ Hc eq_refl) as (p1 & lits & r1 & Et & Hp & Hk & -> & Hl).
  destruct (lookup_lt_is_Some_2 lits (e_index e)) as [y Hy]; [done|].
  rewrite (drop_S _ _ _ Hy) in Hl. simpl in Hl. injection Hl as -> ->.
  rewrite (loop_body_eq iter_step _ _ (MkEntry (e_tree e) (e_index e + 1) tt :: rest, true)) by done.
  destruct (iter_loop t (height t) Hroot Hh (MkEntry (e_tree e) (e_index e + 1) tt :: rest) true
    (p1 ++ take (S (e_index e)) lits) (drop (S (e_index e)) lits ++ r1)) as ([st o] & -> & Ho & Hst').
  { split; [by rewrite measure_unit|]. split; [by eexists|]. exists p1, r1, 0. simpl. rewrite Et. simpl.
    rewrite Nat.add_1_r. split_and!; try done; by rewrite <-Et. }
  { by right. }
  apply returns_Ret. simpl in Ho. split; [done|].
  destruct (drop (S (e_index e)) lits ++ r1) as [|z l'] eqn:El.
  - simpl. destruct st as [|e' st']; [done|].
    assert (cursor_at t (MkCursor t (e' :: st') tt true false) (p1 ++ take (S (e_index e)) lits) []) as Hc'
      by (by split_and!; try done; simpl; rewrite measure_unit).
    destruct (cursor_at_leaf _ Hwf Hh _ _ _ _ _ Hc' eq_refl) as (p2 & l2 & r2 & _ & _ & Hk2 & _ & Hl2).
    destruct (lookup_lt_is_Some_2 l2 (e_index e')) as [w Hw]; [done|].
    by rewrite (drop_S _ _ _ Hw) in Hl2.
  - split; [done|]. right. exists (p1 ++ take (S (e_index e)) lits), z. simpl.
    split; [|done]. destruct st; [|done]. by destruct Hst'.
Qed.

(** [tree.iter().collect::<Vec<_>>()] *)
Definition iter_collect t : outcome (list T) :=
  loop (λ '(i, acc),
          let* '(x, i) := iter_next i in
          match x with
          | Some x => Ret (inl (i, acc ++ [x]))
          | None => Ret (inr acc)
          end) (S (tree_size t)) (iter_new t, []).

Lemma iter_rest_next t i l :
  wf t → height t < STACK_CAP → iter_rest t i l →
  returns (iter_next i) (λ '(y, i'), y = head l ∧
    match l with [] => it_stack i' = [] | _ :: l' => iter_rest t i' l' end).
Proof.
  intros Hwf Hh [Ht [[Hs ->]|(p & x & Hne & Hst)]]; [by apply iter_next_new|by eapply iter_next_rest].
Qed.

Lemma iter_collect_wf t :
  wf t → height t < STACK_CAP → iter_collect t = Ret (tree_items t).
Proof.
  intros Hwf Hh. apply returns_eq, (loop_returns _
    (λ '(i, acc), ∃ l, tree_items t = acc ++ l ∧ iter_rest t i l)
    (λ '(i, acc), length (tree_items t) - length acc)).
  - intros [i acc] (l & Hi & Hr). destruct (iter_rest_next t i l Hwf Hh Hr) as ([y i'] & -> & -> & Hi').
    destruct l as [|x l]; simpl; [right|left].
    + exists acc. by rewrite Hi, app_nil_r.
    + eexists. split; [reflexivity|]. split; [exists l; by rewrite <-app_assoc|].
      rewrite Hi, !length_app. simpl. lia.
  - exists (tree_items t). split; [done|]. split; [done|by left].
  - simpl. destruct Hwf as [->|[h Ht]]; [simpl; lia|]. apply length_items_size in Ht. lia.
Qed.
End Iteration.

(** ** Cursors as iterators *)
Section CursorCollect.
Context {T Sm D : Type} `{MeasureLaws D T Sm}.
Abbreviation cursor := (Cursor T Sm D).
Context (t : SumTree T Sm) (Hwf : wf t) (Hvalid : valid (tree_items t)) (Hheight : height t < STACK_CAP).

(** [cursor.collect::<Vec<_>>()] *)
Definition cursor_collect (c : cursor) : outcome (list T) :=
  loop (λ '(c, acc),
          let* '(x, c) := cursor_iter_next c in
          match x with
          | Some x => Ret (inl (c, acc ++ [x]))
          | None => Ret (inr acc)
          end) (S (tree_size (c_tree c))) (c, []).

Lemma cursor_iter_next_at c p l :
  cursor_at t c p l →
  returns (cursor_iter_next c) (λ '(x, c'), x = head l ∧ cursor_at t c' (p ++ take 1 l) (drop 1 l)).
Proof.
  intros Hc. pose proof Hc as (_ & Hs & _). unfold cursor_iter_next. rewrite Hs.
  rewrite (item_at _ Hwf Hheight _ _ _ Hc). destruct l as [|x l]; simpl.
  - apply returns_Ret. by rewrite app_nil_r.
  - destruct (next_at t Hwf Hvalid Hheight _ _ _ Hc) as (c' & -> & Hc'). auto with outcomes.
Qed.

Lemma cursor_collect_at c p l : cursor_at t c p l → cursor_collect c = Ret l.
Proof.
  intros Hc. pose proof Hc as (Ht & _). pose proof (cursor_at_items _ _ _ _ Hc) as Hi.
  apply returns_eq, (loop_returns _
    (λ '(c, acc), ∃ p l', l = acc ++ l' ∧ cursor_at t c p l')
    (λ '(c, acc), length l - length acc)).
  - intros [c' acc] (p' & l' & -> & Hc').
    destruct (cursor_iter_next_at _ _ _ Hc') as ([x c''] & -> & -> & Hc'').
    destruct l' as [|x l']; simpl; [right|left].
    + exists acc. by rewrite app_nil_r.
    + eexists. split; [reflexivity|]. split.
      * exists (p' ++ [x]), l'. by rewrite <-app_assoc.
      * rewrite !length_app. simpl. lia.
  - by exists p, l.
  - rewrite Ht. simpl. assert (length l ≤ length (tree_items t)) by (rewrite Hi, length_app; lia).
    assert (length (tree_items t) ≤ tree_size t); [|lia].
    destruct Hwf as [->|[h Ht']]; [simpl; lia|by eapply length_items_size].
Qed.
End CursorCollect.
