(* ===== verification/Keyed.v ===== *)
(** * Keyed items ([impl<T: KeyedItem> SumTree<T>] of [sum_tree.rs])

    Insertion, removal, lookup and batches of edits of a tree whose items are
    ordered by key.  The reference is the strictly sorted list of the items. *)
From stdpp Require Import base numbers option list sorting.
From Stdlib Require Import Lia.
From S2P Require Import Prelude SumTree SumTreeFacts SumTreeBulk Cursor CursorFacts CursorSeek CursorMove CursorIter.
#[local] Opaque TREE_BASE av_cap.

(** [trait KeyedItem] *)
Class KeyedItem (T K : Type) := key : T → K.

(** [enum Edit] *)
Inductive Edit (T K : Type) :=
| Insert (item : T)
| Remove (k : K).
Arguments Insert {T K} item.
Arguments Remove {T K} k.

Section Ops.
Context {T K Sm : Type} `{Summary Sm} `{Item T Sm} `{Dimension K Sm} `{Ord K} `{KeyedItem T K}.
Abbreviation tree := (SumTree T Sm).
Implicit Types self : tree.

#[local] Instance key_target : SeekTarget K K := ord_seek_target.

Definition key_eqb (k1 k2 : K) : bool := match cmp k1 k2 with Eq => true | _ => false end.

(** [Edit::key] *)
Definition edit_key (e : Edit T K) : K :=
  match e with Insert item => key item | Remove k => k end.

(** The cursor is at an item with this key: take it and go on. *)
Definition take_match (k : K) (c : Cursor T Sm K) : outcome (option T * Cursor T Sm K) :=
  let* i := item c in
  match i with
  | Some x => if key_eqb (key x) k then let* c := next c in Ret (Some x, c) else Ret (None, c)
  | None => Ret (None, c)
  end.

Definition insert_or_replace self (x : T) : outcome (option T * tree) :=
  let* '(new_tree, c) := slice (cursor_new (D:=K) self) (key x) Left in
  let* '(replaced, c) := take_match (key x) c in
  let* new_tree := push new_tree x in
  let* '(rest, _) := suffix c in
  let* new_tree := append new_tree rest in
  Ret (replaced, new_tree).

(** [SumTree::remove] *)
Definition remove_key self (k : K) : outcome (option T * tree) :=
  let* '(new_tree, c) := slice (cursor_new (D:=K) self) k Left in
  let* '(removed, c) := take_match k c in
  let* '(rest, _) := suffix c in
  let* new_tree := append new_tree rest in
  Ret (removed, new_tree).

Record EditState := MkEditState {
  es_cursor : Cursor T Sm K;
  es_tree : tree;
  es_buffer : list T;
  es_removed : list T;
}.

(** The body of [for edit in edits]. *)
Definition edit_step (s : EditState) (e : Edit T K) : outcome EditState :=
  let new_key := edit_key e in
  let* old_item := item (es_cursor s) in
  let* '(c, new_tree, buffer) :=
    match old_item with
    | Some x =>
        if lt_b (key x) new_key then
          let* new_tree := extend (es_tree s) (es_buffer s) in
          let* '(sl, c) := slice (es_cursor s) new_key Left in
          let* new_tree := append new_tree sl in
          Ret (c, new_tree, [])
        else Ret (es_cursor s, es_tree s, es_buffer s)
    | None => Ret (es_cursor s, es_tree s, es_buffer s)
    end in
  let* '(old, c) := take_match new_key c in
  Ret (MkEditState c new_tree
         (buffer ++ match e with Insert x => [x] | Remove _ => [] end)
         (es_removed s ++ match old with Some x => [x] | None => [] end)).

Fixpoint edit_loop (s : EditState) (es : list (Edit T K)) : outcome EditState :=
  match es with
  | [] => Ret s
  | e :: es => let* s := edit_step s e in edit_loop s es
  end.

(** [SumTree::edit]; [sort_by_key] is [sort_unstable_by_key]. *)
Definition edit (sort_by_key : list (Edit T K) → list (Edit T K)) self (edits : list (Edit T K)) :
  outcome (list T * tree) :=
  match edits with
  | [] => Ret ([], self)
  | _ =>
      let* '(_, c) := seek (cursor_new (D:=K) self) (dim_zero : K) Left in
      let* s := edit_loop (MkEditState c new [] []) (sort_by_key edits) in
      let* new_tree := extend (es_tree s) (es_buffer s) in
      let* '(rest, _) := suffix (es_cursor s) in
      let* new_tree := append new_tree rest in
      Ret (es_removed s, new_tree)
  end.

(** [SumTree::get] *)
Definition get_key self (k : K) : option T := (find_exact self k Left).2.
End Ops.

(** Insertion sort, an instance of [sort_unstable_by_key]. *)
Section Sort.
Context {A K : Type} `{Ord K} (f : A → K).
Fixpoint sort_insert (x : A) (l : list A) : list A :=
  match l with
  | [] => [x]
  | y :: l' => if le_b (f x) (f y) then x :: l else y :: sort_insert x l'
  end.
Definition insertion_sort (l : list A) : list A := foldr sort_insert [] l.
End Sort.
