(* ===== verification/KeyedFacts.v ===== *)
(** * Correctness of the keyed operations

    [KeyedLaws] is what a keyed item type promises; under it the operations of
    [Keyed] act on the strictly sorted list of the items. *)
From stdpp Require Import base numbers option list sorting.
From Stdlib Require Import Lia.
From S2P Require Import Prelude SumTree SumTreeFacts SumTreeBulk Cursor CursorFacts CursorSeek CursorMove CursorIter Keyed.
#[local] Opaque TREE_BASE av_cap.

(** ** Sorted lists *)
Section Sorted.
Context {T K : Type} `{OrdLaws K} `{KeyedItem T K}.
Implicit Types (l : list T) (k : K).

Definition key_lt (x y : T) : Prop := olt (key x) (key y).
Definition sorted_keys l : Prop := StronglySorted key_lt l.

Definition is_below k (x : T) : bool := lt_b (key x) k.
Definition is_at k (x : T) : bool := key_eqb (key x) k.
Definition is_above k (x : T) : bool := lt_b k (key x).
Abbreviation below k := (List.filter (is_below k)).
Abbreviation above k := (List.filter (is_above k)).

(** The abstract operations. *)
Definition list_get k l : option T := List.find (is_at k) l.
Definition list_insert (x : T) l : list T := below (key x) l ++ x :: above (key x) l.
Definition list_remove k l : list T := below k l ++ above k l.

Lemma is_below_lt k x : is_below k x = true ↔ olt (key x) k.
Proof. unfold is_below, lt_b, olt. destruct (cmp (key x) k); simpl; split; congruence. Qed.
Lemma is_above_lt k x : is_above k x = true ↔ olt k (key x).
Proof. unfold is_above, lt_b, olt. destruct (cmp k (key x)); simpl; split; congruence. Qed.
Lemma is_at_eq k x : is_at k x = true ↔ key x = k.
Proof. unfold is_at, key_eqb. rewrite <-cmp_eq. destruct (cmp (key x) k); split; congruence. Qed.

Lemma key_cases k x :
  (is_below k x = true ∧ is_at k x = false ∧ is_above k x = false) ∨
  (is_below k x = false ∧ is_at k x = true ∧ is_above k x = false) ∨
  (is_below k x = false ∧ is_at k x = false ∧ is_above k x = true).
Proof.
  unfold is_below, is_at, is_above, lt_b, key_eqb. rewrite (cmp_antisym (key x) k).
  destruct (cmp (key x) k); simpl; tauto.
Qed.

Lemma sorted_cons x l : sorted_keys (x :: l) ↔ Forall (key_lt x) l ∧ sorted_keys l.
Proof.
  split; [by inversion 1|]. intros [??]. by constructor.
Qed.

Lemma sorted_app l1 l2 :
  sorted_keys (l1 ++ l2) ↔
  sorted_keys l1 ∧ sorted_keys l2 ∧ Forall (λ x, Forall (key_lt x) l2) l1.
Proof.
  induction l1 as [|x l1 IH]; simpl.
  - split; [|tauto]. intros. split_and!; try done. constructor.
  - rewrite !sorted_cons, IH, Forall_app, Forall_cons. tauto.
Qed.

Lemma sorted_filter (f : T → bool) l : sorted_keys l → sorted_keys (List.filter f l).
Proof.
  induction l as [|x l IH]; simpl; [done|]. rewrite sorted_cons. intros [Hx Hl].
  destruct (f x); [|by apply IH]. rewrite sorted_cons. split; [|by apply IH].
  rewrite Forall_forall in Hx |- *. intros y Hy%list_elem_of_In%List.filter_In.
  apply Hx. apply list_elem_of_In. tauto.
Qed.

Lemma filter_none (f : T → bool) l : Forall (λ x, f x = false) l → List.filter f l = [].
Proof. induction 1 as [|x l Hx _ IH]; simpl; [done|]. by rewrite Hx. Qed.
Lemma filter_all (f : T → bool) l : Forall (λ x, f x = true) l → List.filter f l = l.
Proof. induction 1 as [|x l Hx _ IH]; simpl; [done|]. by rewrite Hx, IH. Qed.
Lemma Forall_filter (P : T → Prop) (f : T → bool) l : Forall P l → Forall P (List.filter f l).
Proof. induction 1 as [|x l Hx _ IH]; simpl; [done|]. destruct (f x); [by constructor|done]. Qed.

(** From an item on that is not below [k], nothing is. *)
Lemma not_below_tail k x l :
  sorted_keys (x :: l) → is_below k x = false → Forall (λ y, is_above k y = true) l.
Proof.
  intros [Hx _]%sorted_cons Hb. rewrite Forall_forall in Hx |- *. intros y Hy.
  apply is_above_lt. specialize (Hx y Hy). destruct (key_cases k x) as [[? _]|[(_ & E & _)|(_ & _ & E)]].
  - congruence.
  - apply is_at_eq in E. unfold key_lt in Hx. by rewrite E in Hx.
  - apply is_above_lt in E. by eapply olt_trans.
Qed.

(** A sorted list splits at [k]. *)
Lemma sorted_split k l :
  sorted_keys l → l = below k l ++ List.filter (is_at k) l ++ above k l ∧
    List.filter (is_at k) l = option_list (list_get k l).
Proof.
  induction l as [|x l IH]; intros Hs; [done|]. pose proof Hs as [Hx Hl]%sorted_cons.
  destruct (IH Hl) as [E1 E2]. unfold list_get in *. simpl.
  destruct (is_below k x) eqn:Eb.
  - destruct (key_cases k x) as [(_ & -> & ->)|[(E & _)|(E & _)]]; [|congruence..].
    simpl. by rewrite <-E1.
  - pose proof (not_below_tail k x l Hs Eb) as Hab.
    assert (Forall (λ y, is_below k y = false) l ∧ Forall (λ y, is_at k y = false) l) as [Hb Ha].
    { split; eapply Forall_impl; try done; intros y Hy;
        destruct (key_cases k y) as [(?&?&?)|[(?&?&?)|(?&?&?)]]; congruence. }
    rewrite (filter_none _ _ Hb), (filter_none _ _ Ha), (filter_all _ _ Hab) in *.
    destruct (key_cases k x) as [(E & _)|[(_ & -> & ->)|(_ & -> & ->)]]; [congruence|done|done].
Qed.

Lemma below_key_lt k l x : x ∈ below k l → olt (key x) k.
Proof. intros [_ Hx]%list_elem_of_In%List.filter_In. by apply is_below_lt. Qed.
Lemma above_key_lt k l x : x ∈ above k l → olt k (key x).
Proof. intros [_ Hx]%list_elem_of_In%List.filter_In. by apply is_above_lt. Qed.

Lemma sorted_insert x l : sorted_keys l → sorted_keys (list_insert x l).
Proof.
  intros Hl. apply sorted_app. rewrite sorted_cons. split_and!.
  - by apply sorted_filter.
  - apply Forall_forall. intros y Hy%above_key_lt. done.
  - by apply sorted_filter.
  - apply Forall_forall. intros y Hy%below_key_lt. constructor; [done|].
    apply Forall_forall. intros z Hz%above_key_lt. by apply (olt_trans _ (key x)).
Qed.

Lemma sorted_remove k l : sorted_keys l → sorted_keys (list_remove k l).
Proof.
  intros Hl. apply sorted_app. split_and!; [by apply sorted_filter..|].
  apply Forall_forall. intros y Hy%below_key_lt.
  apply Forall_forall. intros z Hz%above_key_lt. by apply (olt_trans _ k).
Qed.
End Sorted.

Section Lookup.
Context {T K : Type} `{OrdLaws K} `{KeyedItem T K}.
Implicit Types (l : list T) (k : K).
Abbreviation below k := (List.filter (is_below k)).
Abbreviation above k := (List.filter (is_above k)).

Lemma elem_of_below k l y : y ∈ below k l ↔ y ∈ l ∧ olt (key y) k.
Proof. by rewrite !list_elem_of_In, List.filter_In, is_below_lt. Qed.
Lemma elem_of_above k l y : y ∈ above k l ↔ y ∈ l ∧ olt k (key y).
Proof. by rewrite !list_elem_of_In, List.filter_In, is_above_lt. Qed.
Lemma elem_of_at k l y : y ∈ List.filter (is_at k) l ↔ y ∈ l ∧ key y = k.
Proof. by rewrite !list_elem_of_In, List.filter_In, is_at_eq. Qed.

Lemma key_ne_cases (x : T) k : key x ≠ k ↔ olt (key x) k ∨ olt k (key x).
Proof.
  split.
  - intros Hne. destruct (olt_trichotomy (key x) k) as [?|[?|?]]; tauto.
  - intros [Hk|Hk] E; rewrite E in Hk; by eapply olt_irrefl.
Qed.

Lemma elem_of_list_insert x l y : y ∈ list_insert x l ↔ y = x ∨ (y ∈ l ∧ key y ≠ key x).
Proof.
  unfold list_insert. rewrite elem_of_app, elem_of_cons, elem_of_below, elem_of_above, key_ne_cases.
  tauto.
Qed.
Lemma elem_of_list_remove k l y : y ∈ list_remove k l ↔ y ∈ l ∧ key y ≠ k.
Proof. unfold list_remove. rewrite elem_of_app, elem_of_below, elem_of_above, key_ne_cases. tauto. Qed.

(** In a sorted list the key determines the item. *)
Lemma sorted_key_inj l x y : sorted_keys l → x ∈ l → y ∈ l → key x = key y → x = y.
Proof.
  induction l as [|z l IH]; [by rewrite elem_of_nil|]. rewrite sorted_cons, Forall_forall.
  intros [Hz Hs] Hx Hy E. apply elem_of_cons in Hx as [->|Hx], Hy as [->|Hy]; [done| | |by apply IH].
  - specialize (Hz y Hy). unfold key_lt in Hz. rewrite E in Hz. by apply olt_irrefl in Hz.
  - specialize (Hz x Hx). unfold key_lt in Hz. rewrite E in Hz. by apply olt_irrefl in Hz.
Qed.

Lemma list_get_Some k l x : sorted_keys l → list_get k l = Some x ↔ x ∈ l ∧ key x = k.
Proof.
  intros Hs. unfold list_get. split.
  - intros [Hx E]%List.find_some. apply is_at_eq in E. by apply list_elem_of_In in Hx.
  - intros [Hx E]. destruct (List.find (is_at k) l) as [y|] eqn:Ef.
    + apply List.find_some in Ef as [Hy%list_elem_of_In Ey%is_at_eq].
      f_equal. eapply sorted_key_inj; [done..|congruence].
    + eapply List.find_none in Ef; [|by apply list_elem_of_In].
      apply is_at_eq in E. congruence.
Qed.

Lemma list_get_None k l : list_get k l = None ↔ ∀ x, x ∈ l → key x ≠ k.
Proof.
  unfold list_get. split.
  - intros Ef x Hx E. eapply List.find_none in Ef; [|by apply list_elem_of_In].
    apply is_at_eq in E. congruence.
  - intros Hk. destruct (List.find (is_at k) l) as [y|] eqn:Ef; [|done].
    apply List.find_some in Ef as [Hy%list_elem_of_In Ey%is_at_eq]. by destruct (Hk y Hy).
Qed.

(** Lookup in a sorted list that has just the items with some property. *)
Lemma list_get_change k l l' :
  sorted_keys l → sorted_keys l' → (∀ x, key x = k → x ∈ l ↔ x ∈ l') → list_get k l = list_get k l'.
Proof.
  intros Hs Hs' Hx. destruct (list_get k l') as [x|] eqn:E.
  - apply list_get_Some in E as [? ?]; [|done]. apply list_get_Some; [done|].
    split; [|done]. by apply Hx.
  - rewrite list_get_None in E |- *. intros x Hxl Ek. apply (E x); [by apply Hx|done].
Qed.
End Lookup.

(** What a keyed item promises, for sorted items that are [item_ok]: they may
    be summed up, the key dimension after an item is its key, and zero is not
    above a key. *)
Class KeyedLaws (T K Sm : Type) `{DimensionLaws K T Sm} `{OrdLaws K} `{KeyedItem T K} := {
  item_ok : T → Prop;
  key_dim : ∀ (p : list T) (x : T), sorted_keys (p ++ [x]) → Forall item_ok (p ++ [x]) →
    measure (D:=K) (p ++ [x]) = key x;
  key_zero : ∀ x : T, item_ok x → is_ge (cmp (key x) dim_zero) = true;
  keyed_valid : ∀ l : list T, sorted_keys l → Forall item_ok l → valid l;
}.

Section KeyedFacts.
Context {T K Sm : Type} `{KeyedLaws T K Sm}.
Abbreviation tree := (SumTree T Sm).
Implicit Types (t : tree) (l p : list T) (k : K).
#[local] Existing Instance key_target.
Abbreviation below k := (List.filter (is_below k)).
Abbreviation above k := (List.filter (is_above k)).
Abbreviation from k l := (List.filter (is_at k) l ++ above k l).

(** The invariant of a keyed tree. *)
Definition keyed_list l : Prop := sorted_keys l ∧ Forall item_ok l.
Definition keyed_wf t : Prop := wf t ∧ keyed_list (tree_items t).

Lemma keyed_list_valid l : keyed_list l → valid l.
Proof. intros [??]. by apply keyed_valid. Qed.
Lemma keyed_list_app l1 l2 : keyed_list (l1 ++ l2) → keyed_list l1 ∧ keyed_list l2.
Proof. intros [(?&?&?)%sorted_app [??]%Forall_app]. done. Qed.
Lemma keyed_list_filter f l : keyed_list l → keyed_list (List.filter f l).
Proof. intros [??]. split; [by apply sorted_filter|by apply Forall_filter]. Qed.
Lemma keyed_list_insert x l : keyed_list l → item_ok x → keyed_list (list_insert x l).
Proof.
  intros [Hs Ho] Hx. split; [by apply sorted_insert|]. apply Forall_app.
  split; [by apply Forall_filter|]. constructor; [done|by apply Forall_filter].
Qed.
Lemma keyed_list_remove k l : keyed_list l → keyed_list (list_remove k l).
Proof.
  intros [Hs Ho]. split; [by apply sorted_remove|]. apply Forall_app. split; by apply Forall_filter.
Qed.

Lemma keyed_list_l l1 l2 : keyed_list (l1 ++ l2) → keyed_list l1.
Proof. intros Hl%keyed_list_app. tauto. Qed.
Lemma keyed_list_r l1 l2 : keyed_list (l1 ++ l2) → keyed_list l2.
Proof. intros Hl%keyed_list_app. tauto. Qed.

Lemma measure_key_snoc p x : keyed_list (p ++ [x]) → measure (D:=K) (p ++ [x]) = key x.
Proof. intros [??]. by apply key_dim. Qed.

Lemma measure_key_mid p x l : keyed_list (p ++ x :: l) → measure (D:=K) (p ++ [x]) = key x.
Proof. rewrite cons_middle, app_assoc. intros Hl%keyed_list_l. by apply measure_key_snoc. Qed.

Lemma measure_key p : keyed_list p → measure (D:=K) p = from_option key dim_zero (last p).
Proof.
  destruct (nil_or_snoc p) as [->|(p' & x & ->)]; [done|]. intros Hp.
  by rewrite measure_key_snoc, last_snoc.
Qed.

(** Growing positions compare lower. *)
Lemma cmp_rank_anti k (a b : K) : is_le (cmp a b) = true → cmp_rank (cmp k b) ≤ cmp_rank (cmp k a).
Proof.
  intros Hab. destruct (cmp k a) eqn:Ea; destruct (cmp k b) eqn:Eb; simpl; try lia; exfalso.
  - apply cmp_eq in Ea. rewrite Ea in Eb. by rewrite Eb in Hab.
  - apply cmp_eq in Eb. rewrite <-Eb in Hab. by rewrite (cmp_antisym k a), Ea in Hab.
  - apply cmp_gt_lt in Eb. pose proof (cmp_lt_trans _ _ _ Eb Ea) as E.
    by rewrite (cmp_antisym b a), E in Hab.
Qed.

Lemma zero_le x : item_ok x → is_le (cmp dim_zero (key x)) = true.
Proof.
  intros Hx. rewrite (cmp_antisym (key x) dim_zero). pose proof (key_zero x Hx).
  by destruct (cmp (key x) dim_zero).
Qed.

(** Keys grow along the positions. *)
Lemma keyed_positions l1 l2 :
  keyed_list (l1 ++ l2) → is_le (cmp (measure (D:=K) l1) (measure (l1 ++ l2))) = true.
Proof.
  intros Hl. pose proof (keyed_list_l _ _ Hl) as Hl1. pose proof Hl as [(_ & _ & Hlt)%sorted_app Ho].
  destruct (nil_or_snoc l2) as [->|(l2' & y & ->)]; [by rewrite app_nil_r, cmp_refl|].
  rewrite app_assoc in Hl, Ho |- *. rewrite measure_key_snoc by done.
  destruct (nil_or_snoc l1) as [->|(l1' & x & ->)].
  { apply zero_le. by apply Forall_app in Ho as [_ [? _]%Forall_cons]. }
  rewrite measure_key_snoc by done. apply Forall_app in Hlt as [_ Hlt]. apply Forall_cons in Hlt as [Hlt _].
  apply Forall_app in Hlt as [_ Hlt]. apply Forall_cons in Hlt as [Hlt _].
  unfold key_lt, olt in Hlt. by rewrite Hlt.
Qed.

Lemma keyed_monotone k l : keyed_list l → monotone_target (D:=K) k l.
Proof.
  intros Hl l1 l2 l3 ->. apply cmp_rank_anti, keyed_positions. rewrite app_assoc in Hl.
  by apply keyed_list_l in Hl.
Qed.

Lemma past_key k x : target_past k Left (key x) = is_below k x.
Proof.
  unfold target_past, is_below, lt_b, seek_cmp, key_target, ord_seek_target.
  rewrite (cmp_antisym k (key x)). by destruct (cmp k (key x)).
Qed.

Lemma past_mono k bias (x y : T) :
  key_lt x y → target_past k bias (key y) = true → target_past k bias (key x) = true.
Proof.
  rewrite !target_past_rank. unfold seek_cmp, key_target, ord_seek_target, key_lt, olt. intros Hxy.
  pose proof (cmp_rank_anti k (key x) (key y)) as Hr. rewrite Hxy in Hr. specialize (Hr eq_refl). lia.
Qed.

(** Seeking a key passes the items below it. *)
Lemma advance_key k p l :
  keyed_list (p ++ l) → advance (target_past k Left) p l = (p ++ below k l, from k l).
Proof.
  revert p. induction l as [|x l IH]; intros p Hl; [by rewrite app_nil_r|].
  pose proof (keyed_list_r _ _ Hl) as [Hs _].
  simpl. rewrite (measure_key_mid _ _ _ Hl), past_key. destruct (is_below k x) eqn:Eb.
  - destruct (key_cases k x) as [(_ & -> & ->)|[(E & _)|(E & _)]]; [|congruence..].
    rewrite IH, <-app_assoc; [done|by rewrite <-app_assoc].
  - destruct (sorted_split k (x :: l) Hs) as [E _]. simpl in E. rewrite Eb in E.
    assert (below k l = []) as En.
    { apply filter_none. eapply Forall_impl; [by eapply not_below_tail|].
      intros y Hy; simpl in Hy. destruct (key_cases k y) as [(?&?&?)|[(?&?&?)|(?&?&?)]]; congruence. }
    rewrite En, app_nil_r. f_equal. rewrite En in E. exact E.
Qed.

(** Seeking any target that lower keys are further below of. *)
Lemma advance_filter (past : K → bool) p l :
  (∀ x y, key_lt x y → past (key y) = true → past (key x) = true) → keyed_list (p ++ l) →
  advance past p l
  = (p ++ List.filter (λ x, past (key x)) l, List.filter (λ x, negb (past (key x))) l).
Proof.
  intros Hpast. revert p. induction l as [|x l IH]; intros p Hl; simpl; [by rewrite app_nil_r|].
  pose proof (keyed_list_r _ _ Hl) as [[Hx _]%sorted_cons _]. rewrite (measure_key_mid _ _ _ Hl).
  destruct (past (key x)) eqn:E; simpl; [by rewrite IH, <-app_assoc; [|rewrite <-app_assoc]|].
  assert (Forall (λ y, past (key y) = false) l) as Hf.
  { eapply Forall_impl; [exact Hx|]. intros y Hy. destruct (past (key y)) eqn:Ey; [|done].
    rewrite (Hpast x y Hy Ey) in E. done. }
  rewrite (filter_none _ _ Hf), app_nil_r. do 2 f_equal. symmetry. apply filter_all.
  eapply Forall_impl; [exact Hf|]. by intros y ->.
Qed.

(** ** The operations on a tree *)
Section Tree.
Context (t : tree) (Ht : keyed_wf t) (Hheight : height t < STACK_CAP).

Lemma keyed_tree_valid : valid (tree_items t).
Proof. by apply keyed_list_valid, Ht. Qed.

Lemma seekable_items c p l : seekable_at (D:=K) t c p l → tree_items t = p ++ l.
Proof. intros [Hc|(_ & -> & ->)]; [by eapply cursor_at_items|done]. Qed.

Lemma slice_key c p l k :
  seekable_at (D:=K) t c p l → is_ge (cmp k (measure p)) = true →
  returns (slice c k Left) (λ '(s, c'),
    wf s ∧ tree_items s = below k l ∧ cursor_at t c' (p ++ below k l) (from k l)).
Proof.
  intros Hc Hge. pose proof (seekable_items _ _ _ Hc) as Hi. pose proof Ht as [Hwf Hk].
  eapply returns_mono; [eapply (slice_spec t Hwf keyed_tree_valid Hheight k Left);
    [by apply keyed_monotone|done|done]|].
  intros [s' c']. rewrite advance_key by (by rewrite <-Hi).
  intros (Hc' & Hs' & E%app_inv_head). by split_and!.
Qed.

Lemma take_match_spec c p l k :
  sorted_keys l → cursor_at t c p (from k l) →
  returns (take_match k c) (λ '(o, c'),
    o = list_get k l ∧ cursor_at t c' (p ++ List.filter (is_at k) l) (above k l)).
Proof.
  intros Hs Hc. destruct Ht as [Hwf _]. unfold take_match.
  rewrite (item_at _ Hwf Hheight _ _ _ Hc).
  destruct (sorted_split k l Hs) as [_ E]. rewrite E in *.
  destruct (list_get k l) as [x|] eqn:Eg; simpl in *.
  - apply List.find_some in Eg as [_ Hx]. unfold is_at in Hx. rewrite Hx.
    destruct (next_at t Hwf keyed_tree_valid Hheight _ _ _ Hc) as (c' & -> & Hc').
    auto with outcomes.
  - rewrite app_nil_r. destruct (above k l) as [|y l'] eqn:Ea; [by apply returns_Ret|]. simpl.
    assert (key_eqb (key y) k = false) as ->; [|auto with outcomes].
    assert (y ∈ above k l) as Hy by (rewrite Ea; left).
    apply above_key_lt, is_above_lt in Hy. change (is_at k y = false).
    destruct (key_cases k y) as [(?&?&?)|[(?&?&?)|(?&?&?)]]; congruence.
Qed.

Lemma insert_or_replace_spec x :
  item_ok x →
  returns (insert_or_replace t x) (λ '(o, t'),
    o = list_get (key x) (tree_items t) ∧ keyed_wf t' ∧
    tree_items t' = list_insert x (tree_items t)).
Proof.
  intros Hx. pose proof Ht as [Hwf Hk]. pose proof Hk as [Hs _].
  pose proof (keyed_list_insert x _ Hk Hx) as Hk'.
  pose proof (keyed_list_valid _ Hk') as Hv. unfold list_insert in Hv.
  unfold insert_or_replace.
  destruct (slice_key _ _ _ (key x) (seekable_new t) (key_zero x Hx))
    as ([s c] & -> & Hws & Hits & Hc).
  destruct (take_match_spec _ _ _ _ Hs Hc) as ([o c'] & -> & -> & Hc').
  destruct (push_wf s x Hws) as (s2 & -> & Hws2 & Hits2).
  { rewrite Hits. rewrite cons_middle, app_assoc in Hv. by apply valid_l in Hv. }
  destruct (suffix_spec t Hwf keyed_tree_valid Hheight c' _ _ (or_introl Hc'))
    as ([r c''] & -> & _ & Hwr & Hitr).
  assert (tree_items s2 ++ tree_items r = list_insert x (tree_items t)) as Hi.
  { by rewrite Hits2, Hits, Hitr, <-app_assoc. }
  destruct (append_wf s2 r Hws2 Hwr) as (t' & -> & Hwt & Hitt).
  { rewrite Hi. by apply keyed_list_valid. }
  apply returns_Ret. rewrite Hi in Hitt. split_and!; [done|by split; [|rewrite Hitt]|done].
Qed.

Lemma remove_key_spec k :
  is_ge (cmp k dim_zero) = true →
  returns (remove_key t k) (λ '(o, t'),
    o = list_get k (tree_items t) ∧ keyed_wf t' ∧ tree_items t' = list_remove k (tree_items t)).
Proof.
  intros Hge. pose proof Ht as [Hwf Hk]. pose proof Hk as [Hs _].
  pose proof (keyed_list_remove k _ Hk) as Hk'. unfold remove_key.
  destruct (slice_key _ _ _ k (seekable_new t) Hge)
    as ([s c] & -> & Hws & Hits & Hc).
  destruct (take_match_spec _ _ _ _ Hs Hc) as ([o c'] & -> & -> & Hc').
  destruct (suffix_spec t Hwf keyed_tree_valid Hheight c' _ _ (or_introl Hc'))
    as ([r c''] & -> & _ & Hwr & Hitr).
  assert (tree_items s ++ tree_items r = list_remove k (tree_items t)) as Hi
    by (by rewrite Hits, Hitr).
  destruct (append_wf s r Hws Hwr) as (t' & -> & Hwt & Hitt).
  { rewrite Hi. by apply keyed_list_valid. }
  apply returns_Ret. rewrite Hi in Hitt. split_and!; [done|by split; [|rewrite Hitt]|done].
Qed.

Lemma scan_exact_key k p l :
  keyed_list (p ++ l) → snd <$> scan_exact k p l = list_get k l.
Proof.
  revert p. induction l as [|x l IH]; intros p Hl; [done|]. simpl.
  rewrite (measure_key_mid _ _ _ Hl). unfold list_get; simpl. unfold is_at, key_eqb.
  unfold seek_cmp, key_target, ord_seek_target. rewrite (cmp_antisym k (key x)).
  destruct (cmp k (key x)); simpl; [done| |]; apply IH; by rewrite <-app_assoc.
Qed.

Lemma get_key_spec k : get_key t k = list_get k (tree_items t).
Proof.
  pose proof Ht as [Hwf Hk]. unfold get_key.
  rewrite (find_exact_wf k Left (tree_items t) (keyed_monotone _ _ Hk) keyed_tree_valid) by done.
  by apply scan_exact_key.
Qed.

(** ** Batches of edits *)
Abbreviation edit_of := (Edit T K).
Implicit Types es : list edit_of.

Definition edit_lt (e1 e2 : edit_of) : Prop := olt (edit_key e1) (edit_key e2).
Definition inserted (e : edit_of) : list T := match e with Insert x => [x] | Remove _ => [] end.

(** Edits, sorted by key, on a sorted list; and what they remove. *)
Fixpoint list_edit es l : list T :=
  match es with
  | [] => l
  | e :: es => below (edit_key e) l ++ inserted e ++ list_edit es (above (edit_key e) l)
  end.
Fixpoint list_removed es l : list T :=
  match es with
  | [] => []
  | e :: es => List.filter (is_at (edit_key e)) l ++ list_removed es (above (edit_key e) l)
  end.

Lemma ge_measure_app k k' p l :
  is_ge (cmp k' (measure p)) = true → olt k k' → keyed_list (p ++ l) →
  is_ge (cmp k' (measure ((p ++ below k l) ++ List.filter (is_at k) l))) = true.
Proof.
  intros Hp Hk Hl. pose proof (keyed_list_r _ _ Hl) as [Hs _]. rewrite <-app_assoc.
  assert (keyed_list (p ++ below k l ++ List.filter (is_at k) l)) as Hl'.
  { destruct (sorted_split k l Hs) as [E _]. rewrite E, !app_assoc in Hl.
    apply keyed_list_l in Hl. by rewrite <-app_assoc in Hl. }
  destruct (nil_or_snoc (below k l ++ List.filter (is_at k) l)) as [E|(q & x & E)]; rewrite E in *.
  { by rewrite app_nil_r. }
  rewrite app_assoc in Hl' |- *. rewrite measure_key_snoc by done.
  assert (x ∈ below k l ++ List.filter (is_at k) l) as Hx by (rewrite E; apply elem_of_app; right; left).
  assert (olt (key x) k') as Hlt.
  { apply elem_of_app in Hx as [Hx%below_key_lt|[_ Hx]%list_elem_of_In%List.filter_In].
    - by eapply olt_trans.
    - apply is_at_eq in Hx. by rewrite Hx. }
  unfold olt in Hlt. by rewrite (cmp_antisym (key x) k'), Hlt.
Qed.

(** Going to the key of an edit. *)
Lemma edit_advance c nt buf p l k :
  cursor_at t c p l → wf nt → valid (tree_items nt ++ buf ++ below k l) →
  is_ge (cmp k (measure p)) = true → sorted_keys l →
  returns
    (match head l with
     | Some x =>
         if lt_b (key x) k then
           let* nt := extend nt buf in
           let* '(sl, c) := slice c k Left in
           let* nt := append nt sl in
           Ret (c, nt, [])
         else Ret (c, nt, buf)
     | None => Ret (c, nt, buf)
     end)
    (λ '(c', nt', buf'), cursor_at t c' (p ++ below k l) (from k l) ∧ wf nt' ∧
       tree_items nt' ++ buf' = tree_items nt ++ buf ++ below k l).
Proof.
  intros Hc Hnt Hv Hge Hs.
  assert (below k l = [] → returns (Ret (c, nt, buf)) (λ '(c', nt', buf'),
    cursor_at t c' (p ++ below k l) (from k l) ∧ wf nt' ∧
    tree_items nt' ++ buf' = tree_items nt ++ buf ++ below k l)) as Hstay.
  { intros E. apply returns_Ret. destruct (sorted_split k l Hs) as [El _].
    rewrite E, !app_nil_r in *. simpl in El. by rewrite <-El. }
  destruct l as [|x l]; cbn [hd_error]; [by apply Hstay|].
  change (lt_b (key x) k) with (is_below k x). destruct (is_below k x) eqn:Eb.
  - rewrite app_assoc in Hv. destruct (extend_wf nt buf Hnt) as (nt1 & -> & Hnt1 & Hi1); [by apply valid_l in Hv|].
    destruct (slice_key c p (x :: l) k (or_introl Hc) Hge) as ([sl c'] & -> & Hsl & Hisl & Hc').
    destruct (append_wf nt1 sl Hnt1 Hsl) as (nt2 & -> & Hnt2 & Hi2); [by rewrite Hi1, Hisl|].
    apply returns_Ret. split_and!; [done|done|]. by rewrite app_nil_r, Hi2, Hi1, Hisl, <-app_assoc.
  - apply Hstay. simpl. rewrite Eb. apply filter_none.
    eapply Forall_impl; [by eapply not_below_tail|]. intros y Hy; simpl in Hy.
    destruct (key_cases k y) as [(?&?&?)|[(?&?&?)|(?&?&?)]]; congruence.
Qed.

Lemma edit_loop_spec es s p l :
  cursor_at t (es_cursor s) p l → wf (es_tree s) → StronglySorted edit_lt es →
  sorted_keys l → Forall (λ e, is_ge (cmp (edit_key e) (measure p)) = true) es →
  valid (tree_items (es_tree s) ++ es_buffer s ++ list_edit es l) →
  returns (edit_loop s es) (λ s', ∃ p' l', cursor_at t (es_cursor s') p' l' ∧ wf (es_tree s') ∧
    tree_items (es_tree s') ++ es_buffer s' ++ l'
      = tree_items (es_tree s) ++ es_buffer s ++ list_edit es l ∧
    es_removed s' = es_removed s ++ list_removed es l).
Proof.
  revert s p l. induction es as [|e es IH]; intros [c nt buf rem] p l Hc Hnt Hes Hs Hge Hv; simpl in *.
  - apply returns_Ret. exists p, l. by rewrite app_nil_r.
  - apply StronglySorted_inv in Hes as [Hes Hlt]. apply Forall_cons in Hge as [Hge1 Hge].
    set (k := edit_key e) in *.
    destruct (edit_advance c nt buf p l k Hc Hnt) as ([[c1 nt1] buf1] & Hadv & Hc1 & Hnt1 & Hi1); [|done|done|].
    { rewrite 2!app_assoc in Hv. apply valid_l in Hv. by rewrite app_assoc. }
    destruct (take_match_spec c1 _ l k Hs Hc1) as ([o c2] & Htm & -> & Hc2).
    destruct (sorted_split k l Hs) as [_ Eat].
    unfold edit_step; simpl. fold k. rewrite (item_at _ (proj1 Ht) Hheight _ _ _ Hc), Hadv, Htm.
    destruct (IH (MkEditState c2 nt1 (buf1 ++ inserted e)
      (rem ++ option_list (list_get k l))) ((p ++ below k l) ++ List.filter (is_at k) l) (above k l)) as (s' & Hs' & p' & l' & Hc' & Hw' & Hi' & Hr');
      simpl; [exact Hc2|done|done|by apply sorted_filter| | |].
    + rewrite Forall_forall in Hge, Hlt |- *. intros e' He'.
apply ge_measure_app; [by apply Hge|by apply Hlt|].
      rewrite <-(cursor_at_items _ _ _ _ Hc). apply Ht.
    + rewrite <-app_assoc, app_assoc, Hi1, <-!app_assoc. done.
    + exists s'. rewrite Eat. split; [destruct e, (list_get k l); exact Hs'|].
      exists p', l'. split_and!; [done|done| |].
      * simpl in Hi'. rewrite Hi', <-app_assoc, app_assoc, Hi1, <-!app_assoc. done.
      * simpl in Hr'. rewrite Hr', <-app_assoc. done.
Qed.

Definition edit_ok (e : edit_of) : Prop := match e with Insert x => item_ok x | Remove k => is_ge (cmp k dim_zero) = true end.

Lemma elem_of_inserted e y : y ∈ inserted e ↔ e = Insert y.
Proof. destruct e; simpl; rewrite ?list_elem_of_singleton, ?elem_of_nil; split; naive_solver. Qed.

(** What is in the list after the edits: what they insert, and what they
    do not touch. *)
Lemma elem_of_list_edit es l y :
  StronglySorted edit_lt es →
  y ∈ list_edit es l ↔ Insert y ∈ es ∨ (y ∈ l ∧ key y ∉ edit_key <$> es).
Proof.
  intros Hes. revert l. induction Hes as [|e es Hes IH Hlt]; intros l; simpl.
  { rewrite !elem_of_nil. tauto. }
  rewrite !elem_of_app, elem_of_below, elem_of_inserted, IH, elem_of_above, not_elem_of_cons, elem_of_cons.
  assert (olt (key y) (edit_key e) → key y ∉ edit_key <$> es) as Hout.
  { intros Hy (e' & Ey & He')%list_elem_of_fmap. rewrite Forall_forall in Hlt.
    specialize (Hlt e' He'). unfold edit_lt in Hlt. rewrite <-Ey in Hlt.
    eapply olt_irrefl, olt_trans; [exact Hy|exact Hlt]. }
  assert (∀ k, olt k (edit_key e) ∨ olt (edit_key e) k → k ≠ edit_key e) as Hne.
  { intros k [Hk|Hk] ->; by eapply olt_irrefl. }
  pose proof (olt_trichotomy (key y) (edit_key e)).
  pose proof (Hne (key y)). split; [|naive_solver]. intros [[??]|[->|[?|[[??]?]]]]; naive_solver.
Qed.

Lemma elem_of_list_removed es l y :
  StronglySorted edit_lt es →
  y ∈ list_removed es l ↔ y ∈ l ∧ key y ∈ edit_key <$> es.
Proof.
  intros Hes. revert l. induction Hes as [|e es Hes IH Hlt]; intros l; simpl.
  { rewrite !elem_of_nil. tauto. }
  rewrite elem_of_app, elem_of_at, IH, elem_of_above, elem_of_cons.
  split; [tauto|]. intros [Hy [E|Hk]]; [tauto|]. right.
  split; [|done]. split; [done|]. apply list_elem_of_fmap in Hk as (e' & -> & He').
  rewrite Forall_forall in Hlt. by apply Hlt.
Qed.

Lemma keyed_list_edit es l :
  StronglySorted edit_lt es → Forall edit_ok es → keyed_list l → keyed_list (list_edit es l).
Proof.
  intros Hes Hok [Hs Ho]. split.
  - revert l Hs Ho. induction Hes as [|e es Hes IH Hlt]; intros l Hs Ho; simpl; [done|].
    apply Forall_cons in Hok as [Hoke Hok]. rewrite !sorted_app.
    split_and!; [by apply sorted_filter| |by apply IH; [..|apply sorted_filter|apply Forall_filter]| |].
    all: rewrite ?Forall_forall in *.
    + destruct e; simpl; [|constructor]. by repeat constructor.
    + intros y ->%elem_of_inserted. rewrite Forall_forall. intros z [Hz|[Hz _]]%elem_of_list_edit; [|by apply above_key_lt in Hz|done].
      by specialize (Hlt _ Hz).
    + intros y Hy%below_key_lt. rewrite Forall_app, !Forall_forall. split.
      * intros z ->%elem_of_inserted. done.
      * intros z [Hz|[Hz%above_key_lt _]]%elem_of_list_edit; [| |done];
          apply (olt_trans _ (edit_key e)); try done. by specialize (Hlt _ Hz).
  - rewrite !Forall_forall in *. intros y [Hy|[Hy _]]%elem_of_list_edit; [|by apply Ho|done].
    by specialize (Hok _ Hy).
Qed.

Lemma sorted_list_removed es l :
  StronglySorted edit_lt es → sorted_keys l → sorted_keys (list_removed es l).
Proof.
  intros Hes. revert l. induction Hes as [|e es Hes IH Hlt]; intros l Hs; simpl; [constructor|].
  rewrite sorted_app. split_and!; [by apply sorted_filter|by apply IH, sorted_filter|].
  rewrite Forall_forall. intros y [_ Hy]%elem_of_at. rewrite Forall_forall.
  intros z [Hz _]%elem_of_list_removed; [|done]. apply above_key_lt in Hz.
  unfold key_lt. by rewrite Hy.
Qed.

(** What [sort_unstable_by_key] promises. *)
Definition sort_spec (sort_by_key : list edit_of → list edit_of) : Prop :=
  ∀ es, sort_by_key es ≡ₚ es ∧
    StronglySorted (λ e1 e2, is_le (cmp (edit_key e1) (edit_key e2)) = true) (sort_by_key es).

Lemma sorted_strict es :
  StronglySorted (λ e1 e2, is_le (cmp (edit_key e1) (edit_key e2)) = true) es →
  NoDup (edit_key <$> es) → StronglySorted edit_lt es.
Proof.
  induction 1 as [|e es Hes IH Hle]; [constructor|]. rewrite fmap_cons, NoDup_cons.
  intros [Hni Hnd]. constructor; [by apply IH|]. rewrite Forall_forall in *. intros e' He'.
  specialize (Hle e' He'). unfold edit_lt, olt.
  destruct (cmp (edit_key e) (edit_key e')) eqn:E; [|done|done].
  apply cmp_eq in E. rewrite E in Hni. destruct Hni. by apply list_elem_of_fmap_2.
Qed.

Lemma seek_zero :
  returns (seek (cursor_new (D:=K) t) (dim_zero : K) Left) (λ '(_, c), cursor_at t c [] (tree_items t)).
Proof.
  pose proof Ht as [Hwf Hk]. pose proof Hk as [Hs Ho].
  eapply returns_mono; [eapply (seek_forward_spec t Hwf keyed_tree_valid Hheight (dim_zero : K) Left
    (keyed_monotone _ _ Hk) (cursor_new t)); [apply seekable_new|]|].
  { change (is_ge (cmp (dim_zero : K) dim_zero) = true). by rewrite cmp_refl. }
  intros [b c]. rewrite advance_key by done.
  assert (below dim_zero (tree_items t) = []) as Hz.
  { apply filter_none. eapply Forall_impl; [exact Ho|]. intros x Hx. unfold is_below, lt_b.
    pose proof (key_zero x Hx). by destruct (cmp (key x) dim_zero). }
  destruct (sorted_split dim_zero _ Hs) as [E _]. rewrite Hz in E |- *. simpl in E.
  rewrite <-E. by intros [??].
Qed.

(** What [edit] does after its loop. *)
Lemma edit_finish s p' l' L :
  cursor_at t (es_cursor s) p' l' → wf (es_tree s) →
  tree_items (es_tree s) ++ es_buffer s ++ l' = L → valid L →
  returns (let* new_tree := extend (es_tree s) (es_buffer s) in
           let* '(rest, _) := suffix (es_cursor s) in
           let* new_tree := append new_tree rest in
           Ret (es_removed s, new_tree))
    (λ '(r, t'), r = es_removed s ∧ wf t' ∧ tree_items t' = L).
Proof.
  intros Hc Hw Hi Hv. pose proof Ht as [Hwf _]. rewrite <-Hi in Hv.
  destruct (extend_wf (es_tree s) (es_buffer s) Hw) as (t1 & -> & Hw1 & Hi1).
  { rewrite app_assoc in Hv. by apply valid_l in Hv. }
  destruct (suffix_spec t Hwf keyed_tree_valid Hheight _ _ _ (or_introl Hc))
    as ([r c''] & -> & _ & Hwr & Hitr).
  destruct (append_wf t1 r Hw1 Hwr) as (t2 & -> & Hw2 & Hi2).
  { rewrite Hi1, Hitr, <-app_assoc. done. }
  rewrite Hi1, Hitr, <-app_assoc, Hi in Hi2. auto with outcomes.
Qed.

Lemma edit_spec sort_by_key es :
  sort_spec sort_by_key → NoDup (edit_key <$> es) → Forall edit_ok es →
  returns (edit sort_by_key t es) (λ '(removed, t'),
    keyed_wf t' ∧
    (∀ y, y ∈ tree_items t' ↔ Insert y ∈ es ∨ (y ∈ tree_items t ∧ key y ∉ edit_key <$> es)) ∧
    sorted_keys removed ∧
    (∀ y, y ∈ removed ↔ y ∈ tree_items t ∧ key y ∈ edit_key <$> es)).
Proof.
  intros Hsort Hnd Hok. pose proof Ht as [Hwf Hk]. pose proof Hk as [Hs _].
  destruct (decide (length es = 0)) as [->%length_zero_iff_nil|Hne].
  { apply returns_Ret. split_and!; [done| |constructor|].
    all: intros y; rewrite ?elem_of_nil; simpl; rewrite ?elem_of_nil; tauto. }
  destruct (Hsort es) as [Hperm Hes].
  apply sorted_strict in Hes; [|by rewrite Hperm].
  assert (Forall edit_ok (sort_by_key es)) as Hok' by (by rewrite Hperm).
  pose proof (keyed_list_edit _ _ Hes Hok' Hk) as Hk'.
  pose proof (keyed_list_valid _ Hk') as Hv.
  destruct seek_zero as ([b c] & Hseek & Hc).
  destruct (edit_loop_spec (sort_by_key es) (MkEditState c new [] []) [] (tree_items t))
    as (s & Hloop & p' & l' & Hc' & Hw' & Hi' & Hr'); simpl; try done.
  { by left. }
  { eapply Forall_impl; [exact Hok'|]. intros [x|k]; simpl; [apply key_zero|done]. }
  destruct (edit_finish s p' l' _ Hc' Hw' Hi' Hv) as ([r t2] & Hfin & -> & Hw2 & Hi2).
  exists (es_removed s, t2). split.
  { unfold edit. destruct es; [done|]. by rewrite Hseek, Hloop. }
  simpl in Hi2, Hr'. rewrite Hr'. split_and!; [split; [done|by rewrite Hi2]| | |].
  - intros y. rewrite Hi2, (elem_of_list_edit _ _ _ Hes). by rewrite Hperm.
  - by apply sorted_list_removed.
  - intros y. rewrite (elem_of_list_removed _ _ _ Hes). by rewrite Hperm.
Qed.
End Tree.
End KeyedFacts.

Section SortFacts.
Context {A K : Type} `{OrdLaws K} (f : A → K).
Abbreviation sorted_by := (StronglySorted (λ a b : A, is_le (cmp (f a) (f b)) = true)).

Lemma sort_insert_perm x l : sort_insert f x l ≡ₚ x :: l.
Proof.
  induction l as [|y l IH]; simpl; [done|]. destruct (le_b _ _); [done|]. rewrite IH. constructor.
Qed.

Lemma insertion_sort_perm l : insertion_sort f l ≡ₚ l.
Proof. induction l as [|x l IH]; simpl; [done|]. by rewrite sort_insert_perm, IH. Qed.

Lemma sort_insert_sorted x l : sorted_by l → sorted_by (sort_insert f x l).
Proof.
  induction 1 as [|y l Hs IH Hle]; simpl; [by repeat constructor|].
  destruct (le_b (f x) (f y)) eqn:E.
  - constructor; [by constructor|]. constructor; [done|]. eapply Forall_impl; [done|].
    intros z Hz. by eapply (le_b_trans (f x) (f y)).
  - constructor; [done|]. rewrite sort_insert_perm. constructor; [|done].
    apply le_b_false in E. unfold olt in E. by rewrite E.
Qed.

Lemma insertion_sort_sorted l : sorted_by (insertion_sort f l).
Proof. induction l as [|x l IH]; simpl; [constructor|by apply sort_insert_sorted]. Qed.
End SortFacts.

Lemma insertion_sort_spec {T K} `{OrdLaws K} `{KeyedItem T K} :
  sort_spec (T:=T) (insertion_sort edit_key).
Proof. intros es. split; [apply insertion_sort_perm|apply insertion_sort_sorted]. Qed.
