(* ===== verification/TreeMap.v ===== *)
(** * Ordered maps and sets ([crates/sum_tree/src/tree_map.rs]) *)
From stdpp Require Import base numbers option list sorting.
From Stdlib Require Import Lia.
From S2P Require Import Prelude SumTree SumTreeFacts SumTreeBulk Cursor CursorFacts CursorSeek CursorMove CursorIter Keyed KeyedFacts.
#[local] Opaque TREE_BASE av_cap.

Record MapEntry (K V : Type) := MkMapEntry { me_key : K; me_value : V }.
Arguments MkMapEntry {K V}.
Arguments me_key {K V}.
Arguments me_value {K V}.

(** [MapKey(Option<K>)] and [MapKeyRef(Option<&K>)]: the last key of a run. *)
Abbreviation MapKey := option.

(** [trait MapSeekTarget] and [MapSeekTargetAdaptor] *)
Class MapSeekTarget (Tg K : Type) := cmp_cursor : Tg → K → comparison.
#[export] Instance key_map_seek_target {K} `{Ord K} : MapSeekTarget K K := cmp.
Record MapSeekTargetAdaptor (Tg : Type) := MkAdaptor { adapted : Tg }.
Arguments MkAdaptor {Tg}.
Arguments adapted {Tg}.

Section Instances.
Context {K V : Type} `{Ord K}.

#[export] Instance MapKey_summary : Summary (MapKey K) :=
  {| zero := None; add_summary := λ _ s, s |}.
#[export] Instance MapEntry_item : Item (MapEntry K V) (MapKey K) := λ e, Some (me_key e).
#[export] Instance MapEntry_keyed : KeyedItem (MapEntry K V) (MapKey K) := λ e, Some (me_key e).
#[export] Instance MapKey_dimension : Dimension (MapKey K) (MapKey K) :=
  {| dim_zero := None; dim_add := λ _ s, s |}.
(** [MapKeyRef] compares by [Ord::cmp] of the options. *)
#[export] Existing Instance key_target.
#[export] Instance Adaptor_target {Tg} `{MapSeekTarget Tg K} :
  SeekTarget (MapSeekTargetAdaptor Tg) (MapKey K) :=
  λ a loc, match loc with Some k => cmp_cursor (adapted a) k | None => Gt end.
End Instances.

Definition TreeMap (K V : Type) : Type := SumTree (MapEntry K V) (MapKey K).

Section TreeMap.
Context {K V : Type} `{Ord K}.
Context (sort_by_key : list (Edit (MapEntry K V) (MapKey K)) → list (Edit (MapEntry K V) (MapKey K))).
Abbreviation map := (TreeMap K V).
Implicit Types self : map.

Definition pair_of (e : MapEntry K V) : K * V := (me_key e, me_value e).
Definition entry_of (kv : K * V) : MapEntry K V := MkMapEntry kv.1 kv.2.

Definition from_ordered_entries (entries : list (K * V)) : outcome map :=
  from_iter (entry_of <$> entries).

Definition map_is_empty self : bool := is_empty self.

Definition map_get self (k : K) : option V :=
  let '(_, _, item) := find self (Some k : MapKey K) Left in
  match item with
  | Some item => if key_eqb (Some k) (key item) then Some (me_value item) else None
  | None => None
  end.

Definition contains_key self (k : K) : bool :=
  match map_get self k with Some _ => true | None => false end.

Definition map_insert self (k : K) (v : V) : outcome map :=
  let* '(_, self) := insert_or_replace self (MkMapEntry k v) in Ret self.

Definition map_insert_or_replace self (k : K) (v : V) : outcome (option V * map) :=
  let* '(o, self) := insert_or_replace self (MkMapEntry k v) in
  Ret (me_value <$> o, self).

Definition map_extend self (entries : list (K * V)) : outcome map :=
  let* '(_, self) := edit sort_by_key self ((λ kv, Insert (entry_of kv)) <$> entries) in
  Ret self.

Definition map_clear self : map := new.

(** [if key.cmp(&cursor.end(), ()) == Ordering::Equal] *)
Definition at_key (k : MapKey K) (c : Cursor (MapEntry K V) (MapKey K) (MapKey K)) : outcome bool :=
  let* e := end_ c in Ret (match seek_cmp k e with Eq => true | _ => false end).

Definition map_remove self (k : K) : outcome (option V * map) :=
  let k := Some k : MapKey K in
  let* '(new_tree, c) := slice (cursor_new (D:=MapKey K) self) k Left in
  let* b := at_key k c in
  let* '(removed, c) :=
    if (b : bool) then
      let* i := item c in
      let* x := unwrap i in
      let* c := next c in
      Ret (Some (me_value x), c)
    else Ret (None, c) in
  let* '(rest, _) := suffix c in
  let* new_tree := append new_tree rest in
  Ret (removed, new_tree).

Definition remove_range {Tg1 Tg2} `{MapSeekTarget Tg1 K, MapSeekTarget Tg2 K}
    self (start : Tg1) (end_ : Tg2) : outcome map :=
  let* '(new_tree, c) := slice (cursor_new (D:=MapKey K) self) (MkAdaptor start) Left in
  let* '(_, c) := seek c (MkAdaptor end_) Left in
  let* '(rest, _) := suffix c in
  append new_tree rest.

Definition closest self (k : K) : outcome (option (K * V)) :=
  let* '(_, c) := seek (cursor_new (D:=MapKey K) self) (Some k : MapKey K) Right in
  let* c := prev c in
  let* i := item c in
  Ret (pair_of <$> i).

(** The entries the returned iterator yields. *)
Definition iter_from self (from : K) : outcome (list (K * V)) :=
  let* '(_, c) := seek (cursor_new (D:=MapKey K) self) (Some from : MapKey K) Left in
  let* l := cursor_collect c in
  Ret (pair_of <$> l).

Definition map_update {R} self (k : K) (f : V → R * V) : outcome (option R * map) :=
  let k := Some k : MapKey K in
  let* '(new_tree, c) := slice (cursor_new (D:=MapKey K) self) k Left in
  let* b := at_key k c in
  let* '(result, new_tree, c) :=
    if (b : bool) then
      let* i := item c in
      let* x := unwrap i in
      let '(r, v) := f (me_value x) in
      let* new_tree := push new_tree (MkMapEntry (me_key x) v) in
      let* c := next c in
      Ret (Some r, new_tree, c)
    else Ret (None, new_tree, c) in
  let* '(rest, _) := suffix c in
  let* new_tree := append new_tree rest in
  Ret (result, new_tree).

Definition retain self (predicate : K → V → bool) : outcome map :=
  let* c := next (cursor_new (D:=MapKey K) self) in
  loop (λ '(c, new_map),
          let* i := item c in
          match i with
          | Some x =>
              let* new_map :=
                if predicate (me_key x) (me_value x) then push new_map x else Ret new_map in
              let* c := next c in
              Ret (inl (c, new_map))
          | None => Ret (inr new_map)
          end) (S (tree_size self)) (c, new).

(** What [iter] and [values] yield. *)
Definition map_iter self : outcome (list (K * V)) :=
  let* l := iter_collect self in Ret (pair_of <$> l).
Definition map_values self : outcome (list V) :=
  let* l := iter_collect self in Ret (me_value <$> l).

Definition map_first self : outcome (option (K * V)) :=
  let* o := first self in Ret (pair_of <$> o).
Definition map_last_entry self : outcome (option (K * V)) :=
  let* o := last_item self in Ret (pair_of <$> o).

Definition insert_tree self (other : map) : outcome map :=
  let* l := map_iter other in
  let* '(_, self) := edit sort_by_key self ((λ kv, Insert (entry_of kv)) <$> l) in
  Ret self.
End TreeMap.

(** ** [TreeSet] *)
Definition TreeSet (K : Type) : Type := TreeMap K unit.

Section TreeSet.
Context {K : Type} `{Ord K}.
Abbreviation set := (TreeSet K).
Implicit Types self : set.

Definition set_from_ordered_entries (entries : list K) : outcome set :=
  from_ordered_entries ((λ k, (k, tt)) <$> entries).
Definition set_is_empty self : bool := map_is_empty self.
Definition set_insert self (k : K) : outcome set := map_insert self k tt.
Definition set_remove self (k : K) : outcome (bool * set) :=
  let* '(o, self) := map_remove self k in
  Ret (match o with Some _ => true | None => false end, self).
Definition set_extend sort_by_key self (ks : list K) : outcome set :=
  map_extend sort_by_key self ((λ k, (k, tt)) <$> ks).
Definition set_contains self (k : K) : bool :=
  match map_get self k with Some _ => true | None => false end.
Definition set_iter self : outcome (list K) :=
  let* l := map_iter self in Ret (fst <$> l).
Definition set_iter_from self (k : K) : outcome (list K) :=
  let* l := iter_from self k in Ret (fst <$> l).
End TreeSet.
