(* ===== verification/TreeMapFacts.v ===== *)
(** * Correctness of [TreeMap]

    A tree map stands for the finite map [lookup_map]; every operation is
    specified on it.  The order of iteration is the order of the keys. *)
From stdpp Require Import base numbers option list sorting.
From Stdlib Require Import Lia.
From S2P Require Import Prelude SumTree SumTreeFacts SumTreeBulk Cursor CursorFacts CursorSeek CursorMove CursorIter Keyed KeyedFacts TreeMap.
#[local] Opaque TREE_BASE av_cap.

Section Laws.
Context {K V : Type} `{OrdLaws K}.
Abbreviation entry := (MapEntry K V).
Implicit Types l : list entry.

Lemma map_foldl_last (a : MapKey K) l :
  foldl (λ _ s, s) a (item_summary_of <$> l) = from_option item_summary_of a (last l).
Proof.
  destruct (nil_or_snoc l) as [->|(l' & x & ->)]; [done|].
  by rewrite fmap_app, foldl_app, last_snoc.
Qed.

Lemma map_total l : total l = from_option item_summary_of None (last l).
Proof. apply map_foldl_last. Qed.

#[export] Instance MapEntry_summary_laws : SummaryLaws entry (MapKey K).
Proof.
  refine {| valid := λ _, True |}; try done. intros l1 l2 _ Hl2 _.
  rewrite !map_total, last_app_nonnil by done. done.
Defined.

#[export] Instance MapEntry_dimension_laws : DimensionLaws (MapKey K) entry (MapKey K).
Proof.
  split; [|done]. intros l1 l2 Hl2 _. simpl.
  unfold measure. rewrite map_total, map_foldl_last, last_app_nonnil by done.
  destruct (last l2) eqn:E; [done|]. by apply last_None in E.
Qed.

#[export] Instance MapEntry_keyed_laws : KeyedLaws entry (MapKey K) (MapKey K).
Proof. refine {| item_ok := λ _, True |}; try done. intros p x _ _. by rewrite measure_snoc. Defined.
End Laws.

Section MapFacts.
Context {K V : Type} `{OrdLaws K}.
Abbreviation entry := (MapEntry K V).
Abbreviation map := (TreeMap K V).
Implicit Types (m : map) (k : K) (v : V).

(** The invariant, and the finite map a tree stands for. *)
Definition map_wf m : Prop := keyed_wf m.
Definition lookup_map m k : option V := me_value <$> list_get (Some k) (tree_items m).

Lemma map_wf_intro m : wf m → sorted_keys (tree_items m) → map_wf m.
Proof. intros Hw Hs. split; [done|]. split; [done|]. by apply Forall_forall. Qed.

Lemma lookup_map_Some m k v :
  map_wf m → lookup_map m k = Some v ↔ MkMapEntry k v ∈ tree_items m.
Proof.
  intros [_ [Hs _]]. unfold lookup_map. rewrite fmap_Some. split.
  - intros ([k' v'] & [Hx Ek]%list_get_Some & ->); [|done]. injection Ek as ->. done.
  - intros Hx. exists (MkMapEntry k v). split; [|done]. by apply list_get_Some.
Qed.

Lemma lookup_map_None m k : lookup_map m k = None ↔ ∀ v, MkMapEntry k v ∉ tree_items m.
Proof.
  unfold lookup_map. rewrite fmap_None, list_get_None. split.
  - intros Hn v Hx. by apply (Hn _ Hx).
  - intros Hn [k' v'] Hx E. injection E as ->. by apply (Hn v').
Qed.

(** Lookup is determined by membership. *)
Lemma lookup_map_ext m k (o : option V) :
  map_wf m → (∀ v, MkMapEntry k v ∈ tree_items m ↔ o = Some v) → lookup_map m k = o.
Proof.
  intros Hm Hx. destruct o as [v|].
  - apply lookup_map_Some; [done|]. by apply Hx.
  - apply lookup_map_None. intros v Hv%Hx. done.
Qed.

Lemma map_measure_snoc (p : list entry) x : measure (D:=MapKey K) (p ++ [x]) = key x.
Proof. by rewrite measure_snoc. Qed.
Lemma map_measure (p : list entry) : measure (D:=MapKey K) p = from_option key None (last p).
Proof. destruct (nil_or_snoc p) as [->|(p' & x & ->)]; [done|]. by rewrite map_measure_snoc, last_snoc. Qed.
Lemma map_keyed_list (l : list entry) : sorted_keys l → keyed_list l.
Proof. intros Hs. split; [done|]. by apply Forall_forall. Qed.

Lemma map_get_spec m k : map_wf m → map_get m k = lookup_map m k.
Proof.
  intros Hm. pose proof Hm as [Hw [Hs Ho]]. unfold map_get.
  rewrite (find_wf (Some k) Left (tree_items m)); [|by apply keyed_monotone, Hm|done..].
  rewrite advance_key by done. unfold lookup_map.
  destruct (sorted_split (Some k) (tree_items m) Hs) as [_ ->].
  destruct (list_get (Some k) (tree_items m)) as [x|] eqn:E; simpl.
  - apply list_get_Some in E as [_ Ek]; [|done]. unfold key_eqb. by rewrite Ek, cmp_refl.
  - destruct (List.filter _ _) as [|y l] eqn:Ey; [done|]. simpl.
    assert (key_eqb (Some k) (key y) = false) as ->; [|done].
    assert (olt (Some k) (key y)) as Hy.
    { apply (above_key_lt (Some k) (tree_items m)). rewrite Ey. left. }
    unfold key_eqb. unfold olt in Hy. by rewrite Hy.
Qed.

Lemma lookup_insert_list m m' x k :
  map_wf m → map_wf m' → tree_items m' = list_insert x (tree_items m) →
  lookup_map m' k = match cmp k (me_key x) with Eq => Some (me_value x) | _ => lookup_map m k end.
Proof.
  intros Hm Hm' Hi. apply lookup_map_ext; [done|]. intros v.
  rewrite Hi, elem_of_list_insert. unfold key, MapEntry_keyed; simpl.
  assert (cmp k (me_key x) = Eq ↔ k = me_key x) as Hk by apply cmp_eq. destruct x as [kx vx]; simpl in *.
  rewrite <-(lookup_map_Some m k v Hm). destruct (cmp k kx); naive_solver.
Qed.

Lemma lookup_remove_list m m' k0 k :
  map_wf m → map_wf m' → tree_items m' = list_remove (Some k0) (tree_items m) →
  lookup_map m' k = match cmp k k0 with Eq => None | _ => lookup_map m k end.
Proof.
  intros Hm Hm' Hi. apply lookup_map_ext; [done|]. intros v.
  rewrite Hi, elem_of_list_remove. unfold key, MapEntry_keyed; simpl.
  assert (cmp k k0 = Eq ↔ k = k0) as Hk by apply cmp_eq.
  rewrite <-(lookup_map_Some m k v Hm). destruct (cmp k k0); naive_solver.
Qed.

Section Ops.
Context (m : map) (Hm : map_wf m) (Hheight : height m < STACK_CAP).

Lemma map_insert_or_replace_spec k v :
  returns (map_insert_or_replace m k v) (λ '(o, m'), o = lookup_map m k ∧ map_wf m' ∧
    ∀ k', lookup_map m' k' = match cmp k' k with Eq => Some v | _ => lookup_map m k' end).
Proof.
  unfold map_insert_or_replace.
  destruct (insert_or_replace_spec m Hm Hheight (MkMapEntry k v)) as ([o m'] & -> & -> & Hm' & Hi); [done|].
  apply returns_Ret. split_and!; [done|done|]. intros k'.
  by rewrite (lookup_insert_list _ _ _ k' Hm Hm' Hi).
Qed.

Lemma map_insert_spec k v :
  returns (map_insert m k v) (λ m', map_wf m' ∧
    ∀ k', lookup_map m' k' = match cmp k' k with Eq => Some v | _ => lookup_map m k' end).
Proof.
  unfold map_insert.
  destruct (insert_or_replace_spec m Hm Hheight (MkMapEntry k v)) as ([o m'] & -> & -> & Hm' & Hi); [done|].
  apply returns_Ret. split; [done|]. intros k'. by rewrite (lookup_insert_list _ _ _ k' Hm Hm' Hi).
Qed.

Abbreviation its := (tree_items m).
Abbreviation below k := (List.filter (is_below k)).
Abbreviation above k := (List.filter (is_above k)).

Lemma map_valid (l : list entry) : valid l.
Proof. done. Qed.

Lemma at_key_spec c k :
  cursor_at m c (below (Some k) its) (List.filter (is_at (Some k)) its ++ above (Some k) its) →
  at_key (Some k) c = Ret (match list_get (Some k) its with Some _ => true | None => false end).
Proof.
  intros Hc. pose proof Hm as [Hw [Hs _]]. unfold at_key.
  rewrite (end_at _ Hw Hheight _ _ _ Hc). f_equal. unfold end_of.
  destruct (sorted_split (Some k) its Hs) as [_ ->].
  unfold seek_cmp, key_target, ord_seek_target.
  destruct (list_get (Some k) its) as [x|] eqn:E; simpl.
  - apply list_get_Some in E as [_ Ek]; [|done]. by rewrite map_measure_snoc, Ek, cmp_refl.
  - destruct (above (Some k) its) as [|y l] eqn:Ey; simpl.
    + rewrite map_measure. destruct (last (below (Some k) its)) as [x|] eqn:El; [|done]. simpl.
      apply last_Some_elem_of, below_key_lt in El. unfold olt in El.
      by rewrite (cmp_antisym (key x) (Some k)), El.
    + rewrite map_measure_snoc.
      assert (olt (Some k) (key y)) as Hy by (apply (above_key_lt (Some k) its); rewrite Ey; left).
      unfold olt in Hy. by rewrite Hy.
Qed.

(** Taking out the entry with a key, as [remove] and [update] do. *)
Lemma slice_at_key k :
  ∃ s c, slice (cursor_new (D:=MapKey K) m) (Some k : MapKey K) Left = Ret (s, c) ∧
    wf s ∧ tree_items s = below (Some k) its ∧
    cursor_at m c (below (Some k) its) (List.filter (is_at (Some k)) its ++ above (Some k) its) ∧
    at_key (Some k) c = Ret (match list_get (Some k) its with Some _ => true | None => false end) ∧
    match list_get (Some k) its with
    | Some x => item c = Ret (Some x) ∧ me_key x = k ∧ ∃ c', next c = Ret c' ∧
        ∃ p, cursor_at m c' p (above (Some k) its)
    | None => cursor_at m c (below (Some k) its) (above (Some k) its)
    end.
Proof.
  pose proof Hm as [Hw [Hs _]].
  destruct (slice_key m Hm Hheight _ _ _ (Some k) (seekable_new m) eq_refl)
    as ([s c] & Hsl & Hws & Hits & Hc). exists s, c. simpl in Hc.
  split_and!; [done|done|done|done|by apply at_key_spec|].
  destruct (sorted_split (Some k) its Hs) as [_ E]. rewrite E in Hc.
  destruct (list_get (Some k) its) as [x|] eqn:Eg; simpl in Hc; [|done].
  rewrite (item_at _ Hw Hheight _ _ _ Hc). split; [done|].
  apply list_get_Some in Eg as [_ Ek]; [|done]. split; [by injection Ek|].
  destruct (next_at m Hw (map_valid _) Hheight _ _ _ Hc) as (c' & -> & Hc'). simpl in Hc'.
  exists c'. split; [done|]. by eexists.
Qed.

(** Putting back what follows. *)
Lemma append_suffix c p l s :
  cursor_at (D:=MapKey K) m c p l → wf s →
  returns (let* '(rest, _) := suffix c in append s rest)
    (λ m', wf m' ∧ tree_items m' = tree_items s ++ l).
Proof.
  intros Hc Hs. pose proof Hm as [Hw _].
  destruct (suffix_spec m Hw (map_valid _) Hheight _ _ _ (or_introl Hc)) as ([r c'] & -> & _ & Hr & <-).
  by apply append_wf.
Qed.

Lemma map_remove_spec k :
  returns (map_remove m k) (λ '(o, m'), o = lookup_map m k ∧ map_wf m' ∧
    ∀ k', lookup_map m' k' = match cmp k' k with Eq => None | _ => lookup_map m k' end).
Proof.
  pose proof Hm as [Hw [Hs _]]. unfold map_remove.
  destruct (slice_at_key k) as (s & c & -> & Hws & Hits & Hc & -> & Hat).
  assert (∃ o c' p, (if match list_get (Some k) its with Some _ => true | None => false end then
      let* i := item c in let* x := unwrap i in let* c := next c in Ret (Some (me_value x), c)
    else Ret (None, c)) = Ret (o, c') ∧ o = lookup_map m k ∧ cursor_at m c' p (above (Some k) its))
    as (o & c' & p & -> & -> & Hc').
  { unfold lookup_map. destruct (list_get (Some k) its) as [x|].
    - destruct Hat as (-> & _ & c' & Hn & p & Hc'). simpl. rewrite Hn. by eexists _, _, _.
    - by eexists _, _, _. }
  destruct (append_suffix c' p _ s Hc' Hws) as (m' & Happ & Hw' & Hi').
  destruct (suffix c') as [[r c'']| |]; [|done|done]. rewrite Happ. apply returns_Ret.
  rewrite Hits in Hi'.
  assert (map_wf m') as Hm' by (apply map_wf_intro; [done|]; rewrite Hi'; by apply sorted_remove).
  split_and!; [done|done|]. intros k'. by apply (lookup_remove_list _ _ _ _ Hm Hm' Hi').
Qed.

Lemma map_update_spec {R} k (f : V → R * V) :
  returns (map_update m k f) (λ '(o, m'), o = fst <$> (f <$> lookup_map m k) ∧ map_wf m' ∧
    ∀ k', lookup_map m' k' =
      match cmp k' k with Eq => snd <$> (f <$> lookup_map m k) | _ => lookup_map m k' end).
Proof.
  pose proof Hm as [Hw [Hs _]]. unfold map_update.
  destruct (slice_at_key k) as (s & c & -> & Hws & Hits & Hc & -> & Hat).
  destruct (list_get (Some k) its) as [x|] eqn:Eg.
  - destruct Hat as (-> & Ek & c' & Hn & p & Hc'). simpl. destruct (f (me_value x)) as [r v] eqn:Ef.
    destruct (push_wf s (MkMapEntry (me_key x) v) Hws (map_valid _)) as (s2 & -> & Hws2 & Hi2). rewrite Hn.
    destruct (append_suffix c' p _ s2 Hc' Hws2) as (m' & Happ & Hw' & Hi').
    destruct (suffix c') as [[r' c'']| |]; [|done|done]. rewrite Happ. apply returns_Ret.
    assert (lookup_map m k = Some (me_value x)) as -> by (unfold lookup_map; by rewrite Eg).
    rewrite Hi2, Hits, <-app_assoc in Hi'. simpl. rewrite Ef. simpl. rewrite Ek in Hi'.
    change (tree_items m' = list_insert (MkMapEntry k v) its) in Hi'.
    assert (map_wf m') as Hm' by (apply map_wf_intro; [done|]; rewrite Hi'; by apply sorted_insert).
    split_and!; [done|done|]. intros k'. by apply (lookup_insert_list _ _ _ _ Hm Hm' Hi').
  - destruct (append_suffix c _ _ s Hat Hws) as (m' & Happ & Hw' & Hi').
    destruct (suffix c) as [[r' c'']| |]; [|done|done]. rewrite Happ. apply returns_Ret.
    assert (lookup_map m k = None) as Hk by (unfold lookup_map; by rewrite Eg).
    rewrite Hits in Hi'. rewrite Hk. simpl.
    assert (map_wf m') as Hm' by (apply map_wf_intro; [done|]; rewrite Hi'; by apply sorted_remove).
    split_and!; [done|done|]. intros k'. by apply (lookup_remove_list _ _ _ _ Hm Hm' Hi').
Qed.

(** ** Queries by position *)
Definition entries : list (K * V) := pair_of <$> its.

Lemma filter_fmap {A B} (g : A → B) (f : B → bool) (l : list A) :
  List.filter f (g <$> l) = g <$> List.filter (λ x, f (g x)) l.
Proof. induction l as [|x l IH]; csimpl; [done|]. rewrite IH. by destruct (f (g x)). Qed.

(** The entries a seek to a key passes. *)
Definition passed (k : K) (bias : Bias) (x : entry) : bool :=
  match bias with Left => lt_b (me_key x) k | Right => le_b (me_key x) k end.

Lemma past_passed k bias (x : entry) :
  target_past (Some k : MapKey K) bias (key x) = passed k bias x.
Proof.
  unfold target_past, passed, seek_cmp, key_target, ord_seek_target, key, MapEntry_keyed, le_b, lt_b.
  unfold cmp at 1, option_ord. rewrite (cmp_antisym (me_key x) k).
  by destruct (cmp (me_key x) k), bias.
Qed.

Lemma seek_key k bias :
  returns (seek (cursor_new (D:=MapKey K) m) (Some k : MapKey K) bias) (λ '(_, c),
    cursor_at m c (List.filter (passed k bias) its)
      (List.filter (λ x, negb (passed k bias x)) its)).
Proof.
  pose proof Hm as [Hw [Hs _]].
  eapply returns_mono; [eapply (seek_forward_spec m Hw (map_valid _) Hheight (Some k : MapKey K) bias
    (keyed_monotone _ _ (map_keyed_list _ Hs))); [apply seekable_new|done]|].
  intros [b c]. rewrite advance_filter by (apply past_mono || by apply map_keyed_list). intros [Hc _]. simpl in Hc.
  rewrite (List.filter_ext _ _ (past_passed k bias)) in Hc.
  erewrite (List.filter_ext (λ x, negb (target_past _ _ _))) in Hc; [exact Hc|].
  intros x. simpl. by rewrite past_passed.
Qed.

Lemma closest_spec k :
  closest m k = Ret (option_map pair_of (last (List.filter (passed k Right) its))).
Proof.
  pose proof Hm as [Hw [Hs _]]. unfold closest.
  destruct (seek_key k Right) as ([b c] & -> & Hc).
  destruct (prev_at m Hw (map_valid _) Hheight _ _ _ Hc) as (c' & -> & Hc'). unfold stepped_back in Hc'.
  destruct (last _) as [x|].
  - by rewrite (item_at _ Hw Hheight _ _ _ Hc').
  - destruct Hc' as ((_ & Hst & _) & Hd). unfold item, assert_did_seek. by rewrite Hd, Hst.
Qed.

Lemma iter_from_spec k :
  iter_from m k = Ret (List.filter (λ kv, negb (lt_b kv.1 k)) entries).
Proof.
  pose proof Hm as [Hw [Hs _]]. unfold iter_from.
  destruct (seek_key k Left) as ([b c] & -> & Hc).
  rewrite (cursor_collect_at m Hw (map_valid _) Hheight _ _ _ Hc).
  unfold entries. by rewrite filter_fmap.
Qed.

Lemma map_iter_spec : map_iter m = Ret entries.
Proof.
  pose proof Hm as [Hw _]. unfold map_iter. by rewrite (iter_collect_wf m Hw Hheight).
Qed.

(** A range target: lower keys compare higher. *)
Definition map_target_mono {Tg} `{MapSeekTarget Tg K} (tg : Tg) : Prop :=
  ∀ k1 k2 : K, olt k1 k2 → cmp_rank (cmp_cursor tg k2) ≤ cmp_rank (cmp_cursor tg k1).

Definition before_target {Tg} `{MapSeekTarget Tg K} (tg : Tg) (x : entry) : bool :=
  match cmp_cursor tg (me_key x) with Gt => true | _ => false end.

Lemma adaptor_monotone {Tg} `{MapSeekTarget Tg K} (tg : Tg) :
  map_target_mono tg → monotone_target (D:=MapKey K) (MkAdaptor tg) its.
Proof.
  intros Htg l1 l2 l3 E. pose proof Hm as [_ [Hs _]]. rewrite E, app_assoc in Hs.
  apply sorted_app in Hs as (Hs & _). apply sorted_app in Hs as (_ & _ & Hlt).
  destruct (nil_or_snoc l2) as [->|(l2' & y & ->)]; [by rewrite app_nil_r|].
  rewrite app_assoc, map_measure_snoc.
  destruct (nil_or_snoc l1) as [->|(l1' & x & ->)].
  { unfold seek_cmp, Adaptor_target; simpl. by destruct (cmp_cursor _ _); simpl; lia. }
  rewrite map_measure_snoc. apply Forall_app in Hlt as [_ Hlt]. apply Forall_cons in Hlt as [Hlt _].
  apply Forall_app in Hlt as [_ Hlt]. apply Forall_cons in Hlt as [Hlt _].
  by apply Htg.
Qed.

Lemma advance_adaptor {Tg} `{MapSeekTarget Tg K} (tg : Tg) :
  map_target_mono tg →
  advance (target_past (MkAdaptor tg) Left) [] its
  = (List.filter (before_target tg) its, List.filter (λ x, negb (before_target tg x)) its).
Proof.
  intros Htg. pose proof Hm as [_ [Hs _]]. rewrite advance_filter; [done| |by apply map_keyed_list].
  intros x y Hxy. rewrite !target_past_rank. pose proof (Htg _ _ Hxy) as Hle.
  change (cmp_rank (cmp_cursor tg (me_key y)) ≤ cmp_rank (cmp_cursor tg (me_key x))) in Hle.
  unfold seek_cmp, Adaptor_target. simpl. lia.
Qed.

Lemma remove_range_spec {Tg1 Tg2} `{MapSeekTarget Tg1 K, MapSeekTarget Tg2 K} (tg1 : Tg1) (tg2 : Tg2) :
  map_target_mono tg1 → map_target_mono tg2 →
  (∀ x, before_target tg1 x = true → before_target tg2 x = true) →
  returns (remove_range m tg1 tg2) (λ m', map_wf m' ∧
    tree_items m' = List.filter (λ x, before_target tg1 x || negb (before_target tg2 x)) its).
Proof.
  intros Hm1 Hm2 Hle. pose proof Hm as [Hw [Hs _]]. unfold remove_range.
  destruct (slice_spec m Hw (map_valid _) Hheight (MkAdaptor tg1) Left (adaptor_monotone tg1 Hm1) _ _ _
    (seekable_new m) eq_refl) as ([s1 c] & -> & Hc). rewrite advance_adaptor in Hc by done.
  destruct Hc as (Hc & Hws & Hi1). simpl in Hi1.
  unfold seek. assert (reset c = cursor_new m) as ->.
  { destruct Hc as (Ht & _). unfold reset. by rewrite Ht. }
  destruct (seek_forward_spec m Hw (map_valid _) Hheight (MkAdaptor tg2) Left (adaptor_monotone tg2 Hm2)
    _ _ _ (seekable_new m) eq_refl) as ([b c2] & -> & Hc2). rewrite advance_adaptor in Hc2 by done.
  destruct Hc2 as [Hc2 _].
  destruct (append_suffix c2 _ _ s1 Hc2 Hws) as (m' & Happ & Hw' & Hi').
  exists m'. split; [done|]. rewrite <-Hi1 in Hi'.
  assert (tree_items m' = List.filter (λ x, before_target tg1 x || negb (before_target tg2 x)) its) as Hi2.
  { rewrite Hi'. clear -Hle Hs Hm1 H0. induction its as [|x l IH]; [done|].
    apply sorted_cons in Hs as [Hx Hs]. simpl. specialize (IH Hs).
    destruct (before_target tg1 x) eqn:E1; simpl; [by rewrite (Hle x E1); simpl; rewrite IH|].
    assert (List.filter (before_target tg1) l = []) as En.
    { apply filter_none. eapply Forall_impl; [exact Hx|]. intros y Hy.
      unfold before_target in *. pose proof (Hm1 _ _ Hy) as Hr.
      change (cmp_rank (cmp_cursor tg1 (me_key y)) ≤ cmp_rank (cmp_cursor tg1 (me_key x))) in Hr.
      destruct (cmp_cursor tg1 (me_key x)), (cmp_cursor tg1 (me_key y)); simpl in *; try done; lia. }
    rewrite En in IH |- *. simpl in *. by destruct (negb (before_target tg2 x)); rewrite <-IH. }
  split; [|done]. apply map_wf_intro; [done|]. rewrite Hi2. by apply sorted_filter.
Qed.

Lemma retain_spec (pred : K → V → bool) :
  returns (retain m pred) (λ m', map_wf m' ∧
    tree_items m' = List.filter (λ x, pred (me_key x) (me_value x)) its).
Proof.
  pose proof Hm as [Hw [Hs _]]. unfold retain.
  destruct (next_begin m Hw (map_valid _) Hheight (cursor_new (D:=MapKey K) m)) as (c & -> & Hc); [done|].
  set (f := λ x : entry, pred (me_key x) (me_value x)).
  eapply returns_mono; [eapply (loop_bounded _
    (λ n '(c, nm), ∃ p l, cursor_at m c p l ∧ wf nm ∧ tree_items nm = List.filter f p ∧ n = length l)
    (λ nm, wf nm ∧ tree_items nm = List.filter f its)) with (n := length its)|].
  - intros n [c' nm] (p & l & Hc' & Hnm & Hi & ->). rewrite (item_at _ Hw Hheight _ _ _ Hc').
    destruct l as [|x l]; simpl; [right|left].
    + eexists. split; [reflexivity|]. split; [done|].
      by rewrite (cursor_at_items _ _ _ _ Hc'), app_nil_r.
    + destruct (next_at m Hw (map_valid _) Hheight _ _ _ Hc') as (c'' & -> & Hc'').
      change (pred (me_key x) (me_value x)) with (f x).
      assert (∃ nm', (if f x then push nm x else Ret nm) = Ret nm' ∧ wf nm' ∧
        tree_items nm' = List.filter f (p ++ [x])) as (nm' & -> & Hnm' & Hi').
      { rewrite List.filter_app. simpl. destruct (f x).
        - destruct (push_wf nm x Hnm (map_valid _)) as (nm' & -> & ? & ?).
          exists nm'. by rewrite <-Hi.
        - exists nm. by rewrite app_nil_r. }
      eexists _, (length l). split; [reflexivity|]. split; [|lia]. exists (p ++ [x]), l. by split_and!.
  - exists [], its. split_and!; [done|by left|done|done].
  - destruct Hw as [->|[h Ht]]; [simpl; lia|]. apply length_items_size in Ht. lia.
  - intros m' [Hw' Hi']. split; [|done]. apply map_wf_intro; [done|]. rewrite Hi'. by apply sorted_filter.
Qed.

Lemma map_extend_spec sort_by_key (kvs : list (K * V)) :
  sort_spec sort_by_key → NoDup kvs.*1 →
  returns (map_extend sort_by_key m kvs) (λ m', map_wf m' ∧
    ∀ k v, lookup_map m' k = Some v ↔
      (k, v) ∈ kvs ∨ (k ∉ kvs.*1 ∧ lookup_map m k = Some v)).
Proof.
  intros Hsort Hnd. unfold map_extend.
  assert (∀ k, (Some k : MapKey K) ∈ edit_key <$> ((λ kv : K * V, Insert (entry_of kv)) <$> kvs) ↔ k ∈ kvs.*1) as Hkeys.
  { intros k. rewrite <-list_fmap_compose, !list_elem_of_fmap. split.
    - intros ([k' v] & [= ->] & Hk). by exists (k', v).
    - intros ([k' v] & -> & Hk). by exists (k', v). }
  destruct (edit_spec m Hm Hheight sort_by_key ((λ kv, Insert (entry_of kv)) <$> kvs) Hsort)
    as ([removed m'] & -> & Hm' & Hin & _).
  { rewrite <-list_fmap_compose. rewrite (list_fmap_ext _ (Some ∘ fst)) by done.
    rewrite list_fmap_compose. by apply NoDup_fmap; [intros ?? [=]|]. }
  { apply Forall_fmap, Forall_forall. done. }
  apply returns_Ret. split; [done|]. intros k v.
  rewrite !lookup_map_Some by done. rewrite Hin. unfold key, MapEntry_keyed; simpl. rewrite Hkeys.
  assert (Insert (MkMapEntry k v) ∈ (λ kv : K * V, Insert (entry_of kv) : Edit _ (MapKey K)) <$> kvs ↔ (k, v) ∈ kvs) as ->; [|tauto].
  rewrite list_elem_of_fmap. split; [|by intros; exists (k, v)].
  by intros ([k' v'] & [= -> ->] & ?).
Qed.
End Ops.

(** ** The other operations *)
Lemma from_ordered_entries_spec (kvs : list (K * V)) :
  StronglySorted (λ kv1 kv2, olt kv1.1 kv2.1) kvs →
  returns (from_ordered_entries kvs) (λ m, map_wf m ∧ entries m = kvs).
Proof.
  intros Hs. unfold from_ordered_entries.
  destruct (from_iter_wf (entry_of <$> kvs)) as (m & -> & Hw & Hi); [done|].
  apply returns_Ret. split.
  - apply map_wf_intro; [done|]. rewrite Hi. clear -Hs.
    induction Hs as [|kv kvs Hs IH Hlt]; csimpl; [constructor|].
    constructor; [done|]. by apply Forall_fmap.
  - unfold entries. rewrite Hi, <-list_fmap_compose. rewrite (list_fmap_ext _ id); [apply list_fmap_id|].
    by intros i [k v] _.
Qed.

Lemma entries_lookup m k v : map_wf m → lookup_map m k = Some v ↔ (k, v) ∈ entries m.
Proof.
  intros Hm. rewrite lookup_map_Some by done. unfold entries. rewrite list_elem_of_fmap. split.
  - intros Hx. by exists (MkMapEntry k v).
  - by intros ([k' v'] & [= -> ->] & Hx).
Qed.

Lemma entries_sorted m : map_wf m → StronglySorted (λ kv1 kv2, olt kv1.1 kv2.1) (entries m).
Proof.
  intros [_ [Hs _]]. unfold entries. induction Hs as [|x l Hs IH Hlt]; csimpl; [constructor|].
  constructor; [done|]. by apply Forall_fmap.
Qed.

Lemma map_first_spec m : map_wf m → map_first m = Ret (head (entries m)).
Proof. intros [Hw _]. unfold map_first. rewrite first_wf by done. unfold entries. by destruct (tree_items m). Qed.
Lemma map_last_spec m : map_wf m → map_last_entry m = Ret (last (entries m)).
Proof.
  intros [Hw _]. unfold map_last_entry. rewrite last_item_wf by done. unfold entries. by rewrite fmap_last.
Qed.
Lemma map_is_empty_spec m : map_wf m → map_is_empty m = match entries m with [] => true | _ => false end.
Proof.
  intros [Hw _]. unfold map_is_empty, entries. destruct (is_empty m) eqn:E.
  - by rewrite (is_empty_items m E).
  - pose proof (is_empty_nonempty m Hw E). by destruct (tree_items m).
Qed.
End MapFacts.
