(* ===== verification/Integers.v ===== *)
(** * The summary of the crate's own tests ([mod tests] of [sum_tree.rs])

    [u8] items summarised by count, sum, parity and maximum: a concrete
    instance of every interface of the tree, on which the theorems about trees
    are applied. *)
From stdpp Require Import base numbers option list.
From Stdlib Require Import Lia.
From S2P Require Import Prelude SumTree SumTreeFacts SumTreeBulk.

Record IntegersSummary := MkIntegers {
  is_count : N;
  is_sum : N;
  contains_even : bool;
  is_max : N;
}.

#[export] Instance u8_item : Item N IntegersSummary :=
  λ x, MkIntegers 1 x (N.land x 1 =? 0)%N x.
#[export] Instance Integers_summary : Summary IntegersSummary :=
  {| zero := MkIntegers 0 0 false 0;
     add_summary := λ a b, MkIntegers (is_count a + is_count b) (is_sum a + is_sum b)
                             (contains_even a || contains_even b) (N.max (is_max a) (is_max b)) |}.

Record Count := MkCount { count_value : N }.
#[export] Instance Count_dimension : Dimension Count IntegersSummary :=
  {| dim_zero := MkCount 0; dim_add := λ d s, MkCount (count_value d + is_count s) |}.
#[export] Instance Count_target : SeekTarget Count Count := λ a b, N.compare (count_value a) (count_value b).

Lemma integers_foldl (a : IntegersSummary) (l : list N) :
  foldl add_summary a (item_summary_of <$> l) = add_summary a (total l).
Proof.
  unfold total, sum. revert a. induction l as [|x l IH] using rev_ind; intros a.
  - destruct a; simpl. by rewrite !N.add_0_r, orb_false_r, N.max_0_r.
  - rewrite !fmap_app, !foldl_app. simpl. rewrite IH. simpl.
    f_equal; [lia|lia|by rewrite orb_assoc|lia].
Qed.

#[export] Instance Integers_summary_laws : SummaryLaws N IntegersSummary.
Proof.
  refine {| valid := λ _, True |}; [done| | |].
  - intros x _. unfold total, sum. simpl. by rewrite N.max_0_l.
  - intros l _ _. destruct (total l). simpl. by rewrite N.max_0_l.
  - intros l1 l2 _ _ _. unfold total at 1, sum. by rewrite fmap_app, foldl_app, integers_foldl.
Defined.

Lemma count_measure (l : list N) : measure (D:=Count) l = MkCount (N.of_nat (length l)).
Proof.
  unfold measure. induction l as [|x l IH] using rev_ind; [done|].
  rewrite fmap_app, foldl_app, IH, length_app. simpl. f_equal. lia.
Qed.

Lemma count_total (l : list N) : is_count (total l) = N.of_nat (length l).
Proof.
  unfold total, sum. induction l as [|x l IH] using rev_ind; [done|].
  rewrite fmap_app, foldl_app, length_app.
  set (s := foldl add_summary zero (item_summary_of <$> l)) in *. simpl. lia.
Qed.

#[export] Instance Count_dimension_laws : DimensionLaws Count N IntegersSummary.
Proof.
  split; [|done]. intros l1 l2 _ _. rewrite !count_measure, length_app. simpl. rewrite count_total.
  f_equal. lia.
Qed.

Lemma count_monotone (c : Count) (l : list N) : monotone_target c l.
Proof.
  intros l1 l2 l3 _. rewrite !count_measure, length_app. unfold seek_cmp, Count_target. simpl.
  destruct (N.compare_spec (count_value c) (N.of_nat (length l1 + length l2))),
    (N.compare_spec (count_value c) (N.of_nat (length l1))); simpl; lia.
Qed.

(** Sample trees. *)
Definition numbers (n : nat) : list N := N.of_nat <$> seq 0 n.
Definition numbers_tree (n : nat) : SumTree N IntegersSummary :=
  match from_iter (numbers n) with Ret t => t | _ => new end.

Lemma numbers_tree_wf n : wf (numbers_tree n).
Proof.
  unfold numbers_tree. destruct (from_iter_wf (numbers n)) as (t & E & Ht & _); [done|].
  by rewrite E.
Qed.
Lemma numbers_tree_items n : tree_items (numbers_tree n) = numbers n.
Proof.
  unfold numbers_tree. destruct (from_iter_wf (numbers n)) as (t & E & _ & Ht); [done|].
  by rewrite E.
Qed.

(** A model of rayon's [chunks]. *)
Fixpoint chunks_fuel {A} (fuel n : nat) (l : list A) : list (list A) :=
  match fuel, l with
  | S fuel, _ :: _ => take n l :: chunks_fuel fuel n (drop n l)
  | _, _ => []
  end.
Definition chunks (A : Type) (n : nat) (l : list A) : list (list A) := chunks_fuel (length l) n l.

Lemma chunks_fuel_spec {A} fuel n (l : list A) :
  0 < n → length l ≤ fuel →
  concat (chunks_fuel fuel n l) = l ∧ Forall (λ c, c ≠ [] ∧ length c ≤ n) (chunks_fuel fuel n l) ∧
  n * length (chunks_fuel fuel n l) < length l + n.
Proof.
  intros Hn. revert l. induction fuel as [|fuel IH]; intros l Hl.
  - destruct l; simpl in *; [|lia]. split_and!; [done|constructor|lia].
  - destruct l as [|x l]; [split_and!; [done|constructor|simpl; lia]|].
    cbn [chunks_fuel]. destruct (IH (drop n (x :: l))) as (E & HF & Hc).
    { rewrite length_drop. simpl in *. lia. }
    split_and!.
    + simpl concat. rewrite E. apply take_drop.
    + constructor; [|done]. rewrite length_take. split; [|lia]. by destruct n; [lia|].
    + rewrite length_drop in Hc. simpl length. simpl length in Hc. rewrite Nat.mul_succ_r.
      destruct (decide (n ≤ S (length l))); [lia|].
      destruct (length (chunks_fuel fuel n (drop n (x :: l)))); nia.
Qed.

Lemma chunks_ok : chunks_spec chunks.
Proof.
  split; intros A n l Hn; unfold chunks;
    destruct (chunks_fuel_spec (length l) n l Hn (Nat.le_refl _)) as (? & ? & ?); done.
Qed.
