(* ===== verification/SumTreeSpec.v ===== *)
(** * What the sum tree promises

    The theorems about [SumTree] and its cursors that the rest of the program
    relies on: every operation returns (no capacity, index or stack overflow,
    no exhausted loop) and acts on the sequence of items as the corresponding
    list operation.  Witnesses use the instance of [Integers]. *)
From stdpp Require Import base numbers option list.
From Stdlib Require Import Lia.
From S2P Require Import Prelude SumTree SumTreeFacts SumTreeBulk Cursor CursorFacts CursorSeek CursorMove CursorIter Integers.

Section Theorems.
Context {T Sm : Type} `{SummaryLaws T Sm}.
Abbreviation tree := (SumTree T Sm).
Implicit Types (t self other : tree) (its : list T).

(** C24: [append] of two well-formed trees (of any two heights, one or both
    possibly empty) returns a well-formed tree: uniform height, node
    capacities respected, cached summaries equal to the sum of the items
    below; its items are those of the two trees in order. *)
Theorem append_refines self other :
  wf self → wf other → valid (tree_items self ++ tree_items other) →
  returns (append self other) (λ t, wf t ∧ tree_items t = tree_items self ++ tree_items other).
Proof. apply append_wf. Qed.

(** [push], [extend] and [from_iter] build well-formed trees whose items
    are the old items followed by the new ones. *)
Theorem build_refines self its x :
  wf self → valid (tree_items self ++ its ++ [x]) →
  returns (let* t := extend self its in push t x)
    (λ t, wf t ∧ tree_items t = tree_items self ++ its ++ [x]) ∧
  returns (from_iter its) (λ t : tree, wf t ∧ tree_items t = its).
Proof.
  intros Hs Hv. assert (valid (tree_items self ++ its)) as Hv'.
  { rewrite app_assoc in Hv. by apply valid_l in Hv. }
  split; [|by apply from_iter_wf; apply valid_r in Hv'].
  destruct (extend_wf self its Hs Hv') as (t & -> & Ht & Hi).
  rewrite app_assoc, <-Hi in Hv |- *. by apply push_wf.
Qed.

(** The parallel construction, relative to rayon's [chunks], builds a
    well-formed tree with exactly the given items, as the sequential one does. *)
Theorem par_extend_refines pc self its :
  chunks_spec pc → wf self → valid (tree_items self ++ its) →
  returns (par_extend pc self its) (λ t, wf t ∧ tree_items t = tree_items self ++ its) ∧
  returns (from_par_iter pc its) (λ t : tree, wf t ∧ tree_items t = its).
Proof.
  intros Hpc Hs Hv. split; [by apply par_extend_wf|].
  apply from_par_iter_wf; [done|by apply valid_r in Hv].
Qed.

(** [update_last] and [update_first] change just the last and the first
    item and re-establish every cached summary on the way up. *)
Theorem update_ends_refine {B} (f : T → outcome (T * B)) t l x y b :
  wf t → f x = Ret (y, b) →
  (tree_items t = l ++ [x] → valid (l ++ [y]) →
    returns (update_last f t) (λ '(t', r), wf t' ∧ tree_items t' = l ++ [y] ∧ r = Some b)) ∧
  (tree_items t = x :: l → valid (y :: l) →
    returns (update_first f t) (λ '(t', r), wf t' ∧ tree_items t' = y :: l ∧ r = Some b)) ∧
  (tree_items t = [] → update_last f t = Ret (t, None) ∧ update_first f t = Ret (t, None)).
Proof.
  intros Ht Hf. split_and!; [by eapply update_last_wf|by eapply update_first_wf|by apply update_empty].
Qed.

(** [first], [last], [last_summary], [is_empty], [items] and [iter] read
    the items of the tree: its ends, and all of them in order. *)
Theorem reads_refine t :
  wf t → valid (tree_items t) → height t < STACK_CAP →
  first t = Ret (head (tree_items t)) ∧
  last_item t = Ret (last (tree_items t)) ∧
  last_summary t = Ret (item_summary_of <$> last (tree_items t)) ∧
  (is_empty t = true ↔ tree_items t = []) ∧
  items t = Ret (tree_items t) ∧ iter_collect t = Ret (tree_items t).
Proof.
  intros Ht Hv Hh. split_and!; [by apply first_wf|by apply last_item_wf|by apply last_summary_wf| |
    by apply items_wf|by apply iter_collect_wf].
  split; [apply is_empty_items|]. intros E. destruct (is_empty t) eqn:E'; [done|].
  by apply is_empty_nonempty in E'.
Qed.
End Theorems.

Section CursorTheorems.
Context {T Sm D : Type} `{MeasureLaws D T Sm}.
Abbreviation tree := (SumTree T Sm).
Abbreviation cursor := (Cursor T Sm D).
Implicit Types (t : tree) (c : cursor) (p l : list T).

(** [find], [find_with_prev] and (with [Bias::Left]) [find_exact], which
    skip whole subtrees by their cached summaries, give the answer of a
    linear scan of the items, for every target that is monotone along them. *)
Theorem find_refines `{!MeasureNil D Sm} {Tg} `{SeekTarget Tg D} (target : Tg) bias t :
  wf t → valid (tree_items t) → monotone_target target (tree_items t) →
  let '(l1, l2) := advance (target_past target bias) [] (tree_items t) in
  find t target bias =
    (measure l1, from_option (λ x, measure (l1 ++ [x])) (measure l1) (head l2), head l2) ∧
  find_with_prev t target bias =
    Ret (measure l1, from_option (λ x, measure (l1 ++ [x])) (measure l1) (head l2),
         option_map (λ x, (last l1, x)) (head l2)) ∧
  (find_exact t target Left).2 = snd <$> scan_exact target [] (tree_items t).
Proof.
  intros Ht Hv Hm. pose proof (find_wf target bias _ Hm Hv t Ht eq_refl) as Hf.
  pose proof (find_with_prev_wf target bias _ Hm Hv t Ht eq_refl) as Hp.
  pose proof (find_exact_wf target Left _ Hm Hv t eq_refl Ht eq_refl) as He.
  by destruct (advance _ _ _).
Qed.

(** C25: [seek_forward] and [slice] from any split [p ++ l] of the items stop where the linear scan stops; the slice
    is a well-formed tree of exactly the items passed, [start], [end], [item]
    and [item_summary] read the item there, and the boolean says whether the
    target was hit. A cursor that was never sought is at the first item: its
    documentation says that [seek_forward] panics then, but it does not. *)
Theorem seek_slice_refine {Tg} `{SeekTarget Tg D} (target : Tg) bias t c p l :
  wf t → valid (tree_items t) → height t < STACK_CAP → monotone_target target (tree_items t) →
  seekable_at t c p l → is_ge (seek_cmp target (measure p)) = true →
  let '(p', l') := advance (target_past target bias) p l in
  returns (seek_forward c target bias) (λ '(b, c'),
    cursor_at t c' p' l' ∧ b = hit target bias p' l' ∧
    start c' = measure p' ∧ end_ c' = Ret (end_of p' l') ∧ item c' = Ret (head l') ∧
    item_summary c' = Ret (option_map item_summary_of (head l'))) ∧
  returns (slice c target bias) (λ '(s, c'), cursor_at t c' p' l' ∧ wf s ∧ p' = p ++ tree_items s).
Proof.
  intros Ht Hv Hh Hm Hc Hge.
  pose proof (seek_forward_spec t Ht Hv Hh target bias Hm c p l Hc Hge) as Hs.
  pose proof (slice_spec t Ht Hv Hh target bias Hm c p l Hc Hge) as Hsl.
  destruct (advance _ p l) as [p' l']. split; [|done].
  eapply returns_mono; [exact Hs|]. intros [b c'] [Hc' ->].
  split_and!; [done|done|by destruct Hc' as (_ & _ & ? & _)|by eapply end_at|by eapply item_at|
    by eapply item_summary_at].
Qed.

(** [suffix] returns a well-formed tree of all remaining items and leaves
    the cursor at the end; [summary] returns their measure. *)
Theorem suffix_summary_refine {O} `{Dimension O Sm} `{!MeasureLaws O T Sm}
    {Tg} `{SeekTarget Tg D} (target : Tg) bias t c p l :
  wf t → valid (tree_items t) → height t < STACK_CAP → monotone_target target (tree_items t) →
  seekable_at t c p l → is_ge (seek_cmp target (measure p)) = true →
  returns (suffix c) (λ '(s, c'), cursor_at t c' (tree_items t) [] ∧ wf s ∧ tree_items s = l) ∧
  returns (cursor_summary (O:=O) c target bias) (λ '(s, c'),
    let '(p', l') := advance (target_past target bias) p l in
    cursor_at t c' p' l' ∧ ∃ q, p' = p ++ q ∧ s = measure q).
Proof.
  intros Ht Hv Hh Hm Hc Hge. split; [by eapply suffix_spec|by apply cursor_summary_spec].
Qed.

(** Stepping.  From the split [p ++ l], [next] passes one item and [prev]
    takes one back (before the first item it parks, from where [next] returns
    to the first); [next_item] and [prev_item] read the neighbours. *)
Theorem steps_refine t c p l :
  wf t → valid (tree_items t) → height t < STACK_CAP → cursor_at t c p l →
  returns (next c) (λ c', cursor_at t c' (p ++ take 1 l) (drop 1 l)) ∧
  returns (prev c) (λ c',
    match last p with
    | Some x => cursor_at t c' (removelast p) (x :: l)
    | None => before_begin t c' ∧ item c' = Ret None ∧ next_item c' = Ret (head (tree_items t)) ∧
              returns (next c') (λ c'', cursor_at t c'' [] (tree_items t))
    end) ∧
  prev_item c = Ret (last p) ∧ (l ≠ [] → next_item c = Ret (head (drop 1 l))).
Proof.
  intros Ht Hv Hh Hc. split_and!; [by apply next_at| |by eapply prev_item_at|].
  - eapply returns_mono; [by eapply (prev_at t)|]. intros c' Hc'. unfold stepped_back in Hc'.
    destruct (last p); [done|]. destruct Hc' as [Hb Hs]. split_and!; [done| | |].
    + unfold item, assert_did_seek. destruct Hb as (_ & Hst & _). by rewrite Hs, Hst.
    + by apply next_item_begin.
    + by apply next_begin.
  - destruct l as [|x l]; [done|]. intros _. simpl. rewrite drop_0. by eapply next_item_at.
Qed.

(** Filtered search.  For a filter that never rejects a run of items
    containing an accepted one, [search_forward] goes to the first accepted
    item after the cursor's and [search_backward] to the last accepted one
    before it, skipping rejected subtrees without visiting them. *)
Theorem filter_search_refines (f : Sm → bool) t c p x l :
  wf t → valid (tree_items t) → height t < STACK_CAP → filter_sound t f → cursor_at t c p (x :: l) →
  returns (search_forward f c) (λ c', ∃ q l', l = q ++ l' ∧ rejected f q ∧ accepted_head f l' ∧
    cursor_at t c' ((p ++ [x]) ++ q) l') ∧
  returns (search_backward f c) (λ c',
    (before_begin t c' ∧ c_did_seek c' = true ∧ rejected f p) ∨
    (∃ p' y q, p = p' ++ y :: q ∧ rejected f q ∧ accepts f y = true ∧
       cursor_at t c' p' (y :: q ++ x :: l))).
Proof.
  intros Ht Hv Hh Hf Hc. split; [eapply search_forward_at; (done || by apply measured_exact)|].
  eapply search_backward_at; try done. destruct Hc as (_ & _ & _ & _ & Hst).
  by destruct (c_stack c); [destruct Hst|].
Qed.
End CursorTheorems.

(** ** Witnesses *)
#[local] Abbreviation sample := (numbers_tree 40).

Lemma append_refines_witness :
  returns (append (numbers_tree 40) (numbers_tree 5))
    (λ t, wf t ∧ tree_items t = numbers 40 ++ numbers 5).
Proof.
  rewrite <-(numbers_tree_items 40), <-(numbers_tree_items 5).
  apply (append_refines (numbers_tree 40) (numbers_tree 5)); [apply numbers_tree_wf..|exact I].
Defined.

Lemma build_refines_witness :
  returns (let* t := extend sample (numbers 7) in push t 255%N)
    (λ t, wf t ∧ tree_items t = tree_items sample ++ numbers 7 ++ [255%N]) ∧
  returns (from_iter (numbers 7)) (λ t : SumTree N IntegersSummary, wf t ∧ tree_items t = numbers 7).
Proof. apply (build_refines sample (numbers 7) 255%N); [apply numbers_tree_wf|exact I]. Defined.

Lemma par_extend_refines_witness :
  returns (par_extend chunks sample (numbers 30)) (λ t, wf t ∧ tree_items t = tree_items sample ++ numbers 30) ∧
  returns (from_par_iter chunks (numbers 30)) (λ t : SumTree N IntegersSummary, wf t ∧ tree_items t = numbers 30).
Proof.
  apply (par_extend_refines chunks sample (numbers 30)); [apply chunks_ok|apply numbers_tree_wf|exact I].
Defined.

Lemma update_ends_refine_witness :
  returns (update_last (λ x, Ret (N.succ x, x)) sample)
    (λ '(t', r), wf t' ∧ tree_items t' = numbers 39 ++ [40%N] ∧ r = Some 39%N).
Proof.
  exact (proj1 (update_ends_refine (λ x, Ret (N.succ x, x)) sample (numbers 39) 39%N 40%N 39%N
    (numbers_tree_wf 40) eq_refl) (numbers_tree_items 40) I).
Defined.

Lemma reads_refine_witness : items sample = Ret (numbers 40) ∧ iter_collect sample = Ret (numbers 40).
Proof.
  destruct (reads_refine sample) as (_ & _ & _ & _ & Hi & Hc);
    [apply numbers_tree_wf|exact I|vm_compute; lia|].
  rewrite Hi, Hc, numbers_tree_items. split; reflexivity.
Defined.

Lemma find_refines_witness :
  find sample (MkCount 13) Right = (MkCount 13, MkCount 14, Some 13%N) ∧
  find_with_prev sample (MkCount 13) Right
    = Ret (MkCount 13, MkCount 14, Some (Some 12%N, 13%N)).
Proof.
  pose proof (find_refines (MkCount 13) Right sample (numbers_tree_wf 40) I (count_monotone _ _)) as Hf.
  rewrite numbers_tree_items in Hf. vm_compute in Hf. destruct Hf as (Hf & Hp & _).
  split; [exact Hf|exact Hp].
Defined.

Lemma seek_slice_refine_witness :
  returns (slice (cursor_new sample) (MkCount 13) Right) (λ '(s, c'),
    cursor_at sample c' (numbers 13) (drop 13 (numbers 40)) ∧ wf s ∧ numbers 13 = tree_items s).
Proof.
  pose proof (seek_slice_refine (MkCount 13) Right sample (cursor_new sample) [] (tree_items sample)
    (numbers_tree_wf 40) I ltac:(vm_compute; lia) (count_monotone _ _) (seekable_new sample) eq_refl) as Hs.
  rewrite numbers_tree_items in Hs.
  change (advance _ [] (numbers 40)) with (numbers 13, drop 13 (numbers 40)) in Hs.
  exact (proj2 Hs).
Defined.

Lemma suffix_summary_refine_witness :
  returns (suffix (cursor_new (D:=Count) sample))
    (λ '(s, c'), cursor_at sample c' (tree_items sample) [] ∧ wf s ∧ tree_items s = tree_items sample).
Proof.
  exact (proj1 (suffix_summary_refine (O:=Count) (MkCount 13) Right sample (cursor_new sample) []
    (tree_items sample) (numbers_tree_wf 40) I ltac:(vm_compute; lia) (count_monotone _ _)
    (seekable_new sample) eq_refl)).
Defined.

Lemma steps_refine_witness :
  ∃ c, cursor_at (D:=Count) sample c [] (tree_items sample) ∧
    returns (next c) (λ c', cursor_at sample c' (take 1 (tree_items sample)) (drop 1 (tree_items sample))).
Proof.
  assert (Hv : valid (tree_items sample)) by exact I.
  assert (Hh : height sample < STACK_CAP) by (vm_compute; lia).
  destruct (next_begin (D:=Count) sample (numbers_tree_wf 40) Hv Hh (cursor_new sample)) as (c & _ & Hc);
    [apply before_begin_new|].
  exists c. split; [exact Hc|].
  exact (proj1 (steps_refine sample c [] (tree_items sample) (numbers_tree_wf 40) Hv Hh Hc)).
Defined.

Lemma even_filter_sound n : filter_sound (numbers_tree n) contains_even.
Proof.
  intros l1 q l2 _. induction q as [|x q IH] using rev_ind; [constructor|].
  unfold total, sum. rewrite fmap_app, foldl_app. intros [Hq Hx]%orb_false_iff.
  apply Forall_app. split; [by apply IH|]. by constructor.
Qed.

Lemma filter_search_refines_witness :
  ∃ c, cursor_at (D:=Count) sample c [] (0%N :: drop 1 (numbers 40)) ∧
    returns (search_forward contains_even c) (λ c', ∃ q l', drop 1 (numbers 40) = q ++ l' ∧
      rejected contains_even q ∧ accepted_head contains_even l' ∧ cursor_at sample c' (([] ++ [0%N]) ++ q) l').
Proof.
  assert (Hv : valid (tree_items sample)) by exact I.
  assert (Hh : height sample < STACK_CAP) by (vm_compute; lia).
  destruct (next_begin (D:=Count) sample (numbers_tree_wf 40) Hv Hh (cursor_new sample)) as (c & _ & Hc);
    [apply before_begin_new|].
  rewrite numbers_tree_items in Hc. exists c. split; [exact Hc|].
  exact (proj1 (filter_search_refines contains_even sample c [] 0%N (drop 1 (numbers 40))
    (numbers_tree_wf 40) Hv Hh (even_filter_sound 40) Hc)).
Defined.
