(* ===== verification/TreeMapSpec.v ===== *)
(** * What [TreeMap], [TreeSet] and keyed edits promise *)
From stdpp Require Import base numbers option list sorting.
From Stdlib Require Import Lia.
From S2P Require Import Prelude SumTree SumTreeFacts SumTreeBulk Cursor CursorFacts CursorSeek CursorMove CursorIter Keyed KeyedFacts TreeMap TreeMapFacts.

Section KeyedTheorems.
Context {T K Sm : Type} `{KeyedLaws T K Sm}.
Abbreviation tree := (SumTree T Sm).

(** [SumTree::insert_or_replace], [remove] and [get] on a tree sorted by
    key: insertion replaces the item with the same key or puts the new one in
    its place, removal deletes it, both return the old item, and the tree
    stays well-formed and strictly sorted. *)
Theorem keyed_ops_refine (t : tree) (x : T) (k : K) :
  keyed_wf t → height t < STACK_CAP → item_ok x → is_ge (cmp k dim_zero) = true →
  returns (insert_or_replace t x) (λ '(o, t'), o = list_get (key x) (tree_items t) ∧ keyed_wf t' ∧
    ∀ y, y ∈ tree_items t' ↔ y = x ∨ (y ∈ tree_items t ∧ key y ≠ key x)) ∧
  returns (remove_key t k) (λ '(o, t'), o = list_get k (tree_items t) ∧ keyed_wf t' ∧
    ∀ y, y ∈ tree_items t' ↔ y ∈ tree_items t ∧ key y ≠ k) ∧
  get_key t k = list_get k (tree_items t).
Proof.
  intros Ht Hh Hx Hk. split_and!; [| |by apply get_key_spec].
  - eapply returns_mono; [by apply insert_or_replace_spec|].
    intros [o t'] (-> & Ht' & Hi). split_and!; [done|done|]. intros y. rewrite Hi. apply elem_of_list_insert.
  - eapply returns_mono; [by apply remove_key_spec|].
    intros [o t'] (-> & Ht' & Hi). split_and!; [done|done|]. intros y. rewrite Hi. apply elem_of_list_remove.
Qed.

(** C27: [SumTree::edit] with edits of pairwise distinct keys, whatever order
    the unstable sort leaves: the new tree is well-formed and strictly sorted
    and holds just the inserted items and the old items no edit names; the
    returned items are, in key order, the old items the edits name. *)
Theorem edit_refines (t : tree) sort_by_key (es : list (Edit T K)) :
  keyed_wf t → height t < STACK_CAP → sort_spec sort_by_key →
  NoDup (edit_key <$> es) → Forall edit_ok es →
  returns (edit sort_by_key t es) (λ '(removed, t'),
    keyed_wf t' ∧
    (∀ y, y ∈ tree_items t' ↔ Insert y ∈ es ∨ (y ∈ tree_items t ∧ key y ∉ edit_key <$> es)) ∧
    sorted_keys removed ∧
    (∀ y, y ∈ removed ↔ y ∈ tree_items t ∧ key y ∈ edit_key <$> es)).
Proof. intros Ht Hh. by apply edit_spec. Qed.
End KeyedTheorems.

Section MapTheorems.
Context {K V : Type} `{OrdLaws K}.
Abbreviation map := (TreeMap K V).
Implicit Types (m : map) (k : K) (v : V).

(** [TreeMap::insert], [insert_or_replace] and [remove] are update and
    deletion of the finite map the tree stands for, returning the old value. *)
Theorem map_insert_remove m k v :
  map_wf m → height m < STACK_CAP →
  returns (map_insert m k v) (λ m', map_wf m' ∧
    ∀ k', lookup_map m' k' = match cmp k' k with Eq => Some v | _ => lookup_map m k' end) ∧
  returns (map_insert_or_replace m k v) (λ '(o, m'), o = lookup_map m k ∧ map_wf m' ∧
    ∀ k', lookup_map m' k' = match cmp k' k with Eq => Some v | _ => lookup_map m k' end) ∧
  returns (map_remove m k) (λ '(o, m'), o = lookup_map m k ∧ map_wf m' ∧
    ∀ k', lookup_map m' k' = match cmp k' k with Eq => None | _ => lookup_map m k' end).
Proof.
  intros Hm Hh. split_and!;
    [by apply map_insert_spec|by apply map_insert_or_replace_spec|by apply map_remove_spec].
Qed.

(** [TreeMap::update] applies the closure to the value of the key, if it
    has one, and changes nothing else. *)
Theorem map_update_refines {R} m k (f : V → R * V) :
  map_wf m → height m < STACK_CAP →
  returns (map_update m k f) (λ '(o, m'), o = fst <$> (f <$> lookup_map m k) ∧ map_wf m' ∧
    ∀ k', lookup_map m' k' =
      match cmp k' k with Eq => snd <$> (f <$> lookup_map m k) | _ => lookup_map m k' end).
Proof. intros Hm Hh. by apply map_update_spec. Qed.

(** [TreeMap::get] and [contains_key] look up the finite map, [iter]
    yields its pairs in strictly increasing key order, [first] and [last] its
    ends, [iter_from] the pairs whose key is not below the given one. *)
Theorem map_queries_refine m k :
  map_wf m → height m < STACK_CAP →
  map_get m k = lookup_map m k ∧
  contains_key m k = match lookup_map m k with Some _ => true | None => false end ∧
  map_iter m = Ret (entries m) ∧
  StronglySorted (λ kv1 kv2, olt kv1.1 kv2.1) (entries m) ∧
  (∀ k' v, (k', v) ∈ entries m ↔ lookup_map m k' = Some v) ∧
  map_first m = Ret (head (entries m)) ∧ map_last_entry m = Ret (last (entries m)) ∧
  iter_from m k = Ret (List.filter (λ kv, negb (lt_b kv.1 k)) (entries m)).
Proof.
  intros Hm Hh. split_and!; [by apply map_get_spec| |by apply map_iter_spec|by apply entries_sorted| |
    by apply map_first_spec|by apply map_last_spec|by apply iter_from_spec].
  - unfold contains_key. by rewrite map_get_spec.
  - intros k' v. by rewrite entries_lookup.
Qed.

(** The last of the entries below a bound has the greatest key. *)
Lemma last_filter_greatest (l : list (MapEntry K V)) (f : MapEntry K V → bool) x y :
  sorted_keys l → last (List.filter f l) = Some x → y ∈ l → f y = true → y = x ∨ key_lt y x.
Proof.
  intros Hs Hl Hy Hf. apply (sorted_filter f) in Hs.
  assert (y ∈ List.filter f l) as Hy' by (by apply list_elem_of_In, List.filter_In; rewrite <-list_elem_of_In).
  apply last_Some in Hl as [l' Hl]. rewrite Hl in Hs, Hy'.
  apply sorted_app in Hs as (_ & _ & Hlt). apply elem_of_app in Hy' as [Hy'|Hy'].
  - right. rewrite Forall_forall in Hlt. specialize (Hlt y Hy'). by apply Forall_cons in Hlt as [? _].
  - left. by apply list_elem_of_singleton in Hy'.
Qed.

(** [TreeMap::closest] returns the pair with the greatest key less than or
    equal to the given key, and nothing just when all keys are greater. *)
Theorem closest_refines m k :
  map_wf m → height m < STACK_CAP →
  returns (closest m k) (λ o,
    match o with
    | Some (k', v) => lookup_map m k' = Some v ∧ le_b k' k = true ∧
        ∀ k'' v'', lookup_map m k'' = Some v'' → le_b k'' k = true → le_b k'' k' = true
    | None => ∀ k'' v'', lookup_map m k'' = Some v'' → olt k k''
    end).
Proof.
  intros Hm Hh. rewrite closest_spec by done. apply returns_Ret. pose proof Hm as [_ [Hs _]].
  destruct (last _) as [[k' v]|] eqn:El; simpl.
  - assert (MkMapEntry k' v ∈ List.filter (passed k Right) (tree_items m)) as Hx by (by apply last_Some_elem_of).
    apply list_elem_of_In, List.filter_In in Hx as [Hx%list_elem_of_In Hle].
    split_and!; [by apply lookup_map_Some|done|].
    intros k'' v'' Hk Hle'. apply lookup_map_Some in Hk; [|done].
    apply le_b_lt. destruct (last_filter_greatest _ _ _ (MkMapEntry k'' v'') Hs El Hk Hle') as [[= -> ->]|Hlt]; auto.
  - intros k'' v'' Hk. apply lookup_map_Some in Hk; [|done]. apply le_b_false.
    destruct (le_b k'' k) eqn:E; [|done]. apply last_None in El.
    assert (MkMapEntry k'' v'' ∈ List.filter (passed k Right) (tree_items m)) as Hx
      by (by apply list_elem_of_In, List.filter_In; rewrite <-list_elem_of_In).
    rewrite El in Hx. by apply elem_of_nil in Hx.
Qed.

(** [TreeMap::remove_range] deletes just the keys from [start] up to but
    not including [end] (for targets that are monotone in the key, [start]
    not after [end]), and [retain] just the pairs its predicate rejects. *)
Theorem map_remove_range_retain {Tg1 Tg2} `{MapSeekTarget Tg1 K, MapSeekTarget Tg2 K}
    m (tg1 : Tg1) (tg2 : Tg2) (pred : K → V → bool) :
  map_wf m → height m < STACK_CAP → map_target_mono tg1 → map_target_mono tg2 →
  (∀ k, cmp_cursor tg1 k = Gt → cmp_cursor tg2 k = Gt) →
  returns (remove_range m tg1 tg2) (λ m', map_wf m' ∧ ∀ k v,
    lookup_map m' k = Some v ↔
      lookup_map m k = Some v ∧ (cmp_cursor tg1 k = Gt ∨ cmp_cursor tg2 k ≠ Gt)) ∧
  returns (retain m pred) (λ m', map_wf m' ∧ ∀ k v,
    lookup_map m' k = Some v ↔ lookup_map m k = Some v ∧ pred k v = true).
Proof.
  intros Hm Hh Hm1 Hm2 Hle. split.
  - eapply returns_mono; [apply (remove_range_spec m Hm Hh tg1 tg2 Hm1 Hm2)|].
    { intros [k v]. unfold before_target; simpl. specialize (Hle k). destruct (cmp_cursor tg1 k); try done.
      by rewrite Hle. }
    intros m' [Hm' Hi]. split; [done|]. intros k v. rewrite !lookup_map_Some, Hi by done.
    rewrite !list_elem_of_In, List.filter_In. unfold before_target; simpl.
    destruct (cmp_cursor tg1 k), (cmp_cursor tg2 k); simpl; naive_solver.
  - eapply returns_mono; [by apply retain_spec|]. intros m' [Hm' Hi]. split; [done|].
    intros k v. rewrite !lookup_map_Some, Hi by done. by rewrite !list_elem_of_In, List.filter_In.
Qed.

(** [TreeMap::extend] (and [insert_tree], which extends by the pairs of
    another map) overrides the map by the given pairs when their keys are
    distinct; [from_ordered_entries] builds the map of pairs given in
    strictly increasing key order. *)
Theorem map_extend_refines sort_by_key m (other : map) (kvs : list (K * V)) :
  sort_spec sort_by_key → map_wf m → height m < STACK_CAP → map_wf other → height other < STACK_CAP →
  StronglySorted (λ kv1 kv2, olt kv1.1 kv2.1) kvs →
  returns (map_extend sort_by_key m kvs) (λ m', map_wf m' ∧ ∀ k v,
    lookup_map m' k = Some v ↔ (k, v) ∈ kvs ∨ (k ∉ kvs.*1 ∧ lookup_map m k = Some v)) ∧
  returns (insert_tree sort_by_key m other) (λ m', map_wf m' ∧ ∀ k v,
    lookup_map m' k = Some v ↔
      lookup_map other k = Some v ∨ (k ∉ (entries other).*1 ∧ lookup_map m k = Some v)) ∧
  returns (from_ordered_entries kvs) (λ m', map_wf m' ∧ entries m' = kvs).
Proof.
  intros Hsort Hm Hh Hm2 Hh2 Hs.
  assert (∀ l : list (K * V), StronglySorted (λ kv1 kv2, olt kv1.1 kv2.1) l → NoDup l.*1) as Hnd.
  { induction 1 as [|[k v] l Hl IH Hlt]; csimpl; constructor; [|done].
    intros ([k' v'] & -> & Hk)%list_elem_of_fmap. rewrite Forall_forall in Hlt.
    by apply (olt_irrefl k'), (Hlt (k', v')). }
  split_and!; [by apply map_extend_spec; auto| |by apply from_ordered_entries_spec].
  unfold insert_tree. rewrite map_iter_spec by done.
  eapply returns_mono; [apply (map_extend_spec m Hm Hh sort_by_key (entries other) Hsort)|].
  { by apply Hnd, entries_sorted. }
  intros m' [Hm' Hk]. split; [done|]. intros k v. by rewrite Hk, <-entries_lookup.
Qed.

(** [TreeSet] is the set of the keys of its map: insertion adds, removal
    deletes and tells whether the key was there, [contains] tests, [iter]
    yields the members in strictly increasing order. *)
Theorem set_refines (s : TreeSet K) k :
  map_wf s → height s < STACK_CAP →
  returns (set_insert s k) (λ s', map_wf s' ∧
    ∀ k', set_contains s' k' = match cmp k' k with Eq => true | _ => set_contains s k' end) ∧
  returns (set_remove s k) (λ '(b, s'), b = set_contains s k ∧ map_wf s' ∧
    ∀ k', set_contains s' k' = match cmp k' k with Eq => false | _ => set_contains s k' end) ∧
  returns (set_iter s) (λ l, StronglySorted olt l ∧ ∀ k', k' ∈ l ↔ set_contains s k' = true).
Proof.
  intros Hs Hh.
  assert (∀ s' : TreeSet K, map_wf s' → ∀ k', set_contains s' k' =
    match lookup_map s' k' with Some _ => true | None => false end) as Hc.
  { intros s' Hs' k'. unfold set_contains. by rewrite map_get_spec. }
  split_and!.
  - eapply returns_mono; [by apply (map_insert_spec s Hs Hh k tt)|]. intros s' [Hs' Hk]. split; [done|].
    intros k'. rewrite !Hc, Hk by done. by destruct (cmp k' k).
  - unfold set_remove. destruct (map_remove_spec s Hs Hh k) as ([o s'] & -> & -> & Hs' & Hk).
    apply returns_Ret. rewrite Hc by done. split_and!; [done|done|].
    intros k'. rewrite !Hc, Hk by done. by destruct (cmp k' k).
  - unfold set_iter. rewrite map_iter_spec by done. apply returns_Ret. split.
    + pose proof (entries_sorted s Hs) as He. induction He as [|[k' u] l Hl IH Hlt]; csimpl; constructor; [done|].
      by apply Forall_fmap.
    + intros k'. rewrite Hc by done. rewrite list_elem_of_fmap. split.
      * intros ([k'' u] & -> & Hk). apply entries_lookup in Hk; [|done]. simpl. by rewrite Hk.
      * destruct (lookup_map s k') as [u|] eqn:E; [|done]. intros _. exists (k', u).
        split; [done|]. by apply entries_lookup.
Qed.
End MapTheorems.

(** ** Witnesses *)
Definition sample_pairs : list (N * N) := (λ i, (2 * N.of_nat i, N.of_nat i)%N) <$> seq 0 30.
Definition sample_map : TreeMap N N :=
  match from_ordered_entries sample_pairs with Ret m => m | _ => new end.

Lemma sample_pairs_sorted : StronglySorted (λ kv1 kv2, olt kv1.1 kv2.1) sample_pairs.
Proof. repeat (constructor; [|repeat (constructor; [vm_compute; reflexivity|]); constructor]). constructor. Qed.
Lemma sample_map_wf : map_wf sample_map.
Proof.
  unfold sample_map. destruct (from_ordered_entries_spec sample_pairs sample_pairs_sorted) as (m & E & Hm & _).
  by rewrite E.
Qed.
Lemma sample_map_height : height sample_map < STACK_CAP.
Proof. vm_compute. lia. Qed.

Lemma keyed_ops_refine_witness :
  returns (insert_or_replace sample_map (MkMapEntry 7%N 1%N)) (λ '(o, t'), o = None ∧ keyed_wf t' ∧
    ∀ y, y ∈ tree_items t' ↔ y = MkMapEntry 7%N 1%N ∨ (y ∈ tree_items sample_map ∧ key y ≠ Some 7%N)).
Proof.
  exact (proj1 (keyed_ops_refine sample_map (MkMapEntry 7%N 1%N) (Some 7%N) sample_map_wf sample_map_height I eq_refl)).
Defined.

Definition sample_edits : list (Edit (MapEntry N N) (MapKey N)) :=
  [Remove (Some 8%N); Insert (MkMapEntry 3%N 0%N); Remove (Some 9%N)].

Lemma edit_refines_witness :
  returns (edit (insertion_sort edit_key) sample_map sample_edits) (λ '(removed, t'),
    keyed_wf t' ∧
    (∀ y, y ∈ tree_items t' ↔
      Insert y ∈ sample_edits ∨ (y ∈ tree_items sample_map ∧ key y ∉ edit_key <$> sample_edits)) ∧
    sorted_keys removed ∧
    (∀ y, y ∈ removed ↔ y ∈ tree_items sample_map ∧ key y ∈ edit_key <$> sample_edits)).
Proof.
  apply (edit_refines sample_map (insertion_sort edit_key) sample_edits);
    [apply sample_map_wf|apply sample_map_height|apply insertion_sort_spec| |].
  - vm_compute. repeat constructor; intros Hx; repeat (inversion Hx as [|? ? ? Hx']; clear Hx; rename Hx' into Hx).
  - repeat constructor.
Defined.

Lemma map_insert_remove_witness :
  returns (map_insert sample_map 7%N 1%N) (λ m', map_wf m' ∧
    ∀ k', lookup_map m' k' = match cmp k' 7%N with Eq => Some 1%N | _ => lookup_map sample_map k' end).
Proof. exact (proj1 (map_insert_remove sample_map 7%N 1%N sample_map_wf sample_map_height)). Defined.

Lemma map_update_refines_witness :
  returns (map_update sample_map 8%N (λ v, (v, N.succ v))) (λ '(o, m'), o = Some 4%N ∧ map_wf m' ∧
    ∀ k', lookup_map m' k' = match cmp k' 8%N with Eq => Some 5%N | _ => lookup_map sample_map k' end).
Proof.
  exact (map_update_refines sample_map 8%N (λ v, (v, N.succ v)) sample_map_wf sample_map_height).
Defined.

Lemma map_queries_refine_witness : map_get sample_map 8%N = Some 4%N ∧ map_iter sample_map = Ret sample_pairs.
Proof.
  destruct (map_queries_refine sample_map 8%N sample_map_wf sample_map_height) as (Hg & _ & Hi & _).
  rewrite Hg, Hi. split; vm_compute; reflexivity.
Defined.

Lemma closest_refines_witness : closest sample_map 9%N = Ret (Some (8%N, 4%N)).
Proof.
  destruct (closest_refines sample_map 9%N sample_map_wf sample_map_height) as (o & E & _).
  vm_compute in E. injection E as <-. vm_compute. reflexivity.
Defined.

Lemma map_remove_range_retain_witness :
  returns (remove_range sample_map 4%N 9%N) (λ m', map_wf m' ∧ ∀ k v,
    lookup_map m' k = Some v ↔
      lookup_map sample_map k = Some v ∧ (cmp_cursor 4%N k = Gt ∨ cmp_cursor 9%N k ≠ Gt)).
Proof.
  assert (∀ n : N, map_target_mono n) as Hmono.
  { intros n k1 k2 Hlt. apply (cmp_rank_anti n k1 k2). unfold olt in Hlt. by rewrite Hlt. }
  refine (proj1 (map_remove_range_retain sample_map 4%N 9%N (λ _ _, true) sample_map_wf sample_map_height
    (Hmono _) (Hmono _) _)).
  intros k. unfold cmp_cursor, key_map_seek_target, cmp, N_ord. rewrite !N.compare_gt_iff. lia.
Defined.

Lemma map_extend_refines_witness :
  returns (map_extend (insertion_sort edit_key) sample_map [(7%N, 70%N); (8%N, 80%N)]) (λ m', map_wf m' ∧
    ∀ k v, lookup_map m' k = Some v ↔ (k, v) ∈ [(7%N, 70%N); (8%N, 80%N)] ∨
      (k ∉ [7%N; 8%N] ∧ lookup_map sample_map k = Some v)).
Proof.
  refine (proj1 (map_extend_refines (insertion_sort edit_key) sample_map sample_map
    [(7%N, 70%N); (8%N, 80%N)] insertion_sort_spec sample_map_wf sample_map_height sample_map_wf
    sample_map_height _)).
  repeat constructor.
Defined.

Definition sample_set : TreeSet N :=
  match set_from_ordered_entries [1%N; 5%N; 9%N] with Ret s => s | _ => new end.
Lemma sample_set_wf : map_wf sample_set.
Proof.
  unfold sample_set, set_from_ordered_entries.
  destruct (from_ordered_entries_spec ((λ k, (k, tt)) <$> [1%N; 5%N; 9%N])) as (m & E & Hm & _);
    [by repeat constructor|]. by rewrite E.
Qed.

Lemma set_refines_witness :
  returns (set_remove sample_set 5%N) (λ '(b, s'), b = true ∧ map_wf s' ∧
    ∀ k', set_contains s' k' = match cmp k' 5%N with Eq => false | _ => set_contains sample_set k' end).
Proof.
  refine (proj1 (proj2 (set_refines sample_set 5%N sample_set_wf _))). vm_compute. lia.
Defined.

(** [TreeMap::extend] does not merge pairs with equal keys: both entries
    end up in the tree, so [iter] yields a key twice and [remove] leaves the
    key present. *)
Theorem map_extend_duplicate_keys :
  ∃ m, map_extend (insertion_sort edit_key) (new : TreeMap N N) [(1%N, 10%N); (1%N, 20%N)] = Ret m ∧
    map_iter m = Ret [(1%N, 10%N); (1%N, 20%N)] ∧
    ∃ m', map_remove m 1%N = Ret (Some 10%N, m') ∧ map_get m' 1%N = Some 20%N.
Proof.
  eexists. split; [vm_compute; reflexivity|]. split; [vm_compute; reflexivity|].
  eexists. split; vm_compute; reflexivity.
Qed.
