(* ===== verification/Locator.v ===== *)
(** * Locators ([crates/text/src/locator.rs])

    Identifiers for positions of a dense order: sequences of [u64] compared
    lexicographically.  [between] runs along both sequences, the left padded
    with [u64::MIN] and the right with [u64::MAX]. *)
From stdpp Require Import base numbers option list.
From Stdlib Require Import Lia.
From S2P Require Import Prelude SumTree Keyed.

Record Locator := MkLocator { digits : list N }.

Definition locator_min : Locator := MkLocator [0%N].
Definition locator_max : Locator := MkLocator [U64_MAX].

#[export] Instance Locator_ord : Ord Locator := λ a b, cmp (digits a) (digits b).

(** [u64::saturating_sub]; [N] subtraction is truncated. *)
Definition saturating_sub (a b : N) : N := (a - b)%N.

(** One round of the loop of [between]. *)
Definition mid_digit (lhs rhs : N) : N :=
  wrap 64 (lhs + N.shiftr (saturating_sub rhs lhs) 48).

(** [for (lhs, rhs) in lhs.zip(rhs)] over the padded iterators. *)
Definition between_step (s : list N * list N * list N) :
  outcome ((list N * list N * list N) + list N) :=
  let '(lhs, rhs, location) := s in
  let l := match lhs with [] => 0%N | l :: _ => l end in
  let r := match rhs with [] => U64_MAX | r :: _ => r end in
  let mid := mid_digit l r in
  let location := location ++ [mid] in
  if (l <? mid)%N then Ret (inr location) else Ret (inl (tail lhs, tail rhs, location)).

Definition between_fuel (lhs rhs : Locator) : nat :=
  S (S (max (length (digits lhs)) (length (digits rhs)))).

Definition between (lhs rhs : Locator) : outcome Locator :=
  let* location := loop between_step (between_fuel lhs rhs) (digits lhs, digits rhs, []) in
  Ret (MkLocator location).

Definition locator_len (l : Locator) : nat := length (digits l).
Definition locator_is_empty (l : Locator) : bool := locator_len l =? 0.

(** [assign] resizes and copies. *)
Definition assign (self other : Locator) : Locator := MkLocator (digits other).

(** [impl Item, KeyedItem, ContextLessSummary for Locator] *)
#[export] Instance Locator_item : Item Locator Locator := λ l, l.
#[export] Instance Locator_keyed : KeyedItem Locator Locator := λ l, l.
#[export] Instance Locator_summary : Summary Locator :=
  {| zero := locator_min; add_summary := assign |}.

(** ** The order *)
#[export] Instance Locator_ord_laws : OrdLaws Locator.
Proof.
  split; unfold cmp, Locator_ord.
  - intros [a] [b]. rewrite cmp_eq. simpl. split; congruence.
  - intros a b. apply cmp_antisym.
  - intros a b c. apply cmp_lt_trans.
Qed.

Definition digit_ok (d : N) : Prop := (d < 2 ^ 64)%N.

Lemma mid_digit_bounds l r :
  digit_ok l → digit_ok r → (l <= r)%N →
  mid_digit l r = (l + (r - l) / 2 ^ 48)%N ∧ (l <= mid_digit l r)%N ∧
  (l < r → mid_digit l r < r)%N.
Proof.
  unfold digit_ok, mid_digit, saturating_sub. intros Hl Hr Hle.
  rewrite N.shiftr_div_pow2. set (q := ((r - l) / 2 ^ 48)%N).
  assert (q <= (r - l) / 2 ^ 1 ∧ q <= r - l)%N as [Hq Hq'].
  { split; [apply N.div_le_compat_l; by vm_compute|].
    apply N.Div0.div_le_upper_bound. nia. }
  rewrite wrap_small by lia. split; [done|]. split; [lia|]. intros Hlt.
  enough (q < r - l)%N by lia. apply (N.le_lt_trans _ _ _ Hq). apply N.div_lt; lia.
Qed.

Lemma mid_digit_sat l r : digit_ok l → (r <= l)%N → mid_digit l r = l.
Proof.
  unfold digit_ok, mid_digit, saturating_sub. intros Hl Hle.
  replace (r - l)%N with 0%N by lia. rewrite N.shiftr_0_l, N.add_0_r. by apply wrap_small.
Qed.

(** What the loop adds to the location. *)
Definition between_post (l r q : list N) : Prop :=
  Forall digit_ok q ∧ (∃ q' d, q = q' ++ [d] ∧ d ≠ 0%N) ∧ cmp l q = Lt ∧
  (cmp l r = Lt → last r ≠ Some 0%N → cmp q r = Lt).

Lemma cmp_cons (x y : N) (a b : list N) : cmp (x :: a) (y :: b) = then_with (cmp x y) (cmp a b).
Proof. done. Qed.

Lemma digit_cmp_lt (a b : N) : cmp a b = Lt ↔ (a < b)%N.
Proof. apply N.compare_lt_iff. Qed.

(** The padded heads. *)
Definition head_lhs (l : list N) : N := match l with [] => 0%N | d :: _ => d end.
Definition head_rhs (r : list N) : N := match r with [] => U64_MAX | d :: _ => d end.

Lemma head_ok l r : Forall digit_ok l → Forall digit_ok r → digit_ok (head_lhs l) ∧ digit_ok (head_rhs r).
Proof. intros Hl Hr. split; [destruct Hl|destruct Hr]; done. Qed.

Lemma last_tail_nonzero (d : N) r : last (d :: r) ≠ Some 0%N → r ≠ [] → last r ≠ Some 0%N.
Proof. destruct r; done. Qed.

(** The last round: a digit above the left one. *)
Lemma between_stop l r :
  Forall digit_ok l → Forall digit_ok r → (head_lhs l < mid_digit (head_lhs l) (head_rhs r))%N →
  between_post l r [mid_digit (head_lhs l) (head_rhs r)].
Proof.
  intros Hl Hr Hlt. destruct (head_ok l r Hl Hr) as [Hdl Hdr].
  assert (head_lhs l < head_rhs r)%N as Hlr.
  { destruct (N.lt_ge_cases (head_lhs l) (head_rhs r)); [done|]. rewrite mid_digit_sat in Hlt by done. lia. }
  destruct (mid_digit_bounds (head_lhs l) (head_rhs r)) as (_ & _ & Hm); [done|done|lia|].
  specialize (Hm Hlr). split_and!.
  - constructor; [|constructor]. unfold digit_ok in *. lia.
  - exists [], (mid_digit (head_lhs l) (head_rhs r)). split; [done|lia].
  - destruct l as [|d l]; [done|]. simpl in *. rewrite cmp_cons. by apply digit_cmp_lt in Hlt as ->.
  - intros Hc _. destruct r as [|d r]; [by destruct l|]. simpl in *. rewrite cmp_cons.
    by apply digit_cmp_lt in Hm as ->.
Qed.

(** A round that goes on: the digit is the left one. *)
Lemma between_continue l r q :
  Forall digit_ok l → Forall digit_ok r → mid_digit (head_lhs l) (head_rhs r) = head_lhs l →
  between_post (tail l) (tail r) q → between_post l r (mid_digit (head_lhs l) (head_rhs r) :: q).
Proof.
  intros Hl Hr Hmid (Hq & (q' & d & -> & Hd) & Hlt & Hrt). rewrite Hmid.
  destruct (head_ok l r Hl Hr) as [Hdl Hdr]. split_and!.
  - by constructor.
  - by exists (head_lhs l :: q'), d.
  - destruct l as [|x l]; [done|]. simpl. rewrite cmp_cons, cmp_refl. done.
  - intros Hc Hz. destruct r as [|y r]; [by destruct l|]. rewrite cmp_cons. simpl in *.
    destruct l as [|x l]; simpl in *.
    + destruct (decide (y = 0%N)) as [->|Hy].
      * simpl. assert (r ≠ []) as Hr' by (by intros ->). apply Hrt; [by destruct r|].
        by apply (last_tail_nonzero 0%N).
      * assert (cmp 0%N y = Lt) as -> by (apply digit_cmp_lt; lia). done.
    + rewrite cmp_cons in Hc. destruct (cmp x y) eqn:E; simpl in *; [|done|done].
      apply Hrt; [done|]. apply (last_tail_nonzero y); [done|]. intros ->. by destruct l.
Qed.

Lemma between_loop fuel l r loc :
  Forall digit_ok l → Forall digit_ok r → max (length l) (length r) + 1 < fuel →
  ∃ q, loop between_step fuel (l, r, loc) = Ret (loc ++ q) ∧ between_post l r q ∧
    length q ≤ max (length l) (length r) + 1.
Proof.
  revert l r loc. induction fuel as [|fuel IH]; intros l r loc Hl Hr Hf; [lia|]. simpl loop.
  change (match l with [] => 0%N | d :: _ => d end) with (head_lhs l).
  change (match r with [] => U64_MAX | d :: _ => d end) with (head_rhs r).
  destruct (head_ok l r Hl Hr) as [Hdl Hdr].
  destruct (N.ltb_spec (head_lhs l) (mid_digit (head_lhs l) (head_rhs r))) as [Hlt|Hge].
  - eexists. split_and!; [reflexivity|by apply between_stop|simpl; lia].
  - assert (mid_digit (head_lhs l) (head_rhs r) = head_lhs l) as Hmid.
    { destruct (N.le_gt_cases (head_lhs l) (head_rhs r)).
      - destruct (mid_digit_bounds (head_lhs l) (head_rhs r)) as (_ & ? & _); [done..|]. lia.
      - apply mid_digit_sat; [done|lia]. }
    destruct (decide (l = [] ∧ r = [])) as [[-> ->]|Hne].
    { vm_compute in Hge. done. }
    destruct (IH (tail l) (tail r) (loc ++ [mid_digit (head_lhs l) (head_rhs r)])) as (q & Hq & Hpost & Hlen).
    { by destruct Hl. }
    { by destruct Hr. }
    { destruct l, r; simpl in *; try tauto; lia. }
    eexists. split_and!; [rewrite Hq, <-app_assoc; reflexivity|by apply between_continue|].
    destruct l, r; simpl in *; try tauto; lia.
Qed.

(** ** Theorems *)

(** The locators of the program: [min], and those [between] makes. *)
Definition locator_ok (l : Locator) : Prop :=
  Forall digit_ok (digits l) ∧ digits l ≠ [] ∧ (last (digits l) ≠ Some 0%N ∨ l = locator_min).

Lemma not_below_min (l : Locator) : digits l ≠ [] → cmp l locator_min ≠ Lt.
Proof.
  destruct l as [[|d l]]; [done|]. intros _. unfold cmp at 1, Locator_ord. simpl digits. rewrite cmp_cons.
  assert (cmp d 0%N ≠ Lt) by (rewrite digit_cmp_lt; lia). destruct (cmp d 0%N); [|done|done].
  by destruct l.
Qed.

Lemma between_spec (lhs rhs : Locator) :
  locator_ok lhs → locator_ok rhs → olt lhs rhs →
  returns (between lhs rhs) (λ m, locator_ok m ∧ olt lhs m ∧ olt m rhs ∧
    locator_len m ≤ max (locator_len lhs) (locator_len rhs) + 1).
Proof.
  intros (Hl & Hnl & _) (Hr & Hnr & Hz) Hlt. unfold between, between_fuel.
  destruct (between_loop (S (S (max (length (digits lhs)) (length (digits rhs))))) (digits lhs) (digits rhs) [])
    as (q & -> & (Hq & (q' & d & -> & Hd) & Hlq & Hqr) & Hlen); [done|done|lia|].
  apply returns_Ret. simpl. split_and!; [|exact Hlq| |done].
  - split_and!; simpl; [done|by destruct q'|]. left. rewrite last_snoc. congruence.
  - apply Hqr; [done|]. destruct Hz as [?| ->]; [done|]. by apply not_below_min in Hlt.
Qed.

(** C39: Density: between any two locators of the program [between] returns one
    that is strictly between them, is again such a locator, and is at most one
    digit longer than both; so positions can be inserted anywhere, for ever,
    without renumbering. *)
Theorem between_dense (lhs rhs : Locator) :
  locator_ok lhs → locator_ok rhs → olt lhs rhs →
  returns (between lhs rhs) (λ m, locator_ok m ∧ olt lhs m ∧ olt m rhs ∧
    locator_len m ≤ max (locator_len lhs) (locator_len rhs) + 1).
Proof. apply between_spec. Qed.

Lemma between_dense_witness :
  returns (between locator_min locator_max) (λ m, locator_ok m ∧ olt locator_min m ∧ olt m locator_max ∧
    locator_len m ≤ 2).
Proof.
  apply (between_dense locator_min locator_max); [| |reflexivity];
    (split; [repeat constructor|split; [discriminate|]]); [right; reflexivity|left; discriminate].
Defined.

(** Appending at the end, over and over. *)
Fixpoint sequential_append (n : nat) : outcome Locator :=
  match n with
  | 0 => Ret locator_min
  | S n => let* prev := sequential_append n in between prev locator_max
  end.

Lemma between_max_step a :
  (a <= 2 ^ 63)%N →
  ∃ b, between (MkLocator [a]) locator_max = Ret (MkLocator [b]) ∧ (b <= a + 65535)%N.
Proof.
  intros Ha. set (b := mid_digit a U64_MAX). exists b.
  assert (digit_ok a ∧ digit_ok U64_MAX) as [Hda Hdm] by (split; unfold digit_ok, U64_MAX; lia).
  destruct (mid_digit_bounds a U64_MAX Hda Hdm) as (Hb & _); [unfold U64_MAX; lia|]. fold b in Hb.
  assert (1 <= (U64_MAX - a) / 2 ^ 48 ∧ (U64_MAX - a) / 2 ^ 48 <= 65535)%N as [H1 H2].
  { split.
    - apply N.div_le_lower_bound; unfold U64_MAX; lia.
    - apply N.lt_succ_r. apply N.Div0.div_lt_upper_bound. unfold U64_MAX. lia. }
  split; [|lia]. unfold between, between_fuel. simpl. fold b.
  destruct (N.ltb_spec a b); [done|lia].
Qed.

(** C38: Typing at the end of a buffer keeps locators one digit long: the first
    2^47 sequential appends all return locators of length one. *)
Theorem sequential_append_depth (n : nat) :
  (N.of_nat n <= 2 ^ 47)%N → returns (sequential_append n) (λ l, locator_len l = 1).
Proof.
  intros Hn. apply (returns_mono _ (λ l, ∃ a, l = MkLocator [a] ∧ (a <= 65535 * N.of_nat n)%N));
    [|by intros l (a & -> & _)].
  induction n as [|n IH]; simpl.
  - apply returns_Ret. exists 0%N. split; [done|lia].
  - destruct IH as (l & -> & a & -> & Ha); [lia|].
    destruct (between_max_step a) as (b & -> & Hb); [lia|]. apply returns_Ret. exists b. split; [done|lia].
Qed.

Lemma sequential_append_depth_witness : returns (sequential_append 100) (λ l, locator_len l = 1).
Proof. apply (sequential_append_depth 100). vm_compute. discriminate. Defined.

(** A right end with a trailing zero digit (which [between] never makes, but
    the crate's random test may draw) is not respected: the result is above it. *)
Theorem between_trailing_zero :
  let lhs := MkLocator [5%N] in let rhs := MkLocator [5%N; 0%N] in
  olt lhs rhs ∧ between lhs rhs = Ret (MkLocator [5%N; 0%N; 65535%N]) ∧
  olt rhs (MkLocator [5%N; 0%N; 65535%N]).
Proof. vm_compute. done. Qed.
