(* ===== verification/UndoMap.v ===== *)
(** * The undo map ([crates/text/src/undo_map.rs])

    How often each edit was undone and redone, keyed by edit and undo
    timestamps.  An edit is undone when the largest count any observed undo
    operation assigned to it is odd. *)
From stdpp Require Import base numbers option list sorting.
From Stdlib Require Import Lia.
From S2P Require Import Prelude Clock SumTree SumTreeFacts SumTreeBulk Cursor CursorFacts CursorSeek CursorMove CursorIter Keyed KeyedFacts.
#[local] Opaque TREE_BASE av_cap.

Record UndoMapKey := MkUndoKey { uk_edit_id : Lamport; uk_undo_id : Lamport }.
Record UndoMapEntry := MkUndoEntry { ue_key : UndoMapKey; ue_undo_count : N }.

(** [derive(Ord)]: lexicographic. *)
#[export] Instance UndoMapKey_ord : Ord UndoMapKey := λ a b,
  then_with (cmp (uk_edit_id a) (uk_edit_id b)) (cmp (uk_undo_id a) (uk_undo_id b)).

Definition undo_key_zero : UndoMapKey := MkUndoKey Lamport_MIN Lamport_MIN.

#[export] Instance UndoMapKey_summary : Summary UndoMapKey :=
  {| zero := undo_key_zero; add_summary := cmp_max |}.
#[export] Instance UndoMapEntry_item : Item UndoMapEntry UndoMapKey := ue_key.
#[export] Instance UndoMapEntry_keyed : KeyedItem UndoMapEntry UndoMapKey := ue_key.
#[export] Instance UndoMapKey_dimension : Dimension UndoMapKey UndoMapKey := summary_dimension.
#[local] Existing Instance key_target.

Definition UndoMap : Type := SumTree UndoMapEntry UndoMapKey.

(** [struct UndoOperation] of [text.rs]; [counts] is a hash map, given by its
    pairs in the order it iterates them. *)
Record UndoOperation := MkUndoOperation {
  undo_timestamp : Lamport;
  undo_version : Global;
  undo_counts : list (Lamport * N);
}.

Section Ops.
Context (sort_by_key : list (Edit UndoMapEntry UndoMapKey) → list (Edit UndoMapEntry UndoMapKey)).

Definition undo_edits (undo : UndoOperation) : list (Edit UndoMapEntry UndoMapKey) :=
  (λ '(edit_id, count), Insert (MkUndoEntry (MkUndoKey edit_id (undo_timestamp undo)) count))
    <$> undo_counts undo.

(** [UndoMap::insert] *)
Definition undo_insert (self : UndoMap) (undo : UndoOperation) : outcome UndoMap :=
  let* '(_, self) := edit sort_by_key self (undo_edits undo) in Ret self.

(** The loop [for entry in cursor]: the largest count, among the entries of
    this edit that [observes] accepts. *)
Definition count_loop (observes : Lamport → bool) (self : UndoMap) (edit_id : Lamport) : outcome N :=
  let* '(_, c) := seek (cursor_new (D:=UndoMapKey) self) (MkUndoKey edit_id Lamport_MIN) Left in
  loop (λ '(c, undo_count),
          let* '(entry, c) := cursor_iter_next c in
          match entry with
          | None => Ret (inr undo_count)
          | Some e =>
              if decide (uk_edit_id (ue_key e) = edit_id) then
                Ret (inl (c, if observes (uk_undo_id (ue_key e)) then N.max undo_count (ue_undo_count e)
                             else undo_count))
              else Ret (inr undo_count)
          end) (S (tree_size self)) (c, 0%N).

Definition undo_count (self : UndoMap) (edit_id : Lamport) : outcome N :=
  count_loop (λ _, true) self edit_id.

Definition is_undone (self : UndoMap) (edit_id : Lamport) : outcome bool :=
  let* n := undo_count self edit_id in Ret (n mod 2 =? 1)%N.

Definition was_undone (self : UndoMap) (edit_id : Lamport) (version : Global) : outcome bool :=
  let* n := count_loop (observed version) self edit_id in Ret (n mod 2 =? 1)%N.
End Ops.

(** ** Laws *)
#[export] Instance UndoMapKey_ord_laws : OrdLaws UndoMapKey.
Proof.
  split; unfold cmp at 1, UndoMapKey_ord.
  - intros [a1 a2] [b1 b2]. rewrite lex_eq. simpl. split; [by intros [-> ->]|by intros [= -> ->]].
  - intros a b. apply lex_antisym.
  - intros a b c Hab Hbc. eapply (lex_lt_trans uk_edit_id uk_undo_id); [exact Hab|exact Hbc].
Qed.

Lemma Lamport_min_le (t : Lamport) : is_le (cmp Lamport_MIN t) = true.
Proof.
  destruct t as [v [r]]. unfold cmp, Lamport_ord; simpl. unfold cmp, N_ord, ReplicaId_ord; simpl.
  destruct v; simpl; [|done]. unfold cmp, N_ord. by destruct r.
Qed.

Lemma undo_zero_le (k : UndoMapKey) : is_le (cmp undo_key_zero k) = true.
Proof.
  destruct k as [e u]. unfold cmp, UndoMapKey_ord; simpl.
  pose proof (Lamport_min_le e). pose proof (Lamport_min_le u). by destruct (cmp Lamport_MIN e).
Qed.

Lemma undo_foldl_sorted (l : list UndoMapEntry) :
  sorted_keys l → foldl cmp_max undo_key_zero (ue_key <$> l) = from_option ue_key undo_key_zero (last l).
Proof.
  induction l as [|x l IH] using rev_ind; [done|]. intros (Hl & _ & Hlt)%sorted_app.
  rewrite fmap_app, foldl_app, last_snoc. simpl. rewrite IH by done.
  destruct (last l) as [y|] eqn:E; simpl; [|apply cmp_max_le, undo_zero_le].
  apply last_Some_elem_of in E. rewrite Forall_forall in Hlt.
  specialize (Hlt y E). apply Forall_cons in Hlt as [Hlt _]. by apply cmp_max_lt.
Qed.

#[export] Instance UndoMap_summary_laws : SummaryLaws UndoMapEntry UndoMapKey.
Proof.
  refine {| valid := sorted_keys |}.
  - intros l1 l2 (? & ? & _)%sorted_app. done.
  - intros x _. apply cmp_max_le, undo_zero_le.
  - intros l _ _. apply cmp_max_le, undo_zero_le.
  - intros l1 l2 Hl1 Hl2 Hs. pose proof Hs as (Hs1 & Hs2 & Hlt)%sorted_app.
    unfold total, sum. rewrite !undo_foldl_sorted by done. rewrite last_app_nonnil by done.
    destruct (last l1) as [x|] eqn:E1; [|by apply last_None in E1].
    destruct (last l2) as [y|] eqn:E2; [|by apply last_None in E2]. simpl.
    symmetry. apply cmp_max_lt. apply last_Some_elem_of in E1, E2.
    rewrite Forall_forall in Hlt. specialize (Hlt x E1). rewrite Forall_forall in Hlt. by apply Hlt.
Defined.

#[export] Instance UndoMap_dimension_laws : DimensionLaws UndoMapKey UndoMapEntry UndoMapKey.
Proof.
  split; [|done]. intros l1 l2 Hl2 Hs.
  change (cmp_max (total l1) (total l2) = total (l1 ++ l2)).
  destruct (decide (length l1 = 0)) as [->%length_zero_iff_nil|Hne]; simpl.
  - apply cmp_max_le, undo_zero_le.
  - assert (l1 ≠ []) as Hl1 by (by destruct l1). symmetry. exact (total_app l1 l2 Hl1 Hl2 Hs).
Qed.

#[export] Instance UndoMap_keyed_laws : KeyedLaws UndoMapEntry UndoMapKey UndoMapKey.
Proof.
  refine {| item_ok := λ _, True |}.
  - intros p x Hs _. change (foldl cmp_max undo_key_zero (ue_key <$> (p ++ [x])) = ue_key x).
    rewrite undo_foldl_sorted by done. by rewrite last_snoc.
  - intros x _. pose proof (undo_zero_le (ue_key x)) as Hz. change (dim_zero (D:=UndoMapKey)) with undo_key_zero.
    rewrite (cmp_antisym undo_key_zero (key x)). unfold key, UndoMapEntry_keyed. by destruct (cmp _ _).
  - done.
Defined.

(** ** What the loop computes *)
Section Facts.
Context (m : UndoMap) (Hm : keyed_wf m) (Hheight : height m < STACK_CAP).
Abbreviation its := (tree_items m).

Definition of_edit (e : Lamport) (x : UndoMapEntry) : bool := bool_decide (uk_edit_id (ue_key x) = e).
Definition not_below (e : Lamport) (x : UndoMapEntry) : bool :=
  negb (is_below (MkUndoKey e Lamport_MIN) x).

(** The largest accepted count. *)
Definition max_count (observes : Lamport → bool) (l : list UndoMapEntry) : N :=
  foldr N.max 0%N (ue_undo_count <$> List.filter (λ x, observes (uk_undo_id (ue_key x))) l).

Lemma max_count_cons observes x l :
  max_count observes (x :: l)
  = if observes (uk_undo_id (ue_key x)) then N.max (ue_undo_count x) (max_count observes l)
    else max_count observes l.
Proof. unfold max_count. simpl. by destruct (observes _). Qed.

Lemma below_edit_id e (x : UndoMapEntry) :
  is_below (MkUndoKey e Lamport_MIN) x = lt_b (uk_edit_id (ue_key x)) e.
Proof.
  unfold is_below, lt_b, key, UndoMapEntry_keyed. unfold cmp at 1, UndoMapKey_ord. simpl.
  destruct (cmp (uk_edit_id (ue_key x)) e); simpl; try done.
  pose proof (Lamport_min_le (uk_undo_id (ue_key x))) as Hz.
  rewrite (cmp_antisym Lamport_MIN). by destruct (cmp Lamport_MIN _).
Qed.

(** From the first entry of an edit on: its entries, then later edits. *)
Lemma edit_entries_prefix e l :
  sorted_keys l → Forall (λ x, not_below e x = true) l →
  ∃ r, l = List.filter (of_edit e) l ++ r ∧
    match r with [] => True | x :: _ => uk_edit_id (ue_key x) ≠ e end.
Proof.
  induction l as [|x l IH]; intros Hs Hb; simpl; [by exists []|].
  apply sorted_cons in Hs as [Hx Hs]. apply Forall_cons in Hb as [Hbx Hb].
  unfold of_edit at 1. case_bool_decide as E.
  - destruct (IH Hs Hb) as (r & El & Hr). exists r. split; [|done]. simpl. by rewrite <-El.
  - exists (x :: l). split; [|done]. rewrite filter_none; [done|].
    rewrite Forall_forall in Hx |- *. intros y Hy. unfold of_edit. apply bool_decide_eq_false. intros Ey.
    specialize (Hx y Hy). unfold not_below in Hbx. rewrite below_edit_id in Hbx.
    unfold key_lt, olt, key, UndoMapEntry_keyed in Hx. unfold cmp at 1, UndoMapKey_ord in Hx.
    rewrite Ey in Hx. unfold lt_b in Hbx.
    destruct (cmp (uk_edit_id (ue_key x)) e) eqn:Ec; [|done|done]. by apply cmp_eq in Ec.
Qed.

Lemma count_loop_spec observes e :
  count_loop observes m e = Ret (max_count observes (List.filter (of_edit e) its)).
Proof.
  pose proof Hm as [Hw Hk]. pose proof Hk as [Hs _]. pose proof (keyed_list_valid _ Hk) as Hv.
  unfold count_loop.
  destruct (seek_forward_spec m Hw Hv Hheight (MkUndoKey e Lamport_MIN) Left (keyed_monotone _ _ Hk)
    _ _ _ (seekable_new m)) as ([b c] & Hseek & Hc).
  { change (measure []) with undo_key_zero. unfold seek_cmp, key_target, ord_seek_target.
    rewrite (cmp_antisym undo_key_zero). pose proof (undo_zero_le (MkUndoKey e Lamport_MIN)).
    by destruct (cmp _ _). }
  unfold seek. change (reset (cursor_new m)) with (cursor_new (D:=UndoMapKey) m). rewrite Hseek.
  rewrite advance_filter in Hc by (apply past_mono || done). destruct Hc as [Hc _].
  set (l := List.filter (λ x, negb (target_past _ _ _)) its) in Hc.
  assert (l = List.filter (not_below e) its) as El.
  { apply List.filter_ext. intros x. by rewrite past_key. }
  rewrite El in Hc. clear l El.
  destruct (edit_entries_prefix e (List.filter (not_below e) its)) as (r & Er & Hr).
  { by apply sorted_filter. }
  { apply Forall_forall. intros x [_ Hx]%list_elem_of_In%List.filter_In. done. }
  assert (List.filter (of_edit e) (List.filter (not_below e) its) = List.filter (of_edit e) its) as Ef.
  { rewrite filter_filter. apply List.filter_ext. intros x. unfold of_edit, not_below.
    rewrite below_edit_id. case_bool_decide as E; [|done]. simpl. rewrite E. unfold lt_b. by rewrite cmp_refl. }
  rewrite Ef in Er. rewrite Er in Hc. set (es := List.filter (of_edit e) its) in *.
  assert (Forall (λ x, uk_edit_id (ue_key x) = e) es) as Hes.
  { apply Forall_forall. intros x [_ Hx]%list_elem_of_In%List.filter_In. by apply bool_decide_eq_true in Hx. }
  apply returns_eq. eapply (loop_bounded _
    (λ n '(c, cnt), ∃ p es', cursor_at m c p (es' ++ r) ∧ Forall (λ x, uk_edit_id (ue_key x) = e) es' ∧
       N.max cnt (max_count observes es') = max_count observes es ∧ n = length es')).
  - intros n [c' cnt] (p & es' & Hc' & Hes' & Hcnt & ->).
    destruct (cursor_iter_next_at m Hw Hv Hheight c' p (es' ++ r) Hc') as ([x c''] & -> & -> & Hc'').
    destruct es' as [|x es']; simpl.
    + right. exists cnt. split; [|unfold max_count in Hcnt; simpl in Hcnt; by rewrite N.max_0_r in Hcnt].
      destruct r as [|x r]; simpl; [done|]. by rewrite decide_False.
    + left. apply Forall_cons in Hes' as [Hx Hes']. rewrite decide_True by done.
      eexists _, (length es'). split; [reflexivity|]. split; [|lia].
      exists (p ++ [x]), es'. split_and!; [exact Hc''|done| |done].
      rewrite <-Hcnt, max_count_cons. destruct (observes _); lia.
  - exists (List.filter (λ x, target_past (MkUndoKey e Lamport_MIN) Left (key x)) its), es.
    split_and!; [exact Hc|done|lia|done].
  - assert (length es ≤ length its) by (apply List.filter_length_le).
    assert (length its ≤ tree_size m); [|lia].
    destruct Hw as [->|[h Ht]]; [simpl; lia|by eapply length_items_size].
Qed.
End Facts.

Lemma foldr_max_le (l : list N) b : (foldr N.max 0 l <= b)%N ↔ ∀ n, n ∈ l → (n <= b)%N.
Proof.
  induction l as [|x l IH]; simpl.
  - split; [intros _ n Hn; by apply elem_of_nil in Hn|lia].
  - rewrite N.max_lub_iff, IH. setoid_rewrite elem_of_cons. naive_solver.
Qed.

Lemma max_count_le observes e (l : list UndoMapEntry) b :
  (max_count observes (List.filter (of_edit e) l) <= b)%N ↔
  ∀ x, x ∈ l → uk_edit_id (ue_key x) = e → observes (uk_undo_id (ue_key x)) = true → (ue_undo_count x <= b)%N.
Proof.
  unfold max_count. rewrite foldr_max_le. setoid_rewrite list_elem_of_fmap.
  setoid_rewrite list_elem_of_In. setoid_rewrite List.filter_In. setoid_rewrite List.filter_In.
  unfold of_edit. split.
  - intros Hb x Hx He Ho. apply Hb. exists x. split_and!; auto. by apply bool_decide_eq_true.
  - intros Hb n (x & -> & (Hx & He%bool_decide_eq_true) & Ho). auto.
Qed.

(** The count an undo operation assigns to an edit; 0 if it does not name it. *)
Definition op_count (undo : UndoOperation) (e : Lamport) : N :=
  foldr N.max 0%N (snd <$> List.filter (λ ec, bool_decide (ec.1 = e)) (undo_counts undo)).

Lemma op_count_le undo e b :
  (op_count undo e <= b)%N ↔ ∀ n, (e, n) ∈ undo_counts undo → (n <= b)%N.
Proof.
  unfold op_count. rewrite foldr_max_le. setoid_rewrite list_elem_of_fmap.
  setoid_rewrite list_elem_of_In. setoid_rewrite List.filter_In. split.
  - intros Hb n Hn. apply Hb. exists (e, n). split_and!; auto. by apply bool_decide_eq_true.
  - intros Hb n ([e' n'] & -> & Hx & He%bool_decide_eq_true). simpl in *. subst. auto.
Qed.

(** The map has no entry of this operation that the operation does not have. *)
Definition consistent (m : UndoMap) (undo : UndoOperation) : Prop :=
  ∀ x, x ∈ tree_items m → uk_undo_id (ue_key x) = undo_timestamp undo →
    (uk_edit_id (ue_key x), ue_undo_count x) ∈ undo_counts undo.

Lemma undo_insert_spec sort_by_key m undo :
  sort_spec sort_by_key → keyed_wf m → height m < STACK_CAP → NoDup (undo_counts undo).*1 →
  returns (undo_insert sort_by_key m undo) (λ m', keyed_wf m' ∧ ∀ y, y ∈ tree_items m' ↔
    (uk_undo_id (ue_key y) = undo_timestamp undo ∧ (uk_edit_id (ue_key y), ue_undo_count y) ∈ undo_counts undo) ∨
    (y ∈ tree_items m ∧ ¬ (uk_undo_id (ue_key y) = undo_timestamp undo ∧
                           uk_edit_id (ue_key y) ∈ (undo_counts undo).*1))).
Proof.
  intros Hsort Hm Hh Hnd. unfold undo_insert.
  assert (edit_key <$> undo_edits undo
    = (λ e, MkUndoKey e (undo_timestamp undo)) <$> (undo_counts undo).*1) as Ek.
  { unfold undo_edits. rewrite <-!list_fmap_compose. apply list_fmap_ext. by intros i [e n] _. }
  destruct (edit_spec m Hm Hh sort_by_key (undo_edits undo) Hsort) as ([r m'] & -> & Hm' & Hin & _).
  { rewrite Ek. apply NoDup_fmap; [by intros ?? [=]|done]. }
  { unfold undo_edits. apply Forall_fmap, Forall_forall. by intros [e n] _. }
  apply returns_Ret. split; [done|]. intros y. rewrite Hin, Ek.
  assert (Insert y ∈ undo_edits undo ↔ uk_undo_id (ue_key y) = undo_timestamp undo ∧
    (uk_edit_id (ue_key y), ue_undo_count y) ∈ undo_counts undo) as ->.
  { unfold undo_edits. rewrite list_elem_of_fmap. split.
    - by intros ([e n] & [= ->] & Hx).
    - destruct y as [[e u] n]; simpl. intros [-> Hx]. by exists (e, n). }
  assert (key y ∈ (λ e, MkUndoKey e (undo_timestamp undo)) <$> (undo_counts undo).*1 ↔
    uk_undo_id (ue_key y) = undo_timestamp undo ∧ uk_edit_id (ue_key y) ∈ (undo_counts undo).*1) as ->; [|done].
  rewrite list_elem_of_fmap. destruct y as [[e u] n]; unfold key, UndoMapEntry_keyed; simpl. split.
  - by intros (e' & [= -> ->] & Hx).
  - intros [-> Hx]. by exists e.
Qed.

(** ** Theorems *)

(** Inserting an undo operation raises the count of each edit to the maximum
    of its old count and the one the operation assigns (among the entries any
    given version has observed, if it has observed the operation); maxima make
    the result independent of the order and of repetitions of deliveries. *)
Theorem undo_insert_counts sort_by_key m undo :
  sort_spec sort_by_key → keyed_wf m → height m < STACK_CAP → NoDup (undo_counts undo).*1 →
  consistent m undo →
  returns (undo_insert sort_by_key m undo) (λ m', keyed_wf m' ∧
    (height m' < STACK_CAP → ∀ observes e, ∃ n,
       count_loop observes m e = Ret n ∧
       count_loop observes m' e
         = Ret (if observes (undo_timestamp undo) then N.max n (op_count undo e) else n))).
Proof.
  intros Hsort Hm Hh Hnd Hcon.
  eapply returns_mono; [by apply undo_insert_spec|]. intros m' [Hm' Hin]. split; [done|].
  intros Hh' obs e. eexists. split; [by apply count_loop_spec|]. rewrite count_loop_spec by done.
  f_equal. apply N.le_antisymm.
  - apply max_count_le. intros x [[Ht Hx]|[Hx _]]%Hin He Ho.
    + rewrite Ht in Ho. rewrite Ho. rewrite He in Hx. apply (N.le_trans _ (op_count undo e)); [|lia].
      by apply (op_count_le undo e (op_count undo e)).
    + apply (N.le_trans _ (max_count obs (List.filter (of_edit e) (tree_items m)))); [|destruct (obs (undo_timestamp undo)); lia].
      by apply (max_count_le obs e (tree_items m)).
  - assert (max_count obs (List.filter (of_edit e) (tree_items m))
      <= max_count obs (List.filter (of_edit e) (tree_items m')))%N as Hle.
    { apply max_count_le. intros x Hx He Ho.
      apply (max_count_le obs e (tree_items m')); [reflexivity| |done|done]. apply Hin.
      destruct (decide (uk_undo_id (ue_key x) = undo_timestamp undo)) as [E|E]; [left|right; tauto].
      split; [done|by apply Hcon]. }
    destruct (obs (undo_timestamp undo)) eqn:Eo; [|done]. apply N.max_lub; [done|].
    apply op_count_le. intros n Hn.
    apply (proj1 (max_count_le obs e (tree_items m') _) (N.le_refl _)
      (MkUndoEntry (MkUndoKey e (undo_timestamp undo)) n)); [|done|done]. apply Hin. left. done.
Qed.

(** [is_undone] and [was_undone] decide the parity of the largest count
    assigned to the edit, by all operations or by those a version observed. *)
Theorem undone_parity m e version :
  keyed_wf m → height m < STACK_CAP →
  let entries_of := List.filter (of_edit e) (tree_items m) in
  is_undone m e = Ret (max_count (λ _, true) entries_of mod 2 =? 1)%N ∧
  was_undone m e version = Ret (max_count (observed version) entries_of mod 2 =? 1)%N.
Proof.
  intros Hm Hh. unfold is_undone, was_undone, undo_count. by rewrite !count_loop_spec.
Qed.

(** ** Witnesses *)
Definition sample_undo : UndoOperation :=
  MkUndoOperation (MkLamport 5 LOCAL) Global_new [(MkLamport 1 LOCAL, 1%N); (MkLamport 2 AGENT, 3%N)].

Lemma undo_new_wf : keyed_wf (new : UndoMap).
Proof. split; [by left|]. split; constructor. Qed.

Lemma undo_insert_counts_witness :
  returns (undo_insert (insertion_sort edit_key) new sample_undo) (λ m', keyed_wf m' ∧
    (height m' < STACK_CAP → ∀ observes e, ∃ n,
       count_loop observes new e = Ret n ∧
       count_loop observes m' e
         = Ret (if observes (MkLamport 5 LOCAL) then N.max n (op_count sample_undo e) else n))).
Proof.
  apply (undo_insert_counts (insertion_sort edit_key) new sample_undo);
    [apply insertion_sort_spec|apply undo_new_wf|vm_compute; lia| |].
  - apply (bool_decide_unpack _). vm_compute. exact I.
  - intros x Hx. exfalso. inversion Hx.
Defined.

Lemma undone_parity_witness : is_undone new (MkLamport 1 LOCAL) = Ret false.
Proof.
  destruct (undone_parity new (MkLamport 1 LOCAL) Global_new undo_new_wf) as [H _]; [vm_compute; lia|].
  exact H.
Defined.
