(* ===== verification/OperationQueue.v ===== *)
(** * Deferred operations ([crates/text/src/operation_queue.rs])

    Remote operations that cannot be applied yet wait in a tree sorted by
    timestamp.  Its summaries [assert!] that timestamps increase; a failed
    assertion is [Panic], which [outcome] summaries and keys carry along, so a
    theorem that finds them to be [Ret] shows that no assertion failed.  A
    panicked position compares below every target, so that a search would keep
    it rather than drop it. *)
From stdpp Require Import base numbers option list sorting.
From Stdlib Require Import Lia.
From S2P Require Import Prelude Clock SumTree SumTreeFacts SumTreeBulk Cursor CursorFacts CursorSeek CursorMove CursorIter Keyed KeyedFacts UndoMap.
#[local] Opaque TREE_BASE av_cap.

#[export] Existing Instances outcome_ord outcome_ord_laws.

Record OperationSummary := MkOperationSummary { os_key : Lamport; os_len : N }.
Record OperationItem (Op : Type) := MkOperationItem { the_op : Op }.
Arguments MkOperationItem {Op}.
Arguments the_op {Op}.

(** [trait Operation] *)
Class Operation (Op : Type) := lamport_timestamp : Op → Lamport.

#[export] Instance OperationSummary_summary : Summary (outcome OperationSummary) :=
  {| zero := Ret (MkOperationSummary Lamport_MIN 0);
     add_summary := λ a b,
       let* a := a in
       let* b := b in
       let* _ := rust_assert (lt_b (os_key a) (os_key b)) in
       Ret (MkOperationSummary (os_key b) (wrap 64 (os_len a + os_len b))) |}.

#[export] Instance OperationKey_dimension : Dimension (outcome Lamport) (outcome OperationSummary) :=
  {| dim_zero := Ret Lamport_MIN;
     dim_add := λ d s,
       let* d := d in
       let* s := s in
       let* _ := rust_assert (le_b d (os_key s)) in
       Ret (os_key s) |}.

Section Queue.
Context {Op : Type} `{Operation Op}.

#[export] Instance OperationItem_item : Item (OperationItem Op) (outcome OperationSummary) :=
  λ x, Ret (MkOperationSummary (lamport_timestamp (the_op x)) 1).
#[export] Instance OperationItem_keyed : KeyedItem (OperationItem Op) (outcome Lamport) :=
  λ x, Ret (lamport_timestamp (the_op x)).

Definition OperationQueue : Type := SumTree (OperationItem Op) (outcome OperationSummary).
Abbreviation queue := OperationQueue.

Definition queue_new : queue := new.

Definition queue_len (self : queue) : outcome N := let* s := summary self in Ret (os_len s).

Definition queue_is_empty (self : queue) : outcome bool := let* n := queue_len self in Ret (n =? 0)%N.

(** [Vec::dedup_by_key]: of neighbours with equal keys the first stays. *)
Fixpoint dedup_from (x : Op) (ops : list Op) : list Op :=
  match ops with
  | [] => [x]
  | y :: ops =>
      if decide (lamport_timestamp x = lamport_timestamp y) then dedup_from x ops
      else x :: dedup_from y ops
  end.
Definition dedup_by_key (ops : list Op) : list Op :=
  match ops with [] => [] | x :: ops => dedup_from x ops end.

(** [sort_ops] and [sort_by_key] are the two uses of [sort_unstable_by_key]. *)
Definition queue_insert (sort_ops : list Op → list Op) sort_by_key (self : queue) (ops : list Op) :
  outcome queue :=
  let ops := dedup_by_key (sort_ops ops) in
  let* '(_, self) := edit sort_by_key self ((λ op, Insert (MkOperationItem op)) <$> ops) in
  Ret self.

(** The drained queue and what is left. *)
Definition queue_drain (self : queue) : queue * queue := (self, new).

Definition queue_iter (self : queue) : outcome (list Op) :=
  let* l := iter_collect self in Ret (the_op <$> l).

(** ** Laws *)
Abbreviation ts x := (lamport_timestamp (the_op x)).
Implicit Types l : list (OperationItem Op).

(** A timestamp above the least one, as every clock issues. *)
Definition op_ok (x : OperationItem Op) : Prop := olt Lamport_MIN (ts x).

Lemma op_foldl l :
  sorted_keys l → Forall op_ok l →
  foldl add_summary zero (item_summary_of <$> l)
  = Ret (MkOperationSummary (from_option (λ x, ts x) Lamport_MIN (last l)) (wrap 64 (N.of_nat (length l)))).
Proof.
  induction l as [|x l IH] using rev_ind; [done|].
  intros (Hl & _ & Hlt)%sorted_app [Hok [Hx _]%Forall_cons]%Forall_app.
  rewrite fmap_app, foldl_app, IH, last_snoc, length_app by done. simpl.
  assert (lt_b (from_option (λ x, ts x) Lamport_MIN (last l)) (ts x) = true) as ->.
  { unfold lt_b. destruct (last l) as [y|] eqn:E; simpl.
    - apply last_Some_elem_of in E. rewrite Forall_forall in Hlt. specialize (Hlt y E).
      apply Forall_cons in Hlt as [Hlt _]. change (cmp (ts y) (ts x) = Lt) in Hlt. by rewrite Hlt.
    - unfold op_ok, olt in Hx. by rewrite Hx. }
  simpl. do 2 f_equal. unfold wrap. rewrite N.Div0.add_mod_idemp_l. f_equal. lia.
Qed.

#[export] Instance Operation_summary_laws : SummaryLaws (OperationItem Op) (outcome OperationSummary).
Proof.
  refine {| valid := λ l, sorted_keys l ∧ Forall op_ok l |}.
  - intros l1 l2 [(? & ? & _)%sorted_app [? ?]%Forall_app]. done.
  - intros x [_ [Hx _]%Forall_cons]. unfold total, sum. simpl. unfold op_ok, olt in Hx. unfold lt_b.
    by rewrite Hx.
  - intros l Hne [Hs Ho]. unfold total, sum. rewrite op_foldl by done. simpl.
    destruct (last l) as [x|] eqn:E; [|by apply last_None in E]. simpl.
    apply last_Some_elem_of in E. rewrite Forall_forall in Ho. specialize (Ho x E).
    unfold op_ok, olt in Ho. unfold lt_b. rewrite Ho. simpl. do 2 f_equal. apply N.Div0.mod_mod.
  - intros l1 l2 Hl1 Hl2 [Hs Ho]. pose proof Hs as (Hs1 & Hs2 & Hlt)%sorted_app.
    pose proof Ho as [Ho1 Ho2]%Forall_app. unfold total, sum. rewrite !op_foldl by done.
    rewrite last_app_nonnil, length_app by done. simpl.
    destruct (last l1) as [x|] eqn:E1; [|by apply last_None in E1].
    destruct (last l2) as [y|] eqn:E2; [|by apply last_None in E2]. simpl.
    apply last_Some_elem_of in E1, E2. rewrite Forall_forall in Hlt. specialize (Hlt x E1).
    rewrite Forall_forall in Hlt. specialize (Hlt y E2). change (cmp (ts x) (ts y) = Lt) in Hlt.
    unfold lt_b. rewrite Hlt. simpl. do 2 f_equal. unfold wrap. rewrite <-N.Div0.add_mod. f_equal. lia.
Defined.

Lemma op_measure l :
  sorted_keys l → Forall op_ok l →
  measure (D:=outcome Lamport) l = Ret (from_option (λ x, ts x) Lamport_MIN (last l)).
Proof.
  unfold measure. induction l as [|x l IH] using rev_ind; [done|].
  intros (Hl & _ & Hlt)%sorted_app [Hok _]%Forall_app.
  rewrite fmap_app, foldl_app, IH, last_snoc by done. simpl.
  assert (le_b (from_option (λ x, ts x) Lamport_MIN (last l)) (ts x) = true) as ->; [|done].
  destruct (last l) as [y|] eqn:E; simpl; [|apply Lamport_min_le].
  apply last_Some_elem_of in E. rewrite Forall_forall in Hlt. specialize (Hlt y E).
  apply Forall_cons in Hlt as [Hlt _]. apply le_b_lt. by left.
Qed.

#[export] Instance Operation_dimension_laws :
  DimensionLaws (outcome Lamport) (OperationItem Op) (outcome OperationSummary).
Proof.
  split; [|done]. intros l1 l2 Hl2 Hv. pose proof Hv as [Hs Ho].
  pose proof Hs as (Hs1 & Hs2 & Hlt)%sorted_app. pose proof Ho as [Ho1 Ho2]%Forall_app.
  rewrite !op_measure by done. unfold total, sum. rewrite op_foldl by done. simpl.
  rewrite last_app_nonnil by done. destruct (last l2) as [y|] eqn:E2; [|by apply last_None in E2]. simpl.
  assert (le_b (from_option (λ x, ts x) Lamport_MIN (last l1)) (ts y) = true) as ->; [|done].
  destruct (last l1) as [x|] eqn:E1; simpl; [|apply Lamport_min_le].
  apply last_Some_elem_of in E1, E2. rewrite Forall_forall in Hlt. specialize (Hlt x E1).
  rewrite Forall_forall in Hlt. apply le_b_lt. left. by apply (Hlt y E2).
Qed.

#[export] Instance Operation_keyed_laws :
  KeyedLaws (OperationItem Op) (outcome Lamport) (outcome OperationSummary).
Proof.
  refine {| item_ok := op_ok |}.
  - intros p x Hs Ho. rewrite op_measure by done. by rewrite last_snoc.
  - intros x _. unfold key, OperationItem_keyed. unfold cmp, outcome_ord; simpl.
    pose proof (Lamport_min_le (ts x)). rewrite (cmp_antisym Lamport_MIN). by destruct (cmp Lamport_MIN _).
  - done.
Defined.

(** ** Insertion *)
Abbreviation sorted_ops := (StronglySorted (λ a b : Op, le_b (lamport_timestamp a) (lamport_timestamp b) = true)).

Definition sort_ops_spec (sort_ops : list Op → list Op) : Prop :=
  ∀ ops, sort_ops ops ≡ₚ ops ∧ sorted_ops (sort_ops ops).

Lemma dedup_from_spec x ops :
  sorted_ops (x :: ops) →
  NoDup (lamport_timestamp <$> dedup_from x ops) ∧
  (∀ y, y ∈ dedup_from x ops → y ∈ x :: ops) ∧
  (∀ t, t ∈ lamport_timestamp <$> dedup_from x ops ↔ t ∈ lamport_timestamp <$> x :: ops).
Proof.
  revert x. induction ops as [|y ops IH]; intros x Hs; simpl.
  { split_and!; [apply NoDup_singleton|done|done]. }
  apply StronglySorted_inv in Hs as [Hs Hx]. pose proof (StronglySorted_inv Hs) as [Hs' Hy].
  apply Forall_cons in Hx as [Hxy Hx]. case_decide as E.
  - destruct (IH x) as (Hnd & Hin & Hts); [by constructor|]. split_and!; [done| |].
    + intros z Hz%Hin. rewrite !elem_of_cons in *. tauto.
    + intros t. rewrite Hts. csimpl. rewrite !elem_of_cons. rewrite E. tauto.
  - destruct (IH y Hs) as (Hnd & Hin & Hts). csimpl. split_and!.
    + constructor; [|done]. rewrite Hts. csimpl. rewrite elem_of_cons. intros [?|Hz]; [done|].
      apply list_elem_of_fmap in Hz as (z & Ez & Hz). rewrite Forall_forall in Hy. specialize (Hy z Hz).
      rewrite <-Ez in Hy. apply le_b_lt in Hxy as [Hxy|?]; [|done].
      apply le_b_lt in Hy as [Hy|Hy]; [|by rewrite Hy in E].
      apply (olt_irrefl (lamport_timestamp x)). by apply (olt_trans _ (lamport_timestamp y)).
    + intros z [->|Hz%Hin]%elem_of_cons; [left|by right].
    + intros t. rewrite !elem_of_cons, Hts. csimpl. by rewrite elem_of_cons.
Qed.

Lemma dedup_spec ops :
  sorted_ops ops →
  NoDup (lamport_timestamp <$> dedup_by_key ops) ∧
  (∀ y, y ∈ dedup_by_key ops → y ∈ ops) ∧
  (∀ t, t ∈ lamport_timestamp <$> dedup_by_key ops ↔ t ∈ lamport_timestamp <$> ops).
Proof. destruct ops as [|x ops]; [|apply dedup_from_spec]. intros _. split_and!; [constructor|done|done]. Qed.

Lemma queue_insert_spec sort_ops sort_by_key (self : queue) (ops : list Op) :
  sort_ops_spec sort_ops → sort_spec sort_by_key → keyed_wf self → height self < STACK_CAP →
  Forall (λ op, olt Lamport_MIN (lamport_timestamp op)) ops →
  returns (queue_insert sort_ops sort_by_key self ops) (λ self', keyed_wf self' ∧
    (∀ y, y ∈ tree_items self' → the_op y ∈ ops ∨
       (y ∈ tree_items self ∧ ts y ∉ lamport_timestamp <$> ops)) ∧
    (∀ t, t ∈ (λ y, ts y) <$> tree_items self' ↔
       t ∈ lamport_timestamp <$> ops ∨ t ∈ (λ y, ts y) <$> tree_items self)).
Proof.
  intros Hso Hsk Hq Hh Hok. destruct (Hso ops) as [Hperm Hsorted]. unfold queue_insert.
  destruct (dedup_spec _ Hsorted) as (Hnd & Hin & Hts). set (ds := dedup_by_key (sort_ops ops)) in *.
  assert (edit_key <$> ((λ op, Insert (MkOperationItem op)) <$> ds) = Ret <$> (lamport_timestamp <$> ds)) as Ek.
  { by rewrite <-!list_fmap_compose. }
  destruct (edit_spec self Hq Hh sort_by_key ((λ op, Insert (MkOperationItem op)) <$> ds) Hsk)
    as ([r self'] & -> & Hq' & Hmem & _).
  { rewrite Ek. by apply NoDup_fmap; [intros ?? [=]|]. }
  { apply Forall_fmap, Forall_forall. intros op Hop%Hin. rewrite Hperm in Hop.
    rewrite Forall_forall in Hok. by apply Hok. }
  assert (∀ y : OperationItem Op, Insert y ∈ (λ op, Insert (MkOperationItem op) : Edit _ (outcome Lamport)) <$> ds ↔ the_op y ∈ ds) as Hins.
  { intros [op]. rewrite list_elem_of_fmap. simpl. split; [by intros (op' & [= ->] & ?)|by exists op]. }
  assert (∀ y : OperationItem Op, key y ∈ Ret <$> (lamport_timestamp <$> ds) ↔ ts y ∈ lamport_timestamp <$> ops) as Hkey.
  { intros y. rewrite list_elem_of_fmap. rewrite <-Hperm, <-Hts. split; [by intros (t & [= <-] & ?)|by exists (ts y)]. }
  apply returns_Ret. rewrite Ek in Hmem. split_and!; [done| |].
  - intros y [Hy%Hins|[Hy Hk]]%Hmem; [left|right].
    + rewrite <-Hperm. by apply Hin.
    + split; [done|]. by rewrite <-Hkey.
  - intros t. rewrite <-Hperm, <-Hts, !list_elem_of_fmap. split.
    + intros (y & -> & Hy). apply Hmem in Hy as [Hy%Hins|[Hy _]]; [left|right]; eauto.
    + intros [(op & -> & Hop)|(y & -> & Hy)].
      * exists (MkOperationItem op). split; [done|]. apply Hmem. left. by apply Hins.
      * destruct (decide (ts y ∈ lamport_timestamp <$> ds)) as [Hd|Hd].
        -- apply list_elem_of_fmap in Hd as (op & -> & Hop). exists (MkOperationItem op).
           split; [done|]. apply Hmem. left. by apply Hins.
        -- exists y. split; [done|]. apply Hmem. right. split; [done|].
           rewrite Hkey, <-Hperm, <-Hts. done.
Qed.
(** Inserting operations, in any order, with repetitions, leaves the queue
    strictly sorted by timestamp, with no assertion failing: it holds only
    given operations and old ones of other timestamps, and one operation for
    every timestamp given or there before. *)
Theorem queue_insert_refines sort_ops sort_by_key (self : queue) (ops : list Op) :
  sort_ops_spec sort_ops → sort_spec sort_by_key → keyed_wf self → height self < STACK_CAP →
  Forall (λ op, olt Lamport_MIN (lamport_timestamp op)) ops →
  returns (queue_insert sort_ops sort_by_key self ops) (λ self', keyed_wf self' ∧
    (∀ y, y ∈ tree_items self' → the_op y ∈ ops ∨
       (y ∈ tree_items self ∧ ts y ∉ lamport_timestamp <$> ops)) ∧
    (∀ t, t ∈ (λ y, ts y) <$> tree_items self' ↔
       t ∈ lamport_timestamp <$> ops ∨ t ∈ (λ y, ts y) <$> tree_items self)).
Proof. apply queue_insert_spec. Qed.

(** [len] is the number of waiting operations, [iter] yields them in
    timestamp order, and [drain] hands them over and leaves the empty queue. *)
Theorem queue_reads_refine (self : queue) :
  keyed_wf self → height self < STACK_CAP →
  queue_len self = Ret (wrap 64 (N.of_nat (length (tree_items self)))) ∧
  queue_iter self = Ret (the_op <$> tree_items self) ∧
  StronglySorted (λ a b, olt (lamport_timestamp a) (lamport_timestamp b)) (the_op <$> tree_items self) ∧
  queue_drain self = (self, queue_new).
Proof.
  intros [Hw [Hs Ho]] Hh. split_and!; [| | |done].
  - unfold queue_len. destruct Hw as [->|[h Ht]]; [done|].
    rewrite (wf_node_summary _ _ Ht). unfold total, sum. by rewrite op_foldl.
  - unfold queue_iter. by rewrite iter_collect_wf.
  - clear Ho. induction Hs as [|x l Hs IH Hlt]; csimpl; constructor; [done|]. by apply Forall_fmap.
Qed.
End Queue.

(** ** Witnesses *)
#[local] Instance Lamport_operation : Operation Lamport := λ t, t.

Lemma queue_new_wf : keyed_wf (queue_new : OperationQueue (Op:=Lamport)).
Proof. split; [by left|]. split; constructor. Qed.

Definition sample_ops : list Lamport := [MkLamport 3 AGENT; MkLamport 1 LOCAL; MkLamport 3 AGENT].

Lemma queue_insert_refines_witness :
  ∃ q, queue_insert (insertion_sort lamport_timestamp) (insertion_sort edit_key) queue_new sample_ops = Ret q ∧
    keyed_wf q ∧ MkLamport 1 LOCAL ∈ (λ y, lamport_timestamp (the_op y)) <$> tree_items q.
Proof.
  destruct (queue_insert_refines (insertion_sort lamport_timestamp) (insertion_sort edit_key) queue_new
    sample_ops) as (q & E & Hq & _ & Ht).
  - intros ops. split; [apply insertion_sort_perm|apply (insertion_sort_sorted lamport_timestamp)].
  - apply insertion_sort_spec.
  - apply queue_new_wf.
  - vm_compute. lia.
  - repeat constructor.
  - exists q. split; [exact E|]. split; [exact Hq|]. apply Ht. left. right. left.
Defined.

Lemma queue_reads_refine_witness : queue_len (queue_new : OperationQueue (Op:=Lamport)) = Ret 0%N.
Proof. exact (proj1 (queue_reads_refine queue_new queue_new_wf ltac:(vm_compute; lia))). Defined.
