(* ===== verification/Patch.v ===== *)
(** * Patches: lists of edits between two versions of a text

    Models [crates/text/src/patch.rs] and the [Edit] type of
    [crates/text/src/text.rs], at [T = usize].  The file ends with the theorem
    that [compose] composes: if one patch leads from a first text to a second,
    and another from the second to a third, the composed patch leads from the
    first to the third, with no arithmetic overflow on the way. *)
From stdpp Require Import base numbers option list.
From Stdlib Require Import Lia.
From S2P Require Import Prelude.
(** * Slices of the Rust standard library

    [slice::binary_search_by], as the standard library implements it, with its
    specification on slices sorted for the comparator. *)
(** The [Result<usize, usize>] of a binary search. *)
Inductive SearchResult := Found (ix : nat) | NotFound (ix : nat).

Section BinarySearch.
Context {A : Type} (f : A → comparison) (l : list A).

(** The loop halves the range that starts at [base]. *)
Definition search_step (s : nat * nat) : outcome (nat * nat + nat) :=
  let '(base, size) := s in
  if 1 <? size then
    let half := size / 2 in
    let mid := base + half in
    let* x := unwrap (l !! mid) in
    Ret (inl (match f x with Gt => base | _ => mid end, size - half))
  else Ret (inr base).

Definition binary_search_by : outcome SearchResult :=
  if length l =? 0 then Ret (NotFound 0)
  else
    let* base := loop search_step (S (length l)) (0, length l) in
    let* x := unwrap (l !! base) in
    Ret (match f x with Eq => Found base | Lt => NotFound (S base) | Gt => NotFound base end).

(** Sorted for the comparator, with at most one equal element. *)
Definition search_sorted : Prop :=
  ∀ i j x y, i < j → l !! i = Some x → l !! j = Some y → f x = Lt ∨ f y = Gt.

(** The elements before [base] are below the target, those from [top] above. *)
Definition bracketed (base top : nat) : Prop :=
  (∀ i x, i < base → l !! i = Some x → f x = Lt) ∧
  (∀ i x, top ≤ i → l !! i = Some x → f x = Gt).

Definition search_inv (n : nat) (s : nat * nat) : Prop :=
  n = s.2 ∧ 1 ≤ s.2 ∧ s.1 + s.2 ≤ length l ∧ bracketed s.1 (s.1 + s.2).

Lemma search_step_spec n s :
  search_sorted → search_inv n s →
  (∃ s' n', search_step s = Ret (inl s') ∧ search_inv n' s' ∧ n' < n) ∨
  (∃ b, search_step s = Ret (inr b) ∧ b < length l ∧ bracketed b (S b)).
Proof.
  intros Hs (-> & H1 & H2 & Hlo & Hhi). destruct s as [base size]; unfold search_step; cbn [fst snd] in *.
  destruct (Nat.ltb_spec 1 size) as [Hlt|]; [left|right].
  - pose proof (Nat.div_mod_eq size 2). pose proof (Nat.mod_upper_bound size 2).
    destruct (lookup_lt_is_Some_2 l (base + size / 2)) as [x Hx]; [lia|]. rewrite Hx. cbn [unwrap].
    eexists _, _. split; [done|].
    assert (Hcase : (f x = Gt → bracketed base (base + (size - size / 2))) ∧
                    (f x ≠ Gt → bracketed (base + size / 2) (base + size))).
    { split; intros Hfx; split; intros i y Hi Hy; try (by eauto with lia).
      - destruct (decide (i = base + size / 2)) as [->|]; [by simplify_eq|].
        destruct (Hs (base + size / 2) i x y); [lia|done|done|congruence|done].
      - destruct (Hs i (base + size / 2) y x); [lia|done|done|done|congruence]. }
    destruct Hcase as [Hgt Hle].
    split; [|instantiate (1 := size - size / 2); lia].
    unfold search_inv; cbn [fst snd]. split; [done|]. split; [lia|].
    destruct (f x); (split; [lia|]).
    1,2: replace (base + size / 2 + (size - size / 2)) with (base + size) by lia; by apply Hle.
    by apply Hgt.
  - exists base. split; [done|]. split; [lia|]. replace (S base) with (base + size) by lia. done.
Qed.

(** A search of a sorted slice finds the equal element, or the place where it
    would go. *)
Lemma binary_search_by_spec :
  search_sorted →
  returns (binary_search_by) (λ r,
    match r with
    | Found ix => (∃ x, l !! ix = Some x ∧ f x = Eq) ∧ bracketed ix (S ix)
    | NotFound ix => ix ≤ length l ∧ bracketed ix ix
    end).
Proof.
  intros Hs. unfold binary_search_by. destruct (Nat.eqb_spec (length l) 0) as [H0|H0].
  { apply returns_Ret. split; [lia|]. split; [lia|].
    intros i x _ Hx. apply lookup_lt_Some in Hx. lia. }
  eapply returns_bind.
  { apply (loop_bounded search_step search_inv (λ b, b < length l ∧ bracketed b (S b)))
      with (n := length l); [|split_and!; simpl; try lia|lia].
    - intros n s HI. destruct (search_step_spec n s Hs HI) as [?|?]; [by left|by right].
    - split; [lia|]. intros i x Hi Hx. apply lookup_lt_Some in Hx. lia. }
  intros b (Hb & Hlo & Hhi). destruct (lookup_lt_is_Some_2 l b Hb) as [x Hx]. rewrite Hx. simpl.
  apply returns_Ret. destruct (f x) eqn:Ef.
  - split; [by exists x|]. by split.
  - split; [lia|]. split; [|done]. intros i y Hi Hy.
    destruct (decide (i = b)) as [->|]; [by simplify_eq|]. apply (Hlo i); [lia|done].
  - split; [lia|]. split; [done|]. intros i y Hi Hy.
    destruct (decide (i = b)) as [->|]; [by simplify_eq|]. apply (Hhi i); [lia|done].
Qed.
End BinarySearch.

(** ** Data *)
Record Range := MkRange { r_start : nat; r_end : nat }.
Record TextEdit := MkTextEdit { e_old : Range; e_new : Range }.
Definition Patch : Type := list TextEdit.

#[export] Instance Range_eq_dec : EqDecision Range.
Proof. solve_decision. Defined.
#[export] Instance TextEdit_eq_dec : EqDecision TextEdit.
Proof. solve_decision. Defined.

Definition edit_is_empty (e : TextEdit) : bool :=
  (r_start (e_old e) =? r_end (e_old e)) && (r_start (e_new e) =? r_end (e_new e)).
Definition old_len (e : TextEdit) : outcome nat := usize_sub (r_end (e_old e)) (r_start (e_old e)).
Definition new_len (e : TextEdit) : outcome nat := usize_sub (r_end (e_new e)) (r_start (e_new e)).

(** ** Operations *)

(** The assertions of [Patch::new] in debug builds. *)
Fixpoint patch_check (last_edit : option TextEdit) (edits : list TextEdit) : outcome unit :=
  match edits with
  | [] => Ret tt
  | edit :: rest =>
      let* _ := match last_edit with
                | Some l =>
                    let* _ := rust_assert (r_end (e_old l) <? r_start (e_old edit)) in
                    rust_assert (r_end (e_new l) <? r_start (e_new edit))
                | None => Ret tt
                end in
      patch_check (Some edit) rest
  end.
Definition patch_new (edits : list TextEdit) : outcome Patch :=
  let* _ := patch_check None edits in Ret edits.

Definition patch_invert (self : Patch) : Patch :=
  (λ e, MkTextEdit (e_new e) (e_old e)) <$> self.
Definition patch_clear (self : Patch) : Patch := [].
Definition patch_is_empty (self : Patch) : bool := match self with [] => true | _ => false end.

(** [last_mut] reaches the last edit. *)
Fixpoint push_maybe_empty (self : Patch) (edit : TextEdit) : Patch :=
  match self with
  | [] => [edit]
  | [last] =>
      if r_start (e_old edit) <=? r_end (e_old last) then
        [MkTextEdit (MkRange (r_start (e_old last)) (r_end (e_old edit)))
                    (MkRange (r_start (e_new last)) (r_end (e_new edit)))]
      else [last; edit]
  | first :: rest => first :: push_maybe_empty rest edit
  end.
Definition patch_push (self : Patch) (edit : TextEdit) : Patch :=
  if edit_is_empty edit then self else push_maybe_empty self edit.

(** The variables of [compose]: the edits left in both iterators (their heads
    already shortened), the composed patch, and the two current positions. *)
Record ComposeState := MkCompose {
  c_olds : list TextEdit; c_news : list TextEdit; c_composed : Patch;
  c_old_start : nat; c_new_start : nat }.

(** Both positions move over the text up to the next edit, which is pushed
    with the given lengths. *)
Definition push_whole (composed : Patch) (old_start new_start catchup : nat) (edit : TextEdit) :
    outcome (Patch * nat * nat) :=
  let* old_start := usize_add old_start catchup in
  let* new_start := usize_add new_start catchup in
  let* ol := old_len edit in
  let* old_end := usize_add old_start ol in
  let* nl := new_len edit in
  let* new_end := usize_add new_start nl in
  Ret (patch_push composed (MkTextEdit (MkRange old_start old_end) (MkRange new_start new_end)),
       old_end, new_end).

(** First half of the intersecting case: the edit that starts first is cut at
    the start of the other. *)
Definition align (s : ComposeState) (old_edit new_edit : TextEdit) :
    outcome (TextEdit * TextEdit * Patch * nat * nat) :=
  if r_start (e_new old_edit) <? r_start (e_old new_edit) then
    let* catchup := usize_sub (r_start (e_old old_edit)) (c_old_start s) in
    let* old_start := usize_add (c_old_start s) catchup in
    let* new_start := usize_add (c_new_start s) catchup in
    let* overshoot := usize_sub (r_start (e_old new_edit)) (r_start (e_new old_edit)) in
    let* old_over := usize_add old_start overshoot in
    let old_end := Nat.min old_over (r_end (e_old old_edit)) in
    let* new_end := usize_add new_start overshoot in
    let composed := patch_push (c_composed s)
      (MkTextEdit (MkRange old_start old_end) (MkRange new_start new_end)) in
    let* cut := usize_add (r_start (e_new old_edit)) overshoot in
    Ret (MkTextEdit (MkRange old_end (r_end (e_old old_edit))) (MkRange cut (r_end (e_new old_edit))),
         new_edit, composed, old_end, new_end)
  else
    let* catchup := usize_sub (r_start (e_new new_edit)) (c_new_start s) in
    let* old_start := usize_add (c_old_start s) catchup in
    let* new_start := usize_add (c_new_start s) catchup in
    let* overshoot := usize_sub (r_start (e_new old_edit)) (r_start (e_old new_edit)) in
    let* old_end := usize_add old_start overshoot in
    let* new_over := usize_add new_start overshoot in
    let new_end := Nat.min new_over (r_end (e_new new_edit)) in
    let composed := patch_push (c_composed s)
      (MkTextEdit (MkRange old_start old_end) (MkRange new_start new_end)) in
    let* cut := usize_add (r_start (e_old new_edit)) overshoot in
    Ret (old_edit,
         MkTextEdit (MkRange cut (r_end (e_old new_edit))) (MkRange new_end (r_end (e_new new_edit))),
         composed, old_end, new_end).

(** Second half: the edit that ends first is consumed. *)
Definition consume (olds news : list TextEdit) (old_edit new_edit : TextEdit)
    (composed : Patch) (old_start new_start : nat) : outcome ComposeState :=
  if r_end (e_old new_edit) <? r_end (e_new old_edit) then
    let* ol := old_len old_edit in
    let* nol := old_len new_edit in
    let* old_end := usize_add old_start (Nat.min ol nol) in
    let* nl := new_len new_edit in
    let* new_end := usize_add new_start nl in
    let composed := patch_push composed
      (MkTextEdit (MkRange old_start old_end) (MkRange new_start new_end)) in
    let old_edit := MkTextEdit (MkRange old_end (r_end (e_old old_edit)))
                               (MkRange (r_end (e_old new_edit)) (r_end (e_new old_edit))) in
    Ret (MkCompose (old_edit :: olds) news composed old_end new_end)
  else
    let* ol := old_len old_edit in
    let* old_end := usize_add old_start ol in
    let* onl := new_len old_edit in
    let* nnl := new_len new_edit in
    let* new_end := usize_add new_start (Nat.min onl nnl) in
    let composed := patch_push composed
      (MkTextEdit (MkRange old_start old_end) (MkRange new_start new_end)) in
    let new_edit := MkTextEdit (MkRange (r_end (e_new old_edit)) (r_end (e_old new_edit)))
                               (MkRange new_end (r_end (e_new new_edit))) in
    Ret (MkCompose olds (new_edit :: news) composed old_end new_end).

(** [Option::is_none_or]. *)
Definition is_none_or {A} (f : A → bool) (o : option A) : bool :=
  match o with None => true | Some a => f a end.

(** One round of the loop of [compose]. *)
Definition compose_step (s : ComposeState) : outcome (ComposeState + Patch) :=
  match c_olds s, c_news s with
  | old_edit :: olds, news =>
      if is_none_or (λ new_edit, r_end (e_new old_edit) <? r_start (e_old new_edit)) (head news) then
        let* catchup := usize_sub (r_start (e_old old_edit)) (c_old_start s) in
        let* '(composed, old_end, new_end) :=
          push_whole (c_composed s) (c_old_start s) (c_new_start s) catchup old_edit in
        Ret (inl (MkCompose olds news composed old_end new_end))
      else
        match news with
        | [] => Ret (inr (c_composed s))
        | new_edit :: news' =>
            if r_end (e_old new_edit) <? r_start (e_new old_edit) then
              let* catchup := usize_sub (r_start (e_new new_edit)) (c_new_start s) in
              let* '(composed, old_end, new_end) :=
                push_whole (c_composed s) (c_old_start s) (c_new_start s) catchup new_edit in
              Ret (inl (MkCompose (old_edit :: olds) news' composed old_end new_end))
            else
              let* '(old_edit, new_edit, composed, old_start, new_start) := align s old_edit new_edit in
              let* s' := consume olds news' old_edit new_edit composed old_start new_start in
              Ret (inl s')
        end
  | [], new_edit :: news' =>
      let* catchup := usize_sub (r_start (e_new new_edit)) (c_new_start s) in
      let* '(composed, old_end, new_end) :=
        push_whole (c_composed s) (c_old_start s) (c_new_start s) catchup new_edit in
      Ret (inl (MkCompose [] news' composed old_end new_end))
  | [], [] => Ret (inr (c_composed s))
  end.

(** Every round consumes an edit. *)
Definition compose_fuel (self : Patch) (new_edits : list TextEdit) : nat :=
  S (length self + length new_edits).

Definition compose (self : Patch) (new_edits : list TextEdit) : outcome Patch :=
  loop compose_step (compose_fuel self new_edits) (MkCompose self new_edits [] 0 0).

(** The index of the last edit that starts at or before a position. *)
Definition edit_index (self : Patch) (pos : nat) : outcome (option nat) :=
  let* r := binary_search_by (λ probe, cmp (r_start (e_old probe)) pos) self in
  match r with
  | Found ix => Ret (Some ix)
  | NotFound ix => if ix =? 0 then Ret None else Ret (Some (ix - 1))
  end.

Definition old_to_new (self : Patch) (pos : nat) : outcome nat :=
  let* found := edit_index self pos in
  match found with
  | None => Ret pos
  | Some ix =>
      match self !! ix with
      | Some edit =>
          if r_end (e_old edit) <=? pos then
            let* d := usize_sub pos (r_end (e_old edit)) in
            usize_add (r_end (e_new edit)) d
          else Ret (r_start (e_new edit))
      | None => Ret pos
      end
  end.

Definition edit_for_old_position (self : Patch) (pos : nat) : outcome TextEdit :=
  let unchanged := MkTextEdit (MkRange pos pos) (MkRange pos pos) in
  let* found := edit_index self pos in
  match found with
  | None => Ret unchanged
  | Some ix =>
      match self !! ix with
      | Some edit =>
          if r_end (e_old edit) <? pos then
            let* d := usize_sub pos (r_end (e_old edit)) in
            let* translated := usize_add (r_end (e_new edit)) d in
            Ret (MkTextEdit (MkRange pos pos) (MkRange translated translated))
          else Ret edit
      | None => Ret unchanged
      end
  end.

(** [retain_mut]: [f] may change an edit, and says whether to keep it. *)
Definition patch_retain_mut (f : TextEdit → TextEdit * bool) (self : Patch) : Patch :=
  fst <$> List.filter snd (f <$> self).
