(* ===== verification/PatchFacts.v ===== *)
(** * What a patch means, and how the operations of patches keep it

    [rewrites i j u p v]: with [u] and [v] the rest of an old and of a new text
    from positions [i] and [j], the patch [p] lists the ranges in which they
    differ; outside these ranges the texts are the same. *)
From stdpp Require Import base numbers option list.
From Stdlib Require Import Lia.
From S2P Require Import Prelude Patch.

Section Rewrites.
Context {A : Type}.
Implicit Types u v w x y z t : list A.
Implicit Types p q : Patch.

(** The edit that replaces [x] by [y] at the given positions. *)
Definition edit_at (i j : nat) x y : TextEdit :=
  MkTextEdit (MkRange i (i + length x)) (MkRange j (j + length y)).

Inductive rewrites : nat → nat → list A → Patch → list A → Prop :=
| rewrites_done i j w : rewrites i j w [] w
| rewrites_edit i j w x y u p v :
    rewrites (i + length w + length x) (j + length w + length y) u p v →
    rewrites i j (w ++ x ++ u) (edit_at (i + length w) (j + length w) x y :: p) (w ++ y ++ v).

(** The edits are apart from each other, as [Patch::new] asserts. *)
Fixpoint separated p : Prop :=
  match p with
  | e :: ((e' :: _) as rest) =>
      r_end (e_old e) < r_start (e_old e') ∧ r_end (e_new e) < r_start (e_new e') ∧ separated rest
  | _ => True
  end.

Lemma patch_new_spec p : separated p → patch_new p = Ret p.
Proof.
  assert (H : ∀ p l, match l with Some e => separated (e :: p) | None => separated p end →
    patch_check l p = Ret tt).
  { clear p. induction p as [|e p IH]; intros l Hl; [done|].
    cbn [patch_check]. destruct l as [e'|]; [|by apply (IH (Some e))].
    destruct Hl as (H1 & H2 & H3). unfold rust_assert.
    apply Nat.ltb_lt in H1 as ->, H2 as ->. by apply (IH (Some e)). }
  intros Hp. unfold patch_new. by rewrite (H p None).
Qed.

(** ** Inversion, skipping and trimming *)
Lemma rewrites_invert i j u p v : rewrites i j u p v → rewrites j i v (patch_invert p) u.
Proof. induction 1; csimpl; [constructor|]. by apply rewrites_edit. Qed.

Lemma patch_invert_involutive p : patch_invert (patch_invert p) = p.
Proof.
  unfold patch_invert. rewrite <-list_fmap_compose. rewrite <-(list_fmap_id p) at 2.
  apply list_fmap_ext. by intros _ [] _.
Qed.

Lemma rewrites_edit_inv i j u e p v :
  rewrites i j u (e :: p) v →
  ∃ w x y u' v', u = w ++ x ++ u' ∧ v = w ++ y ++ v' ∧ e = edit_at (i + length w) (j + length w) x y ∧
    rewrites (i + length w + length x) (j + length w + length y) u' p v'.
Proof. inversion 1; subst. eauto 10. Qed.

Lemma rewrites_edit_at i j i' j' w x y u p v :
  rewrites (i + length w + length x) (j + length w + length y) u p v →
  i' = i + length w → j' = j + length w →
  rewrites i j (w ++ x ++ u) (edit_at i' j' x y :: p) (w ++ y ++ v).
Proof. intros ? -> ->. by apply rewrites_edit. Qed.

(** Equal up to arithmetic on the positions. *)
Lemma rewrites_eq i j i' j' u p v : rewrites i j u p v → i = i' → j = j' → rewrites i' j' u p v.
Proof. by intros ? -> ->. Qed.

(** Text before the first edit is the same in both, and can be left out. *)
Lemma rewrites_skip i j z u p v :
  rewrites i j (z ++ u) p v →
  (∀ e, head p = Some e → i + length z ≤ r_start (e_old e)) →
  ∃ v', v = z ++ v' ∧ rewrites (i + length z) (j + length z) u p v'.
Proof.
  intros H Hz. destruct p as [|e p].
  { inversion H; subst. eexists. split; [done|constructor]. }
  apply rewrites_edit_inv in H as (w & x & y & u' & v' & Eu & -> & -> & H).
  specialize (Hz _ eq_refl). simpl in Hz.
  apply app_split_le in Eu as (k & -> & ->); [|lia]. rewrite length_app in *.
  exists (k ++ y ++ v'). rewrite <-app_assoc. split; [done|].
  apply rewrites_edit_at; [|lia|lia]. by rewrite <-!Nat.add_assoc in *.
Qed.

Lemma rewrites_skip_new i j z u p v :
  rewrites i j u p (z ++ v) →
  (∀ e, head p = Some e → j + length z ≤ r_start (e_new e)) →
  ∃ u', u = z ++ u' ∧ rewrites (i + length z) (j + length z) u' p v.
Proof.
  intros H%rewrites_invert Hz. apply rewrites_skip in H as (u' & -> & H).
  - exists u'. split; [done|]. apply rewrites_invert in H. by rewrite patch_invert_involutive in H.
  - destruct p as [|e p]; csimpl; [done|]. intros _ [= <-]. by apply Hz.
Qed.

(** ** Appending to a patch *)
Lemma rewrites_keep i j u p v z : rewrites i j u p v → rewrites i j (u ++ z) p (v ++ z).
Proof. induction 1; [constructor|]. rewrite <-!app_assoc. by apply rewrites_edit. Qed.

Lemma edit_at_empty i j x y : edit_is_empty (edit_at i j x y) = true ↔ x = [] ∧ y = [].
Proof.
  unfold edit_is_empty, edit_at. simpl. rewrite andb_true_iff, !Nat.eqb_eq.
  split; [|intros [-> ->]; simpl; lia]. intros [Hx Hy].
  split; apply nil_length_inv; lia.
Qed.

Lemma rewrites_one i j i' j' w x y :
  i' = i + length w → j' = j + length w →
  rewrites i j (w ++ x) [edit_at i' j' x y] (w ++ y).
Proof.
  intros -> ->. pose proof (rewrites_edit i j w x y [] [] [] (rewrites_done _ _ _)) as H.
  by rewrite !app_nil_r in H.
Qed.

Lemma rewrites_push_maybe_empty i j u p v x y i' j' :
  rewrites i j u p v → i' = i + length u → j' = j + length v →
  rewrites i j (u ++ x) (push_maybe_empty p (edit_at i' j' x y)) (v ++ y).
Proof.
  intros H. revert i' j'. induction H as [i j w|i j w x1 y1 u p v H IH]; intros i' j' Hi Hj.
  { by apply rewrites_one. }
  rewrite !length_app in Hi, Hj. specialize (IH i' j' ltac:(lia) ltac:(lia)).
  destruct p as [|e p].
  - inversion H; subst v. cbn [push_maybe_empty edit_at e_old e_new r_start r_end].
    rewrite <-!app_assoc.
    destruct (Nat.leb_spec i' (i + length w + length x1)) as [Hle|Hgt]; [|by apply rewrites_edit].
    assert (u = []) as -> by (apply nil_length_inv; lia). simpl in *.
    match goal with |- rewrites _ _ _ [?e] _ =>
      replace e with (edit_at (i + length w) (j + length w) (x1 ++ x) (y1 ++ y)) end.
    + by apply rewrites_one.
    + unfold edit_at. rewrite !length_app. f_equal; f_equal; lia.
  - rewrite <-!app_assoc.
    change (push_maybe_empty (?a :: e :: p) ?b) with (a :: push_maybe_empty (e :: p) b).
    by apply rewrites_edit.
Qed.

Lemma rewrites_push i j u p v x y i' j' :
  rewrites i j u p v → i' = i + length u → j' = j + length v →
  rewrites i j (u ++ x) (patch_push p (edit_at i' j' x y)) (v ++ y).
Proof.
  intros H Hi Hj. unfold patch_push. destruct (edit_is_empty _) eqn:E.
  - apply edit_at_empty in E as [-> ->]. by rewrite !app_nil_r.
  - by apply rewrites_push_maybe_empty.
Qed.

(** The edits of a patch that leads from one text to another lie in them. *)
Lemma rewrites_ranges i j u p v e :
  rewrites i j u p v → e ∈ p →
  i ≤ r_start (e_old e) ≤ r_end (e_old e) ∧ r_end (e_old e) ≤ i + length u ∧
  j ≤ r_start (e_new e) ≤ r_end (e_new e) ∧ r_end (e_new e) ≤ j + length v.
Proof.
  induction 1 as [|i j w x y u p v H IH]; intros He; [by apply not_elem_of_nil in He|].
  rewrite !length_app. apply elem_of_cons in He as [->|He]; simpl; [lia|].
  apply IH in He. lia.
Qed.

(** The gap before the next edit is the same in both texts. *)
Lemma rewrites_head_gap i j u e p v :
  rewrites i j u (e :: p) v →
  r_start (e_old e) - i = r_start (e_new e) - j ∧ i ≤ r_start (e_old e) ∧ j ≤ r_start (e_new e).
Proof. intros (w & x & y & u' & v' & -> & -> & -> & _)%rewrites_edit_inv. simpl. lia. Qed.

Lemma separated_cons i j u e p v :
  rewrites i j u (e :: p) v → separated p →
  (∀ e', head p = Some e' → r_end (e_old e) < r_start (e_old e')) → separated (e :: p).
Proof.
  intros (w & x & y & u' & v' & -> & -> & -> & H)%rewrites_edit_inv Hs Hlt.
  destruct p as [|e' p]; [done|]. specialize (Hlt _ eq_refl).
  apply rewrites_head_gap in H. simpl in *. split_and!; [lia|lia|done].
Qed.

Lemma separated_tail e p : separated (e :: p) → separated p.
Proof. destruct p; simpl; tauto. Qed.

Lemma push_maybe_empty_head p e e' :
  head (push_maybe_empty p e) = Some e' →
  match p with [] => e' = e | e1 :: _ => r_start (e_old e') = r_start (e_old e1) end.
Proof.
  destruct p as [|e1 [|e2 p]]; simpl; [congruence| |by intros [= ->]].
  by destruct (_ <=? _); simpl; intros [= <-].
Qed.

(** ** Pushing keeps the edits apart *)
Lemma separated_push_maybe_empty i j u p v x y i' j' :
  rewrites i j u p v → separated p → i' = i + length u → j' = j + length v →
  separated (push_maybe_empty p (edit_at i' j' x y)).
Proof.
  intros H. revert i' j'. induction H as [i j w|i j w x1 y1 u p v H IH]; intros i' j' Hs Hi Hj; [done|].
  rewrite !length_app in Hi, Hj.
  pose proof (rewrites_push_maybe_empty _ _ _ _ _ x y i' j' (rewrites_edit _ _ w x1 y1 _ _ _ H)
    ltac:(rewrite !length_app; lia) ltac:(rewrite !length_app; lia)) as Hr.
  specialize (IH i' j' (separated_tail _ _ Hs) ltac:(lia) ltac:(lia)).
  destruct p as [|e p].
  - simpl in *. destruct (Nat.leb_spec i' (i + length w + length x1)); [done|].
    eapply separated_cons; [exact Hr|done|]. intros e' [= <-]. simpl. lia.
  - change (push_maybe_empty (?a :: e :: p) ?b) with (a :: push_maybe_empty (e :: p) b) in *.
    eapply separated_cons; [exact Hr|done|]. intros e' He'.
    apply push_maybe_empty_head in He'. destruct Hs as (Hlt & _). simpl in *. by rewrite He'.
Qed.

Lemma separated_push i j u p v x y i' j' :
  rewrites i j u p v → separated p → i' = i + length u → j' = j + length v →
  separated (patch_push p (edit_at i' j' x y)).
Proof.
  intros. unfold patch_push. destruct (edit_is_empty _); [done|].
  by eapply separated_push_maybe_empty.
Qed.
End Rewrites.
