(* ===== verification/PatchCompose.v ===== *)
(** * Composition of patches

    The loop of [Patch::compose] walks over three texts at once; its invariant
    cuts each of them at the current position. *)
From stdpp Require Import base numbers option list.
From Stdlib Require Import Lia.
From S2P Require Import Prelude Patch PatchFacts.

(** Equality of edits up to arithmetic. *)
Ltac edit_eq := unfold edit_at; cbn [length]; f_equal; f_equal; usize_lia.

Section Compose.
Context {A : Type}.
Implicit Types u v w x y z t : list A.
Implicit Types p q : Patch.

(** The composed patch so far leads between the parts of the texts passed. *)
Definition covered (c : Patch) u v : Prop := rewrites 0 0 u c v ∧ separated c.

Lemma covered_push c u v z x y a b a' b' :
  covered c u v →
  a = length u + length z → b = a + length x → a' = length v + length z → b' = a' + length y →
  covered (patch_push c (MkTextEdit (MkRange a b) (MkRange a' b'))) (u ++ z ++ x) (v ++ z ++ y).
Proof.
  intros [Hr Hs] Ha -> Ha' ->. rewrite !app_assoc. apply (rewrites_keep _ _ _ _ _ z) in Hr.
  change (MkTextEdit _ _) with (edit_at a a' x y). split.
  - apply rewrites_push; [done|usize_lia|usize_lia].
  - eapply separated_push; [done|done|usize_lia|usize_lia].
Qed.

Lemma rewrites_next i j w x y u p v e :
  rewrites (i + length w + length x) (j + length w + length y) u p v →
  e = edit_at (i + length w) (j + length w) x y →
  rewrites i j (w ++ x ++ u) (e :: p) (w ++ y ++ v).
Proof. intros ? ->. by apply rewrites_edit. Qed.

Context (T0 T2 : list A) (mid : nat).
Hypothesis Hfits0 : fits T0.
Hypothesis Hfits2 : fits T2.
Hypothesis Hfits1 : (N.of_nat mid <= ISIZE_MAX)%N.

(** The position in the middle text is not a variable of the code. *)
Definition positions (m : nat) u0 t0 t1 u2 t2 (olds news : list TextEdit) (composed : Patch) : Prop :=
  T0 = u0 ++ t0 ∧ T2 = u2 ++ t2 ∧ m + length t1 = mid ∧ covered composed u0 u2 ∧
  rewrites (length u0) m t0 olds t1 ∧ rewrites m (length u2) t1 news t2.

Definition compose_inv (s : ComposeState) : Prop :=
  ∃ m u0 t0 t1 u2 t2, positions m u0 t0 t1 u2 t2 (c_olds s) (c_news s) (c_composed s) ∧
    c_old_start s = length u0 ∧ c_new_start s = length u2.

(** The next edit of the first patch comes before the second patch's. *)
Lemma push_old_spec m u0 t0 t1 u2 t2 e olds news c :
  positions m u0 t0 t1 u2 t2 (e :: olds) news c →
  is_none_or (λ e', r_end (e_new e) <? r_start (e_old e')) (head news) = true →
  ∃ c' i j, (let* catchup := usize_sub (r_start (e_old e)) (length u0) in
             push_whole c (length u0) (length u2) catchup e) = Ret (c', i, j) ∧
    compose_inv (MkCompose olds news c' i j).
Proof.
  intros (E0 & E2 & Hm & Hc & Ho & Hn) Hlt.
  apply rewrites_edit_inv in Ho as (w & x & y & u' & v' & -> & -> & -> & Ho).
  rewrite app_assoc in Hn. apply rewrites_skip in Hn as (t2' & -> & Hn).
  2:{ intros e' He. rewrite He in Hlt. simpl in Hlt. apply Nat.ltb_lt in Hlt. usize_lia. }
  pose proof Hfits0 as F0. rewrite E0 in F0. pose proof Hfits2 as F2. rewrite E2 in F2.
  cbn [edit_at e_old e_new r_start r_end]. usize_eval.
  unfold push_whole, old_len, new_len. cbn [edit_at e_old e_new r_start r_end]. usize_eval.
  eexists _, _, _. split; [done|].
  exists (m + length w + length y), (u0 ++ w ++ x), u', v', (u2 ++ w ++ y), t2'. simpl.
  split; [|usize_lia]. unfold positions. split_and!.
  - by rewrite E0, !app_assoc.
  - by rewrite E2, !app_assoc.
  - usize_lia.
  - apply covered_push; [done|lia..].
  - by rewrite !length_app, !Nat.add_assoc.
  - rewrite !length_app, !Nat.add_assoc in *. done.
Qed.

(** The next edit of the second patch comes before the first patch's. *)
Lemma push_new_spec m u0 t0 t1 u2 t2 e olds news c :
  positions m u0 t0 t1 u2 t2 olds (e :: news) c →
  is_none_or (λ e', r_end (e_old e) <? r_start (e_new e')) (head olds) = true →
  ∃ c' i j, (let* catchup := usize_sub (r_start (e_new e)) (length u2) in
             push_whole c (length u0) (length u2) catchup e) = Ret (c', i, j) ∧
    compose_inv (MkCompose olds news c' i j).
Proof.
  intros (E0 & E2 & Hm & Hc & Ho & Hn) Hlt.
  apply rewrites_edit_inv in Hn as (w & x & y & u' & v' & -> & -> & -> & Hn).
  rewrite app_assoc in Ho. apply rewrites_skip_new in Ho as (t0' & -> & Ho).
  2:{ intros e' He. rewrite He in Hlt. simpl in Hlt. apply Nat.ltb_lt in Hlt. usize_lia. }
  pose proof Hfits0 as F0. rewrite E0 in F0. pose proof Hfits2 as F2. rewrite E2 in F2.
  cbn [edit_at e_old e_new r_start r_end]. usize_eval.
  unfold push_whole, old_len, new_len. cbn [edit_at e_old e_new r_start r_end]. usize_eval.
  eexists _, _, _. split; [done|].
  exists (m + length w + length x), (u0 ++ w ++ x), t0', u', (u2 ++ w ++ y), v'. simpl.
  split; [|usize_lia]. unfold positions. split_and!.
  - by rewrite E0, !app_assoc.
  - by rewrite E2, !app_assoc.
  - usize_lia.
  - apply covered_push; [done|lia..].
  - rewrite !length_app, !Nat.add_assoc in *. done.
  - by rewrite !length_app, !Nat.add_assoc.
Qed.

(** After [align] both edits start at the current position. *)
Definition aligned (s : TextEdit * TextEdit * Patch * nat * nat) (olds news : list TextEdit) : Prop :=
  let '(e, e', c, i, j) := s in
  ∃ m u0 t0 t1 u2 t2 x y x' y' v u',
    T0 = u0 ++ x ++ t0 ∧ T2 = u2 ++ y' ++ t2 ∧ t1 = y ++ v ∧ t1 = x' ++ u' ∧
    m + length t1 = mid ∧ covered c u0 u2 ∧ i = length u0 ∧ j = length u2 ∧
    e = edit_at i m x y ∧ e' = edit_at m j x' y' ∧
    rewrites (i + length x) (m + length y) t0 olds v ∧
    rewrites (m + length x') (j + length y') u' news t2.

Lemma align_spec m u0 t0 t1 u2 t2 e e' olds news c :
  positions m u0 t0 t1 u2 t2 (e :: olds) (e' :: news) c →
  r_start (e_old e') ≤ r_end (e_new e) → r_start (e_new e) ≤ r_end (e_old e') →
  ∃ s', align (MkCompose (e :: olds) (e' :: news) c (length u0) (length u2)) e e' = Ret s' ∧
    aligned s' olds news.
Proof.
  intros (E0 & E2 & Hm & Hc & Ho & Hn) H1 H2.
  apply rewrites_edit_inv in Ho as (w & x & y & u & v & -> & -> & -> & Ho).
  apply rewrites_edit_inv in Hn as (w' & x' & y' & u' & v' & E1 & -> & -> & Hn).
  pose proof Hfits0 as F0. rewrite E0 in F0. pose proof Hfits2 as F2. rewrite E2 in F2.
  pose proof (f_equal length E1) as L1.
  unfold align. cbn [edit_at e_old e_new r_start r_end c_old_start c_new_start c_composed] in *.
  destruct (Nat.ltb_spec (m + length w) (m + length w')) as [Hlt|Hge].
  - apply app_split_le in E1 as (k & -> & E1); [|lia].
    symmetry in E1. apply app_split_le in E1 as (y2 & -> & E1); [|usize_lia].
    rewrite !length_app in *. usize_eval.
    eexists. split; [done|].
    exists (m + length (w ++ k)), (u0 ++ w ++ take (length k) x), u, (y2 ++ v), (u2 ++ w ++ k), v',
      (drop (length k) x), y2, x', y', v, u'.
    split_and!; try usize_lia; try done.
    + by rewrite E0, <-!app_assoc, (app_assoc (take _ _)), take_drop.
    + by rewrite E2, <-!app_assoc.
    + apply covered_push; [done|usize_lia..].
    + edit_eq.
    + edit_eq.
    + eapply rewrites_eq; [exact Ho|usize_lia..].
    + eapply rewrites_eq; [exact Hn|usize_lia..].
  - symmetry in E1. apply app_split_le in E1 as (k & -> & E1); [|lia].
    symmetry in E1. apply app_split_le in E1 as (x2 & -> & E1); [|usize_lia].
    rewrite !length_app in *. usize_eval.
    eexists. split; [done|].
    exists (m + length (w' ++ k)), (u0 ++ w' ++ k), u, (y ++ v), (u2 ++ w' ++ take (length k) y'), v',
      x, y, x2, (drop (length k) y'), v, u'.
    split_and!; try usize_lia; try done.
    + by rewrite E0, <-!app_assoc.
    + by rewrite E2, <-!app_assoc, (app_assoc (take _ _)), take_drop.
    + apply covered_push; [done|usize_lia..].
    + edit_eq.
    + edit_eq.
    + eapply rewrites_eq; [exact Ho|usize_lia..].
    + eapply rewrites_eq; [exact Hn|usize_lia..].
Qed.

(** The edit that ends first is consumed, the other one shortened. *)
Lemma consume_spec e e' c i j olds news :
  aligned (e, e', c, i, j) olds news →
  ∃ s', consume olds news e e' c i j = Ret s' ∧ compose_inv s' ∧
    length (c_olds s') + length (c_news s') = S (length olds + length news).
Proof.
  intros (m & u0 & t0 & t1 & u2 & t2 & x & y & x' & y' & v & u' & E0 & E2 & -> & E1 & Hm & Hc & -> & -> &
    -> & -> & Ho & Hn).
  pose proof Hfits0 as F0. rewrite E0 in F0. pose proof Hfits2 as F2. rewrite E2 in F2.
  pose proof (f_equal length E1) as L1.
  unfold consume, old_len, new_len.
  cbn [edit_at e_old e_new r_start r_end] in *.
  destruct (Nat.ltb_spec (m + length x') (m + length y)) as [Hlt|Hge].
  - symmetry in E1. apply app_split_le in E1 as (y2 & -> & ->); [|lia]. rewrite !length_app in *.
    usize_eval. eexists. split; [done|]. split; [|simpl; lia].
    exists (m + length x'), (u0 ++ take (length x') x), (drop (length x') x ++ t0), (y2 ++ v), (u2 ++ y'), t2.
    simpl. split; [|usize_lia]. unfold positions. split_and!; try usize_lia; try done.
    + by rewrite E0, <-!app_assoc, (app_assoc (take _ _)), take_drop.
    + by rewrite E2, <-!app_assoc.
    + apply (covered_push c u0 u2 [] (take (length x') x) y'); [done|cbn [length]; usize_lia..].
    + eapply (rewrites_next _ _ [] (drop (length x') x) y2); [|edit_eq].
      eapply rewrites_eq; [exact Ho|cbn [length]; usize_lia..].
    + eapply rewrites_eq; [exact Hn|usize_lia..].
  - apply app_split_le in E1 as (x2 & -> & ->); [|lia]. rewrite !length_app in *.
    usize_eval. eexists. split; [done|]. split; [|simpl; lia].
    exists (m + length y), (u0 ++ x), t0, (x2 ++ u'), (u2 ++ take (length y) y'), (drop (length y) y' ++ t2).
    simpl. split; [|usize_lia]. unfold positions. split_and!; try usize_lia; try done.
    + by rewrite E0, <-!app_assoc.
    + by rewrite E2, <-!app_assoc, (app_assoc (take _ _)), take_drop.
    + apply (covered_push c u0 u2 [] x (take (length y) y')); [done|cbn [length]; usize_lia..].
    + eapply rewrites_eq; [exact Ho|usize_lia..].
    + eapply (rewrites_next _ _ [] x2 (drop (length y) y')); [|edit_eq].
      eapply rewrites_eq; [exact Hn|cbn [length]; usize_lia..].
Qed.

Definition compose_measure (s : ComposeState) : nat := length (c_olds s) + length (c_news s).

(** Closes a round that pushed a whole edit. *)
Ltac pushed E :=
  destruct (usize_sub _ _); [|discriminate E..]; rewrite E; eexists; split; [reflexivity|];
  split; [assumption|]; unfold compose_measure; simpl; lia.

Lemma compose_step_spec s :
  compose_inv s →
  (∃ s', compose_step s = Ret (inl s') ∧ compose_inv s' ∧ compose_measure s' < compose_measure s) ∨
  (∃ c, compose_step s = Ret (inr c) ∧ covered c T0 T2).
Proof.
  intros (m & u0 & t0 & t1 & u2 & t2 & Hp & Hi & Hj). destruct s as [olds news c i j]. simpl in *.
  subst i j. unfold compose_step. cbn [c_olds c_news c_composed c_old_start c_new_start].
  destruct olds as [|e olds], news as [|e' news].
  - right. exists c. split; [done|]. destruct Hp as (-> & -> & _ & Hc & Ho & Hn).
    inversion Ho; subst. inversion Hn; subst. destruct Hc as [Hc Hs].
    split; [|done]. by apply rewrites_keep.
  - left. destruct (push_new_spec _ _ _ _ _ _ _ _ _ _ Hp eq_refl) as (c' & i & j & E & Hinv).
    pushed E.
  - left. destruct (push_old_spec _ _ _ _ _ _ _ _ _ _ Hp eq_refl) as (c' & i & j & E & Hinv).
    cbn [head hd_error is_none_or].
    pushed E.
  - left. cbn [head hd_error is_none_or].
    destruct (Nat.ltb_spec (r_end (e_new e)) (r_start (e_old e'))) as [H1|H1].
    { destruct (push_old_spec _ _ _ _ _ _ _ _ _ _ Hp) as (c' & i & j & E & Hinv); [by apply Nat.ltb_lt|].
      pushed E. }
    destruct (Nat.ltb_spec (r_end (e_old e')) (r_start (e_new e))) as [H2|H2].
    { destruct (push_new_spec _ _ _ _ _ _ _ _ _ _ Hp) as (c' & i & j & E & Hinv); [by apply Nat.ltb_lt|].
      pushed E. }
    destruct (align_spec _ _ _ _ _ _ _ _ _ _ _ Hp H1 H2) as ([[[[f f'] c'] i] j] & -> & Ha).
    destruct (consume_spec _ _ _ _ _ _ _ Ha) as (s' & -> & Hinv & Hm).
    exists s'. split; [done|]. split; [done|]. unfold compose_measure. simpl. lia.
Qed.
End Compose.

Lemma compose_spec {A} (T0 T1 T2 : list A) (p q : Patch) :
  fits T0 → fits T1 → fits T2 → rewrites 0 0 T0 p T1 → rewrites 0 0 T1 q T2 →
  returns (compose p q) (λ r, covered r T0 T2).
Proof.
  intros F0 F1 F2 Hp Hq. unfold compose, compose_fuel.
  apply (loop_returns _ (compose_inv T0 T2 (length T1)) compose_measure).
  - intros s. by apply compose_step_spec.
  - exists 0, [], T0, T1, [], T2. split; [|done]. unfold positions. split_and!; [done..| |done|done].
    split; [constructor|done].
  - unfold compose_measure. simpl. lia.
Qed.
