(* ===== verification/PatchSpec.v ===== *)
(** * Theorems about patches

    Composition, inversion, and the translation of positions. *)
From stdpp Require Import base numbers option list.
From Stdlib Require Import Lia.
From S2P Require Import Prelude Patch PatchFacts PatchCompose.

(** ** Applying a patch

    As the crate's tests do: each edit, from the last, is replaced by the new
    text of its new range. *)
Section Apply.
Context {A : Type}.

Definition splice (text : list A) (r : Range) (by_ : list A) : list A :=
  take (r_start r) text ++ by_ ++ drop (r_end r) text.
Definition slice_range (text : list A) (r : Range) : list A :=
  take (r_end r - r_start r) (drop (r_start r) text).
Definition apply_patch (text : list A) (p : Patch) (new_text : list A) : list A :=
  foldr (λ e text, splice text (e_old e) (slice_range new_text (e_new e))) text p.

Lemma apply_patch_from i j (u v : list A) p (pre pre' : list A) :
  rewrites i j u p v → length pre = i → length pre' = j →
  apply_patch (pre ++ u) p (pre' ++ v) = pre ++ v.
Proof.
  intros H. revert pre pre'. induction H as [i j w|i j w x y u p v H IH]; intros pre pre' Hi Hj; [done|].
  specialize (IH (pre ++ w ++ x) (pre' ++ w ++ y)). rewrite <-!app_assoc in IH.
  cbn [apply_patch foldr]. fold (apply_patch (pre ++ w ++ x ++ u) p (pre' ++ w ++ y ++ v)).
  rewrite IH by usize_lia.
  unfold splice, slice_range, edit_at. simpl.
  rewrite (app_assoc pre' w), drop_app_length' by usize_lia.
  rewrite (take_app_length' y v) by usize_lia.
  rewrite (app_assoc pre w), take_app_length' by usize_lia.
  rewrite (app_assoc (pre ++ w) x), drop_app_length' by usize_lia. by rewrite <-!app_assoc.
Qed.

Lemma apply_patch_spec (u v : list A) p : rewrites 0 0 u p v → apply_patch u p v = v.
Proof. intros H. by apply (apply_patch_from 0 0 u v p [] []). Qed.
End Apply.

(** ** Positions

    The reference for [old_to_new]: a scan of the edits. *)
Fixpoint translate (i j : nat) (p : Patch) (pos : nat) : nat :=
  match p with
  | [] => j + (pos - i)
  | e :: rest =>
      if pos <? r_start (e_old e) then j + (pos - i)
      else if pos <? r_end (e_old e) then r_start (e_new e)
      else translate (r_end (e_old e)) (r_end (e_new e)) rest pos
  end.

Definition inside (pos : nat) (e : TextEdit) : Prop := r_start (e_old e) ≤ pos < r_end (e_old e).
Definition touches (pos : nat) (e : TextEdit) : Prop := r_start (e_old e) ≤ pos ≤ r_end (e_old e).

Section Positions.
Context {A : Type}.
Implicit Types u v w x y : list A.

Lemma translate_bounds i j u p v pos :
  rewrites i j u p v → i ≤ pos ≤ i + length u → j ≤ translate i j p pos ≤ j + length v.
Proof.
  induction 1 as [i j w|i j w x y u p v H IH]; intros Hp; simpl; [lia|].
  rewrite !length_app in *.
  destruct (Nat.ltb_spec pos (i + length w)); [lia|].
  destruct (Nat.ltb_spec pos (i + length w + length x)); [lia|]. specialize (IH ltac:(lia)). lia.
Qed.

Lemma translate_mono i j u p v pos pos' :
  rewrites i j u p v → i ≤ pos ≤ pos' → pos' ≤ i + length u →
  translate i j p pos ≤ translate i j p pos'.
Proof.
  induction 1 as [i j w|i j w x y u p v H IH]; intros Hp Hp'; simpl; [lia|].
  rewrite !length_app in *.
  pose proof (translate_bounds _ _ _ _ _ pos' H).
  destruct (Nat.ltb_spec pos (i + length w)), (Nat.ltb_spec pos' (i + length w)); try lia;
    destruct (Nat.ltb_spec pos (i + length w + length x)),
      (Nat.ltb_spec pos' (i + length w + length x)); try lia.
Qed.

(** A position outside the edits splits the patch into one of the texts before
    it and one of the texts after it. *)
Lemma translate_split i j u p v pos :
  rewrites i j u p v → i ≤ pos ≤ i + length u → (∀ e, e ∈ p → ¬ inside pos e) →
  ∃ p1 p2, p = p1 ++ p2 ∧
    rewrites i j (take (pos - i) u) p1 (take (translate i j p pos - j) v) ∧
    rewrites pos (translate i j p pos) (drop (pos - i) u) p2 (drop (translate i j p pos - j) v).
Proof.
  induction 1 as [i j w|i j w x y u p v H IH]; intros Hp Hout; simpl.
  { exists [], []. replace (j + (pos - i) - j) with (pos - i) by lia.
    split; [done|]. split; constructor. }
  rewrite !length_app in *.
  destruct (Nat.ltb_spec pos (i + length w)) as [Hlt|Hge].
  { exists [], (edit_at (i + length w) (j + length w) x y :: p).
    replace (j + (pos - i) - j) with (pos - i) by lia.
    split; [done|]. rewrite !take_app_le, !drop_app_le by lia. split; [constructor|].
    apply rewrites_edit_at; [|usize_lia..]. eapply rewrites_eq; [done|usize_lia..]. }
  destruct (Nat.ltb_spec pos (i + length w + length x)) as [Hin|Hge'].
  { exfalso. apply (Hout _ (list_elem_of_here _ _)). unfold inside. simpl. lia. }
  destruct IH as (p1 & p2 & -> & H1 & H2); [lia|intros e He; by apply Hout, list_elem_of_further|].
  pose proof (translate_bounds _ _ _ _ _ pos H ltac:(lia)) as Hb.
  remember (translate (i + length w + length x) (j + length w + length y) (p1 ++ p2) pos) as k.
  exists (edit_at (i + length w) (j + length w) x y :: p1), p2. split; [done|].
  rewrite !(take_app_ge w), !(take_app_ge x), !(take_app_ge y) by usize_lia.
  rewrite !(drop_app_ge w), !(drop_app_ge x), !(drop_app_ge y) by usize_lia.
  replace (pos - i - length w - length x) with (pos - (i + length w + length x)) by lia.
  replace (k - j - length w - length y) with (k - (j + length w + length y)) by lia.
  split; [by apply rewrites_edit|done].
Qed.
End Positions.

(** ** The search for the edit at a position *)
Definition ordered_edits (p : Patch) : Prop :=
  ∀ e, e ∈ p → r_start (e_old e) ≤ r_end (e_old e).

Lemma rewrites_ordered {A} i j (u v : list A) p : rewrites i j u p v → ordered_edits p.
Proof. intros H e He. pose proof (rewrites_ranges _ _ _ _ _ _ H He). lia. Qed.

Lemma separated_lt e p e' :
  separated (e :: p) → ordered_edits p → e' ∈ p → r_end (e_old e) < r_start (e_old e').
Proof.
  revert e. induction p as [|e1 p IH]; intros e Hs Ho He'; [by apply not_elem_of_nil in He'|].
  destruct Hs as (H1 & _ & Hs). apply elem_of_cons in He' as [->|He']; [done|].
  pose proof (Ho e1 (list_elem_of_here _ _)).
  specialize (IH e1 Hs (λ e2 H2, Ho e2 (list_elem_of_further _ _ _ H2)) He'). lia.
Qed.

Lemma separated_app_lt p1 e p2 e' :
  separated (p1 ++ e :: p2) → ordered_edits (p1 ++ e :: p2) → e' ∈ p1 → r_end (e_old e') < r_start (e_old e).
Proof.
  induction p1 as [|e1 p1 IH]; intros Hs Ho He'; [by apply not_elem_of_nil in He'|].
  apply elem_of_cons in He' as [->|He'].
  - apply (separated_lt _ (p1 ++ e :: p2)); [done| |].
    + intros e2 H2. apply Ho. by apply list_elem_of_further.
    + apply elem_of_app. right. apply list_elem_of_here.
  - apply IH; [by apply separated_tail in Hs| |done].
    intros e2 H2. apply Ho. by apply list_elem_of_further.
Qed.

Lemma separated_app_r p1 p2 : separated (p1 ++ p2) → separated p2.
Proof. induction p1 as [|e p1 IH]; [done|]. intros H%separated_tail. by apply IH. Qed.

Lemma patch_search_sorted p pos :
  separated p → ordered_edits p → search_sorted (λ probe, cmp (r_start (e_old probe)) pos) p.
Proof.
  intros Hs Ho i j x y Hij Hx Hy.
  apply list_elem_of_split_length in Hy as (p1 & p2 & -> & ->).
  assert (Hx1 : x ∈ p1). { rewrite lookup_app_l in Hx by done. by eapply list_elem_of_lookup_2. }
  pose proof (separated_app_lt _ _ _ _ Hs Ho Hx1).
  assert (r_start (e_old x) ≤ r_end (e_old x)). { apply Ho. apply elem_of_app. by left. }
  unfold cmp, nat_ord. destruct (Nat.compare_spec (r_start (e_old y)) pos); auto; left;
    apply Nat.compare_lt_iff; lia.
Qed.

(** [edit_index] gives the last edit that starts at or before the position. *)
Lemma edit_index_spec p pos :
  separated p → ordered_edits p →
  returns (edit_index p pos) (λ o,
    match o with
    | None => ∀ e, e ∈ p → pos < r_start (e_old e)
    | Some ix => ∃ p1 e p2, p = p1 ++ e :: p2 ∧ ix = length p1 ∧ r_start (e_old e) ≤ pos ∧
        ∀ e', e' ∈ p2 → pos < r_start (e_old e')
    end).
Proof.
  intros Hs Ho. unfold edit_index.
  eapply returns_bind; [by apply binary_search_by_spec, patch_search_sorted|].
  assert (Hafter : ∀ p1 e p2 top, p = p1 ++ e :: p2 → top ≤ S (length p1) →
    bracketed (λ probe, cmp (r_start (e_old probe)) pos) p 0 top → ∀ e', e' ∈ p2 → pos < r_start (e_old e')).
  { intros p1 e p2 top -> Htop [_ Hhi] e' [k Hk]%list_elem_of_lookup_1.
    specialize (Hhi (length p1 + S k) e' ltac:(lia)). rewrite lookup_app_r in Hhi by lia.
    replace (length p1 + S k - length p1) with (S k) in Hhi by lia.
    specialize (Hhi Hk). by apply Nat.compare_gt_iff in Hhi. }
  intros [ix|ix] Hr; apply returns_Ret || destruct (Nat.eqb_spec ix 0) as [->|Hix]; apply returns_Ret || idtac.
  - destruct Hr as [(x & Hx & Heq) [_ Hhi]].
    apply list_elem_of_split_length in Hx as (p1 & p2 & Ep & Eix). exists p1, x, p2.
    apply cmp_eq in Heq. split_and!; [done|done|lia|].
    apply (Hafter p1 x p2 (S ix)); [done|lia|]. split; [lia|done].
  - destruct Hr as [_ [_ Hhi]]. intros e [k Hk]%list_elem_of_lookup_1.
    specialize (Hhi k e ltac:(lia) Hk). by apply Nat.compare_gt_iff in Hhi.
  - destruct Hr as [Hle [Hlo Hhi]].
    destruct (lookup_lt_is_Some_2 p (ix - 1)) as [e He]; [lia|].
    specialize (Hlo (ix - 1) e ltac:(lia) He). apply Nat.compare_lt_iff in Hlo.
    apply list_elem_of_split_length in He as (p1 & p2 & Ep & Eix). exists p1, e, p2.
    split_and!; [done|done|lia|]. apply (Hafter p1 e p2 ix); [done|lia|]. split; [lia|done].
Qed.

Lemma translate_before i j p pos :
  (∀ e, e ∈ p → pos < r_start (e_old e)) → translate i j p pos = j + (pos - i).
Proof.
  destruct p as [|e p]; intros H; simpl; [done|].
  specialize (H e (list_elem_of_here _ _)). by apply Nat.ltb_lt in H as ->.
Qed.

Lemma translate_last i j p1 e p2 pos :
  separated (p1 ++ e :: p2) → ordered_edits (p1 ++ e :: p2) → r_start (e_old e) ≤ pos →
  (∀ e', e' ∈ p2 → pos < r_start (e_old e')) →
  translate i j (p1 ++ e :: p2) pos =
  if r_end (e_old e) <=? pos then r_end (e_new e) + (pos - r_end (e_old e)) else r_start (e_new e).
Proof.
  revert i j. induction p1 as [|e1 p1 IH]; intros i j Hs Ho Hle Hafter.
  - simpl. destruct (Nat.ltb_spec pos (r_start (e_old e))); [lia|].
    rewrite Nat.leb_antisym. destruct (Nat.ltb_spec pos (r_end (e_old e))); simpl; [done|].
    by apply translate_before.
  - pose proof (separated_app_lt (e1 :: p1) e p2 e1 Hs Ho (list_elem_of_here _ _)).
    pose proof (Ho e1 (list_elem_of_here _ _)).
    cbn [app translate]. destruct (Nat.ltb_spec pos (r_start (e_old e1))); [lia|].
    destruct (Nat.ltb_spec pos (r_end (e_old e1))); [lia|].
    apply IH; [by apply separated_tail in Hs| |done|done].
    intros e2 He2. apply Ho. by apply list_elem_of_further.
Qed.

Lemma push_maybe_empty_apart p e :
  (∀ e', e' ∈ p → r_end (e_old e') < r_start (e_old e)) → push_maybe_empty p e = p ++ [e].
Proof.
  induction p as [|e1 p IH]; intros H; [done|].
  pose proof (H e1 (list_elem_of_here _ _)) as H1.
  destruct p as [|e2 p].
  - simpl. by apply Nat.leb_gt in H1 as ->.
  - change (push_maybe_empty (e1 :: e2 :: p) e) with (e1 :: push_maybe_empty (e2 :: p) e).
    rewrite IH; [done|]. intros e' He'. by apply H, list_elem_of_further.
Qed.

Section Theorems.
Context {A : Type}.
Implicit Types t : list A.

(** Overflow-free evaluation of [old_to_new]. *)
Lemma old_to_new_translate t0 p t1 pos :
  fits t0 → fits t1 → rewrites 0 0 t0 p t1 → separated p → pos ≤ length t0 →
  old_to_new p pos = Ret (translate 0 0 p pos).
Proof.
  intros F0 F1 H Hs Hpos. pose proof (rewrites_ordered _ _ _ _ _ H) as Ho.
  unfold old_to_new. destruct (edit_index_spec p pos Hs Ho) as ([ix|] & -> & Hix).
  - destruct Hix as (p1 & e & p2 & -> & -> & Hle & Hafter).
    rewrite translate_last by done. cbn beta iota zeta. unfold Patch. rewrite list_lookup_middle by done.
    pose proof (rewrites_ranges _ _ _ _ _ e H ltac:(apply elem_of_app; right; apply list_elem_of_here)).
    destruct (Nat.leb_spec (r_end (e_old e)) pos); [|done]. by usize_eval.
  - rewrite translate_before by done. simpl. by rewrite Nat.sub_0_r.
Qed.

(** C26: If [p] leads from one text to a second and [q] from the second to a
    third, then [compose] returns, with no arithmetic overflow, a patch that
    leads from the first to the third (so applying it to the first text yields
    the third) and meets the assertions of [Patch::new]. *)
Theorem compose_refines t0 p t1 q t2 :
  fits t0 → fits t1 → fits t2 → rewrites 0 0 t0 p t1 → rewrites 0 0 t1 q t2 →
  returns (compose p q) (λ r,
    rewrites 0 0 t0 r t2 ∧ apply_patch t0 r t2 = t2 ∧ patch_new r = Ret r).
Proof.
  intros F0 F1 F2 Hp Hq. eapply returns_mono; [by apply (compose_spec t0 t1 t2)|].
  intros r [Hr Hs]. split; [done|]. split; [by apply apply_patch_spec|by apply patch_new_spec].
Qed.

(** [old_to_new] agrees with a scan of the edits, is monotone, stays inside
    the new text, sends a position inside an edit to the start of its new
    range, and any other position to one that cuts the new text where the old
    one is cut: the patch splits into a patch of the two texts before and one
    of the two texts after. *)
Theorem old_to_new_refines t0 p t1 pos :
  fits t0 → fits t1 → rewrites 0 0 t0 p t1 → separated p → pos ≤ length t0 →
  returns (old_to_new p pos) (λ k,
    k = translate 0 0 p pos ∧ k ≤ length t1 ∧
    (∀ e, e ∈ p → inside pos e → k = r_start (e_new e)) ∧
    ((∀ e, e ∈ p → ¬ inside pos e) → ∃ p1 p2, p = p1 ++ p2 ∧
      rewrites 0 0 (take pos t0) p1 (take k t1) ∧ rewrites pos k (drop pos t0) p2 (drop k t1)) ∧
    (∀ pos', pos ≤ pos' ≤ length t0 → returns (old_to_new p pos') (λ k', k ≤ k'))).
Proof.
  intros F0 F1 H Hs Hpos. pose proof (rewrites_ordered _ _ _ _ _ H) as Ho.
  rewrite (old_to_new_translate t0 p t1) by done. apply returns_Ret. split_and!.
  - done.
  - pose proof (translate_bounds _ _ _ _ _ pos H). lia.
  - intros e (p1 & p2 & ->)%list_elem_of_split [Hle Hlt]. rewrite translate_last; [|done|done|done|].
    + by apply Nat.leb_gt in Hlt as ->.
    + intros e' He'. pose proof (separated_lt e p2 e' (separated_app_r _ _ Hs)) as Hl.
      assert (Ho2 : ordered_edits p2).
      { intros e2 H2. apply Ho. apply elem_of_app. right. by apply list_elem_of_further. }
      specialize (Hl Ho2 He'). lia.
  - intros Hout. destruct (translate_split _ _ _ _ _ pos H ltac:(lia) Hout) as (p1 & p2 & Ep & H1 & H2).
    rewrite !Nat.sub_0_r in *. by exists p1, p2.
  - intros pos' Hp'. rewrite (old_to_new_translate t0 p t1) by (done || lia). apply returns_Ret.
    eapply translate_mono; [done|lia|lia].
Qed.

(** [edit_for_old_position] returns the edit that touches the position, at
    either end included, or when none does the empty edit there, whose new
    position is the one [old_to_new] gives. *)
Theorem edit_for_old_position_refines t0 p t1 pos :
  fits t0 → fits t1 → rewrites 0 0 t0 p t1 → separated p → pos ≤ length t0 →
  returns (edit_for_old_position p pos) (λ e,
    (e ∈ p ∧ touches pos e) ∨
    (∀ e', e' ∈ p → ¬ touches pos e') ∧
    ∃ k, old_to_new p pos = Ret k ∧ e = MkTextEdit (MkRange pos pos) (MkRange k k)).
Proof.
  intros F0 F1 H Hs Hpos. pose proof (rewrites_ordered _ _ _ _ _ H) as Ho.
  rewrite (old_to_new_translate t0 p t1) by done.
  unfold edit_for_old_position. destruct (edit_index_spec p pos Hs Ho) as ([ix|] & -> & Hix).
  - destruct Hix as (p1 & e & p2 & -> & -> & Hle & Hafter).
    assert (He : e ∈ p1 ++ e :: p2) by (apply elem_of_app; right; apply list_elem_of_here).
    rewrite translate_last by done. cbn beta iota zeta. unfold Patch. rewrite list_lookup_middle by done.
    pose proof (rewrites_ranges _ _ _ _ _ e H He).
    destruct (Nat.ltb_spec (r_end (e_old e)) pos) as [Hlt|Hge].
    + usize_eval. apply returns_Ret. right. split.
      * intros e' He' Ht. unfold touches in Ht.
        apply elem_of_app in He' as [He'|[->|He']%elem_of_cons]; [|lia|].
        -- pose proof (separated_app_lt _ _ _ _ Hs Ho He'). lia.
        -- specialize (Hafter e' He'). lia.
      * eexists. split; [done|]. destruct (Nat.leb_spec (r_end (e_old e)) pos); [done|lia].
    + apply returns_Ret. left. split; [done|]. unfold touches. lia.
  - apply returns_Ret. right. split.
    + intros e' He' Ht. specialize (Hix e' He'). unfold touches in Ht. lia.
    + exists pos. rewrite translate_before by done. simpl. by rewrite Nat.sub_0_r.
Qed.

(** [invert] turns a patch from one text to another into one that leads
    back, and inverting twice gives the patch again. *)
Theorem invert_refines t0 p t1 :
  rewrites 0 0 t0 p t1 →
  rewrites 0 0 t1 (patch_invert p) t0 ∧ apply_patch t1 (patch_invert p) t0 = t0 ∧
  patch_invert (patch_invert p) = p.
Proof.
  intros H%rewrites_invert. split; [done|]. split; [by apply apply_patch_spec|].
  apply patch_invert_involutive.
Qed.

(** Pushing the edit that replaces [x] by [y] after a kept stretch [z] gives
    a patch of the longer texts whose edits are still apart, merging the edit
    with the last one when they touch and dropping it when it is empty. *)
Theorem push_refines t0 p t1 z x y :
  rewrites 0 0 t0 p t1 → separated p →
  let e := edit_at (length (t0 ++ z)) (length (t1 ++ z)) x y in
  rewrites 0 0 (t0 ++ z ++ x) (patch_push p e) (t1 ++ z ++ y) ∧ separated (patch_push p e) ∧
  (edit_is_empty e = true → patch_push p e = p) ∧
  (z ≠ [] → edit_is_empty e = false → patch_push p e = p ++ [e]).
Proof.
  intros H Hs e. destruct (covered_push p t0 t1 z x y
    (length (t0 ++ z)) (length (t0 ++ z) + length x) (length (t1 ++ z)) (length (t1 ++ z) + length y))
    as [H1 H2]; [done|usize_lia..|].
  split; [done|]. split; [done|]. unfold patch_push. split; [by intros ->|].
  intros Hz ->. apply push_maybe_empty_apart. intros e' He'.
  pose proof (rewrites_ranges _ _ _ _ _ e' H He'). destruct z; [done|]. subst e.
  cbn [edit_at e_old r_start]. rewrite length_app. cbn [length]. lia.
Qed.
End Theorems.

(** ** Witnesses *)
Definition text0 : list nat := [10; 11; 12; 13; 14; 15].
Definition text1 : list nat := [10; 20; 21; 13; 14; 15].
Definition text2 : list nat := [10; 20; 30; 14; 15; 31].
Definition patch01 : Patch := [edit_at 1 1 [11; 12] [20; 21]].
Definition patch12 : Patch := [edit_at 2 2 [21; 13] [30]; edit_at 6 5 (@nil nat) [31]].

Lemma patch01_rewrites : rewrites 0 0 text0 patch01 text1.
Proof. apply (rewrites_edit 0 0 [10] [11; 12] [20; 21]). constructor. Qed.
Lemma patch12_rewrites : rewrites 0 0 text1 patch12 text2.
Proof.
  apply (rewrites_edit 0 0 [10; 20] [21; 13] [30]).
  apply (rewrites_edit 4 3 [14; 15] [] [31] [] [] []). constructor.
Qed.

Lemma compose_refines_witness :
  returns (compose patch01 patch12) (λ r,
    rewrites 0 0 text0 r text2 ∧ apply_patch text0 r text2 = text2 ∧ patch_new r = Ret r).
Proof.
  apply (compose_refines text0 patch01 text1 patch12 text2);
    [vm_compute; discriminate..|apply patch01_rewrites|apply patch12_rewrites].
Defined.

Lemma old_to_new_refines_witness : returns (old_to_new patch01 4) (λ k, k = translate 0 0 patch01 4).
Proof.
  eapply returns_mono; [apply (old_to_new_refines text0 patch01 text1 4)|intros k Hk; apply Hk];
    [vm_compute; discriminate..|apply patch01_rewrites|exact I|vm_compute; lia].
Defined.

Lemma edit_for_old_position_refines_witness :
  returns (edit_for_old_position patch01 3) (λ e, e ∈ patch01 ∧ touches 3 e ∨
    (∀ e', e' ∈ patch01 → ¬ touches 3 e') ∧
    ∃ k, old_to_new patch01 3 = Ret k ∧ e = MkTextEdit (MkRange 3 3) (MkRange k k)).
Proof.
  apply (edit_for_old_position_refines text0 patch01 text1 3);
    [vm_compute; discriminate..|apply patch01_rewrites|exact I|vm_compute; lia].
Defined.

Lemma invert_refines_witness : apply_patch text1 (patch_invert patch01) text0 = text0.
Proof. apply (invert_refines text0 patch01 text1). apply patch01_rewrites. Defined.

Lemma push_refines_witness :
  patch_push patch01 (edit_at 8 8 [40] [41]) = patch01 ++ [edit_at 8 8 [40] [41]].
Proof.
  destruct (push_refines text0 patch01 text1 [1; 2] [40] [41] patch01_rewrites I) as (_ & _ & _ & H).
  by apply H.
Defined.

(** Examples of the crate's tests. *)
Definition range_edit (a b c d : nat) : TextEdit := MkTextEdit (MkRange a b) (MkRange c d).
Example test_two_disjoint_and_overlapping :
  compose [range_edit 1 3 1 4; range_edit 8 12 9 11] [range_edit 0 0 0 4; range_edit 3 10 7 9]
  = Ret [range_edit 0 0 0 4; range_edit 1 12 5 10].
Proof. vm_compute. reflexivity. Qed.
Example test_two_new_edits_touching_one_old_edit :
  compose [range_edit 2 3 2 4; range_edit 7 7 8 11] [range_edit 2 3 2 2; range_edit 4 4 3 4]
  = Ret [range_edit 2 3 2 4; range_edit 7 7 8 11].
Proof. vm_compute. reflexivity. Qed.
Example test_old_to_new :
  old_to_new [range_edit 2 4 2 4; range_edit 7 8 7 11] <$> [0; 1; 2; 3; 4; 5; 6; 7; 8; 9]
  = Ret <$> [0; 1; 2; 2; 4; 5; 6; 7; 11; 12].
Proof. vm_compute. reflexivity. Qed.
