(* ===== verification/Subscription.v ===== *)
(** * Subscriptions to edits

    Models [crates/text/src/subscription.rs].  A [Subscription] owns a shared
    patch ([Arc<Mutex<Patch>>]); the [Topic] only has weak pointers to these
    patches, and [publish] composes its edits into those still alive.  The
    store of shared patches is explicit: [cells] holds the patches whose owner
    is alive, so [Weak::upgrade] is a lookup.  Weak pointers keep their
    allocation, so addresses are not used twice.  Each operation runs under the
    topic's lock or with exclusive access, hence as one step. *)
From stdpp Require Import base numbers option list gmap.
From Stdlib Require Import Lia.
From S2P Require Import Prelude Patch PatchFacts PatchCompose.

Record Topic := MkTopic {
  cells : gmap nat Patch;
  weak : list nat;
  next_cell : nat }.

Definition topic_default : Topic := MkTopic ∅ [] 0.

Definition subscribe (self : Topic) : Topic * nat :=
  (MkTopic (<[next_cell self := []]> (cells self)) (weak self ++ [next_cell self]) (S (next_cell self)),
   next_cell self).

(** [Vec::retain] with the closure of [publish], which updates the cells. *)
Fixpoint publish_loop (edits : list TextEdit) (store : gmap nat Patch) (subscriptions : list nat) :
    outcome (gmap nat Patch * list nat) :=
  match subscriptions with
  | [] => Ret (store, [])
  | subscription :: rest =>
      match store !! subscription with
      | Some patch =>
          let* patch := compose patch edits in
          let* '(store, kept) := publish_loop edits (<[subscription := patch]> store) rest in
          Ret (store, subscription :: kept)
      | None => publish_loop edits store rest
      end
  end.

Definition publish (self : Topic) (edits : list TextEdit) : outcome Topic :=
  let* '(store, kept) := publish_loop edits (cells self) (weak self) in
  Ret (MkTopic store kept (next_cell self)).

(** [Subscription::consume] takes the patch and leaves the empty one. *)
Definition sub_consume (self : Topic) (subscription : nat) : outcome (Patch * Topic) :=
  let* patch := unwrap (cells self !! subscription) in
  Ret (patch, MkTopic (<[subscription := []]> (cells self)) (weak self) (next_cell self)).

(** Dropping a subscription frees the patch it owns. *)
Definition sub_drop (self : Topic) (subscription : nat) : Topic :=
  MkTopic (delete subscription (cells self)) (weak self) (next_cell self).

(** ** Sessions

    A text that changes, the topic its edits are published to, and, for the
    statement only, the text each live subscriber has last seen. *)
Section Sessions.
Context {A : Type}.

Record Session := MkSession { topic : Topic; text : list A; seen : gmap nat (list A) }.

Inductive session_step : Session → Session → Prop :=
| step_subscribe s tp id :
    subscribe (topic s) = (tp, id) →
    session_step s (MkSession tp (text s) (<[id := text s]> (seen s)))
| step_publish s edits tp t :
    fits t → rewrites 0 0 (text s) edits t → publish (topic s) edits = Ret tp →
    session_step s (MkSession tp t (seen s))
| step_consume s id patch tp :
    is_Some (seen s !! id) → sub_consume (topic s) id = Ret (patch, tp) →
    session_step s (MkSession tp (text s) (<[id := text s]> (seen s)))
| step_drop s id :
    session_step s (MkSession (sub_drop (topic s) id) (text s) (delete id (seen s))).

Inductive reachable (t0 : list A) : Session → Prop :=
| reach_start : reachable t0 (MkSession topic_default t0 ∅)
| reach_step s s' : reachable t0 s → session_step s s' → reachable t0 s'.

(** Each live cell holds a patch from what its owner has seen to the text. *)
Definition cell_ok (t : list A) (patch : option Patch) (old : option (list A)) : Prop :=
  match patch, old with
  | Some p, Some s => fits s ∧ covered p s t
  | None, None => True
  | _, _ => False
  end.

Definition session_inv (s : Session) : Prop :=
  fits (text s) ∧ NoDup (weak (topic s)) ∧ (∀ id, id ∈ weak (topic s) → id < next_cell (topic s)) ∧
  ∀ id, cell_ok (text s) (cells (topic s) !! id) (seen s !! id) ∧
        (is_Some (seen s !! id) → id ∈ weak (topic s)).

(** The live cells not in the list keep their patches, the others get the
    composition; dead pointers are dropped. *)
Lemma publish_loop_spec edits t t' store subs (old : gmap nat (list A)) :
  fits t → fits t' → rewrites 0 0 t edits t' → NoDup subs →
  (∀ id, id ∈ subs → cell_ok t (store !! id) (old !! id)) →
  returns (publish_loop edits store subs) (λ '(store', kept),
    (∀ id, id ∈ subs → cell_ok t' (store' !! id) (old !! id)) ∧
    (∀ id, id ∉ subs → store' !! id = store !! id) ∧
    (∀ id, id ∈ kept ↔ id ∈ subs ∧ is_Some (old !! id)) ∧ NoDup kept).
Proof.
  intros Ft Ft' He. revert store. induction subs as [|id subs IH]; intros store Hnd Hok.
  { apply returns_Ret. split_and!; [intros ? ?%not_elem_of_nil; done|done| |constructor].
    intros id. split; [intros ?%not_elem_of_nil; done|by intros [?%not_elem_of_nil _]]. }
  apply NoDup_cons in Hnd as [Hid Hnd]. cbn [publish_loop].
  pose proof (Hok id (list_elem_of_here _ _)) as Hcell. unfold cell_ok in Hcell.
  destruct (store !! id) as [p|] eqn:Ep, (old !! id) as [s|] eqn:Es; try done.
  - destruct Hcell as [Fs [Hp Hsep]].
    destruct (compose_spec s t t' p edits Fs Ft Ft' Hp He) as (r & -> & Hr).
    destruct (IH (<[id:=r]> store) Hnd) as ([store' kept] & -> & H1 & H2 & H3 & H4).
    { intros id' Hid'. rewrite lookup_insert_ne by (intros ->; done).
      by apply Hok, list_elem_of_further. }
    apply returns_Ret. split_and!.
    + intros id' [->|Hid']%elem_of_cons; [|by apply H1].
      rewrite H2, lookup_insert_eq, Es by done. by split.
    + intros id' [Hne Hni]%not_elem_of_cons. rewrite H2, lookup_insert_ne by done. done.
    + intros id'. rewrite !elem_of_cons, H3. split; [|naive_solver].
      intros [->|[? ?]]; [|by auto]. split; [by left|]. rewrite Es. by eexists.
    + constructor; [|done]. rewrite H3. by intros [? _].
  - destruct (IH store Hnd) as ([store' kept] & -> & H1 & H2 & H3 & H4).
    { intros id' Hid'. by apply Hok, list_elem_of_further. }
    apply returns_Ret. split_and!; [| |intros id'|done].
    + intros id' [->|Hid']%elem_of_cons; [|by apply H1]. by rewrite H2, Ep, Es by done.
    + intros id' [Hne Hni]%not_elem_of_cons. by apply H2.
    + rewrite H3, elem_of_cons. split; [naive_solver|]. intros [[->|?] Hs]; [|done].
      rewrite Es in Hs. by destruct Hs.
Qed.

Lemma publish_inv s edits t :
  session_inv s → fits t → rewrites 0 0 (text s) edits t →
  returns (publish (topic s) edits) (λ tp, session_inv (MkSession tp t (seen s))).
Proof.
  intros (Ft & Hnd & Hfresh & Hcells) Ft' He. unfold publish.
  destruct (publish_loop_spec edits (text s) t (cells (topic s)) (weak (topic s)) (seen s)
    Ft Ft' He Hnd) as ([store kept] & -> & H1 & H2 & H3 & H4).
  { intros id _. apply Hcells. }
  apply returns_Ret. unfold session_inv. simpl. split_and!; [done|done| |].
  - intros id [Hid _]%H3. by apply Hfresh.
  - intros id. destruct (Hcells id) as [Hok Hin]. split.
    + destruct (decide (id ∈ weak (topic s))) as [Hid|Hid]; [by apply H1|].
      rewrite H2 by done. destruct (seen s !! id) as [x|] eqn:Ex; [by exfalso; apply Hid, Hin|].
      unfold cell_ok in *. by destruct (cells (topic s) !! id).
    + intros Hs. apply H3. split; [by apply Hin|done].
Qed.

Lemma covered_refl (t : list A) : covered [] t t.
Proof. split; [constructor|done]. Qed.

Lemma session_step_inv s s' : session_inv s → session_step s s' → session_inv s'.
Proof.
  intros Hinv Hstep. pose proof Hinv as (Ft & Hnd & Hfresh & Hcells).
  destruct Hstep as [s tp id E|s edits tp t Ft' He E|s id patch tp Hs E|s id]; simpl in *.
  - injection E as <- <-. unfold session_inv. simpl. split_and!; [done| | |].
    + apply NoDup_app. split_and!; [done| |by apply NoDup_singleton].
      intros id Hid. rewrite list_elem_of_singleton. apply Hfresh in Hid. lia.
    + intros id [Hid|Hid]%elem_of_app; [apply Hfresh in Hid; lia|].
      apply list_elem_of_singleton in Hid. lia.
    + intros id. destruct (decide (id = next_cell (topic s))) as [->|Hne].
      * rewrite !lookup_insert_eq. split; [split; [done|apply covered_refl]|].
        intros _. apply elem_of_app. right. by apply list_elem_of_singleton.
      * rewrite !lookup_insert_ne by done. destruct (Hcells id) as [Hok Hin]. split; [done|].
        intros Hs. apply elem_of_app. left. by apply Hin.
  - destruct (publish_inv s edits t Hinv Ft' He) as (tp' & E' & H). rewrite E in E'. by simplify_eq.
  - unfold sub_consume in E. destruct (cells (topic s) !! id) as [p|] eqn:Ep; [|done].
    simpl in E. injection E as <- <-. unfold session_inv. simpl. split_and!; [done..|].
    intros id'. destruct (decide (id' = id)) as [->|Hne].
    + rewrite !lookup_insert_eq. split; [split; [done|apply covered_refl]|].
      intros _. by apply (Hcells id).
    + rewrite !lookup_insert_ne by done. apply Hcells.
  - unfold session_inv. simpl. split_and!; [done..|]. intros id'.
    destruct (decide (id' = id)) as [->|Hne].
    + rewrite !lookup_delete_eq. split; [done|]. by intros [].
    + rewrite !lookup_delete_ne by done. apply Hcells.
Qed.

Lemma reachable_inv t0 s : fits t0 → reachable t0 s → session_inv s.
Proof.
  intros F0. induction 1 as [|s s' _ IH Hs]; [|by eapply session_step_inv].
  unfold session_inv. simpl. split_and!; [done|constructor|by intros ? ?%not_elem_of_nil|].
  intros id. rewrite !lookup_empty. split; [done|by intros []].
Qed.

(** C28: In every history of subscribing, publishing, consuming and dropping, in
    any interleaving, publishing never panics and a live subscriber's next
    [consume] returns a patch from the text it has last seen to the current
    one, so no edit is lost, doubled or misplaced. *)
Theorem subscribers_see_edits t0 s :
  fits t0 → reachable t0 s →
  (∀ edits t, fits t → rewrites 0 0 (text s) edits t → returns (publish (topic s) edits) (λ _, True)) ∧
  (∀ id old, seen s !! id = Some old →
    returns (sub_consume (topic s) id) (λ '(patch, _),
      rewrites 0 0 old patch (text s) ∧ patch_new patch = Ret patch)).
Proof.
  intros F0 Hr. pose proof (reachable_inv _ _ F0 Hr) as Hinv. split.
  - intros edits t Ft He. eapply returns_mono; [by apply (publish_inv s edits t)|done].
  - intros id old Hold. destruct Hinv as (_ & _ & _ & Hcells). destruct (Hcells id) as [Hok _].
    rewrite Hold in Hok. unfold sub_consume, cell_ok in *.
    destruct (cells (topic s) !! id) as [p|]; [|done]. apply returns_Ret.
    destruct Hok as (_ & Hp & Hs). split; [done|by apply patch_new_spec].
Qed.
End Sessions.

(** A subscriber that sees two publications at once. *)
Definition demo_edit1 : Patch := [edit_at 1 1 [7] [8; 9]].
Definition demo_edit2 : Patch := [edit_at 0 0 (@nil nat) [5]].
Definition demo_session : Session :=
  MkSession (MkTopic {[0 := [MkTextEdit (MkRange 0 0) (MkRange 0 1); edit_at 1 2 [7] [8; 9]]]} [0] 1)
            [5; 6; 8; 9] {[0 := [6; 7]]}.

Lemma demo_reachable : reachable [6; 7] demo_session.
Proof.
  set (s1 := MkSession (subscribe topic_default).1 [6; 7] {[0 := [6; 7]]}).
  destruct (publish (topic s1) demo_edit1) as [tp1| |] eqn:E1; [|by vm_compute in E1..].
  set (s2 := MkSession tp1 [6; 8; 9] {[0 := [6; 7]]}).
  destruct (publish (topic s2) demo_edit2) as [tp2| |] eqn:E2;
    [|by injection E1 as <-; vm_compute in E2..].
  assert (demo_session = MkSession tp2 [5; 6; 8; 9] {[0 := [6; 7]]}) as ->.
  { injection E1 as <-. injection E2 as <-. reflexivity. }
  apply (reach_step _ s2).
  - apply (reach_step _ s1).
    + apply (reach_step _ (MkSession topic_default [6; 7] ∅)); [apply reach_start|].
      apply (step_subscribe (MkSession topic_default [6; 7] ∅) _ 0). reflexivity.
    + apply (step_publish s1 demo_edit1 tp1 [6; 8; 9]); [vm_compute; discriminate| |done].
      apply (rewrites_edit 0 0 [6] [7] [8; 9] [] [] []). constructor.
  - apply (step_publish s2 demo_edit2 tp2 [5; 6; 8; 9]); [vm_compute; discriminate| |done].
    apply (rewrites_edit 0 0 [] [] [5]). constructor.
Qed.

Lemma subscribers_see_edits_witness :
  returns (sub_consume (topic demo_session) 0) (λ '(patch, _), rewrites 0 0 [6; 7] patch [5; 6; 8; 9]).
Proof.
  eapply returns_mono.
  - apply (proj2 (subscribers_see_edits [6; 7] demo_session ltac:(vm_compute; discriminate) demo_reachable) 0).
    reflexivity.
  - intros [patch tp] H. apply H.
Defined.
