(* ===== verification/Selection.v ===== *)
(** * Selections

    Models [crates/text/src/selection.rs]: a range of positions of any ordered
    type with a direction.  [head] is where the selection stopped, [tail] where
    it began.  The floating-point payloads of goals are types of their own.
    [Selection::resolve], which needs a buffer snapshot, is in [Anchor]. *)
From stdpp Require Import base numbers option list.
From Stdlib Require Import Lia.
From S2P Require Import Prelude.

Section Selection.
Context {F64 F32 : Type}.

Inductive SelectionGoal :=
| GoalNone
| HorizontalPosition (x : F64)
| HorizontalRange (start end_ : F64)
| WrappedHorizontalPosition (p : N * F32).

Record Selection (T : Type) := MkSelection {
  sel_id : nat; sel_start : T; sel_end : T; reversed : bool; goal : SelectionGoal }.
Arguments MkSelection {T}.
Arguments sel_id {T}.
Arguments sel_start {T}.
Arguments sel_end {T}.
Arguments reversed {T}.
Arguments goal {T}.

Definition head_of {T} (self : Selection T) : T :=
  if reversed self then sel_start self else sel_end self.
Definition tail_of {T} (self : Selection T) : T :=
  if reversed self then sel_end self else sel_start self.

Definition sel_map {T U} (f : T → U) (self : Selection T) : Selection U :=
  MkSelection (sel_id self) (f (sel_start self)) (f (sel_end self)) (reversed self) (goal self).

Definition collapse_to {T} (self : Selection T) (point : T) (new_goal : SelectionGoal) : Selection T :=
  MkSelection (sel_id self) point point false new_goal.

Definition sel_range {T} (self : Selection T) : T * T := (sel_start self, sel_end self).

Section Ordered.
Context {T : Type} `{OrdLaws T}.
Implicit Types self : Selection T.

(** [==] of an [Ord] type. *)
Definition eq_b (a b : T) : bool := match cmp a b with Eq => true | _ => false end.

Definition sel_is_empty self : bool := eq_b (sel_start self) (sel_end self).

Definition set_head self (head : T) (new_goal : SelectionGoal) : Selection T :=
  if lt_b head (tail_of self) then
    let self := if reversed self then self
                else MkSelection (sel_id self) (sel_start self) (sel_start self) true (goal self) in
    MkSelection (sel_id self) head (sel_end self) (reversed self) new_goal
  else
    let self := if reversed self
                then MkSelection (sel_id self) (sel_end self) (sel_end self) false (goal self)
                else self in
    MkSelection (sel_id self) (sel_start self) head (reversed self) new_goal.

Definition set_tail self (tail : T) (new_goal : SelectionGoal) : Selection T :=
  if le_b tail (head_of self) then
    let self := if reversed self
                then MkSelection (sel_id self) (sel_start self) (sel_start self) false (goal self)
                else self in
    MkSelection (sel_id self) tail (sel_end self) (reversed self) new_goal
  else
    let self := if reversed self then self
                else MkSelection (sel_id self) (sel_end self) (sel_end self) true (goal self) in
    MkSelection (sel_id self) (sel_start self) tail (reversed self) new_goal.

Definition set_head_tail self (head tail : T) (new_goal : SelectionGoal) : Selection T :=
  if lt_b head tail then MkSelection (sel_id self) head tail true new_goal
  else MkSelection (sel_id self) tail head false new_goal.

Definition swap_head_tail self : Selection T :=
  if reversed self then MkSelection (sel_id self) (sel_start self) (sel_end self) false (goal self)
  else MkSelection (sel_id self) (sel_end self) (sel_start self) (reversed self) (goal self).

Definition sel_equals self (r : T * T) : bool := eq_b (sel_start self) r.1 && eq_b (sel_end self) r.2.

(** The range runs forward. *)
Definition sel_wf self : Prop := le_b (sel_start self) (sel_end self) = true.

Lemma le_b_refl (a : T) : le_b a a = true.
Proof. apply le_b_lt. by right. Qed.
Lemma lt_b_le (a b : T) : lt_b a b = true → le_b a b = true.
Proof. unfold lt_b, le_b. by destruct (cmp a b). Qed.
Lemma lt_b_false (a b : T) : lt_b a b = false → le_b b a = true.
Proof. unfold lt_b, le_b. rewrite (cmp_antisym a b). by destruct (cmp a b). Qed.
Lemma eq_b_true (a b : T) : eq_b a b = true ↔ a = b.
Proof. unfold eq_b. rewrite <-cmp_eq. destruct (cmp a b); split; congruence. Qed.

Lemma le_b_false_ge (a b : T) : le_b a b = false → le_b b a = true.
Proof. intros E%le_b_false. apply le_b_lt. by left. Qed.

Lemma set_head_spec self p g :
  let s := set_head self p g in
  sel_wf s ∧ head_of s = p ∧ tail_of s = tail_of self ∧ sel_id s = sel_id self ∧ goal s = g.
Proof.
  destruct self as [id a b [|] g0]; unfold sel_wf, set_head, tail_of, head_of; simpl.
  - destruct (lt_b p b) eqn:E; simpl; auto using lt_b_le, lt_b_false.
  - destruct (lt_b p a) eqn:E; simpl; auto using lt_b_le, lt_b_false.
Qed.

Lemma set_tail_spec self p g :
  let s := set_tail self p g in
  sel_wf s ∧ tail_of s = p ∧ head_of s = head_of self ∧ sel_id s = sel_id self ∧ goal s = g.
Proof.
  destruct self as [id a b [|] g0]; unfold sel_wf, set_tail, tail_of, head_of; simpl.
  - destruct (le_b p a) eqn:E; simpl; auto using le_b_false_ge.
  - destruct (le_b p b) eqn:E; simpl; auto using le_b_false_ge.
Qed.

Lemma set_head_tail_spec self p q g :
  let s := set_head_tail self p q g in
  sel_wf s ∧ head_of s = p ∧ tail_of s = q ∧ sel_id s = sel_id self ∧ goal s = g.
Proof.
  unfold set_head_tail, sel_wf, tail_of, head_of.
  destruct (lt_b p q) eqn:E; simpl; auto using lt_b_le, lt_b_false.
Qed.

(** Moving one end keeps the other: [set_head] puts the head where asked and
    leaves the tail, [set_tail] the converse, [set_head_tail] puts both,
    [collapse_to] makes an empty selection; each makes the range run
    forward, and keeps the identifier, and sets the goal. *)
Theorem selection_moves self p q g :
  (let s := set_head self p g in
   sel_wf s ∧ head_of s = p ∧ tail_of s = tail_of self ∧ sel_id s = sel_id self ∧ goal s = g) ∧
  (let s := set_tail self p g in
   sel_wf s ∧ tail_of s = p ∧ head_of s = head_of self ∧ sel_id s = sel_id self ∧ goal s = g) ∧
  (let s := set_head_tail self p q g in
   sel_wf s ∧ head_of s = p ∧ tail_of s = q ∧ sel_id s = sel_id self ∧ goal s = g) ∧
  (let s := collapse_to self p g in
   sel_wf s ∧ sel_is_empty s = true ∧ head_of s = p ∧ sel_id s = sel_id self ∧ goal s = g).
Proof.
  split_and!; [apply set_head_spec|apply set_tail_spec|apply set_head_tail_spec|].
  unfold sel_wf, sel_is_empty. simpl. by rewrite le_b_refl, eq_b_true.
Qed.

(** [swap_head_tail] exchanges head and tail, but of a forward selection
    that is not empty it makes a range that runs backward. *)
Theorem swap_head_tail_breaks_order self :
  head_of (swap_head_tail self) = tail_of self ∧ tail_of (swap_head_tail self) = head_of self ∧
  (reversed self = true → sel_wf self → sel_wf (swap_head_tail self)) ∧
  (reversed self = false → olt (sel_start self) (sel_end self) → ¬ sel_wf (swap_head_tail self)).
Proof.
  destruct self as [id a b [|] g]; unfold swap_head_tail, head_of, tail_of, sel_wf; simpl;
    (split_and!; try done). intros _ Hlt Hle. apply le_b_lt in Hle as [Hle| ->].
  - by apply (olt_irrefl a), (olt_trans a b a).
  - by apply (olt_irrefl a).
Qed.
End Ordered.

End Selection.

(** ** Witnesses *)
Definition forward_selection : Selection (F64 := unit) (F32 := unit) nat :=
  MkSelection _ 7 3 9 false GoalNone.

Lemma selection_moves_witness : head_of (set_head forward_selection 1 GoalNone) = 1.
Proof. apply (selection_moves forward_selection 1 2 GoalNone). Defined.

Lemma swap_head_tail_breaks_order_witness : ¬ sel_wf (swap_head_tail forward_selection).
Proof. apply (swap_head_tail_breaks_order forward_selection); reflexivity. Defined.
