(* ===== verification/Point.v ===== *)
(** * Points: rows and columns of a text

    Models [crates/rope/src/point.rs] and [crates/rope/src/point_utf16.rs].
    The two types have the same code and differ in the unit of columns, here a
    phantom parameter.  Overflow of a [u32] field panics, as in debug builds. *)
From stdpp Require Import base numbers option list.
From Stdlib Require Import Lia.
From S2P Require Import Prelude.

Inductive Unit := Utf8 | Utf16.
Record PointOf (e : Unit) := MkPoint { row : N; column : N }.
Arguments MkPoint {e}.
Arguments row {e}.
Arguments column {e}.
Definition Point : Type := PointOf Utf8.
Definition PointUtf16 : Type := PointOf Utf16.

Section Ops.
Context {e : Unit}.
Implicit Types self other p q r : PointOf e.

Definition point_MAX : PointOf e := MkPoint U32_MAX U32_MAX.
Definition point_zero : PointOf e := MkPoint 0 0.
Definition point_is_zero self : bool := (row self =? 0)%N && (column self =? 0)%N.

(** [usize] values of the comparison; the shift loses no bits of a [u32]. *)
Definition point_bits self : N := N.lor (N.shiftl (row self) 32) (column self).
Definition point_cmp self other : comparison := N.compare (point_bits self) (point_bits other).
#[export] Instance point_ord : Ord (PointOf e) := point_cmp.

Definition point_add self other : outcome (PointOf e) :=
  if (row other =? 0)%N then let* c := u32_add (column self) (column other) in Ret (MkPoint (row self) c)
  else let* r := u32_add (row self) (row other) in Ret (MkPoint r (column other)).

Definition point_add_assign self other : outcome (PointOf e) :=
  if (row other =? 0)%N then
    let* c := u32_add (column self) (column other) in Ret (MkPoint (row self) c)
  else
    let* r := u32_add (row self) (row other) in Ret (MkPoint r (column other)).

Definition point_sub self other : outcome (PointOf e) :=
  let* _ := rust_assert (le_b other self) in
  if (row self =? row other)%N then
    let* c := u32_sub (column self) (column other) in Ret (MkPoint 0 c)
  else
    let* r := u32_sub (row self) (row other) in Ret (MkPoint r (column self)).

Definition point_saturating_sub self other : outcome (PointOf e) :=
  if lt_b self other then Ret point_zero else point_sub self other.

Definition point_new (r c : N) : PointOf e := MkPoint r c.

(** The range of points that covers a range of rows. *)
Definition row_range (range : N * N) : PointOf e * PointOf e :=
  (MkPoint range.1 0, MkPoint range.2 0).

(** ** The fields are 32 bits wide *)
Definition point_ok p : Prop := (row p <= U32_MAX ∧ column p <= U32_MAX)%N.

Lemma point_bits_eq p : point_ok p → point_bits p = (row p * 2 ^ 32 + column p)%N.
Proof.
  intros [_ Hc]. apply lor_shiftl_add. unfold U32_MAX in Hc. lia.
Qed.

(** The packed comparison is the lexicographic order. *)
Lemma point_cmp_lex p q :
  point_ok p → point_ok q → cmp p q = then_with (cmp (row p) (row q)) (cmp (column p) (column q)).
Proof.
  intros Hp Hq. unfold cmp at 1, point_ord, point_cmp. rewrite !point_bits_eq by done.
  destruct Hp as [_ Hp], Hq as [_ Hq]. unfold U32_MAX in *. unfold cmp, N_ord.
  destruct (N.compare_spec (row p) (row q)) as [E|E|E]; simpl.
  - rewrite E. destruct (N.compare_spec (column p) (column q)) as [E'|E'|E'].
    + by rewrite E', N.compare_refl.
    + apply N.compare_lt_iff. lia.
    + apply N.compare_gt_iff. lia.
  - apply N.compare_lt_iff. nia.
  - apply N.compare_gt_iff. nia.
Qed.

Lemma point_ok_bits_inj p q : point_ok p → point_ok q → cmp p q = Eq → p = q.
Proof.
  intros Hp Hq. rewrite point_cmp_lex, then_with_Eq, !cmp_eq by done.
  destruct p, q; simpl. by intros [-> ->].
Qed.

(** What one point is before another means on the fields. *)
Lemma point_lt_iff p q :
  point_ok p → point_ok q →
  olt p q ↔ (row p < row q ∨ row p = row q ∧ column p < column q)%N.
Proof.
  intros Hp Hq. unfold olt. rewrite point_cmp_lex by done. unfold cmp, N_ord.
  destruct (N.compare_spec (row p) (row q)); simpl; rewrite ?N.compare_lt_iff; split; try lia; done.
Qed.

Lemma point_le_iff p q :
  point_ok p → point_ok q →
  le_b p q = true ↔ (row p < row q ∨ row p = row q ∧ column p <= column q)%N.
Proof.
  intros Hp Hq. unfold le_b. rewrite point_cmp_lex by done. unfold cmp, N_ord.
  destruct (N.compare_spec (row p) (row q)); simpl.
  - destruct (N.compare_spec (column p) (column q)); simpl; split; try lia; done.
  - split; [lia|done].
  - split; [done|lia].
Qed.

(** The sum, without the overflow checks. *)
Definition point_plus p q : PointOf e :=
  if (row q =? 0)%N then MkPoint (row p) (column p + column q) else MkPoint (row p + row q) (column q).

Lemma point_add_inv p q s : point_add p q = Ret s → s = point_plus p q.
Proof.
  unfold point_add, point_plus. destruct (row q =? 0)%N.
  - destruct (u32_add _ _) eqn:E; [|done..]. apply u32_add_inv in E as [-> _]. by intros [= <-].
  - destruct (u32_add _ _) eqn:E; [|done..]. apply u32_add_inv in E as [-> _]. by intros [= <-].
Qed.

Lemma point_add_ok p q : point_ok (point_plus p q) → point_add p q = Ret (point_plus p q).
Proof.
  unfold point_add, point_plus, point_ok.
  destruct (row q =? 0)%N; simpl; intros [? ?]; by rewrite u32_add_ok.
Qed.

Lemma point_add_ok_inv p q s : point_ok p → point_ok q → point_add p q = Ret s → point_ok s.
Proof.
  unfold point_add, point_ok. intros [? ?] [? ?]. destruct (row q =? 0)%N.
  - destruct (u32_add _ _) eqn:E; [|done..]. apply u32_add_inv in E as [-> ?]. by intros [= <-].
  - destruct (u32_add _ _) eqn:E; [|done..]. apply u32_add_inv in E as [-> ?]. by intros [= <-].
Qed.

Lemma point_plus_ok_r p q : point_ok (point_plus p q) → point_ok q.
Proof.
  unfold point_plus, point_ok. destruct (N.eqb_spec (row q) 0) as [E|]; simpl; rewrite ?E; lia.
Qed.

Lemma point_plus_assoc p q r : point_plus (point_plus p q) r = point_plus p (point_plus q r).
Proof.
  destruct p as [a b], q as [c d], r as [f g]. unfold point_plus; simpl.
  destruct (N.eqb_spec f 0) as [->|Hf]; simpl.
  - destruct (N.eqb_spec c 0) as [->|Hc]; simpl; [f_equal; lia|done].
  - destruct (N.eqb_spec c 0) as [->|Hc]; simpl.
    + rewrite !N.add_0_l. by destruct (N.eqb_spec f 0).
    + destruct (N.eqb_spec (c + f) 0); [lia|]. f_equal. lia.
Qed.

Lemma point_plus_zero_l p : point_plus point_zero p = p.
Proof. destruct p as [a b]. unfold point_plus. simpl. by destruct (N.eqb_spec a 0) as [->|]. Qed.
Lemma point_plus_zero_r p : point_plus p point_zero = p.
Proof. destruct p as [a b]. unfold point_plus. simpl. f_equal. lia. Qed.

(** Subtraction undoes addition. *)
Lemma point_plus_sub p q : point_ok p → point_ok (point_plus p q) → point_sub (point_plus p q) p = Ret q.
Proof.
  intros Hp Hok. unfold point_sub, point_plus in *.
  destruct p as [a b], q as [c d], Hok as [? ?]; simpl in *.
  destruct (N.eqb_spec c 0) as [->|Hc]; simpl in *.
  - rewrite (proj2 (point_le_iff (MkPoint a b) (MkPoint a (b + d)) Hp ltac:(done))) by (simpl; lia). simpl.
    rewrite N.eqb_refl, u32_sub_ok by lia. do 2 f_equal. lia.
  - rewrite (proj2 (point_le_iff (MkPoint a b) (MkPoint (a + c) d) Hp ltac:(done))) by (simpl; lia). simpl.
    destruct (N.eqb_spec (a + c) a); [lia|]. rewrite u32_sub_ok by lia. do 2 f_equal. lia.
Qed.
End Ops.

(** The operations at the second type. *)
Definition PointUtf16_MAX : PointUtf16 := point_MAX.
Definition PointUtf16_zero : PointUtf16 := point_zero.
Definition PointUtf16_is_zero : PointUtf16 → bool := point_is_zero.
Definition PointUtf16_cmp : PointUtf16 → PointUtf16 → comparison := point_cmp.
Definition PointUtf16_add : PointUtf16 → PointUtf16 → outcome PointUtf16 := point_add.
Definition PointUtf16_add_assign : PointUtf16 → PointUtf16 → outcome PointUtf16 := point_add_assign.
Definition PointUtf16_sub : PointUtf16 → PointUtf16 → outcome PointUtf16 := point_sub.
Definition PointUtf16_saturating_sub : PointUtf16 → PointUtf16 → outcome PointUtf16 :=
  point_saturating_sub.

(** ** Measuring a text

    A text is its bytes.  [split('\n')] yields the pieces between newlines, at
    least one. *)
Definition NEWLINE : N := 10.

Fixpoint split_lines (s : list N) : list N * list (list N) :=
  match s with
  | [] => ([], [])
  | b :: s =>
      let '(first, rest) := split_lines s in
      if (b =? NEWLINE)%N then ([], first :: rest) else (b :: first, rest)
  end.
Definition split_newlines (s : list N) : list (list N) :=
  let '(first, rest) := split_lines s in first :: rest.

(** [row as u32] and [line.len() as u32] truncate. *)
Definition parse_str (s : list N) : Point :=
  foldl (λ _ '(row, line), MkPoint (wrap 32 (N.of_nat row)) (wrap 32 (N.of_nat (length line))))
    point_zero (imap (λ row line, (row, line)) (split_newlines s)).

(** The measure as a recursion on the text. *)
Fixpoint extent_of (s : list N) : Point :=
  match s with
  | [] => point_zero
  | b :: s => point_plus (if (b =? NEWLINE)%N then MkPoint 1 0 else MkPoint 0 1) (extent_of s)
  end.

Lemma extent_of_app s t : extent_of (s ++ t) = point_plus (extent_of s) (extent_of t).
Proof.
  induction s as [|b s IH]; simpl; [by rewrite point_plus_zero_l|].
  by rewrite IH, point_plus_assoc.
Qed.

Lemma split_lines_extent s :
  let '(first, rest) := split_lines s in
  extent_of s = MkPoint (N.of_nat (length rest))
    (N.of_nat (length (default first (last rest)))).
Proof.
  induction s as [|b s IH]; simpl; [done|]. destruct (split_lines s) as [first rest].
  rewrite IH. destruct (N.eqb_spec b NEWLINE); simpl; unfold point_plus; simpl.
  - destruct rest as [|l rest]; simpl; [done|].
    f_equal; [lia|]. destruct (last (l :: rest)) eqn:E; [done|]. by apply last_None in E.
  - destruct rest as [|l rest]; simpl; [f_equal; lia|].
    f_equal. destruct (last (l :: rest)) eqn:E; [done|]. by apply last_None in E.
Qed.

(** The last of the enumerated lines decides. *)
Lemma foldl_last {B C} (f : C → B) (z : B) (l : list C) :
  foldl (λ _ x, f x) z l = default z (f <$> last l).
Proof.
  induction l as [|x l _] using rev_ind; [done|]. by rewrite foldl_snoc, last_snoc.
Qed.

Lemma extent_of_bound s : (row (extent_of s) + column (extent_of s) <= N.of_nat (length s))%N.
Proof.
  induction s as [|b s IH]; simpl; [lia|]. unfold point_plus.
  destruct (b =? NEWLINE)%N, (N.eqb_spec (row (extent_of s)) 0); simpl; lia.
Qed.

Lemma parse_str_extent s : (N.of_nat (length s) <= U32_MAX)%N → parse_str s = extent_of s.
Proof.
  intros Hs. pose proof (extent_of_bound s) as Hb. unfold parse_str, split_newlines.
  pose proof (split_lines_extent s) as He. destruct (split_lines s) as [first rest].
  rewrite (foldl_last (λ '(r, l), MkPoint (wrap 32 (N.of_nat r)) (wrap 32 (N.of_nat (length l))))).
  rewrite last_lookup, length_imap, list_lookup_imap. cbn [length pred].
  assert (E : (first :: rest) !! length rest = Some (default first (last rest))).
  { destruct rest as [|l rest]; [done|]. simpl. rewrite last_lookup. simpl.
    destruct (lookup_lt_is_Some_2 (l :: rest) (length rest)) as [y Hy]; [simpl; lia|]. by rewrite Hy. }
  rewrite E, He in *. simpl in *. unfold U32_MAX in Hs.
  rewrite !wrap_small by lia. done.
Qed.

Lemma extent_of_ok s : (N.of_nat (length s) <= U32_MAX)%N → point_ok (extent_of s).
Proof. intros Hs. pose proof (extent_of_bound s). split; lia. Qed.

(** ** Theorems *)
Section Theorems.
Context {e : Unit}.
Implicit Types p q r s : PointOf e.

(** Comparing two points by their fields packed into one machine word is
    the lexicographic order of row and column, and agrees with equality. *)
Theorem point_order p q :
  point_ok p → point_ok q →
  cmp p q = then_with (cmp (row p) (row q)) (cmp (column p) (column q)) ∧ (cmp p q = Eq ↔ p = q).
Proof.
  intros Hp Hq. split; [by apply point_cmp_lex|]. split; [by apply point_ok_bits_inj|].
  intros ->. apply N.compare_refl.
Qed.

(** Point arithmetic is that of distances in a text: the difference of two
    points in order leads from the first to the second, subtraction undoes
    addition, and sums that do not overflow associate. *)
Theorem point_arithmetic p q r s :
  point_ok p → point_ok q → point_ok r →
  (le_b p q = true → returns (point_sub q p) (λ d, point_add p d = Ret q)) ∧
  (point_add p q = Ret s → point_sub s p = Ret q) ∧
  (point_add p q = Ret s → ∀ t, point_add s r = Ret t →
    returns (point_add q r) (λ u, point_add p u = Ret t)).
Proof.
  intros Hp Hq Hr. split_and!.
  - intros Hle. unfold point_sub. rewrite Hle. simpl. apply point_le_iff in Hle; [|done..].
    destruct p as [a b], q as [c d], Hp as [? ?], Hq as [? ?]; simpl in *.
    destruct (N.eqb_spec c a) as [->|Hne].
    + rewrite u32_sub_ok by lia. apply returns_Ret. unfold point_add. simpl.
      rewrite u32_add_ok by lia. do 2 f_equal. lia.
    + rewrite u32_sub_ok by lia. apply returns_Ret. unfold point_add. simpl.
      destruct (N.eqb_spec (c - a) 0); [lia|]. rewrite u32_add_ok by lia. do 2 f_equal. lia.
  - intros Hs. assert (Hok : point_ok s) by (by apply (point_add_ok_inv p q)).
    apply point_add_inv in Hs as ->. by apply point_plus_sub.
  - intros Hs t Ht.
    assert (Hok : point_ok t).
    { apply (point_add_ok_inv s r); [|done|done]. by apply (point_add_ok_inv p q). }
    apply point_add_inv in Hs as ->. apply point_add_inv in Ht as ->.
    rewrite point_plus_assoc in *. rewrite point_add_ok by (by apply (point_plus_ok_r p)).
    apply returns_Ret. by apply point_add_ok.
Qed.
End Theorems.

(** Measuring texts turns concatenation into addition: the extent of two
    texts together is the sum of their extents, with no overflow when the
    whole has at most [u32::MAX] bytes. *)
Theorem parse_str_append (s t : list N) :
  (N.of_nat (length (s ++ t)) <= U32_MAX)%N →
  point_add (parse_str s) (parse_str t) = Ret (parse_str (s ++ t)).
Proof.
  intros H. pose proof H as H'. rewrite length_app in H'.
  rewrite !parse_str_extent, extent_of_app by lia. apply point_add_ok.
  rewrite <-extent_of_app. by apply extent_of_ok.
Qed.

(** ** Witnesses *)
Lemma point_order_witness : cmp (MkPoint (e := Utf8) 1 5) (MkPoint 2 0) = Lt.
Proof.
  rewrite (proj1 (point_order (MkPoint (e := Utf8) 1 5) (MkPoint 2 0)
    ltac:(split; vm_compute; discriminate) ltac:(split; vm_compute; discriminate))).
  reflexivity.
Defined.

Lemma point_arithmetic_witness :
  returns (point_sub (MkPoint (e := Utf8) 2 3) (MkPoint 1 5)) (λ d, point_add (MkPoint 1 5) d = Ret (MkPoint 2 3)).
Proof.
  apply (point_arithmetic (MkPoint (e := Utf8) 1 5) (MkPoint 2 3) (MkPoint 0 0) (MkPoint 0 0));
    [split; vm_compute; discriminate..|reflexivity].
Defined.

Lemma parse_str_append_witness :
  point_add (parse_str [97; 10; 98]%N) (parse_str [99; 10]%N) = Ret (parse_str [97; 10; 98; 99; 10]%N).
Proof. apply (parse_str_append [97; 10; 98]%N [99; 10]%N). vm_compute. discriminate. Defined.
