(* ===== verification/Bits.v ===== *)
(** * Bit sets in machine words

    The operations of Rust's unsigned integers that [crates/rope/src/chunk.rs]
    applies to its bitmaps ([u128]), and their meaning on the list of bits,
    least significant first. *)
From stdpp Require Import base numbers option list.
From Stdlib Require Import Lia.
From S2P Require Import Prelude.

(** ** Operations *)
Fixpoint pos_ones (p : positive) : nat :=
  match p with xH => 1 | xO p => pos_ones p | xI p => S (pos_ones p) end.
Definition count_ones (n : N) : nat := match n with N0 => 0 | Npos p => pos_ones p end.

Fixpoint pos_zeros (p : positive) : nat :=
  match p with xH => 0 | xI _ => 0 | xO p => S (pos_zeros p) end.

Section Width.
Context (bits : nat).

Definition trailing_zeros (n : N) : nat := match n with N0 => bits | Npos p => pos_zeros p end.
Definition leading_zeros (n : N) : nat := bits - N.to_nat (N.size n).

(** [<<] and [>>] check the amount; bits shifted out are lost. *)
Definition shl (n : N) (k : nat) : outcome N :=
  if k <? bits then Ret (wrap (N.of_nat bits) (N.shiftl n (N.of_nat k))) else Panic.
Definition shr (n : N) (k : nat) : outcome N :=
  if k <? bits then Ret (N.shiftr n (N.of_nat k)) else Panic.

Definition unbounded_shl (n : N) (k : nat) : N :=
  if k <? bits then wrap (N.of_nat bits) (N.shiftl n (N.of_nat k)) else 0%N.
Definition unbounded_shr (n : N) (k : nat) : N :=
  if k <? bits then N.shiftr n (N.of_nat k) else 0%N.
Definition word_max : N := N.ones (N.of_nat bits).
Definition wrapping_sub (a b : N) : N :=
  wrap (N.of_nat bits) (a + 2 ^ N.of_nat bits - wrap (N.of_nat bits) b).
Definition word_not (a : N) : N := N.lxor a word_max.
End Width.

(** [from_le_bytes] *)
Fixpoint from_le_bytes (bytes : list N) : N :=
  match bytes with [] => 0%N | b :: bytes => (b + 256 * from_le_bytes bytes)%N end.

(** ** Words as lists of bits *)
Fixpoint of_bits (l : list bool) : N :=
  match l with
  | [] => 0%N
  | true :: l => N.succ_double (of_bits l)
  | false :: l => N.double (of_bits l)
  end.

(** The number of bits set, and the first of them. *)
Definition ones (l : list bool) : nat := length (List.filter id l).
Fixpoint first_one (l : list bool) : option nat :=
  match l with
  | [] => None
  | true :: _ => Some 0
  | false :: l => S <$> first_one l
  end.

Lemma ones_cons b l : ones (b :: l) = (if b then 1 else 0) + ones l.
Proof. by destruct b. Qed.
Lemma ones_app l k : ones (l ++ k) = ones l + ones k.
Proof. unfold ones. by rewrite List.filter_app, length_app. Qed.
Lemma ones_le l : ones l ≤ length l.
Proof. apply filter_length_le. Qed.
Lemma ones_replicate_false n : ones (replicate n false) = 0.
Proof. by induction n. Qed.

Lemma testbit_of_bits l i : N.testbit (of_bits l) (N.of_nat i) = default false (l !! i).
Proof.
  revert i. induction l as [|b l IH]; intros i; [by rewrite N.bits_0|].
  destruct i as [|i].
  - by destruct b; simpl; destruct (of_bits l).
  - rewrite Nat2N.inj_succ. cbn [lookup list_lookup]. rewrite <-IH.
    destruct b; cbn [of_bits]; [rewrite N.succ_double_spec|rewrite N.double_spec].
    + by rewrite N.testbit_odd_succ by lia.
    + by rewrite N.testbit_even_succ by lia.
Qed.

Lemma word_eq a b : (∀ i, N.testbit a (N.of_nat i) = N.testbit b (N.of_nat i)) → a = b.
Proof. intros H. apply N.bits_inj. intros i. rewrite <-(N2Nat.id i). apply H. Qed.

Lemma of_bits_app_false l n : of_bits (l ++ replicate n false) = of_bits l.
Proof.
  apply word_eq. intros i. rewrite !testbit_of_bits. destruct (decide (i < length l)).
  - by rewrite lookup_app_l.
  - rewrite lookup_app_r by lia. rewrite (lookup_ge_None_2 l) by lia.
    destruct (replicate n false !! (i - length l)) eqn:E; [|done].
    by apply lookup_replicate in E as [-> _].
Qed.

Lemma of_bits_lt l : (of_bits l < 2 ^ N.of_nat (length l))%N.
Proof.
  induction l as [|b l IH]; [simpl; lia|]. cbn [length]. rewrite Nat2N.inj_succ, N.pow_succ_r'.
  destruct b; cbn [of_bits]; [rewrite N.succ_double_spec|rewrite N.double_spec]; lia.
Qed.

Lemma count_ones_of_bits l : count_ones (of_bits l) = ones l.
Proof.
  induction l as [|b l IH]; [done|]. rewrite ones_cons, <-IH. destruct b; cbn [of_bits].
  - by destruct (of_bits l).
  - by destruct (of_bits l).
Qed.

Lemma of_bits_zero l : of_bits l = 0%N → first_one l = None.
Proof.
  induction l as [|b l IH]; [done|]. destruct b; cbn [of_bits].
  - by destruct (of_bits l).
  - intros H. assert (E : of_bits l = 0%N) by (by destruct (of_bits l)). simpl. by rewrite (IH E).
Qed.

Lemma of_bits_pos l p : of_bits l = Npos p → first_one l = Some (pos_zeros p).
Proof.
  revert p. induction l as [|b l IH]; intros p E; [done|]. destruct b; cbn [of_bits first_one] in *.
  - by destruct (of_bits l); injection E as <-.
  - destruct (of_bits l) as [|q]; [done|]. injection E as <-. by rewrite (IH q eq_refl).
Qed.

Lemma trailing_zeros_of_bits bits l : trailing_zeros bits (of_bits l) = default bits (first_one l).
Proof.
  destruct (of_bits l) as [|p] eqn:E; simpl.
  - by rewrite (of_bits_zero l E).
  - by rewrite (of_bits_pos l p E).
Qed.

(** The position after the last bit set. *)
Fixpoint last_one (l : list bool) : nat :=
  match l with
  | [] => 0
  | b :: l => if last_one l is S n then S (S n) else if b then 1 else 0
  end.

Lemma size_of_bits l : N.to_nat (N.size (of_bits l)) = last_one l.
Proof.
  induction l as [|b l IH]; [done|]. cbn [last_one]. rewrite <-IH.
  destruct b; cbn [of_bits]; destruct (of_bits l) as [|p]; simpl; try done;
    rewrite !positive_N_nat, Pos2Nat.inj_succ; destruct (Pos.to_nat (Pos.size p)) eqn:E; lia.
Qed.

Lemma last_one_le l : last_one l ≤ length l.
Proof.
  induction l as [|b l IH]; simpl; [done|]. destruct (last_one l); destruct b; lia.
Qed.

Lemma last_one_app_false l n : last_one (l ++ replicate n false) = last_one l.
Proof. rewrite <-!size_of_bits. by rewrite of_bits_app_false. Qed.

Lemma leading_zeros_of_bits bits l : leading_zeros bits (of_bits l) = bits - last_one l.
Proof. unfold leading_zeros. by rewrite size_of_bits. Qed.

(** ** Logic and shifts *)
Lemma land_of_bits l k : N.land (of_bits l) (of_bits k) = of_bits (zip_with andb l k).
Proof.
  apply word_eq. intros i. rewrite N.land_spec, !testbit_of_bits, lookup_zip_with.
  destruct (l !! i), (k !! i); simpl; rewrite ?andb_false_r; done.
Qed.

Lemma zip_and_true l n : zip_with andb l (replicate n true) = take n l.
Proof.
  revert n. induction l as [|b l IH]; intros [|n]; simpl; try done. by rewrite IH, andb_true_r.
Qed.

Lemma shiftr_of_bits l k : N.shiftr (of_bits l) (N.of_nat k) = of_bits (drop k l).
Proof.
  apply word_eq. intros i. rewrite N.shiftr_spec', <-Nat2N.inj_add, !testbit_of_bits, lookup_drop.
  by rewrite Nat.add_comm.
Qed.

Lemma shiftl_of_bits l k : N.shiftl (of_bits l) (N.of_nat k) = of_bits (replicate k false ++ l).
Proof.
  apply word_eq. intros i. destruct (decide (i < k)).
  - rewrite N.shiftl_spec_low by lia.
    by rewrite testbit_of_bits, lookup_app_l, lookup_replicate_2 by (rewrite ?length_replicate; lia).
  - rewrite N.shiftl_spec_high', <-Nat2N.inj_sub by lia. rewrite !testbit_of_bits.
    by rewrite lookup_app_r, length_replicate by (rewrite length_replicate; lia).
Qed.

Lemma lor_of_bits_app l k :
  N.lor (of_bits l) (of_bits (replicate (length l) false ++ k)) = of_bits (l ++ k).
Proof.
  apply word_eq. intros i. rewrite N.lor_spec, !testbit_of_bits. destruct (decide (i < length l)).
  - rewrite (lookup_app_l l) by done.
    rewrite lookup_app_l, lookup_replicate_2 by (rewrite ?length_replicate; lia). apply orb_false_r.
  - rewrite !lookup_app_r, length_replicate by (rewrite ?length_replicate; lia).
    by rewrite (lookup_ge_None_2 l) by lia.
Qed.

(** ** Words as lists of bytes *)
Lemma from_le_bytes_app a b :
  from_le_bytes (a ++ b) = (from_le_bytes a + 256 ^ N.of_nat (length a) * from_le_bytes b)%N.
Proof.
  induction a as [|x a IH]; [simpl; lia|]. cbn [app from_le_bytes length].
  rewrite IH, Nat2N.inj_succ, N.pow_succ_r'. lia.
Qed.

Lemma from_le_bytes_zeros n : from_le_bytes (replicate n 0%N) = 0%N.
Proof. induction n as [|n IH]; [done|]. cbn [replicate from_le_bytes]. by rewrite IH. Qed.

Lemma of_bits_app l k : of_bits (l ++ k) = (of_bits l + 2 ^ N.of_nat (length l) * of_bits k)%N.
Proof.
  induction l as [|b l IH]; [simpl; lia|]. cbn [app length]. rewrite Nat2N.inj_succ, N.pow_succ_r'.
  destruct b; cbn [of_bits]; rewrite IH, ?N.succ_double_spec, ?N.double_spec; lia.
Qed.

Definition is_byte (x : N) : Prop := (x < 256)%N.

Lemma byte_testbit_high x i : is_byte x → 8 ≤ i → N.testbit x (N.of_nat i) = false.
Proof.
  intros Hx Hi. unfold is_byte in Hx. rewrite <-(N.mod_small x (2 ^ 8)) by done.
  apply N.mod_pow2_bits_high. lia.
Qed.

Lemma byte_cons x y : is_byte x → (x + 256 * y)%N = N.lor (N.shiftl y 8) x.
Proof. intros Hx. rewrite lor_shiftl_add by done. change (2 ^ 8)%N with 256%N. lia. Qed.

Lemma land_cons x y m M :
  is_byte x → is_byte m → N.land (x + 256 * y) (m + 256 * M) = (N.land x m + 256 * N.land y M)%N.
Proof.
  intros Hx Hm. assert (Hl : is_byte (N.land x m)).
  { unfold is_byte in *. eapply N.le_lt_trans; [apply N.land_le_l|done]. }
  rewrite (byte_cons x), (byte_cons m), (byte_cons (N.land x m)) by done.
  apply N.bits_inj. intros i. rewrite !N.land_spec, !N.lor_spec, !N.land_spec.
  destruct (N.lt_ge_cases i 8) as [Hi|Hi].
  - by rewrite !N.shiftl_spec_low by done.
  - rewrite !N.shiftl_spec_high', N.land_spec by done.
    rewrite <-(N2Nat.id i), !byte_testbit_high by (done || lia). simpl. by rewrite !orb_false_r.
Qed.

(** The bits of a word are those of its bytes. *)
Lemma testbit_bytes xs i :
  Forall is_byte xs →
  N.testbit (from_le_bytes xs) (N.of_nat i) =
  N.testbit (default 0%N (xs !! (i / 8))) (N.of_nat (i mod 8)).
Proof.
  intros Hxs. revert i. induction Hxs as [|x xs Hx Hxs IH]; intros i; [by rewrite !N.bits_0|].
  cbn [from_le_bytes]. rewrite byte_cons, N.lor_spec by done.
  destruct (Nat.lt_ge_cases i 8) as [Hi|Hi].
  - rewrite Nat.div_small, Nat.mod_small by done. rewrite N.shiftl_spec_low by lia. done.
  - rewrite N.shiftl_spec_high', (byte_testbit_high x), orb_false_r by (done || lia).
    change 8%N with (N.of_nat 8). rewrite <-Nat2N.inj_sub, IH.
    replace i with (i - 8 + 1 * 8) at 3 4 by lia.
    rewrite Nat.div_add, Nat.Div0.mod_add, Nat.add_1_r by done. done.
Qed.

Lemma land_bytes xs ms :
  Forall is_byte xs → Forall is_byte ms →
  N.land (from_le_bytes xs) (from_le_bytes ms) = from_le_bytes (zip_with N.land xs ms).
Proof.
  intros Hx Hm. assert (Hz : Forall is_byte (zip_with N.land xs ms)).
  { apply Forall_zip_with_fst with (P := is_byte); [done|]. apply Forall_true. intros m x Hb.
    unfold is_byte in *. eapply N.le_lt_trans; [|exact Hb]. apply N.land_le_l. }
  apply word_eq. intros i. rewrite N.land_spec, !testbit_bytes, lookup_zip_with by done.
  destruct (xs !! _), (ms !! _); simpl; rewrite <-?N.land_spec, ?N.land_0_l, ?N.land_0_r, ?N.bits_0; try done;
    by rewrite ?andb_false_r.
Qed.
(** A field that does not cross a byte. *)
Lemma field_bytes xs k j m :
  Forall is_byte xs → j ≤ 8 → (m < 2 ^ N.of_nat (8 - j))%N →
  N.land (N.shiftr (from_le_bytes xs) (N.of_nat (8 * k + j))) m =
  N.land (N.shiftr (default 0%N (xs !! k)) (N.of_nat j)) m.
Proof.
  intros Hx Hj Hm. apply word_eq. intros i. rewrite !N.land_spec, !N.shiftr_spec', <-!Nat2N.inj_add.
  destruct (Nat.lt_ge_cases i (8 - j)) as [Hi|Hi].
  - rewrite testbit_bytes by done. replace (i + (8 * k + j)) with (i + j + k * 8) by lia.
    rewrite Nat.div_add, Nat.Div0.mod_add, Nat.div_small, Nat.mod_small by lia. done.
  - rewrite <-(N.mod_small m (2 ^ N.of_nat (8 - j))) by done.
    rewrite !N.mod_pow2_bits_high by lia. by rewrite !andb_false_r.
Qed.

(** Shifting every byte, under masks that drop what crosses a byte. *)
Lemma shr_land_bytes xs j m :
  Forall is_byte xs → j ≤ 8 → (m < 2 ^ N.of_nat (8 - j))%N →
  N.land (N.shiftr (from_le_bytes xs) (N.of_nat j)) (from_le_bytes (replicate (length xs) m)) =
  from_le_bytes ((λ x, N.land (N.shiftr x (N.of_nat j)) m) <$> xs).
Proof.
  intros Hx Hj Hm.
  assert (Hm8 : is_byte m).
  { unfold is_byte. eapply N.lt_le_trans; [exact Hm|]. change 256%N with (2 ^ 8)%N.
    apply N.pow_le_mono_r; lia. }
  assert (Hz : Forall is_byte ((λ x, N.land (N.shiftr x (N.of_nat j)) m) <$> xs)).
  { apply Forall_fmap, Forall_true. intros x. unfold is_byte, compose.
    eapply N.le_lt_trans; [apply N.land_le_r|exact Hm8]. }
  assert (Hr : Forall is_byte (replicate (length xs) m)) by (by apply Forall_replicate).
  apply word_eq. intros i.
  rewrite N.land_spec, N.shiftr_spec', <-Nat2N.inj_add, !testbit_bytes, list_lookup_fmap by done.
  pose proof (Nat.div_mod_eq i 8). pose proof (Nat.mod_upper_bound i 8 ltac:(lia)) as Hu.
  destruct (Nat.lt_ge_cases (i / 8) (length xs)) as [Hi|Hi].
  - rewrite lookup_replicate_2 by done. destruct (lookup_lt_is_Some_2 xs _ Hi) as [x Ex]. rewrite Ex.
    cbn [fmap option_fmap option_map from_option id]. rewrite N.land_spec, N.shiftr_spec', <-Nat2N.inj_add.
    destruct (Nat.lt_ge_cases (i mod 8) (8 - j)) as [Hj'|Hj'].
    + replace (i + j) with (i mod 8 + j + (i / 8) * 8) by lia.
      rewrite Nat.div_add, Nat.Div0.mod_add, (Nat.div_small (_ + _)), (Nat.mod_small (_ + _)) by lia.
      by rewrite Nat.add_0_l, Ex.
    + rewrite <-(N.mod_small m (2 ^ N.of_nat (8 - j))) by done.
      rewrite !N.mod_pow2_bits_high by lia. by rewrite !andb_false_r.
  - rewrite (lookup_ge_None_2 (replicate _ _)), (lookup_ge_None_2 xs (i / 8)) by (rewrite ?length_replicate; done).
    cbn [fmap option_fmap option_map from_option id]. by rewrite !N.bits_0, andb_false_r.
Qed.

Lemma add_bytes xs ys :
  length xs = length ys →
  (from_le_bytes xs + from_le_bytes ys)%N = from_le_bytes (zip_with N.add xs ys).
Proof.
  revert ys. induction xs as [|x xs IH]; intros [|y ys]; try done. intros [= Hl].
  cbn [from_le_bytes zip_with]. rewrite <-IH by done. lia.
Qed.

Lemma sub_bytes xs ys :
  Forall2 N.le ys xs →
  (from_le_bytes ys <= from_le_bytes xs)%N ∧
  (from_le_bytes xs - from_le_bytes ys)%N = from_le_bytes (zip_with N.sub xs ys).
Proof.
  induction 1 as [|y x ys xs Hle H (IH1 & IH2)]; [done|]. cbn [from_le_bytes zip_with].
  rewrite <-IH2. lia.
Qed.

Section WidthFacts.
Context (bits : nat).

Lemma wrap_of_bits l : length l ≤ bits → wrap (N.of_nat bits) (of_bits l) = of_bits l.
Proof.
  intros H. apply wrap_small. eapply N.lt_le_trans; [apply of_bits_lt|].
  apply N.pow_le_mono_r; lia.
Qed.

(** Appending a word's bits above those of another. *)
Lemma lor_shl l k :
  length (l ++ k) ≤ bits → length l < bits →
  returns (shl bits (of_bits k) (length l)) (λ s, N.lor (of_bits l) s = of_bits (l ++ k)).
Proof.
  intros Hlen Hlt. unfold shl. apply Nat.ltb_lt in Hlt as ->. apply returns_Ret.
  rewrite shiftl_of_bits, wrap_of_bits; [apply lor_of_bits_app|].
  rewrite length_app, length_replicate. by rewrite length_app in Hlen.
Qed.

Lemma shr_of_bits l k : k < bits → shr bits (of_bits l) k = Ret (of_bits (drop k l)).
Proof. intros H. unfold shr. apply Nat.ltb_lt in H as ->. by rewrite shiftr_of_bits. Qed.

(** The mask of the bits below an offset. *)
Lemma of_bits_ones k : of_bits (replicate k true) = N.ones (N.of_nat k).
Proof.
  apply word_eq. intros i. rewrite testbit_of_bits. destruct (decide (i < k)).
  - by rewrite lookup_replicate_2, N.ones_spec_low by lia.
  - rewrite N.ones_spec_high by lia. by rewrite lookup_ge_None_2 by (rewrite length_replicate; lia).
Qed.

Lemma low_mask k :
  wrapping_sub bits (unbounded_shl bits 1 k) 1 = of_bits (replicate (Nat.min k bits) true).
Proof.
  rewrite of_bits_ones, N.ones_equiv. unfold wrapping_sub, unbounded_shl, wrap.
  destruct (decide (bits = 0)) as [->|Hb0].
  { simpl. rewrite Nat.min_0_r. simpl. by rewrite !N.mod_1_r. }
  assert (1 < 2 ^ N.of_nat bits)%N as H1.
  { replace (N.of_nat bits) with (N.succ (N.of_nat (bits - 1))) by lia. rewrite N.pow_succ_r'.
    pose proof (N.pow_nonzero 2 (N.of_nat (bits - 1))). lia. }
  rewrite (N.mod_small 1) by done. destruct (Nat.ltb_spec k bits) as [Hk|Hk].
  - rewrite Nat.min_l by lia. rewrite N.shiftl_mul_pow2, N.mul_1_l.
    assert (2 ^ N.of_nat k < 2 ^ N.of_nat bits)%N by (apply N.pow_lt_mono_r; lia).
    assert (0 < 2 ^ N.of_nat k)%N by (apply N.neq_0_lt_0, N.pow_nonzero; lia).
    rewrite (N.mod_small (2 ^ N.of_nat k)) by done.
    replace (2 ^ N.of_nat k + 2 ^ N.of_nat bits - 1)%N
      with (2 ^ N.of_nat k - 1 + 1 * 2 ^ N.of_nat bits)%N by lia.
    rewrite N.Div0.mod_add, N.mod_small by lia. lia.
  - rewrite Nat.min_r by lia. rewrite N.add_0_l, N.mod_small by lia. lia.
Qed.
End WidthFacts.
