(* ===== verification/Select.v ===== *)
(** * Selecting the n-th set bit

    Models [nth_set_bit] and [nth_set_bit_u64] of [crates/rope/src/chunk.rs]:
    a branchless search that halves the word, steered by the parallel bit
    counts of its halves, quarters, and so on.  The reference walks the bits. *)
From stdpp Require Import base numbers option list.
From Stdlib Require Import Lia.
From S2P Require Import Prelude Bits.

(** ** [u64] arithmetic *)
Definition u64_add (a b : N) : outcome N := if (a + b <=? U64_MAX)%N then Ret (a + b)%N else Panic.
Definition u64_sub (a b : N) : outcome N := if (b <=? a)%N then Ret (a - b)%N else Panic.
Definition u64_shr (a k : N) : outcome N := if (k <? 64)%N then Ret (N.shiftr a k) else Panic.

(** [u64::reverse_bits] *)
Fixpoint reverse_from (k : nat) (v : N) : N :=
  match k with
  | 0 => 0%N
  | S k => (N.b2n (N.testbit v 0) * 2 ^ N.of_nat k + reverse_from k (N.div2 v))%N
  end.
Definition reverse_bits (v : N) : N := reverse_from 64 v.

(** [s -= (t.wrapping_sub(n) & 256) >> k; n -= t & (t.wrapping_sub(n) >> 8);] *)
Definition select_step (k t s n : N) : outcome (N * N) :=
  let* s := u64_sub s (N.shiftr (N.land (wrapping_sub 64 t n) 256) k) in
  let* n := u64_sub n (N.land t (N.shiftr (wrapping_sub 64 t n) 8)) in
  Ret (s, n).

(** The counts of the pairs, nibbles, bytes and sixteen-bit groups. *)
Definition parallel_counts (v : N) : outcome (N * N * N * N) :=
  let* a := u64_sub v (N.land (N.shiftr v 1) (U64_MAX / 3)) in
  let* b := u64_add (N.land a (U64_MAX / 5)) (N.land (N.shiftr a 2) (U64_MAX / 5)) in
  let* c := u64_add b (N.shiftr b 4) in
  let c := N.land c (U64_MAX / 17) in
  let* d := u64_add c (N.shiftr c 8) in
  let d := N.land d (U64_MAX / 257) in
  Ret (a, b, c, d).

Definition nth_set_bit_u64 (v n : N) : outcome N :=
  let v := reverse_bits v in
  let s := 64%N in
  let* '(a, b, c, d) := parallel_counts v in
  let* t := u64_add (N.shiftr d 32) (N.shiftr d 48) in
  let* '(s, n) := select_step 3 t s n in
  let* k := u64_sub s 16 in
  let* t := u64_shr d k in
  let* '(s, n) := select_step 4 (N.land t 255) s n in
  let* k := u64_sub s 8 in
  let* t := u64_shr c k in
  let* '(s, n) := select_step 5 (N.land t 15) s n in
  let* k := u64_sub s 4 in
  let* t := u64_shr b k in
  let* '(s, n) := select_step 6 (N.land t 7) s n in
  let* k := u64_sub s 2 in
  let* t := u64_shr a k in
  let* '(s, n) := select_step 7 (N.land t 3) s n in
  let* k := u64_sub s 1 in
  let* t := u64_shr v k in
  let t := N.land t 1 in
  let* s := u64_sub s (N.shiftr (N.land (wrapping_sub 64 t n) 256) 8) in
  let* r := u64_sub 65 s in
  u64_sub r 1.

(** [nth_set_bit] on 128 bits. *)
Definition nth_set_bit (v : N) (n : nat) : outcome nat :=
  let low := wrap 64 v in
  let high := wrap 64 (N.shiftr v 64) in
  let low_count := count_ones low in
  if low_count <? n then
    let* r := nth_set_bit_u64 high (N.of_nat (n - low_count)) in Ret (64 + N.to_nat r)
  else
    let* r := nth_set_bit_u64 low (N.of_nat n) in Ret (N.to_nat r).

(** ** The reference *)
Fixpoint nth_one (l : list bool) (n : nat) : option nat :=
  match l with
  | [] => None
  | b :: l => if b then if n =? 1 then Some 0 else S <$> nth_one l (n - 1) else S <$> nth_one l n
  end.

Example nth_set_bit_u64_examples :
  (λ n, nth_set_bit_u64 0x8000000100F00081 n) <$> [1; 2; 3; 4; 5; 6; 7; 8]%N
  = Ret <$> [0; 7; 20; 21; 22; 23; 32; 63]%N.
Proof. vm_compute. reflexivity. Qed.

(** ** The parallel counts, byte by byte *)
Definition pair_counts (x : N) : N := (x - N.land (N.shiftr x 1) 85)%N.
Definition nibble_counts (x : N) : N := (N.land x 51 + N.land (N.shiftr x 2) 51)%N.
Definition byte_count (x : N) : N := N.land (x + N.shiftr x 4) 15.

(** A property of all bytes, checked one by one. *)
Lemma all_bytes (P : N → bool) :
  forallb P (N.of_nat <$> seq 0 256) = true → ∀ x, is_byte x → P x = true.
Proof.
  intros H x Hx. apply forallb_forall with (x := x) in H; [done|].
  apply list_elem_of_In, list_elem_of_fmap. exists (N.to_nat x). split; [lia|].
  apply elem_of_seq. unfold is_byte in Hx. lia.
Qed.

Definition small_nibbles (z : N) : Prop := (N.land z 15 <= 4 ∧ N.shiftr z 4 <= 4)%N.

Lemma pair_counts_le x : is_byte x → (N.land (N.shiftr x 1) 85 <= x)%N ∧ is_byte (pair_counts x).
Proof.
  intros Hx. apply (all_bytes (λ x, (N.land (N.shiftr x 1) 85 <=? x)%N && (pair_counts x <? 256)%N)) in Hx;
    [|by vm_compute]. apply andb_true_iff in Hx as [H1 H2]. apply N.leb_le in H1. by apply N.ltb_lt in H2.
Qed.
Lemma nibble_counts_small x :
  is_byte x → is_byte (nibble_counts (pair_counts x)) ∧ small_nibbles (nibble_counts (pair_counts x)).
Proof.
  intros Hx. apply (all_bytes (λ x, let z := nibble_counts (pair_counts x) in
    (z <? 256) && (N.land z 15 <=? 4) && (N.shiftr z 4 <=? 4))%N) in Hx; [|by vm_compute].
  apply andb_true_iff in Hx as [[H1 H2]%andb_true_iff H3]. apply N.ltb_lt in H1. apply N.leb_le in H2, H3.
  done.
Qed.
Lemma byte_count_ones x : is_byte x → byte_count (nibble_counts (pair_counts x)) = N.of_nat (count_ones x).
Proof.
  intros Hx. apply (all_bytes (λ x,
    (byte_count (nibble_counts (pair_counts x)) =? N.of_nat (count_ones x))%N)) in Hx; [|by vm_compute].
  by apply N.eqb_eq in Hx.
Qed.

Lemma count_ones_byte x : is_byte x → count_ones x ≤ 8.
Proof.
  intros Hx. apply (all_bytes (λ x, count_ones x <=? 8)) in Hx; [|by vm_compute]. by apply Nat.leb_le in Hx.
Qed.

(** Adding the nibbles of every byte; the sums of neighbours do not carry. *)
Lemma byte_sums zs :
  Forall (λ z, is_byte z ∧ small_nibbles z) zs →
  N.land (from_le_bytes zs + N.shiftr (from_le_bytes zs) 4) (from_le_bytes (replicate (length zs) 15%N))
  = from_le_bytes (byte_count <$> zs).
Proof.
  induction 1 as [|z zs [Hz [Hlo Hhi]] Hzs IH]; [done|].
  cbn [length replicate from_le_bytes fmap list_fmap].
  change (list_fmap N N byte_count zs) with (byte_count <$> zs).
  set (B := from_le_bytes zs) in *.
  assert (HB : (B mod 16 <= 4)%N).
  { subst B. destruct Hzs as [|y ys [Hy [Hylo _]] _]; [by vm_compute|]. cbn [from_le_bytes].
    replace (y + 256 * from_le_bytes ys)%N with (y + 16 * from_le_bytes ys * 16)%N by lia.
    rewrite N.Div0.mod_add. change 16%N with (2 ^ 4)%N. rewrite <-N.land_ones. done. }
  rewrite !N.shiftr_div_pow2 in *. change (2 ^ 4)%N with 16%N in *.
  assert (Ez : (z = 16 * (z / 16) + z mod 16)%N) by (apply N.div_mod; lia).
  assert (EB : (B = 16 * (B / 16) + B mod 16)%N) by (apply N.div_mod; lia).
  assert (Hlo' : (z mod 16 <= 4)%N).
  { change 16%N with (2 ^ 4)%N at 1. by rewrite <-N.land_ones. }
  replace ((z + 256 * B) / 16)%N with (z / 16 + 16 * B)%N.
  2:{ replace (z + 256 * B)%N with (z + 16 * B * 16)%N by lia. by rewrite N.div_add by lia. }
  replace (z + 256 * B + (z / 16 + 16 * B))%N
    with ((z + z / 16 + 16 * (B mod 16)) + 256 * (B + B / 16))%N by lia.
  set (low := (z + z / 16 + 16 * (B mod 16))%N).
  assert (Hlow : is_byte low) by (unfold is_byte; subst low; lia).
  rewrite land_cons, IH by (done || by vm_compute). f_equal. unfold byte_count. rewrite N.shiftr_div_pow2. change (2 ^ 4)%N with 16%N.
  change 15%N with (N.ones 4). rewrite !N.land_ones. change (2 ^ 4)%N with 16%N. subst low.
  rewrite (N.mul_comm 16 (B mod 16)). apply N.Div0.mod_add.
Qed.

Lemma bytes_le xs m :
  Forall (λ x, (x <= m)%N) xs → (from_le_bytes xs <= from_le_bytes (replicate (length xs) m))%N.
Proof. induction 1; cbn [from_le_bytes length replicate]; lia. Qed.

Lemma small_nibbles_le z : small_nibbles z → (z <= 68)%N.
Proof.
  intros [H1 H2]. pose proof (N.div_mod z 16 ltac:(lia)). rewrite N.shiftr_div_pow2 in H2.
  change 15%N with (N.ones 4) in H1. rewrite N.land_ones in H1. change (2 ^ 4)%N with 16%N in *. lia.
Qed.

Lemma u64_add_ok a b : (a + b <= U64_MAX)%N → u64_add a b = Ret (a + b)%N.
Proof. unfold u64_add. intros H. by apply N.leb_le in H as ->. Qed.
Lemma u64_sub_ok a b : (b <= a)%N → u64_sub a b = Ret (a - b)%N.
Proof. unfold u64_sub. intros H. by apply N.leb_le in H as ->. Qed.
Lemma u64_shr_ok a k : (k < 64)%N → u64_shr a k = Ret (N.shiftr a k).
Proof. unfold u64_shr. intros H. by apply N.ltb_lt in H as ->. Qed.

(** The counts of neighbouring bytes, in sixteen-bit fields. *)
Fixpoint join_pairs (ps : list N) : list N :=
  match ps with p :: q :: ps => (p + q)%N :: 0%N :: join_pairs ps | _ => ps end.

Lemma shiftr_byte x xs : is_byte x → N.shiftr (from_le_bytes (x :: xs)) 8 = from_le_bytes xs.
Proof.
  intros Hx. cbn [from_le_bytes]. rewrite N.shiftr_div_pow2. change (2 ^ 8)%N with 256%N.
  rewrite N.mul_comm, N.div_add by lia. unfold is_byte in Hx. by rewrite N.div_small.
Qed.

Definition ones_of (x : N) : N := N.of_nat (count_ones x).

Section Counts.
Context (xs : list N).
Hypothesis Hl : length xs = 8.
Hypothesis Hx : Forall is_byte xs.

Abbreviation nibbles := ((nibble_counts ∘ pair_counts) <$> xs).

Lemma pair_step :
  u64_sub (from_le_bytes xs) (N.land (N.shiftr (from_le_bytes xs) 1) (U64_MAX / 3)) =
  Ret (from_le_bytes (pair_counts <$> xs)).
Proof.
  change (U64_MAX / 3)%N with (from_le_bytes (replicate 8 85%N)).
  rewrite <-Hl. change 1%N with (N.of_nat 1). rewrite shr_land_bytes by (done || lia).
  assert (H2 : Forall2 N.le ((λ x, N.land (N.shiftr x (N.of_nat 1)) 85) <$> xs) xs).
  { apply Forall2_fmap_l, Forall_Forall2_diag. eapply Forall_impl; [exact Hx|].
    intros x Hb. by apply pair_counts_le. }
  destruct (sub_bytes _ _ H2) as [Hle Hsub]. rewrite u64_sub_ok, Hsub by done. do 2 f_equal.
  clear. induction xs as [|x l IH]; [done|]. csimpl. by rewrite IH.
Qed.

Lemma nibbles_small : Forall (λ z, is_byte z ∧ small_nibbles z) nibbles.
Proof. apply Forall_fmap. eapply Forall_impl; [exact Hx|]. intros x Hb. by apply nibble_counts_small. Qed.

Lemma nibbles_le : (from_le_bytes nibbles <= 4919131752989213764)%N.
Proof.
  change 4919131752989213764%N with (from_le_bytes (replicate 8 68%N)).
  rewrite <-Hl, <-(length_fmap (nibble_counts ∘ pair_counts) xs). apply bytes_le.
  eapply Forall_impl; [exact nibbles_small|]. intros z [_ Hz]. by apply small_nibbles_le.
Qed.

Lemma nibble_step :
  u64_add (N.land (from_le_bytes (pair_counts <$> xs)) (U64_MAX / 5))
    (N.land (N.shiftr (from_le_bytes (pair_counts <$> xs)) 2) (U64_MAX / 5)) = Ret (from_le_bytes nibbles).
Proof.
  change (U64_MAX / 5)%N with (from_le_bytes (replicate 8 51%N)).
  assert (Ha : Forall is_byte (pair_counts <$> xs)).
  { apply Forall_fmap. eapply Forall_impl; [exact Hx|]. intros x Hb. by apply pair_counts_le. }
  assert (Eb : (N.land (from_le_bytes (pair_counts <$> xs)) (from_le_bytes (replicate 8 51)) +
      N.land (N.shiftr (from_le_bytes (pair_counts <$> xs)) 2) (from_le_bytes (replicate 8 51)))%N =
    from_le_bytes nibbles).
  { rewrite <-Hl, <-(length_fmap pair_counts xs). change 2%N with (N.of_nat 2).
    rewrite shr_land_bytes by (done || lia).
    rewrite land_bytes by (done || (apply Forall_replicate; by vm_compute)).
    rewrite add_bytes by (rewrite length_zip_with, length_replicate, !length_fmap; lia). f_equal.
    clear. induction xs as [|x l IH]; [done|]. csimpl. by rewrite IH. }
  rewrite u64_add_ok, Eb; [done|]. pose proof nibbles_le. unfold U64_MAX. lia.
Qed.

Lemma byte_step :
  (let* c := u64_add (from_le_bytes nibbles) (N.shiftr (from_le_bytes nibbles) 4) in
   Ret (N.land c (U64_MAX / 17))) = Ret (from_le_bytes (ones_of <$> xs)).
Proof.
  change (U64_MAX / 17)%N with (from_le_bytes (replicate 8 15%N)).
  rewrite u64_add_ok.
  2:{ rewrite N.shiftr_div_pow2. change (2 ^ 4)%N with 16%N.
      pose proof (N.Div0.div_le_mono _ _ 16 nibbles_le).
      change (4919131752989213764 / 16)%N with 307445734561825860%N in *.
      pose proof nibbles_le. unfold U64_MAX. lia. }
  rewrite <-Hl, <-(length_fmap (nibble_counts ∘ pair_counts) xs), byte_sums by apply nibbles_small.
  do 2 f_equal. rewrite <-list_fmap_compose. apply list_fmap_ext. intros i x Hi. unfold ones_of. simpl.
  apply byte_count_ones. by eapply Forall_lookup_1.
Qed.

Lemma ones_of_le : Forall (λ p, (p <= 8)%N) (ones_of <$> xs).
Proof.
  apply Forall_fmap. eapply Forall_impl; [exact Hx|]. intros x Hx8. unfold ones_of. simpl.
  pose proof (count_ones_byte x Hx8). lia.
Qed.

Lemma group_step :
  (let* d := u64_add (from_le_bytes (ones_of <$> xs)) (N.shiftr (from_le_bytes (ones_of <$> xs)) 8) in
   Ret (N.land d (U64_MAX / 257))) = Ret (from_le_bytes (join_pairs (ones_of <$> xs))).
Proof.
  change (U64_MAX / 257)%N with (from_le_bytes [255; 0; 255; 0; 255; 0; 255; 0]%N).
  pose proof ones_of_le as H8. revert Hl H8. generalize xs as l. intros l Hl8 H8.
  do 8 (destruct l as [|? l]; [done|]). destruct l; [|done].
  cbn [fmap list_fmap] in *. rewrite !Forall_cons in H8. destruct H8 as (? & ? & ? & ? & ? & ? & ? & ? & _).
  rewrite shiftr_byte by (unfold is_byte; lia).
  rewrite u64_add_ok by (cbn [from_le_bytes]; unfold U64_MAX; lia).
  do 2 f_equal. cbn [join_pairs].
  set (l1 := ones_of n :: _). set (l2 := ones_of n0 :: _ :: _).
  replace (from_le_bytes l2) with (from_le_bytes (l2 ++ [0%N]))
    by (rewrite from_le_bytes_app; cbn [from_le_bytes]; lia).
  rewrite add_bytes by done. subst l1 l2. cbn [zip_with app].
  rewrite land_bytes by (rewrite !Forall_cons; unfold is_byte; repeat split; (lia || done)).
  cbn [zip_with]. rewrite !N.land_0_r. change 255%N with (N.ones 8). rewrite !N.land_ones.
  by rewrite !N.mod_small by (change (2 ^ 8)%N with 256%N; lia).
Qed.

Lemma parallel_counts_spec :
  parallel_counts (from_le_bytes xs) =
  Ret (from_le_bytes (pair_counts <$> xs), from_le_bytes nibbles,
       from_le_bytes (ones_of <$> xs), from_le_bytes (join_pairs (ones_of <$> xs))).
Proof.
  unfold parallel_counts. rewrite pair_step, nibble_step.
  pose proof byte_step as Hc. destruct (u64_add (from_le_bytes nibbles) _); [|done..].
  injection Hc as ->. pose proof group_step as Hd. destruct (u64_add _ _); [|done..]. by injection Hd as ->.
Qed.
End Counts.

(** ** Words, their bytes and their bits *)
Lemma reverse_from_spec l : reverse_from (length l) (of_bits l) = of_bits (rev l).
Proof.
  induction l as [|b l IH]; [done|]. cbn [length reverse_from rev]. rewrite of_bits_app, length_rev.
  assert (E : N.testbit (of_bits (b :: l)) 0 = b ∧ N.div2 (of_bits (b :: l)) = of_bits l).
  { destruct b; cbn [of_bits]; by destruct (of_bits l). }
  destruct E as [-> ->]. rewrite IH. destruct b; cbn [of_bits N.b2n]; simpl N.double; lia.
Qed.

Fixpoint bytes_of (n : nat) (l : list bool) : list N :=
  match n with 0 => [] | S n => of_bits (take 8 l) :: bytes_of n (drop 8 l) end.

Lemma bytes_of_spec n l : length l = 8 * n → from_le_bytes (bytes_of n l) = of_bits l.
Proof.
  revert l. induction n as [|n IH]; intros l Hl; [by destruct l|]. cbn [bytes_of from_le_bytes].
  rewrite IH by (rewrite length_drop; lia). rewrite <-(take_drop 8 l) at 3.
  rewrite of_bits_app, length_take, Nat.min_l by lia. done.
Qed.

Lemma length_bytes_of n l : length (bytes_of n l) = n.
Proof. revert l. induction n; intros l; simpl; auto. Qed.

Lemma of_bits_byte l : length l ≤ 8 → is_byte (of_bits l).
Proof.
  intros Hl. unfold is_byte. eapply N.lt_le_trans; [apply of_bits_lt|].
  change 256%N with (2 ^ N.of_nat 8)%N. apply N.pow_le_mono_r; lia.
Qed.

Lemma bytes_of_is_byte n l : Forall is_byte (bytes_of n l).
Proof.
  revert l. induction n as [|n IH]; intros l; constructor; [|apply IH].
  apply of_bits_byte. rewrite length_take. lia.
Qed.

Lemma bytes_of_lookup n l k : k < n → bytes_of n l !! k = Some (of_bits (take 8 (drop (8 * k) l))).
Proof.
  revert l k. induction n as [|n IH]; intros l k Hk; [lia|]. destruct k as [|k]; [done|].
  cbn [bytes_of lookup list_lookup]. change (list_lookup k (bytes_of n (drop 8 l))) with (bytes_of n (drop 8 l) !! k).
  rewrite IH, drop_drop by lia. do 4 f_equal. lia.
Qed.

Lemma shiftr_bytes k ys :
  Forall is_byte ys → N.shiftr (from_le_bytes ys) (N.of_nat (8 * k)) = from_le_bytes (drop k ys).
Proof.
  intros Hy. apply word_eq. intros i. rewrite N.shiftr_spec', <-Nat2N.inj_add.
  rewrite !testbit_bytes, lookup_drop by (done || by apply Forall_drop).
  replace (i + 8 * k) with (i + k * 8) by lia. rewrite Nat.div_add, Nat.Div0.mod_add, Nat.add_comm by done.
  done.
Qed.

(** ** The fields of a byte count its bits *)
Definition to_bits (x : N) : list bool := (λ i, N.testbit x (N.of_nat i)) <$> seq 0 8.

Lemma to_of_bits m : length m = 8 → to_bits (of_bits m) = m.
Proof.
  intros Hm. apply list_eq. intros i. unfold to_bits. rewrite list_lookup_fmap.
  destruct (Nat.lt_ge_cases i 8) as [Hi|Hi].
  - rewrite lookup_seq_lt by done. simpl. rewrite testbit_of_bits.
    by destruct (lookup_lt_is_Some_2 m i) as [x ->]; [lia|].
  - rewrite !lookup_ge_None_2 by (rewrite ?length_seq; lia). done.
Qed.

Definition fields_ok (x : N) : bool :=
  forallb (λ j, (N.land (N.shiftr (nibble_counts (pair_counts x)) (N.of_nat (4 * j))) 7 =?
                 N.of_nat (ones (take 4 (drop (4 * j) (to_bits x)))))%N) [0; 1] &&
  forallb (λ j, (N.land (N.shiftr (pair_counts x) (N.of_nat (2 * j))) 3 =?
                 N.of_nat (ones (take 2 (drop (2 * j) (to_bits x)))))%N) [0; 1; 2; 3] &&
  forallb (λ j, (N.land (N.shiftr x (N.of_nat j)) 1 =?
                 N.of_nat (ones (take 1 (drop j (to_bits x)))))%N) (seq 0 8).

Lemma fields_ok_all x : is_byte x → fields_ok x = true.
Proof. apply all_bytes. by vm_compute. Qed.

Lemma byte_fields m :
  length m = 8 →
  (∀ j, j < 2 → N.land (N.shiftr (nibble_counts (pair_counts (of_bits m))) (N.of_nat (4 * j))) 7 =
     N.of_nat (ones (take 4 (drop (4 * j) m)))) ∧
  (∀ j, j < 4 → N.land (N.shiftr (pair_counts (of_bits m)) (N.of_nat (2 * j))) 3 =
     N.of_nat (ones (take 2 (drop (2 * j) m)))) ∧
  (∀ j, j < 8 → N.land (N.shiftr (of_bits m) (N.of_nat j)) 1 = N.of_nat (ones (take 1 (drop j m)))).
Proof.
  intros Hm. pose proof (fields_ok_all (of_bits m) (of_bits_byte m ltac:(lia))) as H.
  unfold fields_ok in H. rewrite to_of_bits in H by done.
  apply andb_true_iff in H as [[H1 H2]%andb_true_iff H3].
  rewrite forallb_forall in H1, H2, H3.
  split_and!; intros j Hj; apply N.eqb_eq; [apply H1|apply H2|apply H3];
    apply list_elem_of_In; [change [0; 1] with (seq 0 2)|change [0; 1; 2; 3] with (seq 0 4)|];
    apply elem_of_seq; lia.
Qed.

(** ** The search *)
Lemma nth_one_app a b n :
  1 ≤ n →
  nth_one (a ++ b) n = if n <=? ones a then nth_one a n else (λ i, length a + i) <$> nth_one b (n - ones a).
Proof.
  revert n. induction a as [|x a IH]; intros n Hn.
  - change (ones []) with 0. destruct (Nat.leb_spec n 0); [lia|]. simpl. rewrite Nat.sub_0_r.
    by destruct (nth_one b n).
  - rewrite ones_cons. cbn [app nth_one]. destruct x.
    + destruct (Nat.eqb_spec n 1) as [->|Hn1]; [done|]. rewrite IH by lia.
      destruct (Nat.leb_spec (n - 1) (ones a)), (Nat.leb_spec n (1 + ones a)); try lia; [done|].
      replace (n - (1 + ones a)) with (n - 1 - ones a) by lia. by destruct (nth_one b _).
    + rewrite IH by done. simpl. destruct (n <=? ones a); [done|]. by destruct (nth_one b _).
Qed.

Lemma ones_rev l : ones (rev l) = ones l.
Proof.
  induction l as [|b l IH]; [done|]. cbn [rev]. rewrite ones_app, IH, ones_cons.
  destruct b; cbn; fold (ones l); lia.
Qed.

Lemma ones_window l s h :
  h ≤ s → s ≤ length l →
  ones (take h (drop (s - h) (rev l))) = ones (take h (drop (length l - s) l)).
Proof.
  intros Hh Hs. rewrite skipn_rev, firstn_rev, ones_rev, length_take.
  f_equal. rewrite skipn_firstn_comm. f_equal; [lia|]. f_equal. lia.
Qed.

Section Search.
Context (l : list bool) (n0 : nat).
Hypothesis Hlen : length l = 64.

(** The bit sought is the [n]-th of the [w] bits that end below position [s]
    of the reversed word. *)
Definition sought (w s n : nat) : Prop :=
  (w | s) ∧ w ≤ s ≤ 64 ∧ 1 ≤ n ≤ ones (take w (drop (64 - s) l)) ∧
  nth_one l n0 = (λ i, 64 - s + i) <$> nth_one (drop (64 - s) l) n.

Definition half_count (h s : nat) : nat := ones (take h (drop (64 - s) l)).

Lemma sought_half h s n :
  0 < h → sought (2 * h) s n →
  let t := half_count h s in
  sought h (if t <? n then s - h else s) (if t <? n then n - t else n).
Proof.
  intros Hh (Hd & Hs & Hn & E). unfold half_count. cbn zeta.
  assert (Hd' : (h | s)) by (eapply Nat.divide_trans; [|exact Hd]; by exists 2).
  set (m := drop (64 - s) l) in *.
  assert (Hm : length m = s) by (subst m; rewrite length_drop; lia).
  assert (Et : ones (take (2 * h) m) = ones (take h m) + ones (take h (drop h m))).
  { replace (2 * h) with (h + h) by lia. by rewrite <-take_take_drop, ones_app. }
  destruct (Nat.ltb_spec (ones (take h m)) n) as [Hlt|Hge].
  - unfold sought. replace (64 - (s - h)) with (64 - s + h) by lia. rewrite <-drop_drop. fold m.
    split_and!; [by apply Nat.divide_sub_r|lia|lia|lia|lia|].
    rewrite E. rewrite <-(take_drop h m) at 1. rewrite nth_one_app by lia.
    destruct (Nat.leb_spec n (ones (take h m))); [lia|].
    rewrite length_take, Nat.min_l by lia. destruct (nth_one (drop h m) _); simpl; [|done]. f_equal. lia.
  - unfold sought. fold m. split_and!; (done || lia).
Qed.

Lemma sought_one s n : sought 1 s n → nth_one l n0 = Some (64 - s).
Proof.
  intros (_ & Hs & Hn & ->). destruct (drop (64 - s) l) as [|b m]; [cbn in Hn; lia|].
  cbn [take] in Hn. rewrite take_0, ones_cons in Hn. change (ones []) with 0 in Hn.
  destruct b; [|lia]. assert (n = 1) as -> by lia. simpl. f_equal. lia.
Qed.
End Search.

(** ** The arithmetic of a step *)
Definition step_ok (t g n : nat) : bool :=
  let w := (N.of_nat t + 65536 * N.of_nat g)%N in
  let d := wrapping_sub 64 w (N.of_nat n) in
  (N.land d 256 =? N.of_nat (if (t <? n)%nat then 256 else 0)%nat)%N &&
  (N.land w (N.shiftr d 8) =? N.of_nat (if (t <? n)%nat then t else 0)%nat)%N.

Lemma step_ok_all t g n : t ≤ 32 → g ≤ 16 → n ≤ 64 → step_ok t g n = true.
Proof.
  intros Ht Hg Hn.
  assert (H : forallb (λ t, forallb (λ g, forallb (step_ok t g) (seq 0 65)) (seq 0 17)) (seq 0 33) = true)
    by (vm_compute; reflexivity).
  rewrite forallb_forall in H. specialize (H t (proj2 (in_seq 33 0 t) ltac:(lia))).
  rewrite forallb_forall in H. specialize (H g (proj2 (in_seq 17 0 g) ltac:(lia))).
  rewrite forallb_forall in H. by apply H, in_seq; lia.
Qed.

Lemma select_step_spec k h t g s n :
  t ≤ 32 → g ≤ 16 → n ≤ 64 → N.shiftr 256 k = N.of_nat h → h ≤ s →
  select_step k (N.of_nat t + 65536 * N.of_nat g) (N.of_nat s) (N.of_nat n) =
  Ret (N.of_nat (if t <? n then s - h else s), N.of_nat (if t <? n then n - t else n)).
Proof.
  intros Ht Hg Hn Hk Hs. pose proof (step_ok_all t g n Ht Hg Hn) as H.
  apply andb_true_iff in H as [H1%N.eqb_eq H2%N.eqb_eq]. unfold select_step. rewrite H1, H2.
  destruct (Nat.ltb_spec t n).
  - change (N.of_nat 256) with 256%N. rewrite Hk, !u64_sub_ok by lia. by rewrite <-!Nat2N.inj_sub.
  - change (N.of_nat 0) with 0%N. rewrite N.shiftr_0_l, !u64_sub_ok by lia. by rewrite !N.sub_0_r.
Qed.

(** ** The fields that steer the search *)
Lemma join_pairs_lookup ps i :
  2 * i + 1 < length ps →
  join_pairs ps !! (2 * i) = Some (N.add (default 0%N (ps !! (2 * i))) (default 0%N (ps !! (2 * i + 1)))).
Proof.
  revert ps. induction i as [|i IH]; intros [|p [|q ps]] Hl; cbn [length] in Hl; try lia; [done|].
  cbn [join_pairs]. replace (2 * S i) with (S (S (2 * i))) by lia. cbn [lookup list_lookup Nat.add].
  change (list_lookup (2 * i) (join_pairs ps)) with (join_pairs ps !! (2 * i)). by rewrite IH by lia.
Qed.

Section Fields.
Context (l : list bool).
Hypothesis Hlen : length l = 64.

Abbreviation word := (bytes_of 8 (rev l)).

Lemma window_split a b s :
  a + b ≤ s → s ≤ 64 → half_count l (a + b) s = half_count l a s + half_count l b (s - a).
Proof.
  intros H Hs. unfold half_count. rewrite <-take_take_drop, ones_app, drop_drop. do 4 f_equal. lia.
Qed.

(** [h] bits of a byte of the reversed word are [h] bits of the word. *)
Lemma byte_window h k j :
  j + h ≤ 8 → k < 8 →
  ones (take h (drop j (take 8 (drop (8 * k) (rev l))))) = half_count l h (8 * k + j + h).
Proof.
  intros Hj Hk. unfold half_count. rewrite skipn_firstn_comm, take_take, drop_drop, Nat.min_l by lia.
  rewrite <-Hlen, <-ones_window by lia. do 3 f_equal. lia.
Qed.

Lemma byte_bits k : k < 8 → length (take 8 (drop (8 * k) (rev l))) = 8.
Proof. intros Hk. rewrite length_take, length_drop, length_rev. lia. Qed.

Lemma byte_ones k : k < 8 → default 0%N ((ones_of <$> word) !! k) = N.of_nat (half_count l 8 (8 * (k + 1))).
Proof.
  intros Hk. rewrite list_lookup_fmap, bytes_of_lookup by done.
  cbn [fmap option_fmap option_map from_option id]. unfold ones_of. rewrite count_ones_of_bits.
  f_equal.
  pose proof (byte_window 8 k 0 ltac:(lia) Hk) as E. rewrite drop_0, take_take, Nat.min_id in E.
  rewrite E. f_equal. lia.
Qed.

Lemma half_count_le h s : half_count l h s ≤ h.
Proof. clear Hlen. unfold half_count. etrans; [apply ones_le|]. rewrite length_take. lia. Qed.

Lemma field_8 s :
  (8 | s) → 8 ≤ s ≤ 64 →
  N.land (N.shiftr (from_le_bytes (ones_of <$> word)) (N.of_nat (s - 8))) 15 = N.of_nat (half_count l 8 s).
Proof.
  intros [k ->] Hs. replace (k * 8 - 8) with (8 * (k - 1) + 0) by lia.
  rewrite field_bytes; [|eapply Forall_impl; [apply ones_of_le; [apply length_bytes_of|apply bytes_of_is_byte]|unfold is_byte; lia]|lia|done].
  rewrite byte_ones, N.shiftr_0_r by lia. replace (8 * (k - 1 + 1)) with (k * 8) by lia.
  pose proof (half_count_le 8 (k * 8)). change 15%N with (N.ones 4). rewrite N.land_ones.
  apply N.mod_small. change (2 ^ 4)%N with 16%N. lia.
Qed.

Lemma nibbles_window k :
  k < 8 → default 0%N (word !! k) = of_bits (take 8 (drop (8 * k) (rev l))).
Proof. intros Hk. by rewrite bytes_of_lookup. Qed.

Lemma split_field h s :
  (h | s) → (h | 8) → 0 < h → h ≤ s ≤ 64 →
  ∃ k j, s - h = 8 * k + h * j ∧ s = 8 * k + h * j + h ∧ k < 8 ∧ h * j + h ≤ 8.
Proof.
  intros [a ->] [b Hb] Hh Hs. exists ((a - 1) / b), ((a - 1) mod b).
  assert (b ≠ 0) by lia. pose proof (Nat.div_mod_eq (a - 1) b). pose proof (Nat.mod_upper_bound (a - 1) b ltac:(lia)).
  assert (1 ≤ a) by nia. assert ((a - 1) / b < 8) by (apply Nat.Div0.div_lt_upper_bound; nia).
  nia.
Qed.

Lemma field_4 s :
  (4 | s) → 4 ≤ s ≤ 64 →
  N.land (N.shiftr (from_le_bytes ((nibble_counts ∘ pair_counts) <$> word)) (N.of_nat (s - 4))) 7 =
  N.of_nat (half_count l 4 s).
Proof.
  intros Hd Hs. destruct (split_field 4 s Hd ltac:(by exists 2)) as (k & j & -> & -> & Hk & Hj); [lia..|].
  rewrite field_bytes; [|apply Forall_fmap; eapply Forall_impl; [apply bytes_of_is_byte|]|lia|].
  - rewrite list_lookup_fmap, bytes_of_lookup by done. cbn [fmap option_fmap option_map from_option id].
    destruct (byte_fields _ (byte_bits k Hk)) as (H4 & _ & _). rewrite <-byte_window by lia. by apply H4; lia.
  - intros x Hx. by apply nibble_counts_small.
  - assert (j = 0 ∨ j = 1) as [->| ->] by lia; by vm_compute.
Qed.

Lemma field_2 s :
  (2 | s) → 2 ≤ s ≤ 64 →
  N.land (N.shiftr (from_le_bytes (pair_counts <$> word)) (N.of_nat (s - 2))) 3 =
  N.of_nat (half_count l 2 s).
Proof.
  intros Hd Hs. destruct (split_field 2 s Hd ltac:(by exists 4)) as (k & j & -> & -> & Hk & Hj); [lia..|].
  rewrite field_bytes; [|apply Forall_fmap; eapply Forall_impl; [apply bytes_of_is_byte|]|lia|].
  - rewrite list_lookup_fmap, bytes_of_lookup by done. cbn [fmap option_fmap option_map from_option id].
    destruct (byte_fields _ (byte_bits k Hk)) as (_ & H2 & _). rewrite <-byte_window by lia. by apply H2; lia.
  - intros x Hx. by apply pair_counts_le.
  - assert (j = 0 ∨ j = 1 ∨ j = 2 ∨ j = 3) as [->|[->|[->| ->]]] by lia; by vm_compute.
Qed.

Lemma field_1 s :
  1 ≤ s ≤ 64 →
  N.land (N.shiftr (from_le_bytes word) (N.of_nat (s - 1))) 1 = N.of_nat (half_count l 1 s).
Proof.
  intros Hs. destruct (split_field 1 s ltac:(by exists s; lia) ltac:(by exists 8))
    as (k & j & -> & -> & Hk & Hj); [lia..|]. rewrite Nat.mul_1_l in *.
  rewrite field_bytes; [|apply bytes_of_is_byte|lia|].
  - rewrite nibbles_window by done. destruct (byte_fields _ (byte_bits k Hk)) as (_ & _ & H1).
    rewrite <-byte_window by lia. by apply H1; lia.
  - change 1%N with (2 ^ 0)%N. apply N.pow_lt_mono_r; lia.
Qed.

Lemma groups_are_bytes : Forall is_byte (join_pairs (ones_of <$> word)).
Proof.
  pose proof (ones_of_le word (length_bytes_of _ _) (bytes_of_is_byte _ _)) as H. pose proof (length_bytes_of 8 (rev l)) as Hw.
  rewrite <-(length_fmap ones_of) in Hw. revert Hw H. generalize (ones_of <$> word) as ps. intros ps Hw H.
  do 8 (destruct ps as [|? ps]; [done|]). destruct ps; [|done]. cbn [join_pairs].
  rewrite !Forall_cons in *. unfold is_byte. destruct_and!. split_and!; (lia || done).
Qed.

Lemma group_lookup i :
  i < 4 → default 0%N (join_pairs (ones_of <$> word) !! (2 * i)) = N.of_nat (half_count l 16 (16 * (i + 1))).
Proof.
  intros Hi. rewrite join_pairs_lookup by (rewrite length_fmap, length_bytes_of; lia).
  cbn [from_option id]. rewrite !byte_ones by lia. rewrite <-Nat2N.inj_add. f_equal.
  change (half_count l 16) with (half_count l (8 + 8)). rewrite window_split by lia.
  replace (16 * (i + 1) - 8) with (8 * (2 * i + 1)) by lia.
  replace (16 * (i + 1)) with (8 * (2 * i + 1 + 1)) by lia. lia.
Qed.

Lemma field_16 s :
  (16 | s) → 16 ≤ s ≤ 64 →
  N.land (N.shiftr (from_le_bytes (join_pairs (ones_of <$> word))) (N.of_nat (s - 16))) 255 =
  N.of_nat (half_count l 16 s).
Proof.
  intros [k ->] Hs. replace (k * 16 - 16) with (8 * (2 * (k - 1)) + 0) by lia.
  rewrite field_bytes by (apply groups_are_bytes || lia || done).
  rewrite group_lookup, N.shiftr_0_r by lia. replace (16 * (k - 1 + 1)) with (k * 16) by lia.
  pose proof (half_count_le 16 (k * 16)). change 255%N with (N.ones 8). rewrite N.land_ones.
  apply N.mod_small. change (2 ^ 8)%N with 256%N. lia.
Qed.

(** The upper half of the reversed word: its two group counts, the higher one
    left in the bits that the steps ignore. *)
Lemma field_32 :
  let d := from_le_bytes (join_pairs (ones_of <$> word)) in
  (N.shiftr d 32 + N.shiftr d 48)%N =
  (N.of_nat (half_count l 32 64) + 65536 * N.of_nat (half_count l 16 64))%N.
Proof.
  cbn zeta. change 32%N with (N.of_nat (8 * 4)). change 48%N with (N.of_nat (8 * 6)).
  rewrite !shiftr_bytes by apply groups_are_bytes.
  change (half_count l 32) with (half_count l (16 + 16)). rewrite window_split by lia. change (64 - 16) with 48.
  pose proof (group_lookup 2 ltac:(lia)) as E2. pose proof (group_lookup 3 ltac:(lia)) as E3.
  pose proof (length_bytes_of 8 (rev l)) as Hw. rewrite <-(length_fmap ones_of) in Hw.
  revert Hw E2 E3. generalize (ones_of <$> word) as ps. intros ps Hw.
  do 8 (destruct ps as [|? ps]; [done|]). destruct ps; [|done]. cbn [join_pairs].
  change (2 * 2) with 4. change (2 * 3) with 6. cbn [lookup list_lookup from_option id drop skipn from_le_bytes].
  change (16 * (2 + 1)) with 48. change (16 * (3 + 1)) with 64. lia.
Qed.
End Fields.

(** ** The selection is the walk *)
Section Chain.
Context (l : list bool) (n0 : nat).
Hypothesis Hlen : length l = 64.
Hypothesis Hn0 : 1 ≤ n0 ≤ ones l.

Lemma sought_start : sought l n0 (2 * 32) 64 n0.
Proof.
  unfold sought. change (64 - 64) with 0. rewrite drop_0, take_ge by lia.
  split_and!; [by exists 1|lia..| |by destruct (nth_one l n0)]. lia.
Qed.

Lemma sought_le w s n : sought l n0 w s n → 1 ≤ n ≤ 64 ∧ s ≤ 64 ∧ w ≤ s ∧ (w | s).
Proof.
  intros (Hd & Hs & Hn & _). pose proof (ones_le (take w (drop (64 - s) l))) as H.
  rewrite length_take in H. split_and!; (lia || done).
Qed.

(** A step with a field that counts the half searched. *)
Lemma search_step k h t g s n :
  N.shiftr 256 k = N.of_nat h → 0 < h ≤ 32 → g ≤ 16 →
  t = (N.of_nat (half_count l h s) + 65536 * N.of_nat g)%N →
  sought l n0 (2 * h) s n →
  ∃ s' n', select_step k t (N.of_nat s) (N.of_nat n) = Ret (N.of_nat s', N.of_nat n') ∧ sought l n0 h s' n'.
Proof.
  intros Hk Hh Hg -> Hsn. destruct (sought_le _ _ _ Hsn) as (Hn & Hs & Hw & _).
  pose proof (half_count_le l h s). rewrite (select_step_spec k h) by (done || lia).
  eexists _, _. split; [done|]. apply sought_half; (done || lia).
Qed.

Lemma search_field k h hN w m s n :
  hN = N.of_nat h → N.shiftr 256 k = hN → 0 < h ≤ 32 →
  (∀ s, (h | s) → h ≤ s ≤ 64 → N.land (N.shiftr w (N.of_nat (s - h))) m = N.of_nat (half_count l h s)) →
  sought l n0 (2 * h) s n →
  ∃ r t s' n',
    u64_sub (N.of_nat s) hN = Ret r ∧ u64_shr w r = Ret t ∧
    select_step k (N.land t m) (N.of_nat s) (N.of_nat n) = Ret (N.of_nat s', N.of_nat n') ∧
    sought l n0 h s' n'.
Proof.
  intros -> Hk Hh Hw Hsn. destruct (sought_le _ _ _ Hsn) as (Hn & Hs & Hws & Hd).
  exists (N.of_nat (s - h)), (N.shiftr w (N.of_nat (s - h))). rewrite u64_sub_ok, <-Nat2N.inj_sub by lia.
  assert (Hd' : (h | s)) by (eapply Nat.divide_trans; [|exact Hd]; by exists 2).
  destruct (search_step k h (N.of_nat (half_count l h s) + 65536 * N.of_nat 0) 0 s n) as (s' & n' & E & H); try (done || lia).
  exists s', n'. rewrite u64_shr_ok by lia. split_and!; [done..| |done].
  rewrite Hw by (done || lia). rewrite N.add_0_r in E. exact E.
Qed.

(** For every word and every [n] up to its bits set. *)
Lemma nth_set_bit_u64_spec :
  ∃ i, nth_one l n0 = Some i ∧ nth_set_bit_u64 (of_bits l) (N.of_nat n0) = Ret (N.of_nat i).
Proof.
  pose proof (length_bytes_of 8 (rev l)) as Hw. unfold nth_set_bit_u64. cbn zeta.
  assert (Er : reverse_bits (of_bits l) = of_bits (rev l)) by (rewrite <-reverse_from_spec, Hlen; done).
  rewrite Er, <-(bytes_of_spec 8 (rev l)) by (rewrite length_rev; lia).
  rewrite parallel_counts_spec by (done || apply bytes_of_is_byte).
  rewrite u64_add_ok, field_32 by
    (rewrite ?field_32 by done; pose proof (half_count_le l 32 64); pose proof (half_count_le l 16 64);
     unfold U64_MAX; lia || done).
  destruct (search_step 3 32 _ (half_count l 16 64) 64 n0 eq_refl ltac:(lia) (half_count_le l 16 64) eq_refl sought_start)
    as (s1 & n1 & E1 & H1). change 64%N with (N.of_nat 64). rewrite E1. clear E1.
  edestruct (search_field 4 16 16%N) as (r2 & t2 & s2 & n2 & -> & -> & -> & H2);
    [done..|lia|apply (field_16 l Hlen)|exact H1|].
  edestruct (search_field 5 8 8%N) as (r3 & t3 & s3 & n3 & -> & -> & -> & H3);
    [done..|lia|apply (field_8 l Hlen)|exact H2|].
  edestruct (search_field 6 4 4%N) as (r4 & t4 & s4 & n4 & -> & -> & -> & H4);
    [done..|lia|apply (field_4 l Hlen)|exact H3|].
  edestruct (search_field 7 2 2%N) as (r5 & t5 & s5 & n5 & -> & -> & -> & H5);
    [done..|lia|apply (field_2 l Hlen)|exact H4|].
  edestruct (search_field 8 1 1%N) as (r6 & t6 & s6 & n6 & -> & -> & E6 & H6);
    [done..|lia|intros s _; apply (field_1 l Hlen)|exact H5|].
  unfold select_step in E6. destruct (u64_sub (N.of_nat s5) _) as [s6'| |]; [|done..].
  destruct (u64_sub (N.of_nat n5) _); [|done..]. injection E6 as -> _.
  exists (64 - s6). split; [by eapply sought_one|].
  destruct (sought_le _ _ _ H6) as (_ & Hs6 & _). rewrite !u64_sub_ok by lia. f_equal. lia.
Qed.
End Chain.

Lemma nth_one_bound l n i : nth_one l n = Some i → i < length l.
Proof.
  revert n i. induction l as [|b l IH]; intros n i; cbn [nth_one length]; [done|].
  destruct b; [destruct (n =? 1); [intros [= <-]; lia|]|];
    intros (j & Hj & ->)%fmap_Some; apply IH in Hj; lia.
Qed.

(** C37: The branchless selection finds, for every 128-bit word and every [n] up
    to the number of its bits set, the position of the [n]-th bit set. *)
Theorem nth_set_bit_selects l n :
  length l = 128 → 1 ≤ n ≤ ones l →
  ∃ i, nth_one l n = Some i ∧ nth_set_bit (of_bits l) n = Ret i.
Proof.
  intros Hl Hn. unfold nth_set_bit. cbn zeta.
  assert (Elo : wrap 64 (of_bits l) = of_bits (take 64 l)).
  { unfold wrap. rewrite <-(take_drop 64 l) at 1. rewrite of_bits_app, length_take, Hl.
    change (Nat.min 64 128) with 64. rewrite N.mul_comm, N.Div0.mod_add. apply N.mod_small.
    eapply N.lt_le_trans; [apply of_bits_lt|]. rewrite length_take, Hl. done. }
  assert (Ehi : wrap 64 (N.shiftr (of_bits l) 64) = of_bits (drop 64 l)).
  { change 64%N with (N.of_nat 64) at 2. rewrite shiftr_of_bits. apply (wrap_of_bits 64).
    rewrite length_drop. lia. }
  rewrite Elo, Ehi, count_ones_of_bits. pose proof (ones_app (take 64 l) (drop 64 l)) as Ho.
  pose proof (nth_one_app (take 64 l) (drop 64 l) n ltac:(lia)) as Hnth. rewrite take_drop in Ho, Hnth.
  assert (Htl : length (take 64 l) = 64) by (rewrite length_take; lia).
  assert (Hdl : length (drop 64 l) = 64) by (rewrite length_drop; lia).
  rewrite Hnth. destruct (Nat.ltb_spec (ones (take 64 l)) n), (Nat.leb_spec n (ones (take 64 l))); try lia.
  - destruct (nth_set_bit_u64_spec (drop 64 l) (n - ones (take 64 l)) Hdl ltac:(lia)) as (i & -> & ->).
    exists (64 + i). rewrite Htl, Nat2N.id. done.
  - destruct (nth_set_bit_u64_spec (take 64 l) n Htl ltac:(lia)) as (i & -> & ->).
    exists i. by rewrite Nat2N.id.
Qed.

Lemma nth_set_bit_selects_witness :
  ∃ i, nth_one (replicate 100 false ++ replicate 28 true) 3 = Some i ∧
    nth_set_bit (of_bits (replicate 100 false ++ replicate 28 true)) 3 = Ret i.
Proof.
  apply (nth_set_bit_selects (replicate 100 false ++ replicate 28 true) 3); [reflexivity|].
  change (ones (replicate 100 false ++ replicate 28 true)) with 28. lia.
Defined.
