(* ===== verification/Utf8.v ===== *)
(** * UTF-8 texts

    A [str] is a list of bytes that is a sequence of encoded characters.  Only
    what the rope relies on is required of an encoded character: the leading
    byte gives the length, and continuation bytes follow.  The boundary
    functions are those of [crates/util/src/util.rs] and of [str]. *)
From stdpp Require Import base numbers option list.
From Stdlib Require Import Lia.
From S2P Require Import Prelude.

(** [(u8 as i8) >= -0x40] *)
Definition as_i8 (b : N) : Z := if (b <? 128)%N then Z.of_N b else (Z.of_N b - 256)%Z.
Definition is_utf8_char_boundary (b : N) : bool := (-64 <=? as_i8 b)%Z.

Definition continuation (b : N) : Prop := (128 <= b < 192)%N.
Definition utf8_char (c : list N) : Prop :=
  match c with
  | [a] => (a < 128)%N
  | [a; b] => (192 <= a < 224)%N ∧ continuation b
  | [a; b; c] => (224 <= a < 240)%N ∧ continuation b ∧ continuation c
  | [a; b; c; d] => (240 <= a < 248)%N ∧ continuation b ∧ continuation c ∧ continuation d
  | _ => False
  end.

Inductive utf8 : list N → Prop :=
| utf8_nil : utf8 []
| utf8_cons c s : utf8_char c → utf8 s → utf8 (c ++ s).

(** [str::is_char_boundary] *)
Definition str_is_char_boundary (s : list N) (i : nat) : bool :=
  if i =? 0 then true
  else match s !! i with Some b => is_utf8_char_boundary b | None => i =? length s end.

(** [str::split_at] and slicing panic off the boundaries. *)
Definition str_split_at (s : list N) (mid : nat) : outcome (list N * list N) :=
  if str_is_char_boundary s mid then Ret (take mid s, drop mid s) else Panic.
Definition str_slice (s : list N) (a b : nat) : outcome (list N) :=
  if (a <=? b) && str_is_char_boundary s a && str_is_char_boundary s b
  then Ret (take (b - a) (drop a s)) else Panic.

(** [str::floor_char_boundary] and [str::ceil_char_boundary] *)
Fixpoint floor_from (s : list N) (i : nat) : nat :=
  if str_is_char_boundary s i then i else match i with 0 => 0 | S i => floor_from s i end.
Definition str_floor_char_boundary (s : list N) (index : nat) : nat :=
  if length s <=? index then length s else floor_from s index.
Fixpoint ceil_from (s : list N) (fuel i : nat) : nat :=
  match fuel with
  | 0 => i
  | S fuel => if str_is_char_boundary s i then i else ceil_from s fuel (S i)
  end.
Definition str_ceil_char_boundary (s : list N) (index : nat) : nat :=
  if length s <=? index then length s else ceil_from s (length s - index) index.

(** ** Facts *)
Lemma boundary_spec b :
  (b < 256)%N → is_utf8_char_boundary b = true ↔ (b < 128 ∨ 192 <= b)%N.
Proof.
  intros Hb. unfold is_utf8_char_boundary, as_i8.
  destruct (N.ltb_spec b 128); rewrite Z.leb_le; lia.
Qed.

Lemma continuation_not_boundary b : continuation b → is_utf8_char_boundary b = false.
Proof.
  intros [? ?]. apply not_true_is_false. rewrite boundary_spec by lia. lia.
Qed.

Lemma utf8_char_cons c :
  utf8_char c → ∃ a k, c = a :: k ∧ (a < 248)%N ∧ is_utf8_char_boundary a = true ∧
    Forall continuation k ∧ ((240 <= a)%N → length k = 3).
Proof.
  destruct c as [|a [|b [|c [|d [|]]]]]; simpl; try done; intros H.
  - exists a, []. split_and!; [done|lia|apply boundary_spec; lia|constructor|lia].
  - destruct H as [? ?]. exists a, [b].
    split_and!; [done|lia|apply boundary_spec; lia|by rewrite !Forall_cons, Forall_nil|lia].
  - destruct H as (? & ? & ?). exists a, [b; c].
    split_and!; [done|lia|apply boundary_spec; lia|by rewrite !Forall_cons, Forall_nil|lia].
  - destruct H as (? & ? & ? & ?). exists a, [b; c; d].
    split_and!; [done|lia|apply boundary_spec; lia|by rewrite !Forall_cons, Forall_nil|done].
Qed.

Lemma utf8_app s t : utf8 s → utf8 t → utf8 (s ++ t).
Proof. induction 1; intros; simpl; [done|]. rewrite <-app_assoc. constructor; auto. Qed.

(** A text begins with a boundary, or is empty. *)
Lemma utf8_head s b t : utf8 s → s = b :: t → is_utf8_char_boundary b = true.
Proof.
  intros Hs ->. inversion Hs as [|c s' Hc Hs' E].
  apply utf8_char_cons in Hc as (a & k & -> & _ & Ha & _). simpl in E. by simplify_eq.
Qed.

(** Cutting at a boundary cuts between characters. *)
Lemma utf8_split s i :
  utf8 s → str_is_char_boundary s i = true → utf8 (take i s) ∧ utf8 (drop i s) ∧ i ≤ length s.
Proof.
  intros Hs. revert i. induction Hs as [|c s Hc Hs IH]; intros i Hi.
  { destruct i; [|by destruct i]. repeat split; [constructor..|lia]. }
  destruct (decide (length c ≤ i)) as [Hle|Hlt].
  - assert (Hi' : str_is_char_boundary s (i - length c) = true).
    { unfold str_is_char_boundary in *. destruct (Nat.eqb_spec (i - length c) 0); [done|].
      destruct (Nat.eqb_spec i 0); [lia|]. rewrite lookup_app_r in Hi by lia.
      destruct (s !! _); [done|]. apply Nat.eqb_eq in Hi. rewrite length_app in Hi.
      apply Nat.eqb_eq. lia. }
    destruct (IH _ Hi') as (H1 & H2 & H3).
    rewrite take_app_ge, drop_app_ge, length_app by lia. split_and!; [by constructor|done|lia].
  - assert (i = 0) as ->; [|split_and!; [constructor|by constructor|lia]].
    destruct i as [|i]; [done|]. exfalso. unfold str_is_char_boundary in Hi.
    rewrite lookup_app_l in Hi by lia.
    apply utf8_char_cons in Hc as (a & k & -> & _ & _ & Hk & _). simpl in Hi, Hlt.
    destruct (lookup_lt_is_Some_2 k i) as [b Hb]; [lia|]. rewrite Hb in Hi.
    rewrite continuation_not_boundary in Hi; [done|]. by eapply Forall_lookup_1.
Qed.

(** No text ends in the leading byte of a character outside the basic plane. *)
Lemma utf8_last s b : utf8 s → last s = Some b → (b < 240)%N.
Proof.
  induction 1 as [|c s Hc Hs IH]; [done|]. rewrite last_app. destruct (last s) as [x|]; [by auto|].
  apply utf8_char_cons in Hc as (a & k & -> & _ & _ & Hk & Hlen).
  destruct k as [|x k] using rev_ind.
  - intros [= ->]. destruct (N.lt_ge_cases b 240) as [|Hge]; [done|]. by specialize (Hlen Hge).
  - rewrite app_comm_cons, last_snoc. intros [= ->]. apply Forall_app in Hk as [_ Hk].
    inversion Hk as [|? ? [? ?]]. lia.
Qed.

Lemma utf8_bytes s : utf8 s → Forall (λ b, (b < 256)%N) s.
Proof.
  induction 1 as [|c s Hc Hs IH]; [constructor|]. apply Forall_app. split; [|done].
  apply utf8_char_cons in Hc as (a & k & -> & Ha & _ & Hk & _). constructor; [lia|].
  eapply Forall_impl; [done|]. intros b [? ?]. lia.
Qed.

Lemma str_boundary_end s : str_is_char_boundary s (length s) = true.
Proof.
  unfold str_is_char_boundary. destruct (_ =? 0); [done|].
  by rewrite lookup_ge_None_2, Nat.eqb_refl by lia.
Qed.

Lemma str_boundary_S s n :
  str_is_char_boundary s (S n) =
  match s !! S n with Some b => is_utf8_char_boundary b | None => S n =? length s end.
Proof. done. Qed.

Lemma utf8_char_ascii a k : utf8_char (a :: k) → (a < 128)%N → k = [].
Proof. destruct k as [|b [|c [|d [|]]]]; simpl; try done; lia. Qed.

(** After an ASCII byte a character begins, or the text ends. *)
Lemma utf8_after_ascii s n a :
  utf8 s → s !! n = Some a → (a < 128)%N → str_is_char_boundary s (S n) = true.
Proof.
  intros Hs. revert n. induction Hs as [|c s Hc Hs IH]; intros n Ha Hlt; [done|].
  pose proof (utf8_char_cons c Hc) as (x & k & -> & _ & _ & Hk & _).
  destruct (decide (n < length (x :: k))) as [Hn|Hn].
  - rewrite lookup_app_l in Ha by done. destruct n as [|n]; simpl in Ha.
    + simplify_eq. apply utf8_char_ascii in Hc as ->; [|done]. simpl.
      unfold str_is_char_boundary. simpl. destruct s as [|b s]; [done|]. simpl.
      by eapply (utf8_head (b :: s)).
    + exfalso. eapply Forall_lookup_1 in Hk; [|done]. destruct Hk. lia.
  - rewrite lookup_app_r in Ha by lia. specialize (IH (n - length (x :: k)) Ha Hlt).
    rewrite str_boundary_S in *. rewrite lookup_app_r by lia.
    replace (S n - length (x :: k)) with (S (n - length (x :: k))) by lia.
    destruct (s !! _); [done|]. apply Nat.eqb_eq. apply Nat.eqb_eq in IH. rewrite length_app. lia.
Qed.
