(* ===== verification/Chunk.v ===== *)
(** * Chunks of rope text with their bitmaps

    Models [crates/rope/src/chunk.rs] at its production width: [Bitmap] is
    [u128], so a chunk holds at most 128 bytes.  A [ChunkSlice] has the fields
    of a [Chunk] and borrows its text; both are one record here. *)
From stdpp Require Import base numbers option list.
From Stdlib Require Import Lia.
From S2P Require Import Prelude Bits Utf8 Point.

Definition BITS : nat := 128.
Definition MAX_BASE : nat := BITS.
Definition CHUNK_SIZE : nat := 8.

Record Chunk := MkChunk {
  chars : N; chars_utf16 : N; newlines : N; tabs : N; ctext : list N }.
Definition ChunkSlice : Type := Chunk.

Definition chunk_default : Chunk := MkChunk 0 0 0 0 [].

Definition saturating_shl_mask (offset : nat) : N :=
  wrapping_sub BITS (unbounded_shl BITS 1 offset) 1.
Definition saturating_shr_mask (offset : nat) : N :=
  word_not BITS (unbounded_shr BITS (word_max BITS) offset).

(** ** Construction *)

(** [ArrayString::push_str(..).unwrap()]: the capacity is [MAX_BASE]. *)
Definition array_push_str (text s : list N) : outcome (list N) :=
  if length (text ++ s) <=? MAX_BASE then Ret (text ++ s) else Panic.

Definition is_newline (b : N) : bool := (b =? 10)%N.
Definition is_tab (b : N) : bool := (b =? 9)%N.
Definition is_wide (b : N) : bool := (240 <=? b)%N.

(** The [for] loop over at most eight bytes, for one of the predicates:
    [acc |= (p(b) as u8) << ix]. *)
Definition group_bits (p : N → bool) (group : list N) : N :=
  foldl (λ acc '(ix, b), N.lor acc (wrap 8 (N.shiftl (N.b2n (p b)) (N.of_nat ix))))
    0%N (imap (λ ix b, (ix, b)) group).

Definition array_set (a : list N) (ix : nat) (x : N) : outcome (list N) :=
  if ix <? length a then Ret (<[ix := x]> a) else Panic.

(** The variables of the loop of [Chunk::new]. *)
Record NewState := MkNewState {
  n_bytes : list N; chunk_ix : nat;
  chars_bytes : list N; newlines_bytes : list N; tabs_bytes : list N; utf16_bytes : list N }.

Definition new_step (s : NewState) : outcome (NewState + NewState) :=
  match n_bytes s with
  | [] => Ret (inr s)
  | bytes =>
      let split := Nat.min (length bytes) CHUNK_SIZE in
      let chunk := take split bytes in
      let rest := drop split bytes in
      let* cb := array_set (chars_bytes s) (chunk_ix s) (group_bits is_utf8_char_boundary chunk) in
      let* nb := array_set (newlines_bytes s) (chunk_ix s) (group_bits is_newline chunk) in
      let* tb := array_set (tabs_bytes s) (chunk_ix s) (group_bits is_tab chunk) in
      let* ub := array_set (utf16_bytes s) (chunk_ix s) (group_bits is_wide chunk) in
      Ret (inl (MkNewState rest (chunk_ix s + 1) cb nb tb ub))
  end.

Definition chunk_new (text : list N) : outcome Chunk :=
  let* text := array_push_str [] text in
  let zeros := replicate (MAX_BASE / CHUNK_SIZE) 0%N in
  let* s := loop new_step (S (length text)) (MkNewState text 0 zeros zeros zeros zeros) in
  let chars := from_le_bytes (chars_bytes s) in
  let* wide := shl BITS (from_le_bytes (utf16_bytes s)) 1 in
  Ret (MkChunk chars (N.lor wide chars) (from_le_bytes (newlines_bytes s))
         (from_le_bytes (tabs_bytes s)) text).

Definition as_slice (self : Chunk) : ChunkSlice := self.
Definition slice_is_empty (self : ChunkSlice) : bool := match ctext self with [] => true | _ => false end.

Definition chunk_append (self : Chunk) (slice : ChunkSlice) : outcome Chunk :=
  if slice_is_empty slice then Ret self
  else
    let base_ix := length (ctext self) in
    let* c := shl BITS (chars slice) base_ix in
    let* u := shl BITS (chars_utf16 slice) base_ix in
    let* n := shl BITS (newlines slice) base_ix in
    let* t := shl BITS (tabs slice) base_ix in
    let* text := array_push_str (ctext self) (ctext slice) in
    Ret (MkChunk (N.lor (chars self) c) (N.lor (chars_utf16 self) u) (N.lor (newlines self) n)
           (N.lor (tabs self) t) text).

Definition chunk_prepend (self : Chunk) (slice : ChunkSlice) : outcome Chunk :=
  if slice_is_empty slice then Ret self
  else if slice_is_empty self then chunk_new (ctext slice)
  else
    let shift := length (ctext slice) in
    let* c := shl BITS (chars self) shift in
    let* u := shl BITS (chars_utf16 self) shift in
    let* n := shl BITS (newlines self) shift in
    let* t := shl BITS (tabs self) shift in
    let* new_text := array_push_str [] (ctext slice) in
    let* new_text := array_push_str new_text (ctext self) in
    Ret (MkChunk (N.lor (chars slice) c) (N.lor (chars_utf16 slice) u) (N.lor (newlines slice) n)
           (N.lor (tabs slice) t) new_text).

Definition chunk_push_str (self : Chunk) (text : list N) : outcome Chunk :=
  let* c := chunk_new text in chunk_append self (as_slice c).
Definition chunk_prepend_str (self : Chunk) (text : list N) : outcome Chunk :=
  let* c := chunk_new text in chunk_prepend self (as_slice c).

(** ** Slicing *)
Definition chunk_is_char_boundary (self : ChunkSlice) (offset : nat) : bool :=
  negb (N.land (unbounded_shl BITS 1 offset) (chars self) =? 0)%N || (offset =? length (ctext self)).

(** [Chunk::floor_char_boundary] walks back over the bytes. *)
Fixpoint floor_walk (text : list N) (i : nat) : outcome nat :=
  match i with
  | 0 => Ret 0
  | S j =>
      let* b := unwrap (text !! i) in
      if is_utf8_char_boundary b then Ret i else floor_walk text j
  end.
Definition chunk_floor_char_boundary (self : Chunk) (index : nat) : outcome nat :=
  if length (ctext self) <=? index then Ret (length (ctext self)) else floor_walk (ctext self) index.

Definition empty_slice : ChunkSlice := MkChunk 0 0 0 0 [].

Definition slice_split_at (self : ChunkSlice) (mid : nat) : outcome (ChunkSlice * ChunkSlice) :=
  if mid =? MAX_BASE then Ret (self, empty_slice)
  else
    let* one := shl BITS 1 mid in
    let mask := (one - 1)%N in
    let* '(left_text, right_text) := str_split_at (ctext self) mid in
    let* c := shr BITS (chars self) mid in
    let* u := shr BITS (chars_utf16 self) mid in
    let* n := shr BITS (newlines self) mid in
    let* t := shr BITS (tabs self) mid in
    Ret (MkChunk (N.land (chars self) mask) (N.land (chars_utf16 self) mask)
           (N.land (newlines self) mask) (N.land (tabs self) mask) left_text,
         MkChunk c u n t right_text).

(** Off a boundary the ends are moved, after an error is logged. *)
Definition slice_slice (self : ChunkSlice) (start end_ : nat) : outcome ChunkSlice :=
  if start =? MAX_BASE then Ret empty_slice
  else
    let start := if chunk_is_char_boundary self start then start
                 else str_ceil_char_boundary (ctext self) start in
    let end_ := if chunk_is_char_boundary self end_ then end_
                else if end_ <? start then start else str_floor_char_boundary (ctext self) end_ in
    let mask := wrapping_sub BITS (unbounded_shl BITS 1 end_) 1 in
    let* c := shr BITS (N.land (chars self) mask) start in
    let* u := shr BITS (N.land (chars_utf16 self) mask) start in
    let* n := shr BITS (N.land (newlines self) mask) start in
    let* t := shr BITS (N.land (tabs self) mask) start in
    let* text := str_slice (ctext self) start end_ in
    Ret (MkChunk c u n t text).
Definition chunk_slice (self : Chunk) (start end_ : nat) : outcome ChunkSlice :=
  slice_slice (as_slice self) start end_.

(** ** Measures *)
Definition slice_len (self : ChunkSlice) : nat := length (ctext self).
Definition slice_len_utf16 (self : ChunkSlice) : nat := count_ones (chars_utf16 self).

Definition slice_lines (self : ChunkSlice) : outcome Point :=
  let row := count_ones (newlines self) in
  let* missing := usize_sub BITS (length (ctext self)) in
  let* column := usize_sub (leading_zeros BITS (newlines self)) missing in
  Ret (MkPoint (N.of_nat row) (N.of_nat column)).

Definition first_line_chars (self : ChunkSlice) : nat :=
  count_ones (N.land (chars self) (saturating_shl_mask (trailing_zeros BITS (newlines self)))).
Definition last_line_chars (self : ChunkSlice) : nat :=
  count_ones (N.land (chars self) (saturating_shr_mask (leading_zeros BITS (newlines self)))).
Definition last_line_len_utf16 (self : ChunkSlice) : nat :=
  count_ones (N.land (chars_utf16 self) (saturating_shr_mask (leading_zeros BITS (newlines self)))).

(** The variables of [longest_row]. *)
Record RowState := MkRowState {
  l_chars : N; l_newlines : N; total_chars : nat; l_row : nat; longest : nat; longest_chars : nat }.

Definition longest_row_step (s : RowState) : outcome (RowState + (nat * nat * nat)) :=
  if (0 <? l_newlines s)%N then
    let newline_ix := trailing_zeros BITS (l_newlines s) in
    let* one := shl BITS 1 newline_ix in
    let row_chars := count_ones (N.land (l_chars s) (one - 1)) in
    let '(best, best_chars) :=
      if longest_chars s <? row_chars then (l_row s, row_chars) else (longest s, longest_chars s) in
    let* n := shr BITS (l_newlines s) newline_ix in
    let* n := shr BITS n 1 in
    let* c := shr BITS (l_chars s) newline_ix in
    let* c := shr BITS c 1 in
    Ret (inl (MkRowState c n (total_chars s + row_chars + 1) (l_row s + 1) best best_chars))
  else
    let row_chars := count_ones (l_chars s) in
    let total := total_chars s + row_chars in
    Ret (inr (if longest_chars s <? row_chars then (total, l_row s, row_chars)
              else (total, longest s, longest_chars s))).

(** The total number of characters, the longest row and its characters. *)
Definition longest_row (self : ChunkSlice) : outcome (nat * nat * nat) :=
  loop longest_row_step (S BITS) (MkRowState (chars self) (newlines self) 0 0 0 0).

(** ** Positions *)
Definition offset_to_point (self : ChunkSlice) (offset : nat) : outcome Point :=
  let mask := wrapping_sub BITS (unbounded_shl BITS 1 offset) 1 in
  let row := count_ones (N.land (newlines self) mask) in
  let newline_ix := BITS - leading_zeros BITS (N.land (newlines self) mask) in
  let* column := usize_sub offset newline_ix in
  Ret (MkPoint (N.of_nat row) (wrap 32 (N.of_nat column))).

Definition offset_to_offset_utf16 (self : ChunkSlice) (offset : nat) : nat :=
  count_ones (N.land (chars_utf16 self) (wrapping_sub BITS (unbounded_shl BITS 1 offset) 1)).

Definition offset_to_point_utf16 (self : ChunkSlice) (offset : nat) : outcome PointUtf16 :=
  let mask := saturating_shl_mask offset in
  let row := count_ones (N.land (newlines self) mask) in
  let newline_ix := BITS - leading_zeros BITS (N.land (newlines self) mask) in
  let* column :=
    if newline_ix =? MAX_BASE then Ret 0
    else
      let* rest := shr BITS (N.land (chars_utf16 self) mask) newline_ix in
      Ret (count_ones rest) in
  Ret (MkPoint (N.of_nat row) (N.of_nat column)).

(** ** Tabs *)
Record Tabs := MkTabs { t_tabs : N; t_chars : N }.
Definition slice_tabs (self : ChunkSlice) : Tabs := MkTabs (tabs self) (chars self).

(** [Iterator::next]: byte and character offset of the next tab. *)
Definition tabs_next (self : Tabs) : outcome (option ((nat * nat) * Tabs)) :=
  if (t_tabs self =? 0)%N then Ret None
  else
    let tab_offset := trailing_zeros BITS (t_tabs self) in
    let* one := shl BITS 1 tab_offset in
    let char_offset := count_ones (N.land (t_chars self) (one - 1)) in
    Ret (Some ((tab_offset, char_offset), MkTabs (N.lxor (t_tabs self) one) (t_chars self))).
