(* ===== verification/ChunkFacts.v ===== *)
(** * Chunks represent their text

    [chunk_of text] is the chunk whose bitmaps are read off the text byte by
    byte; every operation on such chunks returns such a chunk. *)
From stdpp Require Import base numbers option list.
From Stdlib Require Import Lia.
From S2P Require Import Prelude Bits Utf8 Point Chunk.

(** One bit per byte that starts a character, and one after each leading byte
    of a character of two UTF-16 units. *)
Definition utf16_bits (text : list N) : list bool :=
  zip_with orb (is_utf8_char_boundary <$> text) (false :: (is_wide <$> text)).

Definition chunk_of (text : list N) : Chunk :=
  MkChunk (of_bits (is_utf8_char_boundary <$> text)) (of_bits (utf16_bits text))
    (of_bits (is_newline <$> text)) (of_bits (is_tab <$> text)) text.

Lemma length_utf16_bits text : length (utf16_bits text) = length text.
Proof. unfold utf16_bits. rewrite length_zip_with. simpl. rewrite !length_fmap. lia. Qed.

(** ** The loop of [new] *)
Lemma group_bits_from (p : N → bool) ix (l : list N) (pre : list bool) :
  length pre = ix → ix + length l ≤ 8 →
  foldl (λ acc '(ix, b), N.lor acc (wrap 8 (N.shiftl (N.b2n (p b)) (N.of_nat ix)))) (of_bits pre)
    (imap (λ i b, (ix + i, b)) l) = of_bits (pre ++ (p <$> l)).
Proof.
  revert ix pre. induction l as [|b l IH]; intros ix pre Hpre Hlen; csimpl; [by rewrite app_nil_r|].
  simpl in Hlen. rewrite Nat.add_0_r.
  assert (E : N.lor (of_bits pre) (wrap 8 (N.shiftl (N.b2n (p b)) (N.of_nat ix))) = of_bits (pre ++ [p b])).
  { replace (N.b2n (p b)) with (of_bits [p b]) by (by destruct (p b)).
    rewrite shiftl_of_bits. change 8%N with (N.of_nat 8).
    rewrite wrap_of_bits by (rewrite length_app, length_replicate; simpl; lia).
    rewrite <-Hpre. apply lor_of_bits_app. }
  rewrite E. replace (pre ++ p b :: (p <$> l)) with ((pre ++ [p b]) ++ (p <$> l)) by (by rewrite <-app_assoc).
  rewrite <-(IH (S ix)) by (rewrite ?length_app; simpl; lia).
  f_equal. apply imap_ext. intros i x _. simpl. by rewrite Nat.add_succ_r.
Qed.

Lemma group_bits_spec (p : N → bool) (l : list N) : length l ≤ 8 → group_bits p l = of_bits (p <$> l).
Proof.
  intros H. unfold group_bits.
  by apply (group_bits_from p 0 l []).
Qed.

(** The array after some rounds holds the bits of the bytes consumed. *)
Definition array_ok (p : N → bool) (a : list N) (k : nat) (done_ : list N) : Prop :=
  ∃ l, a = l ++ replicate (16 - k) 0%N ∧ length l = k ∧ from_le_bytes l = of_bits (p <$> done_).

Lemma array_ok_value p a k d : array_ok p a k d → from_le_bytes a = of_bits (p <$> d).
Proof. intros (l & -> & _ & E). rewrite from_le_bytes_app, from_le_bytes_zeros, E. lia. Qed.

Lemma array_set_ok p a k d g :
  array_ok p a k d → k < 16 → length d = 8 * k → length g ≤ 8 →
  returns (array_set a k (group_bits p g)) (λ a', array_ok p a' (k + 1) (d ++ g)).
Proof.
  intros (l & -> & Hl & E) Hk Hd Hg. unfold array_set.
  rewrite length_app, length_replicate. destruct (Nat.ltb_spec k (length l + (16 - k))); [|lia].
  apply returns_Ret. exists (l ++ [group_bits p g]). split_and!.
  - rewrite insert_app_r_alt by lia. rewrite Hl, Nat.sub_diag.
    replace (16 - k) with (S (16 - (k + 1))) by lia. simpl. by rewrite <-app_assoc.
  - rewrite length_app. simpl. lia.
  - rewrite from_le_bytes_app, E, group_bits_spec, fmap_app, of_bits_app by done.
    cbn [from_le_bytes]. rewrite Hl, length_fmap, Hd.
    replace (256 ^ N.of_nat k)%N with (2 ^ N.of_nat (8 * k))%N; [lia|].
    rewrite Nat2N.inj_mul, N.pow_mul_r. done.
Qed.

Definition new_inv (text : list N) (s : NewState) : Prop :=
  ∃ d, text = d ++ n_bytes s ∧ (n_bytes s = [] ∨ length d = 8 * chunk_ix s) ∧
    array_ok is_utf8_char_boundary (chars_bytes s) (chunk_ix s) d ∧
    array_ok is_newline (newlines_bytes s) (chunk_ix s) d ∧
    array_ok is_tab (tabs_bytes s) (chunk_ix s) d ∧ array_ok is_wide (utf16_bytes s) (chunk_ix s) d.

Lemma new_step_spec text s :
  length text ≤ MAX_BASE → new_inv text s →
  (∃ s', new_step s = Ret (inl s') ∧ new_inv text s' ∧ length (n_bytes s') < length (n_bytes s)) ∨
  (∃ s', new_step s = Ret (inr s') ∧ new_inv text s' ∧ n_bytes s' = []).
Proof.
  intros Hlen (d & Et & Hd & H1 & H2 & H3 & H4). unfold new_step.
  destruct (n_bytes s) as [|b bytes] eqn:Eb; [right|left].
  { exists s. split; [done|]. split; [|done]. exists d. rewrite Eb. auto 10. }
  destruct Hd as [Hd|Hd]; [done|]. rewrite <-Eb in *. assert (Hne : length (n_bytes s) > 0) by (rewrite Eb; simpl; lia).
  unfold MAX_BASE, BITS in Hlen. rewrite Et, length_app in Hlen.
  set (g := take (length (n_bytes s) `min` CHUNK_SIZE) (n_bytes s)).
  assert (Hg : length g ≤ 8) by (subst g; rewrite length_take; unfold CHUNK_SIZE; lia).
  assert (Hk : chunk_ix s < 16) by lia.
  destruct (array_set_ok _ _ _ _ g H1 Hk Hd Hg) as (a1 & -> & A1).
  destruct (array_set_ok _ _ _ _ g H2 Hk Hd Hg) as (a2 & -> & A2).
  destruct (array_set_ok _ _ _ _ g H3 Hk Hd Hg) as (a3 & -> & A3).
  destruct (array_set_ok _ _ _ _ g H4 Hk Hd Hg) as (a4 & -> & A4).
  eexists. split; [done|]. split; [|cbn [n_bytes]; rewrite length_drop; unfold CHUNK_SIZE; lia].
  exists (d ++ g). cbn [n_bytes chunk_ix chars_bytes newlines_bytes tabs_bytes utf16_bytes].
  split_and!; try done.
  - by rewrite <-app_assoc; subst g; rewrite take_drop.
  - destruct (Nat.le_gt_cases (length (n_bytes s)) CHUNK_SIZE) as [Hle|Hgt].
    + left. rewrite drop_ge; [done|]. lia.
    + right. rewrite length_app. subst g. rewrite length_take. unfold CHUNK_SIZE in *. lia.
Qed.

(** The wide bits move up by one and join the boundaries. *)
Lemma utf16_word text :
  utf8 text → length text ≤ BITS →
  returns (shl BITS (of_bits (is_wide <$> text)) 1) (λ wide,
    N.lor wide (of_bits (is_utf8_char_boundary <$> text)) = of_bits (utf16_bits text)).
Proof.
  intros Hu Hlen. unfold shl. change (1 <? BITS) with true. apply returns_Ret.
  rewrite shiftl_of_bits. apply word_eq. intros i.
  rewrite N.lor_spec, !testbit_of_bits. unfold utf16_bits. rewrite lookup_zip_with.
  unfold wrap. destruct (decide (i < BITS)) as [Hi|Hi].
  - rewrite N.mod_pow2_bits_low by lia. rewrite testbit_of_bits. csimpl.
    rewrite list_lookup_fmap. destruct (text !! i) as [b|] eqn:Eb; simpl.
    + destruct ((false :: (is_wide <$> text)) !! i) eqn:Ef; [apply orb_comm|].
      apply lookup_ge_None in Ef. simpl in Ef. rewrite length_fmap in Ef.
      apply lookup_lt_Some in Eb. lia.
    + rewrite orb_false_r. apply lookup_ge_None in Eb. destruct i as [|i]; [done|]. simpl.
      rewrite list_lookup_fmap. destruct (text !! i) as [b|] eqn:Ei; [|done]. simpl.
      apply lookup_lt_Some in Ei as Hlt. assert (i = pred (length text)) as -> by lia.
      rewrite <-last_lookup in Ei. apply (utf8_last _ _ Hu) in Ei. unfold is_wide.
      destruct (N.leb_spec 240 b); [lia|done].
  - rewrite N.mod_pow2_bits_high by lia.
    rewrite !lookup_ge_None_2 by (rewrite ?length_fmap; lia). done.
Qed.

Lemma chunk_new_spec text :
  utf8 text → length text ≤ MAX_BASE → chunk_new text = Ret (chunk_of text).
Proof.
  intros Hu Hlen. apply returns_eq. unfold chunk_new, array_push_str. simpl app.
  destruct (Nat.leb_spec (length text) MAX_BASE); [|lia].
  eapply returns_bind.
  { apply (loop_returns new_step (new_inv text) (λ s, length (n_bytes s)) (λ s, new_inv text s ∧ n_bytes s = [])).
    - intros s. by apply new_step_spec.
    - exists []. simpl. split_and!; [done|by right|..]; by exists [].
    - simpl. lia. }
  intros s [(d & Et & _ & H1 & H2 & H3 & H4) Hs]. rewrite Hs, app_nil_r in Et. subst d.
  rewrite (array_ok_value _ _ _ _ H1), (array_ok_value _ _ _ _ H2), (array_ok_value _ _ _ _ H3),
    (array_ok_value _ _ _ _ H4).
  eapply returns_bind; [by apply utf16_word|].
  intros wide Hw. apply returns_Ret. unfold chunk_of. by rewrite Hw.
Qed.

(** ** Appending and prepending *)
Definition wide_before (text : list N) (i : nat) : bool :=
  match i with 0 => false | S j => default false (is_wide <$> text !! j) end.

Lemma utf16_bits_lookup text i :
  utf16_bits text !! i = (λ b, is_utf8_char_boundary b || wide_before text i) <$> text !! i.
Proof.
  unfold utf16_bits. rewrite lookup_zip_with, list_lookup_fmap.
  destruct (text !! i) as [b|] eqn:Eb; [|done]. simpl. destruct i as [|i]; simpl; [done|].
  rewrite list_lookup_fmap. destruct (text !! i) eqn:Ei; [done|].
  apply lookup_ge_None in Ei. apply lookup_lt_Some in Eb. lia.
Qed.

Lemma utf8_last_narrow s : utf8 s → wide_before s (length s) = false.
Proof.
  intros Hs. unfold wide_before. destruct (length s) as [|n] eqn:E; [done|].
  replace n with (pred (length s)) by lia. rewrite <-last_lookup.
  destruct (last s) as [b|] eqn:El; [|done]. apply (utf8_last _ _ Hs) in El. simpl. unfold is_wide.
  by destruct (N.leb_spec 240 b); [lia|].
Qed.

Lemma utf16_bits_app s t : utf8 s → utf16_bits (s ++ t) = utf16_bits s ++ utf16_bits t.
Proof.
  intros Hs. apply list_eq. intros i. rewrite utf16_bits_lookup.
  destruct (decide (i < length s)) as [Hi|Hi].
  - rewrite !lookup_app_l by (rewrite ?length_utf16_bits; done). rewrite utf16_bits_lookup.
    destruct (s !! i); [|done]. simpl. do 2 f_equal. destruct i as [|i]; [done|]. simpl.
    by rewrite lookup_app_l by lia.
  - rewrite !lookup_app_r by (rewrite ?length_utf16_bits; lia).
    rewrite utf16_bits_lookup, length_utf16_bits. destruct (t !! _); [|done]. simpl. do 2 f_equal.
    destruct (decide (i = length s)) as [->|Hne].
    + rewrite Nat.sub_diag. simpl. pose proof (utf8_last_narrow s Hs) as H.
      unfold wide_before in *. destruct (length s) eqn:E; [done|]. by rewrite lookup_app_l by lia.
    + destruct i as [|i]; [lia|]. replace (S i - length s) with (S (i - length s)) by lia. simpl.
      by rewrite lookup_app_r by lia.
Qed.

Lemma array_push_str_ok s t : length (s ++ t) ≤ MAX_BASE → array_push_str s t = Ret (s ++ t).
Proof. unfold array_push_str. intros H. by apply Nat.leb_le in H as ->. Qed.

(** The four words of one chunk shifted above those of another. *)
Lemma lor_shl_text (f : list N → list bool) (s t : list N) :
  (∀ u, length (f u) = length u) → f (s ++ t) = f s ++ f t → length (s ++ t) ≤ BITS → t ≠ [] →
  returns (shl BITS (of_bits (f t)) (length s)) (λ w, N.lor (of_bits (f s)) w = of_bits (f (s ++ t))).
Proof.
  intros Hf Happ Hlen Ht. rewrite Happ, <-(Hf s). apply lor_shl.
  - by rewrite <-Happ, Hf.
  - rewrite Hf. rewrite length_app in Hlen. destruct t; [done|]. simpl in Hlen. lia.
Qed.

Lemma shift_all s t :
  utf8 s → length (s ++ t) ≤ BITS → t ≠ [] →
  ∃ c u n b,
    (shl BITS (chars (chunk_of t)) (length s) = Ret c ∧
     shl BITS (chars_utf16 (chunk_of t)) (length s) = Ret u ∧
     shl BITS (newlines (chunk_of t)) (length s) = Ret n ∧
     shl BITS (tabs (chunk_of t)) (length s) = Ret b) ∧
    MkChunk (N.lor (chars (chunk_of s)) c) (N.lor (chars_utf16 (chunk_of s)) u)
      (N.lor (newlines (chunk_of s)) n) (N.lor (tabs (chunk_of s)) b) (s ++ t) = chunk_of (s ++ t).
Proof.
  intros Hs Hlen Ht. cbn [chars chars_utf16 newlines tabs chunk_of].
  destruct (lor_shl_text (fmap is_utf8_char_boundary) s t) as (c & Ec & Hc);
    [intros; apply length_fmap|apply fmap_app|done|done|].
  destruct (lor_shl_text utf16_bits s t) as (u & Eu & Hu);
    [apply length_utf16_bits|by apply utf16_bits_app|done|done|].
  destruct (lor_shl_text (fmap is_newline) s t) as (n & En & Hn);
    [intros; apply length_fmap|apply fmap_app|done|done|].
  destruct (lor_shl_text (fmap is_tab) s t) as (b & Eb & Hb);
    [intros; apply length_fmap|apply fmap_app|done|done|].
  exists c, u, n, b. split; [done|]. unfold chunk_of. by rewrite Hc, Hu, Hn, Hb.
Qed.

Lemma chunk_append_spec s t :
  utf8 s → length (s ++ t) ≤ MAX_BASE →
  chunk_append (chunk_of s) (as_slice (chunk_of t)) = Ret (chunk_of (s ++ t)).
Proof.
  intros Hs Hlen. unfold chunk_append, slice_is_empty, as_slice. cbn [ctext chunk_of].
  destruct t as [|b t']; [by rewrite app_nil_r|]. set (t := b :: t') in *.
  destruct (shift_all s t Hs Hlen ltac:(done)) as (c & u & n & tb & (E1 & E2 & E3 & E4) & E).
  cbn [chars chars_utf16 newlines tabs chunk_of] in *.
  rewrite E1, E2, E3, E4, array_push_str_ok by done. by rewrite <-E.
Qed.

Lemma chunk_prepend_spec s t :
  utf8 s → length (s ++ t) ≤ MAX_BASE →
  chunk_prepend (chunk_of t) (as_slice (chunk_of s)) = Ret (chunk_of (s ++ t)).
Proof.
  intros Hs Hlen. unfold chunk_prepend, slice_is_empty, as_slice. cbn [ctext chunk_of].
  destruct s as [|a s']; [done|]. set (s := a :: s') in *.
  destruct t as [|b t']. { rewrite app_nil_r in *. by apply chunk_new_spec. }
  set (t := b :: t') in *.
  destruct (shift_all s t Hs Hlen ltac:(done)) as (c & u & n & tb & (E1 & E2 & E3 & E4) & E).
  cbn [chars chars_utf16 newlines tabs chunk_of] in *.
  rewrite E1, E2, E3, E4. rewrite (array_push_str_ok []) by (change ([] ++ s) with s; rewrite length_app in Hlen; lia).
  change ([] ++ s) with s. rewrite (array_push_str_ok s) by done. by rewrite <-E.
Qed.

(** ** Boundaries and slices *)
Lemma land_bit k x : (N.land (2 ^ k) x =? 0)%N = negb (N.testbit x k).
Proof.
  destruct (N.testbit x k) eqn:E; simpl.
  - apply N.eqb_neq. intros H. apply (f_equal (λ n, N.testbit n k)) in H.
    by rewrite N.land_spec, N.pow2_bits_true, E, N.bits_0 in H.
  - apply N.eqb_eq, N.bits_inj. intros i. rewrite N.land_spec, N.bits_0, N.pow2_bits_eqb.
    destruct (N.eqb_spec k i) as [->|]; [by rewrite E|done].
Qed.

Lemma shl_one k : k < BITS → shl BITS 1 k = Ret (2 ^ N.of_nat k)%N.
Proof.
  intros H. unfold shl. apply Nat.ltb_lt in H as Hb. rewrite Hb, N.shiftl_mul_pow2, N.mul_1_l.
  by rewrite wrap_small by (apply N.pow_lt_mono_r; lia).
Qed.

Lemma chunk_boundary_spec text i :
  utf8 text → length text ≤ BITS →
  chunk_is_char_boundary (chunk_of text) i = str_is_char_boundary text i.
Proof.
  intros Hu Hlen. unfold chunk_is_char_boundary, unbounded_shl. cbn [chars ctext chunk_of].
  destruct (Nat.ltb_spec i BITS) as [Hi|Hi].
  - rewrite N.shiftl_mul_pow2, N.mul_1_l, wrap_small by (apply N.pow_lt_mono_r; lia).
    rewrite land_bit, negb_involutive, testbit_of_bits, list_lookup_fmap.
    unfold str_is_char_boundary. destruct (Nat.eqb_spec i 0) as [->|Hi0].
    + destruct text as [|b t]; [done|]. simpl. by rewrite (utf8_head _ _ _ Hu eq_refl).
    + destruct (text !! i) as [b|] eqn:Eb; simpl; [|done].
      destruct (Nat.eqb_spec i (length text)); [|by rewrite orb_false_r].
      apply lookup_lt_Some in Eb. lia.
  - simpl. unfold str_is_char_boundary. destruct (Nat.eqb_spec i 0); [unfold BITS in Hi; lia|].
    by rewrite lookup_ge_None_2 by lia.
Qed.

Lemma mask_bits l k : N.land (of_bits l) (N.ones (N.of_nat k)) = of_bits (take k l).
Proof. by rewrite <-of_bits_ones, land_of_bits, zip_and_true. Qed.

Lemma low_mask_bits l k :
  length l ≤ BITS → N.land (of_bits l) (wrapping_sub BITS (unbounded_shl BITS 1 k) 1) = of_bits (take k l).
Proof.
  intros H. rewrite low_mask, land_of_bits, zip_and_true. f_equal.
  destruct (Nat.le_gt_cases k BITS); [by rewrite Nat.min_l|].
  by rewrite Nat.min_r, !take_ge by lia.
Qed.

Lemma pow2_pred k : (2 ^ N.of_nat k - 1)%N = N.ones (N.of_nat k).
Proof. rewrite N.ones_equiv. lia. Qed.

Lemma utf16_bits_take text k : utf16_bits (take k text) = take k (utf16_bits text).
Proof.
  apply list_eq. intros i. rewrite utf16_bits_lookup. destruct (decide (i < k)) as [Hi|Hi].
  - rewrite !lookup_take_lt, utf16_bits_lookup by done. destruct (text !! i); [|done]. simpl.
    do 2 f_equal. destruct i; [done|]. simpl. by rewrite lookup_take_lt by lia.
  - by rewrite !lookup_take_ge by lia.
Qed.

Lemma utf16_bits_drop text k : utf8 (take k text) → utf16_bits (drop k text) = drop k (utf16_bits text).
Proof.
  intros Hu. destruct (Nat.le_gt_cases k (length text)) as [Hk|Hk].
  - rewrite <-(take_drop k text) at 2. rewrite utf16_bits_app by done.
    by rewrite drop_app_length' by (rewrite length_utf16_bits, length_take; lia).
  - by rewrite !drop_ge by (rewrite ?length_utf16_bits; lia).
Qed.

Lemma chunk_of_take text k :
  MkChunk (N.land (chars (chunk_of text)) (N.ones (N.of_nat k)))
    (N.land (chars_utf16 (chunk_of text)) (N.ones (N.of_nat k)))
    (N.land (newlines (chunk_of text)) (N.ones (N.of_nat k)))
    (N.land (tabs (chunk_of text)) (N.ones (N.of_nat k))) (take k text) = chunk_of (take k text).
Proof. unfold chunk_of. simpl. by rewrite !mask_bits, !fmap_take, utf16_bits_take. Qed.

Lemma slice_split_at_spec text mid :
  utf8 text → length text ≤ BITS → str_is_char_boundary text mid = true →
  slice_split_at (chunk_of text) mid = Ret (chunk_of (take mid text), chunk_of (drop mid text)).
Proof.
  intros Hu Hlen Hb. destruct (utf8_split _ _ Hu Hb) as (Hl & Hr & Hm). unfold slice_split_at.
  destruct (Nat.eqb_spec mid MAX_BASE) as [->|Hne].
  { unfold MAX_BASE in *. by rewrite take_ge, drop_ge by lia. }
  assert (mid < BITS) by (unfold MAX_BASE in *; lia).
  rewrite shl_one by done. unfold str_split_at.
  cbn [chars chars_utf16 newlines tabs ctext chunk_of].
  rewrite Hb, !shr_of_bits, pow2_pred by done. rewrite <-chunk_of_take.
  unfold chunk_of. by rewrite !fmap_drop, utf16_bits_drop.
Qed.

Lemma slice_slice_spec text a b :
  utf8 text → length text ≤ BITS → a ≤ b →
  str_is_char_boundary text a = true → str_is_char_boundary text b = true →
  slice_slice (chunk_of text) a b = Ret (chunk_of (take (b - a) (drop a text))).
Proof.
  intros Hu Hlen Hab Ha Hb. destruct (utf8_split _ _ Hu Ha) as (Hl & Hr & Hm).
  destruct (utf8_split _ _ Hu Hb) as (_ & _ & Hmb). unfold slice_slice.
  destruct (Nat.eqb_spec a MAX_BASE) as [->|Hne].
  { unfold MAX_BASE in *. rewrite drop_ge by lia. by rewrite take_nil. }
  rewrite !chunk_boundary_spec, Ha, Hb by done. unfold str_slice.
  cbn [ctext chunk_of]. rewrite Ha, Hb.
  apply Nat.leb_le in Hab as ->. simpl andb. cbn [chars chars_utf16 newlines tabs ctext chunk_of].
  rewrite !low_mask_bits by (rewrite ?length_utf16_bits, ?length_fmap; done).
  rewrite !shr_of_bits by (unfold MAX_BASE in *; lia). unfold chunk_of.
  rewrite !fmap_take, !fmap_drop, utf16_bits_take, utf16_bits_drop by done.
  by rewrite !skipn_firstn_comm.
Qed.
