(* ===== verification/ChunkMeasures.v ===== *)
(** * What the bitmaps of a chunk measure

    The reference measures are read off the text; the operations on the
    bitmaps compute them. *)
From stdpp Require Import base numbers option list.
From Stdlib Require Import Lia.
From S2P Require Import Prelude Point Bits Utf8 Chunk ChunkFacts.
(** ** Reference measures *)

(** Characters, and UTF-16 code units, of a text. *)
Definition char_count (s : list N) : nat := ones (is_utf8_char_boundary <$> s).
Fixpoint utf16_units (s : list N) : nat :=
  match s with
  | [] => 0
  | b :: s => (if is_utf8_char_boundary b then if is_wide b then 2 else 1 else 0) + utf16_units s
  end.
Definition first_line (s : list N) : list N := (split_lines s).1.
Definition last_line (s : list N) : list N := default (first_line s) (last (split_lines s).2).

Abbreviation nl_bits s := (is_newline <$> s).

Lemma char_count_app s t : char_count (s ++ t) = char_count s + char_count t.
Proof. unfold char_count. by rewrite fmap_app, ones_app. Qed.

Lemma utf16_units_app s t : utf16_units (s ++ t) = utf16_units s + utf16_units t.
Proof. induction s as [|b s IH]; simpl; [done|]. rewrite IH. lia. Qed.

(** A character has one unit, or two when its leading byte is wide. *)
Lemma utf16_bits_char c : utf8_char c → ones (utf16_bits c) = utf16_units c.
Proof.
  assert (Hc : ∀ b, continuation b → is_utf8_char_boundary b = false ∧ is_wide b = false).
  { intros b Hb. split; [by apply continuation_not_boundary|]. destruct Hb. unfold is_wide.
    destruct (N.leb_spec 240 b); [lia|done]. }
  intros Hu. pose proof (utf8_char_cons c Hu) as (a & k & -> & _ & Ha & Hk & _).
  assert (E : ∀ k w, Forall continuation k →
    ones (zip_with orb (is_utf8_char_boundary <$> k) (w :: (is_wide <$> k))) =
    if w then match k with [] => 0 | _ => 1 end else 0).
  { clear -Hc. induction k as [|b k IH]; intros w Hk; [by destruct w|].
    apply Forall_cons in Hk as [Hb Hk]. destruct (Hc b Hb) as [E1 E2]. csimpl.
    rewrite ones_cons, E1, E2, IH by done. by destruct w. }
  unfold utf16_bits. csimpl. rewrite ones_cons, Ha. simpl. rewrite E by done.
  assert (E0 : utf16_units k = 0).
  { clear -Hk Hc. induction Hk as [|b k Hb Hk IH]; [done|]. simpl.
    by rewrite (proj1 (Hc b Hb)), IH. }
  rewrite E0. destruct (is_wide a) eqn:Ew; [|done]. unfold is_wide in Ew. apply N.leb_le in Ew.
  destruct k as [|x k]; [|done]. simpl in Hu. lia.
Qed.

Lemma utf16_bits_units s : utf8 s → ones (utf16_bits s) = utf16_units s.
Proof.
  induction 1 as [|c s Hc Hs IH]; [done|].
  assert (utf8 c). { rewrite <-(app_nil_r c). by apply utf8_cons; [|constructor]. }
  by rewrite utf16_bits_app, ones_app, utf16_units_app, utf16_bits_char, IH.
Qed.

(** ** Newlines *)
Lemma last_one_zero l : last_one l = 0 ↔ ones l = 0.
Proof.
  induction l as [|b l IH]; [done|]. rewrite ones_cons. cbn [last_one].
  destruct (last_one l) as [|n], b; split; try lia; intros; destruct IH as [IH1 IH2];
    try (specialize (IH1 eq_refl); lia); exfalso; specialize (IH2 ltac:(lia)); lia.
Qed.

Lemma extent_of_bits s :
  extent_of s = MkPoint (N.of_nat (ones (nl_bits s))) (N.of_nat (length s - last_one (nl_bits s))).
Proof.
  induction s as [|b s IH]; [done|]. cbn [extent_of fmap list_fmap length].
  change (list_fmap N bool is_newline s) with (nl_bits s).
  rewrite ones_cons. cbn [last_one]. rewrite IH. unfold point_plus. cbn [row column].
  pose proof (last_one_zero (nl_bits s)) as Hz.
  pose proof (last_one_le (nl_bits s)) as Hle. rewrite length_fmap in Hle.
  change (b =? NEWLINE)%N with (is_newline b).
  destruct (N.eqb_spec (N.of_nat (ones (nl_bits s))) 0) as [E|E].
  - assert (E0 : ones (nl_bits s) = 0) by lia. rewrite E0. apply Hz in E0. rewrite E0.
    destruct (is_newline b); cbn [row column]; f_equal; lia.
  - destruct (last_one (nl_bits s)) as [|n] eqn:En; [exfalso; apply E; rewrite (proj1 Hz); done|].
    destruct (is_newline b); cbn [row column]; f_equal; lia.
Qed.

Lemma split_lines_app first rest :
  first_one (nl_bits first) = None →
  split_lines (first ++ 10%N :: rest) =
  (first, first_line rest :: (split_lines rest).2).
Proof.
  induction first as [|b s IH]; intros H.
  - simpl. unfold first_line. by destruct (split_lines rest).
  - csimpl in H. cbn [app split_lines]. change (b =? NEWLINE)%N with (is_newline b).
    destruct (is_newline b); [done|]. destruct (first_one (nl_bits s)) eqn:E; [done|].
    by rewrite IH.
Qed.

Lemma split_lines_none s : first_one (nl_bits s) = None → split_lines s = (s, []).
Proof.
  induction s as [|b s IH]; intros H; [done|]. csimpl in H. cbn [split_lines].
  change (b =? NEWLINE)%N with (is_newline b). destruct (is_newline b); [done|].
  destruct (first_one (nl_bits s)) eqn:E; [done|]. by rewrite IH.
Qed.

Lemma first_one_split s i :
  first_one (nl_bits s) = Some i →
  ∃ first rest, s = first ++ 10%N :: rest ∧ length first = i ∧ first_one (nl_bits first) = None.
Proof.
  revert i. induction s as [|b s IH]; intros i H; [done|]. csimpl in H.
  destruct (is_newline b) eqn:Eb.
  - injection H as <-. exists [], s. unfold is_newline in Eb. apply N.eqb_eq in Eb as ->. done.
  - destruct (first_one (nl_bits s)) as [j|] eqn:E; [|done]. injection H as <-.
    destruct (IH j eq_refl) as (first & rest & -> & <- & Hn). exists (b :: first), rest.
    split_and!; [done|done|]. csimpl. by rewrite Eb, Hn.
Qed.

Lemma first_line_take s : first_line s = take (default (length s) (first_one (nl_bits s))) s.
Proof.
  unfold first_line. destruct (first_one (nl_bits s)) as [i|] eqn:E; simpl.
  - destruct (first_one_split s i E) as (first & rest & -> & <- & Hn).
    by rewrite split_lines_app, take_app_length.
  - by rewrite split_lines_none, take_ge by done.
Qed.

Lemma last_line_drop s : last_line s = drop (last_one (nl_bits s)) s.
Proof.
  assert (H : ∀ s, last_one (nl_bits s) = 0 ↔ (split_lines s).2 = []).
  { clear s. induction s as [|b s IH]; [done|]. csimpl. cbn [last_one split_lines].
    destruct (split_lines s) as [first rest]. simpl in IH. change (b =? NEWLINE)%N with (is_newline b).
    destruct (last_one (nl_bits s)) as [|n], (is_newline b); simpl; split; try done; try lia.
    - intros _. by apply IH.
    - intros Hr. by apply IH in Hr. }
  induction s as [|b s IH]; [done|]. csimpl. cbn [last_one]. specialize (H s).
  unfold last_line, first_line in *. cbn [split_lines]. destruct (split_lines s) as [first rest].
  cbn [fst snd] in *. change (b =? NEWLINE)%N with (is_newline b).
  destruct (last_one (nl_bits s)) as [|n] eqn:En.
  - rewrite (proj1 H eq_refl) in *. simpl in *. rewrite drop_0 in IH. subst first.
    by destruct (is_newline b).
  - destruct rest as [|l rest]; [by specialize (proj2 H eq_refl)|].
    destruct (is_newline b); simpl; simpl in IH; rewrite <-IH;
      destruct (last (l :: rest)) eqn:El; try done; by apply last_None in El.
Qed.

(** ** Masks *)
Lemma high_mask j :
  j ≤ BITS → saturating_shr_mask (BITS - j) = of_bits (replicate j false ++ replicate (BITS - j) true).
Proof.
  intros Hj. apply word_eq. intros i. unfold saturating_shr_mask, word_not, word_max.
  rewrite N.lxor_spec, testbit_of_bits.
  assert (E : N.testbit (unbounded_shr BITS (N.ones (N.of_nat BITS)) (BITS - j)) (N.of_nat i) = (i <? j)).
  { unfold unbounded_shr. destruct (Nat.ltb_spec (BITS - j) BITS) as [Hlt|Hge].
    - rewrite N.shiftr_spec', <-Nat2N.inj_add. destruct (Nat.ltb_spec i j).
      + apply N.ones_spec_low. lia.
      + apply N.ones_spec_high. lia.
    - rewrite N.bits_0. destruct (Nat.ltb_spec i j); [lia|done]. }
  rewrite E. destruct (Nat.ltb_spec i j) as [Hlt|Hge].
  - rewrite N.ones_spec_low by lia.
    by rewrite lookup_app_l, lookup_replicate_2 by (rewrite ?length_replicate; lia).
  - rewrite lookup_app_r, length_replicate by (rewrite length_replicate; lia).
    destruct (decide (i < BITS)).
    + by rewrite N.ones_spec_low, lookup_replicate_2 by lia.
    + by rewrite N.ones_spec_high, lookup_ge_None_2 by (rewrite ?length_replicate; lia).
Qed.

Lemma count_high l j :
  length l ≤ BITS → j ≤ BITS →
  count_ones (N.land (of_bits l) (saturating_shr_mask (BITS - j))) = ones (drop j l).
Proof.
  intros Hl Hj. rewrite high_mask, land_of_bits, count_ones_of_bits by done.
  clear -Hl. revert l Hl. generalize BITS as n. induction j as [|j IH]; intros n l Hl.
  - rewrite Nat.sub_0_r. simpl. by rewrite zip_and_true, take_ge.
  - destruct l as [|b l]; [done|]. simpl in *. rewrite andb_false_r, ones_cons. simpl.
    specialize (IH (n - 1) l ltac:(lia)). by replace (n - S j) with (n - 1 - j) by lia.
Qed.

(** ** Measures of a chunk *)
Section Measures.
Context (text : list N).
Hypothesis Hutf8 : utf8 text.
Hypothesis Hlen : length text ≤ BITS.

Lemma nl_len : length (nl_bits text) ≤ BITS.
Proof. by rewrite length_fmap. Qed.

Lemma slice_len_utf16_spec : slice_len_utf16 (chunk_of text) = utf16_units text.
Proof. unfold slice_len_utf16. simpl. by rewrite count_ones_of_bits, utf16_bits_units. Qed.

Lemma slice_lines_spec : slice_lines (chunk_of text) = Ret (extent_of text).
Proof.
  unfold slice_lines. cbn [newlines ctext chunk_of]. rewrite usize_sub_ok by done.
  rewrite count_ones_of_bits, leading_zeros_of_bits, extent_of_bits.
  pose proof (last_one_le (nl_bits text)) as H. rewrite length_fmap in H.
  rewrite usize_sub_ok by lia. do 3 f_equal. lia.
Qed.

Lemma first_line_chars_spec : first_line_chars (chunk_of text) = char_count (first_line text).
Proof.
  unfold first_line_chars, saturating_shl_mask. cbn [chars newlines chunk_of].
  rewrite low_mask_bits, count_ones_of_bits by (by rewrite length_fmap).
  rewrite trailing_zeros_of_bits, first_line_take. unfold char_count. rewrite fmap_take. f_equal.
  destruct (first_one (nl_bits text)); simpl; [done|]. by rewrite !take_ge by (rewrite length_fmap; done).
Qed.

Lemma last_line_chars_spec : last_line_chars (chunk_of text) = char_count (last_line text).
Proof.
  unfold last_line_chars. cbn [chars newlines chunk_of].
  pose proof (last_one_le (nl_bits text)) as H. rewrite length_fmap in H.
  rewrite leading_zeros_of_bits, count_high by (rewrite ?length_fmap; lia).
  unfold char_count. by rewrite last_line_drop, fmap_drop.
Qed.

(** The text after the last newline is again a text. *)
Lemma last_one_newline (s : list N) n : last_one (nl_bits s) = S n → s !! n = Some 10%N.
Proof.
  revert n. induction s as [|x s IH]; intros n En; [done|].
  csimpl in En. cbn [last_one] in En. destruct (last_one (nl_bits s)) as [|m].
  - destruct (is_newline x) eqn:Ex; [|done]. injection En as <-. unfold is_newline in Ex.
    by apply N.eqb_eq in Ex as ->.
  - injection En as <-. simpl. by apply IH.
Qed.

Lemma last_line_utf8 (s : list N) :
  utf8 s → utf8 (take (last_one (nl_bits s)) s) ∧ utf8 (last_line s).
Proof.
  intros Hs. rewrite last_line_drop.
  assert (Hb : str_is_char_boundary s (last_one (nl_bits s)) = true).
  { destruct (last_one (nl_bits s)) as [|n] eqn:En; [done|].
    apply last_one_newline in En. by eapply utf8_after_ascii. }
  destruct (utf8_split _ _ Hs Hb) as (H1 & H2 & _). done.
Qed.

Lemma units_last_line (s : list N) :
  utf8 s → ones (drop (last_one (nl_bits s)) (utf16_bits s)) = utf16_units (last_line s).
Proof.
  intros Hs. destruct (last_line_utf8 s Hs) as [H1 H2].
  rewrite <-utf16_bits_drop, <-last_line_drop by done. by apply utf16_bits_units.
Qed.

Lemma last_line_len_utf16_spec : last_line_len_utf16 (chunk_of text) = utf16_units (last_line text).
Proof.
  unfold last_line_len_utf16. cbn [chars_utf16 newlines chunk_of].
  pose proof (last_one_le (nl_bits text)) as H. rewrite length_fmap in H.
  rewrite leading_zeros_of_bits, count_high by (rewrite ?length_utf16_bits; lia).
  by apply units_last_line.
Qed.

(** ** Positions *)
Lemma newline_ix_spec k :
  k ≤ length text →
  N.land (newlines (chunk_of text)) (wrapping_sub BITS (unbounded_shl BITS 1 k) 1)
  = of_bits (nl_bits (take k text)) ∧
  BITS - leading_zeros BITS (of_bits (nl_bits (take k text))) = last_one (nl_bits (take k text)) ∧
  last_one (nl_bits (take k text)) ≤ k.
Proof.
  intros Hk. cbn [newlines chunk_of]. rewrite low_mask_bits by apply nl_len. rewrite fmap_take.
  rewrite leading_zeros_of_bits. pose proof (last_one_le (take k (nl_bits text))) as H.
  rewrite length_take, length_fmap in H. split_and!; [done|lia|lia].
Qed.

Lemma offset_to_point_spec k :
  k ≤ length text → offset_to_point (chunk_of text) k = Ret (extent_of (take k text)).
Proof.
  intros Hk. unfold offset_to_point. destruct (newline_ix_spec k Hk) as (-> & -> & Hle).
  rewrite usize_sub_ok, count_ones_of_bits, extent_of_bits, length_take, Nat.min_l by lia.
  rewrite wrap_small; [done|]. unfold BITS in Hlen. simpl. lia.
Qed.

Lemma offset_to_offset_utf16_spec k :
  str_is_char_boundary text k = true →
  offset_to_offset_utf16 (chunk_of text) k = utf16_units (take k text).
Proof.
  intros Hb. destruct (utf8_split _ _ Hutf8 Hb) as (H1 & _ & _). unfold offset_to_offset_utf16.
  cbn [chars_utf16 chunk_of]. rewrite low_mask_bits by (by rewrite length_utf16_bits).
  by rewrite <-utf16_bits_take, count_ones_of_bits, utf16_bits_units.
Qed.

Lemma offset_to_point_utf16_spec k :
  str_is_char_boundary text k = true →
  offset_to_point_utf16 (chunk_of text) k =
  Ret (MkPoint (row (extent_of (take k text))) (N.of_nat (utf16_units (last_line (take k text))))).
Proof.
  intros Hb. destruct (utf8_split _ _ Hutf8 Hb) as (H1 & _ & Hk). unfold offset_to_point_utf16.
  fold (saturating_shl_mask k). unfold saturating_shl_mask.
  destruct (newline_ix_spec k Hk) as (-> & -> & Hle).
  rewrite count_ones_of_bits, extent_of_bits. cbn [row]. unfold MAX_BASE.
  destruct (Nat.eqb_spec (last_one (nl_bits (take k text))) BITS) as [E|E].
  - rewrite last_line_drop, E, drop_ge; [done|]. rewrite length_take. lia.
  - cbn [chars_utf16 chunk_of]. rewrite low_mask_bits by (by rewrite length_utf16_bits).
    rewrite shr_of_bits by lia. rewrite <-utf16_bits_take, count_ones_of_bits.
    by rewrite units_last_line.
Qed.
End Measures.

(** * The longest row of a text

    Rows are compared by their number of characters; among equals the first
    counts, and a text with no character on any row has row 0.  The loop of
    [ChunkSlice::longest_row] finds it on the bitmaps. *)
(** The characters of each row. *)
Definition rows (s : list N) : list nat := char_count <$> split_newlines s.

(** [best l r c]: row [r] has the most characters, [c], and is the first such. *)
Definition best (l : list nat) (r c : nat) : Prop :=
  (∀ x, x ∈ l → x ≤ c) ∧
  (c = 0 ∧ r = 0 ∨ 0 < c ∧ l !! r = Some c ∧ ∀ j x, j < r → l !! j = Some x → x < c).

Lemma best_unique l r c r' c' : best l r c → best l r' c' → r = r' ∧ c = c'.
Proof.
  intros [Hle H] [Hle' H'].
  assert (Hin : ∀ i x, l !! i = Some x → x ≤ c ∧ x ≤ c').
  { intros i x Hx. apply list_elem_of_lookup_2 in Hx. auto. }
  destruct H as [[-> ->]|(Hc & Hr & Hb)], H' as [[-> ->]|(Hc' & Hr' & Hb')]; [done|..].
  - apply Hin in Hr'. lia.
  - apply Hin in Hr. lia.
  - assert (c = c') as ->. { pose proof (Hin _ _ Hr). pose proof (Hin _ _ Hr'). lia. }
    split; [|done]. destruct (Nat.lt_trichotomy r r') as [Hlt|[->|Hlt]]; [|done|].
    + specialize (Hb' _ _ Hlt Hr). lia.
    + specialize (Hb _ _ Hlt Hr'). lia.
Qed.

(** One more row. *)
Lemma best_snoc l r c x :
  best l r c → best (l ++ [x]) (if c <? x then length l else r) (if c <? x then x else c).
Proof.
  intros [Hle H]. destruct (Nat.ltb_spec c x) as [Hlt|Hge].
  - split.
    + intros y [Hy|Hy]%elem_of_app; [apply Hle in Hy; lia|]. apply list_elem_of_singleton in Hy. lia.
    + right. split; [lia|]. split; [by rewrite list_lookup_middle|].
      intros j y Hj Hy. rewrite lookup_app_l in Hy by done. apply list_elem_of_lookup_2, Hle in Hy. lia.
  - split.
    + intros y [Hy|Hy]%elem_of_app; [by auto|]. apply list_elem_of_singleton in Hy. lia.
    + destruct H as [[-> ->]|(Hc & Hr & Hb)]; [by left|right].
      split; [done|]. pose proof (lookup_lt_Some _ _ _ Hr). split; [by rewrite lookup_app_l|].
      intros j y Hj Hy. rewrite lookup_app_l in Hy by lia. by eapply Hb.
Qed.

(** An executable reference. *)
Definition longest_of (l : list nat) : nat * nat :=
  foldl (λ '(r, c) '(i, x), if c <? x then (i, x) else (r, c)) (0, 0) (imap pair l).

Lemma longest_of_best l : best l (longest_of l).1 (longest_of l).2.
Proof.
  unfold longest_of. induction l as [|x l IH] using rev_ind.
  { split; [by intros ? ?%not_elem_of_nil|by left]. }
  rewrite imap_app, foldl_app. simpl. rewrite Nat.add_0_r.
  destruct (foldl _ _ _) as [r c]. apply best_snoc with (x := x) in IH. simpl in *.
  by destruct (c <? x).
Qed.

(** ** The loop *)
Definition row_inv (text : list N) (s : RowState) : Prop :=
  ∃ rest ls, l_chars s = of_bits (is_utf8_char_boundary <$> rest) ∧ l_newlines s = of_bits (nl_bits rest) ∧
    length rest ≤ BITS ∧ total_chars s + char_count rest = char_count text ∧
    split_newlines text = ls ++ split_newlines rest ∧ l_row s = length ls ∧
    best (char_count <$> ls) (longest s) (longest_chars s).

Lemma row_state_newlines (s : list N) : (0 <? of_bits (nl_bits s))%N = true → ∃ i, first_one (nl_bits s) = Some i.
Proof.
  intros H. apply N.ltb_lt in H. destruct (of_bits (nl_bits s)) as [|p] eqn:E; [lia|].
  apply of_bits_pos in E. by eexists.
Qed.

Lemma split_newlines_app first rest :
  first_one (nl_bits first) = None →
  split_newlines (first ++ 10%N :: rest) = first :: split_newlines rest.
Proof.
  intros H. unfold split_newlines. rewrite split_lines_app by done. unfold first_line.
  by destruct (split_lines rest).
Qed.

Lemma longest_row_step_spec text s :
  row_inv text s →
  (∃ s', longest_row_step s = Ret (inl s') ∧ row_inv text s' ∧
     count_ones (l_newlines s') < count_ones (l_newlines s)) ∨
  (∃ r c, longest_row_step s = Ret (inr (char_count text, r, c)) ∧ best (rows text) r c).
Proof.
  intros (rest & ls & Ec & En & Hlen & Htot & Hsplit & Hrow & Hbest). unfold longest_row_step.
  rewrite En. destruct (0 <? of_bits (nl_bits rest))%N eqn:E0; [left|right].
  - destruct (row_state_newlines rest E0) as [i Hi].
    destruct (first_one_split rest i Hi) as (first & rest' & -> & <- & Hnone).
    rewrite length_app in Hlen. cbn [length] in Hlen.
    rewrite trailing_zeros_of_bits, Hi. cbn [default from_option id]. rewrite Ec, shl_one by lia.
    rewrite pow2_pred, mask_bits, count_ones_of_bits, <-fmap_take, take_app_length.
    fold (char_count first).
    pose proof (best_snoc _ _ _ (char_count first) Hbest) as Hb. rewrite length_fmap in Hb.
    rewrite Hrow.
    replace (if longest_chars s <? char_count first then (length ls, char_count first)
             else (longest s, longest_chars s))
      with (if longest_chars s <? char_count first then length ls else longest s,
            if longest_chars s <? char_count first then char_count first else longest_chars s)
      by (by destruct (longest_chars s <? char_count first)).
    cbn beta iota zeta.
    rewrite !shr_of_bits by (unfold BITS in *; lia). eexists. split; [done|].
    rewrite !drop_drop, <-!fmap_drop.
    replace (first ++ 10%N :: rest') with ((first ++ [10%N]) ++ rest') in * by (by rewrite <-app_assoc).
    rewrite drop_app_length' by (rewrite length_app; simpl; lia). split.
    + exists rest', (ls ++ [first]). cbn [l_chars l_newlines total_chars l_row longest longest_chars].
      split_and!; try done.
      * lia.
      * rewrite !char_count_app in Htot. change (char_count [10%N]) with 1 in Htot. lia.
      * rewrite Hsplit, <-!app_assoc. cbn [app]. by rewrite split_newlines_app.
      * rewrite length_app. simpl. lia.
      * by rewrite fmap_app.
    + cbn [l_newlines]. rewrite !count_ones_of_bits, !fmap_app, !ones_app.
      change (ones (nl_bits [10%N])) with 1. lia.
  - assert (Hn : first_one (nl_bits rest) = None).
    { apply of_bits_zero. apply N.ltb_ge in E0. lia. }
    rewrite Ec, count_ones_of_bits. fold (char_count rest). rewrite Htot, Hrow.
    pose proof (best_snoc _ _ _ (char_count rest) Hbest) as Hb. rewrite length_fmap in Hb.
    assert (Er : rows text = (char_count <$> ls) ++ [char_count rest]).
    { unfold rows. rewrite Hsplit, fmap_app. unfold split_newlines. by rewrite split_lines_none. }
    rewrite Er. destruct (longest_chars s <? char_count rest); eexists _, _; (split; [done|done]).
Qed.

Lemma longest_row_spec text :
  length text ≤ BITS →
  returns (longest_row (chunk_of text)) (λ '(total, r, c), total = char_count text ∧ best (rows text) r c).
Proof.
  intros Hlen. unfold longest_row.
  eapply returns_mono.
  - apply (loop_returns longest_row_step (row_inv text) (λ s, count_ones (l_newlines s))
      (λ '(total, r, c), total = char_count text ∧ best (rows text) r c)).
    + intros s Hs. destruct (longest_row_step_spec text s Hs) as [?|(r & c & E & Hb)]; [by left|right].
      by eexists.
    + exists text, []. simpl. split_and!; try done. split; [by intros ? ?%not_elem_of_nil|by left].
    + cbn [l_newlines newlines chunk_of]. rewrite count_ones_of_bits. unfold ones.
      pose proof (filter_length_le id (nl_bits text)) as H. rewrite length_fmap in H. lia.
  - by intros [[total r] c].
Qed.
