(* ===== verification/TextSummary.v ===== *)
(** * Summaries of texts

    Models [TextSummary] of [crates/rope/src/rope.rs] and
    [ChunkSlice::text_summary]: the summary the rope's tree keeps.  Its fields
    of type [u32] are numbers with checked addition, those of type [usize]
    likewise. *)
From stdpp Require Import base numbers option list.
From Stdlib Require Import Lia.
From S2P Require Import Prelude Bits Utf8 Point Chunk ChunkFacts ChunkMeasures.

Record TextSummary := MkTextSummary {
  ts_len : nat; ts_chars : nat; ts_len_utf16 : nat; ts_lines : Point;
  ts_first_line_chars : N; ts_last_line_chars : N; ts_last_line_len_utf16 : N;
  ts_longest_row : N; ts_longest_row_chars : N }.

Definition ts_zero : TextSummary := MkTextSummary 0 0 0 point_zero 0 0 0 0 0.
Definition lines_utf16 (self : TextSummary) : PointUtf16 :=
  MkPoint (row (ts_lines self)) (ts_last_line_len_utf16 self).
Definition ts_newline : TextSummary := MkTextSummary 1 1 1 (MkPoint 1 0) 0 0 0 0 0.

Definition add_newline (self : TextSummary) : outcome TextSummary :=
  let* len := usize_add (ts_len self) 1 in
  let* more := usize_add (ts_len_utf16 self) 1 in
  let* len_utf16 := usize_add (ts_len_utf16 self) more in
  let* lines := point_add_assign (ts_lines self) (MkPoint 1 0) in
  Ret (MkTextSummary len (ts_chars self) len_utf16 lines (ts_first_line_chars self) 0 0
         (ts_longest_row self) (ts_longest_row_chars self)).

(** [AddAssign<&Self>]: first the longest row, with the row where the two
    texts join, then the other fields. *)
Definition join_longest (self other : TextSummary) : outcome (N * N) :=
  let* joined_chars := u32_add (ts_last_line_chars self) (ts_first_line_chars other) in
  let '(longest_row, longest_row_chars) :=
    if (ts_longest_row_chars self <? joined_chars)%N then (row (ts_lines self), joined_chars)
    else (ts_longest_row self, ts_longest_row_chars self) in
  if (longest_row_chars <? ts_longest_row_chars other)%N then
    let* r := u32_add (row (ts_lines self)) (ts_longest_row other) in
    Ret (r, ts_longest_row_chars other)
  else Ret (longest_row, longest_row_chars).

Definition join_first (self other : TextSummary) : outcome N :=
  if (row (ts_lines self) =? 0)%N then u32_add (ts_first_line_chars self) (ts_first_line_chars other)
  else Ret (ts_first_line_chars self).

Definition join_last (self other : TextSummary) : outcome (N * N) :=
  if (row (ts_lines other) =? 0)%N then
    let* c := u32_add (ts_last_line_chars self) (ts_first_line_chars other) in
    let* u := u32_add (ts_last_line_len_utf16 self) (ts_last_line_len_utf16 other) in
    Ret (c, u)
  else Ret (ts_last_line_chars other, ts_last_line_len_utf16 other).

Definition ts_add_assign (self other : TextSummary) : outcome TextSummary :=
  let* '(longest_row, longest_row_chars) := join_longest self other in
  let* first_line_chars := join_first self other in
  let* '(last_line_chars, last_line_len_utf16) := join_last self other in
  let* chars := usize_add (ts_chars self) (ts_chars other) in
  let* len := usize_add (ts_len self) (ts_len other) in
  let* len_utf16 := usize_add (ts_len_utf16 self) (ts_len_utf16 other) in
  let* lines := point_add_assign (ts_lines self) (ts_lines other) in
  Ret (MkTextSummary len chars len_utf16 lines first_line_chars last_line_chars last_line_len_utf16
         longest_row longest_row_chars).

(** [ChunkSlice::text_summary] *)
Definition text_summary (self : ChunkSlice) : outcome TextSummary :=
  let* '(total, longest_row, longest_row_chars) := longest_row self in
  let* lines := slice_lines self in
  Ret (MkTextSummary (slice_len self) total (slice_len_utf16 self) lines
         (N.of_nat (first_line_chars self)) (N.of_nat (last_line_chars self))
         (N.of_nat (last_line_len_utf16 self)) (N.of_nat longest_row) (N.of_nat longest_row_chars)).

(** [str::chars]: a character is the bytes from one boundary to the next. *)
Fixpoint chars_from (s : list N) : list N * list (list N) :=
  match s with
  | [] => ([], [])
  | b :: s =>
      let '(pending, cs) := chars_from s in
      if is_utf8_char_boundary b then ([], (b :: pending) :: cs) else (b :: pending, cs)
  end.
Definition str_chars (s : list N) : list (list N) := (chars_from s).2.
Definition char_len_utf16 (c : list N) : nat :=
  match c with b :: _ => if is_wide b then 2 else 1 | [] => 0 end.

(** The loop of [From<&str>]; [len] is set at its end. *)
Definition from_char (st : TextSummary) (c : list N) : outcome TextSummary :=
  let* chars := usize_add (ts_chars st) 1 in
  let* len_utf16 := usize_add (ts_len_utf16 st) (char_len_utf16 c) in
  let* '(lines, last_utf16, last_chars) :=
    if bool_decide (c = [NEWLINE]) then
      let* l := point_add_assign (ts_lines st) (MkPoint 1 0) in Ret (l, 0%N, 0%N)
    else
      let* col := u32_add (column (ts_lines st)) (N.of_nat (length c)) in
      let* u := u32_add (ts_last_line_len_utf16 st) (N.of_nat (char_len_utf16 c)) in
      let* k := u32_add (ts_last_line_chars st) 1 in
      Ret (MkPoint (row (ts_lines st)) col, u, k) in
  let first_chars := if (row lines =? 0)%N then last_chars else ts_first_line_chars st in
  let '(longest_row, longest_chars) :=
    if (ts_longest_row_chars st <? last_chars)%N then (row lines, last_chars)
    else (ts_longest_row st, ts_longest_row_chars st) in
  Ret (MkTextSummary (ts_len st) chars len_utf16 lines first_chars last_chars last_utf16
         longest_row longest_chars).

Fixpoint from_chars (st : TextSummary) (cs : list (list N)) : outcome TextSummary :=
  match cs with
  | [] => Ret st
  | c :: cs => let* st := from_char st c in from_chars st cs
  end.

Definition with_len (n : nat) (st : TextSummary) : TextSummary :=
  MkTextSummary n (ts_chars st) (ts_len_utf16 st) (ts_lines st) (ts_first_line_chars st)
    (ts_last_line_chars st) (ts_last_line_len_utf16 st) (ts_longest_row st) (ts_longest_row_chars st).

Definition summary_from_str (text : list N) : outcome TextSummary :=
  let* st := from_chars ts_zero (str_chars text) in Ret (with_len (length text) st).

(** ** The reference: the summary of a text *)
Definition summary_of (s : list N) : TextSummary :=
  MkTextSummary (length s) (char_count s) (utf16_units s) (extent_of s)
    (N.of_nat (char_count (first_line s))) (N.of_nat (char_count (last_line s)))
    (N.of_nat (utf16_units (last_line s)))
    (N.of_nat (longest_of (rows s)).1) (N.of_nat (longest_of (rows s)).2).

Lemma longest_of_unique s r c : best (rows s) r c → r = (longest_of (rows s)).1 ∧ c = (longest_of (rows s)).2.
Proof. intros H. eapply best_unique; [done|]. apply longest_of_best. Qed.

Lemma text_summary_spec s :
  utf8 s → length s ≤ BITS → text_summary (chunk_of s) = Ret (summary_of s).
Proof.
  intros Hu Hl. unfold text_summary. destruct (longest_row_spec s Hl) as ([[total r] c] & -> & -> & Hb).
  apply longest_of_unique in Hb as [-> ->].
  rewrite slice_lines_spec, slice_len_utf16_spec, first_line_chars_spec, last_line_chars_spec,
    last_line_len_utf16_spec by done. done.
Qed.

(** ** Joining texts joins a last with a first line *)
Definition no_newline (s : list N) : Prop := (split_lines s).2 = [].

Lemma default_last {A} (d f : A) (r : list A) : default d (last (f :: r)) = default f (last r).
Proof.
  destruct r as [|l r]; [done|]. change (last (f :: l :: r)) with (last (l :: r)).
  by destruct (last (l :: r)) eqn:E; [|apply last_None in E].
Qed.

Lemma split_newlines_join s t :
  ∃ init, split_newlines s = init ++ [last_line s] ∧
    split_newlines (s ++ t) = init ++ (last_line s ++ first_line t) :: (split_lines t).2.
Proof.
  induction s as [|b s (init & E1 & E2)].
  - exists []. split; [done|]. unfold split_newlines, first_line. simpl. by destruct (split_lines t).
  - unfold split_newlines, last_line, first_line in *. cbn [app split_lines].
    destruct (split_lines s) as [f r], (split_lines (s ++ t)) as [f' r']. cbn [fst snd] in *.
    destruct (b =? NEWLINE)%N.
    + exists ([] :: init). cbn [fst snd]. rewrite default_last, E1, E2. done.
    + destruct init as [|i init]; cbn [fst snd app] in *.
      * injection E1 as E1 Er. subst r. injection E2 as -> ->. exists []. done.
      * injection E1 as -> ->. injection E2 as -> ->. exists ((b :: i) :: init). simpl.
        by rewrite last_snoc.
Qed.

Lemma row_extent s : row (extent_of s) = N.of_nat (length (split_lines s).2).
Proof. pose proof (split_lines_extent s) as H. destruct (split_lines s). by rewrite H. Qed.

Lemma row_zero s : (row (extent_of s) =? 0)%N = true ↔ no_newline s.
Proof.
  rewrite row_extent, N.eqb_eq. unfold no_newline. destruct (split_lines s).2; simpl; split; try done; lia.
Qed.

Lemma no_newline_lines s : no_newline s → first_line s = s ∧ last_line s = s.
Proof.
  intros H. assert (E : first_line s = s); [|split; [done|by unfold last_line; rewrite H]].
  unfold no_newline, first_line in *. induction s as [|b s IH]; [done|]. cbn [split_lines] in *.
  destruct (split_lines s) as [f r]. destruct (b =? NEWLINE)%N; [done|]. simpl in *. by rewrite IH.
Qed.

Lemma first_line_join s t :
  first_line (s ++ t) = if (row (extent_of s) =? 0)%N then first_line s ++ first_line t else first_line s.
Proof.
  destruct (split_newlines_join s t) as (init & E1 & E2). rewrite row_extent.
  unfold split_newlines, last_line, first_line in *.
  destruct (split_lines s) as [f r], (split_lines (s ++ t)) as [f' r'], (split_lines t) as [ft rt].
  cbn [fst snd] in *. destruct init as [|i init]; simpl in *.
  - injection E1 as -> ->. injection E2 as -> ->. done.
  - injection E1 as -> ->. injection E2 as -> ->. rewrite length_app. simpl.
    by destruct (N.eqb_spec (N.of_nat (length init + 1)) 0); [lia|].
Qed.

Lemma last_line_join s t :
  last_line (s ++ t) = if (row (extent_of t) =? 0)%N then last_line s ++ first_line t else last_line t.
Proof.
  destruct (split_newlines_join s t) as (init & _ & E2). rewrite row_extent.
  assert (El : ∀ u, last (split_newlines u) = Some (last_line u)).
  { intros u. unfold split_newlines, last_line, first_line. destruct (split_lines u) as [f [|l r]]; [done|].
    cbn [fst snd last]. by destruct (last (l :: r)) eqn:E; [|apply last_None in E]. }
  pose proof (El (s ++ t)) as H. rewrite E2, last_app in H. unfold last_line at 3. unfold first_line in *.
  destruct (split_lines t) as [ft rt]. cbn [fst snd] in *. destruct rt as [|l r]; simpl in *.
  - by injection H as <-.
  - destruct (last (l :: r)) eqn:E; [|by apply last_None in E]. by injection H as <-.
Qed.

(** ** Bounds: no count exceeds the bytes *)
Lemma char_count_le s : char_count s ≤ length s.
Proof. unfold char_count. rewrite ones_le. by rewrite length_fmap. Qed.
Lemma utf16_units_le s : utf8 s → utf16_units s ≤ length s.
Proof. intros H. rewrite <-utf16_bits_units by done. rewrite ones_le. by rewrite length_utf16_bits. Qed.
Lemma first_line_le s : length (first_line s) ≤ length s.
Proof. rewrite first_line_take, length_take. lia. Qed.
Lemma last_line_le s : length (last_line s) ≤ length s.
Proof. rewrite last_line_drop, length_drop. lia. Qed.

Lemma longest_of_le s : (longest_of (rows s)).2 ≤ length s.
Proof.
  destruct (longest_of_best (rows s)) as [_ [[-> _]|(_ & H & _)]]; [lia|].
  apply list_elem_of_lookup_2, list_elem_of_fmap in H as (l & -> & Hl).
  rewrite char_count_le. clear -Hl. revert l Hl. unfold split_newlines.
  induction s as [|b s IH]; simpl; intros l Hl.
  - by apply list_elem_of_singleton in Hl as ->.
  - destruct (split_lines s) as [f r]. destruct (b =? NEWLINE)%N.
    + apply elem_of_cons in Hl as [->|Hl]; [simpl; lia|]. apply IH in Hl. lia.
    + apply elem_of_cons in Hl as [->|Hl]; simpl.
      * specialize (IH f (list_elem_of_here _ _)). lia.
      * specialize (IH l (list_elem_of_further _ _ _ Hl)). lia.
Qed.

(** ** The longest row of joined texts *)
Lemma rows_join s t :
  ∃ init, rows s = init ++ [char_count (last_line s)] ∧ length init = length (split_lines s).2 ∧
    rows t = char_count (first_line t) :: (char_count <$> (split_lines t).2) ∧
    rows (s ++ t) = init ++ (char_count (last_line s) + char_count (first_line t)) ::
      (char_count <$> (split_lines t).2).
Proof.
  destruct (split_newlines_join s t) as (init & E1 & E2). exists (char_count <$> init).
  unfold rows. rewrite E1, E2, !fmap_app. csimpl. rewrite char_count_app, length_fmap.
  split_and!; [done| | |done].
  - unfold split_newlines in E1. destruct (split_lines s). simpl.
    apply (f_equal length) in E1. rewrite length_app in E1. simpl in E1. lia.
  - unfold split_newlines, first_line. by destruct (split_lines t).
Qed.

(** A longer last row. *)
Lemma best_grow init x y r c :
  best (init ++ [x]) r c →
  best (init ++ [x + y]) (if c <? x + y then length init else r) (if c <? x + y then x + y else c).
Proof.
  intros [Hle H].
  assert (Hi : ∀ z, z ∈ init → z ≤ c) by (intros z Hz; apply Hle, elem_of_app; by left).
  destruct (Nat.ltb_spec c (x + y)) as [Hlt|Hge].
  - split.
    + intros z [Hz|Hz]%elem_of_app; [apply Hi in Hz; lia|]. apply list_elem_of_singleton in Hz. lia.
    + right. split; [lia|]. split; [by rewrite list_lookup_middle|].
      intros j z Hj Hz. rewrite lookup_app_l in Hz by done. apply list_elem_of_lookup_2, Hi in Hz. lia.
  - split.
    + intros z [Hz|Hz]%elem_of_app; [by auto|]. apply list_elem_of_singleton in Hz. lia.
    + destruct H as [[-> ->]|(Hc & Hr & Hb)]; [by left|right]. split; [done|].
      pose proof (lookup_lt_Some _ _ _ Hr) as Hlen. rewrite length_app in Hlen. simpl in Hlen. split.
      * destruct (decide (r < length init)) as [Hlt|Hge'].
        -- rewrite lookup_app_l in Hr |- * by done. done.
        -- assert (r = length init) as -> by lia. rewrite list_lookup_middle in Hr |- * by done.
           injection Hr as <-. f_equal. lia.
      * intros j z Hj Hz. apply (Hb j z Hj). rewrite lookup_app_l in Hz |- * by lia. done.
Qed.

(** More rows after the last. *)
Lemma best_more init x y more r c r2 c2 :
  best (init ++ [x + y]) r c → best (y :: more) r2 c2 →
  best (init ++ (x + y) :: more) (if c <? c2 then length init + r2 else r) (if c <? c2 then c2 else c).
Proof.
  intros [Hle H] [Hle2 H2]. rewrite cons_middle, app_assoc.
  assert (Hxy : x + y ≤ c) by (apply Hle, elem_of_app; right; by apply list_elem_of_singleton).
  assert (Hm : ∀ z, z ∈ more → z ≤ c2) by (intros z Hz; by apply Hle2, list_elem_of_further).
  destruct (Nat.ltb_spec c c2) as [Hlt|Hge].
  - destruct H2 as [[-> _]|(Hc2 & Hr2 & Hb2)]; [lia|].
    destruct r2 as [|r2]; [injection Hr2 as <-; lia|]. simpl in Hr2. split.
    + intros z [Hz|Hz]%elem_of_app; [apply Hle in Hz; lia|by auto].
    + right. split; [done|]. split.
      * rewrite lookup_app_r by (rewrite length_app; simpl; lia). rewrite length_app. simpl.
        by replace (length init + S r2 - (length init + 1)) with r2 by lia.
      * intros j z Hj Hz. destruct (decide (j < length (init ++ [x + y]))) as [Hj'|Hj'].
        -- rewrite lookup_app_l in Hz by done. apply list_elem_of_lookup_2, Hle in Hz. lia.
        -- rewrite lookup_app_r in Hz by lia. rewrite length_app in Hz, Hj'. simpl in Hz, Hj'.
           apply (Hb2 (S (j - (length init + 1)))); [lia|done].
  - split.
    + intros z [Hz|Hz]%elem_of_app; [by auto|]. apply Hm in Hz. lia.
    + destruct H as [[-> ->]|(Hc & Hr & Hb)]; [by left|right]. split; [done|].
      pose proof (lookup_lt_Some _ _ _ Hr). split; [by rewrite lookup_app_l|].
      intros j z Hj Hz. rewrite lookup_app_l in Hz by lia. by eapply Hb.
Qed.

(** The comparisons of [add_assign] pick the longest row of the whole. *)
Lemma longest_join s t :
  let c1 := (longest_of (rows s)).2 in
  let c2 := (longest_of (rows t)).2 in
  let joined := char_count (last_line s) + char_count (first_line t) in
  let c := if c1 <? joined then joined else c1 in
  (longest_of (rows (s ++ t))).1 =
    (if c <? c2 then length (split_lines s).2 + (longest_of (rows t)).1
     else if c1 <? joined then length (split_lines s).2 else (longest_of (rows s)).1) ∧
  (longest_of (rows (s ++ t))).2 = if c <? c2 then c2 else c.
Proof.
  destruct (rows_join s t) as (init & Es & Hinit & Et & Est). cbn zeta.
  pose proof (longest_of_best (rows s)) as Bs. rewrite Es in Bs at 1.
  pose proof (longest_of_best (rows t)) as Bt. rewrite Et in Bt at 1.
  apply (best_grow _ _ (char_count (first_line t))) in Bs.
  pose proof (best_more _ _ _ _ _ _ _ _ Bs Bt) as B. rewrite <-Est, Hinit in B.
  apply longest_of_unique in B as [<- <-]. done.
Qed.

(** Comparisons of the [u32] fields are those of the counts. *)
Lemma ltb_of_nat a b : (N.of_nat a <? N.of_nat b)%N = (a <? b).
Proof. destruct (Nat.ltb_spec a b), (N.ltb_spec (N.of_nat a) (N.of_nat b)); (done || lia). Qed.

Lemma u32_add_nat a b : (N.of_nat (a + b) <= U32_MAX)%N → u32_add (N.of_nat a) (N.of_nat b) = Ret (N.of_nat (a + b)).
Proof. intros H. rewrite u32_add_ok by lia. f_equal. lia. Qed.

Lemma longest_row_le s : (longest_of (rows s)).1 ≤ length (split_lines s).2.
Proof.
  destruct (longest_of_best (rows s)) as [_ [[_ ->]|(_ & H & _)]]; [lia|].
  apply lookup_lt_Some in H. unfold rows at 2 in H. rewrite length_fmap in H.
  unfold split_newlines in H. destruct (split_lines s) as [f r]. simpl in *. lia.
Qed.

Lemma rows_le s : length (split_lines s).2 ≤ length s.
Proof. pose proof (extent_of_bound s) as H. rewrite row_extent in H. lia. Qed.

Section Join.
Context (s t : list N).
Hypothesis Hs : utf8 s.
Hypothesis Ht : utf8 t.
Hypothesis Hlen : (N.of_nat (length s + length t) <= U32_MAX)%N.

Lemma line_bounds :
  char_count (last_line s) ≤ length s ∧ char_count (first_line t) ≤ length t ∧
  char_count (first_line s) ≤ length s ∧
  utf16_units (last_line s) ≤ length s ∧ utf16_units (last_line t) ≤ length t.
Proof.
  pose proof (last_line_le s). pose proof (last_line_le t).
  pose proof (first_line_le s). pose proof (first_line_le t).
  split_and!; try (rewrite char_count_le; done);
    (rewrite utf16_units_le; [done|by apply last_line_utf8]).
Qed.

Lemma join_longest_spec :
  join_longest (summary_of s) (summary_of t) =
  Ret (N.of_nat (longest_of (rows (s ++ t))).1, N.of_nat (longest_of (rows (s ++ t))).2).
Proof.
  pose proof line_bounds as (B1 & B2 & _). pose proof (rows_le s). pose proof (rows_le t).
  pose proof (longest_row_le t). destruct (longest_join s t) as [-> ->]. cbn zeta.
  unfold join_longest.
  cbn [summary_of ts_lines ts_first_line_chars ts_last_line_chars ts_longest_row ts_longest_row_chars].
  rewrite u32_add_nat, ltb_of_nat, row_extent by lia.
  destruct (_ <? char_count (last_line s) + _); rewrite ltb_of_nat;
    (destruct (_ <? (longest_of (rows t)).2); [by rewrite u32_add_nat by lia|done]).
Qed.

Lemma join_first_spec :
  join_first (summary_of s) (summary_of t) = Ret (N.of_nat (char_count (first_line (s ++ t)))).
Proof.
  pose proof line_bounds as (B1 & B2 & B3 & _). unfold join_first.
  cbn [summary_of ts_lines ts_first_line_chars]. rewrite first_line_join.
  destruct (_ =? 0)%N; [|done]. by rewrite char_count_app, u32_add_nat by lia.
Qed.

Lemma join_last_spec :
  join_last (summary_of s) (summary_of t) =
  Ret (N.of_nat (char_count (last_line (s ++ t))), N.of_nat (utf16_units (last_line (s ++ t)))).
Proof.
  pose proof line_bounds as (B1 & B2 & B3 & B4 & B5). unfold join_last.
  cbn [summary_of ts_lines ts_first_line_chars ts_last_line_chars ts_last_line_len_utf16].
  rewrite last_line_join. destruct (row (extent_of t) =? 0)%N eqn:E; [|done].
  apply row_zero, no_newline_lines in E as [E1 E2].
  rewrite !u32_add_nat by lia. by rewrite char_count_app, utf16_units_app, E1, E2.
Qed.

Lemma ts_add_assign_spec : ts_add_assign (summary_of s) (summary_of t) = Ret (summary_of (s ++ t)).
Proof.
  unfold ts_add_assign. rewrite join_longest_spec, join_first_spec, join_last_spec.
  pose proof (char_count_le s). pose proof (char_count_le t).
  pose proof (utf16_units_le s Hs). pose proof (utf16_units_le t Ht). unfold U32_MAX in Hlen.
  cbn [summary_of ts_lines ts_chars ts_len ts_len_utf16]. usize_eval.
  change point_add_assign with (@point_add Utf8). rewrite point_add_ok.
  - unfold summary_of. by rewrite length_app, char_count_app, utf16_units_app, extent_of_app.
  - rewrite <-extent_of_app. apply extent_of_ok. rewrite length_app. done.
Qed.
End Join.

(** ** [From<&str>] *)
Lemma chars_from_continuation k s :
  Forall continuation k → chars_from (k ++ s) = (k ++ (chars_from s).1, (chars_from s).2).
Proof.
  induction 1 as [|b k Hb Hk IH]; simpl; [by destruct (chars_from s)|].
  by rewrite IH, (continuation_not_boundary b Hb).
Qed.

Lemma chars_from_utf8 s : utf8 s → (chars_from s).1 = [].
Proof.
  destruct 1 as [|c s Hc _]; [done|]. apply utf8_char_cons in Hc as (a & k & -> & _ & Ha & Hk & _).
  simpl. by rewrite chars_from_continuation, Ha by done.
Qed.

Lemma str_chars_cons c s : utf8_char c → utf8 s → str_chars (c ++ s) = c :: str_chars s.
Proof.
  intros Hc Hs. apply utf8_char_cons in Hc as (a & k & -> & _ & Ha & Hk & _). unfold str_chars. simpl.
  rewrite chars_from_continuation, Ha, (chars_from_utf8 s Hs), app_nil_r by done. done.
Qed.

(** One character, as a text. *)
Lemma char_measures c :
  utf8_char c → char_count c = 1 ∧ utf16_units c = char_len_utf16 c ∧ c ≠ [] ∧
    (c ≠ [NEWLINE] → no_newline c ∧ extent_of c = MkPoint 0 (N.of_nat (length c))).
Proof.
  intros Hc. pose proof (utf8_char_cons c Hc) as (a & k & -> & _ & Ha & Hk & _).
  assert (Hk0 : char_count k = 0 ∧ utf16_units k = 0 ∧ nl_bits k = replicate (length k) false).
  { clear -Hk. unfold char_count. induction Hk as [|b k Hb Hk (IH1 & IH2 & IH3)]; [done|]. csimpl.
    rewrite ones_cons, (continuation_not_boundary b Hb), IH1, IH2, IH3. split_and!; try done.
    f_equal. destruct Hb. unfold is_newline. destruct (N.eqb_spec b 10); [lia|done]. }
  destruct Hk0 as (E1 & E2 & E3). split_and!.
  - unfold char_count in *. csimpl. by rewrite ones_cons, Ha, E1.
  - simpl. by rewrite Ha, E2, Nat.add_0_r.
  - done.
  - intros Hne.
    assert (En : is_newline a = false).
    { unfold is_newline. destruct (N.eqb_spec a 10) as [->|]; [|done].
      apply utf8_char_ascii in Hc; [|done]. by subst k. }
    assert (Eb : nl_bits (a :: k) = replicate (S (length k)) false) by (csimpl; by rewrite En, E3).
    assert (Ex : extent_of (a :: k) = MkPoint 0 (N.of_nat (length (a :: k)))).
    { rewrite extent_of_bits, Eb. rewrite ones_replicate_false, <-(app_nil_l (replicate _ _)).
      rewrite last_one_app_false. simpl. f_equal. }
    split; [|done]. apply row_zero. by rewrite Ex.
Qed.

Lemma last_line_longest p : char_count (last_line p) ≤ (longest_of (rows p)).2.
Proof.
  destruct (longest_of_best (rows p)) as [H _]. apply H.
  destruct (rows_join p []) as (init & -> & _). apply elem_of_app. right. by apply list_elem_of_singleton.
Qed.

(** A row where first and last line are the same. *)
Lemma one_line p : (row (extent_of p) =? 0)%N = true → first_line p = last_line p.
Proof. intros H. apply row_zero, no_newline_lines in H as [-> ->]. done. Qed.

Lemma from_char_newline p n :
  (N.of_nat (length p + 1) <= U32_MAX)%N → utf8 p →
  from_char (with_len n (summary_of p)) [NEWLINE] = Ret (with_len n (summary_of (p ++ [NEWLINE]))).
Proof.
  intros Hlen Hp. pose proof (char_count_le p). pose proof (utf16_units_le p Hp).
  pose proof (rows_le p). pose proof (extent_of_bound p) as Hb.
  unfold from_char. cbn [with_len summary_of ts_chars ts_len_utf16 ts_lines ts_first_line_chars
    ts_last_line_chars ts_last_line_len_utf16 ts_longest_row ts_longest_row_chars ts_len].
  unfold U32_MAX in Hlen. change (char_len_utf16 [NEWLINE]) with 1. usize_eval.
  rewrite bool_decide_eq_true_2 by done.
  unfold point_add_assign. cbn [row]. change (1 =? 0)%N with false. cbn iota.
  rewrite u32_add_ok by (unfold U32_MAX; lia). cbn beta iota zeta. cbn [row].
  destruct (N.eqb_spec (row (extent_of p) + 1) 0); [lia|].
  destruct (N.ltb_spec (N.of_nat (longest_of (rows p)).2) 0); [lia|].
  destruct (longest_join p [NEWLINE]) as [L1 L2]. cbn zeta in L1, L2.
  change (longest_of (rows [NEWLINE])) with (0, 0) in L1, L2. cbn [fst snd] in L1, L2.
  change (char_count (first_line [NEWLINE])) with 0 in L1, L2. rewrite Nat.add_0_r in L1, L2.
  pose proof (last_line_longest p).
  destruct (Nat.ltb_spec (longest_of (rows p)).2 (char_count (last_line p))); [lia|].
  destruct (Nat.ltb_spec (longest_of (rows p)).2 0); [lia|].
  unfold with_len, summary_of.
  cbn [ts_chars ts_len_utf16 ts_lines ts_first_line_chars ts_last_line_chars ts_last_line_len_utf16
       ts_longest_row ts_longest_row_chars ts_len].
  rewrite L1, L2, char_count_app, utf16_units_app, extent_of_app, first_line_join, last_line_join.
  change (first_line [NEWLINE]) with (@nil N). rewrite !app_nil_r.
  change (row (extent_of [NEWLINE]) =? 0)%N with false. change (last_line [NEWLINE]) with (@nil N).
  change (char_count [NEWLINE]) with 1. change (utf16_units [NEWLINE]) with 1.
  change (extent_of [NEWLINE]) with (MkPoint (e := Utf8) 1 0). unfold point_plus. cbn [row column].
  change (1 =? 0)%N with false. by destruct (row (extent_of p) =? 0)%N.
Qed.

Lemma from_char_other p n c :
  utf8 p → utf8_char c → c ≠ [NEWLINE] → (N.of_nat (length p + length c) <= U32_MAX)%N →
  from_char (with_len n (summary_of p)) c = Ret (with_len n (summary_of (p ++ c))).
Proof.
  intros Hp Hc Hne Hlen. pose proof (char_count_le p). pose proof (utf16_units_le p Hp).
  destruct (char_measures c Hc) as (E1 & E2 & Hnil & Hx). destruct (Hx Hne) as [Hn Ex].
  destruct (no_newline_lines c Hn) as [Ef El].
  pose proof (extent_of_bound p) as Hb. pose proof (last_line_le p) as Hl.
  pose proof (char_count_le (last_line p)). pose proof (utf16_units_le _ (proj2 (last_line_utf8 p Hp))).
  assert (Hc1 : 1 ≤ length c) by (destruct c; simpl; [done|lia]).
  assert (Hu : utf16_units c ≤ length c).
  { apply utf16_units_le. rewrite <-(app_nil_r c). by apply utf8_cons; [|constructor]. }
  unfold from_char. cbn [with_len summary_of ts_chars ts_len_utf16 ts_lines ts_first_line_chars
    ts_last_line_chars ts_last_line_len_utf16 ts_longest_row ts_longest_row_chars ts_len].
  unfold U32_MAX in Hlen. rewrite <-E2. usize_eval.
  rewrite bool_decide_eq_false_2 by done.
  rewrite !u32_add_ok by (unfold U32_MAX; lia). cbn beta iota zeta. cbn [row].
  destruct (longest_join p c) as [L1 L2]. cbn zeta in L1, L2.
  assert (Hlc : longest_of (rows c) = (0, 1)).
  { unfold rows, split_newlines. unfold no_newline, first_line in *. destruct (split_lines c) as [f r].
    simpl in *. subst r f. simpl. by rewrite E1. }
  rewrite Hlc, Ef, E1 in L1, L2. cbn [fst snd] in L1, L2.
  assert (Hone : ∀ x, (if (longest_of (rows p)).2 <? char_count (last_line p) + 1
      then char_count (last_line p) + 1 else (longest_of (rows p)).2) <? 1 = x → x = false).
  { intros x <-. destruct (Nat.ltb_spec (longest_of (rows p)).2 (char_count (last_line p) + 1));
      apply Nat.ltb_ge; lia. }
  rewrite (Hone _ eq_refl) in L1, L2.
  replace (N.of_nat (char_count (last_line p)) + 1)%N with (N.of_nat (char_count (last_line p) + 1)) by lia.
  rewrite ltb_of_nat. unfold with_len, summary_of.
  cbn [ts_chars ts_len_utf16 ts_lines ts_first_line_chars ts_last_line_chars ts_last_line_len_utf16
       ts_longest_row ts_longest_row_chars ts_len].
  rewrite L1, L2, char_count_app, utf16_units_app, extent_of_app, first_line_join, last_line_join, Ex, E1.
  unfold point_plus. cbn [row column]. change (0 =? 0)%N with true. cbn iota. rewrite Ef.
  rewrite !char_count_app, E1, utf16_units_app, <-Nat2N.inj_add, row_extent.
  pose proof (one_line p) as Ho. rewrite row_extent in Ho.
  assert (Hf : (if (N.of_nat (length (split_lines p).2) =? 0)%N then N.of_nat (char_count (last_line p) + 1)
      else N.of_nat (char_count (first_line p))) =
    N.of_nat (char_count (if (N.of_nat (length (split_lines p).2) =? 0)%N then first_line p ++ c
      else first_line p))).
  { destruct (_ =? 0)%N; [|done]. by rewrite char_count_app, E1, Ho. }
  rewrite Hf. by destruct (_ <? _).
Qed.

Lemma from_chars_spec s p :
  utf8 s → utf8 p → (N.of_nat (length p + length s) <= U32_MAX)%N →
  from_chars (with_len 0 (summary_of p)) (str_chars s) = Ret (with_len 0 (summary_of (p ++ s))).
Proof.
  intros Hs. revert p. induction Hs as [|c s Hc Hs IH]; intros p Hp Hlen; [by rewrite app_nil_r|].
  rewrite str_chars_cons by done. cbn [from_chars]. rewrite length_app in Hlen.
  assert (E : from_char (with_len 0 (summary_of p)) c = Ret (with_len 0 (summary_of (p ++ c)))).
  { destruct (decide (c = [NEWLINE])) as [->|Hne].
    - apply from_char_newline; [|done]. simpl in Hlen. lia.
    - apply from_char_other; [done|done|done|lia]. }
  rewrite E, IH; [by rewrite <-app_assoc| |by rewrite length_app, <-Nat.add_assoc].
  apply utf8_app; [done|]. rewrite <-(app_nil_r c). by apply utf8_cons; [|constructor].
Qed.

Lemma summary_from_str_spec s :
  utf8 s → (N.of_nat (length s) <= U32_MAX)%N → summary_from_str s = Ret (summary_of s).
Proof.
  intros Hs Hlen. unfold summary_from_str.
  change ts_zero with (with_len 0 (summary_of [])).
  by rewrite from_chars_spec by (done || constructor).
Qed.
