(* ===== verification/ChunkSpec.v ===== *)
(** * Theorems about chunks and text summaries *)
From stdpp Require Import base numbers option list.
From Stdlib Require Import Lia.
From S2P Require Import Prelude Bits Utf8 Point Chunk ChunkFacts ChunkMeasures TextSummary.

Lemma floor_walk_spec s i : i < length s → floor_walk s i = Ret (floor_from s i).
Proof.
  induction i as [|i IH]; intros Hi; [done|]. cbn [floor_walk floor_from]. rewrite str_boundary_S.
  destruct (lookup_lt_is_Some_2 s (S i) Hi) as [b Hb]. rewrite Hb. cbn [unwrap].
  destruct (is_utf8_char_boundary b); [done|]. apply IH. lia.
Qed.

(** Building a chunk from a text, and appending or prepending a text or a
    slice, give exactly the chunk of the resulting text: all four bitmaps, set
    byte by byte, in groups of eight, or by shifting whole words, agree with
    it, and nothing panics within the capacity. *)
Theorem chunk_build_refines s t :
  utf8 s → utf8 t → length (s ++ t) ≤ MAX_BASE →
  chunk_new s = Ret (chunk_of s) ∧
  chunk_append (chunk_of s) (as_slice (chunk_of t)) = Ret (chunk_of (s ++ t)) ∧
  chunk_prepend (chunk_of t) (as_slice (chunk_of s)) = Ret (chunk_of (s ++ t)) ∧
  chunk_push_str (chunk_of s) t = Ret (chunk_of (s ++ t)) ∧
  chunk_prepend_str (chunk_of t) s = Ret (chunk_of (s ++ t)).
Proof.
  intros Hs Ht Hlen.
  assert (length s ≤ MAX_BASE ∧ length t ≤ MAX_BASE) as [? ?] by (rewrite length_app in Hlen; lia).
  unfold chunk_push_str, chunk_prepend_str. rewrite !chunk_new_spec by done.
  split_and!; [done|by apply chunk_append_spec|by apply chunk_prepend_spec|
    by apply chunk_append_spec|by apply chunk_prepend_spec].
Qed.

(** The bitmaps decide character boundaries as [str] does, and splitting or
    slicing a chunk between boundaries gives the chunks of the parts of its
    text. *)
Theorem chunk_slices_refine s i j :
  utf8 s → length s ≤ MAX_BASE →
  chunk_is_char_boundary (chunk_of s) i = str_is_char_boundary s i ∧
  chunk_floor_char_boundary (chunk_of s) i = Ret (str_floor_char_boundary s i) ∧
  (str_is_char_boundary s i = true →
    slice_split_at (chunk_of s) i = Ret (chunk_of (take i s), chunk_of (drop i s))) ∧
  (str_is_char_boundary s i = true → str_is_char_boundary s j = true → i ≤ j →
    chunk_slice (chunk_of s) i j = Ret (chunk_of (take (j - i) (drop i s)))).
Proof.
  intros Hs Hlen. split_and!.
  - by apply chunk_boundary_spec.
  - unfold chunk_floor_char_boundary, str_floor_char_boundary. cbn [ctext chunk_of].
    destruct (Nat.leb_spec (length s) i); [done|]. by apply floor_walk_spec.
  - by apply slice_split_at_spec.
  - intros Hi Hj Hij. by apply slice_slice_spec.
Qed.

(** Positions computed by counting bits are those of the text before the
    offset: its extent, its UTF-16 length, and the UTF-16 length of its last
    line. *)
Theorem chunk_positions_refine s k :
  utf8 s → length s ≤ MAX_BASE → str_is_char_boundary s k = true →
  offset_to_point (chunk_of s) k = Ret (extent_of (take k s)) ∧
  offset_to_offset_utf16 (chunk_of s) k = utf16_units (take k s) ∧
  offset_to_point_utf16 (chunk_of s) k =
    Ret (MkPoint (row (extent_of (take k s))) (N.of_nat (utf16_units (last_line (take k s))))).
Proof.
  intros Hs Hlen Hk. destruct (utf8_split _ _ Hs Hk) as (_ & _ & Hle).
  split_and!; [by apply offset_to_point_spec|by apply offset_to_offset_utf16_spec|
    by apply offset_to_point_utf16_spec].
Qed.

(** C30: The summary of a chunk, computed from its bitmaps, is the one that
    [From<&str>] computes character by character: bytes, characters, UTF-16
    units, extent, lengths of the first and last line, and the first of the
    longest rows. *)
Theorem text_summary_refines s :
  utf8 s → length s ≤ MAX_BASE →
  text_summary (chunk_of s) = Ret (summary_of s) ∧ summary_from_str s = Ret (summary_of s) ∧
  best (rows s) (N.to_nat (ts_longest_row (summary_of s))) (N.to_nat (ts_longest_row_chars (summary_of s))).
Proof.
  intros Hs Hlen. split_and!; [by apply text_summary_spec| |].
  - apply summary_from_str_spec; [done|]. unfold MAX_BASE, BITS in Hlen. unfold U32_MAX. lia.
  - cbn [summary_of ts_longest_row ts_longest_row_chars]. rewrite !Nat2N.id. apply longest_of_best.
Qed.

(** C29: Adding the summaries of two texts gives the summary of the texts
    together, the longest row included, with no overflow up to [u32::MAX]
    bytes; so the summaries a tree caches are those of its text. *)
Theorem summary_append s t :
  utf8 s → utf8 t → (N.of_nat (length (s ++ t)) <= U32_MAX)%N →
  ts_add_assign (summary_of s) (summary_of t) = Ret (summary_of (s ++ t)).
Proof. intros Hs Ht Hlen. rewrite length_app in Hlen. by apply ts_add_assign_spec. Qed.

(** [add_newline] is not adding a newline: it does not count the character,
    and it adds the UTF-16 length to itself. *)
Theorem add_newline_wrong :
  returns (add_newline (summary_of [97; 98])%N) (λ r,
    ts_len r = ts_len (summary_of [97; 98; 10]%N) ∧
    ts_chars r = 2 ∧ ts_chars (summary_of [97; 98; 10]%N) = 3 ∧
    ts_len_utf16 r = 5 ∧ ts_len_utf16 (summary_of [97; 98; 10]%N) = 3).
Proof. eexists. split; [vm_compute; reflexivity|]. by vm_compute. Qed.

(** ** Witnesses: "aé\n" and "b", with a character outside the basic plane *)
Definition sample_text : list N := [97; 195; 169; 10]%N.
Definition sample_wide : list N := [240; 159; 152; 128; 98]%N.

Lemma sample_text_utf8 : utf8 sample_text.
Proof.
  apply (utf8_cons [97]%N); [by vm_compute|]. apply (utf8_cons [195; 169]%N); [by vm_compute|].
  apply (utf8_cons [10]%N); [by vm_compute|]. constructor.
Qed.
Lemma sample_wide_utf8 : utf8 sample_wide.
Proof.
  apply (utf8_cons [240; 159; 152; 128]%N); [by vm_compute|]. apply (utf8_cons [98]%N); [by vm_compute|].
  constructor.
Qed.

Lemma chunk_build_refines_witness :
  chunk_push_str (chunk_of sample_text) sample_wide = Ret (chunk_of (sample_text ++ sample_wide)).
Proof.
  apply (chunk_build_refines sample_text sample_wide sample_text_utf8 sample_wide_utf8). vm_compute. lia.
Defined.

Lemma chunk_slices_refine_witness :
  chunk_slice (chunk_of sample_text) 1 3 = Ret (chunk_of [195; 169]%N).
Proof.
  apply (chunk_slices_refine sample_text 1 3 sample_text_utf8); [vm_compute; lia|reflexivity|reflexivity|lia].
Defined.

Lemma chunk_positions_refine_witness :
  offset_to_point (chunk_of sample_text) 4 = Ret (extent_of sample_text).
Proof.
  apply (chunk_positions_refine sample_text 4 sample_text_utf8); [vm_compute; lia|reflexivity].
Defined.

Lemma text_summary_refines_witness : text_summary (chunk_of sample_wide) = Ret (summary_of sample_wide).
Proof. apply (text_summary_refines sample_wide sample_wide_utf8). vm_compute. lia. Defined.

Lemma summary_append_witness :
  ts_add_assign (summary_of sample_text) (summary_of sample_wide) = Ret (summary_of (sample_text ++ sample_wide)).
Proof.
  apply (summary_append sample_text sample_wide sample_text_utf8 sample_wide_utf8). vm_compute. discriminate.
Defined.
