(* ===== verification/ChunkPoints.v ===== *)
(** * Converting positions within a chunk

    The conversions of [ChunkSlice] ([crates/rope/src/chunk.rs]) that select
    bits: from rows and UTF-16 offsets back to byte offsets, and clipping.
    [debug] says whether the build has debug assertions, in which
    [debug_panic!] panics; otherwise it logs.  The grapheme segmentation of
    the [unicode_segmentation] crate is a parameter. *)
From stdpp Require Import base numbers option list.
From Stdlib Require Import Lia.
From S2P Require Import Prelude SumTree Bits Select Utf8 Point Chunk.

Definition offset_range_for_row (self : ChunkSlice) (row : N) : outcome (nat * nat) :=
  let* row_start :=
    if (0 <? row)%N then let* ix := nth_set_bit (newlines self) (N.to_nat row) in Ret (ix + 1) else Ret 0 in
  let* row_len :=
    if row_start =? MAX_BASE then Ret 0
    else
      let* rest := shr BITS (newlines self) row_start in
      let* left := usize_sub (length (ctext self)) row_start in
      Ret (Nat.min (trailing_zeros BITS rest) left) in
  Ret (row_start, row_start + row_len).

Definition offset_utf16_to_offset (self : ChunkSlice) (target : nat) : outcome nat :=
  if target =? 0 then Ret 0
  else
    let* ix := nth_set_bit (chars_utf16 self) target in
    let ix := ix + 1 in
    if ix =? MAX_BASE then Ret MAX_BASE
    else
      let* rest := shr BITS (chars_utf16 self) ix in
      let* left := usize_sub (length (ctext self)) ix in
      Ret (ix + Nat.min (trailing_zeros BITS rest) left).

(** [while !text.is_char_boundary(offset) { offset -= 1 or offset += 1 }] *)
Definition clip_step (text : list N) (bias : Bias) (offset : nat) : outcome (nat + nat) :=
  if str_is_char_boundary text offset then Ret (inr offset)
  else match bias with
       | Left => let* offset := usize_sub offset 1 in Ret (inl offset)
       | Right => let* offset := usize_add offset 1 in Ret (inl offset)
       end.
Definition clip_loop (text : list N) (bias : Bias) (offset : nat) : outcome nat :=
  loop (clip_step text bias) (S (length text)) offset.

Definition clip_offset_utf16 (self : ChunkSlice) (target : nat) (bias : Bias) : outcome nat :=
  if target =? 0 then Ret 0
  else if slice_len_utf16 self <=? target then Ret (slice_len_utf16 self)
  else
    let* offset := offset_utf16_to_offset self target in
    let* offset := clip_loop (ctext self) bias offset in
    Ret (offset_to_offset_utf16 self offset).

Definition unclipped_point_utf16_to_point (self : ChunkSlice) (point : PointUtf16) : outcome Point :=
  let* max_point := slice_lines self in
  if (row max_point <? row point)%N then Ret max_point
  else
    let* '(a, b) := offset_range_for_row self (row point) in
    let* line := slice_slice self a b in
    if (column point =? 0)%N then Ret (MkPoint (row point) 0)
    else if (N.of_nat (slice_len_utf16 line) <=? column point)%N
    then Ret (MkPoint (row point) (N.of_nat (slice_len line)))
    else
      let* column := offset_utf16_to_offset line (N.to_nat (column point)) in
      let* column := clip_loop (ctext line) Left column in
      Ret (MkPoint (row point) (N.of_nat column)).

Definition clip_point_utf16 (self : ChunkSlice) (point : PointUtf16) (bias : Bias) : outcome PointUtf16 :=
  let* max_point := slice_lines self in
  if (row max_point <? row point)%N
  then Ret (MkPoint (row max_point) (N.of_nat (last_line_len_utf16 self)))
  else
    let* '(a, b) := offset_range_for_row self (row point) in
    let* line := slice_slice self a b in
    let* column := clip_offset_utf16 line (N.to_nat (column point)) bias in
    Ret (MkPoint (row point) (N.of_nat column)).

Section Debug.
Context (debug : bool).

Definition debug_panic : outcome unit := if debug then Panic else Ret tt.

Definition point_to_offset (self : ChunkSlice) (point : Point) : outcome nat :=
  let* lines := slice_lines self in
  if (row lines <? row point)%N then
    let* _ := debug_panic in Ret (slice_len self)
  else
    let* '(a, b) := offset_range_for_row self (row point) in
    if (N.of_nat (b - a) <? column point)%N then
      let* _ := debug_panic in Ret b
    else Ret (a + N.to_nat (column point)).

Definition point_to_offset_utf16 (self : ChunkSlice) (point : Point) : outcome nat :=
  let* lines := slice_lines self in
  if (row lines <? row point)%N then
    let* _ := debug_panic in Ret (slice_len_utf16 self)
  else
    let* offset := point_to_offset self point in
    Ret (offset_to_offset_utf16 self offset).

Definition point_to_point_utf16 (self : ChunkSlice) (point : Point) : outcome PointUtf16 :=
  let* offset := point_to_offset self point in
  offset_to_point_utf16 self offset.

Definition unless_clipped (clip : bool) : outcome unit := if clip then Ret tt else debug_panic.

Definition point_utf16_to_offset (self : ChunkSlice) (point : PointUtf16) (clip : bool) : outcome nat :=
  let* lines := slice_lines self in
  if (row lines <? row point)%N then
    let* _ := unless_clipped clip in Ret (slice_len self)
  else
    let* '(a, b) := offset_range_for_row self (row point) in
    let* line := slice_slice self a b in
    if (N.of_nat (last_line_len_utf16 line) <? column point)%N then
      let* _ := unless_clipped clip in Ret b
    else if (0 <? column point)%N then
      let* more := offset_utf16_to_offset line (N.to_nat (column point)) in
      let offset := a + more in
      if str_is_char_boundary (ctext self) offset then Ret offset
      else
        let* offset := usize_sub offset 1 in
        let* offset := clip_loop (ctext self) Left offset in
        let* _ := unless_clipped clip in
        Ret offset
    else Ret a.
End Debug.

Section Graphemes.
(** Whether [GraphemeCursor] finds a boundary at a column of a line. *)
Context (is_grapheme_boundary : list N → nat → bool).

Definition grapheme_step (line : ChunkSlice) (bias : Bias) (column : nat) : outcome (nat + nat) :=
  if chunk_is_char_boundary line column && is_grapheme_boundary (ctext line) column then Ret (inr column)
  else match bias with
       | Left => let* column := usize_sub column 1 in Ret (inl column)
       | Right => let* column := usize_add column 1 in Ret (inl column)
       end.

Definition clip_point (self : ChunkSlice) (point : Point) (bias : Bias) : outcome Point :=
  let* max_point := slice_lines self in
  if (row max_point <? row point)%N then Ret max_point
  else
    let* '(a, b) := offset_range_for_row self (row point) in
    let* line := slice_slice self a b in
    if (column point =? 0)%N then Ret point
    else if (N.of_nat (slice_len line) <=? column point)%N
    then Ret (MkPoint (row point) (N.of_nat (slice_len line)))
    else
      let column := N.to_nat (column point) in
      let* before := unwrap (ctext line !! (column - 1)) in
      let* at_ := unwrap (ctext line !! column) in
      if (before <? 128)%N && (at_ <? 128)%N then Ret (MkPoint (row point) (N.of_nat column))
      else
        let* column := loop (grapheme_step line bias) (S (slice_len line)) column in
        Ret (MkPoint (row point) (N.of_nat column)).
End Graphemes.
