(* ===== verification/ChunkPointsFacts.v ===== *)
(** * The conversions within a chunk, against its text *)
From stdpp Require Import base numbers option list.
From Stdlib Require Import Lia.
From S2P Require Import Prelude SumTree Bits Select Utf8 Point Chunk ChunkFacts ChunkMeasures.
From S2P Require Import TextSummary ChunkPoints.

(** ** Selected bits *)
Lemma nth_set_bit_spec l n :
  length l ≤ BITS → 1 ≤ n ≤ ones l → ∃ i, nth_one l n = Some i ∧ nth_set_bit (of_bits l) n = Ret i.
Proof.
  intros Hl Hn. pose proof (nth_one_app l (replicate (BITS - length l) false) n ltac:(lia)) as E.
  destruct (Nat.leb_spec n (ones l)); [|lia]. rewrite <-E, <-(of_bits_app_false l (BITS - length l)).
  apply nth_set_bit_selects; [rewrite length_app, length_replicate; unfold BITS in *; lia|].
  rewrite ones_app, ones_replicate_false. lia.
Qed.

Lemma nth_one_split l n i :
  1 ≤ n → nth_one l n = Some i → l !! i = Some true ∧ ones (take i l) = n - 1.
Proof.
  revert n i. induction l as [|b l IH]; intros n i Hn; cbn [nth_one]; [done|]. destruct b.
  - destruct (Nat.eqb_spec n 1) as [->|Hne]; [intros [= <-]; done|].
    intros (j & Hj & ->)%fmap_Some. apply IH in Hj as [H1 H2]; [|lia]. split; [done|].
    csimpl. rewrite ones_cons, H2. lia.
  - intros (j & Hj & ->)%fmap_Some. apply IH in Hj as [H1 H2]; [|lia]. split; [done|].
    csimpl. rewrite ones_cons, H2. lia.
Qed.

Lemma ones_take_S l i : l !! i = Some true → ones (take (S i) l) = S (ones (take i l)).
Proof. intros H. rewrite (take_S_r _ _ true) by done. rewrite ones_app. simpl. unfold ones. simpl. lia. Qed.

(** ** Extents determine offsets *)
Lemma extent_of_nil s : extent_of s = point_zero → s = [].
Proof.
  rewrite extent_of_bits. intros E. injection E as E1 E2.
  assert (last_one (nl_bits s) = 0) by (apply last_one_zero; lia).
  apply length_zero_iff_nil. lia.
Qed.

Lemma extent_of_take_inj text j k :
  j ≤ length text → k ≤ length text → extent_of (take j text) = extent_of (take k text) → j = k.
Proof.
  assert (Hle : ∀ j k, j ≤ k → k ≤ length text → extent_of (take j text) = extent_of (take k text) → j = k).
  { clear j k. intros j k Hjk Hk E.
    replace k with (j + (k - j)) in E by lia. rewrite <-take_take_drop, extent_of_app in E.
    assert (Ez : extent_of (take (k - j) (drop j text)) = point_zero).
    { revert E. destruct (extent_of (take j text)) as [a b], (extent_of (take (k - j) _)) as [c d].
      unfold point_plus, point_zero. simpl. destruct (N.eqb_spec c 0) as [->|]; intros [=]; f_equal; lia. }
    apply extent_of_nil, (f_equal length) in Ez. rewrite length_take, length_drop in Ez. simpl in Ez. lia. }
  intros Hj Hk E. destruct (Nat.le_ge_cases j k); [by apply Hle|]. symmetry. by apply Hle.
Qed.

Lemma no_newline_ones s : no_newline s ↔ ones (nl_bits s) = 0.
Proof.
  rewrite <-row_zero, N.eqb_eq, extent_of_bits. cbn [row]. lia.
Qed.

Lemma no_newline_extent s : no_newline s → extent_of s = MkPoint 0 (N.of_nat (length s)).
Proof.
  intros H%no_newline_ones. rewrite extent_of_bits, H. apply last_one_zero in H. rewrite H. f_equal. lia.
Qed.

Lemma last_line_no_newline s : no_newline (last_line s).
Proof.
  apply no_newline_ones. rewrite last_line_drop, fmap_drop.
  assert (H : ∀ l, ones (drop (last_one l) l) = 0).
  { induction l as [|b l IH]; [done|]. cbn [last_one]. destruct (last_one l) as [|n] eqn:E.
    - apply last_one_zero in E. destruct b; simpl; [|rewrite ones_cons]; fold (ones l); rewrite ?E; done.
    - done. }
  apply H.
Qed.

Lemma no_newline_prefix u v : no_newline u → first_line (u ++ v) = u ++ first_line v.
Proof.
  intros Hu. rewrite first_line_join. apply row_zero in Hu as Hr. rewrite Hr.
  by destruct (no_newline_lines u Hu) as [-> _].
Qed.

(** The row of an offset starts [column] bytes before it. *)
Lemma row_start_of text k :
  let a := last_one (nl_bits (take k text)) in
  k ≤ length text →
  a ≤ k ∧ extent_of (take a text) = MkPoint (row (extent_of (take k text))) 0 ∧
  column (extent_of (take k text)) = N.of_nat (k - a) ∧
  k - a ≤ length (first_line (drop a text)).
Proof.
  cbn zeta. intros Hk. set (a := last_one (nl_bits (take k text))).
  assert (Ha : a ≤ k).
  { pose proof (last_one_le (nl_bits (take k text))) as H. rewrite length_fmap, length_take in H. subst a. lia. }
  pose proof (last_line_drop (take k text)) as El. fold a in El.
  pose proof (last_line_no_newline (take k text)) as Hn. rewrite El in Hn.
  assert (Ek : take k text = take a text ++ drop a (take k text)).
  { rewrite <-(take_drop a (take k text)) at 1. by rewrite take_take, Nat.min_l. }
  assert (Hl : length (drop a (take k text)) = k - a) by (rewrite length_drop, length_take; lia).
  pose proof (no_newline_extent _ Hn) as Ex. rewrite Hl in Ex.
  assert (Et : extent_of (take k text) = MkPoint (N.of_nat (ones (nl_bits (take k text)))) (N.of_nat (k - a))).
  { rewrite extent_of_bits, length_take. fold a. f_equal. lia. }
  split_and!; [done| |by rewrite Et|].
  - assert (E2 : extent_of (take k text) = point_plus (extent_of (take a text)) (MkPoint 0 (N.of_nat (k - a))))
      by (rewrite Ek, extent_of_app; by f_equal).
    rewrite Et in E2 |- *. destruct (extent_of (take a text)) as [r c]. unfold point_plus in E2. simpl in *.
    injection E2 as -> E2. f_equal. lia.
  - rewrite skipn_firstn_comm in Hn, Hl. rewrite <-(take_drop (k - a) (drop a text)).
    rewrite no_newline_prefix, length_app, Hl by done. lia.
Qed.

Lemma last_one_snoc l : last_one (l ++ [true]) = S (length l).
Proof. induction l as [|b l IH]; [done|]. cbn [app last_one length]. by rewrite IH. Qed.

(** The number of rows that begin after a newline. *)
Definition newline_count (s : list N) : nat := ones (nl_bits s).

Lemma extent_row s : row (extent_of s) = N.of_nat (newline_count s).
Proof. by rewrite extent_of_bits. Qed.

Lemma take_first_line s : take (length (first_line s)) s = first_line s.
Proof.
  rewrite first_line_take, length_take. destruct (Nat.le_ge_cases (default (length s) (first_one (nl_bits s))) (length s)).
  - by rewrite Nat.min_l.
  - by rewrite !take_ge by lia.
Qed.

(** [row_at text r a]: row [r] begins at offset [a]. *)
Definition row_at (text : list N) (r a : nat) : Prop :=
  a ≤ length text ∧ extent_of (take a text) = MkPoint (N.of_nat r) 0.
Definition row_end (text : list N) (a : nat) : nat := a + length (first_line (drop a text)).

Lemma row_at_unique text r a b : row_at text r a → row_at text r b → a = b.
Proof. intros [Ha Ea] [Hb Eb]. apply (extent_of_take_inj text); [done..|]. by rewrite Ea, Eb. Qed.

Lemma row_end_le text r a : row_at text r a → row_end text a ≤ length text.
Proof.
  intros [Ha _]. unfold row_end. pose proof (first_line_le (drop a text)) as H. rewrite length_drop in H. lia.
Qed.

(** What lies in a row is what [split('\n')] yields. *)
Lemma row_at_line text r a : row_at text r a → split_newlines text !! r = Some (first_line (drop a text)).
Proof.
  intros [Ha E]. destruct (split_newlines_join (take a text) (drop a text)) as (init & E1 & E2).
  rewrite take_drop in E2. pose proof (split_lines_extent (take a text)) as Hs.
  unfold split_newlines in E1. destruct (split_lines (take a text)) as [f rest] eqn:Es. rewrite E in Hs.
  injection Hs as Hr Hc.
  assert (El : last_line (take a text) = []).
  { unfold last_line, first_line. rewrite Es. apply length_zero_iff_nil. simpl in *. lia. }
  rewrite El in *. apply (f_equal length) in E1. rewrite length_app in E1. simpl in E1.
  rewrite E2, lookup_app_r by lia. replace (r - length init) with 0 by lia. done.
Qed.

Section Chunks.
Context (text : list N).
Hypothesis Hutf8 : utf8 text.
Hypothesis Hlen : length text ≤ BITS.

Lemma row_at_boundary r a : row_at text r a → str_is_char_boundary text a = true.
Proof.
  intros [Ha E]. destruct a as [|a]; [done|].
  destruct (lookup_lt_is_Some_2 text a) as [b Hb]; [lia|].
  apply (utf8_after_ascii text a b); [done..|]. rewrite (take_S_r _ _ b), extent_of_app in E by done.
  cbn [extent_of] in E. unfold NEWLINE in E. destruct (N.eqb_spec b 10) as [Eb|]; [lia|].
  unfold point_plus in E. simpl in E. injection E. lia.
Qed.

Lemma row_length a : a ≤ length text → a < BITS →
  Nat.min (trailing_zeros BITS (of_bits (drop a (nl_bits text)))) (length text - a) = length (first_line (drop a text)).
Proof.
  intros Ha Hb. rewrite trailing_zeros_of_bits, first_line_take, length_take, length_drop, <-fmap_drop.
  destruct (first_one _); cbn [from_option id]; lia.
Qed.

Lemma offset_range_spec r :
  r ≤ newline_count text →
  ∃ a, row_at text r a ∧ offset_range_for_row (chunk_of text) (N.of_nat r) = Ret (a, row_end text a).
Proof.
  intros Hr. unfold offset_range_for_row. cbn [newlines ctext chunk_of].
  assert (H : ∃ a, row_at text r a ∧
    (if (0 <? N.of_nat r)%N then let* ix := nth_set_bit (of_bits (nl_bits text)) (N.to_nat (N.of_nat r)) in
       Ret (ix + 1) else Ret 0) = Ret a).
  { destruct (N.ltb_spec 0 (N.of_nat r)) as [Hp|Hz].
    - rewrite Nat2N.id. destruct (nth_set_bit_spec (nl_bits text) r) as (i & Ei & ->);
        [by rewrite length_fmap|unfold newline_count in Hr; lia|].
      exists (i + 1). split; [|done]. apply nth_one_bound in Ei as Hi. rewrite length_fmap in Hi.
      apply nth_one_split in Ei as [E1 E2]; [|lia]. split; [lia|]. rewrite Nat.add_1_r, extent_of_bits.
      rewrite fmap_take, ones_take_S, E2 by done. rewrite (take_S_r _ _ true) by done.
      rewrite last_one_snoc, !length_take, length_fmap. f_equal; lia.
    - exists 0. assert (r = 0) as -> by lia. split; [|done]. split; [lia|done]. }
  destruct H as (a & Ha & ->). exists a. split; [done|]. destruct Ha as [Ha _]. unfold row_end.
  destruct (Nat.eqb_spec a MAX_BASE) as [->|Hne].
  - rewrite drop_ge by (unfold MAX_BASE; lia). done.
  - rewrite shr_of_bits, usize_sub_ok by (unfold MAX_BASE in *; lia). rewrite row_length; [done|done|].
    unfold MAX_BASE in *. lia.
Qed.

Lemma row_end_boundary r a : row_at text r a → str_is_char_boundary text (row_end text a) = true.
Proof.
  intros Ha. pose proof (row_end_le _ _ _ Ha) as He. destruct Ha as [Ha _].
  unfold row_end in *. rewrite first_line_take in *. destruct (first_one (nl_bits (drop a text))) as [i|] eqn:E; cbn [from_option id] in *.
  - destruct (first_one_split _ _ E) as (f & rest & Et & El & _).
    rewrite Et, <-El, take_app_length. destruct (a + length f) as [|j] eqn:Ej; [done|].
    assert (Hb : text !! S j = Some 10%N).
    { rewrite <-Ej, <-lookup_drop, Et, lookup_app_r, Nat.sub_diag by lia. done. }
    rewrite str_boundary_S, Hb. done.
  - rewrite take_ge, length_drop by done. replace (a + _) with (length text) by lia. apply str_boundary_end.
Qed.

Lemma line_utf8 r a : row_at text r a → utf8 (first_line (drop a text)) ∧ length (first_line (drop a text)) ≤ BITS.
Proof.
  intros Ha. pose proof (row_at_boundary _ _ Ha) as Hb. pose proof (row_end_boundary _ _ Ha) as He.
  pose proof (first_line_le (drop a text)) as Hl. rewrite length_drop in Hl.
  assert (El : first_line (drop a text) = drop a (take (row_end text a) text)).
  { unfold row_end. rewrite skipn_firstn_comm, Nat.add_comm, Nat.add_sub. by rewrite take_first_line. }
  split; [|lia]. rewrite El. destruct (utf8_split _ _ Hutf8 He) as (Hu & _ & _).
  apply utf8_split; [done|]. destruct a as [|a]; [done|]. rewrite str_boundary_S in Hb |- *.
  rewrite length_take. pose proof (row_end_le _ _ _ Ha). unfold row_end in *.
  destruct (Nat.lt_ge_cases (S a) (S a + length (first_line (drop (S a) text)))) as [H1|H1].
  - rewrite lookup_take_lt by done. destruct (text !! S a) eqn:E; [done|]. apply lookup_ge_None in E. lia.
  - rewrite lookup_take_ge by done. apply Nat.eqb_eq. lia.
Qed.

Lemma line_slice r a :
  row_at text r a → slice_slice (chunk_of text) a (row_end text a) = Ret (chunk_of (first_line (drop a text))).
Proof.
  intros Ha. rewrite slice_slice_spec; [|done|done|unfold row_end; lia|by eapply row_at_boundary|by eapply row_end_boundary].
  do 2 f_equal. unfold row_end. by rewrite Nat.add_comm, Nat.add_sub, take_first_line.
Qed.

(** [point_to_offset], on every branch. *)
Lemma point_to_offset_spec debug (p : Point) :
  ((N.of_nat (newline_count text) < row p)%N →
    point_to_offset debug (chunk_of text) p = if debug then Panic else Ret (length text)) ∧
  (∀ r, row p = N.of_nat r → r ≤ newline_count text → ∃ a, row_at text r a ∧
    point_to_offset debug (chunk_of text) p =
      if (column p <=? N.of_nat (length (first_line (drop a text))))%N then Ret (a + N.to_nat (column p))
      else if debug then Panic else Ret (row_end text a)).
Proof.
  unfold point_to_offset, debug_panic. rewrite slice_lines_spec, extent_row by done. split.
  - intros H. apply N.ltb_lt in H as ->. by destruct debug.
  - intros r -> Hr. destruct (offset_range_spec r Hr) as (a & Ha & E). exists a. split; [done|].
    destruct (N.ltb_spec (N.of_nat (newline_count text)) (N.of_nat r)); [lia|]. rewrite E.
    unfold row_end. replace (a + _ - a) with (length (first_line (drop a text))) by lia.
    destruct (N.ltb_spec (N.of_nat (length (first_line (drop a text)))) (column p)),
      (N.leb_spec (column p) (N.of_nat (length (first_line (drop a text))))); try lia; [by destruct debug|done].
Qed.

Lemma point_roundtrip debug k :
  k ≤ length text → point_to_offset debug (chunk_of text) (extent_of (take k text)) = Ret k.
Proof.
  intros Hk. destruct (row_start_of text k Hk) as (Ha & Ex & Ec & Hc).
  set (a := last_one (nl_bits (take k text))) in *.
  assert (Hr : newline_count (take k text) ≤ newline_count text).
  { unfold newline_count. rewrite <-(take_drop k text) at 2. rewrite fmap_app, ones_app. lia. }
  rewrite extent_row in Ex.
  destruct (point_to_offset_spec debug (extent_of (take k text))) as [_ H].
  destruct (H _ (extent_row _) Hr) as (a' & Ha' & ->).
  assert (a' = a) as -> by (eapply row_at_unique; [done|]; split; [lia|done]).
  rewrite Ec. destruct (N.leb_spec (N.of_nat (k - a)) (N.of_nat (length (first_line (drop a text))))); [|lia].
  f_equal. lia.
Qed.
End Chunks.

(** ** UTF-16 offsets *)

Lemma str_boundary_app c s i :
  utf8 s → str_is_char_boundary (c ++ s) (length c + i) = str_is_char_boundary s i.
Proof.
  intros Hs. destruct (length c + i) as [|n] eqn:En; [destruct i; [done|lia]|].
  rewrite str_boundary_S, lookup_app_r by lia. destruct i as [|i].
  - replace (S n - length c) with 0 by lia. destruct s as [|y s]; [|by eapply (utf8_head (y :: s))].
    rewrite app_nil_r. cbn [lookup list_lookup]. apply Nat.eqb_eq. lia.
  - replace (S n - length c) with (S i) by lia. rewrite str_boundary_S. destruct (s !! S i); [done|].
    rewrite length_app. destruct (Nat.eqb_spec (S n) (length c + length s)), (Nat.eqb_spec (S i) (length s)); (done || lia).
Qed.

(** The bytes at which a character outside the basic plane begins. *)
Lemma utf8_wide s j b :
  utf8 s → s !! j = Some b → (240 <= b)%N →
  str_is_char_boundary s j = true ∧ str_is_char_boundary s (j + 4) = true ∧
  (∀ i, 1 ≤ i < 4 → str_is_char_boundary s (j + i) = false) ∧ j + 4 ≤ length s.
Proof.
  intros Hs. revert j. induction Hs as [|c s Hc Hs IH]; intros j Hj Hb; [done|].
  pose proof (utf8_char_cons c Hc) as (x & k & -> & Hx & Hbx & Hk & Hlen).
  destruct (decide (j < length (x :: k))) as [Hn|Hn].
  - rewrite lookup_app_l in Hj by done. destruct j as [|j]; cbn in Hj.
    + simplify_eq. specialize (Hlen Hb). split_and!; [done| | |simpl; rewrite length_app; lia].
      * replace (0 + 4) with (length (b :: k) + 0) by (simpl; lia). by rewrite str_boundary_app.
      * intros i Hi. destruct i as [|i]; [lia|]. cbn [Nat.add]. rewrite str_boundary_S, lookup_app_l by (simpl; lia).
        change ((b :: k) !! S i) with (k !! i). destruct (lookup_lt_is_Some_2 k i) as [y Hy]; [lia|]. rewrite Hy.
        apply continuation_not_boundary. by eapply Forall_lookup_1.
    + exfalso. eapply Forall_lookup_1 in Hk; [|done]. destruct Hk. lia.
  - rewrite lookup_app_r in Hj by lia. destruct (IH _ Hj Hb) as (H1 & H2 & H3 & H4).
    set (m := length (x :: k)) in *.
    assert (Hsh : ∀ i, str_is_char_boundary ((x :: k) ++ s) (j + i) = str_is_char_boundary s (j - m + i)).
    { intros i. replace (j + i) with (m + (j - m + i)) by lia. by apply str_boundary_app. }
    split_and!; [by rewrite <-(Nat.add_0_r j), Hsh, Nat.add_0_r|by rewrite Hsh| |rewrite length_app; fold m; lia].
    intros i Hi. rewrite Hsh. by apply H3.
Qed.

(** [utf16_at text t k]: [t] UTF-16 units lie before byte [k], and [k] begins
    a unit or ends the text.  The second unit of a pair begins after the first
    byte of its character. *)
Definition utf16_at (text : list N) (t k : nat) : Prop :=
  k ≤ length text ∧ ones (take k (utf16_bits text)) = t ∧
  (k = length text ∨ utf16_bits text !! k = Some true).

Lemma ones_take_lt l j k : j < k → l !! j = Some true → ones (take j l) < ones (take k l).
Proof.
  intros Hjk Hj. apply ones_take_S in Hj. replace k with (S j + (k - S j)) by lia.
  rewrite <-take_take_drop, ones_app. lia.
Qed.

Lemma utf16_at_unique text t j k : utf16_at text t j → utf16_at text t k → j = k.
Proof.
  assert (H : ∀ j k, utf16_at text t j → utf16_at text t k → j < k → False).
  { clear j k. intros j k (Hj & Ej & [->|Hbit]) (Hk & Ek & _) Hlt; [lia|].
    pose proof (ones_take_lt _ _ _ Hlt Hbit). lia. }
  intros Hj Hk. destruct (Nat.lt_total j k) as [?|[?|?]]; [by destruct (H j k)|done|by destruct (H k j)].
Qed.

Section Utf16.
Context (text : list N).
Hypothesis Hutf8 : utf8 text.
Hypothesis Hlen : length text ≤ BITS.

Lemma boundary_bit k :
  str_is_char_boundary text k = true → k = length text ∨ utf16_bits text !! k = Some true.
Proof. clear Hlen.
  intros Hb. destruct (utf8_split _ _ Hutf8 Hb) as (_ & _ & Hk).
  destruct (Nat.eq_dec k (length text)) as [|Hne]; [by left|right].
  destruct (lookup_lt_is_Some_2 text k) as [b Eb]; [lia|]. rewrite utf16_bits_lookup, Eb. simpl. f_equal.
  assert (Hbb : is_utf8_char_boundary b = true); [|by rewrite Hbb].
  destruct k as [|k]; [apply (utf8_head text b (drop 1 text)); [done|by rewrite <-(drop_S _ _ _ Eb)]|].
  by rewrite str_boundary_S, Eb in Hb.
Qed.

Lemma boundary_utf16_at k :
  str_is_char_boundary text k = true → utf16_at text (utf16_units (take k text)) k.
Proof. clear Hlen.
  intros Hb. destruct (utf8_split _ _ Hutf8 Hb) as (Hu & _ & Hk). split_and!; [done| |by apply boundary_bit].
  by rewrite <-utf16_bits_take, utf16_bits_units.
Qed.

Lemma offset_utf16_to_offset_spec t :
  t ≤ utf16_units text →
  ∃ k, utf16_at text t k ∧ offset_utf16_to_offset (chunk_of text) t = Ret k.
Proof.
  intros Ht. unfold offset_utf16_to_offset. destruct (Nat.eqb_spec t 0) as [->|Hne].
  { exists 0. split; [|done]. apply (boundary_utf16_at 0). done. }
  rewrite <-utf16_bits_units in Ht by done. cbn [chars_utf16 ctext chunk_of].
  destruct (nth_set_bit_spec (utf16_bits text) t) as (i & Ei & ->); [by rewrite length_utf16_bits|lia|].
  apply nth_one_bound in Ei as Hi. rewrite length_utf16_bits in Hi.
  apply nth_one_split in Ei as [E1 E2]; [|lia]. apply ones_take_S in E1 as E3. rewrite E2 in E3.
  rewrite Nat.add_1_r. destruct (Nat.eqb_spec (S i) MAX_BASE) as [Em|Hm].
  - exists MAX_BASE. split; [|done]. unfold MAX_BASE in *. split_and!; [lia| |left; lia]. rewrite <-Em, E3. lia.
  - rewrite shr_of_bits, usize_sub_ok by (unfold MAX_BASE in *; lia).
    eexists. split; [|done]. rewrite trailing_zeros_of_bits.
    assert (Hz : ∀ l n, n ≤ default (length l) (first_one l) → ones (take n l) = 0).
    { clear. induction l as [|b l IH]; intros n Hn; [by rewrite take_nil|]. destruct n as [|n]; [done|].
      cbn [first_one] in Hn. destruct b; [simpl in Hn; lia|]. csimpl. rewrite ones_cons, IH; [done|].
      destruct (first_one l); simpl in *; lia. }
    assert (Hbit : ∀ l n, first_one l = Some n → l !! n = Some true).
    { clear. induction l as [|b l IH]; intros n; cbn [first_one]; [done|]. destruct b; [by intros [= <-]|].
      intros (m & Hm & ->)%fmap_Some. simpl. by apply IH. }
    set (l := drop (S i) (utf16_bits text)).
    assert (Hl : length l = length text - S i) by (subst l; by rewrite length_drop, length_utf16_bits).
    split_and!; [lia| |].
    + rewrite <-take_take_drop, ones_app, E3. fold l. rewrite Hz; [lia|].
      destruct (first_one l); cbn [from_option id]; lia.
    + destruct (first_one l) as [n|] eqn:En; cbn [from_option id]; [|left; unfold BITS in *; lia].
      apply Hbit in En. apply lookup_lt_Some in En as Hn. right. rewrite Nat.min_l by lia.
      rewrite <-lookup_drop. done.
Qed.

Lemma offset_utf16_roundtrip k :
  str_is_char_boundary text k = true →
  offset_utf16_to_offset (chunk_of text) (utf16_units (take k text)) = Ret k.
Proof.
  intros Hk. pose proof (boundary_utf16_at k Hk) as Ha.
  assert (Hle : utf16_units (take k text) ≤ utf16_units text).
  { rewrite <-(take_drop k text) at 2. rewrite utf16_units_app. lia. }
  destruct (offset_utf16_to_offset_spec _ Hle) as (j & Hj & ->). by rewrite (utf16_at_unique _ _ _ _ Hj Ha).
Qed.

(** A unit that does not begin a character is the second of a pair, whose
    character begins one byte before and ends three bytes after. *)
Lemma utf16_inside t k :
  utf16_at text t k → str_is_char_boundary text k = false →
  1 ≤ k ∧ k + 3 ≤ length text ∧ str_is_char_boundary text (k - 1) = true ∧
  str_is_char_boundary text (k + 3) = true ∧ (∀ i, i < 3 → str_is_char_boundary text (k + i) = false) ∧
  utf16_units (take (k - 1) text) + 1 = t ∧ utf16_units (take (k + 3) text) = t + 1.
Proof. clear Hlen.
  intros (Hk & Et & Hbit) Hb. destruct Hbit as [->|Hbit]; [by rewrite str_boundary_end in Hb|].
  assert (Hw : ∃ j b, k = S j ∧ text !! j = Some b ∧ is_wide b = true).
  { destruct k as [|j]; [done|]. rewrite str_boundary_S in Hb. rewrite utf16_bits_lookup in Hbit.
    destruct (text !! S j) eqn:E; [|done]. simpl in Hbit, Hb. rewrite Hb in Hbit. simpl in Hbit.
    destruct (text !! j) as [b|] eqn:Ej; [|done]. exists j, b. simpl in Hbit. by simplify_eq. }
  destruct Hw as (j & b & -> & Ej & Hw). apply N.leb_le in Hw.
  destruct (utf8_wide text j b Hutf8 Ej Hw) as (H1 & H2 & H3 & H4).
  replace (S j - 1) with j by lia. replace (S j + 3) with (j + 4) by lia.
  destruct (boundary_utf16_at _ H1) as (_ & E1 & [?|B1]); [lia|].
  destruct (boundary_utf16_at _ H2) as (_ & E2 & _). apply ones_take_S in B1 as S1.
  apply ones_take_S in Hbit as S2. split_and!; [lia|lia|done|done| |lia|].
  - intros i Hi. replace (S j + i) with (j + (i + 1)) by lia. apply H3. lia.
  - rewrite <-E2. replace (j + 4) with (S (S j) + 2) by lia. rewrite <-take_take_drop, ones_app, S2, Et.
    assert (Hz : ∀ i, i < 2 → utf16_bits text !! (S (S j) + i) = Some false).
    { intros i Hi. rewrite utf16_bits_lookup. destruct (lookup_lt_is_Some_2 text (S (S j) + i)) as [c Hc]; [lia|].
      rewrite Hc. cbn [fmap option_fmap option_map].
      assert (Hcb : ∀ i c, i < 3 → text !! S (j + i) = Some c → is_utf8_char_boundary c = false).
      { intros i' c' Hi' Hc'. specialize (H3 (i' + 1) ltac:(lia)).
        replace (j + (i' + 1)) with (S (j + i')) in H3 by lia. by rewrite str_boundary_S, Hc' in H3. }
      rewrite (Hcb (i + 1) c) by (lia || (rewrite <-Hc; f_equal; lia)). cbn [Nat.add wide_before orb].
      destruct (lookup_lt_is_Some_2 text (S (j + i))) as [d Hd]; [lia|]. rewrite Hd. simpl. f_equal.
      pose proof (Hcb i d ltac:(lia) Hd) as Hdb. unfold is_wide. apply N.leb_gt.
      destruct (N.lt_ge_cases d 240) as [|Hge]; [done|].
      assert (Hd8 : (d < 256)%N) by (by eapply (Forall_lookup_1 _ _ _ _ (utf8_bytes _ Hutf8))).
      rewrite (proj2 (boundary_spec d Hd8)) in Hdb by lia. done. }
    pose proof (Hz 0 ltac:(lia)) as Z0. pose proof (Hz 1 ltac:(lia)) as Z1. rewrite <-!lookup_drop in Z0, Z1.
    destruct (drop (S (S j)) (utf16_bits text)) as [|z0 [|z1 l]]; try done. cbn in Z0, Z1. simplify_eq.
    cbn [take firstn]. unfold ones. simpl. lia.
Qed.

End Utf16.

(** ** Looking for a boundary *)
Lemma scan_down (P : nat → bool) d fuel k :
  d < fuel → d ≤ k → (∀ i, i < d → P (k - i) = false) → P (k - d) = true →
  loop (λ ix, if P ix then Ret (inr ix) else let* ix := usize_sub ix 1 in Ret (inl ix)) fuel k = Ret (k - d).
Proof.
  revert fuel k. induction d as [|d IH]; intros [|fuel] k Hf Hd Hn Hb; try lia; cbn [loop].
  - rewrite Nat.sub_0_r in *. by rewrite Hb.
  - pose proof (Hn 0 ltac:(lia)) as H0. rewrite Nat.sub_0_r in H0. rewrite H0, usize_sub_ok by lia.
    replace (k - S d) with (k - 1 - d) in * by lia. apply IH; [lia|lia| |done].
    intros i Hi. replace (k - 1 - i) with (k - (S i)) by lia. apply Hn. lia.
Qed.

Lemma scan_up (P : nat → bool) d fuel k :
  d < fuel → (N.of_nat (k + d) <= U64_MAX)%N → (∀ i, i < d → P (k + i) = false) → P (k + d) = true →
  loop (λ ix, if P ix then Ret (inr ix) else let* ix := usize_add ix 1 in Ret (inl ix)) fuel k = Ret (k + d).
Proof.
  revert fuel k. induction d as [|d IH]; intros [|fuel] k Hf Hm Hn Hb; try lia; cbn [loop].
  - rewrite Nat.add_0_r in *. by rewrite Hb.
  - pose proof (Hn 0 ltac:(lia)) as H0. rewrite Nat.add_0_r in H0. rewrite H0, usize_add_ok by lia.
    replace (k + S d) with (k + 1 + d) in * by lia. apply IH; [lia|lia| |done].
    intros i Hi. replace (k + 1 + i) with (k + (S i)) by lia. apply Hn. lia.
Qed.

(** The unit offsets at which a character begins, or the text ends. *)
Definition char_unit (text : list N) (u : nat) : Prop :=
  ∃ k, str_is_char_boundary text k = true ∧ utf16_units (take k text) = u.
(** Where an offset inside a pair is moved. *)
Definition clip_unit (bias : Bias) (u : nat) : nat := match bias with Left => u - 1 | Right => u + 1 end.
Definition clip_byte (bias : Bias) (k : nat) : nat := match bias with Left => k - 1 | Right => k + 3 end.

Section Clip.
Context (text : list N).
Hypothesis Hutf8 : utf8 text.
Hypothesis Hlen : length text ≤ BITS.

Lemma char_unit_iff t k : utf16_at text t k → char_unit text t ↔ str_is_char_boundary text k = true.
Proof. clear Hlen.
  intros Hk. split.
  - intros (j & Hj & Ej). pose proof (boundary_utf16_at text Hutf8 j Hj) as Ha. rewrite Ej in Ha.
    by rewrite (utf16_at_unique _ _ _ _ Hk Ha).
  - intros Hb. exists k. split; [done|]. destruct (boundary_utf16_at text Hutf8 k Hb) as (_ & <- & _). apply Hk.
Qed.

Lemma clip_loop_spec bias t k :
  utf16_at text t k →
  let j := if str_is_char_boundary text k then k else clip_byte bias k in
  clip_loop text bias k = Ret j ∧ str_is_char_boundary text j = true ∧ j ≤ length text ∧
  utf16_units (take j text) = (if str_is_char_boundary text k then t else clip_unit bias t).
Proof.
  cbn zeta. intros Hk. destruct (str_is_char_boundary text k) eqn:Hb.
  - destruct (boundary_utf16_at text Hutf8 k Hb) as (Hl & <- & _). destruct Hk as (_ & <- & _).
    split_and!; [|done..]. unfold clip_loop. cbn [loop]. unfold clip_step at 1. by rewrite Hb.
  - destruct (utf16_inside text Hutf8 t k Hk Hb) as (H1 & H2 & H3 & H4 & H5 & H6 & H7).
    unfold clip_loop. destruct bias; cbn [clip_byte clip_unit].
    + split_and!; [|done|lia|lia]. apply (scan_down (str_is_char_boundary text) 1); [lia|lia| |done].
      intros i Hi. assert (i = 0) as -> by lia. by rewrite Nat.sub_0_r.
    + split_and!; [|done|lia|lia]. apply (scan_up (str_is_char_boundary text) 3); [lia| |done|done].
      unfold BITS, U64_MAX in *. lia.
Qed.

Lemma clip_offset_utf16_spec bias t :
  (utf16_units text ≤ t → clip_offset_utf16 (chunk_of text) t bias = Ret (utf16_units text)) ∧
  (t < utf16_units text → char_unit text t → clip_offset_utf16 (chunk_of text) t bias = Ret t) ∧
  (t < utf16_units text → ¬ char_unit text t →
    clip_offset_utf16 (chunk_of text) t bias = Ret (clip_unit bias t) ∧ char_unit text (clip_unit bias t)).
Proof.
  unfold clip_offset_utf16. rewrite slice_len_utf16_spec by done. split.
  { intros Ht. destruct (Nat.eqb_spec t 0) as [->|]; [f_equal; lia|]. by apply Nat.leb_le in Ht as ->. }
  assert (Hall : t < utf16_units text → ∃ k, utf16_at text t k ∧
    clip_offset_utf16 (chunk_of text) t bias = Ret (if str_is_char_boundary text k then t else clip_unit bias t) ∧
    (str_is_char_boundary text k = false → char_unit text (clip_unit bias t))).
  { intros Ht. destruct (offset_utf16_to_offset_spec text Hutf8 Hlen t ltac:(lia)) as (k & Hk & Ek). exists k. split; [done|].
    destruct (clip_loop_spec bias t k Hk) as (E1 & E2 & E3 & E4). split.
    - unfold clip_offset_utf16. rewrite slice_len_utf16_spec, Ek by done. cbn [ctext chunk_of]. rewrite E1.
      destruct (Nat.eqb_spec t 0) as [->|Hne].
      + pose proof (boundary_utf16_at text Hutf8 0 eq_refl) as H0. rewrite (utf16_at_unique _ _ _ _ Hk H0). done.
      + destruct (Nat.leb_spec (utf16_units text) t); [lia|]. by rewrite offset_to_offset_utf16_spec, E4.
    - intros Hb. rewrite Hb in *. by eexists. }
  unfold clip_offset_utf16 in Hall. rewrite slice_len_utf16_spec in Hall by done.
  split; intros Ht Hc; destruct (Hall Ht) as (k & Hk & E & H); rewrite (char_unit_iff t k Hk) in Hc.
  - by rewrite E, Hc.
  - apply not_true_is_false in Hc. rewrite E, Hc. auto.
Qed.
End Clip.

(** ** UTF-16 points *)
Lemma first_line_no_newline s : no_newline (first_line s).
Proof.
  unfold no_newline, first_line. induction s as [|b s IH]; [done|]. cbn [split_lines].
  destruct (split_lines s) as [f r] eqn:E. destruct (b =? NEWLINE)%N eqn:Eb; [done|].
  simpl in *. destruct (split_lines f) as [f' r']. by rewrite Eb.
Qed.

Lemma str_boundary_prefix s rest k :
  utf8 rest → k ≤ length s → str_is_char_boundary (s ++ rest) k = str_is_char_boundary s k.
Proof.
  intros Hr Hk. destruct (Nat.eq_dec k (length s)) as [->|Hne].
  - rewrite <-(Nat.add_0_r (length s)) at 1. by rewrite str_boundary_app, str_boundary_end.
  - destruct k as [|k]; [done|]. rewrite !str_boundary_S, lookup_app_l by lia.
    destruct (lookup_lt_is_Some_2 s (S k)) as [b ->]; [lia|done].
Qed.

Section Points.
Context (text : list N).
Hypothesis Hutf8 : utf8 text.
Hypothesis Hlen : length text ≤ BITS.

Section Row.
Context (r a : nat).
Hypothesis Ha : row_at text r a.
Let line : list N := first_line (drop a text).

Lemma line_boundary k :
  k ≤ length line → str_is_char_boundary text (a + k) = str_is_char_boundary line k.
Proof.
  intros Hk. assert (Hb : str_is_char_boundary text a = true) by (by eapply row_at_boundary).
  destruct (utf8_split _ _ Hutf8 Hb) as (_ & Hd & Hal).
  assert (He : str_is_char_boundary text (row_end text a) = true) by (by eapply row_end_boundary).
  destruct (utf8_split _ _ Hutf8 He) as (_ & Hrest & _).
  rewrite <-(take_drop a text) at 1. replace a with (length (take a text)) at 3 by (rewrite length_take; lia).
  rewrite str_boundary_app by done. rewrite <-(take_drop (length line) (drop a text)).
  subst line. rewrite take_first_line, drop_drop. by apply str_boundary_prefix.
Qed.

Lemma line_units : last_line_len_utf16 (chunk_of line) = utf16_units line ∧ slice_len_utf16 (chunk_of line) = utf16_units line.
Proof.
  destruct (line_utf8 text Hutf8 Hlen _ _ Ha) as [Hu Hl]. split; [|by apply slice_len_utf16_spec].
  rewrite last_line_len_utf16_spec by done.
  by destruct (no_newline_lines line (first_line_no_newline _)) as [_ ->].
Qed.

Lemma row_range : r ≤ newline_count text ∧ offset_range_for_row (chunk_of text) (N.of_nat r) = Ret (a, row_end text a).
Proof.
  assert (Hr : r ≤ newline_count text).
  { destruct Ha as [_ E]. apply (f_equal row) in E. rewrite extent_row in E. simpl in E.
    unfold newline_count in *. rewrite <-(take_drop a text), fmap_app, ones_app. lia. }
  split; [done|]. destruct (offset_range_spec text Hlen r Hr) as (a' & Ha' & ->).
  by rewrite (row_at_unique _ _ _ _ Ha' Ha).
Qed.

Lemma row_present : (row (extent_of text) <? N.of_nat r)%N = false.
Proof. destruct row_range as [Hr _]. rewrite extent_row. apply N.ltb_ge. lia. Qed.

Lemma point_utf16_to_offset_row debug clip (u : nat) :
  let strict := debug && negb clip in
  (utf16_units line < u →
    point_utf16_to_offset debug (chunk_of text) (MkPoint (N.of_nat r) (N.of_nat u)) clip =
      if strict then Panic else Ret (row_end text a)) ∧
  (u ≤ utf16_units line → ∃ k, utf16_at line u k ∧
    point_utf16_to_offset debug (chunk_of text) (MkPoint (N.of_nat r) (N.of_nat u)) clip =
      if str_is_char_boundary line k then Ret (a + k) else if strict then Panic else Ret (a + (k - 1))).
Proof.
  cbn zeta. destruct row_range as [_ Er]. destruct line_units as [El _].
  destruct (line_utf8 text Hutf8 Hlen _ _ Ha) as [Hlu Hll]. fold line in Hlu, Hll.
  unfold point_utf16_to_offset, unless_clipped, debug_panic. rewrite slice_lines_spec by done.
  cbn [row column]. rewrite row_present, Er, (line_slice text Hutf8 Hlen r a Ha). fold line. rewrite El, ltb_of_nat.
  split; intros Hu; destruct (Nat.ltb_spec (utf16_units line) u); try lia; [by destruct clip, debug|].
  destruct (offset_utf16_to_offset_spec line Hlu Hll u Hu) as (k & Hk & Ek). exists k. split; [done|].
  destruct (N.ltb_spec 0 (N.of_nat u)) as [Hp|Hz].
  - rewrite Nat2N.id, Ek. cbn [ctext chunk_of]. rewrite line_boundary by apply Hk.
    destruct (str_is_char_boundary line k) eqn:Hb; [done|].
    destruct (utf16_inside line Hlu u k Hk Hb) as (H1 & H2 & H3 & _). rewrite usize_sub_ok by lia.
    unfold clip_loop. cbn [loop]. unfold clip_step at 1.
    rewrite <-Nat.add_sub_assoc, line_boundary, H3 by lia. by destruct clip, debug.
  - assert (u = 0) as -> by lia. pose proof (boundary_utf16_at line Hlu 0 eq_refl) as H0.
    rewrite (utf16_at_unique _ _ _ _ Hk H0). simpl. by rewrite Nat.add_0_r.
Qed.

Lemma unclipped_point_utf16_row (u : nat) :
  (utf16_units line ≤ u →
    unclipped_point_utf16_to_point (chunk_of text) (MkPoint (N.of_nat r) (N.of_nat u)) =
      Ret (MkPoint (N.of_nat r) (N.of_nat (length line)))) ∧
  (u ≤ utf16_units line → ∃ k, utf16_at line u k ∧
    unclipped_point_utf16_to_point (chunk_of text) (MkPoint (N.of_nat r) (N.of_nat u)) =
      Ret (MkPoint (N.of_nat r) (N.of_nat (if str_is_char_boundary line k then k else k - 1)))).
Proof.
  destruct row_range as [_ Er]. destruct line_units as [_ El].
  destruct (line_utf8 text Hutf8 Hlen _ _ Ha) as [Hlu Hll]. fold line in Hlu, Hll.
  assert (Hend : utf16_at line (utf16_units line) (length line)).
  { pose proof (boundary_utf16_at line Hlu (length line) (str_boundary_end _)) as H. by rewrite take_ge in H by lia. }
  pose proof (boundary_utf16_at line Hlu 0 eq_refl) as H0. rewrite take_0 in H0.
  unfold unclipped_point_utf16_to_point. rewrite slice_lines_spec by done.
  cbn [row column]. rewrite row_present, Er, (line_slice text Hutf8 Hlen r a Ha). fold line. rewrite El.
  split; intros Hu.
  - destruct (N.eqb_spec (N.of_nat u) 0) as [E|_].
    + assert (utf16_units line = 0) as Ez by lia. rewrite Ez in Hend. simpl in H0.
      rewrite (utf16_at_unique _ _ _ _ Hend H0). done.
    + destruct (N.leb_spec (N.of_nat (utf16_units line)) (N.of_nat u)); [done|lia].
  - destruct (offset_utf16_to_offset_spec line Hlu Hll u Hu) as (k & Hk & Ek). exists k. split; [done|].
    destruct (N.eqb_spec (N.of_nat u) 0) as [E|Hne].
    { assert (u = 0) as -> by lia. by rewrite (utf16_at_unique _ _ _ _ Hk H0). }
    destruct (N.leb_spec (N.of_nat (utf16_units line)) (N.of_nat u)).
    { assert (u = utf16_units line) as -> by lia. rewrite (utf16_at_unique _ _ _ _ Hk Hend).
      by rewrite str_boundary_end. }
    rewrite Nat2N.id, Ek. cbn [ctext chunk_of].
    destruct (clip_loop_spec line Hlu Hll Left u k Hk) as (E1 & _). by rewrite E1.
Qed.

Lemma clip_point_utf16_row bias (u : nat) :
  clip_point_utf16 (chunk_of text) (MkPoint (N.of_nat r) (N.of_nat u)) bias =
  (let* c := clip_offset_utf16 (chunk_of line) u bias in Ret (MkPoint (N.of_nat r) (N.of_nat c))).
Proof.
  destruct row_range as [_ Er]. unfold clip_point_utf16. rewrite slice_lines_spec by done.
  cbn [row column]. rewrite row_present, Er, (line_slice text Hutf8 Hlen r a Ha). fold line. by rewrite Nat2N.id.
Qed.
End Row.
End Points.
