(* ===== verification/ChunkPointsSpec.v ===== *)
(** * Theorems about the conversions within a chunk *)
From stdpp Require Import base numbers option list.
From Stdlib Require Import Lia.
From S2P Require Import Prelude SumTree Bits Select Utf8 Point Chunk ChunkFacts ChunkMeasures.
From S2P Require Import TextSummary ChunkSpec ChunkPoints ChunkPointsFacts.

Section Rows.
Context (text : list N).
Hypothesis Hutf8 : utf8 text.
Hypothesis Hlen : length text ≤ BITS.

(** The row of an offset, and what lies before the offset in it. *)
Lemma offset_row k :
  k ≤ length text →
  ∃ a, row_at text (newline_count (take k text)) a ∧ a ≤ k ∧ k - a ≤ length (first_line (drop a text)) ∧
    column (extent_of (take k text)) = N.of_nat (k - a) ∧
    last_line (take k text) = take (k - a) (first_line (drop a text)).
Proof.
  intros Hk. destruct (row_start_of text k Hk) as (Ha & Ex & Ec & Hc). eexists. rewrite extent_row in Ex.
  split_and!; [split; [|exact Ex]; lia|done|done|done|].
  rewrite last_line_drop, skipn_firstn_comm, <-take_first_line, take_take. by rewrite Nat.min_l.
Qed.

Lemma point_utf16_column k :
  str_is_char_boundary text k = true →
  ∃ a, let line := first_line (drop a text) in
    row_at text (newline_count (take k text)) a ∧ a ≤ k ∧ str_is_char_boundary line (k - a) = true ∧
    column (extent_of (take k text)) = N.of_nat (k - a) ∧
    utf16_at line (utf16_units (last_line (take k text))) (k - a) ∧
    utf16_units (last_line (take k text)) ≤ utf16_units line.
Proof.
  intros Hb. destruct (utf8_split _ _ Hutf8 Hb) as (_ & _ & Hk).
  destruct (offset_row k Hk) as (a & Ha & Hak & Hka & Ec & El). exists a. cbn zeta.
  destruct (line_utf8 text Hutf8 Hlen _ _ Ha) as [Hlu _].
  assert (Hlb : str_is_char_boundary (first_line (drop a text)) (k - a) = true).
  { rewrite <-(line_boundary text Hutf8 Hlen _ _ Ha) by done. by replace (a + (k - a)) with k by lia. }
  rewrite El. split_and!; [done..|by apply boundary_utf16_at|].
  rewrite <-(take_drop (k - a) (first_line _)) at 2. rewrite utf16_units_app. lia.
Qed.

Lemma point_utf16_roundtrip debug clip k :
  str_is_char_boundary text k = true →
  point_utf16_to_offset debug (chunk_of text)
    (MkPoint (row (extent_of (take k text))) (N.of_nat (utf16_units (last_line (take k text))))) clip = Ret k ∧
  unclipped_point_utf16_to_point (chunk_of text)
    (MkPoint (row (extent_of (take k text))) (N.of_nat (utf16_units (last_line (take k text))))) =
  Ret (extent_of (take k text)).
Proof.
  intros Hb. destruct (point_utf16_column k Hb) as (a & Ha & Hak & Hlb & Ec & Hu & Hle).
  rewrite extent_row. split.
  - destruct (point_utf16_to_offset_row text Hutf8 Hlen _ a Ha debug clip (utf16_units (last_line (take k text)))) as [_ H].
    destruct (H Hle) as (j & Hj & ->). rewrite (utf16_at_unique _ _ _ _ Hj Hu), Hlb. f_equal. lia.
  - destruct (unclipped_point_utf16_row text Hutf8 Hlen _ a Ha (utf16_units (last_line (take k text)))) as [_ H].
    destruct (H Hle) as (j & Hj & ->). rewrite (utf16_at_unique _ _ _ _ Hj Hu), Hlb.
    destruct (extent_of (take k text)) as [r c] eqn:E. pose proof (extent_row (take k text)) as Er.
    rewrite E in Er. simpl in Er, Ec. by rewrite Er, Ec.
Qed.
End Rows.

(** Every character boundary of a chunk survives the round trips through
    points, UTF-16 offsets and UTF-16 points, in either build and with or
    without clipping, and the direct conversions between points agree with
    those that go through offsets. *)
Theorem chunk_offset_roundtrips text k debug clip :
  utf8 text → length text ≤ MAX_BASE → str_is_char_boundary text k = true →
  let c := chunk_of text in
  (let* p := offset_to_point c k in point_to_offset debug c p) = Ret k ∧
  offset_utf16_to_offset c (offset_to_offset_utf16 c k) = Ret k ∧
  (let* p := offset_to_point_utf16 c k in point_utf16_to_offset debug c p clip) = Ret k ∧
  (let* p := offset_to_point c k in point_to_offset_utf16 debug c p) = Ret (offset_to_offset_utf16 c k) ∧
  (let* p := offset_to_point c k in point_to_point_utf16 debug c p) = offset_to_point_utf16 c k ∧
  (let* p := offset_to_point_utf16 c k in unclipped_point_utf16_to_point c p) = offset_to_point c k.
Proof.
  cbn zeta. intros Hu Hl Hb. destruct (utf8_split _ _ Hu Hb) as (_ & _ & Hk).
  rewrite offset_to_point_spec, offset_to_point_utf16_spec, offset_to_offset_utf16_spec by done.
  destruct (point_utf16_roundtrip text Hu Hl debug clip k Hb) as [E1 E2].
  unfold point_to_offset_utf16, point_to_point_utf16.
  rewrite (point_roundtrip text Hl debug k Hk), slice_lines_spec by done.
  assert (Hr : (row (extent_of text) <? row (extent_of (take k text)))%N = false).
  { apply N.ltb_ge. rewrite !extent_row. unfold newline_count.
    rewrite <-(take_drop k text) at 2. rewrite fmap_app, ones_app. lia. }
  rewrite Hr, offset_to_offset_utf16_spec by done.
  split_and!; [done|by apply offset_utf16_roundtrip|done|done|by apply offset_to_point_utf16_spec|done].
Qed.

(** Points outside a chunk: a row past the last is taken to the end of the
    chunk and a column past its row to the end of the row, where the build does
    not panic; every other point is that many bytes into its row. *)
Theorem point_to_offset_clamps text (p : Point) debug :
  length text ≤ MAX_BASE →
  ((row (extent_of text) < row p)%N →
    point_to_offset debug (chunk_of text) p = if debug then Panic else Ret (length text)) ∧
  ((row p <= row (extent_of text))%N → ∃ a line,
    extent_of (take a text) = MkPoint (row p) 0 ∧ split_newlines text !! N.to_nat (row p) = Some line ∧
    point_to_offset debug (chunk_of text) p =
      if (column p <=? N.of_nat (length line))%N then Ret (a + N.to_nat (column p))
      else if debug then Panic else Ret (a + length line)).
Proof.
  intros Hl. rewrite extent_row. destruct (point_to_offset_spec text Hl debug p) as [H1 H2].
  split; [done|]. intros Hr. destruct (H2 (N.to_nat (row p))) as (a & Ha & ->); [lia..|].
  exists a, (first_line (drop a text)). split_and!; [|by apply row_at_line|done].
  destruct Ha as [_ ->]. by rewrite N2Nat.id.
Qed.

(** Clipping a UTF-16 offset: one at a character stays, one inside a
    surrogate pair moves to the start or the end of its character according to
    the bias, and one past the end moves to the end. *)
Theorem clip_offset_utf16_refines text t bias :
  utf8 text → length text ≤ MAX_BASE →
  returns (clip_offset_utf16 (chunk_of text) t bias) (λ u,
    char_unit text u ∧
    (utf16_units text ≤ t → u = utf16_units text) ∧
    (char_unit text t → u = t) ∧
    (t < utf16_units text → ¬ char_unit text t → u = match bias with Left => t - 1 | Right => t + 1 end)).
Proof.
  intros Hu Hl. destruct (clip_offset_utf16_spec text Hu Hl bias t) as (H1 & H2 & H3).
  assert (Hend : char_unit text (utf16_units text)).
  { exists (length text). split; [apply str_boundary_end|]. by rewrite take_ge. }
  assert (Hmax : ∀ u, char_unit text u → u ≤ utf16_units text).
  { intros u (k & _ & <-). rewrite <-(take_drop k text) at 2. rewrite utf16_units_app. lia. }
  destruct (Nat.le_gt_cases (utf16_units text) t) as [Ht|Ht].
  - rewrite H1 by done. apply returns_Ret. split_and!; [done|done| |lia]. intros Hc%Hmax. lia.
  - destruct (offset_utf16_to_offset_spec text Hu Hl t ltac:(lia)) as (k & Hk & _).
    destruct (str_is_char_boundary text k) eqn:Hb.
    + assert (Hc : char_unit text t) by (by apply (char_unit_iff text Hu t k Hk)).
      rewrite H2 by done. apply returns_Ret. split_and!; [done|lia|done|done].
    + assert (Hc : ¬ char_unit text t) by (rewrite (char_unit_iff text Hu t k Hk); by rewrite Hb).
      destruct (H3 Ht Hc) as [-> H]. apply returns_Ret. split_and!; [done|lia|done|done].
Qed.

(** ** Clipping to graphemes *)
Section Graphemes.
Context (is_grapheme_boundary : list N → nat → bool).
(** Segmentation breaks at the start and at the end of a text. *)
Hypothesis gb_start : ∀ s, is_grapheme_boundary s 0 = true.
Hypothesis gb_end : ∀ s, is_grapheme_boundary s (length s) = true.

Definition cluster_boundary (s : list N) (i : nat) : bool :=
  str_is_char_boundary s i && is_grapheme_boundary s i.

(** [nearest s bias c j]: the first cluster boundary met from [c]. *)
Definition nearest (s : list N) (bias : Bias) (c j : nat) : Prop :=
  cluster_boundary s j = true ∧
  match bias with
  | Left => j ≤ c ∧ ∀ i, j < i ≤ c → cluster_boundary s i = false
  | Right => c ≤ j ≤ length s ∧ ∀ i, c ≤ i < j → cluster_boundary s i = false
  end.

Definition ascii_around (s : list N) (c : nat) : Prop :=
  ∃ x y, s !! (c - 1) = Some x ∧ s !! c = Some y ∧ (x < 128)%N ∧ (y < 128)%N.

Lemma grapheme_loop s bias c :
  utf8 s → length s ≤ BITS → c ≤ length s →
  returns (loop (grapheme_step is_grapheme_boundary (chunk_of s) bias) (S (length s)) c) (nearest s bias c).
Proof.
  intros Hu Hl Hc.
  apply (loop_returns _
    (λ i, match bias with
          | Left => i ≤ c ∧ ∀ k, i < k ≤ c → cluster_boundary s k = false
          | Right => c ≤ i ≤ length s ∧ ∀ k, c ≤ k < i → cluster_boundary s k = false
          end) (λ i, match bias with Left => i | Right => length s - i end)).
  - intros i Hi. unfold grapheme_step. cbn [ctext chunk_of]. rewrite chunk_boundary_spec by done.
    change (str_is_char_boundary s i && is_grapheme_boundary s i) with (cluster_boundary s i).
    destruct (cluster_boundary s i) eqn:Eb; [right; exists i; split; [done|]; split; [done|by destruct bias]|].
    left. destruct bias; destruct Hi as [H1 H2].
    + destruct i as [|i].
      { unfold cluster_boundary in Eb. by rewrite gb_start in Eb. }
      exists i. rewrite usize_sub_ok by lia. replace (S i - 1) with i by lia. split_and!; [done|lia| |lia].
      intros k Hk. destruct (Nat.eq_dec k (S i)) as [->|]; [done|]. apply H2. lia.
    + assert (i ≠ length s).
      { intros ->. unfold cluster_boundary in Eb. by rewrite str_boundary_end, gb_end in Eb. }
      exists (i + 1). rewrite usize_add_ok by (unfold BITS, U64_MAX in *; lia). split_and!; [done|lia|lia| |lia].
      intros k Hk. destruct (Nat.eq_dec k i) as [->|]; [done|]. apply H2. lia.
  - destruct bias; (split; [lia|]; intros; lia).
  - destruct bias; lia.
Qed.

(** Clipping a point always ends, within its row: a column past the row goes
    to the end of the row, one between ASCII characters stays, and any other
    goes to the nearest boundary of a grapheme cluster in the direction of the
    bias. *)
Theorem clip_point_terminates text r a line (p : Point) bias :
  utf8 text → length text ≤ MAX_BASE →
  row_at text r a → line = first_line (drop a text) → row p = N.of_nat r →
  returns (clip_point is_grapheme_boundary (chunk_of text) p bias) (λ q,
    row q = row p ∧ str_is_char_boundary line (N.to_nat (column q)) = true ∧
    (N.to_nat (column q) ≤ length line) ∧
    ((N.of_nat (length line) <= column p)%N → column q = N.of_nat (length line)) ∧
    ((column p < N.of_nat (length line))%N →
      q = p ∧ (column p = 0%N ∨ ascii_around line (N.to_nat (column p))) ∨
      nearest line bias (N.to_nat (column p)) (N.to_nat (column q)))).
Proof.
  intros Hu Hl Ha -> Hp. destruct (row_range text Hl r a Ha) as [Hr Er].
  destruct (line_utf8 text Hu Hl _ _ Ha) as [Hlu Hll]. pose proof (line_slice text Hu Hl r a Ha) as Es.
  set (line := first_line (drop a text)) in *.
  unfold clip_point. rewrite slice_lines_spec by done.
  rewrite Hp, (row_present text Hl r a Ha), Er, Es. unfold slice_len. cbn [ctext chunk_of].
  destruct (N.eqb_spec (column p) 0) as [Hz|Hz].
  { apply returns_Ret. rewrite Hz. split_and!; [done|done|simpl; lia|lia|]. left. by split; [|left]. }
  destruct (N.leb_spec (N.of_nat (length line)) (column p)) as [Hc|Hc].
  { apply returns_Ret. cbn [row column]. rewrite Nat2N.id. split_and!; [done|apply str_boundary_end|lia|done|lia]. }
  destruct (lookup_lt_is_Some_2 line (N.to_nat (column p) - 1)) as [x Ex]; [lia|].
  destruct (lookup_lt_is_Some_2 line (N.to_nat (column p))) as [y Ey]; [lia|]. rewrite Ex, Ey. cbn [unwrap].
  destruct ((x <? 128) && (y <? 128))%N eqn:Eascii.
  - apply andb_true_iff in Eascii as [Hx%N.ltb_lt Hy%N.ltb_lt]. apply returns_Ret. cbn [row column]. rewrite Nat2N.id.
    split_and!; [done| |lia|lia|].
    2:{ left. split; [destruct p; simpl in *; f_equal; lia|]. right. by exists x, y. }
    replace (N.to_nat (column p)) with (S (N.to_nat (column p) - 1)) by lia. by eapply utf8_after_ascii.
  - eapply returns_bind; [apply (grapheme_loop line bias); [done|done|lia]|]. intros j Hj.
    apply returns_Ret. cbn [row column]. rewrite Nat2N.id. pose proof Hj as [Hb Hrange].
    apply andb_true_iff in Hb as [Hb _]. split_and!; [done|done| |lia|by right].
    destruct bias; destruct Hrange; lia.
Qed.
End Graphemes.

(** ** Tabs *)

(** [for tab in chunk.tabs()], the tabs collected. *)
Definition tabs_step (st : Tabs * list (nat * nat)) : outcome (Tabs * list (nat * nat) + list (nat * nat)) :=
  let '(it, acc) := st in
  let* r := tabs_next it in
  match r with None => Ret (inr acc) | Some (tab, it) => Ret (inl (it, acc ++ [tab])) end.
Definition tabs_collect (self : ChunkSlice) : outcome (list (nat * nat)) :=
  loop tabs_step (S BITS) (slice_tabs self, []).

(** The byte and character offsets of the tabs of a text from an offset on. *)
Definition tab_positions_from (text : list N) (n : nat) : list (nat * nat) :=
  (λ i, (i, char_count (take i text))) <$>
    List.filter (λ i, default false (is_tab <$> text !! i)) (seq n (length text - n)).

Lemma lxor_first k l :
  N.lxor (of_bits (replicate k false ++ true :: l)) (2 ^ N.of_nat k) = of_bits (replicate (S k) false ++ l).
Proof.
  apply word_eq. intros i. rewrite N.lxor_spec, !testbit_of_bits, N.pow2_bits_eqb.
  destruct (N.eqb_spec (N.of_nat k) (N.of_nat i)) as [E|E].
  - assert (i = k) as -> by lia. rewrite lookup_app_r by (rewrite length_replicate; lia).
    rewrite length_replicate, Nat.sub_diag.
    by rewrite lookup_app_l, lookup_replicate_2 by (rewrite ?length_replicate; lia).
  - destruct (Nat.lt_ge_cases i k) as [Hi|Hi].
    + rewrite !lookup_app_l, !lookup_replicate_2 by (rewrite ?length_replicate; lia). done.
    + rewrite !lookup_app_r, !length_replicate by (rewrite ?length_replicate; lia).
      replace (i - k) with (S (i - S k)) by lia. by rewrite xorb_false_r.
Qed.

Lemma first_one_replicate k l : first_one (replicate k false ++ l) = (λ i, k + i) <$> first_one l.
Proof. induction k as [|k IH]; simpl; [by destruct (first_one l)|]. rewrite IH. by destruct (first_one l). Qed.

Lemma first_one_lookup l m :
  first_one l = Some m → l = replicate m false ++ true :: drop (S m) l.
Proof.
  revert m. induction l as [|b l IH]; intros m; cbn [first_one]; [done|]. destruct b; [by intros [= <-]|].
  intros (j & Hj & ->)%fmap_Some. simpl. f_equal. by apply IH.
Qed.

Section TabIteration.
Context (text : list N).
Hypothesis Hlen : length text ≤ BITS.

Abbreviation tab_bits := (is_tab <$> text).

(** After the tabs below [n]. *)
Definition tabs_at (n : nat) : Tabs :=
  MkTabs (of_bits (replicate n false ++ drop n tab_bits)) (of_bits (is_utf8_char_boundary <$> text)).

Lemma filter_tabs_none n m :
  (∀ i, n ≤ i < n + m → default false (is_tab <$> text !! i) = false) →
  List.filter (λ i, default false (is_tab <$> text !! i)) (seq n m) = [].
Proof.
  intros H. rewrite (filter_ext_in _ (λ _, false)); [apply filter_false|].
  intros i Hi%in_seq. by apply H.
Qed.

Lemma tab_bit n i :
  default false (is_tab <$> text !! (n + i)) = default false (drop n tab_bits !! i).
Proof. by rewrite lookup_drop, list_lookup_fmap. Qed.

Lemma tabs_next_spec n :
  n ≤ length text →
  match first_one (drop n tab_bits) with
  | None => tabs_next (tabs_at n) = Ret None ∧ tab_positions_from text n = []
  | Some m =>
      n + m < length text ∧
      tabs_next (tabs_at n) = Ret (Some ((n + m, char_count (take (n + m) text)), tabs_at (S (n + m)))) ∧
      tab_positions_from text n = (n + m, char_count (take (n + m) text)) :: tab_positions_from text (S (n + m))
  end.
Proof.
  intros Hn. unfold tabs_next, tabs_at. cbn [t_tabs t_chars].
  rewrite trailing_zeros_of_bits, first_one_replicate.
  destruct (first_one (drop n tab_bits)) as [m|] eqn:E; cbn [fmap option_fmap option_map from_option id].
  - pose proof (first_one_lookup _ _ E) as El.
    assert (Hm : n + m < length text).
    { apply (f_equal length) in El. rewrite length_app, length_replicate, length_drop, length_fmap in El. simpl in El. lia. }
    split; [done|]. split.
    + destruct (N.eqb_spec (of_bits (replicate n false ++ drop n tab_bits)) 0) as [Ez|_].
      { apply of_bits_zero in Ez. by rewrite first_one_replicate, E in Ez. }
      rewrite shl_one by lia. rewrite pow2_pred, mask_bits, count_ones_of_bits, <-fmap_take.
      do 4 f_equal. rewrite El, app_assoc, <-replicate_add, lxor_first, drop_drop.
      do 3 f_equal. f_equal. lia.
    + unfold tab_positions_from. replace (length text - n) with (m + S (length text - S (n + m))) by lia.
      rewrite seq_app, List.filter_app, filter_tabs_none.
      * simpl. rewrite tab_bit, El, lookup_app_r, length_replicate, Nat.sub_diag by (rewrite length_replicate; lia). done.
      * intros i Hi. replace i with (n + (i - n)) by lia. rewrite tab_bit, El, lookup_app_l, lookup_replicate_2;
          [done|lia|rewrite length_replicate; lia].
  - assert (Hz : Forall (λ b, b = false) (drop n tab_bits)).
    { revert E. generalize (drop n tab_bits). clear. intros l. induction l as [|b l IH]; cbn [first_one]; [constructor|].
      destruct b; [done|]. destruct (first_one l); [done|]. intros _. constructor; auto. }
    split.
    + assert (Ez : of_bits (replicate n false ++ drop n tab_bits) = 0%N); [|by rewrite Ez].
      apply word_eq. intros i. rewrite testbit_of_bits, N.bits_0.
      destruct ((replicate n false ++ drop n tab_bits) !! i) as [b|] eqn:Eb; [|done]. simpl.
      apply list_elem_of_lookup_2, elem_of_app in Eb as [Hb|Hb]; [by apply elem_of_replicate in Hb as [-> _]|].
      by eapply Forall_forall in Hz.
    + unfold tab_positions_from. rewrite filter_tabs_none; [done|]. intros i Hi.
      replace i with (n + (i - n)) by lia. rewrite tab_bit. destruct (drop n tab_bits !! (i - n)) eqn:Eb; [|done].
      simpl. by eapply Forall_lookup_1 in Eb; [|exact Hz].
Qed.
End TabIteration.

(** Iterating over the tabs of a chunk ends and yields each tab once, in
    order, with the number of characters before it. *)
Theorem tabs_enumerated text :
  length text ≤ MAX_BASE → tabs_collect (chunk_of text) = Ret (tab_positions_from text 0).
Proof.
  intros Hl. apply returns_eq. unfold tabs_collect.
  apply (loop_bounded _ (λ b st, ∃ n, n ≤ length text ∧ b = length text - n ∧ st.1 = tabs_at text n ∧
    tab_positions_from text 0 = st.2 ++ tab_positions_from text n) _) with (n := length text).
  - intros b [it acc] (n & Hn & -> & Hit & Hacc). simpl in Hit, Hacc. subst it.
    pose proof (tabs_next_spec text Hl n Hn) as H. unfold tabs_step.
    destruct (first_one (drop n _)) as [m|].
    + destruct H as (Hm & -> & E). left. eexists _, _. split; [done|]. split; [|shelve].
      exists (S (n + m)). split_and!; [lia|done|done|]. simpl. by rewrite Hacc, E, <-app_assoc.
    + destruct H as [-> E]. right. eexists. split; [done|]. by rewrite Hacc, E, app_nil_r.
  - exists 0. split_and!; [lia|lia|done|done].
  - unfold MAX_BASE in Hl. lia.
  Unshelve. lia.
Qed.

(** ** Witnesses *)
Lemma chunk_offset_roundtrips_witness :
  offset_utf16_to_offset (chunk_of sample_wide) (offset_to_offset_utf16 (chunk_of sample_wide) 4) = Ret 4.
Proof.
  apply (chunk_offset_roundtrips sample_wide 4 true false sample_wide_utf8); [vm_compute; lia|reflexivity].
Defined.

Lemma point_to_offset_clamps_witness :
  point_to_offset false (chunk_of sample_text) (MkPoint 7 0) = Ret 4 ∧
  point_to_offset true (chunk_of sample_text) (MkPoint 7 0) = Panic.
Proof.
  split.
  - apply (point_to_offset_clamps sample_text (MkPoint 7 0) false); vm_compute; [lia|reflexivity].
  - apply (point_to_offset_clamps sample_text (MkPoint 7 0) true); vm_compute; [lia|reflexivity].
Defined.

Lemma clip_offset_utf16_refines_witness :
  returns (clip_offset_utf16 (chunk_of sample_wide) 1 Left) (λ u, char_unit sample_wide u).
Proof.
  destruct (clip_offset_utf16_refines sample_wide 1 Left sample_wide_utf8) as (u & E & H & _); [vm_compute; lia|].
  exists u. split; assumption.
Defined.

Lemma clip_point_terminates_witness :
  returns (clip_point (λ _ _, true) (chunk_of sample_text) (MkPoint 0 2) Left) (λ q, (N.to_nat (column q) ≤ 3)).
Proof.
  destruct (clip_point_terminates (λ _ _, true) (λ _, eq_refl) (λ _, eq_refl) sample_text 0 0 [97; 195; 169]%N
    (MkPoint 0 2) Left sample_text_utf8) as (q & E & _ & _ & H & _);
    [vm_compute; lia|split; [lia|reflexivity]|reflexivity|reflexivity|]. exists q. split; assumption.
Defined.

Lemma tabs_enumerated_witness :
  tabs_collect (chunk_of [195; 169; 9; 97; 9]%N) = Ret [(2, 1); (4, 3)].
Proof. apply (tabs_enumerated [195; 169; 9; 97; 9]%N). vm_compute. lia. Defined.
