(* ===== verification/RopeTree.v ===== *)
(** * The tree of a rope: summaries and dimensions

    The implementations of the sum tree's traits in [crates/rope/src/rope.rs]:
    chunks are items, their text summaries add up, and text is measured in
    bytes, UTF-16 units and points of either kind.  Additions are checked, so a
    summary or a dimension is an [outcome]; the laws show that within
    [u32::MAX] bytes none panics. *)
From stdpp Require Import base numbers option list.
From Stdlib Require Import Lia.
From S2P Require Import Prelude SumTree SumTreeFacts SumTreeBulk Bits Utf8 Point Chunk ChunkFacts ChunkMeasures.
From S2P Require Import TextSummary.

(** [ChunkSummary] is a struct with the one field [text]. *)
Definition ChunkSummary : Type := TextSummary.

#[export] Instance ChunkSummary_summary : Summary (outcome ChunkSummary) :=
  {| zero := Ret ts_zero;
     add_summary := λ a b, let* a := a in let* b := b in ts_add_assign a b |}.
#[export] Instance Chunk_item : Item Chunk (outcome ChunkSummary) := λ self, text_summary (as_slice self).

(** [OffsetUtf16(usize)] *)
Record OffsetUtf16 := MkOffsetUtf16 { units : nat }.
#[export] Instance OffsetUtf16_ord : Ord OffsetUtf16 := λ a b, cmp (units a) (units b).
Definition offset_utf16_add (a b : OffsetUtf16) : outcome OffsetUtf16 :=
  let* n := usize_add (units a) (units b) in Ret (MkOffsetUtf16 n).
Definition offset_utf16_sub (a b : OffsetUtf16) : outcome OffsetUtf16 :=
  let* n := usize_sub (units a) (units b) in Ret (MkOffsetUtf16 n).

(** [trait TextDimension], with the [Dimension] it extends. *)
Class TextDimension (D : Type) := {
  td_zero : D;
  td_add_summary : D → ChunkSummary → outcome D;
  from_text_summary : TextSummary → D;
  from_chunk : ChunkSlice → outcome D;
  td_add_assign : D → D → outcome D;
}.

#[export] Instance text_dimension {D} `{TextDimension D} : Dimension (outcome D) (outcome ChunkSummary) :=
  {| dim_zero := Ret td_zero;
     dim_add := λ d s, let* d := d in let* s := s in td_add_summary d s |}.

#[export] Instance usize_text_dimension : TextDimension nat :=
  {| td_zero := 0;
     td_add_summary := λ d s, usize_add d (ts_len s);
     from_text_summary := ts_len;
     from_chunk := λ c, Ret (slice_len c);
     td_add_assign := usize_add |}.
#[export] Instance OffsetUtf16_text_dimension : TextDimension OffsetUtf16 :=
  {| td_zero := MkOffsetUtf16 0;
     td_add_summary := λ d s, offset_utf16_add d (MkOffsetUtf16 (ts_len_utf16 s));
     from_text_summary := λ s, MkOffsetUtf16 (ts_len_utf16 s);
     from_chunk := λ c, Ret (MkOffsetUtf16 (slice_len_utf16 c));
     td_add_assign := offset_utf16_add |}.
#[export] Instance Point_text_dimension : TextDimension Point :=
  {| td_zero := point_zero;
     td_add_summary := λ d s, point_add_assign d (ts_lines s);
     from_text_summary := ts_lines;
     from_chunk := slice_lines;
     td_add_assign := point_add_assign |}.
#[export] Instance PointUtf16_text_dimension : TextDimension PointUtf16 :=
  {| td_zero := point_zero;
     td_add_summary := λ d s, point_add_assign d (lines_utf16 s);
     from_text_summary := lines_utf16;
     from_chunk := λ c, let* l := slice_lines c in Ret (MkPoint (row l) (N.of_nat (last_line_len_utf16 c)));
     td_add_assign := point_add_assign |}.
#[export] Instance TextSummary_text_dimension : TextDimension TextSummary :=
  {| td_zero := ts_zero;
     td_add_summary := ts_add_assign;
     from_text_summary := λ s, s;
     from_chunk := text_summary;
     td_add_assign := ts_add_assign |}.

(** Targets are compared with the position of a cursor. *)
#[export] Instance text_target {D} `{Ord D} : SeekTarget D (outcome D) := λ t d, outcome_ord (Ret t) d.
#[export] Existing Instance Dimensions_dimension.
#[export] Existing Instance Dimensions_seek_target.

(** ** Laws *)

(** A chunk has the bitmaps of its text. *)
Definition chunk_ok (c : Chunk) : Prop :=
  c = chunk_of (ctext c) ∧ utf8 (ctext c) ∧ length (ctext c) ≤ MAX_BASE.
Definition chunks_text (l : list Chunk) : list N := concat (ctext <$> l).
Definition small (s : list N) : Prop := (N.of_nat (length s) <= U32_MAX)%N.

Lemma chunks_text_app l k : chunks_text (l ++ k) = chunks_text l ++ chunks_text k.
Proof. unfold chunks_text. by rewrite fmap_app, concat_app. Qed.
Lemma chunks_text_single c : chunks_text [c] = ctext c.
Proof. unfold chunks_text. simpl. by rewrite app_nil_r. Qed.
Lemma chunks_text_cons c l : chunks_text (c :: l) = ctext c ++ chunks_text l.
Proof. done. Qed.
Lemma chunks_text_utf8 l : Forall chunk_ok l → utf8 (chunks_text l).
Proof.
  induction 1 as [|c l (_ & Hc & _) _ IH]; [constructor|]. rewrite chunks_text_cons. by apply utf8_app.
Qed.
Lemma small_app s t : small (s ++ t) → small s ∧ small t.
Proof. unfold small. rewrite length_app. lia. Qed.

Lemma chunk_of_ok s : utf8 s → length s ≤ MAX_BASE → chunk_ok (chunk_of s).
Proof. done. Qed.

Lemma chunk_summary_ok c : chunk_ok c → text_summary c = Ret (summary_of (ctext c)).
Proof. intros (E & Hu & Hl). rewrite E at 1. by apply text_summary_spec. Qed.

Lemma rope_total l :
  Forall chunk_ok l → small (chunks_text l) → total l = Ret (summary_of (chunks_text l)).
Proof.
  unfold total, sum. induction l as [|c l IH] using rev_ind; [done|].
  rewrite chunks_text_app, chunks_text_single, fmap_app, foldl_app.
  intros [Hl [Hc _]%Forall_cons]%Forall_app Hs. pose proof (small_app _ _ Hs) as [Hs1 _].
  rewrite IH by done. simpl. unfold item_summary_of, Chunk_item, as_slice. rewrite chunk_summary_ok by done.
  unfold small in Hs. rewrite length_app in Hs.
  apply ts_add_assign_spec; [by apply chunks_text_utf8|apply Hc|done].
Qed.

#[export] Instance Rope_summary_laws : SummaryLaws Chunk (outcome ChunkSummary).
Proof.
  refine {| valid := λ l, Forall chunk_ok l ∧ small (chunks_text l) |}.
  - intros l1 l2 [[? ?]%Forall_app Hs]. rewrite chunks_text_app in Hs. apply small_app in Hs as [? ?]. done.
  - intros c [Hc Hs]. rewrite rope_total by done. apply Forall_cons in Hc as [Hc _].
    unfold item_summary_of, Chunk_item, as_slice. by rewrite chunk_summary_ok, chunks_text_single.
  - intros l _ [Hl Hs]. rewrite rope_total by done. simpl.
    pose proof (ts_add_assign_spec [] (chunks_text l)) as E. apply E; [constructor|by apply chunks_text_utf8|].
    unfold small in Hs. simpl. lia.
  - intros l1 l2 _ _ [[Hl1 Hl2]%Forall_app Hs]. pose proof Hs as Hs'. rewrite chunks_text_app in Hs'.
    pose proof (small_app _ _ Hs') as [Hs1 Hs2]. rewrite !rope_total by (done || by apply Forall_app).
    rewrite chunks_text_app. unfold small in Hs'. rewrite length_app in Hs'. simpl. symmetry.
    apply ts_add_assign_spec; [by apply chunks_text_utf8..|lia].
Defined.

(** What a text dimension measures: a function of the text, which adding a
    summary, a chunk or another measure extends. *)
Class TextDimensionLaws (D : Type) `{TextDimension D} := {
  td_of : list N → D;
  td_zero_of : td_zero = td_of [];
  td_add_of : ∀ s t, utf8 s → utf8 t → small (s ++ t) →
    td_add_summary (td_of s) (summary_of t) = Ret (td_of (s ++ t));
  td_from_of : ∀ s, from_text_summary (summary_of s) = td_of s;
  td_chunk_of : ∀ s, utf8 s → length s ≤ MAX_BASE → from_chunk (chunk_of s) = Ret (td_of s);
  td_add_assign_of : ∀ s t, utf8 s → utf8 t → small (s ++ t) →
    td_add_assign (td_of s) (td_of t) = Ret (td_of (s ++ t));
}.

Lemma small_usize (s : list N) : small s → (N.of_nat (length s) <= U64_MAX)%N.
Proof. unfold small, U32_MAX, U64_MAX. lia. Qed.

#[export] Instance usize_text_laws : TextDimensionLaws nat.
Proof.
  refine {| td_of := length |}; try done.
  - intros s t _ _ Hs. simpl. rewrite length_app. apply usize_add_ok. rewrite <-length_app. by apply small_usize.
  - intros s t _ _ Hs. simpl. rewrite length_app. apply usize_add_ok. rewrite <-length_app. by apply small_usize.
Defined.

Lemma units_small s : utf8 s → small s → (N.of_nat (utf16_units s) <= U64_MAX)%N.
Proof. intros Hu Hs%small_usize. pose proof (utf16_units_le s Hu). lia. Qed.

#[export] Instance OffsetUtf16_text_laws : TextDimensionLaws OffsetUtf16.
Proof.
  refine {| td_of := λ s, MkOffsetUtf16 (utf16_units s) |}; try done.
  - intros s t Hs Ht Hl. simpl. unfold offset_utf16_add. simpl. rewrite usize_add_ok, utf16_units_app; [done|].
    rewrite <-utf16_units_app. apply units_small; [by apply utf8_app|done].
  - intros s Hu Hl. simpl. by rewrite slice_len_utf16_spec.
  - intros s t Hs Ht Hl. simpl. unfold offset_utf16_add. simpl. rewrite usize_add_ok, utf16_units_app; [done|].
    rewrite <-utf16_units_app. apply units_small; [by apply utf8_app|done].
Defined.

Lemma point_add_assign_ok {e} (p q : PointOf e) : point_ok (point_plus p q) → point_add_assign p q = Ret (point_plus p q).
Proof. apply point_add_ok. Qed.

#[export] Instance Point_text_laws : TextDimensionLaws Point.
Proof.
  refine {| td_of := extent_of |}; try done.
  - intros s t _ _ Hl. cbn -[extent_of]. rewrite extent_of_app. apply point_add_assign_ok. rewrite <-extent_of_app. by apply extent_of_ok.
  - intros s Hu Hl. by apply slice_lines_spec.
  - intros s t _ _ Hl. cbn -[extent_of]. rewrite extent_of_app. apply point_add_assign_ok. rewrite <-extent_of_app. by apply extent_of_ok.
Defined.

(** The extent of a text with its last line counted in UTF-16 units. *)
Definition extent_utf16 (s : list N) : PointUtf16 :=
  MkPoint (row (extent_of s)) (N.of_nat (utf16_units (last_line s))).

Lemma extent_utf16_app s t : extent_utf16 (s ++ t) = point_plus (extent_utf16 s) (extent_utf16 t).
Proof.
  unfold extent_utf16. rewrite last_line_join, extent_of_app. unfold point_plus. cbn [row column].
  destruct (row (extent_of t) =? 0)%N eqn:E; cbn [row column]; [|done]. apply row_zero in E.
  destruct (no_newline_lines t E) as [-> ->]. rewrite utf16_units_app. f_equal. lia.
Qed.

Lemma extent_utf16_ok s : utf8 s → small s → point_ok (extent_utf16 s).
Proof.
  intros Hu Hs. pose proof (extent_of_bound s). destruct (last_line_utf8 s Hu) as [_ Hl].
  pose proof (utf16_units_le _ Hl). pose proof (last_line_le s). unfold small in Hs.
  split; cbn [extent_utf16 row column]; lia.
Qed.

#[export] Instance PointUtf16_text_laws : TextDimensionLaws PointUtf16.
Proof.
  assert (Hadd : ∀ s t, utf8 s → utf8 t → small (s ++ t) →
    point_add_assign (extent_utf16 s) (extent_utf16 t) = Ret (extent_utf16 (s ++ t))).
  { intros s t Hs Ht Hl. rewrite extent_utf16_app. apply point_add_assign_ok. rewrite <-extent_utf16_app.
    apply extent_utf16_ok; [by apply utf8_app|done]. }
  refine {| td_of := extent_utf16 |}; try done.
  intros s Hu Hl. cbn -[extent_of slice_lines last_line_len_utf16]. rewrite slice_lines_spec by done.
  by rewrite last_line_len_utf16_spec.
Defined.

#[export] Instance TextSummary_text_laws : TextDimensionLaws TextSummary.
Proof.
  assert (Hadd : ∀ s t, utf8 s → utf8 t → small (s ++ t) →
    ts_add_assign (summary_of s) (summary_of t) = Ret (summary_of (s ++ t))).
  { intros s t Hs Ht Hl. unfold small in Hl. rewrite length_app in Hl. by apply ts_add_assign_spec. }
  refine {| td_of := summary_of |}; try done. intros s Hu Hl. by apply text_summary_spec.
Defined.

(** Measuring chunks is measuring their text. *)
Section Measures.
Context {D : Type} `{TextDimensionLaws D}.

Lemma measure_text l : valid l → measure (D := outcome D) l = Ret (td_of (chunks_text l)).
Proof.
  unfold measure. induction l as [|c l IH] using rev_ind; intros Hv; [simpl; by rewrite td_zero_of|].
  pose proof Hv as [[Hl Hc]%Forall_app Hs]. rewrite fmap_app, foldl_app, IH by (by eapply valid_l).
  apply Forall_cons in Hc as [Hc _]. cbn. unfold item_summary_of, Chunk_item, as_slice. rewrite chunk_summary_ok by done.
  rewrite chunks_text_app, chunks_text_single in *. apply td_add_of; [by apply chunks_text_utf8|apply Hc|done].
Qed.

#[export] Instance Text_dimension_laws : DimensionLaws (outcome D) Chunk (outcome ChunkSummary).
Proof.
  split.
  - intros l1 l2 _ Hv. pose proof Hv as [[Hl1 Hl2]%Forall_app Hs].
    rewrite !measure_text by (done || by eapply valid_l). rewrite rope_total by (done || by eapply (valid_r _ _ Hv)).
    rewrite chunks_text_app in *. cbn. by apply td_add_of; [apply chunks_text_utf8..|].
  - unfold MeasureNil. cbn. rewrite td_zero_of. by apply (td_add_of [] []); [constructor..|].
Qed.
End Measures.

(** Several dimensions at once. *)
Section Several.
Context {T Sm D1 D2 D3 : Type} `{SummaryLaws T Sm}.
Context `{!Dimension D1 Sm, !Dimension D2 Sm, !Dimension D3 Sm}.

Lemma measure_several (l : list T) :
  measure (D := D1 * D2 * D3) l = (measure l, measure l, measure l).
Proof.
  unfold measure. induction l as [|x l IH] using rev_ind; [done|]. rewrite fmap_app, !foldl_app, IH. done.
Qed.

#[export] Instance Several_measure
    `{!MeasureLaws D1 T Sm, !MeasureLaws D2 T Sm, !MeasureLaws D3 T Sm} : MeasureLaws (D1 * D2 * D3) T Sm.
Proof. intros l1 l2 Hl Hv. rewrite !measure_several. cbn. by rewrite !measure_app. Qed.
#[export] Instance Several_laws
    `{!DimensionLaws D1 T Sm, !DimensionLaws D2 T Sm, !DimensionLaws D3 T Sm} :
  DimensionLaws (D1 * D2 * D3) T Sm.
Proof. split; [apply Several_measure|]. unfold MeasureNil. cbn. by rewrite !measure_nil. Qed.
End Several.

(** ** Searching by a dimension *)

(** [text_split D target bias l1 l2]: the target is past the chunks [l1] and
    not past the first of [l2]. *)
Definition past_text {D} `{Ord D} (target : D) (bias : Bias) (d : D) : bool :=
  match cmp target d, bias with Gt, _ => true | Eq, Right => true | _, _ => false end.

Section Search.
Context {D : Type} `{TextDimensionLaws D} `{!Ord D}.
Context (target : D) (bias : Bias).

(** The comparison with the text of longer and longer prefixes never goes up. *)
Definition text_monotone (s : list N) : Prop :=
  ∀ a b c, s = a ++ b ++ c → utf8 a → utf8 b → cmp_rank (cmp target (td_of (a ++ b))) ≤ cmp_rank (cmp target (td_of a)).

Lemma text_monotone_target l :
  valid l → text_monotone (chunks_text l) → monotone_target (D := outcome D) target l.
Proof.
  intros Hv Hm l1 l2 l3 ->. rewrite app_assoc in Hv. pose proof (valid_l _ _ Hv) as Hv12.
  pose proof Hv12 as [[Hl1 Hl2]%Forall_app _].
  rewrite !measure_text by (done || by eapply valid_l). unfold seek_cmp, text_target. cbn [outcome_ord].
  rewrite chunks_text_app. apply (Hm _ _ (chunks_text l3)); [by rewrite !chunks_text_app|by apply chunks_text_utf8..].
Qed.

Lemma target_past_text l :
  valid l → target_past target bias (measure (D := outcome D) l) = past_text target bias (td_of (chunks_text l)).
Proof. intros Hv. rewrite measure_text by done. done. Qed.

(** Where the scan of [advance] stops. *)
Lemma advance_split p l p' l' :
  valid (p ++ l) → advance (target_past (D := outcome D) target bias) p l = (p', l') →
  p' ++ l' = p ++ l ∧
  (p' = p ∨ past_text target bias (td_of (chunks_text p')) = true) ∧
  (∀ x, head l' = Some x → past_text target bias (td_of (chunks_text (p' ++ [x]))) = false).
Proof.
  revert p. induction l as [|x l IH]; intros p Hv; cbn [advance].
  - intros [= <- <-]. split_and!; [done|by left|done].
  - assert (Hvx : valid (p ++ [x])) by (rewrite cons_middle, app_assoc in Hv; by eapply valid_l).
    rewrite target_past_text by done. destruct (past_text target bias (td_of (chunks_text (p ++ [x])))) eqn:E.
    + intros Ha. destruct (IH (p ++ [x])) as (E1 & E2 & E3); [by rewrite <-app_assoc|done|].
      split_and!; [by rewrite E1, <-app_assoc| |done]. right. destruct E2 as [->|E2]; done.
    + intros [= <- <-]. split_and!; [done|by left|]. intros y [= <-]. done.
Qed.
End Search.

(** Dimensions that grow with the text, in an order given by a key. *)
Class TextOrder (D : Type) `{TextDimensionLaws D} `{Ord D} := {
  td_key : D → N;
  td_cmp : ∀ a b : D, cmp a b = N.compare (td_key a) (td_key b);
  td_key_lt : ∀ s u, utf8 s → utf8 u → u ≠ [] → small (s ++ u) → (td_key (td_of s) < td_key (td_of (s ++ u)))%N;
}.

#[export] Instance usize_text_order : TextOrder nat.
Proof.
  refine {| td_key := N.of_nat |}.
  - intros a b. apply Nat2N.inj_compare.
  - intros s u _ _ Hu _. cbn. rewrite length_app. destruct u; [done|simpl; lia].
Defined.

Lemma utf16_units_pos s : utf8 s → s ≠ [] → 0 < utf16_units s.
Proof.
  intros [|c s' Hc Hs'] Hne; [done|]. apply utf8_char_cons in Hc as (a & k & -> & _ & Ha & _). simpl. rewrite Ha.
  destruct (is_wide a); lia.
Qed.

#[export] Instance OffsetUtf16_text_order : TextOrder OffsetUtf16.
Proof.
  refine {| td_key := λ o, N.of_nat (units o) |}.
  - intros a b. apply Nat2N.inj_compare.
  - intros s u _ Hu Hne _. cbn. rewrite utf16_units_app. pose proof (utf16_units_pos u Hu Hne). lia.
Defined.

Lemma point_bits_lt {e} (p q : PointOf e) :
  point_ok p → point_ok q → (row p < row q ∨ row p = row q ∧ column p < column q)%N → (point_bits p < point_bits q)%N.
Proof. intros Hp Hq H. apply N.compare_lt_iff. by apply (point_lt_iff p q). Qed.

#[export] Instance Point_text_order : TextOrder Point.
Proof.
  refine {| td_key := point_bits |}; [done|]. intros s u _ _ Hne Hs. cbn -[extent_of].
  apply point_bits_lt; [apply extent_of_ok; by apply small_app in Hs as [? _]|by apply extent_of_ok|].
  rewrite extent_of_app. unfold point_plus. pose proof (extent_of_bits u) as E.
  destruct (N.eqb_spec (row (extent_of u)) 0) as [Ez|]; cbn [row column]; [right; split; [done|]|left; lia].
  rewrite E in Ez |- *. cbn [row column] in *. assert (Hz : ones (nl_bits u) = 0) by lia.
  apply last_one_zero in Hz. rewrite Hz. destruct u; [done|simpl; lia].
Defined.

#[export] Instance PointUtf16_text_order : TextOrder PointUtf16.
Proof.
  refine {| td_key := point_bits |}; [done|]. intros s u Hus Huu Hne Hs. cbn -[extent_of].
  apply point_bits_lt; [apply extent_utf16_ok; [done|by apply small_app in Hs as [? _]]|
    apply extent_utf16_ok; [by apply utf8_app|done]|].
  rewrite extent_utf16_app. unfold point_plus. cbn [extent_utf16 row column].
  destruct (N.eqb_spec (row (extent_of u)) 0) as [Ez|]; cbn [row column]; [right; split; [done|]|left; lia].
  apply N.eqb_eq, row_zero in Ez. destruct (no_newline_lines u Ez) as [_ ->].
  pose proof (utf16_units_pos u Huu Hne). lia.
Defined.

Section Ordered.
Context {D : Type} `{TextOrder D}.

Lemma td_key_le s u : utf8 s → utf8 u → small (s ++ u) → (td_key (td_of s) <= td_key (td_of (s ++ u)))%N.
Proof.
  intros Hs Hu Hsm. destruct (decide (u = [])) as [->|Hne]; [by rewrite app_nil_r|].
  pose proof (td_key_lt s u Hs Hu Hne Hsm). lia.
Qed.

Lemma key_monotone (target : D) s : small s → text_monotone target s.
Proof.
  intros Hs a b c -> Ha Hb. rewrite !td_cmp. rewrite app_assoc in Hs. apply small_app in Hs as [Hs _].
  pose proof (td_key_le a b Ha Hb Hs).
  destruct (N.compare_spec (td_key target) (td_key (td_of (a ++ b)))),
    (N.compare_spec (td_key target) (td_key (td_of a))); simpl; lia.
Qed.

Lemma past_by_key (target : D) bias d :
  past_text target bias d = match bias with Left => (td_key d <? td_key target)%N | Right => (td_key d <=? td_key target)%N end.
Proof.
  unfold past_text. rewrite td_cmp.
  destruct (N.compare_spec (td_key target) (td_key d)), bias;
    destruct (N.ltb_spec (td_key d) (td_key target)), (N.leb_spec (td_key d) (td_key target)); (done || lia).
Qed.
End Ordered.
