(* ===== verification/Rope.v ===== *)
(** * The rope ([crates/rope/src/rope.rs])

    A text of any length as a tree of chunks: construction, appending, slicing
    and replacing, and the conversions between positions, which search the tree
    by one dimension and finish in a chunk.  [debug] and the grapheme
    segmentation are those of [ChunkPoints], [par_chunks] is rayon's.
    [check_invariants] has no effect outside tests. *)
From stdpp Require Import base numbers option list.
From Stdlib Require Import Lia.
From S2P Require Import Prelude SumTree Cursor Bits Utf8 Point Chunk TextSummary ChunkPoints RopeTree.

Definition MIN_BASE : nat := MAX_BASE / 2.

Record Rope := MkRope { chunks : SumTree Chunk (outcome ChunkSummary) }.
Definition rope_new : Rope := MkRope new.

(** ** Appending chunks *)

(** [while !is_char_boundary(split_ix) { split_ix += 1 }] *)
Definition ceil_loop (boundary : nat → bool) (split_ix : nat) : outcome nat :=
  loop (λ ix, if boundary ix then Ret (inr ix) else let* ix := usize_add ix 1 in Ret (inl ix))
    (S MAX_BASE) split_ix.

(** How much of a text of [len] bytes the last chunk takes. *)
Definition split_ix_for (last_len len : nat) (boundary : nat → bool) : outcome nat :=
  if last_len + len <=? MAX_BASE then Ret len
  else ceil_loop boundary (Nat.min (MIN_BASE - last_len) len).

(** [impl Into<Chunk> for ChunkSlice] *)
Definition slice_into_chunk (self : ChunkSlice) : outcome Chunk :=
  let* text := array_push_str [] (ctext self) in
  Ret (MkChunk (chars self) (chars_utf16 self) (newlines self) (tabs self) text).

(** The closure of [push_chunk], and the chunk it leaves. *)
Definition push_chunk_to_last (chunk : ChunkSlice) (last_chunk : Chunk) : outcome (Chunk * ChunkSlice) :=
  let* split_ix := split_ix_for (length (ctext last_chunk)) (slice_len chunk) (chunk_is_char_boundary chunk) in
  let* '(suffix, remainder) := slice_split_at chunk split_ix in
  let* last_chunk := chunk_append last_chunk suffix in
  Ret (last_chunk, remainder).

Definition push_chunk (self : Rope) (chunk : ChunkSlice) : outcome Rope :=
  let* '(cs, remainder) := update_last (push_chunk_to_last chunk) (chunks self) in
  let chunk := default chunk remainder in
  if negb (slice_is_empty chunk) then
    let* c := slice_into_chunk chunk in
    let* cs := push cs c in
    Ret (MkRope cs)
  else Ret (MkRope cs).

Definition rope_append (self rope : Rope) : outcome Rope :=
  let* first_chunk := first (chunks rope) in
  match first_chunk with
  | None => let* cs := append (chunks self) (chunks rope) in Ret (MkRope cs)
  | Some chunk =>
      let* last_chunk := last_item (chunks self) in
      if (match last_chunk with Some c => length (ctext c) <? MIN_BASE | None => false end)
         || (length (ctext chunk) <? MIN_BASE) then
        let* self := push_chunk self (as_slice chunk) in
        let* c := next (cursor_new (D := unit) (chunks rope)) in
        let* c := next c in
        let* '(rest, _) := suffix c in
        let* cs := append (chunks self) rest in
        Ret (MkRope cs)
      else let* cs := append (chunks self) (chunks rope) in Ret (MkRope cs)
  end.

(** ** Appending text *)

(** The closure of [push]. *)
Definition push_to_last (text : list N) (last_chunk : Chunk) : outcome (Chunk * list N) :=
  let* split_ix := split_ix_for (length (ctext last_chunk)) (length text) (str_is_char_boundary text) in
  let* '(suffix, remainder) := str_split_at text split_ix in
  let* last_chunk := chunk_push_str last_chunk suffix in
  Ret (last_chunk, remainder).

(** [while !text.is_char_boundary(split_ix) { split_ix -= 1 }] *)
Definition floor_loop (text : list N) (split_ix : nat) : outcome nat :=
  loop (λ ix, if str_is_char_boundary text ix then Ret (inr ix) else let* ix := usize_sub ix 1 in Ret (inl ix))
    (S MAX_BASE) split_ix.

(** [while !text.is_empty()]: cut a chunk off; the vector holds at most
    [capacity] chunks when it has one. *)
Definition cut_step (capacity : option nat) (st : list N * list (list N)) :
  outcome (list N * list (list N) + list (list N)) :=
  let '(text, new_chunks) := st in
  match text with
  | [] => Ret (inr new_chunks)
  | _ :: _ =>
      let* split_ix := floor_loop text (Nat.min MAX_BASE (length text)) in
      let* '(chunk, remainder) := str_split_at text split_ix in
      if (match capacity with Some n => n <=? length new_chunks | None => false end) then Panic
      else Ret (inl (remainder, new_chunks ++ [chunk]))
  end.
Definition cut_chunks (capacity : option nat) (text : list N) : outcome (list (list N)) :=
  loop (cut_step capacity) (S (length text)) (text, []).

Definition NUM_CHUNKS : nat := 4.
Definition PARALLEL_THRESHOLD : nat := 84 * (2 * TREE_BASE).

Section Ropes.
Context (par_chunks : ∀ A : Type, nat → list A → list (list A)).

Definition push_large (self : Rope) (text : list N) : outcome Rope :=
  let* new_chunks := cut_chunks None text in
  let* cs := par_map chunk_new new_chunks in
  if PARALLEL_THRESHOLD <=? length new_chunks then
    let* t := par_extend par_chunks (chunks self) cs in Ret (MkRope t)
  else
    let* t := extend (chunks self) cs in Ret (MkRope t).

Definition rope_push (self : Rope) (text : list N) : outcome Rope :=
  let* '(cs, remainder) := update_last (push_to_last text) (chunks self) in
  let self := MkRope cs in
  let text := default text remainder in
  match text with
  | [] => Ret self
  | _ :: _ =>
      if NUM_CHUNKS * MAX_BASE - NUM_CHUNKS * 4 <? length text then push_large self text
      else
        let* new_chunks := cut_chunks (Some NUM_CHUNKS) text in
        let* cs := par_map chunk_new new_chunks in
        let* t := extend (chunks self) cs in
        Ret (MkRope t)
  end.

(** [From<&str>] and [FromIterator<&str>] *)
Definition rope_from (text : list N) : outcome Rope := rope_push rope_new text.
Fixpoint push_all (self : Rope) (texts : list (list N)) : outcome Rope :=
  match texts with
  | [] => Ret self
  | t :: texts => let* self := rope_push self t in push_all self texts
  end.
Definition rope_from_iter (texts : list (list N)) : outcome Rope := push_all rope_new texts.

(** ** Measures *)
Definition rope_summary (self : Rope) : outcome TextSummary := summary (chunks self).
Definition rope_len (self : Rope) : outcome nat := extent (chunks self).
Definition rope_is_empty (self : Rope) : outcome bool := let* n := rope_len self in Ret (n =? 0).
Definition max_point (self : Rope) : outcome Point := extent (chunks self).
Definition max_point_utf16 (self : Rope) : outcome PointUtf16 := extent (chunks self).

Definition push_front (self : Rope) (text : list N) : outcome Rope :=
  match text with
  | [] => Ret self
  | _ :: _ =>
      let* e := rope_is_empty self in
      if (e : bool) then rope_push self text
      else
        let* first_chunk := first (chunks self) in
        if (match first_chunk with Some c => length (ctext c) + length text <=? MAX_BASE | None => false end) then
          let* '(cs, _) := update_first (λ c, let* c := chunk_prepend_str c text in Ret (c, tt)) (chunks self) in
          Ret (MkRope cs)
        else
          let* rope := rope_from text in
          rope_append rope self
  end.

(** ** [Cursor] *)
Record RopeCursor := MkRopeCursor {
  rc_rope : Rope; rc_chunks : Cursor Chunk (outcome ChunkSummary) (outcome nat); rc_offset : nat }.

Definition rope_cursor (self : Rope) (offset : nat) : outcome RopeCursor :=
  let* '(_, c) := seek (cursor_new (chunks self)) offset Right in
  Ret (MkRopeCursor self c offset).

Definition rc_assert (self : RopeCursor) (end_offset : nat) : outcome unit :=
  let* _ := rust_assert (rc_offset self <=? end_offset) in
  let* len := rope_len (rc_rope self) in
  rust_assert (end_offset <=? len).

Definition rc_seek_forward (self : RopeCursor) (end_offset : nat) : outcome RopeCursor :=
  let* _ := rc_assert self end_offset in
  let* '(_, c) := seek_forward (rc_chunks self) end_offset Right in
  Ret (MkRopeCursor (rc_rope self) c end_offset).

(** [self.chunks.start()] and [self.chunks.end()] *)
Definition chunk_start (c : Cursor Chunk (outcome ChunkSummary) (outcome nat)) : outcome nat := start c.
Definition chunk_end (c : Cursor Chunk (outcome ChunkSummary) (outcome nat)) : outcome nat :=
  let* e := end_ c in e.

(** [Chunk::slice] between the offsets of a cursor. *)
Definition rc_slice (self : RopeCursor) (end_offset : nat) : outcome (Rope * RopeCursor) :=
  let* _ := rc_assert self end_offset in
  let c := rc_chunks self in
  let slice := rope_new in
  let* start_chunk := item c in
  let* slice :=
    match start_chunk with
    | Some start_chunk =>
        let* s := chunk_start c in
        let* e := chunk_end c in
        let* start_ix := usize_sub (rc_offset self) s in
        let* end_ix := usize_sub (Nat.min end_offset e) s in
        let* part := chunk_slice start_chunk start_ix end_ix in
        push_chunk slice part
    | None => Ret slice
    end in
  let* e := chunk_end c in
  let* '(slice, c) :=
    if e <? end_offset then
      let* c := next c in
      let* '(middle, c) := Cursor.slice c end_offset Right in
      let* slice := rope_append slice (MkRope middle) in
      let* end_chunk := item c in
      match end_chunk with
      | Some end_chunk =>
          let* s := chunk_start c in
          let* end_ix := usize_sub end_offset s in
          let* part := chunk_slice end_chunk 0 end_ix in
          let* slice := push_chunk slice part in
          Ret (slice, c)
      | None => Ret (slice, c)
      end
    else Ret (slice, c) in
  Ret (slice, MkRopeCursor (rc_rope self) c end_offset).

Definition rc_suffix (self : RopeCursor) : outcome (Rope * RopeCursor) :=
  let* len := rope_len (rc_rope self) in rc_slice self len.

Definition rc_summary {D} `{TextDimension D} (self : RopeCursor) (end_offset : nat) : outcome (D * RopeCursor) :=
  let* _ := rc_assert self end_offset in
  let c := rc_chunks self in
  let* start_chunk := item c in
  let* summary :=
    match start_chunk with
    | Some start_chunk =>
        let* s := chunk_start c in
        let* e := chunk_end c in
        let* start_ix := usize_sub (rc_offset self) s in
        let* end_ix := usize_sub (Nat.min end_offset e) s in
        let* part := chunk_slice start_chunk start_ix end_ix in
        let* d := from_chunk part in
        td_add_assign td_zero d
    | None => Ret td_zero
    end in
  let* e := chunk_end c in
  let* '(summary, c) :=
    if e <? end_offset then
      let* c := next c in
      let* '(middle, c) := cursor_summary (O := outcome D) c end_offset Right in
      let* middle := middle in
      let* summary := td_add_assign summary middle in
      let* end_chunk := item c in
      match end_chunk with
      | Some end_chunk =>
          let* s := chunk_start c in
          let* end_ix := usize_sub end_offset s in
          let* part := chunk_slice end_chunk 0 end_ix in
          let* d := from_chunk part in
          let* summary := td_add_assign summary d in
          Ret (summary, c)
      | None => Ret (summary, c)
      end
    else Ret (summary, c) in
  Ret (summary, MkRopeCursor (rc_rope self) c end_offset).

Definition rope_slice (self : Rope) (start end_ : nat) : outcome Rope :=
  let* c := rope_cursor self 0 in
  let* c := rc_seek_forward c start in
  let* '(slice, _) := rc_slice c end_ in
  Ret slice.

Definition rope_replace (self : Rope) (start end_ : nat) (text : list N) : outcome Rope :=
  let new_rope := rope_new in
  let* c := rope_cursor self 0 in
  let* '(head, c) := rc_slice c start in
  let* new_rope := rope_append new_rope head in
  let* c := rc_seek_forward c end_ in
  let* new_rope := rope_push new_rope text in
  let* '(tail, _) := rc_suffix c in
  rope_append new_rope tail.
End Ropes.
