(* ===== verification/RopeBuild.v ===== *)
(** * Building ropes

    The invariant of a rope, and that pushing and appending preserve it and
    act on the text as on a list of bytes. *)
From stdpp Require Import base numbers option list.
From Stdlib Require Import Lia.
From S2P Require Import Prelude SumTree SumTreeFacts SumTreeBulk Cursor CursorFacts CursorSeek.
From S2P Require Import CursorMove CursorIter Bits Utf8 Point Chunk ChunkFacts ChunkMeasures.
From S2P Require Import TextSummary ChunkPoints ChunkPointsFacts RopeTree Rope.
#[local] Opaque TREE_BASE av_cap.

(** ** Boundaries near an offset *)
Lemma utf8_char_length c : utf8_char c → 1 ≤ length c ≤ 4.
Proof. destruct c as [|a [|b [|c [|d [|]]]]]; simpl; try done; lia. Qed.

Lemma utf8_char_inside c s i :
  utf8_char c → utf8 s → 1 ≤ i < length c → str_is_char_boundary (c ++ s) i = false.
Proof.
  intros Hc Hs Hi. destruct i as [|i]; [lia|]. rewrite str_boundary_S, lookup_app_l by lia.
  pose proof (utf8_char_cons c Hc) as (x & k & -> & _ & _ & Hk & _). cbn [length] in Hi.
  destruct (lookup_lt_is_Some_2 k i) as [y Hy]; [lia|]. change ((x :: k) !! S i) with (k !! i). rewrite Hy.
  apply continuation_not_boundary. by eapply Forall_lookup_1.
Qed.

(** Every offset lies in a character of at most four bytes. *)
Lemma utf8_around s i :
  utf8 s → i ≤ length s →
  ∃ a b, str_is_char_boundary s a = true ∧ str_is_char_boundary s b = true ∧
    a ≤ i ≤ b ∧ b ≤ length s ∧ i - a ≤ 3 ∧ b - i ≤ 3 ∧
    (∀ j, a < j < b → str_is_char_boundary s j = false).
Proof.
  intros Hs. revert i. induction Hs as [|c s Hc Hs IH]; intros i Hi.
  { simpl in Hi. exists 0, 0. split_and!; try done; simpl; lia. }
  pose proof (utf8_char_length c Hc) as Hl. rewrite length_app in Hi.
  assert (Hend : str_is_char_boundary (c ++ s) (length c) = true).
  { rewrite <-(Nat.add_0_r (length c)). by rewrite str_boundary_app. }
  destruct (Nat.lt_ge_cases i (length c)) as [Hic|Hic].
  - destruct (Nat.eq_dec i 0) as [->|Hne].
    + exists 0, 0. split_and!; try done; lia.
    + exists 0, (length c). rewrite length_app. split_and!; try done; try lia.
      intros j Hj. apply utf8_char_inside; [done|done|lia].
  - destruct (IH (i - length c) ltac:(lia)) as (a & b & Ha & Hb & H1 & H2 & H3 & H4 & H5).
    exists (length c + a), (length c + b). rewrite !str_boundary_app, length_app by done.
    split_and!; try done; try lia.
    intros j Hj. replace j with (length c + (j - length c)) by lia. rewrite str_boundary_app by done.
    apply H5. lia.
Qed.

Lemma ceil_loop_spec s i :
  utf8 s → small s → i ≤ length s →
  returns (ceil_loop (str_is_char_boundary s) i) (λ b,
    str_is_char_boundary s b = true ∧ i ≤ b ≤ length s ∧ b - i ≤ 3 ∧ (str_is_char_boundary s i = true → b = i)).
Proof.
  intros Hu Hs Hi. destruct (utf8_around s i Hu Hi) as (a & b & Ha & Hb & H1 & H2 & H3 & H4 & H5).
  unfold ceil_loop. apply small_usize in Hs. destruct (str_is_char_boundary s i) eqn:Ei.
  - rewrite (scan_up _ 0) by (rewrite ?Nat.add_0_r; (done || lia || (unfold MAX_BASE, BITS; lia))).
    apply returns_Ret. rewrite Nat.add_0_r. split_and!; (done || lia).
  - assert (a ≠ i) by (intros ->; by rewrite Ha in Ei). assert (b ≠ i) by (intros ->; by rewrite Hb in Ei).
    rewrite (scan_up _ (b - i)).
    + apply returns_Ret. replace (i + (b - i)) with b by lia. split_and!; (done || lia).
    + unfold MAX_BASE, BITS. lia.
    + lia.
    + intros j Hj. apply H5. lia.
    + by replace (i + (b - i)) with b by lia.
Qed.

Lemma floor_loop_spec s i :
  utf8 s → i ≤ length s →
  returns (floor_loop s i) (λ a,
    str_is_char_boundary s a = true ∧ a ≤ i ∧ i - a ≤ 3 ∧ (str_is_char_boundary s i = true → a = i)).
Proof.
  intros Hu Hi. destruct (utf8_around s i Hu Hi) as (a & b & Ha & Hb & H1 & H2 & H3 & H4 & H5).
  unfold floor_loop. destruct (str_is_char_boundary s i) eqn:Ei.
  - rewrite (scan_down _ 0) by (rewrite ?Nat.sub_0_r; (done || lia || (unfold MAX_BASE, BITS; lia))).
    apply returns_Ret. rewrite Nat.sub_0_r. split_and!; (done || lia).
  - assert (a ≠ i) by (intros ->; by rewrite Ha in Ei). assert (b ≠ i) by (intros ->; by rewrite Hb in Ei).
    rewrite (scan_down _ (i - a)).
    + apply returns_Ret. replace (i - (i - a)) with a by lia. split_and!; (done || lia).
    + unfold MAX_BASE, BITS. lia.
    + lia.
    + intros j Hj. apply H5. lia.
    + by replace (i - (i - a)) with a by lia.
Qed.

(** What goes to the last chunk: everything that fits, or enough to fill it to
    the minimum. *)
Lemma split_ix_spec last_len s :
  utf8 s → small s → last_len ≤ MAX_BASE →
  returns (split_ix_for last_len (length s) (str_is_char_boundary s)) (λ k,
    str_is_char_boundary s k = true ∧ k ≤ length s ∧ last_len + k ≤ MAX_BASE ∧
    (k < length s → MIN_BASE ≤ last_len + k ∧ (last_len + k ≤ MIN_BASE + 3 ∨ k = 0) ∧
       MAX_BASE < last_len + length s)).
Proof.
  intros Hu Hs Hl. unfold split_ix_for. unfold MIN_BASE, MAX_BASE, BITS in *. change (128 / 2) with 64.
  destruct (Nat.leb_spec (last_len + length s) 128).
  - apply returns_Ret. split_and!; [apply str_boundary_end|lia..].
  - destruct (ceil_loop_spec s (Nat.min (64 - last_len) (length s)) Hu Hs) as (k & -> & Hk & H1 & H2); [lia|].
    apply returns_Ret. destruct H2 as [H2 H3]. destruct (Nat.le_gt_cases 64 last_len).
    + replace (Nat.min (64 - last_len) (length s)) with 0 in H3 by lia. rewrite (H3 eq_refl). split_and!; try done; lia.
    + split_and!; try done; lia.
Qed.

(** ** The invariant *)

(** Chunks are not empty, and all but the last are filled to the minimum, up
    to three bytes of a character (the condition of [check_invariants]). *)
Definition big (c : Chunk) : Prop := MIN_BASE ≤ length (ctext c) + 3.
Definition chunk_nonempty (c : Chunk) : Prop := ctext c ≠ [].
Definition filled (l : list Chunk) : Prop := Forall chunk_nonempty l ∧ Forall big (removelast l).

Definition rope_chunks (r : Rope) : list Chunk := tree_items (chunks r).
Definition rope_text (r : Rope) : list N := chunks_text (rope_chunks r).
Definition rope_wf (r : Rope) : Prop :=
  wf (chunks r) ∧ valid (rope_chunks r) ∧ filled (rope_chunks r).

Lemma filled_nil : filled [].
Proof. split; constructor. Qed.
Lemma filled_single c : chunk_nonempty c → filled [c].
Proof. intros Hc. split; [by constructor|constructor]. Qed.
Lemma filled_app l k : Forall chunk_nonempty l → Forall big l → filled k → filled (l ++ k).
Proof.
  intros Hl Hb [Hk Hbk]. split; [by apply Forall_app|]. destruct k as [|c k].
  - rewrite app_nil_r. clear -Hb. induction Hb as [|x l Hx Hb IH]; simpl; [constructor|]. destruct l; [constructor|]. by constructor.
  - rewrite removelast_app by done. by apply Forall_app.
Qed.
Lemma filled_big_app l k : filled (l ++ k) → k ≠ [] → Forall big l ∧ filled k.
Proof.
  intros [Hne Hb] Hk. apply Forall_app in Hne as [H1 H2]. rewrite removelast_app in Hb by done.
  apply Forall_app in Hb as [H3 H4]. done.
Qed.
Lemma filled_l l k : filled (l ++ k) → filled l.
Proof.
  destruct (decide (k = [])) as [->|Hk]; [by rewrite app_nil_r|]. intros H. pose proof H as [Hne _].
  apply Forall_app in Hne as [Hne _]. apply filled_big_app in H as [Hb _]; [|done].
  rewrite <-(app_nil_r l). by apply filled_app; [| |apply filled_nil].
Qed.

Lemma rope_wf_new : rope_wf rope_new ∧ rope_text rope_new = [].
Proof. split; [|done]. split_and!; [by left|split; [constructor|done]|apply filled_nil]. Qed.

Lemma valid_snoc l c : valid l → chunk_ok c → small (chunks_text l ++ ctext c) → valid (l ++ [c]).
Proof.
  intros [Hl _] Hc Hs. split; [apply Forall_app; split; [done|by constructor]|].
  by rewrite chunks_text_app, chunks_text_single.
Qed.

(** ** [push_chunk] *)
Lemma push_chunk_to_last_spec c last :
  chunk_ok c → chunk_ok last →
  ∃ k, push_chunk_to_last c last =
      Ret (chunk_of (ctext last ++ take k (ctext c)), chunk_of (drop k (ctext c))) ∧
    utf8 (take k (ctext c)) ∧ utf8 (drop k (ctext c)) ∧ k ≤ length (ctext c) ∧
    length (ctext last) + k ≤ MAX_BASE ∧
    (k < length (ctext c) → MIN_BASE ≤ length (ctext last) + k ∧
      (length (ctext last) + k ≤ MIN_BASE + 3 ∨ k = 0) ∧ MAX_BASE < length (ctext last) + length (ctext c)).
Proof.
  intros (Ec & Huc & Hlc) (El & Hul & Hll). unfold push_chunk_to_last, slice_len.
  assert (Hsm : small (ctext c)) by (unfold small, U32_MAX, MAX_BASE, BITS in *; lia).
  destruct (split_ix_spec (length (ctext last)) (ctext c) Huc Hsm Hll) as (k & Ek & Hb & Hk & Hmax & Hrest).
  assert (Eb : split_ix_for (length (ctext last)) (length (ctext c)) (chunk_is_char_boundary c) = Ret k).
  { rewrite <-Ek. unfold split_ix_for. destruct (_ <=? _); [done|]. unfold ceil_loop.
    generalize (Nat.min (MIN_BASE - length (ctext last)) (length (ctext c))). generalize (S MAX_BASE). clear -Ec Huc Hlc.
    intros fuel. induction fuel as [|fuel IH]; intros i; [done|]. cbn [loop].
    rewrite Ec at 1. rewrite chunk_boundary_spec by done. destruct (str_is_char_boundary _ i); [done|].
    destruct (usize_add i 1); [apply IH|done..]. }
  destruct (utf8_split _ _ Huc Hb) as (Hu1 & Hu2 & _). exists k. rewrite Eb.
  assert (Es : slice_split_at c k = Ret (chunk_of (take k (ctext c)), chunk_of (drop k (ctext c))))
    by (rewrite Ec at 1; by apply slice_split_at_spec).
  assert (Ea : chunk_append last (chunk_of (take k (ctext c))) = Ret (chunk_of (ctext last ++ take k (ctext c)))).
  { rewrite El at 1. apply chunk_append_spec; [done|]. rewrite length_app, length_take. lia. }
  rewrite Es, Ea. split_and!; done.
Qed.

Lemma slice_into_chunk_ok s : length s ≤ MAX_BASE → slice_into_chunk (chunk_of s) = Ret (chunk_of s).
Proof. intros Hl. unfold slice_into_chunk. cbn [ctext chunk_of]. by rewrite array_push_str_ok. Qed.

(** Adding one chunk at the end. *)
Lemma push_one t l c :
  wf t → tree_items t = l → valid l → Forall chunk_nonempty l → Forall big l →
  chunk_ok c → small (chunks_text l ++ ctext c) →
  returns (if negb (slice_is_empty c) then
             let* c := slice_into_chunk c in let* cs := push t c in Ret (MkRope cs)
           else Ret (MkRope t)) (λ r', rope_wf r' ∧ rope_text r' = chunks_text l ++ ctext c ∧
    rope_chunks r' = l ++ (if slice_is_empty c then [] else [c])).
Proof.
  intros Hw Hi Hv Hne Hb Hc Hs. destruct (slice_is_empty c) eqn:Ee; cbn [negb].
  - assert (Ec : ctext c = []) by (unfold slice_is_empty in Ee; by destruct (ctext c)).
    apply returns_Ret. unfold rope_wf, rope_text, rope_chunks. cbn [chunks]. rewrite Hi, Ec, !app_nil_r.
    split_and!; [done|done| |done|done]. rewrite <-(app_nil_r l). by apply filled_app; [| |apply filled_nil].
  - destruct Hc as (Ec & Hu & Hl). rewrite Ec at 1. rewrite slice_into_chunk_ok by done. rewrite <-Ec.
    pose proof (valid_snoc l c Hv ltac:(done) Hs) as Hv'. rewrite <-Hi in Hv'.
    destruct (push_wf t c Hw Hv') as (t' & -> & Hw' & Hi'). rewrite Hi in *. apply returns_Ret.
    unfold rope_wf, rope_text, rope_chunks. cbn [chunks]. rewrite Hi', chunks_text_app, chunks_text_single.
    split_and!; [done|done| |done|done]. apply filled_app; [done..|]. apply filled_single.
    unfold chunk_nonempty. unfold slice_is_empty in Ee. by destruct (ctext c).
Qed.

(** After [push_chunk] the last chunk has grown and, unless everything fits,
    one more follows. *)
Lemma push_chunk_spec r c :
  rope_wf r → chunk_ok c → small (rope_text r ++ ctext c) →
  returns (push_chunk r c) (λ r', rope_wf r' ∧ rope_text r' = rope_text r ++ ctext c ∧
    (big c → Forall big (rope_chunks r'))).
Proof.
  intros (Hw & Hv & Hfill) Hc Hs. unfold push_chunk. unfold rope_text, rope_chunks in *.
  destruct (nil_or_snoc (tree_items (chunks r))) as [En|(l & x & El)].
  - destruct (update_empty (push_chunk_to_last c) (chunks r) Hw En) as [-> _]. cbn [from_option id]. rewrite En in *.
    eapply returns_mono; [apply (push_one (chunks r) []); (done || constructor)|].
    intros r' (H1 & H2 & H3). unfold rope_text, rope_chunks in *. rewrite H3 in *. split_and!; [done..|].
    intros Hb. destruct (slice_is_empty c); by constructor.
  - rewrite El in *. pose proof Hv as [[Hl Hx]%Forall_app _]. apply Forall_cons in Hx as [Hx _].
    rewrite chunks_text_app, chunks_text_single in Hs |- *.
    destruct (filled_big_app _ _ Hfill ltac:(done)) as [Hbl _]. pose proof Hfill as [[Hnl Hnx]%Forall_app _].
    apply Forall_cons in Hnx as [Hnx _].
    destruct (push_chunk_to_last_spec c x Hc Hx) as (k & Ek & Hu1 & Hu2 & Hk & Hmax & Hrest).
    set (y := chunk_of (ctext x ++ take k (ctext c))) in *. set (rem := chunk_of (drop k (ctext c))) in *.
    assert (Hlt : length (take k (ctext c)) = k) by (rewrite length_take; lia).
    assert (Hy : chunk_ok y).
    { apply chunk_of_ok; [apply utf8_app; [apply Hx|done]|]. rewrite length_app. lia. }
    assert (Hrem : chunk_ok rem).
    { apply chunk_of_ok; [done|]. destruct Hc as (_ & _ & Hlc). rewrite length_drop. lia. }
    assert (Ecat : (chunks_text l ++ ctext x) ++ ctext c = chunks_text (l ++ [y]) ++ ctext rem).
    { rewrite chunks_text_app, chunks_text_single. subst y rem. cbn [ctext chunk_of].
      rewrite <-!app_assoc. by rewrite take_drop. }
    rewrite Ecat in *. pose proof (small_app _ _ Hs) as [Hs1 _].
    assert (Hvy : valid (l ++ [y])).
    { split; [apply Forall_app; split; [done|by constructor]|done]. }
    assert (Hny : chunk_nonempty y).
    { subst y. unfold chunk_nonempty in *. cbn [ctext chunk_of]. by destruct (ctext x). }
    destruct (update_last_wf (B := ChunkSlice) _ x y rem Ek (chunks r) l Hw El Hvy) as ([t' ?] & -> & Hw' & Hi' & ->).
    cbn [from_option id]. destruct (Nat.eq_dec k (length (ctext c))) as [Hall|Hsome].
    + assert (Er : rem = chunk_of []) by (subst rem; by rewrite Hall, drop_all). rewrite Er in *. simpl.
      apply returns_Ret. unfold rope_wf, rope_chunks. cbn [chunks]. rewrite Hi', app_nil_r.
      split_and!; [done..| |done|].
      * apply filled_app; [done..|by apply filled_single].
      * intros Hbc. apply Forall_app. split; [done|]. constructor; [|constructor]. unfold big in *. subst y.
        cbn [ctext chunk_of]. rewrite length_app. lia.
    + specialize (Hrest ltac:(lia)) as (Hm1 & Hm2 & Hm3).
      assert (Hby : big y) by (unfold big; subst y; cbn [ctext chunk_of]; rewrite length_app; lia).
      eapply returns_mono; [apply (push_one t' (l ++ [y])); try done|].
      * apply Forall_app. split; [done|by constructor].
      * apply Forall_app. split; [done|by constructor].
      * intros r' (H1 & H2 & H3). unfold rope_text, rope_chunks in *. rewrite H3 in *. split_and!; [done..|].
        intros Hbc. apply Forall_app. split; [apply Forall_app; split; [done|by constructor]|].
        destruct (slice_is_empty rem); constructor; [|constructor]. unfold big in *. subst rem. cbn [ctext chunk_of].
        rewrite length_drop. unfold MIN_BASE, MAX_BASE, BITS in *. change (128 / 2) with 64 in *. lia.
Qed.

(** ** [append] *)

(** Appending trees of chunks keeps the invariant when the left one has no
    small chunk, or nothing follows. *)
Lemma append_trees a b :
  wf a → wf b → valid (tree_items a ++ tree_items b) → Forall chunk_nonempty (tree_items a) →
  filled (tree_items a) → filled (tree_items b) → (tree_items b ≠ [] → Forall big (tree_items a)) →
  returns (let* cs := append a b in Ret (MkRope cs)) (λ r, rope_wf r ∧
    rope_text r = chunks_text (tree_items a) ++ chunks_text (tree_items b)).
Proof.
  intros Ha Hb Hv Hne Hfa Hfb Hbig. destruct (append_wf a b Ha Hb Hv) as (t & -> & Hw & Hi). apply returns_Ret.
  unfold rope_wf, rope_text, rope_chunks. cbn [chunks]. rewrite Hi, chunks_text_app.
  split_and!; [done|done| |done]. destruct (tree_items b) as [|c l] eqn:E; [by rewrite app_nil_r|].
  apply filled_app; [done|by apply Hbig|done].
Qed.

Lemma valid_app_text l k :
  Forall chunk_ok l → Forall chunk_ok k → small (chunks_text l ++ chunks_text k) → valid (l ++ k).
Proof. intros Hl Hk Hs. split; [by apply Forall_app|by rewrite chunks_text_app]. Qed.

(** Dropping the first chunk through a cursor. *)
Lemma drop_first_spec (t : SumTree Chunk (outcome ChunkSummary)) :
  wf t → valid (tree_items t) → height t < STACK_CAP →
  returns (let* c := next (cursor_new (D := unit) t) in let* c := next c in suffix c)
    (λ '(s, _), wf s ∧ tree_items s = drop 1 (tree_items t)).
Proof.
  intros Hw Hv Hh.
  destruct (next_begin (D := unit) t Hw Hv Hh (cursor_new t) (before_begin_new t)) as (c1 & -> & H1).
  destruct (next_at t Hw Hv Hh c1 _ _ H1) as (c2 & -> & H2).
  eapply returns_mono; [eapply (suffix_spec t Hw Hv Hh c2); by left|]. intros [s c] (_ & ? & ?). done.
Qed.

Lemma rope_append_spec a b :
  rope_wf a → rope_wf b → small (rope_text a ++ rope_text b) → height (chunks b) < STACK_CAP →
  returns (rope_append a b) (λ r, rope_wf r ∧ rope_text r = rope_text a ++ rope_text b).
Proof.
  intros Ha Hb Hs Hh. pose proof Ha as (Hwa & Hva & Hfa). pose proof Hb as (Hwb & Hvb & Hfb).
  pose proof Hva as [Hoa _]. pose proof Hvb as [Hob _]. pose proof Hfa as [Hna _].
  unfold rope_append. rewrite first_wf by done. unfold rope_text, rope_chunks in *.
  pose proof (valid_app_text _ _ Hoa Hob Hs) as Hv.
  destruct (tree_items (chunks b)) as [|x l] eqn:Eb; cbn [head].
  - rewrite app_nil_r in *. eapply returns_mono; [apply append_trees; try done|]; rewrite ?Eb, ?app_nil_r; try done.
  - rewrite last_item_wf by done. apply Forall_cons in Hob as [Hox Hol].
    destruct (_ || _) eqn:Econd.
    + rewrite chunks_text_cons, app_assoc in Hs |- *. pose proof (small_app _ _ Hs) as [Hsx _].
      unfold as_slice. destruct (push_chunk_spec a x Ha Hox Hsx) as (a' & -> & Ha' & Ht' & Hbig').
      assert (Hdrop := drop_first_spec (chunks b) Hwb ltac:(by rewrite Eb) Hh).
      destruct (next (cursor_new (chunks b))) as [c1| |]; [|by destruct Hdrop as (? & ? & _)..].
      destruct (next c1) as [c2| |]; [|by destruct Hdrop as (? & ? & _)..].
      destruct Hdrop as ([rest c3] & -> & Hwr & Hir). rewrite Eb in Hir. simpl in Hir. rewrite drop_0 in Hir.
      destruct Ha' as (Hwa' & Hva' & Hfa'). pose proof Hfa' as [Hna' _]. pose proof Hva' as [Hoa' _].
      unfold rope_text, rope_chunks in *. rewrite <-Ht' in *.
      assert (Hfl : filled l ∧ (l ≠ [] → big x)).
      { destruct l as [|y l]; [split; [apply filled_nil|done]|].
        destruct (filled_big_app [x] (y :: l) Hfb ltac:(done)) as [Hbx Hfl]. split; [done|]. intros _.
        by apply Forall_cons in Hbx as [? _]. }
      destruct Hfl as [Hfl Hbx].
      eapply returns_mono; [apply append_trees; rewrite ?Hir; try done|].
      * by apply valid_app_text.
      * intros Hl. by apply Hbig', Hbx.
      * intros r [H1 H2]. split; [done|]. unfold rope_text, rope_chunks in H2. by rewrite H2, Hir.
    + apply orb_false_iff in Econd as [Elast _].
      eapply returns_mono; [apply append_trees; rewrite ?Eb; try done|by rewrite Eb]. intros _.
      destruct (nil_or_snoc (tree_items (chunks a))) as [->|(k & y & Ek)]; [constructor|].
      rewrite Ek in *. rewrite last_snoc in Elast. apply Nat.ltb_ge in Elast.
      destruct (filled_big_app _ _ Hfa ltac:(done)) as [Hbk _]. apply Forall_app. split; [done|].
      constructor; [unfold big; lia|constructor].
Qed.

(** ** Cutting a text into chunks *)
Definition piece_ok (s : list N) : Prop := utf8 s ∧ s ≠ [] ∧ length s ≤ MAX_BASE.
Definition piece_full (s : list N) : Prop := MAX_BASE ≤ length s + 3.

Lemma cut_step_spec capacity text acc :
  utf8 text → text ≠ [] →
  (match capacity with Some n => length acc < n | None => True end) →
  ∃ piece rest, cut_step capacity (text, acc) = Ret (inl (rest, acc ++ [piece])) ∧
    text = piece ++ rest ∧ utf8 rest ∧ piece_ok piece ∧ (rest ≠ [] → piece_full piece).
Proof.
  intros Hu Hne Hcap. unfold cut_step. destruct text as [|b s] eqn:E; [done|]. rewrite <-E in *. clear b s E.
  destruct (floor_loop_spec text (Nat.min MAX_BASE (length text)) Hu) as (a & -> & Hb & Ha1 & Ha2 & Ha3); [lia|].
  destruct (utf8_split _ _ Hu Hb) as (Hu1 & Hu2 & Hal). unfold str_split_at. rewrite Hb.
  assert (Hfit : (match capacity with Some n => n <=? length acc | None => false end) = false).
  { destruct capacity; [|done]. by apply Nat.leb_gt. }
  rewrite Hfit. exists (take a text), (drop a text). split_and!; [done|by rewrite take_drop|done| |].
  - split_and!; [done| |rewrite length_take; lia].
    intros E%(f_equal length). rewrite length_take in E. simpl in E.
    assert (0 < length text) by (destruct text; simpl; [done|lia]).
    destruct (Nat.le_gt_cases (length text) MAX_BASE).
    + rewrite Nat.min_r in Ha3 by done. rewrite Ha3 in E by apply str_boundary_end. lia.
    + rewrite Nat.min_l in * by lia. unfold MAX_BASE, BITS in *. lia.
  - intros Hrest. unfold piece_full. rewrite length_take.
    destruct (Nat.le_gt_cases (length text) MAX_BASE); [|lia].
    rewrite Nat.min_r in Ha3 by done. rewrite Ha3 in Hrest by apply str_boundary_end. by rewrite drop_all in Hrest.
Qed.

Lemma cut_chunks_spec capacity text :
  utf8 text → (match capacity with Some n => length text ≤ n * (MAX_BASE - 3) | None => True end) →
  returns (cut_chunks capacity text) (λ cs, concat cs = text ∧ Forall piece_ok cs ∧ Forall piece_full (removelast cs)).
Proof.
  intros Hu Hcap. unfold cut_chunks.
  apply (loop_returns _ (λ '(t, acc), utf8 t ∧ concat acc ++ t = text ∧ Forall piece_ok acc ∧
      (t ≠ [] → Forall piece_full acc) ∧ Forall piece_full (removelast acc)) (λ '(t, _), length t)).
  - intros [t acc] (Hut & Et & Hok & Hfull & Hfull'). destruct t as [|b t'] eqn:E.
    + right. exists acc. rewrite app_nil_r in Et. done.
    + left. rewrite <-E in *. assert (Hne : t ≠ []) by (by rewrite E). clear b t' E.
      destruct (cut_step_spec capacity t acc Hut Hne) as (piece & rest & -> & Er & Hur & Hpo & Hpf).
      { destruct capacity as [n|]; [|done].
        change (MAX_BASE - 3) with 125 in *. assert (Hlen : length acc * 125 ≤ length (concat acc)).
        { specialize (Hfull Hne). clear -Hfull. induction Hfull as [|s l Hs _ IH]; simpl; [lia|].
          rewrite length_app. unfold piece_full, MAX_BASE, BITS in Hs. lia. }
        apply (f_equal length) in Et. rewrite length_app in Et.
        assert (0 < length t) by (destruct t; simpl; [done|lia]). lia. }
      eexists. split; [done|]. split.
      * split_and!; [done|rewrite concat_app; simpl; by rewrite app_nil_r, <-app_assoc, <-Er|
          by apply Forall_app; split; [|constructor]| |rewrite removelast_last; by apply Hfull].
        intros Hrest. apply Forall_app. split; [by apply Hfull|]. constructor; [by apply Hpf|constructor].
      * rewrite Er, length_app. destruct Hpo as (_ & Hp & _). destruct piece; simpl; [done|lia].
  - split_and!; try done; constructor.
  - lia.
Qed.

Lemma par_map_chunk_new cs : Forall piece_ok cs → par_map chunk_new cs = Ret (chunk_of <$> cs).
Proof.
  induction 1 as [|s cs (Hu & _ & Hl) _ IH]; [done|]. cbn [par_map]. by rewrite chunk_new_spec, IH.
Qed.

Lemma pieces_chunks cs :
  Forall piece_ok cs → Forall piece_full (removelast cs) →
  Forall chunk_ok (chunk_of <$> cs) ∧ filled (chunk_of <$> cs) ∧ chunks_text (chunk_of <$> cs) = concat cs.
Proof.
  intros Hok Hfull. split_and!.
  - apply Forall_fmap. eapply Forall_impl; [exact Hok|]. intros s (? & _ & ?). by apply chunk_of_ok.
  - split.
    + apply Forall_fmap. eapply Forall_impl; [exact Hok|]. by intros s (_ & ? & _).
    + assert (E : removelast (chunk_of <$> cs) = chunk_of <$> removelast cs).
      { clear. induction cs as [|s cs IH]; [done|]. csimpl. rewrite IH. by destruct cs. }
      rewrite E. apply Forall_fmap. eapply Forall_impl; [exact Hfull|]. intros s Hs. unfold piece_full, compose in *.
      unfold big. cbn [ctext chunk_of]. unfold MIN_BASE, MAX_BASE, BITS in *. change (128 / 2) with 64. lia.
  - unfold chunks_text. rewrite <-list_fmap_compose. by rewrite (list_fmap_ext _ id), list_fmap_id by done.
Qed.

(** ** [push] *)
Section Push.
Context (par_chunks : ∀ A : Type, nat → list A → list (list A)).
Hypothesis Hpar : chunks_spec par_chunks.

(** The chunks [l], to which those cut from [text] are added. *)
Lemma add_pieces t l cs :
  wf t → tree_items t = l → Forall chunk_ok l → Forall chunk_nonempty l → Forall big l →
  Forall piece_ok cs → Forall piece_full (removelast cs) → small (chunks_text l ++ concat cs) →
  ∀ ext, ext = extend t (chunk_of <$> cs) ∨ ext = par_extend par_chunks t (chunk_of <$> cs) →
  returns (let* t := ext in Ret (MkRope t)) (λ r, rope_wf r ∧ rope_text r = chunks_text l ++ concat cs).
Proof.
  intros Hw Hi Hok Hne Hb Hp Hf Hs ext Hext. destruct (pieces_chunks cs Hp Hf) as (Hco & Hcf & Hct).
  rewrite <-Hct in *. pose proof (valid_app_text _ _ Hok Hco Hs) as Hv.
  assert (Hr : returns ext (λ t', wf t' ∧ tree_items t' = l ++ (chunk_of <$> cs))).
  { subst l. destruct Hext as [->| ->]; [by apply extend_wf|by apply par_extend_wf]. }
  destruct Hr as (t' & -> & Hw' & Hi'). apply returns_Ret. unfold rope_wf, rope_text, rope_chunks. cbn [chunks].
  rewrite Hi', chunks_text_app. split_and!; [done|done| |done]. by apply filled_app.
Qed.

(** What [push] does with the text that the last chunk did not take. *)
Lemma push_rest t l text :
  wf t → tree_items t = l → Forall chunk_ok l → Forall chunk_nonempty l → filled l → (text ≠ [] → Forall big l) →
  utf8 text → small (chunks_text l ++ text) →
  returns (match text with
           | [] => Ret (MkRope t)
           | _ :: _ =>
               if NUM_CHUNKS * MAX_BASE - NUM_CHUNKS * 4 <? length text then push_large par_chunks (MkRope t) text
               else
                 let* new_chunks := cut_chunks (Some NUM_CHUNKS) text in
                 let* cs := par_map chunk_new new_chunks in
                 let* t := extend t cs in
                 Ret (MkRope t)
           end) (λ r, rope_wf r ∧ rope_text r = chunks_text l ++ text).
Proof.
  intros Hw Hi Hok Hne Hfill Hb Hu Hs. destruct text as [|b s] eqn:E.
  - apply returns_Ret. unfold rope_wf, rope_text, rope_chunks. cbn [chunks]. rewrite Hi, app_nil_r in *.
    by split_and!.
  - rewrite <-E in *. specialize (Hb ltac:(by rewrite E)). clear b s E. unfold push_large.
    destruct (Nat.ltb_spec (NUM_CHUNKS * MAX_BASE - NUM_CHUNKS * 4) (length text)) as [Hlt|Hge].
    + destruct (cut_chunks_spec None text Hu I) as (cs & -> & Ec & Hp & Hf). rewrite par_map_chunk_new by done.
      cbn [chunks]. rewrite <-Ec in *. destruct (_ <=? _); eapply add_pieces; eauto.
    + destruct (cut_chunks_spec (Some NUM_CHUNKS) text Hu) as (cs & -> & Ec & Hp & Hf).
      { unfold NUM_CHUNKS, MAX_BASE, BITS in *. lia. }
      rewrite par_map_chunk_new by done. rewrite <-Ec in *. eapply add_pieces; eauto.
Qed.

Lemma push_to_last_spec text last :
  utf8 text → small text → chunk_ok last →
  ∃ k, push_to_last text last = Ret (chunk_of (ctext last ++ take k text), drop k text) ∧
    utf8 (take k text) ∧ utf8 (drop k text) ∧ k ≤ length text ∧ length (ctext last) + k ≤ MAX_BASE ∧
    (k < length text → MIN_BASE ≤ length (ctext last) + k).
Proof.
  intros Hu Hs (El & Hul & Hll). unfold push_to_last.
  destruct (split_ix_spec (length (ctext last)) text Hu Hs Hll) as (k & -> & Hb & Hk & Hmax & Hrest).
  destruct (utf8_split _ _ Hu Hb) as (Hu1 & Hu2 & _). exists k. unfold str_split_at. rewrite Hb.
  assert (Hlt : length (take k text) = k) by (rewrite length_take; lia).
  unfold chunk_push_str. rewrite chunk_new_spec by (done || lia).
  assert (Ea : chunk_append last (as_slice (chunk_of (take k text))) = Ret (chunk_of (ctext last ++ take k text))).
  { rewrite El at 1. apply chunk_append_spec; [done|]. rewrite length_app. lia. }
  rewrite Ea. split_and!; [done..|]. intros H. by apply Hrest.
Qed.

Lemma rope_push_spec r text :
  rope_wf r → utf8 text → small (rope_text r ++ text) →
  returns (rope_push par_chunks r text) (λ r', rope_wf r' ∧ rope_text r' = rope_text r ++ text).
Proof.
  intros (Hw & Hv & Hfill) Hu Hs. unfold rope_push, rope_text, rope_chunks in *. pose proof Hv as [Hok _].
  destruct (nil_or_snoc (tree_items (chunks r))) as [En|(l & x & El)].
  - destruct (update_empty (push_to_last text) (chunks r) Hw En) as [-> _]. cbn [from_option id]. rewrite En in *.
    eapply returns_mono; [apply (push_rest (chunks r) []); (done || constructor)|]. done.
  - rewrite El in *. apply Forall_app in Hok as [Hl Hx]. apply Forall_cons in Hx as [Hx _].
    rewrite chunks_text_app, chunks_text_single in Hs |- *.
    destruct (filled_big_app _ _ Hfill ltac:(done)) as [Hbl _]. pose proof Hfill as [[Hnl Hnx]%Forall_app _].
    apply Forall_cons in Hnx as [Hnx _].
    destruct (push_to_last_spec text x Hu) as (k & Ek & Hu1 & Hu2 & Hk & Hmax & Hrest); [by apply small_app in Hs as [_ ?]|done|].
    set (y := chunk_of (ctext x ++ take k text)) in *.
    assert (Hlt : length (take k text) = k) by (rewrite length_take; lia).
    assert (Hy : chunk_ok y).
    { apply chunk_of_ok; [apply utf8_app; [apply Hx|done]|]. rewrite length_app. lia. }
    assert (Ecat : (chunks_text l ++ ctext x) ++ text = chunks_text (l ++ [y]) ++ drop k text).
    { rewrite chunks_text_app, chunks_text_single. subst y. cbn [ctext chunk_of].
      rewrite <-!app_assoc. by rewrite take_drop. }
    rewrite Ecat in *. pose proof (small_app _ _ Hs) as [Hs1 _].
    assert (Hoy : Forall chunk_ok (l ++ [y])) by (apply Forall_app; split; [done|by constructor]).
    assert (Hny : chunk_nonempty y).
    { subst y. unfold chunk_nonempty in *. cbn [ctext chunk_of]. by destruct (ctext x). }
    destruct (update_last_wf _ x y (drop k text) Ek (chunks r) l Hw El) as ([t' ?] & -> & Hw' & Hi' & ->); [done|].
    cbn [from_option id]. apply push_rest; try done.
    + apply Forall_app. split; [done|by constructor].
    + apply filled_app; [done..|by apply filled_single].
    + intros Hne. apply Forall_app. split; [done|]. constructor; [|constructor].
      unfold big. subst y. cbn [ctext chunk_of]. rewrite length_app, Hlt.
      destruct (Nat.eq_dec k (length text)) as [->|]; [by rewrite drop_all in Hne|]. specialize (Hrest ltac:(lia)). lia.
Qed.

Lemma push_all_spec r texts :
  rope_wf r → Forall utf8 texts → small (rope_text r ++ concat texts) →
  returns (push_all par_chunks r texts) (λ r', rope_wf r' ∧ rope_text r' = rope_text r ++ concat texts).
Proof.
  intros Hr Hu. revert r Hr. induction Hu as [|s texts Hs _ IH]; intros r Hr Hsm; simpl in *.
  - apply returns_Ret. by rewrite app_nil_r.
  - rewrite app_assoc in Hsm. destruct (rope_push_spec r s Hr Hs) as (r' & -> & Hr' & Et); [by apply small_app in Hsm as [? _]|].
    rewrite <-Et in Hsm. eapply returns_mono; [by apply IH|]. intros r2 [? ->]. split; [done|]. by rewrite Et, <-app_assoc.
Qed.

Lemma rope_measure {D} `{TextDimensionLaws D} r : rope_wf r → extent (chunks r) = Ret (td_of (rope_text r)).
Proof.
  intros (Hw & Hv & _). unfold extent, rope_text, rope_chunks in *.
  rewrite <-measure_text by done. destruct Hw as [E|[h Hw]]; [rewrite E; by apply (measure_nil (D := outcome D))|].
  rewrite (wf_node_summary h) by done. change (dim_zero (D := outcome D)) with (measure (D := outcome D) (@nil Chunk)).
  by rewrite measure_app by (done || by eapply wf_node_items).
Qed.

Lemma rope_summary_spec r : rope_wf r → rope_summary r = Ret (summary_of (rope_text r)).
Proof.
  intros (Hw & Hv & _). unfold rope_summary, rope_text, rope_chunks in *.
  destruct Hw as [E|[h Hw]]; [by rewrite E|]. rewrite (wf_node_summary h) by done. destruct Hv. by apply rope_total.
Qed.

Lemma rope_len_spec r : rope_wf r → rope_len r = Ret (length (rope_text r)).
Proof. intros Hr. unfold rope_len. by rewrite (rope_measure (D := nat)). Qed.

Lemma chunks_text_nil l : Forall chunk_nonempty l → chunks_text l = [] → l = [].
Proof. intros Hl E. destruct Hl as [|c l Hc _]; [done|]. rewrite chunks_text_cons in E. by apply app_nil in E as [? _]. Qed.

Lemma push_front_spec r text :
  rope_wf r → utf8 text → small (text ++ rope_text r) → height (chunks r) < STACK_CAP →
  returns (push_front par_chunks r text) (λ r', rope_wf r' ∧ rope_text r' = text ++ rope_text r).
Proof.
  intros Hr Hu Hs Hh. unfold push_front. destruct text as [|b s] eqn:E; [by apply returns_Ret|].
  rewrite <-E in *. clear b s E. unfold rope_is_empty. rewrite rope_len_spec by done.
  destruct (Nat.eqb_spec (length (rope_text r)) 0) as [Ez|Hz].
  - apply length_zero_iff_nil in Ez. rewrite Ez, app_nil_r in *.
    eapply returns_mono; [apply (rope_push_spec r text); [done..|by rewrite Ez]|]. by rewrite Ez.
  - pose proof Hr as (Hw & Hv & Hfill). rewrite first_wf by done.
    destruct (tree_items (chunks r)) as [|x l] eqn:El.
    { exfalso. apply Hz. unfold rope_text, rope_chunks. by rewrite El. }
    cbn [head]. destruct (Nat.leb_spec (length (ctext x) + length text) MAX_BASE) as [Hle|Hgt].
    + unfold rope_text, rope_chunks in *. rewrite El in *. pose proof Hv as [[Hx Hl]%Forall_cons Hsm].
      set (y := chunk_of (text ++ ctext x)).
      assert (Ef : (let* c := chunk_prepend_str x text in Ret (c, tt)) = Ret (y, tt)).
      { destruct Hx as (Ex & Hux & Hlx). unfold chunk_prepend_str. rewrite chunk_new_spec by (done || lia).
        rewrite Ex at 1. rewrite chunk_prepend_spec by (done || (rewrite length_app; lia)). done. }
      rewrite chunks_text_cons, app_assoc in Hs |- *.
      assert (Hy : chunk_ok y).
      { apply chunk_of_ok; [apply utf8_app; [done|apply Hx]|]. rewrite length_app. lia. }
      assert (Hvy : valid (y :: l)) by (split; [by constructor|done]).
      destruct (update_first_wf (λ c, let* c := chunk_prepend_str c text in Ret (c, tt)) x y tt Ef (chunks r) l Hw El Hvy)
        as ([t' ?] & -> & Hw' & Hi' & _).
      apply returns_Ret. unfold rope_wf, rope_chunks. cbn [chunks]. rewrite Hi'.
      split_and!; [done|done| |done]. destruct Hfill as [[Hnx Hnl]%Forall_cons Hb]. split.
      * constructor; [|done]. unfold chunk_nonempty in *. subst y. cbn [ctext chunk_of]. by destruct text.
      * destruct l as [|z l]; [constructor|]. cbn [removelast] in Hb |- *. apply Forall_cons in Hb as [Hbx Hbl].
        constructor; [|done]. unfold big in *. subst y. cbn [ctext chunk_of]. rewrite length_app. lia.
    + unfold rope_from. destruct rope_wf_new as [Hn En].
      destruct (rope_push_spec rope_new text Hn Hu) as (r' & -> & Hr' & Et).
      { rewrite En. by apply small_app in Hs as [? _]. }
      rewrite En in Et. simpl in Et. rewrite <-Et in *. by apply rope_append_spec.
Qed.
End Push.
