(* ===== verification/RopeSlice.v ===== *)
(** * Slicing and replacing

    The cursor of a rope walks its chunks by byte offset; what it passes over
    is the part of the text between the offsets. *)
From stdpp Require Import base numbers option list.
From Stdlib Require Import Lia.
From S2P Require Import Prelude SumTree SumTreeFacts SumTreeBulk Cursor CursorFacts CursorSeek.
From S2P Require Import CursorMove CursorIter Bits Utf8 Point Chunk ChunkFacts ChunkMeasures.
From S2P Require Import TextSummary ChunkPoints ChunkPointsFacts RopeTree Rope RopeBuild.
#[local] Opaque TREE_BASE av_cap.

(** The height of the tree that [slice] appends between its end parts; the
    append walks it with a cursor. *)
Definition middle_height (c : RopeCursor) (e : nat) : nat :=
  match (let* c1 := next (rc_chunks c) in Cursor.slice c1 e Right) with
  | Ret (m, _) => height m
  | _ => 0
  end.

(** ** Offsets *)
Lemma past_usize (k n : nat) : past_text k Right n = (n <=? k).
Proof.
  unfold past_text, cmp, nat_ord. destruct (Nat.compare_spec k n), (Nat.leb_spec n k); (done || lia).
Qed.

Lemma ge_usize (k : nat) l : valid l → length (chunks_text l) ≤ k → is_ge (seek_cmp k (measure (D := outcome nat) l)) = true.
Proof.
  intros Hv Hk. rewrite measure_text by done. unfold seek_cmp, text_target. cbn [outcome_ord].
  unfold cmp, nat_ord. cbn. by destruct (Nat.compare_spec k (length (chunks_text l))); [| lia|].
Qed.

(** ** Windows of the text *)
Section Window.
Context (r : Rope).
Hypothesis Hr : rope_wf r.
Abbreviation T := (rope_text r).

(** A part of the chunk at a split is that part of the text. *)
Lemma chunk_boundary_at p x l k :
  rope_chunks r = p ++ x :: l → length (chunks_text p) ≤ k ≤ length (chunks_text p) + length (ctext x) →
  str_is_char_boundary (ctext x) (k - length (chunks_text p)) = str_is_char_boundary T k.
Proof.
  intros Ei Hk. destruct Hr as (_ & [Hok _] & _). rewrite Ei in Hok. apply Forall_app in Hok as [_ Hok].
  unfold rope_text. rewrite Ei, chunks_text_app. apply chunks_text_utf8 in Hok as Hu.
  replace k with (length (chunks_text p) + (k - length (chunks_text p))) at 2 by lia.
  rewrite str_boundary_app by done. rewrite chunks_text_cons. apply Forall_cons in Hok as [_ Hok].
  symmetry. apply str_boundary_prefix; [by apply chunks_text_utf8|lia].
Qed.

Lemma text_window p x l k e :
  rope_chunks r = p ++ x :: l → length (chunks_text p) ≤ k ≤ e → e ≤ length (chunks_text p) + length (ctext x) →
  take (e - k) (drop k T) = take (e - k) (drop (k - length (chunks_text p)) (ctext x)).
Proof.
  intros Ei Hk He. unfold rope_text. rewrite Ei, chunks_text_app, chunks_text_cons.
  rewrite drop_app_ge by lia. rewrite drop_app_le by lia. rewrite take_app_le; [done|]. rewrite length_drop. lia.
Qed.

Lemma chunk_part p x l k e :
  rope_chunks r = p ++ x :: l → length (chunks_text p) ≤ k ≤ e → e ≤ length (chunks_text p) + length (ctext x) →
  str_is_char_boundary T k = true → str_is_char_boundary T e = true →
  let part := take (e - k) (drop k T) in
  chunk_slice x (k - length (chunks_text p)) (e - length (chunks_text p)) = Ret (chunk_of part) ∧
  chunk_ok (chunk_of part).
Proof.
  cbn zeta. intros Ei Hk He Hbk Hbe. pose proof Hr as (_ & [Hok _] & _). rewrite Ei in Hok.
  apply Forall_app in Hok as [_ [(Ex & Hu & Hl) _]%Forall_cons].
  rewrite <-(chunk_boundary_at p x l k) in Hbk by (done || lia).
  rewrite <-(chunk_boundary_at p x l e) in Hbe by (done || lia).
  rewrite (text_window p x l k e) by done. split.
  - rewrite Ex at 1. unfold chunk_slice, as_slice. rewrite slice_slice_spec by (done || lia).
    do 2 f_equal. f_equal. lia.
  - apply chunk_of_ok; [|rewrite length_take, length_drop; lia].
    destruct (utf8_split _ _ Hu Hbk) as (_ & Hd & _). apply utf8_split; [done|].
    rewrite <-(take_drop (k - length (chunks_text p)) (ctext x)) in Hbe.
    replace (e - length (chunks_text p)) with (length (take (k - length (chunks_text p)) (ctext x)) + (e - k)) in Hbe
      by (rewrite length_take; lia).
    by rewrite str_boundary_app in Hbe.
Qed.

Lemma filled_sub a b c : filled (a ++ b ++ c) → filled b.
Proof.
  intros H. destruct (decide (b ++ c = [])) as [E|Hne]; [apply app_nil in E as [-> _]; apply filled_nil|].
  apply filled_big_app in H as [_ H]; [|done]. by apply filled_l in H.
Qed.

Lemma chunk_end_boundary p x l :
  rope_chunks r = p ++ x :: l → str_is_char_boundary T (length (chunks_text p) + length (ctext x)) = true.
Proof.
  intros Ei. rewrite <-(chunk_boundary_at p x l) by (done || lia). rewrite Nat.add_comm, Nat.add_sub.
  apply str_boundary_end.
Qed.

Lemma chunk_start_boundary p l :
  rope_chunks r = p ++ l → str_is_char_boundary T (length (chunks_text p)) = true.
Proof.
  intros Ei. unfold rope_text. destruct Hr as (_ & [Hok _] & _). rewrite Ei in Hok. apply Forall_app in Hok as [_ Hok].
  rewrite Ei, chunks_text_app, <-(Nat.add_0_r (length (chunks_text p))). rewrite str_boundary_app; [done|].
  by apply chunks_text_utf8.
Qed.

Lemma take_drop_join a b c : a ≤ b ≤ c → c ≤ length T → take (b - a) (drop a T) ++ take (c - b) (drop b T) = take (c - a) (drop a T).
Proof.
  intros Hab Hc. replace (c - a) with ((b - a) + (c - b)) by lia. rewrite <-take_take_drop, drop_drop.
  do 3 f_equal. lia.
Qed.

End Window.

Section Slice.
Context (r : Rope).
Hypothesis Hr : rope_wf r.
Hypothesis Hh : height (chunks r) < STACK_CAP.

Abbreviation T := (rope_text r).
Abbreviation tree_cursor := (Cursor Chunk (outcome ChunkSummary) (outcome nat)).

(** The chunk cursor is at the split [p ++ l] of the chunks. *)
Definition at_split (c : tree_cursor) (p l : list Chunk) : Prop := cursor_at (chunks r) c p l.

Lemma at_split_items c p l : at_split c p l → rope_chunks r = p ++ l ∧ valid (p ++ l).
Proof. intros Hc%cursor_at_items. destruct Hr as (_ & Hv & _). unfold rope_chunks in *. rewrite <-Hc. done. Qed.

Lemma at_split_text c p l : at_split c p l → T = chunks_text p ++ chunks_text l.
Proof. intros Hc. apply at_split_items in Hc as [E _]. unfold rope_text. by rewrite E, chunks_text_app. Qed.

Lemma at_split_reads c p l :
  at_split c p l →
  chunk_start c = Ret (length (chunks_text p)) ∧ item c = Ret (head l) ∧
  chunk_end c = Ret (length (chunks_text p) + match l with x :: _ => length (ctext x) | [] => 0 end).
Proof.
  intros Hc. destruct (at_split_items _ _ _ Hc) as [_ Hv]. destruct Hr as (Hw & Hv' & _).
  split_and!; [|by eapply item_at|].
  - destruct Hc as (_ & _ & Hp & _). unfold chunk_start, start. rewrite Hp, measure_text; [done|by eapply valid_l].
  - unfold chunk_end. rewrite (end_at (chunks r) Hw Hh _ _ _ Hc). unfold end_of. destruct l as [|x l]; cbn [head from_option].
    + rewrite measure_text by (by eapply valid_l). cbn. by rewrite Nat.add_0_r.
    + rewrite measure_text by (rewrite cons_middle, app_assoc in Hv; by eapply valid_l). cbn.
      by rewrite chunks_text_app, chunks_text_single, length_app.
Qed.

(** ** The cursor of a rope *)
Definition rc_at (c : RopeCursor) (k : nat) : Prop :=
  rc_rope c = r ∧ rc_offset c = k ∧ k ≤ length T ∧ ∃ p l, at_split (rc_chunks c) p l ∧
    length (chunks_text p) ≤ k ∧
    (∀ x, head l = Some x → k ≤ length (chunks_text p) + length (ctext x)).

(** Seeking to an offset. *)
Lemma advance_to c p l k :
  at_split c p l ∨ (c = cursor_new (chunks r) ∧ p = [] ∧ l = rope_chunks r) →
  length (chunks_text p) ≤ k →
  ∃ p' l', advance (target_past (D := outcome nat) k Right) p l = (p', l') ∧ p' ++ l' = rope_chunks r ∧
    length (chunks_text p') ≤ k ∧
    (∀ x, head l' = Some x → k < length (chunks_text p') + length (ctext x)).
Proof.
  intros Hc Hk. assert (Hi : p ++ l = rope_chunks r ∧ valid (p ++ l)).
  { destruct Hc as [Hc|(-> & -> & ->)].
    - by destruct (at_split_items _ _ _ Hc) as [-> ?].
    - destruct Hr as (_ & ? & _). done. }
  destruct Hi as [Hi Hv]. destruct (advance _ p l) as [p' l'] eqn:E. exists p', l'.
  destruct (advance_split k Right p l p' l' Hv E) as (E1 & E2 & E3). rewrite E1. split_and!; [done|done| |].
  - destruct E2 as [->|E2]; [done|]. rewrite past_usize in E2. by apply Nat.leb_le in E2.
  - intros x Hx. specialize (E3 x Hx). rewrite past_usize in E3. apply Nat.leb_gt in E3.
    cbn in E3. by rewrite chunks_text_app, chunks_text_single, length_app in E3.
Qed.

Lemma at_new_text c p l :
  seekable_at (chunks r) c p l → at_split c p l ∨ (c = cursor_new (chunks r) ∧ p = [] ∧ l = rope_chunks r).
Proof. done. Qed.

Lemma seek_to c p l k :
  seekable_at (chunks r) c p l → length (chunks_text p) ≤ k →
  returns (seek_forward c k Right) (λ '(_, c'), ∃ p' l', at_split c' p' l' ∧
    length (chunks_text p') ≤ k ∧ (∀ x, head l' = Some x → k < length (chunks_text p') + length (ctext x))).
Proof.
  intros Hc Hk. pose proof Hr as (Hw & Hv & _).
  destruct (advance_to c p l k (at_new_text _ _ _ Hc) Hk) as (p' & l' & Ea & _ & H1 & H2).
  assert (Hvp : valid p).
  { destruct Hc as [Hc|(_ & -> & _)]; [|split; [constructor|done]]. apply at_split_items in Hc as [_ Hc]. by eapply valid_l. }
  eapply returns_mono.
  - apply (seek_forward_spec (chunks r) Hw Hv Hh k Right); [|done|by apply ge_usize].
    apply text_monotone_target; [done|apply key_monotone, (proj2 Hv)].
  - intros [b c']. rewrite Ea. intros [Hc' _]. by exists p', l'.
Qed.

Lemma rc_new k : k ≤ length T → returns (rope_cursor r k) (λ c, rc_at c k).
Proof.
  intros Hk. unfold rope_cursor, seek. change (reset (cursor_new (chunks r))) with (cursor_new (D := outcome nat) (chunks r)).
  destruct (seek_to (cursor_new (chunks r)) [] (rope_chunks r) k) as ([b c] & -> & p & l & Hc & H1 & H2);
    [by apply seekable_new|simpl; lia|].
  apply returns_Ret. split_and!; [done..|]. exists p, l. split_and!; [done|done|]. intros x Hx. specialize (H2 x Hx). lia.
Qed.

Lemma rc_assert_ok c k e : rc_at c k → k ≤ e ≤ length T → rc_assert c e = Ret tt.
Proof.
  intros (Er & Ek & _) He. unfold rc_assert. rewrite Er, Ek, rope_len_spec by done.
  destruct (Nat.leb_spec k e); [|lia]. simpl. destruct (Nat.leb_spec e (length T)); [done|lia].
Qed.

Lemma rc_seek_forward_spec c k e :
  rc_at c k → k ≤ e ≤ length T → returns (rc_seek_forward c e) (λ c', rc_at c' e).
Proof.
  intros Hc He. unfold rc_seek_forward. rewrite (rc_assert_ok c k e) by done.
  destruct Hc as (Er & _ & _ & p & l & Hs & H1 & _).
  destruct (seek_to (rc_chunks c) p l e) as ([b c'] & -> & p' & l' & Hc' & H3 & H4); [by left|lia|].
  apply returns_Ret. split_and!; [done|done|lia|]. exists p', l'. split_and!; [done|done|]. intros x Hx. specialize (H4 x Hx). lia.
Qed.

(** The middle of a slice is not deeper than a cursor's stack. *)
Definition shallow_slice (c : RopeCursor) (e : nat) : Prop := middle_height c e < STACK_CAP.

(** The first part of [slice] and [summary]. *)
Lemma start_part c k e p l :
  rc_offset c = k → at_split (rc_chunks c) p l → length (chunks_text p) ≤ k ≤ e → e ≤ length T →
  (∀ x, head l = Some x → k ≤ length (chunks_text p) + length (ctext x)) →
  str_is_char_boundary T k = true → str_is_char_boundary T e = true →
  ∃ m, k ≤ m ≤ e ∧ str_is_char_boundary T m = true ∧ chunk_ok (chunk_of (take (m - k) (drop k T))) ∧
    m = Nat.min e (length (chunks_text p) + match l with x :: _ => length (ctext x) | [] => 0 end) ∧
    ∀ A (f : ChunkSlice → outcome A) (z : A),
      (match head l with
       | Some start_chunk =>
           let* s := chunk_start (rc_chunks c) in
           let* en := chunk_end (rc_chunks c) in
           let* start_ix := usize_sub (rc_offset c) s in
           let* end_ix := usize_sub (Nat.min e en) s in
           let* part := chunk_slice start_chunk start_ix end_ix in
           f part
       | None => Ret z
       end) = match l with [] => Ret z | _ :: _ => f (chunk_of (take (m - k) (drop k T))) end.
Proof.
  intros Ek Hs Hk He Hx Hbk Hbe. destruct (at_split_reads _ _ _ Hs) as (Es & _ & Ee).
  destruct (at_split_items _ _ _ Hs) as [Ei _]. destruct l as [|x l].
  - pose proof (at_split_text _ _ _ Hs) as Et. rewrite app_nil_r in Et. rewrite Et in He, Hbk, Hbe.
    exists k. rewrite Et, Nat.add_0_r, Nat.sub_diag. rewrite take_0.
    split_and!; [lia|lia|done|apply chunk_of_ok; [constructor|simpl; lia]|lia|done].
  - specialize (Hx x eq_refl). exists (Nat.min e (length (chunks_text p) + length (ctext x))).
    set (m := Nat.min _ _). assert (Hbm : str_is_char_boundary T m = true).
    { subst m. destruct (Nat.min_spec e (length (chunks_text p) + length (ctext x))) as [[_ ->]|[_ ->]];
        [done|by eapply chunk_end_boundary]. }
    destruct (chunk_part r Hr p x l k m Ei) as [E1 E2]; [subst m; lia|subst m; lia|done|done|].
    split_and!; [subst m; lia|subst m; lia|done|done|done|].
    intros A f z. cbn [head]. rewrite Es, Ee, Ek. fold m. rewrite !usize_sub_ok by (subst m; lia). by rewrite E1.
Qed.

(** The rest: the chunks between the first and the one where the slice ends,
    and the part of that one. *)
Lemma middle_part (c : tree_cursor) p x l e :
  at_split c p (x :: l) → length (chunks_text p) + length (ctext x) < e ≤ length T → str_is_char_boundary T e = true →
  ∃ c1, next c = Ret c1 ∧ seekable_at (chunks r) c1 (p ++ [x]) l ∧
    is_ge (seek_cmp e (measure (D := outcome nat) (p ++ [x]))) = true ∧
    ∃ q l2, advance (target_past (D := outcome nat) e Right) (p ++ [x]) l = ((p ++ [x]) ++ q, l2) ∧
      rope_chunks r = (p ++ x :: q) ++ l2 ∧ l = q ++ l2 ∧
      let b := length (chunks_text p) + length (ctext x) in
      let d := length (chunks_text (p ++ x :: q)) in
      b ≤ d ≤ e ∧ chunks_text q = take (d - b) (drop b T) ∧
      (∀ z, head l2 = Some z → e ≤ d + length (ctext z)) ∧ (l2 = [] → d = e).
Proof.
  intros Hs He Hbe. pose proof Hr as (Hw & Hv & _). destruct (at_split_items _ _ _ Hs) as [Ei Hvi].
  destruct (next_at (chunks r) Hw Hv Hh c p (x :: l) Hs) as (c1 & E1 & H1). cbn [take drop] in H1.
  rewrite drop_0 in H1. exists c1. split; [done|].
  assert (Hvp : valid (p ++ [x])) by (rewrite cons_middle, app_assoc in Hvi; by eapply valid_l).
  assert (Hlp : length (chunks_text (p ++ [x])) = length (chunks_text p) + length (ctext x))
    by (by rewrite chunks_text_app, chunks_text_single, length_app).
  split; [by left|]. split; [apply ge_usize; [done|lia]|].
  destruct (advance_to c1 (p ++ [x]) l e) as (p2 & l2 & Ea & Ei2 & H3 & H4); [by left|lia|].
  pose proof (advance_app (target_past (D := outcome nat) e Right) (p ++ [x]) l) as Hadv. rewrite Ea in Hadv.
  assert (Hq : ∃ q, p2 = (p ++ [x]) ++ q).
  { destruct (advance_split e Right (p ++ [x]) l p2 l2) as (_ & _ & _); [by rewrite <-app_assoc|done|].
    clear -Ea. revert Ea. generalize (p ++ [x]) as p0. induction l as [|y l IH]; intros p0; cbn [advance].
    - intros [= <- <-]. exists []. by rewrite app_nil_r.
    - destruct (target_past _ _ _).
      + intros (q & ->)%IH. exists (y :: q). by rewrite <-app_assoc.
      + intros [= <- <-]. exists []. by rewrite app_nil_r. }
  destruct Hq as [q ->]. exists q, l2. rewrite <-app_assoc in Hadv. apply app_inv_head in Hadv as <-.
  assert (Epq : (p ++ [x]) ++ q = p ++ x :: q) by (by rewrite <-app_assoc). rewrite Epq in *.
  assert (Hdl : length (chunks_text (p ++ x :: q)) = length (chunks_text p) + length (ctext x) + length (chunks_text q))
    by (rewrite chunks_text_app, chunks_text_cons, !length_app; lia).
  cbn zeta. split_and!; [done|done|done|lia|done| | |].
  - rewrite Hdl. unfold rope_text. rewrite <-Ei2, !chunks_text_app, chunks_text_cons.
    rewrite <-!app_assoc, (app_assoc (chunks_text p)).
    rewrite drop_app_ge by (rewrite length_app; lia). rewrite length_app.
    replace (length (chunks_text p) + length (ctext x) - (length (chunks_text p) + length (ctext x))) with 0 by lia.
    rewrite drop_0. replace (_ + _ + _ - _) with (length (chunks_text q)) by lia. by rewrite take_app_length.
  - intros z Hz. specialize (H4 z Hz). lia.
  - intros ->. rewrite app_nil_r in Ei2. unfold rope_text in He. rewrite <-Ei2 in He. lia.
Qed.

Lemma rc_slice_spec c k e :
  rc_at c k → k ≤ e ≤ length T → str_is_char_boundary T k = true → str_is_char_boundary T e = true →
  shallow_slice c e →
  returns (rc_slice c e) (λ '(s, c'),
    rope_wf s ∧ rope_text s = take (e - k) (drop k T) ∧ rc_at c' e).
Proof.
  intros Hc He Hbk Hbe Hsh. unfold rc_slice. rewrite (rc_assert_ok c k e) by done.
  destruct Hc as (Er & Ek & _ & p & l & Hs & H1 & H2).
  destruct (at_split_reads _ _ _ Hs) as (_ & Eit & Ee). rewrite Eit.
  destruct (start_part c k e p l) as (m & Hm & Hbm & Hok & Em & Hf); [done|done|lia|lia|done|done|done|].
  rewrite (Hf Rope (push_chunk rope_new) rope_new). clear Hf.
  destruct rope_wf_new as [Hn En]. pose proof Hr as (_ & [_ Hsm] & _).
  assert (Hsub : ∀ a b, small (take a (drop b T))).
  { intros a b. change (small T) in Hsm. unfold small in *. rewrite length_take, length_drop. lia. }
  destruct l as [|x l].
  - assert (Et : length T = length (chunks_text p)) by (rewrite (at_split_text _ _ _ Hs); by rewrite app_nil_r).
    rewrite Ee, Nat.add_0_r in *. destruct (Nat.ltb_spec (length (chunks_text p)) e) as [Hlt|_]; [lia|].
    apply returns_Ret. assert (e = k) as -> by lia. rewrite Nat.sub_diag, take_0, En.
    split_and!; [done|done|]. split_and!; [done|done|lia|]. exists p, []. done.
  - destruct (push_chunk_spec rope_new (chunk_of (take (m - k) (drop k T)))) as (s0 & -> & Hs0 & Ht0 & _);
      [done|done|rewrite En; apply Hsub|]. rewrite En in Ht0. cbn [app ctext chunk_of] in Ht0.
    rewrite Ee. set (b := length (chunks_text p) + length (ctext x)) in *.
    destruct (Nat.ltb_spec b e) as [Hlt|Hge].
    + assert (m = b) as -> by lia.
      destruct (middle_part (rc_chunks c) p x l e Hs) as (c1 & En1 & Hse & Hge1 & q & l2 & Ea & Ei & El & Hd1 & Eq & Hz & Hz0);
        [lia|done|]. fold b in Hd1, Eq. set (d := length (chunks_text (p ++ x :: q))) in *.
      rewrite En1. pose proof Hr as (Hw & Hv & Hfill).
      destruct (slice_spec (chunks r) Hw Hv Hh e Right) with (c := c1) (p := p ++ [x]) (l := l)
        as ([mid c2] & Esl & Hsl); [apply text_monotone_target; [done|apply key_monotone, (proj2 Hv)]|done|done|].
      rewrite Ea in Hsl. destruct Hsl as (Hc2 & Hwm & Em2). apply app_inv_head in Em2. rewrite Esl.
      assert (Hmid : rope_wf (MkRope mid) ∧ rope_text (MkRope mid) = take (d - b) (drop b T)).
      { unfold rope_text, rope_wf, rope_chunks in *. cbn [chunks]. rewrite <-Em2, <-Eq. split; [|done].
        assert (Ei' : tree_items (chunks r) = (p ++ [x]) ++ q ++ l2) by (rewrite Ei; by rewrite <-!app_assoc).
        rewrite Ei' in Hv, Hfill. split_and!; [done|by apply valid_r, valid_l in Hv|by apply filled_sub in Hfill]. }
      destruct Hmid as [Hmw Hmt].
      destruct (rope_append_spec s0 (MkRope mid)) as (s1 & -> & Hs1 & Ht1);
        [done|done|rewrite Ht0, Hmt, take_drop_join by lia; apply Hsub|by unfold shallow_slice, middle_height in Hsh; rewrite En1, Esl in Hsh|].
      rewrite Ht0, Hmt, take_drop_join in Ht1 by lia.
      assert (Hs2 : at_split c2 (p ++ x :: q) l2) by (unfold at_split; by rewrite <-app_assoc in Hc2).
      destruct (at_split_reads _ _ _ Hs2) as (Es2 & Ei2 & _). rewrite Ei2. destruct l2 as [|z l2]; cbn [head].
      * apply returns_Ret. specialize (Hz0 eq_refl). rewrite Hz0 in Ht1. split_and!; [done|done|].
        split_and!; [done|done|lia|]. exists (p ++ x :: q), []. split_and!; [done|cbn [rc_chunks]; fold d; lia|done].
      * specialize (Hz z eq_refl). rewrite Es2. fold d. rewrite usize_sub_ok by lia.
        destruct (chunk_part r Hr (p ++ x :: q) z l2 d e) as [E5 E6]; [done|fold d; lia|fold d; lia| |done|].
        { by apply (chunk_start_boundary r Hr _ (z :: l2)). }
        fold d in E5. rewrite Nat.sub_diag in E5. rewrite E5.
        destruct (push_chunk_spec s1 (chunk_of (take (e - d) (drop d T)))) as (s2 & -> & Hw2 & Ht2 & _);
          [done|done|rewrite Ht1; cbn [ctext chunk_of]; rewrite take_drop_join by lia; apply Hsub|].
        cbn [ctext chunk_of] in Ht2. rewrite Ht1, take_drop_join in Ht2 by lia.
        apply returns_Ret. split_and!; [done|done|]. split_and!; [done|done|lia|].
        exists (p ++ x :: q), (z :: l2). split_and!; [done|cbn [rc_chunks]; fold d; lia|].
        intros y [= <-]. fold d. lia.
    + assert (m = e) as -> by lia. apply returns_Ret. split_and!; [done|done|]. split_and!; [done|done|lia|].
      exists p, (x :: l). split_and!; [done|cbn [rc_chunks]; lia|]. intros y [= <-]. fold b. lia.
Qed.

(** [summary] measures what [slice] would return, in any text dimension. *)
Lemma rc_summary_spec {D} `{TextDimensionLaws D} c k e :
  rc_at c k → k ≤ e ≤ length T → str_is_char_boundary T k = true → str_is_char_boundary T e = true →
  returns (rc_summary (D := D) c e) (λ '(d, c'), d = td_of (take (e - k) (drop k T)) ∧ rc_at c' e).
Proof.
  intros Hc He Hbk Hbe. unfold rc_summary. rewrite (rc_assert_ok c k e) by done.
  destruct Hc as (Er & Ek & _ & p & l & Hs & H1 & H2).
  destruct (at_split_reads _ _ _ Hs) as (_ & Eit & Ee). rewrite Eit.
  destruct (start_part c k e p l) as (m & Hm & Hbm & Hok & Em & Hf); [done|done|lia|lia|done|done|done|].
  rewrite (Hf D (λ part, let* d := from_chunk part in td_add_assign td_zero d) td_zero). clear Hf.
  pose proof Hr as (Hw & Hv & _). pose proof Hv as [Hoks Hsm]. change (small T) in Hsm.
  assert (Hut : utf8 T) by (by apply chunks_text_utf8).
  assert (Hsub : ∀ a b, small (take a (drop b T))).
  { intros a b. unfold small in *. rewrite length_take, length_drop. lia. }
  assert (Hpart : ∀ s, chunk_ok (chunk_of s) → small s → (let* d := from_chunk (chunk_of s) in td_add_assign td_zero d) = Ret (td_of s)).
  { intros s (_ & Hu & Hl) Hss. cbn [ctext chunk_of] in *. rewrite td_chunk_of, td_zero_of by done.
    by apply (td_add_assign_of []); [constructor|..]. }
  destruct l as [|x l].
  - assert (Et : length T = length (chunks_text p)) by (rewrite (at_split_text _ _ _ Hs); by rewrite app_nil_r).
    rewrite Ee, Nat.add_0_r in *. destruct (Nat.ltb_spec (length (chunks_text p)) e) as [Hlt|_]; [lia|].
    apply returns_Ret. assert (e = k) as -> by lia. rewrite Nat.sub_diag, take_0, td_zero_of.
    split; [done|]. split_and!; [done|done|lia|]. exists p, []. done.
  - rewrite Hpart by (done || apply Hsub). destruct Hok as (_ & Hu0 & _). cbn [ctext chunk_of] in Hu0.
    rewrite Ee. set (b := length (chunks_text p) + length (ctext x)) in *.
    destruct (Nat.ltb_spec b e) as [Hlt|Hge].
    + assert (m = b) as -> by lia.
      destruct (middle_part (rc_chunks c) p x l e Hs) as (c1 & En1 & Hse & Hge1 & q & l2 & Ea & Ei & El & Hd1 & Eq & Hz & Hz0);
        [lia|done|]. fold b in Hd1, Eq. set (d := length (chunks_text (p ++ x :: q))) in *. rewrite En1.
      assert (Hmono : monotone_target (D := outcome nat) e (tree_items (chunks r)))
        by (apply text_monotone_target; [done|apply key_monotone, (proj2 Hv)]).
      destruct (cursor_summary_spec (O := outcome D) (chunks r) Hw Hv Hh e Right Hmono c1 (p ++ [x]) l Hse Hge1)
        as ([mid c2] & Esl & Hsl).
      rewrite Ea in Hsl. destruct Hsl as (Hc2 & q' & Em2 & ->). apply app_inv_head in Em2 as <-. rewrite Esl.
      assert (Hvq : valid q).
      { rewrite Ei in Hv. rewrite <-app_assoc in Hv. apply valid_r in Hv.
        change ((x :: q) ++ l2) with ([x] ++ q ++ l2) in Hv. by apply valid_r, valid_l in Hv. }
      rewrite measure_text, Eq by done.
      assert (Huq : utf8 (chunks_text q)) by (by apply chunks_text_utf8; destruct Hvq). rewrite Eq in Huq.
      rewrite td_add_assign_of by (done || (rewrite take_drop_join by lia; apply Hsub)). rewrite take_drop_join by lia.
      assert (Hs2 : at_split c2 (p ++ x :: q) l2) by (unfold at_split; by rewrite <-app_assoc in Hc2).
      destruct (at_split_reads _ _ _ Hs2) as (Es2 & Ei2 & _). rewrite Ei2. destruct l2 as [|z l2]; cbn [head].
      * apply returns_Ret. specialize (Hz0 eq_refl). rewrite Hz0. split; [done|].
        split_and!; [done|done|lia|]. exists (p ++ x :: q), []. split_and!; [done|cbn [rc_chunks]; fold d; lia|done].
      * specialize (Hz z eq_refl). rewrite Es2. fold d. rewrite usize_sub_ok by lia.
        assert (Hbd : str_is_char_boundary T d = true) by (by apply (chunk_start_boundary r Hr _ (z :: l2))).
        destruct (chunk_part r Hr (p ++ x :: q) z l2 d e) as [E5 (_ & E6 & E7)]; [done|fold d; lia|fold d; lia|done|done|].
        cbn [ctext chunk_of] in E6, E7. fold d in E5. rewrite Nat.sub_diag in E5. rewrite E5, td_chunk_of by done.
        rewrite td_add_assign_of; [| |done|rewrite take_drop_join by lia; apply Hsub].
        2:{ rewrite <-(take_drop_join r k b d) by lia. by apply utf8_app. }
        rewrite take_drop_join by lia. apply returns_Ret. split; [done|]. split_and!; [done|done|lia|].
        exists (p ++ x :: q), (z :: l2). split_and!; [done|cbn [rc_chunks]; fold d; lia|].
        intros y [= <-]. fold d. lia.
    + assert (m = e) as -> by lia. apply returns_Ret. split; [done|]. split_and!; [done|done|lia|].
      exists p, (x :: l). split_and!; [done|cbn [rc_chunks]; lia|]. intros y [= <-]. fold b. lia.
Qed.
End Slice.

(** ** [slice] and [replace] *)

(** The cursors of [slice] and [replace] before they take a slice. *)
Definition cursor_from (r : Rope) (k : nat) : outcome RopeCursor :=
  let* c := rope_cursor r 0 in rc_seek_forward c k.
Definition depth_of (c : outcome RopeCursor) (e : nat) : nat :=
  match c with Ret c => middle_height c e | _ => 0 end.

Lemma rope_slice_spec r a b :
  rope_wf r → height (chunks r) < STACK_CAP → a ≤ b ≤ length (rope_text r) →
  str_is_char_boundary (rope_text r) a = true → str_is_char_boundary (rope_text r) b = true →
  depth_of (cursor_from r a) b < STACK_CAP →
  returns (rope_slice r a b) (λ s, rope_wf s ∧ rope_text s = take (b - a) (drop a (rope_text r))).
Proof.
  intros Hr Hh Hab Ha Hb Hd. unfold rope_slice. unfold cursor_from in Hd.
  destruct (rc_new r Hr Hh 0 ltac:(lia)) as (c0 & E0 & H0). rewrite E0 in Hd |- *.
  destruct (rc_seek_forward_spec r Hr Hh c0 0 a H0 ltac:(lia)) as (c1 & E1 & H1). rewrite E1 in Hd |- *.
  destruct (rc_slice_spec r Hr Hh c1 a b H1 Hab Ha Hb Hd) as ([s c2] & -> & Hs & Ht & _). by apply returns_Ret.
Qed.

Section Replace.
Context (par_chunks : ∀ A : Type, nat → list A → list (list A)).
Hypothesis Hpar : chunks_spec par_chunks.

(** The first slice of [replace] and the cursor after it. *)
Definition replace_head (r : Rope) (a : nat) : outcome (Rope * RopeCursor) :=
  let* c := rope_cursor r 0 in rc_slice c a.
Definition replace_depth (r : Rope) (a b : nat) : nat :=
  let head_height := match replace_head r a with Ret (s, _) => height (chunks s) | _ => 0 end in
  let at_end := let* '(_, c) := replace_head r a in rc_seek_forward c b in
  let tail_height :=
    match (let* c := at_end in rc_suffix c) with Ret (s, _) => height (chunks s) | _ => 0 end in
  Nat.max (Nat.max (depth_of (rope_cursor r 0) a) head_height)
    (Nat.max (depth_of at_end (length (rope_text r))) tail_height).

Lemma rope_replace_spec r a b text :
  rope_wf r → height (chunks r) < STACK_CAP → a ≤ b ≤ length (rope_text r) → utf8 text →
  str_is_char_boundary (rope_text r) a = true → str_is_char_boundary (rope_text r) b = true →
  small (take a (rope_text r) ++ text ++ drop b (rope_text r)) →
  replace_depth r a b < STACK_CAP →
  returns (rope_replace par_chunks r a b text) (λ s,
    rope_wf s ∧ rope_text s = take a (rope_text r) ++ text ++ drop b (rope_text r)).
Proof.
  intros Hr Hh Hab Hu Ha Hb Hs Hd. unfold rope_replace. unfold replace_depth, replace_head in Hd.
  destruct (rc_new r Hr Hh 0 ltac:(lia)) as (c0 & E0 & H0). rewrite E0 in Hd |- *. cbn [depth_of] in Hd.
  destruct (rc_slice_spec r Hr Hh c0 0 a H0 ltac:(lia) eq_refl Ha) as ([hd c1] & E1 & Hhd & Eh & H1).
  { unfold shallow_slice. lia. }
  rewrite E1 in Hd |- *. rewrite Nat.sub_0_r, drop_0 in Eh. destruct rope_wf_new as [Hn En].
  assert (Hsh : small (take a (rope_text r))) by (by apply small_app in Hs as [? _]).
  destruct (rope_append_spec rope_new hd Hn Hhd) as (n1 & -> & Hn1 & En1);
    [rewrite En, Eh; done|lia|]. rewrite En, Eh in En1. cbn [app] in En1.
  destruct (rc_seek_forward_spec r Hr Hh c1 a b H1 Hab) as (c2 & E2 & H2). rewrite E2 in Hd |- *. cbn [depth_of] in Hd.
  rewrite app_assoc in Hs |- *.
  destruct (rope_push_spec par_chunks Hpar n1 text Hn1 Hu) as (n2 & -> & Hn2 & En2);
    [rewrite En1; by apply small_app in Hs as [? _]|].
  unfold rc_suffix in *. pose proof H2 as (Er2 & _). rewrite Er2, rope_len_spec in * by done.
  destruct (rc_slice_spec r Hr Hh c2 b (length (rope_text r)) H2 ltac:(lia) Hb (str_boundary_end _)) as ([tl c3] & E3 & Htl & Et & _).
  { unfold shallow_slice. lia. }
  rewrite E3 in Hd |- *. rewrite take_ge in Et by (rewrite length_drop; lia).
  rewrite <-Et, <-En1, <-En2 in Hs |- *. apply rope_append_spec; (done || lia).
Qed.
End Replace.
