(* ===== verification/RopePoints.v ===== *)
(** * Converting positions in a rope

    The conversions of [Rope] ([crates/rope/src/rope.rs]): the tree is searched
    by one dimension while another is added up, and the chunk found finishes
    the conversion.  Most search with [find], three with a cursor. *)
From stdpp Require Import base numbers option list.
From Stdlib Require Import Lia.
From S2P Require Import Prelude SumTree SumTreeFacts SumTreeBulk Cursor CursorFacts CursorSeek CursorMove CursorIter.
From S2P Require Import Point Bits Utf8 Chunk ChunkFacts ChunkMeasures TextSummary ChunkPoints ChunkPointsFacts ChunkPointsSpec.
From S2P Require Import RopeTree Rope RopeBuild RopeSlice.
(** ** Boundaries *)
Definition rope_is_char_boundary (self : Rope) (offset : nat) : outcome bool :=
  if is_empty (chunks self) then Ret (offset =? 0)
  else
    let '(start, _, item) := find (D := outcome nat) (chunks self) offset Left in
    let* start := start in
    let* chunk_offset := usize_sub offset start in
    match item with
    | Some chunk => Ret (chunk_is_char_boundary chunk chunk_offset)
    | None => Ret false
    end.

Definition rope_floor_char_boundary (self : Rope) (index : nat) : outcome nat :=
  let* len := rope_len self in
  if len <=? index then Ret len
  else
    let '(start, _, item) := find (D := outcome nat) (chunks self) index Left in
    let* start := start in
    let* chunk_offset := usize_sub index start in
    match item with
    | Some chunk => usize_add start (str_floor_char_boundary (ctext chunk) chunk_offset)
    | None => Ret len
    end.

Definition rope_ceil_char_boundary (self : Rope) (index : nat) : outcome nat :=
  let* len := rope_len self in
  if len <? index then Ret len
  else
    let '(start, _, item) := find (D := outcome nat) (chunks self) index Left in
    let* start := start in
    let* chunk_offset := usize_sub index start in
    match item with
    | Some chunk => usize_add start (str_ceil_char_boundary (ctext chunk) chunk_offset)
    | None => Ret len
    end.

Definition rope_clip_offset (self : Rope) (offset : nat) (bias : Bias) : outcome nat :=
  match bias with
  | Left => rope_floor_char_boundary self offset
  | Right => rope_ceil_char_boundary self offset
  end.

(** ** Searching by one dimension, adding up another *)
Section Locate.
Context {D1 D2 : Type} `{TextDimension D1, TextDimension D2, Ord D1}.
Abbreviation pair := (outcome D1 * outcome D2 * unit)%type.

(** [self.chunks.find::<Dimensions<D1, D2>, _>((), &target, Bias::Left)] *)
Definition locate (self : Rope) (target : D1) : outcome (D1 * D2 * option Chunk) :=
  let '(start, _, item) := find (D := pair) (chunks self) target Left in
  let '(s0, s1, _) := start in
  let* s0 := s0 in
  let* s1 := s1 in
  Ret (s0, s1, item).

(** [let mut cursor = self.chunks.cursor::<Dimensions<D1, D2>>(());
    cursor.seek(&target, Bias::Left)] *)
Definition locate_seek (self : Rope) (target : D1) : outcome (D1 * D2 * option Chunk) :=
  let* '(_, c) := seek (cursor_new (D := pair) (chunks self)) target Left in
  let '(s0, s1, _) := start c in
  let* s0 := s0 in
  let* s1 := s1 in
  let* i := item c in
  Ret (s0, s1, i).
End Locate.

(** ** Conversions *)
Definition rope_offset_to_offset_utf16 (self : Rope) (offset : nat) : outcome OffsetUtf16 :=
  let* s := rope_summary self in
  if ts_len s <=? offset then Ret (MkOffsetUtf16 (ts_len_utf16 s))
  else
    let* '(s0, s1, item) := locate (D1 := nat) (D2 := OffsetUtf16) self offset in
    let* overshoot := usize_sub offset s0 in
    offset_utf16_add s1
      (match item with
       | Some chunk => MkOffsetUtf16 (offset_to_offset_utf16 (as_slice chunk) overshoot)
       | None => MkOffsetUtf16 0
       end).

Definition rope_offset_utf16_to_offset (self : Rope) (offset : OffsetUtf16) : outcome nat :=
  let* s := rope_summary self in
  if ts_len_utf16 s <=? units offset then Ret (ts_len s)
  else
    let* '(s0, s1, item) := locate (D1 := OffsetUtf16) (D2 := nat) self offset in
    let* overshoot := offset_utf16_sub offset s0 in
    let* more :=
      match item with
      | Some chunk => offset_utf16_to_offset (as_slice chunk) (units overshoot)
      | None => Ret 0
      end in
    usize_add s1 more.

Definition rope_offset_to_point (self : Rope) (offset : nat) : outcome Point :=
  let* s := rope_summary self in
  if ts_len s <=? offset then Ret (ts_lines s)
  else
    let* '(s0, s1, item) := locate (D1 := nat) (D2 := Point) self offset in
    let* overshoot := usize_sub offset s0 in
    let* more :=
      match item with
      | Some chunk => offset_to_point (as_slice chunk) overshoot
      | None => Ret point_zero
      end in
    point_add s1 more.

Definition rope_offset_to_point_utf16 (self : Rope) (offset : nat) : outcome PointUtf16 :=
  let* s := rope_summary self in
  if ts_len s <=? offset then Ret (lines_utf16 s)
  else
    let* '(s0, s1, item) := locate (D1 := nat) (D2 := PointUtf16) self offset in
    let* overshoot := usize_sub offset s0 in
    let* more :=
      match item with
      | Some chunk => offset_to_point_utf16 (as_slice chunk) overshoot
      | None => Ret point_zero
      end in
    point_add s1 more.

Section Debug.
Context (debug : bool).

Definition rope_point_to_point_utf16 (self : Rope) (point : Point) : outcome PointUtf16 :=
  let* s := rope_summary self in
  if le_b (ts_lines s) point then Ret (lines_utf16 s)
  else
    let* '(s0, s1, item) := locate (D1 := Point) (D2 := PointUtf16) self point in
    let* overshoot := point_sub point s0 in
    let* more :=
      match item with
      | Some chunk => point_to_point_utf16 debug (as_slice chunk) overshoot
      | None => Ret point_zero
      end in
    point_add s1 more.

Definition rope_point_utf16_to_point (self : Rope) (point : PointUtf16) : outcome Point :=
  let* s := rope_summary self in
  if le_b (lines_utf16 s) point then Ret (ts_lines s)
  else
    let* '(s0, s1, item) := locate_seek (D1 := PointUtf16) (D2 := Point) self point in
    let* overshoot := point_sub point s0 in
    let* more :=
      match item with
      | Some chunk =>
          let* offset := point_utf16_to_offset debug (as_slice chunk) overshoot false in
          offset_to_point (as_slice chunk) offset
      | None => Ret point_zero
      end in
    point_add s1 more.

Definition rope_point_to_offset (self : Rope) (point : Point) : outcome nat :=
  let* s := rope_summary self in
  if le_b (ts_lines s) point then Ret (ts_len s)
  else
    let* '(s0, s1, item) := locate (D1 := Point) (D2 := nat) self point in
    let* overshoot := point_sub point s0 in
    let* more :=
      match item with
      | Some chunk => point_to_offset debug (as_slice chunk) overshoot
      | None => Ret 0
      end in
    usize_add s1 more.

Definition rope_point_to_offset_utf16 (self : Rope) (point : Point) : outcome OffsetUtf16 :=
  let* s := rope_summary self in
  if le_b (ts_lines s) point then Ret (MkOffsetUtf16 (ts_len_utf16 s))
  else
    let* '(s0, s1, item) := locate_seek (D1 := Point) (D2 := OffsetUtf16) self point in
    let* overshoot := point_sub point s0 in
    let* more :=
      match item with
      | Some chunk => point_to_offset_utf16 debug (as_slice chunk) overshoot
      | None => Ret 0
      end in
    offset_utf16_add s1 (MkOffsetUtf16 more).

Definition rope_point_utf16_to_offset_impl (self : Rope) (point : PointUtf16) (clip : bool) : outcome nat :=
  let* s := rope_summary self in
  if le_b (lines_utf16 s) point then Ret (ts_len s)
  else
    let* '(s0, s1, item) := locate (D1 := PointUtf16) (D2 := nat) self point in
    let* overshoot := point_sub point s0 in
    let* more :=
      match item with
      | Some chunk => point_utf16_to_offset debug (as_slice chunk) overshoot clip
      | None => Ret 0
      end in
    usize_add s1 more.
Definition rope_point_utf16_to_offset (self : Rope) (point : PointUtf16) : outcome nat :=
  rope_point_utf16_to_offset_impl self point false.
Definition rope_unclipped_point_utf16_to_offset (self : Rope) (point : PointUtf16) : outcome nat :=
  rope_point_utf16_to_offset_impl self point true.

Definition rope_point_utf16_to_offset_utf16_impl (self : Rope) (point : PointUtf16) (clip : bool) :
  outcome OffsetUtf16 :=
  let* s := rope_summary self in
  if le_b (lines_utf16 s) point then Ret (MkOffsetUtf16 (ts_len_utf16 s))
  else
    let* '(s0, s1, item) := locate_seek (D1 := PointUtf16) (D2 := OffsetUtf16) self point in
    let* overshoot := point_sub point s0 in
    let* more :=
      match item with
      | Some chunk =>
          let* offset := point_utf16_to_offset debug (as_slice chunk) overshoot clip in
          Ret (offset_to_offset_utf16 (as_slice chunk) offset)
      | None => Ret 0
      end in
    offset_utf16_add s1 (MkOffsetUtf16 more).
Definition rope_point_utf16_to_offset_utf16 (self : Rope) (point : PointUtf16) : outcome OffsetUtf16 :=
  rope_point_utf16_to_offset_utf16_impl self point false.

Definition rope_slice_rows (self : Rope) (start end_ : N) : outcome Rope :=
  let* a := rope_point_to_offset self (MkPoint start 0) in
  let* b := rope_point_to_offset self (MkPoint end_ 0) in
  rope_slice self a b.
End Debug.

Definition rope_unclipped_point_utf16_to_point (self : Rope) (point : PointUtf16) : outcome Point :=
  let* s := rope_summary self in
  if le_b (lines_utf16 s) point then Ret (ts_lines s)
  else
    let* '(s0, s1, item) := locate (D1 := PointUtf16) (D2 := Point) self point in
    let* overshoot := point_sub point s0 in
    let* more :=
      match item with
      | Some chunk => unclipped_point_utf16_to_point (as_slice chunk) overshoot
      | None => Ret point_zero
      end in
    point_add s1 more.

(** ** Clipping *)
Definition rope_clip_offset_utf16 (self : Rope) (offset : OffsetUtf16) (bias : Bias) : outcome OffsetUtf16 :=
  let '(start, _, item) := find (D := outcome OffsetUtf16) (chunks self) offset Right in
  match item with
  | Some chunk =>
      let* start := start in
      let* overshoot := offset_utf16_sub offset start in
      let* more := clip_offset_utf16 (as_slice chunk) (units overshoot) bias in
      offset_utf16_add start (MkOffsetUtf16 more)
  | None => let* s := rope_summary self in Ret (MkOffsetUtf16 (ts_len_utf16 s))
  end.

Definition rope_clip_point_utf16 (self : Rope) (point : PointUtf16) (bias : Bias) : outcome PointUtf16 :=
  let '(start, _, item) := find (D := outcome PointUtf16) (chunks self) point Right in
  match item with
  | Some chunk =>
      let* start := start in
      let* overshoot := point_sub point start in
      let* more := clip_point_utf16 (as_slice chunk) overshoot bias in
      point_add start more
  | None => let* s := rope_summary self in Ret (lines_utf16 s)
  end.

Section Graphemes.
Context (is_grapheme_boundary : list N → nat → bool).

Definition rope_clip_point (self : Rope) (point : Point) (bias : Bias) : outcome Point :=
  let '(start, _, item) := find (D := outcome Point) (chunks self) point Right in
  match item with
  | Some chunk =>
      let* start := start in
      let* overshoot := point_sub point start in
      let* more := clip_point is_grapheme_boundary (as_slice chunk) overshoot bias in
      point_add start more
  | None => let* s := rope_summary self in Ret (ts_lines s)
  end.

Definition rope_line_len (self : Rope) (r : N) : outcome N :=
  let* p := rope_clip_point self (MkPoint r U32_MAX) Left in Ret (column p).
End Graphemes.

(** * Conversions in a rope, against its text *)
#[local] Opaque TREE_BASE av_cap.

(** ** Searching with several dimensions *)
Section Pair.
Context {D1 D2 : Type} `{TextDimensionLaws D1, TextDimensionLaws D2} `{!Ord D1}.
Abbreviation pair := (outcome D1 * outcome D2 * unit)%type.

Lemma past_pair (target : D1) bias (l : list Chunk) :
  target_past target bias (measure (D := pair) l) = target_past target bias (measure (D := outcome D1) l).
Proof. by rewrite measure_several. Qed.

Lemma advance_pair (target : D1) bias p l :
  advance (target_past (D := pair) target bias) p l = advance (target_past (D := outcome D1) target bias) p l.
Proof.
  revert p. induction l as [|x l IH]; intros p; cbn [advance]; [done|]. rewrite past_pair.
  destruct (target_past _ _ _); [apply IH|done].
Qed.

Lemma monotone_pair (target : D1) l :
  monotone_target (D := outcome D1) target l → monotone_target (D := pair) target l.
Proof. intros Hm l1 l2 l3 E. rewrite !measure_several. by apply (Hm l1 l2 l3). Qed.
End Pair.

Section Convert.
Context (r : Rope).
Hypothesis Hr : rope_wf r.

Abbreviation T := (rope_text r).

Lemma rope_utf8 : utf8 T ∧ small T.
Proof. destruct Hr as (_ & [Hok Hs] & _). split; [by apply chunks_text_utf8|done]. Qed.

(** ** Where a search stops *)
Section Stop.
Context {D : Type} `{TextOrder D}.

(** The chunk in which a search for a position of the text stops. *)
Definition stops_at (k : nat) (p : list Chunk) (x : Chunk) (l : list Chunk) : Prop :=
  rope_chunks r = p ++ x :: l ∧ length (chunks_text p) ≤ k ≤ length (chunks_text p) + length (ctext x).

Lemma prefix_utf8 p l : rope_chunks r = p ++ l → utf8 (chunks_text p) ∧ chunks_text p = take (length (chunks_text p)) T.
Proof.
  intros E. pose proof Hr as (_ & [Hok _] & _). rewrite E in Hok. apply Forall_app in Hok as [Hp _].
  split; [by apply chunks_text_utf8|]. unfold rope_text. rewrite E, chunks_text_app. by rewrite take_app_length.
Qed.

(** Positions are ordered as their offsets. *)
Lemma key_offset j k :
  str_is_char_boundary T j = true → str_is_char_boundary T k = true → j < k →
  (td_key (td_of (take j T)) < td_key (td_of (take k T)))%N.
Proof.
  intros Hj Hk Hlt. destruct rope_utf8 as [Hu Hs].
  destruct (utf8_split _ _ Hu Hj) as (Hu1 & Hu2 & _). destruct (utf8_split _ _ Hu Hk) as (Hu3 & _ & Hkl).
  assert (E : take k T = take j T ++ take (k - j) (drop j T)).
  { rewrite take_take_drop. f_equal. lia. }
  rewrite E. apply td_key_lt; [done| | |].
  - apply utf8_split; [done|]. rewrite <-(take_drop j T) in Hk.
    replace k with (length (take j T) + (k - j)) in Hk by (rewrite length_take; lia). by rewrite str_boundary_app in Hk.
  - intros En%(f_equal length). rewrite length_take, length_drop in En. simpl in En. lia.
  - rewrite <-E. unfold small in *. rewrite length_take. lia.
Qed.

Lemma advance_position k bias :
  str_is_char_boundary T k = true →
  (match bias with Left => rope_chunks r ≠ [] | Right => k < length T end) →
  ∃ p x l, advance (target_past (D := outcome D) (td_of (take k T)) bias) [] (rope_chunks r) = (p, x :: l) ∧ stops_at k p x l.
Proof.
  intros Hk Hne. destruct rope_utf8 as [Hu Hs]. pose proof Hr as (_ & Hv & _).
  destruct (advance (target_past (D := outcome D) (td_of (take k T)) bias) [] (rope_chunks r)) as [p l0] eqn:E.
  destruct (advance_split _ bias [] _ p l0 Hv E) as (Ei & Hp & Hx). simpl in Ei.
  destruct (utf8_split _ _ Hu Hk) as (_ & _ & Hkl).
  assert (Hlow : length (chunks_text p) ≤ k).
  { destruct Hp as [->|Hp]; [simpl; lia|]. destruct (Nat.le_gt_cases (length (chunks_text p)) k) as [|Hgt]; [done|].
    destruct (prefix_utf8 p l0 (eq_sym Ei)) as [_ Ep].
    assert (Hpb : str_is_char_boundary T (length (chunks_text p)) = true)
      by (by apply (chunk_start_boundary r Hr p l0)).
    pose proof (key_offset _ _ Hk Hpb Hgt) as Hlt. rewrite <-Ep in Hlt. rewrite past_by_key in Hp.
    destruct bias; [apply N.ltb_lt in Hp|apply N.leb_le in Hp]; lia. }
  destruct l0 as [|x l].
  - exfalso. rewrite app_nil_r in Ei. destruct bias.
    + destruct Hp as [->|Hp]; [by rewrite <-Ei in Hne|]. rewrite Ei, past_by_key in Hp. change (chunks_text (rope_chunks r)) with T in Hp.
      destruct (Nat.eq_dec k (length T)) as [->|]; [rewrite take_ge in Hp by lia; apply N.ltb_lt in Hp; lia|].
      pose proof (key_offset k (length T) Hk (str_boundary_end _) ltac:(lia)) as Hlt.
      rewrite (take_ge T (length T)) in Hlt by lia. apply N.ltb_lt in Hp. lia.
    + rewrite Ei in Hlow. change (chunks_text (rope_chunks r)) with T in Hlow. lia.
  - exists p, x, l. split; [done|]. split; [done|]. split; [done|].
    specialize (Hx x eq_refl). rewrite past_by_key in Hx. rewrite chunks_text_app, chunks_text_single in Hx.
    destruct (Nat.le_gt_cases k (length (chunks_text p) + length (ctext x))) as [|Hgt]; [done|]. exfalso.
    assert (Hxb : str_is_char_boundary T (length (chunks_text p) + length (ctext x)) = true)
      by (by apply (chunk_end_boundary r Hr p x l)).
    pose proof (key_offset _ _ Hxb Hk Hgt) as Hlt.
    assert (Epx : chunks_text p ++ ctext x = take (length (chunks_text p) + length (ctext x)) T).
    { unfold rope_text. rewrite <-Ei, chunks_text_app, chunks_text_cons, app_assoc. rewrite <-length_app. by rewrite take_app_length. }
    rewrite <-Epx in Hlt. destruct bias; [apply N.ltb_ge in Hx|apply N.leb_gt in Hx]; lia.
Qed.
End Stop.

(** What lies before the position, in the chunks passed and in the last. *)
Lemma stops_split k p x l :
  str_is_char_boundary T k = true → stops_at k p x l →
  let w := take (k - length (chunks_text p)) (ctext x) in
  take k T = chunks_text p ++ w ∧ k = length (chunks_text p) + length w ∧
  str_is_char_boundary (ctext x) (k - length (chunks_text p)) = true ∧
  utf8 (chunks_text p) ∧ utf8 w ∧ small (chunks_text p ++ w) ∧ chunk_ok x ∧ k - length (chunks_text p) ≤ length (ctext x).
Proof.
  cbn zeta. intros Hb [Ei Hk]. destruct rope_utf8 as [Hu Hs]. pose proof Hr as (_ & [Hok _] & _).
  rewrite Ei in Hok. apply Forall_app in Hok as [_ [Hx _]%Forall_cons].
  assert (Hbx : str_is_char_boundary (ctext x) (k - length (chunks_text p)) = true)
    by (by rewrite (chunk_boundary_at r Hr p x l k)).
  assert (Ek : take k T = chunks_text p ++ take (k - length (chunks_text p)) (ctext x)).
  { unfold rope_text. rewrite Ei, chunks_text_app, chunks_text_cons.
    rewrite take_app_ge by lia. f_equal. apply take_app_le. lia. }
  split_and!; [done|rewrite length_take; lia|done|by destruct (prefix_utf8 _ _ Ei)| | |done|lia].
  - destruct Hx as (_ & Hux & _). by destruct (utf8_split _ _ Hux Hbx).
  - rewrite <-Ek. unfold small in *. rewrite length_take. lia.
Qed.

Section LocateFacts.
Context {D1 D2 : Type} `{TextOrder D1} `{TextDimensionLaws D2}.

Lemma locate_at k :
  str_is_char_boundary T k = true → rope_chunks r ≠ [] →
  ∃ p x l, stops_at k p x l ∧
    locate (D2 := D2) r (td_of (D := D1) (take k T)) = Ret (td_of (chunks_text p), td_of (chunks_text p), Some x).
Proof.
  intros Hk Hne. destruct (advance_position (D := D1) k Left Hk Hne) as (p & x & l & Ea & Hst).
  exists p, x, l. split; [done|]. unfold locate. pose proof Hr as (Hw & Hv & _).
  assert (Hm : monotone_target (D := outcome D1) (td_of (take k T)) (tree_items (chunks r)))
    by (apply text_monotone_target; [done|apply key_monotone, (proj2 Hv)]).
  rewrite (find_wf (D := outcome D1 * outcome D2 * unit) (td_of (take k T)) Left (tree_items (chunks r))
    (monotone_pair _ _ Hm) Hv (chunks r) Hw eq_refl).
  rewrite advance_pair. unfold rope_chunks in Ea. rewrite Ea. cbn [head from_option].
  assert (Hvp : valid p) by (destruct Hst as [Ei _]; rewrite Ei in Hv; by eapply valid_l).
  rewrite measure_several, !measure_text by done. done.
Qed.

Lemma locate_seek_at k :
  height (chunks r) < STACK_CAP → str_is_char_boundary T k = true → rope_chunks r ≠ [] →
  ∃ p x l, stops_at k p x l ∧
    locate_seek (D2 := D2) r (td_of (D := D1) (take k T)) = Ret (td_of (chunks_text p), td_of (chunks_text p), Some x).
Proof.
  intros Hh Hk Hne. destruct (advance_position (D := D1) k Left Hk Hne) as (p & x & l & Ea & Hst).
  exists p, x, l. split; [done|]. unfold locate_seek, seek. pose proof Hr as (Hw & Hv & _).
  change (reset (cursor_new (chunks r))) with (cursor_new (D := outcome D1 * outcome D2 * unit) (chunks r)).
  assert (Hm : monotone_target (D := outcome D1) (td_of (take k T)) (tree_items (chunks r)))
    by (apply text_monotone_target; [done|apply key_monotone, (proj2 Hv)]).
  destruct (seek_forward_spec (D := outcome D1 * outcome D2 * unit) (chunks r) Hw Hv Hh (td_of (take k T)) Left
    (monotone_pair _ _ Hm) (cursor_new (chunks r)) [] (tree_items (chunks r)) (seekable_new _)) as ([b c] & -> & Hc).
  { rewrite measure_several. unfold seek_cmp, Dimensions_seek_target, seek_cmp, text_target. cbn [outcome_ord measure foldl fmap list_fmap dim_zero text_dimension].
    rewrite td_zero_of, td_cmp. destruct rope_utf8 as [Hu Hs]. destruct (utf8_split _ _ Hu Hk) as (Hu1 & _ & _).
    pose proof (td_key_le (D := D1) [] (take k T) utf8_nil Hu1) as Hle. simpl in Hle.
    destruct (N.compare_spec (td_key (td_of (take k T))) (td_key (td_of (D := D1) []))); [done| |done].
    exfalso. assert (small (take k T)) by (unfold small in *; rewrite length_take; lia). specialize (Hle ltac:(done)). lia. }
  rewrite advance_pair in Hc. unfold rope_chunks in Ea. rewrite Ea in Hc. destruct Hc as [Hc _].
  assert (Hvp : valid p) by (destruct Hst as [Ei _]; rewrite Ei in Hv; by eapply valid_l).
  rewrite (item_at _ Hw Hh _ _ _ Hc). destruct Hc as (_ & _ & Hpos & _). unfold start.
  rewrite Hpos, measure_several, !measure_text by done. done.
Qed.
End LocateFacts.

(** ** A conversion, whatever the dimensions *)
Section Conversion.
Context {D1 D2 : Type} `{TextOrder D1} `{TextDimensionLaws D2}.
Context (sub : D1 → D1 → outcome D1) (inside : Chunk → D1 → outcome D2) (none : D2).
Hypothesis Hsub : ∀ s w, utf8 s → utf8 w → small (s ++ w) → sub (td_of (s ++ w)) (td_of s) = Ret (td_of w).
Hypothesis Hinside : ∀ x j, chunk_ok x → str_is_char_boundary (ctext x) j = true →
  inside x (td_of (take j (ctext x))) = Ret (td_of (take j (ctext x))).

Definition finish (target : D1) (found : outcome (D1 * D2 * option Chunk)) : outcome D2 :=
  let* '(s0, s1, item) := found in
  let* overshoot := sub target s0 in
  let* more := match item with Some chunk => inside chunk overshoot | None => Ret none end in
  td_add_assign s1 more.

Lemma finish_at k p x l :
  str_is_char_boundary T k = true → stops_at k p x l →
  finish (td_of (take k T)) (Ret (td_of (chunks_text p), td_of (chunks_text p), Some x)) = Ret (td_of (take k T)).
Proof.
  intros Hk Hst. destruct (stops_split k p x l Hk Hst) as (E & _ & Hb & Hup & Huw & Hs & Hx & _).
  unfold finish. rewrite E, Hsub by done. cbn beta iota. rewrite Hinside by done. by apply td_add_assign_of.
Qed.

Lemma finish_locate k :
  str_is_char_boundary T k = true → k < length T →
  finish (td_of (take k T)) (locate r (td_of (take k T))) = Ret (td_of (take k T)).
Proof.
  intros Hk Hlt. destruct (locate_at (D1 := D1) (D2 := D2) k Hk) as (p & x & l & Hst & ->).
  - intros E. unfold rope_text in Hlt. rewrite E in Hlt. simpl in Hlt. lia.
  - by apply (finish_at k p x l).
Qed.

Lemma finish_locate_seek k :
  height (chunks r) < STACK_CAP → str_is_char_boundary T k = true → k < length T →
  finish (td_of (take k T)) (locate_seek r (td_of (take k T))) = Ret (td_of (take k T)).
Proof.
  intros Hh Hk Hlt. destruct (locate_seek_at (D1 := D1) (D2 := D2) k Hh Hk) as (p & x & l & Hst & ->).
  - intros E. unfold rope_text in Hlt. rewrite E in Hlt. simpl in Hlt. lia.
  - by apply (finish_at k p x l).
Qed.
End Conversion.

(** The end of the text is the only position not before its end. *)
Lemma at_end {D} `{TextOrder D} k :
  str_is_char_boundary T k = true → k ≠ length T → le_b (td_of T) (td_of (D := D) (take k T)) = false.
Proof.
  intros Hk Hne. destruct rope_utf8 as [Hu _]. destruct (utf8_split _ _ Hu Hk) as (_ & _ & Hle).
  pose proof (key_offset (D := D) k (length T) Hk (str_boundary_end _) ltac:(lia)) as Hlt.
  rewrite (take_ge T (length T)) in Hlt by lia. unfold le_b, is_le. rewrite td_cmp.
  destruct (N.compare_spec (td_key (td_of T)) (td_key (td_of (D := D) (take k T)))); (done || lia).
Qed.
Lemma at_end_refl {D} `{TextOrder D} : le_b (td_of T) (td_of (D := D) T) = true.
Proof. unfold le_b, is_le. rewrite td_cmp. by rewrite N.compare_refl. Qed.
End Convert.

(** ** What lies after a prefix *)
Lemma usize_sub_of (s w : list N) : usize_sub (length (s ++ w)) (length s) = Ret (length w).
Proof. rewrite length_app, usize_sub_ok by lia. f_equal. lia. Qed.
Lemma offset_utf16_sub_of s w :
  offset_utf16_sub (MkOffsetUtf16 (utf16_units (s ++ w))) (MkOffsetUtf16 (utf16_units s)) = Ret (MkOffsetUtf16 (utf16_units w)).
Proof. unfold offset_utf16_sub. cbn [units]. rewrite utf16_units_app, usize_sub_ok by lia. do 2 f_equal. lia. Qed.
Lemma point_sub_of s w : small (s ++ w) → point_sub (extent_of (s ++ w)) (extent_of s) = Ret (extent_of w).
Proof.
  intros Hs. pose proof (small_app _ _ Hs) as [Hs1 _]. rewrite extent_of_app.
  apply point_plus_sub; [by apply extent_of_ok|]. rewrite <-extent_of_app. by apply extent_of_ok.
Qed.
Lemma point_utf16_sub_of s w :
  utf8 s → utf8 w → small (s ++ w) → point_sub (extent_utf16 (s ++ w)) (extent_utf16 s) = Ret (extent_utf16 w).
Proof.
  intros Hs Hw Hl. pose proof (small_app _ _ Hl) as [Hs1 _]. rewrite extent_utf16_app.
  apply point_plus_sub; [by apply extent_utf16_ok|]. rewrite <-extent_utf16_app.
  apply extent_utf16_ok; [by apply utf8_app|done].
Qed.

(** ** Conversions within a chunk of the rope *)
Section Inside.
Context (x : Chunk) (j : nat) (debug clip : bool).
Hypothesis Hx : chunk_ok x.
Hypothesis Hj : str_is_char_boundary (ctext x) j = true.
Abbreviation w := (take j (ctext x)).

Lemma inside_le : j ≤ length (ctext x) ∧ length w = j.
Proof.
  destruct Hx as (_ & Hu & _). destruct (utf8_split _ _ Hu Hj) as (_ & _ & Hle).
  split; [done|]. rewrite length_take. lia.
Qed.

Lemma inside_from_offset :
  offset_to_offset_utf16 (as_slice x) j = utf16_units w ∧ offset_to_point (as_slice x) j = Ret (extent_of w) ∧
  offset_to_point_utf16 (as_slice x) j = Ret (extent_utf16 w).
Proof.
  pose proof inside_le as [Hle _]. destruct Hx as (E & Hu & Hl). unfold as_slice. rewrite E. cbn [ctext chunk_of].
  split_and!; [by apply offset_to_offset_utf16_spec|by apply offset_to_point_spec|by apply offset_to_point_utf16_spec].
Qed.

Lemma inside_to_offset :
  offset_utf16_to_offset (as_slice x) (utf16_units w) = Ret j ∧ point_to_offset debug (as_slice x) (extent_of w) = Ret j ∧
  point_utf16_to_offset debug (as_slice x) (extent_utf16 w) clip = Ret j ∧
  unclipped_point_utf16_to_point (as_slice x) (extent_utf16 w) = Ret (extent_of w).
Proof.
  pose proof inside_le as [Hle _]. destruct Hx as (E & Hu & Hl). unfold as_slice. rewrite E. cbn [ctext chunk_of].
  pose proof (point_utf16_roundtrip (ctext x) Hu Hl debug clip j Hj) as [E1 E2].
  split_and!; [by apply offset_utf16_roundtrip|by apply point_roundtrip|done|done].
Qed.

Lemma inside_points :
  point_to_offset_utf16 debug (as_slice x) (extent_of w) = Ret (utf16_units w) ∧
  point_to_point_utf16 debug (as_slice x) (extent_of w) = Ret (extent_utf16 w).
Proof.
  pose proof inside_le as [Hle _]. destruct inside_from_offset as (E1 & _ & E3). destruct inside_to_offset as (_ & E4 & _).
  unfold point_to_offset_utf16, point_to_point_utf16. rewrite E4. split; [|done].
  destruct Hx as (E & Hu & Hl). unfold as_slice in *. rewrite E at 1. rewrite slice_lines_spec by done.
  assert (Hr : (row (extent_of (ctext x)) <? row (extent_of w))%N = false).
  { apply N.ltb_ge. rewrite !extent_row. unfold newline_count. rewrite <-(take_drop j (ctext x)) at 2.
    rewrite fmap_app, ones_app. lia. }
  cbn beta iota. by rewrite Hr, E1.
Qed.
End Inside.
