(* ===== verification/RopeConvert.v ===== *)
(** * The conversions of a rope at the boundaries of its text *)
From stdpp Require Import base numbers option list.
From Stdlib Require Import Lia.
From S2P Require Import Prelude SumTree SumTreeFacts SumTreeBulk Cursor Point Bits Utf8 Chunk ChunkFacts ChunkMeasures TextSummary.
From S2P Require Import ChunkPoints ChunkPointsFacts RopeTree Rope RopeBuild RopeSlice RopePoints.
#[local] Opaque TREE_BASE av_cap.

Section Conversions.
Context (r : Rope) (k : nat) (debug clip : bool).
Hypothesis Hr : rope_wf r.
Hypothesis Hk : str_is_char_boundary (rope_text r) k = true.
Abbreviation T := (rope_text r).
Abbreviation at_k := (take k T).

Lemma position_le : k ≤ length T ∧ length at_k = k.
Proof.
  destruct (rope_utf8 r Hr) as [Hu _]. destruct (utf8_split _ _ Hu Hk) as (_ & _ & Hle).
  split; [done|]. rewrite length_take. lia.
Qed.

(** The guard of a conversion: the position is before the end, or is the end. *)
Lemma guard_usize : (length T <=? k) = false ∧ k < length T ∨ (length T <=? k) = true ∧ at_k = T.
Proof.
  destruct (Nat.leb_spec (length T) k); [right|by left]. split; [done|]. by apply take_ge.
Qed.
Lemma guard {D} `{TextOrder D} :
  le_b (td_of T) (td_of (D := D) at_k) = false ∧ k < length T ∨ le_b (td_of T) (td_of (D := D) at_k) = true ∧ at_k = T.
Proof.
  pose proof position_le as [Hle _]. destruct (Nat.eq_dec k (length T)) as [E|E].
  - right. assert (E' : at_k = T) by (apply take_ge; lia). rewrite E'. split; [apply (at_end_refl r)|done].
  - left. split; [by apply at_end|lia].
Qed.

Lemma guard_units :
  (utf16_units T <=? utf16_units at_k) = false ∧ k < length T ∨ (utf16_units T <=? utf16_units at_k) = true ∧ at_k = T.
Proof.
  destruct (guard (D := OffsetUtf16)) as [[E Hlt]|[_ ->]]; [left|right].
  - split; [|done]. revert E. unfold le_b, cmp, OffsetUtf16_ord, cmp, nat_ord. cbn [units td_of OffsetUtf16_text_laws].
    destruct (Nat.compare_spec (utf16_units T) (utf16_units at_k)); [done..|]. intros _. apply Nat.leb_gt. lia.
  - by rewrite Nat.leb_refl.
Qed.

(** A conversion by [find] and one through a cursor, from any dimension to any other. *)
Lemma converts {D1 D2} `{TextOrder D1} `{TextDimensionLaws D2} sub inside (none : D2) (res : outcome D2) :
  (∀ s w, utf8 s → utf8 w → small (s ++ w) → sub (td_of (s ++ w)) (td_of (D := D1) s) = Ret (td_of w)) →
  (∀ x j, chunk_ok x → str_is_char_boundary (ctext x) j = true →
    inside x (td_of (take j (ctext x))) = Ret (td_of (take j (ctext x)))) →
  k < length T →
  res = finish sub inside none (td_of at_k) (locate r (td_of at_k)) → res = Ret (td_of at_k).
Proof. intros Hs Hi Hlt ->. by apply finish_locate. Qed.
Lemma converts_seek {D1 D2} `{TextOrder D1} `{TextDimensionLaws D2} sub inside (none : D2) (res : outcome D2) :
  height (chunks r) < STACK_CAP →
  (∀ s w, utf8 s → utf8 w → small (s ++ w) → sub (td_of (s ++ w)) (td_of (D := D1) s) = Ret (td_of w)) →
  (∀ x j, chunk_ok x → str_is_char_boundary (ctext x) j = true →
    inside x (td_of (take j (ctext x))) = Ret (td_of (take j (ctext x)))) →
  k < length T →
  res = finish sub inside none (td_of at_k) (locate_seek r (td_of at_k)) → res = Ret (td_of at_k).
Proof. intros Hh Hs Hi Hlt ->. by apply finish_locate_seek. Qed.

Lemma at_offset (o : outcome nat) : o = Ret (length at_k) → o = Ret k.
Proof. by rewrite (proj2 position_le). Qed.

Ltac by_cases g :=
  let G := fresh in pose proof g as G; cbn [td_of Point_text_laws PointUtf16_text_laws] in G;
  destruct G as [[-> Hlt]|[-> ->]]; [|done].

Lemma offset_to_offset_utf16_at : rope_offset_to_offset_utf16 r k = Ret (MkOffsetUtf16 (utf16_units at_k)).
Proof.
  unfold rope_offset_to_offset_utf16. rewrite rope_summary_spec by done. change (lines_utf16 (summary_of T)) with (extent_utf16 T). cbn [summary_of ts_len ts_len_utf16].
  by_cases guard_usize. change (MkOffsetUtf16 (utf16_units at_k)) with (td_of (D := OffsetUtf16) at_k).
  apply (converts (D1 := nat) usize_sub
    (λ x o, Ret (MkOffsetUtf16 (offset_to_offset_utf16 (as_slice x) o))) (MkOffsetUtf16 0)); [by intros; apply usize_sub_of| |done|].
  - intros x j Hx Hj. destruct (inside_le x j Hx Hj) as [_ E]. cbn. rewrite E.
    by destruct (inside_from_offset x j Hx Hj) as (-> & _).
  - unfold finish. cbn [td_of usize_text_laws]. destruct position_le as [_ ->].
    destruct (locate r k) as [[[s0 s1] [x|]]| |]; [| |done|done]; by destruct (usize_sub k s0).
Qed.

Lemma offset_utf16_to_offset_at : rope_offset_utf16_to_offset r (MkOffsetUtf16 (utf16_units at_k)) = Ret k.
Proof.
  unfold rope_offset_utf16_to_offset. rewrite rope_summary_spec by done. change (lines_utf16 (summary_of T)) with (extent_utf16 T). cbn [summary_of ts_len ts_len_utf16 units].
  apply at_offset. by_cases guard_units. change (length at_k) with (td_of (D := nat) at_k).
  apply (converts (D1 := OffsetUtf16) offset_utf16_sub (λ x o, offset_utf16_to_offset (as_slice x) (units o)) 0);
    [by intros; apply offset_utf16_sub_of| |done|done].
  intros x j Hx Hj. destruct (inside_le x j Hx Hj) as [_ E]. cbn. rewrite E.
  by destruct (inside_to_offset x j debug clip Hx Hj) as (-> & _).
Qed.

Lemma offset_to_point_at : rope_offset_to_point r k = Ret (extent_of at_k).
Proof.
  unfold rope_offset_to_point. rewrite rope_summary_spec by done. change (lines_utf16 (summary_of T)) with (extent_utf16 T). cbn [summary_of ts_len ts_lines].
  by_cases guard_usize. change (extent_of at_k) with (td_of (D := Point) at_k).
  apply (converts (D1 := nat) usize_sub (λ x o, offset_to_point (as_slice x) o) point_zero);
    [by intros; apply usize_sub_of| |done|].
  - intros x j Hx Hj. destruct (inside_le x j Hx Hj) as [_ E]. cbn -[extent_of]. rewrite E.
    by destruct (inside_from_offset x j Hx Hj) as (_ & -> & _).
  - unfold finish. cbn [td_of usize_text_laws]. by rewrite (proj2 position_le).
Qed.

Lemma offset_to_point_utf16_at : rope_offset_to_point_utf16 r k = Ret (extent_utf16 at_k).
Proof.
  unfold rope_offset_to_point_utf16. rewrite rope_summary_spec by done. change (lines_utf16 (summary_of T)) with (extent_utf16 T). cbn [summary_of ts_len].
  by_cases guard_usize. change (extent_utf16 at_k) with (td_of (D := PointUtf16) at_k).
  apply (converts (D1 := nat) usize_sub (λ x o, offset_to_point_utf16 (as_slice x) o) point_zero);
    [by intros; apply usize_sub_of| |done|].
  - intros x j Hx Hj. destruct (inside_le x j Hx Hj) as [_ E]. cbn -[extent_of]. rewrite E.
    by destruct (inside_from_offset x j Hx Hj) as (_ & _ & ->).
  - unfold finish. cbn [td_of usize_text_laws]. by rewrite (proj2 position_le).
Qed.

Lemma point_to_offset_at : rope_point_to_offset debug r (extent_of at_k) = Ret k.
Proof.
  unfold rope_point_to_offset. rewrite rope_summary_spec by done. change (lines_utf16 (summary_of T)) with (extent_utf16 T). cbn [summary_of ts_len ts_lines].
  apply at_offset. by_cases (guard (D := Point)). change (length at_k) with (td_of (D := nat) at_k).
  apply (converts (D1 := Point) point_sub (λ x o, point_to_offset debug (as_slice x) o) 0);
    [by intros; apply point_sub_of| |done|done].
  intros x j Hx Hj. destruct (inside_le x j Hx Hj) as [_ E]. cbn -[extent_of]. rewrite E.
  by destruct (inside_to_offset x j debug clip Hx Hj) as (_ & -> & _).
Qed.

Lemma point_to_point_utf16_at : rope_point_to_point_utf16 debug r (extent_of at_k) = Ret (extent_utf16 at_k).
Proof.
  unfold rope_point_to_point_utf16. rewrite rope_summary_spec by done. change (lines_utf16 (summary_of T)) with (extent_utf16 T). cbn [summary_of ts_lines].
  by_cases (guard (D := Point)). change (extent_utf16 at_k) with (td_of (D := PointUtf16) at_k).
  apply (converts (D1 := Point) point_sub (λ x o, point_to_point_utf16 debug (as_slice x) o) point_zero);
    [by intros; apply point_sub_of| |done|done].
  intros x j Hx Hj. cbn -[extent_of]. by destruct (inside_points x j debug clip Hx Hj) as (_ & ->).
Qed.

Lemma point_utf16_to_offset_at :
  rope_point_utf16_to_offset_impl debug r (extent_utf16 at_k) clip = Ret k.
Proof.
  unfold rope_point_utf16_to_offset_impl. rewrite rope_summary_spec by done. change (lines_utf16 (summary_of T)) with (extent_utf16 T). cbn [summary_of ts_len].
  apply at_offset. by_cases (guard (D := PointUtf16)). change (length at_k) with (td_of (D := nat) at_k).
  apply (converts (D1 := PointUtf16) point_sub (λ x o, point_utf16_to_offset debug (as_slice x) o clip) 0);
    [by intros; apply point_utf16_sub_of| |done|done].
  intros x j Hx Hj. destruct (inside_le x j Hx Hj) as [_ E]. cbn -[extent_of]. rewrite E.
  by destruct (inside_to_offset x j debug clip Hx Hj) as (_ & _ & -> & _).
Qed.

Lemma unclipped_point_utf16_to_point_at : rope_unclipped_point_utf16_to_point r (extent_utf16 at_k) = Ret (extent_of at_k).
Proof.
  unfold rope_unclipped_point_utf16_to_point. rewrite rope_summary_spec by done. change (lines_utf16 (summary_of T)) with (extent_utf16 T). cbn [summary_of ts_lines].
  by_cases (guard (D := PointUtf16)). change (extent_of at_k) with (td_of (D := Point) at_k).
  apply (converts (D1 := PointUtf16) point_sub (λ x o, unclipped_point_utf16_to_point (as_slice x) o) point_zero);
    [by intros; apply point_utf16_sub_of| |done|done].
  intros x j Hx Hj. cbn -[extent_of]. by destruct (inside_to_offset x j debug clip Hx Hj) as (_ & _ & _ & ->).
Qed.

(** The conversions that go through a cursor. *)
Section Seeking.
Hypothesis Hh : height (chunks r) < STACK_CAP.

Lemma point_utf16_to_point_at : rope_point_utf16_to_point debug r (extent_utf16 at_k) = Ret (extent_of at_k).
Proof.
  unfold rope_point_utf16_to_point. rewrite rope_summary_spec by done. change (lines_utf16 (summary_of T)) with (extent_utf16 T).
  cbn [summary_of ts_lines]. by_cases (guard (D := PointUtf16)). change (extent_of at_k) with (td_of (D := Point) at_k).
  apply (converts_seek (D1 := PointUtf16) point_sub (λ x o,
    let* offset := point_utf16_to_offset debug (as_slice x) o false in offset_to_point (as_slice x) offset) point_zero);
    [done|by intros; apply point_utf16_sub_of| |done|done].
  intros x j Hx Hj. cbn -[extent_of]. destruct (inside_to_offset x j debug false Hx Hj) as (_ & _ & -> & _).
  by destruct (inside_from_offset x j Hx Hj) as (_ & -> & _).
Qed.

Lemma point_to_offset_utf16_at :
  rope_point_to_offset_utf16 debug r (extent_of at_k) = Ret (MkOffsetUtf16 (utf16_units at_k)).
Proof.
  unfold rope_point_to_offset_utf16. rewrite rope_summary_spec by done. cbn [summary_of ts_len_utf16 ts_lines].
  by_cases (guard (D := Point)). change (MkOffsetUtf16 (utf16_units at_k)) with (td_of (D := OffsetUtf16) at_k).
  apply (converts_seek (D1 := Point) point_sub (λ x o,
    let* u := point_to_offset_utf16 debug (as_slice x) o in Ret (MkOffsetUtf16 u)) (MkOffsetUtf16 0));
    [done|by intros; apply point_sub_of| |done|].
  - intros x j Hx Hj. cbn -[extent_of]. by destruct (inside_points x j debug false Hx Hj) as (-> & _).
  - unfold finish. cbn -[extent_of point_to_offset_utf16 point_sub offset_utf16_add]. repeat case_match; simplify_eq; done.
Qed.

Lemma point_utf16_to_offset_utf16_at :
  rope_point_utf16_to_offset_utf16_impl debug r (extent_utf16 at_k) clip = Ret (MkOffsetUtf16 (utf16_units at_k)).
Proof.
  unfold rope_point_utf16_to_offset_utf16_impl. rewrite rope_summary_spec by done.
  change (lines_utf16 (summary_of T)) with (extent_utf16 T). cbn [summary_of ts_len_utf16].
  by_cases (guard (D := PointUtf16)). change (MkOffsetUtf16 (utf16_units at_k)) with (td_of (D := OffsetUtf16) at_k).
  apply (converts_seek (D1 := PointUtf16) point_sub (λ x o,
    let* j := point_utf16_to_offset debug (as_slice x) o clip in
    Ret (MkOffsetUtf16 (offset_to_offset_utf16 (as_slice x) j))) (MkOffsetUtf16 0));
    [done|by intros; apply point_utf16_sub_of| |done|].
  - intros x j Hx Hj. cbn -[extent_of]. destruct (inside_to_offset x j debug clip Hx Hj) as (_ & _ & -> & _).
    by destruct (inside_from_offset x j Hx Hj) as (-> & _).
  - unfold finish. cbn -[extent_of extent_utf16 point_utf16_to_offset point_sub offset_utf16_add]. repeat case_match; simplify_eq; done.
Qed.
End Seeking.
End Conversions.

(** ** Boundaries around an offset *)
Definition is_floor (s : list N) (i f : nat) : Prop :=
  str_is_char_boundary s f = true ∧ f ≤ i ∧ ∀ j, f < j ≤ i → str_is_char_boundary s j = false.
Definition is_ceil (s : list N) (i c : nat) : Prop :=
  str_is_char_boundary s c = true ∧ i ≤ c ≤ length s ∧ ∀ j, i ≤ j < c → str_is_char_boundary s j = false.

Lemma is_floor_unique s i f g : is_floor s i f → is_floor s i g → f = g.
Proof.
  intros (Hf & Hfi & Hfj) (Hg & Hgi & Hgj). destruct (Nat.lt_trichotomy f g) as [H|[H|H]]; [|done|].
  - by rewrite Hfj in Hg by lia.
  - by rewrite Hgj in Hf by lia.
Qed.
Lemma is_ceil_unique s i f g : is_ceil s i f → is_ceil s i g → f = g.
Proof.
  intros (Hf & Hfi & Hfj) (Hg & Hgi & Hgj). destruct (Nat.lt_trichotomy f g) as [H|[H|H]]; [|done|].
  - by rewrite Hgj in Hf by lia.
  - by rewrite Hfj in Hg by lia.
Qed.

Lemma floor_from_spec s i : is_floor s i (floor_from s i).
Proof.
  induction i as [|i IH]; cbn [floor_from].
  - destruct (str_is_char_boundary s 0) eqn:E; [|done]. split_and!; [done|lia|intros; lia].
  - destruct (str_is_char_boundary s (S i)) eqn:E; [split_and!; [done|lia|intros; lia]|].
    destruct IH as (H1 & H2 & H3). split_and!; [done|lia|]. intros j Hj.
    destruct (Nat.eq_dec j (S i)) as [->|]; [done|]. apply H3. lia.
Qed.
Lemma ceil_from_spec s n i : length s = i + n → is_ceil s i (ceil_from s n i).
Proof.
  revert i. induction n as [|n IH]; intros i Hi; cbn [ceil_from].
  - assert (E : i = length s) by lia. rewrite E. split_and!; [apply str_boundary_end|lia|lia|intros; lia].
  - destruct (str_is_char_boundary s i) eqn:E; [split_and!; [done|lia|lia|intros; lia]|].
    destruct (IH (S i)) as (H1 & H2 & H3); [lia|]. split_and!; [done|lia|lia|]. intros j Hj.
    destruct (Nat.eq_dec j i) as [->|]; [done|]. apply H3. lia.
Qed.

Lemma str_floor_spec s i : i ≤ length s → is_floor s i (str_floor_char_boundary s i).
Proof.
  intros Hi. unfold str_floor_char_boundary. destruct (Nat.leb_spec (length s) i); [|apply floor_from_spec].
  assert (E : i = length s) by lia. rewrite E. split_and!; [apply str_boundary_end|lia|intros; lia].
Qed.
Lemma str_ceil_spec s i : i ≤ length s → is_ceil s i (str_ceil_char_boundary s i).
Proof.
  intros Hi. unfold str_ceil_char_boundary. destruct (Nat.leb_spec (length s) i); [|apply ceil_from_spec; lia].
  assert (E : i = length s) by lia. rewrite E. split_and!; [apply str_boundary_end|lia|lia|intros; lia].
Qed.

Section Boundaries.
Context (r : Rope).
Hypothesis Hr : rope_wf r.
Abbreviation T := (rope_text r).

(** Where a search for any offset stops. *)
Lemma find_offset i :
  ∃ p l e, find (D := outcome nat) (chunks r) i Left = (Ret (length (chunks_text p)), e, head l) ∧
    rope_chunks r = p ++ l ∧ length (chunks_text p) ≤ i ∧
    match l with
    | x :: _ => i ≤ length (chunks_text p) + length (ctext x)
    | [] => length T < i ∨ T = []
    end.
Proof.
  pose proof Hr as (Hw & Hv & _).
  assert (Hm : monotone_target (D := outcome nat) i (tree_items (chunks r)))
    by (apply text_monotone_target; [done|apply key_monotone, (proj2 Hv)]).
  rewrite (find_wf (D := outcome nat) i Left (tree_items (chunks r)) Hm Hv (chunks r) Hw eq_refl).
  destruct (advance (target_past (D := outcome nat) i Left) [] (tree_items (chunks r))) as [p l] eqn:E.
  destruct (advance_split _ _ [] _ p l Hv E) as (Ei & Hp & Hx). simpl in Ei. rewrite !past_by_key in Hp.
  assert (Hvp : valid p) by (rewrite <-Ei in Hv; by eapply valid_l).
  rewrite measure_text by done. eexists p, l, _. split_and!; [done|done| |].
  - destruct Hp as [->|Hp]; [simpl; lia|]. apply N.ltb_lt in Hp. cbn in Hp. lia.
  - destruct l as [|x l].
    + rewrite app_nil_r in Ei. destruct Hp as [->|Hp].
      * right. unfold rope_text. by rewrite <-Ei.
      * left. rewrite Ei in Hp. apply N.ltb_lt in Hp. cbn in Hp. unfold rope_text. lia.
    + specialize (Hx x eq_refl). rewrite past_by_key in Hx. apply N.ltb_ge in Hx.
      rewrite chunks_text_app, chunks_text_single in Hx. cbn in Hx. rewrite length_app in Hx. lia.
Qed.

Lemma boundary_past i : length T < i → str_is_char_boundary T i = false.
Proof.
  intros Hi. unfold str_is_char_boundary. destruct (Nat.eqb_spec i 0); [lia|].
  rewrite lookup_ge_None_2 by lia. apply Nat.eqb_neq. lia.
Qed.

Lemma no_chunks_text : T = [] → rope_chunks r = [].
Proof. intros E. destruct Hr as (_ & _ & [Hne _]). by apply chunks_text_nil. Qed.

Lemma is_empty_chunks : is_empty (chunks r) = true ↔ T = [].
Proof.
  destruct Hr as (Hw & _ & _). split.
  - intros E%is_empty_items. unfold rope_text, rope_chunks. by rewrite E.
  - intros E%no_chunks_text. destruct (is_empty (chunks r)) eqn:Ee; [done|]. by apply is_empty_nonempty in Ee.
Qed.

Lemma is_char_boundary_at i : rope_is_char_boundary r i = Ret (str_is_char_boundary T i).
Proof.
  unfold rope_is_char_boundary. destruct (is_empty (chunks r)) eqn:Ee.
  { apply is_empty_chunks in Ee. rewrite Ee. by destruct i. }
  destruct (find_offset i) as (p & l & e & -> & Ei & Hp & Hl). rewrite usize_sub_ok by done. cbn beta iota.
  destruct l as [|x l]; cbn [head].
  - destruct Hl as [Hl|Hl]; [by rewrite boundary_past|]. apply is_empty_chunks in Hl. congruence.
  - pose proof Hr as (_ & [Hok _] & _). rewrite Ei in Hok. apply Forall_app in Hok as [_ [(Ex & Hu & Hlen) _]%Forall_cons].
    rewrite Ex, chunk_boundary_spec by done. cbn [ctext chunk_of]. by rewrite (chunk_boundary_at r Hr p x l i).
Qed.

(** A boundary next to an offset is found in the chunk of the offset. *)
Lemma chunk_floor p x l i f :
  rope_chunks r = p ++ x :: l → length (chunks_text p) ≤ i ≤ length (chunks_text p) + length (ctext x) →
  is_floor (ctext x) (i - length (chunks_text p)) f → is_floor T i (length (chunks_text p) + f).
Proof.
  intros Ei Hi (H1 & H2 & H3). split_and!; [|lia|].
  - rewrite <-(chunk_boundary_at r Hr p x l) by (done || lia). by rewrite Nat.add_comm, Nat.add_sub.
  - intros j Hj. rewrite <-(chunk_boundary_at r Hr p x l) by (done || lia). apply H3. lia.
Qed.
Lemma chunk_ceil p x l i c :
  rope_chunks r = p ++ x :: l → length (chunks_text p) ≤ i ≤ length (chunks_text p) + length (ctext x) →
  is_ceil (ctext x) (i - length (chunks_text p)) c → is_ceil T i (length (chunks_text p) + c).
Proof.
  intros Ei Hi (H1 & H2 & H3).
  assert (HT : length T = length (chunks_text p) + length (ctext x) + length (chunks_text l)).
  { unfold rope_text. rewrite Ei, chunks_text_app, chunks_text_cons, !length_app. lia. }
  split_and!; [|lia|lia|].
  - rewrite <-(chunk_boundary_at r Hr p x l) by (done || lia). by rewrite Nat.add_comm, Nat.add_sub.
  - intros j Hj. rewrite <-(chunk_boundary_at r Hr p x l) by (done || lia). apply H3. lia.
Qed.

Lemma add_in_text p x l f :
  rope_chunks r = p ++ x :: l → f ≤ length (ctext x) → usize_add (length (chunks_text p)) f = Ret (length (chunks_text p) + f).
Proof.
  intros Ei Hf. apply usize_add_ok. destruct (rope_utf8 r Hr) as [_ Hs%small_usize].
  unfold rope_text in Hs. rewrite Ei, chunks_text_app, chunks_text_cons, !length_app in Hs. lia.
Qed.

Lemma floor_char_boundary_at i : rope_floor_char_boundary r i = Ret (str_floor_char_boundary T i).
Proof.
  unfold rope_floor_char_boundary. rewrite rope_len_spec by done. cbn beta iota.
  destruct (Nat.leb_spec (length T) i) as [Hi|Hi].
  { unfold str_floor_char_boundary. by apply Nat.leb_le in Hi as ->. }
  destruct (find_offset i) as (p & l & e & -> & Ei & Hp & Hl). rewrite usize_sub_ok by done. cbn beta iota.
  destruct l as [|x l]; cbn [head]; [destruct Hl as [Hl|Hl]; [lia|rewrite Hl in Hi; simpl in Hi; lia]|].
  pose proof (str_floor_spec (ctext x) (i - length (chunks_text p)) ltac:(lia)) as Hf.
  rewrite (add_in_text p x l) by (done || (destruct Hf as (_ & ? & _); lia)). f_equal.
  apply (is_floor_unique T i); [by apply (chunk_floor p x l)|apply str_floor_spec; lia].
Qed.

Lemma ceil_char_boundary_at i : rope_ceil_char_boundary r i = Ret (str_ceil_char_boundary T i).
Proof.
  unfold rope_ceil_char_boundary. rewrite rope_len_spec by done. cbn beta iota.
  destruct (Nat.ltb_spec (length T) i) as [Hi|Hi].
  { unfold str_ceil_char_boundary. by destruct (Nat.leb_spec (length T) i); [|lia]. }
  destruct (find_offset i) as (p & l & e & -> & Ei & Hp & Hl). rewrite usize_sub_ok by done. cbn beta iota.
  destruct l as [|x l]; cbn [head].
  { destruct Hl as [Hl|Hl]; [lia|]. rewrite Hl. done. }
  pose proof (str_ceil_spec (ctext x) (i - length (chunks_text p)) ltac:(lia)) as Hf.
  rewrite (add_in_text p x l) by (done || (destruct Hf as (_ & ? & _); lia)). f_equal.
  apply (is_ceil_unique T i); [by apply (chunk_ceil p x l)|apply str_ceil_spec; lia].
Qed.
End Boundaries.

(** * The lines of a rope *)
(** ** The lines of a concatenation *)
Lemma split_newlines_length s : length (split_newlines s) = S (newline_count s).
Proof.
  pose proof (row_extent s) as E. rewrite extent_row in E. unfold split_newlines.
  destruct (split_lines s) as [f l]. simpl in *. lia.
Qed.
Lemma split_newlines_head s : split_newlines s !! 0 = Some (first_line s).
Proof. unfold split_newlines, first_line. by destruct (split_lines s). Qed.
Lemma newline_count_app s t : newline_count (s ++ t) = newline_count s + newline_count t.
Proof. unfold newline_count. by rewrite fmap_app, ones_app. Qed.

(** A line after the first of [t] is a line of [s ++ t], the first joins the
    last of [s], and a line before the last of [s] is one of [s ++ t]. *)
Lemma line_after s t m : split_newlines (s ++ t) !! (newline_count s + S m) = split_newlines t !! S m.
Proof.
  destruct (split_newlines_join s t) as (init & E1 & ->). pose proof (split_newlines_length s) as Hl.
  rewrite E1, length_app in Hl. simpl in Hl. rewrite lookup_app_r by lia.
  replace (newline_count s + S m - length init) with (S m) by lia. unfold split_newlines. by destruct (split_lines t).
Qed.
Lemma line_joined s t : split_newlines (s ++ t) !! newline_count s = Some (last_line s ++ first_line t).
Proof.
  destruct (split_newlines_join s t) as (init & E1 & ->). pose proof (split_newlines_length s) as Hl.
  rewrite E1, length_app in Hl. simpl in Hl. rewrite lookup_app_r by lia.
  by replace (newline_count s - length init) with 0 by lia.
Qed.
Lemma line_before s t m : m < newline_count s → split_newlines (s ++ t) !! m = split_newlines s !! m.
Proof.
  intros Hm. destruct (split_newlines_join s t) as (init & E1 & ->). pose proof (split_newlines_length s) as Hl.
  rewrite E1 in Hl |- *. rewrite length_app in Hl. simpl in Hl. by rewrite !lookup_app_l by lia.
Qed.

(** The line of row [newline_count s + m], where [x] ends it. *)
Lemma line_within s x rest m :
  m < newline_count x →
  split_newlines (s ++ x ++ rest) !! (newline_count s + m) =
    (λ l, (if m =? 0 then last_line s else []) ++ l) <$> split_newlines x !! m.
Proof.
  intros Hm. destruct m as [|m]; cbn [Nat.eqb].
  - rewrite Nat.add_0_r, line_joined, split_newlines_head. simpl. rewrite first_line_join, extent_row.
    destruct (N.eqb_spec (N.of_nat (newline_count x)) 0); [lia|done].
  - rewrite line_after, line_before by done. by destruct (split_newlines x !! S m).
Qed.

(** A column past the end of its row goes to the end of the row. *)
Lemma clip_point_overflow gb text m a (c : N) bias :
  utf8 text → length text ≤ BITS → row_at text m a → (N.of_nat (length (first_line (drop a text))) <= c)%N →
  clip_point gb (chunk_of text) (MkPoint (N.of_nat m) c) bias =
    Ret (MkPoint (N.of_nat m) (N.of_nat (length (first_line (drop a text))))).
Proof.
  intros Hu Hl Ha Hc. unfold clip_point. rewrite slice_lines_spec by done. cbn [row column].
  rewrite (row_present text Hl m a Ha). destruct (row_range text Hl m a Ha) as [_ ->]. cbn beta iota.
  rewrite (line_slice text Hu Hl m a Ha). destruct (N.eqb_spec c 0) as [->|Hz].
  - by replace (length (first_line (drop a text))) with 0 by lia.
  - unfold slice_len. cbn [ctext chunk_of]. by apply N.leb_le in Hc as ->.
Qed.

Lemma column_last_line s : column (extent_of s) = N.of_nat (length (last_line s)).
Proof.
  pose proof (split_lines_extent s) as H. unfold last_line, first_line. destruct (split_lines s) as [f l]. by rewrite H.
Qed.

Section Lines.
Context (r : Rope).
Hypothesis Hr : rope_wf r.
Abbreviation T := (rope_text r).
Context (n : nat).
Hypothesis Hn : (N.of_nat n <= U32_MAX)%N.
Abbreviation row_target := (MkPoint (N.of_nat n) U32_MAX : Point).

Lemma target_row s : small s → (td_key (extent_of s : Point) <=? td_key row_target)%N = (newline_count s <=? n).
Proof.
  intros Hs. pose proof (extent_of_ok s Hs) as [H1 H2]. cbn [td_key Point_text_order].
  rewrite !point_bits_eq by (done || (split; cbn [row column]; lia)). cbn [row column].
  rewrite extent_row in *. unfold U32_MAX in *.
  destruct (Nat.leb_spec (newline_count s) n); [apply N.leb_le|apply N.leb_gt]; lia.
Qed.

(** Where the search for the end of a row stops. *)
Lemma find_row :
  ∃ p l e, find (D := outcome Point) (chunks r) row_target Right = (Ret (extent_of (chunks_text p)), e, head l) ∧
    rope_chunks r = p ++ l ∧ newline_count (chunks_text p) ≤ n ∧
    match l with
    | x :: _ => n < newline_count (chunks_text p) + newline_count (ctext x)
    | [] => True
    end.
Proof.
  pose proof Hr as (Hw & Hv & _).
  assert (Hm : monotone_target (D := outcome Point) row_target (tree_items (chunks r)))
    by (apply text_monotone_target; [done|apply key_monotone, (proj2 Hv)]).
  rewrite (find_wf (D := outcome Point) row_target Right (tree_items (chunks r)) Hm Hv (chunks r) Hw eq_refl).
  destruct (advance (target_past (D := outcome Point) row_target Right) [] (tree_items (chunks r))) as [p l] eqn:E.
  destruct (advance_split _ _ [] _ p l Hv E) as (Ei & Hp & Hx). simpl in Ei. rewrite !past_by_key in Hp.
  assert (Hvp : valid p) by (rewrite <-Ei in Hv; by eapply valid_l).
  rewrite measure_text by done. eexists p, l, _. split_and!; [done|done| |].
  - destruct Hp as [->|Hp]; [apply Nat.le_0_l|]. cbn [td_of Point_text_laws] in Hp.
    rewrite target_row in Hp by (apply Hvp). by apply Nat.leb_le.
  - destruct l as [|x l]; [done|]. specialize (Hx x eq_refl). rewrite past_by_key in Hx. cbn [td_of Point_text_laws] in Hx.
    rewrite target_row in Hx.
    + apply Nat.leb_gt in Hx. rewrite chunks_text_app, chunks_text_single, newline_count_app in Hx. lia.
    + rewrite <-Ei, cons_middle, app_assoc in Hv. by apply valid_l in Hv as [_ Hv].
Qed.
(** From the start of a chunk to the end of the row, and back. *)
Lemma sub_row s m :
  small s → n = newline_count s + m →
  point_sub row_target (extent_of s) =
    Ret (MkPoint (N.of_nat m) (if (m =? 0)%nat then U32_MAX - column (extent_of s) else U32_MAX))%N.
Proof.
  intros Hs E. pose proof (extent_of_ok s Hs) as Hok. pose proof (extent_row s) as Er. pose proof Hok as [_ Hc].
  unfold point_sub. assert (Hle : le_b (extent_of s) row_target = true).
  { apply point_le_iff; [done|split; cbn [row column]; lia|]. cbn [row column]. lia. }
  match goal with |- context [le_b ?a ?b] => replace (le_b a b) with true by (symmetry; exact Hle) end.
  cbn [rust_assert row column]. rewrite Er.
  destruct (N.eqb_spec (N.of_nat n) (N.of_nat (newline_count s))), (Nat.eqb_spec m 0); try lia;
    rewrite u32_sub_ok by lia; do 2 f_equal; lia.
Qed.
Lemma add_row s m len :
  (N.of_nat (length s + len) <= U32_MAX)%N → n = newline_count s + m →
  (let* q := point_add (extent_of s) (MkPoint (N.of_nat m) (N.of_nat len)) in Ret (column q)) =
    Ret (N.of_nat (length (if m =? 0 then last_line s else []) + len)).
Proof.
  intros Hs E. pose proof (column_last_line s) as Ec. pose proof (extent_row s) as Er. pose proof (extent_of_bound s) as Hb.
  unfold point_add. cbn [row column]. destruct (Nat.eqb_spec m 0) as [->|Hm].
  - change (N.of_nat 0 =? 0)%N with true. cbn beta iota. rewrite u32_add_ok by lia. cbn beta iota. cbn [column]. f_equal. lia.
  - destruct (N.eqb_spec (N.of_nat m) 0); [lia|]. by rewrite u32_add_ok by lia.
Qed.

(** The length of a row, wherever its line is cut. *)
Lemma line_len_at gb line :
  split_newlines T !! n = Some line → rope_line_len gb r (N.of_nat n) = Ret (N.of_nat (length line)).
Proof.
  intros Hline. destruct (rope_utf8 r Hr) as [_ Hs]. unfold rope_line_len, rope_clip_point.
  destruct find_row as (p & l & e & -> & Ei & Hp & Hx).
  assert (HT : T = chunks_text p ++ chunks_text l) by (unfold rope_text; by rewrite Ei, chunks_text_app).
  destruct l as [|x l]; cbn [head].
  - rewrite rope_summary_spec by done. rewrite app_nil_r in HT. rewrite <-HT in Hp.
    pose proof (split_newlines_length T) as Hl. pose proof (lookup_lt_Some _ _ _ Hline) as Hlt.
    assert (E : n = newline_count T) by lia. cbn [summary_of ts_lines]. rewrite column_last_line.
    pose proof (line_joined T []) as Hj. rewrite app_nil_r, <-E, Hline in Hj. injection Hj as ->.
    by rewrite app_nil_r.
  - pose proof Hr as (_ & [Hok _] & _). rewrite Ei in Hok. apply Forall_app in Hok as [_ [(Ex & Hux & Hlx) _]%Forall_cons].
    rewrite HT, chunks_text_cons in Hs, Hline. set (s := chunks_text p) in *.
    destruct (Nat.le_exists_sub (newline_count s) n Hp) as (m & Em & _). rewrite Nat.add_comm in Em.
    rewrite Em, line_within in Hline by lia.
    destruct (offset_range_spec (ctext x) Hlx m) as (a & Ha & _); [lia|]. rewrite (row_at_line _ _ _ Ha) in Hline.
    injection Hline as <-. rewrite app_assoc in Hs. apply small_app in Hs as [Hs _]. pose proof (small_app _ _ Hs) as [Hss _].
    pose proof (extent_of_bound s) as Hb. pose proof (first_line_le (drop a (ctext x))) as Hfl. rewrite length_drop in Hfl.
    unfold small in Hs. rewrite length_app in Hs.
    cbn beta iota. rewrite (sub_row s m Hss Em). cbn beta iota. unfold as_slice. rewrite Ex.
    rewrite (clip_point_overflow _ _ m a); 
      [|done|exact Hlx|exact Ha|cbn [ctext chunk_of]; destruct (m =? 0); lia].
    cbn beta iota. cbn [ctext chunk_of]. rewrite length_app. apply add_row; [lia|done].
Qed.

(** A row past the last is taken for the last. *)
Lemma line_len_past gb :
  newline_count T < n → rope_line_len gb r (N.of_nat n) = Ret (N.of_nat (length (last_line T))).
Proof.
  intros Hpast. unfold rope_line_len, rope_clip_point. destruct find_row as (p & l & e & -> & Ei & Hp & Hx).
  destruct l as [|x l]; cbn [head].
  - rewrite rope_summary_spec by done. cbn [summary_of ts_lines]. by rewrite column_last_line.
  - unfold rope_text in Hpast. rewrite Ei, chunks_text_app, chunks_text_cons, !newline_count_app in Hpast. lia.
Qed.
End Lines.
