(* ===== verification/RopeSpec.v ===== *)
(** * Theorems about ropes

    A rope is the list of the bytes of its text, cut into chunks of about the
    same size.  [rope_wf] is what the crate's own [check_invariants] asserts,
    with the invariant of the tree and of the chunks' bitmaps. *)
From stdpp Require Import base numbers option list.
From Stdlib Require Import Lia.
From S2P Require Import Prelude SumTree SumTreeFacts SumTreeBulk Cursor Integers Bits Utf8 Point Chunk.
From S2P Require Import ChunkFacts ChunkMeasures TextSummary ChunkPoints ChunkPointsFacts RopeTree Rope RopeBuild.
From S2P Require Import RopeSlice RopePoints RopeConvert.

(** ** A sample rope *)

(** A line with a wide character, repeated over several chunks. *)
Definition sample_line : list N := [104; 195; 169; 240; 159; 152; 128; 122; 122; 10]%N.
Definition sample_text : list N := concat (replicate 30 sample_line).
Definition built (o : outcome Rope) : Rope := match o with Ret r => r | _ => rope_new end.
Definition sample : Rope := built (rope_from Integers.chunks sample_text).

Lemma sample_utf8 : utf8 sample_text.
Proof.
  unfold sample_text. generalize 30. intros n. induction n as [|n IH]; [constructor|]. simpl replicate. cbn [concat]. apply utf8_app; [|done].
  apply (utf8_cons [104]%N); [by vm_compute|]. apply (utf8_cons [195; 169]%N); [by vm_compute|].
  apply (utf8_cons [240; 159; 152; 128]%N); [by vm_compute|]. do 2 (apply (utf8_cons [122]%N); [by vm_compute|]).
  apply (utf8_cons [10]%N); [by vm_compute|]. constructor.
Qed.
Lemma built_spec o (P : Rope → Prop) : returns o P → P (built o).
Proof. by intros (r & -> & H). Qed.
Lemma sample_ok : rope_wf sample ∧ rope_text sample = sample_text.
Proof.
  apply (built_spec (rope_from Integers.chunks sample_text) (λ r, rope_wf r ∧ rope_text r = sample_text)).
  destruct rope_wf_new as [Hw E].
  pose proof (rope_push_spec Integers.chunks chunks_ok rope_new sample_text Hw sample_utf8) as H.
  rewrite E in H. apply H. by vm_compute.
Qed.
Lemma sample_chunks : 1 < length (rope_chunks sample).
Proof. vm_compute. lia. Qed.

#[local] Opaque sample sample_text.

(** ** Building *)

(** C31: Pushing text, and building a rope from one text or from several, keeps
    the rope's invariant and appends to the text, for every text that leaves
    the rope within [u32::MAX] bytes. *)
Theorem rope_push_refines par_chunks r text texts :
  chunks_spec par_chunks → rope_wf r → utf8 text → Forall utf8 texts →
  small (rope_text r ++ text) → small (concat texts) →
  returns (rope_push par_chunks r text) (λ r', rope_wf r' ∧ rope_text r' = rope_text r ++ text) ∧
  returns (rope_from par_chunks text) (λ r', rope_wf r' ∧ rope_text r' = text) ∧
  returns (rope_from_iter par_chunks texts) (λ r', rope_wf r' ∧ rope_text r' = concat texts).
Proof.
  intros Hpar Hr Hu Hus Hs Hss. destruct rope_wf_new as [Hn En]. split_and!; [by apply rope_push_spec| |].
  - pose proof (rope_push_spec par_chunks Hpar rope_new text Hn Hu) as H. rewrite En in H. apply H.
    by apply small_app in Hs as [_ ?].
  - pose proof (push_all_spec par_chunks Hpar rope_new texts Hn Hus) as H. rewrite En in H. by apply H.
Qed.
Lemma rope_push_refines_witness :
  returns (rope_push Integers.chunks sample sample_line) (λ r', rope_text r' = sample_text ++ sample_line).
Proof.
  pose proof sample_ok as [Hw Et].
  assert (Hu : utf8 sample_line).
  { pose proof sample_utf8 as H. apply (utf8_split _ 10) in H as [H _]; [exact H|by vm_compute]. }
  destruct (rope_push_refines Integers.chunks sample sample_line [] chunks_ok Hw Hu (Forall_nil_2 _)) as [(r' & E & _ & H) _].
  - rewrite Et. by vm_compute.
  - by vm_compute.
  - exists r'. split; [exact E|]. rewrite H, Et. reflexivity.
Defined.

(** C32: Appending a rope to another and pushing text before one keep the
    invariant and concatenate the texts. *)
Theorem rope_append_refines par_chunks a b text :
  chunks_spec par_chunks → rope_wf a → rope_wf b → utf8 text → height (chunks b) < STACK_CAP →
  small (rope_text a ++ rope_text b) → small (text ++ rope_text b) →
  returns (rope_append a b) (λ r, rope_wf r ∧ rope_text r = rope_text a ++ rope_text b) ∧
  returns (push_front par_chunks b text) (λ r, rope_wf r ∧ rope_text r = text ++ rope_text b).
Proof.
  intros Hpar Ha Hb Hu Hh Hs1 Hs2. split; [by apply rope_append_spec|by apply push_front_spec].
Qed.
Lemma rope_append_refines_witness :
  returns (rope_append sample sample) (λ r, rope_wf r ∧ rope_text r = rope_text sample ++ rope_text sample).
Proof.
  pose proof sample_ok as [Hw Et].
  refine (proj1 (rope_append_refines Integers.chunks sample sample [] chunks_ok Hw Hw utf8_nil _ _ _)).
  - apply Nat.ltb_lt. by vm_compute.
  - rewrite Et. by vm_compute.
  - rewrite Et. by vm_compute.
Defined.

(** ** Slicing *)

(** C33: A slice between boundaries is a rope whose text is the part between the
    two offsets; a range outside the text, or one whose end lies before its
    start, panics. *)
Theorem rope_slice_refines r a b :
  rope_wf r → height (chunks r) < STACK_CAP →
  (a ≤ b ≤ length (rope_text r) →
    str_is_char_boundary (rope_text r) a = true → str_is_char_boundary (rope_text r) b = true →
    depth_of (cursor_from r a) b < STACK_CAP →
    returns (rope_slice r a b) (λ s, rope_wf s ∧ rope_text s = take (b - a) (drop a (rope_text r)))) ∧
  (b < a ∨ length (rope_text r) < b → rope_slice r a b = Panic).
Proof.
  intros Hr Hh. split; [intros; by apply rope_slice_spec|]. intros Hab. unfold rope_slice.
  destruct (rc_new r Hr Hh 0 ltac:(lia)) as (c0 & -> & H0).
  destruct (Nat.le_gt_cases a (length (rope_text r))) as [Ha|Ha].
  - destruct (rc_seek_forward_spec r Hr Hh c0 0 a H0 ltac:(lia)) as (c1 & -> & Er & Eo & _). cbn beta iota.
    unfold rc_slice, rc_assert. rewrite Er, Eo, rope_len_spec by done.
    destruct (Nat.leb_spec a b) as [Hle|]; [|done]. cbn [rust_assert].
    destruct (Nat.leb_spec b (length (rope_text r))); [lia|done].
  - destruct H0 as (Er & Eo & _). unfold rc_seek_forward, rc_assert. rewrite Er, Eo, rope_len_spec by done.
    cbn [Nat.leb rust_assert]. destruct (Nat.leb_spec a (length (rope_text r))); [lia|done].
Qed.
Lemma rope_slice_refines_witness :
  returns (rope_slice sample 3 157) (λ s, rope_wf s ∧ rope_text s = take 154 (drop 3 (rope_text sample))) ∧
  rope_slice sample 4 2 = Panic.
Proof.
  pose proof sample_ok as [Hw Et].
  assert (Hh : height (chunks sample) < STACK_CAP) by (apply Nat.ltb_lt; by vm_compute).
  split.
  - apply (proj1 (rope_slice_refines sample 3 157 Hw Hh)).
    + rewrite Et. split; apply Nat.leb_le; by vm_compute.
    + rewrite Et. by vm_compute.
    + rewrite Et. by vm_compute.
    + apply Nat.ltb_lt. by vm_compute.
  - apply (proj2 (rope_slice_refines sample 4 2 Hw Hh)). left. lia.
Defined.

(** Replacing a range between boundaries splices the text. *)
Theorem rope_replace_refines par_chunks r a b text :
  chunks_spec par_chunks → rope_wf r → height (chunks r) < STACK_CAP → a ≤ b ≤ length (rope_text r) → utf8 text →
  str_is_char_boundary (rope_text r) a = true → str_is_char_boundary (rope_text r) b = true →
  small (take a (rope_text r) ++ text ++ drop b (rope_text r)) →
  replace_depth r a b < STACK_CAP →
  returns (rope_replace par_chunks r a b text) (λ s,
    rope_wf s ∧ rope_text s = take a (rope_text r) ++ text ++ drop b (rope_text r)).
Proof. intros. by apply rope_replace_spec. Qed.
Lemma rope_replace_refines_witness :
  returns (rope_replace Integers.chunks sample 3 157 [65]%N) (λ s,
    rope_wf s ∧ rope_text s = take 3 (rope_text sample) ++ [65]%N ++ drop 157 (rope_text sample)).
Proof.
  pose proof sample_ok as [Hw Et]. apply rope_replace_refines.
  - exact chunks_ok.
  - exact Hw.
  - apply Nat.ltb_lt. by vm_compute.
  - rewrite Et. split; apply Nat.leb_le; by vm_compute.
  - apply (utf8_cons [65]%N); [by vm_compute|constructor].
  - rewrite Et. by vm_compute.
  - rewrite Et. by vm_compute.
  - rewrite Et. by vm_compute.
  - apply Nat.ltb_lt. by vm_compute.
Defined.

(** ** Measures *)

(** A rope's summary is that of its text, and a cursor measures any range
    between boundaries in any dimension, as if it measured the bytes. *)
Theorem rope_summary_refines {D} `{TextDimensionLaws D} r a b :
  rope_wf r → height (chunks r) < STACK_CAP → a ≤ b ≤ length (rope_text r) →
  str_is_char_boundary (rope_text r) a = true → str_is_char_boundary (rope_text r) b = true →
  rope_summary r = Ret (summary_of (rope_text r)) ∧ rope_len r = Ret (length (rope_text r)) ∧
  max_point r = Ret (extent_of (rope_text r)) ∧ max_point_utf16 r = Ret (extent_utf16 (rope_text r)) ∧
  returns (let* c := rope_cursor r a in rc_summary (D := D) c b)
    (λ '(d, _), d = td_of (take (b - a) (drop a (rope_text r)))).
Proof.
  intros Hr Hh Hab Ha Hb. split_and!; [by apply rope_summary_spec|by apply rope_len_spec| | |].
  - exact (rope_measure (D := Point) r Hr).
  - exact (rope_measure (D := PointUtf16) r Hr).
  - destruct (rc_new r Hr Hh a ltac:(lia)) as (c & -> & Hc).
    destruct (rc_summary_spec (D := D) r Hr Hh c a b Hc Hab Ha Hb) as ([d c'] & -> & E & _). by apply returns_Ret.
Qed.
Lemma rope_summary_refines_witness :
  returns (let* c := rope_cursor sample 3 in rc_summary (D := Point) c 157)
    (λ '(d, _), d = td_of (take (157 - 3) (drop 3 (rope_text sample)))).
Proof.
  pose proof sample_ok as [Hw Et].
  assert (Hh : height (chunks sample) < STACK_CAP) by (apply Nat.ltb_lt; by vm_compute).
  assert (Hab : 3 ≤ 157 ≤ length (rope_text sample)) by (rewrite Et; split; apply Nat.leb_le; by vm_compute).
  assert (Ha : str_is_char_boundary (rope_text sample) 3 = true) by (rewrite Et; by vm_compute).
  assert (Hb : str_is_char_boundary (rope_text sample) 157 = true) by (rewrite Et; by vm_compute).
  destruct (rope_summary_refines (D := Point) sample 3 157 Hw Hh Hab Ha Hb) as (_ & _ & _ & _ & H). exact H.
Defined.

(** ** Positions *)

(** C34: At every character boundary, the conversions between byte offsets, UTF-16
    offsets, points and UTF-16 points measure the text before it, so each is
    undone by the one in the other direction; in either build, with or without
    clipping, however the text is cut into chunks. *)
Theorem rope_conversions_roundtrip r k debug clip :
  rope_wf r → height (chunks r) < STACK_CAP → str_is_char_boundary (rope_text r) k = true →
  let before := take k (rope_text r) in
  let units := MkOffsetUtf16 (utf16_units before) in
  let p := extent_of before in
  let p16 := extent_utf16 before in
  (rope_offset_to_offset_utf16 r k = Ret units ∧ rope_offset_to_point r k = Ret p ∧ rope_offset_to_point_utf16 r k = Ret p16) ∧
  (rope_offset_utf16_to_offset r units = Ret k ∧ rope_point_to_offset debug r p = Ret k ∧
    rope_point_utf16_to_offset_impl debug r p16 clip = Ret k) ∧
  (rope_point_to_point_utf16 debug r p = Ret p16 ∧ rope_point_utf16_to_point debug r p16 = Ret p ∧
    rope_unclipped_point_utf16_to_point r p16 = Ret p) ∧
  (rope_point_to_offset_utf16 debug r p = Ret units ∧ rope_point_utf16_to_offset_utf16_impl debug r p16 clip = Ret units).
Proof.
  intros Hr Hh Hk. cbn zeta. split_and!;
    [by apply offset_to_offset_utf16_at|by apply offset_to_point_at|by apply offset_to_point_utf16_at|
     by apply offset_utf16_to_offset_at|by apply point_to_offset_at|by apply point_utf16_to_offset_at|
     by apply point_to_point_utf16_at|by apply point_utf16_to_point_at|by apply unclipped_point_utf16_to_point_at|
     by apply point_to_offset_utf16_at|by apply point_utf16_to_offset_utf16_at].
Qed.
Lemma rope_conversions_roundtrip_witness :
  rope_offset_to_point sample 157 = Ret (extent_of (take 157 (rope_text sample))) ∧
  rope_point_to_offset true sample (extent_of (take 157 (rope_text sample))) = Ret 157.
Proof.
  pose proof sample_ok as [Hw Et].
  assert (Hh : height (chunks sample) < STACK_CAP) by (apply Nat.ltb_lt; by vm_compute).
  assert (Hb : str_is_char_boundary (rope_text sample) 157 = true) by (rewrite Et; by vm_compute).
  destruct (rope_conversions_roundtrip sample 157 true false Hw Hh Hb) as ((_ & H1 & _) & (_ & H2 & _) & _).
  split; [exact H1|exact H2].
Defined.

(** The boundary tests of a rope are those of its text, at every offset, the
    ones past its end included, and clipping an offset rounds it down or up. *)
Theorem rope_boundaries_refine r i :
  rope_wf r →
  rope_is_char_boundary r i = Ret (str_is_char_boundary (rope_text r) i) ∧
  rope_floor_char_boundary r i = Ret (str_floor_char_boundary (rope_text r) i) ∧
  rope_ceil_char_boundary r i = Ret (str_ceil_char_boundary (rope_text r) i) ∧
  (i ≤ length (rope_text r) →
    (∃ f, rope_clip_offset r i Left = Ret f ∧ is_floor (rope_text r) i f) ∧
    (∃ c, rope_clip_offset r i Right = Ret c ∧ is_ceil (rope_text r) i c)).
Proof.
  intros Hr. split_and!;
    [by apply is_char_boundary_at|by apply floor_char_boundary_at|by apply ceil_char_boundary_at|].
  intros Hi. split; eexists; (split; [by apply floor_char_boundary_at || by apply ceil_char_boundary_at|]).
  - by apply str_floor_spec.
  - by apply str_ceil_spec.
Qed.
Lemma rope_boundaries_refine_witness :
  rope_is_char_boundary sample 155 = Ret (str_is_char_boundary (rope_text sample) 155).
Proof. pose proof sample_ok as [Hw _]. exact (proj1 (rope_boundaries_refine sample 155 Hw)). Defined.

(** The length of a row is that of its line, wherever the chunks cut it, and a
    row past the last counts as the last; the grapheme segmentation plays no
    part. *)
Theorem rope_line_len_refines is_grapheme_boundary r (n : nat) :
  rope_wf r → (N.of_nat n <= U32_MAX)%N →
  rope_line_len is_grapheme_boundary r (N.of_nat n) =
    Ret (N.of_nat (length (default (last_line (rope_text r)) (split_newlines (rope_text r) !! n)))).
Proof.
  intros Hr Hn. destruct (split_newlines (rope_text r) !! n) as [line|] eqn:E; [by apply line_len_at|].
  apply line_len_past; [done..|]. apply lookup_ge_None in E. rewrite split_newlines_length in E. lia.
Qed.
Lemma rope_line_len_refines_witness :
  rope_line_len (λ _ _, true) sample 12 =
    Ret (N.of_nat (length (default (last_line (rope_text sample)) (split_newlines (rope_text sample) !! 12)))).
Proof. pose proof sample_ok as [Hw _]. apply (rope_line_len_refines (λ _ _, true) sample 12 Hw). by vm_compute. Defined.
