(* ===== verification/RopeChunks.v ===== *)
(** * Reading a rope piece by piece

    The iterators of [crates/rope/src/rope.rs]: [Chunks], which yields the text
    of a range chunk by chunk in either direction and moves by lines, [Bytes],
    which reads it as bytes, and [Lines], which joins the pieces of a line. *)
From stdpp Require Import base numbers option list.
From Stdlib Require Import Lia.
From S2P Require Import Prelude SumTree Cursor Bits Utf8 Point Chunk ChunkMeasures TextSummary RopeTree Rope RopePoints.

(** ** Strings *)

(** [str::get(a..b)] *)
Definition str_get (s : list N) (a b : nat) : option (list N) :=
  if (a <=? b) && str_is_char_boundary s a && str_is_char_boundary s b then Some (take (b - a) (drop a s)) else None.
Definition str_starts_with (s pattern : list N) : bool := bool_decide (take (length pattern) s = pattern).
Definition str_ends_with (s pattern : list N) : bool :=
  (length pattern <=? length s) && bool_decide (drop (length s - length pattern) s = pattern).
(** [str::find('\n')] and [str::rfind('\n')] *)
Definition str_find_newline (s : list N) : option nat := first_one (is_newline <$> s).
Definition str_rfind_newline (s : list N) : option nat :=
  match last_one (is_newline <$> s) with 0 => None | S i => Some i end.

(** ** Assertions *)
Definition chunk_assert_char_boundary (debug panic : bool) (self : Chunk) (offset : nat) : outcome bool :=
  if chunk_is_char_boundary self offset then Ret true else if panic || debug then Panic else Ret false.

Definition rope_assert_char_boundary (debug panic : bool) (self : Rope) (offset : nat) : outcome bool :=
  if is_empty (chunks self) && (offset =? 0) then Ret true
  else
    let '(start, _, item) := find (D := outcome nat) (chunks self) offset Left in
    match item with
    | Some chunk =>
        let* start := start in
        let* chunk_offset := usize_sub offset start in
        chunk_assert_char_boundary debug panic chunk chunk_offset
    | None => if panic then Panic else Ret false
    end.

(** ** [Chunks] *)
Abbreviation chunk_cursor := (Cursor Chunk (outcome ChunkSummary) (outcome nat)).
Record Chunks := MkChunks {
  ck_chunks : chunk_cursor; ck_range : nat * nat; ck_offset : nat; ck_reversed : bool }.

Definition chunks_new (debug : bool) (rope : Rope) (range : nat * nat) (reversed : bool) : outcome Chunks :=
  let* '(offset, c) :=
    if reversed then
      let* '(_, c) := seek (cursor_new (chunks rope)) range.2 Left in Ret (range.2, c)
    else
      let* '(_, c) := seek (cursor_new (chunks rope)) range.1 Right in Ret (range.1, c) in
  let* s := chunk_start c in
  let* chunk_offset := usize_sub offset s in
  let* i := item c in
  let* _ :=
    match i with
    | Some chunk => chunk_assert_char_boundary debug true chunk chunk_offset
    | None => Ret true
    end in
  Ret (MkChunks c range offset reversed).

Definition offset_is_valid (self : Chunks) : bool :=
  if ck_reversed self then negb ((ck_offset self <=? (ck_range self).1) || ((ck_range self).2 <? ck_offset self))
  else negb ((ck_offset self <? (ck_range self).1) || ((ck_range self).2 <=? ck_offset self)).

(** [usize::clamp] *)
Definition usize_clamp (n a b : nat) : outcome nat :=
  let* _ := rust_assert (a <=? b) in Ret (Nat.min (Nat.max n a) b).

Definition with_cursor (self : Chunks) (c : chunk_cursor) : Chunks :=
  MkChunks c (ck_range self) (ck_offset self) (ck_reversed self).
Definition with_offset (self : Chunks) (offset : nat) : Chunks :=
  MkChunks (ck_chunks self) (ck_range self) offset (ck_reversed self).

Definition chunks_seek (self : Chunks) (offset : nat) : outcome Chunks :=
  let* offset := usize_clamp offset (ck_range self).1 (ck_range self).2 in
  let c := ck_chunks self in
  let* e := chunk_end c in
  let* s := chunk_start c in
  let* c :=
    if ck_reversed self then
      if e <? offset then let* '(_, c) := seek_forward c offset Left in Ret c
      else if offset <=? s then let* '(_, c) := seek c offset Left in Ret c
      else Ret c
    else
      if e <=? offset then let* '(_, c) := seek_forward c offset Right in Ret c
      else if offset <? s then let* '(_, c) := seek c offset Right in Ret c
      else Ret c in
  Ret (MkChunks c (ck_range self) offset (ck_reversed self)).

Definition set_range (self : Chunks) (range : nat * nat) : outcome Chunks :=
  chunks_seek (MkChunks (ck_chunks self) range (ck_offset self) (ck_reversed self)) range.1.

(** The part of the current chunk that [peek] shows. *)
Definition peek_range (self : Chunks) : outcome (nat * nat) :=
  let* chunk_start := chunk_start (ck_chunks self) in
  if ck_reversed self then
    let* slice_start := usize_sub (Nat.max chunk_start (ck_range self).1) chunk_start in
    let* slice_end := usize_sub (ck_offset self) chunk_start in
    Ret (slice_start, slice_end)
  else
    let* slice_start := usize_sub (ck_offset self) chunk_start in
    let* e := chunk_end (ck_chunks self) in
    let* slice_end := usize_sub (Nat.min e (ck_range self).2) chunk_start in
    Ret (slice_start, slice_end).

Definition chunks_peek (self : Chunks) : outcome (option (list N)) :=
  if negb (offset_is_valid self) then Ret None
  else
    let* i := item (ck_chunks self) in
    match i with
    | None => Ret None
    | Some chunk =>
        let* '(a, b) := peek_range self in
        let* s := str_slice (ctext chunk) a b in
        Ret (Some s)
    end.

Record ChunkBitmaps := MkChunkBitmaps { cb_text : list N; cb_chars : N; cb_tabs : N; cb_newlines : N }.
Definition peek_with_bitmaps (self : Chunks) : outcome (option ChunkBitmaps) :=
  if negb (offset_is_valid self) then Ret None
  else
    let* i := item (ck_chunks self) in
    match i with
    | None => Ret None
    | Some chunk =>
        let* '(a, b) := peek_range self in
        let* s := str_slice (ctext chunk) a b in
        let* shifted_tabs := shr BITS (tabs chunk) a in
        let* shifted_chars := shr BITS (chars chunk) a in
        let* shifted_newlines := shr BITS (newlines chunk) a in
        Ret (Some (MkChunkBitmaps s shifted_chars shifted_tabs shifted_newlines))
    end.

(** Past a piece of [len] bytes. *)
Definition chunks_advance (self : Chunks) (len : nat) : outcome Chunks :=
  if ck_reversed self then
    let* offset := usize_sub (ck_offset self) len in
    let* s := chunk_start (ck_chunks self) in
    let* c := if offset <=? s then prev (ck_chunks self) else Ret (ck_chunks self) in
    Ret (MkChunks c (ck_range self) offset true)
  else
    let* offset := usize_add (ck_offset self) len in
    let* e := chunk_end (ck_chunks self) in
    let* c := if e <=? offset then next (ck_chunks self) else Ret (ck_chunks self) in
    Ret (MkChunks c (ck_range self) offset false).

(** [Iterator for Chunks] and [Iterator for ChunkWithBitmaps] *)
Definition chunks_next (self : Chunks) : outcome (option (list N) * Chunks) :=
  let* chunk := chunks_peek self in
  match chunk with
  | None => Ret (None, self)
  | Some s => let* self := chunks_advance self (length s) in Ret (Some s, self)
  end.
Definition bitmaps_next (self : Chunks) : outcome (option ChunkBitmaps * Chunks) :=
  let* chunk := peek_with_bitmaps self in
  match chunk with
  | None => Ret (None, self)
  | Some b => let* self := chunks_advance self (length (cb_text b)) in Ret (Some b, self)
  end.

(** Every piece is at least a byte of the range. *)
Definition chunks_fuel (self : Chunks) : nat := 2 + ((ck_range self).2 - (ck_range self).1).
Definition chunks_collect (self : Chunks) : outcome (list (list N)) :=
  loop (λ '(c, acc),
    let* '(p, c) := chunks_next c in
    match p with None => Ret (inr acc) | Some s => Ret (inl (c, acc ++ [s])) end) (chunks_fuel self) (self, []).

(** ** Moving by lines *)

(** [|summary| summary.text.lines.row > 0] *)
Definition has_newline (s : outcome ChunkSummary) : bool :=
  match s with Ret s => (0 <? row (ts_lines s))%N | _ => false end.

(** The first newline of what is shown, or of the next chunk that has one. *)
Definition to_newline (self : Chunks) (chunk : list N) : outcome (bool * Chunks) :=
  match str_find_newline chunk with
  | Some newline_ix =>
      let* offset := usize_add (ck_offset self) (newline_ix + 1) in
      Ret (offset <=? (ck_range self).2, with_offset self offset)
  | None =>
      let* c := search_forward has_newline (ck_chunks self) in
      let* offset := chunk_start c in
      let self := MkChunks c (ck_range self) offset (ck_reversed self) in
      let* chunk := chunks_peek self in
      match chunk ≫= str_find_newline with
      | Some newline_ix =>
          let* offset := usize_add offset (newline_ix + 1) in
          Ret (offset <=? (ck_range self).2, with_offset self offset)
      | None => let* e := chunk_end c in Ret (false, with_offset self e)
      end
  end.
(** [if self.offset == self.chunks.end() { self.next(); }] *)
Definition leave_chunk (self : Chunks) : outcome Chunks :=
  let* e := chunk_end (ck_chunks self) in
  if ck_offset self =? e then let* '(_, self) := chunks_next self in Ret self else Ret self.
(** [if self.offset > self.range.end { .. }] *)
Definition back_to_range (self : Chunks) : outcome Chunks :=
  if (ck_range self).2 <? ck_offset self then
    let offset := Nat.min (ck_offset self) (ck_range self).2 in
    let* '(_, c) := seek (ck_chunks self) offset Right in
    Ret (MkChunks c (ck_range self) offset (ck_reversed self))
  else Ret self.

Definition next_line (self : Chunks) : outcome (bool * Chunks) :=
  let* _ := rust_assert (negb (ck_reversed self)) in
  let* chunk := chunks_peek self in
  let* '(found, self) :=
    match chunk with
    | None => Ret (false, self)
    | Some chunk =>
        let* '(found, self) := to_newline self chunk in
        let* self := leave_chunk self in
        Ret (found, self)
    end in
  let* self := back_to_range self in
  Ret (found, self).

(** The newline before the offset in the current chunk, as the start of a line. *)
Definition prev_newline (self : Chunks) : outcome (option nat) :=
  let* i := item (ck_chunks self) in
  match i with
  | None => Ret None
  | Some chunk =>
      let* s := chunk_start (ck_chunks self) in
      let* end_ix := usize_sub (ck_offset self) s in
      let* ix := usize_sub end_ix 1 in
      let* b := unwrap (ctext chunk !! ix) in
      let end_ix := if (b =? 10)%N then ix else end_ix in
      let* before := str_slice (ctext chunk) 0 end_ix in
      Ret ((λ newline_ix, s + newline_ix + 1) <$> str_rfind_newline before)
  end.

Definition prev_line_done (self : Chunks) (initial_offset : nat) : outcome (bool * Chunks) :=
  let* i := item (ck_chunks self) in
  let* self :=
    if negb (offset_is_valid self) || (if i is Some _ then false else true) then
      let* '(_, c) := seek (ck_chunks self) (ck_range self).1 Right in
      Ret (MkChunks c (ck_range self) (ck_range self).1 (ck_reversed self))
    else Ret self in
  Ret ((ck_offset self <? initial_offset) && (ck_offset self =? 0), self).

Definition prev_line_search (self : Chunks) (initial_offset : nat) : outcome (bool * Chunks) :=
  let* c := search_backward has_newline (ck_chunks self) in
  let* s := chunk_start c in
  let self := MkChunks c (ck_range self) s (ck_reversed self) in
  let* i := item c in
  match i ≫= (λ chunk, str_rfind_newline (ctext chunk)) with
  | None => prev_line_done self initial_offset
  | Some newline_ix =>
      let self := with_offset self (s + newline_ix + 1) in
      if offset_is_valid self then
        let* e := chunk_end c in
        let* c := if ck_offset self =? e then next c else Ret c in
        Ret (true, with_cursor self c)
      else prev_line_done self initial_offset
  end.

Definition prev_line (self : Chunks) : outcome (bool * Chunks) :=
  let* _ := rust_assert (negb (ck_reversed self)) in
  let initial_offset := ck_offset self in
  let* s := chunk_start (ck_chunks self) in
  let* c := if ck_offset self =? s then prev (ck_chunks self) else Ret (ck_chunks self) in
  let self := with_cursor self c in
  let* line := prev_newline self in
  match line with
  | Some offset =>
      let self := with_offset self offset in
      if offset_is_valid self then Ret (true, self) else prev_line_search self initial_offset
  | None => prev_line_search self initial_offset
  end.

(** ** Comparing *)
Definition equals_str (self : Chunks) (other : list N) : outcome bool :=
  if ck_reversed self then
    loop (λ '(c, offset),
      let* '(p, c) := chunks_next c in
      match p with
      | None => Ret (inr (offset =? 0))
      | Some chunk =>
          let* head := str_slice other 0 offset in
          if str_ends_with head chunk then
            let* offset := usize_sub offset (length chunk) in Ret (inl (c, offset))
          else Ret (inr false)
      end) (chunks_fuel self) (self, length other)
  else
    loop (λ '(c, offset),
      let* '(p, c) := chunks_next c in
      match p with
      | None => Ret (inr (offset =? length other))
      | Some chunk =>
          if length other <=? offset then Ret (inr false)
          else
            let* tail := str_slice other offset (length other) in
            if str_starts_with tail chunk then
              let* offset := usize_add offset (length chunk) in Ret (inl (c, offset))
            else Ret (inr false)
      end) (chunks_fuel self) (self, 0).

(** The body of the loop of [starts_with], with what remains of the pattern. *)
Definition match_front (remaining chunk : list N) : outcome (list N + bool) :=
  match str_get chunk 0 (Nat.min (length remaining) (length chunk)) with
  | None => Ret (inr false)
  | Some chunk =>
      if str_starts_with remaining chunk then
        let* remaining := str_slice remaining (length chunk) (length remaining) in
        if length remaining =? 0 then Ret (inr true) else Ret (inl remaining)
      else Ret (inr false)
  end.
(** The body of the loop of [ends_with]. *)
Definition match_back (remaining chunk : list N) : outcome (list N + bool) :=
  match str_get chunk (length chunk - Nat.min (length remaining) (length chunk)) (length chunk) with
  | None => Ret (inr false)
  | Some chunk =>
      if str_ends_with remaining chunk then
        let* remaining := str_slice remaining 0 (length remaining - length chunk) in
        if length remaining =? 0 then Ret (inr true) else Ret (inl remaining)
      else Ret (inr false)
  end.
Definition match_step (body : list N → list N → outcome (list N + bool)) (st : Chunks * list N) :
  outcome (Chunks * list N + bool) :=
  let '(c, remaining) := st in
  let* '(p, c) := chunks_next c in
  match p with
  | None => Ret (inr (length remaining =? 0))
  | Some chunk =>
      let* m := body remaining chunk in
      match m with inl remaining => Ret (inl (c, remaining)) | inr res => Ret (inr res) end
  end.
Definition starts_with (debug : bool) (self : Rope) (pattern : list N) : outcome bool :=
  let* len := rope_len self in
  if len <? length pattern then Ret false
  else
    let* c := chunks_new debug self (0, len) false in
    loop (match_step match_front) (chunks_fuel c) (c, pattern).

Definition ends_with (debug : bool) (self : Rope) (pattern : list N) : outcome bool :=
  let* len := rope_len self in
  if len <? length pattern then Ret false
  else
    let* c := chunks_new debug self (0, len) true in
    loop (match_step match_back) (chunks_fuel c) (c, pattern).

(** ** [Bytes] *)
Record Bytes := MkBytes { by_chunks : chunk_cursor; by_range : nat * nat; by_reversed : bool }.

Definition bytes_new (rope : Rope) (range : nat * nat) (reversed : bool) : outcome Bytes :=
  let* '(_, c) :=
    if reversed then seek (cursor_new (chunks rope)) range.2 Left
    else seek (cursor_new (chunks rope)) range.1 Right in
  Ret (MkBytes c range reversed).

(** [&bytes[a..b]] *)
Definition bytes_slice (s : list N) (a b : nat) : outcome (list N) :=
  if (a <=? b) && (b <=? length s) then Ret (take (b - a) (drop a s)) else Panic.

Definition bytes_peek (self : Bytes) : outcome (option (list N)) :=
  let* i := item (by_chunks self) in
  match i with
  | None => Ret None
  | Some chunk =>
      let* e := chunk_end (by_chunks self) in
      if by_reversed self && (e <=? (by_range self).1) then Ret None
      else
        let* s := chunk_start (by_chunks self) in
        if (by_range self).2 <=? s then Ret None
        else
          let start := (by_range self).1 - s in
          let* end_ := usize_sub (by_range self).2 s in
          let* b := bytes_slice (ctext chunk) start (Nat.min (length (ctext chunk)) end_) in
          Ret (Some b)
  end.

Definition bytes_step (self : Bytes) : outcome Bytes :=
  let* c := if by_reversed self then prev (by_chunks self) else next (by_chunks self) in
  Ret (MkBytes c (by_range self) (by_reversed self)).

Definition bytes_next (self : Bytes) : outcome (option (list N) * Bytes) :=
  let* result := bytes_peek self in
  match result with
  | None => Ret (None, self)
  | Some b => let* self := bytes_step self in Ret (Some b, self)
  end.

(** Every piece but one is at least a byte of the range. *)
Definition bytes_collect (self : Bytes) : outcome (list (list N)) :=
  loop (λ '(it, acc),
    let* '(p, it) := bytes_next it in
    match p with None => Ret (inr acc) | Some s => Ret (inl (it, acc ++ [s])) end)
    (3 + ((by_range self).2 - (by_range self).1)) (self, []).

(** [io::Read] into a buffer of [n] bytes; the bytes written. *)
Definition bytes_read (self : Bytes) (n : nat) : outcome (list N * Bytes) :=
  let* p := bytes_peek self in
  match p with
  | None => Ret ([], self)
  | Some chunk =>
      let len := Nat.min n (length chunk) in
      let* '(buf, range) :=
        if by_reversed self then
          let* end_ := usize_sub (by_range self).2 len in
          Ret (rev (drop (length chunk - len) chunk), ((by_range self).1, end_))
        else
          let* start := usize_add (by_range self).1 len in
          Ret (take len chunk, (start, (by_range self).2)) in
      let self := MkBytes (by_chunks self) range (by_reversed self) in
      let* self := if len =? length chunk then bytes_step self else Ret self in
      Ret (buf, self)
  end.

(** ** [Lines] *)
Record Lines := MkLines { ln_chunks : Chunks; ln_current : list N; ln_done : bool; ln_reversed : bool }.

Definition chunks_lines (self : Chunks) : Lines := MkLines self [] false (ck_reversed self).

(** One turn of [while let Some(chunk) = self.chunks.peek()]; the line, and
    whether the iterator is done. *)
Definition lines_step (reversed : bool) (st : Chunks * list N) :
  outcome (Chunks * list N + (list N * Chunks * list N * bool)) :=
  let '(c, current) := st in
  let* p := chunks_peek c in
  match p with
  | None => Ret (inr (current, c, current, true))
  | Some chunk =>
      let '(first, rest) := split_lines chunk in
      let last := default first (last rest) in
      let done := negb (length rest =? 0) in
      let chunk_line := if reversed then last else first in
      if done then
        let* offset :=
          if reversed then
            let* n := usize_sub (ck_offset c) (length chunk_line) in usize_sub n 1
          else let* n := usize_add (ck_offset c) (length chunk_line) in usize_add n 1 in
        let* c := chunks_seek c offset in
        let line := if reversed then chunk_line ++ current else current ++ chunk_line in
        Ret (inr (line, c, if length current =? 0 then current else line, false))
      else
        let current := if reversed then chunk_line ++ current else current ++ chunk_line in
        let* '(_, c) := chunks_next c in
        Ret (inl (c, current))
  end.

Definition lines_next (self : Lines) : outcome (option (list N) * Lines) :=
  if ln_done self then Ret (None, self)
  else
    let* '(line, c, current, done) :=
      loop (lines_step (ln_reversed self)) (chunks_fuel (ln_chunks self)) (ln_chunks self, []) in
    Ret (Some line, MkLines c current done (ln_reversed self)).

Definition lines_seek (self : Lines) (offset : nat) : outcome Lines :=
  let* c := chunks_seek (ln_chunks self) offset in
  Ret (MkLines c [] false (ln_reversed self)).

(** [while let Some(line) = lines.next()], the lines collected: a line per
    newline of the range and the last. *)
Definition lines_collect (self : Lines) : outcome (list (list N)) :=
  loop (λ '(it, acc),
    let* '(line, it) := lines_next it in
    match line with None => Ret (inr acc) | Some s => Ret (inl (it, acc ++ [s])) end)
    (chunks_fuel (ln_chunks self)) (self, []).
