(* ===== verification/RopeChunksFacts.v ===== *)
(** * Where the iterators of a rope stand *)
From stdpp Require Import base numbers option list.
From Stdlib Require Import Lia.
From S2P Require Import Prelude SumTree SumTreeFacts SumTreeBulk Cursor CursorFacts CursorSeek.
From S2P Require Import CursorMove CursorIter Bits Utf8 Point Chunk ChunkFacts ChunkMeasures.
From S2P Require Import TextSummary ChunkPoints ChunkPointsFacts RopeTree Rope RopeBuild RopeSlice.
From S2P Require Import RopePoints RopeChunks.
#[local] Opaque TREE_BASE av_cap.

(** ** UTF-8 is a prefix code *)
Lemma utf8_char_prefix c d s t : utf8_char c → utf8_char d → c ++ s = d ++ t → c = d ∧ s = t.
Proof.
  intros Hc Hd E.
  destruct c as [|c1 [|c2 [|c3 [|c4 [|]]]]]; try done; destruct d as [|d1 [|d2 [|d3 [|d4 [|]]]]]; try done;
    cbn in *; unfold continuation in *; simplify_eq; try done; lia.
Qed.

Lemma utf8_app_r s t : utf8 s → utf8 (s ++ t) → utf8 t.
Proof.
  induction 1 as [|c s Hc Hs IH]; [done|]. intros H. apply IH. rewrite <-app_assoc in H.
  inversion H as [En|d u Hd Hu E].
  - destruct c; done.
  - by destruct (utf8_char_prefix _ _ _ _ Hd Hc E) as [_ ->].
Qed.

Lemma utf8_prefix_boundary s t : utf8 s → utf8 (s ++ t) → str_is_char_boundary (s ++ t) (length s) = true.
Proof.
  intros Hs Ht. rewrite <-(Nat.add_0_r (length s)), str_boundary_app; [done|]. by apply (utf8_app_r s).
Qed.

(** ** Parts of the text *)
Section Parts.
Context (r : Rope).
Abbreviation T := (rope_text r).

Definition part (lo hi : nat) : list N := take (hi - lo) (drop lo T).

Lemma part_join lo mid hi : lo ≤ mid ≤ hi → hi ≤ length T → part lo mid ++ part mid hi = part lo hi.
Proof. intros H1 H2. unfold part. by apply take_drop_join. Qed.
Lemma part_nil k : part k k = [].
Proof. unfold part. by rewrite Nat.sub_diag. Qed.
Lemma part_length lo hi : hi ≤ length T → length (part lo hi) = hi - lo.
Proof. intros H. unfold part. rewrite length_take, length_drop. lia. Qed.
End Parts.

(** ** Seeking, by either bias *)
Section Places.
Context (r : Rope).
Hypothesis Hr : rope_wf r.
Hypothesis Hh : height (chunks r) < STACK_CAP.
Abbreviation T := (rope_text r).

Lemma T_length p l : rope_chunks r = p ++ l → length T = length (chunks_text p) + length (chunks_text l).
Proof. intros E. unfold rope_text. by rewrite E, chunks_text_app, length_app. Qed.

Lemma chunk_pos p x l : rope_chunks r = p ++ x :: l → 0 < length (ctext x).
Proof.
  intros E. destruct Hr as (_ & _ & [Hne _]). rewrite E in Hne. apply Forall_app in Hne as [_ [Hx _]%Forall_cons].
  unfold chunk_nonempty in Hx. destruct (ctext x); [done|simpl; lia].
Qed.

(** [passed bias n k]: a search for [k] goes past the offset [n]. *)
Definition passed (bias : Bias) (n k : nat) : Prop := match bias with Left => n < k | Right => n ≤ k end.

Lemma past_iff_passed bias (k : nat) l :
  valid l → target_past k bias (measure (D := outcome nat) l) = true ↔ passed bias (length (chunks_text l)) k.
Proof.
  intros Hv. rewrite target_past_text by done. unfold past_text, cmp, nat_ord. cbn [td_of usize_text_laws].
  destruct (Nat.compare_spec k (length (chunks_text l))), bias; cbn [passed]; split; try done; lia.
Qed.

(** What a search finds: the chunk in which it stops. *)
Definition placed (bias : Bias) (k : nat) (p l : list Chunk) : Prop :=
  (p = [] ∨ passed bias (length (chunks_text p)) k) ∧
  (∀ x, head l = Some x → ¬ passed bias (length (chunks_text p) + length (ctext x)) k).

Lemma seek_placed c p l k bias :
  seekable_at (chunks r) c p l → length (chunks_text p) ≤ k → (p = [] ∨ passed bias (length (chunks_text p)) k) →
  returns (seek_forward c k bias) (λ '(_, c'), ∃ p' l', at_split r c' p' l' ∧ placed bias k p' l').
Proof.
  intros Hc Hk Hp. pose proof Hr as (Hw & Hv & _).
  assert (Hvpl : valid (p ++ l) ∧ p ++ l = rope_chunks r).
  { destruct Hc as [Hc|(_ & -> & ->)]; [|done]. apply (at_split_items r Hr) in Hc as [-> Hc]. done. }
  destruct Hvpl as [Hvpl Epl]. pose proof (valid_l _ _ Hvpl) as Hvp.
  eapply returns_mono.
  - apply (seek_forward_spec (chunks r) Hw Hv Hh k bias); [|exact Hc|by apply ge_usize].
    apply text_monotone_target; [done|apply key_monotone, (proj2 Hv)].
  - intros [b c']. destruct (advance (target_past (D := outcome nat) k bias) p l) as [p' l'] eqn:Ea.
    intros [Hc' _]. exists p', l'. split; [done|]. pose proof (at_split_items r Hr _ _ _ Hc') as [_ Hv'].
    assert (Hvp' : valid p') by (by eapply valid_l).
    destruct (advance_split (D := nat) k bias p l p' l' Hvpl Ea) as (_ & H1 & H2). split.
    + destruct H1 as [->|H1]; [done|right]. apply (past_iff_passed bias); [done|]. by rewrite target_past_text.
    + intros x Hx. destruct l' as [|y l']; [done|]. injection Hx as ->.
      assert (Hvx : valid (p' ++ [x])) by (rewrite cons_middle, app_assoc in Hv'; by eapply valid_l).
      specialize (H2 x eq_refl). rewrite <-target_past_text in H2 by done.
      rewrite <-(length_app (chunks_text p')), <-chunks_text_single, <-chunks_text_app, <-past_iff_passed by done.
      by rewrite H2.
Qed.

Lemma seek_anywhere c k bias :
  c_tree c = chunks r →
  returns (seek c k bias) (λ '(_, c'), ∃ p' l', at_split r c' p' l' ∧ placed bias k p' l').
Proof.
  intros Hc. unfold seek. destruct (seek_placed (cursor_new (chunks r)) [] (rope_chunks r) k bias) as ([b c'] & E & H);
    [apply seekable_new|simpl; lia|by left|].
  exists (b, c'). split; [|done]. unfold reset. rewrite Hc. exact E.
Qed.

(** ** The state of [Chunks] *)

(** The cursor is at the chunk that the bias of the direction finds; going
    back it may be before the first chunk. *)
Definition direction (reversed : bool) : Bias := if reversed then Left else Right.
Definition cursor_placed (c : chunk_cursor) (reversed : bool) (k : nat) : Prop :=
  (∃ p l, at_split r c p l ∧ placed (direction reversed) k p l) ∨
  (reversed = true ∧ k = 0 ∧ before_begin (chunks r) c ∧ c_did_seek c = true).

Definition chunks_at (ch : Chunks) (a b k : nat) (reversed : bool) : Prop :=
  ck_range ch = (a, b) ∧ ck_offset ch = k ∧ ck_reversed ch = reversed ∧ cursor_placed (ck_chunks ch) reversed k.

Lemma before_begin_reads c :
  before_begin (chunks r) c → c_did_seek c = true → chunk_start c = Ret 0 ∧ chunk_end c = Ret 0 ∧ item c = Ret None.
Proof.
  intros (_ & Hs & Hp & _) Hd.
  unfold chunk_start, chunk_end, start, end_, item, item_summary, assert_did_seek. by rewrite Hd, Hs, Hp.
Qed.

Lemma placed_tree c reversed k : cursor_placed c reversed k → c_tree c = chunks r.
Proof. intros [(p & l & (Ht & _) & _)|(_ & _ & (Ht & _) & _)]; done. Qed.

(** A search within the text stops at a chunk around the offset. *)
Definition inside (bias : Bias) (k : nat) (p : list Chunk) (x : Chunk) : Prop :=
  match bias with
  | Right => length (chunks_text p) ≤ k < length (chunks_text p) + length (ctext x)
  | Left => length (chunks_text p) < k ≤ length (chunks_text p) + length (ctext x)
  end.

Lemma placed_inside bias k p l :
  rope_chunks r = p ++ l → placed bias k p l → (match bias with Right => k < length T | Left => 0 < k ≤ length T end) →
  ∃ x l', l = x :: l' ∧ inside bias k p x.
Proof.
  intros E [Hp Hx] Hk. rewrite (T_length _ _ E) in Hk. destruct l as [|x l].
  - exfalso. simpl in Hk. destruct Hp as [->|Hp]; [simpl in Hk; destruct bias; lia|]. destruct bias; cbn in Hp; lia.
  - exists x, l. split; [done|]. specialize (Hx x eq_refl).
    destruct Hp as [->|Hp]; destruct bias; cbn in *; lia.
Qed.

Lemma inside_placed bias k p x l : rope_chunks r = p ++ x :: l → inside bias k p x → placed bias k p (x :: l).
Proof.
  intros _ Hk. split; [right; destruct bias; cbn in *; lia|]. intros y [= <-]. destruct bias; cbn in *; lia.
Qed.

Lemma chunks_new_spec debug a b reversed :
  a ≤ b ≤ length T → str_is_char_boundary T a = true → str_is_char_boundary T b = true →
  returns (chunks_new debug r (a, b) reversed) (λ ch, chunks_at ch a b (if reversed then b else a) reversed).
Proof.
  intros Hab Ha Hb. unfold chunks_new. cbn [fst snd].
  set (k := if reversed then b else a).
  assert (Hk : str_is_char_boundary T k = true) by (by destruct reversed).
  assert (Hs : ∃ bo c p l, seek (cursor_new (chunks r)) k (direction reversed) = Ret (bo, c) ∧ at_split r c p l ∧
    placed (direction reversed) k p l).
  { destruct (seek_anywhere (cursor_new (chunks r)) k (direction reversed) eq_refl) as ([bo c] & E & p & l & H).
    by exists bo, c, p, l. }
  destruct Hs as (bo & c & p & l & Es & Hc & Hpl).
  destruct (at_split_reads r Hr Hh _ _ _ Hc) as (E1 & E2 & _). destruct (at_split_items r Hr _ _ _ Hc) as [Ei _].
  assert (Hle : length (chunks_text p) ≤ k).
  { destruct Hpl as [[->|Hp] _]; [simpl; lia|]. destruct reversed; cbn in Hp; lia. }
  assert (Hok : (let* i := item c in match i with
      | Some chunk => chunk_assert_char_boundary debug true chunk (k - length (chunks_text p))
      | None => Ret true end) = Ret true).
  { rewrite E2. destruct l as [|x l]; [done|]. cbn [head]. unfold chunk_assert_char_boundary.
    pose proof Hr as (_ & [Hok _] & _). rewrite Ei in Hok. apply Forall_app in Hok as [_ [(Ex & Hu & Hlen) _]%Forall_cons].
    rewrite Ex, chunk_boundary_spec by done. cbn [ctext chunk_of]. rewrite (chunk_boundary_at r Hr p x l), Hk; [done..|].
    split; [done|]. destruct Hpl as [_ Hx]. specialize (Hx x eq_refl). destruct reversed; cbn in Hx; lia. }
  assert (Hst : chunks_at (MkChunks c (a, b) k reversed) a b k reversed)
    by (split_and!; [done..|left; by exists p, l]).
  rewrite E2 in Hok. subst k.
  destruct reversed; cbn [direction] in Es; rewrite Es; cbn beta iota; rewrite E1; cbn beta iota;
    rewrite usize_sub_ok by done; cbn beta iota; rewrite E2; cbn beta iota; rewrite Hok; by apply returns_Ret.
Qed.

(** ** Pieces *)
Lemma piece_slice p x l lo hi :
  rope_chunks r = p ++ x :: l → length (chunks_text p) ≤ lo ≤ hi → hi ≤ length (chunks_text p) + length (ctext x) →
  str_is_char_boundary T lo = true → str_is_char_boundary T hi = true →
  str_slice (ctext x) (lo - length (chunks_text p)) (hi - length (chunks_text p)) = Ret (part r lo hi).
Proof.
  intros Ei Hlo Hhi Hbl Hbh. unfold str_slice, part. rewrite !(chunk_boundary_at r Hr p x l), Hbl, Hbh by (done || lia).
  destruct (Nat.leb_spec (lo - length (chunks_text p)) (hi - length (chunks_text p))); [|lia]. cbn [andb].
  rewrite (text_window r p x l) by (done || lia). do 2 f_equal. lia.
Qed.

(** The range and the offset of an iterator in the text. *)
Definition in_range (a b k : nat) : Prop :=
  a ≤ k ≤ b ∧ b ≤ length T ∧ str_is_char_boundary T a = true ∧ str_is_char_boundary T b = true ∧
  str_is_char_boundary T k = true.

(** The offset after the next piece: the end of the chunk or of the range. *)
Definition next_offset (p : list Chunk) (x : Chunk) (a b : nat) (reversed : bool) : nat :=
  if reversed then Nat.max (length (chunks_text p)) a else Nat.min (length (chunks_text p) + length (ctext x)) b.

Lemma next_offset_bounds p x l a b k reversed :
  rope_chunks r = p ++ x :: l → inside (direction reversed) k p x → in_range a b k →
  (if reversed then a < k else k < b) →
  let m := next_offset p x a b reversed in
  (if reversed then a ≤ m < k else k < m ≤ b) ∧ in_range a b m ∧
  length (chunks_text p) ≤ m ≤ length (chunks_text p) + length (ctext x).
Proof.
  intros Ei Hin (Hk & Hb & Ba & Bb & Bk) Hlt.
  pose proof (chunk_start_boundary r Hr p _ Ei) as B1. pose proof (chunk_end_boundary r Hr p x l Ei) as B2.
  unfold next_offset. cbn zeta. destruct reversed; cbn in Hin.
  - split_and!; [lia|lia| |lia|lia]. split_and!; [lia|lia|done|done|done|].
    by destruct (Nat.max_spec (length (chunks_text p)) a) as [[_ ->]|[_ ->]].
  - split_and!; [lia|lia| |lia|lia]. split_and!; [lia|lia|done|done|done|].
    by destruct (Nat.min_spec (length (chunks_text p) + length (ctext x)) b) as [[_ ->]|[_ ->]].
Qed.

(** Where [chunks_at] stands, while there is more to read. *)
Lemma chunks_at_inside ch a b k reversed :
  chunks_at ch a b k reversed → in_range a b k → (if reversed then a < k else k < b) →
  ∃ p x l, at_split r (ck_chunks ch) p (x :: l) ∧ inside (direction reversed) k p x.
Proof.
  intros (_ & _ & _ & Hc) (Hk & Hb & _) Hlt. destruct Hc as [(p & l & Hc & Hpl)|(-> & -> & _)]; [|lia].
  pose proof (at_split_items r Hr _ _ _ Hc) as [Ei _].
  destruct (placed_inside _ k p l Ei Hpl) as (x & l' & -> & Hin); [destruct reversed; cbn; lia|]. by exists p, x, l'.
Qed.

Lemma offset_valid_at ch a b k reversed :
  chunks_at ch a b k reversed → in_range a b k → offset_is_valid ch = if reversed then a <? k else k <? b.
Proof.
  intros (Er & Eo & Ev & _) (Hk & _). unfold offset_is_valid. rewrite Er, Eo, Ev. cbn [fst snd].
  destruct reversed, (Nat.leb_spec k a), (Nat.ltb_spec b k), (Nat.ltb_spec a k), (Nat.ltb_spec k a), (Nat.leb_spec b k),
    (Nat.ltb_spec k b); (done || lia).
Qed.

Lemma peek_range_at ch a b k reversed p x l :
  chunks_at ch a b k reversed → in_range a b k → (if reversed then a < k else k < b) →
  at_split r (ck_chunks ch) p (x :: l) → inside (direction reversed) k p x →
  let m := next_offset p x a b reversed in
  let lo := if reversed then m else k in
  let hi := if reversed then k else m in
  peek_range ch = Ret (lo - length (chunks_text p), hi - length (chunks_text p)) ∧
  str_slice (ctext x) (lo - length (chunks_text p)) (hi - length (chunks_text p)) = Ret (part r lo hi) ∧
  length (part r lo hi) = hi - lo ∧ lo < hi.
Proof.
  intros (Er & Eo & Ev & _) Hr' Hlt Hc Hin. pose proof (at_split_items r Hr _ _ _ Hc) as [Ei _].
  destruct (at_split_reads r Hr Hh _ _ _ Hc) as (E1 & _ & E3).
  destruct (next_offset_bounds p x l a b k reversed Ei Hin Hr' Hlt) as (Hm & (_ & Hbl & _ & _ & Bm) & Hm').
  pose proof Hr' as (Hk & _ & _ & _ & Bk). cbn zeta.
  assert (Hlen : ∀ lo hi, lo ≤ hi → hi ≤ length T → length (part r lo hi) = hi - lo).
  { intros lo hi ? ?. unfold part. rewrite length_take, length_drop. lia. }
  unfold peek_range. rewrite E1, Er, Eo, Ev. cbn [fst snd]. destruct reversed; cbn in Hin.
  - split_and!; [|apply (piece_slice p x l); (done || lia)|apply Hlen; lia|lia].
    cbn beta iota. rewrite !usize_sub_ok by lia. done.
  - split_and!; [|apply (piece_slice p x l); (done || lia)|apply Hlen; lia|lia].
    rewrite E3. cbn beta iota. rewrite usize_sub_ok by lia. cbn beta iota. rewrite usize_sub_ok by lia. done.
Qed.

(** Going back a chunk. *)
Lemma prev_placed c p l :
  at_split r c p l → returns (prev c) (λ c', cursor_placed c' true (length (chunks_text p))).
Proof.
  intros Hc. pose proof Hr as (Hw & Hv & _). pose proof (at_split_items r Hr _ _ _ Hc) as [Ei _].
  eapply returns_mono; [by apply prev_at|]. intros c'. unfold stepped_back.
  destruct (nil_or_snoc p) as [->|(q & y & ->)].
  - intros [Hb Hd]. right. done.
  - rewrite last_snoc, removelast_last. intros Hc'. left. exists q, (y :: l). split; [done|].
    rewrite <-app_assoc in Ei. apply inside_placed; [done|]. pose proof (chunk_pos _ _ _ Ei).
    cbn. rewrite chunks_text_app, chunks_text_single, length_app. lia.
Qed.
Lemma next_placed c p x l :
  at_split r c p (x :: l) →
  returns (next c) (λ c', cursor_placed c' false (length (chunks_text p) + length (ctext x))).
Proof.
  intros Hc. pose proof Hr as (Hw & Hv & _). pose proof (at_split_items r Hr _ _ _ Hc) as [Ei _].
  eapply returns_mono; [by apply next_at|]. cbn [take drop]. intros c' Hc'. left. exists (p ++ [x]), l. split; [done|].
  rewrite cons_middle, app_assoc in Ei.
  split; [right; cbn; rewrite chunks_text_app, chunks_text_single, length_app; lia|].
  intros y Hy. destruct l as [|z l]; [done|]. injection Hy as ->. pose proof (chunk_pos _ _ _ Ei).
  cbn. rewrite chunks_text_app, chunks_text_single, length_app. lia.
Qed.

Lemma chunks_advance_spec ch a b k reversed p x l :
  chunks_at ch a b k reversed → in_range a b k → (if reversed then a < k else k < b) →
  at_split r (ck_chunks ch) p (x :: l) → inside (direction reversed) k p x →
  let m := next_offset p x a b reversed in
  returns (chunks_advance ch (if reversed then k - m else m - k)) (λ ch', chunks_at ch' a b m reversed).
Proof.
  intros (Er & Eo & Ev & _) Hr' Hlt Hc Hin. pose proof (at_split_items r Hr _ _ _ Hc) as [Ei _].
  destruct (at_split_reads r Hr Hh _ _ _ Hc) as (E1 & _ & E3).
  destruct (next_offset_bounds p x l a b k reversed Ei Hin Hr' Hlt) as (Hm & (_ & Hbl & _ & _ & Bm) & Hm').
  cbn zeta. pose proof (small_usize _ (proj2 (rope_utf8 r Hr))) as Hu.
  unfold chunks_advance. rewrite Ev, Eo, Er. destruct reversed; cbn in Hin.
  - rewrite usize_sub_ok by lia. cbn beta iota. rewrite E1. cbn beta iota.
    replace (k - (k - next_offset p x a b true)) with (next_offset p x a b true) by lia.
    destruct (Nat.leb_spec (next_offset p x a b true) (length (chunks_text p))) as [Hle|Hgt].
    + destruct (prev_placed _ _ _ Hc) as (c' & -> & Hc'). apply returns_Ret.
      replace (length (chunks_text p)) with (next_offset p x a b true) in Hc' by lia. done.
    + apply returns_Ret. split_and!; [done..|]. left. exists p, (x :: l). split; [done|]. apply inside_placed; [done|]. cbn [inside direction]. lia.
  - rewrite usize_add_ok by lia. cbn beta iota. rewrite E3. cbn beta iota.
    replace (k + (next_offset p x a b false - k)) with (next_offset p x a b false) by lia.
    destruct (Nat.leb_spec (length (chunks_text p) + length (ctext x)) (next_offset p x a b false)) as [Hle|Hgt].
    + destruct (next_placed _ _ _ _ Hc) as (c' & -> & Hc'). apply returns_Ret.
      replace (length (chunks_text p) + length (ctext x)) with (next_offset p x a b false) in Hc' by lia. done.
    + apply returns_Ret. split_and!; [done..|]. left. exists p, (x :: l). split; [done|]. apply inside_placed; [done|]. cbn [inside direction]. lia.
Qed.

(** ** The pieces of a range *)

(** [m] is where the next piece from [k] ends; it is the text between. *)
Definition piece (k m : nat) (reversed : bool) : list N := if reversed then part r m k else part r k m.
Definition step_to (a b k m : nat) (reversed : bool) : Prop :=
  (if reversed then a ≤ m < k else k < m ≤ b) ∧ in_range a b m.

Lemma chunks_peek_done ch a b k reversed :
  chunks_at ch a b k reversed → in_range a b k → k = (if reversed then a else b) → chunks_peek ch = Ret None.
Proof.
  intros Hc Hk E. unfold chunks_peek. rewrite (offset_valid_at _ _ _ _ _ Hc Hk).
  by replace (if reversed then a <? k else k <? b) with false by (destruct reversed; symmetry; apply Nat.ltb_ge; lia).
Qed.

Lemma chunks_peek_at ch a b k reversed p x l :
  chunks_at ch a b k reversed → in_range a b k → (if reversed then a < k else k < b) →
  at_split r (ck_chunks ch) p (x :: l) → inside (direction reversed) k p x →
  chunks_peek ch = Ret (Some (piece k (next_offset p x a b reversed) reversed)).
Proof.
  intros Hc Hk Hlt Hs Hin. destruct (peek_range_at _ _ _ _ _ _ _ _ Hc Hk Hlt Hs Hin) as (Ep & Es & _).
  destruct (at_split_reads r Hr Hh _ _ _ Hs) as (_ & E2 & _). unfold chunks_peek. rewrite (offset_valid_at _ _ _ _ _ Hc Hk).
  replace (if reversed then a <? k else k <? b) with true by (destruct reversed; symmetry; apply Nat.ltb_lt; lia).
  cbn [negb]. rewrite E2. cbn [head]. rewrite Ep. cbn beta iota. rewrite Es. by destruct reversed.
Qed.

Lemma chunks_peek_more ch a b k reversed :
  chunks_at ch a b k reversed → in_range a b k → k ≠ (if reversed then a else b) →
  ∃ m, step_to a b k m reversed ∧ chunks_peek ch = Ret (Some (piece k m reversed)) ∧
    returns (chunks_advance ch (length (piece k m reversed))) (λ ch', chunks_at ch' a b m reversed).
Proof.
  intros Hc Hk Hne. pose proof Hk as (Hab & _).
  assert (Hlt : if reversed then a < k else k < b) by (destruct reversed; lia).
  destruct (chunks_at_inside _ _ _ _ _ Hc Hk Hlt) as (p & x & l & Hs & Hin).
  pose proof (at_split_items r Hr _ _ _ Hs) as [Ei _].
  destruct (next_offset_bounds p x l a b k reversed Ei Hin Hk Hlt) as (Hm & Hrm & _).
  destruct (peek_range_at _ _ _ _ _ _ _ _ Hc Hk Hlt Hs Hin) as (_ & _ & El & _).
  pose proof (chunks_advance_spec _ _ _ _ _ _ _ _ Hc Hk Hlt Hs Hin) as Ha. cbn zeta in *.
  exists (next_offset p x a b reversed). split; [done|]. split; [by apply (chunks_peek_at _ _ _ _ _ p x l)|].
  unfold piece. by destruct reversed; rewrite El.
Qed.

Lemma chunks_next_done ch a b k reversed :
  chunks_at ch a b k reversed → in_range a b k → k = (if reversed then a else b) → chunks_next ch = Ret (None, ch).
Proof. intros Hc Hk E. unfold chunks_next. by rewrite (chunks_peek_done _ _ _ _ _ Hc Hk E). Qed.

Lemma chunks_next_more ch a b k reversed :
  chunks_at ch a b k reversed → in_range a b k → k ≠ (if reversed then a else b) →
  ∃ m ch', step_to a b k m reversed ∧ chunks_next ch = Ret (Some (piece k m reversed), ch') ∧ chunks_at ch' a b m reversed.
Proof.
  intros Hc Hk E. destruct (chunks_peek_more _ _ _ _ _ Hc Hk E) as (m & Hm & Ep & ch' & Ea & Hch').
  exists m, ch'. split; [done|]. split; [|done]. unfold chunks_next. rewrite Ep. cbn beta iota. by rewrite Ea.
Qed.

(** What is left to read. *)
Definition left_to_read (a b k : nat) (reversed : bool) : nat := if reversed then k - a else b - k.

Lemma part_utf8 a b lo hi : in_range a b lo → in_range a b hi → lo ≤ hi → utf8 (part r lo hi).
Proof.
  intros (_ & _ & _ & _ & Hlo) (_ & Hb & _ & _ & Hhi) Hle. destruct (rope_utf8 r Hr) as [Hu _]. unfold part.
  destruct (utf8_split _ _ Hu Hlo) as (_ & Hd & _). apply utf8_split; [done|].
  rewrite <-(take_drop lo T) in Hhi. destruct (utf8_split _ _ Hu Hlo) as (_ & _ & Hll).
  replace hi with (length (take lo T) + (hi - lo)) in Hhi by (rewrite length_take; lia).
  by rewrite str_boundary_app in Hhi.
Qed.

(** Collecting the pieces of a range yields its text, none empty. *)
Lemma chunks_collect_spec ch a b (reversed : bool) :
  chunks_at ch a b (if reversed then b else a) reversed → in_range a b a → a ≤ b →
  returns (chunks_collect ch) (λ ps,
    concat (if reversed then reverse ps else ps) = part r a b ∧ Forall (λ s : list N, s ≠ []) ps).
Proof.
  intros Hch Ha Hab. unfold chunks_collect.
  assert (Hb : in_range a b b) by (destruct Ha as (? & ? & ? & ? & ?); by split_and!).
  apply (loop_returns _ (λ st : Chunks * list (list N), let '(c, acc) := st in ∃ k, chunks_at c a b k reversed ∧ in_range a b k ∧ Forall (λ s : list N, s ≠ []) acc ∧
      (if reversed then concat (reverse acc) = part r k b else concat acc = part r a k) ∧
      left_to_read a b k reversed = left_to_read a b (ck_offset c) reversed)
    (λ st, left_to_read a b (ck_offset st.1) reversed)).
  - intros [c acc] (k & Hc & Hk & Hne & Hacc & _). pose proof Hc as (_ & Eo & _).
    destruct (Nat.eq_dec k (if reversed then a else b)) as [E|E].
    + right. exists acc. rewrite (chunks_next_done _ _ _ _ _ Hc Hk E). split; [done|]. split; [|done].
      by destruct reversed; rewrite E in Hacc.
    + left. destruct (chunks_next_more _ _ _ _ _ Hc Hk E) as (m & c' & (Hm & Hrm) & En & Hc').
      exists (c', acc ++ [piece k m reversed]). rewrite En. split; [done|]. pose proof Hc' as (_ & Eo' & _).
      pose proof Hk as (Hk1 & Hk2 & _). pose proof Hrm as (Hm1 & _).
      split; [|cbn [fst]; rewrite Eo, Eo'; destruct reversed; cbn; lia].
      exists m. split_and!; [done|done| | |by rewrite Eo'].
      * apply Forall_app. split; [done|]. constructor; [|done]. intros En'%(f_equal length).
        unfold piece in En'. destruct reversed; rewrite part_length in En' by lia; simpl in En'; lia.
      * unfold piece. destruct reversed.
        -- rewrite reverse_app. cbn. rewrite Hacc. apply part_join; lia.
        -- rewrite concat_app, Hacc. cbn. rewrite app_nil_r. apply part_join; lia.
  - pose proof Hch as (_ & Eo & _). eexists. split_and!; [done|by destruct reversed|done| |by rewrite Eo].
    destruct reversed; by rewrite part_nil.
  - pose proof Hch as (Er & Eo & _). unfold chunks_fuel. cbn [fst]. rewrite Er, Eo. destruct reversed; cbn; lia.
Qed.
End Places.
