(* ===== verification/RopeCompare.v ===== *)
(** * Comparing ropes with strings *)
From stdpp Require Import base numbers option list.
From Stdlib Require Import Lia.
From S2P Require Import Prelude SumTree SumTreeFacts SumTreeBulk Cursor CursorFacts CursorSeek.
From S2P Require Import Bits Utf8 Point Chunk ChunkFacts ChunkMeasures TextSummary ChunkPoints ChunkPointsFacts.
From S2P Require Import RopeTree Rope RopeBuild RopeSlice RopePoints RopeChunks RopeChunksFacts.
#[local] Opaque TREE_BASE av_cap.

(** ** Slices at the ends of what has been matched *)
Lemma slice_after s k : utf8 s → utf8 (take k s) → k ≤ length s → str_slice s k (length s) = Ret (drop k s).
Proof.
  intros Hu Hk Hle. unfold str_slice. rewrite str_boundary_end.
  assert (E : str_is_char_boundary s k = true).
  { rewrite <-(take_drop k s). replace k with (length (take k s)) at 3 by (rewrite length_take; lia).
    apply utf8_prefix_boundary; [done|]. by rewrite take_drop. }
  rewrite E. destruct (Nat.leb_spec k (length s)); [|lia]. cbn [andb]. by rewrite take_ge by (rewrite length_drop; lia).
Qed.
Lemma slice_before s k : utf8 (drop k s) → k ≤ length s → str_slice s 0 k = Ret (take k s).
Proof.
  intros Hk Hle. unfold str_slice.
  assert (E : str_is_char_boundary s k = true).
  { rewrite <-(take_drop k s). replace k with (length (take k s) + 0) at 3 by (rewrite length_take; lia).
    by rewrite str_boundary_app. }
  rewrite E. cbn [Nat.leb andb]. by rewrite Nat.sub_0_r, drop_0.
Qed.

Lemma starts_with_app s t : str_starts_with (t ++ s) t = true.
Proof. unfold str_starts_with. apply bool_decide_eq_true. by rewrite take_app_length. Qed.
Lemma starts_with_split s t : str_starts_with s t = true → s = t ++ drop (length t) s.
Proof. unfold str_starts_with. intros E%bool_decide_eq_true. rewrite <-E at 1. by rewrite take_drop. Qed.
Lemma ends_with_app s t : str_ends_with (s ++ t) t = true.
Proof.
  unfold str_ends_with. rewrite length_app. destruct (Nat.leb_spec (length t) (length s + length t)); [|lia]. cbn [andb].
  apply bool_decide_eq_true. replace (length s + length t - length t) with (length s) by lia. by rewrite drop_app_length.
Qed.
Lemma ends_with_split s t :
  str_ends_with s t = true → s = take (length s - length t) s ++ t ∧ length t ≤ length s.
Proof.
  unfold str_ends_with. intros [E1%Nat.leb_le E2%bool_decide_eq_true]%andb_true_iff. split; [|done].
  rewrite <-E2 at 2. by rewrite take_drop.
Qed.

Section Compare.
Context (r : Rope).
Hypothesis Hr : rope_wf r.
Hypothesis Hh : height (chunks r) < STACK_CAP.
Abbreviation T := (rope_text r).

Section Equals.
Context (a b : nat) (other : list N).
Hypothesis Hab : a ≤ b.
Hypothesis Ha : in_range r a b a.
Hypothesis Hother : utf8 other.

Lemma range_end : in_range r a b b.
Proof. destruct Ha as (? & ? & ? & ? & ?). by split_and!. Qed.

Lemma part_from k : in_range r a b k → part r a b = part r a k ++ part r k b.
Proof. intros (Hk & Hb & _). symmetry. apply part_join; [done..|lia|lia]. Qed.

Lemma equals_forward_spec ch :
  chunks_at r ch a b a false → returns (equals_str ch other) (λ e, e = bool_decide (other = part r a b)).
Proof.
  intros Hch. unfold equals_str. pose proof Hch as (Er & Eo & Ev & _). rewrite Ev.
  pose proof (small_usize _ (proj2 (rope_utf8 r Hr))) as Hu. pose proof Ha as (_ & Hbl & _).
  apply (loop_returns _ (λ st : Chunks * nat, let '(c, offset) := st in ∃ k, chunks_at r c a b k false ∧ in_range r a b k ∧
      k = a + offset ∧ take offset other = part r a k ∧ offset ≤ length other) (λ st, b - a - st.2)).
  - intros [c offset] (k & Hc & Hk & Ek & Et & Hle). pose proof Hk as (Hk1 & _).
    pose proof (part_length r a k ltac:(lia)) as Hpl.
    destruct (Nat.eq_dec k b) as [Eb|Hne].
    + right. eexists. rewrite (chunks_next_done r Hh _ _ _ _ _ Hc Hk Eb). split; [done|]. subst k.
      destruct (Nat.eqb_spec offset (length other)) as [El|Hl]; symmetry.
      * apply bool_decide_eq_true. rewrite <-Eb, <-Et, El. by rewrite take_ge.
      * apply bool_decide_eq_false. intros E%(f_equal length). rewrite part_length in E by lia. lia.
    + destruct (chunks_next_more r Hr Hh _ _ _ _ _ Hc Hk Hne) as (m & c' & (Hm & Hrm) & En & Hc'). rewrite En. cbn beta iota.
      pose proof (part_length r k m ltac:(lia)) as Hpm. cbn [piece].
      destruct (Nat.leb_spec (length other) offset) as [Hl|Hl].
      { right. eexists. split; [done|]. symmetry. apply bool_decide_eq_false. intros E%(f_equal length).
        rewrite part_length in E by lia. lia. }
      rewrite slice_after; [|done|rewrite Et; apply (part_utf8 r Hr Hh a b); [done..|lia]|lia]. cbn beta iota.
      destruct (str_starts_with (drop offset other) (part r k m)) eqn:Es.
      * left. apply starts_with_split in Es. rewrite drop_drop in Es.
        pose proof (f_equal length Es) as El. rewrite length_app, !length_drop, Hpm in El.
        exists (c', offset + length (part r k m)). rewrite usize_add_ok by lia. split; [done|]. cbn [snd].
        split; [|lia]. exists m. split_and!; [done|done|lia| |lia].
        rewrite Hpm, <-take_take_drop, Et, Es, take_app_length' by done. apply part_join; lia.
      * right. eexists. split; [done|]. symmetry. apply bool_decide_eq_false. intros E.
        rewrite E, (part_from k Hk), drop_app_length' in Es by lia.
        rewrite <-(part_join r k m b) in Es by lia. by rewrite starts_with_app in Es.
  - exists a. split_and!; [done..|lia|by rewrite part_nil|lia].
  - unfold chunks_fuel. rewrite Er. cbn [fst snd]. lia.
Qed.

Lemma equals_backward_spec ch :
  chunks_at r ch a b b true → returns (equals_str ch other) (λ e, e = bool_decide (other = part r a b)).
Proof.
  intros Hch. unfold equals_str. pose proof Hch as (Er & Eo & Ev & _). rewrite Ev. pose proof Ha as (_ & Hbl & _).
  apply (loop_returns _ (λ st : Chunks * nat, let '(c, offset) := st in ∃ k, chunks_at r c a b k true ∧ in_range r a b k ∧
      length other - offset = b - k ∧ drop offset other = part r k b ∧ offset ≤ length other)
      (λ st, ck_offset st.1 - a)).
  - intros [c offset] (k & Hc & Hk & Ek & Et & Hle). pose proof Hk as (Hk1 & _). pose proof Hc as (_ & Eoc & _).
    destruct (Nat.eq_dec k a) as [Eb|Hne].
    + right. eexists. rewrite (chunks_next_done r Hh _ _ _ _ _ Hc Hk Eb). split; [done|]. rewrite Eb in Et.
      destruct (Nat.eqb_spec offset 0) as [->|Hl]; symmetry; [by apply bool_decide_eq_true|].
      apply bool_decide_eq_false. intros E%(f_equal length). rewrite part_length in E by lia. lia.
    + destruct (chunks_next_more r Hr Hh _ _ _ _ _ Hc Hk Hne) as (m & c' & (Hm & Hrm) & En & Hc'). rewrite En. cbn beta iota.
      pose proof (part_length r m k ltac:(lia)) as Hpm. cbn [piece]. pose proof Hc' as (_ & Eoc' & _).
      rewrite slice_before; [|rewrite Et; apply (part_utf8 r Hr Hh a b); [done|by apply range_end|lia]|lia]. cbn beta iota.
      destruct (str_ends_with (take offset other) (part r m k)) eqn:Es.
      * left. apply ends_with_split in Es as [Es El]. rewrite length_take, Nat.min_l in Es, El by lia.
        exists (c', offset - length (part r m k)). rewrite usize_sub_ok by lia. split; [done|]. cbn [fst].
        split; [|lia]. exists m. rewrite Hpm in *. split_and!; [done|done|lia| |lia].
        rewrite <-(take_drop offset other), Et, Es at 1. rewrite take_take, Nat.min_l, <-app_assoc by lia.
        rewrite drop_app_length' by (rewrite length_take; lia). apply part_join; lia.
      * right. eexists. split; [done|]. symmetry. apply bool_decide_eq_false. intros E.
        assert (Eo' : offset = k - a).
        { apply (f_equal length) in E. rewrite part_length in E by lia. lia. }
        rewrite E, (part_from k Hk), take_app_length' in Es by (rewrite part_length by lia; lia).
        rewrite <-(part_join r a m k) in Es by lia. by rewrite ends_with_app in Es.
  - exists b. pose proof range_end as Hb. split_and!; [done..|lia| |lia]. rewrite drop_ge by lia. by rewrite part_nil.
  - unfold chunks_fuel. rewrite Er. cbn [fst snd]. rewrite Eo. lia.
Qed.
End Equals.

(** ** Prefixes and suffixes *)
Section Pattern.
Context (pattern : list N).
Hypothesis Hpat : utf8 pattern.
Abbreviation L := (length T).

Lemma whole_range : in_range r 0 L 0 ∧ in_range r 0 L L.
Proof. split; split_and!; try lia; by rewrite ?str_boundary_end. Qed.

(** What is left to read, and whether the rest of the pattern matches it. *)
Definition unread (k : nat) (reversed : bool) : list N := if reversed then take k T else drop k T.
Definition rest_matches (k : nat) (rem : list N) (reversed : bool) : bool :=
  if reversed then str_ends_with (take k T) rem else str_starts_with (drop k T) rem.

Lemma matches_spec body debug (reversed : bool) :
  (∀ rem k m, utf8 rem → in_range r 0 L k → step_to r 0 L k m reversed →
    (∃ rem', rem' ≠ [] ∧ body rem (piece r k m reversed) = Ret (inl rem') ∧ utf8 rem' ∧
      rest_matches k rem reversed = rest_matches m rem' reversed) ∨
    body rem (piece r k m reversed) = Ret (inr (rest_matches k rem reversed))) →
  returns (let* c := chunks_new debug r (0, L) reversed in loop (match_step body) (chunks_fuel c) (c, pattern))
    (λ e, e = rest_matches (if reversed then L else 0) pattern reversed).
Proof.
  intros Hbody. destruct whole_range as [H0 HL].
  destruct (chunks_new_spec r Hr Hh debug 0 L reversed) as (ch & -> & Hch); [lia|done|by apply str_boundary_end|].
  pose proof Hch as (Er & Eo & _).
  apply (loop_returns _ (λ st : Chunks * list N, let '(c, rem) := st in ∃ k, chunks_at r c 0 L k reversed ∧ in_range r 0 L k ∧
      utf8 rem ∧ rest_matches k rem reversed = rest_matches (if reversed then L else 0) pattern reversed)
      (λ st, left_to_read 0 L (ck_offset st.1) reversed)).
  - intros [c rem] (k & Hc & Hk & Hrem & Em). pose proof Hk as (Hk1 & _). pose proof Hc as (_ & Eoc & _).
    unfold match_step. destruct (Nat.eq_dec k (if reversed then 0 else L)) as [Eb|Hne].
    + right. eexists. rewrite (chunks_next_done r Hh _ _ _ _ _ Hc Hk Eb). split; [done|]. rewrite <-Em.
      unfold rest_matches, str_ends_with, str_starts_with. destruct reversed; rewrite Eb.
      * rewrite take_0. cbn [length drop]. by destruct rem.
      * rewrite drop_ge by lia. rewrite take_nil. by destruct rem.
    + destruct (chunks_next_more r Hr Hh _ _ _ _ _ Hc Hk Hne) as (m & c' & Hm & En & Hc'). rewrite En. cbn beta iota.
      pose proof Hc' as (_ & Eoc' & _). pose proof Hm as [Hm1 Hrm].
      destruct (Hbody rem k m Hrem Hk Hm) as [(rem' & _ & -> & Hu & E)| ->].
      * left. eexists (c', rem'). split; [done|]. cbn [fst]. split; [|rewrite Eoc, Eoc'; destruct reversed; cbn; lia].
        exists m. split_and!; [done..|]. by rewrite <-E.
      * right. eexists. split; [done|]. exact Em.
  - exists (if reversed then L else 0). split_and!; [done|by destruct reversed|done|done].
  - unfold chunks_fuel. rewrite Er. cbn [fst snd]. rewrite Eo. destruct reversed; cbn; lia.
Qed.
End Pattern.
End Compare.

(** ** One piece of the text against the rest of a pattern *)
Lemma starts_with_cancel p s t : str_starts_with (p ++ s) (p ++ t) = str_starts_with s t.
Proof.
  unfold str_starts_with. apply bool_decide_ext. rewrite length_app, take_app_add. split; [by intros ?%app_inv_head|by intros ->].
Qed.
Lemma starts_with_take s t n : str_starts_with s t = true → str_starts_with s (take n t) = true.
Proof. intros ->%starts_with_split. rewrite <-(take_drop n t) at 1. rewrite <-app_assoc. apply starts_with_app. Qed.

Lemma match_front_spec rem s u :
  utf8 rem → utf8 s →
  (∃ rem', rem' ≠ [] ∧ match_front rem s = Ret (inl rem') ∧ utf8 rem' ∧
    str_starts_with (s ++ u) rem = str_starts_with u rem') ∨
  match_front rem s = Ret (inr (str_starts_with (s ++ u) rem)).
Proof.
  intros Hrem Hs. unfold match_front, str_get. set (n := Nat.min (length rem) (length s)).
  cbn [Nat.leb]. replace (str_is_char_boundary s 0) with true by done. cbn [andb]. rewrite Nat.sub_0_r, drop_0.
  assert (Hpre : str_starts_with (s ++ u) rem = true → take n rem = take n s).
  { intros E%(starts_with_take _ _ n)%starts_with_split. apply (f_equal (take n)) in E.
    rewrite take_app_le in E by lia. rewrite take_app_length' in E by (rewrite length_take; lia). done. }
  assert (Hln : length (take n s) = n) by (rewrite length_take; lia).
  destruct (str_is_char_boundary s n) eqn:Bn.
  - destruct (utf8_split _ _ Hs Bn) as (Hun & _ & _). destruct (str_starts_with rem (take n s)) eqn:Es.
    + apply starts_with_split in Es. rewrite Hln in Es.
      assert (Et : take n rem = take n s) by (rewrite Es at 1; by rewrite take_app_length').
      rewrite Hln, slice_after by (done || (rewrite Et; done) || lia). cbn beta iota.
      destruct (Nat.eqb_spec (length (drop n rem)) 0) as [E0|E0].
      * right. do 2 f_equal. symmetry. apply length_zero_iff_nil in E0. rewrite E0, app_nil_r in Es. rewrite Es.
        rewrite <-(take_drop n s) at 1. rewrite <-app_assoc. apply starts_with_app.
      * left. exists (drop n rem). rewrite length_drop in E0. rewrite (take_ge s) in Es by lia. split_and!; [|done| |].
        -- intros E%(f_equal length). rewrite length_drop in E. simpl in E. lia.
        -- apply (utf8_app_r (take n rem)); [by rewrite Et|]. by rewrite take_drop.
        -- rewrite Es at 1. apply starts_with_cancel.
    + right. destruct (str_starts_with (s ++ u) rem) eqn:Ett; [|done]. rewrite <-Hpre in Es by done.
      rewrite <-(take_drop n rem) in Es at 1. by rewrite starts_with_app in Es.
  - right. destruct (str_starts_with (s ++ u) rem) eqn:Ett; [|done]. exfalso. specialize (Hpre eq_refl).
    destruct (Nat.le_gt_cases (length s) (length rem)) as [Hle|Hgt].
    { subst n. rewrite Nat.min_r in Bn by lia. by rewrite str_boundary_end in Bn. }
    subst n. rewrite Nat.min_l in Bn, Hpre by lia. rewrite take_ge in Hpre by lia.
    rewrite <-(take_drop (length rem) s), <-Hpre in Bn.
    rewrite utf8_prefix_boundary in Bn; [done|done|]. rewrite Hpre at 1. by rewrite take_drop.
Qed.

Lemma ends_with_cancel p s t : str_ends_with (s ++ p) (t ++ p) = str_ends_with s t.
Proof.
  destruct (str_ends_with s t) eqn:E.
  - apply ends_with_split in E as [-> _]. rewrite <-app_assoc. apply ends_with_app.
  - destruct (str_ends_with (s ++ p) (t ++ p)) eqn:E'; [|done]. apply ends_with_split in E' as [E' Hl].
    rewrite !length_app in E', Hl. replace (length s + length p - (length t + length p)) with (length s - length t) in E' by lia.
    rewrite take_app_le in E' by lia. rewrite app_assoc in E'. apply app_inv_tail in E'. rewrite E' in E.
    by rewrite ends_with_app in E.
Qed.
Lemma ends_with_drop s t n : str_ends_with s t = true → str_ends_with s (drop n t) = true.
Proof. intros [-> _]%ends_with_split. rewrite <-(take_drop n t) at 2. rewrite app_assoc. apply ends_with_app. Qed.

Lemma match_back_spec rem s u :
  utf8 rem → utf8 s →
  (∃ rem', rem' ≠ [] ∧ match_back rem s = Ret (inl rem') ∧ utf8 rem' ∧
    str_ends_with (u ++ s) rem = str_ends_with u rem') ∨
  match_back rem s = Ret (inr (str_ends_with (u ++ s) rem)).
Proof.
  intros Hrem Hs. unfold match_back, str_get. set (n := Nat.min (length rem) (length s)).
  rewrite str_boundary_end, andb_true_r. destruct (Nat.leb_spec (length s - n) (length s)); [|lia]. cbn [andb].
  rewrite (take_ge (drop _ s)) by (rewrite length_drop; lia). set (tl := drop (length s - n) s).
  assert (Hln : length tl = n) by (subst tl; rewrite length_drop; lia).
  assert (Hsuf : str_ends_with (u ++ s) rem = true → drop (length rem - n) rem = tl).
  { intros E%(ends_with_drop _ _ (length rem - n)). apply ends_with_split in E as [E _]. rewrite length_drop in E.
    replace (length rem - (length rem - n)) with n in E by lia. rewrite <-(take_drop (length s - n) s), app_assoc in E at 1.
    fold tl in E. apply app_inj_2 in E as [_ E]; [done|]. rewrite Hln, length_drop. lia. }
  destruct (str_is_char_boundary s (length s - n)) eqn:Bn.
  - destruct (utf8_split _ _ Hs Bn) as (_ & Hun & _). fold tl in Hun. destruct (str_ends_with rem tl) eqn:Es.
    + apply ends_with_split in Es as [Es Hle]. rewrite Hln in Es |- *.
      assert (Et : drop (length rem - n) rem = tl).
      { rewrite Es at 2. rewrite drop_app_length' by (rewrite length_take; lia). done. }
      rewrite slice_before by (lia || by rewrite Et). cbn beta iota.
      destruct (Nat.eqb_spec (length (take (length rem - n) rem)) 0) as [E0|E0].
      * right. do 2 f_equal. symmetry. apply length_zero_iff_nil in E0. rewrite E0 in Es. rewrite Es.
        rewrite <-(take_drop (length s - n) s), app_assoc at 1. apply ends_with_app.
      * left. exists (take (length rem - n) rem). rewrite length_take in E0.
        assert (Etl : tl = s) by (subst tl; replace (length s - n) with 0 by lia; done).
        split_and!; [|done| |].
        -- intros E%(f_equal length). rewrite length_take in E. simpl in E. lia.
        -- assert (Bq : str_is_char_boundary (take (length rem - n) rem ++ tl) (length (take (length rem - n) rem) + 0) = true)
             by (by rewrite str_boundary_app).
           rewrite <-Es, Nat.add_0_r, length_take, Nat.min_l in Bq by lia. by apply utf8_split.
        -- rewrite Es, Etl at 1. apply ends_with_cancel.
    + right. destruct (str_ends_with (u ++ s) rem) eqn:Ett; [|done]. specialize (Hsuf eq_refl).
      rewrite <-Hsuf, <-(take_drop (length rem - n) rem) in Es at 1. by rewrite ends_with_app in Es.
  - right. destruct (str_ends_with (u ++ s) rem) eqn:Ett; [|done]. exfalso. specialize (Hsuf eq_refl).
    destruct (Nat.le_gt_cases (length s) (length rem)) as [Hle|Hgt].
    { subst n. by replace (length s - length rem `min` length s) with 0 in Bn by lia. }
    replace (length rem - n) with 0 in Hsuf by lia. rewrite drop_0 in Hsuf.
    assert (Bq : str_is_char_boundary (take (length s - n) s ++ tl) (length (take (length s - n) s) + 0) = true)
      by (rewrite str_boundary_app; [done|by rewrite <-Hsuf]).
    subst tl. rewrite take_drop, Nat.add_0_r, length_take, Nat.min_l in Bq by lia. congruence.
Qed.

Section Matching.
Context (r : Rope).
Hypothesis Hr : rope_wf r.
Hypothesis Hh : height (chunks r) < STACK_CAP.
Context (pattern : list N).
Hypothesis Hpat : utf8 pattern.
Abbreviation T := (rope_text r).

Lemma rope_starts_with debug : returns (starts_with debug r pattern) (λ e, e = str_starts_with T pattern).
Proof.
  unfold starts_with. rewrite rope_len_spec by done. cbn beta iota.
  destruct (Nat.ltb_spec (length T) (length pattern)) as [Hlt|Hle].
  - apply returns_Ret. symmetry. apply bool_decide_eq_false. intros E%(f_equal length). rewrite length_take in E. lia.
  - apply (matches_spec r Hr Hh pattern Hpat match_front debug false). intros rem k m Hrem Hk (Hm & Hrm).
    pose proof Hk as (Hk1 & Hk2 & _). pose proof (part_utf8 r Hr Hh 0 (length T) k m Hk Hrm ltac:(lia)) as Hu.
    unfold rest_matches, piece. replace (drop k T) with (part r k m ++ drop m T); [by apply match_front_spec|].
    unfold part. rewrite <-(take_drop (m - k) (drop k T)) at 2. rewrite drop_drop. do 2 f_equal. lia.
Qed.

Lemma rope_ends_with debug : returns (ends_with debug r pattern) (λ e, e = str_ends_with T pattern).
Proof.
  unfold ends_with. rewrite rope_len_spec by done. cbn beta iota.
  destruct (Nat.ltb_spec (length T) (length pattern)) as [Hlt|Hle].
  - apply returns_Ret. unfold str_ends_with. by destruct (Nat.leb_spec (length pattern) (length T)); [lia|].
  - replace (str_ends_with T pattern) with (rest_matches r (length T) pattern true)
      by (unfold rest_matches; by rewrite take_ge).
    apply (matches_spec r Hr Hh pattern Hpat match_back debug true). intros rem k m Hrem Hk (Hm & Hrm).
    pose proof Hk as (Hk1 & Hk2 & _). pose proof (part_utf8 r Hr Hh 0 (length T) m k Hrm Hk ltac:(lia)) as Hu.
    unfold rest_matches, piece. replace (take k T) with (take m T ++ part r m k); [by apply match_back_spec|].
    unfold part. rewrite take_take_drop. f_equal. lia.
Qed.
End Matching.
