(* ===== verification/RopeLinesIter.v ===== *)
(** * Seeking and reading lines *)
From stdpp Require Import base numbers option list.
From Stdlib Require Import Lia.
From S2P Require Import Prelude SumTree SumTreeFacts SumTreeBulk Cursor CursorFacts CursorSeek CursorMove CursorIter.
From S2P Require Import Point Bits Utf8 Chunk ChunkFacts ChunkMeasures TextSummary ChunkPoints ChunkPointsFacts.
From S2P Require Import RopeTree Rope RopeBuild RopeSlice RopePoints RopeConvert RopeChunks RopeChunksFacts.
(** * Reading the bytes of a rope *)
#[local] Opaque TREE_BASE av_cap.

Section BytesFacts.
Context (r : Rope).
Hypothesis Hr : rope_wf r.
Hypothesis Hh : height (chunks r) < STACK_CAP.
Abbreviation T := (rope_text r).
Context (a b : nat).
Hypothesis Hab : a ≤ b ≤ length T.

(** The bytes of the range in a chunk. *)
Lemma bytes_piece p x l :
  rope_chunks r = p ++ x :: l → length (chunks_text p) < b → a < length (chunks_text p) + length (ctext x) →
  bytes_slice (ctext x) (a - length (chunks_text p)) (Nat.min (length (ctext x)) (b - length (chunks_text p))) =
    Ret (part r (Nat.max a (length (chunks_text p))) (Nat.min (length (chunks_text p) + length (ctext x)) b)).
Proof.
  intros Ei Hp Ha. unfold bytes_slice.
  destruct (Nat.leb_spec (a - length (chunks_text p)) (Nat.min (length (ctext x)) (b - length (chunks_text p)))) as [H1|]; [|lia].
  destruct (Nat.leb_spec (Nat.min (length (ctext x)) (b - length (chunks_text p))) (length (ctext x))); [|lia]. cbn [andb].
  unfold part. rewrite (text_window r p x l) by (done || lia). do 2 f_equal; [lia|]. f_equal. lia.
Qed.

Lemma bytes_forward_spec : 
  returns (let* it := bytes_new r (a, b) false in bytes_collect it) (λ ps, concat ps = part r a b).
Proof.
  unfold bytes_new. cbn [fst snd].
  destruct (seek_anywhere r Hr Hh (cursor_new (chunks r)) a Right eq_refl) as ([? c] & -> & p0 & l0 & Hc0 & Hp0 & Hx0).
  cbn beta iota. unfold bytes_collect.
  apply (loop_returns _ (λ st : Bytes * list (list N), let '(it, acc) := st in by_range it = (a, b) ∧ by_reversed it = false ∧
      ∃ p l, at_split r (by_chunks it) p l ∧ concat acc = part r a (Nat.min b (Nat.max a (length (chunks_text p)))) ∧
        (∀ x, head l = Some x → a < length (chunks_text p) + length (ctext x)))
    (λ st, match chunk_start (by_chunks st.1) with Ret s => S b - Nat.max a s | _ => 0 end)).
  - intros [it acc] (Er & Ev & p & l & Hc & Hacc & Hx). destruct (at_split_reads r Hr Hh _ _ _ Hc) as (E1 & E2 & E3).
    pose proof (at_split_items r Hr _ _ _ Hc) as [Ei _]. pose proof (T_length r _ _ Ei) as HT. pose proof Hr as (Hw & Hv & _).
    unfold bytes_next, bytes_peek. rewrite E2. destruct l as [|x l]; cbn [head].
    { right. exists acc. split; [done|]. rewrite Hacc. simpl in HT. f_equal. lia. }
    rewrite E3, Ev, Er. cbn [andb fst snd]. cbn beta iota. rewrite E1. cbn beta iota. specialize (Hx x eq_refl).
    destruct (Nat.leb_spec b (length (chunks_text p))) as [Hle|Hgt].
    { right. exists acc. split; [done|]. rewrite Hacc. f_equal. lia. }
    left. rewrite usize_sub_ok by lia. cbn beta iota. rewrite (bytes_piece p x l) by (done || lia). cbn beta iota.
    unfold bytes_step. rewrite Ev, Er. destruct (next_at (chunks r) Hw Hv Hh _ _ _ Hc) as (c' & -> & Hc'). change (take 1 (x :: l)) with [x] in Hc'. cbn [drop] in Hc'.
    cbn beta iota. eexists. split; [done|]. cbn [fst by_range by_reversed by_chunks].
    assert (Ep : length (chunks_text (p ++ [x])) = length (chunks_text p) + length (ctext x)).
    { by rewrite chunks_text_app, chunks_text_single, length_app. }
    destruct (at_split_reads r Hr Hh _ _ _ Hc') as (E1' & _). rewrite E1', ?E1, Ep. split; [|pose proof (chunk_pos r Hr Hh _ _ _ Ei); lia].
    split; [done|]. split; [done|]. exists (p ++ [x]), l. split; [done|]. rewrite Ep. split.
    + rewrite concat_app, Hacc. cbn [concat]. rewrite app_nil_r.
      replace (Nat.min b (Nat.max a (length (chunks_text p)))) with (Nat.max a (length (chunks_text p))) by lia.
      replace (Nat.min b (Nat.max a (length (chunks_text p) + length (ctext x)))) with (Nat.min (length (chunks_text p) + length (ctext x)) b) by lia.
      apply part_join; lia.
    + intros y Hy. lia.
  - split; [done|]. split; [done|]. exists p0, l0. split; [done|].
    assert (Hle : length (chunks_text p0) ≤ a) by (destruct Hp0 as [->|Hp0]; [simpl; lia|exact Hp0]).
    split; [|intros x E; specialize (Hx0 x E); cbn in Hx0; lia].
    replace (Nat.min b (Nat.max a (length (chunks_text p0)))) with a by lia. by rewrite part_nil.
  - destruct (at_split_reads r Hr Hh _ _ _ Hc0) as (E1 & _). cbn [fst snd by_chunks by_range]. rewrite E1. lia.
Qed.

Lemma bytes_backward_spec :
  returns (let* it := bytes_new r (a, b) true in bytes_collect it) (λ ps, concat (reverse ps) = part r a b).
Proof.
  unfold bytes_new. cbn [fst snd].
  destruct (seek_anywhere r Hr Hh (cursor_new (chunks r)) b Left eq_refl) as ([? c] & -> & p0 & l0 & Hc0 & Hp0 & Hx0).
  cbn beta iota. unfold bytes_collect.
  apply (loop_returns _ (λ st : Bytes * list (list N), let '(it, acc) := st in by_range it = (a, b) ∧ by_reversed it = true ∧
      ((before_begin (chunks r) (by_chunks it) ∧ c_did_seek (by_chunks it) = true ∧ concat (reverse acc) = part r a b) ∨
       ∃ p l, at_split r (by_chunks it) p l ∧ (p = [] ∨ length (chunks_text p) < b) ∧ match l with
         | [] => concat (reverse acc) = part r a b
         | x :: _ => concat (reverse acc) = part r (Nat.max a (Nat.min b (length (chunks_text p) + length (ctext x)))) b
         end))
    (λ st, match chunk_end (by_chunks st.1) with Ret e => if e <=? a then 1 else 2 + (Nat.min b e - a) | _ => 0 end)).
  - intros [it acc] (Er & Ev & [(Hbb & Hd & Hacc)|(p & l & Hc & Hp & Hl)]).
    { right. destruct (before_begin_reads r _ Hbb Hd) as (_ & _ & E3). exists acc. unfold bytes_next, bytes_peek. rewrite E3. done. }
    destruct (at_split_reads r Hr Hh _ _ _ Hc) as (E1 & E2 & E3). pose proof (at_split_items r Hr _ _ _ Hc) as [Ei _].
    pose proof Hr as (Hw & Hv & _). unfold bytes_next, bytes_peek. rewrite E2. destruct l as [|x l]; cbn [head]; [right; by exists acc|].
    rewrite E3, Ev, Er. cbn [andb fst snd]. cbn beta iota.
    destruct (Nat.leb_spec (length (chunks_text p) + length (ctext x)) a) as [Hle|Hgt].
    { right. exists acc. split; [done|]. rewrite Hl. f_equal. lia. }
    rewrite E1. cbn beta iota. destruct (Nat.leb_spec b (length (chunks_text p))) as [Hle|Hgt'].
    { right. exists acc. split; [done|]. rewrite Hl. destruct Hp as [->|Hp]; [|lia]. cbn in Hle. f_equal. lia. }
    left. rewrite usize_sub_ok by lia. cbn beta iota. rewrite (bytes_piece p x l) by (done || lia). cbn beta iota.
    unfold bytes_step. rewrite Ev, Er. destruct (prev_at (chunks r) Hw Hv Hh _ _ _ Hc) as (c' & -> & Hc').
    cbn beta iota. eexists. split; [done|]. cbn [fst by_range by_reversed by_chunks]. rewrite ?E3.
    destruct (Nat.leb_spec (length (chunks_text p) + length (ctext x)) a); [lia|].
    rewrite reverse_snoc. cbn [concat]. rewrite Hl. unfold stepped_back in Hc'. destruct (nil_or_snoc p) as [->|(q & y & ->)].
    + destruct Hc' as [Hbb Hd]. destruct (before_begin_reads r _ Hbb Hd) as (_ & Ee & _). rewrite Ee.
      split; [|destruct (Nat.leb_spec 0 a); lia]. split; [done|]. split; [done|]. left. split; [done|]. split; [done|]. cbn in *.
      rewrite Nat.max_0_r. replace (Nat.max a (Nat.min b (length (ctext x)))) with (Nat.min (length (ctext x)) b) by lia.
      apply part_join; lia.
    + rewrite last_snoc, removelast_last in Hc'. destruct (at_split_reads r Hr Hh _ _ _ Hc') as (_ & _ & Ee). rewrite Ee.
      assert (Ep : length (chunks_text (q ++ [y])) = length (chunks_text q) + length (ctext y)).
      { by rewrite chunks_text_app, chunks_text_single, length_app. }
      pose proof (chunk_pos r Hr Hh _ _ _ Ei) as Hxp. rewrite Ep in *.
      split; [|destruct (Nat.leb_spec (length (chunks_text q) + length (ctext y)) a); lia].
      split; [done|]. split; [done|]. right. exists q, (y :: x :: l). split; [done|]. split; [right; lia|].
      replace (Nat.max a (Nat.min b (length (chunks_text q) + length (ctext y) + length (ctext x)))) with
        (Nat.min (length (chunks_text q) + length (ctext y) + length (ctext x)) b) by lia.
      replace (Nat.max a (Nat.min b (length (chunks_text q) + length (ctext y)))) with
        (Nat.max a (length (chunks_text q) + length (ctext y))) by lia.
      apply part_join; lia.
  - split; [done|]. split; [done|]. right. exists p0, l0. split; [done|]. split; [done|]. cbn [reverse concat].
    pose proof (at_split_items r Hr _ _ _ Hc0) as [Ei _]. pose proof (T_length r _ _ Ei) as HT. destruct l0 as [|x l0].
    + simpl in HT. destruct Hp0 as [->|Hp0]; [|cbn in Hp0; lia]. cbn in HT. replace b with a by lia. by rewrite part_nil.
    + specialize (Hx0 x eq_refl). cbn in Hx0. replace (Nat.max a (Nat.min b (length (chunks_text p0) + length (ctext x)))) with b by lia.
      by rewrite part_nil.
  - destruct (at_split_reads r Hr Hh _ _ _ Hc0) as (_ & _ & E3). cbn [fst snd by_chunks by_range]. rewrite E3.
    destruct (_ <=? a); lia.
Qed.
End BytesFacts.

Section Seeking.
Context (r : Rope).
Hypothesis Hr : rope_wf r.
Hypothesis Hh : height (chunks r) < STACK_CAP.
Abbreviation T := (rope_text r).

(** Seeking goes to any offset, clamped to the range, unless the iterator was
    read back to the front of the rope. *)
Lemma chunks_seek_spec ch a b k j reversed :
  chunks_at r ch a b k reversed → a ≤ b → (reversed = false ∨ 0 < k) →
  returns (chunks_seek ch j) (λ ch', chunks_at r ch' a b (Nat.min (Nat.max j a) b) reversed).
Proof.
  intros (Er & Eo & Ev & Hc) Hab Hk. unfold chunks_seek, usize_clamp. rewrite Er, Ev. cbn [fst snd].
  destruct (Nat.leb_spec a b); [|lia]. cbn [rust_assert]. set (j' := Nat.min (Nat.max j a) b).
  destruct Hc as [(p & l & Hc & Hpl)|(-> & -> & _)]; [|destruct Hk; [done|lia]].
  destruct (at_split_reads r Hr Hh _ _ _ Hc) as (E1 & _ & E3). destruct (at_split_items r Hr _ _ _ Hc) as [Ei _].
  cbn beta iota. rewrite E3. cbn beta iota. rewrite E1. cbn beta iota. pose proof Hc as (Ht & _).
  assert (Hseek : ∀ bias, bias = direction reversed → returns (seek (ck_chunks ch) j' bias) (λ '(_, c'), cursor_placed r c' reversed j')).
  { intros bias ->. eapply returns_mono; [by apply (seek_anywhere r Hr Hh)|]. intros [? c'] (p' & l' & H'). left. by exists p', l'. }
  assert (Hforward : ∀ bias, bias = direction reversed → length (chunks_text p) < j' ∨ (reversed = false ∧ length (chunks_text p) = j') →
    returns (seek_forward (ck_chunks ch) j' bias) (λ '(_, c'), cursor_placed r c' reversed j')).
  { intros bias -> Hlt. eapply returns_mono.
    - apply (seek_placed r Hr Hh _ p l); [by left|lia|right; destruct reversed; cbn; destruct Hlt as [|[? ?]]; (done || lia)].
    - intros [? c'] (p' & l' & H'). left. by exists p', l'. }
  assert (Hstay : ∀ x l', l = x :: l' → inside (direction reversed) j' p x → cursor_placed r (ck_chunks ch) reversed j').
  { intros x l' -> Hin. left. exists p, (x :: l'). split; [done|]. by apply (inside_placed r). }
  destruct reversed; cbn [direction] in *.
  - destruct (Nat.ltb_spec (length (chunks_text p) + match l with x :: _ => length (ctext x) | [] => 0 end) j') as [Hlt|Hge].
    { destruct (Hforward Left eq_refl) as ([? c'] & -> & H'); [left; lia|]. by apply returns_Ret. }
    destruct (Nat.leb_spec j' (length (chunks_text p))) as [Hle|Hgt].
    { destruct (Hseek Left eq_refl) as ([? c'] & -> & H'). by apply returns_Ret. }
    apply returns_Ret. split_and!; [done..|]. destruct l as [|x l]; [lia|]. by apply (Hstay x l).
  - destruct (Nat.leb_spec (length (chunks_text p) + match l with x :: _ => length (ctext x) | [] => 0 end) j') as [Hlt|Hge].
    { destruct (Hforward Right eq_refl) as ([? c'] & -> & H'); [destruct l; lia|]. by apply returns_Ret. }
    destruct (Nat.ltb_spec j' (length (chunks_text p))) as [Hle|Hgt].
    { destruct (Hseek Right eq_refl) as ([? c'] & -> & H'). by apply returns_Ret. }
    apply returns_Ret. split_and!; [done..|]. destruct l as [|x l]; [lia|]. by apply (Hstay x l).
Qed.
End Seeking.

(** ** Splitting a line off either end *)
Lemma front_split s : no_newline s ∨ ∃ rest, s = first_line s ++ 10%N :: rest.
Proof.
  destruct (first_one (nl_bits s)) as [i|] eqn:E.
  - right. destruct (first_one_split _ _ E) as (f & rest & Es & _ & Ef). exists rest. unfold first_line.
    by rewrite Es, split_lines_app.
  - left. unfold no_newline. by rewrite split_lines_none.
Qed.
Lemma back_split s : no_newline s ∨ ∃ init, s = init ++ 10%N :: last_line s.
Proof.
  destruct (last_one (nl_bits s)) as [|n] eqn:E.
  - left. apply no_newline_ones. by apply last_one_zero.
  - right. exists (take n s). rewrite last_line_drop, E. pose proof (last_one_newline s n E) as Hn.
    by rewrite <-(drop_S s 10%N n Hn), take_drop.
Qed.
Lemma split_newlines_front f rest : no_newline f → split_newlines (f ++ 10%N :: rest) = f :: split_newlines rest.
Proof.
  intros Hf. apply split_newlines_app. destruct (first_one (nl_bits f)) as [i|] eqn:E; [|done]. exfalso.
  destruct (first_one_split _ _ E) as (g & u & -> & _ & Eg). unfold no_newline in Hf. by rewrite split_lines_app in Hf.
Qed.
Lemma split_newlines_back u v : no_newline v → split_newlines (u ++ 10%N :: v) = split_newlines u ++ [v].
Proof.
  intros Hv. destruct (split_newlines_join u (10%N :: v)) as (init & -> & ->). destruct (no_newline_lines v Hv) as [Ef _].
  unfold first_line in *. unfold no_newline in Hv. cbn [split_lines]. destruct (split_lines v) as [g w]. simpl in *.
  rewrite Ef, Hv, app_nil_r, <-app_assoc. done.
Qed.
Lemma split_newlines_none s : no_newline s → split_newlines s = [s].
Proof.
  intros Hs. destruct (no_newline_lines s Hs) as [Ef _]. unfold split_newlines, first_line, no_newline in *.
  destruct (split_lines s). simpl in *. by rewrite Ef, Hs.
Qed.
Lemma no_newline_app s t : no_newline (s ++ t) ↔ no_newline s ∧ no_newline t.
Proof. rewrite !no_newline_ones, fmap_app, ones_app. lia. Qed.
Lemma newline_found s : no_newline s ↔ (length (split_lines s).2 =? 0) = true.
Proof. unfold no_newline. rewrite Nat.eqb_eq. split; [by intros ->|by intros ?%length_zero_iff_nil]. Qed.
Lemma first_line_front f x : no_newline f → first_line (f ++ 10%N :: x) = f.
Proof.
  intros Hf. pose proof (split_newlines_head (f ++ 10%N :: x)) as E. rewrite split_newlines_front in E by done.
  by injection E.
Qed.
Lemma last_line_back u v : no_newline v → last_line (u ++ 10%N :: v) = v.
Proof.
  intros Hv. destruct (split_newlines_join (u ++ 10%N :: v) []) as (init & E & _).
  rewrite split_newlines_back in E by done. apply app_inj_tail in E as [_ E]. done.
Qed.

(** ** [Lines] *)
Section LinesFacts.
Context (r : Rope).
Hypothesis Hr : rope_wf r.
Hypothesis Hh : height (chunks r) < STACK_CAP.
Abbreviation T := (rope_text r).
Context (a b : nat).
Abbreviation within := (in_range r a b).

(** What is left of the range, and the line it begins or ends with. *)
Definition left_text (k : nat) (reversed : bool) : list N := if reversed then part r a k else part r k b.
Definition next_line_of (s : list N) (reversed : bool) : list N := if reversed then last_line s else first_line s.
Definition join_line (current line : list N) (reversed : bool) : list N := if reversed then line ++ current else current ++ line.

(** A line and the newline that ends it have been taken off what is left. *)
Definition line_taken (k k' : nat) (line : list N) (reversed : bool) : Prop :=
  no_newline line ∧
  if reversed then part r a k = part r a k' ++ 10%N :: line ∧ k = k' + length line + 1
  else part r k b = line ++ 10%N :: part r k' b ∧ k' = k + length line + 1.

Lemma newline_boundary i : T !! i = Some 10%N → str_is_char_boundary T i = true ∧ str_is_char_boundary T (S i) = true.
Proof.
  intros Hi. destruct (rope_utf8 r Hr) as [Hu _]. split; [|by apply (utf8_after_ascii T i 10%N)].
  unfold str_is_char_boundary. rewrite Hi. by destruct (i =? 0).
Qed.

Lemma part_lookup lo hi i y : part r lo hi !! i = Some y → T !! (lo + i) = Some y.
Proof. unfold part. intros H. rewrite lookup_take_Some in H. destruct H as [H _]. by rewrite lookup_drop in H. Qed.

(** A piece with a newline, from its line on. *)
Lemma piece_line k m reversed :
  within k → step_to r a b k m reversed → ¬ no_newline (piece r k m reversed) →
  let line := next_line_of (piece r k m reversed) reversed in
  ∃ k', within k' ∧ line_taken k k' line reversed.
Proof.
  intros Hk [Hm Hrm] Hn. pose proof Hk as (Hk1 & Hb & Ba & Bb & _). pose proof Hrm as (Hm1 & _). cbn zeta.
  unfold piece, next_line_of, line_taken in *. destruct reversed.
  - destruct (back_split (part r m k)) as [|[init Es]]; [done|]. set (line := last_line (part r m k)) in *.
    pose proof (f_equal length Es) as El. rewrite part_length, length_app in El by lia. simpl in El.
    assert (Hi : T !! (m + length init) = Some 10%N).
    { apply (part_lookup m k). rewrite Es, lookup_app_r, Nat.sub_diag by lia. done. }
    destruct (newline_boundary _ Hi) as [B1 _]. exists (m + length init). split_and!;
      [split_and!; (done || lia)|apply last_line_no_newline| |lia].
    rewrite <-(part_join r a m k) by lia. rewrite <-(part_join r a m (m + length init)) by lia. rewrite <-app_assoc. f_equal.
    rewrite <-(part_join r m (m + length init) k) in Es |- * by lia.
    apply app_inj_1 in Es as [E1 E2]; [|rewrite part_length by lia; lia]. by rewrite E2.
  - destruct (front_split (part r k m)) as [|[rest Es]]; [done|]. set (line := first_line (part r k m)) in *.
    pose proof (f_equal length Es) as El. rewrite part_length, length_app in El by lia. simpl in El.
    assert (Hi : T !! (k + length line) = Some 10%N).
    { apply (part_lookup k m). rewrite Es, lookup_app_r, Nat.sub_diag by lia. done. }
    destruct (newline_boundary _ Hi) as [_ B1]. exists (S (k + length line)). split_and!;
      [split_and!; (done || lia)|apply first_line_no_newline| |lia].
    rewrite <-(part_join r k m b) by lia. rewrite <-(part_join r (S (k + length line)) m b) by lia.
    rewrite <-(part_join r k (S (k + length line)) m) in Es |- * by lia. rewrite cons_middle, (app_assoc line) in Es.
    apply app_inj_1 in Es as [E1 E2]; [|rewrite part_length, length_app by lia; simpl; lia].
    rewrite E1, <-!app_assoc. done.
Qed.

(** More of the current line has been joined. *)
Definition joined (k0 k : nat) (current : list N) (reversed : bool) : Prop :=
  no_newline current ∧
  if reversed then part r a k0 = part r a k ++ current ∧ k0 = k + length current
  else part r k0 b = current ++ part r k b ∧ k = k0 + length current.

Lemma joined_piece k0 k m current reversed :
  joined k0 k current reversed → within k → step_to r a b k m reversed → no_newline (piece r k m reversed) →
  joined k0 m (join_line current (piece r k m reversed) reversed) reversed.
Proof.
  intros [Hc Hj] (Hk1 & Hb & _) [Hm (Hm1 & _)] Hp. unfold joined, join_line, piece in *.
  split; [by destruct reversed; apply no_newline_app|]. destruct reversed; destruct Hj as [Hj Hl]; rewrite Hj, length_app, part_length by lia.
  - rewrite <-(part_join r a m k), <-app_assoc by lia. split; [done|lia].
  - rewrite <-(part_join r k m b), app_assoc by lia. split; [done|lia].
Qed.

Lemma joined_line k0 k k' current line reversed :
  joined k0 k current reversed → line_taken k k' line reversed → line_taken k0 k' (join_line current line reversed) reversed.
Proof.
  intros [Hc Hj] [Hl Ht]. unfold line_taken, join_line. split; [by destruct reversed; apply no_newline_app|].
  destruct reversed; destruct Hj as [Hj1 Hj2], Ht as [Ht1 Ht2]; rewrite Hj1, Ht1, length_app.
  - rewrite <-app_assoc. split; [done|lia].
  - rewrite <-app_assoc. split; [done|lia].
Qed.

(** What [lines_next] returns: the next line, and where the rest is. *)
Definition line_read (k0 : nat) (reversed : bool) (res : list N * Chunks * list N * bool) : Prop :=
  let '(line, c, _, done) := res in
  ∃ k, chunks_at r c a b k reversed ∧ within k ∧
    if done : bool then no_newline line ∧ left_text k0 reversed = line else line_taken k0 k line reversed.

Lemma lines_step_spec k0 k c current reversed :
  chunks_at r c a b k reversed → within k → joined k0 k current reversed →
  (∃ k' c' current', lines_step reversed (c, current) = Ret (inl (c', current')) ∧ chunks_at r c' a b k' reversed ∧ within k' ∧
    joined k0 k' current' reversed ∧ left_to_read a b k' reversed < left_to_read a b k reversed) ∨
  (∃ res, lines_step reversed (c, current) = Ret (inr res) ∧ line_read k0 reversed res).
Proof.
  intros Hc Hk Hj. pose proof Hk as (Hk1 & Hb & _). unfold lines_step.
  destruct (Nat.eq_dec k (if reversed then a else b)) as [Ek|Ek].
  { right. rewrite (chunks_peek_done r Hh _ _ _ _ _ Hc Hk Ek). eexists. split; [done|]. exists k. split; [done|]. split; [done|].
    destruct Hj as [Hn Hj]. split; [done|]. unfold left_text.
    destruct reversed; destruct Hj as [-> _]; rewrite Ek, part_nil; by rewrite ?app_nil_r. }
  destruct (chunks_peek_more r Hr Hh _ _ _ _ _ Hc Hk Ek) as (m & Hm & Ep & c' & Ea & Hc').
  rewrite Ep. cbn beta iota. pose proof Hm as [Hm1 Hrm]. set (s := piece r k m reversed) in *.
  assert (Eline : (if reversed then default (split_lines s).1 (last (split_lines s).2) else (split_lines s).1) = next_line_of s reversed)
    by (by destruct reversed).
  destruct (split_lines s) as [first rest] eqn:Es. cbn [fst snd] in Eline. rewrite Eline.
  assert (Hnl : (length rest =? 0) = true ↔ no_newline s) by (rewrite newline_found, Es; done).
  destruct (length rest =? 0) eqn:Er; cbn [negb].
  - left. assert (Hn : no_newline s) by (by apply Hnl). assert (Eln : next_line_of s reversed = s).
    { destruct (no_newline_lines s Hn) as [E1 E2]. by destruct reversed. }
    rewrite Eln. unfold chunks_next. rewrite Ep. cbn beta iota. rewrite Ea. cbn beta iota.
    exists m, c', (join_line current s reversed). split; [done|]. split; [done|]. split; [done|].
    split; [by apply joined_piece|]. destruct reversed; cbn; lia.
  - right. assert (Hn : ¬ no_newline s) by (intros H%Hnl; done).
    destruct (piece_line k m reversed Hk Hm Hn) as (k' & Hk' & Ht). fold s in Ht. pose proof Hk' as (Hk1' & _).
    set (line := next_line_of s reversed) in *. pose proof (small_usize _ (proj2 (rope_utf8 r Hr))) as Hu.
    pose proof Hc as (_ & Eo & _).
    assert (Eoff : (if reversed then let* n := usize_sub (ck_offset c) (length line) in usize_sub n 1
      else let* n := usize_add (ck_offset c) (length line) in usize_add n 1) = Ret k').
    { rewrite Eo. destruct Ht as [_ Ht]. destruct reversed; destruct Ht as [_ Ht].
      - rewrite usize_sub_ok by lia. cbn beta iota. rewrite usize_sub_ok by lia. f_equal. lia.
      - rewrite usize_add_ok by lia. cbn beta iota. rewrite usize_add_ok by lia. f_equal. lia. }
    rewrite Eoff. cbn beta iota.
    destruct (chunks_seek_spec r Hr Hh c a b k k' reversed Hc ltac:(lia)) as (c2 & -> & Hc2); [destruct reversed; [right|left]; (done || lia)|].
    replace (Nat.min (Nat.max k' a) b) with k' in Hc2 by lia. cbn beta iota. eexists. split; [done|]. exists k'. split; [done|]. split; [done|].
    change (if reversed then line ++ current else current ++ line) with (join_line current line reversed). by apply (joined_line k0 k).
Qed.

Lemma lines_loop k ch reversed :
  chunks_at r ch a b k reversed → within k →
  returns (loop (lines_step reversed) (chunks_fuel ch) (ch, [])) (line_read k reversed).
Proof.
  intros Hch Hk. pose proof Hch as (Er & Eo & _). pose proof Hk as (Hk1 & _).
  apply (loop_returns _ (λ st : Chunks * list N, let '(c, current) := st in ∃ k', chunks_at r c a b k' reversed ∧ within k' ∧
    joined k k' current reversed) (λ st, left_to_read a b (ck_offset st.1) reversed)).
  - intros [c current] (k' & Hc & Hk' & Hj). pose proof Hc as (_ & Eo' & _).
    destruct (lines_step_spec k k' c current reversed Hc Hk' Hj) as [(k2 & c2 & cur2 & E & Hc2 & Hk2 & Hj2 & Hlt)|H]; [left|by right].
    pose proof Hc2 as (_ & Eo2 & _). exists (c2, cur2). split; [done|]. split; [by exists k2|]. cbn [fst]. by rewrite Eo', Eo2.
  - exists k. split; [done|]. split; [done|]. split; [done|]. destruct reversed; split; rewrite ?app_nil_r; simpl; (done || lia).
  - unfold chunks_fuel. cbn [fst]. rewrite Er, Eo. destruct reversed; cbn; lia.
Qed.

(** ** Collecting the lines *)
Definition in_order (ls : list (list N)) (reversed : bool) : list (list N) := if reversed then reverse ls else ls.

Lemma line_taken_split k k' line reversed :
  line_taken k k' line reversed →
  in_order (split_newlines (left_text k reversed)) reversed = line :: in_order (split_newlines (left_text k' reversed)) reversed.
Proof.
  intros [Hl Ht]. unfold in_order, left_text. destruct reversed; destruct Ht as [-> _].
  - by rewrite split_newlines_back, reverse_snoc.
  - by rewrite split_newlines_front.
Qed.

Lemma lines_collect_spec ch k reversed :
  chunks_at r ch a b k reversed → within k →
  returns (lines_collect (chunks_lines ch)) (λ ls, ls = in_order (split_newlines (left_text k reversed)) reversed).
Proof.
  intros Hch Hk. unfold lines_collect, chunks_lines. pose proof Hch as (Er & Eo & Ev & _). cbn [ln_chunks]. rewrite Ev.
  pose proof Hk as (Hk1 & _). set (all := in_order (split_newlines (left_text k reversed)) reversed).
  apply (loop_returns _ (λ st : Lines * list (list N), let '(it, acc) := st in ln_reversed it = reversed ∧
    if ln_done it then acc = all else ∃ k', chunks_at r (ln_chunks it) a b k' reversed ∧ within k' ∧
      acc ++ in_order (split_newlines (left_text k' reversed)) reversed = all)
    (λ st, if ln_done st.1 then 0 else S (left_to_read a b (ck_offset (ln_chunks st.1)) reversed))).
  - intros [it acc] [Hv HI]. unfold lines_next. destruct (ln_done it) eqn:Ed.
    { right. by exists acc. }
    left. destruct HI as (k' & Hc & Hk' & Hacc). rewrite Hv. pose proof Hc as (_ & Eo' & _). pose proof Hk' as (Hk1' & _).
    destruct (lines_loop k' (ln_chunks it) reversed Hc Hk') as ([[[line c2] cur] done] & -> & k2 & Hc2 & Hk2 & Hd).
    pose proof Hc2 as (_ & Eo2 & _). cbn beta iota. eexists. split; [done|]. cbn [fst ln_done ln_chunks ln_reversed]. rewrite Ed, Eo'.
    destruct done.
    + split; [|lia]. split; [done|]. destruct Hd as [Hn Et]. rewrite <-Hacc, Et, split_newlines_none by done. by destruct reversed.
    + rewrite Eo2. split; [split; [done|]; exists k2; split; [done|]; split; [done|]|].
      * rewrite <-Hacc, (line_taken_split k' k2 line) by done. by rewrite <-app_assoc.
      * destruct Hd as [_ Hd]. pose proof Hk2 as (Hk12 & _). destruct reversed; destruct Hd as [_ Hd]; cbn; lia.
  - split; [done|]. cbn [ln_done ln_chunks]. by exists k.
  - unfold chunks_fuel. cbn [fst ln_done ln_chunks]. rewrite Er, Eo. destruct reversed; cbn; lia.
Qed.
End LinesFacts.
