(* ===== verification/RopeLineMoves.v ===== *)
(** * Moving an iterator by lines *)
From stdpp Require Import base numbers option list.
From Stdlib Require Import Lia.
From S2P Require Import Prelude SumTree SumTreeFacts SumTreeBulk Cursor CursorFacts CursorSeek.
From S2P Require Import CursorMove CursorIter Bits Utf8 Point Chunk ChunkFacts ChunkMeasures.
From S2P Require Import TextSummary ChunkPoints ChunkPointsFacts RopeTree Rope RopeBuild RopeSlice.
From S2P Require Import RopePoints RopeConvert RopeChunks RopeChunksFacts RopeLinesIter.
#[local] Opaque TREE_BASE av_cap.

Lemma last_one_app l k : last_one (l ++ k) = if last_one k =? 0 then last_one l else length l + last_one k.
Proof.
  induction l as [|b l IH]; cbn [app last_one length].
  - destruct (last_one k); done.
  - rewrite IH. destruct (Nat.eqb_spec (last_one k) 0) as [Ek|Hk]; [done|].
    destruct (length l + last_one k) eqn:E; [lia|]. cbn. rewrite E. done.
Qed.

(** The newlines of a text, by their number and by position. *)
Lemma rfind_newline s : str_rfind_newline s = match last_one (nl_bits s) with 0 => None | S i => Some i end.
Proof. done. Qed.
Lemma newline_count_cons u : newline_count (10%N :: u) = S (newline_count u).
Proof. done. Qed.
Lemma no_newline_count s : no_newline s ↔ newline_count s = 0.
Proof. apply no_newline_ones. Qed.
Lemma find_newline s :
  str_find_newline s = if newline_count s =? 0 then None else Some (length (first_line s)).
Proof.
  unfold str_find_newline. destruct (first_one (nl_bits s)) as [i|] eqn:Ei.
  - destruct (first_one_split _ _ Ei) as (f & u & Es & <- & Ef). unfold first_line.
    rewrite Es, newline_count_app, newline_count_cons, split_lines_app by done.
    by destruct (Nat.eqb_spec (newline_count f + S (newline_count u)) 0); [lia|].
  - apply split_lines_none in Ei. assert (Hn : no_newline s) by (unfold no_newline; by rewrite Ei).
    apply no_newline_count in Hn. by rewrite Hn.
Qed.

Section Moves.
Context (r : Rope).
Hypothesis Hr : rope_wf r.
Hypothesis Hh : height (chunks r) < STACK_CAP.
Abbreviation T := (rope_text r).

(** ** Chunks with a newline *)
Lemma has_newline_total l : valid l → has_newline (total l) = negb (newline_count (chunks_text l) =? 0).
Proof.
  intros [Hok Hs]. rewrite rope_total by done. cbn [has_newline summary_of ts_lines]. rewrite extent_row.
  destruct (Nat.eqb_spec (newline_count (chunks_text l)) 0), (N.ltb_spec 0 (N.of_nat (newline_count (chunks_text l)))); (done || lia).
Qed.
Lemma accepts_newline x : chunk_ok x → accepts has_newline x = negb (newline_count (ctext x) =? 0).
Proof.
  intros Hx. unfold accepts, item_summary_of, Chunk_item, as_slice. rewrite chunk_summary_ok by done.
  cbn [has_newline summary_of ts_lines]. rewrite extent_row.
  destruct (Nat.eqb_spec (newline_count (ctext x)) 0), (N.ltb_spec 0 (N.of_nat (newline_count (ctext x)))); (done || lia).
Qed.
Lemma rejected_newline q : Forall chunk_ok q → rejected has_newline q ↔ newline_count (chunks_text q) = 0.
Proof.
  unfold rejected. induction 1 as [|x q Hx Hq IH]; [done|]. rewrite chunks_text_cons, newline_count_app, Forall_cons, IH, accepts_newline by done.
  destruct (Nat.eqb_spec (newline_count (ctext x)) 0); cbn [negb];
    (split; [intros [? ?]; (done || lia)|intros ?; split; (done || lia)]).
Qed.
Lemma newline_filter_sound : filter_sound (chunks r) has_newline.
Proof.
  intros l1 q l2 E Hf. destruct Hr as (_ & Hv & _). unfold rope_chunks in Hv. rewrite E in Hv. apply valid_r, valid_l in Hv.
  apply rejected_newline; [apply Hv|]. rewrite has_newline_total in Hf by done.
  by destruct (Nat.eqb_spec (newline_count (chunks_text q)) 0).
Qed.

(** ** Where an iterator rests between lines *)
Context (a b : nat).
Abbreviation within := (in_range r a b).

(** At the end of its range the cursor may still be at the last chunk read. *)
Definition near (c : chunk_cursor) (k : nat) : Prop :=
  ∃ p l, at_split r c p l ∧ length (chunks_text p) ≤ k ∧ (∀ x, head l = Some x → k ≤ length (chunks_text p) + length (ctext x)).
Definition resting (ch : Chunks) (k : nat) : Prop :=
  ck_range ch = (a, b) ∧ ck_offset ch = k ∧ ck_reversed ch = false ∧ near (ck_chunks ch) k ∧
  (k < b → cursor_placed r (ck_chunks ch) false k).

Lemma placed_near c k : cursor_placed r c false k → near c k.
Proof.
  intros [(p & l & Hc & Hp & Hx)|[? _]]; [|done]. exists p, l. split; [done|]. split.
  - destruct Hp as [->|Hp]; [simpl; lia|]. exact Hp.
  - intros x E. specialize (Hx x E). cbn in Hx. lia.
Qed.
Lemma chunks_at_resting ch k : chunks_at r ch a b k false → resting ch k.
Proof. intros (? & ? & ? & Hc). split_and!; [done..|by apply placed_near|done]. Qed.

(** Leaving a chunk at its end. *)
Lemma leave_chunk_spec c p x l j :
  at_split r c p (x :: l) → length (chunks_text p) ≤ j ≤ length (chunks_text p) + length (ctext x) → a ≤ j → b ≤ length T →
  returns (leave_chunk (MkChunks c (a, b) j false)) (λ ch, ck_range ch = (a, b) ∧ ck_offset ch = j ∧ ck_reversed ch = false ∧
    near (ck_chunks ch) j ∧ (j < b → cursor_placed r (ck_chunks ch) false j)).
Proof.
  intros Hc Hj Ha Hb. destruct (at_split_reads r Hr Hh _ _ _ Hc) as (E1 & E2 & E3). cbn [head] in E2.
  pose proof (at_split_items r Hr _ _ _ Hc) as [Ei _]. unfold leave_chunk. cbn [ck_chunks ck_offset]. rewrite E3. cbn beta iota.
  assert (Hnear : near c j).
  { exists p, (x :: l). split; [done|]. split; [lia|]. intros y [= <-]. lia. }
  destruct (Nat.eqb_spec j (length (chunks_text p) + length (ctext x))) as [Ej|Hne].
  - unfold chunks_next, chunks_peek, offset_is_valid. cbn [ck_reversed ck_offset ck_range ck_chunks fst snd].
    destruct (Nat.ltb_spec j a); [lia|]. cbn [orb]. destruct (Nat.leb_spec b j) as [Hjb|Hjb]; cbn [negb].
    { apply returns_Ret. split_and!; [done..|lia]. }
    rewrite E2. cbn beta iota. unfold peek_range. cbn [ck_reversed ck_offset ck_range ck_chunks fst snd]. rewrite E1. cbn beta iota.
    rewrite usize_sub_ok by lia. cbn beta iota. rewrite E3. cbn beta iota. rewrite usize_sub_ok by lia. cbn beta iota.
    replace (Nat.min (length (chunks_text p) + length (ctext x)) b - length (chunks_text p)) with (length (ctext x)) by lia.
    replace (j - length (chunks_text p)) with (length (ctext x)) by lia.
    unfold str_slice. rewrite str_boundary_end, Nat.leb_refl, Nat.sub_diag. cbn [andb]. rewrite take_0. cbn beta iota. cbn [length].
    unfold chunks_advance. cbn [ck_reversed ck_offset ck_range ck_chunks].
    rewrite usize_add_ok by (pose proof (small_usize _ (proj2 (rope_utf8 r Hr))); lia). cbn beta iota. rewrite E3. cbn beta iota.
    destruct (Nat.leb_spec (length (chunks_text p) + length (ctext x)) (j + 0)); [|lia].
    destruct (next_placed r Hr Hh _ _ _ _ Hc) as (c' & -> & Hc'). rewrite <-Ej in Hc'. apply returns_Ret.
    cbn [ck_range ck_offset ck_reversed ck_chunks]. split_and!; [done|lia|done|by apply placed_near|done].
  - apply returns_Ret. split_and!; [done..|]. intros _. left. exists p, (x :: l). split; [done|].
    apply (inside_placed r); try done. cbn. lia.
Qed.

Lemma leave_chunk_near c j :
  near c j → a ≤ j → b ≤ length T →
  returns (leave_chunk (MkChunks c (a, b) j false)) (λ ch, ck_range ch = (a, b) ∧ ck_offset ch = j ∧ ck_reversed ch = false ∧
    near (ck_chunks ch) j ∧ (j < b → cursor_placed r (ck_chunks ch) false j)).
Proof.
  intros Hn Ha Hb. pose proof Hn as (p & l & Hc & Hp & Hx). destruct l as [|x l].
  - destruct (at_split_reads r Hr Hh _ _ _ Hc) as (E1 & E2 & E3). pose proof (at_split_items r Hr _ _ _ Hc) as [Ei _].
    rewrite (T_length r _ _ Ei) in Hb. simpl in Hb.
    assert (Hself : chunks_next (MkChunks c (a, b) j false) = Ret (None, MkChunks c (a, b) j false)).
    { unfold chunks_next, chunks_peek, offset_is_valid. cbn [ck_reversed ck_offset ck_range fst snd].
      destruct (Nat.ltb_spec j a); [lia|]. cbn [orb]. by destruct (Nat.leb_spec b j); [|lia]. }
    unfold leave_chunk. cbn [ck_chunks ck_offset]. rewrite E3, Hself. cbn beta iota.
    destruct (j =? _); apply returns_Ret; do 4 (split; [done|]); cbn [ck_chunks]; lia.
  - apply (leave_chunk_spec c p x l); [done|split; [done|by apply Hx]|done|done].
Qed.

Lemma back_to_range_spec ch k :
  ck_range ch = (a, b) → ck_offset ch = k → ck_reversed ch = false → near (ck_chunks ch) k →
  (k < b → cursor_placed r (ck_chunks ch) false k) →
  returns (back_to_range ch) (λ ch', resting ch' (Nat.min k b)).
Proof.
  intros Er Eo Ev Hn Hp. unfold back_to_range. rewrite Er, Eo. cbn [fst snd]. destruct (Nat.ltb_spec b k) as [Hlt|Hle].
  - rewrite Nat.min_r by lia. assert (Ht : c_tree (ck_chunks ch) = chunks r) by (destruct Hn as (p & l & (Ht & _) & _); done).
    destruct (seek_anywhere r Hr Hh (ck_chunks ch) b Right Ht) as ([? c'] & -> & p & l & Hc').
    apply returns_Ret. assert (Hc2 : cursor_placed r c' false b) by (left; by exists p, l).
    split_and!; [done|done|done|by apply placed_near|done].
  - rewrite Nat.min_l by lia. apply returns_Ret. by split_and!.
Qed.

(** ** Finding the next newline *)
Definition newline_reached (k : nat) (found : bool) (ch : Chunks) : Prop :=
  ck_range ch = (a, b) ∧ ck_reversed ch = false ∧ near (ck_chunks ch) (ck_offset ch) ∧ a ≤ ck_offset ch ∧
  if newline_count (part r k b) =? 0 then found = false ∧ b ≤ ck_offset ch
  else found = true ∧ ck_offset ch = k + length (first_line (part r k b)) + 1 ∧ ck_offset ch ≤ b.

(** The newline is in the piece from [o], and there is none from [k] to [o]. *)
Lemma newline_in_piece k o m :
  k ≤ o ≤ m → m ≤ b → b ≤ length T → newline_count (part r k o) = 0 → newline_count (part r o m) ≠ 0 →
  newline_count (part r k b) ≠ 0 ∧ k + length (first_line (part r k b)) = o + length (first_line (part r o m)) ∧
  o + length (first_line (part r o m)) + 1 ≤ m.
Proof.
  intros Hk Hm Hb H0 H1.
  rewrite <-(part_join r k o b), <-(part_join r o m b), !newline_count_app by lia.
  rewrite first_line_join, !extent_row, H0, first_line_join, !extent_row. change (N.of_nat 0 =? 0)%N with true. cbn iota.
  destruct (N.eqb_spec (N.of_nat (newline_count (part r o m))) 0); [lia|].
  apply no_newline_count in H0. destruct (no_newline_lines _ H0) as [-> _].
  destruct (front_split (part r o m)) as [?%no_newline_count|[rest E]]; [done|].
  apply (f_equal length) in E. rewrite length_app, part_length in E by lia. simpl in E.
  rewrite length_app, part_length by lia. split_and!; lia.
Qed.

Lemma found_in_piece c p x l k o m :
  at_split r c p (x :: l) → length (chunks_text p) ≤ o → m ≤ length (chunks_text p) + length (ctext x) → a ≤ o →
  k ≤ o ≤ m → m ≤ b → b ≤ length T → newline_count (part r k o) = 0 → newline_count (part r o m) ≠ 0 →
  returns (let* offset := usize_add o (length (first_line (part r o m)) + 1) in
    Ret (offset <=? b, MkChunks c (a, b) offset false)) (λ '(found, ch), newline_reached k found ch).
Proof.
  intros Hc Hp He Ha Hk Hm Hb H0 H1. destruct (newline_in_piece k o m Hk Hm Hb H0 H1) as (H2 & H3 & H4).
  rewrite usize_add_ok by (pose proof (small_usize _ (proj2 (rope_utf8 r Hr))); lia). apply returns_Ret.
  unfold newline_reached. cbn [ck_range ck_reversed ck_chunks ck_offset].
  split; [done|]. split; [done|]. split; [|split; [lia|]].
  - exists p, (x :: l). split; [done|]. split; [lia|]. intros y [= <-]. lia.
  - destruct (Nat.eqb_spec (newline_count (part r k b)) 0); [done|]. split; [apply Nat.leb_le; lia|]. lia.
Qed.

Lemma to_newline_spec ch k p x l :
  chunks_at r ch a b k false → within k → k < b → at_split r (ck_chunks ch) p (x :: l) → inside Right k p x →
  returns (to_newline ch (part r k (next_offset p x a b false))) (λ '(found, ch'), newline_reached k found ch').
Proof.
  intros Hch Hk Hlt Hs Hin. pose proof Hch as (Er & Eo & Ev & _). pose proof Hk as (Hk1 & Hb & Ba & Bb & _).
  pose proof (at_split_items r Hr _ _ _ Hs) as [Ei _]. pose proof Hr as (Hw & Hv & _).
  set (m := next_offset p x a b false). assert (Em : m = Nat.min (length (chunks_text p) + length (ctext x)) b) by done.
  cbn in Hin. unfold to_newline, with_offset. rewrite find_newline. destruct (Nat.eqb_spec (newline_count (part r k m)) 0) as [H0|H1].
  2:{ rewrite Eo, Er, Ev. cbn [fst snd]. apply (found_in_piece _ p x l); (done || lia || (rewrite part_nil; done) || idtac). }
  destruct (search_forward_at (chunks r) Hw Hv Hh has_newline newline_filter_sound (measured_exact _ Hv _) _ p x l Hs) as (c & -> & q & l' & -> & Hq & Hl' & Hc).
  cbn beta iota. destruct (at_split_reads r Hr Hh _ _ _ Hc) as (E1 & E2 & E3). rewrite E1. cbn beta iota. rewrite Er, Ev.
  set (o := length (chunks_text ((p ++ [x]) ++ q))) in *.
  assert (Eo' : o = length (chunks_text p) + length (ctext x) + length (chunks_text q)).
  { subst o. by rewrite !chunks_text_app, chunks_text_single, !length_app. }
  pose proof (at_split_items r Hr _ _ _ Hc) as [Ei' Hv']. pose proof (T_length r _ _ Ei') as HT. fold o in HT.
  assert (Hko : newline_count (part r k o) = 0 ∨ b < o ∧ newline_count (part r k b) = 0).
  { destruct (Nat.le_gt_cases (length (chunks_text p) + length (ctext x)) b) as [Hle|Hgt].
    - left. rewrite <-(part_join r k m o), newline_count_app, H0 by lia. cbn [Nat.add].
      assert (Eq : part r m o = chunks_text q).
      { unfold part, rope_text. rewrite Em, Nat.min_l, Ei', Eo' by lia. rewrite <-app_assoc, (chunks_text_app (p ++ [x])), (chunks_text_app q).
        rewrite drop_app_length' by (rewrite chunks_text_app, chunks_text_single, length_app; done).
        rewrite take_app_length' by lia. done. }
      rewrite Eq. apply rejected_newline; [|done]. rewrite <-app_assoc in Hv'. apply valid_r, valid_l in Hv'. apply Hv'.
    - right. rewrite Nat.min_r in Em by lia. split; [lia|]. by rewrite <-Em. }
  assert (Hmiss : newline_count (part r k b) = 0 → b ≤ o + match l' with y :: _ => length (ctext y) | [] => 0 end →
    newline_reached k false (MkChunks c (a, b) (o + match l' with y :: _ => length (ctext y) | [] => 0 end) false)).
  { intros Hz He. unfold newline_reached. cbn [ck_range ck_reversed ck_chunks ck_offset]. rewrite Hz. cbn [Nat.eqb].
    split; [done|]. split; [done|]. split; [|split; [lia|done]]. exists ((p ++ [x]) ++ q), l'. split; [done|]. fold o.
    split; [lia|]. intros y Hy. destruct l'; [done|]. by injection Hy as ->. }
  destruct (Nat.le_gt_cases b o) as [Hbo|Hbo].
  - assert (Hz : newline_count (part r k b) = 0).
    { destruct Hko as [Hz|[_ Hz]]; [|done]. rewrite <-(part_join r k b o), newline_count_app in Hz by lia. lia. }
    assert (Epeek : chunks_peek (MkChunks c (a, b) o false) = Ret None).
    { unfold chunks_peek, offset_is_valid. cbn [ck_reversed ck_offset ck_range fst snd].
      destruct (Nat.ltb_spec o a); [lia|]. cbn [orb]. by destruct (Nat.leb_spec b o); [|lia]. }
    rewrite Epeek. cbn [option_bind mbind]. rewrite E3. cbn beta iota. apply returns_Ret. apply Hmiss; [done|lia].
  - destruct Hko as [Hko|[? _]]; [|lia]. destruct l' as [|y l']; [simpl in HT; lia|]. cbn in Hl'.
    assert (Hin' : inside Right o ((p ++ [x]) ++ q) y) by (cbn; fold o; pose proof (chunk_pos r Hr Hh _ _ _ Ei'); lia).
    assert (Hat : chunks_at r (MkChunks c (a, b) o false) a b o false).
    { split_and!; [done..|]. left. exists ((p ++ [x]) ++ q), (y :: l'). split; [done|]. apply (inside_placed r); try done. }
    assert (Ho : within o).
    { split_and!; [lia|lia|lia|done|done|]. apply (chunk_start_boundary r Hr _ _ Ei'). }
    rewrite (chunks_peek_at r Hr Hh _ _ _ _ _ _ _ _ Hat Ho ltac:(done) Hc Hin'). cbn [option_bind mbind piece].
    set (m' := next_offset ((p ++ [x]) ++ q) y a b false). assert (Em' : m' = Nat.min (o + length (ctext y)) b) by done.
    cbn [ck_offset ck_range ck_chunks ck_reversed fst snd]. rewrite find_newline.
    destruct (Nat.eqb_spec (newline_count (part r o m')) 0) as [H0'|H1'].
    + rewrite E3. cbn beta iota. apply returns_Ret.
      assert (Hoky : chunk_ok y) by (apply valid_r in Hv' as [[Hy _]%Forall_cons _]; done).
      rewrite accepts_newline in Hl' by done.
      assert (Hcut : b < o + length (ctext y)).
      { destruct (Nat.le_gt_cases (o + length (ctext y)) b) as [Hle|]; [|done]. exfalso.
        assert (Ey : part r o m' = ctext y).
        { unfold part, rope_text. rewrite Em', Nat.min_l, Ei', chunks_text_app by lia. fold o.
          rewrite drop_app_length' by done. rewrite chunks_text_cons. rewrite take_app_length' by lia. done. }
        rewrite Ey in H0'. by rewrite H0' in Hl'. }
      apply Hmiss; [|lia]. rewrite Nat.min_r in Em' by lia. rewrite <-(part_join r k o b), newline_count_app, Hko by lia.
      rewrite <-Em'. done.
    + apply (found_in_piece _ ((p ++ [x]) ++ q) y l'); (done || lia || idtac).
Qed.

(** ** [next_line] *)

(** Where the next line begins, or the end of the range. *)
Definition next_line_start (k : nat) : nat :=
  if newline_count (part r k b) =? 0 then b else k + length (first_line (part r k b)) + 1.

Lemma next_line_within k : within k → within (next_line_start k).
Proof.
  intros Hk. pose proof Hk as (Hk1 & Hb & Ba & Bb & _). unfold next_line_start.
  destruct (Nat.eqb_spec (newline_count (part r k b)) 0) as [H0|H1]; [by split_and!; (done || lia)|].
  destruct (front_split (part r k b)) as [?%no_newline_count|[rest E]]; [done|].
  pose proof (f_equal length E) as El. rewrite length_app, part_length in El by lia. simpl in El.
  assert (Hi : T !! (k + length (first_line (part r k b))) = Some 10%N).
  { apply (part_lookup r k b). rewrite E at 2. by rewrite lookup_app_r, Nat.sub_diag by lia. }
  destruct (newline_boundary r Hr _ Hi) as [_ B1].
  replace (k + length (first_line (part r k b)) + 1) with (S (k + length (first_line (part r k b)))) by lia.
  split_and!; (done || lia).
Qed.

Lemma next_line_spec ch k :
  resting ch k → within k →
  returns (next_line ch) (λ '(found, ch'),
    found = negb (newline_count (part r k b) =? 0) ∧ resting ch' (next_line_start k)).
Proof.
  intros Hrest Hk. pose proof Hrest as (Er & Eo & Ev & Hn & Hp). pose proof Hk as (Hk1 & Hb & _).
  unfold next_line. rewrite Ev. cbn [negb rust_assert]. destruct (Nat.eq_dec k b) as [Ek|Hne].
  - assert (Epeek : chunks_peek ch = Ret None).
    { unfold chunks_peek, offset_is_valid. rewrite Ev, Eo, Er. cbn [fst snd].
      destruct (Nat.ltb_spec k a); [lia|]. cbn [orb]. by destruct (Nat.leb_spec b k); [|lia]. }
    rewrite Epeek. cbn beta iota. destruct (back_to_range_spec ch k Er Eo Ev Hn Hp) as (ch' & -> & Hch').
    apply returns_Ret. unfold next_line_start. rewrite Ek, part_nil in *. split; [done|].
    by rewrite Nat.min_l in Hch' by lia.
  - assert (Hlt : k < b) by lia. assert (Hat : chunks_at r ch a b k false) by (split_and!; auto).
    destruct (chunks_at_inside r Hr Hh _ _ _ _ _ Hat Hk Hlt) as (p & x & l & Hs & Hin).
    rewrite (chunks_peek_at r Hr Hh _ _ _ _ _ _ _ _ Hat Hk Hlt Hs Hin). cbn [piece].
    destruct (to_newline_spec ch k p x l Hat Hk Hlt Hs Hin) as ([found [c rng off rv]] & -> & Er1 & Ev1 & Hn1 & Ha1 & Hres).
    cbn [ck_range ck_offset ck_reversed ck_chunks] in *. subst rng rv.
    destruct (leave_chunk_near c off Hn1 Ha1 Hb) as (ch2 & -> & Er2 & Eo2 & Ev2 & Hn2 & Hp2). cbn beta iota.
    destruct (back_to_range_spec ch2 off Er2 Eo2 Ev2 Hn2 Hp2) as (ch3 & -> & Hr3). apply returns_Ret. unfold next_line_start.
    destruct (newline_count (part r k b) =? 0).
    + destruct Hres as [-> Hge]. split; [done|]. by rewrite Nat.min_r in Hr3 by lia.
    + destruct Hres as (-> & Hoff & Hle). split; [done|]. rewrite Nat.min_l in Hr3 by lia. by rewrite <-Hoff.
Qed.

(** ** [prev_line] *)

(** The start of the last line that begins before an offset. *)
Definition line_start (s : list N) : nat := last_one (nl_bits s).
Definition prev_line_start (k : nat) : nat := line_start (take (k - 1) T).

Lemma line_start_app s t : line_start (s ++ t) = if newline_count t =? 0 then line_start s else length s + line_start t.
Proof.
  unfold line_start. rewrite fmap_app, last_one_app, length_fmap.
  destruct (Nat.eqb_spec (last_one (nl_bits t)) 0) as [E|E], (Nat.eqb_spec (newline_count t) 0) as [E'|E']; try done.
  - by apply last_one_zero in E.
  - by apply last_one_zero in E'.
Qed.
Lemma line_start_le s : line_start s ≤ length s.
Proof. unfold line_start. rewrite <-(length_fmap is_newline s). apply last_one_le. Qed.
Lemma line_start_zero s : newline_count s = 0 ↔ line_start s = 0.
Proof. symmetry. apply last_one_zero. Qed.

(** Placing the iterator at the start of its range. *)
Lemma prev_line_restart c off k i :
  c_tree c = chunks r → item c = Ret i → (i = None ∨ (off < a ∨ b ≤ off)) →
  returns (prev_line_done (MkChunks c (a, b) off false) k) (λ '(found, ch), found = (a <? k) && (a =? 0) ∧ resting ch a).
Proof.
  intros Ht Hi Hoff. unfold prev_line_done. cbn [ck_chunks]. rewrite Hi. cbn beta iota.
  assert (E : (negb (offset_is_valid (MkChunks c (a, b) off false)) || (if i is Some _ then false else true)) = true).
  { destruct Hoff as [->|Hoff]; [apply orb_true_r|]. apply orb_true_iff. left. unfold offset_is_valid. cbn [ck_reversed ck_offset ck_range fst snd].
    rewrite negb_involutive. apply orb_true_iff. destruct Hoff; [left; by apply Nat.ltb_lt|right; by apply Nat.leb_le]. }
  rewrite E. cbn [ck_range fst snd]. destruct (seek_anywhere r Hr Hh c a Right Ht) as ([? c'] & -> & p & l & Hc').
  apply returns_Ret. assert (Hc2 : cursor_placed r c' false a) by (left; by exists p, l).
  split; [done|]. apply chunks_at_resting. by split_and!.
Qed.

Lemma prev_line_search_spec c p x l off k :
  at_split r c p (x :: l) → 0 < k → a ≤ k ≤ b → length (chunks_text p) < b → b ≤ length T →
  returns (prev_line_search (MkChunks c (a, b) off false) k) (λ '(found, ch),
    found = (a <=? line_start (chunks_text p)) ∧ resting ch (Nat.max a (line_start (chunks_text p)))).
Proof.
  intros Hc H0 Hk Hp Hb. pose proof Hr as (Hw & Hv & _). pose proof (at_split_items r Hr _ _ _ Hc) as [Ei Hvp].
  unfold prev_line_search. cbn [ck_chunks ck_range ck_reversed]. pose proof (line_start_le (chunks_text p)) as Hle.
  destruct (search_backward_at (chunks r) Hw Hv Hh has_newline newline_filter_sound c p (x :: l) Hc) as (c' & -> & Hm).
  { destruct Hc as (_ & _ & _ & _ & Hst). intros E. rewrite E in Hst. by destruct Hst. }
  cbn beta iota. destruct Hm as [(Hbb & Hd & Hrej)|(p' & y & q & -> & Hq & Hy & Hc')].
  - destruct (before_begin_reads r c' Hbb Hd) as (E1 & E2 & E3). rewrite E1. cbn beta iota. rewrite E3. cbn [option_bind mbind].
    apply rejected_newline in Hrej; [|apply valid_l in Hvp; apply Hvp]. apply line_start_zero in Hrej. rewrite Hrej, Nat.max_0_r.
    eapply returns_mono; [apply (prev_line_restart _ _ _ None); [by destruct Hbb|done|by left]|].
    intros [found ch] [-> Hres]. split; [|done]. destruct (Nat.ltb_spec a k), (Nat.eqb_spec a 0), (Nat.leb_spec a 0); (done || lia).
  - destruct (at_split_reads r Hr Hh _ _ _ Hc') as (E1 & E2 & E3). rewrite E1. cbn beta iota. rewrite E2. cbn [head option_bind mbind].
    rewrite <-app_assoc in Hvp. pose proof (valid_r _ _ Hvp) as [[Hoky Hokq]%Forall_cons _]. apply Forall_app in Hokq as [Hokq _].
    rewrite accepts_newline in Hy by done. apply rejected_newline in Hq; [|done].
    assert (Ej : line_start (chunks_text (p' ++ y :: q)) = length (chunks_text p') + line_start (ctext y)).
    { rewrite chunks_text_app, chunks_text_cons, line_start_app, newline_count_app.
      destruct (Nat.eqb_spec (newline_count (ctext y) + newline_count (chunks_text q)) 0) as [E|_].
      - assert (E' : newline_count (ctext y) = 0) by lia. by rewrite E' in Hy.
      - rewrite line_start_app, Hq. done. }
    rewrite rfind_newline. change (last_one (nl_bits (ctext y))) with (line_start (ctext y)).
    destruct (line_start (ctext y)) as [|i] eqn:Els; [apply line_start_zero in Els; by rewrite Els in Hy|].
    set (j := length (chunks_text p') + i + 1). replace (line_start (chunks_text (p' ++ y :: q))) with j by (subst j; lia).
    pose proof (line_start_le (ctext y)) as Hly. unfold with_offset. cbn [ck_chunks ck_range ck_reversed ck_offset].
    assert (Ev : offset_is_valid (MkChunks c' (a, b) j false) = (a <=? j)).
    { unfold offset_is_valid. cbn [ck_reversed ck_offset ck_range fst snd].
      destruct (Nat.ltb_spec j a), (Nat.leb_spec b j), (Nat.leb_spec a j); (done || lia). }
    fold j. rewrite Ev. destruct (Nat.leb_spec a j) as [Haj|Haj].
    + rewrite E3. cbn beta iota. rewrite Nat.max_r by lia. pose proof (at_split_items r Hr _ _ _ Hc') as [Ei' _].
      destruct (Nat.eqb_spec j (length (chunks_text p') + length (ctext y))) as [Ee|Ee].
      * destruct (next_placed r Hr Hh _ _ _ _ Hc') as (c2 & -> & Hc2). rewrite <-Ee in Hc2. apply returns_Ret. split; [done|].
        apply chunks_at_resting. by split_and!.
      * apply returns_Ret. split; [done|]. apply chunks_at_resting. split_and!; [done..|]. left. eexists _, _. split; [exact Hc'|].
        apply (inside_placed r); try done. cbn. lia.
    + rewrite Nat.max_l by lia. eapply returns_mono; [apply (prev_line_restart _ _ _ (Some y)); [by destruct Hc'|done|right; lia]|].
      intros [found ch] [-> Hres]. split; [|done]. destruct (Nat.eqb_spec a 0); [lia|]. by rewrite andb_false_r.
Qed.

(** The chunk before the offset. *)
Lemma prev_line_chunk c k :
  near c k → k ≤ length T →
  returns (let* s := chunk_start c in if k =? s then prev c else Ret c) (λ c',
    (k = 0 ∧ before_begin (chunks r) c' ∧ c_did_seek c' = true) ∨
    (∃ p x l, at_split r c' p (x :: l) ∧ length (chunks_text p) < k ≤ length (chunks_text p) + length (ctext x))).
Proof.
  intros (p & l & Hc & Hp & Hx) Hk. destruct (at_split_reads r Hr Hh _ _ _ Hc) as (E1 & _).
  pose proof (at_split_items r Hr _ _ _ Hc) as [Ei _]. rewrite E1. cbn beta iota.
  destruct (Nat.eqb_spec k (length (chunks_text p))) as [Ek|Hne].
  - pose proof Hr as (Hw & Hv & _). eapply returns_mono; [by apply prev_at|]. intros c'. unfold stepped_back.
    destruct (nil_or_snoc p) as [->|(q & y & ->)]; [by intros [Hb Hd]; left|].
    rewrite last_snoc, removelast_last. intros Hc'. right. exists q, y, l. split; [done|].
    rewrite <-app_assoc in Ei. pose proof (chunk_pos r Hr Hh _ _ _ Ei).
    rewrite chunks_text_app, chunks_text_single, length_app in Ek. lia.
  - apply returns_Ret. right. destruct l as [|x l]; [rewrite (T_length r _ _ Ei) in Hk; simpl in Hk; lia|].
    exists p, x, l. split; [done|]. specialize (Hx x eq_refl). lia.
Qed.

Lemma prev_newline_spec c p x l k rng rv :
  at_split r c p (x :: l) → length (chunks_text p) < k ≤ length (chunks_text p) + length (ctext x) →
  str_is_char_boundary T k = true →
  let n := line_start (take (k - 1 - length (chunks_text p)) (ctext x)) in
  prev_newline (MkChunks c rng k rv) = Ret (if n =? 0 then None else Some (length (chunks_text p) + n)) ∧
  prev_line_start k = if n =? 0 then line_start (chunks_text p) else length (chunks_text p) + n.
Proof.
  intros Hc Hk Bk. destruct (at_split_reads r Hr Hh _ _ _ Hc) as (E1 & E2 & _). pose proof (at_split_items r Hr _ _ _ Hc) as [Ei _].
  cbn zeta. set (ix := k - 1 - length (chunks_text p)). split.
  - unfold prev_newline. cbn [ck_chunks ck_offset]. rewrite E2. cbn [head]. rewrite E1. cbn beta iota.
    rewrite usize_sub_ok by lia. cbn beta iota. rewrite usize_sub_ok by lia. cbn beta iota.
    replace (k - length (chunks_text p) - 1) with ix by lia.
    destruct (lookup_lt_is_Some_2 (ctext x) ix) as [y Hy]; [lia|]. rewrite Hy. cbn [unwrap].
    assert (HTy : T !! (k - 1) = Some y).
    { unfold rope_text. rewrite Ei, chunks_text_app, chunks_text_cons, lookup_app_r by lia.
      rewrite lookup_app_l by lia. replace (k - 1 - length (chunks_text p)) with ix by lia. done. }
    set (e := if (y =? 10)%N then ix else k - length (chunks_text p)).
    assert (Be : str_is_char_boundary (ctext x) e = true).
    { subst e. destruct (N.eqb_spec y 10) as [->|_]; [|by rewrite (chunk_boundary_at r Hr p x l) by (done || lia)].
      replace ix with ((k - 1) - length (chunks_text p)) by lia. rewrite (chunk_boundary_at r Hr p x l) by (done || lia).
      by destruct (newline_boundary r Hr _ HTy). }
    unfold str_slice. rewrite Be. cbn [Nat.leb andb]. rewrite Nat.sub_0_r, drop_0. replace (str_is_char_boundary (ctext x) 0) with true by done.
    cbn [andb]. cbn beta iota. rewrite rfind_newline.
    assert (En : line_start (take e (ctext x)) = line_start (take ix (ctext x))).
    { subst e. destruct (N.eqb_spec y 10) as [->|Hy10]; [done|]. replace (k - length (chunks_text p)) with (S ix) by lia.
      rewrite (take_S_r _ _ y), line_start_app by done. unfold newline_count. csimpl. unfold is_newline.
      by destruct (N.eqb_spec y 10). }
    change (last_one (nl_bits (take e (ctext x)))) with (line_start (take e (ctext x))). rewrite En.
    destruct (line_start (take ix (ctext x))); [done|]. cbn [Nat.eqb fmap option_fmap option_map]. do 2 f_equal. lia.
  - unfold prev_line_start.
    assert (Et : take (k - 1) T = chunks_text p ++ take ix (ctext x)).
    { unfold rope_text. rewrite Ei, chunks_text_app, chunks_text_cons, take_app_ge by lia. f_equal. apply take_app_le. lia. }
    rewrite Et, line_start_app.
    destruct (Nat.eqb_spec (newline_count (take ix (ctext x))) 0) as [E|E], (Nat.eqb_spec (line_start (take ix (ctext x))) 0) as [E'|E']; try done.
    + by apply line_start_zero in E.
    + by apply line_start_zero in E'.
Qed.

(** Reading back from the front leaves the cursor there. *)
Lemma search_backward_front (c : chunk_cursor) :
  before_begin (chunks r) c → c_did_seek c = true →
  returns (search_backward has_newline c) (λ c', before_begin (chunks r) c' ∧ c_did_seek c' = true).
Proof.
  intros (Ht & Hs & Hp & He) Hd. unfold search_backward. rewrite Hd, He, Ht, Hs, Hp.
  destruct (is_empty (chunks r)) eqn:Ee; cbn [cursor_fuel loop backward_step]; apply returns_Ret; by repeat split.
Qed.

Lemma prev_line_spec ch k :
  resting ch k → within k →
  returns (prev_line ch) (λ '(found, ch'),
    found = (0 <? k) && (a <=? prev_line_start k) ∧ resting ch' (Nat.max a (prev_line_start k))).
Proof.
  intros (Er & Eo & Ev & Hn & _) (Hk1 & Hb & Ba & _ & Bk). unfold prev_line. rewrite Ev, Eo. cbn [negb rust_assert].
  destruct (prev_line_chunk (ck_chunks ch) k Hn ltac:(lia)) as (c & Ec & Hc).
  destruct (chunk_start (ck_chunks ch)) as [s| |]; cbn beta iota in Ec |- *; [|done|done]. rewrite Ec. cbn beta iota.
  unfold with_cursor. rewrite Er, Eo, Ev. destruct Hc as [(-> & Hbb & Hd)|(p & x & l & Hc & Hk)].
  - destruct (before_begin_reads r c Hbb Hd) as (_ & _ & E3). unfold prev_newline. cbn [ck_chunks]. rewrite E3. cbn beta iota.
    unfold prev_line_search. cbn [ck_chunks ck_range ck_reversed].
    destruct (search_backward_front c Hbb Hd) as (c' & -> & Hbb' & Hd'). destruct (before_begin_reads r c' Hbb' Hd') as (E1' & _ & E3').
    cbn beta iota. rewrite E1'. cbn beta iota. rewrite E3'. cbn [option_bind mbind].
    eapply returns_mono; [apply (prev_line_restart _ _ _ None); [by destruct Hbb'|done|by left]|].
    intros [found ch'] [-> Hres]. assert (a = 0) as -> by lia. done.
  - destruct (prev_newline_spec c p x l k (a, b) false Hc Hk Bk) as [Epn Eps]. rewrite Epn, Eps. cbn beta iota.
    destruct (Nat.ltb_spec 0 k); [|lia]. cbn [andb]. set (n := line_start (take (k - 1 - length (chunks_text p)) (ctext x))) in *.
    pose proof (line_start_le (take (k - 1 - length (chunks_text p)) (ctext x))) as Hle. fold n in Hle. rewrite length_take in Hle.
    pose proof (prev_line_search_spec c p x l) as Hsearch.
    destruct (Nat.eqb_spec n 0) as [Hz|Hz]; [by apply Hsearch; (done || lia)|].
    set (j := length (chunks_text p) + n) in *. unfold with_offset. cbn [ck_chunks ck_range ck_reversed ck_offset].
    assert (Evj : offset_is_valid (MkChunks c (a, b) j false) = (a <=? j)).
    { unfold offset_is_valid. cbn [ck_reversed ck_offset ck_range fst snd].
      destruct (Nat.ltb_spec j a), (Nat.leb_spec b j), (Nat.leb_spec a j); (done || lia). }
    rewrite Evj. destruct (Nat.leb_spec a j) as [Haj|Haj].
    + apply returns_Ret. split; [done|]. rewrite Nat.max_r by lia. apply chunks_at_resting. split_and!; [done..|]. left.
      pose proof (at_split_items r Hr _ _ _ Hc) as [Ei _]. eexists _, _. split; [exact Hc|]. apply (inside_placed r); try done. cbn. lia.
    + pose proof (line_start_le (chunks_text p)) as Hl0.
      destruct (Hsearch j k Hc ltac:(lia) ltac:(lia) ltac:(lia) Hb) as ([found ch'] & E & -> & Hres). exists ((a <=? line_start (chunks_text p)), ch').
      split; [exact E|]. rewrite Nat.max_l in Hres |- * by lia. split; [|done]. apply Nat.leb_gt. lia.
Qed.
End Moves.
