(* ===== verification/RopeChunksSpec.v ===== *)
(** * Theorems about the iterators of ropes *)
From stdpp Require Import base numbers option list.
From Stdlib Require Import Lia.
From S2P Require Import Prelude SumTree SumTreeFacts Cursor CursorMove CursorIter Integers Bits Utf8 Point Chunk ChunkMeasures TextSummary.
From S2P Require Import ChunkPointsFacts RopeTree Rope RopeBuild RopeSlice RopeSpec RopeChunks RopeChunksFacts RopeCompare.
From S2P Require Import RopeLinesIter RopeLineMoves.
#[local] Opaque TREE_BASE av_cap sample sample_text.

(** A range between boundaries. *)
Definition range_ok (r : Rope) (a b : nat) : Prop :=
  a ≤ b ≤ length (rope_text r) ∧ str_is_char_boundary (rope_text r) a = true ∧ str_is_char_boundary (rope_text r) b = true.

Lemma range_ok_in r a b : range_ok r a b → in_range r a b a ∧ in_range r a b b.
Proof. intros (Hab & Ha & Hb). split; split_and!; (done || lia). Qed.

Lemma sample_height : height (chunks sample) < STACK_CAP.
Proof. apply Nat.ltb_lt. by vm_compute. Qed.
Lemma sample_range : range_ok sample 3 157.
Proof.
  destruct sample_ok as [_ Et]. unfold range_ok. rewrite Et.
  split_and!; [apply Nat.leb_le; by vm_compute|apply Nat.leb_le; by vm_compute|by vm_compute|by vm_compute].
Qed.

(** C35: Reading a range chunk by chunk ends, in either direction, and the pieces
    put together are the text of the range; reading it as bytes gives the same,
    also where the range cuts characters. *)
Theorem chunks_refine r a b reversed debug :
  rope_wf r → height (chunks r) < STACK_CAP → a ≤ b ≤ length (rope_text r) →
  returns (let* it := bytes_new r (a, b) reversed in bytes_collect it)
    (λ ps, concat (if reversed then reverse ps else ps) = part r a b) ∧
  (range_ok r a b →
    returns (let* ch := chunks_new debug r (a, b) reversed in chunks_collect ch)
      (λ ps, concat (if reversed then reverse ps else ps) = part r a b ∧ Forall (λ s : list N, s ≠ []) ps)).
Proof.
  intros Hr Hh Hab. split; [destruct reversed; [by apply bytes_backward_spec|by apply bytes_forward_spec]|].
  intros Hok. pose proof (range_ok_in r a b Hok) as [Ha _]. destruct Hok as (_ & Ba & Bb).
  destruct (chunks_new_spec r Hr Hh debug a b reversed Hab Ba Bb) as (ch & -> & Hch).
  apply (chunks_collect_spec r Hr Hh ch a b reversed); [done|done|lia].
Qed.
Lemma chunks_refine_witness :
  returns (let* ch := chunks_new true sample (3, 157) true in chunks_collect ch)
    (λ ps, concat (reverse ps) = part sample 3 157 ∧ Forall (λ s : list N, s ≠ []) ps).
Proof.
  destruct sample_ok as [Hw _]. pose proof sample_range as Hok. pose proof Hok as [Hab _].
  exact (proj2 (chunks_refine sample 3 157 true true Hw sample_height Hab) Hok).
Defined.

(** C36: The lines of a range are those of its text, split at newlines, from the
    first or from the last, however the chunks cut them, and reading them
    ends. *)
Theorem lines_refine r a b (reversed : bool) debug :
  rope_wf r → height (chunks r) < STACK_CAP → range_ok r a b →
  returns (let* ch := chunks_new debug r (a, b) reversed in lines_collect (chunks_lines ch))
    (λ ls, ls = if reversed then reverse (split_newlines (part r a b)) else split_newlines (part r a b)).
Proof.
  intros Hr Hh Hok. pose proof (range_ok_in r a b Hok) as [Ha Hb]. destruct Hok as (Hab & Ba & Bb).
  destruct (chunks_new_spec r Hr Hh debug a b reversed Hab Ba Bb) as (ch & -> & Hch).
  pose proof (lines_collect_spec r Hr Hh a b ch (if reversed then b else a) reversed Hch) as H.
  by destruct reversed; apply H.
Qed.
Lemma lines_refine_witness :
  returns (let* ch := chunks_new false sample (3, 157) true in lines_collect (chunks_lines ch))
    (λ ls, ls = reverse (split_newlines (part sample 3 157))).
Proof.
  destruct sample_ok as [Hw _]. exact (lines_refine sample 3 157 true false Hw sample_height sample_range).
Defined.

(** Comparing a range of a rope with a string, and testing for a prefix or a
    suffix, answer as on the text, without a panic at any character boundary
    that the chunks do not share with the string. *)
Theorem rope_compare_refines r a b reversed s debug :
  rope_wf r → height (chunks r) < STACK_CAP → range_ok r a b → utf8 s →
  returns (let* ch := chunks_new debug r (a, b) reversed in equals_str ch s) (λ e, e = bool_decide (s = part r a b)) ∧
  returns (starts_with debug r s) (λ e, e = str_starts_with (rope_text r) s) ∧
  returns (ends_with debug r s) (λ e, e = str_ends_with (rope_text r) s).
Proof.
  intros Hr Hh Hok Hs. pose proof (range_ok_in r a b Hok) as [Ha _]. destruct Hok as (Hab & Ba & Bb).
  split_and!; [|by apply rope_starts_with|by apply rope_ends_with].
  destruct (chunks_new_spec r Hr Hh debug a b reversed Hab Ba Bb) as (ch & -> & Hch).
  destruct reversed; [eapply equals_backward_spec|eapply equals_forward_spec]; (done || lia).
Qed.
Lemma rope_compare_refines_witness :
  returns (let* ch := chunks_new false sample (3, 157) false in equals_str ch [65]%N) (λ e, e = bool_decide ([65]%N = part sample 3 157)).
Proof.
  destruct sample_ok as [Hw _].
  assert (Hs : utf8 [65]%N) by (apply (utf8_cons [65]%N); [by vm_compute|constructor]).
  exact (proj1 (rope_compare_refines sample 3 157 false [65]%N false Hw sample_height sample_range Hs)).
Defined.

(** From any place it can rest in, [next_line] goes past the next newline of
    the range, or to its end, and [prev_line] to the start of the last line
    that begins before it, or to the start of the range; both say whether they
    found a line, and leave the iterator where either can be called again. *)
Theorem line_moves_refine r a b ch k :
  rope_wf r → height (chunks r) < STACK_CAP → resting r a b ch k → in_range r a b k →
  returns (next_line ch) (λ '(found, ch'),
    found = negb (newline_count (part r k b) =? 0) ∧
    resting r a b ch' (next_line_start r b k) ∧ in_range r a b (next_line_start r b k)) ∧
  returns (prev_line ch) (λ '(found, ch'),
    found = (0 <? k) && (a <=? prev_line_start r k) ∧ resting r a b ch' (Nat.max a (prev_line_start r k))).
Proof.
  intros Hr Hh Hc Hk. split; [|by apply prev_line_spec].
  eapply returns_mono; [by apply next_line_spec|]. intros [found ch'] [H1 H2]. split_and!; [done|done|by apply next_line_within].
Qed.
Lemma line_moves_refine_witness :
  returns (let* ch := chunks_new false sample (3, 157) false in prev_line ch) (λ '(found, ch'),
    found = (3 <=? prev_line_start sample 3) ∧ resting sample 3 157 ch' (Nat.max 3 (prev_line_start sample 3))).
Proof.
  destruct sample_ok as [Hw _]. destruct sample_range as (Hab & Ha & Hb).
  pose proof (proj1 (range_ok_in sample 3 157 sample_range)) as Hk.
  destruct (chunks_new_spec sample Hw sample_height false 3 157 false Hab Ha Hb) as (ch & -> & Hch).
  exact (proj2 (line_moves_refine sample 3 157 ch 3 Hw sample_height (chunks_at_resting sample sample_height 3 157 ch 3 Hch) Hk)).
Defined.

(** ** Seeking after reading to the front *)
(** [read_on ch ch']: reading pieces leads from [ch] to [ch']. *)
Inductive read_on : Chunks → Chunks → Prop :=
| read_nothing ch : read_on ch ch
| read_piece ch s ch1 ch2 : chunks_next ch = Ret (Some s, ch1) → read_on ch1 ch2 → read_on ch ch2.

Section Front.
Context (r : Rope) (Hr : rope_wf r) (Hh : height (chunks r) < STACK_CAP).
(** The iterator has left the rope at its front. *)
Definition gone (b : nat) (ch : Chunks) : Prop :=
  ck_range ch = (0, b) ∧ ck_offset ch = 0 ∧ ck_reversed ch = true ∧ before_begin (chunks r) (ck_chunks ch) ∧ c_did_seek (ck_chunks ch) = true.

Lemma next_towards_front ch b k : chunks_at r ch 0 b k true → in_range r 0 b k → 0 < k →
  ∃ m s ch', m < k ∧ chunks_next ch = Ret (Some s, ch') ∧ in_range r 0 b m ∧ chunks_at r ch' 0 b m true ∧ (m = 0 → gone b ch').
Proof using Hr Hh.
  intros Hc Hk Hlt. destruct (chunks_at_inside r Hr Hh ch 0 b k true Hc Hk Hlt) as (p & x & l & Hs & Hin).
  pose proof (at_split_items r Hr _ _ _ Hs) as [Ei _]. pose proof Hr as (Hw & Hv & _).
  destruct (next_offset_bounds r Hr Hh p x l 0 b k true Ei Hin Hk Hlt) as (Hm & Hrm & _).
  pose proof (chunks_peek_at r Hr Hh _ _ _ _ _ _ _ _ Hc Hk Hlt Hs Hin) as Ep.
  unfold next_offset, piece in *. rewrite Nat.max_0_r in *. set (m := length (chunks_text p)) in *.
  destruct (at_split_reads r Hr Hh _ _ _ Hs) as (Es & _). pose proof Hc as (Er & Eo & Ev & _).
  destruct (prev_at (chunks r) Hw Hv Hh _ _ _ Hs) as (c' & Ec & Hb).
  pose proof (prev_placed r Hr Hh _ _ _ Hs) as Hp. rewrite Ec in Hp. destruct Hp as (c2 & [= <-] & Hp).
  exists m, (part r m k), (MkChunks c' (0, b) m true). split_and!; [lia| |done|by split_and!|].
  - unfold chunks_next. rewrite Ep. cbn beta iota. unfold chunks_advance. rewrite Ev, Eo, Er, part_length by (destruct Hk; lia).
    rewrite usize_sub_ok by lia. cbn beta iota. rewrite Es. cbn beta iota. replace (k - (k - m)) with m by lia. rewrite Nat.leb_refl, Ec. done.
  - intros E0. assert (p = []) as ->.
    { destruct (nil_or_snoc p) as [?|(q & y & ->)]; [done|]. rewrite <-app_assoc in Ei. pose proof (chunk_pos r Hr Hh q y _ Ei).
      subst m. rewrite chunks_text_app, chunks_text_single, length_app in E0. lia. }
    destruct Hb as [Hb Hd]. by split_and!.
Qed.
Lemma read_to_front ch b k : chunks_at r ch 0 b k true → in_range r 0 b k → 0 < k → ∃ front, read_on ch front ∧ gone b front.
Proof using Hr Hh.
  revert ch. induction k as [k IH] using lt_wf_ind. intros ch Hc Hk Hlt.
  destruct (next_towards_front ch b k Hc Hk Hlt) as (m & s & ch' & Hm & En & Hrm & Hc' & H0).
  destruct (Nat.eq_dec m 0) as [E|E]; [exists ch'; split; [|by apply H0]; eapply read_piece; [done|constructor]|].
  destruct (IH m Hm ch' Hc' Hrm ltac:(lia)) as (front & Hf & Hg). exists front. split; [|done]. by eapply read_piece.
Qed.
Lemma gone_seek b ch j : gone b ch → 0 < j ≤ b →
  returns (chunks_seek ch j) (λ ch', chunks_peek ch' = Ret None ∧ chunks_next ch' = Ret (None, ch')).
Proof using Hh.
  intros (Er & Eo & Ev & Hb & Hd) Hj. destruct (before_begin_reads r _ Hb Hd) as (E1 & E2 & _). pose proof Hb as (_ & Hs & Hp & _).
  unfold chunks_seek, usize_clamp. rewrite Er, Ev. cbn [fst snd]. cbn [Nat.leb rust_assert]. replace (Nat.min (Nat.max j 0) b) with j by lia.
  rewrite E2. cbn beta iota. rewrite E1. cbn beta iota. destruct (Nat.ltb_spec 0 j); [|lia].
  assert (Hf : ∃ c', seek_forward (ck_chunks ch) j Left = Ret (false, c') ∧ item c' = Ret None).
  { unfold seek_forward, seek_internal. rewrite Hd, Hs, Hp. eexists. split.
    - unfold cursor_fuel. cbn [loop seek_step]. unfold item_summary. cbn. destruct j; [lia|]. cbn. done.
    - done. }
  destruct Hf as (c' & -> & Ei). apply returns_Ret. assert (Hpeek : chunks_peek (MkChunks c' (0, b) j true) = Ret None).
  { unfold chunks_peek. case_match; [done|]. cbn [ck_chunks]. by rewrite Ei. }
  split; [done|]. unfold chunks_next. by rewrite Hpeek.
Qed.
End Front.

(** C40: A reversed iterator over the first [b] bytes of a rope can be read to
    the front of the rope, and then cannot be sought any more: its cursor has
    left the tree, and [seek] moves it forward from there, which finds
    nothing, whatever the offset, so there is no text to read. Sought before
    reading, it shows the text before the offset. *)
Theorem reversed_seek_lost r b j debug :
  rope_wf r → height (chunks r) < STACK_CAP → range_ok r 0 b → 0 < j ≤ b → str_is_char_boundary (rope_text r) j = true →
  returns (chunks_new debug r (0, b) true) (λ ch,
    (∃ front, read_on ch front ∧ chunks_next front = Ret (None, front) ∧
      returns (chunks_seek front j) (λ ch', chunks_peek ch' = Ret None ∧ chunks_next ch' = Ret (None, ch'))) ∧
    returns (chunks_seek ch j) (λ ch', ∃ m, m < j ∧ chunks_peek ch' = Ret (Some (part r m j)))).
Proof.
  intros Hr Hh Hok Hj Hbj. pose proof (range_ok_in r 0 b Hok) as [_ Hb]. destruct Hok as (Hab & Ha & Hbb).
  destruct (chunks_new_spec r Hr Hh debug 0 b true Hab Ha Hbb) as (ch & -> & Hch). apply returns_Ret. cbn beta iota in Hch. split.
  - destruct (read_to_front r Hr Hh ch b b Hch Hb ltac:(lia)) as (front & Hf & Hg). exists front. split; [done|]. split; [|by apply (gone_seek r Hh b)].
    destruct Hg as (Er & Eo & Ev & _). unfold chunks_next, chunks_peek, offset_is_valid. by rewrite Er, Eo, Ev.
  - destruct (chunks_seek_spec r Hr Hh ch 0 b b j true Hch ltac:(lia)) as (ch' & -> & Hch'); [right; lia|]. apply returns_Ret.
    replace (Nat.min (Nat.max j 0) b) with j in Hch' by lia.
    destruct (chunks_peek_more r Hr Hh _ _ _ _ _ Hch') as (m & [Hm _] & Ep & _); [|cbn; lia|by exists m; split; [lia|]].
    split_and!; try done; lia.
Qed.
Lemma reversed_seek_lost_witness :
  returns (chunks_new true sample (0, 157) true) (λ ch, ∃ front, read_on ch front ∧
    returns (chunks_seek front 3) (λ ch', chunks_peek ch' = Ret None)).
Proof.
  destruct sample_ok as [Hw _]. pose proof sample_range as (H1 & H2 & H3).
  destruct (reversed_seek_lost sample 157 3 true Hw sample_height) as (ch & E & (front & Hf & _ & ch' & Es & Ep & _) & _).
  - split_and!; [lia|lia|reflexivity|exact H3].
  - lia.
  - exact H2.
  - exists ch. split; [exact E|]. exists front. split; [exact Hf|]. exists ch'. by split.
Defined.
