(* ===== verification/Fragment.v ===== *)
(** * The fragments of a buffer ([crates/text/src/text.rs])

    A buffer keeps all text ever inserted, in fragments: a fragment is a part
    of the text of one insertion, at a position given by its locator, visible
    or not.  [u32] fields are [nat] here; [as_u32] is the cast that wraps. *)
From stdpp Require Import base numbers option list sorting.
From Stdlib Require Import Lia.
From S2P Require Import Prelude Clock SumTree SumTreeFacts SumTreeBulk Cursor Keyed KeyedFacts Locator UndoMap.
#[local] Opaque TREE_BASE av_cap.

Definition as_u32 (n : nat) : nat := N.to_nat (wrap 32 (N.of_nat n)).
Definition U32_add (a b : nat) : outcome nat := if (N.of_nat (a + b) <=? U32_MAX)%N then Ret (a + b) else Panic.

Record Fragment := MkFragment {
  f_id : Locator; f_timestamp : Lamport; f_insertion_offset : nat; f_len : nat; f_visible : bool;
  f_deletions : list Lamport; f_max_undos : Global }.

Record FragmentTextSummary := MkFragmentText { ft_visible : nat; ft_deleted : nat }.

Record FragmentSummary := MkFragmentSummary {
  fs_text : FragmentTextSummary; fs_max_id : Locator; fs_max_version : Global;
  fs_min_insertion_version : Global; fs_max_insertion_version : Global }.

Definition ft_zero : FragmentTextSummary := MkFragmentText 0 0.
Definition ft_add (a b : FragmentTextSummary) : FragmentTextSummary :=
  MkFragmentText (ft_visible a + ft_visible b) (ft_deleted a + ft_deleted b).

(** [impl Summary for FragmentSummary] *)
Definition fragment_summary_default : FragmentSummary :=
  MkFragmentSummary ft_zero locator_min Global_new Global_new Global_new.
#[export] Instance FragmentSummary_summary : Summary FragmentSummary :=
  {| zero := fragment_summary_default;
     add_summary := λ self other,
       MkFragmentSummary (ft_add (fs_text self) (fs_text other))
         (assign (fs_max_id self) (fs_max_id other))
         (join (fs_max_version self) (fs_max_version other))
         (meet (fs_min_insertion_version self) (fs_min_insertion_version other))
         (join (fs_max_insertion_version self) (fs_max_insertion_version other)) |}.

(** [impl Item for Fragment] *)
#[export] Instance Fragment_item : Item Fragment FragmentSummary := λ self,
  let max_version := observe Global_new (f_timestamp self) in
  let max_version := foldl observe max_version (f_deletions self) in
  let max_version := join max_version (f_max_undos self) in
  let min_insertion_version := observe Global_new (f_timestamp self) in
  let max_insertion_version := min_insertion_version in
  MkFragmentSummary
    (if f_visible self then MkFragmentText (f_len self) 0 else MkFragmentText 0 (f_len self))
    (f_id self) max_version min_insertion_version max_insertion_version.

(** ** Dimensions of fragments *)
#[export] Instance FragmentTextSummary_dimension : Dimension FragmentTextSummary FragmentSummary :=
  {| dim_zero := ft_zero; dim_add := λ self summary, ft_add self (fs_text summary) |}.
#[export] Instance usize_fragment_dimension : Dimension nat FragmentSummary :=
  {| dim_zero := 0; dim_add := λ self summary, self + ft_visible (fs_text summary) |}.
Record FullOffset := MkFullOffset { full_offset : nat }.
#[export] Instance FullOffset_dimension : Dimension FullOffset FragmentSummary :=
  {| dim_zero := MkFullOffset 0;
     dim_add := λ self summary,
       MkFullOffset (full_offset self + (ft_visible (fs_text summary) + ft_deleted (fs_text summary))) |}.
#[export] Instance Locator_fragment_dimension : Dimension (option Locator) FragmentSummary :=
  {| dim_zero := None; dim_add := λ _ summary, Some (fs_max_id summary) |}.

(** [impl SeekTarget<FragmentTextSummary> for usize] *)
#[export] Instance usize_fragment_target : SeekTarget nat FragmentTextSummary :=
  λ self cursor_location, cmp self (ft_visible cursor_location).

(** [VersionedFullOffset]: offsets in the text a version has seen; a run of
    fragments of which it has seen some has none. *)
Inductive VersionedFullOffset := Offset (position : FullOffset) | Invalid.
Definition versioned_full_offset (self : VersionedFullOffset) : outcome nat :=
  match self with Offset position => Ret (full_offset position) | Invalid => Panic end.
(** The context of the dimension is [Some version]. *)
Definition versioned_dimension (version : Global) : Dimension VersionedFullOffset FragmentSummary :=
  {| dim_zero := Offset (MkFullOffset 0);
     dim_add := λ self summary,
       match self with
       | Offset offset =>
           if observed_all version (fs_max_insertion_version summary) then
             Offset (MkFullOffset (full_offset offset
               + (ft_visible (fs_text summary) + ft_deleted (fs_text summary))))
           else if observed_any version (fs_min_insertion_version summary) then Invalid
           else self
       | Invalid => Invalid
       end |}.
(** Targets are [VersionedFullOffset::Offset]s. *)
#[export] Instance versioned_target : SeekTarget FullOffset VersionedFullOffset :=
  λ self cursor_position,
    match cursor_position with
    | Offset b => cmp (full_offset self) (full_offset b)
    | Invalid => Lt
    end.

(** ** Visibility *)
(** [deletions.iter().all(..)], with a test that may fail *)
Fixpoint all_deletions (test : Lamport → outcome bool) (deletions : list Lamport) : outcome bool :=
  match deletions with
  | [] => Ret true
  | d :: deletions => let* b := test d in if (b : bool) then all_deletions test deletions else Ret false
  end.
Definition is_visible (self : Fragment) (undos : UndoMap) : outcome bool :=
  let* undone := is_undone undos (f_timestamp self) in
  if (undone : bool) then Ret false else all_deletions (is_undone undos) (f_deletions self).
Definition was_visible (self : Fragment) (version : Global) (undos : UndoMap) : outcome bool :=
  if observed version (f_timestamp self) then
    let* undone := was_undone undos (f_timestamp self) version in
    if (undone : bool) then Ret false
    else all_deletions (λ d, if negb (observed version d) then Ret true else was_undone undos d version) (f_deletions self)
  else Ret false.

(** ** The index of insertions *)
Record InsertionFragmentKey := MkInsertionKey { ik_timestamp : Lamport; ik_split_offset : nat }.
Record InsertionFragment := MkInsertion {
  if_timestamp : Lamport; if_split_offset : nat; if_fragment_id : Locator }.

(** [derive(Ord)]: lexicographic. *)
#[export] Instance InsertionFragmentKey_ord : Ord InsertionFragmentKey := λ a b,
  then_with (cmp (ik_timestamp a) (ik_timestamp b)) (cmp (ik_split_offset a) (ik_split_offset b)).
#[export] Instance InsertionFragmentKey_summary : Summary InsertionFragmentKey :=
  {| zero := MkInsertionKey Lamport_MIN 0; add_summary := λ _ summary, summary |}.
#[export] Instance InsertionFragment_item : Item InsertionFragment InsertionFragmentKey :=
  λ self, MkInsertionKey (if_timestamp self) (if_split_offset self).
#[export] Instance InsertionFragment_keyed : KeyedItem InsertionFragment InsertionFragmentKey :=
  λ self, MkInsertionKey (if_timestamp self) (if_split_offset self).
#[export] Instance InsertionFragmentKey_dimension : Dimension InsertionFragmentKey InsertionFragmentKey :=
  summary_dimension.

Definition insertion_new (fragment : Fragment) : InsertionFragment :=
  MkInsertion (f_timestamp fragment) (f_insertion_offset fragment) (f_id fragment).
Definition insert_new (fragment : Fragment) : Edit InsertionFragment InsertionFragmentKey :=
  Insert (insertion_new fragment).

(** ** Which parts of insertions an edit made or deleted *)
Record InsertionSlice := MkInsertionSlice {
  sl_edit_id : Lamport; sl_insertion_id : Lamport; sl_start : nat; sl_end : nat }.
#[export] Instance InsertionSlice_ord : Ord InsertionSlice := λ self other,
  then_with (cmp (sl_edit_id self) (sl_edit_id other))
    (then_with (cmp (sl_insertion_id self) (sl_insertion_id other))
      (then_with (cmp (sl_start self) (sl_start other)) (cmp (sl_end self) (sl_end other)))).
Definition slice_from_fragment (edit_id : Lamport) (fragment : Fragment) : outcome InsertionSlice :=
  let* e := U32_add (f_insertion_offset fragment) (f_len fragment) in
  Ret (MkInsertionSlice edit_id (f_timestamp fragment) (f_insertion_offset fragment) e).

(** * Laws of the summaries of fragments, and the text they stand for *)
(** ** Version vectors without trailing zeros are determined by their entries *)
Lemma trimmed_ext g h : trimmed g → trimmed h → (∀ r, get g r = get h r) → g = h.
Proof.
  intros Hg Hh E. assert (length (values g) = length (values h)) as El.
  { apply Nat.le_antisymm; apply trimmed_length_le; try done; intros r; by rewrite E. }
  destruct g as [vg], h as [vh]. f_equal. apply list_eq. intros i. specialize (E (MkReplicaId (N.of_nat i))).
  rewrite !get_lookup in E. cbn [values] in *.
  destruct (vg !! i) as [x|] eqn:Ex, (vh !! i) as [y|] eqn:Ey; cbn in E; [by f_equal| | |done].
  - apply lookup_lt_Some in Ex. apply lookup_ge_None in Ey. lia.
  - apply lookup_lt_Some in Ey. apply lookup_ge_None in Ex. lia.
Qed.

Lemma join_assoc g h k : trimmed g → trimmed h → trimmed k → join g (join h k) = join (join g h) k.
Proof. intros. apply trimmed_ext; [by repeat apply trimmed_join..|]. intros r. rewrite !get_join. lia. Qed.
Lemma join_new_l g : trimmed g → join Global_new g = g.
Proof. intros. apply trimmed_ext; [by apply trimmed_join|done|]. intros r. rewrite get_join. change (get Global_new r) with 0%N. lia. Qed.
Lemma meet_entry_assoc a b c : meet_entry a (meet_entry b c) = meet_entry (meet_entry a b) c.
Proof.
  unfold meet_entry. destruct (N.eqb_spec a 0) as [->|Ha]; [done|]. destruct (N.eqb_spec b 0) as [->|Hb].
  - by destruct (N.eqb_spec a 0).
  - destruct (N.eqb_spec c 0) as [->|Hc].
    + destruct (N.eqb_spec b 0); [done|]. by destruct (N.eqb_spec (N.min a b) 0); [lia|].
    + destruct (N.eqb_spec (N.min b c) 0), (N.eqb_spec (N.min a b) 0); lia.
Qed.
Lemma meet_assoc g h k : trimmed g → trimmed h → trimmed k → meet g (meet h k) = meet (meet g h) k.
Proof.
  intros. apply trimmed_ext; [by repeat apply trimmed_meet..|]. intros r. rewrite !get_meet. apply meet_entry_assoc.
Qed.
Lemma meet_new_l g : trimmed g → meet Global_new g = g.
Proof. intros. apply trimmed_ext; [by apply trimmed_meet|done|]. intros r. rewrite get_meet. done. Qed.

(** ** The sum of fragments *)
Definition fragment_sum (l : list Fragment) : FragmentSummary := total l.
Definition visible_len (l : list Fragment) : nat := list_sum ((λ f, if f_visible f then f_len f else 0) <$> l).
Definition deleted_len (l : list Fragment) : nat := list_sum ((λ f, if f_visible f then 0 else f_len f) <$> l).

Definition summary_trimmed (s : FragmentSummary) : Prop :=
  trimmed (fs_max_version s) ∧ trimmed (fs_min_insertion_version s) ∧ trimmed (fs_max_insertion_version s).

Lemma item_trimmed f : trimmed (f_max_undos f) → summary_trimmed (item_summary_of f).
Proof.
  intros Hu. pose proof (trimmed_observe _ (f_timestamp f) trimmed_new) as H0. split_and!; [|done|done].
  apply trimmed_join; [|done]. revert H0. generalize (observe Global_new (f_timestamp f)) as g.
  induction (f_deletions f) as [|d l IH]; intros g Hg; [done|]. by apply IH, trimmed_observe.
Qed.
Lemma add_trimmed a b : summary_trimmed a → summary_trimmed b → summary_trimmed (add_summary a b).
Proof. intros (?&?&?) (?&?&?). split_and!; [by apply trimmed_join|by apply trimmed_meet|by apply trimmed_join]. Qed.
Lemma add_fragment_assoc a b c :
  summary_trimmed a → summary_trimmed b → summary_trimmed c →
  add_summary a (add_summary b c) = add_summary (add_summary a b) c.
Proof.
  intros (?&?&?) (?&?&?) (?&?&?). cbn. unfold ft_add; cbn.
  rewrite !join_assoc, meet_assoc by done. f_equal. f_equal; lia.
Qed.
Lemma zero_add_fragment a : summary_trimmed a → add_summary zero a = a.
Proof.
  intros (?&?&?). destruct a as [[v d] [i] ? ? ?]. cbn in *. unfold ft_add, assign; cbn.
  by rewrite !join_new_l, meet_new_l.
Qed.

Lemma total_snoc (l : list Fragment) f : total (l ++ [f]) = add_summary (total l) (item_summary_of f).
Proof. unfold total, sum. by rewrite fmap_app, foldl_app. Qed.
Lemma total_trimmed l : Forall (λ f, trimmed (f_max_undos f)) l → summary_trimmed (total l).
Proof.
  induction l as [|f l IH] using rev_ind; [by repeat split|].
  intros [Hl Hf]%Forall_app. rewrite total_snoc. apply add_trimmed; [by apply IH|]. apply Forall_cons in Hf as [Hf _]. by apply item_trimmed.
Qed.

Lemma fragments_total_app l1 l2 : Forall (λ f, trimmed (f_max_undos f)) (l1 ++ l2) → l2 ≠ [] →
  total (l1 ++ l2) = add_summary (total l1) (total l2).
Proof.
  induction l2 as [|x l2 IH] using rev_ind; [done|]. intros Hv _. rewrite app_assoc in Hv.
  apply Forall_app in Hv as [Hv Hx]. apply Forall_cons in Hx as [Hx _]. pose proof Hv as [Hv1 Hv2]%Forall_app.
  rewrite app_assoc, !total_snoc.
  destruct (decide (l2 = [])) as [->|Hne].
  - rewrite app_nil_r. f_equal. change (total []) with (zero : FragmentSummary).
    symmetry. by apply zero_add_fragment, item_trimmed.
  - rewrite IH by done. symmetry. apply add_fragment_assoc; [by apply total_trimmed..|by apply item_trimmed].
Qed.

#[export] Instance Fragment_summary_laws : SummaryLaws Fragment FragmentSummary.
Proof.
  refine {| valid := Forall (λ f, trimmed (f_max_undos f)) |}.
  - by intros l1 l2 Hv%Forall_app.
  - intros x [Hx _]%Forall_cons. unfold total, sum. cbn [foldl fmap list_fmap]. by apply zero_add_fragment, item_trimmed.
  - intros l _ Hl. by apply zero_add_fragment, total_trimmed.
  - intros l1 l2 _ Hl2 Hv. by apply fragments_total_app.
Defined.

(** ** Dimensions *)
Lemma visible_len_app l1 l2 : visible_len (l1 ++ l2) = visible_len l1 + visible_len l2.
Proof. unfold visible_len. by rewrite fmap_app, list_sum_app. Qed.
Lemma deleted_len_app l1 l2 : deleted_len (l1 ++ l2) = deleted_len l1 + deleted_len l2.
Proof. unfold deleted_len. by rewrite fmap_app, list_sum_app. Qed.

Lemma visible_len_snoc l f : visible_len (l ++ [f]) = visible_len l + if f_visible f then f_len f else 0.
Proof. rewrite visible_len_app. unfold visible_len at 2. cbn. by rewrite Nat.add_0_r. Qed.
Lemma deleted_len_snoc l f : deleted_len (l ++ [f]) = deleted_len l + if f_visible f then 0 else f_len f.
Proof. rewrite deleted_len_app. unfold deleted_len at 2. cbn. by rewrite Nat.add_0_r. Qed.

Lemma total_text l : fs_text (total l) = MkFragmentText (visible_len l) (deleted_len l).
Proof.
  induction l as [|f l IH] using rev_ind; [done|].
  rewrite total_snoc, visible_len_app, deleted_len_app. cbn. rewrite IH. unfold ft_add, visible_len, deleted_len; cbn.
  destruct (f_visible f); cbn; f_equal; lia.
Qed.
Lemma total_max_id l : fs_max_id (total l) = from_option f_id locator_min (last l).
Proof.
  destruct (nil_or_snoc l) as [->|(l' & x & ->)]; [done|]. rewrite total_snoc, last_snoc. cbn. unfold assign. by destruct (f_id x).
Qed.

Lemma measure_text_summary l : measure (D := FragmentTextSummary) l = MkFragmentText (visible_len l) (deleted_len l).
Proof.
  unfold measure. induction l as [|f l IH] using rev_ind; [done|].
  rewrite fmap_app, foldl_app, IH, visible_len_app, deleted_len_app. cbn. unfold ft_add, visible_len, deleted_len; cbn.
  destruct (f_visible f); cbn; f_equal; lia.
Qed.
#[export] Instance FragmentTextSummary_laws : DimensionLaws FragmentTextSummary Fragment FragmentSummary.
Proof.
  split; [|done]. intros l1 l2 _ _. rewrite !measure_text_summary. cbn. rewrite total_text. unfold ft_add; cbn.
  by rewrite visible_len_app, deleted_len_app.
Qed.

Lemma measure_visible l : measure (D := nat) l = visible_len l.
Proof.
  unfold measure. induction l as [|f l IH] using rev_ind; [done|].
  rewrite fmap_app, foldl_app, IH, visible_len_app. cbn. unfold visible_len; cbn. destruct (f_visible f); cbn; lia.
Qed.
#[export] Instance usize_fragment_laws : DimensionLaws nat Fragment FragmentSummary.
Proof. split; [|done]. intros l1 l2 _ _. rewrite !measure_visible. cbn. by rewrite total_text, visible_len_app. Qed.

Lemma measure_full l : measure (D := FullOffset) l = MkFullOffset (visible_len l + deleted_len l).
Proof.
  unfold measure. induction l as [|f l IH] using rev_ind; [done|].
  rewrite fmap_app, foldl_app, IH, visible_len_app, deleted_len_app. cbn. unfold visible_len, deleted_len; cbn.
  destruct (f_visible f); cbn; f_equal; lia.
Qed.
#[export] Instance FullOffset_laws : DimensionLaws FullOffset Fragment FragmentSummary.
Proof.
  split; [|done]. intros l1 l2 _ _. rewrite !measure_full. cbn. rewrite total_text, visible_len_app, deleted_len_app. cbn. f_equal. lia.
Qed.

Lemma measure_locator l : measure (D := option Locator) l = f_id <$> last l.
Proof.
  unfold measure. destruct (nil_or_snoc l) as [->|(l' & x & ->)]; [done|].
  by rewrite fmap_app, foldl_app, last_snoc.
Qed.
#[export] Instance Locator_fragment_laws : MeasureLaws (option Locator) Fragment FragmentSummary.
Proof.
  intros l1 l2 Hl2 _. rewrite !measure_locator. cbn. rewrite total_max_id, last_app_nonnil by done.
  destruct (last l2) eqn:E; [done|]. by apply last_None in E.
Qed.
