(* ===== verification/Snapshot.v ===== *)
(** * Snapshots of a buffer and local edits ([crates/text/src/text.rs])

    The text of a buffer is kept twice: in the ropes of the visible and of the
    deleted text, and in the fragments, which say for every part of every
    insertion where it is and whether it is visible.  An edit walks along the
    old fragments with a cursor and builds the new fragments, the new ropes,
    the index of insertions and the patch between the two texts in one pass.

    Parameters: the chunks of rayon ([par_chunks]), the sort of batches of
    keyed edits, and the replacement of line separators by the regular
    expression of the file.  [max_insertion_len] is [MAX_INSERTION_LEN], which
    depends on the configuration. *)
From stdpp Require Import base numbers option list.
From Stdlib Require Import Lia.
From S2P Require Import Prelude Clock SumTree Cursor Keyed TreeMap Locator UndoMap Patch Utf8 Rope Fragment.
#[local] Opaque TREE_BASE av_cap.

Definition fragment_tree : Type := SumTree Fragment FragmentSummary.
Definition insertion_edit : Type := Edit InsertionFragment InsertionFragmentKey.

(** ** [FragmentBuilder] *)
Inductive FragmentChunk := Tree (subtree : fragment_tree) | Loose (fragments : list Fragment).
Record FragmentBuilder := MkBuilder { fb_chunks : list FragmentChunk; fb_summary : FragmentSummary }.

Definition builder_new (init : fragment_tree) : FragmentBuilder :=
  MkBuilder (if is_empty init then [] else [Tree init]) (summary init).
Definition builder_append (self : FragmentBuilder) (items : fragment_tree) : FragmentBuilder :=
  if is_empty items then self
  else MkBuilder (fb_chunks self ++ [Tree items]) (add_summary (fb_summary self) (summary items)).
Definition builder_push (self : FragmentBuilder) (fragment : Fragment) : FragmentBuilder :=
  MkBuilder
    (match last (fb_chunks self) with
     | Some (Loose fragments) => removelast (fb_chunks self) ++ [Loose (fragments ++ [fragment])]
     | _ => fb_chunks self ++ [Loose [fragment]]
     end)
    (add_summary (fb_summary self) (item_summary_of fragment)).

(** ** [RopeBuilder] *)
Record RopeBuilder := MkRopeBuilder {
  rb_old_visible : RopeCursor; rb_old_deleted : RopeCursor; rb_new_visible : Rope; rb_new_deleted : Rope }.

Definition ropes_new (old_visible_cursor old_deleted_cursor : RopeCursor) : RopeBuilder :=
  MkRopeBuilder old_visible_cursor old_deleted_cursor rope_new rope_new.
Definition ropes_push (self : RopeBuilder) (len : nat) (was_visible is_visible : bool) : outcome RopeBuilder :=
  let* '(text, old_visible, old_deleted) :=
    if was_visible then
      let* e := usize_add (rc_offset (rb_old_visible self)) len in
      let* '(text, c) := rc_slice (rb_old_visible self) e in
      Ret (text, c, rb_old_deleted self)
    else
      let* e := usize_add (rc_offset (rb_old_deleted self)) len in
      let* '(text, c) := rc_slice (rb_old_deleted self) e in
      Ret (text, rb_old_visible self, c) in
  if is_visible then
    let* new_visible := rope_append (rb_new_visible self) text in
    Ret (MkRopeBuilder old_visible old_deleted new_visible (rb_new_deleted self))
  else
    let* new_deleted := rope_append (rb_new_deleted self) text in
    Ret (MkRopeBuilder old_visible old_deleted (rb_new_visible self) new_deleted).
Definition ropes_append (self : RopeBuilder) (len : FragmentTextSummary) : outcome RopeBuilder :=
  let* self := ropes_push self (ft_visible len) true true in
  ropes_push self (ft_deleted len) false false.
Definition push_fragment (self : RopeBuilder) (fragment : Fragment) (was_visible : bool) : outcome RopeBuilder :=
  let* _ := rust_assert (0 <? f_len fragment) in
  ropes_push self (f_len fragment) was_visible (f_visible fragment).
Definition ropes_finish (self : RopeBuilder) : outcome (Rope * Rope) :=
  let* '(v, _) := rc_suffix (rb_old_visible self) in
  let* visible := rope_append (rb_new_visible self) v in
  let* '(d, _) := rc_suffix (rb_old_deleted self) in
  let* deleted := rope_append (rb_new_deleted self) d in
  Ret (visible, deleted).

(** ** Snapshots *)
Inductive LineEnding := Unix | Windows.
Record BufferSnapshot := MkSnapshot {
  s_visible_text : Rope; s_deleted_text : Rope; s_fragments : fragment_tree;
  s_insertions : SumTree InsertionFragment InsertionFragmentKey;
  s_insertion_slices : TreeSet InsertionSlice; s_undo_map : UndoMap; s_version : Global;
  s_remote_id : N; s_replica_id : ReplicaId; s_line_ending : LineEnding }.
Record EditOperation := MkEditOperation {
  eo_timestamp : Lamport; eo_version : Global; eo_ranges : list (FullOffset * FullOffset);
  eo_new_text : list (list N) }.

(** What an edit builds: the variables [new_fragments], [new_ropes],
    [new_insertions], [insertion_slices], [insertion_offset], [edits_patch]. *)
Record Building := MkBuilding {
  b_fragments : FragmentBuilder; b_ropes : RopeBuilder; b_insertions : list insertion_edit;
  b_slices : list InsertionSlice; b_offset : nat; b_patch : Patch }.
Definition b_max_id (b : Building) : Locator := fs_max_id (fb_summary (b_fragments b)).
Definition b_visible (b : Building) : nat := ft_visible (fs_text (fb_summary (b_fragments b))).

(** [new_insertions.push(..); new_ropes.push_fragment(..); new_fragments.push(..)] *)
Definition push_piece (b : Building) (fragment : Fragment) (was_visible : bool) : outcome Building :=
  let* ropes := push_fragment (b_ropes b) fragment was_visible in
  Ret (MkBuilding (builder_push (b_fragments b) fragment) ropes (b_insertions b ++ [insert_new fragment])
         (b_slices b) (b_offset b) (b_patch b)).
Definition append_slice (b : Building) (slice : fragment_tree) : outcome Building :=
  let* ropes := ropes_append (b_ropes b) (fs_text (summary slice)) in
  Ret (MkBuilding (builder_append (b_fragments b) slice) ropes (b_insertions b) (b_slices b) (b_offset b) (b_patch b)).
Definition push_slice (b : Building) (slice : InsertionSlice) : Building :=
  MkBuilding (b_fragments b) (b_ropes b) (b_insertions b) (b_slices b ++ [slice]) (b_offset b) (b_patch b).
Definition push_edit (b : Building) (edit : TextEdit) : Building :=
  MkBuilding (b_fragments b) (b_ropes b) (b_insertions b) (b_slices b) (b_offset b) (patch_push (b_patch b) edit).

(** The part of a fragment that starts [skip] bytes after its start:
    [fragment.len = len as u32; fragment.insertion_offset += skip as u32] *)
Definition part_of (fragment : Fragment) (skip len : nat) : outcome Fragment :=
  let* offset := U32_add (f_insertion_offset fragment) (as_u32 skip) in
  Ret (MkFragment (f_id fragment) (f_timestamp fragment) offset (as_u32 len) (f_visible fragment)
         (f_deletions fragment) (f_max_undos fragment)).
Definition with_id (fragment : Fragment) (id : Locator) : Fragment :=
  MkFragment id (f_timestamp fragment) (f_insertion_offset fragment) (f_len fragment) (f_visible fragment)
    (f_deletions fragment) (f_max_undos fragment).
(** [intersection.deletions.push(timestamp); intersection.visible = false] *)
Definition deleted_by (fragment : Fragment) (timestamp : Lamport) : Fragment :=
  MkFragment (f_id fragment) (f_timestamp fragment) (f_insertion_offset fragment) (f_len fragment) false
    (f_deletions fragment ++ [timestamp]) (f_max_undos fragment).

Section Edits.
Context (par_chunks : ∀ A : Type, nat → list A → list (list A)).
Context (sort_insertions : list insertion_edit → list insertion_edit).
Context (sort_slices : list (Edit (MapEntry InsertionSlice unit) (MapKey InsertionSlice)) →
  list (Edit (MapEntry InsertionSlice unit) (MapKey InsertionSlice))).
Context (replace_line_separators : list N → list N).
Context (max_insertion_len : N).

Definition to_sum_tree (self : FragmentBuilder) : outcome fragment_tree :=
  foldl (λ tree chunk,
    let* tree := tree in
    match chunk with
    | Tree subtree => append tree subtree
    | Loose fragments =>
        let* other := if 1024 <? length fragments then from_par_iter par_chunks fragments else from_iter fragments in
        append tree other
    end) (Ret new) (fb_chunks self).

Definition ropes_push_str (self : RopeBuilder) (text : list N) : outcome RopeBuilder :=
  let* new_visible := rope_push par_chunks (rb_new_visible self) text in
  Ret (MkRopeBuilder (rb_old_visible self) (rb_old_deleted self) new_visible (rb_new_deleted self)).

(** One turn of the loop of [push_fragments_for_insertion], from a text offset. *)
Definition insertion_step (new_text : list N) (timestamp : Lamport) (next_fragment_id : Locator)
    (edit_timestamp : Lamport) (st : Building * nat) : outcome (Building * nat + Building) :=
  let '(b, text_offset) := st in
  if text_offset <? length new_text then
    let target_end := N.to_nat (N.min (N.of_nat (length new_text)) (N.of_nat text_offset + max_insertion_len)) in
    let chunk_end :=
      if target_end =? length new_text then target_end else str_floor_char_boundary new_text target_end in
    if chunk_end =? text_offset then Ret (inr b)
    else
      let* chunk_len := usize_sub chunk_end text_offset in
      let* id := between (b_max_id b) next_fragment_id in
      let fragment := MkFragment id timestamp (b_offset b) (as_u32 chunk_len) true [] Global_new in
      let* slice := slice_from_fragment edit_timestamp fragment in
      let* insertion_offset := U32_add (b_offset b) (as_u32 chunk_len) in
      Ret (inl (MkBuilding (builder_push (b_fragments b) fragment) (b_ropes b) (b_insertions b ++ [insert_new fragment])
                  (b_slices b ++ [slice]) insertion_offset (b_patch b), chunk_end))
  else Ret (inr b).

Definition push_fragments_for_insertion (new_text : list N) (timestamp : Lamport) (b : Building)
    (next_fragment_id : Locator) (edit_timestamp : Lamport) : outcome Building :=
  let* b := loop (insertion_step new_text timestamp next_fragment_id edit_timestamp) (S (length new_text)) (b, 0) in
  let* ropes := ropes_push_str (b_ropes b) new_text in
  Ret (MkBuilding (b_fragments b) ropes (b_insertions b) (b_slices b) (b_offset b) (b_patch b)).

(** ** [apply_edit_internal] *)
Abbreviation text_cursor := (Cursor Fragment FragmentSummary FragmentTextSummary).
(** [old_fragments.start().visible] and [old_fragments.end().visible] *)
Definition start_visible (c : text_cursor) : nat := ft_visible (start c).
Definition end_visible (c : text_cursor) : outcome nat := let* e := end_ c in Ret (ft_visible e).

(** The rest of a fragment that was partly consumed. *)
Definition push_rest (c : text_cursor) (fragment_start : nat) (b : Building) : outcome (text_cursor * Building) :=
  if start_visible c <? fragment_start then
    let* fragment_end := end_visible c in
    let* b :=
      if fragment_start <? fragment_end then
        let* i := item c in
        let* suffix := unwrap i in
        let* len := usize_sub fragment_end fragment_start in
        let* skip := usize_sub fragment_start (start_visible c) in
        let* suffix := part_of suffix skip len in
        push_piece b suffix (f_visible suffix)
      else Ret b in
    let* c := next c in
    Ret (c, b)
  else Ret (c, b).

(** [if fragment_end < range.start { .. }] *)
Definition skip_to (range_start : nat) (c : text_cursor) (fragment_start : nat) (b : Building) :
  outcome (text_cursor * nat * Building) :=
  let* fragment_end := end_visible c in
  if fragment_end <? range_start then
    let* '(c, b) := push_rest c fragment_start b in
    let* '(slice, c) := Cursor.slice c range_start Right in
    let* b := append_slice b slice in
    Ret (c, start_visible c, b)
  else Ret (c, fragment_start, b).

(** [if fragment_start < range.start { .. }] *)
Definition push_prefix (range_start : nat) (c : text_cursor) (fragment_start : nat) (b : Building) :
  outcome (nat * Building) :=
  if fragment_start <? range_start then
    let* i := item c in
    let* prefix := unwrap i in
    let* len := usize_sub range_start fragment_start in
    let* skip := usize_sub fragment_start (start_visible c) in
    let* prefix := part_of prefix skip len in
    let* id := between (b_max_id b) (f_id prefix) in
    let prefix := with_id prefix id in
    let* b := push_piece b prefix (f_visible prefix) in
    Ret (range_start, b)
  else Ret (fragment_start, b).

(** [if !new_text.is_empty() { .. }] *)
Definition insert_text (new_text : list N) (timestamp : Lamport) (c : text_cursor) (fragment_start : nat)
    (b : Building) : outcome Building :=
  match new_text with
  | [] => Ret b
  | _ :: _ =>
      let new_start := b_visible b in
      let* i := item c in
      let next_fragment_id := match i with Some old_fragment => f_id old_fragment | None => locator_max end in
      let* b := push_fragments_for_insertion new_text timestamp b next_fragment_id timestamp in
      let* new_end := usize_add new_start (length new_text) in
      Ret (push_edit b (MkTextEdit (MkRange fragment_start fragment_start) (MkRange new_start new_end)))
  end.

(** One turn of [while fragment_start < range.end]. *)
Definition delete_step (range_end : nat) (timestamp : Lamport) (st : text_cursor * nat * Building) :
  outcome (text_cursor * nat * Building + text_cursor * nat * Building) :=
  let '(c, fragment_start, b) := st in
  if fragment_start <? range_end then
    let* i := item c in
    let* fragment := unwrap i in
    let* fragment_end := end_visible c in
    let intersection_end := Nat.min range_end fragment_end in
    let* intersection :=
      if f_visible fragment then
        let* len := usize_sub intersection_end fragment_start in
        let* skip := usize_sub fragment_start (start_visible c) in
        let* intersection := part_of fragment skip len in
        let* id := between (b_max_id b) (f_id intersection) in
        Ret (deleted_by (with_id intersection id) timestamp)
      else Ret fragment in
    let* '(fragment_start, b) :=
      if 0 <? f_len intersection then
        let* b :=
          if f_visible fragment && negb (f_visible intersection) then
            let new_start := b_visible b in
            let* slice := slice_from_fragment timestamp intersection in
            Ret (push_slice (push_edit b
              (MkTextEdit (MkRange fragment_start intersection_end) (MkRange new_start new_start))) slice)
          else Ret b in
        let* b := push_piece b intersection (f_visible fragment) in
        Ret (intersection_end, b)
      else Ret (fragment_start, b) in
    let* c := if fragment_end <=? range_end then next c else Ret c in
    Ret (inl (c, fragment_start, b))
  else Ret (inr st).

(** The body of [for (range, new_text) in edits]. *)
Definition local_edit (fuel : nat) (timestamp : Lamport) (st : text_cursor * nat * Building * EditOperation)
    (edit : nat * nat * list N) : outcome (text_cursor * nat * Building * EditOperation) :=
  let '(c, fragment_start, b, op) := st in
  let '(range_start, range_end, new_text) := edit in
  let new_text := replace_line_separators new_text in
  let* '(c, fragment_start, b) := skip_to range_start c fragment_start b in
  let* full_start := usize_add range_start (ft_deleted (start c)) in
  let* '(fragment_start, b) := push_prefix range_start c fragment_start b in
  let* b := insert_text new_text timestamp c fragment_start b in
  let* '(c, fragment_start, b) := loop (delete_step range_end timestamp) fuel (c, fragment_start, b) in
  let* full_end := usize_add range_end (ft_deleted (start c)) in
  Ret (c, fragment_start, b,
       MkEditOperation (eo_timestamp op) (eo_version op)
         (eo_ranges op ++ [(MkFullOffset full_start, MkFullOffset full_end)]) (eo_new_text op ++ [new_text])).
Fixpoint local_edits (fuel : nat) (timestamp : Lamport) (st : text_cursor * nat * Building * EditOperation)
    (edits : list (nat * nat * list N)) : outcome (text_cursor * nat * Building * EditOperation) :=
  match edits with
  | [] => Ret st
  | edit :: edits => let* st := local_edit fuel timestamp st edit in local_edits fuel timestamp st edits
  end.

(** The rest of the fragments, and the new snapshot. *)
Definition install_edit (self : BufferSnapshot) (suffix : fragment_tree) (b : Building) : outcome BufferSnapshot :=
  let* b := append_slice b suffix in
  let* '(visible_text, deleted_text) := ropes_finish (b_ropes b) in
  let* fragments := to_sum_tree (b_fragments b) in
  let* '(_, insertions) := edit sort_insertions (s_insertions self) (b_insertions b) in
  let* slices := set_extend sort_slices (s_insertion_slices self) (b_slices b) in
  Ret (MkSnapshot visible_text deleted_text fragments insertions slices (s_undo_map self) (s_version self)
         (s_remote_id self) (s_replica_id self) (s_line_ending self)).
Definition finish_edit (self : BufferSnapshot) (c : text_cursor) (b : Building) : outcome BufferSnapshot :=
  let* '(suffix, _) := Cursor.suffix c in
  install_edit self suffix b.

Definition apply_edit_internal (self : BufferSnapshot) (edits : list (nat * nat * list N)) (timestamp : Lamport) :
  outcome (EditOperation * Patch * BufferSnapshot) :=
  let op := MkEditOperation timestamp (s_version self) [] [] in
  match edits with
  | [] => Ret (op, [], self)
  | (first_start, _, _) :: _ =>
      let* v := rope_cursor (s_visible_text self) 0 in
      let* d := rope_cursor (s_deleted_text self) 0 in
      let* '(init, c) := Cursor.slice (cursor_new (s_fragments self)) first_start Right in
      let* ropes := ropes_append (ropes_new v d) (fs_text (summary init)) in
      let b := MkBuilding (builder_new init) ropes [] [] 0 [] in
      let* '(c, fragment_start, b, op) :=
        local_edits (S (tree_size (s_fragments self))) timestamp (c, start_visible c, b, op) edits in
      let* '(c, b) := push_rest c fragment_start b in
      let* snapshot := finish_edit self c b in
      Ret (op, b_patch b, snapshot)
  end.
End Edits.
