(* ===== verification/History.v ===== *)
(** * The undo history ([History] in [crates/text/src/text.rs])

    The stacks of transactions, as lists with the top at the end, and the
    operations a buffer has seen.  Instants and durations are nanoseconds; the
    difference of two instants is never negative, as [Instant] subtracts. *)
From stdpp Require Import base numbers option list.
From Stdlib Require Import Lia.
From S2P Require Import Prelude Clock SumTree Cursor Keyed TreeMap UndoMap Rope Fragment Snapshot.
#[local] Opaque TREE_BASE av_cap.

Abbreviation TransactionId := Lamport.
Abbreviation Instant := N.

Inductive BufferOperation := OpEdit (edit : EditOperation) | OpUndo (undo : UndoOperation).
Definition op_timestamp (self : BufferOperation) : Lamport :=
  match self with OpEdit edit => eo_timestamp edit | OpUndo undo => undo_timestamp undo end.
Definition op_replica_id (self : BufferOperation) : ReplicaId := replica_id (op_timestamp self).

Record Transaction := MkTransaction { t_id : TransactionId; t_edit_ids : list Lamport; t_start : Global }.
Record HistoryEntry := MkHistoryEntry {
  he_transaction : Transaction; he_first_edit_at : Instant; he_last_edit_at : Instant; he_suppress_grouping : bool }.
Record History := MkHistory {
  h_base_text : Rope; h_operations : TreeMap Lamport BufferOperation; h_undo_stack : list HistoryEntry;
  h_redo_stack : list HistoryEntry; h_transaction_depth : nat; h_group_interval : N }.

Definition entry_id (e : HistoryEntry) : TransactionId := t_id (he_transaction e).
Definition merge_in (self other : Transaction) : Transaction :=
  MkTransaction (t_id self) (t_edit_ids self ++ t_edit_ids other) (t_start self).
Definition with_transaction (e : HistoryEntry) (t : Transaction) : HistoryEntry :=
  MkHistoryEntry t (he_first_edit_at e) (he_last_edit_at e) (he_suppress_grouping e).
Definition with_stacks (self : History) (undo_stack redo_stack : list HistoryEntry) : History :=
  MkHistory (h_base_text self) (h_operations self) undo_stack redo_stack (h_transaction_depth self) (h_group_interval self).
Definition with_depth (self : History) (depth : nat) : History :=
  MkHistory (h_base_text self) (h_operations self) (h_undo_stack self) (h_redo_stack self) depth (h_group_interval self).

(** ** Vectors *)
(** [iter().rposition(..)]: the index of the last match. *)
Fixpoint rposition (f : HistoryEntry → bool) (l : list HistoryEntry) : option nat :=
  match l with
  | [] => None
  | x :: l => match rposition f l with Some i => Some (S i) | None => if f x then Some 0 else None end
  end.
Definition has_id (id : TransactionId) (e : HistoryEntry) : bool := bool_decide (entry_id e = id).
Definition vec_remove (l : list HistoryEntry) (i : nat) : list HistoryEntry := take i l ++ drop (S i) l.
(** [last_mut()], with what is done to the entry *)
Definition on_last_entry (f : HistoryEntry → HistoryEntry) (l : list HistoryEntry) : list HistoryEntry :=
  match last l with Some e => removelast l ++ [f e] | None => l end.

(** ** Operations *)
Definition history_new (base_text : Rope) (group_interval : N) : History :=
  MkHistory base_text new [] [] 0 group_interval.

Definition history_push (self : History) (op : BufferOperation) : outcome History :=
  let* operations := map_insert (h_operations self) (op_timestamp op) op in
  Ret (MkHistory (h_base_text self) operations (h_undo_stack self) (h_redo_stack self)
         (h_transaction_depth self) (h_group_interval self)).

(** The new clock comes with the result. *)
Definition start_transaction (self : History) (start : Global) (now : Instant) (clock : Lamport) :
  outcome (option TransactionId * History * Lamport) :=
  let* depth := usize_add (h_transaction_depth self) 1 in
  let self := with_depth self depth in
  if depth =? 1 then
    let '(id, clock) := tick clock in
    let entry := MkHistoryEntry (MkTransaction id [] start) now now false in
    Ret (Some id, with_stacks self (h_undo_stack self ++ [entry]) (h_redo_stack self), clock)
  else Ret (None, self, clock).

Definition end_transaction (self : History) (now : Instant) : outcome (option HistoryEntry * History) :=
  let* _ := rust_assert (negb (h_transaction_depth self =? 0)) in
  let self := with_depth self (h_transaction_depth self - 1) in
  if h_transaction_depth self =? 0 then
    let* entry := unwrap (last (h_undo_stack self)) in
    match t_edit_ids (he_transaction entry) with
    | [] => Ret (None, with_stacks self (removelast (h_undo_stack self)) (h_redo_stack self))
    | _ :: _ =>
        let entry := MkHistoryEntry (he_transaction entry) (he_first_edit_at entry) now (he_suppress_grouping entry) in
        Ret (Some entry, with_stacks self (removelast (h_undo_stack self) ++ [entry]) [])
    end
  else Ret (None, self).

Definition group_trailing (self : History) (n : nat) : outcome (option TransactionId * History) :=
  let* new_len := usize_sub (length (h_undo_stack self)) n in
  let entries_to_keep := take new_len (h_undo_stack self) in
  let entries_to_merge := drop new_len (h_undo_stack self) in
  let merge last_entry :=
    let edit_ids := t_edit_ids (he_transaction last_entry) ++ concat ((λ e, t_edit_ids (he_transaction e)) <$> entries_to_merge) in
    MkHistoryEntry (MkTransaction (entry_id last_entry) edit_ids (t_start (he_transaction last_entry)))
      (he_first_edit_at last_entry)
      (match last entries_to_merge with Some entry => he_last_edit_at entry | None => he_last_edit_at last_entry end)
      (he_suppress_grouping last_entry) in
  let undo_stack := on_last_entry merge entries_to_keep in
  Ret (entry_id <$> last undo_stack, with_stacks self undo_stack (h_redo_stack self)).

(** The loop of [group], over the entries from the top, the last one apart. *)
Fixpoint group_count (group_interval : N) (entry : HistoryEntry) (entries : list HistoryEntry) : nat :=
  match entries with
  | prev_entry :: entries =>
      if negb (he_suppress_grouping prev_entry) && (he_first_edit_at entry - he_last_edit_at prev_entry <? group_interval)%N
      then S (group_count group_interval prev_entry entries)
      else 0
  | [] => 0
  end.
Definition group (self : History) : outcome (option TransactionId * History) :=
  group_trailing self
    (match reverse (h_undo_stack self) with
     | entry :: entries => group_count (h_group_interval self) entry entries
     | [] => 0
     end).

(** The loop of [group_until]: how many entries are above this one, or [None]. *)
Fixpoint count_until (transaction_id : TransactionId) (entries : list HistoryEntry) : option nat :=
  match entries with
  | [] => None
  | entry :: entries =>
      if has_id transaction_id entry then Some 0
      else if he_suppress_grouping entry then None
      else S <$> count_until transaction_id entries
  end.
Definition group_until (self : History) (transaction_id : TransactionId) : outcome History :=
  match count_until transaction_id (reverse (h_undo_stack self)) with
  | Some count => let* '(_, self) := group_trailing self count in Ret self
  | None => Ret self
  end.

Definition finalize_last_transaction (self : History) : option Transaction * History :=
  let finalize e := MkHistoryEntry (he_transaction e) (he_first_edit_at e) (he_last_edit_at e) true in
  (he_transaction <$> last (h_undo_stack self),
   with_stacks self (on_last_entry finalize (h_undo_stack self)) (h_redo_stack self)).

Definition assert_no_transaction (self : History) : outcome unit := rust_assert (h_transaction_depth self =? 0).

Definition push_transaction (self : History) (transaction : Transaction) (now : Instant) : outcome History :=
  let* _ := assert_no_transaction self in
  Ret (with_stacks self (h_undo_stack self ++ [MkHistoryEntry transaction now now false]) (h_redo_stack self)).

Definition push_empty_transaction (self : History) (start : Global) (now : Instant) (clock : Lamport) :
  outcome (TransactionId * History * Lamport) :=
  let* _ := assert_no_transaction self in
  let '(id, clock) := tick clock in
  let entry := MkHistoryEntry (MkTransaction id [] start) now now false in
  Ret (id, with_stacks self (h_undo_stack self ++ [entry]) (h_redo_stack self), clock).

Definition add_edit (op_id : Lamport) (e : HistoryEntry) : HistoryEntry :=
  with_transaction e (MkTransaction (entry_id e) (t_edit_ids (he_transaction e) ++ [op_id]) (t_start (he_transaction e))).
Definition push_undo (self : History) (op_id : Lamport) : outcome History :=
  let* _ := rust_assert (negb (h_transaction_depth self =? 0)) in
  match map_get (h_operations self) op_id with
  | Some (OpEdit _) =>
      let* _ := unwrap (last (h_undo_stack self)) in
      Ret (with_stacks self (on_last_entry (add_edit op_id) (h_undo_stack self)) (h_redo_stack self))
  | _ => Ret self
  end.

Definition pop_undo (self : History) : outcome (option HistoryEntry * History) :=
  let* _ := assert_no_transaction self in
  match last (h_undo_stack self) with
  | Some entry => Ret (Some entry, with_stacks self (removelast (h_undo_stack self)) (h_redo_stack self ++ [entry]))
  | None => Ret (None, self)
  end.
Definition pop_redo (self : History) : outcome (option HistoryEntry * History) :=
  let* _ := assert_no_transaction self in
  match last (h_redo_stack self) with
  | Some entry => Ret (Some entry, with_stacks self (h_undo_stack self ++ [entry]) (removelast (h_redo_stack self)))
  | None => Ret (None, self)
  end.

Definition remove_from_undo (self : History) (transaction_id : TransactionId) : outcome (option HistoryEntry * History) :=
  let* _ := assert_no_transaction self in
  match rposition (has_id transaction_id) (h_undo_stack self) with
  | Some entry_ix =>
      let* entry := unwrap (h_undo_stack self !! entry_ix) in
      Ret (Some entry, with_stacks self (vec_remove (h_undo_stack self) entry_ix) (h_redo_stack self ++ [entry]))
  | None => Ret (None, self)
  end.

(** The entries that were moved come with the result. *)
Definition remove_from_undo_until (self : History) (transaction_id : TransactionId) : outcome (list HistoryEntry * History) :=
  let* _ := assert_no_transaction self in
  match rposition (has_id transaction_id) (h_undo_stack self) with
  | Some entry_ix =>
      let moved := reverse (drop entry_ix (h_undo_stack self)) in
      Ret (moved, with_stacks self (take entry_ix (h_undo_stack self)) (h_redo_stack self ++ moved))
  | None => Ret ([], self)
  end.
Definition remove_from_redo (self : History) (transaction_id : TransactionId) : outcome (list HistoryEntry * History) :=
  let* _ := assert_no_transaction self in
  match rposition (has_id transaction_id) (h_redo_stack self) with
  | Some entry_ix =>
      let moved := reverse (drop entry_ix (h_redo_stack self)) in
      Ret (moved, with_stacks self (h_undo_stack self ++ moved) (take entry_ix (h_redo_stack self)))
  | None => Ret ([], self)
  end.

Definition forget (self : History) (transaction_id : TransactionId) : outcome (option Transaction * History) :=
  let* _ := assert_no_transaction self in
  match rposition (has_id transaction_id) (h_undo_stack self) with
  | Some entry_ix =>
      let* entry := unwrap (h_undo_stack self !! entry_ix) in
      Ret (Some (he_transaction entry), with_stacks self (vec_remove (h_undo_stack self) entry_ix) (h_redo_stack self))
  | None =>
      match rposition (has_id transaction_id) (h_redo_stack self) with
      | Some entry_ix =>
          let* entry := unwrap (h_redo_stack self !! entry_ix) in
          Ret (Some (he_transaction entry), with_stacks self (h_undo_stack self) (vec_remove (h_redo_stack self) entry_ix))
      | None => Ret (None, self)
      end
  end.

(** [transaction], and [transaction_mut] with what is done to the transaction *)
Definition transaction (self : History) (transaction_id : TransactionId) : option Transaction :=
  let find stack := match rposition (has_id transaction_id) stack with Some i => stack !! i | None => None end in
  he_transaction <$> match find (h_undo_stack self) with Some e => Some e | None => find (h_redo_stack self) end.
Definition on_transaction (self : History) (transaction_id : TransactionId) (f : Transaction → Transaction) : History :=
  let update e := with_transaction e (f (he_transaction e)) in
  match rposition (has_id transaction_id) (h_undo_stack self) with
  | Some i => with_stacks self (alter update i (h_undo_stack self)) (h_redo_stack self)
  | None =>
      match rposition (has_id transaction_id) (h_redo_stack self) with
      | Some i => with_stacks self (h_undo_stack self) (alter update i (h_redo_stack self))
      | None => self
      end
  end.

Definition merge_transactions (self : History) (transaction destination : TransactionId) : outcome History :=
  let* '(forgotten, self) := forget self transaction in
  match forgotten with
  | Some t => Ret (on_transaction self destination (λ d, MkTransaction (t_id d) (t_edit_ids d ++ t_edit_ids t) (t_start d)))
  | None => Ret self
  end.
