(* ===== verification/HistorySpec.v ===== *)
(** * The undo history: theorems *)
From stdpp Require Import base numbers option list.
From Stdlib Require Import Lia.
From S2P Require Import Prelude Clock SumTree SumTreeFacts Cursor Keyed TreeMap UndoMap Rope Fragment Snapshot History.
(** * Facts about the undo history

    The history as a state machine: every operation is a step, also the ticks
    and observations of the clock between them. *)
#[local] Opaque TREE_BASE av_cap.

(** ** Vectors *)
Lemma snoc_cases {A} (l : list A) : l = [] ∨ ∃ k x, l = k ++ [x] ∧ last l = Some x ∧ removelast l = k.
Proof.
  destruct (nil_or_snoc l) as [->|(k & x & ->)]; [by left|right]. exists k, x. by rewrite last_snoc, removelast_last.
Qed.
Lemma on_last_entry_snoc f l x : on_last_entry f (l ++ [x]) = l ++ [f x].
Proof. unfold on_last_entry. by rewrite last_snoc, removelast_last. Qed.

Definition ids (l : list HistoryEntry) : list TransactionId := entry_id <$> l.
Definition edit_ids (l : list HistoryEntry) : list Lamport := concat ((λ e, t_edit_ids (he_transaction e)) <$> l).
Lemma edit_ids_app l k : edit_ids (l ++ k) = edit_ids l ++ edit_ids k.
Proof. unfold edit_ids. by rewrite fmap_app, concat_app. Qed.
Lemma ids_app l k : ids (l ++ k) = ids l ++ ids k.
Proof. apply fmap_app. Qed.

Lemma rposition_Some id l i :
  rposition (has_id id) l = Some i → ∃ e, l = take i l ++ e :: drop (S i) l ∧ l !! i = Some e ∧ entry_id e = id ∧ id ∉ ids (drop (S i) l).
Proof.
  revert i. induction l as [|x l IH]; intros i; cbn; [done|]. destruct (rposition _ l) as [j|] eqn:E.
  - intros [= <-]. destruct (IH j eq_refl) as (e & E1 & E2 & E3 & E4). exists e. cbn. split_and!; try done. by rewrite E1 at 1.
  - unfold has_id at 1. case_bool_decide as Hx; [|done]. intros [= <-]. exists x. cbn. rewrite drop_0. split_and!; try done.
    clear IH. revert E. unfold ids. induction l as [|y l IH]; cbn; [intros _; apply not_elem_of_nil|].
    destruct (rposition _ l); [done|]. unfold has_id at 1. case_bool_decide; [done|]. intros _. apply not_elem_of_cons. split; [done|by apply IH].
Qed.
Lemma rposition_None id l : rposition (has_id id) l = None ↔ id ∉ ids l.
Proof.
  induction l as [|x l IH]; cbn; [split; [intros _; apply not_elem_of_nil|done]|]. rewrite not_elem_of_cons, <-IH.
  destruct (rposition _ l); [naive_solver|]. unfold has_id. case_bool_decide; naive_solver.
Qed.
(** The position of an entry whose identifier is nowhere else. *)
Lemma rposition_at a e b : entry_id e ∉ ids b → rposition (has_id (entry_id e)) (a ++ e :: b) = Some (length a).
Proof.
  intros Hb. induction a as [|x a IH]; cbn.
  - apply rposition_None in Hb as ->. unfold has_id. by rewrite bool_decide_eq_true_2.
  - by rewrite IH.
Qed.
Lemma vec_remove_at a (e : HistoryEntry) b : vec_remove (a ++ e :: b) (length a) = a ++ b.
Proof. unfold vec_remove. rewrite take_app_length. f_equal. induction a as [|x a IH]; [done|exact IH]. Qed.

(** ** The invariant *)
(** The clock will not issue this identifier again. *)
Definition issued (clock id : Lamport) : Prop := replica_id id = replica_id clock → (value id < value clock)%N.

Record history_ok (h : History) (clock : Lamport) : Prop := {
  ho_open : 0 < h_transaction_depth h → h_undo_stack h ≠ [];
  ho_unique : NoDup (ids (h_undo_stack h ++ h_redo_stack h));
  ho_issued : Forall (issued clock) (ids (h_undo_stack h ++ h_redo_stack h));
}.

Lemma issued_mono c c' id : replica_id c' = replica_id c → (value c <= value c')%N → issued c id → issued c' id.
Proof. intros E Hv H. unfold issued in *. rewrite E. intros Hr. specialize (H Hr). lia. Qed.
Lemma tick_next clock : (value clock < U32_MAX)%N → (tick clock).2 = MkLamport (value clock + 1) (replica_id clock).
Proof. intros Hc. cbn. f_equal. apply wrap_small. unfold U32_MAX in Hc. lia. Qed.

(** The stacks change to stacks whose identifiers are among the old ones. *)
Lemma history_ok_stacks h clock u r :
  history_ok h clock → (∃ k, ids (u ++ r) ++ k ≡ₚ ids (h_undo_stack h ++ h_redo_stack h)) →
  (0 < h_transaction_depth h → u ≠ []) → history_ok (with_stacks h u r) clock.
Proof.
  intros [Ho Hu Hi] [k Hp] Hopen. rewrite <-Hp in Hu, Hi. apply NoDup_app in Hu as (Hu & _ & _). apply Forall_app in Hi as [Hi _]. by split.
Qed.
Lemma history_ok_push h clock e c' :
  history_ok h clock → entry_id e ∉ ids (h_undo_stack h ++ h_redo_stack h) → issued c' (entry_id e) →
  replica_id c' = replica_id clock → (value clock <= value c')%N →
  history_ok (with_stacks h (h_undo_stack h ++ [e]) (h_redo_stack h)) c'.
Proof.
  intros [Ho Hu Hi] Hn Hc Er Hv. rewrite ids_app in Hu, Hi, Hn. split; cbn.
  - intros _. by destruct (h_undo_stack h).
  - rewrite <-app_assoc, ids_app, ids_app. cbn. rewrite <-Permutation_middle. by apply NoDup_cons.
  - rewrite <-app_assoc, ids_app, ids_app. cbn. rewrite <-Permutation_middle. constructor; [done|].
    eapply Forall_impl; [exact Hi|]. intros id. by apply issued_mono.
Qed.
Lemma ticked_fresh h clock : history_ok h clock → clock ∉ ids (h_undo_stack h ++ h_redo_stack h).
Proof. intros [_ _ Hi] Hin. rewrite Forall_forall in Hi. specialize (Hi clock Hin eq_refl). lia. Qed.
Lemma history_ok_depth h clock d : history_ok h clock → (0 < d → h_undo_stack h ≠ []) → history_ok (with_depth h d) clock.
Proof. intros [Ho Hu Hi] Hd. by split. Qed.

(** ** Steps

    [push_transaction] takes any transaction from outside; a step does it only
    with one that is new here. *)
Definition new_here (h : History) (c id : Lamport) : Prop := id ∉ ids (h_undo_stack h ++ h_redo_stack h) ∧ issued c id.
Inductive history_step : History * Lamport → History * Lamport → Prop :=
| hs_clock h c c' : replica_id c' = replica_id c → (value c <= value c')%N → history_step (h, c) (h, c')
| hs_push h c op h' : history_push h op = Ret h' → history_step (h, c) (h', c)
| hs_start h c start now o h' c' : (value c < U32_MAX)%N → start_transaction h start now c = Ret (o, h', c') → history_step (h, c) (h', c')
| hs_end h c now o h' : end_transaction h now = Ret (o, h') → history_step (h, c) (h', c)
| hs_group h c o h' : group h = Ret (o, h') → history_step (h, c) (h', c)
| hs_group_until h c id h' : group_until h id = Ret h' → history_step (h, c) (h', c)
| hs_finalize h c o h' : finalize_last_transaction h = (o, h') → history_step (h, c) (h', c)
| hs_push_transaction h c t now h' : new_here h c (t_id t) →
    push_transaction h t now = Ret h' → history_step (h, c) (h', c)
| hs_push_empty h c start now id h' c' : (value c < U32_MAX)%N → push_empty_transaction h start now c = Ret (id, h', c') → history_step (h, c) (h', c')
| hs_push_undo h c id h' : push_undo h id = Ret h' → history_step (h, c) (h', c)
| hs_pop_undo h c o h' : pop_undo h = Ret (o, h') → history_step (h, c) (h', c)
| hs_pop_redo h c o h' : pop_redo h = Ret (o, h') → history_step (h, c) (h', c)
| hs_remove_undo h c id o h' : remove_from_undo h id = Ret (o, h') → history_step (h, c) (h', c)
| hs_remove_undo_until h c id l h' : remove_from_undo_until h id = Ret (l, h') → history_step (h, c) (h', c)
| hs_remove_redo h c id l h' : remove_from_redo h id = Ret (l, h') → history_step (h, c) (h', c)
| hs_forget h c id o h' : forget h id = Ret (o, h') → history_step (h, c) (h', c)
| hs_merge h c id dst h' : merge_transactions h id dst = Ret h' → history_step (h, c) (h', c).

Inductive history_reach (base_text : Rope) (group_interval : N) (clock : Lamport) : History * Lamport → Prop :=
| hr_new : history_reach base_text group_interval clock (history_new base_text group_interval, clock)
| hr_step s s' : history_reach base_text group_interval clock s → history_step s s' → history_reach base_text group_interval clock s'.

(** ** Grouping *)
Lemma group_trailing_spec h n :
  n < length (h_undo_stack h) ∨ (h_undo_stack h = [] ∧ n = 0) →
  returns (group_trailing h n) (λ '(o, h'), ∃ u, h' = with_stacks h u (h_redo_stack h) ∧ o = entry_id <$> last u ∧
    edit_ids u = edit_ids (h_undo_stack h) ∧ ids u = take (length (h_undo_stack h) - n) (ids (h_undo_stack h)) ∧
    (h_undo_stack h ≠ [] → u ≠ [])).
Proof.
  intros Hn. unfold group_trailing. set (u := h_undo_stack h) in *.
  rewrite usize_sub_ok by (destruct Hn as [?|[-> ->]]; cbn; lia).
  destruct Hn as [Hn|[Eu ->]].
  2: { rewrite Eu. apply returns_Ret. exists []. done. }
  assert (0 < length u - n) as Hk by lia. pose proof (length_take u (length u - n)) as Hlt.
  destruct (snoc_cases (take (length u - n) u)) as [E|(k & x & E & _)]; [rewrite E in Hlt; cbn in Hlt; lia|].
  rewrite E, on_last_entry_snoc. apply returns_Ret. eexists. split; [done|]. split; [done|]. split_and!.
  - assert (edit_ids u = edit_ids k ++ edit_ids [x] ++ edit_ids (drop (length u - n) u)) as ->.
    { by rewrite <-(take_drop (length u - n) u) at 1; rewrite E, !edit_ids_app, <-app_assoc. }
    rewrite edit_ids_app. f_equal. unfold edit_ids. cbn. by rewrite !app_nil_r.
  - unfold ids. rewrite <-fmap_take, E, !fmap_app. done.
  - by destruct k.
Qed.
Lemma group_count_le i e l : group_count i e l ≤ length l.
Proof. revert e. induction l as [|x l IH]; intros e; cbn; [lia|]. destruct (_ && _); [specialize (IH x); lia|lia]. Qed.
Lemma count_until_lt id l n : count_until id l = Some n → n < length l.
Proof.
  revert n. induction l as [|x l IH]; intros n; cbn; [done|]. destruct (has_id id x); [intros [= <-]; lia|].
  destruct (he_suppress_grouping x); [done|]. destruct (count_until id l); [|done]. intros [= <-]. specialize (IH _ eq_refl). lia.
Qed.

(** What both groupings do. *)
Definition grouped (h h' : History) : Prop :=
  ∃ u k, h' = with_stacks h u (h_redo_stack h) ∧ edit_ids u = edit_ids (h_undo_stack h) ∧
    ids (h_undo_stack h) = ids u ++ k ∧ (h_undo_stack h ≠ [] → u ≠ []).
Lemma grouped_trailing h n : n < length (h_undo_stack h) ∨ (h_undo_stack h = [] ∧ n = 0) →
  returns (group_trailing h n) (λ '(o, h'), grouped h h' ∧ o = entry_id <$> last (h_undo_stack h')).
Proof.
  intros Hn. eapply returns_mono; [by apply group_trailing_spec|]. intros [o h'] (u & -> & -> & E1 & E2 & E3). split; [|done].
  exists u, (drop (length (h_undo_stack h) - n) (ids (h_undo_stack h))). split_and!; try done. by rewrite E2, take_drop.
Qed.
Lemma group_spec h : returns (group h) (λ '(o, h'), grouped h h' ∧ o = entry_id <$> last (h_undo_stack h')).
Proof.
  apply grouped_trailing. destruct (reverse (h_undo_stack h)) as [|e l] eqn:E.
  - right. split; [|done]. by rewrite <-(reverse_involutive (h_undo_stack h)), E.
  - left. pose proof (group_count_le (h_group_interval h) e l). apply (f_equal length) in E. rewrite length_reverse in E. cbn in E. lia.
Qed.
Lemma group_until_spec h id : returns (group_until h id) (grouped h).
Proof.
  unfold group_until. destruct (count_until _ _) as [n|] eqn:E.
  - apply count_until_lt in E. rewrite length_reverse in E. destruct (grouped_trailing h n) as ([o h'] & -> & H & _); [by left|].
    by apply returns_Ret.
  - apply returns_Ret. exists (h_undo_stack h), []. rewrite app_nil_r. split_and!; try done. by destruct h.
Qed.
Lemma grouped_ok h h' clock : history_ok h clock → grouped h h' → history_ok h' clock.
Proof.
  intros Hok (u & k & -> & _ & E & Hne). apply history_ok_stacks; [done| |].
  - exists k. rewrite !ids_app, E, <-!app_assoc. by rewrite (Permutation_app_comm k).
  - intros Hd. by apply Hne, Hok.
Qed.

(** ** Moves between the stacks *)
Lemma assert_none h : h_transaction_depth h = 0 → assert_no_transaction h = Ret tt.
Proof. unfold assert_no_transaction. by intros ->. Qed.
Lemma assert_inv {B} h (k : outcome B) x : (let* _ := assert_no_transaction h in k) = Ret x → h_transaction_depth h = 0 ∧ k = Ret x.
Proof. unfold assert_no_transaction. destruct (Nat.eqb_spec (h_transaction_depth h) 0); cbn; [done|done]. Qed.

(** A change of the stacks while no transaction is open. *)
Definition moves (h h' : History) : Prop :=
  h_transaction_depth h = 0 ∧ ∃ u r k, h' = with_stacks h u r ∧ ids (u ++ r) ++ k ≡ₚ ids (h_undo_stack h ++ h_redo_stack h).
Lemma moves_ok h h' clock : history_ok h clock → moves h h' → history_ok h' clock.
Proof. intros Hok (Hd & u & r & k & -> & Hp). apply history_ok_stacks; [done|by exists k|lia]. Qed.
Lemma moves_refl h : h_transaction_depth h = 0 → moves h h.
Proof. intros Hd. split; [done|]. exists (h_undo_stack h), (h_redo_stack h), []. rewrite app_nil_r. split; [by destruct h|done]. Qed.

Lemma pop_undo_moves h o h' : pop_undo h = Ret (o, h') → moves h h'.
Proof.
  intros [Hd H]%assert_inv. destruct (snoc_cases (h_undo_stack h)) as [E|(k & x & E & El & Er)].
  - rewrite E in H. injection H as <- <-. by apply moves_refl.
  - rewrite El, Er in H. injection H as <- <-. split; [done|]. eexists _, _, []. split; [done|]. rewrite app_nil_r, E, !ids_app.
    rewrite <-app_assoc. apply Permutation_app_head. apply Permutation_app_comm.
Qed.
Lemma pop_redo_moves h o h' : pop_redo h = Ret (o, h') → moves h h'.
Proof.
  intros [Hd H]%assert_inv. destruct (snoc_cases (h_redo_stack h)) as [E|(k & x & E & El & Er)].
  - rewrite E in H. injection H as <- <-. by apply moves_refl.
  - rewrite El, Er in H. injection H as <- <-. split; [done|]. eexists _, _, []. split; [done|]. rewrite app_nil_r, E, !ids_app.
    rewrite <-app_assoc. apply Permutation_app_head. apply Permutation_app_comm.
Qed.
Lemma ids_split l i e : l = take i l ++ e :: drop (S i) l → ids l ≡ₚ ids (vec_remove l i) ++ [entry_id e].
Proof. intros E. rewrite E at 1. unfold vec_remove. rewrite !ids_app. cbn. by rewrite <-Permutation_middle, Permutation_cons_append. Qed.
Lemma remove_undo_moves h id o h' : remove_from_undo h id = Ret (o, h') → moves h h'.
Proof.
  intros [Hd H]%assert_inv. destruct (rposition _ _) as [i|] eqn:E; [|injection H as <- <-; by apply moves_refl].
  apply rposition_Some in E as (e & E1 & E2 & _). rewrite E2 in H. injection H as <- <-. split; [done|]. eexists _, _, []. split; [done|].
  apply ids_split in E1. rewrite app_nil_r, !ids_app, E1, <-app_assoc. apply Permutation_app_head, Permutation_app_comm.
Qed.
Lemma ids_moved l i : ids (take i l) ++ ids (reverse (drop i l)) ≡ₚ ids l.
Proof. rewrite <-(take_drop i l) at 3. rewrite ids_app. apply Permutation_app_head. unfold ids. by rewrite reverse_Permutation. Qed.
Lemma remove_undo_until_moves h id l h' : remove_from_undo_until h id = Ret (l, h') → moves h h'.
Proof.
  intros [Hd H]%assert_inv. destruct (rposition _ _) as [i|] eqn:E; injection H as <- <-; [|by apply moves_refl].
  split; [done|]. eexists _, _, []. split; [done|]. rewrite app_nil_r, !ids_app, <-(ids_moved (h_undo_stack h) i), <-app_assoc.
  apply Permutation_app_head, Permutation_app_comm.
Qed.
Lemma remove_redo_moves h id l h' : remove_from_redo h id = Ret (l, h') → moves h h'.
Proof.
  intros [Hd H]%assert_inv. destruct (rposition _ _) as [i|] eqn:E; injection H as <- <-; [|by apply moves_refl].
  split; [done|]. eexists _, _, []. split; [done|]. rewrite app_nil_r, !ids_app, <-(ids_moved (h_redo_stack h) i), <-app_assoc.
  apply Permutation_app_head, Permutation_app_comm.
Qed.
Lemma forget_moves h id o h' : forget h id = Ret (o, h') → moves h h'.
Proof.
  intros [Hd H]%assert_inv. destruct (rposition _ (h_undo_stack h)) as [i|] eqn:E.
  - apply rposition_Some in E as (e & E1 & E2 & _). rewrite E2 in H. injection H as <- <-. split; [done|]. eexists _, _, [entry_id e]. split; [done|].
    apply ids_split in E1. rewrite !ids_app, E1, <-!app_assoc. apply Permutation_app_head, Permutation_app_comm.
  - destruct (rposition _ (h_redo_stack h)) as [i|] eqn:E'; [|injection H as <- <-; by apply moves_refl].
    apply rposition_Some in E' as (e & E1 & E2 & _). rewrite E2 in H. injection H as <- <-. split; [done|]. eexists _, _, [entry_id e]. split; [done|].
    apply ids_split in E1. by rewrite !ids_app, E1, <-!app_assoc.
Qed.

(** ** Every step keeps the invariant *)
Lemma start_ok h c start now o h' c' :
  history_ok h c → (value c < U32_MAX)%N → start_transaction h start now c = Ret (o, h', c') → history_ok h' c'.
Proof.
  intros Hok Hc. unfold start_transaction. destruct (usize_add _ _) as [d| |] eqn:Ed; [|done|done].
  assert (d = h_transaction_depth h + 1) as -> by (unfold usize_add in Ed; by case_match; simplify_eq).
  change (tick c) with (c, (tick c).2). rewrite tick_next by done.
  destruct (Nat.eqb_spec (h_transaction_depth h + 1) 1) as [E|Hne].
  - intros [= <- <- <-]. set (e := MkHistoryEntry _ _ _ _).
    change (history_ok (with_depth (with_stacks h (h_undo_stack h ++ [e]) (h_redo_stack h)) (h_transaction_depth h + 1)) (MkLamport (value c + 1) (replica_id c))).
    apply history_ok_depth; [apply (history_ok_push h c); try done; [by apply ticked_fresh|unfold issued; cbn; lia|cbn; lia]|].
    intros _. cbn. by destruct (h_undo_stack h).
  - intros [= <- <- <-]. apply history_ok_depth; [done|]. intros _. apply Hok. lia.
Qed.
Lemma end_ok h c now o h' : history_ok h c → end_transaction h now = Ret (o, h') → history_ok h' c.
Proof.
  intros Hok. unfold end_transaction. destruct (Nat.eqb_spec (h_transaction_depth h) 0) as [?|Hd]; [done|]. cbn [negb rust_assert].
  set (h1 := with_depth h _). cbn [with_depth h_transaction_depth h1]. assert (Hne : h_undo_stack h ≠ []) by (apply Hok; lia).
  assert (Hok1 : history_ok h1 c) by (apply history_ok_depth; done).
  destruct (Nat.eqb_spec (h_transaction_depth h - 1) 0) as [E|?]; [|intros [= <- <-]; done].
  destruct (snoc_cases (h_undo_stack h)) as [?|(k & x & Ex & El & Er)]; [done|]. change (h_undo_stack h1) with (h_undo_stack h). rewrite El, Er. cbn.
  destruct (t_edit_ids _); intros [= <- <-]; (apply history_ok_stacks; [done| |cbn; lia]).
  - exists [entry_id x]. cbn. rewrite Ex, !ids_app, <-!app_assoc. apply Permutation_app_head, Permutation_app_comm.
  - exists (ids (h_redo_stack h)). cbn. rewrite app_nil_r, Ex, !ids_app. done.
Qed.
(** Changing an entry without changing its identifier. *)
Lemma ids_on_last f l : (∀ e, entry_id (f e) = entry_id e) → ids (on_last_entry f l) = ids l.
Proof.
  intros Hf. destruct (snoc_cases l) as [->|(k & x & -> & _)]; [done|]. rewrite on_last_entry_snoc, !ids_app. cbn. by rewrite Hf.
Qed.
Lemma on_last_ne f l : l ≠ [] → on_last_entry f l ≠ [].
Proof. destruct (snoc_cases l) as [->|(k & x & -> & _)]; [done|]. intros _. rewrite on_last_entry_snoc. by destruct k. Qed.
Lemma history_ok_same h c u r : history_ok h c → ids u = ids (h_undo_stack h) → ids r = ids (h_redo_stack h) → history_ok (with_stacks h u r) c.
Proof.
  intros Hok Eu Er. apply history_ok_stacks; [done| |].
  - exists []. by rewrite app_nil_r, !ids_app, Eu, Er.
  - intros Hd ->. destruct Hok as [Ho _ _]. apply (Ho Hd). unfold ids in Eu. by destruct (h_undo_stack h).
Qed.
Lemma ids_alter f i l : (∀ e, entry_id (f e) = entry_id e) → ids (alter f i l) = ids l.
Proof.
  intros Hf. unfold ids. rewrite (list_fmap_alter _ _ id) by (by apply Forall_forall). apply list_eq. intros j.
  rewrite list_lookup_alter. case_decide as E; [subst|done]. by destruct ((entry_id <$> l) !! j).
Qed.
Lemma on_transaction_ok h c id f : (∀ t, t_id (f t) = t_id t) → history_ok h c → history_ok (on_transaction h id f) c.
Proof.
  intros Hf Hok. unfold on_transaction. assert (He : ∀ e, entry_id (with_transaction e (f (he_transaction e))) = entry_id e) by (intros e; apply Hf).
  destruct (rposition _ (h_undo_stack h)); [by apply history_ok_same; rewrite ?ids_alter|].
  destruct (rposition _ (h_redo_stack h)); [by apply history_ok_same; rewrite ?ids_alter|done].
Qed.

Lemma history_step_ok h c h' c' : history_step (h, c) (h', c') → history_ok h c → history_ok h' c'.
Proof.
  intros Hs Hok. inversion Hs; subst; clear Hs.
  - destruct Hok as [Ho Hu Hi]. split; [done|done|]. eapply Forall_impl; [exact Hi|]. intros id. by apply issued_mono.
  - unfold history_push in *. destruct (map_insert _ _ _); simplify_eq. destruct Hok. by split.
  - by eapply start_ok.
  - by eapply end_ok.
  - destruct (group_spec h) as ([? ?] & E & ? & _). match goal with H : group h = _ |- _ => rewrite E in H; injection H as <- <- end. by eapply grouped_ok.
  - destruct (group_until_spec h id) as (? & E & ?). match goal with H : group_until h id = _ |- _ => rewrite E in H; injection H as <- end. by eapply grouped_ok.
  - unfold finalize_last_transaction in *. simplify_eq. apply history_ok_same; [done| |done]. by apply ids_on_last.
  - match goal with H : push_transaction _ _ _ = _ |- _ => apply assert_inv in H as [Hd H]; injection H as <- end.
    match goal with H : new_here _ _ _ |- _ => destruct H as [Hn Hi] end. by apply (history_ok_push h c').
  - match goal with H : push_empty_transaction _ _ _ _ = _ |- _ => apply assert_inv in H as [Hd He] end.
    change (tick c) with (c, (tick c).2) in He. rewrite tick_next in He by done. injection He as <- <- <-.
    apply (history_ok_push h c); try done; [by apply ticked_fresh|unfold issued; cbn; lia|cbn; lia].
  - unfold push_undo in *. destruct (rust_assert _); [|done|done]. destruct (map_get _ _) as [[?|?]|]; simplify_eq; [|done|done].
    destruct (unwrap _); simplify_eq. apply history_ok_same; [done| |done]. by apply ids_on_last.
  - eapply moves_ok; [done|by eapply pop_undo_moves].
  - eapply moves_ok; [done|by eapply pop_redo_moves].
  - eapply moves_ok; [done|by eapply remove_undo_moves].
  - eapply moves_ok; [done|by eapply remove_undo_until_moves].
  - eapply moves_ok; [done|by eapply remove_redo_moves].
  - eapply moves_ok; [done|by eapply forget_moves].
  - unfold merge_transactions in *. destruct (forget h id) as [[o h1]| |] eqn:Ef; [|done|done].
    pose proof (moves_ok _ _ _ Hok (forget_moves _ _ _ _ Ef)). destruct o; simplify_eq; [|done]. by apply on_transaction_ok.
Qed.

Lemma reach_ok base_text group_interval clock h c : history_reach base_text group_interval clock (h, c) → history_ok h c.
Proof.
  intros Hr. remember (h, c) as s eqn:Es. revert h c Es. induction Hr as [|[h0 c0] [h1 c1] Hr IH Hs]; intros h c [= <- <-].
  - split; cbn; [lia|constructor|constructor].
  - eapply history_step_ok; [exact Hs|]. by apply IH.
Qed.

(** ** Theorems *)
(** C21: As long as a transaction that is pushed from outside is new (its
    identifier is neither on the stacks nor one the clock will issue), whatever
    is done with a buffer's history, an open transaction is on the undo stack,
    no transaction is on the stacks twice, and the clock issues no identifier
    again. The condition is needed: [push_transaction] checks nothing, and
    keeps these properties exactly if the transaction is new. *)
Theorem history_invariant base_text group_interval clock h c :
  history_reach base_text group_interval clock (h, c) →
  history_ok h c ∧
  ∀ t now, h_transaction_depth h = 0 →
    returns (push_transaction h t now) (λ h', history_ok h' c ↔ new_here h c (t_id t)).
Proof.
  intros Hok%reach_ok. split; [done|]. intros t now Hd. unfold push_transaction. rewrite assert_none by done. apply returns_Ret. split.
  - intros [_ Hu Hi]. cbn in Hu, Hi. rewrite <-app_assoc, !ids_app in Hu, Hi. cbn in Hu, Hi. rewrite <-Permutation_middle in Hu, Hi.
    apply NoDup_cons in Hu as [Hu _]. apply Forall_cons in Hi as [Hi _]. split; [by rewrite ids_app|done].
  - intros [Hn Hi]. by apply (history_ok_push h c).
Qed.

(** No step of a history panics but for the assertions on the depth. *)
Definition steps_return (h : History) (now : Instant) (id dst : Lamport) : Prop :=
  returns (group h) (λ _, True) ∧ returns (group_until h id) (λ _, True) ∧
  (0 < h_transaction_depth h → returns (end_transaction h now) (λ _, True) ∧ returns (push_undo h id) (λ _, True)) ∧
  (h_transaction_depth h = 0 →
    returns (pop_undo h) (λ _, True) ∧ returns (pop_redo h) (λ _, True) ∧ returns (remove_from_undo h id) (λ _, True) ∧
    returns (remove_from_undo_until h id) (λ _, True) ∧ returns (remove_from_redo h id) (λ _, True) ∧
    returns (forget h id) (λ _, True) ∧ returns (merge_transactions h id dst) (λ _, True)).

Lemma forget_returns h id : h_transaction_depth h = 0 → returns (forget h id) (λ _, True).
Proof.
  intros Hd. unfold forget. rewrite assert_none by done.
  destruct (rposition _ (h_undo_stack h)) as [i|] eqn:E; [apply rposition_Some in E as (e & _ & -> & _); by apply returns_Ret|].
  destruct (rposition _ (h_redo_stack h)) as [i|] eqn:E'; [apply rposition_Some in E' as (e & _ & -> & _); by apply returns_Ret|by apply returns_Ret].
Qed.

(** C22: in every history that can be reached, an operation panics only when its
    assertion about the depth of transactions fails: no index is out of range
    and no [unwrap] fails. *)
Theorem history_never_panics base_text group_interval clock h c now id dst :
  history_reach base_text group_interval clock (h, c) → steps_return h now id dst.
Proof.
  intros Hok%reach_ok. unfold steps_return. split_and!.
  - eapply returns_mono; [apply group_spec|done].
  - eapply returns_mono; [apply group_until_spec|done].
  - intros Hd. destruct (snoc_cases (h_undo_stack h)) as [E|(k & x & E & El & Er)]; [by destruct (ho_open h c Hok Hd)|].
    unfold end_transaction, push_undo. destruct (Nat.eqb_spec (h_transaction_depth h) 0) as [?|_]; [lia|]. cbn [negb rust_assert]. split.
    + case_match; [|by apply returns_Ret]. cbn [with_depth h_undo_stack]. rewrite El. cbn [unwrap]. case_match; by apply returns_Ret.
    + destruct (map_get _ _) as [[]|]; try by apply returns_Ret. rewrite El. by apply returns_Ret.
  - intros Hd. unfold pop_undo, pop_redo, remove_from_undo, remove_from_undo_until, remove_from_redo, merge_transactions. rewrite assert_none by done. split_and!.
    + case_match; by apply returns_Ret.
    + case_match; by apply returns_Ret.
    + destruct (rposition _ _) as [i|] eqn:E; [|by apply returns_Ret]. apply rposition_Some in E as (e & _ & -> & _). by apply returns_Ret.
    + case_match; by apply returns_Ret.
    + case_match; by apply returns_Ret.
    + by apply forget_returns.
    + destruct (forget_returns h id Hd) as ([[t|] h'] & -> & _); by apply returns_Ret.
Qed.

(** undoing and redoing are inverse on the stacks: a transaction that is
    undone and redone is where it was, and so are all transactions down to
    [id] when they are undone together and redone up to the last one. *)
Theorem undo_redo_stacks base_text group_interval clock h c k e id l h' :
  history_reach base_text group_interval clock (h, c) → h_undo_stack h = k ++ [e] → h_transaction_depth h = 0 →
  (∃ h1, pop_undo h = Ret (Some e, h1) ∧ pop_redo h1 = Ret (Some e, h)) ∧
  (remove_from_undo_until h id = Ret (l, h') → id ∈ ids (h_undo_stack h) →
    remove_from_redo h' (entry_id e) = Ret (reverse l, h)).
Proof.
  intros Hok%reach_ok E Hd. split.
  - unfold pop_undo. rewrite assert_none, E, last_snoc, removelast_last by done. eexists. split; [done|].
    unfold pop_redo. rewrite assert_none by done. cbn. rewrite last_snoc, removelast_last, <-E. by destruct h.
  - unfold remove_from_undo_until, remove_from_redo. rewrite assert_none by done.
    destruct (rposition _ _) as [i|] eqn:Ei; [|by apply rposition_None in Ei].
    intros [= <- <-] _. rewrite assert_none by done. cbn [h_redo_stack with_stacks].
    apply rposition_Some in Ei as (x & Ex & _). set (u := h_undo_stack h) in *.
    assert (∃ m, drop i u = m ++ [e]) as [m Em].
    { destruct (snoc_cases (drop i u)) as [En|(m & y & Em & _)]; [exfalso|exists m].
      - apply (f_equal length) in Ex. rewrite length_app, length_take in Ex. cbn in Ex. rewrite !length_drop in Ex.
        apply (f_equal length) in En. rewrite length_drop in En. cbn in En. lia.
      - rewrite Em. rewrite <-(take_drop i u), Em, app_assoc in E. apply app_inj_tail in E as [_ ->]. done. }
    assert (Erev : reverse (drop i u) = e :: reverse m) by (rewrite Em, reverse_app; done). rewrite Erev, rposition_at.
    + rewrite drop_app_length, take_app_length, <-Erev, reverse_involutive. cbn [h_undo_stack with_stacks]. rewrite take_drop.
      unfold u. by destruct h.
    + destruct Hok as [_ Hu _]. fold u in Hu. rewrite <-(take_drop i u), Em, !ids_app in Hu. apply NoDup_app in Hu as (Hu & _ & _).
      apply NoDup_app in Hu as (_ & _ & Hu). apply NoDup_app in Hu as (_ & Hd' & _). intros Hin. apply (Hd' (entry_id e)); [|by left].
      unfold ids in *. rewrite list_elem_of_fmap in Hin |- *. destruct Hin as (y & Ey & Hy). exists y. split; [done|]. by apply elem_of_reverse.
Qed.

(** ** A history *)
Definition history_base : Rope := rope_new.
Definition sample_clock : Lamport := MkLamport 1 LOCAL.
Definition sample_op (t : Lamport) : BufferOperation := OpEdit (MkEditOperation t Global_new [] []).
(** A transaction with one edit, as [Buffer::edit] records it. *)
Definition sample_transaction (h : History) (c : Lamport) (now : Instant) : outcome (History * Lamport) :=
  let* '(_, h, c) := start_transaction h Global_new now c in
  let '(t, c) := tick c in
  let* h := history_push h (sample_op t) in
  let* h := push_undo h t in
  let* '(_, h) := end_transaction h now in
  Ret (h, c).
Definition sample_histories : outcome (History * Lamport) :=
  let* '(h, c) := sample_transaction (history_new history_base 300) sample_clock 10 in
  sample_transaction h c 1000.
Definition sample_history : History := match sample_histories with Ret (h, _) => h | _ => history_new history_base 300 end.
Definition sample_now : Lamport := match sample_histories with Ret (_, c) => c | _ => sample_clock end.

Lemma transaction_reach base i clock h c now h' c' :
  history_reach base i clock (h, c) → (value c < U32_MAX - 2)%N → sample_transaction h c now = Ret (h', c') → history_reach base i clock (h', c').
Proof.
  intros Hr Hc. unfold sample_transaction. destruct (start_transaction h Global_new now c) as [[[o h1] c1]| |] eqn:E1; [|done|done].
  destruct (tick c1) as [t c2] eqn:Et. destruct (history_push h1 _) as [h2| |] eqn:E2; [|done|done].
  destruct (push_undo h2 t) as [h3| |] eqn:E3; [|done|done]. destruct (end_transaction h3 now) as [[o' h4]| |] eqn:E4; [|done|done].
  intros [= <- <-]. assert (Hc1 : (value c1 <= value c + 1)%N).
  { unfold start_transaction in E1. destruct (usize_add _ _); [|done|done]. change (tick c) with (c, (tick c).2) in E1.
    rewrite tick_next in E1 by lia. case_match; simplify_eq; cbn; lia. }
  change (tick c1) with (c1, (tick c1).2) in Et. rewrite tick_next in Et by lia. simplify_eq.
  eapply hr_step; [|by eapply hs_end]. eapply hr_step; [|by eapply hs_push_undo]. eapply hr_step; [|by eapply hs_push].
  eapply hr_step; [|by apply (hs_clock h1 t); cbn; [|lia]]. eapply hr_step; [exact Hr|]. eapply hs_start; [lia|done].
Qed.
Lemma sample_reach : history_reach history_base 300 sample_clock (sample_history, sample_now).
Proof.
  assert (E : sample_histories = Ret (sample_history, sample_now)) by (vm_compute; reflexivity).
  unfold sample_histories in E. destruct (sample_transaction (history_new history_base 300) sample_clock 10) as [[h c]| |] eqn:E1; [|done|done].
  assert (Hc : c = MkLamport 3 LOCAL) by (vm_compute in E1; by simplify_eq).
  apply (transaction_reach _ _ _ h c 1000); [|rewrite Hc; reflexivity|exact E]. apply (transaction_reach _ _ _ (history_new history_base 300) sample_clock 10); [apply hr_new|reflexivity|exact E1].
Qed.

Lemma history_invariant_witness : history_ok sample_history sample_now ∧
  ∃ t h', push_transaction sample_history t 2000 = Ret h' ∧ ¬ history_ok h' sample_now.
Proof.
  destruct (history_invariant history_base 300 sample_clock _ _ sample_reach) as [H1 H2]. split; [exact H1|].
  exists (MkTransaction (MkLamport 1 LOCAL) [] Global_new). destruct (H2 (MkTransaction (MkLamport 1 LOCAL) [] Global_new) 2000%N) as (h' & E & H); [vm_compute; reflexivity|].
  exists h'. split; [exact E|]. intros [Hn _]%H. apply Hn. apply list_elem_of_lookup_2 with 0. vm_compute. reflexivity.
Defined.
Lemma history_never_panics_witness : steps_return sample_history 2000 (MkLamport 1 LOCAL) (MkLamport 3 LOCAL).
Proof. apply (history_never_panics history_base 300 sample_clock _ sample_now). exact sample_reach. Defined.
Lemma undo_redo_stacks_witness :
  ∃ e l h', remove_from_undo_until sample_history (MkLamport 1 LOCAL) = Ret (l, h') ∧ length l = 2 ∧
    remove_from_redo h' (entry_id e) = Ret (reverse l, sample_history).
Proof.
  eexists _, _, _. split; [vm_compute; reflexivity|]. split; [reflexivity|].
  refine (proj2 (undo_redo_stacks history_base 300 sample_clock sample_history sample_now _ _ (MkLamport 1 LOCAL) _ _ sample_reach _ eq_refl) _ _).
  - instantiate (2 := [_]). vm_compute. reflexivity.
  - vm_compute. reflexivity.
  - apply list_elem_of_lookup_2 with 0. vm_compute. reflexivity.
Defined.
