(* ===== verification/Buffer.v ===== *)
(** * Buffers ([Buffer] in [crates/text/src/text.rs])

    A buffer is a snapshot with its history, its clock, the operations that
    wait for others, and those who wait for operations.  Senders of [oneshot]
    channels are numbers; [b_notified] lists those that were sent to.  The
    [HashSet] of replicas is a list without order.  A value of the clock
    [Instant::now()] is an argument. *)
From stdpp Require Import base numbers option list.
From Stdlib Require Import Lia.
From S2P Require Import Prelude Clock SumTree Cursor Keyed TreeMap Locator UndoMap OperationQueue Patch Subscription Utf8 Rope RopePoints RopeChunks Fragment Snapshot History.
#[local] Opaque TREE_BASE av_cap.

#[export] Instance BufferOperation_operation : Operation BufferOperation := op_timestamp.
Abbreviation Sender := nat.

Record Buffer := MkBuffer {
  b_snapshot : BufferSnapshot; b_history : History; b_deferred_ops : OperationQueue (Op := BufferOperation);
  b_deferred_replicas : list ReplicaId; b_lamport_clock : Lamport; b_subscriptions : Topic;
  b_edit_id_resolvers : list (Lamport * list Sender); b_wait_for_version_txs : list (Global * Sender);
  b_notified : list Sender }.

Definition with_version (s : BufferSnapshot) (version : Global) : BufferSnapshot :=
  MkSnapshot (s_visible_text s) (s_deleted_text s) (s_fragments s) (s_insertions s) (s_insertion_slices s)
    (s_undo_map s) version (s_remote_id s) (s_replica_id s) (s_line_ending s).
Definition with_snapshot (b : Buffer) (s : BufferSnapshot) : Buffer :=
  MkBuffer s (b_history b) (b_deferred_ops b) (b_deferred_replicas b) (b_lamport_clock b) (b_subscriptions b)
    (b_edit_id_resolvers b) (b_wait_for_version_txs b) (b_notified b).
Definition with_history (b : Buffer) (h : History) (clock : Lamport) : Buffer :=
  MkBuffer (b_snapshot b) h (b_deferred_ops b) (b_deferred_replicas b) clock (b_subscriptions b)
    (b_edit_id_resolvers b) (b_wait_for_version_txs b) (b_notified b).
Definition with_subscriptions (b : Buffer) (t : Topic) : Buffer :=
  MkBuffer (b_snapshot b) (b_history b) (b_deferred_ops b) (b_deferred_replicas b) (b_lamport_clock b) t
    (b_edit_id_resolvers b) (b_wait_for_version_txs b) (b_notified b).
Definition b_version (b : Buffer) : Global := s_version (b_snapshot b).
(** [self.snapshot.version.observe(timestamp)] *)
Definition observe_version (b : Buffer) (timestamp : Lamport) : Buffer :=
  with_snapshot b (with_version (b_snapshot b) (observe (b_version b) timestamp)).

(** ** New buffers *)
Section New.
Context (max_insertion_len : N).

Record BaseFragments := MkBase {
  bf_fragments : fragment_tree; bf_insertions : SumTree InsertionFragment InsertionFragmentKey;
  bf_insertion_offset : nat; bf_text_offset : nat; bf_prev_locator : Locator }.

(** One turn of [while text_offset < visible_text.len()]. *)
Definition base_step (visible_text : Rope) (insertion_timestamp : Lamport) (st : BaseFragments) :
  outcome (BaseFragments + BaseFragments) :=
  let* len := rope_len visible_text in
  if bf_text_offset st <? len then
    let target_end := N.to_nat (N.min (N.of_nat len) (N.of_nat (bf_text_offset st) + max_insertion_len)) in
    let* chunk_end :=
      if target_end =? len then Ret target_end else rope_floor_char_boundary visible_text target_end in
    let* chunk_len := usize_sub chunk_end (bf_text_offset st) in
    let* fragment_id := between (bf_prev_locator st) locator_max in
    let fragment := MkFragment fragment_id insertion_timestamp (bf_insertion_offset st) (as_u32 chunk_len) true [] Global_new in
    let* insertions := push (bf_insertions st) (insertion_new fragment) in
    let* fragments := push (bf_fragments st) fragment in
    let* insertion_offset := U32_add (bf_insertion_offset st) (as_u32 chunk_len) in
    Ret (inl (MkBase fragments insertions insertion_offset chunk_end fragment_id))
  else Ret (inr st).

Definition new_normalized (replica_id : ReplicaId) (remote_id : N) (line_ending : LineEnding) (normalized : Rope)
    (group_interval : N) : outcome Buffer :=
  let history := history_new normalized group_interval in
  let lamport_clock := Lamport_new replica_id in
  let visible_text := h_base_text history in
  let* empty := rope_is_empty visible_text in
  let* '(fragments, insertions, lamport_clock, version) :=
    if (empty : bool) then Ret (new, new, lamport_clock, Global_new)
    else
      let insertion_timestamp := Lamport_new LOCAL in
      let lamport_clock := Lamport_observe lamport_clock insertion_timestamp in
      let version := observe Global_new insertion_timestamp in
      let* len := rope_len visible_text in
      let* st := loop (base_step visible_text insertion_timestamp) (S len) (MkBase new new 0 0 locator_min) in
      Ret (bf_fragments st, bf_insertions st, lamport_clock, version) in
  Ret (MkBuffer
    (MkSnapshot visible_text rope_new fragments insertions new new version remote_id replica_id line_ending)
    history queue_new [] lamport_clock topic_default [] [] []).
End New.

Definition branch (self : Buffer) (group_interval : N) : Buffer :=
  MkBuffer (b_snapshot self) (history_new (h_base_text (b_history self)) group_interval) queue_new []
    (Lamport_new LOCAL_BRANCH) topic_default [] [] [].

(** ** Transactions *)
Definition start_transaction_at (self : Buffer) (now : Instant) : outcome (option TransactionId * Buffer) :=
  let* '(id, history, clock) := start_transaction (b_history self) (b_version self) now (b_lamport_clock self) in
  Ret (id, with_history self history clock).
Definition end_transaction_at (self : Buffer) (now : Instant) : outcome (option (TransactionId * Global) * Buffer) :=
  let* '(entry, history) := end_transaction (b_history self) now in
  match entry with
  | Some entry =>
      let since := t_start (he_transaction entry) in
      let* '(id, history) := group history in
      let* id := unwrap id in
      Ret (Some (id, since), with_history self history (b_lamport_clock self))
  | None => Ret (None, with_history self history (b_lamport_clock self))
  end.
Definition push_operation (self : Buffer) (op : BufferOperation) : outcome Buffer :=
  let* history := history_push (b_history self) op in Ret (with_history self history (b_lamport_clock self)).

(** ** Local edits *)
(** [impl ToOffset for usize] *)
Definition usize_to_offset (debug_assertions : bool) (snapshot : BufferSnapshot) (self : nat) : outcome nat :=
  let* boundary := rope_assert_char_boundary debug_assertions debug_assertions (s_visible_text snapshot) self in
  if (boundary : bool) then Ret self else rope_floor_char_boundary (s_visible_text snapshot) self.
Fixpoint edit_offsets (debug_assertions : bool) (snapshot : BufferSnapshot) (edits : list (nat * nat * list N)) :
  outcome (list (nat * nat * list N)) :=
  match edits with
  | [] => Ret []
  | (a, e, new_text) :: edits =>
      let* a := usize_to_offset debug_assertions snapshot a in
      let* e := usize_to_offset debug_assertions snapshot e in
      let* edits := edit_offsets debug_assertions snapshot edits in
      Ret ((a, e, new_text) :: edits)
  end.

Section Edit.
Context (par_chunks : ∀ A : Type, nat → list A → list (list A)).
Context (sort_insertions : list insertion_edit → list insertion_edit).
Context (sort_slices : list (Edit (MapEntry InsertionSlice unit) (MapKey InsertionSlice)) →
  list (Edit (MapEntry InsertionSlice unit) (MapKey InsertionSlice))).
Context (replace_line_separators : list N → list N) (max_insertion_len : N) (debug_assertions : bool).
Abbreviation apply_edit_internal :=
  (apply_edit_internal par_chunks sort_insertions sort_slices replace_line_separators max_insertion_len).

Definition apply_local_edit (self : Buffer) (edits : list (nat * nat * list N)) (timestamp : Lamport) :
  outcome (EditOperation * Buffer) :=
  let* edits := edit_offsets debug_assertions (b_snapshot self) edits in
  let* '(edit_op, edits_patch, snapshot) := apply_edit_internal (b_snapshot self) edits timestamp in
  let* subscriptions := publish (b_subscriptions self) edits_patch in
  Ret (edit_op, with_subscriptions (with_snapshot self snapshot) subscriptions).

(** [now] and [later] are the instants of the start and the end. *)
Definition buffer_edit (self : Buffer) (edits : list (nat * nat * list N)) (now later : Instant) :
  outcome (BufferOperation * Buffer) :=
  let* '(_, self) := start_transaction_at self now in
  let '(timestamp, clock) := tick (b_lamport_clock self) in
  let self := with_history self (b_history self) clock in
  let* '(edit_op, self) := apply_local_edit self edits timestamp in
  let operation := OpEdit edit_op in
  let* self := push_operation self operation in
  let* history := push_undo (b_history self) (op_timestamp operation) in
  let self := with_history self history (b_lamport_clock self) in
  let self := observe_version self (op_timestamp operation) in
  let* '(_, self) := end_transaction_at self later in
  Ret (operation, self).

(** ** Edited copies *)
Record EditedBufferSnapshot := MkEdited { ed_base_version : Global; ed_snapshot : BufferSnapshot; ed_did_edit : bool }.

Definition snapshot_with_edits (self : Buffer) (edits : list (nat * nat * list N)) : outcome (EditedBufferSnapshot * Buffer) :=
  let snapshot := b_snapshot self in
  let base_version := b_version self in
  let* edits := edit_offsets debug_assertions snapshot edits in
  match edits with
  | [] => Ret (MkEdited base_version snapshot false, self)
  | _ :: _ =>
      let '(timestamp, clock) := tick (b_lamport_clock self) in
      let* '(_, _, snapshot) := apply_edit_internal snapshot edits timestamp in
      let snapshot := with_version snapshot (observe (s_version snapshot) timestamp) in
      Ret (MkEdited base_version snapshot true, with_history self (b_history self) clock)
  end.

Definition fast_forward (self : Buffer) (edited : EditedBufferSnapshot) : outcome Buffer :=
  if changed_since (b_version self) (ed_base_version edited) then Panic
  else
    let clock := foldl Lamport_observe (b_lamport_clock self) (Clock.iter (s_version (ed_snapshot edited))) in
    Ret (with_history (with_snapshot self (ed_snapshot edited)) (b_history self) clock).
End Edit.
