(* ===== verification/Undo.v ===== *)
(** * Undoing and redoing ([crates/text/src/text.rs])

    An undo operation says how often edits are undone; an odd count hides what
    the edit inserted and shows what it deleted.  The fragments an edit touched
    are found through the insertion slices and the index of insertions. *)
From stdpp Require Import base numbers option list.
From Stdlib Require Import Lia.
From S2P Require Import Prelude Clock SumTree Cursor Keyed TreeMap Locator UndoMap Patch Subscription Utf8 Rope Fragment Snapshot History Buffer.
#[local] Opaque TREE_BASE av_cap.
#[local] Existing Instances key_target ord_seek_target Dimensions_dimension Dimensions_seek_target unit_dimension.

Section Undo.
(** The sorts by [(insertion_id, range.start, Reverse(range.end))], of locators
    and of batches of keyed edits. *)
Context (sort_by_insertion : list InsertionSlice → list InsertionSlice) (sort_locators : list Locator → list Locator).
Context (sort_undos : list (Edit UndoMapEntry UndoMapKey) → list (Edit UndoMapEntry UndoMapKey)).

(** ** [fragment_ids_for_edits] *)
Abbreviation insertions_cursor := (Cursor InsertionFragment InsertionFragmentKey InsertionFragmentKey).

Fixpoint take_while {A} (f : A → bool) (l : list A) : list A :=
  match l with [] => [] | x :: l => if f x then x :: take_while f l else [] end.
Definition slices_for_edit (self : BufferSnapshot) (edit_id : Lamport) : outcome (list InsertionSlice) :=
  let insertion_slice := MkInsertionSlice edit_id Lamport_MIN 0 0 in
  let* slices := set_iter_from (s_insertion_slices self) insertion_slice in
  Ret (take_while (λ slice, bool_decide (sl_edit_id slice = edit_id)) slices).
Fixpoint slices_for_edits (self : BufferSnapshot) (edit_ids : list Lamport) : outcome (list InsertionSlice) :=
  match edit_ids with
  | [] => Ret []
  | edit_id :: edit_ids =>
      let* slices := slices_for_edit self edit_id in
      let* rest := slices_for_edits self edit_ids in
      Ret (slices ++ rest)
  end.

(** One turn of [while let Some(item) = insertions_cursor.item()]. *)
Definition collect_step (slice : InsertionSlice) (st : insertions_cursor * list Locator) :
  outcome (insertions_cursor * list Locator + insertions_cursor * list Locator) :=
  let '(c, fragment_ids) := st in
  let* i := item c in
  match i with
  | Some x =>
      if negb (bool_decide (if_timestamp x = sl_insertion_id slice)) || (sl_end slice <=? if_split_offset x) then Ret (inr st)
      else
        let* c := next c in
        Ret (inl (c, fragment_ids ++ [if_fragment_id x]))
  | None => Ret (inr st)
  end.
(** The body of [for insertion_slice in &insertion_slices]. *)
Definition collect_slice (fuel : nat) (st : insertions_cursor * list Locator) (slice : InsertionSlice) :
  outcome (insertions_cursor * list Locator) :=
  let '(c, fragment_ids) := st in
  let insertion_id := sl_insertion_id slice in
  let* c :=
    if negb (bool_decide (insertion_id = ik_timestamp (start c))) || (ik_split_offset (start c) <? sl_start slice) then
      let* '(_, c) := seek_forward c (MkInsertionKey insertion_id (sl_start slice)) Left in Ret c
    else Ret c in
  loop (collect_step slice) fuel (c, fragment_ids).
Fixpoint collect_slices (fuel : nat) (st : insertions_cursor * list Locator) (slices : list InsertionSlice) :
  outcome (insertions_cursor * list Locator) :=
  match slices with
  | [] => Ret st
  | slice :: slices => let* st := collect_slice fuel st slice in collect_slices fuel st slices
  end.

Definition fragment_ids_for_edits (self : BufferSnapshot) (edit_ids : list Lamport) : outcome (list Locator) :=
  let* insertion_slices := slices_for_edits self edit_ids in
  let insertion_slices := sort_by_insertion insertion_slices in
  let* '(_, fragment_ids) :=
    collect_slices (S (tree_size (s_insertions self))) (cursor_new (s_insertions self), []) insertion_slices in
  Ret (sort_locators fragment_ids).

(** ** [apply_undo] *)
Abbreviation id_cursor := (Cursor Fragment FragmentSummary (option Locator * nat * unit)).
(** The variables [old_fragments], [new_fragments], [new_ropes] and [edits]. *)
Record Undoing := MkUndoing { u_cursor : id_cursor; u_fragments : fragment_tree; u_ropes : RopeBuilder; u_edits : Patch }.

Definition toggled (fragment : Fragment) (visible : bool) (timestamp : Lamport) : Fragment :=
  MkFragment (f_id fragment) (f_timestamp fragment) (f_insertion_offset fragment) (f_len fragment) visible
    (f_deletions fragment) (observe (f_max_undos fragment) timestamp).

(** [new_ropes.append(..); new_fragments.append(..)] *)
Definition undo_append (st : Undoing) (c : id_cursor) (fragments : fragment_tree) : outcome Undoing :=
  let* ropes := ropes_append (u_ropes st) (fs_text (summary fragments)) in
  let* new_fragments := append (u_fragments st) fragments in
  Ret (MkUndoing c new_fragments ropes (u_edits st)).

(** The body of [for fragment_id in self.fragment_ids_for_edits(..)]. *)
Definition undo_fragment (undo_map : UndoMap) (undo : UndoOperation) (st : Undoing) (fragment_id : Locator) : outcome Undoing :=
  let* '(preceding_fragments, c) := Cursor.slice (u_cursor st) (Some fragment_id) Left in
  let* st := undo_append st c preceding_fragments in
  let* i := item c in
  match i with
  | Some fragment =>
      let fragment_was_visible := f_visible fragment in
      let* visible := is_visible fragment undo_map in
      let fragment := toggled fragment visible (undo_timestamp undo) in
      let '(_, old_start, _) := start c in
      let new_start := ft_visible (fs_text (summary (u_fragments st))) in
      let* edits :=
        if fragment_was_visible && negb (f_visible fragment) then
          let* old_end := usize_add old_start (f_len fragment) in
          Ret (patch_push (u_edits st) (MkTextEdit (MkRange old_start old_end) (MkRange new_start new_start)))
        else if negb fragment_was_visible && f_visible fragment then
          let* new_end := usize_add new_start (f_len fragment) in
          Ret (patch_push (u_edits st) (MkTextEdit (MkRange old_start old_start) (MkRange new_start new_end)))
        else Ret (u_edits st) in
      let* ropes := push_fragment (u_ropes st) fragment fragment_was_visible in
      let* fragments := push (u_fragments st) fragment in
      let* c := next c in
      Ret (MkUndoing c fragments ropes edits)
  | None => Ret st
  end.
Fixpoint undo_fragments (undo_map : UndoMap) (undo : UndoOperation) (st : Undoing) (ids : list Locator) : outcome Undoing :=
  match ids with
  | [] => Ret st
  | id :: ids => let* st := undo_fragment undo_map undo st id in undo_fragments undo_map undo st ids
  end.

(** What [apply_undo] does to the snapshot, and the patch it publishes. *)
Definition undo_snapshot (self : BufferSnapshot) (undo : UndoOperation) : outcome (Patch * BufferSnapshot) :=
  let* undo_map := undo_insert sort_undos (s_undo_map self) undo in
  let* v := rope_cursor (s_visible_text self) 0 in
  let* d := rope_cursor (s_deleted_text self) 0 in
  let* ids := fragment_ids_for_edits self (fst <$> undo_counts undo) in
  let* st := undo_fragments undo_map undo (MkUndoing (cursor_new (s_fragments self)) new (ropes_new v d) []) ids in
  let* '(suffix, c) := Cursor.suffix (u_cursor st) in
  let* st := undo_append st c suffix in
  let* '(visible_text, deleted_text) := ropes_finish (u_ropes st) in
  Ret (u_edits st,
    MkSnapshot visible_text deleted_text (u_fragments st) (s_insertions self) (s_insertion_slices self) undo_map
      (s_version self) (s_remote_id self) (s_replica_id self) (s_line_ending self)).
Definition apply_undo (self : Buffer) (undo : UndoOperation) : outcome Buffer :=
  let* '(edits, snapshot) := undo_snapshot (b_snapshot self) undo in
  let* subscriptions := publish (b_subscriptions self) edits in
  Ret (with_subscriptions (with_snapshot self snapshot) subscriptions).

(** ** Undo and redo *)
Definition undo_operations (self : Buffer) (counts : list (Lamport * N)) : outcome (BufferOperation * Buffer) :=
  let '(timestamp, clock) := tick (b_lamport_clock self) in
  let version := b_version self in
  let self := observe_version (with_history self (b_history self) clock) timestamp in
  let undo := MkUndoOperation timestamp version counts in
  let* self := apply_undo self undo in
  Ret (OpUndo undo, self).

(** [counts.insert(edit_id, self.undo_map.undo_count(edit_id).saturating_add(1))];
    the hash map is given by its pairs. *)
Definition counts_insert (counts : list (Lamport * N)) (edit_id : Lamport) (count : N) : list (Lamport * N) :=
  List.filter (λ ec, negb (bool_decide (ec.1 = edit_id))) counts ++ [(edit_id, count)].
Fixpoint undo_counts_for (undo_map : UndoMap) (counts : list (Lamport * N)) (edit_ids : list Lamport) : outcome (list (Lamport * N)) :=
  match edit_ids with
  | [] => Ret counts
  | edit_id :: edit_ids =>
      let* count := undo_count undo_map edit_id in
      undo_counts_for undo_map (counts_insert counts edit_id (N.min U32_MAX (count + 1))) edit_ids
  end.
Definition undo_or_redo (self : Buffer) (transaction : Transaction) : outcome (BufferOperation * Buffer) :=
  let* counts := undo_counts_for (s_undo_map (b_snapshot self)) [] (t_edit_ids transaction) in
  let* '(operation, self) := undo_operations self counts in
  let* self := push_operation self operation in
  Ret (operation, self).

Definition undo (self : Buffer) : outcome (option (TransactionId * BufferOperation) * Buffer) :=
  let* '(entry, history) := pop_undo (b_history self) in
  let self := with_history self history (b_lamport_clock self) in
  match entry with
  | Some entry =>
      let* '(op, self) := undo_or_redo self (he_transaction entry) in
      Ret (Some (entry_id entry, op), self)
  | None => Ret (None, self)
  end.
Definition redo (self : Buffer) : outcome (option (TransactionId * BufferOperation) * Buffer) :=
  let* '(entry, history) := pop_redo (b_history self) in
  let self := with_history self history (b_lamport_clock self) in
  match entry with
  | Some entry =>
      let* '(op, self) := undo_or_redo self (he_transaction entry) in
      Ret (Some (entry_id entry, op), self)
  | None => Ret (None, self)
  end.
Definition undo_transaction (self : Buffer) (transaction_id : TransactionId) : outcome (option BufferOperation * Buffer) :=
  let* '(entry, history) := remove_from_undo (b_history self) transaction_id in
  let self := with_history self history (b_lamport_clock self) in
  match entry with
  | Some entry => let* '(op, self) := undo_or_redo self (he_transaction entry) in Ret (Some op, self)
  | None => Ret (None, self)
  end.
(** [transactions.into_iter().map(..).collect()] *)
Fixpoint undo_or_redo_all (self : Buffer) (entries : list HistoryEntry) : outcome (list BufferOperation * Buffer) :=
  match entries with
  | [] => Ret ([], self)
  | entry :: entries =>
      let* '(op, self) := undo_or_redo self (he_transaction entry) in
      let* '(ops, self) := undo_or_redo_all self entries in
      Ret (op :: ops, self)
  end.
Definition undo_to_transaction (self : Buffer) (transaction_id : TransactionId) : outcome (list BufferOperation * Buffer) :=
  let* '(entries, history) := remove_from_undo_until (b_history self) transaction_id in
  undo_or_redo_all (with_history self history (b_lamport_clock self)) entries.
Definition redo_to_transaction (self : Buffer) (transaction_id : TransactionId) : outcome (list BufferOperation * Buffer) :=
  let* '(entries, history) := remove_from_redo (b_history self) transaction_id in
  undo_or_redo_all (with_history self history (b_lamport_clock self)) entries.
End Undo.
