(* ===== verification/Remote.v ===== *)
(** * Remote operations ([crates/text/src/text.rs])

    An operation of another replica is applied when its version is observed,
    and deferred otherwise, with all later operations of its replica.  A remote
    edit names its ranges by full offsets in the text that its version has
    seen, so it walks along the fragments with a cursor that skips those the
    version has not seen; new text goes after concurrent insertions at the same
    place that have a greater time stamp.  Those who wait for edits or versions
    are told when these have been applied. *)
From stdpp Require Import base numbers option list.
From Stdlib Require Import Lia.
From S2P Require Import Prelude Clock SumTree Cursor Keyed TreeMap Locator UndoMap OperationQueue Patch Subscription Utf8 Rope Fragment Snapshot History Buffer Undo.
#[local] Opaque TREE_BASE av_cap.
#[local] Existing Instances Dimensions_dimension Dimensions_seek_target unit_dimension.

(** ** [apply_remote_edit] *)
Abbreviation versioned_cursor := (Cursor Fragment FragmentSummary (VersionedFullOffset * nat * unit)).
Definition offset_of (d : VersionedFullOffset * nat * unit) : VersionedFullOffset := d.1.1.
(** [old_fragments.start().0.full_offset()] and [old_fragments.start().1] *)
Definition start_full (c : versioned_cursor) : outcome nat := versioned_full_offset (offset_of (start c)).
Definition start_old (c : versioned_cursor) : nat := (start c).1.2.

(** [new_ropes.push_fragment(fragment, fragment.visible); new_fragments.push(fragment.clone(), &None)] *)
Definition keep_fragment (b : Building) (fragment : Fragment) : outcome Building :=
  let* ropes := push_fragment (b_ropes b) fragment (f_visible fragment) in
  Ret (MkBuilding (builder_push (b_fragments b) fragment) ropes (b_insertions b) (b_slices b) (b_offset b) (b_patch b)).

Section Remote.
Context (par_chunks : ∀ A : Type, nat → list A → list (list A)).
Context (sort_insertions : list insertion_edit → list insertion_edit).
Context (sort_slices : list (Edit (MapEntry InsertionSlice unit) (MapKey InsertionSlice)) →
  list (Edit (MapEntry InsertionSlice unit) (MapKey InsertionSlice))).
Context (max_insertion_len : N) (debug_assertions : bool).

Section Versioned.
(** [let cx = Some(version.clone())] *)
Context (version : Global).
#[local] Hint Extern 0 (Dimension VersionedFullOffset _) => exact (versioned_dimension version) : typeclass_instances.

Definition end_full (c : versioned_cursor) : outcome nat := let* e := end_ c in versioned_full_offset (offset_of e).

(** What is left of the current fragment is pushed. *)
Definition push_suffix (c : versioned_cursor) (fragment_start : nat) (b : Building) : outcome Building :=
  let* fragment_end := end_full c in
  let* i := item c in
  let* suffix := unwrap i in
  let* len := usize_sub fragment_end fragment_start in
  let* start := start_full c in
  let* skip := usize_sub fragment_start start in
  let* suffix := part_of suffix skip len in
  push_piece b suffix (f_visible suffix).

(** If the current fragment has been partially consumed, then consume the rest
    of it and advance to the next fragment. *)
Definition consume_rest (c : versioned_cursor) (fragment_start : nat) (b : Building) : outcome (versioned_cursor * Building) :=
  let* start := start_full c in
  if start <? fragment_start then
    let* fragment_end := end_full c in
    let* b := if fragment_start <? fragment_end then push_suffix c fragment_start b else Ret b in
    let* c := next c in
    Ret (c, b)
  else Ret (c, b).

(** [if fragment_end < range.start { .. }] *)
Definition jump_to (range_start : nat) (c : versioned_cursor) (fragment_start : nat) (b : Building) :
  outcome (versioned_cursor * nat * Building) :=
  let* fragment_end := end_full c in
  if fragment_end <? range_start then
    let* '(c, b) := consume_rest c fragment_start b in
    let* '(slice, c) := Cursor.slice c (MkFullOffset range_start) Left in
    let* b := append_slice b slice in
    let* fragment_start := start_full c in
    Ret (c, fragment_start, b)
  else Ret (c, fragment_start, b).

(** [if fragment_end == range.start && fragment_end > fragment_start { .. }] *)
Definition leave_fragment (range_start : nat) (c : versioned_cursor) (fragment_start : nat) (b : Building) :
  outcome (versioned_cursor * nat * Building) :=
  let* fragment_end := end_full c in
  if (fragment_end =? range_start) && (fragment_start <? fragment_end) then
    let* b := push_suffix c fragment_start b in
    let* c := next c in
    let* fragment_start := start_full c in
    Ret (c, fragment_start, b)
  else Ret (c, fragment_start, b).

(** One turn of the loop that skips concurrent insertions with a greater time stamp. *)
Definition skip_step (range_start fragment_start : nat) (timestamp : Lamport) (st : versioned_cursor * Building) :
  outcome (versioned_cursor * Building + versioned_cursor * Building) :=
  let '(c, b) := st in
  let* i := item c in
  match i with
  | Some fragment =>
      if (fragment_start =? range_start) && lt_b timestamp (f_timestamp fragment) then
        let* b := keep_fragment b fragment in
        let* c := next c in
        let* _ := rust_assert (negb debug_assertions || (fragment_start =? range_start)) in
        Ret (inl (c, b))
      else Ret (inr st)
  | None => Ret (inr st)
  end.

(** [if fragment_start < range.start { .. }] *)
Definition keep_prefix (range_start : nat) (c : versioned_cursor) (fragment_start : nat) (b : Building) :
  outcome (nat * Building) :=
  if fragment_start <? range_start then
    let* i := item c in
    let* prefix := unwrap i in
    let* len := usize_sub range_start fragment_start in
    let* start := start_full c in
    let* skip := usize_sub fragment_start start in
    let* prefix := part_of prefix skip len in
    let* id := between (b_max_id b) (f_id prefix) in
    let prefix := with_id prefix id in
    let* b := push_piece b prefix (f_visible prefix) in
    Ret (range_start, b)
  else Ret (fragment_start, b).

(** [if !new_text.is_empty() { .. }] *)
Definition insert_remote (new_text : list N) (timestamp : Lamport) (c : versioned_cursor) (fragment_start : nat)
    (b : Building) : outcome Building :=
  match new_text with
  | [] => Ret b
  | _ :: _ =>
      let* i := item c in
      let* old_start :=
        if (match i with Some f => f_visible f | None => false end) then
          let* start := start_full c in
          let* skip := usize_sub fragment_start start in
          usize_add (start_old c) skip
        else Ret (start_old c) in
      let new_start := b_visible b in
      let next_fragment_id := match i with Some old_fragment => f_id old_fragment | None => locator_max end in
      let* b := push_fragments_for_insertion par_chunks max_insertion_len new_text timestamp b next_fragment_id timestamp in
      let* new_end := usize_add new_start (length new_text) in
      Ret (push_edit b (MkTextEdit (MkRange old_start old_start) (MkRange new_start new_end)))
  end.

(** The part of a fragment up to [intersection_end], deleted if the version
    saw it as visible; a fragment the version has not seen is left as it is. *)
Definition intersect (undo_map : UndoMap) (timestamp : Lamport) (c : versioned_cursor) (fragment_start intersection_end : nat)
    (fragment : Fragment) (b : Building) : outcome (Fragment * Building) :=
  if observed version (f_timestamp fragment) then
    let* len := usize_sub intersection_end fragment_start in
    let* start := start_full c in
    let* skip := usize_sub fragment_start start in
    let* intersection := part_of fragment skip len in
    let* id := between (b_max_id b) (f_id intersection) in
    let intersection := with_id intersection id in
    let* seen := was_visible fragment version undo_map in
    if (seen : bool) then
      let intersection := deleted_by intersection timestamp in
      let* slice := slice_from_fragment timestamp intersection in
      Ret (intersection, push_slice b slice)
    else Ret (intersection, b)
  else Ret (fragment, b).

(** One turn of [while fragment_start < range.end]. *)
Definition hide_step (undo_map : UndoMap) (range_end : nat) (timestamp : Lamport) (st : versioned_cursor * nat * Building) :
  outcome (versioned_cursor * nat * Building + versioned_cursor * nat * Building) :=
  let '(c, fragment_start, b) := st in
  if fragment_start <? range_end then
    let* i := item c in
    let* fragment := unwrap i in
    let* fragment_end := end_full c in
    let intersection_end := Nat.min range_end fragment_end in
    let* '(intersection, b) := intersect undo_map timestamp c fragment_start intersection_end fragment b in
    let* '(fragment_start, b) :=
      if 0 <? f_len intersection then
        let* b :=
          if f_visible fragment && negb (f_visible intersection) then
            let* start := start_full c in
            let* skip := usize_sub fragment_start start in
            let* old_start := usize_add (start_old c) skip in
            let new_start := b_visible b in
            let* old_end := usize_add old_start (f_len intersection) in
            Ret (push_edit b (MkTextEdit (MkRange old_start old_end) (MkRange new_start new_start)))
          else Ret b in
        let* b := push_piece b intersection (f_visible fragment) in
        Ret (intersection_end, b)
      else Ret (fragment_start, b) in
    let* c := if fragment_end <=? range_end then next c else Ret c in
    Ret (inl (c, fragment_start, b))
  else Ret (inr st).

(** The body of [for (range, new_text) in edits]. *)
Definition remote_edit (fuel : nat) (undo_map : UndoMap) (timestamp : Lamport) (st : versioned_cursor * nat * Building)
    (edit : FullOffset * FullOffset * list N) : outcome (versioned_cursor * nat * Building) :=
  let '(c, fragment_start, b) := st in
  let '(range_start, range_end, new_text) := edit in
  let '(range_start, range_end) := (full_offset range_start, full_offset range_end) in
  let* '(c, fragment_start, b) := jump_to range_start c fragment_start b in
  let* '(c, fragment_start, b) := leave_fragment range_start c fragment_start b in
  let* '(c, b) := loop (skip_step range_start fragment_start timestamp) fuel (c, b) in
  let* _ := rust_assert (negb debug_assertions || (fragment_start <=? range_start)) in
  let* '(fragment_start, b) := keep_prefix range_start c fragment_start b in
  let* b := insert_remote new_text timestamp c fragment_start b in
  loop (hide_step undo_map range_end timestamp) fuel (c, fragment_start, b).
Fixpoint remote_edits (fuel : nat) (undo_map : UndoMap) (timestamp : Lamport) (st : versioned_cursor * nat * Building)
    (edits : list (FullOffset * FullOffset * list N)) : outcome (versioned_cursor * nat * Building) :=
  match edits with
  | [] => Ret st
  | edit :: edits => let* st := remote_edit fuel undo_map timestamp st edit in remote_edits fuel undo_map timestamp st edits
  end.

(** What [apply_remote_edit] does to the snapshot, and the patch it publishes. *)
Definition remote_snapshot (self : BufferSnapshot) (ranges : list (FullOffset * FullOffset)) (new_text : list (list N))
    (timestamp : Lamport) : outcome (option Patch * BufferSnapshot) :=
  match ranges with
  | [] => Ret (None, self)
  | (first_start, _) :: _ =>
      let edits := zip ranges new_text in
      let* v := rope_cursor (s_visible_text self) 0 in
      let* d := rope_cursor (s_deleted_text self) 0 in
      let* '(init, c) := Cursor.slice (cursor_new (s_fragments self)) first_start Left in
      let* ropes := ropes_append (ropes_new v d) (fs_text (summary init)) in
      let b := MkBuilding (builder_new init) ropes [] [] 0 [] in
      let* fragment_start := start_full c in
      let* '(c, fragment_start, b) :=
        remote_edits (S (tree_size (s_fragments self))) (s_undo_map self) timestamp (c, fragment_start, b) edits in
      let* '(c, b) := consume_rest c fragment_start b in
      let* '(suffix, _) := Cursor.suffix c in
      let* snapshot := install_edit par_chunks sort_insertions sort_slices self suffix b in
      Ret (Some (b_patch b), snapshot)
  end.
End Versioned.

Definition apply_remote_edit (self : Buffer) (version : Global) (ranges : list (FullOffset * FullOffset))
    (new_text : list (list N)) (timestamp : Lamport) : outcome Buffer :=
  let* '(edits_patch, snapshot) := remote_snapshot version (b_snapshot self) ranges new_text timestamp in
  let self := with_snapshot self snapshot in
  match edits_patch with
  | Some edits_patch =>
      let* subscriptions := publish (b_subscriptions self) edits_patch in Ret (with_subscriptions self subscriptions)
  | None => Ret self
  end.

(** ** Those who wait *)
Definition with_waiters (b : Buffer) (resolvers : list (Lamport * list Sender)) (txs : list (Global * Sender)) (notified : list Sender) : Buffer :=
  MkBuffer (b_snapshot b) (b_history b) (b_deferred_ops b) (b_deferred_replicas b) (b_lamport_clock b) (b_subscriptions b)
    resolvers txs notified.

(** [entry(edit_id).or_default().push(tx)] *)
Fixpoint push_resolver (resolvers : list (Lamport * list Sender)) (edit_id : Lamport) (tx : Sender) : list (Lamport * list Sender) :=
  match resolvers with
  | [] => [(edit_id, [tx])]
  | (id, txs) :: resolvers =>
      if decide (id = edit_id) then (id, txs ++ [tx]) :: resolvers else (id, txs) :: push_resolver resolvers edit_id tx
  end.
Definition resolve_edit (self : Buffer) (edit_id : Lamport) : Buffer :=
  let is_id := λ r : Lamport * list Sender, bool_decide (r.1 = edit_id) in
  with_waiters self (List.filter (λ r, negb (is_id r)) (b_edit_id_resolvers self)) (b_wait_for_version_txs self)
    (b_notified self ++ concat (snd <$> List.filter is_id (b_edit_id_resolvers self))).
(** [self.wait_for_version_txs.retain_mut(..)] *)
Definition resolve_versions (self : Buffer) : Buffer :=
  let reached := λ w : Global * Sender, observed_all (b_version self) w.1 in
  with_waiters self (b_edit_id_resolvers self) (List.filter (λ w, negb (reached w)) (b_wait_for_version_txs self))
    (b_notified self ++ (snd <$> List.filter reached (b_wait_for_version_txs self))).
Definition give_up_waiting (self : Buffer) : Buffer := with_waiters self [] [] (b_notified self).

(** Every id comes with the channel made for it, should it be needed.  The
    result is the list of channels the future waits for. *)
Fixpoint wait_for_edits (self : Buffer) (edit_ids : list (Lamport * Sender)) : list Sender * Buffer :=
  match edit_ids with
  | [] => ([], self)
  | (edit_id, tx) :: edit_ids =>
      if negb (observed (b_version self) edit_id) then
        let self := with_waiters self (push_resolver (b_edit_id_resolvers self) edit_id tx) (b_wait_for_version_txs self) (b_notified self) in
        let '(futures, self) := wait_for_edits self edit_ids in (tx :: futures, self)
      else wait_for_edits self edit_ids
  end.
Definition wait_for_version (self : Buffer) (version : Global) (tx : Sender) : list Sender * Buffer :=
  if negb (observed_all (b_version self) version) then
    ([tx], with_waiters self (b_edit_id_resolvers self) (b_wait_for_version_txs self ++ [(version, tx)]) (b_notified self))
  else ([], self).

(** What has become of a future: a channel that was dropped before anything
    was sent makes it fail. *)
Inductive Awaited := Pending | Done | GaveUp.
Definition held (self : Buffer) (tx : Sender) : bool :=
  bool_decide (tx ∈ concat (snd <$> b_edit_id_resolvers self) ++ (snd <$> b_wait_for_version_txs self)).
Fixpoint poll (self : Buffer) (futures : list Sender) : Awaited :=
  match futures with
  | [] => Done
  | tx :: futures =>
      if bool_decide (tx ∈ b_notified self) then poll self futures
      else if held self tx then Pending else GaveUp
  end.

(** ** Applying operations *)
Context (sort_by_insertion : list InsertionSlice → list InsertionSlice) (sort_locators : list Locator → list Locator).
Context (sort_undos : list (Edit UndoMapEntry UndoMapKey) → list (Edit UndoMapEntry UndoMapKey)).
Context (sort_ops : list BufferOperation → list BufferOperation).
Context (sort_by_key : list (Edit (OperationItem BufferOperation) (outcome Lamport)) →
  list (Edit (OperationItem BufferOperation) (outcome Lamport))).

Definition op_version (op : BufferOperation) : Global :=
  match op with OpEdit edit => eo_version edit | OpUndo undo => undo_version undo end.
Definition can_apply_op (self : Buffer) (op : BufferOperation) : bool :=
  if bool_decide (op_replica_id op ∈ b_deferred_replicas self) then false else observed_all (b_version self) (op_version op).
Definition has_deferred_ops (self : Buffer) : outcome bool :=
  let* empty := queue_is_empty (b_deferred_ops self) in Ret (negb empty).

(** [self.lamport_clock.observe(timestamp)] *)
Definition observe_clock (self : Buffer) (timestamp : Lamport) : Buffer :=
  with_history self (b_history self) (Lamport_observe (b_lamport_clock self) timestamp).
Definition apply_op (self : Buffer) (op : BufferOperation) : outcome Buffer :=
  let* self :=
    match op with
    | OpEdit edit =>
        if negb (observed (b_version self) (eo_timestamp edit)) then
          let* self := apply_remote_edit self (eo_version edit) (eo_ranges edit) (eo_new_text edit) (eo_timestamp edit) in
          Ret (resolve_edit (observe_clock (observe_version self (eo_timestamp edit)) (eo_timestamp edit)) (eo_timestamp edit))
        else Ret self
    | OpUndo undo =>
        if negb (observed (b_version self) (undo_timestamp undo)) then
          let* self := apply_undo sort_by_insertion sort_locators sort_undos self undo in
          Ret (observe_clock (observe_version self (undo_timestamp undo)) (undo_timestamp undo))
        else Ret self
    end in
  Ret (resolve_versions self).

Definition with_deferred (b : Buffer) (ops : OperationQueue (Op := BufferOperation)) (replicas : list ReplicaId) : Buffer :=
  MkBuffer (b_snapshot b) (b_history b) ops replicas (b_lamport_clock b) (b_subscriptions b)
    (b_edit_id_resolvers b) (b_wait_for_version_txs b) (b_notified b).
(** [self.deferred_replicas.insert(op.replica_id())] *)
Definition defer_replica (self : Buffer) (op : BufferOperation) : Buffer :=
  with_deferred self (b_deferred_ops self) (op_replica_id op :: b_deferred_replicas self).
(** [if self.can_apply_op(&op) { self.apply_op(op) } else { .. }]; the result
    says whether the operation was deferred. *)
Definition apply_or_defer (self : Buffer) (op : BufferOperation) : outcome (bool * Buffer) :=
  if can_apply_op self op then let* self := apply_op self op in Ret (false, self)
  else Ret (true, defer_replica self op).
(** [self.deferred_ops.insert(deferred_ops)] *)
Definition insert_deferred (self : Buffer) (deferred_ops : list BufferOperation) : outcome Buffer :=
  let* queue := queue_insert sort_ops sort_by_key (b_deferred_ops self) deferred_ops in
  Ret (with_deferred self queue (b_deferred_replicas self)).

Fixpoint flush_ops (self : Buffer) (ops : list BufferOperation) : outcome (list BufferOperation * Buffer) :=
  match ops with
  | [] => Ret ([], self)
  | op :: ops =>
      let* '(deferred, self) := apply_or_defer self op in
      let* '(deferred_ops, self) := flush_ops self ops in
      Ret (if (deferred : bool) then op :: deferred_ops else deferred_ops, self)
  end.
Definition flush_deferred_ops (self : Buffer) : outcome Buffer :=
  let self := with_deferred self (b_deferred_ops self) [] in
  let '(drained, queue) := queue_drain (b_deferred_ops self) in
  let self := with_deferred self queue (b_deferred_replicas self) in
  let* ops := queue_iter drained in
  let* '(deferred_ops, self) := flush_ops self ops in
  insert_deferred self deferred_ops.

Fixpoint receive_ops (self : Buffer) (ops : list BufferOperation) : outcome (list BufferOperation * Buffer) :=
  match ops with
  | [] => Ret ([], self)
  | op :: ops =>
      let* self := push_operation self op in
      let* '(deferred, self) := apply_or_defer self op in
      let* '(deferred_ops, self) := receive_ops self ops in
      Ret (if (deferred : bool) then op :: deferred_ops else deferred_ops, self)
  end.
Definition apply_ops (self : Buffer) (ops : list BufferOperation) : outcome Buffer :=
  let* '(deferred_ops, self) := receive_ops self ops in
  let* self := insert_deferred self deferred_ops in
  flush_deferred_ops self.
End Remote.

Definition set_line_ending (self : Buffer) (line_ending : LineEnding) : Buffer :=
  let s := b_snapshot self in
  with_snapshot self (MkSnapshot (s_visible_text s) (s_deleted_text s) (s_fragments s) (s_insertions s) (s_insertion_slices s)
    (s_undo_map s) (s_version s) (s_remote_id s) (s_replica_id s) line_ending).
