(* ===== verification/Anchor.v ===== *)
(** * Anchors ([crates/text/src/anchor.rs], and their resolution in [text.rs])

    An anchor names a place by the insertion the text beside it came from and
    the offset in that insertion, and so keeps its place while the text around
    it changes.  Resolving it finds the fragment that now holds that part of
    the insertion.  The offset is an [N]: that of the last anchor is
    [u32::MAX]. *)
From stdpp Require Import base numbers option list.
From Stdlib Require Import Lia.
From S2P Require Import Prelude Clock SumTree Cursor Keyed Locator Point Utf8 TextSummary RopeTree Rope RopePoints RopeChunks Fragment Snapshot Buffer Remote Selection.
#[local] Opaque TREE_BASE av_cap.
#[local] Existing Instances key_target ord_seek_target Dimensions_dimension Dimensions_seek_target unit_dimension.

Record Anchor := MkAnchor {
  an_replica_id : ReplicaId; an_value : N; an_offset : N; an_bias : Bias; an_buffer_id : N }.

Definition anchor_new (timestamp : Lamport) (offset : N) (bias : Bias) (buffer_id : N) : Anchor :=
  MkAnchor (replica_id timestamp) (value timestamp) offset bias buffer_id.
Definition min_for_buffer (buffer_id : N) : Anchor :=
  MkAnchor (replica_id Lamport_MIN) (value Lamport_MIN) 0 Left buffer_id.
Definition max_for_buffer (buffer_id : N) : Anchor :=
  MkAnchor (replica_id Lamport_MAX) (value Lamport_MAX) U32_MAX Right buffer_id.
Definition min_min_range_for_buffer (buffer_id : N) : Anchor * Anchor := (min_for_buffer buffer_id, min_for_buffer buffer_id).
Definition max_max_range_for_buffer (buffer_id : N) : Anchor * Anchor := (max_for_buffer buffer_id, max_for_buffer buffer_id).
Definition min_max_range_for_buffer (buffer_id : N) : Anchor * Anchor := (min_for_buffer buffer_id, max_for_buffer buffer_id).

Definition anchor_timestamp (self : Anchor) : Lamport := MkLamport (an_value self) (an_replica_id self).
Definition is_left (bias : Bias) : bool := match bias with Left => true | Right => false end.
Definition anchor_is_min (self : Anchor) : bool :=
  bool_decide (anchor_timestamp self = Lamport_MIN) && (an_offset self =? 0)%N && is_left (an_bias self).
Definition anchor_is_max (self : Anchor) : bool :=
  bool_decide (anchor_timestamp self = Lamport_MAX) && (an_offset self =? U32_MAX)%N && negb (is_left (an_bias self)).

(** [to_le_bytes] *)
Fixpoint le_bytes (n : nat) (x : N) : list N :=
  match n with 0 => [] | S n => (x mod 256)%N :: le_bytes n (x / 256) end.
Definition opaque_id (self : Anchor) : list N :=
  le_bytes 8 (an_buffer_id self) ++ le_bytes 4 (an_offset self) ++ le_bytes 4 (an_value self)
    ++ le_bytes 2 (as_u16 (an_replica_id self)) ++ [if is_left (an_bias self) then 0%N else 1%N; 0%N].

Section Resolve.
Context (debug_assertions : bool).
Implicit Types self : BufferSnapshot.

(** ** Finding the fragment *)
Definition anchor_key (anchor : Anchor) : InsertionFragmentKey :=
  MkInsertionKey (anchor_timestamp anchor) (N.to_nat (an_offset anchor)).
Definition try_find_fragment self (anchor : Anchor) : outcome (option InsertionFragment) :=
  let* '(_, _, r) := find_with_prev (D := InsertionFragmentKey) (s_insertions self) (anchor_key anchor) (an_bias anchor) in
  match r with
  | Some (prev, insertion) =>
      let comparison := cmp (key insertion) (anchor_key anchor) in
      if match comparison with
         | Gt => true
         | Eq => is_left (an_bias anchor) && (0 <? an_offset anchor)%N
         | Lt => false
         end
      then Ret prev
      else Ret (Some insertion)
  | None => last_item (s_insertions self)
  end.

Definition offset_for_anchor self (anchor : Anchor) : outcome nat :=
  if anchor_is_min anchor then Ret 0
  else if anchor_is_max anchor then rope_len (s_visible_text self)
  else
    let* _ := rust_assert (negb debug_assertions || (an_buffer_id anchor =? s_remote_id self)%N) in
    let* _ := rust_assert (negb debug_assertions || observed (s_version self) (anchor_timestamp anchor)) in
    let* item := try_find_fragment self anchor in
    match item with
    | Some insertion =>
        if bool_decide (if_timestamp insertion = anchor_timestamp anchor) then
          let '(start, _, item) :=
            find (D := option Locator * nat * unit) (s_fragments self) (Some (if_fragment_id insertion)) Left in
          let* fragment := unwrap item in
          let fragment_offset := start.1.2 in
          if f_visible fragment then
            let* overshoot := usize_sub (N.to_nat (an_offset anchor)) (if_split_offset insertion) in
            usize_add fragment_offset overshoot
          else Ret fragment_offset
        else Panic
    | None => Panic
    end.

Definition try_fragment_id_for_anchor self (anchor : Anchor) : outcome (option Locator) :=
  if anchor_is_min anchor then Ret (Some locator_min)
  else if anchor_is_max anchor then Ret (Some locator_max)
  else
    let* item := try_find_fragment self anchor in
    match item with
    | Some insertion =>
        if negb debug_assertions || bool_decide (if_timestamp insertion = anchor_timestamp anchor)
        then Ret (Some (if_fragment_id insertion)) else Ret None
    | None => Ret None
    end.
Definition fragment_id_for_anchor self (anchor : Anchor) : outcome Locator :=
  let* id := try_fragment_id_for_anchor self anchor in
  match id with Some id => Ret id | None => Panic end.

Definition can_resolve self (anchor : Anchor) : bool :=
  anchor_is_min anchor || anchor_is_max anchor
    || ((s_remote_id self =? an_buffer_id anchor)%N && observed (s_version self) (anchor_timestamp anchor)).
Definition anchor_is_valid self (anchor : Anchor) : outcome bool :=
  if anchor_is_min anchor || anchor_is_max anchor then Ret true
  else if negb (an_buffer_id anchor =? s_remote_id self)%N then Ret false
  else
    let* id := try_fragment_id_for_anchor self anchor in
    match id with
    | Some fragment_id =>
        let '(_, _, item) := find (D := option Locator * nat * unit) (s_fragments self) (Some fragment_id) Left in
        Ret (match item with Some fragment => f_visible fragment | None => false end)
    | None => Ret false
    end.

(** ** Making anchors *)
Definition anchor_at_offset self (offset : nat) (bias : Bias) : outcome Anchor :=
  if is_left bias && (offset =? 0) then Ret (min_for_buffer (s_remote_id self))
  else
    let* at_end :=
      if is_left bias then Ret false
      else
        let* len := rope_len (s_visible_text self) in
        Ret ((negb debug_assertions && (len <=? offset)) || (offset =? len)) in
    if (at_end : bool) then Ret (max_for_buffer (s_remote_id self))
    else
      let* boundary := rope_assert_char_boundary debug_assertions debug_assertions (s_visible_text self) offset in
      let* offset :=
        if (boundary : bool) then Ret offset
        else if is_left bias then rope_floor_char_boundary (s_visible_text self) offset
        else rope_ceil_char_boundary (s_visible_text self) offset in
      let '(start, _, item) := find (D := nat) (s_fragments self) offset bias in
      match item with
      | Some fragment =>
          let* overshoot := usize_sub offset start in
          let* offset := U32_add (f_insertion_offset fragment) (as_u32 overshoot) in
          Ret (anchor_new (f_timestamp fragment) (N.of_nat offset) bias (s_remote_id self))
      | None => if debug_assertions then Panic else Ret (max_for_buffer (s_remote_id self))
      end.
(** At a position of type [usize]. *)
Definition anchor_at self (position : nat) (bias : Bias) : outcome Anchor :=
  let* offset := usize_to_offset debug_assertions self position in anchor_at_offset self offset bias.
Definition anchor_before self (position : nat) : outcome Anchor := anchor_at self position Left.
Definition anchor_after self (position : nat) : outcome Anchor := anchor_at self position Right.
Definition anchor_range_inside self (position : nat * nat) : outcome (Anchor * Anchor) :=
  let* a := anchor_after self position.1 in let* b := anchor_before self position.2 in Ret (a, b).
Definition anchor_range_outside self (position : nat * nat) : outcome (Anchor * Anchor) :=
  let* a := anchor_before self position.1 in let* b := anchor_after self position.2 in Ret (a, b).

Definition bias_left (anchor : Anchor) self : outcome Anchor :=
  match an_bias anchor with
  | Left => Ret anchor
  | Right => let* offset := offset_for_anchor self anchor in anchor_at_offset self offset Left
  end.
Definition bias_right (anchor : Anchor) self : outcome Anchor :=
  match an_bias anchor with
  | Left => let* offset := offset_for_anchor self anchor in anchor_at_offset self offset Right
  | Right => Ret anchor
  end.
Definition anchor_bias (anchor : Anchor) (bias : Bias) self : outcome Anchor :=
  match bias with Left => bias_left anchor self | Right => bias_right anchor self end.

(** ** Comparing anchors *)
(** [derive(Ord)]: [Left] comes first. *)
Definition bias_cmp (a b : Bias) : comparison :=
  match a, b with Left, Right => Lt | Right, Left => Gt | _, _ => Eq end.
Definition anchor_cmp (a b : Anchor) (buffer : BufferSnapshot) : outcome comparison :=
  let* fragment_id_comparison :=
    if bool_decide (anchor_timestamp a = anchor_timestamp b) then Ret Eq
    else
      let* x := fragment_id_for_anchor buffer a in
      let* y := fragment_id_for_anchor buffer b in
      Ret (cmp x y) in
  Ret (then_with fragment_id_comparison (then_with (cmp (an_offset a) (an_offset b)) (bias_cmp (an_bias a) (an_bias b)))).
Definition anchor_min (a b : Anchor) (buffer : BufferSnapshot) : outcome Anchor :=
  let* c := anchor_cmp a b buffer in Ret (if is_le c then a else b).
Definition anchor_max (a b : Anchor) (buffer : BufferSnapshot) : outcome Anchor :=
  let* c := anchor_cmp a b buffer in Ret (if is_ge c then a else b).

Definition range_cmp (a b : Anchor * Anchor) (buffer : BufferSnapshot) : outcome comparison :=
  let* c := anchor_cmp a.1 b.1 buffer in
  match c with Eq => anchor_cmp b.2 a.2 buffer | _ => Ret c end.
Definition is_lt (c : comparison) : bool := match c with Lt => true | _ => false end.
Definition range_overlaps (a b : Anchor * Anchor) (buffer : BufferSnapshot) : outcome bool :=
  let* c := anchor_cmp a.1 b.2 buffer in
  if is_lt c then let* d := anchor_cmp b.1 a.2 buffer in Ret (is_lt d) else Ret false.
Definition contains_anchor (a : Anchor * Anchor) (b : Anchor) (buffer : BufferSnapshot) : outcome bool :=
  let* c := anchor_cmp a.1 b buffer in
  if is_le c then let* d := anchor_cmp a.2 b buffer in Ret (is_ge d) else Ret false.

(** ** Summaries up to anchors *)
Definition summary_for_anchor {D} `{TextDimension D} self (anchor : Anchor) : outcome D :=
  let* offset := offset_for_anchor self anchor in
  let* c := rope_cursor (s_visible_text self) 0 in
  let* '(d, _) := rc_summary c offset in
  Ret d.

(** [Selection::resolve] *)
Definition sel_resolve {F64 F32 D} `{TextDimension D} (selection : @Selection F64 F32 Anchor) self : outcome (@Selection F64 F32 D) :=
  let* start := summary_for_anchor self (@sel_start F64 F32 Anchor selection) in
  let* end_ := summary_for_anchor self (@sel_end F64 F32 Anchor selection) in
  Ret (@MkSelection F64 F32 D (@sel_id F64 F32 Anchor selection) start end_ (@Selection.reversed F64 F32 Anchor selection)
         (@goal F64 F32 Anchor selection)).

(** One element of the iterator of [summaries_for_anchors_with_payload]. *)
Abbreviation id_cursor := (Cursor Fragment FragmentSummary (option Locator * nat * unit)).
Definition next_summary {D} `{TextDimension D} self (st : id_cursor * RopeCursor * D) (anchor : Anchor) :
  outcome (D * (id_cursor * RopeCursor * D)) :=
  let '(fragment_cursor, text_cursor, position) := st in
  if anchor_is_min anchor then Ret (td_zero, st)
  else if anchor_is_max anchor then let* s := rope_summary (s_visible_text self) in Ret (from_text_summary s, st)
  else
    let* insertion := try_find_fragment self anchor in
    let* insertion := unwrap insertion in
    let* _ := rust_assert (bool_decide (if_timestamp insertion = anchor_timestamp anchor)) in
    let* '(_, fragment_cursor) := seek_forward fragment_cursor (Some (if_fragment_id insertion)) Left in
    let* i := item fragment_cursor in
    let* fragment := unwrap i in
    let fragment_offset := (start fragment_cursor).1.2 in
    let* fragment_offset :=
      if f_visible fragment then
        let* overshoot := usize_sub (N.to_nat (an_offset anchor)) (if_split_offset insertion) in
        usize_add fragment_offset overshoot
      else Ret fragment_offset in
    let* '(d, text_cursor) := rc_summary text_cursor fragment_offset in
    let* position := td_add_assign position d in
    Ret (position, (fragment_cursor, text_cursor, position)).
Fixpoint next_summaries {D} `{TextDimension D} {T} self (st : id_cursor * RopeCursor * D) (anchors : list (Anchor * T)) :
  outcome (list (D * T)) :=
  match anchors with
  | [] => Ret []
  | (anchor, payload) :: anchors =>
      let* '(d, st) := next_summary self st anchor in
      let* r := next_summaries self st anchors in
      Ret ((d, payload) :: r)
  end.
Definition summaries_for_anchors_with_payload {D} `{TextDimension D} {T} self (anchors : list (Anchor * T)) : outcome (list (D * T)) :=
  let* text_cursor := rope_cursor (s_visible_text self) 0 in
  next_summaries self (cursor_new (s_fragments self), text_cursor, td_zero) anchors.
Definition summaries_for_anchors {D} `{TextDimension D} self (anchors : list Anchor) : outcome (list D) :=
  let* r := summaries_for_anchors_with_payload self ((λ a, (a, tt)) <$> anchors) in Ret (fst <$> r).
End Resolve.

(** ** Waiting for anchors *)
(** As in [wait_for_edits], every anchor comes with the channel made for it. *)
Fixpoint wait_for_anchors (self : Buffer) (anchors : list (Anchor * Sender)) : list Sender * Buffer :=
  match anchors with
  | [] => ([], self)
  | (anchor, tx) :: anchors =>
      if negb (observed (b_version self) (anchor_timestamp anchor)) && negb (anchor_is_max anchor) && negb (anchor_is_min anchor) then
        let self := with_waiters self (push_resolver (b_edit_id_resolvers self) (anchor_timestamp anchor) tx)
          (b_wait_for_version_txs self) (b_notified self) in
        let '(futures, self) := wait_for_anchors self anchors in (tx :: futures, self)
      else wait_for_anchors self anchors
  end.
(** It waits for the edits the anchors are in, but for the first and the last anchor. *)
Lemma wait_for_anchors_edits self anchors :
  wait_for_anchors self anchors = wait_for_edits self
    ((λ a, (anchor_timestamp a.1, a.2)) <$> List.filter (λ a, negb (anchor_is_max a.1) && negb (anchor_is_min a.1)) anchors).
Proof.
  revert self. induction anchors as [|[a tx] l IH]; intros self; [done|]. cbn [wait_for_anchors List.filter fst snd].
  destruct (anchor_is_max a), (anchor_is_min a); cbn [negb andb]; rewrite ?andb_false_r, ?andb_true_r; try apply IH.
  cbn [fmap list_fmap wait_for_edits fst snd]. destruct (negb _); [|apply IH]. by rewrite IH.
Qed.
