(* ===== verification/Document.v ===== *)
(** * Sequences of fragments as documents

    The locators of a buffer's fragments increase strictly and stay between the
    least and the greatest locator; [rest] is what is left of the old fragments
    when an edit has consumed a part of the first. *)
From stdpp Require Import base numbers option list sorting.
From Stdlib Require Import Lia.
From S2P Require Import Prelude Clock SumTree SumTreeFacts SumTreeBulk Cursor CursorFacts CursorSeek CursorMove.
From S2P Require Import CursorIter Locator Utf8 Chunk ChunkFacts ChunkPointsFacts RopeTree Rope RopeBuild RopeSlice Fragment.
From S2P Require Import Snapshot.
(** * The text of fragments

    [W t] is the whole text of the insertion with time stamp [t]; a fragment
    shows a part of it.  The text of a buffer is the text of its visible
    fragments; the deleted text that of the others.  A fragment occupies the
    cells of its insertion: in a buffer every cell is occupied once, and an
    edit cuts fragments without losing or repeating a cell. *)
#[local] Opaque TREE_BASE av_cap.

Lemma as_u32_small n : (N.of_nat n <= U32_MAX)%N → as_u32 n = n.
Proof. intros Hn. unfold as_u32, U32_MAX in *. rewrite wrap_small by lia. lia. Qed.
Lemma U32_add_ok a b : (N.of_nat (a + b) <= U32_MAX)%N → U32_add a b = Ret (a + b).
Proof. intros H. unfold U32_add. by apply N.leb_le in H as ->. Qed.

(** ** Parts of fragments *)
Definition part (f : Fragment) (skip len : nat) : Fragment :=
  MkFragment (f_id f) (f_timestamp f) (f_insertion_offset f + skip) len (f_visible f) (f_deletions f) (f_max_undos f).

Lemma part_whole f : part f 0 (f_len f) = f.
Proof. destruct f. unfold part. cbn. by rewrite Nat.add_0_r. Qed.
Lemma part_part f a m b n : part (part f a m) b n = part f (a + b) n.
Proof. unfold part. cbn. by rewrite Nat.add_assoc. Qed.

(** The cells of insertions that a fragment occupies. *)
Definition fragment_cells (f : Fragment) : list (Lamport * nat) :=
  (λ i, (f_timestamp f, i)) <$> seq (f_insertion_offset f) (f_len f).
Definition cells (l : list Fragment) : list (Lamport * nat) := concat (fragment_cells <$> l).

Lemma cells_app l k : cells (l ++ k) = cells l ++ cells k.
Proof. unfold cells. by rewrite fmap_app, concat_app. Qed.
Lemma cells_cons f l : cells (f :: l) = fragment_cells f ++ cells l.
Proof. done. Qed.
Lemma cells_snoc l f : cells (l ++ [f]) = cells l ++ fragment_cells f.
Proof. rewrite cells_app. unfold cells at 2. cbn [fmap list_fmap concat]. by rewrite app_nil_r. Qed.
Lemma elem_of_cells t i l :
  (t, i) ∈ cells l ↔ ∃ f, f ∈ l ∧ f_timestamp f = t ∧ f_insertion_offset f ≤ i < f_insertion_offset f + f_len f.
Proof.
  induction l as [|f l IH].
  - split; [by intros ?%not_elem_of_nil|by intros (? & ?%not_elem_of_nil & _)].
  - rewrite cells_cons, elem_of_app, IH. unfold fragment_cells. rewrite list_elem_of_fmap. split.
    + intros [(j & [= -> ->] & Hj%elem_of_seq)|(g & Hg & H)]; [exists f|exists g]; split_and!; (by constructor) || (done || lia) || tauto.
    + intros (g & Hg & E & Hi). apply elem_of_cons in Hg as [->|Hg]; [left|right; by exists g].
      exists i. split; [by rewrite E|]. apply elem_of_seq. lia.
Qed.

Lemma cells_split f a n m :
  fragment_cells (part f a n) ++ fragment_cells (part f (a + n) m) = fragment_cells (part f a (n + m)).
Proof. unfold fragment_cells. cbn. rewrite <-fmap_app, Nat.add_assoc, <-seq_app. done. Qed.

(** The cells of the visible fragments. *)
Definition vcells (l : list Fragment) : list (Lamport * nat) := concat ((λ f, if f_visible f then fragment_cells f else []) <$> l).
Lemma vcells_app l k : vcells (l ++ k) = vcells l ++ vcells k.
Proof. unfold vcells. by rewrite fmap_app, concat_app. Qed.
Lemma vcells_cons f l : vcells (f :: l) = (if f_visible f then fragment_cells f else []) ++ vcells l.
Proof. done. Qed.
Lemma vcells_snoc l f : vcells (l ++ [f]) = vcells l ++ if f_visible f then fragment_cells f else [].
Proof. rewrite vcells_app. unfold vcells at 2. cbn [fmap list_fmap concat]. by rewrite app_nil_r. Qed.
Lemma fragment_cells_length f : length (fragment_cells f) = f_len f.
Proof. unfold fragment_cells. by rewrite length_fmap, length_seq. Qed.
Lemma vcells_length l : length (vcells l) = visible_len l.
Proof.
  induction l as [|f l IH]; [done|]. rewrite vcells_cons, length_app, IH. unfold visible_len. csimpl.
  destruct (f_visible f); [by rewrite fragment_cells_length|done].
Qed.
Lemma vcells_sublist l : sublist (vcells l) (cells l).
Proof.
  induction l as [|f l IH]; [constructor|]. rewrite vcells_cons, cells_cons.
  destruct (f_visible f); [by apply sublist_app|by apply sublist_inserts_l].
Qed.

Section Text.
Context (W : Lamport → list N).

Definition text_of (f : Fragment) : list N := take (f_len f) (drop (f_insertion_offset f) (W (f_timestamp f))).
Definition vis_text (l : list Fragment) : list N := concat ((λ f, if f_visible f then text_of f else []) <$> l).
Definition del_text (l : list Fragment) : list N := concat ((λ f, if f_visible f then [] else text_of f) <$> l).

(** What is asked of every fragment. *)
Definition frag_ok (f : Fragment) : Prop :=
  0 < f_len f ∧ f_insertion_offset f + f_len f ≤ length (W (f_timestamp f)) ∧ small (W (f_timestamp f)) ∧
  utf8 (text_of f) ∧ trimmed (f_max_undos f).

Lemma vis_text_app l k : vis_text (l ++ k) = vis_text l ++ vis_text k.
Proof. unfold vis_text. by rewrite fmap_app, concat_app. Qed.
Lemma del_text_app l k : del_text (l ++ k) = del_text l ++ del_text k.
Proof. unfold del_text. by rewrite fmap_app, concat_app. Qed.
Lemma vis_text_cons f l : vis_text (f :: l) = (if f_visible f then text_of f else []) ++ vis_text l.
Proof. done. Qed.
Lemma del_text_cons f l : del_text (f :: l) = (if f_visible f then [] else text_of f) ++ del_text l.
Proof. done. Qed.

Lemma vis_text_snoc l f : vis_text (l ++ [f]) = vis_text l ++ (if f_visible f then text_of f else []).
Proof. rewrite vis_text_app. unfold vis_text at 2. cbn [fmap list_fmap concat]. by rewrite app_nil_r. Qed.
Lemma del_text_snoc l f : del_text (l ++ [f]) = del_text l ++ (if f_visible f then [] else text_of f).
Proof. rewrite del_text_app. unfold del_text at 2. cbn [fmap list_fmap concat]. by rewrite app_nil_r. Qed.
Lemma text_of_length f : frag_ok f → length (text_of f) = f_len f.
Proof. intros (_ & H & _). unfold text_of. rewrite length_take, length_drop. lia. Qed.
Lemma vis_text_length l : Forall frag_ok l → length (vis_text l) = visible_len l.
Proof.
  induction 1 as [|f l Hf Hl IH]; [done|]. rewrite vis_text_cons, length_app, IH. unfold visible_len. csimpl.
  destruct (f_visible f); [|done]. by rewrite text_of_length.
Qed.
Lemma del_text_length l : Forall frag_ok l → length (del_text l) = deleted_len l.
Proof.
  induction 1 as [|f l Hf Hl IH]; [done|]. rewrite del_text_cons, length_app, IH. unfold deleted_len. csimpl.
  destruct (f_visible f); [done|]. by rewrite text_of_length.
Qed.
Lemma vis_text_utf8 l : Forall frag_ok l → utf8 (vis_text l).
Proof.
  induction 1 as [|f l (_ & _ & _ & Hf & _) Hl IH]; [constructor|]. rewrite vis_text_cons. apply utf8_app; [|done].
  destruct (f_visible f); [done|constructor].
Qed.
Lemma del_text_utf8 l : Forall frag_ok l → utf8 (del_text l).
Proof.
  induction 1 as [|f l (_ & _ & _ & Hf & _) Hl IH]; [constructor|]. rewrite del_text_cons. apply utf8_app; [|done].
  destruct (f_visible f); [constructor|done].
Qed.
(** Texts as cells. *)
Definition byte_at (c : Lamport * nat) : list N := take 1 (drop c.2 (W c.1)).
Lemma take_bytes (l : list N) a n : concat ((λ i, take 1 (drop i l)) <$> seq a n) = take n (drop a l).
Proof.
  revert a. induction n as [|n IH]; intros a; [done|]. cbn [seq fmap list_fmap concat]. change (list_fmap ?A ?B ?f ?x) with (f <$> x). rewrite IH.
  rewrite <-(Nat.add_1_r a), <-drop_drop. destruct (drop a l) as [|y r]; cbn; [by rewrite take_nil|by rewrite drop_0].
Qed.
Lemma fragment_bytes f : text_of f = concat (byte_at <$> fragment_cells f).
Proof. unfold text_of, fragment_cells. rewrite <-take_bytes, <-list_fmap_compose. done. Qed.
Lemma vis_text_bytes l : vis_text l = concat (byte_at <$> vcells l).
Proof.
  induction l as [|f l IH]; [done|]. rewrite vis_text_cons, vcells_cons, fmap_app, concat_app, IH.
  destruct (f_visible f); [by rewrite fragment_bytes|done].
Qed.
Lemma vcells_bytes l : Forall frag_ok l → Forall (λ c, length (byte_at c) = 1) (vcells l).
Proof.
  induction 1 as [|f l (_ & Hf & _) _ IH]; [constructor|]. rewrite vcells_cons. apply Forall_app. split; [|done].
  destruct (f_visible f); [|constructor]. apply Forall_fmap, Forall_forall. intros i Hi%elem_of_seq.
  unfold byte_at. cbn. rewrite length_take, length_drop. lia.
Qed.
Lemma frag_ok_valid l : Forall frag_ok l → valid l.
Proof. intros Hl. eapply Forall_impl; [exact Hl|]. by intros f (_ & _ & _ & _ & H). Qed.

(** A part between boundaries of the text of a fragment. *)
Lemma text_of_part f a n : a + n ≤ f_len f → text_of (part f a n) = take n (drop a (text_of f)).
Proof.
  intros Hn. unfold text_of. cbn. rewrite skipn_firstn_comm, drop_drop, take_take. f_equal. lia.
Qed.
Lemma frag_ok_part f a n :
  frag_ok f → 0 < n → a + n ≤ f_len f → str_is_char_boundary (text_of f) a = true →
  str_is_char_boundary (text_of f) (a + n) = true → frag_ok (part f a n).
Proof.
  intros Hf Hn Hle Ha Hb. pose proof Hf as (H1 & H2 & H3 & H4 & H5). split_and!; [done|cbn; lia|done| |done].
  rewrite text_of_part by done. destruct (utf8_split _ _ H4 Hb) as (Ht & _ & _).
  assert (E : take n (drop a (text_of f)) = drop a (take (a + n) (text_of f))).
  { rewrite skipn_firstn_comm. f_equal. lia. }
  rewrite E. apply (utf8_split _ a Ht). pose proof (text_of_length f Hf).
  unfold str_is_char_boundary in *. destruct (a =? 0); [done|]. rewrite lookup_take_lt by lia.
  destruct (lookup_lt_is_Some_2 (text_of f) a) as [x Ex]; [lia|]. by rewrite Ex in *.
Qed.
Lemma part_of_ok f a n : frag_ok f → a + n ≤ f_len f → part_of f a n = Ret (part f a n).
Proof.
  intros (_ & Hl & Hs & _) Hn. unfold part_of, small in *. rewrite !as_u32_small by lia. rewrite U32_add_ok by lia. done.
Qed.
End Text.

(** ** Strictly increasing lists *)
Section Strict.
Context {A : Type} (R : A → A → Prop) `{!Transitive R}.

Lemma sorted_insert_between a u m v b :
  StronglySorted R (a ++ u :: v :: b) → R u m → R m v → StronglySorted R (a ++ u :: m :: v :: b).
Proof using Type*.
  intros Hs Hu Hv. induction a as [|x a IH]; cbn in *.
  - apply StronglySorted_inv in Hs as [Hs Hu']. apply StronglySorted_inv in Hs as [Hs Hv'].
    constructor; [constructor; [by constructor|]|by constructor]. constructor; [done|].
    eapply Forall_impl; [exact Hv'|]. intros y Hy. cbn in Hy. by trans v.
  - apply StronglySorted_inv in Hs as [Hs Hx]. constructor; [by apply IH|].
    rewrite Forall_app, !Forall_cons in *. destruct Hx as (Ha & Hxu & Hxv & Hb). split_and!; try done. by trans u.
Qed.
Lemma sorted_sublist (l k : list A) : sublist l k → StronglySorted R k → StronglySorted R l.
Proof using Type*.
  induction 1 as [|x l k Hs IH|x l k Hs IH]; intros Hk; [constructor| |].
  - apply StronglySorted_inv in Hk as [Hk Hx]. constructor; [by apply IH|].
    rewrite Forall_forall in *. intros y Hy. apply Hx. by eapply elem_of_sublist.
  - apply StronglySorted_inv in Hk as [Hk _]. by apply IH.
Qed.
End Strict.

(** ** Locators *)
Definition ids_ok (l : list Fragment) : Prop :=
  StronglySorted olt (locator_min :: (f_id <$> l) ++ [locator_max]) ∧ Forall locator_ok (f_id <$> l).

#[local] Instance olt_locator_trans : Transitive (olt (A := Locator)).
Proof. intros a b c. apply olt_trans. Qed.

Lemma locator_min_ok : locator_ok locator_min.
Proof. split; [repeat constructor|]. split; [done|by right]. Qed.
Lemma locator_max_ok : locator_ok locator_max.
Proof. split; [repeat constructor|]. split; [done|by left]. Qed.

Lemma ids_ok_sublist l k : sublist l k → ids_ok k → ids_ok l.
Proof.
  intros Hs [H1 H2]. split.
  - eapply sorted_sublist; [exact olt_locator_trans| |exact H1]. constructor.
    apply sublist_app; [|done]. by apply fmap_sublist.
  - rewrite Forall_forall in *. intros y Hy. apply H2. eapply elem_of_sublist; [exact Hy|]. by apply fmap_sublist.
Qed.

(** A locator for a fragment between two runs. *)
Definition max_id (l : list Fragment) : Locator := from_option f_id locator_min (last l).
Definition next_id (l : list Fragment) : Locator := from_option f_id locator_max (head l).

Lemma between_ids a l :
  ids_ok (a ++ l) →
  returns (between (max_id a) (next_id l)) (λ m, ∀ f, f_id f = m → ids_ok (a ++ f :: l)).
Proof.
  intros [Hs Hok]. rewrite fmap_app in Hs, Hok. apply Forall_app in Hok as [Ha Hl].
  assert (∃ x u, locator_min :: (f_id <$> a) = x ++ [u] ∧ u = max_id a ∧ locator_ok u) as (x & u & Ex & -> & Hu).
  { destruct (nil_or_snoc a) as [->|(a' & y & ->)]; [exists [], locator_min; split_and!; [done|done|apply locator_min_ok]|].
    exists (locator_min :: (f_id <$> a')), (f_id y). unfold max_id. rewrite last_snoc, fmap_app in *.
    apply Forall_app in Ha as [_ [Ha _]%Forall_cons]. done. }
  assert (∃ y v, (f_id <$> l) ++ [locator_max] = v :: y ∧ v = next_id l ∧ locator_ok v) as (y & v & Ey & -> & Hv).
  { destruct l as [|z l]; [exists [], locator_max; split_and!; [done|done|apply locator_max_ok]|].
    apply Forall_cons in Hl as [Hz _]. by exists ((f_id <$> l) ++ [locator_max]), (f_id z). }
  assert (Hs' : StronglySorted olt (x ++ max_id a :: next_id l :: y)).
  { rewrite <-app_assoc, Ey, app_comm_cons, Ex, <-app_assoc in Hs. done. }
  assert (Huv : olt (max_id a) (next_id l)).
  { clear -Hs'. induction x as [|z x IH]; cbn in Hs'; apply StronglySorted_inv in Hs' as [Hs' Hz]; [|by apply IH].
    by apply Forall_cons in Hz as [Hz _]. }
  destruct (between_spec _ _ Hu Hv Huv) as (m & -> & Hm & H1 & H2 & _). apply returns_Ret. intros f Ef. split.
  - rewrite fmap_app. cbn [fmap list_fmap]. rewrite Ef, <-app_assoc. cbn [app]. rewrite Ey, app_comm_cons, Ex, <-app_assoc.
    cbn [app]. eapply sorted_insert_between; (exact olt_locator_trans || done).
  - rewrite fmap_app. cbn [fmap list_fmap]. rewrite Ef. apply Forall_app. by rewrite Forall_cons.
Qed.

(** ** What is left of a run *)
Definition rest (l : list Fragment) (k : nat) : list Fragment :=
  match l with
  | [] => []
  | f :: l' => if k =? 0 then l else if k <? f_len f then part f k (f_len f - k) :: l' else l'
  end.

Lemma rest_0 l : rest l 0 = l.
Proof. by destruct l. Qed.
Lemma rest_end f l : 0 < f_len f → rest (f :: l) (f_len f) = l.
Proof. intros Hf. unfold rest. destruct (Nat.eqb_spec (f_len f) 0); [lia|]. by rewrite Nat.ltb_irrefl. Qed.
Lemma rest_lt f l k : k < f_len f → rest (f :: l) k = part f k (f_len f - k) :: l.
Proof.
  intros Hk. unfold rest. destruct (Nat.eqb_spec k 0) as [->|]; [by rewrite Nat.sub_0_r, part_whole|].
  by destruct (Nat.ltb_spec k (f_len f)); [|lia].
Qed.

Lemma rest_cells f l k n : 0 < n → k + n ≤ f_len f →
  cells (rest (f :: l) k) = fragment_cells (part f k n) ++ cells (rest (f :: l) (k + n)).
Proof.
  intros Hn Hle. rewrite rest_lt, cells_cons by lia. destruct (Nat.eq_dec (k + n) (f_len f)) as [E|Hne].
  - rewrite E, rest_end by lia. do 3 f_equal. lia.
  - rewrite rest_lt, cells_cons, app_assoc, cells_split by lia. do 3 f_equal. lia.
Qed.

(** ** The order of cells *)
(** The cells of one insertion are in the order of that insertion, and every
    cell is there once. *)
Definition cell_lt (c d : Lamport * nat) : Prop := c.1 = d.1 → c.2 < d.2.
Definition in_order : list (Lamport * nat) → Prop := StronglySorted cell_lt.

Lemma in_order_app l k : in_order (l ++ k) ↔ in_order l ∧ in_order k ∧ Forall (λ c, Forall (cell_lt c) k) l.
Proof.
  unfold in_order. induction l as [|c l IH]; cbn.
  - split; [by intros H; split_and!; [constructor|..|constructor]|by intros (_ & ? & _)].
  - split.
    + intros [H1 H2]%StronglySorted_inv. apply IH in H1 as (H3 & H4 & H5). apply Forall_app in H2 as [H2 H6]. split_and!; [by constructor|done|by constructor].
    + intros ([H1 H2]%StronglySorted_inv & H3 & [H4 H5]%Forall_cons). constructor; [apply IH; by split_and!|]. by apply Forall_app.
Qed.
Lemma in_order_NoDup l : in_order l → NoDup l.
Proof.
  induction 1 as [|c l _ IH Hc]; constructor; [|done]. intros Hin. rewrite Forall_forall in Hc. specialize (Hc c Hin eq_refl). lia.
Qed.
Lemma in_order_seq t a n : in_order (pair t <$> seq a n).
Proof.
  revert a. induction n as [|n IH]; intros a; cbn; constructor; [apply IH|]. apply Forall_fmap, Forall_forall. intros i Hi%elem_of_seq _. cbn. lia.
Qed.
Lemma in_order_lookup l m n c d : in_order l → l !! m = Some c → l !! n = Some d → m < n → c.1 = d.1 → c.2 < d.2.
Proof.
  intros Hl. revert m n. induction Hl as [|x l _ IH Hx]; intros m n; [done|]. destruct m as [|m], n as [|n]; try lia; cbn.
  - intros [= <-] Hd _. apply list_elem_of_lookup_2 in Hd. rewrite Forall_forall in Hx. by apply Hx.
  - intros Hc Hd Hlt. apply (IH m n); [done|done|lia].
Qed.
(** New cells of an insertion, after the others of that insertion. *)
Lemma in_order_insert ts off n l k : in_order (l ++ k) → (∀ i, (ts, i) ∈ l → i < off) → (∀ i, (ts, i) ∉ k) →
  in_order (l ++ (pair ts <$> seq off n) ++ k).
Proof.
  intros (Hl & Hk & Hlk)%in_order_app Hlt Hnot. apply in_order_app. split; [done|]. split.
  - apply in_order_app. split; [apply in_order_seq|]. split; [done|]. apply Forall_fmap, Forall_forall. intros i _. apply Forall_forall.
    intros [t j] Hj Et. cbn in Et. subst t. by apply Hnot in Hj.
  - rewrite Forall_forall in *. intros [t i] Hc. apply Forall_app. split; [|by apply Hlk]. apply Forall_fmap, Forall_forall.
    intros j Hj%elem_of_seq Et. cbn in *. subst t. apply Hlt in Hc. lia.
Qed.

(** ** Documents *)
Section Documents.
Context (W : Lamport → list N).

Record doc_ok (l : list Fragment) : Prop := {
  doc_frags : Forall (frag_ok W) l;
  doc_ids : ids_ok l;
  doc_cells : in_order (cells l);
}.
Lemma doc_nodup l : doc_ok l → NoDup (cells l).
Proof. intros []. by apply in_order_NoDup. Qed.

Lemma fragment_key_cell f : frag_ok W f → (f_timestamp f, f_insertion_offset f) ∈ fragment_cells f.
Proof.
  intros (Hf & _). unfold fragment_cells. apply list_elem_of_fmap. exists (f_insertion_offset f).
  split; [done|]. apply elem_of_seq. lia.
Qed.
Definition fragment_key (f : Fragment) : Lamport * nat := (f_timestamp f, f_insertion_offset f).
Lemma keys_sublist l : Forall (frag_ok W) l → sublist (fragment_key <$> l) (cells l).
Proof.
  induction 1 as [|f l (Hf & _) Hl IH]; [constructor|]. rewrite cells_cons. unfold fragment_cells.
  destruct (f_len f) as [|n]; [lia|]. cbn. constructor. by apply sublist_inserts_l.
Qed.
Lemma doc_keys l : doc_ok l → NoDup (fragment_key <$> l).
Proof. intros Hd. pose proof Hd as [Hf _ _]. eapply sublist_NoDup; [by apply doc_nodup|]. by apply keys_sublist. Qed.
End Documents.

(** * What the builders of an edit hold

    A [FragmentBuilder] stands for the list of fragments pushed so far and a
    [RopeBuilder] for the texts built so far and the places reached in the old
    texts. *)
(** ** Fragments *)
Definition chunk_items (c : FragmentChunk) : list Fragment :=
  match c with Tree t => tree_items t | Loose l => l end.
Definition chunk_wf (c : FragmentChunk) : Prop := match c with Tree t => wf t | Loose _ => True end.
Definition builder_ok (b : FragmentBuilder) (l : list Fragment) : Prop :=
  concat (chunk_items <$> fb_chunks b) = l ∧ Forall chunk_wf (fb_chunks b) ∧ fb_summary b = total l.

Lemma wf_summary (t : fragment_tree) : wf t → summary t = total (tree_items t).
Proof. intros [->|[h Ht]]; [done|by eapply wf_node_summary]. Qed.

Lemma builder_new_ok t : wf t → builder_ok (builder_new t) (tree_items t).
Proof.
  intros Ht. unfold builder_new, builder_ok. cbn. rewrite wf_summary by done. split; [|split; [|done]].
  - destruct (is_empty t) eqn:E; cbn; [by rewrite is_empty_items|by rewrite app_nil_r].
  - destruct (is_empty t); [constructor|]. constructor; [done|constructor].
Qed.
Lemma builder_append_ok b l t :
  builder_ok b l → wf t → valid (l ++ tree_items t) → builder_ok (builder_append b t) (l ++ tree_items t).
Proof.
  intros (H1 & H2 & H3) Ht Hv. unfold builder_append. destruct (is_empty t) eqn:E.
  - rewrite (is_empty_items t E), app_nil_r. done.
  - apply is_empty_nonempty in E; [|done]. split_and!; cbn.
    + rewrite fmap_app, concat_app, H1. cbn. by rewrite app_nil_r.
    + apply Forall_app. split; [done|]. constructor; [done|constructor].
    + rewrite H3, wf_summary, fragments_total_app by done. done.
Qed.
Lemma builder_push_ok b l f : builder_ok b l → builder_ok (builder_push b f) (l ++ [f]).
Proof.
  intros (H1 & H2 & H3). unfold builder_push, builder_ok. cbn [fb_chunks fb_summary].
  assert (Hnew : concat (chunk_items <$> fb_chunks b ++ [Loose [f]]) = l ++ [f] ∧ Forall chunk_wf (fb_chunks b ++ [Loose [f]])).
  { rewrite fmap_app, concat_app, H1. split; [done|]. apply Forall_app. split; [done|]. constructor; [done|constructor]. }
  rewrite H3, total_snoc. destruct (nil_or_snoc (fb_chunks b)) as [E|(k & c & E)]; rewrite E in *; [tauto|].
  rewrite last_snoc. destruct c as [t|g]; [tauto|]. rewrite removelast_last.
  rewrite fmap_app, concat_app in H1 |- *. cbn in H1 |- *. rewrite app_nil_r in H1 |- *.
  split; [by rewrite app_assoc, H1|]. split; [|done]. apply Forall_app in H2 as [H2 _]. apply Forall_app. split; [done|]. constructor; [done|constructor].
Qed.

Section Sum.
Context (par_chunks : ∀ A : Type, nat → list A → list (list A)).
Hypothesis Hpar : chunks_spec par_chunks.

Lemma to_sum_tree_ok b l :
  builder_ok b l → valid l → returns (to_sum_tree par_chunks b) (λ t, wf t ∧ tree_items t = l).
Proof.
  intros (H1 & H2 & _) Hv. unfold to_sum_tree. rewrite <-H1 in *. clear H1.
  assert (H : ∀ o a, returns o (λ t, wf t ∧ tree_items t = a) → valid (a ++ concat (chunk_items <$> fb_chunks b)) →
    returns (foldl (λ tree chunk, let* tree := tree in
      match chunk with
      | Tree subtree => append tree subtree
      | Loose fragments =>
          let* other := if 1024 <? length fragments then from_par_iter par_chunks fragments else from_iter fragments in
          append tree other
      end) o (fb_chunks b)) (λ t, wf t ∧ tree_items t = a ++ concat (chunk_items <$> fb_chunks b))).
  2: { apply (H (Ret new) []); [by apply returns_Ret; split; [left|]|done]. }
  clear Hv. induction (fb_chunks b) as [|c cs IH]; intros o a Ho Hv; cbn [foldl fmap list_fmap concat] in *.
  - by rewrite app_nil_r.
  - apply Forall_cons in H2 as [Hc H2]. rewrite app_assoc in Hv |- *. apply IH; [done| |done].
    destruct Ho as (t & -> & Ht & <-). pose proof (valid_l _ _ Hv) as Hv1.
    destruct c as [s|g]; cbn [chunk_items] in *; [by apply append_wf|].
    assert (returns (if 1024 <? length g then from_par_iter par_chunks g else from_iter g) (λ t, wf t ∧ tree_items t = g)) as (s & -> & Hs & Es).
    { destruct (1024 <? length g); [apply from_par_iter_wf|apply from_iter_wf]; (done || by eapply valid_r). }
    rewrite <-Es in Hv1 |- *. by apply append_wf.
Qed.
End Sum.

(** ** Ropes *)
Definition slice_height (c : RopeCursor) (e : nat) : nat :=
  match rc_slice c e with Ret (s, _) => height (chunks s) | _ => 0 end.
(** The rope and all slices of it are below the capacity of cursor stacks. *)
Definition shallow_rope (r : Rope) : Prop :=
  height (chunks r) < STACK_CAP ∧
  ∀ c k e, rc_at r c k → k ≤ e ≤ length (rope_text r) → middle_height c e < STACK_CAP ∧ slice_height c e < STACK_CAP.

Section Ropes.
Context (V D : Rope).
Hypotheses (HV : rope_wf V) (HD : rope_wf D) (SV : shallow_rope V) (SD : shallow_rope D).

Lemma shallow_slice_spec r c k e :
  rope_wf r → shallow_rope r → rc_at r c k → k ≤ e ≤ length (rope_text r) →
  str_is_char_boundary (rope_text r) k = true → str_is_char_boundary (rope_text r) e = true →
  returns (rc_slice c e) (λ '(s, c'),
    rope_wf s ∧ rope_text s = take (e - k) (drop k (rope_text r)) ∧ rc_at r c' e ∧ height (chunks s) < STACK_CAP).
Proof.
  intros Hr [Hh Hs] Hc He Hk Hb. destruct (Hs c k e Hc He) as [Hm Hsl].
  destruct (rc_slice_spec r Hr Hh c k e Hc He Hk Hb Hm) as ([s c'] & E & H1 & H2 & H3).
  rewrite E. apply returns_Ret. unfold slice_height in Hsl. rewrite E in Hsl. done.
Qed.

(** Places [i] and [j] in the old texts, and the new texts so far. *)
Definition ropes_at (rb : RopeBuilder) (i j : nat) (v d : list N) : Prop :=
  rc_at V (rb_old_visible rb) i ∧ rc_at D (rb_old_deleted rb) j ∧
  (rope_wf (rb_new_visible rb) ∧ rope_text (rb_new_visible rb) = v) ∧
  (rope_wf (rb_new_deleted rb) ∧ rope_text (rb_new_deleted rb) = d).

Definition old_text (was : bool) : list N := rope_text (if was then V else D).
Definition between_boundaries (s : list N) (a b : nat) : Prop :=
  a ≤ b ≤ length s ∧ str_is_char_boundary s a = true ∧ str_is_char_boundary s b = true.

Lemma ropes_new_at :
  returns (let* v := rope_cursor V 0 in let* d := rope_cursor D 0 in Ret (ropes_new v d)) (λ rb, ropes_at rb 0 0 [] []).
Proof using Type*.
  destruct SV as [HhV _], SD as [HhD _].
  destruct (rc_new V HV HhV 0 ltac:(lia)) as (v & -> & Hv). destruct (rc_new D HD HhD 0 ltac:(lia)) as (d & -> & Hd).
  apply returns_Ret. destruct rope_wf_new as [Hn En]. done.
Qed.

(** The piece of the old text that a push moves. *)
Definition moved (was : bool) (i j len : nat) : list N :=
  take len (drop (if was then i else j) (old_text was)).

Lemma small_fits (s : list N) n : small s → n ≤ length s → (N.of_nat n <= U64_MAX)%N.
Proof. unfold small, U32_MAX, U64_MAX. lia. Qed.
Lemma rope_small r : rope_wf r → small (rope_text r).
Proof. by intros (_ & [_ H] & _). Qed.

Lemma ropes_push_spec rb i j v d len (was now : bool) :
  ropes_at rb i j v d → let k := if was then i else j in
  between_boundaries (old_text was) k (k + len) →
  small ((if now then v else d) ++ moved was i j len) →
  returns (ropes_push rb len was now) (λ rb',
    ropes_at rb' (if was then i + len else i) (if was then j else j + len)
      (if now then v ++ moved was i j len else v) (if now then d else d ++ moved was i j len)).
Proof using Type*.
  intros (Hi & Hj & (Hwv & Ev) & (Hwd & Ed)) k (Hk & Hb1 & Hb2) Hs. unfold ropes_push.
  pose proof (rope_small V HV) as HsV. pose proof (rope_small D HD) as HsD.
  assert (Hslice : returns
    (if was then let* e := usize_add (rc_offset (rb_old_visible rb)) len in
       let* '(text, c) := rc_slice (rb_old_visible rb) e in Ret (text, c, rb_old_deleted rb)
     else let* e := usize_add (rc_offset (rb_old_deleted rb)) len in
       let* '(text, c) := rc_slice (rb_old_deleted rb) e in Ret (text, rb_old_visible rb, c))
    (λ '(text, c1, c2), rope_wf text ∧ rope_text text = moved was i j len ∧ height (chunks text) < STACK_CAP ∧
       rc_at V c1 (if was then i + len else i) ∧ rc_at D c2 (if was then j else j + len))).
  { destruct was; unfold old_text, moved in *; cbn in *.
    - pose proof Hi as (_ & Eo & _). rewrite Eo, usize_add_ok by (eapply small_fits; [exact HsV|unfold k in *; lia]).
      destruct (shallow_slice_spec V _ i (i + len) HV SV Hi Hk Hb1 Hb2) as ([s c'] & -> & H1 & H2 & H3 & H4).
      apply returns_Ret. replace (i + len - i) with len in H2 by lia. done.
    - pose proof Hj as (_ & Eo & _). rewrite Eo, usize_add_ok by (eapply small_fits; [exact HsD|unfold k in *; lia]).
      destruct (shallow_slice_spec D _ j (j + len) HD SD Hj Hk Hb1 Hb2) as ([s c'] & -> & H1 & H2 & H3 & H4).
      apply returns_Ret. replace (j + len - j) with len in H2 by lia. done. }
  destruct Hslice as ([[text c1] c2] & -> & Ht & Et & Hh & Hc1 & Hc2). destruct now.
  - destruct (rope_append_spec (rb_new_visible rb) text Hwv Ht) as (r & -> & Hr & Er); [by rewrite Ev, Et|done|].
    apply returns_Ret. rewrite Ev, Et in Er. done.
  - destruct (rope_append_spec (rb_new_deleted rb) text Hwd Ht) as (r & -> & Hr & Er); [by rewrite Ed, Et|done|].
    apply returns_Ret. rewrite Ed, Et in Er. done.
Qed.

Lemma ropes_append_spec rb i j v d len :
  ropes_at rb i j v d →
  between_boundaries (rope_text V) i (i + ft_visible len) → between_boundaries (rope_text D) j (j + ft_deleted len) →
  small (v ++ moved true i j (ft_visible len)) → small (d ++ moved false i j (ft_deleted len)) →
  returns (ropes_append rb len) (λ rb',
    ropes_at rb' (i + ft_visible len) (j + ft_deleted len)
      (v ++ moved true i j (ft_visible len)) (d ++ moved false i j (ft_deleted len))).
Proof using Type*.
  intros Hrb Hi Hj Hv Hd. unfold ropes_append.
  destruct (ropes_push_spec rb i j v d (ft_visible len) true true Hrb Hi Hv) as (rb1 & -> & H1).
  apply (ropes_push_spec rb1 (i + ft_visible len) j _ d (ft_deleted len) false false H1 Hj Hd).
Qed.

Lemma ropes_finish_spec rb i j v d :
  ropes_at rb i j v d → str_is_char_boundary (rope_text V) i = true → str_is_char_boundary (rope_text D) j = true →
  small (v ++ drop i (rope_text V)) → small (d ++ drop j (rope_text D)) →
  returns (ropes_finish rb) (λ '(v', d'),
    (rope_wf v' ∧ rope_text v' = v ++ drop i (rope_text V)) ∧ (rope_wf d' ∧ rope_text d' = d ++ drop j (rope_text D))).
Proof using Type*.
  intros (Hi & Hj & (Hwv & Ev) & (Hwd & Ed)) Bi Bj Sv Sd. unfold ropes_finish, rc_suffix.
  pose proof Hi as (Er & _ & Hil & _). rewrite Er, rope_len_spec by done.
  destruct (shallow_slice_spec V _ i (length (rope_text V)) HV SV Hi ltac:(lia) Bi (str_boundary_end _)) as ([s c'] & -> & H1 & H2 & _ & H4).
  rewrite take_ge in H2 by (rewrite length_drop; lia).
  destruct (rope_append_spec (rb_new_visible rb) s Hwv H1) as (r & -> & Hr & Etr); [by rewrite Ev, H2|done|].
  pose proof Hj as (Er' & _ & Hjl & _). rewrite Er', rope_len_spec by done.
  destruct (shallow_slice_spec D _ j (length (rope_text D)) HD SD Hj ltac:(lia) Bj (str_boundary_end _)) as ([s2 c2] & -> & G1 & G2 & _ & G4).
  rewrite take_ge in G2 by (rewrite length_drop; lia).
  destruct (rope_append_spec (rb_new_deleted rb) s2 Hwd G1) as (r2 & -> & Hr2 & Etr2); [by rewrite Ed, G2|done|].
  apply returns_Ret. rewrite Ev, H2 in Etr. rewrite Ed, G2 in Etr2. done.
Qed.
End Ropes.

(** * Ropes of at most one chunk are shallow

    A rope of one chunk, and every slice of it, is one leaf. *)
Lemma push_new_height part r : push_chunk rope_new part = Ret r → height (chunks r) = 0.
Proof.
  unfold push_chunk. cbn [rope_new chunks update_last]. cbn. destruct (negb _); [|by intros [= <-]].
  destruct (slice_into_chunk part) as [c| |]; try done. unfold push, append. cbn. by intros [= <-].
Qed.

Lemma slice_empty (r : Rope) c p (e : nat) m c' :
  rope_wf r → height (chunks r) < STACK_CAP → cursor_at (chunks r) c p [] → Cursor.slice c e Right = Ret (m, c') → height m = 0.
Proof.
  intros Hr Hh Hc Hs. pose proof Hr as (Hw & Hv & _). destruct (at_split_items r Hr c p [] Hc) as [Ei Hvi]. rewrite app_nil_r in *.
  destruct (is_ge (seek_cmp e (measure (D := outcome nat) p))) eqn:Hge.
  - destruct (slice_spec (chunks r) Hw Hv Hh e Right (text_monotone_target e (rope_chunks r) Hv (key_monotone e _ (proj2 Hv))) c p [])
      as ([m' c2] & E & Hm); [by left|done|]. rewrite Hs in E. injection E as <- <-. cbn [advance] in Hm. destruct Hm as (_ & Hwm & Em).
    apply (f_equal length) in Em. rewrite length_app in Em. destruct (tree_items m) eqn:Et; [|cbn in Em; lia].
    destruct Hwm as [->|[h Hn]]; [done|]. by apply wf_node_items in Hn.
  - destruct Hc as (_ & _ & Hp & _). unfold Cursor.slice, seek_internal in Hs. rewrite Hp, Hge in Hs. done.
Qed.

Lemma one_chunk_shallow r :
  rope_wf r → height (chunks r) < STACK_CAP → length (rope_chunks r) ≤ 1 → shallow_rope r.
Proof.
  intros Hr Hh H1. split; [done|]. intros c k e (Er & Ek & Hk & p & l & Hs & Hpk & Hx) He. pose proof Hr as (Hw & Hv & _).
  destruct (at_split_items r Hr _ _ _ Hs) as [Ei _]. rewrite Ei, length_app in H1.
  destruct (at_split_reads r Hr Hh _ _ _ Hs) as (R1 & R2 & R3). pose proof (at_split_text r Hr _ _ _ Hs) as Et.
  assert (Hl : drop 1 l = []) by (destruct l as [|x [|y l]]; cbn in *; [done|done|lia]).
  assert (Eend : length (chunks_text p) + match l with x :: _ => length (ctext x) | [] => 0 end = length (rope_text r)).
  { rewrite Et, length_app. destruct l as [|x [|y l]]; cbn in H1; [done|by rewrite chunks_text_single|lia]. }
  unfold STACK_CAP. split.
  - unfold middle_height. destruct (next_at (chunks r) Hw Hv Hh _ _ _ Hs) as (c1 & -> & Hc1). rewrite Hl in Hc1.
    destruct (Cursor.slice c1 e Right) as [[m c2]| |] eqn:Em; [|lia|lia]. rewrite (slice_empty r c1 _ e m c2) by done. lia.
  - unfold slice_height. assert (Hrc : rc_at r c k) by (split_and!; try done; by exists p, l).
    unfold rc_slice. rewrite (rc_assert_ok r Hr Hh c k e Hrc He), R2, R3, Eend.
    assert (Hge : (length (rope_text r) <? e) = false) by (apply Nat.ltb_ge; lia).
    destruct (head l) as [x|]; [|rewrite Hge; cbn; lia].
    rewrite R1. destruct (usize_sub _ _) as [a| |]; [|cbn; lia..]. destruct (usize_sub _ _) as [b| |]; [|cbn; lia..].
    destruct (chunk_slice x a b) as [part| |]; [|cbn; lia..].
    destruct (push_chunk rope_new part) as [s| |] eqn:Ep; [|cbn; lia..]. rewrite Hge.
    rewrite (push_new_height part s Ep). lia.
Qed.
