(* ===== verification/Walk.v ===== *)
(** * An edit as a walk along the old fragments

    [walk p l k out] relates the variables of an edit to lists: the cursor is
    at the split [p ++ l] of the old fragments, [k] bytes of the first fragment
    of [l] are consumed, and [out] are the fragments built so far.  At every
    moment [out ++ rest l k] is a document: every cell of every insertion is in
    it once.  That the locators of [out ++ l] increase is kept apart, since it
    is restored only after a fragment is left. *)
From stdpp Require Import base numbers option list sorting.
From Stdlib Require Import Lia.
From S2P Require Import Prelude Clock SumTree SumTreeFacts SumTreeBulk Cursor CursorFacts CursorSeek CursorMove CursorIter Keyed Locator Patch PatchFacts.
From S2P Require Import Utf8 ChunkPointsFacts RopeTree Rope RopeBuild RopeSlice Fragment Snapshot Document.
#[local] Opaque TREE_BASE av_cap.

Definition slice_of (ts : Lamport) (f : Fragment) : InsertionSlice :=
  MkInsertionSlice ts (f_timestamp f) (f_insertion_offset f) (f_insertion_offset f + f_len f).

(** [g] is a part of [f], as it was or deleted by the edit [ts]. *)
Definition derived (ts : Lamport) (g f : Fragment) : Prop :=
  f_timestamp g = f_timestamp f ∧ f_max_undos g = f_max_undos f ∧
  (∃ a, f_insertion_offset g = f_insertion_offset f + a ∧ a + f_len g ≤ f_len f) ∧
  ((f_visible g = f_visible f ∧ f_deletions g = f_deletions f) ∨
   (f_visible g = false ∧ f_deletions g = f_deletions f ++ [ts])).
Definition inserted (ts : Lamport) (g : Fragment) : Prop :=
  f_timestamp g = ts ∧ f_visible g = true ∧ f_deletions g = [] ∧ f_max_undos g = Global_new.

(** [g] was inserted or deleted by the edit [ts]. *)
Definition touched (ts : Lamport) (g : Fragment) : bool := bool_decide (f_timestamp g = ts ∨ ts ∈ f_deletions g).
Definition slices_of (ts : Lamport) (l : list Fragment) : list InsertionSlice := slice_of ts <$> List.filter (touched ts) l.
Lemma slices_of_app ts l k : slices_of ts (l ++ k) = slices_of ts l ++ slices_of ts k.
Proof. unfold slices_of. by rewrite List.filter_app, fmap_app. Qed.
Lemma slices_of_all ts l : Forall (λ g, touched ts g = true) l → slices_of ts l = slice_of ts <$> l.
Proof. unfold slices_of. induction 1 as [|g l Hg _ IH]; [done|]. cbn. rewrite Hg. cbn. by rewrite IH. Qed.
Lemma slices_of_none ts l : Forall (λ g, touched ts g = false) l → slices_of ts l = [].
Proof. unfold slices_of. induction 1 as [|g l Hg _ IH]; [done|]. cbn. by rewrite Hg. Qed.

(** The cells that are not of the insertion [ts]. *)
Definition not_of (ts : Lamport) (c : list (Lamport * nat)) : list (Lamport * nat) := List.filter (λ x, negb (bool_decide (x.1 = ts))) c.
Lemma not_of_app ts c c' : not_of ts (c ++ c') = not_of ts c ++ not_of ts c'.
Proof. apply List.filter_app. Qed.
Lemma not_of_all ts c : (∀ i, (ts, i) ∉ c) → not_of ts c = c.
Proof.
  unfold not_of. induction c as [|[t i] c IH]; intros Hc; [done|]. cbn. rewrite bool_decide_eq_false_2; [|intros ->; apply (Hc i); by left].
  cbn. f_equal. apply IH. intros j Hj. apply (Hc j). by right.
Qed.
Lemma not_of_none ts (l : list nat) : not_of ts (pair ts <$> l) = [].
Proof. unfold not_of. induction l as [|i l IH]; [done|]. cbn. by rewrite bool_decide_eq_true_2. Qed.
Lemma not_of_sub ts c : not_of ts c ⊆ c.
Proof. intros x [Hx _]%list_elem_of_In%List.filter_In. by apply list_elem_of_In. Qed.

Section Walk.
Context (W : Lamport → list N) (V D : Rope) (t : fragment_tree) (ts : Lamport).
Abbreviation F := (tree_items t).
Abbreviation X := (vis_text W F).

(** What an edit with the time stamp [ts] starts from; [W ts] is all the text
    it inserts. *)
Record setup : Prop := {
  su_visible : rope_wf V; su_deleted : rope_wf D;
  su_visible_shallow : shallow_rope V; su_deleted_shallow : shallow_rope D;
  su_tree : wf t; su_height : height t < STACK_CAP;
  su_doc : doc_ok W F;
  su_visible_text : rope_text V = vis_text W F; su_deleted_text : rope_text D = del_text W F;
  su_fresh : Forall (λ f, f_timestamp f ≠ ts ∧ ts ∉ f_deletions f) F;
  su_total : (N.of_nat (visible_len F + deleted_len F + length (W ts)) <= U32_MAX)%N;
}.
Hypothesis Hset : setup.
Abbreviation HV := (su_visible Hset).
Abbreviation HD := (su_deleted Hset).
Abbreviation SV := (su_visible_shallow Hset).
Abbreviation SD := (su_deleted_shallow Hset).
Abbreviation HF := (su_doc Hset).
Abbreviation EV := (su_visible_text Hset).
Abbreviation ED := (su_deleted_text Hset).

Record walk (p l : list Fragment) (k : nat) (out : list Fragment)
    (c : Cursor Fragment FragmentSummary FragmentTextSummary) (st : nat) (b : Building) : Prop := {
  w_cursor : cursor_at t c p l;
  w_start : st = visible_len p + k;
  w_part : k = 0 ∨ ∃ f l', l = f :: l' ∧ f_visible f = true ∧ k ≤ f_len f;
  w_bound : str_is_char_boundary X st = true;
  w_builder : builder_ok (b_fragments b) out;
  w_frags : Forall (frag_ok W) out;
  w_cells : in_order (cells (out ++ rest l k));
  w_new : ∀ i, (ts, i) ∈ cells out → i < b_offset b;
  w_ropes : ropes_at V D (b_ropes b) st (deleted_len p) (vis_text W out) (del_text W out);
  w_size : visible_len out + deleted_len out = st + deleted_len p + b_offset b;
  w_offset : b_offset b ≤ length (W ts);
  w_patch : rewrites 0 0 (take st X) (b_patch b) (vis_text W out);
  w_sep : separated (b_patch b);
  w_insertions : sublist (b_insertions b) (insert_new <$> out);
  w_indexed : ∀ g, g ∈ out → insert_new g ∈ b_insertions b ∨ g ∈ F;
  w_keys : ∀ f, f ∈ F → fragment_key f ∈ fragment_key <$> out ++ rest l k;
  w_slices : b_slices b = slices_of ts out;
  w_kept : not_of ts (cells (out ++ rest l k)) = cells F;
  w_origin : ∀ g, g ∈ out → inserted ts g ∨ ∃ f, f ∈ F ∧ derived ts g f;
}.

(** ** The old text *)
Lemma walk_items (c : Cursor Fragment FragmentSummary FragmentTextSummary) p l : cursor_at t c p l → F = p ++ l.
Proof. exact (cursor_at_items t c p l). Qed.
Lemma old_frags p l : F = p ++ l → Forall (frag_ok W) p ∧ Forall (frag_ok W) l.
Proof. intros E. destruct HF as [H _ _]. rewrite E in H. by apply Forall_app. Qed.
Lemma old_frag f : f ∈ F → frag_ok W f.
Proof. intros Hf. destruct HF as [H _ _]. rewrite Forall_forall in H. by apply H. Qed.
Lemma fresh_fragment f : f ∈ F → f_timestamp f ≠ ts ∧ ts ∉ f_deletions f.
Proof. pose proof (su_fresh Hset) as H. rewrite Forall_forall in H. apply H. Qed.
Lemma untouched f : f ∈ F → touched ts f = false.
Proof. intros Hf. destruct (fresh_fragment f Hf). apply bool_decide_eq_false. tauto. Qed.
Lemma F_valid : valid F.
Proof. destruct HF as [H _ _]. by eapply frag_ok_valid. Qed.

Lemma vis_lengths p l : F = p ++ l → length (vis_text W p) = visible_len p ∧ length (del_text W p) = deleted_len p.
Proof. intros E. destruct (old_frags p l E) as [Hp _]. split; [by apply vis_text_length|by apply del_text_length]. Qed.

Lemma take_visible p l : F = p ++ l → take (visible_len p) X = vis_text W p.
Proof. intros E. destruct (vis_lengths p l E) as [E1 _]. by rewrite E, vis_text_app, <-E1, take_app_length. Qed.

(** Positions between fragments are boundaries of both texts. *)
Lemma junction p l : F = p ++ l →
  str_is_char_boundary X (visible_len p) = true ∧ str_is_char_boundary (del_text W F) (deleted_len p) = true ∧
  visible_len p ≤ length X ∧ deleted_len p ≤ length (del_text W F).
Proof.
  intros E. destruct (old_frags p l E) as [Hp Hl]. destruct (vis_lengths p l E) as [E1 E2].
  rewrite E, vis_text_app, del_text_app, !length_app, <-E1, <-E2.
  rewrite <-(Nat.add_0_r (length (vis_text W p))) at 1. rewrite <-(Nat.add_0_r (length (del_text W p))) at 1.
  rewrite !str_boundary_app by (by apply vis_text_utf8 || by apply del_text_utf8). split_and!; (done || lia).
Qed.

(** A visible fragment in the text. *)
Lemma window p f l k n : F = p ++ f :: l → f_visible f = true → k + n ≤ f_len f →
  take n (drop (visible_len p + k) X) = take n (drop k (text_of W f)) ∧
  str_is_char_boundary X (visible_len p + k) = str_is_char_boundary (text_of W f) k ∧
  visible_len p + k + n ≤ length X.
Proof.
  intros E Hf Hn. destruct (old_frags p (f :: l) E) as [Hp Hl]. destruct (vis_lengths p _ E) as [E1 _].
  apply Forall_cons in Hl as [Hfo Hl]. pose proof (text_of_length W f Hfo) as Elen.
  assert (Hut : utf8 (text_of W f ++ vis_text W l)) by (apply utf8_app; [by destruct Hfo as (_ & _ & _ & ? & _)|by apply vis_text_utf8]).
  rewrite E, vis_text_app, vis_text_cons, Hf, <-E1. split_and!.
  - rewrite drop_app_add', drop_app_le by lia. rewrite take_app_le; [done|]. rewrite length_drop. lia.
  - rewrite str_boundary_app by done. apply str_boundary_prefix; [by apply vis_text_utf8|lia].
  - rewrite !length_app. lia.
Qed.

(** ** Reading the cursor *)
Lemma cursor_reads p l k out c st b : walk p l k out c st b →
  start_visible c = visible_len p ∧ ft_deleted (start c) = deleted_len p ∧ item c = Ret (head l) ∧
  end_visible c = Ret (visible_len p + match l with f :: _ => if f_visible f then f_len f else 0 | [] => 0 end).
Proof.
  intros Hw. pose proof (w_cursor _ _ _ _ _ _ _ Hw) as Hc. pose proof F_valid as Hv. pose proof (su_tree Hset) as Ht. pose proof (su_height Hset) as Hh.
  pose proof Hc as (_ & _ & Hp & _). unfold start_visible, end_visible, start. rewrite Hp, measure_text_summary.
  split; [done|]. split; [done|]. split; [by eapply item_at|]. erewrite end_at by done. cbn.
  unfold end_of. destruct l as [|f l]; cbn; [rewrite measure_text_summary; cbn; f_equal; lia|].
  rewrite measure_text_summary. cbn. by rewrite visible_len_snoc.
Qed.

Lemma builder_reads b out : builder_ok (b_fragments b) out → b_max_id b = max_id out ∧ b_visible b = visible_len out.
Proof.
  intros (_ & _ & E). unfold b_max_id, b_visible. rewrite E, total_max_id, total_text. done.
Qed.

(** ** Leaving a consumed fragment *)
Lemma walk_next p f l out c st b :
  walk p (f :: l) (f_len f) out c st b → f_visible f = true →
  returns (next c) (λ c', walk (p ++ [f]) l 0 out c' st b).
Proof.
  intros Hw Hf. destruct Hw. pose proof F_valid as Hv. pose proof (su_tree Hset) as Ht. pose proof (su_height Hset) as Hh. pose proof (walk_items _ _ _ w_cursor0) as E.
  destruct (old_frags _ _ E) as [_ [Hfo _]%Forall_cons]. pose proof Hfo as (Hlen & _).
  eapply returns_mono; [by eapply next_at|]. intros c' Hc'. cbn [take drop] in Hc'.
  rewrite (rest_end f l) in * by done. split; try done.
  - rewrite w_start0, visible_len_snoc, Hf. lia.
  - by left.
  - by rewrite rest_0.
  - by rewrite deleted_len_snoc, Hf, Nat.add_0_r.
  - by rewrite deleted_len_snoc, Hf, Nat.add_0_r.
  - by rewrite rest_0.
  - by rewrite rest_0.
Qed.

(** ** Pushing a part of a visible fragment *)
(** [b'] differs from [b] only in its patch and its slices. *)
Definition same_pieces (b b' : Building) : Prop :=
  b_fragments b' = b_fragments b ∧ b_ropes b' = b_ropes b ∧ b_insertions b' = b_insertions b ∧ b_offset b' = b_offset b.

Definition piece_of (g f : Fragment) (k n : nat) : Prop :=
  f_timestamp g = f_timestamp f ∧ f_insertion_offset g = f_insertion_offset f + k ∧ f_len g = n ∧
  f_max_undos g = f_max_undos f.

Lemma piece_same g f k n : piece_of g f k n → frag_ok W (part f k n) →
  frag_ok W g ∧ text_of W g = text_of W (part f k n) ∧ fragment_cells g = fragment_cells (part f k n).
Proof.
  intros (E1 & E2 & E3 & E4) Hok. assert (Et : text_of W g = text_of W (part f k n)).
  { unfold text_of. by rewrite E1, E2, E3. }
  assert (Ec : fragment_cells g = fragment_cells (part f k n)) by (unfold fragment_cells; by rewrite E1, E2, E3).
  unfold frag_ok. rewrite Et, E1, E2, E3, E4. done.
Qed.

Lemma rest_keys f l k n : 0 < n → k + n ≤ f_len f → ∀ x,
  x ∈ fragment_key <$> rest (f :: l) k → x = fragment_key (part f k n) ∨ x ∈ fragment_key <$> rest (f :: l) (k + n).
Proof.
  intros Hn Hle x. rewrite rest_lt by lia. cbn [fmap list_fmap]. rewrite elem_of_cons. intros [->|Hx]; [by left|right].
  destruct (Nat.eq_dec (k + n) (f_len f)) as [->|Hne]; [by rewrite rest_end by lia|].
  rewrite rest_lt by lia. by right.
Qed.

(** Sizes stay within bounds. *)
Lemma consumed_le p l k : F = p ++ l → (k = 0 ∨ ∃ f l', l = f :: l' ∧ f_visible f = true ∧ k ≤ f_len f) →
  visible_len p + k ≤ visible_len F ∧ deleted_len p ≤ deleted_len F.
Proof.
  intros -> Hk. rewrite visible_len_app, deleted_len_app. split; [|lia].
  destruct Hk as [->|(f & l' & -> & Hf & Hk)]; [lia|]. unfold visible_len at 3. csimpl. rewrite Hf. lia.
Qed.
Lemma walk_small out : Forall (frag_ok W) out →
  visible_len out + deleted_len out ≤ visible_len F + deleted_len F + length (W ts) →
  small (vis_text W out) ∧ small (del_text W out).
Proof.
  intros Hok Hle. pose proof (su_total Hset). unfold small. rewrite vis_text_length, del_text_length by done. lia.
Qed.

Lemma push_visible p f l k n out c st b b1 g :
  walk p (f :: l) k out c st b → f_visible f = true → 0 < n → k + n ≤ f_len f →
  str_is_char_boundary X (st + n) = true → same_pieces b b1 → piece_of g f k n → derived ts g f →
  rewrites 0 0 (take (st + n) X) (b_patch b1) (vis_text W (out ++ [g])) → separated (b_patch b1) →
  b_slices b1 = b_slices b ++ slices_of ts [g] →
  returns (push_piece b1 g true) (λ b', walk p (f :: l) (k + n) (out ++ [g]) c (st + n) b').
Proof.
  intros Hw Hf Hn Hle Hb (Eb1 & Eb2 & Eb3 & Eb4) Hg Hd Hpatch Hsep Hsl. destruct Hw.
  pose proof (walk_items _ _ _ w_cursor0) as E. destruct (old_frags _ _ E) as [_ [Hfo _]%Forall_cons].
  destruct (window p f l k n E Hf Hle) as (Ewin & Ebnd & Hlen).
  destruct (window p f l (k + n) 0 E Hf ltac:(lia)) as (_ & Ebnd2 & _).
  assert (Hpart : frag_ok W (part f k n)).
  { apply frag_ok_part; try done; [by rewrite <-Ebnd, <-w_start0|]. rewrite <-Ebnd2, Nat.add_assoc, <-w_start0. done. }
  destruct (piece_same g f k n Hg Hpart) as (Hgo & Etg & Ecg). pose proof Hg as (Eg1 & Eg2 & Eg3 & Eg4).
  assert (Hin : f ∈ F) by (rewrite E; apply elem_of_app; right; by left).
  assert (Hout : Forall (frag_ok W) (out ++ [g])) by (apply Forall_app; split; [done|by constructor; [|constructor]]).
  assert (Hlens : visible_len (out ++ [g]) + deleted_len (out ++ [g]) = st + n + deleted_len p + b_offset b).
  { rewrite visible_len_snoc, deleted_len_snoc. destruct (f_visible g); lia. }
  destruct (consumed_le p (f :: l) (k + n) E) as [Hc1 Hc2]; [right; by exists f, l|].
  destruct (walk_small (out ++ [g]) Hout) as [Sv Sd]; [lia|].
  assert (Emoved : moved V D true st (deleted_len p) n = text_of W g).
  { unfold moved, old_text. cbn. by rewrite EV, w_start0, Ewin, Etg, text_of_part. }
  unfold push_piece, push_fragment. rewrite Eg3, Eb2. apply Nat.ltb_lt in Hn as Hn'. rewrite Hn'. cbn [rust_assert].
  destruct (ropes_push_spec V D HV HD SV SD (b_ropes b) st (deleted_len p) (vis_text W out) (del_text W out) n true (f_visible g))
    as (rb & -> & Hrb); [done| | |].
  { unfold between_boundaries, old_text. cbn. rewrite EV. split_and!; [lia|lia|done|done]. }
  { rewrite Emoved. rewrite vis_text_snoc in Sv. rewrite del_text_snoc in Sd. by destruct (f_visible g). }
  assert (Ecells : cells ((out ++ [g]) ++ rest (f :: l) (k + n)) = cells (out ++ rest (f :: l) k)).
  { rewrite cells_app, cells_snoc, Ecg, <-app_assoc, <-rest_cells by done. by rewrite <-cells_app. }
  apply returns_Ret. split; cbn [b_fragments b_ropes b_insertions b_slices b_offset b_patch]; rewrite ?Eb1, ?Eb3, ?Eb4.
  - done.
  - lia.
  - right. exists f, l. split_and!; (done || lia).
  - done.
  - by apply builder_push_ok.
  - done.
  - by rewrite Ecells.
  - intros i. rewrite cells_app, elem_of_app. intros [Hi|Hi]; [by apply w_new0|].
    apply elem_of_cells in Hi as (g' & Hg'%list_elem_of_singleton & Hts & _). subst g'.
    destruct (fresh_fragment f Hin) as [Hne _]. congruence.
  - rewrite Emoved in Hrb. rewrite vis_text_snoc, del_text_snoc. by destruct (f_visible g); rewrite !app_nil_r.
  - lia.
  - done.
  - done.
  - done.
  - rewrite fmap_app. by apply sublist_app.
  - intros g' [Hg'|Hg'%list_elem_of_singleton]%elem_of_app; [|subst g'; left; apply elem_of_app; right; by left].
    destruct (w_indexed0 g' Hg') as [?|?]; [left; apply elem_of_app; by left|by right].
  - intros f' Hf'. specialize (w_keys0 f' Hf'). rewrite !fmap_app, !elem_of_app in *. destruct w_keys0 as [?|Hk]; [tauto|].
    destruct (rest_keys f l k n Hn Hle _ Hk) as [Ek|?]; [|tauto]. left. right. rewrite Ek. apply list_elem_of_singleton.
    unfold fragment_key. cbn. by rewrite Eg1, Eg2.
  - by rewrite Hsl, w_slices0, slices_of_app.
  - by rewrite Ecells.
  - intros g' [Hg'|Hg'%list_elem_of_singleton]%elem_of_app; [by apply w_origin0|]. subst g'. right. by exists f.
Qed.

(** ** Passing whole fragments *)
Lemma derived_self f : derived ts f f.
Proof. split_and!; [done|done|exists 0; split; lia|by left]. Qed.
Lemma fresh_cells q l i : F = q ++ l → (ts, i) ∉ cells q.
Proof.
  intros E (f & Hf & Hts & _)%elem_of_cells. destruct (fresh_fragment f) as [Hne _]; [rewrite E; apply elem_of_app; by left|done].
Qed.

(** The fields of [walk] that do not speak of ropes, after a run of fragments
    has been taken over as it is. *)
Lemma walk_take p q l out c st b c' b' :
  walk p (q ++ l) 0 out c st b → cursor_at t c' (p ++ q) l → builder_ok (b_fragments b') (out ++ q) →
  ropes_at V D (b_ropes b') (visible_len (p ++ q)) (deleted_len (p ++ q)) (vis_text W (out ++ q)) (del_text W (out ++ q)) →
  b_offset b' = b_offset b → b_patch b' = b_patch b → b_slices b' = b_slices b →
  sublist (b_insertions b') (insert_new <$> out ++ q) → b_insertions b ⊆ b_insertions b' →
  walk (p ++ q) l 0 (out ++ q) c' (visible_len (p ++ q)) b'.
Proof.
  intros Hw Hc' Hbu Hro Eo Ep Es Hins Hsub. destruct Hw. pose proof (walk_items _ _ _ w_cursor0) as E.
  pose proof (old_frags _ _ E) as [_ [Hq _]%Forall_app].
  pose proof E as E'. rewrite app_assoc in E'. destruct (junction (p ++ q) l E') as (B1 & B2 & _).
  rewrite Nat.add_0_r in *. rewrite rest_0 in *. subst st.
  assert (Hqin : ∀ g, g ∈ q → g ∈ F) by (intros g Hg; rewrite E, !elem_of_app; tauto).
  split; try done.
  - lia.
  - apply Forall_app; by split.
  - by rewrite rest_0, <-app_assoc.
  - intros i. rewrite cells_app, elem_of_app, Eo. intros [Hi|Hi]; [by apply w_new0|].
    apply elem_of_cells in Hi as (f & Hf & Hts & _). by destruct (fresh_fragment f (Hqin f Hf)).
  - rewrite !visible_len_app, !deleted_len_app in *. lia.
  - by rewrite Eo.
  - rewrite Ep, vis_text_app, (take_visible (p ++ q) l), vis_text_app by done. rewrite (take_visible p (q ++ l)) in w_patch0 by done.
    by apply rewrites_keep.
  - by rewrite Ep.
  - intros g [Hg|Hg]%elem_of_app; [|right; by apply Hqin]. destruct (w_indexed0 g Hg); [left; by apply Hsub|by right].
  - rewrite rest_0. intros f Hf. rewrite <-app_assoc. by apply w_keys0.
  - rewrite Es, slices_of_app, (slices_of_none ts q), app_nil_r; [done|]. rewrite Forall_forall. intros g Hg. by apply untouched, Hqin.
  - by rewrite rest_0, <-app_assoc.
  - intros g [Hg|Hg]%elem_of_app; [by apply w_origin0|]. right. exists g. split; [by apply Hqin|apply derived_self].
Qed.

(** The texts of a run at the places of the walk. *)
Lemma run_texts p q l : F = p ++ q ++ l →
  moved V D true (visible_len p) (deleted_len p) (visible_len q) = vis_text W q ∧
  moved V D false (visible_len p) (deleted_len p) (deleted_len q) = del_text W q ∧
  between_boundaries (rope_text V) (visible_len p) (visible_len p + visible_len q) ∧
  between_boundaries (rope_text D) (deleted_len p) (deleted_len p + deleted_len q).
Proof.
  intros E. pose proof (old_frags _ _ E) as [Hp [Hq Hl]%Forall_app]. destruct (vis_lengths p _ E) as [E1 E2].
  destruct (junction p _ E) as (B1 & B2 & _). pose proof E as E'. rewrite app_assoc in E'.
  destruct (junction (p ++ q) l E') as (B3 & B4 & B5 & B6). rewrite visible_len_app in B3, B5. rewrite deleted_len_app in B4, B6.
  unfold moved, old_text, between_boundaries. rewrite EV, ED. split_and!; try done; try lia.
  - rewrite E, vis_text_app, <-E1, drop_app_length, vis_text_app, <-(vis_text_length W q) by done. by rewrite take_app_length.
  - rewrite E, del_text_app, <-E2, drop_app_length, del_text_app, <-(del_text_length W q) by done. by rewrite take_app_length.
Qed.

Lemma append_run p q l out c st b c' s :
  walk p (q ++ l) 0 out c st b → cursor_at t c' (p ++ q) l → wf s → tree_items s = q →
  returns (append_slice b s) (λ b', walk (p ++ q) l 0 (out ++ q) c' (visible_len (p ++ q)) b').
Proof.
  intros Hw Hc' Hs Eq. pose proof Hw as [Hc Est _ _ Hbu Hfr _ _ Hro Hsz Hoff]. pose proof (walk_items _ _ _ Hc) as E.
  pose proof (old_frags _ _ E) as [_ [Hq _]%Forall_app]. destruct (run_texts p q l E) as (M1 & M2 & B1 & B2).
  assert (Hok : Forall (frag_ok W) (out ++ q)) by (apply Forall_app; by split).
  destruct (consumed_le (p ++ q) l 0) as [L1 L2]; [by rewrite <-app_assoc|by left|]. rewrite visible_len_app in L1. rewrite deleted_len_app in L2.
  rewrite Nat.add_0_r in *. subst st.
  destruct (walk_small (out ++ q) Hok) as [Sv Sd]; [rewrite visible_len_app, deleted_len_app; lia|]. rewrite vis_text_app in Sv. rewrite del_text_app in Sd.
  unfold append_slice. rewrite wf_summary, Eq, total_text by done.
  destruct (ropes_append_spec V D HV HD SV SD (b_ropes b) (visible_len p) (deleted_len p) (vis_text W out) (del_text W out)
    (MkFragmentText (visible_len q) (deleted_len q))) as (rb & -> & Hrb); cbn [ft_visible ft_deleted]; rewrite ?M1, ?M2; try done.
  cbn [ft_visible ft_deleted] in Hrb. rewrite M1, M2 in Hrb.
  apply returns_Ret. eapply walk_take; try done; cbn [b_fragments b_ropes b_insertions].
  - rewrite <-Eq. apply builder_append_ok; [done|done|]. rewrite Eq. by eapply frag_ok_valid.
  - by rewrite visible_len_app, deleted_len_app, vis_text_app, del_text_app.
  - rewrite fmap_app. apply sublist_inserts_r. by destruct Hw.
Qed.

(** A hidden fragment is pushed as it is, and left. *)
Lemma push_hidden p f l out c st b :
  walk p (f :: l) 0 out c st b → f_visible f = false →
  returns (push_piece b f false) (λ b', returns (next c) (λ c', walk (p ++ [f]) l 0 (out ++ [f]) c' st b')).
Proof.
  intros Hw Hf. change (f :: l) with ([f] ++ l) in Hw. pose proof Hw as [Hc Est _ _ Hbu Hfr _ _ Hro Hsz Hoff].
  pose proof (walk_items _ _ _ Hc) as E. pose proof (old_frags _ _ E) as [_ [Hfo _]%Forall_cons].
  destruct (run_texts p [f] l E) as (_ & M2 & _ & B2). rewrite Nat.add_0_r in Est. subst st.
  assert (Ed : deleted_len [f] = f_len f) by (unfold deleted_len; cbn; rewrite Hf; lia).
  assert (Et : del_text W [f] = text_of W f) by (unfold del_text; cbn; by rewrite Hf, app_nil_r).
  assert (Ev : visible_len (p ++ [f]) = visible_len p) by (by rewrite visible_len_snoc, Hf, Nat.add_0_r).
  rewrite Ed in M2, B2. rewrite Et in M2. pose proof Hfo as (Hpos & _).
  assert (Hok : Forall (frag_ok W) (out ++ [f])) by (apply Forall_app; split; [done|by constructor; [|constructor]]).
  destruct (consumed_le (p ++ [f]) l 0) as [L1 L2]; [by rewrite <-app_assoc|by left|].
  destruct (walk_small (out ++ [f]) Hok) as [Sv Sd]; [rewrite visible_len_snoc, deleted_len_snoc, Hf in *; lia|].
  rewrite del_text_snoc, Hf in Sd.
  unfold push_piece, push_fragment. rewrite Hf. apply Nat.ltb_lt in Hpos as Hpos'. rewrite Hpos'. cbn [rust_assert].
  destruct (ropes_push_spec V D HV HD SV SD (b_ropes b) (visible_len p) (deleted_len p) (vis_text W out) (del_text W out) (f_len f) false false)
    as (rb & -> & Hrb); [done|done|by rewrite M2|].
  rewrite M2 in Hrb. apply returns_Ret. pose proof F_valid as Hv. pose proof (su_tree Hset) as Ht. pose proof (su_height Hset) as Hh.
  eapply returns_mono; [eapply (next_at t); done|]. intros c' Hc'. cbn [take drop app] in Hc'.
  rewrite <-Ev. eapply walk_take; try done; cbn [b_fragments b_ropes b_insertions].
  - by apply builder_push_ok.
  - by rewrite Ev, deleted_len_snoc, vis_text_snoc, del_text_snoc, Hf, app_nil_r.
  - rewrite fmap_app. apply sublist_app; [by destruct Hw|done].
  - intros x Hx. apply elem_of_app. by left.
Qed.
End Walk.
