(* ===== verification/Layout.v ===== *)
(** * What a remote edit means

    The layout of a document is the list of all its cells, with the edits that
    deleted each of them.  An edit made in a version names places by the number
    of cells the version has seen before them; [integrate] finds these places
    in a layout that may have more cells, and puts new cells after those at the
    same place that have a greater time stamp. *)
From stdpp Require Import base numbers option list.
From Stdlib Require Import Lia.
From S2P Require Import Prelude Clock SumTree SumTreeFacts SumTreeBulk Locator Fragment Document Walk.
Record LaidCell := MkLaid { a_cell : Lamport * nat; a_deletions : list Lamport; a_visible : bool }.
Definition a_stamp (c : LaidCell) : Lamport := (a_cell c).1.

Definition laid (f : Fragment) : list LaidCell := (λ c, MkLaid c (f_deletions f) (f_visible f)) <$> fragment_cells f.
Definition layout (l : list Fragment) : list LaidCell := concat (laid <$> l).
Lemma layout_app l k : layout (l ++ k) = layout l ++ layout k.
Proof. unfold layout. by rewrite fmap_app, concat_app. Qed.
Lemma layout_cons f l : layout (f :: l) = laid f ++ layout l.
Proof. done. Qed.
Lemma layout_one f : layout [f] = laid f.
Proof. unfold layout. cbn. by rewrite app_nil_r. Qed.
Lemma layout_cells l : a_cell <$> layout l = cells l.
Proof.
  induction l as [|f l IH]; [done|]. rewrite layout_cons, cells_cons, fmap_app, IH. f_equal. unfold laid.
  rewrite <-list_fmap_compose. apply list_fmap_id.
Qed.
Lemma elem_of_laid c f : c ∈ laid f ↔ a_cell c ∈ fragment_cells f ∧ a_deletions c = f_deletions f ∧ a_visible c = f_visible f.
Proof.
  unfold laid. rewrite list_elem_of_fmap. split; [by intros (d & -> & Hd)|]. intros (Hc & Hd & Hv). exists (a_cell c). split; [|done].
  destruct c; cbn in *. by subst.
Qed.
Lemma laid_length f : length (laid f) = f_len f.
Proof. unfold laid. by rewrite length_fmap, fragment_cells_length. Qed.
Lemma laid_stamp c f : c ∈ laid f → a_stamp c = f_timestamp f.
Proof. intros (Hc & _)%elem_of_laid. unfold fragment_cells in Hc. apply list_elem_of_fmap in Hc as (i & E & _). unfold a_stamp. by rewrite E. Qed.
Lemma laid_split f a n m : laid (part f a (n + m)) = laid (part f a n) ++ laid (part f (a + n) m).
Proof. unfold laid. by rewrite <-fmap_app, cells_split. Qed.
(** The cells of the layout that are visible, as in [vcells]. *)
Lemma layout_vcells l : a_cell <$> List.filter a_visible (layout l) = vcells l.
Proof.
  induction l as [|f l IH]; [done|]. rewrite layout_cons, vcells_cons, List.filter_app, fmap_app, IH. f_equal.
  unfold laid. generalize (fragment_cells f) as c. destruct (f_visible f) eqn:E; intros c; induction c as [|x c IHc]; cbn; [done| |done|done].
  f_equal. exact IHc.
Qed.

Lemma layout_inserted ts news : Forall (inserted ts) news → layout news = (λ c, MkLaid c [] true) <$> cells news.
Proof.
  induction 1 as [|g news (_ & Ev & Ed & _) _ IH]; [done|]. rewrite layout_cons, cells_cons, fmap_app, IH. unfold laid. by rewrite Ev, Ed.
Qed.

(** ** Laying out fragment by fragment *)
(** [ext] is laid out as [y] where [x] was. *)
Definition lays (x y : list LaidCell) (l : list Fragment) (k : nat) (out : list Fragment) (l' : list Fragment) (k' : nat) (out' : list Fragment) : Prop :=
  layout (rest l k) = x ++ layout (rest l' k') ∧ ∃ ext, out' = out ++ ext ∧ layout ext = y.
Lemma lays_refl l k out : lays [] [] l k out l k out.
Proof. split; [done|]. exists []. by rewrite app_nil_r. Qed.
Lemma lays_trans x y x' y' l k out l1 k1 out1 l2 k2 out2 :
  lays x y l k out l1 k1 out1 → lays x' y' l1 k1 out1 l2 k2 out2 → lays (x ++ x') (y ++ y') l k out l2 k2 out2.
Proof.
  intros [E1 (e1 & -> & <-)] [E2 (e2 & -> & <-)]. split; [by rewrite E1, E2, app_assoc|]. exists (e1 ++ e2). by rewrite app_assoc, layout_app.
Qed.
Lemma lays_piece f l k n g out l' k' : 0 < n → k + n ≤ f_len f → fragment_cells g = fragment_cells (part f k n) →
  layout (rest l' k') = layout (rest (f :: l) (k + n)) →
  lays (laid (part f k n)) (laid g) (f :: l) k out l' k' (out ++ [g]).
Proof.
  intros Hn Hle Eg E. split; [|exists [g]; by rewrite layout_one]. rewrite E, rest_lt, layout_cons by lia.
  replace (f_len f - k) with (n + (f_len f - k - n)) by lia. rewrite laid_split, <-app_assoc. f_equal.
  destruct (Nat.eq_dec (k + n) (f_len f)) as [Ee|Hne].
  - rewrite Ee, rest_end by lia. replace (f_len f - k - n) with 0 by lia. done.
  - rewrite rest_lt, layout_cons by lia. do 3 f_equal. lia.
Qed.

Definition keeps l k out l' k' out' : Prop := ∃ x, lays x x l k out l' k' out'.
Lemma keeps_refl l k out : keeps l k out l k out.
Proof. exists []. apply lays_refl. Qed.
Lemma keeps_trans l k out l1 k1 out1 l2 k2 out2 : keeps l k out l1 k1 out1 → keeps l1 k1 out1 l2 k2 out2 → keeps l k out l2 k2 out2.
Proof. intros [x Hx] [y Hy]. exists (x ++ y). by eapply lays_trans. Qed.
Lemma keeps_run q l out : keeps (q ++ l) 0 out l 0 (out ++ q).
Proof. exists (layout q). split; [by rewrite !rest_0, layout_app|]. by exists q. Qed.
(** Cells that are visible are deleted by [ts]. *)
Definition struck (ts : Lamport) (c : LaidCell) : LaidCell := if a_visible c then MkLaid (a_cell c) (a_deletions c ++ [ts]) false else c.
Definition hides ts l k out l' k' out' : Prop := ∃ x, lays x (struck ts <$> x) l k out l' k' out'.
Lemma hides_refl ts l k out : hides ts l k out l k out.
Proof. exists []. apply lays_refl. Qed.
Lemma hides_trans ts l k out l1 k1 out1 l2 k2 out2 : hides ts l k out l1 k1 out1 → hides ts l1 k1 out1 l2 k2 out2 → hides ts l k out l2 k2 out2.
Proof. intros [x Hx] [y Hy]. exists (x ++ y). rewrite fmap_app. by eapply lays_trans. Qed.

Section Integrate.
(** [u] says which edits are undone in the version. *)
Context (v : Global) (u : Lamport → bool) (ts : Lamport).
Definition a_seen (c : LaidCell) : bool := observed v (a_stamp c).
Definition a_was (c : LaidCell) : bool :=
  a_seen c && negb (u (a_stamp c)) && forallb (λ d, negb (observed v d) || u d) (a_deletions c).
Definition hide (c : LaidCell) : LaidCell := if a_was c then MkLaid (a_cell c) (a_deletions c ++ [ts]) false else c.
Definition fresh_cells_of (off n : nat) : list LaidCell := (λ i, MkLaid (ts, i) [] true) <$> seq off n.

(** The shortest prefix with [n] seen cells, and what follows it. *)
Fixpoint take_seen (n : nat) (L : list LaidCell) : list LaidCell * list LaidCell :=
  match L with
  | [] => ([], [])
  | c :: L' => if n =? 0 then ([], L) else let '(x, y) := take_seen (if a_seen c then n - 1 else n) L' in (c :: x, y)
  end.
(** The cells at the front with a greater time stamp. *)
Fixpoint pass_greater (L : list LaidCell) : list LaidCell * list LaidCell :=
  match L with
  | [] => ([], [])
  | c :: L' => if lt_b ts (a_stamp c) then let '(x, y) := pass_greater L' in (c :: x, y) else ([], L)
  end.

(** [o] seen cells come before [L]; [off] bytes have been inserted. *)
Fixpoint integrate (edits : list (nat * nat * list N)) (off o : nat) (L : list LaidCell) : list LaidCell :=
  match edits with
  | [] => L
  | (s, e, x) :: edits =>
      let '(kept, L) := take_seen (s - o) L in
      let '(greater, L) := pass_greater L in
      let '(range, L) := take_seen (e - s) L in
      kept ++ greater ++ fresh_cells_of off (length x) ++ (hide <$> range) ++ integrate edits (off + length x) e L
  end.

Definition count_seen (L : list LaidCell) : nat := length (List.filter a_seen L).
Lemma count_seen_app L K : count_seen (L ++ K) = count_seen L + count_seen K.
Proof. unfold count_seen. by rewrite List.filter_app, length_app. Qed.
Definition ends_seen (L : list LaidCell) : Prop := match last L with Some c => a_seen c = true | None => True end.

Lemma take_seen_0 L : take_seen 0 L = ([], L).
Proof. by destruct L. Qed.
(** It is determined by the number of seen cells and the last cell. *)
Lemma take_seen_app n x L : count_seen x = n → ends_seen x → take_seen n (x ++ L) = (x, L).
Proof.
  intros <- He. induction x as [|c x IH] using rev_ind; [by destruct L|]. clear IH. unfold ends_seen in He. rewrite last_snoc in He.
  rewrite count_seen_app, <-app_assoc. replace (count_seen [c]) with 1 by (unfold count_seen; cbn; by rewrite He).
  induction x as [|d x IH]; [cbn; rewrite He; by destruct L|].
  assert (count_seen (d :: x) = (if a_seen d then 1 else 0) + count_seen x) as -> by (unfold count_seen; cbn; by destruct (a_seen d)).
  cbn [app take_seen]. destruct (Nat.eqb_spec ((if a_seen d then 1 else 0) + count_seen x + 1) 0); [lia|].
  replace (if a_seen d then _ else _) with (count_seen x + 1) by (destruct (a_seen d); lia). cbn [app] in IH. by rewrite IH.
Qed.
Lemma pass_greater_app x L : Forall (λ c, lt_b ts (a_stamp c) = true) x →
  match L with [] => True | c :: _ => lt_b ts (a_stamp c) = false end → pass_greater (x ++ L) = (x, L).
Proof.
  intros Hx HL. induction Hx as [|c x Hc _ IH]; cbn; [|by rewrite Hc, IH]. destruct L as [|c L]; [done|]. cbn. by rewrite HL.
Qed.
End Integrate.

(** ** What a local edit means

    When everything has been seen, places are places among all cells. *)
(** Ranges increase, between [o] and [n]. *)
Fixpoint places_ok (o n : nat) (edits : list (nat * nat * list N)) : Prop :=
  match edits with [] => True | (a, e, _) :: edits => o ≤ a ≤ e ∧ e ≤ n ∧ places_ok e n edits end.
Lemma places_from o o' n edits : o' ≤ o → places_ok o n edits → places_ok o' n edits.
Proof. destruct edits as [|[[a e] x] edits]; [done|]. intros Ho (H1 & H2). split; [lia|done]. Qed.
Fixpoint overlay (ts : Lamport) (edits : list (nat * nat * list N)) (off o : nat) (L : list LaidCell) : list LaidCell :=
  match edits with
  | [] => L
  | (a, e, x) :: edits =>
      take (a - o) L ++ fresh_cells_of ts off (length x) ++ (struck ts <$> take (e - a) (drop (a - o) L)) ++
      overlay ts edits (off + length x) e (drop (e - o) L)
  end.
Lemma overlay_step ts a e x edits off o K R T : o ≤ a ≤ e → length K = a - o → length R = e - a →
  overlay ts ((a, e, x) :: edits) off o (K ++ R ++ T) =
  K ++ fresh_cells_of ts off (length x) ++ (struck ts <$> R) ++ overlay ts edits (off + length x) e T.
Proof.
  intros Ho HK HR. cbn [overlay]. rewrite take_app_length', drop_app_length', take_app_length' by done.
  do 4 f_equal. rewrite app_assoc. apply drop_app_length'. rewrite length_app. lia.
Qed.
Lemma overlay_past ts edits off K L n : places_ok (length K) n edits →
  overlay ts edits off 0 (K ++ L) = K ++ overlay ts edits off (length K) L.
Proof.
  destruct edits as [|[[a e] x] edits]; [done|]. intros (Ha & He & _). cbn [overlay].
  rewrite take_app, drop_app, !Nat.sub_0_r, (take_ge K), (drop_ge K), (drop_app_ge K) by lia. by rewrite <-app_assoc.
Qed.
Lemma layout_length l : length (layout l) = visible_len l + deleted_len l.
Proof.
  induction l as [|f l IH]; [done|]. rewrite layout_cons, length_app, laid_length, IH.
  change (visible_len (f :: l)) with ((if f_visible f then f_len f else 0) + visible_len l).
  change (deleted_len (f :: l)) with ((if f_visible f then 0 else f_len f) + deleted_len l). destruct (f_visible f); lia.
Qed.
(** An overlay has all the old cells and the new ones, and hidden cells stay
    hidden, in their order. *)
Definition a_hidden (c : LaidCell) : bool := negb (a_visible c).
Lemma struck_cells ts (L : list LaidCell) : a_cell <$> (struck ts <$> L) = a_cell <$> L.
Proof. rewrite <-list_fmap_compose. apply list_fmap_ext. intros i c _. unfold Basics.compose, struck. by destruct (a_visible c). Qed.
Lemma fresh_cells_cells ts off n : a_cell <$> fresh_cells_of ts off n = pair ts <$> seq off n.
Proof. unfold fresh_cells_of. by rewrite <-list_fmap_compose. Qed.
Lemma cut_in_three (L : list LaidCell) o a e : o ≤ a ≤ e → L = take (a - o) L ++ take (e - a) (drop (a - o) L) ++ drop (e - o) L.
Proof.
  intros H. rewrite <-(take_drop (a - o) L) at 1. f_equal. rewrite <-(take_drop (e - a) (drop (a - o) L)) at 1. f_equal.
  rewrite drop_drop. f_equal. lia.
Qed.
Lemma overlay_cells ts n edits off o L : places_ok o n edits →
  a_cell <$> overlay ts edits off o L ≡ₚ (a_cell <$> L) ++ (pair ts <$> seq off (length (concat (snd <$> edits)))).
Proof.
  revert off o L. induction edits as [|[[a e] x] edits IH]; intros off o L; [by rewrite app_nil_r|]. intros (Ha & He & Hr). cbn [overlay].
  rewrite !fmap_app, struck_cells, fresh_cells_cells, (IH _ _ _ Hr). rewrite (cut_in_three L o a e Ha) at 4. rewrite !fmap_app.
  cbn [fmap list_fmap snd concat]. change (list_fmap _ _ snd edits) with (snd <$> edits). rewrite length_app, seq_app, fmap_app. solve_Permutation.
Qed.
Lemma struck_hidden ts (L : list LaidCell) : sublist (a_cell <$> List.filter a_hidden L) (a_cell <$> List.filter a_hidden (struck ts <$> L)).
Proof.
  induction L as [|c L IH]; [constructor|]. unfold a_hidden, struck in *. cbn. destruct (a_visible c) eqn:E; cbn; [by constructor|].
  rewrite E. cbn. by constructor.
Qed.
Lemma overlay_hidden ts n edits off o L : places_ok o n edits →
  sublist (a_cell <$> List.filter a_hidden L) (a_cell <$> List.filter a_hidden (overlay ts edits off o L)).
Proof.
  revert off o L. induction edits as [|[[a e] x] edits IH]; intros off o L; [done|]. intros (Ha & He & Hr). cbn [overlay].
  rewrite (cut_in_three L o a e Ha) at 1. rewrite !List.filter_app, !fmap_app. apply sublist_app; [done|]. apply sublist_inserts_l.
  apply sublist_app; [apply struck_hidden|by apply IH].
Qed.
(** The number of cells before the rest. *)
Lemma rest_place p l k : k = 0 ∨ (∃ f l', l = f :: l' ∧ k ≤ f_len f) →
  length (layout (rest l k)) + (visible_len p + deleted_len p + k) = length (layout (p ++ l)).
Proof.
  rewrite layout_app, length_app, (layout_length p). intros [->|(f & l' & -> & Hk)]; [rewrite rest_0; lia|].
  destruct (Nat.eq_dec (f_len f) 0) as [E|Hne].
  - assert (k = 0) as -> by lia. rewrite rest_0. lia.
  - rewrite layout_cons, length_app, laid_length. destruct (Nat.eq_dec k (f_len f)) as [->|Hlt]; [rewrite rest_end by lia; lia|].
    rewrite rest_lt, layout_cons, length_app, laid_length by lia. cbn. lia.
Qed.

(** * Concurrent edits commute

    [integrate] is a sequence of steps, each of which hides the cells of a
    range and inserts cells at its start; steps of edits that have not seen
    each other commute, up to the order of the deletions of a cell. *)
(** ** Layouts up to the order of deletions *)
Definition same_laid (c d : LaidCell) : Prop :=
  a_cell c = a_cell d ∧ a_visible c = a_visible d ∧ a_deletions c ≡ₚ a_deletions d.
#[export] Instance same_laid_equivalence : Equivalence same_laid.
Proof.
  split.
  - by intros c.
  - intros c d (? & ? & H). split_and!; [done|done|by symmetry].
  - intros c d e (? & ? & H) (? & ? & ?). split_and!; [congruence|congruence|]. by rewrite H.
Qed.
Definition same_layout : relation (list LaidCell) := Forall2 same_laid.
#[export] Instance same_layout_equivalence : Equivalence same_layout.
Proof. apply _. Qed.
#[export] Instance app_same_layout : Proper (same_layout ==> same_layout ==> same_layout) app.
Proof. intros L L' HL K K' HK. by apply Forall2_app. Qed.
Lemma same_stamp c d : same_laid c d → a_stamp c = a_stamp d.
Proof. intros (E & _). unfold a_stamp. by rewrite E. Qed.
Lemma same_shown L K : same_layout L K → a_cell <$> List.filter a_visible L = a_cell <$> List.filter a_visible K.
Proof.
  induction 1 as [|c d L K (E & Ev & _) _ IH]; [done|]. cbn. rewrite Ev. destruct (a_visible d); [|done]. cbn. by rewrite E, IH.
Qed.
Lemma same_cells L K : same_layout L K → a_cell <$> L = a_cell <$> K.
Proof. induction 1 as [|c d L K (E & _) _ IH]; [done|]. cbn. by rewrite E, IH. Qed.

(** ** Single steps *)
Section Step.
Context (v : Global) (u : Lamport → bool) (ts : Lamport).
(** The cells [new] come after [n] seen cells and the greater cells there. *)
Fixpoint ins (n : nat) (new L : list LaidCell) : list LaidCell :=
  match L with
  | [] => new
  | c :: L' =>
      if n =? 0 then if lt_b ts (a_stamp c) then c :: ins 0 new L' else new ++ L
      else c :: ins (if a_seen v c then n - 1 else n) new L'
  end.
(** The cells from the [a]th seen one to the [e]th are hidden. *)
Fixpoint hide_between (a e : nat) (L : list LaidCell) : list LaidCell :=
  match L with
  | [] => []
  | c :: L' =>
      (if (a =? 0) && negb (e =? 0) then hide v u ts c else c) ::
      (if a_seen v c then hide_between (a - 1) (e - 1) L' else hide_between a e L')
  end.
Definition step (a e off : nat) (x : list N) (L : list LaidCell) : list LaidCell :=
  ins a (fresh_cells_of ts off (length x)) (hide_between a e L).
Fixpoint steps (edits : list (nat * nat * list N)) (off o : nat) (L : list LaidCell) : list LaidCell :=
  match edits with
  | [] => L
  | (a, e, x) :: edits => step (a - o) (e - o) off x (steps edits (off + length x) o L)
  end.

Lemma count_seen_cons c L : count_seen v (c :: L) = (if a_seen v c then 1 else 0) + count_seen v L.
Proof. unfold count_seen. cbn. by destruct (a_seen v c). Qed.
Lemma hide_stamp c : a_stamp (hide v u ts c) = a_stamp c.
Proof. unfold hide. by destruct (a_was v u c). Qed.
Lemma hide_unseen c : a_seen v c = false → hide v u ts c = c.
Proof. intros H. unfold hide, a_was. by rewrite H. Qed.
Lemma hide_between_0 a L : hide_between a 0 L = L.
Proof.
  revert a. induction L as [|c L IH]; intros a; [done|]. cbn. rewrite andb_false_r. by destruct (a_seen v c); rewrite IH.
Qed.
Lemma hide_between_app a e K L : hide_between a e (K ++ L) = hide_between a e K ++ hide_between (a - count_seen v K) (e - count_seen v K) L.
Proof.
  revert a e. induction K as [|c K IH]; intros a e; [by rewrite !Nat.sub_0_r|]. cbn [app hide_between].
  rewrite count_seen_cons.
  destruct (a_seen v c); rewrite IH; cbn [Nat.add]; [|done].
  by replace (a - S (count_seen v K)) with (a - 1 - count_seen v K) by lia; replace (e - S (count_seen v K)) with (e - 1 - count_seen v K) by lia.
Qed.
Lemma hide_between_before a e K : count_seen v K ≤ a → hide_between a e K = K.
Proof.
  revert a e. induction K as [|c K IH]; intros a e Hk; [done|]. cbn [hide_between].
  rewrite count_seen_cons in Hk. destruct (a_seen v c) eqn:Ec.
  - rewrite IH by lia. destruct (Nat.eqb_spec a 0); [lia|done].
  - rewrite IH by lia. rewrite (hide_unseen c Ec). by destruct (_ && _).
Qed.
Lemma hide_between_all e K : count_seen v K ≤ e → hide_between 0 e K = hide v u ts <$> K.
Proof.
  revert e. induction K as [|c K IH]; intros e Hk; [done|]. cbn [hide_between fmap list_fmap].
  rewrite count_seen_cons in Hk. destruct (a_seen v c) eqn:Ec.
  - rewrite Nat.sub_0_l, IH by lia. by destruct (Nat.eqb_spec e 0); [lia|].
  - rewrite IH by lia. rewrite (hide_unseen c Ec). by destruct (_ && _).
Qed.

Definition stops (L : list LaidCell) : Prop := match L with [] => True | c :: _ => lt_b ts (a_stamp c) = false end.
Lemma ins_stop new L : stops L → ins 0 new L = new ++ L.
Proof. destruct L as [|c L]; cbn; [by rewrite app_nil_r|]. by intros ->. Qed.
Lemma ins_pass n new K L : Forall (λ c, a_seen v c = false ∧ (n ≠ 0 ∨ lt_b ts (a_stamp c) = true)) K → ins n new (K ++ L) = K ++ ins n new L.
Proof.
  intros HK. induction HK as [|c K [Hs Hc] _ IH]; [done|]. cbn. destruct (Nat.eqb_spec n 0) as [->|Hn].
  - destruct Hc as [?|Hc]; [done|]. by rewrite Hc, IH.
  - by rewrite Hs, IH.
Qed.
Lemma ins_seen n new K L : count_seen v K ≤ n → (count_seen v K = n → ends_seen v K) → ins n new (K ++ L) = K ++ ins (n - count_seen v K) new L.
Proof.
  revert n. induction K as [|c K IH]; intros n Hn He; [by rewrite Nat.sub_0_r|]. cbn [app ins].
  pose proof (count_seen_cons c K) as E. rewrite E in Hn, He |- *. assert (n ≠ 0).
  { intros ->. specialize (He ltac:(lia)). unfold ends_seen in He. destruct (last (c :: K)) as [d|] eqn:El; [|by apply last_None in El].
    apply last_Some_elem_of in El. assert (0 < length (List.filter (a_seen v) (c :: K))).
    { assert (d ∈ List.filter (a_seen v) (c :: K)) as Hd by (rewrite list_elem_of_In, List.filter_In, <-list_elem_of_In; done).
      destruct (List.filter _ _); [by apply not_elem_of_nil in Hd|cbn; lia]. }
    unfold count_seen in *. lia. }
  destruct (Nat.eqb_spec n 0); [done|]. rewrite IH.
  - do 2 f_equal. f_equal. destruct (a_seen v c); lia.
  - destruct (a_seen v c); lia.
  - intros EK. assert (He' : ends_seen v (c :: K)) by (apply He; destruct (a_seen v c); lia). unfold ends_seen in *. by destruct K.
Qed.

(** ** [integrate] as steps *)
Lemma take_seen_spec n L : n ≤ count_seen v L → ∃ x y, take_seen v n L = (x, y) ∧ L = x ++ y ∧ count_seen v x = n ∧ ends_seen v x ∧ (n = 0 → x = []).
Proof.
  revert n. induction L as [|c L IH]; intros n Hn.
  - exists [], []. unfold count_seen in *. cbn in *. split_and!; (done || lia).
  - cbn [take_seen]. destruct (Nat.eqb_spec n 0) as [->|Hn0]; [by exists [], (c :: L)|]. rewrite count_seen_cons in Hn.
    destruct (IH (if a_seen v c then n - 1 else n)) as (x & y & -> & -> & Ex & He & H0); [destruct (a_seen v c); lia|].
    exists (c :: x), y. split; [done|]. split; [done|]. split; [rewrite count_seen_cons, Ex; destruct (a_seen v c); lia|]. split; [|done].
    destruct x as [|d x]; [|done]. unfold ends_seen. cbn. destruct (a_seen v c); [done|]. unfold count_seen in Ex. cbn in Ex. lia.
Qed.
Lemma pass_greater_spec L : ∃ x y, pass_greater ts L = (x, y) ∧ L = x ++ y ∧ Forall (λ c, lt_b ts (a_stamp c) = true) x ∧ stops y.
Proof.
  induction L as [|c L (x & y & E & -> & Hx & Hy)]; [by exists [], []|]. cbn [pass_greater]. rewrite E.
  destruct (lt_b ts (a_stamp c)) eqn:Ec; [by exists (c :: x), y; split_and!; [..|constructor|]|by exists [], (c :: x ++ y)].
Qed.
Lemma fresh_stops off n L : stops L → stops (fresh_cells_of ts off n ++ L).
Proof. destruct n; [done|]. intros _. cbn. unfold lt_b. by rewrite cmp_refl. Qed.
Lemma step_stops a e off x L : stops L → stops (step a e off x L).
Proof.
  intros HL. assert (Hh : stops (hide_between a e L)).
  { destruct L as [|c L]; [done|]. cbn in *. by destruct (_ && _); rewrite ?hide_stamp. }
  unfold step. destruct (Nat.eq_dec a 0) as [->|Ha]; [rewrite ins_stop by done; by apply fresh_stops|].
  destruct (hide_between a e L) as [|c K]; [cbn [ins]; rewrite <-(app_nil_r (fresh_cells_of _ _ _)); by apply fresh_stops|]. cbn. by destruct (Nat.eqb_spec a 0).
Qed.
Lemma steps_stops edits off o L : stops L → stops (steps edits off o L).
Proof. revert off. induction edits as [|[[a e] x] edits IH]; intros off HL; [done|]. by apply step_stops, IH. Qed.

(** What the version has seen is older than the edit. *)
Definition older (L : list LaidCell) : Prop := Forall (λ c, a_seen v c = true → lt_b ts (a_stamp c) = false) L.

(** Steps behind a prefix that ends where the first of them may be. *)
Lemma step_behind K G a e off x L : ends_seen v K → Forall (λ c, lt_b ts (a_stamp c) = true ∧ a_seen v c = false) G → count_seen v K ≤ a ≤ e →
  step a e off x (K ++ G ++ L) = K ++ G ++ step (a - count_seen v K) (e - count_seen v K) off x L.
Proof.
  intros HK HG Ha. assert (HG0 : count_seen v G = 0).
  { unfold count_seen. induction HG as [|c G [_ Hs] _ IH]; [done|]. cbn. by rewrite Hs. }
  unfold step. rewrite hide_between_app, (hide_between_before a e K), hide_between_app, (hide_between_before _ _ G), HG0, !Nat.sub_0_r by lia.
  rewrite ins_seen, ins_pass; [done| |lia|done]. eapply Forall_impl; [exact HG|]. intros c [H1 H2]. split; [done|by right].
Qed.
Lemma steps_behind K G o edits off L n : ends_seen v K → Forall (λ c, lt_b ts (a_stamp c) = true ∧ a_seen v c = false) G →
  places_ok (o + count_seen v K) n edits → steps edits off o (K ++ G ++ L) = K ++ G ++ steps edits off (o + count_seen v K) L.
Proof.
  intros HK HG. assert (Hgen : ∀ edits off q, o + count_seen v K ≤ q → places_ok q n edits →
    steps edits off o (K ++ G ++ L) = K ++ G ++ steps edits off (o + count_seen v K) L).
  { clear edits off. induction edits as [|[[a e] x] edits IH]; intros off q Hq; [done|]. intros (Ha & He & Hr). cbn [steps].
    rewrite (IH _ e) by (done || lia). rewrite step_behind by (done || lia). do 3 f_equal; lia. }
  by apply Hgen.
Qed.

Lemma integrate_steps edits off o L : older L → places_ok o (o + count_seen v L) edits →
  integrate v u ts edits off o L = steps edits off o L.
Proof.
  revert off o L. induction edits as [|[[a e] x] edits IH]; intros off o L Hold; [done|]. intros (Ha & He & Hr). cbn [integrate steps].
  destruct (take_seen_spec (a - o) L) as (kept & L1 & -> & -> & Ek & Hk & Hk0); [lia|]. rewrite count_seen_app in *.
  apply Forall_app in Hold as [Hold1 Hold]. destruct (pass_greater_spec L1) as (G & L2 & -> & -> & HG & Hstop).
  rewrite count_seen_app in *. apply Forall_app in Hold as [HoldG Hold].
  assert (HG' : Forall (λ c, lt_b ts (a_stamp c) = true ∧ a_seen v c = false) G).
  { rewrite Forall_forall in HG, HoldG |- *. intros c Hc. split; [by apply HG|]. destruct (a_seen v c) eqn:Es; [|done].
    specialize (HG c Hc). by rewrite (HoldG c Hc Es) in HG. }
  assert (HG0 : count_seen v G = 0).
  { unfold count_seen. clear -HG'. induction HG' as [|c G [_ Hs] _ IH]; [done|]. cbn. by rewrite Hs. }
  destruct (take_seen_spec (e - a) L2) as (range & L3 & -> & -> & Er & Hre & Hr0); [lia|]. apply Forall_app in Hold as [_ Hold]. rewrite count_seen_app in *.
  rewrite (IH _ e L3 Hold) by (replace (e + count_seen v L3) with (o + (count_seen v kept + (count_seen v G + (count_seen v range + count_seen v L3)))) by lia; done).
  set (off2 := off + length x). assert (Es : steps edits off2 o (kept ++ G ++ range ++ L3) = kept ++ G ++ range ++ steps edits off2 e L3).
  { destruct (decide (e = a)) as [->|Hne].
    - assert (range = []) as -> by (apply Hr0; lia). cbn [app]. erewrite steps_behind; [|done|done|]; [do 3 f_equal; lia|].
      replace (o + count_seen v kept) with a by lia. exact Hr.
    - pose proof (steps_behind (kept ++ G ++ range) [] o edits off2 L3) as H. cbn [app] in H. rewrite <-!app_assoc, !count_seen_app in H.
      erewrite H; [do 4 f_equal; lia| |done|].
      + unfold ends_seen in *. rewrite app_assoc, last_app_nonnil; [done|]. intros ->. unfold count_seen in Er. cbn in Er. lia.
      + replace (o + _) with e by lia. exact Hr. }
  rewrite Es, step_behind, Ek by (done || lia). rewrite Nat.sub_diag. do 2 f_equal. unfold step.
  replace (e - o - (a - o)) with (e - a) by lia. rewrite hide_between_app, hide_between_all, Er, Nat.sub_diag, hide_between_0 by lia. rewrite ins_stop; [done|].
  destruct range as [|c range]; cbn in *; [by apply steps_stops|by rewrite hide_stamp].
Qed.
End Step.

(** ** Steps respect the layout up to the order of deletions *)
Section Respect.
Context (v : Global) (u : Lamport → bool) (ts : Lamport).
Lemma was_same c d : same_laid c d → a_was v u c = a_was v u d.
Proof.
  intros H. unfold a_was, a_seen. rewrite (same_stamp c d H). f_equal. destruct H as (_ & _ & H).
  induction H as [|x l k _ IH|x y l|l1 l2 l3 _ IH1 _ IH2]; [done|by cbn; rewrite IH| |congruence].
  cbn. destruct (negb (observed v x) || u x), (negb (observed v y) || u y); done.
Qed.
#[export] Instance hide_same : Proper (same_laid ==> same_laid) (hide v u ts).
Proof.
  intros c d H. unfold hide. rewrite (was_same c d H). destruct H as (E & Ev & Ed). destruct (a_was v u d); [|done].
  split_and!; [done|done|]. cbn. by rewrite Ed.
Qed.
#[export] Instance hide_between_same a e : Proper (same_layout ==> same_layout) (hide_between v u ts a e).
Proof.
  intros L K H. revert a e. induction H as [|c d L K Hc _ IH]; intros a e; [constructor|]. cbn [hide_between].
  unfold a_seen. rewrite (same_stamp c d Hc). constructor; [destruct (_ && _); [by rewrite Hc|done]|].
  destruct (observed v (a_stamp d)); apply IH.
Qed.
#[export] Instance ins_same n new : Proper (same_layout ==> same_layout) (ins v ts n new).
Proof.
  intros L K H. revert n. induction H as [|c d L K Hc HL IH]; intros n; [done|]. cbn [ins]. unfold a_seen. rewrite (same_stamp c d Hc).
  destruct (n =? 0); [destruct (lt_b ts (a_stamp d))|].
  - constructor; [done|apply IH].
  - apply Forall2_app; [done|by constructor].
  - constructor; [done|apply IH].
Qed.
#[export] Instance step_same a e off x : Proper (same_layout ==> same_layout) (step v u ts a e off x).
Proof. intros L K H. unfold step. by rewrite H. Qed.
#[export] Instance steps_same edits off o : Proper (same_layout ==> same_layout) (steps v u ts edits off o).
Proof. revert off. induction edits as [|[[a e] x] edits IH]; intros off L K H; [done|]. by apply step_same, IH. Qed.
End Respect.

(** ** Edits that have not seen each other *)
Lemma was_hide v v' u u' ts c : observed v' ts = false → a_was v' u' (hide v u ts c) = a_was v' u' c.
Proof.
  intros H. unfold hide. destruct (a_was v u c); [|done]. unfold a_was, a_seen, a_stamp. cbn. f_equal. rewrite forallb_app. cbn. by rewrite H, !andb_true_r.
Qed.
Section Commute.
Context (v v' : Global) (u u' : Lamport → bool) (ts ts' : Lamport).
Hypotheses (Hne : ts ≠ ts') (H1 : observed v ts' = false) (H2 : observed v' ts = false).
Abbreviation hide1 := (hide v u ts).
Abbreviation hide2 := (hide v' u' ts').
Lemma hide_comm c : same_laid (hide1 (hide2 c)) (hide2 (hide1 c)).
Proof using H1 H2.
  unfold hide at 1 3. rewrite (was_hide v' v u' u ts' c H1), (was_hide v v' u u' ts c H2). unfold hide.
  destruct (a_was v u c), (a_was v' u' c); cbn; [|done..]. split_and!; [done|done|]. cbn.
  rewrite <-!app_assoc. apply Permutation_app_head, Permutation_swap.
Qed.
Lemma hide_between_comm a e b d L :
  same_layout (hide_between v u ts a e (hide_between v' u' ts' b d L)) (hide_between v' u' ts' b d (hide_between v u ts a e L)).
Proof using H1 H2.
  revert a e b d. induction L as [|c L IH]; intros a e b d; [done|]. cbn [hide_between].
  set (x := (a =? 0) && negb (e =? 0)). set (y := (b =? 0) && negb (d =? 0)).
  assert (E1 : a_seen v (if y then hide2 c else c) = a_seen v c) by (destruct y; [unfold a_seen; by rewrite hide_stamp|done]).
  assert (E2 : a_seen v' (if x then hide1 c else c) = a_seen v' c) by (destruct x; [unfold a_seen; by rewrite hide_stamp|done]).
  rewrite E1, E2. constructor; [destruct x, y; [apply hide_comm|done..]|]. destruct (a_seen v c), (a_seen v' c); apply IH.
Qed.
(** Hiding and inserting. *)
Lemma ins_hide n new b d L : Forall (λ c, a_seen v' c = false) new →
  ins v ts n new (hide_between v' u' ts' b d L) = hide_between v' u' ts' b d (ins v ts n new L).
Proof using.
  intros Hnew. assert (Hb : ∀ b d K, hide_between v' u' ts' b d (new ++ K) = new ++ hide_between v' u' ts' b d K).
  { clear b d. intros b d K. induction Hnew as [|c l Hc _ IH]; [done|]. cbn [app hide_between]. rewrite Hc, IH.
    rewrite (hide_unseen _ _ _ c Hc). by destruct (_ && _). }
  revert n b d. induction L as [|c L IH]; intros n b d.
  - specialize (Hb b d []). cbn in *. by rewrite !app_nil_r in Hb.
  - cbn [hide_between ins]. set (y := (b =? 0) && negb (d =? 0)).
    assert (E : a_stamp (if y then hide2 c else c) = a_stamp c) by (destruct y; [by rewrite hide_stamp|done]).
    assert (E1 : a_seen v (if y then hide2 c else c) = a_seen v c) by (unfold a_seen; by rewrite E). rewrite E, E1.
    destruct (n =? 0); [destruct (lt_b ts (a_stamp c))|].
    + cbn [hide_between]. fold y. f_equal. destruct (a_seen v' c); apply IH.
    + rewrite Hb. f_equal.
    + cbn [hide_between]. fold y. f_equal. destruct (a_seen v' c); apply IH.
Qed.
End Commute.

(** New cells of one edit, for the version of another. *)
Definition unseen_new (v : Global) (ts : Lamport) (new : list LaidCell) : Prop := Forall (λ c, a_stamp c = ts ∧ a_seen v c = false) new.
Lemma ins_over v ts ts' new new' n L : unseen_new v ts' new' → n ≠ 0 ∨ lt_b ts ts' = true →
  ins v ts n new (new' ++ L) = new' ++ ins v ts n new L.
Proof. intros Hnew Hn. apply ins_pass. eapply Forall_impl; [exact Hnew|]. by intros c [-> Hs]. Qed.
Lemma new_stops v ts ts' new L : unseen_new v ts new → lt_b ts' ts = false → stops ts' L → stops ts' (new ++ L).
Proof. intros Hnew Hts HL. destruct Hnew as [|c new [Hc _] _]; [done|]. cbn. by rewrite Hc. Qed.
Lemma lt_either (a b : Lamport) : a ≠ b → (lt_b a b = true ∧ lt_b b a = false) ∨ (lt_b a b = false ∧ lt_b b a = true).
Proof.
  intros Hne. assert (H : ∀ a b : Lamport, olt a b → lt_b a b = true ∧ lt_b b a = false).
  { clear. intros a b H. unfold lt_b. assert (cmp b a = Gt) as -> by (by apply cmp_gt_lt). by rewrite H. }
  destruct (olt_trichotomy a b) as [Hab|[?|Hba]]; [left; by apply H|done|right]. by destruct (H b a Hba).
Qed.
Lemma ins_two v v' ts ts' new new' L : ts ≠ ts' → unseen_new v' ts new → unseen_new v ts' new' → stops ts L → stops ts' L →
  ins v ts 0 new (new' ++ L) = ins v' ts' 0 new' (new ++ L).
Proof.
  intros Hne Hnew Hnew' HL HL'. destruct (lt_either ts ts' Hne) as [[E1 E2]|[E1 E2]].
  - rewrite (ins_over v ts ts' new new'), ins_stop by (done || by right). rewrite (ins_stop v' ts' new'); [done|]. by eapply new_stops.
  - rewrite (ins_over v' ts' ts new' new), (ins_stop v' ts') by (done || by right). rewrite (ins_stop v ts new); [done|]. by eapply new_stops.
Qed.

Lemma ins_comm v v' ts ts' new new' n n' L :
  ts ≠ ts' → unseen_new v' ts new → unseen_new v ts' new' → n ≤ count_seen v L → n' ≤ count_seen v' L →
  ins v ts n new (ins v' ts' n' new' L) = ins v' ts' n' new' (ins v ts n new L).
Proof.
  intros Hne Hnew Hnew'. revert n n'. induction L as [|c L IH]; intros n n' Hn Hn'.
  - unfold count_seen in *. cbn in *. assert (n = 0) as -> by lia. assert (n' = 0) as -> by lia.
    pose proof (ins_two v v' ts ts' new new' [] Hne Hnew Hnew' I I) as H. by rewrite !app_nil_r in H.
  - assert (Hc : ∀ w m, m ≤ count_seen w (c :: L) → (if a_seen w c then m - 1 else m) ≤ count_seen w L).
    { intros w m Hm. rewrite count_seen_cons in Hm. destruct (a_seen w c); lia. }
    cbn [ins]. destruct (Nat.eqb_spec n 0) as [->|Hn0], (Nat.eqb_spec n' 0) as [->|Hn0'].
    + destruct (lt_b ts (a_stamp c)) eqn:Hg, (lt_b ts' (a_stamp c)) eqn:Hg'.
      * cbn [ins Nat.eqb]. rewrite Hg, Hg'. f_equal. apply IH; lia.
      * assert (lt_b ts ts' = true) as Hlt.
        { destruct (lt_either ts ts' Hne) as [[? _]|[_ Hlt]]; [done|]. unfold lt_b in Hlt, Hg, Hg'. exfalso.
          destruct (cmp ts' ts) eqn:E1; try done. destruct (cmp ts (a_stamp c)) eqn:E2; try done.
          assert (olt ts' (a_stamp c)) as E3 by (by eapply olt_trans). unfold olt in E3. by rewrite E3 in Hg'. }
        rewrite (ins_over v ts ts' new new') by (done || by right). cbn [ins Nat.eqb]. by rewrite Hg, Hg'.
      * assert (lt_b ts' ts = true) as Hlt.
        { destruct (lt_either ts ts' Hne) as [[Hlt _]|[_ ?]]; [|done]. unfold lt_b in Hlt, Hg, Hg'. exfalso.
          destruct (cmp ts ts') eqn:E1; try done. destruct (cmp ts' (a_stamp c)) eqn:E2; try done.
          assert (olt ts (a_stamp c)) as E3 by (by eapply olt_trans). unfold olt in E3. by rewrite E3 in Hg. }
        rewrite (ins_over v' ts' ts new' new) by (done || by right). cbn [ins Nat.eqb]. by rewrite Hg, Hg'.
      * by apply ins_two.
    + destruct (lt_b ts (a_stamp c)) eqn:Hg.
      * cbn [ins Nat.eqb]. rewrite Hg. destruct (Nat.eqb_spec n' 0); [done|]. f_equal. apply IH; [lia|by apply Hc].
      * rewrite (ins_over v' ts' ts new' new) by (done || by left). cbn [ins Nat.eqb]. rewrite Hg. by destruct (Nat.eqb_spec n' 0).
    + destruct (lt_b ts' (a_stamp c)) eqn:Hg.
      * cbn [ins Nat.eqb]. rewrite Hg. destruct (Nat.eqb_spec n 0); [done|]. f_equal. apply IH; [by apply Hc|lia].
      * rewrite (ins_over v ts ts' new new') by (done || by left). cbn [ins Nat.eqb]. rewrite Hg. by destruct (Nat.eqb_spec n 0).
    + cbn [ins]. destruct (Nat.eqb_spec n 0), (Nat.eqb_spec n' 0); try done. f_equal. apply IH; by apply Hc.
Qed.

(** ** Counts and stamps after a step *)
Section After.
Context (v : Global) (u : Lamport → bool) (ts : Lamport).
Lemma count_seen_hide w a e L : count_seen w (hide_between v u ts a e L) = count_seen w L.
Proof.
  revert a e. induction L as [|c L IH]; intros a e; [done|]. cbn [hide_between]. rewrite !count_seen_cons. unfold a_seen at 1.
  assert (a_stamp (if (a =? 0) && negb (e =? 0) then hide v u ts c else c) = a_stamp c) as -> by (by destruct (_ && _); rewrite ?hide_stamp).
  unfold a_seen. f_equal. destruct (observed v (a_stamp c)); apply IH.
Qed.
Lemma count_seen_ins w n new L : count_seen w (ins v ts n new L) = count_seen w new + count_seen w L.
Proof.
  revert n. induction L as [|c L IH]; intros n; [unfold count_seen; cbn; lia|]. cbn [ins].
  destruct (n =? 0); [destruct (lt_b ts (a_stamp c))|]; rewrite ?count_seen_app, !count_seen_cons, ?IH; lia.
Qed.
Lemma count_seen_step w a e off x L : count_seen w L ≤ count_seen w (step v u ts a e off x L).
Proof. unfold step. rewrite count_seen_ins, count_seen_hide. lia. Qed.
Lemma count_seen_steps w edits off o L : count_seen w L ≤ count_seen w (steps v u ts edits off o L).
Proof.
  revert off. induction edits as [|[[a e] x] edits IH]; intros off; [done|]. cbn [steps].
  etrans; [apply (IH (off + length x))|apply count_seen_step].
Qed.
Lemma stamps_steps (P : Lamport → Prop) edits off o L : P ts → Forall (λ c, P (a_stamp c)) L → Forall (λ c, P (a_stamp c)) (steps v u ts edits off o L).
Proof.
  intros Hts HL. revert off. induction edits as [|[[a e] x] edits IH]; intros off; [done|]. cbn [steps]. unfold step.
  assert (Hh : ∀ a e K, Forall (λ c, P (a_stamp c)) K → Forall (λ c, P (a_stamp c)) (hide_between v u ts a e K)).
  { clear -ts. intros a e K HK. revert a e. induction HK as [|c K Hc _ IH]; intros a e; [constructor|]. cbn [hide_between].
    constructor; [by destruct (_ && _); rewrite ?hide_stamp|]. destruct (a_seen v c); apply IH. }
  assert (Hn : Forall (λ c, P (a_stamp c)) (fresh_cells_of ts off (length x))).
  { unfold fresh_cells_of. rewrite Forall_fmap. apply Forall_forall. done. }
  specialize (Hh (a - o) (e - o) _ (IH (off + length x))). revert Hn Hh. generalize (fresh_cells_of ts off (length x)) as new.
  generalize (hide_between v u ts (a - o) (e - o) (steps v u ts edits (off + length x) o L)) as K. generalize (a - o) as n.
  intros n K new Hn HK. revert n. induction HK as [|c K Hc HK IHK]; intros n; [done|]. cbn [ins].
  destruct (n =? 0); [destruct (lt_b ts (a_stamp c))|].
  - by constructor.
  - apply Forall_app. split; [done|by constructor].
  - by constructor.
Qed.
End After.

Lemma places_mono o n n' edits : n ≤ n' → places_ok o n edits → places_ok o n' edits.
Proof.
  intros Hn. revert o. induction edits as [|[[a e] x] edits IH]; intros o; [done|]. cbn. intros (H1 & H2 & H3).
  split; [done|]. split; [lia|by apply IH].
Qed.
Lemma fresh_unseen v ts off n : observed v ts = false → unseen_new v ts (fresh_cells_of ts off n).
Proof. intros H. unfold unseen_new, fresh_cells_of. rewrite Forall_fmap. apply Forall_forall. done. Qed.

Section Concurrent.
Context (v v' : Global) (u u' : Lamport → bool) (ts ts' : Lamport).
Hypotheses (Hne : ts ≠ ts') (H1 : observed v ts' = false) (H2 : observed v' ts = false).
Lemma step_comm a e off x a' e' off' x' L : a ≤ count_seen v L → a' ≤ count_seen v' L →
  same_layout (step v u ts a e off x (step v' u' ts' a' e' off' x' L)) (step v' u' ts' a' e' off' x' (step v u ts a e off x L)).
Proof using Type*.
  intros Ha Ha'. unfold step. rewrite <-(ins_hide v' v u ts' ts) by (eapply Forall_impl; [by apply (fresh_unseen v ts' off' (length x'))|]; by intros c [_ ?]).
  rewrite (hide_between_comm v v' u u' ts ts') by done.
  rewrite ins_comm by (done || (by apply fresh_unseen) || by rewrite !count_seen_hide).
  rewrite (ins_hide v v' u' ts ts') by (eapply Forall_impl; [by apply (fresh_unseen v' ts off (length x))|]; by intros c [_ ?]). done.
Qed.
Lemma steps_step_comm edits off o q n a' e' off' x' L : o ≤ q → places_ok q n edits → n ≤ o + count_seen v L → a' ≤ count_seen v' L →
  same_layout (steps v u ts edits off o (step v' u' ts' a' e' off' x' L)) (step v' u' ts' a' e' off' x' (steps v u ts edits off o L)).
Proof using Type*.
  revert off q. induction edits as [|[[a e] x] edits IH]; intros off q Hq; [done|]. intros (Ha & He & Hr) Hn Ha'. cbn [steps].
  rewrite (IH (off + length x) e) by (done || lia). apply step_comm.
  - pose proof (count_seen_steps v u ts v edits (off + length x) o L). lia.
  - pose proof (count_seen_steps v u ts v' edits (off + length x) o L). lia.
Qed.
Lemma steps_comm edits edits' off off' o o' q q' n n' L :
  o ≤ q → places_ok q n edits → n ≤ o + count_seen v L → o' ≤ q' → places_ok q' n' edits' → n' ≤ o' + count_seen v' L →
  same_layout (steps v u ts edits off o (steps v' u' ts' edits' off' o' L)) (steps v' u' ts' edits' off' o' (steps v u ts edits off o L)).
Proof using Type*.
  intros Hq Hp Hn. revert off' q'. induction edits' as [|[[a e] x] edits' IH]; intros off' q' Hq'; [done|]. intros (Ha & He & Hr) Hn'. cbn [steps].
  rewrite (steps_step_comm edits off o q n) by (done || (etrans; [exact Hn|]; pose proof (count_seen_steps v' u' ts' v edits' (off' + length x) o' L); lia) ||
    (pose proof (count_seen_steps v' u' ts' v' edits' (off' + length x) o' L); lia)).
  by rewrite (IH (off' + length x) e) by (done || lia).
Qed.

(** Integrating two edits that have not seen each other. *)
Lemma integrate_comm edits edits' L :
  older v ts L → older v' ts' L → places_ok 0 (count_seen v L) edits → places_ok 0 (count_seen v' L) edits' →
  same_layout (integrate v u ts edits 0 0 (integrate v' u' ts' edits' 0 0 L)) (integrate v' u' ts' edits' 0 0 (integrate v u ts edits 0 0 L)).
Proof using Type*.
  intros Ho Ho' Hp Hp'. rewrite (integrate_steps v u ts edits 0 0 L), (integrate_steps v' u' ts' edits' 0 0 L) by done.
  rewrite !integrate_steps; [by eapply steps_comm| | | |].
  - apply (stamps_steps v u ts (λ t, observed v' t = true → lt_b ts' t = false)); [by rewrite H2|exact Ho'].
  - eapply places_mono; [|exact Hp']. apply count_seen_steps.
  - apply (stamps_steps v' u' ts' (λ t, observed v t = true → lt_b ts t = false)); [by rewrite H1|exact Ho].
  - eapply places_mono; [|exact Hp]. apply count_seen_steps.
Qed.
End Concurrent.
