(* ===== verification/LocalEdit.v ===== *)
(** * Local edits, step by step

    Every step of [apply_edit_internal] keeps the walk, and adds to the new
    text what it should: the text between two edits as it was, the inserted
    text, and nothing for deleted text. *)
From stdpp Require Import base numbers option list sorting sets.
From Stdlib Require Import Lia.
From S2P Require Import Prelude Clock SumTree SumTreeFacts SumTreeBulk Cursor CursorFacts CursorSeek CursorMove.
From S2P Require Import CursorIter Keyed Locator Patch PatchFacts Utf8 ChunkPointsFacts RopeTree Rope RopeBuild RopeSlice.
From S2P Require Import RopeConvert Fragment Snapshot Document Walk Layout.
#[local] Opaque TREE_BASE av_cap.

Definition seg {A} (s : list A) (a b : nat) : list A := take (b - a) (drop a s).
Section Seg.
Context {A : Type}.
Implicit Types s : list A.
Lemma seg_nil s a : seg s a a = [].
Proof. unfold seg. by rewrite Nat.sub_diag. Qed.
Lemma seg_join s a b c : a ≤ b ≤ c → seg s a b ++ seg s b c = seg s a c.
Proof.
  intros H. unfold seg. replace (c - a) with ((b - a) + (c - b)) by lia. rewrite <-take_take_drop, drop_drop.
  do 3 f_equal. lia.
Qed.
Lemma seg_drop s a b : a ≤ b → seg s a b ++ drop b s = drop a s.
Proof. intros H. unfold seg. replace b with (a + (b - a)) at 2 by lia. by rewrite <-drop_drop, take_drop. Qed.
Lemma take_seg s a b : a ≤ b → take b s = take a s ++ seg s a b.
Proof. intros H. unfold seg. rewrite take_take_drop. f_equal. lia. Qed.
Lemma seg_length s a b : a ≤ b ≤ length s → length (seg s a b) = b - a.
Proof. intros H. unfold seg. rewrite length_take, length_drop. lia. Qed.
Lemma seg_lookup s a b i : a + i < b → seg s a b !! i = s !! (a + i).
Proof. intros H. unfold seg. by rewrite lookup_take_lt, lookup_drop by lia. Qed.
(** Taking parts commutes with a map that gives one element for each. *)
Lemma concat_drop {B} (f : A → list B) s n : Forall (λ x, length (f x) = 1) s → concat (f <$> drop n s) = drop n (concat (f <$> s)).
Proof.
  intros Hs. revert n. induction Hs as [|x s Hx _ IH]; intros [|n]; try done. cbn. rewrite IH.
  destruct (f x) as [|y [|]]; try done.
Qed.
Lemma concat_take {B} (f : A → list B) s n : Forall (λ x, length (f x) = 1) s → concat (f <$> take n s) = take n (concat (f <$> s)).
Proof.
  intros Hs. revert n. induction Hs as [|x s Hx _ IH]; intros [|n]; try done. cbn. rewrite IH.
  destruct (f x) as [|y [|]]; try done.
Qed.
Lemma concat_seg {B} (f : A → list B) s a b : Forall (λ x, length (f x) = 1) s → concat (f <$> seg s a b) = seg (concat (f <$> s)) a b.
Proof. intros Hs. unfold seg. by rewrite concat_take, concat_drop by (done || by apply Forall_drop). Qed.
End Seg.

Section Steps.
Context (W : Lamport → list N) (V D : Rope) (t : fragment_tree) (ts : Lamport).
Hypothesis Hset : setup W V D t ts.
Abbreviation F := (tree_items t).
Abbreviation X := (vis_text W F).
Abbreviation walk := (walk W V D t ts).
Abbreviation text_cursor := (Cursor Fragment FragmentSummary FragmentTextSummary).

(** The visible cells before the edit. *)
Abbreviation C := (vcells F).
Lemma C_bytes : Forall (λ c, length (byte_at W c) = 1) C.
Proof. apply vcells_bytes. by destruct (su_doc W V D t ts Hset). Qed.
Lemma cell_run p q l : F = p ++ q ++ l → vcells q = seg C (visible_len p) (visible_len (p ++ q)).
Proof.
  intros ->. unfold seg. rewrite !vcells_app, visible_len_app, Nat.add_comm, Nat.add_sub, <-(vcells_length p), <-(vcells_length q).
  by rewrite drop_app_length, take_app_length.
Qed.
Lemma cell_window p f l k n : F = p ++ f :: l → f_visible f = true → k + n ≤ f_len f →
  fragment_cells (part f k n) = seg C (visible_len p + k) (visible_len p + k + n).
Proof.
  intros -> Hf Hn. unfold seg. rewrite vcells_app, vcells_cons, Hf, Nat.add_comm, Nat.add_sub, <-(vcells_length p), drop_app_add' by done.
  rewrite drop_app_le, take_app_le by (rewrite ?length_drop, ?fragment_cells_length; lia).
  unfold fragment_cells. rewrite <-fmap_drop, <-fmap_take, drop_seq, take_seq. cbn. do 2 f_equal. lia.
Qed.

(** The cells from [st] to [st'] are taken over as they were. *)
Definition kept_to (st st' : nat) (out out' : list Fragment) : Prop := ∃ ext, out' = out ++ ext ∧ vcells ext = seg C st st'.
Lemma kept_refl st out : kept_to st st out out.
Proof. exists []. by rewrite app_nil_r, seg_nil. Qed.
Lemma kept_trans a b c o1 o2 o3 : a ≤ b ≤ c → kept_to a b o1 o2 → kept_to b c o2 o3 → kept_to a c o1 o3.
Proof.
  intros H (x & -> & Ex) (y & -> & Ey). exists (x ++ y). rewrite app_assoc. split; [done|]. by rewrite vcells_app, Ex, Ey, seg_join.
Qed.
Lemma kept_text st st' out out' : kept_to st st' out out' → vis_text W out' = vis_text W out ++ seg X st st'.
Proof.
  intros (ext & -> & E). rewrite vis_text_app, (vis_text_bytes W ext), E, (vis_text_bytes W F). f_equal. apply concat_seg, C_bytes.
Qed.
Lemma kept_piece p f l k n out st : F = p ++ f :: l → f_visible f = true → k + n ≤ f_len f → st = visible_len p + k →
  ∀ g, f_visible g = true → fragment_cells g = fragment_cells (part f k n) → kept_to st (st + n) out (out ++ [g]).
Proof.
  intros E Hf Hn -> g Hg Ec. exists [g]. split; [done|]. rewrite <-(cell_window p f l k n) by done.
  unfold vcells. cbn. by rewrite Hg, Ec, app_nil_r.
Qed.

Lemma usize_target_monotone a : monotone_target (D := FragmentTextSummary) a F.
Proof.
  intros l1 l2 l3 _. rewrite !measure_text_summary. unfold seek_cmp, usize_fragment_target. cbn [ft_visible].
  rewrite visible_len_app. unfold cmp, nat_ord.
  destruct (Nat.compare_spec a (visible_len l1 + visible_len l2)), (Nat.compare_spec a (visible_len l1)); cbn; lia.
Qed.

(** ** The rest of a fragment *)
Lemma push_rest_spec p l k out c st b :
  walk p l k out c st b → ids_ok (out ++ l) →
  returns (push_rest c st b) (λ '(c', b'), ∃ p' l' out' st',
    walk p' l' 0 out' c' st' b' ∧ ids_ok (out' ++ l') ∧ st ≤ st' ∧ kept_to st st' out out' ∧
    (k = 0 → st' = st) ∧ (∀ f l0, l = f :: l0 → 0 < k → st' = visible_len p + f_len f) ∧ keeps l k out l' 0 out').
Proof.
  intros Hw Hids. destruct (cursor_reads W V D t ts Hset _ _ _ _ _ _ _ Hw) as (E1 & E2 & E3 & E4).
  pose proof Hw as [Hc Est Hpart Hbd]. unfold push_rest. rewrite E1.
  destruct (Nat.ltb_spec (visible_len p) st) as [Hlt|Hge].
  2: { assert (k = 0) as -> by lia. apply returns_Ret. exists p, l, out, st.
       split; [done|]. split; [done|]. split; [done|]. split; [apply kept_refl|]. split; [done|]. split; [intros; lia|apply keeps_refl]. }
  destruct Hpart as [->|(f & l' & -> & Hf & Hk)]; [lia|]. rewrite Hf in E4. rewrite E4, E3. cbn [head].
  pose proof (walk_items t _ _ _ Hc) as E. destruct (old_frags W V D t ts Hset _ _ E) as [_ [Hfo _]%Forall_cons].
  assert (Hids' : ∀ g, f_id g = f_id f → ids_ok ((out ++ [g]) ++ l')).
  { intros g Eg. unfold ids_ok in *. rewrite !fmap_app in *. cbn [fmap list_fmap] in *. rewrite Eg.
    rewrite <-!app_assoc in *. done. }
  destruct (Nat.ltb_spec st (visible_len p + f_len f)) as [Hlt2|Hge2].
  - cbn [unwrap]. rewrite !usize_sub_ok by lia. replace (visible_len p + f_len f - st) with (f_len f - k) by lia.
    replace (st - visible_len p) with k by lia. rewrite (part_of_ok W) by (done || lia). cbn [part f_visible]. rewrite Hf.
    fold (part f k (f_len f - k)). set (g := part f k (f_len f - k)).
    destruct (window W V D t ts Hset p f l' k (f_len f - k) E Hf ltac:(lia)) as (Ewin & _ & Hlen).
    destruct (window W V D t ts Hset p f l' (f_len f) 0 E Hf ltac:(lia)) as (_ & Eb2 & _).
    assert (Etg : text_of W g = seg X st (visible_len p + f_len f)).
    { unfold g, seg. rewrite text_of_part, <-Ewin by lia. rewrite <-Est. f_equal. lia. }
    assert (Eend : st + (f_len f - k) = visible_len p + f_len f) by lia.
    destruct (push_visible W V D t ts Hset p f l' k (f_len f - k) out c st b b g Hw Hf) as (b' & -> & Hw'); try done; try lia.
    + rewrite Eend, Eb2, <-(text_of_length W f Hfo). apply str_boundary_end.
    + split_and!; [done|done|exists k; cbn; split; lia|by left].
    + rewrite Eend, vis_text_snoc. cbn [g part f_visible]. rewrite Hf. fold g. rewrite Etg, (take_seg X st) by lia.
      apply rewrites_keep. by destruct Hw.
    + rewrite slices_of_none, app_nil_r; [done|]. constructor; [|constructor].
      apply (untouched W V D t ts Hset f). rewrite E. apply elem_of_app. right. by left.
    + replace (k + (f_len f - k)) with (f_len f) in Hw' by lia. rewrite Eend in Hw'.
      destruct (walk_next W V D t ts Hset _ _ _ _ _ _ _ Hw' Hf) as (c' & -> & Hw2). apply returns_Ret.
      exists (p ++ [f]), l', (out ++ [g]), (visible_len p + f_len f). split; [done|]. split; [by apply Hids'|]. split; [lia|].
      split; [rewrite <-Eend; by eapply (kept_piece p f l' k); [| |lia| |..]|]. split; [lia|].
      split; [by intros ?? [= <- <-] _|]. exists (laid g). apply (lays_piece f l' k (f_len f - k) g); [lia|lia|done|].
      by rewrite rest_0, (Nat.add_comm k), Nat.sub_add, rest_end by lia.
  - assert (k = f_len f) as -> by lia. destruct (walk_next W V D t ts Hset _ _ _ _ _ _ _ Hw Hf) as (c' & -> & Hw2).
    apply returns_Ret. exists (p ++ [f]), l', out, st. split; [done|]. split.
    { eapply ids_ok_sublist; [|exact Hids]. apply sublist_app; [done|]. by constructor. }
    split; [done|]. split; [apply kept_refl|]. split; [done|]. split; [intros ?? [= <- <-] _; lia|].
    exists []. split; [by rewrite rest_0, rest_end by lia|]. exists []. by rewrite app_nil_r.
Qed.

(** ** Jumping ahead *)
Lemma advance_visible a p l :
  visible_len p ≤ a →
  ∃ q l', advance (target_past (D := FragmentTextSummary) a Right) p l = (p ++ q, l') ∧ l = q ++ l' ∧
    visible_len (p ++ q) ≤ a ∧ ∀ f l2, l' = f :: l2 → f_visible f = true ∧ a < visible_len (p ++ q) + f_len f.
Proof.
  revert p. induction l as [|f l IH]; intros p Hp; cbn [advance].
  - exists [], []. rewrite app_nil_r. done.
  - unfold target_past at 1. rewrite measure_text_summary. unfold seek_cmp, usize_fragment_target. cbn [ft_visible].
    rewrite visible_len_snoc. unfold cmp, nat_ord.
    assert (Hstop : a < visible_len p + (if f_visible f then f_len f else 0) →
      ∃ q l', (p, f :: l) = (p ++ q, l') ∧ f :: l = q ++ l' ∧ visible_len (p ++ q) ≤ a ∧
        ∀ f' l2, l' = f' :: l2 → f_visible f' = true ∧ a < visible_len (p ++ q) + f_len f').
    { intros Hlt. exists [], (f :: l). rewrite app_nil_r. split_and!; try done. intros f' l2 [= <- <-].
      destruct (f_visible f); [done|lia]. }
    assert (Hgo : visible_len p + (if f_visible f then f_len f else 0) ≤ a →
      ∃ q l', advance (target_past (D := FragmentTextSummary) a Right) (p ++ [f]) l = (p ++ q, l') ∧ f :: l = q ++ l' ∧
        visible_len (p ++ q) ≤ a ∧ ∀ f' l2, l' = f' :: l2 → f_visible f' = true ∧ a < visible_len (p ++ q) + f_len f').
    { intros Hle. destruct (IH (p ++ [f])) as (q & l' & E1 & E2 & E3 & E4); [by rewrite visible_len_snoc|].
      exists (f :: q), l'. rewrite <-app_assoc in *. cbn [app] in *. split_and!; try done. by rewrite E2. }
    destruct (Nat.compare_spec a (visible_len p + (if f_visible f then f_len f else 0))); [apply Hgo; lia|by apply Hstop|apply Hgo; lia].
Qed.

(** The place [a] is here, or in the fragment at the cursor. *)
Definition reaches (a : nat) (p l : list Fragment) (st : nat) : Prop :=
  st = a ∨ ∃ f l', l = f :: l' ∧ f_visible f = true ∧ st ≤ a ≤ visible_len p + f_len f.

Lemma X_length : length X = visible_len F.
Proof. apply vis_text_length. by destruct (su_doc W V D t ts Hset). Qed.

Lemma walk_start_le p l k out c st b : walk p l k out c st b → st ≤ length X.
Proof.
  intros [Hc Est Hpart]. pose proof (walk_items t _ _ _ Hc) as E. destruct (consumed_le t p l k E Hpart) as [L1 L2].
  rewrite X_length. lia.
Qed.

Lemma skip_to_spec a p l k out c st b :
  walk p l k out c st b → ids_ok (out ++ l) → st ≤ a ≤ length X →
  returns (skip_to a c st b) (λ '(c', st', b'), ∃ p' l' k' out',
    walk p' l' k' out' c' st' b' ∧ ids_ok (out' ++ l') ∧ st ≤ st' ∧ reaches a p' l' st' ∧ kept_to st st' out out' ∧ keeps l k out l' k' out').
Proof.
  intros Hw Hids Ha. destruct (cursor_reads W V D t ts Hset _ _ _ _ _ _ _ Hw) as (E1 & E2 & E3 & E4).
  pose proof Hw as [Hc Est Hpart Hbd]. unfold skip_to. rewrite E4.
  destruct (Nat.ltb_spec (visible_len p + match l with f :: _ => if f_visible f then f_len f else 0 | [] => 0 end) a) as [Hlt|Hge].
  - destruct (push_rest_spec p l k out c st b Hw Hids) as ([c1 b1] & -> & p1 & l1 & out1 & st1 & Hw1 & Hids1 & Hst1 & Et1 & Hk0 & Hk1 & Hlay1).
    assert (Hle1 : st1 ≤ a).
    { destruct k as [|k]; [rewrite Hk0 by done; lia|]. destruct Hpart as [?|(f & l' & -> & Hf & Hk)]; [lia|].
      rewrite (Hk1 f l' eq_refl) by lia. rewrite Hf in Hlt. lia. }
    pose proof (su_tree W V D t ts Hset) as Ht. pose proof (su_height W V D t ts Hset) as Hh. pose proof (F_valid W V D t ts Hset) as Hv.
    pose proof Hw1 as [Hc1 Est1]. rewrite Nat.add_0_r in Est1.
    destruct (advance_visible a p1 l1) as (q & l' & Ea & -> & Hpa & Hpl); [lia|].
    destruct (slice_spec t Ht Hv Hh a Right) with (c := c1) (p := p1) (l := q ++ l') as ([s c2] & -> & Hs);
      [apply usize_target_monotone|by left| |].
    { rewrite measure_text_summary. unfold seek_cmp, usize_fragment_target. cbn [ft_visible]. unfold cmp, nat_ord.
      by destruct (Nat.compare_spec a (visible_len p1)); [|lia|]. }
    rewrite Ea in Hs. destruct Hs as (Hc2 & Hws & Ei). apply app_inv_head in Ei.
    destruct (append_run W V D t ts Hset p1 q l' out1 c1 st1 b1 c2 s Hw1 Hc2 Hws (eq_sym Ei)) as (b2 & -> & Hw2).
    apply returns_Ret. destruct (cursor_reads W V D t ts Hset _ _ _ _ _ _ _ Hw2) as (F1 & _). rewrite F1.
    exists (p1 ++ q), l', 0, (out1 ++ q). split; [done|]. split; [by rewrite <-app_assoc|].
    pose proof (walk_items t _ _ _ Hc1) as E. assert (Hmono : st1 ≤ visible_len (p1 ++ q)) by (rewrite visible_len_app; lia).
    split; [lia|]. split.
    + destruct l' as [|f l2]; [|destruct (Hpl f l2 eq_refl); right; exists f, l2; split_and!; (done || lia)].
      left. rewrite X_length, E, app_nil_r in Ha. lia.
    + split; [|eapply keeps_trans; [exact Hlay1|apply keeps_run]].
      eapply kept_trans; [|exact Et1|exists q; split; [done|]]; [lia|]. rewrite Est1. by apply (cell_run p1 q l').
  - apply returns_Ret. exists p, l, k, out. split; [done|]. split; [done|]. split; [done|]. split; [|split; [apply kept_refl|apply keeps_refl]].
    destruct l as [|f l]; [destruct Hpart as [->|(? & ? & ? & _)]; [left; lia|done]|].
    destruct (f_visible f) eqn:Hf; [right; exists f, l; split_and!; (done || lia)|]. left.
    destruct Hpart as [->|(? & ? & [= <- <-] & Hf' & _)]; [lia|congruence].
Qed.

(** ** The part of a fragment before an edit *)
Lemma push_prefix_spec a p l k out c st b :
  walk p l k out c st b → ids_ok (out ++ l) → reaches a p l st → str_is_char_boundary X a = true →
  returns (push_prefix a c st b) (λ '(st', b'), st' = a ∧ ∃ k' out',
    walk p l k' out' c a b' ∧ ids_ok (out' ++ l) ∧ kept_to st a out out' ∧ keeps l k out l k' out').
Proof.
  intros Hw Hids Hr Ha. destruct (cursor_reads W V D t ts Hset _ _ _ _ _ _ _ Hw) as (E1 & E2 & E3 & E4).
  pose proof Hw as [Hc Est Hpart Hbd Hbu]. unfold push_prefix. destruct (Nat.ltb_spec st a) as [Hlt|Hge].
  2: { assert (st = a) as -> by (destruct Hr as [|(? & ? & _ & _ & ?)]; lia). apply returns_Ret. split; [done|].
       exists k, out. split; [done|]. split; [done|]. split; [apply kept_refl|apply keeps_refl]. }
  destruct Hr as [|(f & l' & -> & Hf & Hle)]; [lia|]. rewrite E3. cbn [head unwrap]. rewrite E1, !usize_sub_ok by lia.
  pose proof (walk_items t _ _ _ Hc) as E. destruct (old_frags W V D t ts Hset _ _ E) as [_ [Hfo _]%Forall_cons].
  replace (st - visible_len p) with k by lia. rewrite (part_of_ok W) by (done || lia). cbn [part f_id].
  fold (part f k (a - st)). destruct (builder_reads b out Hbu) as [-> _].
  destruct (between_ids out (f :: l') Hids) as (m & Em & Hm). change (next_id (f :: l')) with (f_id f) in Em. rewrite Em.
  set (g := with_id (part f k (a - st)) m). change (f_visible g) with (f_visible f). rewrite Hf.
  destruct (window W V D t ts Hset p f l' k (a - st) E Hf ltac:(lia)) as (Ewin & _ & Hlen).
  assert (Etg : text_of W g = seg X st a).
  { change (text_of W g) with (text_of W (part f k (a - st))). unfold seg. rewrite text_of_part, <-Ewin by lia. by rewrite <-Est. }
  assert (Eend : st + (a - st) = a) by lia.
  destruct (push_visible W V D t ts Hset p f l' k (a - st) out c st b b g Hw Hf) as (b' & -> & Hw'); try done; try lia.
  - by rewrite Eend.
  - split_and!; [done|done|exists k; cbn; split; lia|by left].
  - rewrite Eend, vis_text_snoc. change (f_visible g) with (f_visible f). rewrite Hf, Etg, (take_seg X st a) by lia.
    apply rewrites_keep. by destruct Hw.
  - rewrite slices_of_none, app_nil_r; [done|]. constructor; [|constructor].
    apply (untouched W V D t ts Hset f). rewrite E. apply elem_of_app. right. by left.
  - apply returns_Ret. split; [done|]. rewrite Eend in Hw'. exists (k + (a - st)), (out ++ [g]). split; [done|]. split.
    + rewrite <-app_assoc. by apply Hm.
    + split; [rewrite <-Eend at 1; by eapply (kept_piece p f l' k); [| |lia| |..]|].
      exists (laid g). by apply (lays_piece f l' k (a - st) g); [lia|lia|..].
Qed.
End Steps.

(** * The text an edit inserts, as new fragments *)
Lemma floor_near s i f : utf8 s → i ≤ length s → is_floor s i f → i - f ≤ 3.
Proof.
  intros Hs Hi (_ & _ & Hf). destruct (utf8_around s i Hs Hi) as (a & b & Ha & _ & Hai & _ & H3 & _).
  destruct (Nat.lt_ge_cases f a) as [Hlt|]; [|lia]. by rewrite Hf in Ha by lia.
Qed.
Lemma utf8_seg s a b : utf8 s → a ≤ b → str_is_char_boundary s a = true → str_is_char_boundary s b = true → utf8 (seg s a b).
Proof.
  intros Hs Hab Ha Hb. destruct (utf8_split s b Hs Hb) as (Ht & _ & Hle). unfold seg.
  replace (take (b - a) (drop a s)) with (drop a (take b s)) by (rewrite skipn_firstn_comm; done).
  apply (utf8_split _ a Ht). unfold str_is_char_boundary in *. destruct (Nat.eqb_spec a 0) as [->|]; [done|].
  destruct (Nat.eq_dec a b) as [->|Hne].
  - rewrite lookup_take_ge by lia. apply Nat.eqb_eq. rewrite length_take. lia.
  - rewrite lookup_take_lt by lia. destruct (lookup_lt_is_Some_2 s a) as [x Ex]; [lia|]. by rewrite Ex in *.
Qed.

(** Where the next piece of a text ends. *)
Lemma piece_end_spec max s off : utf8 s → (4 <= max)%N → off < length s →
  let target_end := N.to_nat (N.min (N.of_nat (length s)) (N.of_nat off + max)) in
  let chunk_end := if target_end =? length s then target_end else str_floor_char_boundary s target_end in
  off < chunk_end ≤ length s ∧ str_is_char_boundary s chunk_end = true.
Proof.
  intros Hu Hmax Hoff target_end. assert (Hte : off < target_end ≤ length s ∧ (target_end = length s ∨ off + 4 ≤ target_end)) by (unfold target_end; lia).
  cbn zeta. destruct (Nat.eqb_spec target_end (length s)) as [E|Hne]; [rewrite E; split; [lia|apply str_boundary_end]|].
  pose proof (str_floor_spec s target_end ltac:(lia)) as Hfl.
  pose proof (floor_near s target_end _ Hu ltac:(lia) Hfl). destruct Hfl as (? & ? & _). split; [lia|done].
Qed.

Section Insert.
Context (W : Lamport → list N) (V D : Rope) (t : fragment_tree) (ts : Lamport).
Hypothesis Hset : setup W V D t ts.
Context (par_chunks : ∀ A : Type, nat → list A → list (list A)).
Hypothesis Hpar : chunks_spec par_chunks.
Context (max_insertion_len : N).
Hypothesis Hmax : (4 <= max_insertion_len)%N.
Abbreviation F := (tree_items t).
Abbreviation X := (vis_text W F).
Abbreviation walk := (walk W V D t ts).

(** [off] bytes of the new text, which is at [nb] in [W ts], are in the
    fragments [news]. *)
Record inserting (out l : list Fragment) (new_text : list N) (b b' : Building) (news : list Fragment) (off : nat) : Prop := {
  i_builder : builder_ok (b_fragments b') (out ++ news);
  i_ids : ids_ok (out ++ news ++ l);
  i_frags : Forall (frag_ok W) news;
  i_inserted : Forall (inserted ts) news;
  i_text : vis_text W news = take off new_text;
  i_cells : cells news = pair ts <$> seq (b_offset b) off;
  i_ropes : b_ropes b' = b_ropes b;
  i_patch : b_patch b' = b_patch b;
  i_insertions : b_insertions b' = b_insertions b ++ (insert_new <$> news);
  i_slices : b_slices b' = b_slices b ++ (slice_of ts <$> news);
  i_offset : b_offset b' = b_offset b + off;
  i_len : off ≤ length new_text;
  i_bound : str_is_char_boundary new_text off = true;
}.

Lemma insertion_step_spec out l new_text b b' news off :
  inserting out l new_text b b' news off → utf8 new_text → small (W ts) →
  b_offset b + length new_text ≤ length (W ts) → seg (W ts) (b_offset b) (b_offset b + length new_text) = new_text →
  off < length new_text →
  ∃ b2 news2 off2, off < off2 ∧ inserting out l new_text b b2 news2 off2 ∧
    insertion_step max_insertion_len new_text ts (next_id l) ts (b', off) = Ret (inl (b2, off2)).
Proof.
  intros [] Hu Hsm Hlen Hseg Hoff. unfold insertion_step. apply Nat.ltb_lt in Hoff as Hoff'. rewrite Hoff'.
  set (target_end := N.to_nat _). set (chunk_end := if target_end =? length new_text then target_end else str_floor_char_boundary new_text target_end).
  assert (Hce : off < chunk_end ≤ length new_text ∧ str_is_char_boundary new_text chunk_end = true) by (by apply piece_end_spec).
  clearbody chunk_end. destruct Hce as [Hce Hbc]. destruct (Nat.eqb_spec chunk_end off); [lia|].
  rewrite usize_sub_ok by lia. destruct (builder_reads b' _ i_builder0) as [-> _].
  rewrite app_assoc in i_ids0. destruct (between_ids (out ++ news) l i_ids0) as (m & -> & Hm).
  unfold small in Hsm. rewrite as_u32_small by lia. unfold slice_from_fragment. cbn [f_insertion_offset f_len f_timestamp].
  rewrite i_offset0, U32_add_ok by lia. set (g := MkFragment m ts _ _ true [] Global_new).
  assert (Etg : text_of W g = seg new_text off chunk_end).
  { unfold text_of, seg. cbn [g f_len f_insertion_offset f_timestamp]. rewrite <-Hseg at 1. unfold seg.
    rewrite skipn_firstn_comm, take_take, drop_drop. f_equal. lia. }
  assert (Hg : frag_ok W g).
  { split_and!; cbn [g f_len f_insertion_offset f_timestamp f_max_undos]; [lia|lia|unfold small; lia| |apply trimmed_new].
    rewrite Etg. apply utf8_seg; (done || lia). }
  eexists _, (news ++ [g]), chunk_end. split; [lia|]. split; [|done].
  split; cbn [b_fragments b_ropes b_insertions b_slices b_offset b_patch].
  - rewrite app_assoc. by apply builder_push_ok.
  - rewrite <-app_assoc, app_assoc. by apply Hm.
  - apply Forall_app; split; [done|by constructor; [|constructor]].
  - apply Forall_app; split; [done|by constructor; [|constructor]].
  - rewrite vis_text_snoc, i_text0, Etg. cbn [g f_visible]. symmetry. apply take_seg. lia.
  - rewrite cells_snoc, i_cells0. unfold fragment_cells. cbn [g f_insertion_offset f_len f_timestamp].
    rewrite <-fmap_app, <-seq_app. do 2 f_equal. lia.
  - done.
  - done.
  - by rewrite i_insertions0, fmap_app, app_assoc.
  - rewrite i_slices0, fmap_app, app_assoc. done.
  - lia.
  - lia.
  - done.
Qed.

Lemma push_insertion_spec out l i j b new_text :
  builder_ok (b_fragments b) out → Forall (frag_ok W) out → ids_ok (out ++ l) →
  ropes_at V D (b_ropes b) i j (vis_text W out) (del_text W out) →
  visible_len out + deleted_len out ≤ visible_len F + deleted_len F + b_offset b →
  utf8 new_text → b_offset b + length new_text ≤ length (W ts) →
  seg (W ts) (b_offset b) (b_offset b + length new_text) = new_text →
  returns (push_fragments_for_insertion par_chunks max_insertion_len new_text ts b (next_id l) ts) (λ b', ∃ news,
    inserting out l new_text b (MkBuilding (b_fragments b') (b_ropes b) (b_insertions b') (b_slices b') (b_offset b') (b_patch b'))
      news (length new_text) ∧
    ropes_at V D (b_ropes b') i j (vis_text W out ++ new_text) (del_text W out)).
Proof.
  intros Hbu Hfr Hids Hro Hsz Hu Hlen Hseg. pose proof (su_total W V D t ts Hset) as Htotal.
  assert (Hsm : small (W ts)) by (unfold small; lia).
  unfold push_fragments_for_insertion.
  destruct (loop_returns (insertion_step max_insertion_len new_text ts (next_id l) ts)
    (λ '(b', off), ∃ news, inserting out l new_text b b' news off) (λ '(_, off), length new_text - off)
    (λ b', ∃ news, inserting out l new_text b b' news (length new_text))) with (fuel := S (length new_text)) (s := (b, 0))
    as (b1 & -> & news & Hi).
  - intros [b' off] (news & Hi). destruct (Nat.lt_ge_cases off (length new_text)) as [Hlt|Hge].
    + left. destruct (insertion_step_spec out l new_text b b' news off Hi Hu Hsm Hlen Hseg Hlt) as (b2 & news2 & off2 & H1 & H2 & E).
      exists (b2, off2). split; [done|]. split; [by exists news2|lia].
    + right. exists b'. assert (off = length new_text) as -> by (destruct Hi; lia). split; [|by exists news].
      unfold insertion_step. by rewrite Nat.ltb_irrefl.
  - exists []. split; cbn; rewrite ?app_nil_r, ?Nat.add_0_r; try done; try lia; constructor.
  - lia.
  - cbn beta iota. destruct Hi. rewrite i_ropes0. unfold ropes_push_str. destruct Hro as (R1 & R2 & (R3 & R4) & R5).
    destruct (rope_push_spec par_chunks Hpar (rb_new_visible (b_ropes b)) new_text R3 Hu) as (r & -> & Hr & Er).
    { rewrite R4. unfold small. rewrite length_app, vis_text_length by done. lia. }
    apply returns_Ret. cbn [b_fragments b_ropes b_insertions b_slices b_offset b_patch]. exists news. split; [by split|].
    rewrite R4 in Er. done.
Qed.

Lemma rest_fresh p l k i : F = p ++ l → (ts, i) ∉ cells (rest l k).
Proof.
  intros E (g & Hg & Hts & _)%elem_of_cells.
  assert (∃ f, f ∈ l ∧ f_timestamp f = f_timestamp g) as (f & Hf & Ef).
  { destruct l as [|f l]; [by apply not_elem_of_nil in Hg|]. unfold rest in Hg. repeat case_match.
    - by exists g.
    - apply elem_of_cons in Hg as [->|Hg]; [exists f; split; [by left|done]|exists g; split; [by right|done]].
    - exists g. split; [by right|done]. }
  destruct (fresh_fragment W V D t ts Hset f) as [Hne _]; [rewrite E; apply elem_of_app; by right|congruence].
Qed.

(** New cells of the insertion. *)
Definition inserted_to (off n : nat) (out out' : list Fragment) : Prop := ∃ news,
  out' = out ++ news ∧ vcells news = pair ts <$> seq off n ∧ layout news = fresh_cells_of ts off n.
Lemma all_visible l : Forall (λ g, f_visible g = true) l → vcells l = cells l ∧ del_text W l = [] ∧ deleted_len l = 0.
Proof.
  induction 1 as [|g l Hg _ (IH1 & IH2 & IH3)]; [done|]. rewrite vcells_cons, cells_cons, del_text_cons, Hg, IH1.
  split; [done|]. split; [done|]. unfold deleted_len in *. cbn. by rewrite Hg.
Qed.
Lemma insert_text_spec p l k out c st b new_text :
  walk p l k out c st b → ids_ok (out ++ l) → utf8 new_text → b_offset b + length new_text ≤ length (W ts) →
  seg (W ts) (b_offset b) (b_offset b + length new_text) = new_text →
  returns (insert_text par_chunks max_insertion_len new_text ts c st b) (λ b', ∃ out',
    walk p l k out' c st b' ∧ ids_ok (out' ++ l) ∧ vis_text W out' = vis_text W out ++ new_text ∧
    inserted_to (b_offset b) (length new_text) out out' ∧ b_offset b' = b_offset b + length new_text).
Proof.
  intros Hw Hids Hu Hlen Hseg. unfold insert_text. destruct new_text as [|x new_text'] eqn:Enew.
  { apply returns_Ret. exists out. rewrite app_nil_r, Nat.add_0_r. split_and!; try done. exists []. by rewrite app_nil_r. }
  rewrite <-Enew in *. clear x new_text' Enew.
  destruct (cursor_reads W V D t ts Hset _ _ _ _ _ _ _ Hw) as (_ & _ & -> & _). pose proof Hw as [Hc Est Hpart _ Hbu Hfr].
  destruct (builder_reads b out Hbu) as [_ ->]. change (match head l with Some o => f_id o | None => locator_max end) with (next_id l).
  pose proof (walk_items t _ _ _ Hc) as E. destruct (consumed_le t p l k E Hpart) as [L1 L2].
  destruct (push_insertion_spec out l st (deleted_len p) b new_text Hbu Hfr Hids w_ropes) as (b1 & -> & news & Hi & Hro); [|done..|].
  { destruct Hw. lia. }
  pose proof (su_total W V D t ts Hset) as Htotal. pose proof w_size as Hsz. pose proof (walk_start_le W V D t ts Hset _ _ _ _ _ _ _ Hw) as Hst.
  rewrite usize_add_ok by (unfold U32_MAX, U64_MAX in *; lia). apply returns_Ret. exists (out ++ news).
  destruct Hw, Hi. cbn [b_fragments b_ropes b_insertions b_slices b_offset b_patch] in *.
  assert (Hvis : vis_text W news = new_text) by (by rewrite i_text0, take_ge by lia).
  destruct (all_visible news) as (Hvc & Hdel & Hdlen); [eapply Forall_impl; [exact i_inserted0|]; by intros g (_ & ? & _)|].
  split; [|split; [by rewrite <-app_assoc|split; [by rewrite vis_text_app, Hvis|split; [exists news; rewrite Hvc, (layout_inserted ts), i_cells0 by done; unfold fresh_cells_of; by rewrite <-list_fmap_compose|done]]]].
  split; cbn [b_fragments b_ropes b_insertions b_slices b_offset b_patch push_edit]; try done.
  - apply Forall_app; by split.
  - rewrite !cells_app, i_cells0, <-app_assoc in *. apply in_order_insert; [done|done|]. intros i. by apply (rest_fresh p l k i E).
  - intros i. rewrite cells_app, elem_of_app, i_cells0, list_elem_of_fmap, i_offset0. intros [Hin|(j & [= ->] & Hj%elem_of_seq)]; [|lia].
    apply w_new0 in Hin. lia.
  - by rewrite vis_text_app, del_text_app, Hvis, Hdel, app_nil_r.
  - rewrite visible_len_app, deleted_len_app, Hdlen, i_offset0, <-(vis_text_length W news), Hvis by done. lia.
  - lia.
  - rewrite i_patch0, vis_text_app, Hvis. rewrite <-(app_nil_r (take st X)).
    replace (MkTextEdit _ _) with (edit_at st (visible_len out) [] new_text) by (unfold edit_at; by rewrite Nat.add_0_r).
    apply rewrites_push; [done|rewrite length_take; lia|by rewrite vis_text_length].
  - rewrite i_patch0. replace (MkTextEdit _ _) with (edit_at st (visible_len out) [] new_text) by (unfold edit_at; by rewrite Nat.add_0_r).
    eapply separated_push; [done|done|rewrite length_take; lia|by rewrite vis_text_length].
  - rewrite i_insertions0, fmap_app. by apply sublist_app.
  - rewrite i_insertions0. intros g [Hg|Hg]%elem_of_app.
    + destruct (w_indexed0 g Hg); [left; apply elem_of_app; by left|by right].
    + left. apply elem_of_app. right. by apply list_elem_of_fmap_2.
  - intros f Hf. specialize (w_keys0 f Hf). rewrite !fmap_app, !elem_of_app in *. tauto.
  - rewrite i_slices0, slices_of_app, (slices_of_all ts news), w_slices0; [done|]. eapply Forall_impl; [exact i_inserted0|].
    intros g (Hg & _). apply bool_decide_eq_true. by left.
  - rewrite <-w_kept0, !cells_app, i_cells0, !not_of_app, not_of_none, app_nil_r. done.
  - intros g [Hg|Hg]%elem_of_app; [by apply w_origin0|]. left. rewrite Forall_forall in i_inserted0. by apply i_inserted0.
Qed.
End Insert.

(** * The text an edit deletes *)
Section Delete.
Context (W : Lamport → list N) (V D : Rope) (t : fragment_tree) (ts : Lamport).
Hypothesis Hset : setup W V D t ts.
Abbreviation F := (tree_items t).
Abbreviation X := (vis_text W F).
Abbreviation walk := (walk W V D t ts).
Abbreviation text_cursor := (Cursor Fragment FragmentSummary FragmentTextSummary).

(** The cells from [st] to [st'] are hidden, and no others are shown. *)
Definition hidden_to (st st' : nat) (out out' : list Fragment) : Prop :=
  ∃ ext, out' = out ++ ext ∧ vcells ext = [] ∧ seg (vcells F) st st' ⊆ cells ext.
Lemma hidden_refl st out : hidden_to st st out out.
Proof. exists []. rewrite app_nil_r, seg_nil. split_and!; [done|done|set_solver]. Qed.
Lemma hidden_trans a b c o1 o2 o3 : a ≤ b ≤ c → hidden_to a b o1 o2 → hidden_to b c o2 o3 → hidden_to a c o1 o3.
Proof.
  intros H (x & -> & Ex & Sx) (y & -> & Ey & Sy). exists (x ++ y). rewrite app_assoc. split; [done|].
  rewrite vcells_app, Ex, Ey, cells_app, <-(seg_join _ a b c) by done. split; [done|]. set_solver.
Qed.
Lemma hidden_text st st' out out' : hidden_to st st' out out' → vis_text W out' = vis_text W out.
Proof. intros (ext & -> & E & _). rewrite vis_text_app, (vis_text_bytes W ext), E. apply app_nil_r. Qed.

(** The walk has come from [st0] and [out0] to [st], and [n] fragments are
    left. *)
Definition deleting (l0 : list Fragment) (k0 st0 : nat) (out0 : list Fragment) (off e : nat) (x : text_cursor * nat * Building) (n : nat) : Prop :=
  let '(c, st, b) := x in ∃ p l k out, walk p l k out c st b ∧ ids_ok (out ++ l) ∧ (hidden_to st0 st out0 out ∧ hides ts l0 k0 out0 l k out) ∧
    b_offset b = off ∧ st0 ≤ st ≤ e ∧ n = length l.

(** Deleting [n] bytes of a visible fragment. *)
Lemma delete_piece p f l k out c st b n m :
  walk p (f :: l) k out c st b → f_visible f = true → 0 < n → k + n ≤ f_len f → str_is_char_boundary X (st + n) = true →
  (∀ g, f_id g = m → ids_ok (out ++ g :: f :: l)) →
  let g := deleted_by (with_id (part f k n) m) ts in
  returns (let* slice := slice_from_fragment ts g in
           push_piece (push_slice (push_edit b (MkTextEdit (MkRange st (st + n)) (MkRange (b_visible b) (b_visible b)))) slice) g true)
    (λ b', walk p (f :: l) (k + n) (out ++ [g]) c (st + n) b' ∧ b_offset b' = b_offset b ∧ hidden_to st (st + n) out (out ++ [g]) ∧
      ∀ l' k', layout (rest l' k') = layout (rest (f :: l) (k + n)) → hides ts (f :: l) k out l' k' (out ++ [g])).
Proof.
  intros Hw Hf Hn Hle Hb Hm g. pose proof Hw as [Hc Est Hpart _ Hbu Hfr].
  pose proof (walk_items t _ _ _ Hc) as E. destruct (old_frags W V D t ts Hset _ _ E) as [_ [Hfo _]%Forall_cons].
  pose proof Hfo as (_ & Hfl & Hsm & _). unfold small in Hsm.
  unfold slice_from_fragment. cbn [g deleted_by with_id part f_insertion_offset f_len f_timestamp]. fold (part f k n). fold (with_id (part f k n) m). fold g.
  rewrite U32_add_ok by lia. destruct (builder_reads b out Hbu) as [_ ->].
  assert (Ev : vis_text W (out ++ [g]) = vis_text W out) by (rewrite vis_text_snoc; apply app_nil_r).
  destruct (window W V D t ts Hset p f l k n E Hf Hle) as (Ewin & _ & Hlen).
  pose proof (walk_start_le W V D t ts Hset _ _ _ _ _ _ _ Hw) as Hst.
  assert (Eed : MkTextEdit (MkRange st (st + n)) (MkRange (visible_len out) (visible_len out)) = edit_at st (visible_len out) (seg X st (st + n)) []).
  { unfold edit_at, seg. rewrite length_take, length_drop. cbn. f_equal; f_equal; lia. }
  rewrite Eed.
  destruct (push_visible W V D t ts Hset p f l k n out c st b
    (push_slice (push_edit b (edit_at st (visible_len out) (seg X st (st + n)) [])) (slice_of ts g)) g Hw Hf Hn Hle Hb) as (b' & E' & Hw').
  - done.
  - done.
  - split_and!; [done|done|exists k; cbn; split; lia|right; done].
  - cbn [push_slice push_edit b_patch]. rewrite Ev, (take_seg X st (st + n)), <-(app_nil_r (vis_text W out)) by lia.
    apply rewrites_push; [done|rewrite length_take; lia|by rewrite vis_text_length].
  - cbn [push_slice push_edit b_patch]. eapply separated_push; [done|done|rewrite length_take; lia|by rewrite vis_text_length].
  - cbn [push_slice push_edit b_slices]. rewrite slices_of_all; [done|]. constructor; [|constructor].
    apply bool_decide_eq_true. right. apply elem_of_app. right. by left.
  - cbn beta iota. change (MkInsertionSlice ts (f_timestamp f) (f_insertion_offset f + k) (f_insertion_offset f + k + n)) with (slice_of ts g).
    rewrite E'. apply returns_Ret. split; [done|]. split.
    { unfold push_piece in E'. destruct (push_fragment _ _ _) in E'; simplify_eq. done. }
    split; [exists [g]; split_and!; [done|done|]; rewrite Est, <-(cell_window t p f l k n), cells_cons by done; apply reflexive_eq; by rewrite app_nil_r|].
    intros l' k' El. exists (laid (part f k n)). assert (struck ts <$> laid (part f k n) = laid g) as ->.
    { unfold laid. rewrite <-list_fmap_compose. apply list_fmap_ext. intros ? ? _. unfold struck. cbn. by rewrite Hf. }
    by apply lays_piece.
Qed.

Lemma delete_step_spec l0 k0 st0 out0 off e x n :
  deleting l0 k0 st0 out0 off e x n → x.1.2 < e → e ≤ length X → str_is_char_boundary X e = true →
  ∃ x' n', delete_step e ts x = Ret (inl x') ∧ deleting l0 k0 st0 out0 off e x' n' ∧ (n' < n ∨ (n' = n ∧ x'.1.2 = e)).
Proof.
  destruct x as [[c st] b]. intros (p & l & k & out & Hw & Hids & [Hhid Hlay] & Eoff & Hse & ->) Hlt He Hbe. cbn [fst snd] in *.
  destruct (cursor_reads W V D t ts Hset _ _ _ _ _ _ _ Hw) as (E1 & E2 & E3 & E4). pose proof Hw as [Hc Est Hpart _ Hbu Hfr].
  pose proof (walk_items t _ _ _ Hc) as E. unfold delete_step. apply Nat.ltb_lt in Hlt as Hlt'. rewrite Hlt', E3, E4.
  destruct l as [|f l].
  { exfalso. destruct Hpart as [->|(? & ? & ? & _)]; [|done]. rewrite (X_length W V D t ts Hset), E, app_nil_r in He. lia. }
  cbn [head unwrap]. destruct (old_frags W V D t ts Hset _ _ E) as [_ [Hfo _]%Forall_cons]. pose proof Hfo as (Hpos & _).
  destruct (f_visible f) eqn:Hf.
  - assert (Hk : k ≤ f_len f) by (destruct Hpart as [->|(? & ? & [= <- <-] & _ & ?)]; lia).
    set (ie := Nat.min e (visible_len p + f_len f)). rewrite !usize_sub_ok by (unfold ie; lia). rewrite E1.
    replace (st - visible_len p) with k by lia. rewrite (part_of_ok W) by (done || (unfold ie; lia)).
    destruct (builder_reads b out Hbu) as [Emax _]. rewrite Emax.
    destruct (between_ids out (f :: l) Hids) as (m & Em & Hm). change (next_id (f :: l)) with (f_id f) in Em.
    change (f_id (part f k (ie - st))) with (f_id f). rewrite Em. set (g := deleted_by (with_id (part f k (ie - st)) m) ts).
    change (f_len g) with (ie - st). change (f_visible g) with false. cbn [andb negb].
    destruct (Nat.ltb_spec 0 (ie - st)) as [Hn|Hn].
    + assert (Eie : ie = st + (ie - st)) by lia. assert (Hbi : str_is_char_boundary X (st + (ie - st)) = true).
      { rewrite <-Eie. unfold ie. destruct (Nat.min_spec e (visible_len p + f_len f)) as [[_ ->]|[_ ->]]; [done|].
        destruct (window W V D t ts Hset p f l (f_len f) 0 E Hf ltac:(lia)) as (_ & -> & _).
        rewrite <-(text_of_length W f Hfo). apply str_boundary_end. }
      destruct (delete_piece p f l k out c st b (ie - st) m Hw Hf Hn ltac:(unfold ie; lia) Hbi Hm) as (b' & Eb & Hw' & Eo' & Ev' & Hl').
      fold g in Eb, Hw', Ev', Hl'. rewrite <-Eie in Eb, Hw', Ev'. destruct (slice_from_fragment ts g) as [sl| |]; try done. cbn beta iota in Eb |- *. rewrite Eb.
      destruct (Nat.leb_spec (visible_len p + f_len f) e) as [Hfe|Hfe].
      * replace (k + (ie - st)) with (f_len f) in Hw' by (unfold ie in *; lia).
        destruct (walk_next W V D t ts Hset _ _ _ _ _ _ _ Hw' Hf) as (c' & -> & Hw2). eexists _, (length l).
        split; [done|]. split; [|left; cbn; lia]. exists (p ++ [f]), l, 0, (out ++ [g]). split; [done|]. split.
        { rewrite <-app_assoc. eapply ids_ok_sublist; [|apply (Hm g eq_refl)]. apply sublist_app; [done|]. constructor. by constructor. }
        split; [split; [eapply hidden_trans; [|exact Hhid|exact Ev']; lia|eapply hides_trans; [exact Hlay|apply Hl']]|].
        { replace (k + (ie - st)) with (f_len f) by (unfold ie in *; lia). by rewrite rest_0, rest_end. }
        split; [by rewrite Eo'|]. split; [unfold ie; lia|done].
      * eexists _, (length (f :: l)). split; [done|]. split; [|right; cbn; unfold ie; split; [done|lia]].
        exists p, (f :: l), (k + (ie - st)), (out ++ [g]). split; [done|]. split; [rewrite <-app_assoc; by apply Hm|].
        split; [split; [eapply hidden_trans; [|exact Hhid|exact Ev']; lia|eapply hides_trans; [exact Hlay|by apply Hl']]|].
        split; [by rewrite Eo'|]. split; [unfold ie; lia|done].
    + assert (k = f_len f) as -> by (unfold ie in *; lia). destruct (Nat.leb_spec (visible_len p + f_len f) e) as [Hfe|Hfe]; [|lia].
      destruct (walk_next W V D t ts Hset _ _ _ _ _ _ _ Hw Hf) as (c' & -> & Hw2). eexists _, (length l).
      split; [done|]. split; [|left; cbn; lia]. exists (p ++ [f]), l, 0, out. split; [done|]. split.
      { eapply ids_ok_sublist; [|exact Hids]. apply sublist_app; [done|]. by constructor. }
      split; [|done]. split; [done|]. eapply hides_trans; [exact Hlay|]. exists []. split; [by rewrite rest_0, rest_end|]. exists []. by rewrite app_nil_r.
  - destruct Hpart as [->|(? & ? & [= <- <-] & ? & _)]; [|congruence]. rewrite Hf. apply Nat.ltb_lt in Hpos as Hpos'. rewrite Hpos'. cbn [andb].
    destruct (push_hidden W V D t ts Hset p f l out c st b Hw Hf) as (b' & Eb & c' & Ec & Hw'). rewrite Eb, Nat.min_r by lia.
    destruct (Nat.leb_spec (visible_len p + 0) e) as [_|?]; [|lia]. rewrite Ec.
    eexists _, (length l). split; [done|]. split; [|left; cbn; lia]. exists (p ++ [f]), l, 0, (out ++ [f]).
    split; [by rewrite <-Est|]. split; [by rewrite <-app_assoc|]. split.
    { split; [rewrite <-Est; eapply hidden_trans; [|exact Hhid|]; [lia|]; exists [f]; rewrite seg_nil, vcells_cons, Hf; split_and!; [done|done|set_solver]|].
      eapply hides_trans; [exact Hlay|]. exists (laid f). split; [by rewrite !rest_0, layout_cons|]. exists [f]. split; [done|]. rewrite layout_one.
      unfold laid. rewrite <-list_fmap_compose. apply list_fmap_ext. intros ? ? _. unfold struck. cbn. by rewrite Hf. }
    split; [|split; [lia|done]]. unfold push_piece in Eb. destruct (push_fragment _ _ _) in Eb; simplify_eq. done.
Qed.

Lemma tree_size_items : length F < tree_size t.
Proof.
  destruct (su_tree W V D t ts Hset) as [->|[h Hn]]; [cbn; lia|]. destruct h as [|h].
  - destruct (wf_leaf_inv _ Hn) as (l & -> & _). simpl. lia.
  - destruct (wf_internal_inv _ _ Hn) as (ct & E & _ & _ & Hct). rewrite E. simpl. apply Nat.lt_succ_r. clear E Hn.
    induction Hct as [|c ct Hc _ IHct]; simpl; [lia|]. rewrite length_app. pose proof (length_items_size h c Hc). lia.
Qed.

Lemma delete_loop_spec p l k out c st b e :
  walk p l k out c st b → ids_ok (out ++ l) → st ≤ e ≤ length X → str_is_char_boundary X e = true →
  returns (loop (delete_step e ts) (S (tree_size t)) (c, st, b)) (λ '(c', st', b'), st' = e ∧ ∃ p' l' k' out',
    walk p' l' k' out' c' e b' ∧ ids_ok (out' ++ l') ∧ (hidden_to st e out out' ∧ hides ts l k out l' k' out') ∧ b_offset b' = b_offset b).
Proof.
  intros Hw Hids He Hbe. pose proof Hw as [Hc Est Hpart]. pose proof (walk_items t _ _ _ Hc) as E.
  set (flag := λ x : text_cursor * nat * Building, if x.1.2 <? e then 1 else 0).
  apply (loop_bounded _ (λ n x, ∃ m, deleting l k st out (b_offset b) e x m ∧ n = m + flag x)) with (n := length l + flag (c, st, b)).
  - intros n [[c' st'] b'] (m & Hd & ->). unfold flag. cbn [fst snd]. destruct (Nat.ltb_spec st' e) as [Hlt|Hge].
    + left. destruct (delete_step_spec _ _ _ _ _ _ _ _ Hd Hlt ltac:(lia) Hbe) as ([[c2 st2] b2] & m' & Es & Hd' & Hm).
      eexists (c2, st2, b2), _. split; [exact Es|]. split; [by exists m'|]. cbn [fst snd] in *. destruct (Nat.ltb_spec st2 e); lia.
    + right. exists (c', st', b'). unfold delete_step. apply Nat.ltb_ge in Hge as Hge'. rewrite Hge'. split; [done|].
      destruct Hd as (p' & l' & k' & out' & H1 & H2 & H3 & H4 & H5 & _). assert (st' = e) as -> by lia.
      split; [done|]. by exists p', l', k', out'.
  - exists (length l). split; [|done]. exists p, l, k, out. split_and!; (done || lia || apply hidden_refl || apply hides_refl).
  - pose proof tree_size_items as Hsz. rewrite E, length_app in Hsz. unfold flag. cbn [fst snd]. destruct (st <? e); lia.
Qed.
End Delete.

(** * A sequence of local edits

    The edits of one operation are ordered and do not overlap; [spliced] is the
    text they make of the old one. *)
Abbreviation local_change := (nat * nat * list N)%type.

Section Splice.
Context (normal : list N → list N) (X : list N).

(** The edits are at boundaries of [X], in order, from [st] on. *)
Fixpoint edits_ok (st : nat) (edits : list local_change) : Prop :=
  match edits with
  | [] => True
  | (a, e, new_text) :: edits => st ≤ a ∧ between_boundaries X a e ∧ utf8 (normal new_text) ∧ edits_ok e edits
  end.
Definition texts (edits : list local_change) : list (list N) := (λ ed, normal ed.2) <$> edits.
(** The text from [st] on after the edits. *)
Fixpoint spliced (st : nat) (edits : list local_change) : list N :=
  match edits with
  | [] => drop st X
  | (a, e, new_text) :: edits => seg X st a ++ normal new_text ++ spliced e edits
  end.

(** The fragments [G] are those of the old text from [st] on after the edits
    with the stamp [ts]: the cells of the old text, [C], that an edit does not
    replace stay as they are; the new cells come before the replaced ones,
    which are hidden. *)
Fixpoint relaid (ts : Lamport) (C : list (Lamport * nat)) (st off : nat) (edits : list local_change) (G : list Fragment) : Prop :=
  match edits with
  | [] => vcells G = drop st C
  | (a, e, new_text) :: edits => ∃ kept news hidden G',
      G = kept ++ news ++ hidden ++ G' ∧ vcells kept = seg C st a ∧ vcells news = pair ts <$> seq off (length (normal new_text)) ∧
      vcells hidden = [] ∧ seg C a e ⊆ cells hidden ∧ relaid ts C e (off + length (normal new_text)) edits G'
  end.
(** Cells kept before the first edit. *)
Lemma relaid_kept ts C st st' off edits k G : st ≤ st' → match edits with [] => True | (a, _, _) :: _ => st' ≤ a end →
  vcells k = seg C st st' → relaid ts C st' off edits G → relaid ts C st off edits (k ++ G).
Proof.
  destruct edits as [|[[a e] x] edits]; cbn; intros H1 H2 Ek.
  - intros E. by rewrite vcells_app, Ek, E, seg_drop.
  - intros (kept & news & hid & G' & -> & E1 & HG). exists (k ++ kept), news, hid, G'. rewrite <-app_assoc. split; [done|].
    split; [|done]. by rewrite vcells_app, Ek, E1, seg_join.
Qed.
End Splice.

(** ** The offset in the inserted text changes only where text is inserted *)
Lemma push_piece_offset b g v b' : push_piece b g v = Ret b' → b_offset b' = b_offset b.
Proof. unfold push_piece. by destruct (push_fragment _ _ _); intros [= <-]. Qed.
Lemma append_slice_offset b s b' : append_slice b s = Ret b' → b_offset b' = b_offset b.
Proof. unfold append_slice. by destruct (ropes_append _ _); intros [= <-]. Qed.
Ltac offset_cases :=
  repeat (case_match; try discriminate); simplify_eq;
  repeat match goal with
  | H : push_piece _ _ _ = Ret _ |- _ => apply push_piece_offset in H
  | H : append_slice _ _ = Ret _ |- _ => apply append_slice_offset in H
  end; simplify_eq; try congruence.
Lemma push_rest_offset c st b c' b' : push_rest c st b = Ret (c', b') → b_offset b' = b_offset b.
Proof. unfold push_rest. intros H. offset_cases. Qed.
Lemma skip_to_offset a c st b c' st' b' : skip_to a c st b = Ret (c', st', b') → b_offset b' = b_offset b.
Proof.
  unfold skip_to. intros H. offset_cases. match goal with H : push_rest _ _ _ = _ |- _ => apply push_rest_offset in H end. congruence.
Qed.
Lemma push_prefix_offset a c st b st' b' : push_prefix a c st b = Ret (st', b') → b_offset b' = b_offset b.
Proof. unfold push_prefix. intros H. offset_cases. Qed.

Section Edits.
Context (W : Lamport → list N) (V D : Rope) (t : fragment_tree) (ts : Lamport).
Hypothesis Hset : setup W V D t ts.
Context (par_chunks : ∀ A : Type, nat → list A → list (list A)).
Hypothesis Hpar : chunks_spec par_chunks.
Context (max_insertion_len : N).
Hypothesis Hmax : (4 <= max_insertion_len)%N.
Context (replace_line_separators : list N → list N).
Abbreviation F := (tree_items t).
Abbreviation X := (vis_text W F).
Abbreviation walk := (walk W V D t ts).
Abbreviation text_cursor := (Cursor Fragment FragmentSummary FragmentTextSummary).
Abbreviation texts := (texts replace_line_separators).
Abbreviation spliced := (spliced replace_line_separators X).
Abbreviation relaid := (relaid replace_line_separators).
Abbreviation edits_ok := (edits_ok replace_line_separators X).

(** A full offset of an operation counts the visible and the deleted text up
    to a place with [a] bytes of visible text before it. *)
Definition full_at (a : nat) (o : FullOffset) : Prop :=
  ∃ p l k, F = p ++ l ∧ (k = 0 ∨ ∃ f l', l = f :: l' ∧ f_visible f = true ∧ k ≤ f_len f) ∧
    a = visible_len p + k ∧ full_offset o = visible_len p + deleted_len p + k.
Definition full_ranges (edits : list local_change) (ranges : list (FullOffset * FullOffset)) : Prop :=
  Forall2 (λ ed r, full_at ed.1.1 r.1 ∧ full_at ed.1.2 r.2) edits ranges.

Lemma full_offset_spec p l k out c st b :
  walk p l k out c st b →
  usize_add st (ft_deleted (start c)) = Ret (st + deleted_len p) ∧ full_at st (MkFullOffset (st + deleted_len p)).
Proof using Hset.
  clear Hmax. intros Hw. destruct (cursor_reads W V D t ts Hset _ _ _ _ _ _ _ Hw) as (_ & -> & _). destruct Hw.
  pose proof (walk_items t _ _ _ w_cursor) as E. destruct (consumed_le t p l k E w_part) as [L1 L2].
  pose proof (su_total W V D t ts Hset). split; [apply usize_add_ok; unfold U32_MAX, U64_MAX in *; lia|].
  exists p, l, k. split_and!; [done|done|done|]. cbn. lia.
Qed.

(** The place [a] is in the fragment of the cursor. *)
Lemma reaches_offset a p l k out c st b :
  walk p l k out c st b → reaches a p l st →
  usize_add a (ft_deleted (start c)) = Ret (a + deleted_len p) ∧ full_at a (MkFullOffset (a + deleted_len p)).
Proof using Hset.
  clear Hmax. intros Hw Hr. destruct (cursor_reads W V D t ts Hset _ _ _ _ _ _ _ Hw) as (_ & -> & _). destruct Hw.
  pose proof (walk_items t _ _ _ w_cursor) as E.
  assert (∃ k', a = visible_len p + k' ∧ (k' = 0 ∨ ∃ f l', l = f :: l' ∧ f_visible f = true ∧ k' ≤ f_len f)) as (k' & Ea & Hk').
  { destruct Hr as [<-|(f & l' & -> & Hf & Hle)]; [by exists k|]. exists (a - visible_len p). split; [lia|].
    right. exists f, l'. split_and!; (done || lia). }
  destruct (consumed_le t p l k' E Hk') as [L1 L2].
  pose proof (su_total W V D t ts Hset). split; [apply usize_add_ok; unfold U32_MAX, U64_MAX in *; lia|].
  exists p, l, k'. split_and!; [done|done|done|]. cbn. lia.
Qed.

Definition full_edits (ranges : list (FullOffset * FullOffset)) (texts : list (list N)) : list (nat * nat * list N) :=
  zip_with (λ r x, (full_offset r.1, full_offset r.2, x)) ranges texts.
Definition place (p : list Fragment) (k : nat) : nat := visible_len p + deleted_len p + k.
Lemma walk_place p l k out c st b : walk p l k out c st b →
  length (layout (rest l k)) + place p k = length (layout F) ∧ place p k = st + deleted_len p.
Proof using.
  clear Hmax. intros Hw. destruct Hw. pose proof (walk_items t _ _ _ w_cursor) as E. split; [|unfold place; lia]. rewrite E. apply rest_place.
  destruct w_part as [->|(f & l' & -> & _ & ?)]; [by left|right; by exists f, l'].
Qed.

Definition op_extends (edits : list local_change) (op op' : EditOperation) : Prop :=
  eo_timestamp op' = eo_timestamp op ∧ eo_version op' = eo_version op ∧
  (∃ ranges, eo_ranges op' = eo_ranges op ++ ranges ∧ full_ranges edits ranges) ∧
  eo_new_text op' = eo_new_text op ++ texts edits.

Lemma local_edits_spec edits p l k out c st b op :
  walk p l k out c st b → ids_ok (out ++ l) → edits_ok st edits → drop (b_offset b) (W ts) = concat (texts edits) →
  returns (local_edits par_chunks replace_line_separators max_insertion_len (S (tree_size t)) ts (c, st, b, op) edits)
    (λ '(c', st', b', op'), ∃ p' l' k' out',
      walk p' l' k' out' c' st' b' ∧ ids_ok (out' ++ l') ∧ op_extends edits op op' ∧
      vis_text W out' ++ drop st' X = vis_text W out ++ spliced st edits ∧ b_offset b' = length (W ts) ∧
      ∃ ext, out' = out ++ ext ∧ (∀ G, vcells G = drop st' (vcells F) → relaid ts (vcells F) st (b_offset b) edits (ext ++ G)) ∧
      ∃ ranges, eo_ranges op' = eo_ranges op ++ ranges ∧ length ranges = length edits ∧
        places_ok (place p k) (length (layout F)) (full_edits ranges (texts edits)) ∧
        overlay ts (full_edits ranges (texts edits)) (b_offset b) (place p k) (layout (rest l k)) = layout ext ++ layout (rest l' k')).
Proof using Hset Hpar Hmax.
  revert p l k out c st b op. induction edits as [|[[a e] new_text] edits IH]; intros p l k out c st b op Hw Hids Hok HW; cbn [local_edits].
  - apply returns_Ret. exists p, l, k, out. split; [done|]. split; [done|]. split; [|split; [done|split; [|exists []; rewrite app_nil_r; split; [done|split; [done|]]]]].
    { split_and!; [done|done| |by rewrite app_nil_r]. exists []. rewrite app_nil_r. split; [done|constructor]. }
    apply (f_equal length) in HW. rewrite length_drop in HW. destruct Hw. cbn in HW. lia.
    + exists []. by rewrite app_nil_r.
  - destruct Hok as (Hst & (Hae & Ba & Be) & Hu & Hok). unfold local_edit. set (new := replace_line_separators new_text) in *.
    destruct (skip_to_spec W V D t ts Hset a p l k out c st b Hw Hids ltac:(lia)) as ([[c1 st1] b1] & E1 & p1 & l1 & k1 & out1 & Hw1 & Hids1 & Hst1 & Hr1 & Ev1 & Kp1).
    rewrite E1. destruct (reaches_offset a p1 l1 k1 out1 c1 st1 b1 Hw1 Hr1) as [-> Hfull1].
    destruct (push_prefix_spec W V D t ts Hset a p1 l1 k1 out1 c1 st1 b1 Hw1 Hids1 Hr1 Ba) as ([st2 b2] & E2 & -> & k2 & out2 & Hw2 & Hids2 & Ev2 & Kp2).
    rewrite E2. apply skip_to_offset in E1. apply push_prefix_offset in E2.
    assert (HW' : drop (b_offset b2) (W ts) = new ++ concat (texts edits)) by (rewrite E2, E1; exact HW).
    assert (Hlen : b_offset b2 + length new ≤ length (W ts)).
    { apply (f_equal length) in HW'. rewrite length_drop, length_app in HW'. destruct Hw2. lia. }
    destruct (insert_text_spec W V D t ts Hset par_chunks Hpar max_insertion_len Hmax p1 l1 k2 out2 c1 a b2 new Hw2 Hids2 Hu Hlen)
      as (b3 & -> & out3 & Hw3 & Hids3 & Ev3 & (news & En & Hnews & Hfresh) & Eo3).
    { unfold seg. rewrite HW', Nat.add_sub'. by rewrite take_app_length. }
    destruct (delete_loop_spec W V D t ts Hset p1 l1 k2 out3 c1 a b3 e Hw3 Hids3 ltac:(lia) Be)
      as ([[c4 st4] b4] & -> & -> & p4 & l4 & k4 & out4 & Hw4 & Hids4 & [Hhid Hstr] & Eo4).
    assert (Hst1a : st ≤ st1 ≤ a) by (destruct Hr1 as [->|(? & ? & _ & _ & ?)]; lia).
    pose proof (kept_trans t st st1 a out out1 out2 Hst1a Ev1 Ev2) as Hkept. pose proof (hidden_text W t a e out3 out4 Hhid) as Ev4.
    pose proof (kept_text W V D t ts Hset st a out out2 Hkept) as Ev12.
    destruct (full_offset_spec _ _ _ _ _ _ _ Hw4) as [-> Hfull4].
    eapply returns_mono; [eapply (IH p4 l4 k4 out4 c4 e b4); [done|done|done|]|].
    { rewrite Eo4, Eo3, <-drop_drop, HW'. by rewrite drop_app_length. }
    intros [[[c5 st5] b5] op5] (p5 & l5 & k5 & out5 & Hw5 & Hids5 & (O1 & O2 & (rs & O3 & O4) & O5) & Ev5 & Eo5 & ext & Ee & Hext & rs' & O3' & Hrs & Hpl & Hov).
    exists p5, l5, k5, out5. split; [done|]. split; [done|]. split; [|split; [|split; [done|]]].
    + cbn in O1, O2, O3, O5. split_and!; [done|done| |by rewrite O5, <-app_assoc].
      eexists (_ :: rs). rewrite O3, <-app_assoc. split; [done|]. constructor; [by split|done].
    + rewrite Ev5, Ev4, Ev3, Ev12. cbn [spliced]. fold new. by rewrite <-!app_assoc.
    + destruct Hkept as (kept & -> & Ek), Hhid as (hid & -> & Eh & Hsub). subst out3 out5. exists (kept ++ news ++ hid ++ ext).
      rewrite <-!app_assoc. split; [done|]. rewrite E2, E1 in Hnews, Hfresh. rewrite Eo4, Eo3, E2, E1 in Hext, Hov. split.
      { intros G HG. exists kept, news, hid, (ext ++ G). rewrite <-!app_assoc. split_and!; try done. by apply Hext. }
      destruct (walk_place _ _ _ _ _ _ _ Hw) as [P0 _], (walk_place _ _ _ _ _ _ _ Hw2) as [P2 Q2], (walk_place _ _ _ _ _ _ _ Hw4) as [P4 Q4].
      destruct (keeps_trans _ _ _ _ _ _ _ _ _ Kp1 Kp2) as [K [EK (x1 & Ex1 & EyK)]], Hstr as [R [ER (x2 & Ex2 & EyR)]].
      apply app_inv_head in Ex1. subst x1. rewrite <-!app_assoc in Ex2. repeat apply app_inv_head in Ex2. subst x2.
      rewrite EK, ER, !length_app in P0. rewrite ER, length_app in P2.
      exists ((MkFullOffset (a + deleted_len p1), MkFullOffset (e + deleted_len p4)) :: rs'). cbn [eo_ranges] in O3'. rewrite O3', <-app_assoc. split; [done|].
      cbn [length texts fmap list_fmap full_edits zip_with fst snd full_offset places_ok]. fold new. rewrite <-Q2, <-Q4.
      split; [by rewrite Hrs|]. split; [split_and!; (done || lia)|]. rewrite EK, ER, overlay_step by lia.
      rewrite !layout_app, EyK, EyR, Hfresh, <-!app_assoc. do 3 f_equal. exact Hov.
Qed.
End Edits.
