(* ===== verification/RemoteWalk.v ===== *)
(** * A remote edit as a walk along the old fragments

    As for a local edit, [p] are the fragments passed, [k] bytes of the first
    fragment of [l] are consumed and [out] are the fragments built; here also
    hidden fragments are consumed in parts.  [layout (rest l k)] is what is
    still to be laid out. *)
From stdpp Require Import base numbers option list sorting.
From Stdlib Require Import Lia.
From S2P Require Import Prelude Clock SumTree SumTreeFacts SumTreeBulk Cursor CursorFacts CursorSeek CursorMove.
From S2P Require Import CursorIter Keyed Locator Patch PatchFacts Utf8 ChunkPointsFacts RopeTree Rope RopeBuild RopeSlice.
From S2P Require Import Fragment Snapshot Remote Document Walk Layout LocalEdit.
(** * The cursor of a remote edit

    A version has seen the fragments whose time stamp it has observed.  A
    cursor that counts their lengths only passes a run of fragments when its
    summary says that all or none are seen, so the position of the cursor is
    always a true offset; a run of which some are seen is entered. *)
#[local] Opaque TREE_BASE av_cap.
#[local] Existing Instances Dimensions_dimension Dimensions_seek_target unit_dimension.

Lemma observed_any_iff g h : observed_any g h = true ↔ ∃ r, (0 < get h r <= get g r)%N.
Proof.
  unfold observed_any. rewrite existsb_zip_spec. split.
  - intros (i & a & b & Ha & Hb & H). rewrite lookup_iter in Ha, Hb. exists (MkReplicaId (N.of_nat i)). rewrite !get_lookup.
    destruct (values g !! i), (values h !! i); simplify_eq/=. apply andb_prop in H as [H1%N.ltb_lt H2%N.leb_le]. lia.
  - intros ([r] & H). set (i := N.to_nat r). replace r with (N.of_nat i) in H by lia. rewrite !get_lookup in H.
    destruct (values g !! i) as [x|] eqn:Eg, (values h !! i) as [y|] eqn:Eh; cbn in H; try lia.
    do 3 eexists. rewrite !lookup_iter, Eg, Eh. split; [done|]. split; [done|]. cbn. apply andb_true_intro.
    split; [apply N.ltb_lt; lia|apply N.leb_le; lia].
Qed.

(** The end of the suffix does not depend on how positions are counted. *)
Section Forget.
Context {T Sm D : Type} `{SummaryLaws T Sm} `{Dimension D Sm}.
Implicit Types e : StackEntry T Sm D.
Definition forget_entry e : StackEntry T Sm unit := MkEntry (e_tree e) (e_index e) tt.
Definition forget (c : Cursor T Sm D) : Cursor T Sm unit :=
  MkCursor (c_tree c) (forget_entry <$> c_stack c) tt (c_did_seek c) (c_at_end c).

Lemma forget_path root hr st (n : SumTree T Sm) p r h : path (D:=D) root hr st n p r h → path root hr (forget_entry <$> st) n p r h.
Proof.
  induction 1 as [|st e ct c p r h hh s cs Hp IH He Hc Hpos]; [constructor|].
  eapply (path_child root hr _ (forget_entry e)); [done|done|done|]. cbn. by destruct (measure _).
Qed.
Lemma forget_at t c p l : cursor_at t c p l → cursor_at t (forget c) p l.
Proof.
  intros (Ht & Hs & _ & Hend & Hst). split_and!; try done.
  - cbn. by destruct (measure _).
  - cbn. rewrite Hend. by destruct (c_stack c).
  - cbn. destruct (c_stack c) as [|e rest]; [done|]. destruct Hst as (p1 & r1 & Hp & ?). exists p1, r1. split; [|done].
    by apply forget_path.
Qed.

Context {A : Type} (agg : SeekAggregate T Sm A).
Lemma forget_children e pos a ct cs :
  seek_children agg MkEnd Right (forget_entry e) tt a ct cs
  = let* '(e, _, a, child) := seek_children agg MkEnd Right e pos a ct cs in Ret (forget_entry e, tt, a, child).
Proof.
  revert e pos a cs. induction ct as [|t ct IH]; intros e pos a [|s cs]; try done. cbn.
  destruct (push_tree agg a t s); [|done..]. apply (IH (MkEntry _ _ _)).
Qed.
Lemma forget_items e pos a its iss :
  seek_items agg MkEnd Right (forget_entry e) tt a its iss
  = let* '(e, _, a, stopped) := seek_items agg MkEnd Right e pos a its iss in Ret (forget_entry e, tt, a, stopped).
Proof.
  revert e pos a iss. induction its as [|x its IH]; intros e pos a [|s iss]; try done. cbn.
  destruct (push_item agg a x s); [|done..]. apply (IH (MkEntry _ _ _)).
Qed.
Lemma forget_step st pos a asc :
  seek_step agg MkEnd Right (forget_entry <$> st, tt, a, asc)
  = let* r := seek_step agg MkEnd Right (st, pos, a, asc) in
    Ret (match r with
         | inl (st, _, a, asc) => inl (forget_entry <$> st, tt, a, asc)
         | inr (st, _, a) => inr (forget_entry <$> st, tt, a)
         end).
Proof.
  destruct st as [|e rest]; [done|]. cbn [fmap list_fmap seek_step].
  change (e_tree (forget_entry e)) with (e_tree e). destruct (e_tree e) as [hh s cs ct|s its iss] eqn:Et.
  - set (e1 := if asc then MkEntry (Internal hh s cs ct) (e_index e + 1) pos else e).
    replace (if asc then _ else forget_entry e) with (forget_entry e1) by (by destruct asc).
    change (e_index (forget_entry e1)) with (e_index e1). destruct (_ || _); [done|].
    rewrite (forget_children e1 pos). destruct (seek_children _ _ _ _ _ _ _ _) as [[[[e2 p2] a2] [c|]]| |]; try done. cbn.
    unfold stack_push. cbn [length]. change (list_fmap _ _ forget_entry rest) with (forget_entry <$> rest). rewrite length_fmap. by destruct (S (length rest) <? STACK_CAP).
  - change (e_index (forget_entry e)) with (e_index e). destruct (_ || _); [done|].
    rewrite (forget_items e pos). destruct (seek_items _ _ _ _ _ _ _ _) as [[[[e2 p2] a2] b2]| |]; try done. cbn.
    destruct (end_leaf agg a2); [|done..]. cbn. by destruct b2.
Qed.
Lemma forget_loop n st pos a asc :
  loop (seek_step agg MkEnd Right) n (forget_entry <$> st, tt, a, asc)
  = let* '(st, _, a) := loop (seek_step agg MkEnd Right) n (st, pos, a, asc) in Ret (forget_entry <$> st, tt, a).
Proof.
  revert st pos a asc. induction n as [|n IH]; intros st pos a asc; [done|]. cbn [loop].
  rewrite (forget_step st pos). destruct (seek_step _ _ _ _) as [[[[[st' p'] a'] asc']|[[st' p'] a']]| |]; try done; apply IH.
Qed.
End Forget.

Lemma seek_end {T Sm D A} `{Summary Sm} `{Dimension D Sm} (agg : SeekAggregate T Sm A) (c : Cursor T Sm D) a :
  c_did_seek c = true →
  seek_internal agg MkEnd Right c a
  = let* '(st, pos, a) := loop (seek_step agg MkEnd Right) (cursor_fuel (c_tree c)) (c_stack c, c_position c, a, false) in
    Ret (false, MkCursor (c_tree c) st pos true (match st with [] => true | _ :: _ => false end), a).
Proof. intros Hd. unfold seek_internal. by rewrite Hd. Qed.

Lemma suffix_items {T Sm D} `{SummaryLaws T Sm} `{Dimension D Sm} (t : SumTree T Sm) (c : Cursor T Sm D) p l :
  wf t → valid (tree_items t) → height t < STACK_CAP → cursor_at t c p l →
  returns (Cursor.suffix c) (λ '(s, _), wf s ∧ tree_items s = l).
Proof.
  intros Hw Hv Hh Hc. pose proof (forget_at _ _ _ _ Hc) as Hf. pose proof Hc as (_ & Hd & _).
  destruct (suffix_spec t Hw Hv Hh (forget c) p l (or_introl Hf)) as ([s c'] & E & _ & Hs & El).
  unfold Cursor.suffix, Cursor.slice in E |- *. rewrite (seek_end _ (forget c)) in E by done. rewrite (seek_end _ c) by done. cbn [forget c_tree c_stack c_position] in E.
  rewrite (forget_loop slice_aggregate _ (c_stack c) (c_position c)) in E.
  destruct (loop _ _ _) as [[[st pos] a]| |]; [|done..]. injection E as <- _. by apply returns_Ret.
Qed.

(** ** What a version has seen *)
Section Seen.
Context (v : Global).
#[local] Hint Extern 0 (Dimension VersionedFullOffset _) => exact (versioned_dimension v) : typeclass_instances.

Definition seen (f : Fragment) : bool := observed v (f_timestamp f).
(** The part of the length of a fragment that counts in full offsets. *)
Definition seen_size (f : Fragment) : nat := if seen f then f_len f else 0.
Definition seen_len (l : list Fragment) : nat := list_sum (seen_size <$> l).
Lemma seen_len_app l k : seen_len (l ++ k) = seen_len l + seen_len k.
Proof. unfold seen_len. by rewrite fmap_app, list_sum_app. Qed.
Lemma seen_len_cons f l : seen_len (f :: l) = seen_size f + seen_len l.
Proof. done. Qed.
Lemma seen_len_snoc l f : seen_len (l ++ [f]) = seen_len l + seen_size f.
Proof. rewrite seen_len_app, seen_len_cons. cbn. lia. Qed.
Lemma seen_len_le l : seen_len l ≤ visible_len l + deleted_len l.
Proof.
  induction l as [|f l IH] using rev_ind; [done|]. rewrite seen_len_snoc, visible_len_snoc, deleted_len_snoc. unfold seen_size.
  destruct (seen f), (f_visible f); lia.
Qed.

(** Time stamps are not zero: clocks start at one. *)
Definition stamped (l : list Fragment) : Prop := Forall (λ f, (0 < value (f_timestamp f))%N) l.

Lemma get_stamp t r : get (observe Global_new t) r = if decide (r = replica_id t) then value t else 0%N.
Proof. rewrite get_observe. change (get Global_new r) with 0%N. case_decide; [lia|done]. Qed.
Lemma observed_all_stamp t : observed_all v (observe Global_new t) = observed v t.
Proof.
  apply eq_bool_prop_intro. rewrite !Is_true_true, observed_all_iff by (by apply trimmed_observe). unfold observed. rewrite N.leb_le. split.
  - intros H. specialize (H (replica_id t)). rewrite get_stamp, decide_True in H by done. lia.
  - intros H r. rewrite get_stamp. case_decide; [by subst|lia].
Qed.
Lemma observed_any_stamp t : observed v t = false → observed_any v (observe Global_new t) = false.
Proof.
  intros H. apply not_true_iff_false. rewrite observed_any_iff. intros (r & Hr). rewrite get_stamp in Hr. unfold observed in H.
  apply N.leb_gt in H. case_decide; subst; lia.
Qed.

Lemma measure_seen l : measure (D := VersionedFullOffset) l = Offset (MkFullOffset (seen_len l)).
Proof.
  induction l as [|f l IH] using rev_ind; [done|]. rewrite measure_snoc, IH, seen_len_snoc. cbn. rewrite observed_all_stamp. unfold seen_size, seen.
  destruct (observed v (f_timestamp f)) eqn:E; [|rewrite observed_any_stamp by done; do 2 f_equal; lia].
  do 2 f_equal. destruct (f_visible f); cbn; lia.
Qed.

(** What a summary says of the insertions below it. *)
Lemma get_max_insertion l r : Forall (λ f, trimmed (f_max_undos f)) l →
  (∀ f, f ∈ l → (get (observe Global_new (f_timestamp f)) r <= get (fs_max_insertion_version (total l)) r)%N).
Proof.
  induction l as [|g l IH] using rev_ind; intros Hl f; [by intros ?%not_elem_of_nil|]. apply Forall_app in Hl as [Hl _].
  rewrite total_snoc. cbn. rewrite get_join. intros [Hf|Hf%list_elem_of_singleton]%elem_of_app; [specialize (IH Hl f Hf); lia|subst; lia].
Qed.
Lemma get_min_insertion l f : f ∈ l → (0 < value (f_timestamp f))%N →
  (0 < get (fs_min_insertion_version (total l)) (replica_id (f_timestamp f)) <= value (f_timestamp f))%N.
Proof.
  intros Hf Hv. induction l as [|g l IH] using rev_ind; [by apply not_elem_of_nil in Hf|].
  rewrite total_snoc. cbn. rewrite get_meet. unfold meet_entry.
  assert (Hg : ∀ t, get (observe Global_new t) (replica_id t) = value t) by (intros t; by rewrite get_stamp, decide_True).
  apply elem_of_app in Hf as [Hf|Hf%list_elem_of_singleton].
  - specialize (IH Hf). set (x := get (fs_min_insertion_version _) _) in *. set (y := get (observe _ _) _).
    destruct (N.eqb_spec x 0), (N.eqb_spec y 0); lia.
  - subst g. rewrite Hg. set (x := get (fs_min_insertion_version _) _) in *.
    destruct (N.eqb_spec x 0), (N.eqb_spec (value (f_timestamp f)) 0); lia.
Qed.
Lemma total_versions_trimmed l : Forall (λ f, trimmed (f_max_undos f)) l → trimmed (fs_max_insertion_version (total l)).
Proof. intros Hl. by destruct (total_trimmed l Hl) as (_ & _ & ?). Qed.

Lemma all_seen l : Forall (λ f, trimmed (f_max_undos f)) l →
  observed_all v (fs_max_insertion_version (total l)) = true → Forall (λ f, seen f = true) l.
Proof.
  intros Hl. rewrite observed_all_iff by (by apply total_versions_trimmed). intros H. apply Forall_forall. intros f Hf.
  pose proof (get_max_insertion l (replica_id (f_timestamp f)) Hl f Hf) as Hm. rewrite get_stamp, decide_True in Hm by done.
  specialize (H (replica_id (f_timestamp f))). unfold seen, observed. apply N.leb_le. lia.
Qed.
Lemma none_seen l : stamped l →
  observed_any v (fs_min_insertion_version (total l)) = false → Forall (λ f, seen f = false) l.
Proof.
  intros Hl H. apply Forall_forall. intros f Hf. unfold stamped in Hl. rewrite Forall_forall in Hl.
  pose proof (get_min_insertion l f Hf (Hl f Hf)) as Hm. unfold seen, observed. apply N.leb_gt.
  apply not_true_iff_false in H. rewrite observed_any_iff in H. apply N.nle_gt. intros Hle. apply H.
  exists (replica_id (f_timestamp f)). lia.
Qed.
Lemma seen_len_all l : Forall (λ f, seen f = true) l → seen_len l = visible_len l + deleted_len l.
Proof.
  induction l as [|f l IH] using rev_ind; [done|]. intros [Hl [Hf _]%Forall_cons]%Forall_app.
  rewrite seen_len_snoc, visible_len_snoc, deleted_len_snoc, IH by done. unfold seen_size. rewrite Hf. destruct (f_visible f); lia.
Qed.
Lemma seen_len_none l : Forall (λ f, seen f = false) l → seen_len l = 0.
Proof.
  induction 1 as [|f l Hf _ IH]; [done|]. rewrite seen_len_cons, IH. unfold seen_size. by rewrite Hf.
Qed.

(** A run whose summary measures it at all is measured right. *)
Lemma measured_run p l n : Forall (λ f, trimmed (f_max_undos f)) l → stamped l →
  dim_add (measure (D := VersionedFullOffset) p) (total l) = Offset (MkFullOffset n) → n = seen_len (p ++ l).
Proof.
  intros Hl Hs. rewrite measure_seen. cbn. rewrite total_text. cbn. rewrite seen_len_app.
  destruct (observed_all _ _) eqn:E1; [intros [= <-]; by rewrite (seen_len_all l) by (by apply all_seen)|].
  destruct (observed_any _ _) eqn:E2; [done|]. intros [= <-]. rewrite (seen_len_none l) by (by apply none_seen). lia.
Qed.

(** ** The cursor *)
Lemma measure_versioned l :
  measure (D := VersionedFullOffset * nat * unit) l = (Offset (MkFullOffset (seen_len l)), visible_len l, tt).
Proof.
  enough (measure (D := VersionedFullOffset * nat * unit) l = (measure (D := VersionedFullOffset) l, measure (D := nat) l, tt)) as ->
    by (by rewrite measure_seen, measure_visible).
  induction l as [|f l IH] using rev_ind; [done|]. rewrite !measure_snoc, IH. done.
Qed.

Section Target.
Context (a : nat).
Abbreviation past := (target_past (D := VersionedFullOffset * nat * unit) (MkFullOffset a) Left).
Lemma past_seen l : past (measure l) = (seen_len l <? a).
Proof.
  rewrite measure_versioned. unfold target_past, seek_cmp, Dimensions_seek_target, seek_cmp, versioned_target. cbn -[Nat.ltb].
  unfold cmp, nat_ord. destruct (Nat.compare_spec a (seen_len l)), (Nat.ltb_spec (seen_len l) a); try done; lia.
Qed.
Lemma versioned_skippable l : valid l → stamped l →
  skippable (D := VersionedFullOffset * nat * unit) (MkFullOffset a) Left l.
Proof.
  intros Hv Hs p q r -> Hq Hp. rewrite app_assoc in Hv, Hs. apply Forall_app in Hv as [Hv _], Hs as [Hs _].
  apply Forall_app in Hv as [_ Hv], Hs as [_ Hs].
  pose proof (measured_run p q) as Hm. rewrite measure_seen in Hm.
  assert (E : dim_add (measure (D := VersionedFullOffset * nat * unit) p) (total q) = measure (p ++ q)).
  { rewrite !measure_versioned in *. cbn -[dim_add] in *. change (dim_add (?x, ?y, ?z) ?s) with (dim_add x s, dim_add y s, dim_add z s) in *.
    unfold target_past, seek_cmp, Dimensions_seek_target, seek_cmp, versioned_target in Hp.
    destruct (dim_add (Offset _) _) as [[n]|]; [|done]. rewrite (Hm n Hv Hs eq_refl). cbn. by rewrite total_text, visible_len_app. }
  rewrite E in Hp. split; [done|]. rewrite past_seen in Hp. apply Nat.ltb_lt in Hp. clear Hv Hs Hm E Hq. intros l'.
  revert p Hp. induction q as [|f q IH]; intros p Hp; [by rewrite app_nil_r|]. cbn [advance app]. rewrite cons_middle, app_assoc in Hp.
  rewrite past_seen. destruct (Nat.ltb_spec (seen_len (p ++ [f])) a) as [_|Hge]; [|rewrite seen_len_app in Hp; lia].
  by rewrite IH, <-app_assoc.
Qed.

(** It stops at the first fragment that does not end before [a]. *)
Lemma advance_seen p l : seen_len p ≤ a →
  ∃ q l', advance past p l = (p ++ q, l') ∧ l = q ++ l' ∧ (q = [] ∨ seen_len (p ++ q) < a) ∧
    ∀ f l2, l' = f :: l2 → a ≤ seen_len (p ++ q) + seen_size f.
Proof.
  revert p. induction l as [|f l IH]; intros p Hp; cbn [advance].
  - exists [], []. rewrite app_nil_r. split_and!; [done|done|by left|done].
  - rewrite past_seen. rewrite seen_len_snoc. destruct (Nat.ltb_spec (seen_len p + seen_size f) a) as [Hlt|Hge].
    + destruct (IH (p ++ [f])) as (q & l' & E1 & -> & E3 & E4); [rewrite seen_len_snoc; lia|].
      exists (f :: q), l'. rewrite <-app_assoc in *. cbn [app] in *. split_and!; try done. right.
      destruct E3 as [->|?]; [rewrite seen_len_snoc; lia|done].
    + exists [], (f :: l). rewrite app_nil_r. split_and!; [done|done|by left|]. intros g l2 [= <- <-]. done.
Qed.
End Target.

Section Cursor.
Context (t : fragment_tree) (Hwf : wf t) (Hvalid : valid (tree_items t)) (Hheight : height t < STACK_CAP) (Hstamped : stamped (tree_items t)).
Implicit Types c : versioned_cursor.

Lemma versioned_slice c p l a : seekable_at t c p l → seen_len p ≤ a →
  returns (Cursor.slice c (MkFullOffset a) Left) (λ '(s, c'), ∃ q l',
    cursor_at t c' (p ++ q) l' ∧ l = q ++ l' ∧ wf s ∧ tree_items s = q ∧ (q = [] ∨ seen_len (p ++ q) < a) ∧
    ∀ f l2, l' = f :: l2 → a ≤ seen_len (p ++ q) + seen_size f).
Proof.
  intros Hc Ha. destruct (slice_skips t Hwf Hvalid Hheight (MkFullOffset a) Left (versioned_skippable a _ Hvalid Hstamped) c p l Hc)
    as ([s c'] & -> & Hs).
  { rewrite measure_versioned. unfold seek_cmp, Dimensions_seek_target, seek_cmp, versioned_target. cbn. unfold cmp, nat_ord.
    by destruct (Nat.compare_spec a (seen_len p)); [|lia|]. }
  destruct (advance_seen a p l Ha) as (q & l' & E & El & Hq & Hl'). rewrite E in Hs. destruct Hs as (Hc' & Hw & Ei).
  apply app_inv_head in Ei. apply returns_Ret. exists q, l'. by split_and!.
Qed.

Lemma versioned_reads c p l : cursor_at t c p l →
  start_full c = Ret (seen_len p) ∧ start_old c = visible_len p ∧ item c = Ret (head l) ∧
  end_full v c = Ret (seen_len p + match l with f :: _ => seen_size f | [] => 0 end).
Proof.
  intros Hc. pose proof Hc as (_ & _ & Hp & _). unfold start_full, start_old, end_full, start. rewrite Hp, measure_versioned.
  split; [done|]. split; [done|]. split; [by eapply item_at|]. erewrite end_at by done. unfold end_of.
  destruct l as [|f l]; cbn [head from_option]; rewrite measure_versioned; cbn; [by rewrite Nat.add_0_r|by rewrite seen_len_snoc].
Qed.
End Cursor.
End Seen.

Section Core.
Context (W : Lamport → list N) (V D : Rope) (t : fragment_tree) (ts : Lamport).
Hypothesis Hset : setup W V D t ts.
Abbreviation F := (tree_items t).
Abbreviation X := (vis_text W F).

(** Places in the old visible and deleted text. *)
Definition vis_at (p l : list Fragment) (k : nat) : nat :=
  visible_len p + match l with f :: _ => if f_visible f then k else 0 | [] => 0 end.
Definition del_at (p l : list Fragment) (k : nat) : nat :=
  deleted_len p + match l with f :: _ => if f_visible f then 0 else k | [] => 0 end.
Lemma vis_at_0 p l : vis_at p l 0 = visible_len p.
Proof. unfold vis_at. destruct l as [|f l]; [lia|]. destruct (f_visible f); lia. Qed.
Lemma del_at_0 p l : del_at p l 0 = deleted_len p.
Proof. unfold del_at. destruct l as [|f l]; [lia|]. destruct (f_visible f); lia. Qed.

Record core (p l : list Fragment) (k : nat) (out : list Fragment) (b : Building) : Prop := {
  k_items : F = p ++ l;
  k_part : k = 0 ∨ ∃ f l', l = f :: l' ∧ k ≤ f_len f ∧ str_is_char_boundary (text_of W f) k = true;
  k_builder : builder_ok (b_fragments b) out;
  k_frags : Forall (frag_ok W) out;
  k_cells : in_order (cells (out ++ rest l k));
  k_new : ∀ i, (ts, i) ∈ cells out → i < b_offset b;
  k_ropes : ropes_at V D (b_ropes b) (vis_at p l k) (del_at p l k) (vis_text W out) (del_text W out);
  k_size : visible_len out + deleted_len out = vis_at p l k + del_at p l k + b_offset b;
  k_offset : b_offset b ≤ length (W ts);
  k_patch : rewrites 0 0 (take (vis_at p l k) X) (b_patch b) (vis_text W out);
  k_sep : separated (b_patch b);
  k_insertions : sublist (b_insertions b) (insert_new <$> out);
  k_indexed : ∀ g, g ∈ out → insert_new g ∈ b_insertions b ∨ g ∈ F;
  k_keys : ∀ f, f ∈ F → fragment_key f ∈ fragment_key <$> out ++ rest l k;
  k_slices : b_slices b = slices_of ts out;
  k_kept : not_of ts (cells (out ++ rest l k)) = cells F;
  k_origin : ∀ g, g ∈ out → inserted ts g ∨ ∃ f, f ∈ F ∧ derived ts g f;
}.

(** ** A part of a fragment in the old texts *)
Lemma lens_cons f l : visible_len (f :: l) = (if f_visible f then f_len f else 0) + visible_len l ∧
  deleted_len (f :: l) = (if f_visible f then 0 else f_len f) + deleted_len l.
Proof. done. Qed.
Lemma window_deleted p f l k n : F = p ++ f :: l → f_visible f = false → k + n ≤ f_len f →
  take n (drop (deleted_len p + k) (del_text W F)) = take n (drop k (text_of W f)) ∧
  str_is_char_boundary (del_text W F) (deleted_len p + k) = str_is_char_boundary (text_of W f) k ∧
  deleted_len p + k + n ≤ length (del_text W F).
Proof.
  intros E Hf Hn. destruct (old_frags W V D t ts Hset p (f :: l) E) as [Hp Hl]. destruct (vis_lengths W V D t ts Hset p _ E) as [_ E1].
  apply Forall_cons in Hl as [Hfo Hl]. pose proof (text_of_length W f Hfo) as Elen.
  assert (Hut : utf8 (text_of W f ++ del_text W l)) by (apply utf8_app; [by destruct Hfo as (_ & _ & _ & ? & _)|by apply del_text_utf8]).
  rewrite E, del_text_app, del_text_cons, Hf, <-E1. split_and!.
  - rewrite drop_app_add', drop_app_le by lia. rewrite take_app_le; [done|]. rewrite length_drop. lia.
  - rewrite str_boundary_app by done. apply str_boundary_prefix; [by apply del_text_utf8|lia].
  - rewrite !length_app. lia.
Qed.

Lemma moved_part p f l k n : F = p ++ f :: l → k + n ≤ f_len f →
  moved V D (f_visible f) (vis_at p (f :: l) k) (del_at p (f :: l) k) n = text_of W (part f k n) ∧
  (str_is_char_boundary (text_of W f) k = true → str_is_char_boundary (text_of W f) (k + n) = true →
   let i := if f_visible f then vis_at p (f :: l) k else del_at p (f :: l) k in
   between_boundaries (old_text V D (f_visible f)) i (i + n)) ∧
  vis_at p (f :: l) (k + n) ≤ length X ∧ vis_at p (f :: l) (k + n) + del_at p (f :: l) (k + n) ≤ visible_len F + deleted_len F.
Proof.
  intros E Hn. rewrite text_of_part by done. unfold moved, between_boundaries, old_text, vis_at, del_at.
  pose proof (su_visible_text W V D t ts Hset) as EV. pose proof (su_deleted_text W V D t ts Hset) as ED.
  assert (EL : length X = visible_len F) by (apply vis_text_length; by destruct (su_doc W V D t ts Hset)).
  rewrite EL. destruct (f_visible f) eqn:Hf.
  - destruct (window W V D t ts Hset p f l k n E Hf Hn) as (E1 & E2 & E3).
    destruct (window W V D t ts Hset p f l (k + n) 0 E Hf ltac:(lia)) as (_ & E4 & _). rewrite EV, E1, E2. split; [done|].
    rewrite <-Nat.add_assoc, E4. split; [intros; split_and!; (done || lia)|].
    rewrite E, visible_len_app, deleted_len_app. destruct (lens_cons f l) as [-> ->]. rewrite Hf. lia.
  - destruct (window_deleted p f l k n E Hf Hn) as (E1 & E2 & E3).
    destruct (window_deleted p f l (k + n) 0 E Hf ltac:(lia)) as (_ & E4 & _). rewrite ED, E1, E2. split; [done|].
    rewrite <-Nat.add_assoc, E4. split; [intros; split_and!; (done || lia)|].
    rewrite E, visible_len_app, deleted_len_app. destruct (lens_cons f l) as [-> ->]. rewrite Hf. lia.
Qed.

(** ** Pushing a part *)
Lemma core_push p f l k n out b b1 g indexed :
  core p (f :: l) k out b → 0 < n → k + n ≤ f_len f → str_is_char_boundary (text_of W f) k = true →
  str_is_char_boundary (text_of W f) (k + n) = true → same_pieces b b1 → piece_of g f k n → derived ts g f →
  rewrites 0 0 (take (vis_at p (f :: l) (k + n)) X) (b_patch b1) (vis_text W (out ++ [g])) → separated (b_patch b1) →
  b_slices b1 = b_slices b ++ slices_of ts [g] → (indexed = true ∨ g = f) →
  returns (push_fragment (b_ropes b1) g (f_visible f)) (λ ropes, core p (f :: l) (k + n) (out ++ [g])
    (MkBuilding (builder_push (b_fragments b1) g) ropes
       (if indexed then b_insertions b1 ++ [insert_new g] else b_insertions b1) (b_slices b1) (b_offset b1) (b_patch b1))).
Proof.
  intros Hw Hn Hle Hk Hkn (Eb1 & Eb2 & Eb3 & Eb4) Hg Hd Hpatch Hsep Hsl Hix. destruct Hw.
  destruct (old_frags W V D t ts Hset _ _ k_items0) as [_ [Hfo _]%Forall_cons].
  assert (Hpart : frag_ok W (part f k n)) by (by apply frag_ok_part).
  destruct (piece_same W g f k n Hg Hpart) as (Hgo & Etg & Ecg). pose proof Hg as (Eg1 & Eg2 & Eg3 & Eg4).
  assert (Hin : f ∈ F) by (rewrite k_items0; apply elem_of_app; right; by left).
  assert (Hout : Forall (frag_ok W) (out ++ [g])) by (apply Forall_app; split; [done|by constructor; [|constructor]]).
  destruct (moved_part p f l k n k_items0 Hle) as (Emoved & Hbetween & _ & Htot).
  assert (Epos : vis_at p (f :: l) (k + n) = vis_at p (f :: l) k + (if f_visible f then n else 0) ∧
    del_at p (f :: l) (k + n) = del_at p (f :: l) k + (if f_visible f then 0 else n)).
  { unfold vis_at, del_at. destruct (f_visible f); lia. }
  destruct Epos as [Ev Ed].
  assert (Hlens : visible_len (out ++ [g]) + deleted_len (out ++ [g]) = vis_at p (f :: l) (k + n) + del_at p (f :: l) (k + n) + b_offset b).
  { rewrite visible_len_snoc, deleted_len_snoc, Ev, Ed, Eg3. destruct (f_visible g), (f_visible f); lia. }
  destruct (walk_small W V D t ts Hset (out ++ [g]) Hout) as [Sv Sd]; [lia|].
  unfold push_fragment. rewrite Eg3, Eb2. apply Nat.ltb_lt in Hn as Hn'. rewrite Hn'. cbn [rust_assert].
  destruct Hset as [HV HD SV SD].
  destruct (ropes_push_spec V D HV HD SV SD (b_ropes b) (vis_at p (f :: l) k) (del_at p (f :: l) k) (vis_text W out) (del_text W out) n (f_visible f) (f_visible g))
    as (rb & -> & Hrb); [done|by apply Hbetween| |].
  { rewrite Emoved, <-Etg. rewrite vis_text_snoc in Sv. rewrite del_text_snoc in Sd. by destruct (f_visible g). }
  assert (Ecells : cells ((out ++ [g]) ++ rest (f :: l) (k + n)) = cells (out ++ rest (f :: l) k)).
  { rewrite cells_app, cells_snoc, Ecg, <-app_assoc, <-rest_cells by done. by rewrite <-cells_app. }
  apply returns_Ret. split; cbn [b_fragments b_ropes b_insertions b_slices b_offset b_patch]; rewrite ?Eb1, ?Eb3, ?Eb4.
  - done.
  - right. exists f, l. split_and!; done.
  - by apply builder_push_ok.
  - done.
  - by rewrite Ecells.
  - intros i. rewrite cells_app, elem_of_app. intros [Hi|Hi]; [by apply k_new0|].
    apply elem_of_cells in Hi as (g' & Hg'%list_elem_of_singleton & Hts & _). subst g'.
    destruct (fresh_fragment W V D t ts Hset f Hin) as [Hne _]. congruence.
  - rewrite Emoved, <-Etg in Hrb. rewrite vis_text_snoc, del_text_snoc, Ev, Ed.
    destruct (f_visible g), (f_visible f); rewrite ?app_nil_r, ?Nat.add_0_r; exact Hrb.
  - lia.
  - done.
  - done.
  - done.
  - rewrite fmap_app. destruct indexed; [by apply sublist_app|]. by apply sublist_inserts_r.
  - intros g' [Hg'|Hg'%list_elem_of_singleton]%elem_of_app.
    + destruct (k_indexed0 g' Hg') as [?|?]; [left|by right]. destruct indexed; [apply elem_of_app; by left|done].
    + subst g'. destruct Hix as [->| ->]; [left; apply elem_of_app; right; by left|by right].
  - intros f' Hf'. specialize (k_keys0 f' Hf'). rewrite !fmap_app, !elem_of_app in *. destruct k_keys0 as [?|Hk']; [tauto|].
    destruct (rest_keys f l k n Hn Hle _ Hk') as [Ek|?]; [|tauto]. left. right. rewrite Ek. apply list_elem_of_singleton.
    unfold fragment_key. cbn. by rewrite Eg1, Eg2.
  - by rewrite Hsl, k_slices0, slices_of_app.
  - by rewrite Ecells.
  - intros g' [Hg'|Hg'%list_elem_of_singleton]%elem_of_app; [by apply k_origin0|]. subst g'. right. by exists f.
Qed.

(** A fragment that is consumed is left. *)
Lemma core_leave p f l out b : core p (f :: l) (f_len f) out b → core (p ++ [f]) l 0 out b.
Proof.
  intros []. destruct (old_frags W V D t ts Hset _ _ k_items0) as [_ [(Hlen & _) _]%Forall_cons].
  assert (Ev : vis_at p (f :: l) (f_len f) = visible_len (p ++ [f])) by (by rewrite visible_len_snoc).
  assert (Ed : del_at p (f :: l) (f_len f) = deleted_len (p ++ [f])) by (by rewrite deleted_len_snoc).
  rewrite (rest_end f l) in * by done. rewrite Ev, Ed in *.
  split; rewrite ?rest_0, ?vis_at_0, ?del_at_0; try done; [by rewrite <-app_assoc|by left].
Qed.

(** Whole fragments are taken over. *)
Lemma core_run p q l out b s : core p (q ++ l) 0 out b → wf s → tree_items s = q →
  returns (append_slice b s) (λ b', core (p ++ q) l 0 (out ++ q) b').
Proof.
  intros Hw Hs Eq. pose proof Hw as []. rewrite vis_at_0, del_at_0, rest_0 in *.
  pose proof (old_frags W V D t ts Hset _ _ k_items0) as [_ [Hq _]%Forall_app]. destruct (run_texts W V D t ts Hset p q l k_items0) as (M1 & M2 & B1 & B2).
  assert (Hok : Forall (frag_ok W) (out ++ q)) by (apply Forall_app; by split).
  pose proof k_items0 as E. rewrite app_assoc in E. destruct (junction W V D t ts Hset (p ++ q) l E) as (B3 & B4 & _).
  destruct (consumed_le t (p ++ q) l 0 E) as [L1 L2]; [by left|]. rewrite Nat.add_0_r, visible_len_app in L1. rewrite deleted_len_app in L2.
  destruct (walk_small W V D t ts Hset (out ++ q) Hok) as [Sv Sd]; [rewrite visible_len_app, deleted_len_app; lia|].
  pose proof Sv as Sv'. pose proof Sd as Sd'. rewrite vis_text_app in Sv'. rewrite del_text_app in Sd'.
  unfold append_slice. rewrite wf_summary, Eq, total_text by done. pose proof Hset as [HV HD SV SD].
  destruct (ropes_append_spec V D HV HD SV SD (b_ropes b) (visible_len p) (deleted_len p) (vis_text W out) (del_text W out)
    (MkFragmentText (visible_len q) (deleted_len q))) as (rb & -> & Hrb); cbn [ft_visible ft_deleted]; rewrite ?M1, ?M2; try done.
  cbn [ft_visible ft_deleted] in Hrb. rewrite M1, M2 in Hrb.
  assert (Hqin : ∀ g, g ∈ q → g ∈ F) by (intros g Hg; rewrite k_items0, !elem_of_app; tauto).
  apply returns_Ret. split; cbn [b_fragments b_ropes b_insertions b_slices b_offset b_patch]; rewrite ?vis_at_0, ?del_at_0, ?rest_0.
  - done.
  - by left.
  - rewrite <-Eq. apply builder_append_ok; [done|done|]. rewrite Eq. by eapply frag_ok_valid.
  - done.
  - by rewrite <-app_assoc.
  - intros i. rewrite cells_app, elem_of_app. intros [Hi|Hi]; [by apply k_new0|].
    apply elem_of_cells in Hi as (f & Hf & Hts & _). by destruct (fresh_fragment W V D t ts Hset f (Hqin f Hf)).
  - by rewrite visible_len_app, deleted_len_app, vis_text_app, del_text_app.
  - rewrite !visible_len_app, !deleted_len_app in *. lia.
  - done.
  - rewrite vis_text_app, (take_visible W V D t ts Hset (p ++ q) l), vis_text_app by done.
    rewrite (take_visible W V D t ts Hset p (q ++ l)) in k_patch0 by done. by apply rewrites_keep.
  - done.
  - rewrite fmap_app. by apply sublist_inserts_r.
  - intros g [Hg|Hg]%elem_of_app; [by apply k_indexed0|right; by apply Hqin].
  - intros f Hf. rewrite <-app_assoc. by apply k_keys0.
  - rewrite k_slices0, slices_of_app, (slices_of_none ts q), app_nil_r; [done|]. rewrite Forall_forall. intros g Hg. by apply (untouched W V D t ts Hset), Hqin.
  - by rewrite <-app_assoc.
  - intros g [Hg|Hg]%elem_of_app; [by apply k_origin0|]. right. exists g. split; [by apply Hqin|apply derived_self].
Qed.

Lemma core_places p l k out b : core p l k out b → vis_at p l k ≤ length X ∧ vis_at p l k + del_at p l k ≤ visible_len F + deleted_len F.
Proof.
  intros []. assert (EL : length X = visible_len F) by (apply vis_text_length; by destruct (su_doc W V D t ts Hset)).
  destruct k_part0 as [->|(f & l' & -> & Hk & _)].
  - rewrite vis_at_0, del_at_0, EL, k_items0, visible_len_app, deleted_len_app. lia.
  - destruct (moved_part p f l' k 0 k_items0 ltac:(lia)) as (_ & _ & H). by rewrite Nat.add_0_r in H.
Qed.
(** New text is inserted. *)
Context (par_chunks : ∀ A : Type, nat → list A → list (list A)).
Hypothesis Hpar : chunks_spec par_chunks.
Context (max_insertion_len : N).
Hypothesis Hmax : (4 <= max_insertion_len)%N.

Lemma core_insert p l k out b new_text :
  core p l k out b → ids_ok (out ++ l) → utf8 new_text → b_offset b + length new_text ≤ length (W ts) →
  seg (W ts) (b_offset b) (b_offset b + length new_text) = new_text → new_text ≠ [] →
  returns (push_fragments_for_insertion par_chunks max_insertion_len new_text ts b (next_id l) ts) (λ b',
    usize_add (visible_len out) (length new_text) = Ret (visible_len out + length new_text) ∧ ∃ news,
    core p l k (out ++ news) (push_edit b' (MkTextEdit (MkRange (vis_at p l k) (vis_at p l k)) (MkRange (visible_len out) (visible_len out + length new_text)))) ∧
    ids_ok (out ++ news ++ l) ∧ layout news = fresh_cells_of ts (b_offset b) (length new_text) ∧ b_offset b' = b_offset b + length new_text).
Proof.
  intros Hw Hids Hu Hlen Hseg Hne. destruct (core_places _ _ _ _ _ Hw) as [Hst Htot]. pose proof (su_total W V D t ts Hset) as Htotal. destruct Hw.
  destruct (push_insertion_spec W V D t ts Hset par_chunks Hpar max_insertion_len Hmax out l _ _ b new_text k_builder0 k_frags0 Hids k_ropes0)
    as (b1 & -> & news & Hi & Hro); [lia|done..|].
  destruct Hi. cbn [b_fragments b_ropes b_insertions b_slices b_offset b_patch] in *.
  assert (Hvis : vis_text W news = new_text) by (by rewrite i_text, take_ge by lia).
  destruct (all_visible W news) as (_ & Hdel & Hdlen); [eapply Forall_impl; [exact i_inserted|]; by intros g (_ & ? & _)|].
  apply returns_Ret. split; [apply usize_add_ok; unfold U32_MAX, U64_MAX in *; lia|]. exists news. split; [|split; [done|split; [|done]]].
  2: { rewrite (layout_inserted ts), i_cells by done. unfold fresh_cells_of. by rewrite <-list_fmap_compose. }
  assert (Eedit : MkTextEdit (MkRange (vis_at p l k) (vis_at p l k)) (MkRange (visible_len out) (visible_len out + length new_text))
    = edit_at (vis_at p l k) (visible_len out) [] new_text) by (unfold edit_at; by rewrite Nat.add_0_r).
  rewrite Eedit. split; cbn [b_fragments b_ropes b_insertions b_slices b_offset b_patch push_edit]; try done.
  - apply Forall_app; by split.
  - rewrite !cells_app, i_cells, <-app_assoc in *. apply in_order_insert; [done|done|]. intros i. by apply (rest_fresh W V D t ts Hset p l k i).
  - intros i. rewrite cells_app, elem_of_app, i_cells, list_elem_of_fmap, i_offset. intros [Hin|(j & [= ->] & Hj%elem_of_seq)]; [|lia].
    apply k_new0 in Hin. lia.
  - by rewrite vis_text_app, del_text_app, Hvis, Hdel, app_nil_r.
  - rewrite visible_len_app, deleted_len_app, Hdlen, i_offset, <-(vis_text_length W news), Hvis by done. lia.
  - lia.
  - rewrite i_patch, vis_text_app, Hvis. rewrite <-(app_nil_r (take (vis_at p l k) X)).
    apply rewrites_push; [done|rewrite length_take; lia|by rewrite vis_text_length].
  - rewrite i_patch. eapply separated_push; [done|done|rewrite length_take; lia|by rewrite vis_text_length].
  - rewrite i_insertions, fmap_app. by apply sublist_app.
  - rewrite i_insertions. intros g [Hg|Hg]%elem_of_app.
    + destruct (k_indexed0 g Hg); [left; apply elem_of_app; by left|by right].
    + left. apply elem_of_app. right. by apply list_elem_of_fmap_2.
  - intros f Hf. specialize (k_keys0 f Hf). rewrite !fmap_app, !elem_of_app in *. tauto.
  - rewrite i_slices, slices_of_app, (slices_of_all ts news), k_slices0; [done|]. eapply Forall_impl; [exact i_inserted|].
    intros g (Hg & _). apply bool_decide_eq_true. by left.
  - rewrite <-k_kept0, !cells_app, i_cells, !not_of_app, not_of_none, app_nil_r. done.
  - intros g [Hg|Hg]%elem_of_app; [by apply k_origin0|]. left. rewrite Forall_forall in i_inserted. by apply i_inserted.
Qed.

(** Between fragments it is the walk of a local edit. *)
Lemma walk_core p l out c st b : walk W V D t ts p l 0 out c st b → core p l 0 out b.
Proof.
  intros []. rewrite Nat.add_0_r in w_start. subst st. split; rewrite ?vis_at_0, ?del_at_0; try done; [by eapply walk_items|by left].
Qed.
Lemma core_walk p l out c b : core p l 0 out b → cursor_at t c p l → walk W V D t ts p l 0 out c (visible_len p) b.
Proof.
  intros [] Hc. rewrite vis_at_0, del_at_0 in *. destruct (junction W V D t ts Hset p l k_items0) as (J & _).
  split; try done; by left.
Qed.
End Core.
