(* ===== verification/RemoteEdit.v ===== *)
(** * Remote edits, step by step

    Every step of [remote_snapshot] keeps the walk and lays out what
    [integrate] says. *)
From stdpp Require Import base numbers option list sorting sets.
From Stdlib Require Import Lia.
From S2P Require Import Prelude Clock SumTree SumTreeFacts SumTreeBulk Cursor CursorFacts CursorSeek CursorMove CursorIter Keyed KeyedFacts Locator UndoMap Patch PatchFacts.
From S2P Require Import Utf8 ChunkPointsFacts RopeTree Rope RopeBuild RopeSlice Fragment Snapshot Remote Document Walk Layout RemoteWalk LocalEdit.
#[local] Opaque TREE_BASE av_cap.
#[local] Existing Instances Dimensions_dimension Dimensions_seek_target unit_dimension.

(** ** Places in the text a version has seen *)
Section Places.
Context (W : Lamport → list N) (v : Global).
Definition seen_cells (c : list (Lamport * nat)) : list (Lamport * nat) := List.filter (λ x, observed v x.1) c.
Definition char_start (c : Lamport * nat) : Prop :=
  match W c.1 !! c.2 with Some b => is_utf8_char_boundary b = true | None => True end.
(** The place before the [a]th seen cell is a character boundary. *)
Definition cut_ok (c : list (Lamport * nat)) (a : nat) : Prop :=
  match seen_cells c !! a with Some x => char_start x | None => True end.

Lemma seen_cells_app c d : seen_cells (c ++ d) = seen_cells c ++ seen_cells d.
Proof. apply List.filter_app. Qed.
Lemma seen_cells_fragment f : seen_cells (fragment_cells f) = if seen v f then fragment_cells f else [].
Proof.
  unfold seen_cells, fragment_cells, seen. generalize (seq (f_insertion_offset f) (f_len f)) as l. intros l.
  destruct (observed v (f_timestamp f)) eqn:E; induction l as [|i l IH]; cbn; rewrite ?E; [done| |done|done]. f_equal. exact IH.
Qed.
Lemma seen_cells_length l : length (seen_cells (cells l)) = seen_len v l.
Proof.
  induction l as [|f l IH]; [done|]. rewrite cells_cons, seen_cells_app, length_app, IH, seen_cells_fragment, seen_len_cons. unfold seen_size.
  destruct (seen v f); [by rewrite fragment_cells_length|done].
Qed.
Lemma cut_inside p f l a : seen v f = true → seen_len v p ≤ a < seen_len v p + f_len f → frag_ok W f → cut_ok (cells (p ++ f :: l)) a →
  str_is_char_boundary (text_of W f) (a - seen_len v p) = true.
Proof.
  intros Hs Ha Hf. unfold cut_ok. rewrite cells_app, cells_cons, !seen_cells_app, seen_cells_fragment, Hs.
  rewrite lookup_app_r by (rewrite seen_cells_length; lia). rewrite seen_cells_length, lookup_app_l by (rewrite fragment_cells_length; lia).
  set (i := a - seen_len v p). assert (Hi : i < f_len f) by lia. unfold fragment_cells. rewrite list_lookup_fmap, lookup_seq_lt by done. cbn.
  unfold char_start, str_is_char_boundary. cbn. destruct (i =? 0); [done|]. unfold text_of. rewrite lookup_take_lt, lookup_drop by done.
  destruct (W (f_timestamp f) !! (f_insertion_offset f + i)) eqn:E; [done|]. apply lookup_ge_None in E. destruct Hf as (_ & H & _). lia.
Qed.
End Places.

(** ** What the version saw as visible *)
Definition undone_at (m : UndoMap) (v : Global) (e : Lamport) : bool :=
  (max_count (observed v) (List.filter (of_edit e) (tree_items m)) mod 2 =? 1)%N.
Definition was (v : Global) (u : Lamport → bool) (f : Fragment) : bool :=
  seen v f && negb (u (f_timestamp f)) && forallb (λ d, negb (observed v d) || u d) (f_deletions f).
Lemma was_visible_spec m v f : keyed_wf m → height m < STACK_CAP → was_visible f v m = Ret (was v (undone_at m v) f).
Proof.
  intros Hm Hh. unfold was_visible, was, seen. destruct (observed v (f_timestamp f)); [|done].
  assert (E : ∀ e, was_undone m e v = Ret (undone_at m v e)) by (intros e; by apply undone_parity).
  rewrite E. cbn. destruct (undone_at m v (f_timestamp f)); [done|]. cbn. induction (f_deletions f) as [|d l IH]; [done|]. cbn.
  destruct (observed v d); cbn; [rewrite E; by destruct (undone_at m v d)|done].
Qed.
Lemma a_was_laid v u f c : c ∈ laid f → a_was v u c = was v u f.
Proof. intros Hc. pose proof (laid_stamp c f Hc) as E. apply elem_of_laid in Hc as (_ & Ed & _). unfold a_was, was, a_seen, seen. by rewrite E, Ed. Qed.
Lemma count_seen_laid v f : count_seen v (laid f) = seen_size v f.
Proof.
  assert (H : Forall (λ c, a_seen v c = seen v f) (laid f)).
  { apply Forall_forall. intros c Hc. unfold a_seen, seen. by rewrite (laid_stamp c f Hc). }
  unfold seen_size. rewrite <-(laid_length f). revert H. generalize (laid f). intros L. unfold count_seen.
  induction 1 as [|c L Hc _ IH]; cbn; [by destruct (seen v f)|]. rewrite Hc. destruct (seen v f); cbn; [by rewrite IH|done].
Qed.
Lemma count_seen_layout v l : count_seen v (layout l) = seen_len v l.
Proof. induction l as [|f l IH]; [done|]. by rewrite layout_cons, count_seen_app, count_seen_laid, IH, seen_len_cons. Qed.
Lemma layout_ends_seen v l f : seen v f = true → 0 < f_len f → ends_seen v (layout (l ++ [f])).
Proof.
  intros Hs Hl. rewrite layout_app, layout_one. unfold ends_seen. rewrite last_app_nonnil by (rewrite <-length_zero_iff_nil, laid_length; lia).
  destruct (last (laid f)) as [c|] eqn:E; [|done]. apply last_Some_elem_of in E. unfold a_seen. by rewrite (laid_stamp c f E).
Qed.

(** ** The walk *)
Section Steps.
Context (W : Lamport → list N) (V D : Rope) (t : fragment_tree) (ts : Lamport).
Hypothesis Hset : setup W V D t ts.
Abbreviation F := (tree_items t).
Abbreviation X := (vis_text W F).
Context (v : Global).
#[local] Hint Extern 0 (Dimension VersionedFullOffset _) => exact (versioned_dimension v) : typeclass_instances.
Hypothesis Hstamped : stamped F.
(** What the version has seen is older than the edit. *)
Hypothesis Holder : ∀ f, f ∈ F → seen v f = true → lt_b ts (f_timestamp f) = false.
Abbreviation core := (core W V D t ts).

Record rwalk (p l : list Fragment) (k : nat) (out : list Fragment) (c : versioned_cursor) (st : nat) (b : Building) : Prop := {
  r_core : core p l k out b;
  r_cursor : cursor_at t c p l;
  r_start : st = seen_len v p + k;
  r_part : k = 0 ∨ ∃ f l', l = f :: l' ∧ seen v f = true ∧ k < f_len f;
  r_ids : ids_ok (out ++ l);
}.

Lemma tree_ok : wf t ∧ valid F ∧ height t < STACK_CAP.
Proof. destruct Hset. split_and!; [done|by eapply F_valid|done]. Qed.
Lemma rwalk_reads p l k out c st b : rwalk p l k out c st b →
  start_full c = Ret (seen_len v p) ∧ start_old c = visible_len p ∧ item c = Ret (head l) ∧
  end_full v c = Ret (seen_len v p + match l with f :: _ => seen_size v f | [] => 0 end).
Proof. destruct tree_ok as (Hw & _ & Hh). intros []. by eapply versioned_reads. Qed.
Lemma rwalk_next p f l out c b : cursor_at t c p (f :: l) → core p (f :: l) (f_len f) out b → ids_ok (out ++ l) →
  returns (next c) (λ c', rwalk (p ++ [f]) l 0 out c' (seen_len v (p ++ [f])) b).
Proof.
  destruct tree_ok as (Hw & Hv & Hh). intros Hc Hk Hids. eapply returns_mono; [by eapply next_at|]. intros c' Hc'. cbn [take drop] in Hc'.
  rewrite drop_0 in Hc'. split; [by eapply core_leave|done|by rewrite Nat.add_0_r|by left|done].
Qed.
Lemma walk_frag p f l k out c st b : rwalk p (f :: l) k out c st b → frag_ok W f ∧ f ∈ F ∧ F = p ++ f :: l.
Proof.
  intros [[E]]. destruct (old_frags W V D t ts Hset _ _ E) as [_ [Hf _]%Forall_cons]. split_and!; [done| |done].
  rewrite E. apply elem_of_app. right. by left.
Qed.

Lemma part_kept f k n g : f ∈ F → piece_of g f k n → f_visible g = f_visible f → f_deletions g = f_deletions f → k + n ≤ f_len f →
  derived ts g f ∧ slices_of ts [g] = [] ∧ laid g = laid (part f k n).
Proof.
  intros Hin (E1 & E2 & E3 & E4) Ev Ed Hn. destruct (fresh_fragment W V D t ts Hset f Hin) as [H1 H2]. split_and!.
  - split_and!; [done|done|exists k; split; [done|lia]|by left].
  - apply slices_of_none. constructor; [|constructor]. apply bool_decide_eq_false. rewrite E1, Ed. tauto.
  - unfold laid, fragment_cells. by rewrite E1, E2, E3, Ev, Ed.
Qed.

(** Pushing a part that stays as it is. *)
Lemma keep_part p f l k n out c st b g indexed :
  rwalk p (f :: l) k out c st b → 0 < n → k + n ≤ f_len f → str_is_char_boundary (text_of W f) (k + n) = true →
  piece_of g f k n → f_visible g = f_visible f → f_deletions g = f_deletions f → (indexed = true ∨ g = f) →
  returns (push_fragment (b_ropes b) g (f_visible g)) (λ ropes, core p (f :: l) (k + n) (out ++ [g])
    (MkBuilding (builder_push (b_fragments b) g) ropes (if indexed then b_insertions b ++ [insert_new g] else b_insertions b)
       (b_slices b) (b_offset b) (b_patch b))).
Proof.
  intros Hw Hn Hle Hb Hg Ev Ed Hix. destruct (walk_frag _ _ _ _ _ _ _ _ Hw) as (Hf & Hin & E). destruct Hw as [Hk _ _ Hpart _].
  destruct (part_kept f k n g Hin Hg Ev Ed Hle) as (Hd & Hsl & _). rewrite Ev.
  eapply core_push; try done.
  - destruct Hk as [_ [->|(f' & l' & [= <- <-] & _ & ?)]]; [by unfold str_is_char_boundary|done].
  - destruct (moved_part W V D t ts Hset p f l k n E Hle) as (Em & _ & Hl & _). pose proof (k_patch _ _ _ _ _ _ _ _ _ _ Hk) as Hp.
    destruct Hk. destruct (piece_same W g f k n Hg) as (_ & Etg & _).
    { apply frag_ok_part; try done. destruct k_part as [->|(f' & l' & [= <- <-] & _ & ?)]; [by unfold str_is_char_boundary|done]. }
    rewrite vis_text_snoc, Ev, Etg, <-Em. unfold moved, old_text. unfold vis_at, del_at in *. pose proof (su_visible_text W V D t ts Hset) as EV.
    destruct (f_visible f); [|by rewrite app_nil_r]. rewrite EV, Nat.add_assoc. replace (take _ X) with (take (visible_len p + k) X ++ take n (drop (visible_len p + k) X)).
    + by apply rewrites_keep.
    + rewrite take_take_drop. done.
  - by destruct Hk.
  - by rewrite Hsl, app_nil_r.
Qed.

Abbreviation lays1 x := (lays x x).
Lemma same_id (f g : Fragment) l out : f_id g = f_id f → ids_ok (out ++ f :: l) → ids_ok ((out ++ [g]) ++ l).
Proof. clear. intros Eg. unfold ids_ok. rewrite !fmap_app. cbn [fmap list_fmap]. by rewrite Eg, <-!app_assoc. Qed.

(** ** The rest of a fragment *)
Lemma push_suffix_spec p f l k out c st b :
  rwalk p (f :: l) k out c st b → seen v f = true →
  returns (push_suffix v c st b) (λ b', returns (next c) (λ c', ∃ g,
    rwalk (p ++ [f]) l 0 (out ++ [g]) c' (seen_len v (p ++ [f])) b' ∧ b_offset b' = b_offset b ∧ f_len g ≠ 0 ∧
    lays1 (laid g) (f :: l) k out l 0 (out ++ [g]) ∧ count_seen v (laid g) = f_len f - k ∧ ends_seen v (laid g))).
Proof.
  intros Hw Hs. destruct (rwalk_reads _ _ _ _ _ _ _ Hw) as (E1 & E2 & E3 & E4). destruct (walk_frag _ _ _ _ _ _ _ _ Hw) as (Hf & Hin & E).
  pose proof Hw as [Hk Hc -> Hpart Hids]. pose proof Hf as (Hpos & _).
  assert (Hkl : k < f_len f) by (destruct Hpart as [->|(? & ? & [= <- <-] & _ & ?)]; lia).
  unfold push_suffix. rewrite E4, E3, E1. cbn [head unwrap]. unfold seen_size. rewrite Hs, !usize_sub_ok by lia.
  replace (seen_len v p + f_len f - (seen_len v p + k)) with (f_len f - k) by lia. replace (seen_len v p + k - seen_len v p) with k by lia.
  rewrite (part_of_ok W) by (done || lia). set (g := part f k (f_len f - k)).
  assert (Eend : k + (f_len f - k) = f_len f) by lia.
  destruct (keep_part p f l k (f_len f - k) out c _ b g true Hw) as (rp & Er & Hk'); try done; [lia|lia| |by left|].
  { rewrite Eend, <-(text_of_length W f Hf). apply str_boundary_end. }
  unfold push_piece. rewrite Er. apply returns_Ret. rewrite Eend in Hk'.
  eapply returns_mono; [eapply rwalk_next; [done|exact Hk'|by apply (same_id f g)]|]. intros c' Hw'. exists g. split; [done|]. split; [done|].
  split; [cbn; lia|]. split; [eapply lays_piece; [|lia|done|]; [lia|by rewrite Eend, rest_end, rest_0 by done]|].
  assert (Hsg : seen v g = true) by done. split; [rewrite count_seen_laid; unfold seen_size; by rewrite Hsg|].
  pose proof (layout_ends_seen v [] g Hsg) as Hend. cbn [app] in Hend. rewrite layout_one in Hend. apply Hend. cbn. lia.
Qed.

Lemma consume_rest_spec p l k out c st b :
  rwalk p l k out c st b →
  returns (consume_rest v c st b) (λ '(c', b'), ∃ p' l' out' st' x,
    rwalk p' l' 0 out' c' st' b' ∧ b_offset b' = b_offset b ∧ lays1 x l k out l' 0 out' ∧ count_seen v x = st' - st ∧
    st' = (match l with f :: _ => if k =? 0 then st else seen_len v p + f_len f | [] => st end)).
Proof.
  intros Hw. destruct (rwalk_reads _ _ _ _ _ _ _ Hw) as (E1 & _ & _ & E4). pose proof Hw as [Hk Hc Est Hpart Hids].
  unfold consume_rest. rewrite E1. destruct (Nat.ltb_spec (seen_len v p) st) as [Hlt|Hge].
  - destruct Hpart as [->|(f & l' & -> & Hs & Hkl)]; [lia|]. rewrite E4. unfold seen_size. rewrite Hs.
    destruct (Nat.ltb_spec st (seen_len v p + f_len f)); [|lia].
    destruct (push_suffix_spec _ _ _ _ _ _ _ _ Hw Hs) as (b' & -> & c' & -> & g & Hw' & Hb & _ & Hl & Hcnt & _). apply returns_Ret.
    eexists _, _, _, _, _. split; [exact Hw'|]. split; [done|]. split; [exact Hl|]. destruct (Nat.eqb_spec k 0); [lia|].
    rewrite seen_len_snoc. unfold seen_size. rewrite Hs. split; [lia|done].
  - assert (k = 0) as -> by lia. apply returns_Ret. exists p, l, out, st, []. split; [done|]. split; [done|]. split; [apply lays_refl|].
    split; [cbn; lia|]. by destruct l.
Qed.

(** ** Going to a place *)
Lemma jump_to_spec a p l k out c st b :
  rwalk p l k out c st b → st ≤ a ≤ seen_len v F →
  returns (jump_to v a c st b) (λ '(c', st', b'),
    (st = a ∧ c' = c ∧ st' = st ∧ b' = b) ∨
    (st' < a ∧ ∃ p' l' k' out' x f l2, rwalk p' l' k' out' c' st' b' ∧ b_offset b' = b_offset b ∧ lays1 x l k out l' k' out' ∧
       count_seen v x = st' - st ∧ st ≤ st' ∧ l' = f :: l2 ∧ seen v f = true ∧ a ≤ seen_len v p' + f_len f)).
Proof.
  intros Hw Ha. destruct (rwalk_reads _ _ _ _ _ _ _ Hw) as (E1 & _ & _ & E4). pose proof Hw as [Hk Hc Est Hpart Hids].
  destruct tree_ok as (Ht & Hv & Hh). unfold jump_to. rewrite E4.
  destruct (Nat.ltb_spec (seen_len v p + match l with f :: _ => seen_size v f | [] => 0 end) a) as [Hlt|Hge].
  - destruct (consume_rest_spec _ _ _ _ _ _ _ Hw) as ([c1 b1] & -> & p1 & l1 & out1 & st1 & x1 & Hw1 & Hb1 & Hl1 & Hx1 & Est1).
    assert (Hst1 : st ≤ st1 < a).
    { rewrite Est1. destruct l as [|f l]; [destruct Hpart as [->|(? & ? & ? & _)]; [lia|done]|]. destruct (Nat.eqb_spec k 0); [lia|].
      destruct Hpart as [?|(? & ? & [= <- <-] & Hs & ?)]; [lia|]. unfold seen_size in Hlt. rewrite Hs in Hlt. lia. }
    pose proof Hw1 as [Hk1 Hc1 Est1' _ Hids1]. rewrite Nat.add_0_r in Est1'.
    destruct (versioned_slice v t Ht Hv Hh Hstamped c1 p1 l1 a (or_introl Hc1) ltac:(lia)) as ([s c2] & -> & q & l' & Hc2 & El & Hs & Eq & Hq & Hend).
    rewrite El in *. destruct (core_run W V D t ts Hset p1 q l' out1 b1 s Hk1 Hs Eq) as (b2 & Eb2 & Hk2). rewrite Eb2.
    assert (Hb2 : b_offset b2 = b_offset b1) by (unfold append_slice in Eb2; destruct (ropes_append _ _) in Eb2; by simplify_eq).
    assert (Hw2 : rwalk (p1 ++ q) l' 0 (out1 ++ q) c2 (seen_len v (p1 ++ q)) b2).
    { split; [done|done|lia|by left|by rewrite <-app_assoc]. }
    destruct (rwalk_reads _ _ _ _ _ _ _ Hw2) as (-> & _). apply returns_Ret. right.
    assert (Hlta : seen_len v (p1 ++ q) < a) by (destruct Hq as [->|?]; [rewrite app_nil_r; lia|done]). split; [done|].
    assert (∃ f l2, l' = f :: l2) as (f & l2 & ->).
    { destruct l' as [|f l2]; [|by exists f, l2]. destruct Hk2 as [Ei]. rewrite app_nil_r in Ei. rewrite Ei in Ha. lia. }
    specialize (Hend f l2 eq_refl). assert (Hsf : seen v f = true) by (unfold seen_size in Hend; destruct (seen v f); [done|lia]).
    exists (p1 ++ q), (f :: l2), 0, (out1 ++ q), (x1 ++ layout q), f, l2. split; [done|]. split; [congruence|]. split.
    { eapply lays_trans; [exact Hl1|]. split; [by rewrite !rest_0, layout_app|]. by exists q. }
    rewrite count_seen_app, Hx1, count_seen_layout, seen_len_app. split; [lia|]. split; [lia|]. split; [done|]. split; [done|].
    unfold seen_size in Hend. rewrite Hsf, seen_len_app in Hend. lia.
  - apply returns_Ret. destruct (Nat.eq_dec st a) as [->|Hne]; [by left|right]. split; [lia|].
    assert (∃ f l2, l = f :: l2) as (f & l2 & ->).
    { destruct l as [|f l2]; [|by exists f, l2]. destruct Hpart as [->|(? & ? & ? & _)]; [lia|done]. }
    assert (Hsf : seen v f = true).
    { unfold seen_size in Hge. destruct (seen v f) eqn:Es; [done|]. destruct Hpart as [->|(? & ? & [= <- <-] & ? & _)]; [lia|congruence]. }
    exists p, (f :: l2), k, out, [], f, l2. split; [done|]. split; [done|]. split; [apply lays_refl|]. split; [cbn; lia|]. split; [done|].
    split; [done|]. split; [done|]. unfold seen_size in Hge. by rewrite Hsf in Hge.
Qed.

Context (debug : bool).
(** Skipping greater concurrent insertions. *)
Lemma skip_loop_spec p l k out c st b fuel :
  rwalk p l k out c st b → length l < fuel →
  returns (loop (skip_step debug v st st ts) fuel (c, b)) (λ '(c', b'), ∃ p' l' k' out' x,
    rwalk p' l' k' out' c' st b' ∧ b_offset b' = b_offset b ∧ lays1 x l k out l' k' out' ∧
    pass_greater ts (layout (rest l k)) = (x, layout (rest l' k'))).
Proof.
  intros Hw Hfuel. eapply (loop_bounded _ (λ n '(c', b'), ∃ p' l' k' out' x,
    rwalk p' l' k' out' c' st b' ∧ b_offset b' = b_offset b ∧ lays1 x l k out l' k' out' ∧ Forall (λ c, lt_b ts (a_stamp c) = true) x ∧ n = length l'));
    [|by exists p, l, k, out, []; split_and!; [..|apply lays_refl| |]|exact Hfuel].
  clear Hw Hfuel. intros n [c' b'] (p' & l' & k' & out' & x & Hw & Hb & Hl & Hx & ->).
  destruct (rwalk_reads _ _ _ _ _ _ _ Hw) as (_ & _ & E3 & _). unfold skip_step. rewrite E3, Nat.eqb_refl. cbn [andb].
  pose proof Hl as [El _]. destruct l' as [|f l']; cbn [head].
  - right. eexists. split; [done|]. exists p', [], k', out', x. split_and!; try done. rewrite El. by apply pass_greater_app.
  - destruct (walk_frag _ _ _ _ _ _ _ _ Hw) as (Hf & Hin & E). pose proof Hf as (Hpos & _). destruct (lt_b ts (f_timestamp f)) eqn:Eg.
    + left. assert (Hs : seen v f = false) by (destruct (seen v f) eqn:Es; [|done]; rewrite Holder in Eg by done; done).
      assert (k' = 0) as -> by (destruct Hw as [_ _ _ [->|(? & ? & [= <- <-] & ? & _)] _]; [done|congruence]).
      destruct (keep_part p' f l' 0 (f_len f) out' c' st b' f false Hw) as (rp & Er & Hk'); try done; [|by right|].
      { cbn. rewrite <-(text_of_length W f Hf). apply str_boundary_end. }
      unfold keep_fragment. rewrite Er. cbn [Nat.add] in Hk'. pose proof Hw as [_ Hc Est _ Hids].
      destruct (rwalk_next _ _ _ _ _ _ Hc Hk') as (c2 & Ec2 & Hw2); [by apply (same_id f)|]. cbn beta iota. rewrite Ec2.
      rewrite orb_true_r. cbn [rust_assert]. eexists _, (length l'). split; [done|]. split; [|cbn; lia].
      assert (Est' : seen_len v (p' ++ [f]) = st) by (rewrite seen_len_snoc, Est; unfold seen_size; rewrite Hs; lia). rewrite Est' in Hw2.
      exists (p' ++ [f]), l', 0, (out' ++ [f]), (x ++ laid f). split; [done|]. split; [done|]. split.
      { eapply lays_trans; [exact Hl|]. split; [by rewrite !rest_0, layout_cons|]. exists [f]. split; [done|apply layout_one]. }
      split; [|done]. apply Forall_app. split; [done|]. apply Forall_forall. intros d Hd. by rewrite (laid_stamp d f Hd).
    + right. eexists. split; [done|]. exists p', (f :: l'), k', out', x. split_and!; try done. rewrite El. apply pass_greater_app; [done|].
      assert (Hkl : k' < f_len f) by (destruct Hw as [_ _ _ [->|(? & ? & [= <- <-] & _ & ?)] _]; lia).
      rewrite rest_lt, layout_cons by done. destruct (laid (part f k' (f_len f - k'))) as [|d L] eqn:Ed.
      { apply (f_equal length) in Ed. rewrite laid_length in Ed. cbn in Ed. lia. }
      cbn. rewrite (laid_stamp d (part f k' (f_len f - k'))); [done|]. rewrite Ed. by left.
Qed.

(** The whole way to a place: over what the version saw before it, and over
    greater concurrent insertions there. *)
Definition go_to (fuel a : nat) (c : versioned_cursor) (st : nat) (b : Building) : outcome (versioned_cursor * nat * Building) :=
  let* '(c, st, b) := jump_to v a c st b in
  let* '(c, st, b) := leave_fragment v a c st b in
  let* '(c, b) := loop (skip_step debug v a st ts) fuel (c, b) in
  let* _ := rust_assert (negb debug || (st <=? a)) in
  let* '(st, b) := keep_prefix a c st b in
  Ret (c, st, b).

Definition arrived (a : nat) (p l : list Fragment) (k : nat) (out : list Fragment) (st : nat) (b : Building)
    '((c', st', b') : versioned_cursor * nat * Building) : Prop :=
  st' = a ∧ b_offset b' = b_offset b ∧ ∃ p' l' k' out' kept R greater, rwalk p' l' k' out' c' a b' ∧
    lays1 (kept ++ greater) l k out l' k' out' ∧
    take_seen v (a - st) (layout (rest l k)) = (kept, R) ∧ pass_greater ts R = (greater, layout (rest l' k')).

(** At the place, only greater insertions are left to pass. *)
Lemma leave_noop a p l k out c st b : rwalk p l k out c st b →
  (a = st ∨ a < seen_len v p + match l with f :: _ => seen_size v f | [] => 0 end) → leave_fragment v a c st b = Ret (c, st, b).
Proof.
  intros Hw Ha. destruct (rwalk_reads _ _ _ _ _ _ _ Hw) as (_ & _ & _ & E4). unfold leave_fragment. rewrite E4.
  destruct (Nat.eqb_spec (seen_len v p + match l with f :: _ => seen_size v f | [] => 0 end) a) as [Ea|]; [|done].
  destruct Ha as [->|?]; [|lia]. by rewrite Ea, Nat.ltb_irrefl.
Qed.
Lemma at_place p l k out c a b fuel :
  rwalk p l k out c a b → length l < fuel →
  returns (let* '(c, b) := loop (skip_step debug v a a ts) fuel (c, b) in
           let* _ := rust_assert (negb debug || (a <=? a)) in
           let* '(st, b) := keep_prefix a c a b in Ret (c, st, b))
    (λ '(c', st', b'), st' = a ∧ b_offset b' = b_offset b ∧ ∃ p' l' k' out' x, rwalk p' l' k' out' c' a b' ∧
      lays1 x l k out l' k' out' ∧ pass_greater ts (layout (rest l k)) = (x, layout (rest l' k'))).
Proof.
  intros Hw Hfuel.
  destruct (skip_loop_spec p l k out c a b fuel Hw Hfuel) as ([c' b'] & -> & p' & l' & k' & out' & x & Hw' & Hb & Hl & Hx).
  rewrite Nat.leb_refl, orb_true_r. cbn [rust_assert]. unfold keep_prefix. rewrite Nat.ltb_irrefl. apply returns_Ret.
  split; [done|]. split; [done|]. by exists p', l', k', out', x.
Qed.
Lemma ends_seen_app x g : ends_seen v (laid g) → f_len g ≠ 0 → ends_seen v (x ++ laid g).
Proof.
  intros H Hg. unfold ends_seen in *. rewrite last_app_nonnil; [done|]. by rewrite <-length_zero_iff_nil, laid_length.
Qed.
Lemma part_count f k n : seen v f = true → 0 < n → count_seen v (laid (part f k n)) = n ∧ ends_seen v (laid (part f k n)).
Proof.
  intros Hs Hn. assert (Hsp : seen v (part f k n) = true) by done. split; [rewrite count_seen_laid; unfold seen_size; by rewrite Hsp|].
  pose proof (layout_ends_seen v [] (part f k n) Hsp Hn) as Hend. cbn [app] in Hend. by rewrite layout_one in Hend.
Qed.

Lemma go_to_spec a p l k out c st b fuel :
  rwalk p l k out c st b → st ≤ a ≤ seen_len v F → cut_ok W v (cells F) a → length F < fuel →
  returns (go_to fuel a c st b) (arrived a p l k out st b).
Proof.
  intros Hw Ha Hcut Hfuel. unfold go_to.
  assert (Hlen : ∀ p l k out c st b, rwalk p l k out c st b → length l < fuel).
  { intros p0 l0 k0 out0 c0 st0 b0 [[E]]. rewrite E, length_app in Hfuel. lia. }
  destruct (jump_to_spec a p l k out c st b Hw Ha) as ([[c1 st1] b1] & -> & [(-> & -> & -> & ->)|(Hst1 & p1 & l1 & k1 & out1 & x & f & l2 & Hw1 & Hb1 & Hl1 & Hx & Hst & -> & Hs & Hf)]).
  - rewrite (leave_noop a _ _ _ _ _ _ _ Hw) by (by left).
    eapply returns_mono; [by eapply at_place; [exact Hw|eapply Hlen]|].
    intros [[c' st'] b'] (-> & Hb & p' & l' & k' & out' & y & Hw' & Hl & Hy). split; [done|]. split; [done|].
    exists p', l', k', out', [], (layout (rest l k)), y. by rewrite Nat.sub_diag, take_seen_0.
  - destruct (rwalk_reads _ _ _ _ _ _ _ Hw1) as (R1 & R2 & R3 & R4). destruct (walk_frag _ _ _ _ _ _ _ _ Hw1) as (Hfo & Hin & E).
    pose proof Hw1 as [Hk1 Hc1 Est1 Hpart1 Hids1]. assert (Hk1l : k1 < f_len f) by (destruct Hpart1 as [->|(? & ? & [= <- <-] & _ & ?)]; lia).
    destruct (Nat.eq_dec (seen_len v p1 + f_len f) a) as [Eend|Hend].
    + unfold leave_fragment. unfold seen_size in R4. rewrite Hs in R4. rewrite R4, Eend, Nat.eqb_refl. apply Nat.ltb_lt in Hst1 as Hst1'. rewrite Hst1'. cbn [andb].
      destruct (push_suffix_spec _ _ _ _ _ _ _ _ Hw1 Hs) as (b2 & -> & c2 & -> & g & Hw2 & Hb2 & Hg & Hl2 & Hcnt & Hends).
      destruct (rwalk_reads _ _ _ _ _ _ _ Hw2) as (-> & _).
      assert (Ea : seen_len v (p1 ++ [f]) = a) by (rewrite seen_len_snoc; unfold seen_size; rewrite Hs; lia). rewrite Ea in Hw2 |- *.
      eapply returns_mono; [by eapply at_place; [exact Hw2|eapply Hlen]|].
      intros [[c' st'] b'] (-> & Hb & p' & l' & k' & out' & y & Hw' & Hl & Hy). split; [done|]. split; [congruence|].
      exists p', l', k', out', (x ++ laid g), (layout (rest l2 0)), y. split; [done|].
      pose proof (lays_trans _ _ _ _ _ _ _ _ _ _ _ _ _ Hl1 Hl2) as Hl12. split; [by eapply lays_trans|]. split; [|done].
      destruct Hl12 as [-> _]. apply take_seen_app; [rewrite count_seen_app, Hx, Hcnt; lia|by apply ends_seen_app].
    + rewrite (leave_noop a _ _ _ _ _ _ _ Hw1) by (right; unfold seen_size; rewrite Hs; lia).
      destruct fuel as [|fuel]; [lia|]. cbn [loop]. unfold skip_step. rewrite R3. cbn [head].
      destruct (Nat.eqb_spec st1 a); [lia|]. cbn [andb]. assert (Hle : st1 <= a) by lia. apply Nat.leb_le in Hle as ->. rewrite orb_true_r. cbn [rust_assert].
      unfold keep_prefix. apply Nat.ltb_lt in Hst1 as Hst1'. rewrite Hst1', R3, R1. cbn [head unwrap]. rewrite !usize_sub_ok by lia.
      replace (st1 - seen_len v p1) with k1 by lia. rewrite (part_of_ok W) by (done || lia). cbn [part f_id]. fold (part f k1 (a - st1)).
      destruct (builder_reads b1 out1 (k_builder _ _ _ _ _ _ _ _ _ _ Hk1)) as [-> _].
      destruct (between_ids out1 (f :: l2) Hids1) as (m & Em & Hm). change (next_id (f :: l2)) with (f_id f) in Em. rewrite Em.
      set (g := with_id (part f k1 (a - st1)) m).
      assert (Hcb : str_is_char_boundary (text_of W f) (k1 + (a - st1)) = true).
      { replace (k1 + (a - st1)) with (a - seen_len v p1) by lia. apply (cut_inside W v p1 f l2); [done|lia|done|by rewrite <-E]. }
      destruct (keep_part p1 f l2 k1 (a - st1) out1 c1 _ b1 g true Hw1) as (rp & Er & Hk2); try done; [lia|lia|by left|].
      unfold push_piece. rewrite Er. apply returns_Ret. split; [done|]. split; [done|].
      exists p1, (f :: l2), (k1 + (a - st1)), (out1 ++ [g]), (x ++ laid g), (layout (rest (f :: l2) (k1 + (a - st1)))), [].
      assert (Hl2 : lays1 (laid g) (f :: l2) k1 out1 (f :: l2) (k1 + (a - st1)) (out1 ++ [g])).
      { by apply (lays_piece f l2 k1 (a - st1) g); [lia|lia| |]. }
      pose proof (lays_trans _ _ _ _ _ _ _ _ _ _ _ _ _ Hl1 Hl2) as Hl12.
      destruct (part_count f k1 (a - st1) Hs ltac:(lia)) as [Hc2 He2]. change (laid (part f k1 (a - st1))) with (laid g) in Hc2, He2.
      split.
      { split; [done|done|lia| |by rewrite <-app_assoc; apply Hm]. right. exists f, l2. split_and!; [done|done|lia]. }
      rewrite app_nil_r. split; [done|]. split.
      * destruct Hl12 as [-> _]. apply take_seen_app; [rewrite count_seen_app, Hx, Hc2; lia|apply ends_seen_app; [done|cbn; lia]].
      * rewrite rest_lt, layout_cons by lia. destruct (laid (part f (k1 + (a - st1)) (f_len f - (k1 + (a - st1))))) as [|d L] eqn:Ed.
        { apply (f_equal length) in Ed. rewrite laid_length in Ed. cbn in Ed. lia. }
        cbn. rewrite (laid_stamp d (part f (k1 + (a - st1)) (f_len f - (k1 + (a - st1))))); [|rewrite Ed; by left].
        cbn [part f_timestamp]. by rewrite Holder.
Qed.

(** ** Inserting *)
Context (par_chunks : ∀ A : Type, nat → list A → list (list A)).
Hypothesis Hpar : chunks_spec par_chunks.
Context (max_insertion_len : N).
Hypothesis Hmax : (4 <= max_insertion_len)%N.

Lemma insert_remote_spec p l k out c st b new_text :
  rwalk p l k out c st b → utf8 new_text → b_offset b + length new_text ≤ length (W ts) →
  seg (W ts) (b_offset b) (b_offset b + length new_text) = new_text →
  returns (insert_remote par_chunks max_insertion_len new_text ts c st b) (λ b', ∃ news,
    rwalk p l k (out ++ news) c st b' ∧ layout news = fresh_cells_of ts (b_offset b) (length new_text) ∧
    b_offset b' = b_offset b + length new_text).
Proof.
  intros Hw Hu Hlen Hseg. unfold insert_remote. destruct new_text as [|x new_text'] eqn:Enew.
  { apply returns_Ret. exists []. rewrite app_nil_r, Nat.add_0_r. done. }
  rewrite <-Enew in *. assert (Hne : new_text ≠ []) by (by rewrite Enew). clear x new_text' Enew.
  destruct (rwalk_reads _ _ _ _ _ _ _ Hw) as (R1 & R2 & R3 & _). pose proof Hw as [Hk Hc Est Hpart Hids].
  destruct (core_places W V D t ts Hset _ _ _ _ _ Hk) as [Hpl Hpt]. pose proof (su_total W V D t ts Hset) as Htotal.
  rewrite R3, R1, R2. change (match head l with Some o => f_id o | None => locator_max end) with (next_id l).
  assert ((if match head l with Some f => f_visible f | None => false end
     then let* skip := usize_sub st (seen_len v p) in usize_add (visible_len p) skip else Ret (visible_len p)) = Ret (vis_at p l k)) as ->.
  { unfold vis_at in *. destruct l as [|f l]; cbn [head] in *; [by rewrite Nat.add_0_r|]. destruct (f_visible f); [|by rewrite Nat.add_0_r].
    rewrite usize_sub_ok by lia. replace (st - seen_len v p) with k by lia. apply usize_add_ok. unfold U32_MAX, U64_MAX in *. lia. }
  destruct (builder_reads b out (k_builder _ _ _ _ _ _ _ _ _ _ Hk)) as [_ ->].
  destruct (core_insert W V D t ts Hset par_chunks Hpar max_insertion_len Hmax p l k out b new_text Hk Hids Hu Hlen Hseg Hne)
    as (b' & -> & -> & news & Hk' & Hids' & Hlay & Hb'). apply returns_Ret. exists news. split; [|done].
  split; [done|done|done|done|by rewrite <-app_assoc].
Qed.

(** ** Hiding *)
Context (m : UndoMap).
Hypotheses (Hm : keyed_wf m) (Hmh : height m < STACK_CAP).
Abbreviation u := (undone_at m v).

Lemma laid_hidden f k n g : f ∈ F → piece_of g f k n →
  (if was v u f then f_visible g = false ∧ f_deletions g = f_deletions f ++ [ts] else f_visible g = f_visible f ∧ f_deletions g = f_deletions f) →
  laid g = hide v u ts <$> laid (part f k n).
Proof.
  intros Hin (E1 & E2 & E3 & E4) Hg. assert (Ec : fragment_cells g = fragment_cells (part f k n)) by (unfold fragment_cells; by rewrite E1, E2, E3).
  unfold laid at 1 2. rewrite Ec, <-list_fmap_compose.
  apply list_fmap_ext. intros j c Hc. cbn. unfold hide. rewrite (a_was_laid v u (part f k n)).
  - change (was v u (part f k n)) with (was v u f). destruct (was v u f), Hg as [-> ->]; done.
  - apply elem_of_laid. cbn. split; [|done]. by apply list_elem_of_lookup_2 in Hc.
Qed.

(** The patch after a part was pushed. *)
Lemma patch_part p f l k n g out b :
  core p (f :: l) k out b → 0 < n → k + n ≤ f_len f → str_is_char_boundary (text_of W f) k = true →
  str_is_char_boundary (text_of W f) (k + n) = true → piece_of g f k n → (f_visible g = true → f_visible f = true) →
  let e := MkTextEdit (MkRange (vis_at p (f :: l) k) (vis_at p (f :: l) k + n)) (MkRange (visible_len out) (visible_len out)) in
  let patch := if f_visible f && negb (f_visible g) then patch_push (b_patch b) e else b_patch b in
  rewrites 0 0 (take (vis_at p (f :: l) (k + n)) X) patch (vis_text W (out ++ [g])) ∧ separated patch.
Proof.
  intros Hk Hn Hle Hbk Hbn Hg Hvis e patch. destruct (core_places W V D t ts Hset _ _ _ _ _ Hk) as [Hpl _]. destruct Hk.
  destruct (moved_part W V D t ts Hset p f l k n k_items Hle) as (Em & _ & Hl & _).
  destruct (old_frags W V D t ts Hset _ _ k_items) as [_ [Hfo _]%Forall_cons].
  destruct (piece_same W g f k n Hg) as (_ & Etg & _); [by apply frag_ok_part|]. rewrite vis_text_snoc. subst patch.
  pose proof (su_visible_text W V D t ts Hset) as EV. pose proof (vis_text_length W out k_frags) as Evl.
  unfold moved, old_text in Em. destruct (f_visible f) eqn:Hf; cbn [andb].
  - assert (Ev : vis_at p (f :: l) (k + n) = vis_at p (f :: l) k + n) by (unfold vis_at; rewrite Hf; lia).
    rewrite EV in Em. rewrite Ev in *. assert (Et : take (vis_at p (f :: l) k + n) X = take (vis_at p (f :: l) k) X ++ text_of W (part f k n)).
    { rewrite <-Em. symmetry. apply take_take_drop. }
    rewrite Et. destruct (f_visible g) eqn:Hvg; cbn [negb].
    + rewrite Etg. split; [by apply rewrites_keep|done].
    + assert (Elen : length (text_of W (part f k n)) = n) by (rewrite <-Em, length_take, length_drop; lia).
      replace e with (edit_at (vis_at p (f :: l) k) (visible_len out) (text_of W (part f k n)) []) by (unfold e, edit_at; rewrite Elen; cbn; by rewrite Nat.add_0_r).
      split; [apply rewrites_push; [done|rewrite length_take; lia|done]|eapply separated_push; [done|done|rewrite length_take; lia|done]].
  - assert (Ev : vis_at p (f :: l) (k + n) = vis_at p (f :: l) k) by (unfold vis_at; by rewrite Hf). rewrite Ev.
    destruct (f_visible g); [by discriminate Hvis|]. by rewrite app_nil_r.
Qed.

(** The cells [L] have been passed, and hidden if the version saw them. *)
Definition hiding (l0 : list Fragment) (k0 : nat) (out0 : list Fragment) (st0 off e : nat) '((c, st, b) : versioned_cursor * nat * Building) (n : nat) : Prop :=
  ∃ p l k out L, rwalk p l k out c st b ∧ b_offset b = off ∧ lays L (hide v u ts <$> L) l0 k0 out0 l k out ∧
    count_seen v L = st - st0 ∧ st0 ≤ st ≤ e ∧ (st = e → ends_seen v L) ∧ n = length l.

(** A part of a fragment is pushed, hidden or not. *)
Lemma push_hidden_part p f l k n out c st b g b1 :
  rwalk p (f :: l) k out c st b → 0 < n → k + n ≤ f_len f → str_is_char_boundary (text_of W f) (k + n) = true →
  piece_of g f k n → same_pieces b b1 →
  (if was v u f then f_visible g = false ∧ f_deletions g = f_deletions f ++ [ts] else f_visible g = f_visible f ∧ f_deletions g = f_deletions f) →
  b_slices b1 = b_slices b ++ (if was v u f then [slice_of ts g] else []) →
  b_patch b1 = (if f_visible f && negb (f_visible g) then
    patch_push (b_patch b) (MkTextEdit (MkRange (vis_at p (f :: l) k) (vis_at p (f :: l) k + n)) (MkRange (visible_len out) (visible_len out))) else b_patch b) →
  returns (push_piece b1 g (f_visible f)) (λ b', core p (f :: l) (k + n) (out ++ [g]) b' ∧ b_offset b' = b_offset b).
Proof.
  intros Hw Hn Hle Hbn Hg Hb1 Hhid Hsl Hp. destruct (walk_frag _ _ _ _ _ _ _ _ Hw) as (Hf & Hin & E). pose proof Hw as [Hk _ _ _ _].
  destruct (fresh_fragment W V D t ts Hset f Hin) as [Hn1 Hn2]. pose proof Hg as (E1 & E2 & E3 & E4).
  assert (Hbk : str_is_char_boundary (text_of W f) k = true).
  { destruct (k_part _ _ _ _ _ _ _ _ _ _ Hk) as [->|(f' & l' & [= <- <-] & _ & ?)]; [by unfold str_is_char_boundary|done]. }
  destruct (patch_part p f l k n g out b Hk Hn Hle Hbk Hbn Hg) as [Hrw Hsep]; [by destruct (was v u f), Hhid as [-> _]|].
  destruct (core_push W V D t ts Hset p f l k n out b b1 g true Hk Hn Hle Hbk Hbn Hb1 Hg) as (rp & Er & Hk').
  - split_and!; [done|done|exists k; split; [done|lia]|]. destruct (was v u f), Hhid as [-> ->]; [by right|by left].
  - by rewrite Hp.
  - by rewrite Hp.
  - rewrite Hsl. f_equal. destruct (was v u f), Hhid as [_ Ed].
    + rewrite slices_of_all; [done|]. constructor; [|constructor]. apply bool_decide_eq_true. right. rewrite Ed. apply elem_of_app. right. by left.
    + rewrite slices_of_none; [done|]. constructor; [|constructor]. apply bool_decide_eq_false. rewrite E1, Ed. tauto.
  - by left.
  - unfold push_piece. rewrite Er. apply returns_Ret. split; [done|]. by destruct Hb1 as (_ & _ & _ & Eo).
Qed.

Lemma hide_step_spec l0 k0 out0 st0 off e x n :
  hiding l0 k0 out0 st0 off e x n → x.1.2 < e → e ≤ seen_len v F → cut_ok W v (cells F) e →
  ∃ x' n', hide_step v m e ts x = Ret (inl x') ∧ hiding l0 k0 out0 st0 off e x' n' ∧ (n' < n ∨ (n' = n ∧ x'.1.2 = e)).
Proof.
  destruct x as [[c st] b]. intros (p & l & k & out & L & Hw & Hoff & Hl & Hcnt & Hst & _ & ->) Hlt He Hcut. cbn [fst snd] in *.
  destruct (rwalk_reads _ _ _ _ _ _ _ Hw) as (R1 & R2 & R3 & R4). pose proof Hw as [Hk Hc Est Hpart Hids].
  unfold hide_step. apply Nat.ltb_lt in Hlt as Hlt'. rewrite Hlt', R3, R4.
  destruct l as [|f l].
  { exfalso. destruct Hk as [Ei]. rewrite app_nil_r in Ei. rewrite Ei in He. destruct Hpart as [->|(? & ? & ? & _)]; [lia|done]. }
  cbn [head unwrap]. destruct (walk_frag _ _ _ _ _ _ _ _ Hw) as (Hf & Hin & E). pose proof Hf as (Hpos & Hfl & Hsm & _). unfold small in Hsm.
  assert (Hkl : k < f_len f) by (destruct Hpart as [->|(? & ? & [= <- <-] & _ & ?)]; lia).
  destruct (core_places W V D t ts Hset _ _ _ _ _ Hk) as [Hpl Hpt]. pose proof (su_total W V D t ts Hset) as Htotal.
  destruct (builder_reads b out (k_builder _ _ _ _ _ _ _ _ _ _ Hk)) as [Emax Evis].
  unfold intersect, seen_size. change (observed v (f_timestamp f)) with (seen v f). destruct (seen v f) eqn:Hs.
  - set (ie := Nat.min e (seen_len v p + f_len f)). set (n := ie - st). rewrite !usize_sub_ok, R1 by (unfold ie; lia).
    rewrite usize_sub_ok by lia. replace (st - seen_len v p) with k by lia. fold n. assert (Hn : 0 < n ∧ k + n ≤ f_len f) by (unfold n, ie; lia).
    rewrite (part_of_ok W) by (done || lia). rewrite Emax.
    destruct (between_ids out (f :: l) Hids) as (mm & Em & Hmm). change (next_id (f :: l)) with (f_id f) in Em.
    change (f_id (part f k n)) with (f_id f). rewrite Em, was_visible_spec by done.
    set (g0 := with_id (part f k n) mm). assert (Hbn : str_is_char_boundary (text_of W f) (k + n) = true).
    { destruct (Nat.le_gt_cases (seen_len v p + f_len f) e) as [Hle|Hgt].
      - replace (k + n) with (f_len f) by (unfold n, ie; lia). rewrite <-(text_of_length W f Hf). apply str_boundary_end.
      - replace (k + n) with (e - seen_len v p) by (unfold n, ie; lia). apply (cut_inside W v p f l); [done|lia|done|by rewrite <-E]. }
    set (w := was v u f). set (g := if w then deleted_by g0 ts else g0). set (b1 := if w then push_slice b (slice_of ts g) else b).
    assert (Ei : (if w then let* slice := slice_from_fragment ts (deleted_by g0 ts) in Ret (deleted_by g0 ts, push_slice b slice)
      else Ret (g0, b)) = Ret (g, b1)).
    { unfold b1, g. destruct w; [|done]. unfold slice_from_fragment. cbn [deleted_by g0 with_id part f_insertion_offset f_len].
      rewrite U32_add_ok by lia. done. }
    cbn beta iota. rewrite Ei. assert (Eg : f_len g = n ∧ f_visible g = f_visible f && negb w).
    { unfold g. destruct w; cbn; [by rewrite andb_false_r|by rewrite andb_true_r]. }
    destruct Eg as [Egl Egv]. rewrite Egl. destruct (Nat.ltb_spec 0 n) as [_|?]; [|lia].
    set (patch := if f_visible f && negb (f_visible g) then
      patch_push (b_patch b) (MkTextEdit (MkRange (vis_at p (f :: l) k) (vis_at p (f :: l) k + n)) (MkRange (visible_len out) (visible_len out))) else b_patch b).
    set (b2 := MkBuilding (b_fragments b1) (b_ropes b1) (b_insertions b1) (b_slices b1) (b_offset b1) patch).
    assert (Eb2 : (if f_visible f && negb (f_visible g) then
        let* old_start := usize_add (start_old c) k in
        let* old_end := usize_add old_start n in
        Ret (push_edit b1 (MkTextEdit (MkRange old_start old_end) (MkRange (b_visible b1) (b_visible b1))))
      else Ret b1) = Ret b2).
    { unfold b2, patch. assert (Hb1v : b_visible b1 = visible_len out) by (unfold b1; by destruct w).
      destruct (f_visible f) eqn:Hfv; cbn [andb]; [|unfold b1; by destruct b, w]. destruct (negb (f_visible g)) eqn:Hgv; [|unfold b1; by destruct b, w].
      rewrite R2. destruct (moved_part W V D t ts Hset p f l k n E ltac:(lia)) as (_ & _ & Hml & _). unfold vis_at in *. rewrite Hfv in *.
      assert (length X = visible_len F) by (apply vis_text_length; by destruct (su_doc W V D t ts Hset)).
      rewrite !usize_add_ok by (unfold U32_MAX, U64_MAX in *; lia). rewrite Hb1v. unfold b1, push_edit. by destruct w. }
    rewrite Eb2. destruct (push_hidden_part p f l k n out c st b g b2 Hw) as (b' & Eb' & Hk' & Ho'); try (done || lia).
    { unfold g. by destruct w. }
    { unfold b2, b1. by destruct w. }
    { fold w. unfold g. by destruct w. }
    { unfold b2, b1. fold w. cbn. destruct w; [done|by rewrite app_nil_r]. }
    rewrite Eb'. assert (Hids' : ids_ok ((out ++ [g]) ++ f :: l)).
    { rewrite <-app_assoc. apply Hmm. unfold g. by destruct w. }
    assert (Hlay : ∀ l' k', layout (rest l' k') = layout (rest (f :: l) (k + n)) →
      lays (L ++ laid (part f k n)) (hide v u ts <$> L ++ laid (part f k n)) l0 k0 out0 l' k' (out ++ [g])).
    { intros l' k' El. rewrite fmap_app. eapply lays_trans; [exact Hl|]. rewrite <-(laid_hidden f k n g); [|done|by unfold g; destruct w|].
      - apply lays_piece; [lia|lia|unfold g; by destruct w|done].
      - fold w. unfold g. by destruct w. }
    destruct (part_count f k n Hs ltac:(lia)) as [Hc1 He1].
    assert (Hcnt' : count_seen v (L ++ laid (part f k n)) = ie - st0) by (rewrite count_seen_app, Hc1, Hcnt; unfold n, ie; lia).
    assert (Hends : ends_seen v (L ++ laid (part f k n))) by (apply ends_seen_app; [done|cbn; lia]).
    destruct (Nat.leb_spec (seen_len v p + f_len f) e) as [Hle|Hgt].
    + assert (Eend : k + n = f_len f) by (unfold n, ie; lia). rewrite Eend in Hk', Hlay.
      destruct (rwalk_next _ _ _ _ _ _ Hc Hk') as (c' & -> & Hw').
      { eapply ids_ok_sublist; [|exact Hids']. apply sublist_app; [done|]. by constructor. }
      eexists _, (length l). split; [done|]. split; [|left; cbn; lia].
      assert (Eie : seen_len v (p ++ [f]) = ie) by (rewrite seen_len_snoc; unfold seen_size, ie; rewrite Hs; lia). rewrite Eie in Hw'.
      exists (p ++ [f]), l, 0, (out ++ [g]), (L ++ laid (part f k n)). split; [done|]. split; [congruence|].
      split; [apply Hlay; by rewrite rest_0, rest_end|]. split; [done|]. split; [unfold ie; lia|]. by split.
    + eexists _, (length (f :: l)). split; [done|]. split; [|right; cbn; unfold ie; split; [done|lia]].
      exists p, (f :: l), (k + n), (out ++ [g]), (L ++ laid (part f k n)). split.
      { split; [done|done|unfold n, ie; lia|right; exists f, l; split_and!; [done|done|unfold n, ie; lia]|done]. }
      split; [congruence|]. split; [by apply Hlay|]. split; [done|]. split; [unfold ie; lia|]. by split.
  - destruct Hpart as [->|(? & ? & [= <- <-] & ? & _)]; [|congruence]. rewrite !Nat.add_0_r, Nat.min_r by lia.
    destruct (Nat.ltb_spec 0 (f_len f)) as [_|?]; [|lia]. rewrite andb_negb_r. cbn beta iota.
    assert (Hwas : was v u f = false) by (unfold was; by rewrite Hs).
    destruct (push_hidden_part p f l 0 (f_len f) out c st b f b Hw) as (b' & Eb' & Hk' & Ho'); try done.
    { rewrite <-(text_of_length W f Hf). apply str_boundary_end. }
    { by rewrite Hwas. }
    { by rewrite Hwas, app_nil_r. }
    { by rewrite andb_negb_r. }
    rewrite Eb'. destruct (Nat.leb_spec (seen_len v p) e) as [_|?]; [|lia]. cbn [Nat.add] in Hk'.
    destruct (rwalk_next _ _ _ _ _ _ Hc Hk') as (c' & -> & Hw'); [by apply (same_id f)|].
    eexists _, (length l). split; [done|]. split; [|left; cbn; lia].
    assert (Ep : seen_len v (p ++ [f]) = seen_len v p) by (rewrite seen_len_snoc; unfold seen_size; rewrite Hs; lia). rewrite Ep in Hw'.
    exists (p ++ [f]), l, 0, (out ++ [f]), (L ++ laid f). split; [done|]. split; [congruence|]. split.
    { rewrite fmap_app. eapply lays_trans; [exact Hl|]. pose proof (laid_hidden f 0 (f_len f) f Hin) as Hh. rewrite Hwas, part_whole in Hh.
      rewrite <-Hh by done. split; [by rewrite !rest_0, layout_cons|]. exists [f]. split; [done|apply layout_one]. }
    split; [rewrite count_seen_app, count_seen_laid; unfold seen_size; rewrite Hs; lia|]. split; [lia|]. split; [lia|done].
Qed.

Lemma hide_loop_spec p l k out c st b e fuel :
  rwalk p l k out c st b → st ≤ e ≤ seen_len v F → cut_ok W v (cells F) e → S (length l) < fuel →
  returns (loop (hide_step v m e ts) fuel (c, st, b)) (λ '(c', st', b'), st' = e ∧ b_offset b' = b_offset b ∧ ∃ p' l' k' out' L,
    rwalk p' l' k' out' c' e b' ∧ lays L (hide v u ts <$> L) l k out l' k' out' ∧
    take_seen v (e - st) (layout (rest l k)) = (L, layout (rest l' k'))).
Proof.
  intros Hw He Hcut Hfuel. set (flag := λ x : versioned_cursor * nat * Building, if x.1.2 <? e then 1 else 0).
  apply (loop_bounded _ (λ n x, ∃ j, hiding l k out st (b_offset b) e x j ∧ n = j + flag x)) with (n := length l + flag (c, st, b)).
  - intros n [[c' st'] b'] (j & Hd & ->). unfold flag. cbn [fst snd]. destruct (Nat.ltb_spec st' e) as [Hlt|Hge].
    + left. destruct (hide_step_spec _ _ _ _ _ _ _ _ Hd Hlt ltac:(lia) Hcut) as ([[c2 st2] b2] & j' & Es & Hd' & Hj).
      eexists (c2, st2, b2), _. split; [exact Es|]. split; [by exists j'|]. cbn [fst snd] in *. destruct (Nat.ltb_spec st2 e); lia.
    + right. exists (c', st', b'). unfold hide_step. apply Nat.ltb_ge in Hge as Hge'. rewrite Hge'. split; [done|].
      destruct Hd as (p' & l' & k' & out' & L & H1 & H2 & H3 & H4 & H5 & H6 & _). assert (st' = e) as -> by lia.
      split; [done|]. split; [done|]. exists p', l', k', out', L. split; [done|]. split; [done|]. destruct H3 as [-> _]. apply take_seen_app; [lia|by apply H6].
  - exists (length l). split; [|done]. exists p, l, k, out, []. split_and!; try (done || lia || apply lays_refl). cbn. lia.
  - unfold flag. cbn [fst snd]. destruct (st <? e); lia.
Qed.

(** ** One edit *)
Abbreviation remote_edit fuel := (remote_edit par_chunks max_insertion_len debug v fuel m ts).
Lemma remote_edit_eq fuel c st b a e x :
  remote_edit fuel (c, st, b) (MkFullOffset a, MkFullOffset e, x) =
  (let* '(c, st, b) := go_to fuel a c st b in
   let* b := insert_remote par_chunks max_insertion_len x ts c st b in
   loop (hide_step v m e ts) fuel (c, st, b)).
Proof.
  unfold remote_edit, go_to. cbn [full_offset]. destruct (jump_to _ _ _ _ _) as [[[c1 st1] b1]| |]; [|done..]. cbn.
  destruct (leave_fragment _ _ _ _ _) as [[[c2 st2] b2]| |]; [|done..]. cbn. destruct (loop _ _ _) as [[c3 b3]| |]; [|done..]. cbn.
  destruct (rust_assert _); [|done..]. cbn. destruct (keep_prefix _ _ _ _) as [[st4 b4]| |]; reflexivity.
Qed.

Lemma remote_edit_spec a e x p l k out c st b fuel :
  rwalk p l k out c st b → st ≤ a ≤ e → e ≤ seen_len v F → cut_ok W v (cells F) a → cut_ok W v (cells F) e → S (length F) < fuel →
  utf8 x → take (length x) (drop (b_offset b) (W ts)) = x →
  returns (remote_edit fuel (c, st, b) (MkFullOffset a, MkFullOffset e, x)) (λ '(c', st', b'), st' = e ∧ b_offset b' = b_offset b + length x ∧
    ∃ p' l' k' out' kept R greater R' range, rwalk p' l' k' out' c' e b' ∧
    take_seen v (a - st) (layout (rest l k)) = (kept, R) ∧ pass_greater ts R = (greater, R') ∧
    take_seen v (e - a) R' = (range, layout (rest l' k')) ∧
    lays (kept ++ greater ++ range) (kept ++ greater ++ fresh_cells_of ts (b_offset b) (length x) ++ (hide v u ts <$> range)) l k out l' k' out').
Proof.
  intros Hw Ha He Hca Hce Hfuel Hu Hx. rewrite remote_edit_eq.
  destruct (go_to_spec a p l k out c st b fuel Hw ltac:(lia) Hca ltac:(lia)) as ([[c1 st1] b1] & -> & -> & Hb1 & p1 & l1 & k1 & out1 & kept & R & greater & Hw1 & Hl1 & Hk & Hg).
  assert (Hlx : b_offset b1 + length x ≤ length (W ts)).
  { apply (f_equal length) in Hx. rewrite length_take, length_drop in Hx. destruct Hw1 as [Hk1 _ _ _ _]. pose proof (k_offset _ _ _ _ _ _ _ _ _ _ Hk1).
    destruct (decide (length x = 0)); lia. }
  destruct (insert_remote_spec p1 l1 k1 out1 c1 a b1 x Hw1 Hu Hlx) as (b2 & -> & news & Hw2 & Hnews & Hb2).
  { unfold seg. rewrite Hb1. by replace (b_offset b + length x - b_offset b) with (length x) by lia. }
  assert (Hl1len : S (length l1) < fuel) by (destruct Hw1 as [[E] _ _ _ _]; rewrite E, length_app in Hfuel; lia).
  destruct (hide_loop_spec _ _ _ _ _ _ _ e fuel Hw2 ltac:(lia) Hce Hl1len) as ([[c3 st3] b3] & -> & -> & Hb3 & p3 & l3 & k3 & out3 & L & Hw3 & Hl3 & Hr). apply returns_Ret.
  split; [done|]. split; [congruence|]. exists p3, l3, k3, out3, kept, R, greater, (layout (rest l1 k1)), L. split_and!; try done.
  assert (Hins : lays [] (fresh_cells_of ts (b_offset b) (length x)) l1 k1 out1 l1 k1 (out1 ++ news)).
  { split; [done|]. exists news. split; [done|]. congruence. }
  pose proof (lays_trans _ _ _ _ _ _ _ _ _ _ _ _ _ (lays_trans _ _ _ _ _ _ _ _ _ _ _ _ _ Hl1 Hins) Hl3) as H.
  rewrite app_nil_r, <-!app_assoc in H. exact H.
Qed.

(** ** All edits *)
Fixpoint ranges_ok (o : nat) (edits : list (nat * nat * list N)) : Prop :=
  match edits with
  | [] => True
  | (a, e, x) :: edits => o ≤ a ≤ e ∧ e ≤ seen_len v F ∧ cut_ok W v (cells F) a ∧ cut_ok W v (cells F) e ∧ utf8 x ∧ ranges_ok e edits
  end.
Definition as_full '((a, e, x) : nat * nat * list N) : FullOffset * FullOffset * list N := (MkFullOffset a, MkFullOffset e, x).

Lemma remote_edits_spec fuel edits : S (length F) < fuel → ∀ p l k out c st b,
  rwalk p l k out c st b → ranges_ok st edits → drop (b_offset b) (W ts) = concat (snd <$> edits) →
  returns (remote_edits par_chunks max_insertion_len debug v fuel m ts (c, st, b) (as_full <$> edits)) (λ '(c', st', b'),
    ∃ p' l' k' out' x y, rwalk p' l' k' out' c' st' b' ∧ lays x y l k out l' k' out' ∧
    integrate v u ts edits (b_offset b) st (layout (rest l k)) = y ++ layout (rest l' k')).
Proof.
  intros Hfuel. induction edits as [|[[a e] x] edits IH]; intros p l k out c st b Hw Hr Ht.
  { apply returns_Ret. exists p, l, k, out, [], []. split; [done|]. split; [apply lays_refl|done]. }
  destruct Hr as (Ha & He & Hca & Hce & Hu & Hr). cbn [fmap list_fmap as_full remote_edits snd concat] in *.
  destruct (remote_edit_spec a e x p l k out c st b fuel Hw Ha He Hca Hce Hfuel Hu)
    as ([[c1 st1] b1] & -> & -> & Hb1 & p1 & l1 & k1 & out1 & kept & R & greater & R' & range & Hw1 & Hk & Hg & Hra & Hl1).
  { rewrite Ht. apply take_app_length. }
  assert (Ht1 : drop (b_offset b1) (W ts) = concat (snd <$> edits)) by (by rewrite Hb1, <-drop_drop, Ht, drop_app_length).
  destruct (IH p1 l1 k1 out1 c1 e b1 Hw1 Hr Ht1) as ([[c2 st2] b2] & -> & p2 & l2 & k2 & out2 & x2 & y2 & Hw2 & Hl2 & Hi).
  apply returns_Ret. eexists p2, l2, k2, out2, _, _. split; [done|]. split; [by eapply lays_trans|].
  cbn [integrate]. rewrite Hk, Hg, Hra, <-Hb1, Hi, <-!app_assoc. done.
Qed.
End Steps.
