(* ===== verification/BufferOk.v ===== *)
(** * The invariant of a buffer snapshot

    [buffer_ok W s]: the fragments are a document of the insertions [W], the
    ropes are the texts of the visible and of the other fragments, the index of
    insertions has an entry for every fragment and no other, and the insertion
    slices say for every edit which cells of which insertions it inserted or
    deleted. *)
From stdpp Require Import base numbers option list sorting.
From Stdlib Require Import Lia.
From S2P Require Import Prelude Clock SumTree SumTreeFacts SumTreeBulk Cursor CursorFacts CursorSeek CursorMove.
From S2P Require Import CursorIter Keyed KeyedFacts TreeMap TreeMapFacts Locator UndoMap Patch PatchFacts Subscription Utf8.
From S2P Require Import ChunkPointsFacts RopeTree Rope RopeBuild RopeSlice RopePoints RopeConvert Fragment.
From S2P Require Import Snapshot History Buffer Document Walk LocalEdit.
(** * The order of the index of insertions and of insertion slices *)
#[local] Opaque TREE_BASE av_cap.

#[export] Instance InsertionFragmentKey_ord_laws : OrdLaws InsertionFragmentKey.
Proof.
  split; unfold cmp at 1, InsertionFragmentKey_ord.
  - intros [a1 a2] [b1 b2]. rewrite lex_eq. simpl. split; [by intros [-> ->]|by intros [= -> ->]].
  - intros a b. apply lex_antisym.
  - intros a b c Hab Hbc. eapply (lex_lt_trans ik_timestamp ik_split_offset); [exact Hab|exact Hbc].
Qed.

(** Pairs compare lexicographically, and an [InsertionSlice] as nested pairs. *)
#[local] Instance pair_ord {A B} `{Ord A} `{Ord B} : Ord (A * B) := λ a b, then_with (cmp a.1 b.1) (cmp a.2 b.2).
#[local] Instance pair_ord_laws {A B} `{OrdLaws A} `{OrdLaws B} : OrdLaws (A * B).
Proof.
  split; unfold cmp at 1, pair_ord.
  - intros [a1 a2] [b1 b2]. rewrite lex_eq. simpl. split; [by intros [-> ->]|by intros [= -> ->]].
  - intros a b. apply lex_antisym.
  - intros a b c Hab Hbc. eapply (lex_lt_trans fst snd); [exact Hab|exact Hbc].
Qed.
Definition slice_tuple (s : InsertionSlice) : Lamport * (Lamport * (nat * nat)) :=
  (sl_edit_id s, (sl_insertion_id s, (sl_start s, sl_end s))).
Lemma slice_tuple_cmp a b : cmp a b = cmp (slice_tuple a) (slice_tuple b).
Proof. done. Qed.
#[export] Instance InsertionSlice_ord_laws : OrdLaws InsertionSlice.
Proof.
  split.
  - intros a b. rewrite slice_tuple_cmp, cmp_eq. destruct a, b. unfold slice_tuple. cbn. split; [by intros [= -> -> -> ->]|by intros [= -> -> -> ->]].
  - intros a b. rewrite !slice_tuple_cmp. apply cmp_antisym.
  - intros a b c. rewrite !slice_tuple_cmp. apply cmp_lt_trans.
Qed.

#[export] Instance InsertionFragmentKey_eq_dec : EqDecision InsertionFragmentKey.
Proof. solve_decision. Defined.
#[export] Instance InsertionSlice_eq_dec : EqDecision InsertionSlice.
Proof. solve_decision. Defined.

(** ** Keyed items *)
Lemma insertion_total_snoc l (x : InsertionFragment) : total (l ++ [x]) = key x.
Proof. unfold total, sum. rewrite fmap_app, foldl_app. done. Qed.
#[export] Instance InsertionFragment_summary_laws : SummaryLaws InsertionFragment InsertionFragmentKey.
Proof.
  refine {| valid := λ _, True |}.
  - done.
  - done.
  - done.
  - intros l1 l2 Hl1 Hl2 _. destruct (nil_or_snoc l2) as [->|(l & x & ->)]; [done|].
    by rewrite app_assoc, !insertion_total_snoc.
Defined.
#[export] Instance InsertionFragment_dimension_laws :
  DimensionLaws InsertionFragmentKey InsertionFragment InsertionFragmentKey.
Proof.
  split; [|done]. intros l1 l2 Hl2 _. destruct (nil_or_snoc l2) as [->|(l & x & ->)]; [done|].
  change (total (l ++ [x]) = total (l1 ++ l ++ [x])). by rewrite app_assoc, !insertion_total_snoc.
Qed.
#[export] Instance InsertionFragment_keyed_laws : KeyedLaws InsertionFragment InsertionFragmentKey InsertionFragmentKey.
Proof.
  refine {| item_ok := λ _, True |}.
  - intros p x _ _. exact (insertion_total_snoc p x).
  - intros x _. destruct (key x) as [a n]. unfold cmp, InsertionFragmentKey_ord. cbn.
    pose proof (Lamport_min_le a) as Ha. rewrite (cmp_antisym Lamport_MIN a). destruct (cmp Lamport_MIN a); try done. by destruct n.
  - done.
Defined.

(** The time stamp of a buffer's first text, which no slice mentions. *)
Definition base_timestamp : Lamport := Lamport_new LOCAL.

Abbreviation slice_set := (TreeSet InsertionSlice).
Definition has_slice (m : slice_set) (sl : InsertionSlice) : Prop := lookup_map m sl = Some tt.
Definition in_slice (i : nat) (sl : InsertionSlice) : Prop := sl_start sl ≤ i < sl_end sl.

Record slices_ok (m : slice_set) (F : list Fragment) : Prop := {
  so_wf : map_wf m;
  so_nonempty : ∀ sl, has_slice m sl → sl_start sl < sl_end sl;
  so_sound : ∀ sl i, has_slice m sl → in_slice i sl → ∃ f, f ∈ F ∧ touched (sl_edit_id sl) f = true ∧ (sl_insertion_id sl, i) ∈ fragment_cells f;
  so_complete : ∀ f d i, f ∈ F → touched d f = true → d ≠ base_timestamp → (f_timestamp f, i) ∈ fragment_cells f →
    ∃ sl, has_slice m sl ∧ sl_edit_id sl = d ∧ sl_insertion_id sl = f_timestamp f ∧ in_slice i sl;
  (* a fragment is in a slice or apart from it *)
  so_aligned : ∀ sl f i, has_slice m sl → f ∈ F → in_slice i sl → (sl_insertion_id sl, i) ∈ fragment_cells f →
    sl_start sl ≤ f_insertion_offset f ∧ f_insertion_offset f + f_len f ≤ sl_end sl;
}.

Definition index_ok (m : SumTree InsertionFragment InsertionFragmentKey) (F : list Fragment) : Prop :=
  keyed_wf m ∧ ∀ y, y ∈ tree_items m ↔ y ∈ insertion_new <$> F.

Record buffer_ok (W : Lamport → list N) (s : BufferSnapshot) : Prop := {
  bo_visible : rope_wf (s_visible_text s); bo_deleted : rope_wf (s_deleted_text s);
  bo_tree : wf (s_fragments s);
  bo_doc : doc_ok W (tree_items (s_fragments s));
  bo_visible_text : rope_text (s_visible_text s) = vis_text W (tree_items (s_fragments s));
  bo_deleted_text : rope_text (s_deleted_text s) = del_text W (tree_items (s_fragments s));
  bo_index : index_ok (s_insertions s) (tree_items (s_fragments s));
  bo_slices : slices_ok (s_insertion_slices s) (tree_items (s_fragments s));
}.

(** No tree of the snapshot is deeper than the stack of a cursor. *)
Record shallow (s : BufferSnapshot) : Prop := {
  sh_visible : shallow_rope (s_visible_text s); sh_deleted : shallow_rope (s_deleted_text s);
  sh_fragments : height (s_fragments s) < STACK_CAP; sh_insertions : height (s_insertions s) < STACK_CAP;
  sh_slices : height (s_insertion_slices s) < STACK_CAP;
}.

(** ** The text of a new insertion *)
Definition with_text (W : Lamport → list N) (ts : Lamport) (x : list N) : Lamport → list N :=
  λ t, if decide (t = ts) then x else W t.
Definition fresh (ts : Lamport) (F : list Fragment) : Prop := Forall (λ f, f_timestamp f ≠ ts ∧ ts ∉ f_deletions f) F.

Section With.
Context (W : Lamport → list N) (ts : Lamport) (x : list N).
Abbreviation W' := (with_text W ts x).

Lemma with_text_ts : W' ts = x.
Proof. unfold with_text. by rewrite decide_True. Qed.
Lemma text_of_with f : f_timestamp f ≠ ts → text_of W' f = text_of W f.
Proof. intros Hf. unfold text_of, with_text. by rewrite decide_False. Qed.
Lemma frag_ok_with f : f_timestamp f ≠ ts → frag_ok W f → frag_ok W' f.
Proof. intros Hf. unfold frag_ok. rewrite text_of_with by done. unfold with_text. by rewrite decide_False. Qed.
Lemma texts_with l : fresh ts l → vis_text W' l = vis_text W l ∧ del_text W' l = del_text W l.
Proof.
  induction 1 as [|f l [Hf _] _ [IH1 IH2]]; [done|]. rewrite !vis_text_cons, !del_text_cons, IH1, IH2, !text_of_with by done. done.
Qed.
Lemma doc_ok_with l : fresh ts l → doc_ok W l → doc_ok W' l.
Proof.
  intros Hfr [H1 H2 H3]. split; [|done|done]. unfold fresh in Hfr. rewrite Forall_forall in *. intros f Hf.
  apply frag_ok_with; [by apply Hfr|by apply H1].
Qed.
End With.

Section Setup.
Context (W : Lamport → list N) (s : BufferSnapshot) (ts : Lamport) (x : list N).
Hypotheses (Hok : buffer_ok W s) (Hsh : shallow s) (Hfr : fresh ts (tree_items (s_fragments s))).
Hypothesis Htotal : (N.of_nat (length (rope_text (s_visible_text s)) + length (rope_text (s_deleted_text s)) + length x) <= U32_MAX)%N.

Lemma snapshot_setup : setup (with_text W ts x) (s_visible_text s) (s_deleted_text s) (s_fragments s) ts.
Proof using Type*.
  destruct Hok, Hsh. destruct (texts_with W ts x _ Hfr) as [E1 E2].
  pose proof (doc_frags _ _ bo_doc0) as Hfrags.
  split; try done; [by apply doc_ok_with|by rewrite E1|by rewrite E2|].
  rewrite bo_visible_text0, bo_deleted_text0, vis_text_length, del_text_length in Htotal by done. by rewrite with_text_ts.
Qed.
End Setup.

(** ** Keys *)
Definition insertion_key (f : Fragment) : InsertionFragmentKey := key (insertion_new f).
Lemma insertion_key_eq f g : insertion_key f = insertion_key g ↔ fragment_key f = fragment_key g.
Proof. unfold insertion_key, fragment_key, key, InsertionFragment_keyed. cbn. split; intros [= -> ->]; done. Qed.
Lemma same_key W l f g : doc_ok W l → f ∈ l → g ∈ l → fragment_key f = fragment_key g → f = g.
Proof.
  intros Hl%doc_keys Hf Hg E. apply list_elem_of_lookup in Hf as [i Hi]. apply list_elem_of_lookup in Hg as [j Hj].
  assert (i = j) as ->; [|congruence]. eapply NoDup_lookup; [exact Hl| |]; rewrite list_lookup_fmap; [by rewrite Hi|by rewrite Hj, E].
Qed.
Lemma NoDup_keys {K} W l (f : Fragment → K) : doc_ok W l → (∀ g h, f g = f h → fragment_key g = fragment_key h) → NoDup (f <$> l).
Proof.
  intros Hl%doc_keys Hf. revert Hl. induction l as [|g l IH]; [constructor|]. cbn. rewrite !NoDup_cons. intros [Hg Hl]. split; [|by apply IH].
  intros (h & E & Hh)%list_elem_of_fmap. apply Hg. apply list_elem_of_fmap. exists h. split; [by apply Hf|done].
Qed.

(** ** The index of insertions after an edit *)
Lemma index_after W sort_insertions m F out es :
  sort_spec sort_insertions → index_ok m F → height m < STACK_CAP → doc_ok W F → doc_ok W out →
  sublist es (insert_new <$> out) → (∀ g, g ∈ out → insert_new g ∈ es ∨ g ∈ F) →
  (∀ f, f ∈ F → fragment_key f ∈ fragment_key <$> out) →
  returns (edit sort_insertions m es) (λ '(_, m'), index_ok m' out).
Proof.
  intros Hsort [Hm Hin] Hh HF Hout Hsub Hidx Hkeys.
  assert (Hes : ∀ e, e ∈ es → ∃ g, g ∈ out ∧ e = insert_new g).
  { intros e He. pose proof (elem_of_sublist _ _ _ He Hsub) as (g & -> & Hg)%list_elem_of_fmap. by exists g. }
  assert (Hkin : ∀ f, insertion_key f ∈ edit_key <$> es → ∃ g, g ∈ out ∧ insert_new g ∈ es ∧ fragment_key g = fragment_key f).
  { intros f (e & E & He)%list_elem_of_fmap. destruct (Hes e He) as (g & Hg & ->). exists g. split_and!; [done|done|].
    symmetry. by apply insertion_key_eq. }
  destruct (edit_spec m Hm Hh sort_insertions es Hsort) as ([r m'] & -> & Hm' & Hy & _).
  - eapply sublist_NoDup; [|by apply fmap_sublist]. rewrite <-list_fmap_compose. apply (NoDup_keys W); [done|].
    intros g h E. by apply insertion_key_eq.
  - rewrite Forall_forall. intros e (g & _ & ->)%Hes. done.
  - apply returns_Ret. split; [done|]. intros y. rewrite Hy, Hin. split.
    + intros [He|[(f & -> & Hf)%list_elem_of_fmap Hnot]].
      * destruct (Hes _ He) as (g & Hg & [= ->]). by apply list_elem_of_fmap_2.
      * pose proof (Hkeys f Hf) as (g & E & Hg)%list_elem_of_fmap. apply list_elem_of_fmap. exists f. split; [done|].
        destruct (Hidx g Hg) as [He|HgF]; [|by rewrite (same_key W F f g)].
        destruct Hnot. apply list_elem_of_fmap. exists (insert_new g). split; [|done]. by apply insertion_key_eq.
    + intros (g & -> & Hg)%list_elem_of_fmap. destruct (Hidx g Hg) as [He|HgF]; [by left|].
      destruct (decide (insertion_key g ∈ edit_key <$> es)) as [Hk|Hk]; [left|right; split; [by apply list_elem_of_fmap_2|done]].
      destruct (Hkin g Hk) as (h & Hh' & He & E). by rewrite (same_key W out g h).
Qed.

(** ** The insertion slices after an edit *)
Lemma same_cell l f g c : NoDup (cells l) → f ∈ l → g ∈ l → c ∈ fragment_cells f → c ∈ fragment_cells g → f = g.
Proof.
  induction l as [|h l IH]; [by intros _ ?%not_elem_of_nil|]. rewrite cells_cons, NoDup_app. intros (_ & Hd & Hl).
  assert (Hin : ∀ k, k ∈ l → c ∈ fragment_cells k → c ∈ cells l).
  { intros k Hk Hc. destruct c as [t i]. apply elem_of_cells. exists k. split; [done|]. unfold fragment_cells in Hc.
    apply list_elem_of_fmap in Hc as (j & [= -> ->] & Hj%elem_of_seq). split; [done|lia]. }
  rewrite !elem_of_cons. intros [->|Hf] [->|Hg] Hcf Hcg; [done| | |by apply IH]; exfalso; by eapply Hd; [|eapply Hin].
Qed.
Lemma elem_of_fragment_cells t i f :
  (t, i) ∈ fragment_cells f ↔ t = f_timestamp f ∧ f_insertion_offset f ≤ i < f_insertion_offset f + f_len f.
Proof.
  unfold fragment_cells. rewrite list_elem_of_fmap. split.
  - intros (j & [= -> ->] & Hj%elem_of_seq). split; [done|lia].
  - intros [-> Hi]. exists i. split; [done|]. apply elem_of_seq. lia.
Qed.
Lemma elem_of_slices_of ts l sl : sl ∈ slices_of ts l ↔ ∃ g, g ∈ l ∧ touched ts g = true ∧ sl = slice_of ts g.
Proof.
  unfold slices_of. rewrite list_elem_of_fmap. setoid_rewrite list_elem_of_In. setoid_rewrite List.filter_In. naive_solver.
Qed.
Lemma slices_sublist ts l : sublist (slices_of ts l) (slice_of ts <$> l).
Proof. apply fmap_sublist. induction l as [|g l IH]; cbn; [constructor|]. destruct (touched ts g); by constructor. Qed.
Lemma touched_true d f : touched d f = true ↔ f_timestamp f = d ∨ d ∈ f_deletions f.
Proof. apply bool_decide_eq_true. Qed.
Lemma derived_cells ts g f t i : derived ts g f → (t, i) ∈ fragment_cells g → (t, i) ∈ fragment_cells f.
Proof. intros (E & _ & (a & Ea & Hle) & _). rewrite !elem_of_fragment_cells, E, Ea. intros [-> ?]. split; [done|lia]. Qed.
Lemma derived_touched ts d g f : derived ts g f → touched d f = true → touched d g = true.
Proof.
  intros (E & _ & _ & Hd). rewrite !touched_true, E. intros [?|Hin]; [by left|right].
  destruct Hd as [[_ ->]|(_ & ->)]; [done|]. apply elem_of_app. by left.
Qed.
Lemma derived_touched_inv ts d g f : derived ts g f → touched d g = true → touched d f = true ∨ d = ts.
Proof.
  intros (E & _ & _ & Hd). rewrite !touched_true, E. intros [?|Hin]; [left; by left|].
  destruct Hd as [[_ Hd]|(_ & Hd)]; rewrite Hd in Hin; [left; by right|].
  apply elem_of_app in Hin as [?| ->%list_elem_of_singleton]; [left; by right|by right].
Qed.

Section Slices.
Context (W : Lamport → list N) (ts : Lamport) (F out : list Fragment).
Hypotheses (HF : doc_ok W F) (Hout : doc_ok W out) (Hfr : fresh ts F) (Hkept : cells F ⊆ cells out).
Hypothesis Horigin : ∀ g, g ∈ out → inserted ts g ∨ ∃ f, f ∈ F ∧ derived ts g f.

Lemma kept_fragment f t i : f ∈ F → (t, i) ∈ fragment_cells f → ∃ g, g ∈ out ∧ derived ts g f ∧ (t, i) ∈ fragment_cells g.
Proof using Type*.
  intros Hf Hc. pose proof Hc as [-> Hi]%elem_of_fragment_cells.
  assert ((f_timestamp f, i) ∈ cells out) as (g & Hg & Eg & Hgi)%elem_of_cells by (apply Hkept, elem_of_cells; by exists f).
  assert (Hcg : (f_timestamp f, i) ∈ fragment_cells g) by (by apply elem_of_fragment_cells).
  destruct (Horigin g Hg) as [(Hts & _)|(f' & Hf' & Hd)].
  - unfold fresh in Hfr. rewrite Forall_forall in Hfr. destruct (Hfr f Hf). congruence.
  - assert (f' = f) as ->; [|by exists g]. eapply (same_cell F); [by eapply doc_nodup|done|done|by eapply derived_cells|done].
Qed.

Lemma slices_after sort_slices m :
  sort_spec sort_slices → slices_ok m F → height m < STACK_CAP →
  returns (set_extend sort_slices m (slices_of ts out)) (λ m', slices_ok m' out).
Proof using Type*.
  intros Hsort [Hm Hne0 Hsound Hcomp Halign] Hh. unfold set_extend.
  destruct (map_extend_spec m Hm Hh sort_slices ((λ k, (k, tt)) <$> slices_of ts out) Hsort) as (m' & -> & Hm' & Hl).
  { rewrite <-list_fmap_compose. change (fst ∘ _) with (id (A := InsertionSlice)). rewrite list_fmap_id.
    eapply sublist_NoDup; [|by apply slices_sublist]. apply (NoDup_keys W); [done|]. intros g h E. unfold fragment_key. by injection E as -> -> _. }
  assert (Hhas : ∀ sl, has_slice m' sl ↔ sl ∈ slices_of ts out ∨ has_slice m sl).
  { intros sl. unfold has_slice. rewrite Hl, <-list_fmap_compose. change (fst ∘ _) with (id (A := InsertionSlice)). rewrite list_fmap_id.
    assert ((sl, tt) ∈ (λ k, (k, tt)) <$> slices_of ts out ↔ sl ∈ slices_of ts out) as ->.
    { rewrite list_elem_of_fmap. split; [by intros (? & [= ->] & ?)|by exists sl]. }
    destruct (decide (sl ∈ slices_of ts out)); tauto. }
  apply returns_Ret. split; [done| | | |].
  - intros sl [(g & Hg & _ & ->)%elem_of_slices_of|Hold]%Hhas; [|by apply Hne0]. pose proof (doc_frags _ _ Hout) as Hfrags.
    rewrite Forall_forall in Hfrags. destruct (Hfrags g Hg) as [Hlen _]. cbn. lia.
  - intros sl i [(g & Hg & Ht & ->)%elem_of_slices_of|Hold]%Hhas Hi; [exists g; split_and!; try done; by apply elem_of_fragment_cells|].
    destruct (Hsound sl i Hold Hi) as (f & Hf & Ht & Hc). destruct (kept_fragment f _ _ Hf Hc) as (g & Hg & Hd & Hcg).
    exists g. split_and!; [done|by eapply derived_touched|done].
  - intros g d i Hg Ht Hne Hc. assert (Hnew : d = ts → ∃ sl, has_slice m' sl ∧ sl_edit_id sl = d ∧ sl_insertion_id sl = f_timestamp g ∧ in_slice i sl).
    { intros ->. exists (slice_of ts g). apply elem_of_fragment_cells in Hc as [_ Hi]. split_and!; [|done|done|exact Hi].
      apply Hhas. left. apply elem_of_slices_of. by exists g. }
    destruct (Horigin g Hg) as [(E & _ & Ed & _)|(f & Hf & Hd)].
    + apply Hnew. apply touched_true in Ht as [<-|Hin]; [done|]. rewrite Ed in Hin. by apply not_elem_of_nil in Hin.
    + destruct (derived_touched_inv _ _ _ _ Hd Ht) as [Htf|]; [|by apply Hnew]. pose proof Hd as (E & _).
      rewrite E in Hc |- *. destruct (Hcomp f d i Hf Htf Hne) as (sl & Hsl & H1 & H2 & H3); [rewrite <-E in Hc; rewrite <-E; by eapply derived_cells|].
      exists sl. split_and!; [apply Hhas; by right|done|done|done].
  - intros sl h i [(g & Hg & Ht & ->)%elem_of_slices_of|Hold]%Hhas Hin Hi Hc.
    + assert (g = h) as ->; [|done]. apply (same_cell out g h (f_timestamp g, i)); [by eapply doc_nodup|done|done|by apply elem_of_fragment_cells|done].
    + destruct (Hsound sl i Hold Hi) as (f0 & Hf0 & _ & Hc0). destruct (Horigin h Hin) as [(E & _)|(f & Hf & Hd)].
      * apply elem_of_fragment_cells in Hc as [E1 _], Hc0 as [E2 _]. unfold fresh in Hfr. rewrite Forall_forall in Hfr. destruct (Hfr f0 Hf0). congruence.
      * destruct (Halign sl f i Hold Hf Hi) as [A1 A2]; [by eapply derived_cells|]. destruct Hd as (_ & _ & (a & Ea & Hle) & _). lia.
Qed.
End Slices.

(** * New buffers satisfy the invariant *)
(** The insertions of a new buffer: the base text. *)
Definition base_text_of (r : Rope) : Lamport → list N := with_text (λ _, []) base_timestamp (rope_text r).

Section New.
Context (r : Rope) (max_insertion_len : N).
Hypotheses (Hr : rope_wf r) (Hh : height (chunks r) < STACK_CAP) (Hmax : (4 <= max_insertion_len)%N).
Abbreviation T := (rope_text r).
Abbreviation W := (base_text_of r).

(** The fragments [out] hold the first [bf_text_offset st] bytes. *)
Record based (st : BaseFragments) (out : list Fragment) : Prop := {
  ba_tree : wf (bf_fragments st); ba_items : tree_items (bf_fragments st) = out;
  ba_insertions : wf (bf_insertions st); ba_index : tree_items (bf_insertions st) = insertion_new <$> out;
  ba_offset : bf_insertion_offset st = bf_text_offset st; ba_prev : bf_prev_locator st = max_id out;
  ba_ids : ids_ok out; ba_frags : Forall (frag_ok W) out; ba_new : Forall (inserted base_timestamp) out;
  ba_text : vis_text W out = take (bf_text_offset st) T;
  ba_cells : cells out = pair base_timestamp <$> seq 0 (bf_text_offset st);
  ba_below : Forall (λ f, f_insertion_offset f < bf_text_offset st) out; ba_sorted : sorted_keys (insertion_new <$> out);
  ba_len : bf_text_offset st ≤ length T; ba_bound : str_is_char_boundary T (bf_text_offset st) = true;
}.

Lemma base_step_spec st out : based st out → bf_text_offset st < length T →
  ∃ st' out', base_step max_insertion_len r base_timestamp st = Ret (inl st') ∧ based st' out' ∧ bf_text_offset st < bf_text_offset st'.
Proof using Type*.
  intros [] Hlt. pose proof Hr as (_ & [Hch Hsm] & _). assert (Hu : utf8 T) by (by apply chunks_text_utf8). change (small T) in Hsm.
  unfold base_step. rewrite rope_len_spec by done. apply Nat.ltb_lt in Hlt as Hlt'. rewrite Hlt'.
  pose proof (piece_end_spec max_insertion_len T (bf_text_offset st) Hu Hmax Hlt) as Hce. cbn zeta in Hce. set (target_end := N.to_nat _) in *.
  assert (∃ e, (if target_end =? length T then Ret target_end else rope_floor_char_boundary r target_end) = Ret e ∧
    bf_text_offset st < e ≤ length T ∧ str_is_char_boundary T e = true) as (e & -> & He & Hbe).
  { destruct (target_end =? length T); [by eexists|]. rewrite floor_char_boundary_at by done. by eexists. }
  rewrite usize_sub_ok by lia. rewrite ba_prev0. rewrite <-(app_nil_r out) in ba_ids0. destruct (between_ids out [] ba_ids0) as (m & Em & Hm).
  change (next_id []) with locator_max in Em. rewrite Em. unfold small in Hsm. rewrite as_u32_small by lia.
  set (g := MkFragment m base_timestamp _ _ true [] Global_new). set (off := bf_text_offset st) in *.
  assert (EW : W base_timestamp = T) by apply with_text_ts.
  assert (Etg : text_of W g = seg T off e) by (unfold text_of, seg; cbn [g f_len f_insertion_offset f_timestamp]; by rewrite EW, ba_offset0).
  assert (Hg : frag_ok W g).
  { split_and!; cbn [g f_len f_insertion_offset f_timestamp f_max_undos]; rewrite ?EW, ?ba_offset0; [lia|lia|done| |apply trimmed_new].
    rewrite Etg. apply utf8_seg; (done || lia). }
  assert (Hfr : Forall (frag_ok W) (out ++ [g])) by (apply Forall_app; split; [done|by constructor; [|constructor]]).
  destruct (push_wf (bf_insertions st) (insertion_new g)) as (ti & -> & Hti & Eti); [done|done|].
  destruct (push_wf (bf_fragments st) g) as (tf & -> & Htf & Etf); [done|rewrite ba_items0; by eapply frag_ok_valid|].
  rewrite U32_add_ok by lia. eexists _, (out ++ [g]). split; [done|]. split; [|cbn; lia].
  split; cbn [bf_fragments bf_insertions bf_insertion_offset bf_text_offset bf_prev_locator]; try done.
  - by rewrite Etf, ba_items0.
  - by rewrite Eti, ba_index0, fmap_app.
  - lia.
  - unfold max_id. by rewrite last_snoc.
  - by apply Hm.
  - apply Forall_app; split; [done|by constructor; [|constructor]].
  - rewrite vis_text_snoc, ba_text0, Etg. cbn [g f_visible]. symmetry. apply take_seg. lia.
  - rewrite cells_snoc, ba_cells0. unfold fragment_cells. cbn [g f_insertion_offset f_len f_timestamp].
    rewrite <-fmap_app, ba_offset0. fold off. rewrite <-seq_app. do 2 f_equal. lia.
  - apply Forall_app; split; [|constructor; [cbn; lia|constructor]]. eapply Forall_impl; [exact ba_below0|]. cbn. lia.
  - rewrite fmap_app. apply sorted_app. split; [done|]. split; [by repeat constructor|]. apply Forall_fmap. rewrite Forall_forall in *.
    intros f Hf. specialize (ba_below0 f Hf). specialize (ba_new0 f Hf) as (Ets & _). constructor; [|constructor].
    unfold key_lt, olt, key, InsertionFragment_keyed, cmp, InsertionFragmentKey_ord. cbn. rewrite Ets, cmp_refl. cbn.
    unfold cmp, nat_ord. apply Nat.compare_lt_iff. lia.
  - lia.
Qed.

Lemma based_buffer st out version replica_id remote_id line_ending :
  based st out → bf_text_offset st = length T →
  buffer_ok W (MkSnapshot r rope_new (bf_fragments st) (bf_insertions st) new new version remote_id replica_id line_ending).
Proof using Hr.
  intros [] Hend. rewrite Hend, take_ge in ba_text0 by done. destruct rope_wf_new as [Hn En].
  assert (Hdel : del_text W out = []).
  { clear -ba_new0. induction ba_new0 as [|g l (_ & Hg & _) _ IH]; [done|]. by rewrite del_text_cons, Hg. }
  split; cbn; rewrite ?ba_items0; try done.
  - split; [done|done|]. rewrite ba_cells0. apply in_order_seq.
  - split; [|by rewrite ba_index0]. split; [done|]. rewrite ba_index0. split; [done|]. by apply Forall_forall.
  - split; [by split; [left|split; [constructor|constructor]]|done|done| |done].
    intros f d i Hf Ht Hne. rewrite Forall_forall in ba_new0. destruct (ba_new0 f Hf) as (E1 & _ & E2 & _).
    apply touched_true in Ht as [<-|Hin]; [congruence|]. rewrite E2 in Hin. by apply not_elem_of_nil in Hin.
Qed.

Definition base_version : Global := if length T =? 0 then Global_new else observe Global_new base_timestamp.

Lemma new_normalized_spec replica_id remote_id line_ending group_interval :
  returns (new_normalized max_insertion_len replica_id remote_id line_ending r group_interval) (λ b,
    buffer_ok W (b_snapshot b) ∧ s_visible_text (b_snapshot b) = r ∧ Forall (inserted base_timestamp) (tree_items (s_fragments (b_snapshot b))) ∧
    s_undo_map (b_snapshot b) = new ∧ b_history b = history_new r group_interval ∧ b_version b = base_version ∧
    b_subscriptions b = topic_default ∧ Forall (λ _, value base_timestamp < value (b_lamport_clock b))%N (tree_items (s_fragments (b_snapshot b)))).
Proof using Type*.
  unfold new_normalized, rope_is_empty, base_version. cbn [history_new h_base_text]. rewrite rope_len_spec by done. cbn beta iota.
  assert (Hstart : based (MkBase new new 0 0 locator_min) []).
  { split; cbn; try done; try by left. 2: lia. unfold ids_ok. cbn. split; [|constructor]. constructor; [constructor; constructor|]. constructor; [vm_compute; reflexivity|constructor]. }
  destruct (Nat.eqb_spec (length T) 0) as [E|Hne].
  - apply returns_Ret. split; [by apply (based_buffer (MkBase new new 0 0 locator_min) [])|]. done.
  - destruct (loop_returns (base_step max_insertion_len r base_timestamp) (λ st, ∃ out, based st out) (λ st, length T - bf_text_offset st)
      (λ st, ∃ out, based st out ∧ bf_text_offset st = length T)) with (fuel := S (length T)) (s := MkBase new new 0 0 locator_min) as (st & E & out & Hb & He).
    + intros st (out & Hb). destruct (Nat.lt_ge_cases (bf_text_offset st) (length T)) as [Hlt|Hge]; [left|right].
      * destruct (base_step_spec st out Hb Hlt) as (st' & out' & E & Hb' & Hlt'). exists st'. split; [done|]. split; [by exists out'|lia].
      * exists st. unfold base_step. rewrite rope_len_spec by done. apply Nat.ltb_ge in Hge as Hge'. rewrite Hge'. split; [done|].
        exists out. split; [done|]. destruct Hb. lia.
    + by exists [].
    + lia.
    + change (Lamport_new LOCAL) with base_timestamp. rewrite E. apply returns_Ret. split; [by eapply based_buffer|].
      destruct Hb. cbn. rewrite ba_items0. split_and!; try done. apply Forall_forall. intros f _. by vm_compute.
Qed.
End New.
