(* ===== verification/BufferEdit.v ===== *)
(** * Local edits of a buffer, from the first walk to the new snapshot *)
From stdpp Require Import base numbers option list sorting.
From Stdlib Require Import Lia.
From S2P Require Import Prelude Clock SumTree SumTreeFacts SumTreeBulk Cursor CursorFacts CursorSeek CursorMove CursorIter Keyed KeyedFacts TreeMap TreeMapFacts Locator Patch PatchFacts.
From S2P Require Import Utf8 ChunkPointsFacts RopeTree Rope RopeBuild RopeSlice Fragment Snapshot Document Walk Layout LocalEdit RemoteWalk BufferOk.
#[local] Opaque TREE_BASE av_cap.

Section Start.
Context (W : Lamport → list N) (V D : Rope) (t : fragment_tree) (ts : Lamport).
Hypothesis Hset : setup W V D t ts.
Abbreviation F := (tree_items t).
Abbreviation X := (vis_text W F).
Abbreviation walk := (walk W V D t ts).
Abbreviation core := (core W V D t ts).

(** All fragments before the first edit are taken over. *)
Lemma core_begin q l s rb :
  F = q ++ l → wf s → tree_items s = q → ropes_at V D rb 0 0 [] [] →
  returns (ropes_append rb (fs_text (summary s))) (λ rb', core q l 0 q (MkBuilding (builder_new s) rb' [] [] 0 [])).
Proof using Hset.
  intros E Hs Eq Hrb. destruct (run_texts W V D t ts Hset [] q l E) as (M1 & M2 & B1 & B2).
  change (visible_len []) with 0 in *. change (deleted_len []) with 0 in *.
  destruct (old_frags W V D t ts Hset q l E) as [Hq _]. destruct (junction W V D t ts Hset q l E) as (J1 & _).
  destruct (consumed_le t q l 0 E) as [L1 L2]; [by left|]. rewrite Nat.add_0_r in L1.
  destruct (walk_small W V D t ts Hset q Hq) as [Sv Sd]; [lia|].
  rewrite wf_summary, Eq, total_text by done. destruct Hset.
  destruct (ropes_append_spec V D su_visible su_deleted su_visible_shallow su_deleted_shallow rb 0 0 [] [] (MkFragmentText (visible_len q) (deleted_len q)))
    as (rb' & -> & Hrb'); cbn [ft_visible ft_deleted app] in *; rewrite ?M1, ?M2; try done.
  rewrite M1, M2 in Hrb'.
  assert (Hin : ∀ g, g ∈ q → g ∈ F) by (intros g Hg; rewrite E, elem_of_app; by left).
  apply returns_Ret. split; cbn [b_fragments b_ropes b_insertions b_slices b_offset b_patch]; rewrite ?vis_at_0, ?del_at_0, ?rest_0, <-?E; try done.
  - by left.
  - rewrite <-Eq. by apply builder_new_ok.
  - by destruct su_doc.
  - intros i Hi. by apply (fresh_cells W V D t ts Hset q l) in Hi.
  - lia.
  - rewrite (take_visible W V D t ts Hset q l) by done. constructor.
  - apply sublist_nil_l.
  - intros g Hg. right. by apply Hin.
  - intros f Hf. by apply list_elem_of_fmap_2.
  - rewrite slices_of_none; [done|]. rewrite Forall_forall. intros g Hg. by apply (untouched W V D t ts Hset), Hin.
  - apply not_of_all. intros i. apply (fresh_cells W V D t ts Hset F []). by rewrite app_nil_r.
  - intros g Hg. right. exists g. split; [by apply Hin|apply derived_self].
Qed.
Lemma walk_begin c q l s rb :
  F = q ++ l → cursor_at t c q l → wf s → tree_items s = q → ropes_at V D rb 0 0 [] [] →
  returns (ropes_append rb (fs_text (summary s))) (λ rb',
    walk q l 0 q c (visible_len q) (MkBuilding (builder_new s) rb' [] [] 0 [])).
Proof using Hset.
  intros E Hc Hs Eq Hrb. eapply returns_mono; [by eapply core_begin|]. intros rb' Hk. by eapply core_walk.
Qed.
End Start.

(** What an edit leaves as it was: every fragment is new text or a part of an
    old one, and no cell is lost. *)
Record edited (ts : Lamport) (s s' : BufferSnapshot) : Prop := {
  ed_undo : s_undo_map s' = s_undo_map s; ed_version : s_version s' = s_version s;
  ed_remote : s_remote_id s' = s_remote_id s; ed_replica : s_replica_id s' = s_replica_id s;
  ed_ending : s_line_ending s' = s_line_ending s;
  ed_origin : ∀ g, g ∈ tree_items (s_fragments s') → inserted ts g ∨ ∃ f, f ∈ tree_items (s_fragments s) ∧ derived ts g f;
  ed_kept : not_of ts (cells (tree_items (s_fragments s'))) = cells (tree_items (s_fragments s));
}.

Section Finish.
Context (W : Lamport → list N) (s : BufferSnapshot) (ts : Lamport).
Context (par_chunks : ∀ A : Type, nat → list A → list (list A)).
Context (sort_insertions : list insertion_edit → list insertion_edit).
Context (sort_slices : list (Edit (MapEntry InsertionSlice unit) (MapKey InsertionSlice)) →
  list (Edit (MapEntry InsertionSlice unit) (MapKey InsertionSlice))).
Hypotheses (Hpar : chunks_spec par_chunks) (Hsi : sort_spec sort_insertions) (Hss : sort_spec sort_slices).
Abbreviation V := (s_visible_text s).
Abbreviation D := (s_deleted_text s).
Abbreviation t := (s_fragments s).
Abbreviation F := (tree_items t).
Abbreviation X := (vis_text W F).
Abbreviation walk := (walk W V D t ts).
Abbreviation core := (core W V D t ts).
Hypothesis Hset : setup W V D t ts.
Hypotheses (Hindex : index_ok (s_insertions s) F) (Hslices : slices_ok (s_insertion_slices s) F) (Hsh : shallow s).

Lemma append_slice_patch b sl b' : append_slice b sl = Ret b' → b_patch b' = b_patch b.
Proof using. unfold append_slice. by destruct (ropes_append _ _); intros [= <-]. Qed.

Lemma install_spec p l out b sl :
  core p l 0 out b → ids_ok (out ++ l) → wf sl → tree_items sl = l →
  returns (install_edit par_chunks sort_insertions sort_slices s sl b) (λ s',
    buffer_ok W s' ∧ edited ts s s' ∧ tree_items (s_fragments s') = out ++ l ∧
    rewrites 0 0 X (b_patch b) (rope_text (s_visible_text s')) ∧ separated (b_patch b)).
Proof using Type*.
  intros Hw Hids Hwf Esl. pose proof (F_valid W V D t ts Hset) as Hv. unfold install_edit.
  assert (Hwl : core p (l ++ []) 0 out b) by (by rewrite app_nil_r). pose proof (k_sep _ _ _ _ _ _ _ _ _ _ Hw) as Hsep.
  assert (E : F = p ++ l) by by destruct Hw.
  destruct (core_run W V D t ts Hset p l [] out b sl Hwl Hwf Esl) as (b' & Eb & Hw').
  rewrite Eb. apply append_slice_patch in Eb. rewrite <-E in Hw'. destruct Hw'. rewrite vis_at_0, del_at_0, app_nil_r in *.
  destruct (vis_lengths W V D t ts Hset F []) as [LX LD]; [by rewrite app_nil_r|].
  destruct (junction W V D t ts Hset F []) as (J1 & J2 & _); [by rewrite app_nil_r|].
  destruct (walk_small W V D t ts Hset (out ++ l) k_frags) as [Sv Sd]; [lia|].
  pose proof Hset as [HV HD SV SD _ _ HF EV ED Hfr _].
  destruct (ropes_finish_spec V D HV HD SV SD (b_ropes b') (visible_len F) (deleted_len F) _ _ k_ropes) as ([v d] & -> & (Hv1 & Ev1) & (Hd1 & Ed1));
    rewrite ?EV, ?ED, ?drop_ge, ?app_nil_r by lia; try done.
  rewrite EV, drop_ge, app_nil_r in Ev1 by lia. rewrite ED, drop_ge, app_nil_r in Ed1 by lia.
  destruct (to_sum_tree_ok par_chunks Hpar (b_fragments b') (out ++ l) k_builder) as (t' & -> & Ht' & Et'); [by eapply frag_ok_valid|].
  assert (Hdoc : doc_ok W (out ++ l)) by (by split). assert (Hkept : cells F ⊆ cells (out ++ l)) by (rewrite <-k_kept; apply not_of_sub).
  destruct (index_after W sort_insertions (s_insertions s) F (out ++ l) (b_insertions b')) as ([r m'] & -> & Hm'); try done; [by destruct Hsh|].
  rewrite k_slices. destruct (slices_after W ts F (out ++ l) HF Hdoc Hfr Hkept k_origin sort_slices (s_insertion_slices s)) as (ss & -> & Hss'); try done; [by destruct Hsh|].
  apply returns_Ret. split; [|split; [|split; [|split; [|done]]]]; cbn [s_visible_text s_fragments].
  - split; cbn; rewrite ?Et'; done.
  - split; cbn; rewrite ?Et'; done.
  - done.
  - rewrite Ev1, <-Eb. by rewrite take_ge in k_patch by lia.
Qed.

Lemma finish_spec p l out c st b :
  walk p l 0 out c st b → ids_ok (out ++ l) →
  returns (finish_edit par_chunks sort_insertions sort_slices s c b) (λ s',
    buffer_ok W s' ∧ edited ts s s' ∧ rope_text (s_visible_text s') = vis_text W out ++ drop st X ∧
    rewrites 0 0 X (b_patch b) (rope_text (s_visible_text s')) ∧ separated (b_patch b) ∧
    tree_items (s_fragments s') = out ++ l ∧ vcells l = drop st (vcells F)).
Proof using Type*.
  intros Hw Hids. pose proof Hw as [Hc Est _]. rewrite Nat.add_0_r in Est. pose proof (walk_items t _ _ _ Hc) as E.
  unfold finish_edit. destruct (suffix_spec t (su_tree _ _ _ _ _ Hset) (F_valid W V D t ts Hset) (su_height _ _ _ _ _ Hset) c p l (or_introl Hc))
    as ([sl c'] & -> & Hc' & Hwf & Esl).
  eapply returns_mono; [by eapply install_spec; [eapply walk_core|..]|]. cbn beta. intros s' (Hok & Hed & Ei & Hrw & Hsep). split; [done|]. split; [done|].
  assert (Evis : vis_text W (out ++ l) = vis_text W out ++ drop st X).
  { rewrite vis_text_app, Est, E, vis_text_app. f_equal. destruct (vis_lengths W V D t ts Hset p l E) as [<- _]. by rewrite drop_app_length. }
  split; [by rewrite (bo_visible_text _ _ Hok), Ei|]. split; [done|]. split; [done|]. split; [done|].
  by rewrite E, vcells_app, Est, <-vcells_length, drop_app_length.
Qed.
End Finish.

(** ** [apply_edit_internal] *)
Section Apply.
Context (par_chunks : ∀ A : Type, nat → list A → list (list A)).
Context (sort_insertions : list insertion_edit → list insertion_edit).
Context (sort_slices : list (Edit (MapEntry InsertionSlice unit) (MapKey InsertionSlice)) →
  list (Edit (MapEntry InsertionSlice unit) (MapKey InsertionSlice))).
Context (replace_line_separators : list N → list N) (max_insertion_len : N).
Hypotheses (Hpar : chunks_spec par_chunks) (Hsi : sort_spec sort_insertions) (Hss : sort_spec sort_slices).
Hypothesis Hmax : (4 <= max_insertion_len)%N.
Abbreviation apply_edit_internal :=
  (apply_edit_internal par_chunks sort_insertions sort_slices replace_line_separators max_insertion_len).
Abbreviation normal := replace_line_separators.

(** What an edit asks of the snapshot, the time stamp and the edits. *)
Record editable (W : Lamport → list N) (s : BufferSnapshot) (edits : list (nat * nat * list N)) (ts : Lamport) : Prop := {
  ea_ok : buffer_ok W s; ea_shallow : shallow s; ea_fresh : fresh ts (tree_items (s_fragments s));
  ea_edits : edits_ok normal (rope_text (s_visible_text s)) 0 edits;
  ea_total : (N.of_nat (length (rope_text (s_visible_text s)) + length (rope_text (s_deleted_text s)) +
    length (concat (texts normal edits))) <= U32_MAX)%N;
}.

(** The ranges of the operation are places among all cells, and say what
    became of them. *)
Definition overlays (op : EditOperation) (F F' : list Fragment) : Prop :=
  length (eo_ranges op) = length (eo_new_text op) ∧
  places_ok 0 (length (layout F)) (full_edits (eo_ranges op) (eo_new_text op)) ∧
  layout F' = overlay (eo_timestamp op) (full_edits (eo_ranges op) (eo_new_text op)) 0 0 (layout F).
(** All there is to say about the result. *)
Definition edit_post (W : Lamport → list N) (s : BufferSnapshot) (edits : list (nat * nat * list N)) (ts : Lamport)
    (r : EditOperation * Patch * BufferSnapshot) : Prop :=
  let '(op, patch, s') := r in
  buffer_ok (with_text W ts (concat (texts normal edits))) s' ∧ edited ts s s' ∧
  rope_text (s_visible_text s') = spliced normal (rope_text (s_visible_text s)) 0 edits ∧
  rewrites 0 0 (rope_text (s_visible_text s)) patch (rope_text (s_visible_text s')) ∧ separated patch ∧
  eo_timestamp op = ts ∧ eo_version op = s_version s ∧ eo_new_text op = texts normal edits ∧
  full_ranges (s_fragments s) edits (eo_ranges op) ∧
  relaid normal ts (vcells (tree_items (s_fragments s))) 0 0 edits (tree_items (s_fragments s')) ∧
  overlays op (tree_items (s_fragments s)) (tree_items (s_fragments s')).

(** The deleted text, and both texts, as the bytes of cells. *)
Lemma del_text_bytes W l : del_text W l = concat (byte_at W <$> (a_cell <$> List.filter a_hidden (layout l))).
Proof.
  induction l as [|f l IH]; [done|]. rewrite del_text_cons, layout_cons, List.filter_app, !fmap_app, concat_app, IH. f_equal.
  rewrite fragment_bytes. unfold laid, a_hidden. generalize (fragment_cells f) as c. intros c. destruct (f_visible f); induction c as [|x c IHc]; cbn; try done. f_equal. exact IHc.
Qed.
Lemma both_texts_bytes W l : vis_text W l ++ del_text W l ≡ₚ concat (byte_at W <$> cells l).
Proof.
  induction l as [|f l IH]; [done|]. rewrite vis_text_cons, del_text_cons, cells_cons, fmap_app, concat_app, <-IH, <-fragment_bytes.
  destruct (f_visible f); cbn; solve_Permutation.
Qed.
Lemma sublist_bytes W k l : sublist k l → sublist (concat (byte_at W <$> k)) (concat (byte_at W <$> l)).
Proof. induction 1; cbn; [done|by apply sublist_app|by apply sublist_inserts_l]. Qed.
Lemma concat_perm (k l : list (list N)) : k ≡ₚ l → concat k ≡ₚ concat l.
Proof. induction 1; cbn; [done|by apply Permutation_app_head|solve_Permutation|by etrans]. Qed.

(** No text is lost: the old deleted text is within the new one, and the bytes
    of both texts are the old ones and the new text. *)
Lemma edit_keeps_texts W s edits ts r : editable W s edits ts → edit_post W s edits ts r →
  sublist (rope_text (s_deleted_text s)) (rope_text (s_deleted_text r.2)) ∧
  rope_text (s_visible_text r.2) ++ rope_text (s_deleted_text r.2) ≡ₚ
    rope_text (s_visible_text s) ++ rope_text (s_deleted_text s) ++ concat (texts normal edits).
Proof.
  destruct r as [[op patch] s']. intros [Hok Hsh Hfr Hed Htot] (Hok' & _ & _ & _ & _ & Ets & _ & Ex & _ & _ & El & Hpl & Hlay). cbn [snd].
  pose proof (snapshot_setup W s ts _ Hok Hsh Hfr Htot) as [_ _ _ _ _ _ _ EV ED _ _].
  set (W' := with_text W ts (concat (texts normal edits))) in *. rewrite EV, ED, (bo_visible_text _ _ Hok'), (bo_deleted_text _ _ Hok').
  rewrite app_assoc, !both_texts_bytes, !del_text_bytes, <-!layout_cells, Hlay, Ets. split; [by eapply sublist_bytes, overlay_hidden|].
  etrans; [apply concat_perm, fmap_Permutation, (overlay_cells _ _ _ _ _ _ Hpl)|]. rewrite fmap_app, concat_app. apply Permutation_app_head.
  assert (snd <$> full_edits (eo_ranges op) (eo_new_text op) = texts normal edits) as ->.
  { rewrite <-Ex. unfold full_edits. revert El. generalize (eo_ranges op) as rs. generalize (eo_new_text op) as xs.
    intros xs. induction xs as [|x xs IH]; intros [|[] rs] E; try done. cbn. f_equal. apply IH. by injection E. }
  rewrite <-list_fmap_compose. unfold Basics.compose, byte_at. cbn [fst snd]. unfold W'. rewrite with_text_ts, take_bytes, drop_0, firstn_all. done.
Qed.

Lemma first_slice W V D t ts a :
  setup W V D t ts →
  returns (Cursor.slice (cursor_new (D := FragmentTextSummary) t) a Right) (λ '(i, c), ∃ q l,
    tree_items t = q ++ l ∧ cursor_at t c q l ∧ wf i ∧ tree_items i = q ∧ visible_len q ≤ a).
Proof using.
  clear Hmax. intros Hset. pose proof (F_valid W V D t ts Hset) as Hv.
  destruct (advance_visible a [] (tree_items t)) as (q & l & Ea & El & Hq & _); [cbn; lia|].
  destruct (slice_spec t (su_tree _ _ _ _ _ Hset) Hv (su_height _ _ _ _ _ Hset) a Right (usize_target_monotone t a)
    (cursor_new t) [] (tree_items t) (seekable_new t)) as ([i c] & -> & Hs).
  { unfold seek_cmp, usize_fragment_target, cmp, nat_ord. cbn. by destruct (Nat.compare_spec a 0); [|lia|]. }
  rewrite Ea in Hs. destruct Hs as (Hc & Hw & Ei). cbn in Hc, Ei, Hq. apply returns_Ret. by exists q, l.
Qed.

Lemma apply_edit_spec W s edits ts : editable W s edits ts → returns (apply_edit_internal s edits ts) (edit_post W s edits ts).
Proof using Type*.
  intros [Hok Hsh Hfr Hed Htot]. set (W' := with_text W ts (concat (texts normal edits))).
  pose proof (snapshot_setup W s ts _ Hok Hsh Hfr Htot) as Hset. fold W' in Hset. pose proof Hset as [HV HD SV SD _ _ HF EV ED _ _].
  unfold apply_edit_internal. destruct edits as [|[[a e] new_text] edits'] eqn:Eedits.
  - apply returns_Ret. destruct Hok. split; [split; done|]. split.
    { split; try done; [intros g Hg; right; exists g; split; [done|apply derived_self]|].
      apply not_of_all. intros i. apply (fresh_cells _ _ _ _ _ Hset _ []). by rewrite app_nil_r. }
    split_and!; try done; constructor.
  - destruct Hed as (_ & Hb & Hu & Hed). rewrite EV in Hb, Hed.
    destruct (ropes_new_at _ _ HV HD SV SD) as (rb & Erb & Hrb).
    destruct (rope_cursor (s_visible_text s) 0) as [v| |]; try done. destruct (rope_cursor (s_deleted_text s) 0) as [d| |]; try done.
    injection Erb as <-.
    destruct (first_slice _ _ _ _ _ a Hset) as ([i c] & -> & q & l & E & Hc & Hi & Eq & Hqa).
    destruct (walk_begin _ _ _ _ _ Hset c q l i _ E Hc Hi Eq Hrb) as (rb' & -> & Hw).
    destruct (cursor_reads _ _ _ _ _ Hset _ _ _ _ _ _ _ Hw) as (-> & _).
    destruct (local_edits_spec _ _ _ _ _ Hset par_chunks Hpar max_insertion_len Hmax normal ((a, e, new_text) :: edits')
      _ _ _ _ _ _ _ (MkEditOperation ts (s_version s) [] []) Hw) as ([[[c1 st1] b1] op] & -> & p1 & l1 & k1 & out1 & Hw1 & Hids1 & (O1 & O2 & (rs & O3 & O4) & O5) & Ev1 & _ & ext & Eext & Hext & rs2 & O6 & O7 & Hpl & Hov).
    { rewrite <-E. by destruct HF. }
    { by split. }
    { cbn [b_offset]. unfold W'. by rewrite with_text_ts. }
    destruct (push_rest_spec _ _ _ _ _ Hset _ _ _ _ _ _ _ Hw1 Hids1) as ([c2 b2] & -> & p2 & l2 & out2 & st2 & Hw2 & Hids2 & Hst2 & Hkept2 & _ & _ & Hkeep2).
    pose proof (kept_text _ _ _ _ _ Hset _ _ _ _ Hkept2) as Ev2.
    destruct Hok. destruct (finish_spec W' s ts par_chunks sort_insertions sort_slices Hpar Hsi Hss Hset bo_index bo_slices Hsh _ _ _ _ _ _ Hw2 Hids2)
      as (s' & -> & Hok' & Hed' & Et & Hrw & Hsep & EG & HG).
    apply returns_Ret. cbn in O1, O2, O3, O5. unfold edit_post. rewrite EV. split; [done|]. split; [done|]. split; [|split; [done|]].
    + rewrite Et, Ev2, <-app_assoc, seg_drop, Ev1 by done. cbn [spliced].
      rewrite <-(take_visible _ _ _ _ _ Hset q l E), app_assoc, <-take_seg by done. unfold seg at 1. by rewrite drop_0, Nat.sub_0_r.
    + cbn [eo_ranges app] in O6. unfold overlays. rewrite O5, O6, O1. destruct Hkeep2 as [K2 [EK2 (x2 & Ex2 & EyK2)]]. rewrite rest_0 in EK2, Hov. cbn [b_offset] in Hov.
      assert (Hlq : length (layout q) = place q 0) by (unfold place; rewrite layout_length; lia).
      split_and!; try done; [by rewrite <-O6, O3| |by rewrite O7; cbn; rewrite length_fmap| |].
      2: { eapply places_from; [|exact Hpl]. lia. }
      2: { rewrite EG, Ex2, Eext, E, !layout_app. erewrite overlay_past by (rewrite Hlq; exact Hpl). rewrite Hlq, EyK2, <-!app_assoc. f_equal.
           symmetry. etrans; [exact Hov|]. by rewrite EK2. }
      destruct Hkept2 as (k2 & -> & Ek2). rewrite EG, Eext, <-!app_assoc.
      apply (relaid_kept _ _ _ 0 (visible_len q)); [lia|done|by rewrite (cell_run _ [] q l E)|]. apply Hext.
      by rewrite vcells_app, Ek2, HG, seg_drop.
Qed.
End Apply.
