(* ===== verification/BufferLocal.v ===== *)
(** * [Buffer::edit]

    A buffer whose snapshot, history, subscriptions and clock fit together
    stays so when it is edited. *)
From stdpp Require Import base numbers option list sorting gmap.
From Stdlib Require Import Lia.
From S2P Require Import Prelude Clock SumTree SumTreeFacts SumTreeBulk Cursor CursorFacts CursorSeek CursorMove CursorIter Keyed KeyedFacts TreeMap TreeMapFacts Locator UndoMap Patch PatchFacts Subscription.
From S2P Require Import Utf8 Chunk ChunkFacts ChunkMeasures ChunkPointsFacts RopeTree Rope RopeBuild RopeSlice RopePoints RopeConvert RopeChunks Fragment Snapshot History HistorySpec Buffer Document Walk LocalEdit BufferOk BufferEdit.
#[local] Opaque TREE_BASE av_cap.

(** ** Offsets *)
Lemma assert_char_boundary_spec debug r i : rope_wf r →
  rope_assert_char_boundary debug debug r i
  = if str_is_char_boundary (rope_text r) i then Ret true else if debug then Panic else Ret false.
Proof.
  intros Hr. set (T := rope_text r). unfold rope_assert_char_boundary. destruct (is_empty (chunks r)) eqn:Ee.
  - apply is_empty_chunks in Ee as Et; [|done]. unfold T. rewrite Et. destruct (Nat.eqb_spec i 0) as [->|Hi]; [done|]. cbn [andb].
    destruct (find_offset r Hr i) as (p & l & e & -> & Ei & Hp & Hl). apply no_chunks_text in Et; [|done]. rewrite Et in Ei.
    symmetry in Ei. apply app_nil in Ei as [-> ->]. cbn [head]. destruct i as [|i]; [done|]. by destruct debug.
  - cbn [andb]. destruct (find_offset r Hr i) as (p & l & e & -> & Ei & Hp & Hl). destruct l as [|x l]; cbn [head].
    + destruct Hl as [Hl|Hl]; [by rewrite (boundary_past r)|]. apply (is_empty_chunks r Hr) in Hl. congruence.
    + rewrite usize_sub_ok by done. unfold chunk_assert_char_boundary.
      pose proof Hr as (_ & [Hok _] & _). rewrite Ei in Hok. apply Forall_app in Hok as [_ [(Ex & Hu & Hlen) _]%Forall_cons].
      rewrite Ex, chunk_boundary_spec by done. cbn [ctext chunk_of]. rewrite (chunk_boundary_at r Hr p x l i) by done.
      fold T. destruct (str_is_char_boundary T i); [done|]. by destruct debug.
Qed.
Lemma usize_to_offset_spec debug s i : rope_wf (s_visible_text s) →
  usize_to_offset debug s i =
    if str_is_char_boundary (rope_text (s_visible_text s)) i then Ret i
    else if debug then Panic else Ret (str_floor_char_boundary (rope_text (s_visible_text s)) i).
Proof.
  intros Hr. unfold usize_to_offset. rewrite assert_char_boundary_spec by done.
  destruct (str_is_char_boundary _ i); [done|]. destruct debug; [done|]. by apply floor_char_boundary_at.
Qed.
Lemma edit_offsets_ok normal debug s st edits : rope_wf (s_visible_text s) → edits_ok normal (rope_text (s_visible_text s)) st edits →
  edit_offsets debug s edits = Ret edits.
Proof.
  intros Hr. revert st. induction edits as [|[[a e] new_text] edits IH]; intros st; [done|]. intros (_ & (_ & Ba & Be) & _ & Hed).
  cbn [edit_offsets]. rewrite !usize_to_offset_spec, Ba, Be by done. by rewrite (IH e).
Qed.

(** ** The invariant of a buffer *)
Definition stamps (f : Fragment) : list Lamport := f_timestamp f :: f_deletions f.
Definition buffer_session (b : Buffer) (seen : gmap nat (list N)) : Session :=
  MkSession (b_subscriptions b) (rope_text (s_visible_text (b_snapshot b))) seen.

Record buffer_inv (W : Lamport → list N) (seen : gmap nat (list N)) (b : Buffer) : Prop := {
  bi_snapshot : buffer_ok W (b_snapshot b);
  bi_issued : Forall (λ f, Forall (issued (b_lamport_clock b)) (stamps f)) (tree_items (s_fragments (b_snapshot b)));
  bi_history : history_ok (b_history b) (b_lamport_clock b);
  bi_operations : map_wf (h_operations (b_history b));
  bi_session : session_inv (buffer_session b seen);
}.

Lemma issued_fresh clock F : Forall (λ f, Forall (issued clock) (stamps f)) F → fresh clock F.
Proof.
  intros HF. eapply Forall_impl; [exact HF|]. intros f Hf. unfold stamps in Hf. rewrite Forall_forall in Hf.
  split.
  - intros E. specialize (Hf clock). rewrite E in Hf. specialize (Hf (list_elem_of_here _ _) eq_refl). lia.
  - intros Hin. specialize (Hf clock (list_elem_of_further _ _ _ Hin) eq_refl). lia.
Qed.
Lemma issued_next (c c' : Lamport) F : replica_id c' = replica_id c → (value c <= value c')%N →
  Forall (λ f, Forall (issued c) (stamps f)) F → Forall (λ f, Forall (issued c') (stamps f)) F.
Proof. intros E Hv HF. eapply Forall_impl; [exact HF|]. intros f Hf. eapply Forall_impl; [exact Hf|]. intros id. by apply issued_mono. Qed.
(** After an edit with the stamp [ts] the clock has issued every stamp. *)
Lemma issued_edited c c' s s' : edited c s s' → replica_id c' = replica_id c → (value c < value c')%N →
  Forall (λ f, Forall (issued c) (stamps f)) (tree_items (s_fragments s)) →
  Forall (λ f, Forall (issued c') (stamps f)) (tree_items (s_fragments s')).
Proof.
  intros [_ _ _ _ _ Ho _] Er Hv HF. assert (Hc : issued c' c) by (intros _; done).
  apply (issued_next c c') in HF; [|done|lia]. rewrite Forall_forall in *. intros g Hg.
  destruct (Ho g Hg) as [(Hts & _ & Hd & _)|(f & Hf & Hts & _ & _ & Hd)].
  - unfold stamps. rewrite Hts, Hd. constructor; [done|constructor].
  - specialize (HF f Hf). unfold stamps in *. rewrite Hts. apply Forall_cons in HF as [H1 H2]. constructor; [done|].
    destruct Hd as [[_ ->]|(_ & ->)]; [done|]. apply Forall_app. split; [done|]. constructor; [done|constructor].
Qed.

(** ** The history around an edit *)
Lemma edit_ids_add id l : l ≠ [] → edit_ids (on_last_entry (add_edit id) l) = edit_ids l ++ [id].
Proof.
  destruct (snoc_cases l) as [->|(k & x & -> & _)]; [done|]. intros _. rewrite on_last_entry_snoc, !edit_ids_app, <-app_assoc. f_equal.
  unfold edit_ids. cbn. by rewrite !app_nil_r.
Qed.
Lemma start_spec h c start now :
  history_ok h c → (value c < U32_MAX)%N → (N.of_nat (h_transaction_depth h + 1) <= U64_MAX)%N →
  returns (start_transaction h start now c) (λ '(_, h1, c1), history_ok h1 c1 ∧ h_transaction_depth h1 = h_transaction_depth h + 1 ∧
    edit_ids (h_undo_stack h1) = edit_ids (h_undo_stack h) ∧ h_redo_stack h1 = h_redo_stack h ∧ h_operations h1 = h_operations h ∧
    replica_id c1 = replica_id c ∧ (value c <= value c1 <= value c + 1)%N ∧ (h_transaction_depth h = 0 → (value c < value c1)%N)).
Proof.
  intros Hok Hc Hd. assert (Hstep : ∀ o h' c', start_transaction h start now c = Ret (o, h', c') → history_ok h' c') by (intros; by eapply start_ok).
  unfold start_transaction in *. rewrite usize_add_ok in * by done. change (tick c) with (c, (tick c).2) in *. rewrite tick_next in * by done.
  destruct (Nat.eqb_spec (h_transaction_depth h + 1) 1); apply returns_Ret; (split; [by eapply Hstep|]); cbn [h_undo_stack h_redo_stack h_operations h_transaction_depth with_stacks with_depth value replica_id]; (split; [done|]); (split; [|split_and!; (done || lia)]).
  - rewrite edit_ids_app. apply app_nil_r.
  - done.
Qed.
Lemma push_undo_spec h c id eop :
  history_ok h c → map_wf (h_operations h) → 0 < h_transaction_depth h → lookup_map (h_operations h) id = Some (OpEdit eop) →
  returns (push_undo h id) (λ h', history_ok h' c ∧ h_transaction_depth h' = h_transaction_depth h ∧
    edit_ids (h_undo_stack h') = edit_ids (h_undo_stack h) ++ [id] ∧ h_redo_stack h' = h_redo_stack h ∧ h_operations h' = h_operations h ∧
    ∃ e, last (h_undo_stack h') = Some e ∧ t_edit_ids (he_transaction e) ≠ []).
Proof.
  intros Hok Hm Hd Hl. pose proof (ho_open h c Hok Hd) as Hne. unfold push_undo. destruct (Nat.eqb_spec (h_transaction_depth h) 0) as [?|_]; [lia|].
  cbn [negb rust_assert]. rewrite map_get_spec, Hl by done.
  destruct (snoc_cases (h_undo_stack h)) as [?|(k & x & E & El & _)]; [done|]. rewrite El. cbn [unwrap]. apply returns_Ret. split.
  { apply history_ok_same; [done| |done]. by apply ids_on_last. }
  cbn. split; [done|]. split; [by apply edit_ids_add|]. split_and!; try done. rewrite E, on_last_entry_snoc, last_snoc. eexists. split; [done|].
  cbn. by destruct (t_edit_ids _).
Qed.
Lemma end_spec h c now e :
  history_ok h c → 0 < h_transaction_depth h → last (h_undo_stack h) = Some e → t_edit_ids (he_transaction e) ≠ [] →
  returns (end_transaction h now) (λ '(o, h'), history_ok h' c ∧ h_transaction_depth h' = h_transaction_depth h - 1 ∧
    edit_ids (h_undo_stack h') = edit_ids (h_undo_stack h) ∧ h_operations h' = h_operations h ∧ h_undo_stack h' ≠ [] ∧
    h_redo_stack h' = if h_transaction_depth h =? 1 then [] else h_redo_stack h).
Proof.
  intros Hok Hd He Hids. assert (Hstep : ∀ o h', end_transaction h now = Ret (o, h') → history_ok h' c) by (intros; by eapply end_ok).
  unfold end_transaction in *. destruct (Nat.eqb_spec (h_transaction_depth h) 0) as [?|_]; [lia|]. cbn [negb rust_assert] in *.
  destruct (snoc_cases (h_undo_stack h)) as [E|(k & x & E & El & Er)]; [by rewrite E in He|]. rewrite El in He. injection He as ->.
  cbn [with_depth h_transaction_depth h_undo_stack h_redo_stack] in *.
  destruct (Nat.eqb_spec (h_transaction_depth h - 1) 0) as [E1|E1], (Nat.eqb_spec (h_transaction_depth h) 1) as [E2|E2]; try lia.
  - rewrite El, Er in *. cbn [unwrap] in *. destruct (t_edit_ids (he_transaction e)) eqn:Et; [done|]. apply returns_Ret.
    split; [by eapply Hstep|]. cbn [h_undo_stack h_redo_stack h_operations h_transaction_depth with_stacks with_depth].
    split; [done|]. split; [by rewrite E, !edit_ids_app|]. split; [done|]. split; [|done]. by destruct k.
  - apply returns_Ret. split; [by eapply Hstep|]. cbn. split_and!; try done. rewrite E. by destruct k.
Qed.

(** [end_transaction_at] when the transaction has edits. *)
Lemma end_at_spec b now e :
  history_ok (b_history b) (b_lamport_clock b) → 0 < h_transaction_depth (b_history b) →
  last (h_undo_stack (b_history b)) = Some e → t_edit_ids (he_transaction e) ≠ [] →
  returns (end_transaction_at b now) (λ '(_, b'), ∃ h', b' = with_history b h' (b_lamport_clock b) ∧
    history_ok h' (b_lamport_clock b) ∧ h_transaction_depth h' = h_transaction_depth (b_history b) - 1 ∧
    edit_ids (h_undo_stack h') = edit_ids (h_undo_stack (b_history b)) ∧ h_operations h' = h_operations (b_history b) ∧
    h_redo_stack h' = if h_transaction_depth (b_history b) =? 1 then [] else h_redo_stack (b_history b)).
Proof.
  intros Hok Hd He Hids. unfold end_transaction_at.
  destruct (end_spec _ _ now e Hok Hd He Hids) as ([o h1] & -> & Hok1 & D1 & E1 & O1 & N1 & R1).
  destruct o as [entry|]; [|apply returns_Ret; by exists h1].
  destruct (group_spec h1) as ([id h2] & -> & Hg & Eid). pose proof (grouped_ok _ _ _ Hok1 Hg) as Hok2. destruct Hg as (u & k & -> & Eu & _ & Hne).
  cbn [with_stacks h_undo_stack] in Eid. destruct (snoc_cases u) as [->|(v & x & -> & El & _)]; [by destruct Hne|].
  rewrite El in Eid. rewrite Eid. cbn [fmap option_fmap option_map unwrap]. apply returns_Ret. eexists. split; [done|]. split; [done|].
  cbn [h_undo_stack h_redo_stack h_operations h_transaction_depth with_stacks]. split_and!; try done. by rewrite Eu.
Qed.

(** ** [Buffer::edit] *)
Section Edit.
Context (par_chunks : ∀ A : Type, nat → list A → list (list A)).
Context (sort_insertions : list insertion_edit → list insertion_edit).
Context (sort_slices : list (Edit (MapEntry InsertionSlice unit) (MapKey InsertionSlice)) →
  list (Edit (MapEntry InsertionSlice unit) (MapKey InsertionSlice))).
Context (replace_line_separators : list N → list N) (max_insertion_len : N) (debug_assertions : bool).
Hypotheses (Hpar : chunks_spec par_chunks) (Hsi : sort_spec sort_insertions) (Hss : sort_spec sort_slices).
Hypothesis Hmax : (4 <= max_insertion_len)%N.
Abbreviation normal := replace_line_separators.
Abbreviation text b := (rope_text (s_visible_text (b_snapshot b))).

(** What an edit asks of the buffer and the ranges. *)
Record ready (b : Buffer) (edits : list (nat * nat * list N)) : Prop := {
  rd_shallow : shallow (b_snapshot b); rd_operations : height (h_operations (b_history b)) < STACK_CAP;
  rd_edits : edits_ok normal (text b) 0 edits;
  rd_total : (N.of_nat (length (text b) + length (rope_text (s_deleted_text (b_snapshot b))) +
    length (concat (texts normal edits))) <= U32_MAX)%N;
  rd_clock : (value (b_lamport_clock b) + 2 <= U32_MAX)%N;
  rd_depth : (N.of_nat (h_transaction_depth (b_history b) + 1) <= U64_MAX)%N;
}.

(** The clock around the stamp [ts]. *)
Definition ticked (ts : Lamport) (b b' : Buffer) : Prop :=
  replica_id (b_lamport_clock b') = replica_id (b_lamport_clock b) ∧ replica_id ts = replica_id (b_lamport_clock b) ∧
  (value (b_lamport_clock b) <= value ts < value (b_lamport_clock b'))%N ∧
  (h_transaction_depth (b_history b) = 0 → (value (b_lamport_clock b) < value ts)%N).

(** The history after an edit with the stamp [ts]. *)
Definition history_edited (ts : Lamport) (op : BufferOperation) (h h' : History) : Prop :=
  h_transaction_depth h' = h_transaction_depth h ∧ edit_ids (h_undo_stack h') = edit_ids (h_undo_stack h) ++ [ts] ∧
  h_redo_stack h' = (if h_transaction_depth h =? 0 then [] else h_redo_stack h) ∧
  ∀ id, lookup_map (h_operations h') id = if decide (id = ts) then Some op else lookup_map (h_operations h) id.

Definition edit_done (W : Lamport → list N) (seen : gmap nat (list N)) (b : Buffer) (edits : list (nat * nat * list N))
    (r : BufferOperation * Buffer) : Prop :=
  ∃ eop, r.1 = OpEdit eop ∧ let ts := eo_timestamp eop in
    buffer_inv (with_text W ts (concat (texts normal edits))) seen r.2 ∧
    text r.2 = spliced normal (text b) 0 edits ∧ b_version r.2 = observe (b_version b) ts ∧
    eo_version eop = b_version b ∧ eo_new_text eop = texts normal edits ∧
    (full_ranges (s_fragments (b_snapshot b)) edits (eo_ranges eop) ∧
     relaid normal ts (vcells (tree_items (s_fragments (b_snapshot b)))) 0 0 edits (tree_items (s_fragments (b_snapshot r.2))) ∧
     overlays eop (tree_items (s_fragments (b_snapshot b))) (tree_items (s_fragments (b_snapshot r.2)))) ∧
    edited ts (b_snapshot b) (with_version (b_snapshot r.2) (b_version b)) ∧ history_edited ts r.1 (b_history b) (b_history r.2) ∧
    ticked ts b r.2.

Lemma buffer_edit_spec W seen b edits now later :
  buffer_inv W seen b → ready b edits →
  returns (buffer_edit par_chunks sort_insertions sort_slices normal max_insertion_len debug_assertions b edits now later) (edit_done W seen b edits).
Proof using Type*.
  intros [Hok Hiss Hhist Hops Hses] [Hsh Hoh Hed Htot Hclk Hdep]. unfold buffer_edit, start_transaction_at.
  destruct (start_spec _ _ (b_version b) now Hhist ltac:(lia) Hdep) as ([[o h1] c1] & -> & Hh1 & D1 & E1 & R1 & O1 & Cr & Cv & Cd).
  cbn [with_history b_lamport_clock b_history]. change (tick c1) with (c1, (tick c1).2). rewrite tick_next by lia. set (c2 := MkLamport _ _).
  unfold apply_local_edit. cbn [b_snapshot with_history]. rewrite (edit_offsets_ok normal _ _ 0) by (by destruct Hok).
  assert (Hfr : fresh c1 (tree_items (s_fragments (b_snapshot b)))).
  { apply issued_fresh. eapply issued_next; [exact Cr|lia|done]. }
  destruct (apply_edit_spec par_chunks sort_insertions sort_slices normal max_insertion_len Hpar Hsi Hss Hmax W (b_snapshot b) edits c1)
    as ([[eop patch] s'] & -> & Hok' & Hed' & Etext & Hrw & Hsep & Ets & Ever & Enew & Hfull & Hre & Hov); [by split|].
  destruct (publish_inv (buffer_session b seen) patch (rope_text (s_visible_text s')) Hses) as (tp & Etp & Hses').
  { destruct Hok' as [Hv' _ _ _ _ _ _ _]. apply rope_small in Hv'. unfold small, fits, U32_MAX, ISIZE_MAX in *. lia. }
  { done. }
  cbn [buffer_session topic] in Etp. cbn [with_history b_subscriptions]. rewrite Etp.
  unfold push_operation, history_push. cbn [with_subscriptions with_snapshot with_history b_history op_timestamp]. rewrite Ets, O1.
  destruct (map_insert_spec (h_operations (b_history b)) Hops Hoh c1 (OpEdit eop)) as (ops & -> & Hops' & Hlk).
  set (h2 := MkHistory _ ops _ _ _ _). cbn [b_history with_history].
  assert (Hh2 : history_ok h2 c2).
  { eapply history_step_ok; [eapply (hs_clock h2 c1 c2); [done|cbn; lia]|]. by destruct Hh1. }
  destruct (push_undo_spec h2 c2 c1 eop Hh2 Hops') as (h3 & -> & Hh3 & D3 & E3 & R3 & O3 & e & El & Hne).
  { cbn. lia. }
  { cbn [h2 h_operations]. by rewrite Hlk, cmp_refl. }
  set (b3 := observe_version _ _). cbn [h2 h_transaction_depth h_undo_stack h_redo_stack h_operations] in D3, E3, R3, O3.
  destruct (end_at_spec b3 later e) as ([o4 b4] & -> & h4 & -> & Hh4 & D4 & E4 & O4 & R4); try done; [cbn; lia|].
  cbn [b3 observe_version with_snapshot with_history b_history] in D4, E4, O4, R4. apply returns_Ret. exists eop. cbn. rewrite Ets. split; [done|].
  split; [|split; [done|split; [|split_and!; try done]]].
  - split; cbn.
    + by destruct Hok'.
    + apply (issued_edited c1 c2 (b_snapshot b) s' Hed'); [done|cbn; lia|]. eapply issued_next; [exact Cr|lia|done].
    + done.
    + by rewrite O4, O3.
    + done.
  - unfold b_version. cbn. f_equal. by destruct Hed'.
  - by destruct Hed'.
  - split_and!.
    + rewrite D4, D3, D1. lia.
    + by rewrite E4, E3, E1.
    + rewrite R4, D3, D1, R3, R1. destruct (Nat.eqb_spec (h_transaction_depth (b_history b)) 0) as [->|Hn]; [done|].
      by destruct (Nat.eqb_spec (h_transaction_depth (b_history b) + 1) 1); [lia|].
    + intros id. rewrite O4, O3, Hlk. case_decide as Hid; [by rewrite Hid, cmp_refl|]. destruct (cmp id c1) eqn:E; [by apply cmp_eq in E|done|done].
  - unfold ticked. cbn. split_and!; (done || lia).
Qed.
End Edit.
