(* ===== verification/BufferSpec.v ===== *)
(** * Buffers and local edits: theorems *)
From stdpp Require Import base numbers option list sorting gmap.
From Stdlib Require Import Lia.
From S2P Require Import Prelude Integers Clock SumTree SumTreeFacts SumTreeBulk Cursor Keyed KeyedFacts TreeMap TreeMapFacts Locator UndoMap OperationQueue Patch PatchFacts PatchCompose Subscription.
From S2P Require Import Utf8 ChunkPointsFacts RopeTree Rope RopeBuild RopeSlice Fragment Snapshot History HistorySpec Buffer Document Walk LocalEdit BufferOk BufferEdit BufferLocal.
#[local] Opaque TREE_BASE av_cap.

(** ** A sample buffer *)
(** "hé\ny" *)
Definition sample_base : list N := [104; 195; 169; 10; 121]%N.
Definition sample_rope : Rope := match rope_from Integers.chunks sample_base with Ret r => r | _ => rope_new end.
Definition empty_buffer : Buffer :=
  MkBuffer (MkSnapshot rope_new rope_new new new new new Global_new 1 LOCAL Unix) (history_new rope_new 0) queue_new []
    (Lamport_new LOCAL) topic_default [] [] [].
Definition sample_buffer : Buffer :=
  match new_normalized 16 LOCAL 1 Unix sample_rope 300 with Ret b => b | _ => empty_buffer end.

Lemma sample_base_utf8 : utf8 sample_base.
Proof.
  apply (utf8_cons [104]%N); [by vm_compute|]. apply (utf8_cons [195; 169]%N); [by vm_compute|].
  apply (utf8_cons [10]%N); [by vm_compute|]. apply (utf8_cons [121]%N); [by vm_compute|]. constructor.
Qed.
Lemma sample_rope_ok : rope_wf sample_rope ∧ rope_text sample_rope = sample_base.
Proof.
  destruct rope_wf_new as [Hw E]. pose proof (rope_push_spec Integers.chunks chunks_ok rope_new sample_base Hw sample_base_utf8) as H.
  rewrite E in H. destruct H as (r & Er & H); [by vm_compute|]. unfold sample_rope, rope_from. by rewrite Er.
Qed.
Lemma sample_rope_height : height (chunks sample_rope) < STACK_CAP.
Proof. vm_compute. lia. Qed.
Lemma sample_buffer_ok :
  buffer_ok (base_text_of sample_rope) (b_snapshot sample_buffer) ∧ s_visible_text (b_snapshot sample_buffer) = sample_rope ∧
  Forall (inserted base_timestamp) (tree_items (s_fragments (b_snapshot sample_buffer))).
Proof.
  destruct sample_rope_ok as [Hr _].
  destruct (new_normalized_spec sample_rope 16 Hr sample_rope_height ltac:(lia) LOCAL 1 Unix 300) as (b & E & H1 & H2 & H3 & _).
  unfold sample_buffer. by rewrite E.
Qed.
Lemma sample_shallow : shallow (b_snapshot sample_buffer).
Proof.
  destruct sample_buffer_ok as (_ & E & _). destruct sample_rope_ok as [Hr _]. destruct rope_wf_new as [Hn _]. split.
  - rewrite E. apply one_chunk_shallow; [done|apply sample_rope_height|vm_compute; lia].
  - change (s_deleted_text (b_snapshot sample_buffer)) with rope_new.
    apply one_chunk_shallow; [done|vm_compute; lia|vm_compute; lia].
  - vm_compute. lia.
  - vm_compute. lia.
  - vm_compute. lia.
Qed.
(** Delete "é", and put "ab" for "y". *)
Definition sample_edits : list (nat * nat * list N) := [(1, 3, []); (4, 5, [97; 98]%N)].
Lemma sample_edits_ok : edits_ok id (rope_text sample_rope) 0 sample_edits.
Proof.
  destruct sample_rope_ok as [_ ->]. cbn [sample_edits edits_ok id]. split; [lia|]. split; [split_and!; vm_compute; (lia || done)|].
  split; [constructor|]. split; [lia|]. split; [split_and!; vm_compute; (lia || done)|]. split; [|done].
  do 2 (apply (utf8_cons [_]%N); [by vm_compute|]). constructor.
Qed.
Lemma sample_editable : editable id (base_text_of sample_rope) (b_snapshot sample_buffer) sample_edits (MkLamport 2 LOCAL).
Proof.
  destruct sample_buffer_ok as (Hok & E & Hf). split; [done|apply sample_shallow| | |].
  - eapply Forall_impl; [exact Hf|]. intros f (-> & _ & -> & _). split; [done|apply not_elem_of_nil].
  - rewrite E. apply sample_edits_ok.
  - rewrite E. vm_compute. done.
Qed.

(** ** New buffers *)
Lemma new_buffer_inv r max_insertion_len replica_id remote_id line_ending group_interval :
  rope_wf r → height (chunks r) < STACK_CAP → (4 <= max_insertion_len)%N →
  returns (new_normalized max_insertion_len replica_id remote_id line_ending r group_interval) (λ b,
    buffer_inv (base_text_of r) ∅ b ∧ rope_text (s_visible_text (b_snapshot b)) = rope_text r).
Proof.
  intros Hr Hh Hmax. destruct (new_normalized_spec r max_insertion_len Hr Hh Hmax replica_id remote_id line_ending group_interval)
    as (b & E & Hok & Et & Hf & _ & Eh & _ & Es & Hc).
  rewrite E. apply returns_Ret. split; [|by rewrite Et]. apply rope_small in Hr as Hs. split; [done| | | |].
  - rewrite Forall_forall in *. intros f Hin. destruct (Hf f Hin) as (Ets & _ & Ed & _). unfold stamps. rewrite Ets, Ed.
    constructor; [|constructor]. intros _. by apply (Hc f).
  - rewrite Eh. split; cbn; [lia|constructor|constructor].
  - rewrite Eh. apply map_wf_intro; [by left|constructor].
  - unfold buffer_session. rewrite Es, Et. apply (reachable_inv (rope_text r)); [|constructor].
    unfold small, fits, U32_MAX, ISIZE_MAX in *. lia.
Qed.

(** C16: A new buffer satisfies the invariant of buffers, and shows the text it
    was made of. *)
Theorem new_buffer_ok r max_insertion_len replica_id remote_id line_ending group_interval :
  rope_wf r → height (chunks r) < STACK_CAP → (4 <= max_insertion_len)%N →
  returns (new_normalized max_insertion_len replica_id remote_id line_ending r group_interval) (λ b,
    buffer_inv (base_text_of r) ∅ b ∧ rope_text (s_visible_text (b_snapshot b)) = rope_text r).
Proof. apply new_buffer_inv. Qed.
Lemma new_buffer_ok_witness :
  returns (new_normalized 16 LOCAL 1 Unix sample_rope 300) (λ b, rope_text (s_visible_text (b_snapshot b)) = sample_base).
Proof.
  destruct sample_rope_ok as [Hr <-].
  destruct (new_buffer_ok sample_rope 16 LOCAL 1 Unix 300) as (b & E & _ & Et); [done|apply sample_rope_height|lia|].
  exists b. by split.
Defined.

(** ** Edits of a snapshot *)
Section Snapshots.
Context (par_chunks : ∀ A : Type, nat → list A → list (list A)).
Context (sort_insertions : list insertion_edit → list insertion_edit).
Context (sort_slices : list (Edit (MapEntry InsertionSlice unit) (MapKey InsertionSlice)) →
  list (Edit (MapEntry InsertionSlice unit) (MapKey InsertionSlice))).
Context (normal : list N → list N) (max_insertion_len : N).
Hypotheses (Hpar : chunks_spec par_chunks) (Hsi : sort_spec sort_insertions) (Hss : sort_spec sort_slices).
Hypothesis Hmax : (4 <= max_insertion_len)%N.
Abbreviation apply_edit := (apply_edit_internal par_chunks sort_insertions sort_slices normal max_insertion_len).

(** C2: Applying edits at increasing, disjoint ranges to a snapshot returns, and
    the visible text is the old text with every range replaced by its new text
    (with normal line endings); the deleted text keeps all it had, in order,
    and both texts together have the bytes they had and those of the new
    texts, so what was replaced is now deleted text; the patch that is
    published rewrites the old text to the new one, and its edits are apart;
    the operation to be sent has the time stamp of the edit, the version it
    was made in and its new texts, and its ranges, laid over all bytes of the
    old document, visible or not, give the new document. *)
Theorem apply_edit_splices W s edits ts :
  editable normal W s edits ts →
  returns (apply_edit s edits ts) (λ '(op, patch, s'),
    rope_text (s_visible_text s') = spliced normal (rope_text (s_visible_text s)) 0 edits ∧
    sublist (rope_text (s_deleted_text s)) (rope_text (s_deleted_text s')) ∧
    rope_text (s_visible_text s') ++ rope_text (s_deleted_text s') ≡ₚ
      rope_text (s_visible_text s) ++ rope_text (s_deleted_text s) ++ concat (texts normal edits) ∧
    rewrites 0 0 (rope_text (s_visible_text s)) patch (rope_text (s_visible_text s')) ∧ separated patch ∧
    eo_timestamp op = ts ∧ eo_version op = s_version s ∧ eo_new_text op = texts normal edits ∧
    overlays op (tree_items (s_fragments s)) (tree_items (s_fragments s'))).
Proof using Type*.
  intros He. eapply returns_mono; [by apply apply_edit_spec|]. intros [[op patch] s'] Hpost.
  destruct (edit_keeps_texts _ _ _ _ _ _ He Hpost) as [Hsub Hperm]. destruct Hpost as (_ & _ & H1 & H2 & H3 & H4 & H5 & H6 & _ & _ & H7).
  split_and!; try done; apply H7.
Qed.

(** C11: An edit keeps the invariant of snapshots: the fragments stay in the
    order of their locators, every byte of every insertion is in exactly one
    fragment, both ropes hold the text of the fragments, the index has exactly
    one entry for each fragment, and the insertion slices cover exactly what
    the edits inserted and deleted. *)
Theorem apply_edit_invariant W s edits ts :
  editable normal W s edits ts →
  returns (apply_edit s edits ts) (λ '(_, _, s'), buffer_ok (with_text W ts (concat (texts normal edits))) s').
Proof using Type*.
  intros He. eapply returns_mono; [by apply apply_edit_spec|]. by intros [[op patch] s'] (H & _).
Qed.

(** C23: No edit loses text or touches what it should not: every byte of every
    insertion that was in a fragment still is in one, every fragment is new
    text or a part of an old fragment with the same visibility and deletions,
    or deleted by this edit only; the new text comes right before what it
    replaces, which stays in the document but is hidden, and the visible bytes
    between the ranges are where they were; and the operation to be sent names
    the ranges by offsets in the text with deletions, at places with the right
    amount of visible text before them: laid over all the bytes of the old
    document, these ranges give the new one. *)
Theorem apply_edit_safe W s edits ts :
  editable normal W s edits ts →
  returns (apply_edit s edits ts) (λ '(op, _, s'), edited ts s s' ∧
    eo_timestamp op = ts ∧ eo_version op = s_version s ∧ eo_new_text op = texts normal edits ∧
    full_ranges (s_fragments s) edits (eo_ranges op) ∧
    relaid normal ts (vcells (tree_items (s_fragments s))) 0 0 edits (tree_items (s_fragments s')) ∧
    overlays op (tree_items (s_fragments s)) (tree_items (s_fragments s'))).
Proof using Type*.
  intros He. eapply returns_mono; [by apply apply_edit_spec|]. intros [[op patch] s'] (_ & H & _ & _ & _ & H'). done.
Qed.
End Snapshots.

Abbreviation sample_edit := (apply_edit_internal Integers.chunks (insertion_sort edit_key) (insertion_sort edit_key) id 16).
Lemma apply_edit_splices_witness :
  returns (sample_edit (b_snapshot sample_buffer) sample_edits (MkLamport 2 LOCAL)) (λ '(op, patch, s'),
    rope_text (s_visible_text s') = [104; 10; 97; 98]%N ∧ length (rope_text (s_deleted_text s')) = 3 ∧ eo_new_text op = [[]; [97; 98]%N]).
Proof.
  destruct (apply_edit_splices Integers.chunks (insertion_sort edit_key) (insertion_sort edit_key) id 16
    chunks_ok insertion_sort_spec insertion_sort_spec ltac:(lia) _ _ _ _ sample_editable) as ([[op patch] s'] & E & Et & _ & Hp & _ & _ & _ & _ & Ex & _).
  exists (op, patch, s'). split; [done|]. destruct sample_buffer_ok as (_ & EV & _). destruct sample_rope_ok as [_ ER]. rewrite EV, ER in Et, Hp.
  split; [exact Et|]. split; [|exact Ex]. apply Permutation_length in Hp. rewrite Et, !length_app in Hp.
  change (s_deleted_text (b_snapshot sample_buffer)) with rope_new in Hp. vm_compute (length (rope_text rope_new)) in Hp. cbn in Hp. lia.
Defined.
Lemma apply_edit_invariant_witness :
  returns (sample_edit (b_snapshot sample_buffer) sample_edits (MkLamport 2 LOCAL)) (λ '(_, _, s'),
    buffer_ok (with_text (base_text_of sample_rope) (MkLamport 2 LOCAL) [97; 98]%N) s').
Proof.
  exact (apply_edit_invariant Integers.chunks (insertion_sort edit_key) (insertion_sort edit_key) id 16
    chunks_ok insertion_sort_spec insertion_sort_spec ltac:(lia) _ _ _ _ sample_editable).
Defined.
Lemma apply_edit_safe_witness :
  returns (sample_edit (b_snapshot sample_buffer) sample_edits (MkLamport 2 LOCAL)) (λ '(op, _, s'),
    edited (MkLamport 2 LOCAL) (b_snapshot sample_buffer) s' ∧ eo_new_text op = [[]; [97; 98]%N]).
Proof.
  destruct (apply_edit_safe Integers.chunks (insertion_sort edit_key) (insertion_sort edit_key) id 16
    chunks_ok insertion_sort_spec insertion_sort_spec ltac:(lia) _ _ _ _ sample_editable) as ([[op patch] s'] & E & H & _ & _ & Hn & _).
  exists (op, patch, s'). split; [done|]. by split.
Defined.

(** ** [Buffer::edit] *)
Section Buffers.
Context (par_chunks : ∀ A : Type, nat → list A → list (list A)).
Context (sort_insertions : list insertion_edit → list insertion_edit).
Context (sort_slices : list (Edit (MapEntry InsertionSlice unit) (MapKey InsertionSlice)) →
  list (Edit (MapEntry InsertionSlice unit) (MapKey InsertionSlice))).
Context (normal : list N → list N) (max_insertion_len : N) (debug_assertions : bool).
Hypotheses (Hpar : chunks_spec par_chunks) (Hsi : sort_spec sort_insertions) (Hss : sort_spec sort_slices).
Hypothesis Hmax : (4 <= max_insertion_len)%N.

(** C12: Editing a buffer keeps its invariant (snapshot, history, clock and
    subscriptions), splices the new texts into the text, records the operation
    and the version, adds the edit to the last transaction and clears the redo
    stack when no outer transaction is open; every subscriber's patch then
    leads from the text it saw last to the new text. *)
Theorem buffer_edit_correct W seen b edits now later :
  buffer_inv W seen b → ready normal b edits →
  returns (buffer_edit par_chunks sort_insertions sort_slices normal max_insertion_len debug_assertions b edits now later)
    (edit_done normal W seen b edits).
Proof using Type*. apply buffer_edit_spec; done. Qed.
End Buffers.

Lemma buffer_edit_correct_witness :
  returns (buffer_edit Integers.chunks (insertion_sort edit_key) (insertion_sort edit_key) id 16 true sample_buffer sample_edits 5 7)
    (λ '(_, b), rope_text (s_visible_text (b_snapshot b)) = [104; 10; 97; 98]%N ∧ h_redo_stack (b_history b) = []).
Proof.
  destruct sample_rope_ok as [Hr Et].
  destruct (new_buffer_inv sample_rope 16 LOCAL 1 Unix 300 Hr sample_rope_height ltac:(lia)) as (b & E & Hinv & Eb).
  assert (Esb : sample_buffer = b) by (unfold sample_buffer; by rewrite E).
  destruct (buffer_edit_correct Integers.chunks (insertion_sort edit_key) (insertion_sort edit_key) id 16 true
    chunks_ok insertion_sort_spec insertion_sort_spec ltac:(lia) (base_text_of sample_rope) ∅ sample_buffer sample_edits 5 7)
    as ([op b'] & Ee & eop & _ & _ & Etext & _ & _ & _ & _ & _ & (_ & _ & Hredo & _) & _).
  - by rewrite Esb.
  - destruct sample_buffer_ok as (_ & Ev & _). split; [apply sample_shallow|vm_compute; lia|rewrite Ev; apply sample_edits_ok| | |].
    + rewrite Ev. vm_compute. done.
    + vm_compute. done.
    + vm_compute. done.
  - exists (op, b'). split; [done|]. cbn [fst snd] in *. rewrite Etext. split.
    + destruct sample_buffer_ok as (_ & -> & _). by rewrite Et.
    + assert (h_transaction_depth (b_history sample_buffer) = 0) as Hd by (vm_compute; reflexivity). by rewrite Hredo, Hd.
Defined.
