(* ===== verification/UndoWalk.v ===== *)
(** * Undoing: the walk over the fragments

    [apply_undo] goes along the old fragments and replaces those that the
    undone edits touched; the new ropes and the patch follow.  The new
    fragments are the old ones with the selected ones toggled. *)
From stdpp Require Import base numbers option list sorting.
From Stdlib Require Import Lia.
From S2P Require Import Prelude Clock SumTree SumTreeFacts SumTreeBulk Cursor CursorFacts CursorSeek CursorMove.
From S2P Require Import CursorIter Keyed KeyedFacts TreeMap TreeMapFacts Locator UndoMap Patch PatchFacts Utf8 ChunkPointsFacts.
From S2P Require Import RopeTree Rope RopeBuild RopeSlice Fragment Snapshot History Buffer Undo Document.
From S2P Require Import Walk BufferOk.
(** * The fragments that edits touched

    [fragment_ids_for_edits] goes through the index of insertions once, along
    the slices in the order of the index; it finds the fragments the edits
    inserted or deleted, and no others. *)
#[local] Opaque TREE_BASE av_cap.
#[local] Existing Instance key_target.

(** ** Slices of an edit *)
Definition slice_keys (m : slice_set) : list InsertionSlice := me_key <$> tree_items m.
Lemma elem_of_slice_keys m sl : map_wf m → sl ∈ slice_keys m ↔ has_slice m sl.
Proof.
  intros Hm. unfold slice_keys, has_slice. rewrite list_elem_of_fmap, lookup_map_Some by done. split.
  - by intros ([k []] & -> & Hk).
  - intros Hk. by exists (MkMapEntry sl tt).
Qed.
Lemma slice_keys_sorted m : map_wf m → StronglySorted olt (slice_keys m).
Proof.
  intros (_ & Hs & _). unfold slice_keys. induction Hs as [|x l Hl IH Hx]; cbn; constructor; [done|]. by apply Forall_fmap.
Qed.

Lemma olt_edit_id (a b : InsertionSlice) : olt a b → cmp (sl_edit_id a) (sl_edit_id b) ≠ Gt.
Proof.
  unfold olt, cmp at 1, InsertionSlice_ord. by destruct (cmp (sl_edit_id a) (sl_edit_id b)).
Qed.
Lemma below_first d sl : lt_b sl (MkInsertionSlice d Lamport_MIN 0 0) = lt_b (sl_edit_id sl) d.
Proof.
  unfold lt_b, cmp at 1, InsertionSlice_ord. cbn. destruct (cmp (sl_edit_id sl) d); try done. cbn.
  pose proof (Lamport_min_le (sl_insertion_id sl)) as Hz. rewrite (cmp_antisym Lamport_MIN). destruct (cmp Lamport_MIN _); try done. cbn.
  by destruct (sl_start sl), (sl_end sl).
Qed.
Lemma take_while_edit d l x :
  StronglySorted olt l → Forall (λ sl, lt_b (sl_edit_id sl) d = false) l →
  x ∈ take_while (λ slice, bool_decide (sl_edit_id slice = d)) l ↔ x ∈ l ∧ sl_edit_id x = d.
Proof.
  induction 1 as [|y l Hl IH Hy]; intros Hge; cbn [take_while].
  - split; [by intros ?%not_elem_of_nil|by intros [?%not_elem_of_nil _]].
  - apply Forall_cons in Hge as [Hyd Hge]. case_bool_decide as E.
    + rewrite !elem_of_cons, IH by done. naive_solver.
    + split; [by intros ?%not_elem_of_nil|]. intros [[->|Hx]%elem_of_cons Ed]; [done|]. exfalso.
      rewrite Forall_forall in Hy. specialize (Hy x Hx). apply olt_edit_id in Hy. rewrite Ed in Hy.
      unfold lt_b in Hyd. destruct (cmp (sl_edit_id y) d) eqn:Ec; [by apply cmp_eq in Ec|done|done].
Qed.

Section Slices.
Context (s : BufferSnapshot) (Hm : map_wf (s_insertion_slices s)) (Hh : height (s_insertion_slices s) < STACK_CAP).

Lemma slices_for_edit_spec d :
  returns (slices_for_edit s d) (λ l, ∀ sl, sl ∈ l ↔ has_slice (s_insertion_slices s) sl ∧ sl_edit_id sl = d).
Proof using Type*.
  unfold slices_for_edit, set_iter_from. rewrite iter_from_spec by done. apply returns_Ret. intros sl.
  set (m := s_insertion_slices s) in *.
  assert (Ekeys : fst <$> List.filter (λ kv, negb (lt_b kv.1 (MkInsertionSlice d Lamport_MIN 0 0))) (entries m)
    = List.filter (λ k, negb (lt_b (sl_edit_id k) d)) (slice_keys m)).
  { unfold entries, slice_keys. induction (tree_items m) as [|[k v] l IH]; [done|]. cbn. rewrite below_first.
    destruct (lt_b (sl_edit_id k) d); cbn; [done|by rewrite IH]. }
  rewrite Ekeys, take_while_edit.
  - rewrite list_elem_of_In, List.filter_In, <-list_elem_of_In, elem_of_slice_keys by done.
    split; [naive_solver|]. intros [Hsl <-]. split; [|done]. split; [done|]. unfold lt_b. by rewrite cmp_refl.
  - pose proof (slice_keys_sorted m Hm) as Hs. clear -Hs. induction Hs as [|x l Hl IH Hx]; cbn; [constructor|].
    destruct (negb _); [|done]. constructor; [done|]. rewrite Forall_forall in *. intros y Hy. apply Hx.
    by apply list_elem_of_In, List.filter_In in Hy as [Hy%list_elem_of_In _].
  - apply Forall_forall. intros y [_ Hy]%list_elem_of_In%List.filter_In. by apply negb_true_iff.
Qed.
Lemma slices_for_edits_spec ds :
  returns (slices_for_edits s ds) (λ l, ∀ sl, sl ∈ l ↔ has_slice (s_insertion_slices s) sl ∧ sl_edit_id sl ∈ ds).
Proof using Type*.
  induction ds as [|d ds IH]; cbn [slices_for_edits].
  - apply returns_Ret. intros sl. split; [by intros ?%not_elem_of_nil|by intros [_ ?%not_elem_of_nil]].
  - destruct (slices_for_edit_spec d) as (l & -> & Hl). destruct IH as (r & -> & Hr). apply returns_Ret. intros sl.
    rewrite elem_of_app, elem_of_cons, Hl, Hr. naive_solver.
Qed.
End Slices.

(** ** Going through the index *)
Definition ikey (sl : InsertionSlice) : InsertionFragmentKey := MkInsertionKey (sl_insertion_id sl) (sl_start sl).
Definition covered (sl : InsertionSlice) (x : InsertionFragment) : bool :=
  bool_decide (if_timestamp x = sl_insertion_id sl) && (sl_start sl <=? if_split_offset x) && (if_split_offset x <? sl_end sl).
Definition covered_any (D : list InsertionSlice) (x : InsertionFragment) : bool := existsb (λ sl, covered sl x) D.

Lemma olt_key t i t' j : olt (MkInsertionKey t i) (MkInsertionKey t' j) ↔ olt t t' ∨ (t = t' ∧ i < j).
Proof.
  unfold olt, cmp at 1, InsertionFragmentKey_ord. cbn. destruct (cmp t t') eqn:E; cbn.
  - apply cmp_eq in E as ->. unfold cmp, nat_ord. rewrite Nat.compare_lt_iff. split; [by right|]. intros [?|[_ ?]]; [congruence|done].
  - split; [by left|done].
  - split; [done|]. intros [?|[-> _]]; [congruence|]. by rewrite cmp_refl in E.
Qed.
Lemma covered_true sl x : covered sl x = true ↔ if_timestamp x = sl_insertion_id sl ∧ sl_start sl ≤ if_split_offset x < sl_end sl.
Proof. unfold covered. rewrite !andb_true_iff, bool_decide_eq_true, Nat.leb_le, Nat.ltb_lt. tauto. Qed.
Lemma covered_above sl x : olt (key x) (ikey sl) → covered sl x = false.
Proof.
  intros Hlt. destruct (covered sl x) eqn:E; [|done]. apply covered_true in E as [Et Ho]. change (key x) with (MkInsertionKey (if_timestamp x) (if_split_offset x)) in Hlt.
  apply olt_key in Hlt as [Hlt|[_ ?]]; [|lia]. rewrite Et in Hlt. unfold olt in Hlt. by rewrite cmp_refl in Hlt.
Qed.
Lemma covered_any_app D D' x : covered_any (D ++ D') x = covered_any D x || covered_any D' x.
Proof. apply existsb_app. Qed.
Lemma covered_any_single sl x : covered_any [sl] x = covered sl x.
Proof. cbn. by rewrite orb_false_r. Qed.
Lemma le_lt_key (a b c : InsertionFragmentKey) : olt a b → is_le (cmp b c) = true → olt a c.
Proof. intros Hab Hbc. unfold olt in *. destruct (cmp b c) eqn:E; [apply cmp_eq in E; by subst|by eapply cmp_lt_trans|done]. Qed.
Lemma not_olt_ge (a b : InsertionFragmentKey) : ¬ olt a b ↔ is_ge (cmp a b) = true.
Proof. unfold olt. destruct (cmp a b); cbn; split; naive_solver. Qed.

Lemma ge_of_olt (a b : InsertionFragmentKey) : olt a b → is_ge (cmp b a) = true.
Proof. unfold olt. intros H. by rewrite (cmp_antisym a b), H. Qed.
Lemma ikey_le_stamp a b : is_le (cmp (ikey a) (ikey b)) = true → sl_insertion_id a = sl_insertion_id b ∨ olt (sl_insertion_id a) (sl_insertion_id b).
Proof.
  unfold cmp at 1, InsertionFragmentKey_ord, olt. cbn. destruct (cmp (sl_insertion_id a) (sl_insertion_id b)) eqn:E; cbn; [|by right|done].
  apply cmp_eq in E. by left.
Qed.
Lemma zero_key_le (k : InsertionFragmentKey) : is_ge (cmp k (MkInsertionKey Lamport_MIN 0)) = true.
Proof. exact (key_zero (MkInsertion (ik_timestamp k) (ik_split_offset k) locator_min) I). Qed.

Lemma filter_ext_elem {A} (f g : A → bool) l : (∀ x, x ∈ l → f x = g x) → List.filter f l = List.filter g l.
Proof.
  intros H. induction l as [|x l IH]; [done|]. cbn. rewrite H by (by left). rewrite IH; [done|]. intros y Hy. apply H. by right.
Qed.

Section Collect.
Context (t : SumTree InsertionFragment InsertionFragmentKey) (Ht : keyed_wf t) (Hh : height t < STACK_CAP).
Abbreviation I := (tree_items t).
Abbreviation insertions_cursor := (Cursor InsertionFragment InsertionFragmentKey InsertionFragmentKey).

Record collecting (D : list InsertionSlice) (c : insertions_cursor) (acc : list Locator) (p l : list InsertionFragment) : Prop := {
  co_cursor : seekable_at t c p l;
  co_acc : acc = if_fragment_id <$> List.filter (covered_any D) p;
  co_rest : Forall (λ x, covered_any D x = false) l;
  co_past : ∀ x, x ∈ p → covered_any D x = true ∨ ∃ sl, sl ∈ D ∧ olt (key x) (ikey sl);
}.

Lemma I_keyed : keyed_list I.
Proof using Ht. by destruct Ht. Qed.
Lemma index_seekable (c : insertions_cursor) p l : seekable_at t c p l →
  I = p ++ l ∧ start c = from_option key (MkInsertionKey Lamport_MIN 0) (last p).
Proof using Ht.
  intros [Hc|(-> & -> & ->)]; [|done]. assert (E : I = p ++ l) by (by eapply cursor_at_items). split; [done|].
  destruct Hc as (_ & _ & Hp & _). unfold start. rewrite Hp. pose proof I_keyed as Hk. rewrite E in Hk. apply keyed_list_l in Hk. exact (measure_key p Hk).
Qed.
Lemma I_split p l : I = p ++ l → ∀ x y, x ∈ p → y ∈ l → olt (key x) (key y).
Proof using Ht.
  intros E x y Hx Hy. destruct I_keyed as [Hs _]. rewrite E in Hs. apply sorted_app in Hs as (_ & _ & Hs).
  rewrite Forall_forall in Hs. specialize (Hs x Hx). rewrite Forall_forall in Hs. by apply Hs.
Qed.

(** The cursor comes to the first entry of the slice that was not passed. *)
Definition to_slice (c : insertions_cursor) (sl : InsertionSlice) : outcome insertions_cursor :=
  if negb (bool_decide (sl_insertion_id sl = ik_timestamp (start c))) || (ik_split_offset (start c) <? sl_start sl) then
    let* '(_, c) := seek_forward c (MkInsertionKey (sl_insertion_id sl) (sl_start sl)) Left in Ret c
  else Ret c.

Lemma passed_stamp D c acc p l sl x :
  collecting D c acc p l → (∀ sl', sl' ∈ D → is_le (cmp (ikey sl') (ikey sl)) = true) → x ∈ p →
  covered_any D x = true ∨ olt (key x) (ikey sl).
Proof using.
  intros [] Hle Hx. destruct (co_past0 x Hx) as [?|(sl' & Hin & Hlt)]; [by left|right]. eapply le_lt_key; [done|by apply Hle].
Qed.
Lemma passed_ge D c acc p l sl :
  collecting D c acc p l → (∀ sl', sl' ∈ D → is_le (cmp (ikey sl') (ikey sl)) = true) →
  sl_insertion_id sl ≠ ik_timestamp (start c) ∨ ik_split_offset (start c) < sl_start sl →
  is_ge (cmp (ikey sl) (start c)) = true.
Proof using Ht.
  intros Hco Hle Hcase. pose proof Hco as [Hs]. destruct (index_seekable c p l Hs) as [E Est]. rewrite Est in Hcase |- *. clear Est.
  destruct (last p) as [y|] eqn:El; cbn [from_option] in *; [|apply zero_key_le].
  apply last_Some_elem_of in El as Hy. destruct (passed_stamp D c acc p l sl y Hco Hle Hy) as [Hcov|?]; [|by apply ge_of_olt].
  apply existsb_exists in Hcov as (sl' & Hsl'%list_elem_of_In & [Et _]%covered_true). specialize (Hle sl' Hsl'). apply ikey_le_stamp in Hle.
  rewrite <-Et in Hle. apply ge_of_olt. change (key y) with (MkInsertionKey (if_timestamp y) (if_split_offset y)) in Hcase |- *. cbn in Hcase.
  apply olt_key. destruct Hle as [Eq|?]; [|by left]. right. split; [done|]. destruct Hcase; [congruence|done].
Qed.

Lemma to_slice_spec D c acc p l sl :
  collecting D c acc p l → (∀ sl', sl' ∈ D → is_le (cmp (ikey sl') (ikey sl)) = true) → sl_insertion_id sl ≠ Lamport_MIN →
  returns (to_slice c sl) (λ c', ∃ q l', l = q ++ l' ∧ cursor_at t c' (p ++ q) l' ∧
    (∀ x, x ∈ q → olt (key x) (ikey sl)) ∧ ∀ x, x ∈ l' → ¬ olt (key x) (ikey sl)).
Proof using Ht Hh.
  intros Hco Hle Hmin. pose proof Hco as [Hs]. destruct (index_seekable c p l Hs) as [E Est]. pose proof I_keyed as Hk. pose proof Ht as [Hw _].
  unfold to_slice. destruct (_ || _) eqn:Ecase.
  - assert (Hge : is_ge (cmp (ikey sl) (start c)) = true).
    { apply (passed_ge D c acc p l); [done|done|]. apply orb_true_iff in Ecase as [Hc|Hc]; [left|right].
      - by apply negb_true_iff, bool_decide_eq_false in Hc.
      - by apply Nat.ltb_lt in Hc. }
    destruct (seek_forward_spec t Hw (keyed_list_valid _ Hk) Hh (ikey sl) Left (keyed_monotone _ _ Hk) c p l Hs) as ([b c'] & Es & Hc').
    { rewrite Est in Hge. rewrite E in Hk. apply keyed_list_l in Hk. rewrite (measure_key p Hk). exact Hge. }
    unfold ikey in Es. rewrite Es. apply returns_Ret. rewrite E in Hk. rewrite advance_key in Hc' by done. destruct Hc' as [Hc' _].
    apply keyed_list_r in Hk as [Hsl _]. destruct (sorted_split (ikey sl) l Hsl) as [El _].
    eexists _, _. split; [exact El|]. split; [exact Hc'|]. split.
    + by intros x [_ Hx]%elem_of_below.
    + intros x [[_ Hx]%elem_of_at|[_ Hx]%elem_of_above]%elem_of_app Hlt.
      * rewrite Hx in Hlt. unfold olt in Hlt. by rewrite cmp_refl in Hlt.
      * unfold olt in *. rewrite (cmp_antisym (key x)), Hlt in Hx. done.
  - apply orb_false_iff in Ecase as [Hts%negb_false_iff%bool_decide_eq_true Hoff%Nat.ltb_ge]. rewrite Est in Hts, Hoff.
    destruct (last p) as [y|] eqn:El; cbn [from_option] in *; [|by destruct Hmin]. apply last_Some_elem_of in El as Hy.
    apply returns_Ret. exists [], l. rewrite app_nil_r. split; [done|]. split; [|split; [by intros x ?%not_elem_of_nil|]].
    + destruct Hs as [Hs|(_ & -> & _)]; [done|]. by apply not_elem_of_nil in Hy.
    + intros x Hx Hlt. pose proof (I_split p l E y x Hy Hx) as Hyx. unfold olt in Hyx, Hlt. pose proof (cmp_lt_trans _ _ _ Hyx Hlt) as Hy'.
      change (olt (MkInsertionKey (if_timestamp y) (if_split_offset y)) (ikey sl)) in Hy'. apply olt_key in Hy' as [Hy'|[_ ?]]; [|cbn in Hoff; lia].
      cbn in Hts. rewrite Hts in Hy'. unfold olt in Hy'. by rewrite cmp_refl in Hy'.
Qed.

(** The loop takes the entries of the slice. *)
Definition in_slice_until (sl : InsertionSlice) (x : InsertionFragment) : bool :=
  bool_decide (if_timestamp x = sl_insertion_id sl) && (if_split_offset x <? sl_end sl).
Lemma collect_loop sl c acc p l :
  cursor_at t c p l →
  returns (loop (collect_step sl) (S (tree_size t)) (c, acc)) (λ '(c', acc'), ∃ r l', l = r ++ l' ∧ cursor_at t c' (p ++ r) l' ∧
    acc' = acc ++ (if_fragment_id <$> r) ∧ Forall (λ x, in_slice_until sl x = true) r ∧
    (∀ x, head l' = Some x → in_slice_until sl x = false)).
Proof using Ht Hh.
  intros Hc. pose proof Ht as [Hw Hk]. pose proof (keyed_list_valid _ Hk) as Hv.
  apply (loop_bounded _ (λ n x, ∃ r l', l = r ++ l' ∧ cursor_at t x.1 (p ++ r) l' ∧ x.2 = acc ++ (if_fragment_id <$> r) ∧
    Forall (λ x, in_slice_until sl x = true) r ∧ n = length l')) with (n := length l).
  - intros n [c' acc'] (r & l' & El & Hc' & Ea & Hr & ->). cbn [fst snd] in *. unfold collect_step.
    rewrite (item_at t Hw Hh _ _ _ Hc'). destruct l' as [|x l']; cbn [head].
    + right. eexists. split; [done|]. by exists r, [].
    + assert (Es : negb (bool_decide (if_timestamp x = sl_insertion_id sl)) || (sl_end sl <=? if_split_offset x) = negb (in_slice_until sl x)).
      { unfold in_slice_until. destruct (bool_decide _); [|done].
        destruct (Nat.leb_spec (sl_end sl) (if_split_offset x)), (Nat.ltb_spec (if_split_offset x) (sl_end sl)); (done || lia). }
      rewrite Es. destruct (in_slice_until sl x) eqn:Ex; cbn [negb].
      * left. destruct (next_at t Hw Hv Hh _ _ _ Hc') as (c2 & -> & Hc2). cbn [take drop] in Hc2.
        eexists _, (length l'). split; [done|]. split; [|cbn; lia]. exists (r ++ [x]), l'. cbn [fst snd].
        split_and!; [by rewrite <-app_assoc|by rewrite app_assoc|by rewrite Ea, fmap_app, app_assoc| |done].
        apply Forall_app; split; [done|by constructor; [|constructor]].
      * right. eexists. split; [done|]. exists r, (x :: l'). split_and!; try done. by intros ? [= <-].
  - exists [], l. rewrite !app_nil_r. by split_and!.
  - assert (E : I = p ++ l) by (by eapply cursor_at_items).
    assert (length I ≤ tree_size t) by (destruct Hw as [->|[h Hn]]; [cbn; lia|by eapply length_items_size]).
    rewrite E, length_app in *. lia.
Qed.

(** One slice. *)
Lemma collect_slice_spec D c acc p l sl :
  collecting D c acc p l → (∀ sl', sl' ∈ D → is_le (cmp (ikey sl') (ikey sl)) = true) → sl_insertion_id sl ≠ Lamport_MIN →
  returns (collect_slice (S (tree_size t)) (c, acc) sl) (λ '(c', acc'), ∃ p' l', collecting (D ++ [sl]) c' acc' p' l').
Proof using Ht Hh.
  intros Hco Hle Hmin. destruct (to_slice_spec D c acc p l sl Hco Hle Hmin) as (c1 & E1 & q & l1 & -> & Hc1 & Hq & Hl1).
  change (collect_slice _ (c, acc) sl) with (let* c := to_slice c sl in loop (collect_step sl) (S (tree_size t)) (c, acc)). rewrite E1.
  destruct (collect_loop sl c1 acc (p ++ q) l1 Hc1) as ([c2 acc2] & -> & r & l2 & -> & Hc2 & -> & Hr & Hl2).
  apply returns_Ret. exists ((p ++ q) ++ r), l2. pose proof Hco as [_ -> Hrest _]. apply Forall_app in Hrest as [Rq Rl]. apply Forall_app in Rl as [Rr Rl2].
  assert (Hrc : Forall (λ x, covered sl x = true) r).
  { rewrite Forall_forall in *. intros x Hx. specialize (Hr x Hx). apply andb_true_iff in Hr as [Et%bool_decide_eq_true Ho%Nat.ltb_lt].
    apply covered_true. split; [done|]. split; [|done]. specialize (Hl1 x). rewrite elem_of_app in Hl1. specialize (Hl1 (or_introl Hx)).
    destruct (Nat.le_gt_cases (sl_start sl) (if_split_offset x)); [done|]. destruct Hl1. apply olt_key. by right. }
  assert (Hl2c : Forall (λ x, covered sl x = false) l2).
  { assert (E : tree_items t = ((p ++ q) ++ r) ++ l2) by (by eapply cursor_at_items). destruct l2 as [|z l3]; [constructor|].
    specialize (Hl2 z eq_refl). rewrite Forall_forall. intros y Hy. destruct (covered sl y) eqn:Ey; [|done]. exfalso.
    apply covered_true in Ey as [Et Ho]. assert (Hz : in_slice_until sl z = true); [|congruence].
    apply andb_true_iff. rewrite bool_decide_eq_true, Nat.ltb_lt. apply elem_of_cons in Hy as [->|Hy]; [by split; [|lia]|].
    assert (Hzy : olt (key z) (key y)).
    { apply (I_split (((p ++ q) ++ r) ++ [z]) l3); [by rewrite E, <-(app_assoc _ [z])|apply elem_of_app; right; by left|done]. }
    apply olt_key in Hzy as [Hlt|[Ez Hz]]; [|rewrite Ez; split; [done|lia]]. rewrite Et in Hlt.
    destruct (Hl1 z); [apply elem_of_app; right; by left|]. apply olt_key. by left. }
  assert (Hpc : ∀ x, x ∈ p → covered sl x = true → covered_any D x = true).
  { intros x Hx Hcov. destruct (passed_stamp D c _ p _ sl x Hco Hle Hx) as [?|Hlt]; [done|]. by rewrite covered_above in Hcov. }
  split.
  - by left.
  - rewrite !List.filter_app, !fmap_app.
    assert (List.filter (covered_any (D ++ [sl])) q = []) as ->.
    { apply filter_none. rewrite Forall_forall in *. intros x Hx. by rewrite covered_any_app, covered_any_single, Rq, covered_above by auto. }
    assert (List.filter (covered_any (D ++ [sl])) r = r) as ->.
    { clear -Hrc. induction Hrc as [|x r Hx _ IH]; [done|]. cbn. by rewrite covered_any_app, covered_any_single, Hx, orb_true_r, IH. }
    cbn [fmap list_fmap]. rewrite app_nil_r. do 2 f_equal. apply filter_ext_elem. intros x Hx. rewrite covered_any_app, covered_any_single.
    destruct (covered sl x) eqn:Ec; [by rewrite (Hpc x Hx Ec)|by rewrite orb_false_r].
  - rewrite Forall_forall in *. intros x Hx. rewrite covered_any_app, covered_any_single, Rl2, Hl2c by done. done.
  - intros x [[Hx|Hx]%elem_of_app|Hx]%elem_of_app; rewrite covered_any_app, covered_any_single.
    + destruct (passed_stamp D c _ p _ sl x Hco Hle Hx) as [->|Hlt]; [by left|right]. exists sl. split; [|done]. apply elem_of_app. right. by left.
    + right. exists sl. split; [apply elem_of_app; right; by left|by apply Hq].
    + rewrite Forall_forall in Hrc. left. by rewrite (Hrc x Hx), orb_true_r.
Qed.

Lemma collect_slices_spec D c acc p l sls :
  collecting D c acc p l → (∀ sl' sl, sl' ∈ D → sl ∈ sls → is_le (cmp (ikey sl') (ikey sl)) = true) →
  StronglySorted (λ a b, is_le (cmp (ikey a) (ikey b)) = true) sls → Forall (λ sl, sl_insertion_id sl ≠ Lamport_MIN) sls →
  returns (collect_slices (S (tree_size t)) (c, acc) sls) (λ '(c', acc'), ∃ p' l', collecting (D ++ sls) c' acc' p' l').
Proof using Ht Hh.
  revert D c acc p l. induction sls as [|sl sls IH]; intros D c acc p l Hco Hle Hs Hmin; cbn [collect_slices].
  - apply returns_Ret. exists p, l. by rewrite app_nil_r.
  - apply StronglySorted_inv in Hs as [Hs Hsl]. apply Forall_cons in Hmin as [Hm Hmin].
    destruct (collect_slice_spec D c acc p l sl Hco) as ([c1 acc1] & -> & p1 & l1 & Hco1); [intros; apply Hle; [done|by left]|done|].
    rewrite cons_middle, app_assoc. eapply IH; [done| |done|done]. intros a b [Ha| ->%list_elem_of_singleton]%elem_of_app Hb.
    + apply Hle; [done|by right].
    + rewrite Forall_forall in Hsl. by apply Hsl.
Qed.
End Collect.

(** ** The fragments *)
(** The order of [sort_unstable_by_key]. *)
Definition slice_order (a b : InsertionSlice) : comparison :=
  then_with (cmp (sl_insertion_id a) (sl_insertion_id b))
    (then_with (cmp (sl_start a) (sl_start b)) (cmp (sl_end b) (sl_end a))).
Definition sorts_slices (sort : list InsertionSlice → list InsertionSlice) : Prop :=
  ∀ l, sort l ≡ₚ l ∧ StronglySorted (λ a b, is_le (slice_order a b) = true) (sort l).
Definition sorts_locators (sort : list Locator → list Locator) : Prop :=
  ∀ l, sort l ≡ₚ l ∧ StronglySorted (λ a b, is_le (cmp a b) = true) (sort l).
Definition touched_any (ids : list Lamport) (f : Fragment) : bool := existsb (λ d, touched d f) ids.

Lemma slice_order_key a b : is_le (slice_order a b) = true → is_le (cmp (ikey a) (ikey b)) = true.
Proof.
  unfold slice_order, ikey. unfold cmp at 4, InsertionFragmentKey_ord. cbn. destruct (cmp (sl_insertion_id a) (sl_insertion_id b)); [|done|done]. cbn.
  by destruct (cmp (sl_start a) (sl_start b)).
Qed.
Lemma filter_perm {A} (f : A → bool) (l k : list A) : l ≡ₚ k → List.filter f l ≡ₚ List.filter f k.
Proof.
  induction 1 as [|x l k _ IH|x y l|l k j _ IH1 _ IH2]; cbn; [done| | |by etrans].
  - destruct (f x); [by constructor|done].
  - destruct (f x), (f y); try done. constructor.
Qed.
Lemma filter_fmap_bool {A B} (f : B → bool) (g : A → B) l : List.filter f (g <$> l) = g <$> List.filter (λ x, f (g x)) l.
Proof. induction l as [|x l IH]; [done|]. cbn. destruct (f (g x)); cbn; by rewrite IH. Qed.
Lemma sublist_filter {A} (f : A → bool) l : sublist (List.filter f l) l.
Proof. induction l as [|x l IH]; cbn; [constructor|]. destruct (f x); by constructor. Qed.

Lemma sorted_keys_NoDup (l : list InsertionFragment) : sorted_keys l → NoDup l.
Proof.
  induction l as [|x l IH]; [constructor|]. intros [Hx Hl]%sorted_cons. constructor; [|by apply IH]. intros Hin.
  rewrite Forall_forall in Hx. specialize (Hx x Hin). unfold key_lt, olt in Hx. by rewrite cmp_refl in Hx.
Qed.
Lemma sorted_ids l : ids_ok l → StronglySorted (λ a b, is_le (cmp a b) = true) (f_id <$> l).
Proof.
  intros [Hs _]. apply StronglySorted_inv in Hs as [Hs _]. assert (H : ∀ a b : Locator, olt a b → is_le (cmp a b) = true) by (unfold olt; by intros a b ->).
  induction l as [|f l IH]; [constructor|]. cbn in *. apply StronglySorted_inv in Hs as [Hs Hf]. constructor; [by apply IH|].
  apply Forall_app in Hf as [Hf _]. eapply Forall_impl; [exact Hf|]. apply H.
Qed.
#[local] Instance locator_antisymm : AntiSymm (=) (λ a b : Locator, is_le (cmp a b) = true).
Proof.
  intros a b Ha Hb. destruct (cmp a b) eqn:E; [by apply cmp_eq| |done]. by rewrite (cmp_antisym a b), E in Hb.
Qed.

Section Ids.
Context (sort_by_insertion : list InsertionSlice → list InsertionSlice) (sort_locators : list Locator → list Locator).
Hypotheses (Hsi : sorts_slices sort_by_insertion) (Hloc : sorts_locators sort_locators).
Context (W : Lamport → list N) (s : BufferSnapshot).
Abbreviation F := (tree_items (s_fragments s)).
Hypotheses (Hdoc : doc_ok W F) (Hidx : index_ok (s_insertions s) F) (Hslices : slices_ok (s_insertion_slices s) F).
Hypotheses (Hhi : height (s_insertions s) < STACK_CAP) (Hhs : height (s_insertion_slices s) < STACK_CAP).
Hypothesis Hstamps : Forall (λ f, f_timestamp f ≠ Lamport_MIN) F.

Lemma index_items : tree_items (s_insertions s) ≡ₚ insertion_new <$> F.
Proof using Hdoc Hidx.
  destruct Hidx as [[_ [Hk _]] Hin]. apply NoDup_Permutation; [by apply sorted_keys_NoDup| |done].
  apply (NoDup_keys W); [done|]. intros g h [= E1 E2 _]. unfold fragment_key. by rewrite E1, E2.
Qed.
Lemma covered_touched ids l f :
  (∀ sl, sl ∈ l ↔ has_slice (s_insertion_slices s) sl ∧ sl_edit_id sl ∈ ids) → base_timestamp ∉ ids → f ∈ F →
  covered_any l (insertion_new f) = touched_any ids f.
Proof using Hdoc Hslices.
  clear Hhi Hhs. intros Hl Hbase Hf. pose proof (doc_frags _ _ Hdoc) as Hfrags. rewrite Forall_forall in Hfrags. destruct (Hfrags f Hf) as [Hlen _].
  apply Bool.eq_iff_eq_true. unfold covered_any, touched_any. rewrite !existsb_exists. split.
  - intros (sl & [Hsl Hid]%list_elem_of_In%Hl & [Et Ho]%covered_true). cbn in Et, Ho. exists (sl_edit_id sl). split; [by apply list_elem_of_In|].
    destruct (so_sound _ _ Hslices sl (f_insertion_offset f) Hsl Ho) as (g & Hg & Ht & Hc).
    assert (g = f) as ->; [|done]. eapply (same_cell F); [by eapply doc_nodup|done|done|exact Hc|]. rewrite <-Et. apply elem_of_fragment_cells. split; [done|lia].
  - intros (d & Hd%list_elem_of_In & Ht). destruct (so_complete _ _ Hslices f d (f_insertion_offset f) Hf Ht) as (sl & Hsl & E1 & E2 & E3).
    + by intros ->.
    + apply elem_of_fragment_cells. split; [done|lia].
    + exists sl. split; [apply list_elem_of_In, Hl; by rewrite E1|]. apply covered_true. by split.
Qed.

Lemma fragment_ids_spec ids : base_timestamp ∉ ids →
  fragment_ids_for_edits sort_by_insertion sort_locators s ids = Ret (f_id <$> List.filter (touched_any ids) F).
Proof using Type*.
  intros Hbase. unfold fragment_ids_for_edits.
  destruct (slices_for_edits_spec s (so_wf _ _ Hslices) Hhs ids) as (l0 & -> & Hl0).
  destruct (Hsi l0) as [Hp Hsorted]. set (l := sort_by_insertion l0) in *.
  assert (Hl : ∀ sl, sl ∈ l ↔ has_slice (s_insertion_slices s) sl ∧ sl_edit_id sl ∈ ids) by (intros sl; by rewrite Hp).
  destruct (collect_slices_spec (s_insertions s) (proj1 Hidx) Hhi [] (cursor_new (s_insertions s)) [] [] (tree_items (s_insertions s)) l)
    as ([c acc] & -> & p & l' & [Hc -> Hrest _]).
  - split; [by apply seekable_new|done|by apply Forall_forall|by intros x ?%not_elem_of_nil].
  - by intros a b ?%not_elem_of_nil.
  - clear -Hsorted. induction Hsorted as [|a l Hl IH Ha]; constructor; [done|]. eapply Forall_impl; [exact Ha|]. intros b. apply slice_order_key.
  - rewrite Forall_forall. intros sl [Hsl _]%Hl. destruct (so_sound _ _ Hslices sl (sl_start sl) Hsl) as (f & Hf & _ & [-> _]%elem_of_fragment_cells).
    + split; [lia|]. by apply (so_nonempty _ _ Hslices).
    + rewrite Forall_forall in Hstamps. by apply Hstamps.
  - cbn beta iota. f_equal. rewrite app_nil_l in *. destruct (Hloc (if_fragment_id <$> List.filter (covered_any l) p)) as [Hperm Hsort].
    destruct (index_seekable (s_insertions s) (proj1 Hidx) c p l' Hc) as [E _].
    assert (Ep : List.filter (covered_any l) p = List.filter (covered_any l) (tree_items (s_insertions s))).
    { by rewrite E, List.filter_app, (filter_none _ l'), app_nil_r. }
    assert (Hids : if_fragment_id <$> List.filter (covered_any l) p ≡ₚ f_id <$> List.filter (touched_any ids) F).
    { rewrite Ep, (filter_perm _ _ _ index_items), filter_fmap_bool, <-list_fmap_compose.
      rewrite (filter_ext_elem _ (touched_any ids)); [done|]. intros f Hf. by apply covered_touched. }
    eapply (StronglySorted_unique (λ a b, is_le (cmp a b) = true)); [exact Hsort| |by rewrite Hperm].
    apply sorted_ids. eapply ids_ok_sublist; [apply sublist_filter|by destruct Hdoc].
Qed.
End Ids.

#[local] Existing Instances ord_seek_target unit_dimension.

(** ** Seeking a fragment by its locator *)
Abbreviation id_position := (option Locator * nat * unit)%type.
Lemma measure_id l : measure (D := id_position) l = (f_id <$> last l, visible_len l, tt).
Proof.
  transitivity (measure (D := option Locator) l, measure (D := nat) l, measure (D := unit) l).
  - unfold measure. induction l as [|f l IH] using rev_ind; [done|]. rewrite fmap_app, !foldl_app, IH. done.
  - by rewrite measure_locator, measure_visible; destruct (measure (D := unit) l).
Qed.
Lemma id_target id l : seek_cmp (Some id) (measure (D := id_position) l) = cmp (Some id) (f_id <$> last l).
Proof. by rewrite measure_id. Qed.

Lemma ids_lt p q f g : ids_ok (p ++ q) → f ∈ p → g ∈ q → olt (f_id f) (f_id g).
Proof.
  intros [Hs _] Hf Hg. apply StronglySorted_inv in Hs as [Hs _]. rewrite fmap_app, <-app_assoc in Hs.
  induction p as [|x p IH]; [by apply not_elem_of_nil in Hf|]. cbn in Hs. apply StronglySorted_inv in Hs as [Hs Hx].
  apply elem_of_cons in Hf as [->|Hf]; [|by apply IH]. apply Forall_app in Hx as [_ Hx]. apply Forall_app in Hx as [Hx _].
  rewrite Forall_forall in Hx. by apply Hx, list_elem_of_fmap_2.
Qed.
Lemma id_above p f l : ids_ok (p ++ f :: l) → cmp (Some (f_id f)) (f_id <$> last p) = Gt.
Proof.
  intros Hi. destruct (last p) as [x|] eqn:E; [|done]. apply last_Some_elem_of in E.
  change (cmp (f_id f) (f_id x) = Gt). rewrite (cmp_antisym (f_id x)). rewrite (ids_lt p (f :: l) x f); [done|done|done|by left].
Qed.
Lemma id_target_monotone F id : ids_ok F → monotone_target (D := id_position) (Some id) F.
Proof.
  intros Hi l1 l2 l3 ->. rewrite !id_target. apply cmp_rank_anti.
  destruct (nil_or_snoc l2) as [->|(l & y & ->)]; [rewrite app_nil_r; by rewrite cmp_refl|].
  rewrite app_assoc, last_snoc. destruct (last l1) as [x|] eqn:E; [|done]. apply last_Some_elem_of in E.
  change (is_le (cmp (f_id x) (f_id y)) = true). rewrite (ids_lt l1 ((l ++ [y]) ++ l3)); [done|done|done|].
  apply elem_of_app. left. apply elem_of_app. right. by left.
Qed.
Lemma advance_to_id p q f l : ids_ok (p ++ q ++ f :: l) →
  advance (target_past (D := id_position) (Some (f_id f)) Left) p (q ++ f :: l) = (p ++ q, f :: l).
Proof.
  revert p. induction q as [|x q IH]; intros p Hi; cbn [app advance]; unfold target_past at 1; rewrite id_target, last_snoc.
  - cbn. rewrite app_nil_r. change (cmp (Some (f_id f)) (Some (f_id f))) with (cmp (f_id f) (f_id f)). by rewrite cmp_refl.
  - assert (Hlt : cmp (Some (f_id f)) (Some (f_id x)) = Gt).
    { change (cmp (f_id f) (f_id x) = Gt). rewrite (cmp_antisym (f_id x)). rewrite (ids_lt (p ++ [x]) (q ++ f :: l)); [done| | |].
      - by rewrite <-app_assoc.
      - apply elem_of_app. right. by left.
      - apply elem_of_app. right. by left. }
    cbn [fmap option_fmap option_map]. rewrite Hlt. rewrite IH; [by rewrite <-app_assoc|by rewrite <-app_assoc].
Qed.

(** ** The walk *)
Section Walk.
Context (W : Lamport → list N) (V D : Rope) (t : fragment_tree) (ts : Lamport).
Hypothesis Hset : setup W V D t ts.
Abbreviation F := (tree_items t).
(** The fragments to be toggled, and what they become. *)
Context (sel vis : Fragment → bool) (m : UndoMap) (undo : UndoOperation).
Hypothesis Hvis : ∀ f, f ∈ F → is_visible f m = Ret (vis f).
Definition upd (f : Fragment) : Fragment := if sel f then toggled f (vis f) (undo_timestamp undo) else f.

Lemma upd_same f : f_id (upd f) = f_id f ∧ f_timestamp (upd f) = f_timestamp f ∧ f_insertion_offset (upd f) = f_insertion_offset f ∧
  f_len (upd f) = f_len f ∧ f_deletions (upd f) = f_deletions f.
Proof. unfold upd. by destruct (sel f). Qed.
Lemma upd_text f : text_of W (upd f) = text_of W f.
Proof. unfold text_of. by destruct (upd_same f) as (_ & -> & -> & -> & _). Qed.
Lemma upd_ok f : frag_ok W f → frag_ok W (upd f).
Proof.
  unfold frag_ok. rewrite upd_text. destruct (upd_same f) as (_ & -> & -> & -> & _). intros (? & ? & ? & ? & Ht). split_and!; try done.
  unfold upd. destruct (sel f); [|done]. by apply trimmed_observe.
Qed.
Lemma upd_oks l : Forall (frag_ok W) l → Forall (frag_ok W) (upd <$> l).
Proof. intros Hl. apply Forall_fmap. eapply Forall_impl; [exact Hl|]. apply upd_ok. Qed.
Lemma upd_none l : Forall (λ f, sel f = false) l → upd <$> l = l.
Proof. induction 1 as [|f l Hf _ IH]; [done|]. cbn. rewrite IH. unfold upd. by rewrite Hf. Qed.
Lemma upd_size l : visible_len (upd <$> l) + deleted_len (upd <$> l) = visible_len l + deleted_len l.
Proof.
  unfold visible_len, deleted_len. induction l as [|f l IH]; [done|]. csimpl. destruct (upd_same f) as (_ & _ & _ & -> & _).
  destruct (f_visible (upd f)), (f_visible f); lia.
Qed.

Record uwalk (p l : list Fragment) (st : Undoing) : Prop := {
  uw_cursor : seekable_at t (u_cursor st) p l;
  uw_tree : wf (u_fragments st); uw_items : tree_items (u_fragments st) = upd <$> p;
  uw_ropes : ropes_at V D (u_ropes st) (visible_len p) (deleted_len p) (vis_text W (upd <$> p)) (del_text W (upd <$> p));
  uw_patch : rewrites 0 0 (vis_text W p) (u_edits st) (vis_text W (upd <$> p)); uw_sep : separated (u_edits st);
}.

Lemma uwalk_items p l st : uwalk p l st → F = p ++ l.
Proof. intros [[Hc|(_ & -> & ->)] _ _ _ _ _]; [exact (cursor_at_items t _ p l Hc)|done]. Qed.
Lemma upd_small p l : F = p ++ l → small (vis_text W (upd <$> p)) ∧ small (del_text W (upd <$> p)).
Proof using Hset.
  intros E. destruct (old_frags W V D t ts Hset p l E) as [Hp _]. apply (walk_small W V D t ts Hset); [by apply upd_oks|].
  rewrite upd_size, E, visible_len_app, deleted_len_app. lia.
Qed.

(** Fragments that stay as they are. *)
Lemma undo_append_spec p q l st c s :
  uwalk p (q ++ l) st → cursor_at t c (p ++ q) l → wf s → tree_items s = q → Forall (λ f, sel f = false) q →
  returns (undo_append st c s) (λ st', uwalk (p ++ q) l st' ∧ u_cursor st' = c).
Proof using Hset.
  intros Hw Hc Hs Eq Hq. pose proof (uwalk_items _ _ _ Hw) as E. destruct Hw as [_ Ht Hi Hr Hp Hsep].
  destruct (run_texts W V D t ts Hset p q l E) as (M1 & M2 & B1 & B2). pose proof E as E'. rewrite app_assoc in E'.
  destruct (upd_small _ _ E') as [Sv Sd]. rewrite fmap_app, (upd_none q), vis_text_app in Sv by done. rewrite fmap_app, (upd_none q), del_text_app in Sd by done.
  unfold undo_append. rewrite wf_summary, Eq, total_text by done. destruct Hset.
  destruct (ropes_append_spec V D su_visible su_deleted su_visible_shallow su_deleted_shallow (u_ropes st) (visible_len p) (deleted_len p)
    (vis_text W (upd <$> p)) (del_text W (upd <$> p)) (MkFragmentText (visible_len q) (deleted_len q)) Hr) as (rb & -> & Hrb);
    cbn [ft_visible ft_deleted]; rewrite ?M1, ?M2; try done.
  cbn [ft_visible ft_deleted] in Hrb. rewrite M1, M2 in Hrb.
  destruct (old_frags W V D t ts ltac:(by split) (p ++ q) l E') as [Hpq _]. apply upd_oks in Hpq. rewrite fmap_app, (upd_none q) in Hpq by done.
  destruct (append_wf (u_fragments st) s) as (t' & -> & Ht' & Et'); [done|done|rewrite Hi, Eq; by eapply frag_ok_valid|].
  apply returns_Ret. split; [|done]. rewrite Hi, Eq in Et'.
  split; cbn [u_cursor u_fragments u_ropes u_edits]; rewrite ?fmap_app, ?(upd_none q), ?vis_text_app, ?del_text_app, ?visible_len_app, ?deleted_len_app by done; try done.
  - by left.
  - by apply rewrites_keep.
Qed.

(** The patch for one fragment. *)
Definition toggle_edit (edits : Patch) (was now : bool) (len old_start new_start : nat) : outcome Patch :=
  if was && negb now then
    let* old_end := usize_add old_start len in
    Ret (patch_push edits (MkTextEdit (MkRange old_start old_end) (MkRange new_start new_start)))
  else if negb was && now then
    let* new_end := usize_add new_start len in
    Ret (patch_push edits (MkTextEdit (MkRange old_start old_start) (MkRange new_start new_end)))
  else Ret edits.
Lemma toggle_edit_spec edits u v (x : list N) (was now : bool) :
  rewrites 0 0 u edits v → separated edits → (N.of_nat (length u + length x) <= U64_MAX)%N → (N.of_nat (length v + length x) <= U64_MAX)%N →
  returns (toggle_edit edits was now (length x) (length u) (length v)) (λ edits',
    rewrites 0 0 (u ++ if was then x else []) edits' (v ++ if now then x else []) ∧ separated edits').
Proof using.
  intros Hr Hs Hu Hv. unfold toggle_edit. assert (He : ∀ n, edit_at n (length v) x [] = MkTextEdit (MkRange n (n + length x)) (MkRange (length v) (length v))).
  { intros n. unfold edit_at. cbn. by rewrite Nat.add_0_r. }
  assert (He' : ∀ n, edit_at n (length v) [] x = MkTextEdit (MkRange n n) (MkRange (length v) (length v + length x))).
  { intros n. unfold edit_at. cbn. by rewrite Nat.add_0_r. }
  destruct was, now; cbn [andb negb].
  - apply returns_Ret. split; [by apply rewrites_keep|done].
  - rewrite usize_add_ok by done. apply returns_Ret. rewrite <-He. split; [by apply rewrites_push|by eapply separated_push].
  - rewrite usize_add_ok by done. apply returns_Ret. rewrite <-He'. split; [by apply rewrites_push|by eapply separated_push].
  - apply returns_Ret. by rewrite !app_nil_r.
Qed.

(** The ropes for one fragment. *)
Lemma toggle_ropes p f l rb (now : bool) v d :
  F = p ++ f :: l → ropes_at V D rb (visible_len p) (deleted_len p) v d →
  small (v ++ text_of W f) ∨ now = false → small (d ++ text_of W f) ∨ now = true →
  returns (ropes_push rb (f_len f) (f_visible f) now) (λ rb', ropes_at V D rb' (visible_len (p ++ [f])) (deleted_len (p ++ [f]))
    (v ++ if now then text_of W f else []) (d ++ if now then [] else text_of W f)).
Proof using Hset.
  intros E Hr Sv Sd. destruct (run_texts W V D t ts Hset p [f] l E) as (M1 & M2 & B1 & B2).
  assert (moved V D (f_visible f) (visible_len p) (deleted_len p) (f_len f) = text_of W f ∧
    let k := if f_visible f then visible_len p else deleted_len p in between_boundaries (old_text V D (f_visible f)) k (k + f_len f)) as [Em Hb].
  { unfold visible_len, vis_text in M1, B1. unfold deleted_len, del_text in M2, B2. cbn in M1, M2, B1, B2.
    destruct (f_visible f); rewrite ?Nat.add_0_r, ?app_nil_r in *; done. }
  destruct Hset. destruct (ropes_push_spec V D su_visible su_deleted su_visible_shallow su_deleted_shallow rb _ _ v d (f_len f) (f_visible f) now Hr Hb)
    as (rb' & -> & Hr').
  { rewrite Em. destruct now; [by destruct Sv|by destruct Sd]. }
  apply returns_Ret. rewrite Em in Hr'. rewrite visible_len_snoc, deleted_len_snoc. destruct (f_visible f), now; rewrite ?Nat.add_0_r, ?app_nil_r; done.
Qed.

Lemma undo_fragment_spec p q f l st :
  uwalk p (q ++ f :: l) st → Forall (λ f, sel f = false) q → sel f = true →
  returns (undo_fragment m undo st (f_id f)) (uwalk ((p ++ q) ++ [f]) l).
Proof using Hset Hvis.
  intros Hw Hq Hf. pose proof (uwalk_items _ _ _ Hw) as E. pose proof (F_valid W V D t ts Hset) as Hv.
  pose proof (su_tree _ _ _ _ _ Hset) as Ht. pose proof (su_height _ _ _ _ _ Hset) as Hh.
  assert (Hids : ids_ok F) by (by destruct Hset as [_ _ _ _ _ _ []]). unfold undo_fragment.
  destruct (slice_spec t Ht Hv Hh (Some (f_id f)) Left (id_target_monotone F _ Hids) (u_cursor st) p (q ++ f :: l)) as ([sl c] & -> & Hs).
  { by destruct Hw. }
  { rewrite id_target. pose proof Hids as Hi. rewrite E in Hi. destruct (last p) as [x|] eqn:El; [|done]. apply last_Some_elem_of in El.
    change (is_ge (cmp (f_id f) (f_id x)) = true). rewrite (cmp_antisym (f_id x)), (ids_lt p (q ++ f :: l)); [done|done|done|].
    apply elem_of_app. right. by left. }
  rewrite E in Hids. rewrite (advance_to_id p q f l Hids) in Hs. destruct Hs as (Hc & Hwf & Esl). apply app_inv_head in Esl.
  destruct (undo_append_spec p q (f :: l) st c sl Hw Hc Hwf (eq_sym Esl) Hq) as (st1 & -> & Hw1 & Ec). clear Hw. rename Hw1 into Hw.
  rewrite (item_at t Ht Hh _ _ _ Hc). cbn [head]. rewrite app_assoc in E. set (p' := p ++ q) in *. destruct Hw as [_ Ht1 Hi1 Hr1 Hp1 Hs1].
  rewrite Hvis by (rewrite E; apply elem_of_app; right; by left).
  assert (Eupd : toggled f (vis f) (undo_timestamp undo) = upd f) by (unfold upd; by rewrite Hf). rewrite Eupd.
  assert (Est : start c = (f_id <$> last p', visible_len p', tt)). { destruct Hc as (_ & _ & Hp & _). unfold start. rewrite Hp. apply measure_id. }
  rewrite Est, wf_summary, Hi1, total_text by done. cbn [ft_visible].
  destruct (old_frags W V D t ts Hset p' (f :: l) E) as [Hpo Hfo]. apply Forall_cons in Hfo as [Hfo _]. pose proof (upd_oks _ Hpo) as Hup.
  pose proof E as E'. rewrite cons_middle, app_assoc in E'. destruct (upd_small _ _ E') as [Sv Sd]. rewrite fmap_app in Sv, Sd. cbn [fmap list_fmap] in Sv, Sd.
  rewrite vis_text_snoc, upd_text in Sv. rewrite del_text_snoc, upd_text in Sd.
  pose proof (su_total _ _ _ _ _ Hset) as Htot. pose proof (upd_size p') as Esz. destruct (upd_same f) as (_ & _ & _ & Elen & _). rewrite Elen.
  assert (Hsize : visible_len p' + deleted_len p' + f_len f ≤ visible_len F + deleted_len F).
  { rewrite E', !visible_len_app, !deleted_len_app. unfold visible_len at 3, deleted_len at 3. cbn. destruct (f_visible f); lia. }
  destruct (toggle_edit_spec (u_edits st1) (vis_text W p') (vis_text W (upd <$> p')) (text_of W f) (f_visible f) (f_visible (upd f)) Hp1 Hs1)
    as (edits & Ee & Hrw & Hsep).
  1,2: rewrite text_of_length, vis_text_length by done; unfold U32_MAX, U64_MAX in *; lia.
  rewrite text_of_length, !vis_text_length in Ee by done. unfold toggle_edit in Ee. rewrite Ee.
  unfold push_fragment. rewrite Elen. pose proof Hfo as (Hlen%Nat.ltb_lt & _). rewrite Hlen. cbn [rust_assert].
  destruct (toggle_ropes p' f l (u_ropes st1) (f_visible (upd f)) _ _ E Hr1) as (rb & -> & Hrb).
  { destruct (f_visible (upd f)); [by left|by right]. }
  { destruct (f_visible (upd f)); [by right|by left]. }
  destruct (push_wf (u_fragments st1) (upd f)) as (t' & -> & Ht' & Et'); [done| |].
  { rewrite Hi1. apply (frag_ok_valid W). apply Forall_app. split; [done|]. constructor; [by apply upd_ok|constructor]. }
  destruct (next_at t Ht Hv Hh _ _ _ Hc) as (c2 & -> & Hc2). cbn [take drop] in Hc2. apply returns_Ret.
  split; cbn [u_cursor u_fragments u_ropes u_edits]; try done.
  - by left.
  - by rewrite Et', Hi1, fmap_app.
  - rewrite fmap_app. cbn [fmap list_fmap]. rewrite vis_text_snoc, del_text_snoc, upd_text. done.
  - rewrite fmap_app. cbn [fmap list_fmap]. rewrite !vis_text_snoc, upd_text. done.
Qed.

Lemma filter_cons_split (l : list Fragment) f r :
  List.filter sel l = f :: r → ∃ q l', l = q ++ f :: l' ∧ Forall (λ f, sel f = false) q ∧ sel f = true ∧ List.filter sel l' = r.
Proof using.
  induction l as [|g l IH]; [done|]. cbn. destruct (sel g) eqn:Eg.
  - intros [= -> <-]. by exists [], l.
  - intros (q & l' & -> & Hq & Hf & Hr)%IH. exists (g :: q), l'. split_and!; try done. by constructor.
Qed.
Lemma undo_fragments_spec p l st :
  uwalk p l st →
  returns (undo_fragments m undo st (f_id <$> List.filter sel l)) (λ st', ∃ p' l', uwalk p' l' st' ∧ Forall (λ f, sel f = false) l').
Proof using Hset Hvis.
  remember (List.filter sel l) as r eqn:Er. symmetry in Er. revert p l st Er. induction r as [|f r IH]; intros p l st Er Hw; cbn [fmap list_fmap undo_fragments].
  - apply returns_Ret. exists p, l. split; [done|]. clear -Er. induction l as [|g l IH]; [constructor|]. cbn in Er.
    destruct (sel g) eqn:Eg; [done|]. constructor; [done|by apply IH].
  - apply filter_cons_split in Er as (q & l' & -> & Hq & Hf & Er). destruct (undo_fragment_spec p q f l' st Hw Hq Hf) as (st' & -> & Hw').
    by eapply IH.
Qed.

(** The rest of the fragments, and the new ropes. *)
Lemma undo_rest_spec p l st :
  uwalk p l st → Forall (λ f, sel f = false) l →
  returns (let* '(suffix, c) := Cursor.suffix (u_cursor st) in
           let* st := undo_append st c suffix in
           let* '(v, d) := ropes_finish (u_ropes st) in Ret (st, v, d)) (λ '(st, v, d),
    (wf (u_fragments st) ∧ tree_items (u_fragments st) = upd <$> F) ∧ (rope_wf v ∧ rope_text v = vis_text W (upd <$> F)) ∧
    (rope_wf d ∧ rope_text d = del_text W (upd <$> F)) ∧
    rewrites 0 0 (vis_text W F) (u_edits st) (vis_text W (upd <$> F)) ∧ separated (u_edits st)).
Proof using Hset.
  intros Hw Hl. pose proof (uwalk_items _ _ _ Hw) as E. pose proof (F_valid W V D t ts Hset) as Hv.
  destruct (suffix_spec t (su_tree _ _ _ _ _ Hset) Hv (su_height _ _ _ _ _ Hset) (u_cursor st) p l (uw_cursor _ _ _ Hw)) as ([sl c] & -> & Hc & Hwf & Esl).
  rewrite <-(app_nil_r l) in Hw. rewrite E in Hc. destruct (undo_append_spec p l [] st c sl Hw Hc Hwf Esl Hl) as (st1 & -> & [_ Ht1 Hi1 Hr1 Hp1 Hs1] & _).
  rewrite <-E in *. destruct (vis_lengths W V D t ts Hset F []) as [LX LD]; [by rewrite app_nil_r|].
  destruct (junction W V D t ts Hset F []) as (J1 & J2 & _); [by rewrite app_nil_r|]. destruct (upd_small F []) as [Sv Sd]; [by rewrite app_nil_r|].
  pose proof Hset as [HV HD SV SD _ _ HF EV ED _ _].
  destruct (ropes_finish_spec V D HV HD SV SD (u_ropes st1) (visible_len F) (deleted_len F) _ _ Hr1) as ([v d] & -> & (Hv1 & Ev1) & (Hd1 & Ed1));
    rewrite ?EV, ?ED, ?drop_ge, ?app_nil_r by lia; try done.
  rewrite EV, drop_ge, app_nil_r in Ev1 by lia. rewrite ED, drop_ge, app_nil_r in Ed1 by lia. by apply returns_Ret.
Qed.
End Walk.

(** ** What toggling keeps *)
Section Keeps.
Context (W : Lamport → list N) (sel vis : Fragment → bool) (undo : UndoOperation).
Abbreviation upd := (upd sel vis undo).

Lemma upd_ids (l : list Fragment) : f_id <$> (upd <$> l) = f_id <$> l.
Proof. rewrite <-list_fmap_compose. apply list_fmap_ext. intros i f _. unfold Basics.compose. by destruct (upd_same sel vis undo f) as (-> & _). Qed.
Lemma upd_fragment_cells f : fragment_cells (upd f) = fragment_cells f.
Proof. unfold fragment_cells. by destruct (upd_same sel vis undo f) as (_ & -> & -> & -> & _). Qed.
Lemma upd_cells l : cells (upd <$> l) = cells l.
Proof. unfold cells. rewrite <-list_fmap_compose. f_equal. apply list_fmap_ext. intros i f _. apply upd_fragment_cells. Qed.
Lemma upd_touched d f : touched d (upd f) = touched d f.
Proof. unfold touched. by destruct (upd_same sel vis undo f) as (_ & -> & _ & _ & ->). Qed.
Lemma upd_doc l : doc_ok W l → doc_ok W (upd <$> l).
Proof.
  intros [H1 [H2 H3] H4]. split; [by apply upd_oks| |by rewrite upd_cells]. split; by rewrite upd_ids.
Qed.
Lemma upd_index mi l : index_ok mi l → index_ok mi (upd <$> l).
Proof.
  intros [H1 H2]. split; [done|]. intros y. rewrite H2, <-list_fmap_compose.
  rewrite (list_fmap_ext (insertion_new ∘ upd) insertion_new l); [done|]. intros i f _. unfold Basics.compose, insertion_new.
  by destruct (upd_same sel vis undo f) as (-> & -> & -> & _).
Qed.
Lemma upd_slices ms l : slices_ok ms l → slices_ok ms (upd <$> l).
Proof.
  intros [H0 H1 H2 H3 H4]. split; [done|done| | |].
  - intros sl i Hsl Hi. destruct (H2 sl i Hsl Hi) as (f & Hf & Ht & Hc). exists (upd f). rewrite upd_touched, upd_fragment_cells.
    split; [by apply list_elem_of_fmap_2|done].
  - intros g d i (f & -> & Hf)%list_elem_of_fmap. rewrite upd_touched, upd_fragment_cells. destruct (upd_same sel vis undo f) as (_ & -> & _). by apply H3.
  - intros sl g i Hsl (f & -> & Hf)%list_elem_of_fmap. rewrite upd_fragment_cells. destruct (upd_same sel vis undo f) as (_ & _ & -> & -> & _). by apply H4.
Qed.
Lemma upd_fresh ts l : fresh ts l → fresh ts (upd <$> l).
Proof.
  intros Hl. apply Forall_fmap. eapply Forall_impl; [exact Hl|]. intros f Hf. unfold Basics.compose. by destruct (upd_same sel vis undo f) as (_ & -> & _ & _ & ->).
Qed.
End Keeps.

(** ** Visibility by counts *)
Definition undone (m : UndoMap) (e : Lamport) : bool := (max_count (λ _, true) (List.filter (of_edit e) (tree_items m)) mod 2 =? 1)%N.
Definition visible_by (undone : Lamport → bool) (f : Fragment) : bool := negb (undone (f_timestamp f)) && forallb undone (f_deletions f).
Lemma is_visible_spec m f : keyed_wf m → height m < STACK_CAP → is_visible f m = Ret (visible_by (undone m) f).
Proof.
  intros Hm Hh. assert (Hu : ∀ e, is_undone m e = Ret (undone m e)). { intros e. unfold is_undone, undo_count. by rewrite count_loop_spec. }
  unfold is_visible, visible_by. rewrite Hu. destruct (undone m (f_timestamp f)); [done|]. cbn [negb andb].
  induction (f_deletions f) as [|d l IH]; [done|]. cbn [all_deletions forallb]. rewrite Hu. by destruct (undone m d).
Qed.

(** ** [apply_undo] on a snapshot *)
Section Snapshot.
Context (sort_by_insertion : list InsertionSlice → list InsertionSlice) (sort_locators : list Locator → list Locator).
Context (sort_undos : list (Edit UndoMapEntry UndoMapKey) → list (Edit UndoMapEntry UndoMapKey)).
Hypotheses (Hsi : sorts_slices sort_by_insertion) (Hloc : sorts_locators sort_locators) (Hsu : sort_spec sort_undos).

(** What an undo operation asks of the snapshot. *)
Record undoable (W : Lamport → list N) (s : BufferSnapshot) (undo : UndoOperation) : Prop := {
  ua_ok : buffer_ok W s; ua_shallow : shallow s;
  ua_fresh : fresh (undo_timestamp undo) (tree_items (s_fragments s));
  ua_stamps : Forall (λ f, f_timestamp f ≠ Lamport_MIN) (tree_items (s_fragments s));
  ua_map : keyed_wf (s_undo_map s); ua_map_shallow : height (s_undo_map s) < STACK_CAP;
  ua_after : ∀ m, undo_insert sort_undos (s_undo_map s) undo = Ret m → height m < STACK_CAP;
  ua_counts : NoDup (undo_counts undo).*1; ua_base : base_timestamp ∉ (undo_counts undo).*1;
  ua_total : (N.of_nat (length (rope_text (s_visible_text s)) + length (rope_text (s_deleted_text s))) <= U32_MAX)%N;
}.

(** The fragments of the edits get the visibility the new counts give them. *)
Definition undo_upd (undo : UndoOperation) (m : UndoMap) : Fragment → Fragment :=
  upd (touched_any (undo_counts undo).*1) (visible_by (undone m)) undo.
Record undid (undo : UndoOperation) (s s' : BufferSnapshot) : Prop := {
  un_map : undo_insert sort_undos (s_undo_map s) undo = Ret (s_undo_map s');
  un_fragments : tree_items (s_fragments s') = undo_upd undo (s_undo_map s') <$> tree_items (s_fragments s);
  un_insertions : s_insertions s' = s_insertions s; un_slices : s_insertion_slices s' = s_insertion_slices s;
  un_version : s_version s' = s_version s; un_remote : s_remote_id s' = s_remote_id s;
  un_replica : s_replica_id s' = s_replica_id s; un_ending : s_line_ending s' = s_line_ending s;
}.

Lemma undo_snapshot_spec W s undo : undoable W s undo →
  returns (undo_snapshot sort_by_insertion sort_locators sort_undos s undo) (λ '(patch, s'),
    buffer_ok W s' ∧ undid undo s s' ∧ rewrites 0 0 (rope_text (s_visible_text s)) patch (rope_text (s_visible_text s')) ∧ separated patch).
Proof using Type*.
  intros [Hok Hsh Hfr Hst Hm Hmh Hma Hc Hb Htot]. unfold undo_snapshot.
  destruct (undo_insert_spec sort_undos (s_undo_map s) undo Hsu Hm Hmh Hc) as (m & Em & Hm' & _). rewrite Em. specialize (Hma m Em).
  pose proof (snapshot_setup W s (undo_timestamp undo) [] Hok Hsh Hfr) as Hset. cbn in Hset. rewrite Nat.add_0_r in Hset. specialize (Hset Htot).
  set (W' := with_text W _ []) in Hset. set (t := s_fragments s) in *. set (F := tree_items t) in *.
  pose proof Hset as [HV HD SV SD _ _ _ EV _ _ _]. destruct (ropes_new_at _ _ HV HD SV SD) as (rb & Erb & Hrb).
  destruct (rope_cursor (s_visible_text s) 0) as [v| |]; try done. destruct (rope_cursor (s_deleted_text s) 0) as [d| |]; try done. injection Erb as <-.
  rewrite (fragment_ids_spec sort_by_insertion sort_locators Hsi Hloc W s) by (by destruct Hok, Hsh). fold t F.
  set (sel := touched_any _). set (vis := visible_by (undone m)).
  assert (Hvis : ∀ f, f ∈ F → is_visible f m = Ret (vis f)) by (intros f _; by apply is_visible_spec).
  assert (Hw0 : uwalk W' (s_visible_text s) (s_deleted_text s) t sel vis undo [] F (MkUndoing (cursor_new t) new (ropes_new v d) [])).
  { split; cbn; try done; [apply seekable_new|by left|constructor]. }
  destruct (undo_fragments_spec _ _ _ _ _ Hset sel vis m undo Hvis [] F _ Hw0) as (st & -> & p & l & Hw & Hl).
  destruct (undo_rest_spec _ _ _ _ _ Hset sel vis undo p l st Hw Hl) as ([[st1 v1] d1] & E1 & (Ht1 & Hi1) & (Hv1 & Ev1) & (Hd1 & Ed1) & Hp1 & Hs1).
  destruct (Cursor.suffix (u_cursor st)) as [[sx c]| |]; try done. destruct (undo_append st c sx) as [st2| |]; try done.
  destruct (ropes_finish (u_ropes st2)) as [[v2 d2]| |]; try done. injection E1 as -> -> ->. apply returns_Ret.
  destruct (texts_with W (undo_timestamp undo) [] _ (upd_fresh sel vis undo _ F Hfr)) as [T1 T2]. fold W' in T1, T2.
  destruct (texts_with W (undo_timestamp undo) [] _ Hfr) as [T3 _]. fold W' in T3.
  fold F in Hi1, Hp1. destruct Hok. split; [|split; [|split; [|done]]]; cbn.
  - split; cbn; rewrite ?Hi1; [done|done|done|by apply upd_doc|by rewrite Ev1|by rewrite Ed1|by apply upd_index|by apply upd_slices].
  - by split.
  - by rewrite EV, Ev1.
Qed.
End Snapshot.
