(* ===== verification/UndoBuffer.v ===== *)
(** * Undoing and redoing in a buffer

    The text of a buffer is determined by its fragments and by which edits are
    undone; an undo operation toggles the edits of a transaction. *)
From stdpp Require Import base numbers option list sorting gmap.
From Stdlib Require Import Lia.
From S2P Require Import Prelude Clock SumTree SumTreeFacts Cursor CursorFacts Keyed KeyedFacts TreeMap TreeMapFacts Locator UndoMap.
From S2P Require Import Patch PatchFacts PatchCompose Subscription Utf8 ChunkPointsFacts RopeTree Rope RopeBuild Fragment.
From S2P Require Import Snapshot History HistorySpec Buffer Undo Document Walk BufferOk BufferEdit LocalEdit BufferLocal UndoWalk.
#[local] Opaque TREE_BASE av_cap.

(** ** The text given by what is undone *)
Definition shown (W : Lamport → list N) (u : Lamport → bool) (F : list Fragment) : list N :=
  concat ((λ f, if visible_by u f then text_of W f else []) <$> F).
Definition toggle (ids : list Lamport) (u : Lamport → bool) (e : Lamport) : bool := if bool_decide (e ∈ ids) then negb (u e) else u e.
Lemma toggle_twice ids u e : toggle ids (toggle ids u) e = u e.
Proof. unfold toggle. case_bool_decide; [apply negb_involutive|done]. Qed.
Lemma visible_by_ext u u' f : (∀ e, e ∈ stamps f → u e = u' e) → visible_by u f = visible_by u' f.
Proof.
  intros H. unfold visible_by. rewrite (H (f_timestamp f)) by (by left). f_equal.
  assert (Hd : ∀ e, e ∈ f_deletions f → u e = u' e) by (intros e He; apply H; by right). clear H.
  induction (f_deletions f) as [|d l IH]; [done|]. cbn. rewrite (Hd d) by (by left). rewrite IH; [done|]. intros e He. apply Hd. by right.
Qed.
Lemma shown_ext W u u' F : (∀ f, f ∈ F → visible_by u f = visible_by u' f) → shown W u F = shown W u' F.
Proof.
  intros H. unfold shown. induction F as [|f F IH]; [done|]. cbn. rewrite (H f) by (by left). rewrite IH; [done|]. intros g Hg. apply H. by right.
Qed.
Lemma vis_text_shown W u F : Forall (λ f, f_visible f = visible_by u f) F → vis_text W F = shown W u F.
Proof. unfold shown. induction 1 as [|f F Hf _ IH]; [done|]. rewrite vis_text_cons, Hf, IH. done. Qed.
(** Toggling fragments does not change what their insertions and deletions are. *)
Lemma visible_by_upd sel vis undo u f : visible_by u (upd sel vis undo f) = visible_by u f.
Proof. unfold visible_by. by destruct (upd_same sel vis undo f) as (_ & -> & _ & _ & ->). Qed.
Lemma shown_upd sel vis undo W u F : shown W u (upd sel vis undo <$> F) = shown W u F.
Proof.
  unfold shown. rewrite <-list_fmap_compose. f_equal. apply list_fmap_ext. intros i f _. unfold Basics.compose. by rewrite visible_by_upd, upd_text.
Qed.

(** ** Counting *)
Definition count (m : UndoMap) (e : Lamport) : N := max_count (λ _, true) (List.filter (of_edit e) (tree_items m)).
Definition next_count (m : UndoMap) (e : Lamport) : N := N.min U32_MAX (count m e + 1).
Lemma undone_count m e : undone m e = (count m e mod 2 =? 1)%N.
Proof. done. Qed.
Lemma odd_succ n : ((n + 1) mod 2 =? 1)%N = negb (n mod 2 =? 1)%N.
Proof.
  pose proof (N.mod_lt n 2 ltac:(lia)) as Hn. rewrite N.Div0.add_mod. revert Hn. generalize (n mod 2)%N as k. intros k Hk.
  assert (k = 0 ∨ k = 1)%N as [-> | ->]; [lia|done|done].
Qed.

Section Counts.
Context (m : UndoMap) (Hm : keyed_wf m) (Hh : height m < STACK_CAP).
Definition counts_ok (counts : list (Lamport * N)) : Prop := NoDup counts.*1 ∧ ∀ ec, ec ∈ counts → ec.2 = next_count m ec.1.

Lemma counts_insert_ok counts e : counts_ok counts →
  counts_ok (counts_insert counts e (next_count m e)) ∧ ∀ x, x ∈ (counts_insert counts e (next_count m e)).*1 ↔ x ∈ counts.*1 ∨ x = e.
Proof using.
  intros [Hn Hc]. unfold counts_insert. set (k := List.filter _ counts).
  assert (Hk : ∀ ec, ec ∈ k ↔ ec ∈ counts ∧ ec.1 ≠ e).
  { intros ec. unfold k. rewrite list_elem_of_In, List.filter_In, <-list_elem_of_In, negb_true_iff, bool_decide_eq_false. done. }
  assert (Hk1 : ∀ x, x ∈ k.*1 ↔ x ∈ counts.*1 ∧ x ≠ e).
  { intros x. rewrite !list_elem_of_fmap. split; [intros (ec & -> & [Hin Hne]%Hk); by split; [exists ec|]|].
    intros [(ec & -> & Hin) Hne]. exists ec. split; [done|]. by apply Hk. }
  split; [split|].
  - rewrite fmap_app. apply NoDup_app. split_and!.
    + eapply sublist_NoDup; [exact Hn|]. apply fmap_sublist, sublist_filter.
    + intros x [_ Hne]%Hk1 Hx%list_elem_of_singleton. done.
    + apply NoDup_singleton.
  - intros ec [[Hin _]%Hk| ->%list_elem_of_singleton]%elem_of_app; [by apply Hc|done].
  - intros x. rewrite fmap_app, elem_of_app, Hk1. change ([(e, next_count m e)].*1) with [e]. rewrite list_elem_of_singleton. destruct (decide (x = e)); tauto.
Qed.
Lemma undo_counts_spec counts ids : counts_ok counts →
  returns (undo_counts_for m counts ids) (λ counts', counts_ok counts' ∧ ∀ x, x ∈ counts'.*1 ↔ x ∈ counts.*1 ∨ x ∈ ids).
Proof using Hm Hh.
  revert counts. induction ids as [|e ids IH]; intros counts Hc; cbn [undo_counts_for].
  - apply returns_Ret. split; [done|]. intros x. rewrite elem_of_nil. tauto.
  - unfold undo_count. rewrite count_loop_spec by done. change (N.min U32_MAX _) with (next_count m e).
    destruct (counts_insert_ok counts e Hc) as [Hc' Hx]. destruct (IH _ Hc') as (c' & -> & Hok & Hin). apply returns_Ret. split; [done|].
    intros x. rewrite Hin, Hx, elem_of_cons. tauto.
Qed.
End Counts.

Lemma op_count_of undo m e : counts_ok m (undo_counts undo) →
  op_count undo e = if bool_decide (e ∈ (undo_counts undo).*1) then next_count m e else 0%N.
Proof.
  intros [_ Hc]. apply N.le_antisymm.
  - apply op_count_le. intros n Hn. rewrite bool_decide_eq_true_2 by (apply list_elem_of_fmap; by exists (e, n)). pose proof (Hc _ Hn) as En. cbn in En. lia.
  - case_bool_decide as Hin; [|lia]. apply list_elem_of_fmap in Hin as ([e' n] & -> & Hin). pose proof (Hc _ Hin) as En. cbn in En |- *. subst n.
    exact (proj1 (op_count_le undo e' (op_count undo e')) (N.le_refl _) _ Hin).
Qed.
Lemma undo_toggles sort_undos m m' undo :
  sort_spec sort_undos → keyed_wf m → height m < STACK_CAP → height m' < STACK_CAP → counts_ok m (undo_counts undo) →
  (∀ x, x ∈ tree_items m → uk_undo_id (ue_key x) ≠ undo_timestamp undo) → (∀ e, (count m e < U32_MAX)%N) →
  undo_insert sort_undos m undo = Ret m' →
  ∀ e, count m' e = if bool_decide (e ∈ (undo_counts undo).*1) then (count m e + 1)%N else count m e.
Proof.
  intros Hsu Hm Hh Hh' Hc Hnew Hmax E e.
  destruct (undo_insert_counts sort_undos m undo Hsu Hm Hh) as (m2 & E2 & Hm' & Hcount); [by destruct Hc|by intros x Hx ?%(Hnew x Hx)|].
  rewrite E in E2. injection E2 as <-. destruct (Hcount Hh' (λ _, true) e) as (n & H1 & H2). rewrite count_loop_spec in H1, H2 by done.
  injection H1 as <-. injection H2 as H2. fold (count m e) (count m' e) in H2. rewrite H2, (op_count_of undo m e Hc).
  unfold next_count. specialize (Hmax e). case_bool_decide; lia.
Qed.

(** ** The invariant *)
Abbreviation frags b := (tree_items (s_fragments (b_snapshot b))).
Abbreviation undos b := (s_undo_map (b_snapshot b)).
Abbreviation clock_of b := (b_lamport_clock b).
Abbreviation text b := (rope_text (s_visible_text (b_snapshot b))).

(** A time stamp that can be undone: of an edit, not of the first text. *)
Definition edit_stamp (clock id : Lamport) : Prop := id ≠ base_timestamp ∧ issued clock id.
Record undo_inv (b : Buffer) : Prop := {
  ui_clock : (1 <= value (clock_of b))%N ∧ (0 < h_transaction_depth (b_history b) → (1 < value (clock_of b))%N);
  ui_stamps : Forall (λ f, 0 < value (f_timestamp f))%N (frags b);
  ui_map : keyed_wf (undos b);
  ui_entries : ∀ x, x ∈ tree_items (undos b) →
    issued (clock_of b) (uk_edit_id (ue_key x)) ∧ issued (clock_of b) (uk_undo_id (ue_key x)) ∧ (ue_undo_count x <= value (clock_of b))%N;
  ui_visible : Forall (λ f, f_visible f = visible_by (undone (undos b)) f) (frags b);
  ui_edits : Forall (edit_stamp (clock_of b)) (edit_ids (h_undo_stack (b_history b)) ++ edit_ids (h_redo_stack (b_history b)));
}.

Lemma count_le b e : undo_inv b → (count (undos b) e <= value (clock_of b))%N.
Proof. intros Hi. apply max_count_le. intros x Hx _ _. by apply (ui_entries b Hi). Qed.
Lemma text_shown W seen b : buffer_inv W seen b → undo_inv b → text b = shown W (undone (undos b)) (frags b).
Proof. intros Hb Hi. rewrite (bo_visible_text W _ (bi_snapshot _ _ _ Hb)). apply vis_text_shown. by destruct Hi. Qed.
Lemma edit_stamp_mono c c' id : replica_id c' = replica_id c → (value c <= value c')%N → edit_stamp c id → edit_stamp c' id.
Proof. intros E Hv [H1 H2]. split; [done|]. by eapply issued_mono. Qed.
(** The stacks may change. *)
Lemma inv_history W seen b h :
  buffer_inv W seen b → undo_inv b → history_ok h (clock_of b) → h_operations h = h_operations (b_history b) →
  h_transaction_depth h = h_transaction_depth (b_history b) →
  edit_ids (h_undo_stack h) ++ edit_ids (h_redo_stack h) ≡ₚ edit_ids (h_undo_stack (b_history b)) ++ edit_ids (h_redo_stack (b_history b)) →
  buffer_inv W seen (with_history b h (clock_of b)) ∧ undo_inv (with_history b h (clock_of b)).
Proof.
  intros [] [] Hh Eo Ed Hp. split; split; cbn; try done; [by rewrite Eo|by rewrite Ed|by rewrite Hp].
Qed.

Section Toggle.
Context (sort_by_insertion : list InsertionSlice → list InsertionSlice) (sort_locators : list Locator → list Locator).
Context (sort_undos : list (Edit UndoMapEntry UndoMapKey) → list (Edit UndoMapEntry UndoMapKey)).
Hypotheses (Hsi : sorts_slices sort_by_insertion) (Hloc : sorts_locators sort_locators) (Hsu : sort_spec sort_undos).

(** What undoing edits asks of the sizes of the buffer. *)
Record undo_ready (b : Buffer) (edits : list Lamport) : Prop := {
  uy_shallow : shallow (b_snapshot b); uy_map : height (undos b) < STACK_CAP;
  uy_operations : height (h_operations (b_history b)) < STACK_CAP;
  uy_total : (N.of_nat (length (text b) + length (rope_text (s_deleted_text (b_snapshot b)))) <= U32_MAX)%N;
  uy_clock : (value (clock_of b) < U32_MAX)%N;
  uy_after : ∀ counts m, undo_counts_for (undos b) [] edits = Ret counts →
    undo_insert sort_undos (undos b) (MkUndoOperation (clock_of b) (b_version b) counts) = Ret m → height m < STACK_CAP;
}.

(** [b'] is [b] with the edits toggled. *)
Record toggled_to (W : Lamport → list N) (seen : gmap nat (list N)) (edits : list Lamport) (b b' : Buffer) : Prop := {
  tg_inv : buffer_inv W seen b'; tg_undo : undo_inv b';
  tg_undone : ∀ e, undone (undos b') e = toggle edits (undone (undos b)) e;
  tg_frags : ∃ sel vis op, frags b' = upd sel vis op <$> frags b;
  tg_undo_stack : h_undo_stack (b_history b') = h_undo_stack (b_history b);
  tg_redo_stack : h_redo_stack (b_history b') = h_redo_stack (b_history b);
  tg_depth : h_transaction_depth (b_history b') = h_transaction_depth (b_history b);
}.
Lemma toggled_text W seen edits b b' : toggled_to W seen edits b b' → text b' = shown W (toggle edits (undone (undos b))) (frags b).
Proof.
  intros [Hb Hi Hu (sel & vis & op & Ef) _ _ _]. rewrite (text_shown W seen) by done. rewrite Ef, shown_upd. apply shown_ext.
  intros f _. apply visible_by_ext. intros e _. apply Hu.
Qed.

Lemma untouched_stamps ids f e : touched_any ids f = false → e ∈ stamps f → e ∉ ids.
Proof.
  intros Ht Hs He. assert (touched_any ids f = true); [|congruence]. apply existsb_exists. exists e. split; [by apply list_elem_of_In|].
  apply touched_true. unfold stamps in Hs. apply elem_of_cons in Hs as [->|?]; [by left|by right].
Qed.

(** The invariant after the undo map and the fragments have changed. *)
Section After.
Context (W : Lamport → list N) (seen : gmap nat (list N)) (b b' : Buffer) (edits : list Lamport) (undo : UndoOperation).
Hypotheses (Hb : buffer_inv W seen b) (Hi : undo_inv b) (Hr : undo_ready b edits).
Hypotheses (Hts : undo_timestamp undo = clock_of b) (Hcounts : counts_ok (undos b) (undo_counts undo)).
Hypotheses (Hin : ∀ x, x ∈ (undo_counts undo).*1 ↔ x ∈ edits) (Hst : Forall (edit_stamp (clock_of b)) edits).
Hypothesis Hmap : undo_insert sort_undos (undos b) undo = Ret (undos b').
Hypothesis Hf : frags b' = undo_upd undo (undos b') <$> frags b.
Hypothesis Hclock : clock_of b' = MkLamport (value (clock_of b) + 1) (replica_id (clock_of b)).
Hypothesis Hh' : height (undos b') < STACK_CAP.

Lemma after_undone e : undone (undos b') e = toggle edits (undone (undos b)) e.
Proof using Hsu Hi Hr Hts Hcounts Hin Hmap Hh'.
  rewrite !undone_count. unfold toggle. rewrite undone_count. destruct Hr as [_ Hh _ _ Hc _].
  rewrite (undo_toggles sort_undos (undos b) (undos b') undo); try done; [|by destruct Hi| |].
  - rewrite (bool_decide_ext _ _ (Hin e)). case_bool_decide; [apply odd_succ|done].
  - intros x Hx E. destruct (ui_entries b Hi x Hx) as (_ & H & _). rewrite E, Hts in H. specialize (H eq_refl). lia.
  - intros d. pose proof (count_le b d Hi). lia.
Qed.
Lemma after_visible : Forall (λ f, f_visible f = visible_by (undone (undos b')) f) (frags b').
Proof using Hsu Hi Hr Hts Hcounts Hin Hmap Hh' Hf.
  rewrite Hf. apply Forall_fmap. destruct Hi as [_ _ _ _ Hv _]. rewrite Forall_forall in *. intros f Hff. unfold Basics.compose, undo_upd.
  rewrite visible_by_upd. unfold upd. destruct (touched_any _ f) eqn:Et; [done|]. rewrite (Hv f Hff). apply visible_by_ext. intros e He.
  rewrite after_undone. unfold toggle. rewrite bool_decide_eq_false_2; [done|]. rewrite <-Hin. by eapply untouched_stamps.
Qed.
Lemma after_entries x : x ∈ tree_items (undos b') →
  issued (clock_of b') (uk_edit_id (ue_key x)) ∧ issued (clock_of b') (uk_undo_id (ue_key x)) ∧ (ue_undo_count x <= value (clock_of b'))%N.
Proof using Hsu Hi Hr Hts Hcounts Hin Hst Hmap Hclock Hh'.
  destruct (undo_insert_spec sort_undos (undos b) undo Hsu (ui_map b Hi) (uy_map _ _ Hr) (proj1 Hcounts)) as (m & Em & _ & Hx).
  rewrite Hmap in Em. injection Em as <-. rewrite Hx, Hclock. intros [[Et Hc]|[Hold _]].
  - pose proof (proj2 Hcounts _ Hc) as En. cbn in En. rewrite Et, Hts. split; [|split; [intros _; cbn; lia|]].
    + assert (He : uk_edit_id (ue_key x) ∈ edits) by (apply Hin, list_elem_of_fmap; eexists; split; [|exact Hc]; done).
      rewrite Forall_forall in Hst. destruct (Hst _ He) as [_ H]. eapply issued_mono; [| |exact H]; [done|cbn; lia].
    + pose proof (count_le b (uk_edit_id (ue_key x)) Hi). unfold next_count in En. cbn. lia.
  - destruct (ui_entries b Hi x Hold) as (H1 & H2 & H3). split_and!; [by eapply (issued_mono (clock_of b)); [|cbn; lia|]..|cbn; lia].
Qed.
Lemma after_inv : h_undo_stack (b_history b') = h_undo_stack (b_history b) → h_redo_stack (b_history b') = h_redo_stack (b_history b) → undo_inv b'.
Proof using Hsu Hi Hr Hts Hcounts Hin Hst Hmap Hf Hclock Hh'.
  intros E1 E2. split.
  - destruct Hi as [[H1 H2] _ _ _ _ _]. rewrite Hclock. cbn. split; [lia|intros _; lia].
  - rewrite Hf. apply Forall_fmap. destruct Hi as [_ Hs _ _ _ _]. eapply Forall_impl; [exact Hs|]. intros f H. unfold Basics.compose, undo_upd.
    by destruct (upd_same (touched_any (undo_counts undo).*1) (visible_by (undone (undos b'))) undo f) as (_ & -> & _).
  - destruct (undo_insert_spec sort_undos (undos b) undo Hsu (ui_map b Hi) (uy_map _ _ Hr) (proj1 Hcounts)) as (m & Em & Hm & _).
    rewrite Hmap in Em. by injection Em as <-.
  - apply after_entries.
  - apply after_visible.
  - rewrite E1, E2, Hclock. destruct Hi as [_ _ _ _ _ Hs]. eapply Forall_impl; [exact Hs|]. intros id. apply edit_stamp_mono; [done|cbn; lia].
Qed.
End After.

Lemma issued_upd c l sel vis undo : Forall (λ f, Forall (issued c) (stamps f)) l → Forall (λ f, Forall (issued c) (stamps f)) (upd sel vis undo <$> l).
Proof.
  intros Hl. apply Forall_fmap. eapply Forall_impl; [exact Hl|]. intros f H. unfold Basics.compose, stamps.
  by destruct (upd_same sel vis undo f) as (_ & -> & _ & _ & ->).
Qed.

(** ** [undo_or_redo] *)
Abbreviation undo_or_redo := (undo_or_redo sort_by_insertion sort_locators sort_undos).
Lemma undo_or_redo_spec W seen b tr :
  buffer_inv W seen b → undo_inv b → undo_ready b (t_edit_ids tr) → Forall (edit_stamp (clock_of b)) (t_edit_ids tr) →
  returns (undo_or_redo b tr) (λ '(_, b'), toggled_to W seen (t_edit_ids tr) b b').
Proof using Type*.
  intros Hb Hi Hr Hst. pose proof Hb as [Hok Hiss Hhist Hops Hses]. pose proof Hr as [Hsh Hmh Hoh Htot Hclk Haft]. pose proof Hi as [[Hc1 _] Hstamps Hm _ _ _].
  unfold Undo.undo_or_redo.
  destruct (undo_counts_spec (undos b) Hm Hmh [] (t_edit_ids tr)) as (counts & Ec & Hcok & Hcin); [by split; [constructor|by intros ec ?%not_elem_of_nil]|].
  rewrite Ec. unfold undo_operations. change (tick (clock_of b)) with (clock_of b, (tick (clock_of b)).2). rewrite tick_next by done.
  cbn beta iota zeta. set (undo := MkUndoOperation (clock_of b) (b_version b) counts). set (b0 := observe_version _ _).
  assert (Hcin' : ∀ x, x ∈ counts.*1 ↔ x ∈ t_edit_ids tr) by (intros x; rewrite Hcin, elem_of_nil; tauto).
  assert (Hua : undoable sort_undos W (b_snapshot b0) undo).
  { cbn [b0 observe_version with_snapshot with_history b_snapshot with_version undo undo_timestamp undo_counts]. destruct Hok, Hsh.
    split; cbn [s_visible_text s_deleted_text s_fragments s_insertions s_insertion_slices s_undo_map with_version undo_timestamp undo_counts]; try done.
    - by apply issued_fresh.
    - eapply Forall_impl; [exact Hstamps|]. cbn beta. intros f Hf E. rewrite E in Hf. cbn in Hf. lia.
    - intros m. by apply Haft.
    - by destruct Hcok.
    - intros Hbase%Hcin'. rewrite Forall_forall in Hst. by destruct (Hst _ Hbase). }
  unfold apply_undo. destruct (undo_snapshot_spec sort_by_insertion sort_locators sort_undos Hsi Hloc Hsu W _ undo Hua) as ([patch s'] & -> & Hok' & Hun & Hrw & _).
  destruct (publish_inv (buffer_session b seen) patch (rope_text (s_visible_text s')) Hses) as (tp & Etp & Hses').
  { destruct Hok' as [Hv' _ _ _ _ _ _ _]. apply rope_small in Hv'. unfold small, fits, U32_MAX, ISIZE_MAX in *. lia. }
  { done. }
  cbn [buffer_session topic] in Etp. cbn [b0 observe_version with_snapshot with_history b_subscriptions]. rewrite Etp.
  unfold push_operation, history_push. cbn [with_subscriptions with_snapshot with_history b_history op_timestamp op_timestamp undo undo_timestamp].
  change (b_history b0) with (b_history b).
  destruct (map_insert_spec (h_operations (b_history b)) Hops Hoh (clock_of b) (OpUndo undo)) as (ops & -> & Hops' & _).
  apply returns_Ret. set (b' := with_history _ _ _). destruct Hun as [Umap Ufr _ _ _ _ _ _].
  assert (Hclock : clock_of b' = MkLamport (value (clock_of b) + 1) (replica_id (clock_of b))) by done.
  assert (Hh' : height (undos b') < STACK_CAP) by (by apply (Haft counts)).
  split; try done.
  - split; cbn [b' with_history with_subscriptions with_snapshot b_snapshot b_lamport_clock b_history b_subscriptions h_operations]; try done.
    + rewrite Ufr. apply issued_upd. cbn. eapply issued_next; [| |exact Hiss]; [done|cbn; lia].
    + eapply (history_step_ok (MkHistory _ ops _ _ _ _) (clock_of b)); [apply hs_clock; [done|cbn; lia]|]. destruct Hhist. by split.
  - by apply (after_inv b b' (t_edit_ids tr) undo).
  - intros e. by apply (after_undone b b' (t_edit_ids tr) undo).
  - eexists _, _, _. exact Ufr.
Qed.

(** ** [undo] and [redo] *)
Abbreviation undo := (Undo.undo sort_by_insertion sort_locators sort_undos).
Abbreviation redo := (Undo.redo sort_by_insertion sort_locators sort_undos).
Abbreviation edits_of e := (t_edit_ids (he_transaction e)).

Lemma edit_ids_single e : edit_ids [e] = edits_of e.
Proof. unfold edit_ids. cbn. apply app_nil_r. Qed.
(** The buffer after a transaction went from one stack to the other. *)
Definition moved_to (b : Buffer) (u r : list HistoryEntry) : Buffer := with_history b (with_stacks (b_history b) u r) (clock_of b).
Lemma moved_ready b u r ids : undo_ready b ids → undo_ready (moved_to b u r) ids.
Proof. by intros []. Qed.
Lemma moved_inv W seen b u r :
  buffer_inv W seen b → undo_inv b → moves (b_history b) (with_stacks (b_history b) u r) →
  edit_ids u ++ edit_ids r ≡ₚ edit_ids (h_undo_stack (b_history b)) ++ edit_ids (h_redo_stack (b_history b)) →
  buffer_inv W seen (moved_to b u r) ∧ undo_inv (moved_to b u r).
Proof. intros Hb Hi Hm Hp. apply inv_history; try done. eapply moves_ok; [by destruct Hb|done]. Qed.

Lemma undo_spec W seen b k e :
  buffer_inv W seen b → undo_inv b → h_transaction_depth (b_history b) = 0 → h_undo_stack (b_history b) = k ++ [e] →
  undo_ready b (edits_of e) →
  returns (undo b) (λ '(o, b'), (∃ op, o = Some (entry_id e, op)) ∧
    toggled_to W seen (edits_of e) (moved_to b k (h_redo_stack (b_history b) ++ [e])) b').
Proof using Type*.
  intros Hb Hi Hd Hu Hr. unfold Undo.undo.
  assert (Ep : pop_undo (b_history b) = Ret (Some e, with_stacks (b_history b) k (h_redo_stack (b_history b) ++ [e]))).
  { unfold pop_undo. by rewrite assert_none, Hu, last_snoc, removelast_last. }
  rewrite Ep. fold (moved_to b k (h_redo_stack (b_history b) ++ [e])).
  destruct (moved_inv W seen b k (h_redo_stack (b_history b) ++ [e]) Hb Hi) as [Hb0 Hi0]; [by eapply pop_undo_moves| |].
  { rewrite Hu, !edit_ids_app, <-!app_assoc. apply Permutation_app_head, Permutation_app_comm. }
  destruct (undo_or_redo_spec W seen _ (he_transaction e) Hb0 Hi0) as ([op b'] & -> & Ht); [by apply moved_ready| |].
  { destruct Hi as [_ _ _ _ _ Hs]. rewrite Hu, edit_ids_app, edit_ids_single, !Forall_app in Hs. apply Hs. }
  apply returns_Ret. split; [by eexists|done].
Qed.
Lemma redo_spec W seen b r e :
  buffer_inv W seen b → undo_inv b → h_transaction_depth (b_history b) = 0 → h_redo_stack (b_history b) = r ++ [e] →
  undo_ready b (edits_of e) →
  returns (redo b) (λ '(o, b'), (∃ op, o = Some (entry_id e, op)) ∧
    toggled_to W seen (edits_of e) (moved_to b (h_undo_stack (b_history b) ++ [e]) r) b').
Proof using Type*.
  intros Hb Hi Hd Hu Hr. unfold Undo.redo.
  assert (Ep : pop_redo (b_history b) = Ret (Some e, with_stacks (b_history b) (h_undo_stack (b_history b) ++ [e]) r)).
  { unfold pop_redo. by rewrite assert_none, Hu, last_snoc, removelast_last. }
  rewrite Ep. fold (moved_to b (h_undo_stack (b_history b) ++ [e]) r).
  destruct (moved_inv W seen b (h_undo_stack (b_history b) ++ [e]) r Hb Hi) as [Hb0 Hi0]; [by eapply pop_redo_moves| |].
  { rewrite Hu, !edit_ids_app, <-!app_assoc. apply Permutation_app_head, Permutation_app_comm. }
  destruct (undo_or_redo_spec W seen _ (he_transaction e) Hb0 Hi0) as ([op b'] & -> & Ht); [by apply moved_ready| |].
  { destruct Hi as [_ _ _ _ _ Hs]. rewrite Hu, edit_ids_app, edit_ids_single, !Forall_app in Hs. apply Hs. }
  apply returns_Ret. split; [by eexists|done].
Qed.

(** Redoing what was undone: the same text, and the same stacks. *)
Lemma redo_undone W seen b k e b1 :
  buffer_inv W seen b → undo_inv b → h_transaction_depth (b_history b) = 0 → h_undo_stack (b_history b) = k ++ [e] →
  toggled_to W seen (edits_of e) (moved_to b k (h_redo_stack (b_history b) ++ [e])) b1 → undo_ready b1 (edits_of e) →
  returns (redo b1) (λ '(o, b2), (∃ op, o = Some (entry_id e, op)) ∧ buffer_inv W seen b2 ∧ undo_inv b2 ∧ text b2 = text b ∧
    h_undo_stack (b_history b2) = h_undo_stack (b_history b) ∧ h_redo_stack (b_history b2) = h_redo_stack (b_history b)).
Proof using Type*.
  intros Hb Hi Hd Hu [Hb1 Hi1 Hu1 (sel & vis & op1 & Ef) Eu1 Er1 Ed1] Hr1.
  destruct (redo_spec W seen b1 (h_redo_stack (b_history b)) e Hb1 Hi1) as ([o b2] & -> & Ho & Ht); [by rewrite Ed1|by rewrite Er1|done|].
  apply returns_Ret. pose proof (toggled_text _ _ _ _ _ Ht) as Et. destruct Ht as [Hb2 Hi2 _ _ Eu2 Er2 _]. split_and!; try done.
  - rewrite Et, (text_shown W seen b) by done. cbn [moved_to with_history b_snapshot]. cbn in Ef. rewrite Ef, shown_upd. apply shown_ext.
    intros f _. apply visible_by_ext. intros d _. unfold toggle at 1. rewrite !Hu1. apply (toggle_twice (edits_of e) (undone (undos b)) d).
  - rewrite Eu2, Hu. cbn. by rewrite Eu1.
Qed.
End Toggle.
