(* ===== verification/UndoSpec.v ===== *)
(** * Undoing and redoing: theorems

    Undoing a transaction brings back the text from before its edits, redoing
    it the text from after them. *)
From stdpp Require Import base numbers option list sorting gmap.
From Stdlib Require Import Lia.
From S2P Require Import Prelude Integers Clock SumTree SumTreeFacts SumTreeBulk Cursor CursorFacts Keyed KeyedFacts TreeMap TreeMapFacts Locator UndoMap.
From S2P Require Import Patch PatchFacts PatchCompose Subscription Utf8 ChunkPointsFacts RopeTree Rope RopeBuild Fragment.
From S2P Require Import Snapshot History HistorySpec Buffer Undo Document Walk BufferOk BufferEdit LocalEdit BufferLocal OperationQueue BufferSpec UndoWalk UndoBuffer.
#[local] Opaque TREE_BASE av_cap.

(** ** Texts as cells *)
Definition show_cells (W : Lamport → list N) (v : Lamport * nat → bool) (c : list (Lamport * nat)) : list N :=
  concat ((λ x, if v x then byte_at W x else []) <$> c).
Lemma show_cells_app W v c c' : show_cells W v (c ++ c') = show_cells W v c ++ show_cells W v c'.
Proof. unfold show_cells. by rewrite fmap_app, concat_app. Qed.
Lemma show_fragment W v f b : (∀ c, c ∈ fragment_cells f → v c = b) → show_cells W v (fragment_cells f) = if b then text_of W f else [].
Proof.
  intros Hv. rewrite fragment_bytes. unfold show_cells. induction (fragment_cells f) as [|c l IH]; [by destruct b|].
  cbn. rewrite Hv by (by left). change (list_fmap ?A ?B ?f ?x) with (f <$> x). rewrite IH; [by destruct b|]. intros d Hd. apply Hv. by right.
Qed.
Lemma shown_cells W u v F : (∀ f c, f ∈ F → c ∈ fragment_cells f → v c = visible_by u f) → shown W u F = show_cells W v (cells F).
Proof.
  induction F as [|f F IH]; intros Hv; [done|]. rewrite cells_cons, show_cells_app, <-IH by (intros g c Hg; apply Hv; by right).
  rewrite (show_fragment W v f (visible_by u f)); [done|]. intros c. apply Hv. by left.
Qed.
Lemma show_not_of W v ts c : (∀ i, v (ts, i) = false) → show_cells W v c = show_cells W v (not_of ts c).
Proof.
  intros Hv. unfold show_cells, not_of. induction c as [|[t i] c IH]; [done|]. cbn. case_bool_decide as E; cbn.
  - subst. rewrite Hv. exact IH.
  - f_equal. exact IH.
Qed.

(** ** An edit that is undone *)
Section Edited.
Context (W : Lamport → list N) (ts : Lamport) (x : list N) (s s' : BufferSnapshot) (u : Lamport → bool).
Abbreviation F := (tree_items (s_fragments s)).
Abbreviation F' := (tree_items (s_fragments s')).
Hypotheses (Hdoc : doc_ok W F) (Hfr : fresh ts F) (Hed : edited ts s s') (Hu : u ts = true).

(** The visibility of cells. *)
Definition cell_visible (c : Lamport * nat) : bool := existsb (λ f, visible_by u f && bool_decide (c ∈ fragment_cells f)) F.
Lemma cell_visible_of f c : f ∈ F → c ∈ fragment_cells f → cell_visible c = visible_by u f.
Proof using Hdoc.
  intros Hf Hc. apply Bool.eq_iff_eq_true. unfold cell_visible. rewrite existsb_exists. split.
  - intros (g & Hg%list_elem_of_In & [Hv Hcg%bool_decide_eq_true]%andb_true_iff).
    by rewrite (same_cell F f g c) by (done || by eapply doc_nodup).
  - intros Hv. exists f. split; [by apply list_elem_of_In|]. rewrite Hv. cbn. by apply bool_decide_eq_true.
Qed.
Lemma cell_visible_new i : cell_visible (ts, i) = false.
Proof using Hfr.
  destruct (cell_visible (ts, i)) eqn:E; [|done]. apply existsb_exists in E as (f & Hf%list_elem_of_In & [_ Hc%bool_decide_eq_true]%andb_true_iff).
  apply elem_of_fragment_cells in Hc as [E _]. unfold fresh in Hfr. rewrite Forall_forall in Hfr. by destruct (Hfr f Hf).
Qed.
Lemma derived_visible g f : derived ts g f → visible_by u g = visible_by u f.
Proof using Hu.
  intros (E & _ & _ & [[_ Ed]|(_ & Ed)]); unfold visible_by; rewrite E, Ed; [done|]. by rewrite forallb_app; cbn; rewrite Hu, !andb_true_r.
Qed.

Lemma shown_edited : shown (with_text W ts x) u F' = shown W u F.
Proof using Type*.
  rewrite (shown_cells _ u cell_visible F').
  - rewrite (show_not_of _ _ ts) by apply cell_visible_new. rewrite (ed_kept ts s s' Hed). rewrite <-(shown_cells _ u cell_visible F).
    + unfold shown. f_equal. apply list_fmap_ext. intros i f Hf. apply list_elem_of_lookup_2 in Hf. unfold fresh in Hfr. rewrite Forall_forall in Hfr.
      destruct (Hfr f Hf) as [Hne _]. by rewrite text_of_with.
    + apply cell_visible_of.
  - intros g c Hg Hc. destruct (ed_origin ts s s' Hed g Hg) as [(Ets & _)|(f & Hf & Hd)].
    + destruct c as [t i]. apply elem_of_fragment_cells in Hc as [-> _]. rewrite Ets, cell_visible_new. unfold visible_by. by rewrite Ets, Hu.
    + rewrite (derived_visible g f Hd). apply cell_visible_of; [done|]. destruct c. by eapply derived_cells.
Qed.
End Edited.

(** ** The invariant through edits *)
Section Run.
Context (normal : list N → list N) (seen : gmap nat (list N)).

(** A stamp the clock has not issued yet. *)
Definition unissued (c ts : Lamport) : Prop := replica_id ts = replica_id c ∧ (value c <= value ts)%N.
Lemma unissued_ne c ts id : unissued c ts → issued c id → id ≠ ts.
Proof using. intros [Er Hv] Hi ->. specialize (Hi Er). lia. Qed.
Lemma not_undone b ts : undo_inv b → unissued (clock_of b) ts → undone (undos b) ts = false.
Proof using.
  intros Hi Hts. assert (count (undos b) ts <= 0)%N as Hc.
  { apply max_count_le. intros y Hy E _. destruct (ui_entries b Hi y Hy) as [Hiss _]. by apply (unissued_ne _ ts) in Hiss. }
  rewrite undone_count. by replace (count (undos b) ts) with 0%N by lia.
Qed.

Lemma undo_inv_edit W b edits op b' :
  undo_inv b → edit_done normal W seen b edits (op, b') → undo_inv b' ∧ undos b' = undos b ∧ unissued (clock_of b) (op_timestamp op).
Proof using.
  intros Hi (eop & Eop & _ & _ & _ & _ & _ & _ & Hed & (Hd & Hu & Hr & _) & (C1 & C2 & C3 & C4)). cbn [fst snd] in *. subst op. cbn [op_timestamp]. set (ts := eo_timestamp eop) in *.
  assert (Em : undos b' = undos b) by (by destruct Hed). assert (Hts : unissued (clock_of b) ts) by (by split; [|lia]).
  pose proof (not_undone b ts Hi Hts) as Hnu. split; [|done]. destruct Hi as [[K1 K2] Hst Hm He Hv Hids]. split.
  - split; [lia|]. intros _. lia.
  - rewrite Forall_forall in *. intros g Hg. destruct (ed_origin _ _ _ Hed g Hg) as [(-> & _)|(f & Hf & -> & _)]; [lia|by apply Hst].
  - by rewrite Em.
  - rewrite Em. intros y Hy. destruct (He y Hy) as (H1 & H2 & H3). split_and!; [eapply issued_mono; [exact C1| |exact H1]; lia|eapply issued_mono; [exact C1| |exact H2]; lia|lia].
  - rewrite Em. rewrite Forall_forall in *. intros g Hg. destruct (ed_origin _ _ _ Hed g Hg) as [(E1 & E2 & E3 & _)|(f & Hf & E1 & _ & _ & Hc)].
    + unfold visible_by. by rewrite E1, E2, E3, Hnu.
    + unfold visible_by. rewrite E1. destruct Hc as [[-> ->]|(-> & ->)]; [by apply Hv|]. rewrite forallb_app. cbn. by rewrite Hnu, !andb_false_r.
  - rewrite Hu, Hr. apply Forall_app in Hids as [Hi1 Hi2]. rewrite <-app_assoc. assert (Hmono : ∀ id, edit_stamp (clock_of b) id → edit_stamp (clock_of b') id).
    { intros id. apply edit_stamp_mono; [done|lia]. }
    apply Forall_app. split; [by eapply Forall_impl|]. constructor.
    + split; [|intros _; lia]. intros E. assert (value ts = 1)%N by (by rewrite E). destruct (decide (h_transaction_depth (b_history b) = 0)) as [E0|]; [specialize (C4 E0); lia|].
      specialize (K2 ltac:(lia)). lia.
    + destruct (_ =? 0); [constructor|by eapply Forall_impl].
Qed.

(** ** Runs of edits *)
Context (par_chunks : ∀ A : Type, nat → list A → list (list A)).
Context (sort_insertions : list insertion_edit → list insertion_edit).
Context (sort_slices : list (Edit (MapEntry InsertionSlice unit) (MapKey InsertionSlice)) →
  list (Edit (MapEntry InsertionSlice unit) (MapKey InsertionSlice))).
Context (max_insertion_len : N) (debug_assertions : bool).
Hypotheses (Hpar : chunks_spec par_chunks) (Hsi : sort_spec sort_insertions) (Hss : sort_spec sort_slices).
Hypothesis Hmax : (4 <= max_insertion_len)%N.
Abbreviation buffer_edit := (buffer_edit par_chunks sort_insertions sort_slices normal max_insertion_len debug_assertions).

(** [b'] comes from [b] by edits with the stamps [ids]; [W'] has their texts. *)
Inductive edit_run (W : Lamport → list N) (b : Buffer) : list Lamport → (Lamport → list N) → Buffer → Prop :=
| run_start : edit_run W b [] W b
| run_edit ids W1 b1 edits now later op b2 :
    edit_run W b ids W1 b1 → ready normal b1 edits → buffer_edit b1 edits now later = Ret (op, b2) →
    edit_run W b (ids ++ [op_timestamp op]) (with_text W1 (op_timestamp op) (concat (texts normal edits))) b2.

Record ran (W : Lamport → list N) (b : Buffer) (ids : list Lamport) (W' : Lamport → list N) (b' : Buffer) : Prop := {
  ra_inv : buffer_inv W' seen b'; ra_undo : undo_inv b'; ra_map : undos b' = undos b;
  ra_clock : replica_id (clock_of b') = replica_id (clock_of b) ∧ (value (clock_of b) <= value (clock_of b'))%N;
  ra_ids : Forall (unissued (clock_of b)) ids;
  ra_shown : ∀ u, (∀ e, e ∈ ids → u e = true) → shown W' u (frags b') = shown W u (frags b);
}.
Lemma run_spec W b ids W' b' : buffer_inv W seen b → undo_inv b → edit_run W b ids W' b' → ran W b ids W' b'.
Proof using Type*.
  intros Hb Hi Hrun. induction Hrun as [|ids W1 b1 edits now later op b2 Hrun [Hb1 Hi1 Em [C1 C2] Hids Hsh] Hr E].
  - split; try done.
  - pose proof (buffer_edit_spec par_chunks sort_insertions sort_slices normal max_insertion_len debug_assertions Hpar Hsi Hss Hmax W1 seen b1 edits now later Hb1 Hr)
      as (r & E' & Hdone).
    rewrite E in E'. injection E' as <-. destruct (undo_inv_edit W1 b1 edits op b2 Hi1 Hdone) as (Hi2 & Em2 & [U1 U2]).
    destruct Hdone as (eop & Eop & Hb2 & _ & _ & _ & _ & _ & Hed & _ & (K1 & K2 & K3 & _)). cbn [fst snd] in *. subst op. cbn [op_timestamp] in *.
    split; try done.
    + by rewrite Em2.
    + split; [by rewrite K1|lia].
    + apply Forall_app. split; [done|]. constructor; [|constructor]. split; [by rewrite U1|lia].
    + intros u Hu. rewrite <-Hsh by (intros e He; apply Hu, elem_of_app; by left).
      refine (shown_edited W1 _ _ (b_snapshot b1) _ u _ _ Hed _).
      * by destruct Hb1 as [[]].
      * apply issued_fresh. eapply (issued_next (clock_of b1) (eo_timestamp eop)); [done|lia|]. by destruct Hb1.
      * apply Hu, elem_of_app. right. by left.
Qed.
End Run.

(** ** Theorems *)
Section Theorems.
Context (normal : list N → list N) (seen : gmap nat (list N)).
Context (par_chunks : ∀ A : Type, nat → list A → list (list A)).
Context (sort_insertions : list insertion_edit → list insertion_edit).
Context (sort_slices : list (Edit (MapEntry InsertionSlice unit) (MapKey InsertionSlice)) →
  list (Edit (MapEntry InsertionSlice unit) (MapKey InsertionSlice))).
Context (max_insertion_len : N) (debug_assertions : bool).
Hypotheses (Hpar : chunks_spec par_chunks) (Hsi : sort_spec sort_insertions) (Hss : sort_spec sort_slices).
Hypothesis Hmax : (4 <= max_insertion_len)%N.
Context (sort_by_insertion : list InsertionSlice → list InsertionSlice) (sort_locators : list Locator → list Locator).
Context (sort_undos : list (Edit UndoMapEntry UndoMapKey) → list (Edit UndoMapEntry UndoMapKey)).
Hypotheses (Hby : sorts_slices sort_by_insertion) (Hloc : sorts_locators sort_locators) (Hsu : sort_spec sort_undos).
Abbreviation undo := (Undo.undo sort_by_insertion sort_locators sort_undos).
Abbreviation redo := (Undo.redo sort_by_insertion sort_locators sort_undos).
Abbreviation edits_of e := (t_edit_ids (he_transaction e)).
Abbreviation edit_run := (edit_run normal par_chunks sort_insertions sort_slices max_insertion_len debug_assertions).

(** C3: undoing a transaction that consists of a run of edits brings back the
    text from before the first of them, whatever the edits did to each other's
    text; the buffer's invariant holds, the transaction is on the redo stack,
    and nothing panics. *)
Theorem undo_restores_text W b ids W1 b1 k e :
  buffer_inv W seen b → undo_inv b → edit_run W b ids W1 b1 →
  h_transaction_depth (b_history b1) = 0 → h_undo_stack (b_history b1) = k ++ [e] → (∀ d, d ∈ edits_of e ↔ d ∈ ids) →
  undo_ready sort_undos b1 (edits_of e) →
  returns (undo b1) (λ '(o, b2), (∃ op, o = Some (entry_id e, op)) ∧ text b2 = text b ∧
    buffer_inv W1 seen b2 ∧ undo_inv b2 ∧
    h_undo_stack (b_history b2) = k ∧ h_redo_stack (b_history b2) = h_redo_stack (b_history b1) ++ [e]).
Proof using Type*.
  intros Hb Hi Hrun Hd Hu Hids Hr.
  destruct (run_spec normal seen par_chunks sort_insertions sort_slices max_insertion_len debug_assertions Hpar Hsi Hss Hmax W b ids W1 b1 Hb Hi Hrun)
    as [Hb1 Hi1 Em _ Hun Hsh].
  destruct (undo_spec sort_by_insertion sort_locators sort_undos Hby Hloc Hsu W1 seen b1 k e Hb1 Hi1 Hd Hu Hr) as ([o b2] & -> & Ho & Ht).
  apply returns_Ret. pose proof (toggled_text _ _ _ _ _ Ht) as Et. destruct Ht as [Hb2 Hi2 _ _ Eu Er _]. split_and!; try done.
  rewrite Et. cbn [moved_to with_history b_snapshot]. rewrite Em, Hsh, (text_shown W seen b) by first
    [done|intros d Hin; unfold toggle; rewrite bool_decide_eq_true_2 by (by apply Hids);
      rewrite Forall_forall in Hun; by rewrite (not_undone b d Hi (Hun d Hin))].
  apply shown_ext. intros f Hf. apply visible_by_ext. intros d Hdf. unfold toggle. rewrite bool_decide_eq_false_2; [done|].
  rewrite Hids. intros Hin. rewrite Forall_forall in Hun. pose proof (bi_issued _ _ _ Hb) as Hiss. rewrite Forall_forall in Hiss.
  specialize (Hiss f Hf). rewrite Forall_forall in Hiss. exact (unissued_ne _ d d (Hun d Hin) (Hiss d Hdf) eq_refl).
Qed.

(** C13: redoing a transaction that was undone brings back the text and the
    stacks from before it was undone. *)
Theorem redo_restores_text W b k e :
  buffer_inv W seen b → undo_inv b → h_transaction_depth (b_history b) = 0 → h_undo_stack (b_history b) = k ++ [e] →
  undo_ready sort_undos b (edits_of e) →
  returns (undo b) (λ '(_, b1), undo_ready sort_undos b1 (edits_of e) →
    returns (redo b1) (λ '(o, b2), (∃ op, o = Some (entry_id e, op)) ∧ buffer_inv W seen b2 ∧ undo_inv b2 ∧ text b2 = text b ∧
      h_undo_stack (b_history b2) = h_undo_stack (b_history b) ∧ h_redo_stack (b_history b2) = h_redo_stack (b_history b))).
Proof using Hby Hloc Hsu.
  intros Hb Hi Hd Hu Hr.
  destruct (undo_spec sort_by_insertion sort_locators sort_undos Hby Hloc Hsu W seen b k e Hb Hi Hd Hu Hr) as ([o b1] & -> & _ & Ht).
  apply returns_Ret. intros Hr1. by eapply redo_undone.
Qed.

(** C15: the fragments that edits inserted or deleted are found through the
    index of insertions and the insertion slices, in the order of the text and
    each one once, as if every fragment were looked at. *)
Theorem fragment_ids_exact W s ids :
  buffer_ok W s → shallow s → Forall (λ f, f_timestamp f ≠ Lamport_MIN) (tree_items (s_fragments s)) → base_timestamp ∉ ids →
  fragment_ids_for_edits sort_by_insertion sort_locators s ids
  = Ret (f_id <$> List.filter (λ f, existsb (λ d, touched d f) ids) (tree_items (s_fragments s))).
Proof using Hby Hloc.
  clear Hmax. intros [] [] Hst Hb. by apply (fragment_ids_spec sort_by_insertion sort_locators Hby Hloc W s).
Qed.

(** C14: an undo operation, whatever counts it has, keeps the invariant of
    snapshots; every fragment its edits touched is visible if and only if its
    insertion is not undone and all its deletions are, by the counts of the
    new undo map; the patch it publishes rewrites the old text to the new. *)
Theorem apply_undo_refines W s op :
  undoable sort_undos W s op →
  returns (undo_snapshot sort_by_insertion sort_locators sort_undos s op) (λ '(patch, s'),
    buffer_ok W s' ∧ undid sort_undos op s s' ∧
    rewrites 0 0 (rope_text (s_visible_text s)) patch (rope_text (s_visible_text s')) ∧ separated patch).
Proof using Hby Hloc Hsu. by apply undo_snapshot_spec. Qed.
End Theorems.

(** ** Sorts *)
Record SliceKey := MkSliceKey { sk_key : InsertionFragmentKey; sk_end : nat }.
#[local] Instance SliceKey_ord : Ord SliceKey := λ a b, then_with (cmp (sk_key a) (sk_key b)) (cmp (sk_end b) (sk_end a)).
Lemma slice_key_cmp a x b y : cmp (MkSliceKey a x) (MkSliceKey b y) = then_with (cmp a b) (cmp y x).
Proof. done. Qed.
#[local] Instance SliceKey_ord_laws : OrdLaws SliceKey.
Proof.
  split.
  - intros [a x] [b y]. rewrite slice_key_cmp. destruct (cmp a b) eqn:E; cbn [then_with]; [|split; [done|intros [= -> ->]; by rewrite cmp_refl in E]..].
    apply cmp_eq in E as ->. rewrite cmp_eq. split; [by intros ->|by intros [= ->]].
  - intros [a x] [b y]. rewrite !slice_key_cmp, (cmp_antisym a b), (cmp_antisym y x). by destruct (cmp a b).
  - intros [a x] [b y] [c z]. rewrite !slice_key_cmp. destruct (cmp a b) eqn:E1; cbn [then_with]; [apply cmp_eq in E1 as ->| |done].
    + destruct (cmp b c) eqn:E2; cbn [then_with]; [|done|done]. intros H1 H2. exact (cmp_lt_trans z y x H2 H1).
    + intros _. destruct (cmp b c) eqn:E2; cbn [then_with]; [apply cmp_eq in E2 as ->; by rewrite E1|by rewrite (cmp_lt_trans a b c E1 E2)|done].
Qed.
Definition slice_key (sl : InsertionSlice) : SliceKey := MkSliceKey (ikey sl) (sl_end sl).
Lemma slice_key_order a b : cmp (slice_key a) (slice_key b) = slice_order a b.
Proof.
  unfold slice_order, slice_key, ikey. unfold cmp at 1, SliceKey_ord. cbn. unfold cmp at 1, InsertionFragmentKey_ord. cbn.
  by destruct (cmp (sl_insertion_id a) (sl_insertion_id b)).
Qed.
Lemma slices_sorted : sorts_slices (insertion_sort slice_key).
Proof.
  intros l. split; [apply insertion_sort_perm|]. pose proof (insertion_sort_sorted slice_key l) as Hs.
  induction Hs as [|a k Hk IH Ha]; constructor; [done|]. eapply Forall_impl; [exact Ha|]. intros c. cbn beta. by rewrite slice_key_order.
Qed.
Lemma locators_sorted : sorts_locators (insertion_sort id).
Proof. intros l. split; [apply insertion_sort_perm|apply (insertion_sort_sorted (A := Locator) id)]. Qed.

(** ** A buffer that is edited, undone and redone *)
Definition sample_undo := Undo.undo (insertion_sort slice_key) (insertion_sort id) (insertion_sort edit_key).
Definition sample_redo := Undo.redo (insertion_sort slice_key) (insertion_sort id) (insertion_sort edit_key).
Definition sample_result : outcome (BufferOperation * Buffer) :=
  buffer_edit Integers.chunks (insertion_sort edit_key) (insertion_sort edit_key) id 16 true sample_buffer sample_edits 5 7.
Definition edited_buffer : Buffer := match sample_result with Ret (_, b) => b | _ => empty_buffer end.
Definition edited_op : BufferOperation := match sample_result with Ret (op, _) => op | _ => OpEdit (MkEditOperation Lamport_MIN Global_new [] []) end.
Definition undone_buffer : Buffer := match sample_undo edited_buffer with Ret (_, b) => b | _ => empty_buffer end.
Definition sample_entry : HistoryEntry :=
  match last (h_undo_stack (b_history edited_buffer)) with Some e => e | None => MkHistoryEntry (MkTransaction Lamport_MIN [] Global_new) 0 0 false end.

Lemma sample_inv : buffer_inv (base_text_of sample_rope) ∅ sample_buffer.
Proof.
  destruct sample_rope_ok as [Hr _].
  destruct (new_buffer_inv sample_rope 16 LOCAL 1 Unix 300 Hr sample_rope_height ltac:(lia)) as (b & E & Hinv & _). unfold sample_buffer. by rewrite E.
Qed.
Lemma sample_undo_inv : undo_inv sample_buffer.
Proof.
  destruct sample_buffer_ok as (_ & _ & Hf). split.
  - split; [vm_compute; done|]. intros H. exfalso. revert H. vm_compute. lia.
  - eapply Forall_impl; [exact Hf|]. by intros f (-> & _).
  - split; [by left|]. split; constructor.
  - by intros x ?%not_elem_of_nil.
  - eapply Forall_impl; [exact Hf|]. intros f (_ & -> & E & _). unfold visible_by. rewrite E. vm_compute (undone _ _). done.
  - vm_compute. constructor.
Qed.
Lemma sample_ready : ready id sample_buffer sample_edits.
Proof.
  destruct sample_buffer_ok as (_ & Ev & _). split; [apply sample_shallow|vm_compute; lia|rewrite Ev; apply sample_edits_ok| | |].
  - rewrite Ev. vm_compute. done.
  - vm_compute. done.
  - vm_compute. done.
Qed.
Definition sample_texts : Lamport → list N := with_text (base_text_of sample_rope) (op_timestamp edited_op) (concat (texts id sample_edits)).
Lemma sample_edited : sample_result = Ret (edited_op, edited_buffer) ∧
  edit_done id (base_text_of sample_rope) ∅ sample_buffer sample_edits (edited_op, edited_buffer).
Proof.
  destruct (buffer_edit_spec Integers.chunks (insertion_sort edit_key) (insertion_sort edit_key) id 16 true chunks_ok insertion_sort_spec
    insertion_sort_spec ltac:(lia) (base_text_of sample_rope) ∅ sample_buffer sample_edits 5 7 sample_inv sample_ready) as ([op b] & E & Hd).
  change (sample_result = Ret (op, b)) in E. unfold edited_op, edited_buffer. rewrite E. split; [reflexivity|exact Hd].
Qed.
Lemma edited_inv : buffer_inv sample_texts ∅ edited_buffer ∧ undo_inv edited_buffer.
Proof.
  destruct sample_edited as [_ Hd]. split; [|by eapply undo_inv_edit; [apply sample_undo_inv|]].
  destruct Hd as (eop & E & Hb & _). cbn [fst snd] in *. unfold sample_texts. by rewrite E.
Qed.
Lemma sample_run : edit_run id Integers.chunks (insertion_sort edit_key) (insertion_sort edit_key) 16 true
  (base_text_of sample_rope) sample_buffer [op_timestamp edited_op] sample_texts edited_buffer.
Proof.
  apply (run_edit id Integers.chunks (insertion_sort edit_key) (insertion_sort edit_key) 16 true (base_text_of sample_rope) sample_buffer [] (base_text_of sample_rope) sample_buffer sample_edits 5 7 edited_op edited_buffer);
    [constructor|apply sample_ready|exact (proj1 sample_edited)].
Qed.
(** The ropes of the sample have one chunk each. *)
Lemma sample_undo_ready b W ids :
  buffer_inv W ∅ b → length (tree_items (chunks (s_visible_text (b_snapshot b)))) ≤ 1 → length (tree_items (chunks (s_deleted_text (b_snapshot b)))) ≤ 1 →
  Forall (λ n, n < STACK_CAP) [height (chunks (s_visible_text (b_snapshot b))); height (chunks (s_deleted_text (b_snapshot b)));
    height (s_fragments (b_snapshot b)); height (s_insertions (b_snapshot b)); height (s_insertion_slices (b_snapshot b));
    height (undos b); height (h_operations (b_history b))] →
  (N.of_nat (length (text b) + length (rope_text (s_deleted_text (b_snapshot b)))) <= U32_MAX)%N → (value (clock_of b) < U32_MAX)%N →
  (∀ counts m, undo_counts_for (undos b) [] ids = Ret counts →
    undo_insert (insertion_sort edit_key) (undos b) (MkUndoOperation (clock_of b) (b_version b) counts) = Ret m → height m < STACK_CAP) →
  undo_ready (insertion_sort edit_key) b ids.
Proof.
  intros [[]] Lv Ld Hh Ht Hc Ha. rewrite !Forall_cons in Hh. destruct Hh as (? & ? & ? & ? & ? & ? & ? & _). split; try done.
  split; try done; by apply one_chunk_shallow.
Qed.
Lemma edited_ready : undo_ready (insertion_sort edit_key) edited_buffer (t_edit_ids (he_transaction sample_entry)).
Proof.
  apply (sample_undo_ready _ sample_texts); [apply edited_inv|vm_compute; lia|vm_compute; lia|vm_compute; repeat constructor|by vm_compute|by vm_compute|].
  intros counts m Hc Hm. vm_compute in Hc. injection Hc as <-. vm_compute in Hm. injection Hm as <-. vm_compute. lia.
Qed.

Lemma undo_restores_text_witness :
  returns (sample_undo edited_buffer) (λ '(_, b), text b = sample_base ∧ h_undo_stack (b_history b) = []).
Proof.
  destruct (undo_restores_text id ∅ Integers.chunks (insertion_sort edit_key) (insertion_sort edit_key) 16 true chunks_ok insertion_sort_spec
    insertion_sort_spec ltac:(lia) (insertion_sort slice_key) (insertion_sort id) (insertion_sort edit_key) slices_sorted locators_sorted
    insertion_sort_spec _ sample_buffer _ _ edited_buffer [] sample_entry sample_inv sample_undo_inv sample_run) as ([o b] & E & _ & Et & _ & _ & Eu & _).
  - by vm_compute.
  - by vm_compute.
  - intros d. vm_compute (t_edit_ids _). vm_compute (op_timestamp _). done.
  - apply edited_ready.
  - exists (o, b). split; [exact E|]. split; [|exact Eu]. rewrite Et. destruct sample_buffer_ok as (_ & -> & _). by destruct sample_rope_ok as [_ ->].
Defined.
Lemma redo_restores_text_witness :
  returns (sample_undo edited_buffer) (λ '(_, b1), returns (sample_redo b1) (λ '(_, b2), text b2 = [104; 10; 97; 98]%N)).
Proof.
  destruct edited_inv as [Hb Hi]. assert (Hd : h_transaction_depth (b_history edited_buffer) = 0) by (by vm_compute).
  assert (Hu : h_undo_stack (b_history edited_buffer) = [] ++ [sample_entry]) by (by vm_compute).
  destruct (redo_restores_text ∅ (insertion_sort slice_key) (insertion_sort id) (insertion_sort edit_key) slices_sorted locators_sorted insertion_sort_spec
    sample_texts edited_buffer [] sample_entry Hb Hi Hd Hu edited_ready) as ([o b1] & E & Hredo).
  destruct (undo_spec (insertion_sort slice_key) (insertion_sort id) (insertion_sort edit_key) slices_sorted locators_sorted insertion_sort_spec
    sample_texts ∅ edited_buffer [] sample_entry Hb Hi Hd Hu edited_ready) as ([o' b1'] & E' & _ & [Hb1 _ _ _ _ _ _]).
  rewrite E in E'. injection E' as <- <-. exists (o, b1). split; [exact E|].
  assert (E1 : b1 = undone_buffer) by (unfold undone_buffer, sample_undo; by rewrite E).
  destruct Hredo as ([o2 b2] & E2 & _ & _ & _ & Et & _).
  - rewrite E1 in Hb1 |- *. apply (sample_undo_ready _ sample_texts); [done|vm_compute; lia|vm_compute; lia|vm_compute; repeat constructor|by vm_compute|by vm_compute|].
    intros counts m Hc Hm. vm_compute in Hc. injection Hc as <-. vm_compute in Hm. injection Hm as <-. vm_compute. lia.
  - exists (o2, b2). split; [exact E2|]. rewrite Et. by vm_compute.
Defined.
Lemma fragment_ids_exact_witness :
  ∃ ids, fragment_ids_for_edits (insertion_sort slice_key) (insertion_sort id) (b_snapshot edited_buffer) [op_timestamp edited_op] = Ret ids ∧ length ids = 3.
Proof.
  eexists. split.
  - apply (fragment_ids_exact (insertion_sort slice_key) (insertion_sort id) slices_sorted locators_sorted sample_texts).
    + apply edited_inv.
    + apply edited_ready.
    + destruct edited_inv as [_ [_ Hst _ _ _ _]]. eapply Forall_impl; [exact Hst|]. cbn beta. intros f Hf E. rewrite E in Hf. cbn in Hf. lia.
    + vm_compute (op_timestamp _). intros H%list_elem_of_singleton. by vm_compute in H.
  - by vm_compute.
Defined.
Lemma inv_undoable W b ids version counts :
  buffer_inv W ∅ b → undo_inv b → undo_ready (insertion_sort edit_key) b ids → NoDup counts.*1 → base_timestamp ∉ counts.*1 →
  (∀ m, undo_insert (insertion_sort edit_key) (undos b) (MkUndoOperation (clock_of b) version counts) = Ret m → height m < STACK_CAP) →
  undoable (insertion_sort edit_key) W (b_snapshot b) (MkUndoOperation (clock_of b) version counts).
Proof.
  intros [Hok Hiss _ _ _] [_ Hst Hm _ _ _] [Hsh Hmh _ Htot _ _] Hn Hb Ha. split; try done; [by apply issued_fresh|].
  eapply Forall_impl; [exact Hst|]. cbn beta. intros f Hf E. rewrite E in Hf. cbn in Hf. lia.
Qed.
Lemma apply_undo_refines_witness :
  returns (undo_snapshot (insertion_sort slice_key) (insertion_sort id) (insertion_sort edit_key) (b_snapshot edited_buffer)
    (MkUndoOperation (clock_of edited_buffer) Global_new [(op_timestamp edited_op, 1%N)])) (λ '(patch, s'),
    rewrites 0 0 (text edited_buffer) patch (rope_text (s_visible_text s'))).
Proof.
  destruct edited_inv as [Hb Hi].
  destruct (apply_undo_refines (insertion_sort slice_key) (insertion_sort id) (insertion_sort edit_key) slices_sorted locators_sorted insertion_sort_spec
    sample_texts (b_snapshot edited_buffer) (MkUndoOperation (clock_of edited_buffer) Global_new [(op_timestamp edited_op, 1%N)])) as ([patch s'] & E & _ & _ & Hr & _).
  - apply (inv_undoable sample_texts edited_buffer _ _ _ Hb Hi edited_ready).
    + apply NoDup_singleton.
    + cbn [fmap list_fmap fst]. vm_compute (op_timestamp _). intros H%list_elem_of_singleton. by vm_compute in H.
    + intros m Hmm. vm_compute in Hmm. injection Hmm as <-. vm_compute. lia.
  - exists (patch, s'). split; [exact E|exact Hr].
Defined.
