(* ===== verification/AnchorSpec.v ===== *)
(** * Anchors: where they are

    The cells of a document, visible or not, are in one order that no edit
    changes.  An anchor names a gap in it, beside a cell; it resolves to the
    amount of visible text before the gap, and anchors compare as their gaps
    do. *)
From stdpp Require Import base numbers option list sorting sets gmap.
From Stdlib Require Import Lia.
From S2P Require Import Prelude Clock SumTree SumTreeFacts SumTreeBulk Cursor CursorFacts CursorSeek CursorMove.
From S2P Require Import CursorIter Keyed KeyedFacts TreeMap TreeMapFacts Integers Locator UndoMap OperationQueue Patch PatchFacts.
From S2P Require Import PatchCompose Subscription Selection Point Utf8 TextSummary ChunkPointsFacts RopeTree Rope RopeBuild.
From S2P Require Import RopeSlice RopePoints RopeConvert RopeChunks Fragment Snapshot History HistorySpec Buffer Undo Anchor.
From S2P Require Import Document Walk LocalEdit BufferOk BufferEdit BufferLocal BufferSpec UndoWalk UndoBuffer.
From S2P Require Import UndoSpec.
#[local] Opaque TREE_BASE av_cap.
#[local] Existing Instances ord_seek_target unit_dimension.

(** ** Gaps *)
(** [i], and the gap beside it. *)
Definition beside (bias : Bias) (i : nat) : nat := match bias with Left => S i | Right => i end.
Definition marks (l : list Fragment) : list bool := concat ((λ f, replicate (f_len f) (f_visible f)) <$> l).
(** The visible bytes before the gap [n]. *)
Definition shown_before (l : list Fragment) (n : nat) : nat := length (List.filter id (take n (marks l))).

Lemma marks_app l k : marks (l ++ k) = marks l ++ marks k.
Proof. unfold marks. by rewrite fmap_app, concat_app. Qed.
Lemma marks_cons f l : marks (f :: l) = replicate (f_len f) (f_visible f) ++ marks l.
Proof. done. Qed.
Lemma cells_length l : length (cells l) = visible_len l + deleted_len l.
Proof.
  induction l as [|f l IH]; [done|]. rewrite cells_cons, length_app, fragment_cells_length, IH. unfold visible_len, deleted_len.
  csimpl. destruct (f_visible f); lia.
Qed.
Lemma marks_length l : length (marks l) = length (cells l).
Proof. induction l as [|f l IH]; [done|]. by rewrite marks_cons, cells_cons, !length_app, IH, length_replicate, fragment_cells_length. Qed.
Lemma filter_replicate n b : length (List.filter id (replicate n b)) = if b then n else 0.
Proof. induction n as [|n IH]; [by destruct b|]. cbn. destruct b; cbn in *; lia. Qed.
Lemma marks_shown l : length (List.filter id (marks l)) = visible_len l.
Proof.
  induction l as [|f l IH]; [done|]. rewrite marks_cons, List.filter_app, length_app, IH, filter_replicate. unfold visible_len. csimpl. done.
Qed.
Lemma shown_before_all l n : length (cells l) ≤ n → shown_before l n = visible_len l.
Proof. intros Hn. unfold shown_before. rewrite take_ge by (by rewrite marks_length). apply marks_shown. Qed.
Lemma shown_before_in p f l k : k ≤ f_len f →
  shown_before (p ++ f :: l) (length (cells p) + k) = visible_len p + if f_visible f then k else 0.
Proof.
  intros Hk. unfold shown_before. rewrite marks_app, marks_cons, <-marks_length, take_app_add, List.filter_app, length_app, marks_shown. f_equal.
  rewrite take_app_le, take_replicate, filter_replicate by (by rewrite length_replicate). by rewrite Nat.min_l.
Qed.
Lemma shown_before_mono l m n : m ≤ n → shown_before l m ≤ shown_before l n.
Proof.
  intros H. unfold shown_before. replace n with (m + (n - m)) by lia. rewrite <-(take_take_drop _ m), List.filter_app, length_app. lia.
Qed.

(** The cell [c] is at [n], [k] visible bytes before it, and is visible if [v]. *)
Definition cell_at (l : list Fragment) (c : Lamport * nat) (n k : nat) (v : bool) : Prop :=
  cells l !! n = Some c ∧ marks l !! n = Some v ∧ shown_before l n = k.
Lemma cell_at_l l r c n k v : cell_at l c n k v → cell_at (l ++ r) c n k v.
Proof.
  intros (Hc & Hm & Hk). apply lookup_lt_Some in Hm as Hlt. unfold cell_at, shown_before in *.
  rewrite cells_app, marks_app, !lookup_app_l, take_app_le by (rewrite <-?marks_length; lia). done.
Qed.
Lemma cell_at_r l r c n k v : cell_at r c n k v → cell_at (l ++ r) c (length (cells l) + n) (visible_len l + k) v.
Proof.
  intros (Hc & Hm & Hk). unfold cell_at, shown_before in *.
  rewrite cells_app, marks_app, lookup_app_r, Nat.add_comm, Nat.add_sub, lookup_app_r, marks_length, Nat.add_sub by (rewrite ?marks_length; lia).
  rewrite Nat.add_comm, <-marks_length, take_app_add, List.filter_app, length_app, marks_shown, Hk. done.
Qed.
Lemma cell_at_fragment f k : k < f_len f → cell_at [f] (f_timestamp f, f_insertion_offset f + k) k (if f_visible f then k else 0) (f_visible f).
Proof.
  intros Hk. unfold cell_at, shown_before, cells, marks. cbn [fmap list_fmap concat]. rewrite !app_nil_r. split_and!.
  - unfold fragment_cells. by rewrite list_lookup_fmap, lookup_seq_lt.
  - by apply lookup_replicate_2.
  - by rewrite take_replicate, filter_replicate, Nat.min_l by lia.
Qed.
(** Visible cells by their index, and hidden ones. *)
Lemma visible_cell_at l j c : vcells l !! j = Some c → ∃ n, cell_at l c n j true.
Proof.
  revert j. induction l as [|f l IH]; intros j; [done|]. rewrite vcells_cons. change (f :: l) with ([f] ++ l). destruct (f_visible f) eqn:Hv; cbn.
  - intros [Hc|[Hge Hc]]%lookup_app_Some.
    + unfold fragment_cells in Hc. apply list_lookup_fmap_Some in Hc as (i & -> & [-> Hj]%lookup_seq). exists j. apply (cell_at_l [f] l).
      pose proof (cell_at_fragment f j Hj) as H. by rewrite Hv in H.
    + rewrite fragment_cells_length in *. destruct (IH _ Hc) as (n & Hn). eexists. apply (cell_at_r [f]) in Hn.
      unfold visible_len in Hn. cbn in Hn. rewrite Hv in Hn. by replace (f_len f + 0 + (j - f_len f)) with j in Hn by lia.
  - intros (n & Hn)%IH. eexists. apply (cell_at_r [f]) in Hn. unfold visible_len in Hn. cbn in Hn. by rewrite Hv in Hn.
Qed.
Lemma hidden_cell_at l c : vcells l = [] → c ∈ cells l → ∃ n, cell_at l c n 0 false.
Proof.
  induction l as [|f l IH]; [by intros _ ?%not_elem_of_nil|]. rewrite vcells_cons, cells_cons. change (f :: l) with ([f] ++ l). intros [Hf Hl]%app_nil.
  assert (Hvis : f_visible f = true → f_len f = 0). { intros Hv. rewrite Hv in Hf. apply (f_equal length) in Hf. by rewrite fragment_cells_length in Hf. }
  intros [Hc|(n & Hn)%IH]%elem_of_app; [| |done].
  - unfold fragment_cells in Hc. apply list_elem_of_fmap in Hc as (i & -> & Hi%elem_of_seq). destruct (f_visible f) eqn:Hv; [specialize (Hvis eq_refl); lia|].
    exists (i - f_insertion_offset f). apply (cell_at_l [f] l). pose proof (cell_at_fragment f (i - f_insertion_offset f) ltac:(lia)) as H. rewrite Hv in H.
    by replace (f_insertion_offset f + (i - f_insertion_offset f)) with i in H by lia.
  - eexists. apply (cell_at_r [f]) in Hn. unfold visible_len in Hn. cbn in Hn. destruct (f_visible f); [rewrite Hvis in Hn by done|]; done.
Qed.
Lemma cell_at_beside l c n k v bias : cell_at l c n k v → shown_before l (beside bias n) = if v then beside bias k else k.
Proof.
  intros (_ & Hm & <-). destruct bias; cbn [beside]; [|by destruct v]. unfold shown_before. erewrite take_S_r by done.
  rewrite List.filter_app, length_app. destruct v; cbn; lia.
Qed.

(** The gap beside a cell of a fragment. *)
Lemma cells_lookup p f l k : k < f_len f →
  cells (p ++ f :: l) !! (length (cells p) + k) = Some (f_timestamp f, f_insertion_offset f + k).
Proof.
  intros Hk. rewrite cells_app, lookup_app_r, Nat.add_comm, Nat.add_sub by lia. rewrite cells_cons, lookup_app_l by (by rewrite fragment_cells_length).
  unfold fragment_cells. by rewrite list_lookup_fmap, lookup_seq_lt.
Qed.
Lemma cells_lookup_Some F n c : cells F !! n = Some c →
  ∃ p f l k, F = p ++ f :: l ∧ n = length (cells p) + k ∧ k < f_len f ∧ c = (f_timestamp f, f_insertion_offset f + k).
Proof.
  revert n. induction F as [|f F IH]; intros n; [done|]. rewrite cells_cons. destruct (Nat.lt_ge_cases n (f_len f)) as [Hlt|Hge].
  - intros Hc. exists [], f, F, n. split_and!; [done|done|done|]. rewrite lookup_app_l in Hc by (by rewrite fragment_cells_length).
    unfold fragment_cells in Hc. rewrite list_lookup_fmap, lookup_seq_lt in Hc by done. by injection Hc.
  - rewrite lookup_app_r by (by rewrite fragment_cells_length). rewrite fragment_cells_length. intros (p & g & l & k & -> & En & Hk & ->)%IH.
    exists (f :: p), g, l, k. split_and!; [done| |done|done]. rewrite cells_cons, length_app, fragment_cells_length. lia.
Qed.

(** ** Anchors beside cells *)
Definition cell_anchor (ts : Lamport) (i : nat) (bias : Bias) (buffer_id : N) : Anchor :=
  anchor_new ts (N.of_nat (beside bias i)) bias buffer_id.
(** [a] names the gap [n] among the cells of [F]. *)
Inductive names (F : list Fragment) : Anchor → nat → Prop :=
| names_min buffer_id : names F (min_for_buffer buffer_id) 0
| names_max buffer_id : names F (max_for_buffer buffer_id) (length (cells F))
| names_cell bias ts i n buffer_id : cells F !! n = Some (ts, i) → names F (cell_anchor ts i bias buffer_id) (beside bias n).

Lemma beside_add bias a b : beside bias (a + b) = a + beside bias b.
Proof. destruct bias; cbn; lia. Qed.
Lemma beside_le bias a : beside bias a ≤ S a.
Proof. destruct bias; cbn; lia. Qed.
Lemma cell_timestamp ts i bias buffer_id : anchor_timestamp (cell_anchor ts i bias buffer_id) = ts.
Proof. by destruct ts. Qed.
Lemma cell_offset ts i bias buffer_id : N.to_nat (an_offset (cell_anchor ts i bias buffer_id)) = beside bias i.
Proof. apply Nat2N.id. Qed.
Lemma cell_not_min ts i bias buffer_id : anchor_is_min (cell_anchor ts i bias buffer_id) = false.
Proof.
  unfold anchor_is_min. destruct bias; cbn [cell_anchor anchor_new an_bias an_offset is_left beside]; [|by rewrite andb_false_r].
  replace (N.of_nat (S i) =? 0)%N with false by (symmetry; apply N.eqb_neq; lia). by rewrite andb_false_r.
Qed.
Lemma cell_not_max ts i bias buffer_id : (N.of_nat i < U32_MAX)%N → anchor_is_max (cell_anchor ts i bias buffer_id) = false.
Proof.
  intros Hi. unfold anchor_is_max. destruct bias; cbn [cell_anchor anchor_new an_bias an_offset is_left beside negb]; [by rewrite andb_false_r|].
  replace (N.of_nat i =? U32_MAX)%N with false by (symmetry; apply N.eqb_neq; lia). by rewrite andb_false_r.
Qed.

Lemma sorted_last {A} (R : A → A → Prop) l x y : StronglySorted R l → x ∈ l → last l = Some y → x = y ∨ R x y.
Proof.
  intros Hl Hx Hy. destruct (nil_or_snoc l) as [->|(k & z & ->)]; [done|]. rewrite last_snoc in Hy. injection Hy as ->.
  apply elem_of_app in Hx as [Hx|Hx%list_elem_of_singleton]; [right|by left].
  induction k as [|w k IH]; [by apply not_elem_of_nil in Hx|]. cbn in Hl. apply StronglySorted_inv in Hl as [Hl Hw].
  apply elem_of_cons in Hx as [->|Hx]; [|by apply IH].
  rewrite Forall_forall in Hw. apply Hw, elem_of_app. right. by left.

Qed.

Section Resolve.
Context (debug : bool) (W : Lamport → list N) (s : BufferSnapshot) (Hok : buffer_ok W s).
Abbreviation F := (tree_items (s_fragments s)).
Abbreviation I := (tree_items (s_insertions s)).

Lemma resolve_doc : doc_ok W F.
Proof. by destruct Hok. Qed.
Lemma resolve_frag f : f ∈ F → frag_ok W f.
Proof. intros Hf. destruct resolve_doc as [H _ _]. rewrite Forall_forall in H. by apply H. Qed.
Lemma cell_bound f i : f ∈ F → (f_timestamp f, i) ∈ fragment_cells f → (N.of_nat i < U32_MAX)%N.
Proof. intros Hf [_ Hi]%elem_of_fragment_cells. destruct (resolve_frag f Hf) as (_ & Hl & Hs & _). unfold small in Hs. lia. Qed.

(** The entries that the search passes are those up to the cell. *)
Definition up_to (ts : Lamport) (i : nat) (x : InsertionFragment) : Prop :=
  olt (if_timestamp x) ts ∨ (if_timestamp x = ts ∧ if_split_offset x ≤ i).
Lemma past_cell ts i bias buffer_id x :
  target_past (D := InsertionFragmentKey) (anchor_key (cell_anchor ts i bias buffer_id)) bias (key x) = true ↔ up_to ts i x.
Proof.
  unfold target_past, anchor_key, seek_cmp, ord_seek_target, up_to. rewrite cell_timestamp, cell_offset.
  change (key x) with (MkInsertionKey (if_timestamp x) (if_split_offset x)).
  transitivity (match bias with Left => olt (MkInsertionKey (if_timestamp x) (if_split_offset x)) (MkInsertionKey ts (S i))
    | Right => ¬ olt (MkInsertionKey ts i) (MkInsertionKey (if_timestamp x) (if_split_offset x)) end).
  - rewrite (cmp_antisym (MkInsertionKey (if_timestamp x) (if_split_offset x))). unfold olt.
    destruct bias; [destruct (cmp _ _); cbn; split; congruence|].
    rewrite (cmp_antisym (MkInsertionKey (if_timestamp x) (if_split_offset x))). destruct (cmp _ _); cbn; split; congruence.
  - destruct bias; rewrite olt_key; [split; intros [?|[? ?]]; (by left) || (right; split; [done|lia])|].
    split.
    + intros Hn. destruct (olt_trichotomy (if_timestamp x) ts) as [?|[E|?]]; [by left|right; split; [done|]|tauto].
      apply Nat.nlt_ge. intros Hlt. apply Hn. right. by rewrite E.
    + intros [Hlt|[E Hle]] [Hgt|[E' Hgt]].
      * exact (olt_irrefl _ (olt_trans _ _ _ Hlt Hgt)).
      * rewrite E' in Hlt. exact (olt_irrefl _ Hlt).
      * rewrite E in Hgt. exact (olt_irrefl _ Hgt).
      * lia.
Qed.

(** The last of them is the entry of the fragment with the cell. *)
Lemma last_up_to (past : InsertionFragment → bool) f i :
  (∀ x, past x = true ↔ up_to (f_timestamp f) i x) → f ∈ F → (f_timestamp f, i) ∈ fragment_cells f →
  last (List.filter past I) = Some (insertion_new f).
Proof.
  intros Hp Hf Hc. pose proof (bo_index _ _ Hok) as [[_ [Hs _]] Hin]. apply elem_of_fragment_cells in Hc as Hi. destruct Hi as [_ Hi].
  assert (Hx : insertion_new f ∈ List.filter past I).
  { apply list_elem_of_In, List.filter_In. split; [apply list_elem_of_In, Hin; by apply list_elem_of_fmap_2|].
    apply Hp. right. cbn. split; [done|lia]. }
  assert (Hsort : sorted_keys (List.filter past I)) by (by apply sorted_filter).
  destruct (last (List.filter past I)) as [y|] eqn:Ey; [|apply last_None in Ey; rewrite Ey in Hx; by apply not_elem_of_nil in Hx].
  destruct (sorted_last _ _ _ _ Hsort Hx Ey) as [->|Hlt]; [done|].
  apply last_Some_elem_of in Ey. apply list_elem_of_In, List.filter_In in Ey as [Hy Hpy]. apply list_elem_of_In, Hin, list_elem_of_fmap in Hy as (g & -> & Hg).
  apply Hp in Hpy. assert (Hlt' : olt (MkInsertionKey (f_timestamp f) (f_insertion_offset f)) (MkInsertionKey (f_timestamp g) (f_insertion_offset g))) by exact Hlt.
  apply olt_key in Hlt'. unfold up_to in Hpy. cbn in Hpy.
  assert (f_timestamp g = f_timestamp f ∧ f_insertion_offset f < f_insertion_offset g ≤ i) as [Et Hgo].
  { destruct Hlt' as [Hlt'|[E ?]], Hpy as [Hpy|[E' ?]]; try (rewrite E in Hpy); try (rewrite E' in Hlt').
    - destruct (olt_irrefl _ (olt_trans _ _ _ Hlt' Hpy)).
    - destruct (olt_irrefl _ Hlt').
    - destruct (olt_irrefl _ Hpy).
    - split; [done|lia]. }
  destruct (resolve_frag g Hg) as (Hpos & _).
  assert (g = f) as ->; [|lia]. eapply (same_cell F); [by eapply doc_nodup, resolve_doc|done|done|eapply fragment_key_cell; by apply resolve_frag|].
  apply elem_of_fragment_cells. split; [done|lia].
Qed.

Lemma try_find_fragment_spec f i bias buffer_id :
  f ∈ F → (f_timestamp f, i) ∈ fragment_cells f →
  try_find_fragment s (cell_anchor (f_timestamp f) i bias buffer_id) = Ret (Some (insertion_new f)).
Proof.
  intros Hf Hc. pose proof (bo_index _ _ Hok) as [Hk _]. pose proof Hk as [Hwf Hkl]. set (a := cell_anchor _ _ _ _).
  pose proof (λ x, past_cell (f_timestamp f) i bias buffer_id x) as Hpast. fold a in Hpast.
  assert (Hmono : ∀ x y : InsertionFragment, key_lt x y → target_past (D := InsertionFragmentKey) (anchor_key a) bias (key y) = true → target_past (D := InsertionFragmentKey) (anchor_key a) bias (key x) = true).
  { intros x y Hxy. rewrite !Hpast. assert (Hlt : olt (MkInsertionKey (if_timestamp x) (if_split_offset x)) (MkInsertionKey (if_timestamp y) (if_split_offset y))) by exact Hxy.
    apply olt_key in Hlt. unfold up_to. destruct Hlt as [?|[-> ?]].
    - intros [?|[E _]]; left; [by eapply olt_trans|by rewrite <-E].
    - intros [?|[? ?]]; [by left|right; split; [done|lia]]. }
  unfold try_find_fragment. change (an_bias a) with bias.
  pose proof (find_with_prev_wf (anchor_key a) bias I (keyed_monotone (anchor_key a) _ Hkl) (keyed_list_valid _ Hkl) _ Hwf eq_refl) as E.
  unfold key_target in E. rewrite E. clear E.
  rewrite advance_filter by done. cbn [app].
  pose proof (last_up_to (λ x, target_past (D := InsertionFragmentKey) (anchor_key a) bias (key x)) f i Hpast Hf Hc) as Hl.
  destruct (List.filter (λ x, negb _) I) as [|x r] eqn:Er; cbn [head option_map].
  - rewrite last_item_wf by done. rewrite <-Hl. do 2 f_equal. clear -Er. induction (tree_items (s_insertions s)) as [|y l IH]; [done|].
    cbn in *. destruct (target_past _ _ _); cbn in *; [f_equal; by apply IH|done].
  - rewrite Hl. assert (Hx : target_past (D := InsertionFragmentKey) (anchor_key a) bias (key x) = false).
    { assert (x ∈ List.filter (λ x, negb (target_past (D := InsertionFragmentKey) (anchor_key a) bias (key x))) I) as Hx by (rewrite Er; by left).
      by apply list_elem_of_In, List.filter_In in Hx as [_ ?%negb_true_iff]. }
    unfold target_past, seek_cmp, ord_seek_target in Hx. rewrite (cmp_antisym (key x)) in Hx.
    destruct (cmp (key x) (anchor_key a)), bias; cbn in Hx |- *; done.
Qed.

(** ** Finding the fragment by its locator *)
Lemma find_by_id p f l : F = p ++ f :: l →
  ∃ start end_, find (D := id_position) (s_fragments s) (Some (f_id f)) Left = (start, end_, Some f) ∧ start.1.2 = visible_len p.
Proof.
  intros E. pose proof (doc_ids W F resolve_doc) as Hids. pose proof (bo_tree _ _ Hok) as [En|[h Hn]].
  { rewrite En in E. by apply app_cons_not_nil in E. }
  assert (Hv : valid F) by (eapply frag_ok_valid, doc_frags, resolve_doc).
  rewrite (find_node (D := id_position) (Some (f_id f)) Left F (id_target_monotone F (f_id f) Hids) Hv h (s_fragments s) Hn eq_refl).
  rewrite E in Hids |- *. rewrite (advance_to_id [] p f l Hids). cbn [app head]. eexists _, _. split; [done|]. by rewrite measure_id.
Qed.

(** What the snapshot asks of an anchor before it resolves it. *)
Definition resolvable (a : Anchor) : Prop :=
  debug = true → an_buffer_id a = s_remote_id s ∧ observed (s_version s) (anchor_timestamp a) = true.

Lemma F_small : (N.of_nat (visible_len F) <= U32_MAX)%N.
Proof.
  destruct Hok. apply rope_small in bo_visible. unfold small in bo_visible. rewrite bo_visible_text, vis_text_length in bo_visible; [done|].
  apply doc_frags, resolve_doc.
Qed.

Lemma offset_for_cell p f l k bias buffer_id :
  F = p ++ f :: l → k < f_len f → let a := cell_anchor (f_timestamp f) (f_insertion_offset f + k) bias buffer_id in
  resolvable a → offset_for_anchor debug s a = Ret (visible_len p + if f_visible f then beside bias k else 0).
Proof.
  intros E Hk a Hr. assert (Hf : f ∈ F) by (rewrite E; apply elem_of_app; right; by left).
  assert (Hc : (f_timestamp f, f_insertion_offset f + k) ∈ fragment_cells f) by (apply elem_of_fragment_cells; split; [done|lia]).
  unfold offset_for_anchor, a. rewrite cell_not_min, cell_not_max, try_find_fragment_spec by (done || by apply (cell_bound f)).
  fold a. assert (rust_assert (negb debug || (an_buffer_id a =? s_remote_id s)%N) = Ret tt) as ->.
  { destruct debug eqn:Ed; [|done]. destruct (Hr Ed) as [-> _]. by rewrite N.eqb_refl. }
  assert (rust_assert (negb debug || observed (s_version s) (anchor_timestamp a)) = Ret tt) as ->.
  { destruct debug eqn:Ed; [|done]. by destruct (Hr Ed) as [_ ->]. }
  unfold a. rewrite cell_timestamp, cell_offset. cbn [insertion_new if_timestamp if_fragment_id if_split_offset]. rewrite bool_decide_eq_true_2 by done.
  destruct (find_by_id p f l E) as (st & en & -> & ->). cbn [unwrap]. destruct (f_visible f) eqn:Hv; [|by rewrite Nat.add_0_r].
  pose proof F_small as Hs. rewrite E, visible_len_app in Hs. unfold visible_len in Hs at 2. cbn in Hs. rewrite Hv in Hs.
  pose proof (beside_le bias k). rewrite beside_add, usize_sub_ok by lia. rewrite Nat.add_comm, Nat.add_sub. apply usize_add_ok. unfold U32_MAX, U64_MAX in *. lia.
Qed.
Lemma names_offset a n :
  names F a n → (anchor_is_min a = false → anchor_is_max a = false → resolvable a) →
  offset_for_anchor debug s a = Ret (shown_before F n).
Proof.
  intros Hn Hr. destruct Hn as [buffer_id|buffer_id|bias ts i n buffer_id Hc].
  - done.
  - unfold offset_for_anchor. change (anchor_is_min (max_for_buffer buffer_id)) with false. change (anchor_is_max (max_for_buffer buffer_id)) with true.
    cbn beta iota. destruct Hok. rewrite rope_len_spec, bo_visible_text, vis_text_length, shown_before_all by (done || apply doc_frags, resolve_doc). done.
  - apply cells_lookup_Some in Hc as (p & f & l & k & E & -> & Hk & [= -> ->]).
    rewrite (offset_for_cell p f l k), beside_add; [|done|done|apply Hr; [apply cell_not_min|apply cell_not_max]].
    + pose proof (beside_le bias k). by rewrite E, shown_before_in by lia.
    + apply (cell_bound f); [rewrite E; apply elem_of_app; right; by left|apply elem_of_fragment_cells; split; [done|lia]].
Qed.

(** ** Making anchors *)
Lemma advance_stops {T Sm D} `{Item T Sm} `{Dimension D Sm} (past : D → bool) p l :
  ∃ q l', advance past p l = (p ++ q, l') ∧ l = q ++ l' ∧ (q = [] ∨ past (measure (p ++ q)) = true) ∧
    match l' with [] => True | x :: _ => past (measure (p ++ q ++ [x])) = false end.
Proof using.
  clear. revert p. induction l as [|x l IH]; intros p; cbn [advance].
  - exists [], []. rewrite app_nil_r. split_and!; (done || by left).
  - destruct (past (measure (p ++ [x]))) eqn:E.
    + destruct (IH (p ++ [x])) as (q & l' & -> & -> & Hq & Hl). exists (x :: q), l'. rewrite (cons_middle x p q), app_assoc. split; [done|]. split; [done|]. split.
      { right. destruct Hq as [->|?]; [by rewrite app_nil_r|done]. }
      destruct l' as [|y l']; [done|]. by rewrite <-app_assoc in Hl.
    + exists [], (x :: l). rewrite app_nil_r. split_and!; (done || by left).
Qed.
Lemma visible_monotone (o : nat) : monotone_target (D := nat) o F.
Proof using.
  intros l1 l2 l3 _. rewrite !measure_visible, visible_len_app. unfold seek_cmp, ord_seek_target, cmp, nat_ord.
  destruct (Nat.compare_spec o (visible_len l1 + visible_len l2)), (Nat.compare_spec o (visible_len l1)); cbn; lia.
Qed.
Definition passes (o : nat) (bias : Bias) (d : nat) : Prop := match bias with Left => d < o | Right => d ≤ o end.
Lemma passes_spec (o : nat) bias (d : nat) : target_past (D := nat) o bias d = true ↔ passes o bias d.
Proof using.
  unfold target_past, seek_cmp, ord_seek_target, cmp, nat_ord, passes. destruct (Nat.compare_spec o d), bias; split; (done || lia).
Qed.

(** What [anchor_at_offset] makes: the least anchor, the greatest, or one
    beside the visible byte before or after the offset. *)
Definition made (o : nat) (bias : Bias) (a : Anchor) : Prop :=
  (bias = Left ∧ o = 0 ∧ a = min_for_buffer (s_remote_id s)) ∨
  (bias = Right ∧ o = visible_len F ∧ a = max_for_buffer (s_remote_id s)) ∨
  ∃ j ts i, a = cell_anchor ts i bias (s_remote_id s) ∧ vcells F !! j = Some (ts, i) ∧ o = beside bias j.
Lemma anchor_at_offset_spec (o : nat) bias :
  o ≤ visible_len F → str_is_char_boundary (vis_text W F) o = true → returns (anchor_at_offset debug s o bias) (made o bias).
Proof.
  intros Ho Hb. pose proof resolve_doc as Hdoc. pose proof (doc_frags _ _ Hdoc) as Hfr.
  assert (Hlen : rope_len (s_visible_text s) = Ret (visible_len F)).
  { destruct Hok. by rewrite rope_len_spec, bo_visible_text, vis_text_length. }
  unfold anchor_at_offset. destruct (is_left bias && (o =? 0)) eqn:Emin.
  { apply andb_true_iff in Emin as [El ->%Nat.eqb_eq]. destruct bias; [|done]. apply returns_Ret. by left. }
  destruct (if is_left bias then _ else _) as [at_end| |] eqn:Eend.
  2,3: rewrite Hlen in Eend; by destruct bias.
  destruct at_end.
  { destruct bias; [done|]. rewrite Hlen in Eend. cbn in Eend. injection Eend as Eend. assert (o = visible_len F) as ->.
    { apply orb_true_iff in Eend as [[_ ?%Nat.leb_le]%andb_true_iff|?%Nat.eqb_eq]; lia. }
    apply returns_Ret. right. by left. }
  assert (Hne : match bias with Left => 0 < o | Right => o < visible_len F end).
  { destruct bias; cbn [is_left andb] in Emin, Eend.
    - apply Nat.eqb_neq in Emin. lia.
    - rewrite Hlen in Eend. injection Eend as [_ ?%Nat.eqb_neq]%orb_false_iff. lia. }
  clear Emin Eend. pose proof Hok as Hok'. destruct Hok'. rewrite assert_char_boundary_spec, bo_visible_text, Hb by done. cbn beta iota.
  rewrite (find_wf (D := nat) o bias F (visible_monotone o) (frag_ok_valid _ _ Hfr) _ bo_tree eq_refl).
  destruct (advance_stops (target_past (D := nat) o bias) [] F) as (q & l & -> & E & Hq & Hl). cbn [app] in *. rewrite measure_visible in *.
  assert (Hq' : passes o bias (visible_len q)). { destruct Hq as [->|?%passes_spec]; [destruct bias; cbn; lia|done]. }
  destruct l as [|f l]; cbn [head].
  { exfalso. rewrite E, app_nil_r in Hne, Ho. destruct bias; cbn in Hq'; lia. }
  rewrite measure_visible, visible_len_snoc in Hl. assert (Hl' : ¬ passes o bias (visible_len q + if f_visible f then f_len f else 0)).
  { rewrite <-passes_spec. by rewrite Hl. }
  assert (f_visible f = true) as Hv. { destruct (f_visible f); [done|]. by rewrite Nat.add_0_r in Hl'. } rewrite Hv in Hl'.
  assert (Hf : f ∈ F) by (rewrite E; apply elem_of_app; right; by left). destruct (resolve_frag f Hf) as (Hpos & Hfl & Hsm & _). unfold small in Hsm.
  assert (∃ k, k < f_len f ∧ o = visible_len q + beside bias k) as (k & Hk & ->).
  { destruct bias; cbn in *; [exists (o - visible_len q - 1)|exists (o - visible_len q)]; lia. }
  pose proof (beside_le bias k) as Hbk. rewrite usize_sub_ok by lia. rewrite Nat.add_comm, Nat.add_sub, as_u32_small, U32_add_ok by lia.
  rewrite <-beside_add. fold (cell_anchor (f_timestamp f) (f_insertion_offset f + k) bias (s_remote_id s)). apply returns_Ret.
  right. right. exists (visible_len q + k), (f_timestamp f), (f_insertion_offset f + k). split; [done|]. split; [|rewrite beside_add; lia].
  rewrite E, vcells_app, vcells_cons, Hv, lookup_app_r, vcells_length by (rewrite vcells_length; lia).
  rewrite Nat.add_comm, Nat.add_sub, lookup_app_l by (by rewrite fragment_cells_length).
  unfold fragment_cells. by rewrite list_lookup_fmap, lookup_seq_lt.
Qed.

(** ** The order of anchors *)
Definition id_of (a : Anchor) (id : Locator) : Prop := try_fragment_id_for_anchor debug s a = Ret (Some id).
Lemma id_of_min buffer_id : id_of (min_for_buffer buffer_id) locator_min.
Proof using. done. Qed.
Lemma id_of_max buffer_id : id_of (max_for_buffer buffer_id) locator_max.
Proof using. done. Qed.
Lemma id_of_cell f i bias buffer_id : f ∈ F → (f_timestamp f, i) ∈ fragment_cells f → id_of (cell_anchor (f_timestamp f) i bias buffer_id) (f_id f).
Proof.
  intros Hf Hc. unfold id_of, try_fragment_id_for_anchor. rewrite cell_not_min, cell_not_max, try_find_fragment_spec by (done || by apply (cell_bound f)).
  rewrite cell_timestamp. cbn [insertion_new if_timestamp if_fragment_id]. by rewrite bool_decide_eq_true_2, orb_true_r.
Qed.

(** [a] comes before [b] by their stamps and offsets in the insertion, or by
    their fragments. *)
Definition precedes (a b : Anchor) (x y : Locator) : Prop :=
  if decide (anchor_timestamp a = anchor_timestamp b)
  then (an_offset a < an_offset b)%N ∨ an_offset a = an_offset b ∧ an_bias a = Left ∧ an_bias b = Right
  else olt x y.
Lemma precedes_cmp a b x y : id_of a x → id_of b y → precedes a b x y → anchor_cmp debug a b s = Ret Lt ∧ anchor_cmp debug b a s = Ret Gt.
Proof using.
  clear. unfold id_of, precedes, anchor_cmp, fragment_id_for_anchor. intros Hx Hy. case_decide as E.
  - rewrite E, !bool_decide_eq_true_2 by done. unfold cmp, N_ord. cbn [then_with]. intros [Hlt|(-> & -> & ->)].
    + rewrite (N.compare_antisym (an_offset a)). by rewrite Hlt.
    + by rewrite N.compare_refl.
  - rewrite !bool_decide_eq_false_2 by done. unfold olt. intros Hlt. rewrite Hx, Hy. cbn beta iota. by rewrite (cmp_antisym x y), Hlt.
Qed.

Lemma id_bounds f : f ∈ F → olt locator_min (f_id f) ∧ olt (f_id f) locator_max ∧ olt locator_min locator_max.
Proof.
  intros Hf. destruct (doc_ids _ _ resolve_doc) as [Hs _]. apply StronglySorted_inv in Hs as [Hs Hmin]. apply Forall_app in Hmin as [Hmin Hm].
  rewrite Forall_forall in Hmin. apply list_elem_of_fmap_2 with (f := f_id) in Hf. split; [by apply Hmin|]. split; [|by apply Forall_cons in Hm as [? _]].
  clear -Hs Hf. induction (f_id <$> F) as [|x l IH]; [by apply not_elem_of_nil in Hf|]. cbn in Hs. apply StronglySorted_inv in Hs as [Hs Hx].
  apply elem_of_cons in Hf as [->|Hf]; [|by apply IH]. rewrite Forall_forall in Hx. apply Hx, elem_of_app. right. by left.
Qed.

(** A cell at an index. *)
Lemma cell_fragment x ts i : cells F !! x = Some (ts, i) → ∃ f, f ∈ F ∧ f_timestamp f = ts ∧ (ts, i) ∈ fragment_cells f ∧ (N.of_nat i < U32_MAX)%N.
Proof.
  intros (p & f & l & k & E & _ & Hk & [= -> ->])%cells_lookup_Some. exists f.
  assert (Hf : f ∈ F) by (rewrite E; apply elem_of_app; right; by left).
  assert (Hc : (f_timestamp f, f_insertion_offset f + k) ∈ fragment_cells f) by (apply elem_of_fragment_cells; split; [done|lia]).
  split_and!; try done. by eapply cell_bound.
Qed.
Lemma ids_by_cells x y f g i j : cells F !! x = Some (f_timestamp f, i) → cells F !! y = Some (f_timestamp g, j) →
  f ∈ F → g ∈ F → (f_timestamp f, i) ∈ fragment_cells f → (f_timestamp g, j) ∈ fragment_cells g → f_timestamp f ≠ f_timestamp g → x < y → olt (f_id f) (f_id g).
Proof.
  intros Hx Hy Hf Hg Hcf Hcg Hne Hlt. pose proof (doc_nodup _ _ resolve_doc) as Hnd.
  apply cells_lookup_Some in Hx as (p & f' & l & k & E & -> & Hk & Ec). injection Ec as Et ->.
  assert (f = f') as <-. { eapply (same_cell F); [done|done|rewrite E; apply elem_of_app; right; by left|exact Hcf|]. apply elem_of_fragment_cells. split; [done|lia]. }
  assert (Hg' : g ∈ l).
  { rewrite E, cells_app, lookup_app_r, cells_cons in Hy by lia.
    destruct (Nat.lt_ge_cases (y - length (cells p)) (f_len f)) as [Hin|Hout].
    - rewrite lookup_app_l in Hy by (by rewrite fragment_cells_length). apply list_elem_of_lookup_2, elem_of_fragment_cells in Hy as [? _]. congruence.
    - rewrite lookup_app_r in Hy by (by rewrite fragment_cells_length). apply list_elem_of_lookup_2, elem_of_cells in Hy as (g' & Hg' & Et' & Hj).
      assert (g = g') as <-; [|done]. eapply (same_cell F); [done|done|rewrite E; apply elem_of_app; right; by right|exact Hcg|].
      apply elem_of_fragment_cells. by split. }
  pose proof (doc_ids _ _ resolve_doc) as Hids. rewrite E, cons_middle, app_assoc in Hids. apply (ids_lt _ _ _ _ Hids); [|done].
  apply elem_of_app. right. by left.
Qed.

(** A gap and the side of it. *)
Definition gap_lt (m : nat) (a : Bias) (n : nat) (b : Bias) : Prop := m < n ∨ m = n ∧ a = Left ∧ b = Right.
Lemma names_precedes a b m n : names F a m → names F b n → gap_lt m (an_bias a) n (an_bias b) →
  ∃ x y, id_of a x ∧ id_of b y ∧ precedes a b x y.
Proof.
  intros Ha Hb Hlt. destruct Ha as [b1|b1|bias1 t1 i x b1 Hx], Hb as [b2|b2|bias2 t2 j y b2 Hy]; unfold gap_lt in Hlt; cbn [an_bias min_for_buffer max_for_buffer cell_anchor anchor_new] in Hlt.
  - by destruct Hlt as [?|(_ & _ & ?)]; [lia|].
  - exists locator_min, locator_max. split; [done|]. split; [done|]. unfold precedes. by vm_compute.
  - destruct (cell_fragment y t2 j Hy) as (g & Hg & <- & Hcg & Hj). exists locator_min, (f_id g). split; [done|]. split; [by apply id_of_cell|].
    unfold precedes. case_decide; [|by apply id_bounds]. cbn [an_offset min_for_buffer cell_anchor anchor_new an_bias].
    destruct bias2; cbn [beside]; [left; lia|]. destruct j; [by right|left; lia].
  - by destruct Hlt as [?|(_ & ? & _)]; [lia|].
  - by destruct Hlt as [?|(_ & ? & _)]; [lia|].
  - apply lookup_lt_Some in Hy. pose proof (beside_le bias2 y). by destruct Hlt as [?|(_ & ? & _)]; [lia|].
  - by destruct Hlt as [?|(_ & _ & ?)]; [lia|].
  - destruct (cell_fragment x t1 i Hx) as (f & Hf & <- & Hcf & Hi). exists (f_id f), locator_max. split; [by apply id_of_cell|]. split; [done|].
    unfold precedes. case_decide; [|by apply id_bounds]. cbn [an_offset max_for_buffer cell_anchor anchor_new an_bias].
    destruct bias1; cbn [beside]; [|left; lia]. destruct (decide (N.of_nat (S i) = U32_MAX)); [by right|left; lia].
  - destruct (cell_fragment x t1 i Hx) as (f & Hf & <- & Hcf & Hi), (cell_fragment y t2 j Hy) as (g & Hg & <- & Hcg & Hj).
    exists (f_id f), (f_id g). split; [by apply id_of_cell|]. split; [by apply id_of_cell|]. pose proof (doc_cells _ _ resolve_doc) as Ho.
    unfold precedes. rewrite !cell_timestamp. cbn [an_offset cell_anchor anchor_new an_bias]. case_decide as E.
    + assert (Hij : (x < y → i < j) ∧ (x = y → i = j) ∧ (y < x → j < i)).
      { split_and!; [intros ?; exact (in_order_lookup _ x y _ _ Ho Hx Hy ltac:(done) E)| |intros ?; exact (in_order_lookup _ y x _ _ Ho Hy Hx ltac:(done) (eq_sym E))].
        intros <-. rewrite Hx in Hy. by injection Hy. }
      unfold gap_lt in Hlt. destruct (Nat.lt_trichotomy x y) as [?|[?|?]]; destruct bias1, bias2; cbn [beside] in *.
      all: try (left; lia); try (exfalso; destruct Hlt as [?|(_ & ? & ?)]; (lia || done)).
      destruct (decide (S i = j)) as [->|]; [by right|left; lia].
    + assert (x < y); [|by eapply (ids_by_cells x y)]. destruct (Nat.lt_trichotomy x y) as [?|[<-|?]]; [done|rewrite Hx in Hy; by injection Hy|].
      destruct bias1, bias2; cbn [beside] in *; destruct Hlt as [?|(? & ? & ?)]; (lia || done).
Qed.

(** Anchors that name the same gap from the same side are the same, but for
    the buffer. *)
Lemma names_same a b m n : names F a m → names F b n → m = n → an_bias a = an_bias b →
  anchor_timestamp a = anchor_timestamp b ∧ an_offset a = an_offset b.
Proof using.
  clear. intros [b1|b1|bias1 t1 i x b1 Hx] [b2|b2|bias2 t2 j y b2 Hy]; cbn [an_bias min_for_buffer max_for_buffer cell_anchor anchor_new]; intros E Eb; subst; try done.
  - apply lookup_lt_Some in Hy. cbn in E. lia.
  - apply lookup_lt_Some in Hx. cbn in E. lia.
  - rewrite !cell_timestamp. assert (x = y) as -> by (destruct bias2; cbn in E; lia). rewrite Hx in Hy. by injection Hy as -> ->.
Qed.
Lemma anchor_cmp_spec a b m n : names F a m → names F b n →
  anchor_cmp debug a b s = Ret (then_with (cmp m n) (bias_cmp (an_bias a) (an_bias b))).
Proof.
  intros Ha Hb.
  assert (Hlt : gap_lt m (an_bias a) n (an_bias b) → anchor_cmp debug a b s = Ret Lt).
  { intros H. destruct (names_precedes a b m n Ha Hb H) as (x & y & Hx & Hy & Hp). by destruct (precedes_cmp a b x y). }
  assert (Hgt : gap_lt n (an_bias b) m (an_bias a) → anchor_cmp debug a b s = Ret Gt).
  { intros H. destruct (names_precedes b a n m Hb Ha H) as (x & y & Hx & Hy & Hp). by destruct (precedes_cmp b a x y). }
  assert (Heq : m = n → an_bias a = an_bias b → anchor_cmp debug a b s = Ret Eq).
  { intros Emn Eb. destruct (names_same a b m n Ha Hb Emn Eb) as [Et Eo]. unfold anchor_cmp. rewrite bool_decide_eq_true_2 by done.
    rewrite Eo, Eb, cmp_refl. by destruct (an_bias b). }
  unfold gap_lt in *. unfold cmp, nat_ord. destruct (Nat.compare_spec m n) as [->|H|H].
  - destruct (an_bias a), (an_bias b); cbn; [by apply Heq|by apply Hlt; right|by apply Hgt; right|by apply Heq].
  - by apply Hlt; left.
  - by apply Hgt; left.
Qed.

Lemma made_names o bias a : made o bias a → ∃ n, names F a n ∧ shown_before F n = o.
Proof using.
  clear. intros [(-> & -> & ->)|[(-> & -> & ->)|(j & ts & i & -> & (n & Hn)%visible_cell_at & ->)]].
  - exists 0. split; [constructor|done].
  - exists (length (cells F)). split; [constructor|by apply shown_before_all].
  - exists (beside bias n). split; [constructor; by destruct Hn|]. by rewrite (cell_at_beside _ _ _ _ _ _ Hn).
Qed.
(** The version has seen every insertion. *)
Definition versioned (s : BufferSnapshot) : Prop := Forall (λ f, observed (s_version s) (f_timestamp f) = true) (tree_items (s_fragments s)).
Lemma made_resolvable o bias a : versioned s → made o bias a → anchor_is_min a = false → anchor_is_max a = false → resolvable a.
Proof using.
  clear. intros Hv Hm H1 H2 _. destruct Hm as [(-> & -> & ->)|[(-> & -> & ->)|(j & ts & i & -> & Hj & ->)]]; [done|done|].
  split; [done|]. rewrite cell_timestamp. assert ((ts, i) ∈ cells F) as (f & Hf & <- & _)%elem_of_cells.
  { eapply elem_of_sublist; [by apply list_elem_of_lookup_2 in Hj|apply vcells_sublist]. }
  unfold versioned in Hv. rewrite Forall_forall in Hv. by apply Hv.
Qed.
End Resolve.

(** * Anchors: what they promise

    An anchor made at an offset resolves to that offset; after edits it is
    still beside the same byte, wherever that byte is now, or where the byte
    was when it is deleted; anchors are ordered as the places they name. *)
(** ** Where edits carry a byte *)
Section Moved.
Context (normal : list N → list N).

(** The index of byte [j] of the old text after the edits, counted from where
    they start, and if it is still there; the old text is counted from [st]. *)
Fixpoint moved (st : nat) (edits : list local_change) (j : nat) : nat * bool :=
  match edits with
  | [] => (j - st, true)
  | (a, e, new_text) :: edits =>
      let len := a - st + length (normal new_text) in
      if j <? a then (j - st, true)
      else if j <? e then (len, false)
      else let '(k, v) := moved e edits j in (len + k, v)
  end.
(** Where the edits carry an anchor made at [o]: it stays beside the byte
    before it or after it. *)
Definition carried (bias : Bias) (edits : list local_change) (o : nat) : nat :=
  match bias with
  | Right => (moved 0 edits o).1
  | Left => match o with 0 => 0 | S j => let '(k, v) := moved 0 edits j in if v then S k else k end
  end.

Lemma moved_end X st edits : st ≤ length X → edits_ok normal X st edits → (moved st edits (length X)).1 = length (spliced normal X st edits).
Proof.
  revert st. induction edits as [|[[a e] x] edits IH]; intros st Hst; cbn [moved edits_ok spliced].
  - intros _. by rewrite length_drop.
  - intros (Ha & (Hae & _) & _ & Hok). destruct (Nat.ltb_spec (length X) a); [lia|]. destruct (Nat.ltb_spec (length X) e); [lia|].
    specialize (IH e ltac:(lia) Hok). destruct (moved e edits (length X)) as [k v]. cbn in *. rewrite !length_app, seg_length by lia. lia.
Qed.
Lemma moved_cell ts X C st off edits G j c :
  relaid normal ts C st off edits G → edits_ok normal X st edits → length C = length X → C !! j = Some c → st ≤ j →
  ∃ n, let '(k, v) := moved st edits j in cell_at G c n k v.
Proof.
  intros HG Hok Hlen Hc. revert st off G HG Hok. induction edits as [|[[a e] x] edits IH]; intros st off G; cbn [relaid moved edits_ok].
  - intros HG _ Hj. apply visible_cell_at. rewrite HG, lookup_drop. by replace (st + (j - st)) with j by lia.
  - intros (kept & news & hid & G' & -> & Ek & En & Eh & Hsub & HG) (Ha & (Hae & _) & _ & Hok) Hj.
    assert (Lk : visible_len kept = a - st) by (rewrite <-vcells_length, Ek; apply seg_length; lia).
    assert (Ln : visible_len news = length (normal x)) by (by rewrite <-vcells_length, En, length_fmap, length_seq).
    assert (Lh : visible_len hid = 0) by (by rewrite <-vcells_length, Eh).
    destruct (Nat.ltb_spec j a) as [Hja|Hja]; [|destruct (Nat.ltb_spec j e) as [Hje|Hje]].
    + destruct (visible_cell_at kept (j - st) c) as (n & Hn); [|exists n; by apply cell_at_l].
      rewrite Ek, seg_lookup by lia. by replace (st + (j - st)) with j by lia.
    + destruct (hidden_cell_at hid c Eh) as (n & Hn).
      { apply Hsub. apply list_elem_of_lookup. exists (j - a). rewrite seg_lookup by lia. by replace (a + (j - a)) with j by lia. }
      eexists. apply (cell_at_l _ G'), (cell_at_r news), (cell_at_r kept) in Hn. rewrite Lk, Ln, Nat.add_0_r in Hn. exact Hn.
    + destruct (IH e _ G' HG Hok Hje) as (n & Hn). destruct (moved e edits j) as [k v].
      eexists. apply (cell_at_r hid), (cell_at_r news), (cell_at_r kept) in Hn. rewrite Lk, Ln, Lh in Hn. by rewrite <-(Nat.add_assoc (a - st)).
Qed.
End Moved.

(** ** Versions *)
Lemma observed_observe g t u : observed g u = true → observed (observe g t) u = true.
Proof. unfold observed. rewrite !N.leb_le, get_observe. case_decide; lia. Qed.
Lemma observed_self g t : observed (observe g t) t = true.
Proof. unfold observed. rewrite N.leb_le, get_observe, decide_True by done. lia. Qed.
Lemma versioned_edited ts s s' : edited ts s (with_version s' (s_version s)) → s_version s' = observe (s_version s) ts → versioned s → versioned s'.
Proof.
  intros He Ev Hv. unfold versioned in *. rewrite Forall_forall in *. intros g Hg. rewrite Ev.
  destruct (ed_origin _ _ _ He g Hg) as [(-> & _)|(f & Hf & -> & _)]; [apply observed_self|]. by apply observed_observe, Hv.
Qed.

(** ** Theorems *)
Section Theorems.
Context (par_chunks : ∀ A : Type, nat → list A → list (list A)).
Context (sort_insertions : list insertion_edit → list insertion_edit).
Context (sort_slices : list (Edit (MapEntry InsertionSlice unit) (MapKey InsertionSlice)) →
  list (Edit (MapEntry InsertionSlice unit) (MapKey InsertionSlice))).
Context (normal : list N → list N) (max_insertion_len : N) (debug_assertions : bool).
Hypotheses (Hpar : chunks_spec par_chunks) (Hsi : sort_spec sort_insertions) (Hss : sort_spec sort_slices).
Hypothesis Hmax : (4 <= max_insertion_len)%N.
Abbreviation buffer_edit := (buffer_edit par_chunks sort_insertions sort_slices normal max_insertion_len debug_assertions).
Abbreviation text s := (rope_text (s_visible_text s)).

Lemma anchor_at_spec W s o bias : buffer_ok W s → o ≤ length (text s) → str_is_char_boundary (text s) o = true →
  returns (anchor_at debug_assertions s o bias) (made s o bias).
Proof using.
  clear. intros Hok Ho Hb. unfold anchor_at. rewrite usize_to_offset_spec, Hb by (by destruct Hok).
  destruct Hok as [? ? ? Hd E] eqn:Eok. rewrite E in *. rewrite vis_text_length in Ho by (by destruct Hd). by apply (anchor_at_offset_spec _ W).
Qed.

(** C19: An anchor names a gap between two bytes of the document, visible or
    not, and resolves to the number of visible bytes before the gap. *)
Theorem offset_for_anchor_refines W s a n :
  buffer_ok W s → names (tree_items (s_fragments s)) a n → resolvable debug_assertions s a →
  offset_for_anchor debug_assertions s a = Ret (shown_before (tree_items (s_fragments s)) n).
Proof using. clear. intros Hok Hn Hr. by apply (names_offset _ W). Qed.

(** C18: An anchor made at a character boundary, with either bias, resolves to
    the offset it was made at. *)
Theorem anchor_offset_roundtrip W s o bias :
  buffer_ok W s → versioned s → o ≤ length (text s) → str_is_char_boundary (text s) o = true →
  returns (anchor_at debug_assertions s o bias) (λ a, offset_for_anchor debug_assertions s a = Ret o).
Proof using.
  clear. intros Hok Hv Ho Hb. eapply returns_mono; [by apply (anchor_at_spec W)|]. intros a Ha.
  destruct (made_names s o bias a Ha) as (n & Hn & <-). apply (names_offset _ W); [done|done|]. intros. by eapply made_resolvable.
Qed.

(** C17: Edits carry anchors along: an anchor made before the edits resolves,
    after them, to the place beside the same byte; when the byte is deleted, to
    the end of the text that replaced it; at an insertion an anchor with left
    bias stays before the new text and one with right bias comes after it. *)
Theorem anchors_follow_edits W seen b edits now later o bias :
  buffer_inv W seen b → versioned (b_snapshot b) → ready normal b edits →
  o ≤ length (text (b_snapshot b)) → str_is_char_boundary (text (b_snapshot b)) o = true →
  returns (anchor_at debug_assertions (b_snapshot b) o bias) (λ a,
    returns (buffer_edit b edits now later) (λ '(_, b'),
      offset_for_anchor debug_assertions (b_snapshot b') a = Ret (carried normal bias edits o))).
Proof using Type*.
  intros Hb Hv Hr Ho Hbd. pose proof (bi_snapshot _ _ _ Hb) as Hok. eapply returns_mono; [by apply (anchor_at_spec W)|]. intros a Ha.
  eapply returns_mono; [by eapply buffer_edit_spec|]. intros [op b'] (eop & _ & Hb' & Et & Ev & _ & _ & (_ & Hre & _) & Hed & _). cbn [fst snd] in *.
  pose proof (bi_snapshot _ _ _ Hb') as Hok'. pose proof (rd_edits _ _ _ Hr) as Hed_ok.
  pose proof (versioned_edited _ _ _ Hed Ev Hv) as Hv'. pose proof (ed_remote _ _ _ Hed) as Er. cbn in Er.
  pose proof (bo_doc _ _ Hok) as Hdoc. pose proof (bo_visible_text _ _ Hok) as EX.
  assert (Elen : length (text (b_snapshot b)) = visible_len (tree_items (s_fragments (b_snapshot b)))).
  { rewrite EX. apply vis_text_length. by destruct Hdoc. }
  unfold carried. destruct Ha as [(-> & -> & ->)|[(-> & -> & ->)|(j & ts & i & -> & Hj & ->)]].
  - done.
  - rewrite <-Elen, (moved_end normal (text (b_snapshot b)) 0 edits), <-Et by (done || lia). unfold offset_for_anchor.
    change (anchor_is_min (max_for_buffer ?x)) with false. change (anchor_is_max (max_for_buffer ?x)) with true. cbn beta iota.
    apply rope_len_spec. by destruct Hok'.
  - destruct (moved_cell normal _ _ _ _ _ _ _ j (ts, i) Hre Hed_ok) as (n & Hn); [by rewrite vcells_length|done|lia|].
    destruct (moved normal 0 edits j) as [k v] eqn:Em. pose proof (cell_at_beside _ _ _ _ _ bias Hn) as Hsh. destruct Hn as (Hn & _).
    rewrite (names_offset _ _ _ Hok' _ (beside bias n)).
    + rewrite Hsh. f_equal. destruct bias; cbn [beside]; rewrite ?Em; by destruct v.
    + by constructor.
    + intros _ _ _. split; [by rewrite Er|]. rewrite cell_timestamp. apply list_elem_of_lookup_2, elem_of_cells in Hn as (f & Hf & <- & _).
      unfold versioned in Hv'. rewrite Forall_forall in Hv'. by apply Hv'.
Qed.

(** C20: Anchors are ordered as the gaps they name, from left to right, and at
    the same gap those with left bias come first; so a lesser anchor never
    resolves to a greater offset. *)
Theorem anchor_cmp_refines W s a b m n :
  buffer_ok W s → names (tree_items (s_fragments s)) a m → names (tree_items (s_fragments s)) b n →
  anchor_cmp debug_assertions a b s = Ret (then_with (cmp m n) (bias_cmp (an_bias a) (an_bias b))) ∧
  (anchor_cmp debug_assertions a b s ≠ Ret Gt → shown_before (tree_items (s_fragments s)) m ≤ shown_before (tree_items (s_fragments s)) n).
Proof using.
  clear. intros Hok Ha Hb. rewrite (anchor_cmp_spec _ W s Hok a b m n Ha Hb). split; [done|]. intros Hne. apply shown_before_mono.
  unfold cmp, nat_ord in Hne. destruct (Nat.compare_spec m n); [lia|lia|done].
Qed.
End Theorems.

(** ** Witnesses *)
Lemma sample_versioned : versioned (b_snapshot sample_buffer).
Proof.
  destruct sample_buffer_ok as (_ & _ & Hf). eapply Forall_impl; [exact Hf|]. intros f (-> & _). by vm_compute.
Qed.
Lemma sample_text : rope_text (s_visible_text (b_snapshot sample_buffer)) = [104; 195; 169; 10; 121]%N.
Proof. destruct sample_buffer_ok as (_ & -> & _). by destruct sample_rope_ok as [_ ->]. Qed.
Lemma sample_cell : cells (tree_items (s_fragments (b_snapshot sample_buffer))) !! 3 = Some (base_timestamp, 3).
Proof. by vm_compute. Qed.

Lemma offset_for_anchor_refines_witness :
  offset_for_anchor true (b_snapshot sample_buffer) (cell_anchor base_timestamp 3 Left 1) = Ret 4.
Proof.
  destruct sample_buffer_ok as (Hok & _). rewrite (offset_for_anchor_refines true _ _ _ 4 Hok).
  - by vm_compute.
  - apply (names_cell _ Left _ _ 3), sample_cell.
  - intros _. by vm_compute.
Defined.
Lemma anchor_offset_roundtrip_witness :
  returns (anchor_at true (b_snapshot sample_buffer) 3 Left) (λ a, offset_for_anchor true (b_snapshot sample_buffer) a = Ret 3).
Proof.
  destruct sample_buffer_ok as (Hok & _). apply (anchor_offset_roundtrip true _ _ 3 Left Hok sample_versioned); rewrite sample_text.
  - cbn. lia.
  - reflexivity.
Defined.
Lemma anchors_follow_edits_witness :
  returns (anchor_at true (b_snapshot sample_buffer) 4 Right) (λ a,
    returns (buffer_edit Integers.chunks (insertion_sort edit_key) (insertion_sort edit_key) id 16 true sample_buffer sample_edits 5 7) (λ '(_, b'),
      offset_for_anchor true (b_snapshot b') a = Ret 4)).
Proof.
  apply (anchors_follow_edits Integers.chunks (insertion_sort edit_key) (insertion_sort edit_key) id 16 true
    chunks_ok insertion_sort_spec insertion_sort_spec ltac:(lia) (base_text_of sample_rope) ∅ sample_buffer sample_edits 5 7 4 Right).
  - apply sample_inv.
  - apply sample_versioned.
  - apply sample_ready.
  - rewrite sample_text. cbn. lia.
  - rewrite sample_text. reflexivity.
Defined.
Lemma anchor_cmp_refines_witness :
  anchor_cmp true (cell_anchor base_timestamp 3 Right 1) (max_for_buffer 1) (b_snapshot sample_buffer) = Ret Lt.
Proof.
  destruct sample_buffer_ok as (Hok & _).
  destruct (anchor_cmp_refines true _ _ (cell_anchor base_timestamp 3 Right 1) (max_for_buffer 1) 3 5 Hok) as [-> _].
  - apply (names_cell _ Right _ _ 3), sample_cell.
  - apply (names_max (tree_items (s_fragments (b_snapshot sample_buffer))) 1).
  - reflexivity.
Defined.
