(* ===== verification/RemoteOps.v ===== *)
(** * Operations between replicas

    A local edit and the remote edit that its operation asks for mean the same;
    operations that have not seen each other do not disturb each other. *)
From stdpp Require Import base numbers option list sorting gmap.
From Stdlib Require Import Lia.
From S2P Require Import Prelude Clock SumTree SumTreeFacts SumTreeBulk Cursor CursorFacts CursorSeek CursorMove.
From S2P Require Import CursorIter Keyed KeyedFacts TreeMap TreeMapFacts Locator UndoMap OperationQueue Patch PatchFacts.
From S2P Require Import Subscription Utf8 ChunkPointsFacts RopeTree Rope RopeBuild RopeSlice Fragment Snapshot.
From S2P Require Import History HistorySpec Buffer Undo Remote Document Walk Layout LocalEdit RemoteWalk RemoteEdit.
From S2P Require Import BufferOk BufferEdit BufferLocal UndoWalk UndoBuffer.
(** * A remote edit of a snapshot

    [remote_snapshot] returns whenever its ranges are places in what the
    version has seen; the result satisfies the invariant, and is laid out as
    [integrate] says. *)
#[local] Opaque TREE_BASE av_cap.
#[local] Existing Instances Dimensions_dimension Dimensions_seek_target unit_dimension.

(** ** The text before the first edit *)
Lemma take_seen_past v n x L : count_seen v x < n →
  take_seen v n (x ++ L) = (x ++ (take_seen v (n - count_seen v x) L).1, (take_seen v (n - count_seen v x) L).2).
Proof.
  revert n. induction x as [|c x IH]; intros n Hn.
  - cbn [app count_seen List.filter length]. unfold count_seen. cbn [List.filter length]. rewrite Nat.sub_0_r. by destruct (take_seen v n L).
  - assert (E : count_seen v (c :: x) = (if a_seen v c then 1 else 0) + count_seen v x) by (unfold count_seen; cbn; by destruct (a_seen v c)).
    rewrite E in Hn |- *. clear E. cbn [app take_seen]. destruct (Nat.eqb_spec n 0); [lia|]. rewrite IH by (destruct (a_seen v c); lia).
    cbn [fst snd]. assert ((if a_seen v c then n - 1 else n) - count_seen v x = n - ((if a_seen v c then 1 else 0) + count_seen v x)) as -> by (destruct (a_seen v c); lia).
    done.
Qed.
Lemma integrate_past v u ts a e t edits off x L : count_seen v x < a ∨ x = [] →
  integrate v u ts ((a, e, t) :: edits) off 0 (x ++ L) = x ++ integrate v u ts ((a, e, t) :: edits) off (count_seen v x) L.
Proof.
  intros [Hx| ->]; [|done]. cbn [integrate]. rewrite Nat.sub_0_r, take_seen_past by done.
  destruct (take_seen v (a - count_seen v x) L) as [y L']. cbn [fst snd]. destruct (pass_greater ts L') as [z L2].
  destruct (take_seen v (e - a) L2) as [w L3]. by rewrite <-app_assoc.
Qed.

Section Begin.
Context (W : Lamport → list N) (V D : Rope) (t : fragment_tree) (ts : Lamport) (v : Global).
#[local] Hint Extern 0 (Dimension VersionedFullOffset _) => exact (versioned_dimension v) : typeclass_instances.
Definition begin_at (a : nat) : outcome (versioned_cursor * nat * Building) :=
  let* cv := rope_cursor V 0 in
  let* cd := rope_cursor D 0 in
  let* '(init, c) := Cursor.slice (cursor_new t) (MkFullOffset a) Left in
  let* ropes := ropes_append (ropes_new cv cd) (fs_text (summary init)) in
  let* fragment_start := start_full c in
  Ret (c, fragment_start, MkBuilding (builder_new init) ropes [] [] 0 []).
Definition suffix_of (c : versioned_cursor) : outcome (fragment_tree * versioned_cursor) := Cursor.suffix c.

Hypotheses (Hset : setup W V D t ts) (Hstamped : stamped (tree_items t)).
Lemma rwalk_begin a : returns (begin_at a) (λ '(c, st, b), ∃ p l,
    rwalk W V D t ts v p l 0 p c st b ∧ b_offset b = 0 ∧ (p = [] ∨ st < a) ∧ st = seen_len v p).
Proof using Type*.
  unfold begin_at. pose proof Hset as [HV HD SV SD _ _ HF _ _ _ _]. destruct (ropes_new_at _ _ HV HD SV SD) as (rb & Erb & Hrb).
  destruct (rope_cursor V 0) as [cv| |]; try done. destruct (rope_cursor D 0) as [cd| |]; try done. injection Erb as <-.
  destruct (versioned_slice v t (su_tree _ _ _ _ _ Hset) (F_valid W V D t ts Hset) (su_height _ _ _ _ _ Hset) Hstamped
    (cursor_new t) [] (tree_items t) a (seekable_new t)) as ([init c] & -> & q & l & Hc & E & Hi & Eq & Hq & _); [cbn; lia|].
  cbn [app] in Hc, Hq. destruct (core_begin W V D t ts Hset q l init _ E Hi Eq Hrb) as (rb' & -> & Hk).
  destruct (versioned_reads v t (su_tree _ _ _ _ _ Hset) (su_height _ _ _ _ _ Hset) c q l Hc) as (-> & _).
  apply returns_Ret. exists q, l. split; [|done]. split; [done|done|lia|by left|]. rewrite <-E. by destruct HF.
Qed.
End Begin.

(** ** [apply_remote_edit] on the snapshot *)
Section Apply.
Context (par_chunks : ∀ A : Type, nat → list A → list (list A)).
Context (sort_insertions : list insertion_edit → list insertion_edit).
Context (sort_slices : list (Edit (MapEntry InsertionSlice unit) (MapKey InsertionSlice)) →
  list (Edit (MapEntry InsertionSlice unit) (MapKey InsertionSlice))).
Context (max_insertion_len : N) (debug : bool).
Hypotheses (Hpar : chunks_spec par_chunks) (Hsi : sort_spec sort_insertions) (Hss : sort_spec sort_slices).
Hypothesis Hmax : (4 <= max_insertion_len)%N.

Definition full_ranges_of (edits : list (nat * nat * list N)) : list (FullOffset * FullOffset) :=
  (λ '(a, e, _), (MkFullOffset a, MkFullOffset e)) <$> edits.
Definition new_text_of (edits : list (nat * nat * list N)) : list (list N) := snd <$> edits.
Lemma zip_edits edits : zip (full_ranges_of edits) (new_text_of edits) = as_full <$> edits.
Proof. unfold full_ranges_of, new_text_of. induction edits as [|[[a e] x] edits IH]; [done|]. cbn. by f_equal. Qed.

(** What a remote edit asks of the snapshot: it is new, what its version has
    seen is older, and its ranges are increasing places in what was seen. *)
Record receivable (W : Lamport → list N) (s : BufferSnapshot) (v : Global) (edits : list (nat * nat * list N)) (ts : Lamport) : Prop := {
  re_ok : buffer_ok W s; re_shallow : shallow s; re_fresh : fresh ts (tree_items (s_fragments s));
  re_undo : keyed_wf (s_undo_map s) ∧ height (s_undo_map s) < STACK_CAP;
  re_stamped : stamped (tree_items (s_fragments s));
  re_older : ∀ f, f ∈ tree_items (s_fragments s) → seen v f = true → lt_b ts (f_timestamp f) = false;
  re_ranges : ranges_ok W (s_fragments s) v 0 edits;
  re_total : (N.of_nat (length (rope_text (s_visible_text s)) + length (rope_text (s_deleted_text s)) +
    length (concat (new_text_of edits))) <= U32_MAX)%N;
}.

Definition remote_post (W : Lamport → list N) (s : BufferSnapshot) (v : Global) (edits : list (nat * nat * list N)) (ts : Lamport)
    (r : option Patch * BufferSnapshot) : Prop :=
  let '(patch, s') := r in let patch := from_option id [] patch in
  buffer_ok (with_text W ts (concat (new_text_of edits))) s' ∧ edited ts s s' ∧
  layout (tree_items (s_fragments s')) =
    integrate v (undone_at (s_undo_map s) v) ts edits 0 0 (layout (tree_items (s_fragments s))) ∧
  rewrites 0 0 (rope_text (s_visible_text s)) patch (rope_text (s_visible_text s')) ∧ separated patch.

Lemma cut_with W ts x v F a : fresh ts F → cut_ok W v (cells F) a → cut_ok (with_text W ts x) v (cells F) a.
Proof using.
  intros Hfr. unfold cut_ok. destruct (seen_cells v (cells F) !! a) as [c|] eqn:E; [|done]. unfold char_start, with_text.
  apply list_elem_of_lookup_2 in E. unfold seen_cells in E. apply list_elem_of_In, List.filter_In in E as [E%list_elem_of_In _].
  destruct c as [t i]. cbn. apply elem_of_cells in E as (f & Hf & <- & _). unfold fresh in Hfr. rewrite Forall_forall in Hfr.
  destruct (decide (f_timestamp f = ts)) as [E|]; [by destruct (Hfr f Hf)|done].
Qed.
Lemma ranges_with W ts x v t o edits : fresh ts (tree_items t) → ranges_ok W t v o edits → ranges_ok (with_text W ts x) t v o edits.
Proof using.
  intros Hfr. revert o. induction edits as [|[[a e] y] edits IH]; intros o; [done|]. cbn. intros (H1 & H2 & H3 & H4 & H5 & H6).
  split; [done|]. split; [done|]. split; [by apply cut_with|]. split; [by apply cut_with|]. split; [done|by apply IH].
Qed.

Abbreviation remote_snapshot := (remote_snapshot par_chunks sort_insertions sort_slices max_insertion_len debug).
Lemma remote_snapshot_eq v s a e x edits ts :
  remote_snapshot v s (full_ranges_of ((a, e, x) :: edits)) (new_text_of ((a, e, x) :: edits)) ts =
  (let* st := begin_at (s_visible_text s) (s_deleted_text s) (s_fragments s) v a in
   let* '(c, fragment_start, b) := remote_edits par_chunks max_insertion_len debug v (S (tree_size (s_fragments s))) (s_undo_map s) ts st
     (as_full <$> (a, e, x) :: edits) in
   let* '(c, b) := consume_rest v c fragment_start b in
   let* '(suffix, _) := suffix_of v c in
   let* snapshot := install_edit par_chunks sort_insertions sort_slices s suffix b in
   Ret (Some (b_patch b), snapshot)).
Proof using.
  unfold remote_snapshot, begin_at. rewrite zip_edits. cbn [full_ranges_of fmap list_fmap].
  destruct (rope_cursor (s_visible_text s) 0) as [cv| |]; [|done..]. destruct (rope_cursor (s_deleted_text s) 0) as [cd| |]; [|done..]. cbn beta iota.
  destruct (Cursor.slice _ _ _) as [[i c]| |]; [|done..]. cbn beta iota. destruct (ropes_append _ _); [|done..]. cbn beta iota.
  by destruct (start_full c).
Qed.

Lemma remote_snapshot_spec W s v edits ts : receivable W s v edits ts →
  returns (remote_snapshot v s (full_ranges_of edits) (new_text_of edits) ts) (remote_post W s v edits ts).
Proof using Type*.
  intros [Hok Hsh Hfr [Hm Hmh] Hst Hold Hra Htot]. set (W' := with_text W ts (concat (new_text_of edits))).
  pose proof (snapshot_setup W s ts _ Hok Hsh Hfr Htot) as Hset. fold W' in Hset. pose proof Hset as [HV HD SV SD _ _ HF EV ED _ _].
  destruct edits as [|[[a e] x] edits].
  { apply returns_Ret. destruct Hok. split; [by split|]. split.
    { split; try done; [intros g Hg; right; exists g; split; [done|apply derived_self]|].
      apply not_of_all. intros i. apply (fresh_cells _ _ _ _ _ Hset _ []). by rewrite app_nil_r. }
    split_and!; try done; constructor. }
  rewrite remote_snapshot_eq.
  destruct (rwalk_begin W' _ _ _ ts v Hset Hst a) as ([[c0 st0] b0] & -> & q & l & Hw & Hb0 & Hq & Est).
  assert (E : tree_items (s_fragments s) = q ++ l) by by destruct Hw as [[E]].
  assert (Hra' : ranges_ok W' (s_fragments s) v st0 ((a, e, x) :: edits)).
  { apply (ranges_with W ts (concat (new_text_of ((a, e, x) :: edits)))) in Hra; [|done]. fold W' in Hra. destruct Hra as [H1 H2]. split; [|done].
    destruct Hq as [->|?]; [by rewrite Est|lia]. }
  destruct (remote_edits_spec W' _ _ _ ts Hset v Hst Hold debug par_chunks Hpar max_insertion_len Hmax _ Hm Hmh (S (tree_size (s_fragments s)))
    ((a, e, x) :: edits)) with (p := q) (l := l) (k := 0) (out := q) (c := c0) (st := st0) (b := b0)
    as ([[c1 st1] b1] & -> & p1 & l1 & k1 & out1 & x1 & y1 & Hw1 & Hl1 & Hi); [|done|done| |].
  { pose proof (tree_size_items _ _ _ _ _ Hset). lia. }
  { rewrite Hb0. cbn [drop]. unfold W'. by rewrite with_text_ts. }
  destruct (consume_rest_spec _ _ _ _ _ Hset v _ _ _ _ _ _ _ Hw1) as ([c2 b2] & -> & p2 & l2 & out2 & st2 & x2 & Hw2 & _ & Hl2 & _ & _).
  destruct Hw2 as [Hk2 Hc2 _ _ Hids2]. unfold suffix_of.
  destruct (suffix_items (s_fragments s) c2 p2 l2 (su_tree _ _ _ _ _ Hset) (F_valid _ _ _ _ _ Hset) (su_height _ _ _ _ _ Hset) Hc2) as ([sl c3] & -> & Hsl & Esl).
  destruct Hok. destruct (install_spec W' s ts par_chunks sort_insertions sort_slices Hpar Hsi Hss Hset bo_index bo_slices Hsh _ _ _ _ _ Hk2 Hids2 Hsl Esl)
    as (s' & -> & Hok' & Hed & Ei & Hrw & Hsep).
  apply returns_Ret. unfold remote_post. cbn [from_option id]. split; [done|]. split; [done|]. split; [|split; [by rewrite EV|done]].
  destruct Hl1 as (_ & ext1 & -> & Ey1), Hl2 as (El2 & ext2 & -> & Ex2).
  rewrite Ei, !layout_app, E, layout_app, integrate_past, count_seen_layout, <-Est by (rewrite count_seen_layout, <-Est; destruct Hq as [->|?]; [by right|by left]).
  rewrite Hb0, rest_0 in Hi. rewrite Hi, El2, Ey1, Ex2, rest_0. by rewrite <-!app_assoc.
Qed.
End Apply.

(** ** A local edit integrates its operation *)
Lemma take_seen_all v n L : Forall (λ c, a_seen v c = true) L → take_seen v n L = (take n L, drop n L).
Proof.
  intros HL. revert n. induction HL as [|c L Hc _ IH]; intros n; [by destruct n|]. cbn [take_seen]. destruct n as [|n]; [done|]. cbn.
  by rewrite Hc, Nat.sub_0_r, IH.
Qed.
Lemma overlay_integrate v u ts edits off o n L :
  Forall (λ c, a_seen v c = true ∧ lt_b ts (a_stamp c) = false ∧ a_was v u c = a_visible c) L → places_ok o n edits →
  integrate v u ts edits off o L = overlay ts edits off o L.
Proof.
  revert off o L. induction edits as [|[[a e] x] edits IH]; intros off o L HL; [done|]. intros (Ha & He & Hr). cbn [integrate overlay].
  assert (Hseen : ∀ K, Forall (λ c, a_seen v c = true ∧ lt_b ts (a_stamp c) = false ∧ a_was v u c = a_visible c) K → Forall (λ c, a_seen v c = true) K).
  { intros K HK. eapply Forall_impl; [exact HK|]. by intros c (? & _). }
  rewrite take_seen_all by (by apply Hseen). pose proof (Forall_drop _ (a - o) _ HL) as HL1.
  assert (pass_greater ts (drop (a - o) L) = ([], drop (a - o) L)) as ->.
  { destruct HL1 as [|c K (_ & Hc & _)]; [done|]. cbn. by rewrite Hc. }
  rewrite take_seen_all by (by apply Hseen). rewrite drop_drop. replace (a - o + (e - a)) with (e - o) by lia.
  rewrite IH by (by apply Forall_drop || done). cbn [app]. do 3 f_equal. apply (Forall_take _ (e - a)) in HL1.
  induction HL1 as [|c K (_ & _ & Hc) _ IHK]; [done|]. cbn. f_equal; [|exact IHK]. unfold hide, struck. by rewrite Hc.
Qed.
Lemma take_seen_eq v n L : (take_seen v n L).1 ++ (take_seen v n L).2 = L.
Proof.
  revert n. induction L as [|c L IH]; intros n; [done|]. cbn [take_seen]. destruct (n =? 0); [done|].
  specialize (IH (if a_seen v c then n - 1 else n)). destruct (take_seen _ _ _). cbn in *. by f_equal.
Qed.
Lemma pass_greater_eq ts L : (pass_greater ts L).1 ++ (pass_greater ts L).2 = L.
Proof.
  induction L as [|c L IH]; [done|]. cbn [pass_greater]. destruct (lt_b _ _); [|done]. destruct (pass_greater ts L). cbn in *. by f_equal.
Qed.
Lemma integrate_length v u ts edits off o L : length (integrate v u ts edits off o L) = length L + length (concat (snd <$> edits)).
Proof.
  revert off o L. induction edits as [|[[a e] x] edits IH]; intros off o L; [cbn; lia|]. cbn [integrate fmap list_fmap concat snd].
  pose proof (take_seen_eq v (a - o) L) as E1. destruct (take_seen v (a - o) L) as [K L1]. pose proof (pass_greater_eq ts L1) as E2.
  destruct (pass_greater ts L1) as [G L2]. pose proof (take_seen_eq v (e - a) L2) as E3. destruct (take_seen v (e - a) L2) as [R L3]. cbn [fst snd] in *.
  rewrite !length_app, length_fmap, IH. unfold fresh_cells_of. rewrite length_fmap, length_seq. subst. rewrite !length_app. lia.
Qed.

(** ** Texts of layouts *)
Lemma same_text W W' F G : same_layout (layout F) (layout G) → (∀ t, W t = W' t) → vis_text W F = vis_text W' G.
Proof.
  intros H HW. rewrite !vis_text_bytes, <-!layout_vcells, (same_shown _ _ H). f_equal. apply list_fmap_ext. intros i c _. unfold byte_at. by rewrite HW.
Qed.
Lemma layout_older v ts F : (∀ f, f ∈ F → seen v f = true → lt_b ts (f_timestamp f) = false) → older v ts (layout F).
Proof.
  intros H. unfold older. induction F as [|f F IH]; [constructor|]. rewrite layout_cons. apply Forall_app. split.
  - apply Forall_forall. intros c Hc. unfold a_seen. rewrite (laid_stamp c f Hc). apply H. by left.
  - apply IH. intros g Hg. apply H. by right.
Qed.
Lemma ranges_places W t v o edits : ranges_ok W t v o edits → places_ok o (count_seen v (layout (tree_items t))) edits.
Proof.
  rewrite count_seen_layout. revert o. induction edits as [|[[a e] x] edits IH]; intros o; [done|]. intros (H1 & H2 & _ & _ & _ & H3).
  split; [done|]. split; [done|]. by apply IH.
Qed.
Lemma ranges_transfer W W' t t' v o edits : seen_cells v (cells (tree_items t')) = seen_cells v (cells (tree_items t)) →
  (∀ x, x ∈ seen_cells v (cells (tree_items t)) → W' x.1 = W x.1) → ranges_ok W t v o edits → ranges_ok W' t' v o edits.
Proof.
  intros Hc HW. assert (Hcut : ∀ a, cut_ok W v (cells (tree_items t)) a → cut_ok W' v (cells (tree_items t')) a).
  { intros a. unfold cut_ok. rewrite Hc. destruct (seen_cells v (cells (tree_items t)) !! a) as [x|] eqn:E; [|done].
    apply list_elem_of_lookup_2 in E. unfold char_start. by rewrite HW. }
  revert o. induction edits as [|[[a e] x] edits IH]; intros o; [done|]. intros (H1 & H2 & H3 & H4 & H5 & H6).
  rewrite <-seen_cells_length in H2. split; [done|]. split; [by rewrite <-seen_cells_length, Hc|].
  split; [by apply Hcut|]. split; [by apply Hcut|]. split; [done|by apply IH].
Qed.

(** ** An edit does not disturb operations that have not seen it *)
Lemma seen_cells_not_of v ts c : observed v ts = false → seen_cells v (not_of ts c) = seen_cells v c.
Proof.
  intros Hts. unfold seen_cells, not_of. induction c as [|x c IH]; [done|]. cbn. case_bool_decide as E; cbn.
  - rewrite E, Hts. exact IH.
  - destruct (observed v x.1); [by rewrite IH|done].
Qed.
Lemma elem_seen_cells v ts c x : observed v ts = false → x ∈ seen_cells v c → x.1 ≠ ts.
Proof. intros Hts Hx E. unfold seen_cells in Hx. apply list_elem_of_In, List.filter_In in Hx as [_ Hx]. by rewrite E, Hts in Hx. Qed.
Lemma edited_seen v ts s s' : edited ts s s' → observed v ts = false →
  seen_cells v (cells (tree_items (s_fragments s'))) = seen_cells v (cells (tree_items (s_fragments s))).
Proof. intros Hed Hts. by rewrite <-(ed_kept _ _ _ Hed), seen_cells_not_of. Qed.
(** What holds of all stamps, or of all stamps and deletions, still holds. *)
Lemma edited_stamps (P : Lamport → Prop) ts s s' : edited ts s s' → P ts →
  (∀ f, f ∈ tree_items (s_fragments s) → P (f_timestamp f)) → ∀ g, g ∈ tree_items (s_fragments s') → P (f_timestamp g).
Proof. intros Hed Hts HF g Hg. destruct (ed_origin _ _ _ Hed g Hg) as [(-> & _)|(f & Hf & -> & _)]; [done|by apply HF]. Qed.
Lemma edited_fresh ts ts' s s' : edited ts s s' → ts ≠ ts' → fresh ts' (tree_items (s_fragments s)) → fresh ts' (tree_items (s_fragments s')).
Proof.
  intros Hed Hne Hfr. unfold fresh in *. rewrite Forall_forall in *. intros g Hg.
  destruct (ed_origin _ _ _ Hed g Hg) as [(-> & _ & Ed & _)|(f & Hf & E & _ & _ & Hd)]; [rewrite Ed; split; [done|by apply not_elem_of_nil]|].
  destruct (Hfr f Hf) as [H1 H2]. rewrite E. split; [done|]. destruct Hd as [[_ ->]|[_ ->]]; [done|].
  rewrite elem_of_app, list_elem_of_singleton. intros [?|?]; congruence.
Qed.
Lemma buffer_lengths W s : buffer_ok W s →
  length (rope_text (s_visible_text s)) + length (rope_text (s_deleted_text s)) = length (layout (tree_items (s_fragments s))).
Proof.
  intros Hok. rewrite (bo_visible_text _ _ Hok), (bo_deleted_text _ _ Hok), layout_length, vis_text_length, del_text_length; [done|..]; by destruct (bo_doc _ _ Hok).
Qed.

Lemma receivable_after W s v edits ts v' edits' ts' patch s' :
  receivable W s v edits ts → receivable W s v' edits' ts' → remote_post W s v edits ts (patch, s') →
  ts ≠ ts' → observed v' ts = false → shallow s' → (0 < value ts)%N →
  (N.of_nat (length (layout (tree_items (s_fragments s))) + length (concat (new_text_of edits)) + length (concat (new_text_of edits'))) <= U32_MAX)%N →
  receivable (with_text W ts (concat (new_text_of edits))) s' v' edits' ts'.
Proof.
  intros [Hok _ _ _ _ _ _ _] [Hok' Hsh' Hfr' Hundo Hst Hold Hra _] (Hok1 & Hed & Hlay & _) Hne Hts Hsh Hpos Htot. split; try done.
  - by eapply edited_fresh.
  - by rewrite (ed_undo _ _ _ Hed).
  - unfold stamped in *. rewrite Forall_forall in *. by eapply (edited_stamps (λ t, 0 < value t)%N).
  - by eapply (edited_stamps (λ t, observed v' t = true → lt_b ts' t = false)); [|rewrite Hts|].
  - eapply ranges_transfer; [by eapply edited_seen| |exact Hra]. intros x Hx. unfold with_text.
    by rewrite decide_False by (by eapply elem_seen_cells).
  - rewrite (buffer_lengths _ _ Hok1), Hlay, integrate_length. exact Htot.
Qed.

(** ** The snapshot of a replica that is up to date *)
Record up_to_date (s : BufferSnapshot) : Prop := {
  ud_seen : Forall (λ f, observed (s_version s) (f_timestamp f) = true) (tree_items (s_fragments s));
  ud_shown : Forall (λ f, f_visible f = was (s_version s) (undone_at (s_undo_map s) (s_version s)) f) (tree_items (s_fragments s));
}.
Definition newest (ts : Lamport) (s : BufferSnapshot) : Prop :=
  Forall (λ f, lt_b ts (f_timestamp f) = false) (tree_items (s_fragments s)).

(** ** The ranges of an operation are at the starts of characters *)
Section Starts.
Context (W : Lamport → list N) (V D : Rope) (t : fragment_tree) (ts : Lamport).
Hypothesis Hset : setup W V D t ts.
Abbreviation F := (tree_items t).
Abbreviation X := (vis_text W F).
Lemma head_char l : Forall (frag_ok W) l → match cells l !! 0 with Some c => char_start W c | None => True end.
Proof using.
  intros [|f l' (Hpos & Hlen & _ & Hu & _) _]; [done|]. rewrite cells_cons, lookup_app_l by (rewrite fragment_cells_length; lia).
  unfold fragment_cells. rewrite list_lookup_fmap, lookup_seq_lt by done. cbn. unfold char_start. cbn. rewrite Nat.add_0_r.
  destruct (W (f_timestamp f) !! f_insertion_offset f) as [b|] eqn:E; [|done].
  assert (text_of W f !! 0 = Some b) as Hh by (unfold text_of; rewrite lookup_take_lt, lookup_drop, Nat.add_0_r by lia; done).
  destruct (text_of W f) as [|b' s] eqn:Et; [done|]. injection Hh as ->. by eapply utf8_head.
Qed.
Lemma full_char a o : full_at t a o → str_is_char_boundary X a = true →
  match cells F !! full_offset o with Some c => char_start W c | None => True end.
Proof using Hset.
  intros (p & l & k & E & Hk & -> & ->) Hb. destruct (old_frags W V D t ts Hset p l E) as [Hp Hl].
  assert (Hlen : length (cells p) = visible_len p + deleted_len p) by (by rewrite <-layout_cells, length_fmap, layout_length).
  rewrite E, cells_app, lookup_app_r, Hlen by lia. replace (_ + _ + k - _) with k by lia.
  destruct Hk as [->|(f & l' & -> & Hf & Hk)]; [by apply head_char|]. destruct (Nat.eq_dec k 0) as [->|Hk0]; [by apply head_char|].
  apply Forall_cons in Hl as [Hfo Hl]. rewrite cells_cons. destruct (Nat.eq_dec k (f_len f)) as [->|Hne].
  { rewrite lookup_app_r, fragment_cells_length, Nat.sub_diag by (rewrite fragment_cells_length; lia). by apply head_char. }
  destruct (window W V D t ts Hset p f l' k 0 E Hf ltac:(lia)) as (_ & Eb & _). rewrite Eb in Hb.
  assert (Hpart : frag_ok W (part f k (f_len f - k))).
  { apply frag_ok_part; [done|lia|lia|done|]. replace (k + (f_len f - k)) with (f_len f) by lia. rewrite <-(text_of_length W f Hfo). apply str_boundary_end. }
  pose proof (head_char [part f k (f_len f - k)] ltac:(by constructor)) as Hh. rewrite cells_cons, app_nil_r in Hh.
  assert (fragment_cells f = fragment_cells (part f 0 k) ++ fragment_cells (part f k (f_len f - k))) as ->.
  { pose proof (cells_split f 0 k (f_len f - k)) as H. cbn [Nat.add] in H. rewrite H. replace (k + (f_len f - k)) with (f_len f) by lia. by rewrite part_whole. }
  rewrite <-app_assoc, lookup_app_r, fragment_cells_length by (rewrite fragment_cells_length; cbn; lia).
  cbn [part f_len]. rewrite Nat.sub_diag, lookup_app_l by (rewrite fragment_cells_length; cbn; lia). exact Hh.
Qed.
End Starts.

Section Local.
Context (normal : list N → list N).
Abbreviation op_edits op := (full_edits (eo_ranges op) (eo_new_text op)).
Lemma op_edits_parts (op : EditOperation) : length (eo_ranges op) = length (eo_new_text op) →
  full_ranges_of (op_edits op) = eo_ranges op ∧ new_text_of (op_edits op) = eo_new_text op.
Proof.
  unfold full_edits, full_ranges_of, new_text_of. generalize (eo_new_text op) as xs. induction (eo_ranges op) as [|[r1 r2] rs IH]; intros [|x xs]; try done.
  intros [= H]. destruct (IH xs H) as [IH1 IH2]. cbn. rewrite IH1, IH2. by destruct r1, r2.
Qed.

(** A local edit has the effect of the remote edit it asks for. *)
Lemma local_is_remote W s edits ts op patch s' : up_to_date s → newest ts s →
  edit_post normal W s edits ts (op, patch, s') → remote_post W s (s_version s) (op_edits op) ts (Some patch, s').
Proof.
  intros [Hse Hsh] Hnew (Hok & Hed & _ & Hrw & Hsep & Ets & Ever & Ext & _ & _ & Hlen & Hpl & Hlay). unfold remote_post. cbn [from_option id].
  destruct (op_edits_parts op Hlen) as [_ ->]. rewrite Ext. rewrite Ext in Hlay, Hpl. split; [done|]. split; [done|]. split; [|done].
  rewrite Hlay, Ets. symmetry. eapply overlay_integrate; [|exact Hpl]. clear -Hse Hsh Hnew. unfold newest in Hnew.
  induction (tree_items (s_fragments s)) as [|f F IH]; [constructor|]. apply Forall_cons in Hse as [Hs Hse], Hsh as [Hv Hsh], Hnew as [Hn Hnew].
  rewrite layout_cons. apply Forall_app. split; [|by apply IH]. apply Forall_forall. intros c Hc. unfold a_seen.
  rewrite (laid_stamp c f Hc), (a_was_laid _ _ f c Hc). split; [done|]. split; [done|]. apply elem_of_laid in Hc as (_ & _ & ->). done.
Qed.

Lemma op_ranges W V D t ts' v op edits o : setup W V D t ts' → Forall (λ f, observed v (f_timestamp f) = true) (tree_items t) →
  eo_new_text op = texts normal edits → full_ranges t edits (eo_ranges op) → edits_ok normal (vis_text W (tree_items t)) o edits →
  ∀ q, places_ok q (length (layout (tree_items t))) (op_edits op) → ranges_ok W t v q (op_edits op).
Proof.
  intros Hset Hse Ex. assert (Ec : seen_cells v (cells (tree_items t)) = cells (tree_items t)).
  { clear -Hse. induction Hse as [|f F Hf _ IH]; [done|]. rewrite cells_cons, seen_cells_app, IH, seen_cells_fragment. unfold seen. by rewrite Hf. }
  assert (Hcut : ∀ a r, full_at t a r → str_is_char_boundary (vis_text W (tree_items t)) a = true → cut_ok W v (cells (tree_items t)) (full_offset r)).
  { intros a r Hr Hb. unfold cut_ok. rewrite Ec. by eapply full_char. }
  assert (El : length (layout (tree_items t)) = seen_len v (tree_items t)) by (by rewrite <-seen_cells_length, Ec, <-layout_cells, length_fmap).
  rewrite El. unfold full_edits. rewrite Ex. clear Ex. revert o. generalize (eo_ranges op) as rs.
  induction edits as [|[[a e] x] edits IH]; intros rs o Hfull Hed q; inversion Hfull as [|? [r1 r2] ? rs' [H1 H2] Hfull' E1 E2]; subst; [done|].
  destruct Hed as (_ & (_ & Hb1 & Hb2) & Hu & Hed). cbn [fst snd texts fmap list_fmap zip_with places_ok ranges_ok] in *. intros (P1 & P2 & P3).
  split; [done|]. split; [done|]. split; [by eapply Hcut|]. split; [by eapply Hcut|]. split; [done|]. by eapply IH.
Qed.

Lemma receivable_local W s edits ts op patch s' : editable normal W s edits ts → up_to_date s → newest ts s →
  keyed_wf (s_undo_map s) ∧ height (s_undo_map s) < STACK_CAP → stamped (tree_items (s_fragments s)) →
  edit_post normal W s edits ts (op, patch, s') → receivable W s (s_version s) (op_edits op) ts.
Proof.
  intros [Hok Hsh Hfr Hed Htot] [Hse _] Hnew Hundo Hst (_ & _ & _ & _ & _ & _ & _ & Ext & Hfull & _ & Hlen & Hpl & _).
  destruct (op_edits_parts op Hlen) as [_ En]. pose proof (snapshot_setup W s ts _ Hok Hsh Hfr Htot) as Hset.
  pose proof Hset as [_ _ _ _ _ _ _ EV _ _ _]. split; try done.
  - intros f Hf _. unfold newest in Hnew. rewrite Forall_forall in Hnew. by apply Hnew.
  - rewrite EV in Hed. eapply ranges_transfer; [done| |by eapply op_ranges]. intros x Hx. unfold with_text.
    destruct (decide (x.1 = ts)) as [E|]; [|done]. unfold seen_cells in Hx. apply list_elem_of_In, List.filter_In in Hx as [Hx%list_elem_of_In _].
    destruct x as [t i]. apply elem_of_cells in Hx as (f & Hf & Et & _). cbn in E. unfold fresh in Hfr. rewrite Forall_forall in Hfr. destruct (Hfr f Hf). congruence.
  - by rewrite En, Ext.
Qed.
End Local.

(** ** Snapshots with the same document *)
Record same_document (s s' : BufferSnapshot) : Prop := {
  sd_layout : layout (tree_items (s_fragments s)) = layout (tree_items (s_fragments s'));
  sd_undo : tree_items (s_undo_map s) = tree_items (s_undo_map s');
}.
Lemma same_undone s s' v : same_document s s' → undone_at (s_undo_map s) v = undone_at (s_undo_map s') v.
Proof. intros [_ H]. unfold undone_at. by rewrite H. Qed.
Lemma elem_of_layout c F : c ∈ layout F ↔ ∃ f, f ∈ F ∧ c ∈ laid f.
Proof.
  induction F as [|f F IH]; [split; [by intros ?%not_elem_of_nil|by intros (? & ?%not_elem_of_nil & _)]|].
  rewrite layout_cons, elem_of_app, IH. setoid_rewrite elem_of_cons. naive_solver.
Qed.
(** A fragment as its cells say. *)
Lemma layout_fragments F G (P : Lamport → list Lamport → Prop) : layout F = layout G → Forall (λ f, 0 < f_len f) G →
  (∀ f, f ∈ F → P (f_timestamp f) (f_deletions f)) → ∀ g, g ∈ G → P (f_timestamp g) (f_deletions g).
Proof.
  intros E HG HF g Hg. rewrite Forall_forall in HG. specialize (HG g Hg).
  destruct (laid g) as [|c L] eqn:El; [apply (f_equal length) in El; rewrite laid_length in El; cbn in El; lia|].
  assert (Hc : c ∈ laid g) by (rewrite El; by left).
  assert (c ∈ layout F) as (f & Hf & Hcl)%elem_of_layout by (rewrite E; apply elem_of_layout; by exists g).
  rewrite <-(laid_stamp c g Hc), (laid_stamp c f Hcl). apply elem_of_laid in Hc as (_ & <- & _). apply elem_of_laid in Hcl as (_ & -> & _). by apply HF.
Qed.
Lemma doc_positive W F : doc_ok W F → Forall (λ f, 0 < f_len f) F.
Proof. intros [Hf _ _]. eapply Forall_impl; [exact Hf|]. by intros f (? & _). Qed.
Lemma receivable_same W s s' v edits ts : receivable W s v edits ts → same_document s s' → buffer_ok W s' → shallow s' →
  keyed_wf (s_undo_map s') ∧ height (s_undo_map s') < STACK_CAP → receivable W s' v edits ts.
Proof.
  intros [Hok _ Hfr _ Hst Hold Hra Htot] [El _] Hok' Hsh' Hundo. pose proof (doc_positive _ _ (bo_doc _ _ Hok')) as Hpos.
  unfold fresh, stamped in *. rewrite Forall_forall in Hfr, Hst. split; try done.
  - apply Forall_forall. exact (layout_fragments _ _ (λ t d, t ≠ ts ∧ ts ∉ d) El Hpos Hfr).
  - apply Forall_forall. exact (layout_fragments _ _ (λ t _, 0 < value t)%N El Hpos Hst).
  - exact (layout_fragments _ _ (λ t _, observed v t = true → lt_b ts t = false) El Hpos Hold).
  - eapply ranges_transfer; [by rewrite <-!layout_cells, El|done|done].
  - rewrite (buffer_lengths _ _ Hok'), <-El, <-(buffer_lengths _ _ Hok). exact Htot.
Qed.

(** * Operations of other replicas, on a buffer

    [apply_op] keeps the invariant of buffers, and tells exactly those who
    waited for what it brought. *)
(** ** Who is told *)
Record released (ids : list Lamport) (b b' : Buffer) : Prop := {
  rl_versions : ∀ w, w ∈ b_wait_for_version_txs b' ↔ w ∈ b_wait_for_version_txs b ∧ observed_all (b_version b') w.1 = false;
  rl_edits : ∀ r, r ∈ b_edit_id_resolvers b' ↔ r ∈ b_edit_id_resolvers b ∧ r.1 ∉ ids;
  rl_told : ∀ tx, tx ∈ b_notified b' ↔ tx ∈ b_notified b ∨ (∃ r, r ∈ b_edit_id_resolvers b ∧ r.1 ∈ ids ∧ tx ∈ r.2) ∨
    (∃ w, w ∈ b_wait_for_version_txs b ∧ observed_all (b_version b') w.1 = true ∧ w.2 = tx);
}.
Lemma elem_of_list_filter' {A} (f : A → bool) l x : x ∈ List.filter f l ↔ x ∈ l ∧ f x = true.
Proof. by rewrite !list_elem_of_In, List.filter_In. Qed.
Lemma resolve_released ids b c : b_wait_for_version_txs c = b_wait_for_version_txs b →
  (∀ r, r ∈ b_edit_id_resolvers c ↔ r ∈ b_edit_id_resolvers b ∧ r.1 ∉ ids) →
  (∀ tx, tx ∈ b_notified c ↔ tx ∈ b_notified b ∨ ∃ r, r ∈ b_edit_id_resolvers b ∧ r.1 ∈ ids ∧ tx ∈ r.2) →
  released ids b (resolve_versions c).
Proof.
  intros Ew Hr Hn. split; unfold resolve_versions; cbn; change (b_version (with_waiters _ _ _ _)) with (b_version c).
  - intros w. by rewrite elem_of_list_filter', negb_true_iff, Ew.
  - exact Hr.
  - intros tx. rewrite elem_of_app, list_elem_of_fmap, Hn, Ew. setoid_rewrite elem_of_list_filter'. split.
    + intros [[?|?]|(w & -> & ? & ?)]; [by left|by right; left|right; right; by exists w].
    + intros [?|[?|(w & ? & ? & <-)]]; [left; by left|left; by right|right; by exists w].
Qed.
Lemma resolve_edit_waiters ts b :
  (∀ r, r ∈ b_edit_id_resolvers (resolve_edit b ts) ↔ r ∈ b_edit_id_resolvers b ∧ r.1 ∉ [ts]) ∧
  (∀ tx, tx ∈ b_notified (resolve_edit b ts) ↔ tx ∈ b_notified b ∨ ∃ r, r ∈ b_edit_id_resolvers b ∧ r.1 ∈ [ts] ∧ tx ∈ r.2).
Proof.
  split; unfold resolve_edit; cbn.
  - intros r. by rewrite elem_of_list_filter', negb_true_iff, bool_decide_eq_false, list_elem_of_singleton.
  - intros tx. rewrite elem_of_app. apply or_iff_compat_l. setoid_rewrite list_elem_of_singleton.
    induction (b_edit_id_resolvers b) as [|r rs IH]; [split; [by intros ?%not_elem_of_nil|by intros (? & ?%not_elem_of_nil & _)]|].
    cbn [List.filter]. case_bool_decide as E; cbn [fmap list_fmap concat]; rewrite ?elem_of_app; setoid_rewrite elem_of_cons.
    + split.
      * intros [?|(q & ? & ? & ?)%IH]; [exists r; split_and!; [by left|done|done]|exists q; split_and!; [by right|done|done]].
      * intros (q & [->|?] & ? & ?); [by left|right; apply IH; by exists q].
    + rewrite IH. split; intros (q & H & ? & ?); [exists q; split_and!; [by right|done|done]|]. exists q. destruct H as [->|?]; [done|done].
Qed.

Section Apply.
Context (par_chunks : ∀ A : Type, nat → list A → list (list A)).
Context (sort_insertions : list insertion_edit → list insertion_edit).
Context (sort_slices : list (Edit (MapEntry InsertionSlice unit) (MapKey InsertionSlice)) →
  list (Edit (MapEntry InsertionSlice unit) (MapKey InsertionSlice))).
Context (max_insertion_len : N) (debug : bool).
Context (sort_by_insertion : list InsertionSlice → list InsertionSlice) (sort_locators : list Locator → list Locator).
Context (sort_undos : list (Edit UndoMapEntry UndoMapKey) → list (Edit UndoMapEntry UndoMapKey)).
Hypotheses (Hpar : chunks_spec par_chunks) (Hsi : sort_spec sort_insertions) (Hss : sort_spec sort_slices).
Hypothesis Hmax : (4 <= max_insertion_len)%N.
Hypotheses (Hby : sorts_slices sort_by_insertion) (Hloc : sorts_locators sort_locators) (Hsu : sort_spec sort_undos).
Abbreviation apply_op := (apply_op par_chunks sort_insertions sort_slices max_insertion_len debug sort_by_insertion sort_locators sort_undos).

(** What an operation asks of the buffer: that it comes from another replica,
    and can be applied to the snapshot. *)
Definition op_ready (W : Lamport → list N) (b : Buffer) (op : BufferOperation) : Prop :=
  replica_id (op_timestamp op) ≠ replica_id (b_lamport_clock b) ∧
  (N.max (value (b_lamport_clock b)) (value (op_timestamp op)) < U32_MAX)%N ∧
  match op with
  | OpEdit e => ∃ edits, eo_ranges e = full_ranges_of edits ∧ eo_new_text e = new_text_of edits ∧
      receivable W (b_snapshot b) (eo_version e) edits (eo_timestamp e)
  | OpUndo u => undoable sort_undos W (b_snapshot b) u
  end.
(** The texts of the insertions after an operation. *)
Definition op_texts (W : Lamport → list N) (op : BufferOperation) : Lamport → list N :=
  match op with OpEdit e => with_text W (eo_timestamp e) (concat (eo_new_text e)) | OpUndo _ => W end.
(** What an operation does to the document. *)
Definition op_effect (op : BufferOperation) (s s' : BufferSnapshot) : Prop :=
  match op with
  | OpEdit e => edited (eo_timestamp e) s s' ∧ layout (tree_items (s_fragments s')) =
      integrate (eo_version e) (undone_at (s_undo_map s) (eo_version e)) (eo_timestamp e)
        (full_edits (eo_ranges e) (eo_new_text e)) 0 0 (layout (tree_items (s_fragments s)))
  | OpUndo u => undid sort_undos u s s'
  end.
Record op_applied (W : Lamport → list N) (seen : gmap nat (list N)) (op : BufferOperation) (b b' : Buffer) : Prop := {
  oa_inv : buffer_inv (op_texts W op) seen b';
  oa_effect : op_effect op (b_snapshot b) (with_version (b_snapshot b') (b_version b));
  oa_version : b_version b' = observe (b_version b) (op_timestamp op);
  oa_clock : b_lamport_clock b' = MkLamport (N.max (value (b_lamport_clock b)) (value (op_timestamp op)) + 1) (replica_id (b_lamport_clock b));
  oa_history : b_history b' = b_history b;
  oa_deferred : b_deferred_ops b' = b_deferred_ops b ∧ b_deferred_replicas b' = b_deferred_replicas b;
  oa_released : released (match op with OpEdit e => [eo_timestamp e] | OpUndo _ => [] end) b b';
}.

Lemma publish_snapshot W seen b patch s' : session_inv (buffer_session b seen) → buffer_ok W s' →
  rewrites 0 0 (rope_text (s_visible_text (b_snapshot b))) patch (rope_text (s_visible_text s')) →
  returns (publish (b_subscriptions b) patch) (λ tp, session_inv (MkSession tp (rope_text (s_visible_text s')) seen)).
Proof using.
  clear Hmax. intros Hs Hok Hrw. eapply (publish_inv (buffer_session b seen)); [exact Hs| |exact Hrw].
  pose proof (rope_small _ (bo_visible _ _ Hok)). unfold small, fits, U32_MAX, ISIZE_MAX in *. lia.
Qed.
(** The invariant, when the clock has seen a stamp of another replica. *)
Lemma foreign_issued c ts F : replica_id ts ≠ replica_id c → Forall (λ f, Forall (issued c) (stamps f)) F →
  ∀ g, (f_timestamp g = ts ∧ f_deletions g = [] ∨ ∃ f, f ∈ F ∧ f_timestamp g = f_timestamp f ∧ ∀ d, d ∈ f_deletions g → d ∈ f_deletions f ∨ d = ts) →
  Forall (issued c) (stamps g).
Proof using.
  intros Hts HF g Hg. assert (Hits : issued c ts) by (by intros ?). rewrite Forall_forall in HF. unfold stamps in *.
  destruct Hg as [(-> & ->)|(f & Hf & -> & Hd)]; [constructor; [done|constructor]|].
  specialize (HF f Hf). apply Forall_cons in HF as [H1 H2]. constructor; [done|]. rewrite Forall_forall in H2 |- *.
  intros d Hd'. destruct (Hd d Hd') as [?| ->]; [by apply H2|done].
Qed.
Lemma edited_foreign c ts s s' : edited ts s s' → replica_id ts ≠ replica_id c →
  Forall (λ f, Forall (issued c) (stamps f)) (tree_items (s_fragments s)) → Forall (λ f, Forall (issued c) (stamps f)) (tree_items (s_fragments s')).
Proof using.
  intros Hed Hts HF. apply Forall_forall. intros g Hg. eapply foreign_issued; [done|exact HF|].
  destruct (ed_origin _ _ _ Hed g Hg) as [(-> & _ & -> & _)|(f & Hf & E & _ & _ & Hd)]; [by left|right].
  exists f. split; [done|]. split; [done|]. intros d. destruct Hd as [[_ ->]|[_ ->]]; [by left|]. rewrite elem_of_app, list_elem_of_singleton. tauto.
Qed.

Lemma observed_clock c ts : (N.max (value c) (value ts) < U32_MAX)%N →
  Lamport_observe c ts = MkLamport (N.max (value c) (value ts) + 1) (replica_id c).
Proof using. clear Hmax. intros H. unfold Lamport_observe. f_equal. apply wrap_small. unfold U32_MAX in H. lia. Qed.
Lemma foreign_inv W seen b s' tp h ts : buffer_ok W s' → session_inv (MkSession tp (rope_text (s_visible_text s')) seen) →
  Forall (λ f, Forall (issued (b_lamport_clock b)) (stamps f)) (tree_items (s_fragments s')) → history_ok h (b_lamport_clock b) → map_wf (h_operations h) →
  (N.max (value (b_lamport_clock b)) (value ts) < U32_MAX)%N → ∀ b', b_snapshot b' = s' → b_subscriptions b' = tp → b_history b' = h →
  b_lamport_clock b' = Lamport_observe (b_lamport_clock b) ts → buffer_inv W seen b'.
Proof using.
  clear Hmax. intros Hok Hs Hf Hh Hm Hc b' <- <- <- E. rewrite observed_clock in E by done. split; try done; rewrite E.
  - eapply issued_next; [| |exact Hf]; [done|cbn; lia].
  - eapply (history_step_ok (b_history b') (b_lamport_clock b)); [apply hs_clock; [done|cbn; lia]|done].
Qed.

Lemma apply_op_spec W seen b op : buffer_inv W seen b → op_ready W b op → observed (b_version b) (op_timestamp op) = false →
  returns (apply_op b op) (op_applied W seen op b).
Proof using Type*.
  intros [Hok Hiss Hhist Hops Hses] (Hrep & Hclk & Hop) Hobs. unfold Remote.apply_op. destruct op as [e|u]; cbn [op_timestamp] in *; rewrite Hobs; cbn [negb].
  - destruct Hop as (edits & Er & Ex & Hrec). unfold apply_remote_edit. rewrite Er, Ex.
    destruct (remote_snapshot_spec par_chunks sort_insertions sort_slices max_insertion_len debug Hpar Hsi Hss Hmax W _ _ _ _ Hrec)
      as ([patch s'] & -> & Hok' & Hed & Hlay & Hrw & _).
    assert (returns (match patch with
      | Some edits_patch => let* subscriptions := publish (b_subscriptions (with_snapshot b s')) edits_patch in
          Ret (with_subscriptions (with_snapshot b s') subscriptions)
      | None => Ret (with_snapshot b s') end) (λ b1, ∃ tp, session_inv (MkSession tp (rope_text (s_visible_text s')) seen) ∧
        b1 = with_subscriptions (with_snapshot b s') tp)) as (b1 & -> & tp & Hses' & ->).
    { destruct patch as [patch|].
      - destruct (publish_snapshot _ _ _ _ _ Hses Hok' Hrw) as (tp & Etp & Htp). cbn [from_option] in Etp. unfold id in Etp. cbn [with_snapshot b_subscriptions]. rewrite Etp.
        apply returns_Ret. by exists tp.
      - apply returns_Ret. exists (b_subscriptions b). split; [|by destruct b]. cbn in Hrw. unfold buffer_session in Hses.
        assert (rope_text (s_visible_text (b_snapshot b)) = rope_text (s_visible_text s')) as <- by (by inversion Hrw). exact Hses. }
    apply returns_Ret. set (b1 := observe_clock _ _). destruct (resolve_edit_waiters (eo_timestamp e) b1) as [Hw1 Hw2].
    assert (Hfe : full_edits (full_ranges_of edits) (new_text_of edits) = edits).
    { clear. unfold full_edits, full_ranges_of, new_text_of. induction edits as [|[[a d] x] edits IH]; [done|]. cbn. by f_equal. }
    split; try done.
    + cbn [op_texts]. rewrite Ex. eapply (foreign_inv _ _ b (b_snapshot b1) tp (b_history b) (eo_timestamp e)); try done; [by destruct Hok'|].
      exact (edited_foreign _ _ _ _ Hed Hrep Hiss).
    + cbn [op_effect]. rewrite Er, Ex, Hfe. split; [by destruct Hed|exact Hlay].
    + change (observe (s_version s') (eo_timestamp e) = observe (b_version b) (eo_timestamp e)). by rewrite (ed_version _ _ _ Hed).
    + cbn. by apply observed_clock.
    + by apply resolve_released.
  - unfold apply_undo. destruct (undo_snapshot_spec sort_by_insertion sort_locators sort_undos Hby Hloc Hsu W _ u Hop) as ([patch s'] & -> & Hok' & Hun & Hrw & _).
    destruct (publish_snapshot _ _ _ _ _ Hses Hok' Hrw) as (tp & -> & Hses'). apply returns_Ret. pose proof Hun as [_ Hfr _ _ Hver _ _ _].
    set (b1 := observe_clock _ _). split; try done.
    + eapply (foreign_inv _ _ b (b_snapshot b1) tp (b_history b) (undo_timestamp u)); try done; [by destruct Hok'|].
      cbn. rewrite Hfr. by apply issued_upd.
    + cbn [op_effect]. by destruct Hun.
    + change (observe (s_version s') (undo_timestamp u) = observe (b_version b) (undo_timestamp u)). by rewrite Hver.
    + cbn. by apply observed_clock.
    + apply resolve_released; [done|cbn; set_solver|cbn; set_solver].
Qed.
End Apply.
