(* ===== verification/RemoteSpec.v ===== *)
(** * Remote edits: theorems

    A remote edit does what [integrate] says; an operation does on another
    replica what its edit did on its own; concurrent operations can be applied
    in any order, so that replicas that have the same operations have the same
    text. *)
From stdpp Require Import base numbers option list sorting gmap.
From Stdlib Require Import Lia.
From S2P Require Import Prelude Integers Clock SumTree SumTreeFacts SumTreeBulk Cursor Keyed KeyedFacts TreeMap Locator UndoMap Patch PatchFacts.
From S2P Require Import Utf8 ChunkPointsFacts RopeTree Rope RopeBuild RopeSlice Fragment Snapshot Remote Document Walk Layout RemoteWalk LocalEdit RemoteEdit.
From S2P Require Import History Buffer BufferOk BufferEdit BufferLocal BufferSpec RemoteOps.
#[local] Opaque TREE_BASE av_cap.

Section Theorems.
Context (par_chunks : ∀ A : Type, nat → list A → list (list A)).
Context (sort_insertions : list insertion_edit → list insertion_edit).
Context (sort_slices : list (Edit (MapEntry InsertionSlice unit) (MapKey InsertionSlice)) →
  list (Edit (MapEntry InsertionSlice unit) (MapKey InsertionSlice))).
Context (normal : list N → list N) (max_insertion_len : N) (debug : bool).
Hypotheses (Hpar : chunks_spec par_chunks) (Hsi : sort_spec sort_insertions) (Hss : sort_spec sort_slices).
Hypothesis Hmax : (4 <= max_insertion_len)%N.
Abbreviation remote_snapshot := (remote_snapshot par_chunks sort_insertions sort_slices max_insertion_len debug).
Abbreviation apply_edit_internal := (apply_edit_internal par_chunks sort_insertions sort_slices normal max_insertion_len).
Abbreviation receive v s edits ts := (remote_snapshot v s (full_ranges_of edits) (new_text_of edits) ts).
Abbreviation receive_op s op := (remote_snapshot (eo_version op) s (eo_ranges op) (eo_new_text op) (eo_timestamp op)).
Abbreviation laid_out s := (layout (tree_items (s_fragments s))).
Abbreviation visible s := (rope_text (s_visible_text s)).

(** C4: Applying a remote edit whose ranges are places in what its version has
    seen returns; the new document is the old one with the edit integrated:
    each new text comes after the right number of bytes the version has seen
    and after the concurrent insertions there with a greater time stamp, and
    exactly the bytes the version saw as visible in its ranges are hidden. The
    invariant is kept, and the patch rewrites the old text to the new. *)
Theorem remote_edit_integrates W s v edits ts :
  receivable W s v edits ts →
  returns (receive v s edits ts) (λ '(patch, s'),
    laid_out s' = integrate v (undone_at (s_undo_map s) v) ts edits 0 0 (laid_out s) ∧
    buffer_ok (with_text W ts (concat (new_text_of edits))) s' ∧ edited ts s s' ∧
    rewrites 0 0 (visible s) (from_option id [] patch) (visible s') ∧ separated (from_option id [] patch)).
Proof using Hpar Hsi Hss Hmax.
  intros Hr. eapply returns_mono; [by eapply remote_snapshot_spec|]. intros [patch s'] (H1 & H2 & H3 & H4 & H5). done.
Qed.

(** Two remote edits one after the other. *)
Lemma receive_two W s v edits ts v' edits' ts' :
  receivable W s v edits ts → receivable W s v' edits' ts' → ts ≠ ts' → observed v' ts = false → (0 < value ts)%N →
  (N.of_nat (length (laid_out s) + length (concat (new_text_of edits)) + length (concat (new_text_of edits'))) <= U32_MAX)%N →
  (∀ r, receive v s edits ts = Ret r → shallow r.2) →
  returns (let* '(_, s1) := receive v s edits ts in receive v' s1 edits' ts') (λ '(_, s2),
    buffer_ok (with_text (with_text W ts (concat (new_text_of edits))) ts' (concat (new_text_of edits'))) s2 ∧
    laid_out s2 = integrate v' (undone_at (s_undo_map s) v') ts' edits' 0 0 (integrate v (undone_at (s_undo_map s) v) ts edits 0 0 (laid_out s))).
Proof using Hpar Hsi Hss Hmax.
  intros Hr Hr' Hne Hts Hpos Htot Hsh.
  destruct (remote_snapshot_spec par_chunks sort_insertions sort_slices max_insertion_len debug Hpar Hsi Hss Hmax W s v edits ts Hr) as ([patch s1] & E & Hpost).
  specialize (Hsh _ E). rewrite E. pose proof (receivable_after _ _ _ _ _ _ _ _ _ _ Hr Hr' Hpost Hne Hts Hsh Hpos Htot) as Hr1.
  destruct Hpost as (_ & Hed & Hlay & _).
  eapply returns_mono; [by eapply remote_snapshot_spec|]. intros [patch2 s2] (Hok2 & _ & Hlay2 & _).
  split; [done|]. by rewrite Hlay2, Hlay, (ed_undo _ _ _ Hed).
Qed.

(** C5: Remote edits that have not seen each other commute: applied to a
    snapshot in one order or the other they return, and lead to the same text,
    and to the same bytes in the same order with the same visibility. *)
Theorem concurrent_edits_commute W s v edits ts v' edits' ts' :
  receivable W s v edits ts → receivable W s v' edits' ts' →
  ts ≠ ts' → observed v' ts = false → observed v ts' = false → (0 < value ts)%N → (0 < value ts')%N →
  (N.of_nat (length (laid_out s) + length (concat (new_text_of edits)) + length (concat (new_text_of edits'))) <= U32_MAX)%N →
  (∀ r, receive v s edits ts = Ret r → shallow r.2) → (∀ r, receive v' s edits' ts' = Ret r → shallow r.2) →
  returns (let* '(_, s1) := receive v s edits ts in receive v' s1 edits' ts') (λ '(_, s2),
    returns (let* '(_, s1) := receive v' s edits' ts' in receive v s1 edits ts) (λ '(_, s2'),
      visible s2 = visible s2' ∧ same_layout (laid_out s2) (laid_out s2'))).
Proof using Hpar Hsi Hss Hmax.
  intros Hr Hr' Hne H1 H2 Hp Hp' Htot Hsh Hsh'.
  eapply returns_mono; [by apply (receive_two W s v edits ts)|]. intros [p s2] (Hok & Hlay).
  eapply returns_mono; [apply (receive_two W s v' edits' ts' v edits ts); [done|done|congruence|done|done|by rewrite <-Nat.add_assoc, (Nat.add_comm (length (concat _))), Nat.add_assoc|done]|].
  intros [p' s2'] (Hok' & Hlay'). assert (Hsame : same_layout (laid_out s2) (laid_out s2')).
  { rewrite Hlay, Hlay'. symmetry. apply integrate_comm; [done|done|done| | | |]; try (by eapply ranges_places; destruct Hr, Hr').
    - apply layout_older. by destruct Hr.
    - apply layout_older. by destruct Hr'. }
  split; [|done]. rewrite (bo_visible_text _ _ Hok), (bo_visible_text _ _ Hok'). apply same_text; [done|]. intros t. unfold with_text.
  destruct (decide (t = ts')), (decide (t = ts)); congruence.
Qed.

(** A replica at rest: its invariant holds, it shows what its version says,
    and an edit with the stamp [ts] would be its newest. *)
Record replica (W : Lamport → list N) (s : BufferSnapshot) (edits : list (nat * nat * list N)) (ts : Lamport) : Prop := {
  re_editable : editable normal W s edits ts; re_current : up_to_date s; re_newest : newest ts s;
  re_undos : keyed_wf (s_undo_map s) ∧ height (s_undo_map s) < STACK_CAP;
  re_stamps : stamped (tree_items (s_fragments s));
}.
Lemma local_edit_spec W s edits ts : replica W s edits ts →
  returns (apply_edit_internal s edits ts) (λ '(op, _, s1), ∃ e, eo_ranges op = full_ranges_of e ∧ eo_new_text op = new_text_of e ∧
    eo_version op = s_version s ∧ eo_timestamp op = ts ∧ concat (new_text_of e) = concat (texts normal edits) ∧
    receivable W s (s_version s) e ts ∧ ∃ patch, remote_post W s (s_version s) e ts (patch, s1)).
Proof using Hpar Hsi Hss Hmax.
  intros [Hed Hup Hnew Hundo Hst]. eapply returns_mono; [by apply apply_edit_spec|]. intros [[op patch] s1] Hpost.
  exists (full_edits (eo_ranges op) (eo_new_text op)). pose proof (receivable_local normal W s edits ts op patch s1 Hed Hup Hnew Hundo Hst Hpost) as Hrec.
  pose proof (local_is_remote normal W s edits ts op patch s1 Hup Hnew Hpost) as Hrem.
  destruct Hpost as (_ & _ & _ & _ & _ & Ets & Ever & Ext & _ & _ & Hlen & _). destruct (op_edits_parts op Hlen) as [-> En]. rewrite En.
  split_and!; try done; [by rewrite Ext|by eexists].
Qed.

(** C6: An operation does elsewhere what its edit did here: when the operation
    of a local edit is applied to another replica with the same document, it
    returns, and leads to the same document and the same text. *)
Theorem operation_replays W s s' edits ts :
  replica W s edits ts → same_document s s' → buffer_ok W s' → shallow s' →
  keyed_wf (s_undo_map s') ∧ height (s_undo_map s') < STACK_CAP →
  returns (apply_edit_internal s edits ts) (λ '(op, _, s1),
    returns (receive_op s' op) (λ '(_, s1'), visible s1' = visible s1 ∧ laid_out s1' = laid_out s1)).
Proof using Hpar Hsi Hss Hmax.
  intros Hr Hsame Hok' Hsh' Hundo. eapply returns_mono; [by apply local_edit_spec|].
  intros [[op patch] s1] (e & -> & -> & -> & -> & _ & Hrec & patch' & Hok1 & _ & Hlay1 & _).
  pose proof (receivable_same _ _ _ _ _ _ Hrec Hsame Hok' Hsh' Hundo) as Hrec'.
  eapply returns_mono; [by eapply remote_snapshot_spec|]. intros [patch2 s1'] (Hok1' & _ & Hlay1' & _).
  assert (E : laid_out s1' = laid_out s1) by (by rewrite Hlay1', Hlay1, (sd_layout _ _ Hsame), (same_undone _ _ _ Hsame)).
  split; [|done]. rewrite (bo_visible_text _ _ Hok1), (bo_visible_text _ _ Hok1'). apply same_text; [by rewrite E|done].
Qed.

(** C1: Replicas converge: when two replicas with the same document are edited
    at the same time, each on its own, and then each receives the operation of
    the other, all of this returns, and they show the same text, from the same
    bytes in the same order with the same visibility. *)
Theorem replicas_converge W s s' edits edits' ts ts' :
  replica W s edits ts → replica W s' edits' ts' → same_document s s' → s_version s = s_version s' →
  ts ≠ ts' → observed (s_version s) ts = false → observed (s_version s) ts' = false → (0 < value ts)%N → (0 < value ts')%N →
  (N.of_nat (length (laid_out s) + length (concat (texts normal edits)) + length (concat (texts normal edits'))) <= U32_MAX)%N →
  (∀ r, apply_edit_internal s edits ts = Ret r → shallow r.2) → (∀ r, apply_edit_internal s' edits' ts' = Ret r → shallow r.2) →
  returns (apply_edit_internal s edits ts) (λ '(op, _, s1), returns (apply_edit_internal s' edits' ts') (λ '(op', _, s1'),
    returns (receive_op s1 op') (λ '(_, s2), returns (receive_op s1' op) (λ '(_, s2'),
      visible s2 = visible s2' ∧ same_layout (laid_out s2) (laid_out s2'))))).
Proof using Hpar Hsi Hss Hmax.
  intros Hr Hr' Hsame Ever Hne H1 H2 Hp Hp' Htot Hsh Hsh'.
  destruct (local_edit_spec W s edits ts Hr) as ([[op patch] s1] & E1 & e & O1 & O2 & O3 & O4 & Hx & Hrec & patch1 & Hpost).
  destruct (local_edit_spec W s' edits' ts' Hr') as ([[op' patch'] s1'] & E1' & e' & O1' & O2' & O3' & O4' & Hx' & Hrec' & patch1' & Hpost').
  rewrite E1. apply returns_Ret. rewrite E1'. apply returns_Ret. rewrite O1, O2, O3, O4, O1', O2', O3', O4'. specialize (Hsh _ E1). specialize (Hsh' _ E1'). cbn [snd] in Hsh, Hsh'.
  rewrite <-Hx, <-Hx' in Htot. rewrite <-Ever in Hrec', Hpost' |- *.
  pose proof (re_editable _ _ _ _ Hr) as [Hok Hshs _ _ _]. pose proof (re_editable _ _ _ _ Hr') as [Hok' Hshs' _ _ _].
  assert (Hsame' : same_document s' s) by (by destruct Hsame).
  assert (HB : receivable W s (s_version s) e' ts') by (eapply receivable_same; [exact Hrec'|done|done|done|by destruct Hr]).
  assert (HA : receivable W s' (s_version s) e ts) by (eapply receivable_same; [exact Hrec|done|done|done|by destruct Hr']).
  pose proof (receivable_after _ _ _ _ _ _ _ _ _ _ Hrec HB Hpost Hne H1 Hsh Hp Htot) as HB1.
  pose proof (receivable_after _ _ _ _ _ _ _ _ _ _ Hrec' HA Hpost' ltac:(congruence) H2 Hsh' Hp') as HA1.
  rewrite <-(sd_layout _ _ Hsame), <-Nat.add_assoc, (Nat.add_comm (length (concat (new_text_of e')))), Nat.add_assoc in HA1. specialize (HA1 Htot).
  eapply returns_mono; [by eapply remote_snapshot_spec|]. intros [q s2] (Hok2 & _ & Hlay2 & _).
  eapply returns_mono; [by eapply remote_snapshot_spec|]. intros [q' s2'] (Hok2' & _ & Hlay2' & _).
  destruct Hpost as (_ & Hed & Hlay & _), Hpost' as (_ & Hed' & Hlay' & _).
  assert (Hsl : same_layout (laid_out s2) (laid_out s2')).
  { rewrite Hlay2, Hlay2', Hlay, Hlay', (ed_undo _ _ _ Hed), (ed_undo _ _ _ Hed'), <-(same_undone _ _ _ Hsame), <-(sd_layout _ _ Hsame).
    apply integrate_comm; [congruence|done|done| | | |]; try (by eapply ranges_places; destruct Hrec, HB).
    - apply layout_older. by destruct HB.
    - apply layout_older. by destruct Hrec. }
  split; [|done]. rewrite (bo_visible_text _ _ Hok2), (bo_visible_text _ _ Hok2'). apply same_text; [done|]. intros t. unfold with_text.
  destruct (decide (t = ts')), (decide (t = ts)); congruence.
Qed.
End Theorems.

(** ** A sample: two replicas of one buffer *)
Abbreviation sample := (b_snapshot sample_buffer).
Abbreviation here := (MkLamport 2 LOCAL).
Definition there : Lamport := MkLamport 2 (MkReplicaId 9).
(** "c" where the other replica puts "ab" for "y". *)
Definition other_edits : list (nat * nat * list N) := [(4, 4, [99]%N)].

(** Trees and ropes small enough for [shallow]. *)
Definition small_trees (s : BufferSnapshot) : bool :=
  forallb (λ n, n <=? 1) [length (tree_items (chunks (s_visible_text s))); length (tree_items (chunks (s_deleted_text s)))] &&
  forallb (λ n, n <? STACK_CAP) [height (chunks (s_visible_text s)); height (chunks (s_deleted_text s)); height (s_fragments s);
    height (s_insertions s); height (s_insertion_slices s)].
Lemma small_shallow W s : buffer_ok W s → small_trees s = true → shallow s.
Proof.
  intros [Hv Hd _ _ _ _ _ _] [H1 H2]%andb_true_iff. cbn [forallb] in *. rewrite !andb_true_iff, ?Nat.leb_le, ?Nat.ltb_lt in *.
  destruct H1 as (? & ? & _), H2 as (? & ? & ? & ? & ? & _). split; try done; by apply one_chunk_shallow.
Qed.
Definition small_result {A} (o : outcome (A * BufferSnapshot)) : bool := match o with Ret (_, s) => small_trees s | _ => false end.
Lemma small_results {A} W (o : outcome (A * BufferSnapshot)) : returns o (λ r, buffer_ok W r.2) → small_result o = true →
  ∀ r, o = Ret r → shallow r.2.
Proof. intros (r & -> & Hok) Hs r' [= <-]. destruct r as [a s]. by eapply small_shallow. Qed.

Lemma other_editable : editable id (base_text_of sample_rope) sample other_edits there.
Proof.
  destruct sample_editable as [Hok Hsh _ _ _]. destruct sample_buffer_ok as (_ & E & Hf). destruct sample_rope_ok as [_ Et]. split; [done|done| | |].
  - eapply Forall_impl; [exact Hf|]. intros f (-> & _ & -> & _). split; [done|apply not_elem_of_nil].
  - rewrite E, Et. cbn [other_edits edits_ok id]. split; [lia|]. split; [split_and!; vm_compute; (lia || done)|]. split; [|done].
    apply (utf8_cons [_]%N); [by vm_compute|constructor].
  - rewrite E. vm_compute. done.
Qed.
Lemma sample_current : up_to_date sample.
Proof. split; vm_compute; repeat constructor. Qed.
Lemma sample_undos : keyed_wf (s_undo_map sample) ∧ height (s_undo_map sample) < STACK_CAP.
Proof. split; [split; [by left|split; constructor]|vm_compute; lia]. Qed.
Lemma sample_stamped : stamped (tree_items (s_fragments sample)).
Proof. vm_compute. repeat constructor. Qed.
Lemma sample_replica : replica id (base_text_of sample_rope) sample sample_edits here.
Proof. split; [apply sample_editable|apply sample_current|vm_compute; repeat constructor|apply sample_undos|apply sample_stamped]. Qed.
Lemma other_replica : replica id (base_text_of sample_rope) sample other_edits there.
Proof. split; [apply other_editable|apply sample_current|vm_compute; repeat constructor|apply sample_undos|apply sample_stamped]. Qed.
Abbreviation sample_remote := (Remote.remote_snapshot Integers.chunks (insertion_sort edit_key) (insertion_sort edit_key) 16 true).
Abbreviation sample_local := (apply_edit_internal Integers.chunks (insertion_sort edit_key) (insertion_sort edit_key) id 16).

Lemma replicas_converge_witness :
  returns (sample_local sample sample_edits here) (λ '(op, _, s1), returns (sample_local sample other_edits there) (λ '(op', _, s1'),
    returns (sample_remote (eo_version op') s1 (eo_ranges op') (eo_new_text op') (eo_timestamp op')) (λ '(_, s2),
      returns (sample_remote (eo_version op) s1' (eo_ranges op) (eo_new_text op) (eo_timestamp op)) (λ '(_, s2'),
        rope_text (s_visible_text s2) = rope_text (s_visible_text s2'))))).
Proof.
  assert (Hsh : ∀ edits ts, editable id (base_text_of sample_rope) sample edits ts → small_result (sample_local sample edits ts) = true →
    ∀ r, sample_local sample edits ts = Ret r → shallow r.2).
  { intros edits ts He. eapply (small_results (with_text (base_text_of sample_rope) ts (concat (texts id edits)))).
    eapply returns_mono; [by apply (apply_edit_spec Integers.chunks (insertion_sort edit_key) (insertion_sort edit_key) id 16 chunks_ok insertion_sort_spec insertion_sort_spec ltac:(lia) _ _ _ _ He)|].
    by intros [[op patch] s'] (H & _). }
  destruct (replicas_converge Integers.chunks (insertion_sort edit_key) (insertion_sort edit_key) id 16 true chunks_ok insertion_sort_spec insertion_sort_spec ltac:(lia)
    (base_text_of sample_rope) sample sample sample_edits other_edits here there sample_replica other_replica) as ([[op patch] s1] & E1 & [[op' patch'] s1'] & E2 & [q s2] & E3 & [q' s2'] & E4 & Ht & _).
  - by split.
  - reflexivity.
  - discriminate.
  - vm_compute. reflexivity.
  - vm_compute. reflexivity.
  - reflexivity.
  - reflexivity.
  - vm_compute. discriminate.
  - apply Hsh; [apply sample_editable|by vm_compute].
  - apply Hsh; [apply other_editable|by vm_compute].
  - exists (op, patch, s1). split; [exact E1|]. exists (op', patch', s1'). split; [exact E2|]. exists (q, s2). split; [exact E3|]. exists (q', s2'). split; [exact E4|exact Ht].
Defined.

Lemma operation_replays_witness :
  returns (sample_local sample sample_edits here) (λ '(op, _, s1),
    returns (sample_remote (eo_version op) sample (eo_ranges op) (eo_new_text op) (eo_timestamp op)) (λ '(_, s1'),
      rope_text (s_visible_text s1') = rope_text (s_visible_text s1))).
Proof.
  destruct (operation_replays Integers.chunks (insertion_sort edit_key) (insertion_sort edit_key) id 16 true chunks_ok insertion_sort_spec insertion_sort_spec ltac:(lia)
    (base_text_of sample_rope) sample sample sample_edits here sample_replica) as ([[op patch] s1] & E1 & [q s1'] & E2 & Ht & _).
  - by split.
  - exact (proj1 sample_buffer_ok).
  - apply sample_shallow.
  - apply sample_undos.
  - exists (op, patch, s1). split; [exact E1|]. exists (q, s1'). split; [exact E2|exact Ht].
Defined.

Definition sample_seen : Global := s_version sample.
Lemma sample_receivable : receivable (base_text_of sample_rope) sample sample_seen sample_edits here.
Proof.
  destruct sample_editable as [Hok Hsh Hfr _ Htot]. split; [done|done|done|apply sample_undos|apply sample_stamped| | |exact Htot].
  - intros f Hf _. revert f Hf. apply Forall_forall. vm_compute. repeat constructor.
  - cbn [ranges_ok sample_edits]. split_and!; try (lia || (vm_compute; done) || (vm_compute; lia) || apply utf8_nil).
    do 2 (apply (utf8_cons [_]%N); [by vm_compute|]). apply utf8_nil.
Qed.
Lemma other_receivable : receivable (base_text_of sample_rope) sample sample_seen other_edits there.
Proof.
  destruct other_editable as [Hok Hsh Hfr _ Htot]. split; [done|done|done|apply sample_undos|apply sample_stamped| | |exact Htot].
  - intros f Hf _. revert f Hf. apply Forall_forall. vm_compute. repeat constructor.
  - cbn [ranges_ok other_edits]. split_and!; try (lia || (vm_compute; done) || (vm_compute; lia)).
    apply (utf8_cons [_]%N); [by vm_compute|]. apply utf8_nil.
Qed.
Abbreviation sample_receive edits ts s := (sample_remote sample_seen s (full_ranges_of edits) (new_text_of edits) ts).
(** "h\nab" of the old bytes and the new, with the deleted ones hidden. *)
Lemma remote_edit_integrates_witness :
  returns (sample_receive sample_edits here sample) (λ '(_, s'),
    (λ c, (a_cell c, a_visible c)) <$> layout (tree_items (s_fragments s')) =
    [((base_timestamp, 0), true); ((base_timestamp, 1), false); ((base_timestamp, 2), false); ((base_timestamp, 3), true);
     ((here, 0), true); ((here, 1), true); ((base_timestamp, 4), false)]).
Proof.
  destruct (remote_edit_integrates Integers.chunks (insertion_sort edit_key) (insertion_sort edit_key) 16 true chunks_ok insertion_sort_spec insertion_sort_spec ltac:(lia)
    (base_text_of sample_rope) sample sample_seen sample_edits here sample_receivable) as ([q s'] & E & Hl & _).
  exists (q, s'). split; [exact E|]. rewrite Hl. vm_compute. reflexivity.
Defined.
Lemma concurrent_edits_commute_witness :
  returns (let* '(_, s1) := sample_receive sample_edits here sample in sample_receive other_edits there s1) (λ '(_, s2),
    returns (let* '(_, s1) := sample_receive other_edits there sample in sample_receive sample_edits here s1) (λ '(_, s2'),
      rope_text (s_visible_text s2) = rope_text (s_visible_text s2'))).
Proof.
  assert (Hsh : ∀ edits ts, receivable (base_text_of sample_rope) sample sample_seen edits ts → small_result (sample_receive edits ts sample) = true →
    ∀ r, sample_receive edits ts sample = Ret r → shallow r.2).
  { intros edits ts He. eapply (small_results (with_text (base_text_of sample_rope) ts (concat (new_text_of edits)))).
    eapply returns_mono; [by apply (remote_snapshot_spec Integers.chunks (insertion_sort edit_key) (insertion_sort edit_key) 16 true chunks_ok insertion_sort_spec insertion_sort_spec ltac:(lia) _ _ _ _ _ He)|].
    by intros [patch s'] (H & _). }
  destruct (concurrent_edits_commute Integers.chunks (insertion_sort edit_key) (insertion_sort edit_key) 16 true chunks_ok insertion_sort_spec insertion_sort_spec ltac:(lia)
    (base_text_of sample_rope) sample sample_seen sample_edits here sample_seen other_edits there sample_receivable other_receivable) as ([q s2] & E & [q' s2'] & E' & Ht & _).
  - discriminate.
  - vm_compute. reflexivity.
  - vm_compute. reflexivity.
  - reflexivity.
  - reflexivity.
  - vm_compute. discriminate.
  - apply Hsh; [apply sample_receivable|by vm_compute].
  - apply Hsh; [apply other_receivable|by vm_compute].
  - exists (q, s2). split; [exact E|]. exists (q', s2'). split; [exact E'|exact Ht].
Defined.
