(* ===== verification/Delivery.v ===== *)
(** * The delivery of operations: theorems

    Operations are applied when what they depend on has been, and deferred
    otherwise; those of one replica are applied in the order in which they
    come, and those that wait are told. *)
From stdpp Require Import base numbers option list sorting gmap.
From Stdlib Require Import Lia.
From S2P Require Import Prelude Integers Clock SumTree SumTreeFacts SumTreeBulk Cursor Keyed KeyedFacts TreeMap Locator UndoMap OperationQueue Patch PatchFacts Subscription.
From S2P Require Import Utf8 Rope RopeTree RopeBuild Fragment Snapshot History HistorySpec Buffer Undo Remote Document Walk Layout RemoteEdit.
From S2P Require Import BufferOk LocalEdit BufferEdit BufferLocal BufferSpec UndoWalk UndoBuffer UndoSpec RemoteOps RemoteSpec.
#[local] Opaque TREE_BASE av_cap.
#[local] Existing Instances SliceKey_ord SliceKey_ord_laws.

Section Delivery.
Context (par_chunks : ∀ A : Type, nat → list A → list (list A)).
Context (sort_insertions : list insertion_edit → list insertion_edit).
Context (sort_slices : list (Edit (MapEntry InsertionSlice unit) (MapKey InsertionSlice)) →
  list (Edit (MapEntry InsertionSlice unit) (MapKey InsertionSlice))).
Context (max_insertion_len : N) (debug : bool).
Context (sort_by_insertion : list InsertionSlice → list InsertionSlice) (sort_locators : list Locator → list Locator).
Context (sort_undos : list (Edit UndoMapEntry UndoMapKey) → list (Edit UndoMapEntry UndoMapKey)).
Context (sort_ops : list BufferOperation → list BufferOperation).
Context (sort_by_key : list (Edit (OperationItem BufferOperation) (outcome Lamport)) →
  list (Edit (OperationItem BufferOperation) (outcome Lamport))).
Abbreviation apply_op := (apply_op par_chunks sort_insertions sort_slices max_insertion_len debug sort_by_insertion sort_locators sort_undos).
Abbreviation flush_ops := (flush_ops par_chunks sort_insertions sort_slices max_insertion_len debug sort_by_insertion sort_locators sort_undos).
Abbreviation flush_deferred_ops := (flush_deferred_ops par_chunks sort_insertions sort_slices max_insertion_len debug sort_by_insertion sort_locators
  sort_undos sort_ops sort_by_key).
Implicit Types b : Buffer.
Implicit Types op : BufferOperation.

Lemma apply_op_deferred b op b' : apply_op b op = Ret b' →
  b_deferred_ops b' = b_deferred_ops b ∧ b_deferred_replicas b' = b_deferred_replicas b.
Proof.
  unfold Remote.apply_op, apply_remote_edit, apply_undo. intros H. repeat (case_match; try discriminate); simplify_eq; done.
Qed.

(** ** One pass over operations *)
(** When an operation may be applied: none of its replica waits, and all that
    its version has seen has been observed. *)
Definition may_apply b op : Prop :=
  op_replica_id op ∉ b_deferred_replicas b ∧
  observed_all (b_version b) (match op with OpEdit edit => eo_version edit | OpUndo undo => undo_version undo end) = true.
Lemma can_apply_true b op : can_apply_op b op = true ↔ may_apply b op.
Proof. unfold can_apply_op, may_apply, op_version. case_bool_decide as H; [split; [done|by intros []]|by split; [|intros []]]. Qed.
Lemma can_apply_false b op : can_apply_op b op = false ↔ ¬ may_apply b op.
Proof. rewrite <-can_apply_true. by destruct (can_apply_op b op). Qed.

(** [offered b ops applied deferred b']: of [ops], offered to [b] one after the
    other, [applied] are applied, because they may be when it is their turn,
    and [deferred] are not, because they may not. *)
Inductive offered : Buffer → list BufferOperation → list BufferOperation → list BufferOperation → Buffer → Prop :=
| offered_nil b : offered b [] [] [] b
| offered_apply b op b1 ops applied deferred b2 :
    may_apply b op → apply_op b op = Ret b1 → offered b1 ops applied deferred b2 →
    offered b (op :: ops) (op :: applied) deferred b2
| offered_defer b op ops applied deferred b2 :
    ¬ may_apply b op → offered (defer_replica b op) ops applied deferred b2 →
    offered b (op :: ops) applied (op :: deferred) b2.

Lemma flush_offered b ops applied deferred b' : offered b ops applied deferred b' → flush_ops b ops = Ret (deferred, b').
Proof.
  induction 1 as [b|b op b1 ops applied deferred b2 Hc Ha _ IH|b op ops applied deferred b2 Hc _ IH]; [done|..]; cbn [Remote.flush_ops]; unfold apply_or_defer; [apply can_apply_true in Hc|apply can_apply_false in Hc]; rewrite Hc.
  - rewrite Ha. cbn. by rewrite IH.
  - cbn. by rewrite IH.
Qed.

Definition of_replica (r : ReplicaId) (ops : list BufferOperation) : list BufferOperation :=
  List.filter (λ op, bool_decide (op_replica_id op = r)) ops.
Lemma offered_order b ops applied deferred b' : offered b ops applied deferred b' → ∀ r,
  of_replica r ops = of_replica r applied ++ of_replica r deferred ∧
  (r ∈ b_deferred_replicas b → of_replica r applied = []) ∧
  (r ∈ b_deferred_replicas b' ↔ r ∈ b_deferred_replicas b ∨ of_replica r deferred ≠ []).
Proof.
  induction 1 as [b|b op b1 ops applied deferred b2 Hc Ha _ IH|b op ops applied deferred b2 Hc _ IH]; intros r.
  - split; [done|]. split; [done|]. cbn. tauto.
  - destruct (IH r) as (E & H1 & H2). destruct (apply_op_deferred _ _ _ Ha) as [_ Er]. rewrite Er in *. unfold of_replica in *. cbn [List.filter].
    split; [case_bool_decide; [cbn; by f_equal|done]|]. split; [|done]. intros Hr. case_bool_decide as Eo; [|by apply H1].
    destruct Hc as [Hc _]. rewrite Eo in Hc. done.
  - destruct (IH r) as (E & H1 & H2). cbn [defer_replica with_deferred b_deferred_replicas] in *. rewrite elem_of_cons in *. unfold of_replica in *. cbn [List.filter].
    case_bool_decide as Eo.
    + rewrite H1 in * by (left; congruence). split; [cbn in *; by rewrite E|]. split; [done|]. rewrite H2. split; [by right|intros _; left; by left].
    + split; [done|]. split; [auto|]. rewrite H2. split; [intros [[?|?]|?]; [congruence|by left|by right]|intros [?|?]; [left; by right|by right]].
Qed.
Lemma offered_returns (I : Buffer → Prop) ops b :
  (∀ b op, I b → op ∈ ops → may_apply b op → returns (apply_op b op) I) → (∀ b op, I b → I (defer_replica b op)) → I b →
  ∃ applied deferred b', offered b ops applied deferred b' ∧ I b'.
Proof.
  intros Hop Hd. revert b. induction ops as [|op ops IH]; intros b Hb; [exists [], [], b; split; [constructor|done]|].
  assert (Hop' : ∀ b op, I b → op ∈ ops → may_apply b op → returns (apply_op b op) I) by (intros; apply Hop; [done|by right|done]).
  destruct (can_apply_op b op) eqn:Hc.
  - apply can_apply_true in Hc. destruct (Hop b op Hb (list_elem_of_here _ _) Hc) as (b1 & Ha & Hb1). destruct (IH Hop' b1 Hb1) as (applied & deferred & b2 & Ho & Hb2).
    exists (op :: applied), deferred, b2. split; [by eapply offered_apply|done].
  - apply can_apply_false in Hc. destruct (IH Hop' _ (Hd b op Hb)) as (applied & deferred & b2 & Ho & Hb2). exists applied, (op :: deferred), b2. split; [by apply offered_defer|done].
Qed.

(** C8: A pass over operations returns when every operation that may be
    applied, when its turn comes, does; it applies an operation exactly if all
    that its version has seen has been observed by then and no operation of
    its replica has been deferred ([may_apply], in [offered]). So of the operations of each replica a first part is applied, in
    the order in which they came, and the rest is deferred, also in order; and
    the blocked replicas are those of the deferred operations. *)
Theorem deferral_keeps_order (I : Buffer → Prop) ops b :
  (∀ b op, I b → op ∈ ops → may_apply b op → returns (apply_op b op) I) → (∀ b op, I b → I (defer_replica b op)) → I b →
  returns (flush_ops b ops) (λ '(deferred, b'), I b' ∧ ∃ applied, offered b ops applied deferred b' ∧ ∀ r,
    of_replica r ops = of_replica r applied ++ of_replica r deferred ∧
    (r ∈ b_deferred_replicas b → of_replica r applied = []) ∧
    (r ∈ b_deferred_replicas b' ↔ r ∈ b_deferred_replicas b ∨ of_replica r deferred ≠ [])).
Proof.
  intros Hop Hd Hb. destruct (offered_returns I ops b Hop Hd Hb) as (applied & deferred & b' & Ho & Hb').
  rewrite (flush_offered _ _ _ _ _ Ho). apply returns_Ret. split; [done|]. exists applied. split; [done|]. by eapply offered_order.
Qed.

(** [delivered b ops b']: the operations can be applied one after the other. *)
Inductive delivered : Buffer → list BufferOperation → Buffer → Prop :=
| delivered_nil b : delivered b [] b
| delivered_cons b op b1 ops b2 :
    can_apply_op b op = true → apply_op b op = Ret b1 → delivered b1 ops b2 → delivered b (op :: ops) b2.
Lemma delivered_offered b ops b' : delivered b ops b' → offered b ops ops [] b' ∧
  b_deferred_ops b' = b_deferred_ops b ∧ b_deferred_replicas b' = b_deferred_replicas b.
Proof.
  induction 1 as [b|b op b1 ops b2 Hc Ha _ (IH1 & IH2 & IH3)]; [split; [constructor|done]|]. destruct (apply_op_deferred _ _ _ Ha) as [E1 E2].
  split; [eapply offered_apply; [by apply can_apply_true|done..]|]. by rewrite IH2, IH3, E1, E2.
Qed.

Hypothesis Hso : sort_ops_spec sort_ops.
Lemma sort_nothing : sort_ops [] = [].
Proof. apply Permutation_nil_r. by destruct (Hso []). Qed.

(** C9: No operation waits forever: when the deferred operations can be applied
    one after the other in the order of their time stamps (because what they
    were waiting for has come), flushing applies them all, in this order, and
    leaves none deferred and no replica blocked. *)
Theorem flush_delivers b b' :
  keyed_wf (b_deferred_ops b) → height (b_deferred_ops b) < STACK_CAP →
  delivered (with_deferred b queue_new []) (the_op <$> tree_items (b_deferred_ops b)) b' →
  flush_deferred_ops b = Ret b' ∧ b_deferred_ops b' = queue_new ∧ b_deferred_replicas b' = [] ∧ has_deferred_ops b' = Ret false.
Proof.
  intros Hq Hh Hd. destruct (delivered_offered _ _ _ Hd) as (Ho & Eo & Er). cbn [with_deferred b_deferred_ops b_deferred_replicas] in Eo, Er.
  split; [|split_and!; [done|done|by unfold has_deferred_ops; rewrite Eo]].
  unfold Remote.flush_deferred_ops. cbn [with_deferred b_deferred_ops queue_drain b_deferred_replicas].
  destruct (queue_reads_refine (b_deferred_ops b) Hq Hh) as (_ & -> & _). cbn beta iota.
  change (with_deferred (with_deferred b (b_deferred_ops b) []) new []) with (with_deferred b queue_new []).
  rewrite (flush_offered _ _ _ _ _ Ho). cbn beta iota. unfold insert_deferred, queue_insert. rewrite sort_nothing. cbn.
  f_equal. destruct b'; cbn in *. by subst.
Qed.
End Delivery.

(** ** One operation *)
Section Apply.
Context (par_chunks : ∀ A : Type, nat → list A → list (list A)).
Context (sort_insertions : list insertion_edit → list insertion_edit).
Context (sort_slices : list (Edit (MapEntry InsertionSlice unit) (MapKey InsertionSlice)) →
  list (Edit (MapEntry InsertionSlice unit) (MapKey InsertionSlice))).
Context (max_insertion_len : N) (debug : bool).
Context (sort_by_insertion : list InsertionSlice → list InsertionSlice) (sort_locators : list Locator → list Locator).
Context (sort_undos : list (Edit UndoMapEntry UndoMapKey) → list (Edit UndoMapEntry UndoMapKey)).
Hypotheses (Hpar : chunks_spec par_chunks) (Hsi : sort_spec sort_insertions) (Hss : sort_spec sort_slices).
Hypothesis Hmax : (4 <= max_insertion_len)%N.
Hypotheses (Hby : sorts_slices sort_by_insertion) (Hloc : sorts_locators sort_locators) (Hsu : sort_spec sort_undos).

Lemma apply_op_either W seen b op :
  buffer_inv W seen b → (observed (b_version b) (op_timestamp op) = false → op_ready sort_undos W b op) →
  returns (apply_op par_chunks sort_insertions sort_slices max_insertion_len debug sort_by_insertion sort_locators sort_undos b op) (λ b',
    if observed (b_version b) (op_timestamp op) then b' = resolve_versions b ∧ released [] b b'
    else op_applied sort_undos W seen op b b').
Proof using Type*.
  intros Hb Hop. destruct (observed (b_version b) (op_timestamp op)) eqn:Ho; [|by apply apply_op_spec; auto].
  unfold apply_op. destruct op; cbn [op_timestamp] in Ho; rewrite Ho; cbn [negb]; apply returns_Ret; (split; [done|]);
    (apply resolve_released; [done|set_solver|set_solver]).
Qed.
Lemma apply_op_told W seen b op :
  buffer_inv W seen b → (observed (b_version b) (op_timestamp op) = false → op_ready sort_undos W b op) →
  returns (apply_op par_chunks sort_insertions sort_slices max_insertion_len debug sort_by_insertion sort_locators sort_undos b op) (λ b',
    ∃ ids, released ids b b').
Proof using Type*.
  intros Hb Hop. eapply returns_mono; [by apply (apply_op_either W seen)|]. intros b' H. destruct (observed _ _); [exists []; by destruct H|].
  eexists. by destruct H.
Qed.

(** C7: Applying an operation of another replica to a buffer: if it has been
    observed, nothing changes, but waiters are told; otherwise the edit is
    integrated, or the undo counted; the invariant is kept, also that of the
    subscribers and the history; the operation is observed, the clock goes
    beyond its stamp, and exactly those are told who waited for its edit, or
    for a version that has been observed now. *)
Theorem apply_op_correct W seen b op :
  buffer_inv W seen b → (observed (b_version b) (op_timestamp op) = false → op_ready sort_undos W b op) →
  returns (apply_op par_chunks sort_insertions sort_slices max_insertion_len debug sort_by_insertion sort_locators sort_undos b op) (λ b',
    if observed (b_version b) (op_timestamp op) then b' = resolve_versions b ∧ released [] b b'
    else op_applied sort_undos W seen op b b').
Proof using Type*. apply apply_op_either. Qed.

(** ** Those who wait for a version *)
(** What is done here, an edit or an undo, tells nobody. *)
Definition same_waiters b c : Prop :=
  b_wait_for_version_txs c = b_wait_for_version_txs b ∧ b_edit_id_resolvers c = b_edit_id_resolvers b ∧ b_notified c = b_notified b.
Lemma same_poll b c futures : same_waiters b c → poll c futures = poll b futures.
Proof. intros (E1 & E2 & E3). induction futures as [|tx l IH]; [done|]. cbn. unfold held. by rewrite E1, E2, E3, IH. Qed.
Lemma edit_tells_nobody normal b edits now later op b' :
  buffer_edit par_chunks sort_insertions sort_slices normal max_insertion_len debug b edits now later = Ret (op, b') → same_waiters b b'.
Proof.
  unfold buffer_edit, start_transaction_at, end_transaction_at, apply_local_edit, push_operation. intros H.
  repeat (case_match; try discriminate); simplify_eq; done.
Qed.
Lemma undo_tells_nobody b tr op b' :
  undo_or_redo sort_by_insertion sort_locators sort_undos b tr = Ret (op, b') → same_waiters b b'.
Proof.
  unfold undo_or_redo, undo_operations, apply_undo, push_operation. intros H. repeat (case_match; try discriminate); simplify_eq; done.
Qed.
Lemma held_waiting b v tx : tx ∉ b_notified b → held b tx = false → observed_all (b_version b) v = false → ∀ b' ids, released ids (wait_for_version b v tx).2 b' →
  poll b' [tx] = if observed_all (b_version b') v then Done else Pending.
Proof.
  intros Hn Hh Eo b' ids [Hv _ Ht]. unfold wait_for_version in Hv, Ht. rewrite Eo in Hv, Ht. cbn [negb snd with_waiters b_wait_for_version_txs b_edit_id_resolvers b_notified] in Hv, Ht.
  unfold held in Hh. apply bool_decide_eq_false in Hh. rewrite elem_of_app in Hh. apply Decidable.not_or in Hh as [Hr Hw]. cbn [poll].
  assert (Hin : (v, tx) ∈ b_wait_for_version_txs b ++ [(v, tx)]) by (apply elem_of_app; right; by left).
  destruct (observed_all (b_version b') v) eqn:E2.
  - rewrite bool_decide_eq_true_2; [done|]. apply Ht. right. right. by exists (v, tx).
  - rewrite bool_decide_eq_false_2.
    + unfold held. rewrite bool_decide_eq_true_2; [done|]. apply elem_of_app. right. apply list_elem_of_fmap. exists (v, tx). split; [done|]. by apply Hv.
    + intros [?|[(r & Hr1 & _ & Hr2)|(w & Hw1 & Hw2 & Ew)]]%Ht; [done| |].
      * apply Hr. clear -Hr1 Hr2. induction (b_edit_id_resolvers b) as [|q rs IH]; [by apply not_elem_of_nil in Hr1|].
        cbn. apply elem_of_app. apply elem_of_cons in Hr1 as [->|?]; [by left|right; by apply IH].
      * apply elem_of_app in Hw1 as [Hw1|Hw1%list_elem_of_singleton]; [|rewrite Hw1 in Hw2; cbn in Hw2; congruence].
        apply Hw. rewrite <-Ew. by apply list_elem_of_fmap_2.
Qed.

(** C10: Waiting for a version: the future is done at once exactly if the
    version has been observed, and is pending otherwise; when the buffer gives
    up waiting, a pending future fails. Applying an operation of another
    replica returns, and then the future is done exactly if it was, or if the
    version has been observed by now; otherwise it is still pending. Edits and
    undos made here leave the future as it was, although they too are
    observed: it is only told when an operation is applied. *)
Theorem waiting_for_version W seen b v tx op :
  buffer_inv W seen b → (observed (b_version b) (op_timestamp op) = false → op_ready sort_undos W b op) →
  tx ∉ b_notified b → held b tx = false →
  let '(futures, b1) := wait_for_version b v tx in
  poll b1 futures = (if observed_all (b_version b) v then Done else Pending) ∧
  poll (give_up_waiting b1) futures = (if observed_all (b_version b) v then Done else GaveUp) ∧
  returns (apply_op par_chunks sort_insertions sort_slices max_insertion_len debug sort_by_insertion sort_locators sort_undos b1 op) (λ b2,
    poll b2 futures = if observed_all (b_version b) v || observed_all (b_version b2) v then Done else Pending) ∧
  (∀ normal edits now later o b2, buffer_edit par_chunks sort_insertions sort_slices normal max_insertion_len debug b1 edits now later = Ret (o, b2) →
    poll b2 futures = poll b1 futures) ∧
  (∀ tr o b2, undo_or_redo sort_by_insertion sort_locators sort_undos b1 tr = Ret (o, b2) → poll b2 futures = poll b1 futures).
Proof using Type*.
  intros Hb Hop Hn Hh. pose proof (held_waiting b v tx Hn Hh) as Hw.
  assert (Happ : returns (apply_op par_chunks sort_insertions sort_slices max_insertion_len debug sort_by_insertion sort_locators sort_undos
    (wait_for_version b v tx).2 op) (λ b2, ∃ ids, released ids (wait_for_version b v tx).2 b2)).
  { assert (Hb1 : buffer_inv W seen (wait_for_version b v tx).2) by (unfold wait_for_version; case_match; by destruct Hb).
    assert (Hop1 : observed (b_version (wait_for_version b v tx).2) (op_timestamp op) = false → op_ready sort_undos W (wait_for_version b v tx).2 op)
      by (unfold wait_for_version; by case_match).
    eapply returns_mono; [by apply (apply_op_told W seen)|done]. }
  unfold wait_for_version in *. destruct (observed_all (b_version b) v) eqn:Eo; cbn [negb snd] in *.
  - split_and!; [done|done|by eapply returns_mono|done|done].
  - specialize (Hw eq_refl). split_and!.
    + cbn [poll with_waiters b_notified]. rewrite bool_decide_eq_false_2 by done. unfold held. rewrite bool_decide_eq_true_2; [done|]. cbn.
      rewrite fmap_app, !elem_of_app. right. right. cbn. by left.
    + cbn [poll give_up_waiting with_waiters b_notified]. rewrite bool_decide_eq_false_2 by done. unfold held. rewrite bool_decide_eq_false_2; [done|]. cbn. apply not_elem_of_nil.
    + eapply returns_mono; [exact Happ|]. intros b2 (ids & Hr). by eapply Hw.
    + intros normal edits now later o b2 E. by eapply same_poll, edit_tells_nobody.
    + intros tr o b2 E. by eapply same_poll, undo_tells_nobody.
Qed.
End Apply.

(** ** Samples *)
Definition other_op : BufferOperation := OpEdit (MkEditOperation there sample_seen (full_ranges_of other_edits) (new_text_of other_edits)).
Abbreviation sample_apply := (apply_op Integers.chunks (insertion_sort edit_key) (insertion_sort edit_key) 16 true
  (insertion_sort slice_key) (insertion_sort id) (insertion_sort edit_key)).
Lemma other_ready b : b_snapshot b = sample → b_lamport_clock b = b_lamport_clock sample_buffer →
  op_ready (insertion_sort edit_key) (base_text_of sample_rope) b other_op.
Proof.
  intros E Ec. unfold op_ready. rewrite E, Ec. split; [by vm_compute|]. split; [by vm_compute|].
  exists other_edits. split; [done|]. split; [done|]. apply other_receivable.
Qed.
Lemma apply_op_correct_witness :
  returns (sample_apply sample_buffer other_op) (λ b', b_version b' = observe (b_version sample_buffer) there ∧
    buffer_inv (with_text (base_text_of sample_rope) there [99]%N) ∅ b').
Proof.
  destruct (apply_op_correct Integers.chunks (insertion_sort edit_key) (insertion_sort edit_key) 16 true (insertion_sort slice_key) (insertion_sort id)
    (insertion_sort edit_key) chunks_ok insertion_sort_spec insertion_sort_spec ltac:(lia) slices_sorted locators_sorted insertion_sort_spec
    (base_text_of sample_rope) ∅ sample_buffer other_op sample_inv) as (b' & E & H).
  - intros _. by apply other_ready.
  - assert (observed (b_version sample_buffer) (op_timestamp other_op) = false) as Ho by (vm_compute; reflexivity). rewrite Ho in H.
    exists b'. split; [exact E|]. split; [exact (oa_version _ _ _ _ _ _ H)|exact (oa_inv _ _ _ _ _ _ H)].
Defined.

(** An operation that waits, and one that has been seen. *)
Definition early_op : BufferOperation :=
  OpEdit (MkEditOperation (MkLamport 9 (MkReplicaId 8)) (observe sample_seen (MkLamport 7 (MkReplicaId 8))) [] []).
Definition seen_op : BufferOperation := OpEdit (MkEditOperation base_timestamp Global_new [] []).
Lemma deferral_keeps_order_witness :
  returns (flush_ops Integers.chunks (insertion_sort edit_key) (insertion_sort edit_key) 16 true (insertion_sort slice_key) (insertion_sort id)
    (insertion_sort edit_key) sample_buffer [early_op; seen_op]) (λ '(deferred, b'), of_replica (MkReplicaId 8) deferred = [early_op] ∧ b_version b' = sample_seen).
Proof.
  destruct (deferral_keeps_order Integers.chunks (insertion_sort edit_key) (insertion_sort edit_key) 16 true (insertion_sort slice_key) (insertion_sort id)
    (insertion_sort edit_key) (λ b, b_version b = sample_seen) [early_op; seen_op] sample_buffer) as ([deferred b'] & E & Hb' & applied & Ho & Hr).
  - intros b op Hb [->|[->|[]%not_elem_of_nil]%elem_of_cons]%elem_of_cons.
    + intros [_ Hv]. rewrite Hb in Hv. vm_compute in Hv. discriminate.
    + intros _. unfold apply_op. cbn [seen_op op_timestamp eo_timestamp]. rewrite Hb. vm_compute (observed _ _). cbn [negb]. apply returns_Ret. exact Hb.
  - intros b op Hb. exact Hb.
  - reflexivity.
  - exists (deferred, b'). split; [exact E|]. split; [|exact Hb'].
    assert (deferred = [early_op]) as ->; [|by vm_compute]. vm_compute in E. injection E as <- _. reflexivity.
Defined.

Definition waiting_buffer : Buffer :=
  match queue_insert (insertion_sort op_timestamp) (insertion_sort edit_key) (queue_new (Op := BufferOperation)) [other_op] with
  | Ret q => with_deferred sample_buffer q [op_replica_id other_op] | _ => sample_buffer end.
Lemma ops_sorted : sort_ops_spec (insertion_sort op_timestamp).
Proof. intros ops. split; [apply insertion_sort_perm|apply insertion_sort_sorted]. Qed.
Lemma flush_delivers_witness :
  returns (flush_deferred_ops Integers.chunks (insertion_sort edit_key) (insertion_sort edit_key) 16 true (insertion_sort slice_key) (insertion_sort id)
    (insertion_sort edit_key) (insertion_sort op_timestamp) (insertion_sort edit_key) waiting_buffer) (λ b',
    has_deferred_ops b' = Ret false ∧ rope_text (s_visible_text (b_snapshot b')) = [104; 195; 169; 10; 99; 121]%N).
Proof.
  set (b1 := match sample_apply (with_deferred waiting_buffer queue_new []) other_op with Ret b => b | _ => sample_buffer end).
  destruct (flush_delivers Integers.chunks (insertion_sort edit_key) (insertion_sort edit_key) 16 true (insertion_sort slice_key) (insertion_sort id)
    (insertion_sort edit_key) (insertion_sort op_timestamp) (insertion_sort edit_key) ops_sorted waiting_buffer b1) as (E & _ & _ & Hd).
  - destruct (queue_insert_spec (insertion_sort op_timestamp) (insertion_sort edit_key) (queue_new (Op := BufferOperation)) [other_op]) as (q & E & Hq & _).
    + apply ops_sorted.
    + apply insertion_sort_spec.
    + split; [by left|]. split; constructor.
    + vm_compute. lia.
    + constructor; [by vm_compute|constructor].
    + unfold waiting_buffer. rewrite E. exact Hq.
  - vm_compute. lia.
  - assert (the_op <$> tree_items (b_deferred_ops waiting_buffer) = [other_op]) as -> by (vm_compute; reflexivity).
    apply (delivered_cons _ _ _ _ _ _ _ _ _ _ b1); [vm_compute; reflexivity|unfold b1; vm_compute; reflexivity|constructor].
  - exists b1. split; [exact E|]. split; [exact Hd|]. unfold b1. vm_compute. reflexivity.
Defined.

Lemma waiting_for_version_witness :
  let '(futures, b1) := wait_for_version sample_buffer (observe sample_seen there) 5 in
  poll b1 futures = Pending ∧ returns (sample_apply b1 other_op) (λ b2, poll b2 futures = Done).
Proof.
  pose proof (waiting_for_version Integers.chunks (insertion_sort edit_key) (insertion_sort edit_key) 16 true (insertion_sort slice_key) (insertion_sort id)
    (insertion_sort edit_key) chunks_ok insertion_sort_spec insertion_sort_spec ltac:(lia) slices_sorted locators_sorted insertion_sort_spec
    (base_text_of sample_rope) ∅ sample_buffer (observe sample_seen there) 5 other_op sample_inv) as H.
  assert (Ho : observed_all (b_version sample_buffer) (observe sample_seen there) = false) by (vm_compute; reflexivity).
  assert (Hw : wait_for_version sample_buffer (observe sample_seen there) 5 = ([5], (wait_for_version sample_buffer (observe sample_seen there) 5).2))
    by (vm_compute; reflexivity).
  rewrite Hw in H |- *. rewrite Ho in H. destruct H as (H1 & _ & (b2 & E & H2) & _).
  - intros _. by apply other_ready.
  - vm_compute. apply not_elem_of_nil.
  - vm_compute. reflexivity.
  - split; [exact H1|]. exists b2. split; [exact E|]. rewrite H2. cbn [orb].
    assert (Hv : observed_all (b_version b2) (observe sample_seen there) = true); [|by rewrite Hv].
    vm_compute in E. injection E as <-. vm_compute. reflexivity.
Defined.
